(* ===== verification/_CoqProject ===== *)
-Q . S2P
Prelude.v
Core.v
Decimal.v
Location.v
Codec.v
DataFiles.v
Schema.v
WriteProtocol.v
WalFrame.v
WalReplay.v
WalReplaySpec.v
WalState.v
WalGc.v
WalWriter.v
Durable.v
WalIdentity.v
Prepared.v
Buffer.v
BufferSpec.v
Catalog.v
CatalogSpec.v
Flush.v
FlushSpec.v
FlushFrame.v
Json.v
Idempotency.v
Node.v
NodeSpec.v
WalLease.v
Manifests.v
Pins.v
Leases.v
Sweep.v
Cache.v
CacheSpec.v
Deletes.v
Selection.v
Compaction.v
CompactionSpec.v
CompactionLock.v
Convert.v
ConvertSpec.v
Partitioning.v
ParquetStats.v
ParquetWriter.v
FlushWrite.v
ClientIp.v
Access.v
Admission.v
AdmissionSpec.v
FlightQuery.v
Config.v
Connections.v
MetadataCache.v
QueryEngine.v
Maintenance.v
Ddl.v
Pruning.v
PruningSpec.v
QueryScan.v
Cluster.v
Recovery.v
DdlExec.v
DdlSpec.v
DdlEffects.v
QueryRows.v
Lifecycle.v
FlightPut.v
RecoverySpec.v
RecoveryMain.v
