(* ===== verification/Prelude.v ===== *)
(** * TeoDB verification development

    TeoDB is a table engine over Iceberg tables in object storage.  A writer
    node accepts rows, appends them to a write-ahead log and keeps them in an
    in-memory buffer; a flush writes the buffered rows as Parquet files and
    commits them to the catalog; queries read the committed snapshot together
    with the buffered rows; background tasks compact small files, sweep orphan
    files and collect log segments; after a crash the log is replayed into the
    buffers.  This development models those parts as executable definitions and
    proves that they keep the rows, under failures of the disk, the object store
    and the catalog and under interleaving with other tasks and other nodes.

    ** Parts and files

    Paths are below [src/crates].  A definition keeps the name of the function
    or type it translates; where two source items share a name, the file tells
    them apart.

    - Vocabulary.  [Core.v]: [teodb-core] identifiers and errors.  [Decimal.v]:
      decimal text of machine integers.  [Location.v]: [location.rs].
      [DataFiles.v], [Schema.v]: [file.rs], [scalar.rs], [schema.rs] and the
      Arrow conversions of [teodb-query/src/conversion].  [Codec.v]: concrete
      codecs that instantiate serializer interfaces in examples.
      [WriteProtocol.v]: [write_protocol.rs], the identities of append commits
      and the checkpoints stored in table properties.
    - Write-ahead log, [teodb-storage/src/wal].  [WalFrame.v]:
      [segment/segment.rs], frames at byte level.  [WalReplay.v],
      [WalReplaySpec.v]: [replay.rs].  [WalState.v]: [state.rs].  [WalGc.v]:
      [gc.rs].  [WalWriter.v]: [writer.rs].  [Durable.v], [WalIdentity.v]:
      [identity.rs].  [Prepared.v]: [prepared.rs].  [WalLease.v]: the lease of
      [state.rs] below the path name, and [open], the disk usage and the release
      of [manager.rs].
    - Buffer and ingestion, [teodb-ingest/src].  [Buffer.v], [BufferSpec.v]:
      [buffer/table.rs].  [Json.v]: [json.rs].  [Idempotency.v]:
      [idempotency.rs].  [Node.v], [NodeSpec.v]: [buffer/registry.rs],
      [service/ingest.rs] and the operations of the log manager they call.
      [FlightPut.v]: [do_put] of [teodb-api/src/flight].
    - Flushing.  [Flush.v], [FlushSpec.v], [FlushFrame.v]: [flush/mod.rs] and
      [flush/commit.rs], from draining the buffer to the catalog commit.
      [Partitioning.v], [FlushWrite.v]: [flush/partitioning.rs] and
      [flush/write.rs].  [ParquetStats.v], [ParquetWriter.v]:
      [teodb-storage/src/parquet].
    - Catalog, [teodb-catalog/src].  [Catalog.v], [CatalogSpec.v]: the append
      guard, commits and their classification, status resolution.
      [Manifests.v]: [adapter/manifests.rs] and snapshot retention.
      [Convert.v], [ConvertSpec.v]: [convert].
    - Recovery.  [Recovery.v], [RecoverySpec.v], [RecoveryMain.v]:
      [teodb-ingest/src/replay.rs].
    - Maintenance.  [Pins.v], [Leases.v]: snapshot pins, in memory and leased
      through table properties.  [Sweep.v]: the orphan sweeper.
      [Selection.v], [Compaction.v], [CompactionSpec.v], [CompactionLock.v]:
      selection, execution, commit and locking of compactions.
      [Maintenance.v]: the cycles over all tables and the maintenance loop of
      [teodb-server/src/maintenance].
    - Reading.  [Deletes.v]: position deletes.  [Pruning.v], [PruningSpec.v]:
      file pruning.  [QueryScan.v]: the table providers.  [Cache.v],
      [CacheSpec.v]: the local object cache.  [QueryRows.v]: the JSON rows of a
      query response.  [MetadataCache.v]: the cache of table providers,
      [teodb-query/src/provider/metadata_cache.rs], as interleaved lookups.
      [QueryEngine.v]: [teodb-distributed/src/engine], a query from its
      preparation to the end of its stream.
    - Cluster.  [Cluster.v]: addresses, the codec of table scans, the scheduler's
      REST client, drain and restarts of [teodb-distributed/src], and the role
      configurations of [teodb-server/src/server/roles.rs].
    - Data definition.  [Ddl.v]: statements to plans, [teodb-query/src/ddl].
      [DdlExec.v], [DdlSpec.v], [DdlEffects.v]: the executor, the REST handlers
      of tables and namespaces, and the effects on the node,
      [teodb-api/src/ddl_effects.rs].
    - Requests, [teodb-api/src].  [ClientIp.v]: the address of a client behind
      proxies.  [Access.v]: authentication and authorization.  [Admission.v],
      [AdmissionSpec.v]: rate windows and per-principal permits.
      [FlightQuery.v]: Flight SQL queries, metadata commands and prepared
      statements, [flight/query], [flight/prepared.rs] and the dispatch of
      [flight/server.rs].
    - Process.  [Config.v]: the configuration of [teodb-server/src/config], its
      validation, and the security context.  [Connections.v]: the limit and the
      idle timeout of [teodb-server/src/server/incoming.rs].  [Lifecycle.v]:
      [teodb-core/src/lifecycle.rs] access by access,
      the readiness probe, and the drain of a data node in
      [teodb-server/src/server] as interleaved events.

    ** Conventions

    Unsigned integers are [N] and signed integers [Z], with the checked,
    saturating or wrapping operation of the source written out; a UUID is its
    128-bit number.  Fallible code returns [result], whose bind is the [?]
    operator.  Stateful code passes its state; one step is what the source does
    under one lock.  Replies of the disk, the object store, the catalog and the
    clock are arguments, so that a theorem about all arguments covers every
    failure.  Where a call awaits, the operations of other tasks in between are
    an argument as well.  Third-party code (Arrow, Parquet, DataFusion, Iceberg,
    serde, hashing) is a class of operations, with its documented behaviour as a
    class of laws; the [demo_] instances satisfy the laws and show that they can
    hold.  Messages built with [format!] are kept as their template.  A helper
    that translates a loop body or a branch carries no source item of its own:
    it belongs to the function that calls it.

    Components meet at interfaces.  The layout of a table's files is a class in
    [Flush.v] that [FlushWrite.v] implements with the catalog conversions; the
    storage backend is a class in [Cache.v] that the cache both uses and
    implements; [WalReplaySpec.v] defines the log as a list of frames, which
    garbage collection, the writer task and recovery are proved against.

    ** What the theorems show

    - The log: a torn write is never taken for corruption, replay returns
      exactly the live records in order, garbage collection does not change what
      replay returns, and the writer task is an append-only list of the
      acknowledged records.
    - The buffer: no entry is lost or counted twice in any history, the
      committed mark never passes an uncommitted generation, and a query overlay
      shows exactly the entries above its cutoff.
    - Ingestion and flush: an acknowledged ingest is in log and buffer, a flush
      loses no row whatever fails and reports a commit only on evidence, the
      files it writes hold its rows, each in its partition, and pass the
      validation before the commit.
    - The catalog: over all interleavings of writers and retries, published
      generation ranges are disjoint and increasing, and the status check tells
      a published request from an unpublished one.
    - Definition: a statement leaves the tables that stay in the catalog alone, a
      dropped table is not replayed, a purge deletes only its own directory, and
      a created table has the declared columns.
    - Requests: the authorizer decides as its policy reads, the address of a
      client cannot be forged past trusted proxies, rates and permits are
      bounded, and a refused request is granted after the delay it was told.
      The query engine is called for a Flight request only for an authorized
      principal; the ticket of a reply runs what was planned for the reply; the
      SQL of a metadata command asks for its filters, when they have no quote.
    - Process: validation of a configuration reports every violated bound, a
      configuration that loads can be used, and a security mode other than
      plaintext has what it names; open connections stay within their limit and
      time out exactly when idle.  At most one process holds a log root unless
      the lease file is
      removed under it, and a drain gives the lease up last.
    - Recovery: it returns, and when it succeeds every unflushed record is back
      in its buffer.
    - Maintenance: a sweep deletes only unreferenced old objects, a pinned
      snapshot stays protected, the files of a running query survive, a
      compaction runs under the lock of its table and leaves the visible rows
      as they were.
    - Reading: a response is the JSON array of the first rows or an error,
      pruning keeps every file with a matching row, a scan of a pinned
      snapshot returns exactly its live matching rows, and the cache is
      transparent and bounded.  A query's stream is that of one execution up to
      its first error; cached metadata is what the catalog sent for the table,
      stale only while it is being loaded or the catalog fails.
    - Cluster: a scan sent to an executor is the scan of the same descriptor, an
      address parses back, the drain ends within its window, and the waits
      between restarts double up to thirty seconds.

    Some theorems state a behaviour the code does not intend; they are named
    after it ([gc_race_loses_append], [failed_append_survives],
    [replace_race_duplicates_rows] and others) and give a concrete execution.

    ** Fuel

    Loops that are not structural take fuel: reading a log is given the number
    of bytes left, slicing a batch its number of rows, status checks and
    property updates the configured number of attempts.  Each has a lemma that
    the fuel given by its caller is enough, or its theorem states that the run
    returns.

    ** Not modelled

    Routing and response shaping over axum and tonic, and the admin views; the
    layers a configuration is read from and the assembly of the process;
    Ballista's scheduler and executors; SQL parsing, planning and sessions,
    which plug into DataFusion; the storage backends and their factory beyond
    the resolution of locations; metrics and observers.
    They call libraries that are not part of this repository or only carry
    values between the parts above.  The client, the performance suite and
    the test support are programs around the system. *)

From Stdlib Require Export NArith ZArith Lia Ascii.
From stdpp Require Export base strings sorting pretty countable gmap.
From stdpp Require Export list.
#[export] Set Warnings "-clear-no-such-hyp".



(** ** Fallible code

    [result E A] is Rust's [Result<A, E>]; the bind is the [?] operator, with
    stdpp's do-notation [x ← e; k]. *)
Inductive result (E A : Type) : Type :=
| Ok (a : A)
| Err (e : E).
Arguments Ok {E A} _.
Arguments Err {E A} _.

#[export] Instance result_ret E : MRet (result E) := λ A a, Ok a.
#[export] Instance result_bind E : MBind (result E) := λ A B f m,
  match m with Ok a => f a | Err e => Err e end.
#[export] Instance result_fmap E : FMap (result E) := λ A B f m,
  match m with Ok a => Ok (f a) | Err e => Err e end.

#[export] Instance result_eq_dec E A `{EqDecision E, EqDecision A} :
  EqDecision (result E A).
Proof. solve_decision. Defined.

Definition is_ok {E A} (m : result E A) : bool :=
  match m with Ok _ => true | Err _ => false end.

(** [Option::ok_or]. *)
Definition ok_or {E A} (o : option A) (e : E) : result E A :=
  match o with Some a => Ok a | None => Err e end.

(** [Result::map_err]. *)
Definition map_err {E F A} (f : E → F) (m : result E A) : result F A :=
  match m with Ok a => Ok a | Err e => Err (f e) end.

(** [if cond { return Err(e) }]: the early returns of the validators. *)
Definition reject_if {E} (cond : bool) (e : E) : result E unit :=
  if cond then Err e else Ok tt.

Lemma bind_Ok {E A B} (m : result E A) (f : A → result E B) b :
  m ≫= f = Ok b ↔ ∃ a, m = Ok a ∧ f a = Ok b.
Proof. destruct m; naive_solver. Qed.

Lemma bind_Err {E A B} (m : result E A) (f : A → result E B) e :
  m ≫= f = Err e ↔ m = Err e ∨ ∃ a, m = Ok a ∧ f a = Err e.
Proof. destruct m; naive_solver. Qed.

Lemma ok_or_Ok {E A} (o : option A) (e : E) a : ok_or o e = Ok a ↔ o = Some a.
Proof. destruct o; naive_solver. Qed.

Lemma map_err_Ok {E F A} (f : E → F) (m : result E A) a :
  map_err f m = Ok a ↔ m = Ok a.
Proof. destruct m; naive_solver. Qed.

Lemma reject_if_Ok {E} c (e : E) u : reject_if c e = Ok u ↔ c = false.
Proof. destruct c, u; naive_solver. Qed.

Lemma reject_if_Err {E} c (e e' : E) : reject_if c e = Err e' ↔ c = true ∧ e = e'.
Proof. destruct c; naive_solver. Qed.

(** A fallible left fold, for [for] loops whose body ends in [?]. *)
Fixpoint foldM {E A B} (f : A → B → result E A) (a : A) (l : list B) : result E A :=
  match l with
  | [] => Ok a
  | b :: l => a' ← f a b; foldM f a' l
  end.

(** [iter().map(f).collect::<Result<Vec<_>, _>>()]. *)
Fixpoint mapM_res {E A B} (f : A → result E B) (l : list A) : result E (list B) :=
  match l with
  | [] => Ok []
  | a :: l => b ← f a; bs ← mapM_res f l; Ok (b :: bs)
  end.

Lemma foldM_app {E A B} (f : A → B → result E A) a l1 l2 :
  foldM f a (l1 ++ l2) = foldM f a l1 ≫= λ a', foldM f a' l2.
Proof.
  revert a; induction l1 as [|b l1 IH]; intros a; [done|].
  simpl. destruct (f a b); simpl; auto.
Qed.

Lemma foldM_unit_Ok {E B} (f : unit → B → result E unit) l :
  (∀ b, b ∈ l → f tt b = Ok tt) → foldM f tt l = Ok tt.
Proof.
  induction l as [|b l IH]; intros Hl; simpl; [done|].
  rewrite Hl by (by left). apply IH. intros; apply Hl; by right.
Qed.

Lemma foldM_ext {E A B} (f g : A → B → result E A) a l :
  (∀ a b, f a b = g a b) → foldM f a l = foldM g a l.
Proof. intros Hfg. revert a. induction l as [|b l IH]; intros a; simpl; [done|]. rewrite Hfg. destruct (g a b); simpl; auto. Qed.

Lemma foldM_inv {E A B} (I : A → Prop) (f : A → B → result E A) a l a' :
  (∀ a b a', b ∈ l → I a → f a b = Ok a' → I a') → I a → foldM f a l = Ok a' → I a'.
Proof.
  revert a. induction l as [|b l IH]; intros a Hf Ha; simpl; [by intros [= <-]|].
  intros (a1 & H1 & H2)%bind_Ok. apply (IH a1); [|by eapply Hf; [left|..]|done].
  intros; eapply Hf; [by right|..]; done.
Qed.

Lemma foldM_inv_Err {E A B} (I : A → Prop) (f : A → B → result E A) a l e :
  (∀ a b a', b ∈ l → I a → f a b = Ok a' → I a') → I a → foldM f a l = Err e →
  ∃ a b, b ∈ l ∧ I a ∧ f a b = Err e.
Proof.
  revert a. induction l as [|b l IH]; intros a Hf Ha; simpl; [done|].
  intros [He|(a1 & H1 & H2)]%bind_Err; [exists a, b; split; [by left|done]|].
  destruct (IH a1) as (a2 & b2 & Hb & ? & ?); [|by eapply Hf; [left|..]|done|].
  - intros; eapply Hf; [by right|..]; done.
  - exists a2, b2. split; [by right|done].
Qed.

Lemma mapM_res_Ok {E A B} (f : A → result E B) l bs :
  mapM_res f l = Ok bs ↔ Forall2 (λ a b, f a = Ok b) l bs.
Proof.
  split.
  - revert bs. induction l as [|a l IH]; intros bs; simpl.
    + intros [= <-]. constructor.
    + rewrite bind_Ok. intros (b & Hb & (bs' & Hbs & [= <-])%bind_Ok).
      constructor; auto.
  - induction 1 as [|a b l bs Hab _ IH]; simpl; [done|]. by rewrite Hab, IH.
Qed.

(** Inversion of a successful monadic computation in a hypothesis. *)
Ltac inv_ok H :=
  repeat first
    [ rewrite bind_Ok in H; destruct H as (? & ? & H)
    | rewrite ok_or_Ok in H | rewrite map_err_Ok in H | rewrite reject_if_Ok in H ].

(** Turns the guards a successful run has passed into propositions. *)
Ltac inv_checks :=
  repeat match goal with
  | H : reject_if _ _ = Ok _ |- _ => apply reject_if_Ok in H
  | H : ok_or _ _ = Ok _ |- _ => apply ok_or_Ok in H
  | H : map_err _ _ = Ok _ |- _ => apply map_err_Ok in H
  | H : _ || _ = false |- _ => apply orb_false_iff in H as [? ?]
  | H : _ && _ = true |- _ => apply andb_true_iff in H as [? ?]
  | H : negb _ = false |- _ => apply negb_false_iff in H
  | H : negb _ = true |- _ => apply negb_true_iff in H
  | H : (_ =? _)%N = false |- _ => apply N.eqb_neq in H
  | H : (_ =? _)%N = true |- _ => apply N.eqb_eq in H
  | H : (_ <? _)%N = false |- _ => apply N.ltb_ge in H
  | H : (_ <? _)%N = true |- _ => apply N.ltb_lt in H
  | H : (_ <=? _)%N = false |- _ => apply N.leb_gt in H
  | H : (_ <=? _)%N = true |- _ => apply N.leb_le in H
  | H : (_ <? _)%Z = false |- _ => apply Z.ltb_ge in H
  | H : bool_decide (_ ≠ _) = false |- _ => apply bool_decide_eq_false, dec_stable in H
  | H : bool_decide _ = false |- _ => apply bool_decide_eq_false in H
  | H : bool_decide _ = true |- _ => apply bool_decide_eq_true in H
  end.

(** ** Code with loops

    [outcome E A]: what a fallible routine with unbounded loops does within the
    fuel it is given.  [OutOfFuel] is excluded by the theorems on each routine. *)
Inductive outcome (E A : Type) : Type :=
| Returns (a : A)
| Raises (e : E)
| OutOfFuel.
Arguments Returns {E A} _.
Arguments Raises {E A} _.
Arguments OutOfFuel {E A}.

#[export] Instance outcome_bind E : MBind (outcome E) := λ A B f m,
  match m with Returns a => f a | Raises e => Raises e | OutOfFuel => OutOfFuel end.
Definition lift {E A} (m : result E A) : outcome E A :=
  match m with Ok a => Returns a | Err e => Raises e end.

(** ** Machine integers

    Unsigned integers are [N] kept in range by the operations that the source
    uses; signed ones are [Z]. *)
Definition u64_max : N := 18446744073709551615.
Definition u32_max : N := 4294967295.
Definition u8_max : N := 255.
Definition i64_max : Z := 9223372036854775807.
Definition i64_min : Z := -9223372036854775808.
Definition u128_max : N := 340282366920938463463374607431768211455.

Definition u64_checked_add (a b : N) : option N :=
  if (a + b <=? u64_max)%N then Some (a + b)%N else None.
Definition u64_saturating_add (a b : N) : N := N.min (a + b) u64_max.
(** [saturating_sub] on unsigned integers is the truncated subtraction of [N]. *)
Definition u64_saturating_sub (a b : N) : N := (a - b)%N.
Definition i64_saturating_sub (a b : Z) : Z :=
  Z.max i64_min (Z.min i64_max (a - b)).

Lemma u64_checked_add_Some a b c :
  u64_checked_add a b = Some c ↔ (c = a + b ∧ a + b ≤ u64_max)%N.
Proof. unfold u64_checked_add. destruct (N.leb_spec (a + b) u64_max); naive_solver lia. Qed.

(** ** Strings

    The [&str] operations used by the source on UTF-8 bytes. *)
Fixpoint str_strip_prefix (p s : string) : option string :=
  match p, s with
  | EmptyString, _ => Some s
  | String a p, String b s =>
      if decide (a = b) then str_strip_prefix p s else None
  | String _ _, EmptyString => None
  end.
Definition str_starts_with (p s : string) : bool :=
  match str_strip_prefix p s with Some _ => true | None => false end.
Definition str_is_empty (s : string) : bool :=
  match s with EmptyString => true | _ => false end.
Fixpoint str_rev_app (s acc : string) : string :=
  match s with EmptyString => acc | String a s => str_rev_app s (String a acc) end.
Definition str_rev (s : string) : string := str_rev_app s "".
Definition str_strip_suffix (p s : string) : option string :=
  str_rev <$> str_strip_prefix (str_rev p) (str_rev s).
Definition str_ends_with (p s : string) : bool :=
  match str_strip_suffix p s with Some _ => true | None => false end.
Fixpoint str_bytes_all (f : ascii → bool) (s : string) : bool :=
  match s with EmptyString => true | String a s => f a && str_bytes_all f s end.

(** [str::split] on one character: always at least one component. *)
Fixpoint str_split (sep : ascii) (s : string) : list string :=
  match s with
  | EmptyString => [EmptyString]
  | String a s' =>
      if decide (a = sep) then EmptyString :: str_split sep s'
      else match str_split sep s' with
           | [] => [String a EmptyString]
           | w :: ws => String a w :: ws
           end
  end.
(** [Vec<&str>::join]. *)
Fixpoint str_join (sep : string) (ws : list string) : string :=
  match ws with
  | [] => EmptyString
  | [w] => w
  | w :: ws => w +:+ sep +:+ str_join sep ws
  end.

Lemma str_app_nil s : "" +:+ s = s.
Proof. reflexivity. Qed.
Lemma str_app_cons a p s : String a p +:+ s = String a (p +:+ s).
Proof. reflexivity. Qed.

Lemma str_strip_prefix_Some p s r : str_strip_prefix p s = Some r ↔ s = p +:+ r.
Proof.
  revert s; induction p as [|a p IH]; intros s; simpl.
  { rewrite str_app_nil. split; congruence. }
  rewrite str_app_cons. destruct s as [|b s]; [split; discriminate|].
  case_decide as Hab; [rewrite IH|]; split; congruence.
Qed.

Lemma str_starts_with_true p s : str_starts_with p s = true ↔ ∃ r, s = p +:+ r.
Proof.
  unfold str_starts_with. setoid_rewrite <-str_strip_prefix_Some.
  destruct (str_strip_prefix p s); naive_solver.
Qed.

Lemma str_starts_with_app p r : str_starts_with p (p +:+ r) = true.
Proof. apply str_starts_with_true. eauto. Qed.

Lemma str_app_inj_l p s1 s2 : p +:+ s1 = p +:+ s2 → s1 = s2.
Proof. induction p; [done|]. rewrite !str_app_cons. naive_solver. Qed.

Lemma str_app_assoc (a b c : string) : a +:+ (b +:+ c) = (a +:+ b) +:+ c.
Proof. induction a; [done|]. rewrite !str_app_cons. by f_equal. Qed.

Lemma str_app_nil_r s : s +:+ "" = s.
Proof. induction s; [done|]. rewrite str_app_cons. by f_equal. Qed.

Lemma str_rev_app_spec s acc : str_rev_app s acc = str_rev s +:+ acc.
Proof.
  unfold str_rev. revert acc. induction s as [|a s IH]; intros acc; [done|].
  simpl. rewrite IH, (IH (String a "")), <-str_app_assoc. done.
Qed.

Lemma str_rev_append s1 s2 : str_rev (s1 +:+ s2) = str_rev s2 +:+ str_rev s1.
Proof.
  induction s1 as [|a s1 IH].
  - by rewrite str_app_nil, str_app_nil_r.
  - rewrite str_app_cons. unfold str_rev at 1 3. simpl.
    by rewrite !str_rev_app_spec, IH, str_app_assoc.
Qed.

Lemma str_rev_involutive s : str_rev (str_rev s) = s.
Proof.
  induction s as [|a s IH]; [done|].
  change (str_rev (String a s)) with (str_rev_app s (String a "")).
  by rewrite str_rev_app_spec, str_rev_append, IH.
Qed.

Lemma str_strip_suffix_app s p : str_strip_suffix p (s +:+ p) = Some s.
Proof.
  unfold str_strip_suffix. rewrite str_rev_append.
  rewrite (proj2 (str_strip_prefix_Some _ _ (str_rev s)) eq_refl). simpl.
  by rewrite str_rev_involutive.
Qed.

(** A suffix test on a string that ends in a known suffix is decided there
    when the two last characters differ. *)
Lemma str_ends_with_last a p p' b q q' s :
  a ≠ b → str_rev p = String a p' → str_rev q = String b q' →
  str_ends_with p (s +:+ q) = false.
Proof.
  intros Hab Hp Hq. unfold str_ends_with, str_strip_suffix.
  rewrite str_rev_append, Hp, Hq, str_app_cons. simpl. by rewrite decide_False.
Qed.

(** ** Sums *)
Definition sumN (l : list N) : N := foldr N.add 0%N l.

Lemma sumN_cons x l : sumN (x :: l) = (x + sumN l)%N.
Proof. done. Qed.
Lemma sumN_app l k : sumN (l ++ k) = (sumN l + sumN k)%N.
Proof. induction l as [|x l IH]; simpl; [done|]. unfold sumN in *. simpl. lia. Qed.
#[export] Instance sumN_Permutation : Proper (Permutation ==> eq) sumN.
Proof. induction 1; simpl in *; unfold sumN in *; simpl; lia. Qed.

(** The sum of a measure over the values of a map. *)
Definition map_sum_of `{Countable K} {A} (size : A → N) (m : gmap K A) : N :=
  sumN (size <$> (map_to_list m).*2).
Abbreviation map_sum := (map_sum_of (λ n : N, n)).

Section map_sum.
Context `{Countable K} {A : Type} (size : A → N).
Implicit Types m : gmap K A.

Lemma map_sum_of_insert m k a :
  m !! k = None → map_sum_of size (<[k := a]> m) = (size a + map_sum_of size m)%N.
Proof. intros Hk. unfold map_sum_of. by rewrite map_to_list_insert. Qed.
Lemma map_sum_of_delete m k a :
  m !! k = Some a → map_sum_of size m = (size a + map_sum_of size (delete k m))%N.
Proof. intros Hk. rewrite <-(insert_delete_id m k a) at 1 by done. apply map_sum_of_insert, lookup_delete_eq. Qed.
Lemma map_sum_of_insert_delete m k a :
  map_sum_of size (<[k := a]> m) = (size a + map_sum_of size (delete k m))%N.
Proof. rewrite <-insert_delete_eq. apply map_sum_of_insert, lookup_delete_eq. Qed.
End map_sum.

(** ** Stable sorting

    [slice::sort_by_key] is a stable sort; a stable sort is unique as a
    function, so insertion sort on a total preorder stands for it. *)
Section stable_sort.
Context {A : Type} (le : A → A → bool).

Fixpoint sort_insert (x : A) (l : list A) : list A :=
  match l with
  | [] => [x]
  | y :: l' => if le x y then x :: l else y :: sort_insert x l'
  end.
Definition stable_sort (l : list A) : list A := foldr sort_insert [] l.

Lemma sort_insert_perm x l : sort_insert x l ≡ₚ x :: l.
Proof.
  induction l as [|y l IH]; simpl; [done|].
  destruct (le x y); [done|]. rewrite IH. by constructor.
Qed.

Lemma stable_sort_perm l : stable_sort l ≡ₚ l.
Proof. induction l as [|x l IH]; simpl; [done|]. by rewrite sort_insert_perm, IH. Qed.

Context (le_total : ∀ x y, le x y = true ∨ le y x = true)
        (le_trans : ∀ x y z, le x y = true → le y z = true → le x z = true).

Lemma sort_insert_sorted x l :
  StronglySorted (λ a b, le a b = true) l →
  StronglySorted (λ a b, le a b = true) (sort_insert x l).
Proof.
  induction 1 as [|y l Hl IH Hy]; simpl; [repeat constructor|].
  destruct (le x y) eqn:Hxy.
  - constructor; [by constructor|]. constructor; [done|].
    eapply Forall_impl; [exact Hy|]. simpl. eauto.
  - constructor; [done|]. rewrite sort_insert_perm.
    constructor; [|done]. destruct (le_total x y); congruence.
Qed.

Lemma stable_sort_sorted l : StronglySorted (λ a b, le a b = true) (stable_sort l).
Proof. induction l; simpl; [constructor|by apply sort_insert_sorted]. Qed.

Lemma sort_insert_id x l :
  Forall (λ y, le x y = true) l → sort_insert x l = x :: l.
Proof. destruct 1 as [|y l Hy _]; simpl; [done|]. by rewrite Hy. Qed.

Lemma stable_sort_id l :
  StronglySorted (λ a b, le a b = true) l → stable_sort l = l.
Proof.
  induction 1 as [|x l Hl IH Hx]; simpl; [done|].
  rewrite IH. by apply sort_insert_id.
Qed.
End stable_sort.

Lemma Forall2_impl_elem {A B} (P Q : A → B → Prop) l k :
  Forall2 P l k → (∀ x y, x ∈ l → P x y → Q x y) → Forall2 Q l k.
Proof.
  induction 1 as [|x y l k Hxy _ IH]; intros Hpq; constructor; [by apply Hpq; [left|]|].
  apply IH. intros; apply Hpq; [by right|done].
Qed.
Lemma Forall2_elem_of_l {A B} (R : A → B → Prop) l k x :
  Forall2 R l k → x ∈ l → ∃ y, y ∈ k ∧ R x y.
Proof.
  induction 1 as [|a b l k Hab _ IH]; [by intros ?%elem_of_nil|].
  intros [->|(y & ? & ?)%IH]%elem_of_cons; [exists b|exists y]; split; try done; [by left|by right].
Qed.
Lemma Forall2_elem_of_r {A B} (R : A → B → Prop) l k y :
  Forall2 R l k → y ∈ k → ∃ x, x ∈ l ∧ R x y.
Proof. intros Hlk%Forall2_flip Hy. by apply (Forall2_elem_of_l (flip R) k l y). Qed.

Lemma Forall2_filter {A B} (R : A → B → Prop) (P : A → Prop) (Q : B → Prop)
    `{!∀ x, Decision (P x), !∀ y, Decision (Q y)} l k :
  (∀ x y, R x y → P x ↔ Q y) → Forall2 R l k → Forall2 R (filter P l) (filter Q k).
Proof.
  intros HPQ. induction 1 as [|x y l k Hxy _ IH]; [constructor|]. rewrite !filter_cons.
  specialize (HPQ x y Hxy). do 2 case_decide; try tauto. by constructor.
Qed.

(** Sorting related lists with corresponding orders. *)
Lemma stable_sort_Forall2 {A B} (R : A → B → Prop) (le1 : A → A → bool) (le2 : B → B → bool) l k :
  (∀ x x' y y', R x y → R x' y' → le1 x x' = le2 y y') →
  Forall2 R l k → Forall2 R (stable_sort le1 l) (stable_sort le2 k).
Proof.
  intros Hle. induction 1 as [|x y l k Hxy _ IH]; simpl; [constructor|].
  induction IH as [|x' y' l' k' Hxy' Hl IH']; simpl; [by repeat constructor|].
  rewrite (Hle x x' y y') by done. destruct (le2 y y'); by repeat constructor.
Qed.

(** ** A concrete text codec

    Numbers as binary text.  Used to instantiate the interfaces of third-party
    codecs when a theorem is evaluated on a concrete input. *)
Fixpoint pos_bits (p : positive) : string :=
  match p with
  | xH => EmptyString
  | xO p => String "0" (pos_bits p)
  | xI p => String "1" (pos_bits p)
  end.
Fixpoint bits_pos (s : string) : option positive :=
  match s with
  | EmptyString => Some xH
  | String a s =>
      if decide (a = "0"%char) then xO <$> bits_pos s
      else if decide (a = "1"%char) then xI <$> bits_pos s
      else None
  end.
Definition N_bits (n : N) : string := pos_bits (N.succ_pos n).
Definition bits_N (s : string) : option N := (λ p, Pos.pred_N p) <$> bits_pos s.

Lemma bits_pos_bits p : bits_pos (pos_bits p) = Some p.
Proof. induction p as [p IH|p IH|]; simpl; rewrite ?IH; done. Qed.

Lemma bits_N_bits n : bits_N (N_bits n) = Some n.
Proof.
  unfold bits_N, N_bits. rewrite bits_pos_bits. simpl.
  f_equal. apply N.pos_pred_succ.
Qed.

Lemma pos_bits_length p k : (Npos p < 2 ^ N.of_nat (S k))%N → String.length (pos_bits p) ≤ k.
Proof.
  revert k. induction p as [p IH|p IH|]; intros k Hk; simpl; [| |lia].
  all: destruct k as [|k]; [simpl in Hk; lia|].
  all: apply le_n_S, IH.
  all: rewrite Nat2N.inj_succ, N.pow_succ_r' in Hk; lia.
Qed.

Lemma N_bits_length n k : (n < 2 ^ N.of_nat k)%N → String.length (N_bits n) ≤ k.
Proof.
  intros Hn. apply pos_bits_length.
  rewrite Nat2N.inj_succ, N.pow_succ_r'. rewrite N.succ_pos_spec. lia.
Qed.

(** Strings without a character. *)
Definition str_free (c : ascii) (s : string) : bool := str_bytes_all (λ a, bool_decide (a ≠ c)) s.

Lemma str_free_cons c a s : str_free c (String a s) = true ↔ a ≠ c ∧ str_free c s = true.
Proof. unfold str_free. simpl. rewrite andb_true_iff, bool_decide_eq_true. done. Qed.

Lemma str_free_app c s1 s2 : str_free c (s1 +:+ s2) = str_free c s1 && str_free c s2.
Proof.
  induction s1 as [|a s1 IH]; [done|]. rewrite str_app_cons. unfold str_free in *. simpl.
  by rewrite IH, andb_assoc.
Qed.

Lemma str_split_free c s : str_free c s = true → str_split c s = [s].
Proof.
  induction s as [|a s IH]; [done|]. rewrite str_free_cons. intros [Ha Hs].
  simpl. rewrite decide_False by done. by rewrite IH.
Qed.

Lemma str_split_app c w s :
  str_free c w = true → str_split c (w +:+ String c s) = w :: str_split c s.
Proof.
  induction w as [|a w IH]; intros Hw.
  - rewrite str_app_nil. simpl. by rewrite decide_True.
  - apply str_free_cons in Hw as [Ha Hw]. rewrite str_app_cons. simpl.
    rewrite decide_False by done. by rewrite IH.
Qed.

Lemma str_split_join c w ws :
  Forall (λ w, str_free c w = true) (w :: ws) →
  str_split c (str_join (String c EmptyString) (w :: ws)) = w :: ws.
Proof.
  revert w. induction ws as [|w' ws IH]; intros w Hall.
  - apply Forall_cons in Hall as [Hw _]. by apply str_split_free.
  - apply Forall_cons in Hall as [Hw Hall].
    change (str_join (String c EmptyString) (w :: w' :: ws))
      with (w +:+ (String c EmptyString +:+ str_join (String c EmptyString) (w' :: ws))).
    rewrite str_app_cons, str_app_nil, str_split_app by done. by rewrite IH.
Qed.

Lemma str_strip_prefix_ext p s r x : str_strip_prefix p s = Some r → str_strip_prefix p (s +:+ x) = Some (r +:+ x).
Proof. rewrite !str_strip_prefix_Some. intros ->. by rewrite str_app_assoc. Qed.
Lemma str_split_ext c u s : str_split c (u +:+ String c s) = str_split c u ++ str_split c s.
Proof.
  induction u as [|a u IH]; [rewrite str_app_nil; simpl; by rewrite decide_True|].
  rewrite str_app_cons. cbn [str_split]. case_decide; [by rewrite IH|].
  rewrite IH. destruct (str_split c u) eqn:Hu; [|done]. destruct u; simpl in Hu; [done|]. repeat case_match; done.
Qed.

(** [str::trim_start_matches], [trim_end_matches] and [trim_matches] of one character. *)
Fixpoint str_trim_start (c : ascii) (s : string) : string :=
  match s with
  | EmptyString => EmptyString
  | String a s' => if decide (a = c) then str_trim_start c s' else s
  end.
Definition str_trim_end (c : ascii) (s : string) : string := str_rev (str_trim_start c (str_rev s)).
Definition trim_matches (c : ascii) (s : string) : string := str_trim_end c (str_trim_start c s).

Lemma str_free_rev c s : str_free c (str_rev s) = str_free c s.
Proof.
  induction s as [|a s IH]; [done|]. change (String a s) with (String a "" +:+ s).
  rewrite str_rev_append, !str_free_app, IH. apply andb_comm.
Qed.
Lemma str_trim_start_id c s : (∀ a s', s = String a s' → a ≠ c) → str_trim_start c s = s.
Proof. destruct s as [|a s]; [done|]. intros Hs. simpl. rewrite decide_False; [done|]. by eapply Hs. Qed.
Lemma str_join_app_last c base s : ∃ p, str_join c (base ++ [s]) = p +:+ s.
Proof.
  induction base as [|w base [p IH]]; [exists ""; by rewrite str_app_nil|].
  exists (w +:+ c +:+ p). cbn [app str_join]. destruct (base ++ [s]) eqn:Hb; [by destruct base|].
  rewrite IH, <-!str_app_assoc. done.
Qed.
Lemma zip_seq_lookup {A} (l : list A) k i a : zip (seq k (length l)) l !! i = Some (a : nat * A) ↔
  a.1 = (k + i)%nat ∧ l !! i = Some a.2.
Proof.
  revert k i. induction l as [|x l IH]; intros k i; simpl; [split; [done|intros [_ ?]; done]|].
  destruct i as [|i]; simpl; [|rewrite IH; split; intros [? ?]; split; (lia || done)].
  destruct a as [j y]. simpl. rewrite Nat.add_0_r. split; [by intros [= -> ->]|by intros [-> [= ->]]].
Qed.

(** Records of numbers, as comma-separated binary fields. *)
Definition fields_text (l : list N) : string := str_join "," (map N_bits l).
Definition fields_parse (s : string) : option (list N) := mapM bits_N (str_split "," s).

Lemma pos_bits_free c p : c ≠ "0"%char → c ≠ "1"%char → str_free c (pos_bits p) = true.
Proof.
  intros H0 H1. induction p as [p IH|p IH|]; [..|done]; simpl; apply str_free_cons; auto.
Qed.

Lemma fields_parse_text x l : fields_parse (fields_text (x :: l)) = Some (x :: l).
Proof.
  unfold fields_parse, fields_text. cbn [map]. rewrite str_split_join.
  - change (N_bits x :: map N_bits l) with (map N_bits (x :: l)).
    apply mapM_Some. generalize (x :: l) as k. intros k.
    induction k; constructor; [apply bits_N_bits|done].
  - change (N_bits x :: map N_bits l) with (map N_bits (x :: l)).
    generalize (x :: l) as k. intros k. induction k; constructor; [|done].
    by apply pos_bits_free.
Qed.

Definition N_of_string (s : string) : N := Npos (encode s).
Definition string_of_N (n : N) : string :=
  match n with N0 => EmptyString | Npos p => default EmptyString (decode p) end.
Definition N_of_Z (z : Z) : N := 
  if (z <? 0)%Z then (Z.to_N (- z) * 2 - 1)%N else (Z.to_N z * 2)%N.
Definition Z_of_N (n : N) : Z :=
  if N.odd n then (- Z.of_N ((n + 1) / 2))%Z else Z.of_N (n / 2).
Definition N_of_option (o : option N) : N := 
  match o with None => 0%N | Some n => (n + 1)%N end.
Definition option_of_N (n : N) : option N := match n with N0 => None | Npos p => Some (Pos.pred_N p) end.

Lemma string_of_N_of_string s : string_of_N (N_of_string s) = s.
Proof. unfold string_of_N, N_of_string. by rewrite decode_encode. Qed.
Lemma option_of_N_of_option o : option_of_N (N_of_option o) = o.
Proof. destruct o as [[|p]|]; try done. simpl. by rewrite Pos.add_1_r, Pos.pred_N_succ. Qed.
Lemma Z_of_N_of_Z z : Z_of_N (N_of_Z z) = z.
Proof.
  unfold Z_of_N, N_of_Z. destruct (Z.ltb_spec z 0).
  - replace (Z.to_N (- z) * 2 - 1)%N with (2 * (Z.to_N (- z) - 1) + 1)%N by lia.
    rewrite N.add_1_r, N.odd_succ, N.even_mul. simpl.
    replace (N.succ (2 * (Z.to_N (- z) - 1)) + 1)%N with (Z.to_N (- z) * 2)%N by lia.
    rewrite N.div_mul by done. lia.
  - rewrite N.mul_comm, N.odd_mul. simpl. rewrite (N.mul_comm 2), N.div_mul by done. lia.
Qed.
