(* ===== verification/Core.v ===== *)
(** * Core vocabulary: identifiers and errors

    Models [teodb-core]'s [ident.rs] and [error.rs].  Error
    messages assembled with [format!] are kept as their template text: no code
    path inspects them. *)

From S2P Require Import Prelude.
Open Scope string_scope.
Open Scope nat_scope.
Open Scope list_scope.

(** UUIDs are opaque 128-bit values, kept as numbers; [0] is the nil UUID. *)
Abbreviation Uuid := N.
Definition uuid_is_nil (u : Uuid) : bool := (u =? 0)%N.
Abbreviation Generation := N.
Abbreviation SnapshotId := Z.

(** Text form of UUIDs ([uuid] crate): [Display] and [parse_str]. *)
Class UuidText := {
  uuid_to_string : Uuid → string;
  uuid_parse_str : string → option Uuid;
}.
(** Documented behaviour: the hyphenated form is hexadecimal digits and hyphens, and
    parses back to the same UUID. *)
Class UuidTextLaws `{UuidText} : Prop := {
  uuid_parse_to_string u : uuid_parse_str (uuid_to_string u) = Some u;
  uuid_to_string_nonempty u : uuid_to_string u ≠ "";
  uuid_to_string_free u : str_free "/" (uuid_to_string u) = true;
  uuid_to_string_dotless u : str_free "." (uuid_to_string u) = true;
}.

Lemma uuid_to_string_inj `{UuidTextLaws} u v :
  uuid_to_string u = uuid_to_string v → u = v.
Proof.
  intros Huv. apply (f_equal uuid_parse_str) in Huv.
  rewrite !uuid_parse_to_string in Huv. by injection Huv.
Qed.

(** A concrete instance, for evaluating theorems on examples. *)
Definition demo_uuid_text : UuidText :=
  {| uuid_to_string u := String "u" (N_bits u);
     uuid_parse_str s := match s with String "u" s => bits_N s | _ => None end |}.
Lemma demo_uuid_text_laws : @UuidTextLaws demo_uuid_text.
Proof.
  constructor; intros u; simpl; [apply bits_N_bits|discriminate|..];
    apply str_free_cons; (split; [done|]); by apply pos_bits_free.
Qed.

Record TableIdent := mkTableIdent { ti_namespace : string; ti_name : string }.

#[export] Instance TableIdent_eq_dec : EqDecision TableIdent.
Proof. solve_decision. Defined.
#[export] Instance TableIdent_countable : Countable TableIdent.
Proof.
  refine (inj_countable' (λ t, (ti_namespace t, ti_name t))
            (λ '(a, b), mkTableIdent a b) _).
  by intros [].
Defined.

Definition fully_qualified (t : TableIdent) : string :=
  ti_namespace t +:+ "." +:+ ti_name t.

Inductive TeoDBError :=
| Config (message : string)
| InvalidArgument (field message : string)
| NotFound (resource : string)
| AlreadyExists (resource : string)
| Conflict (resource expected actual : string)
| CommitStateUnknown (table : TableIdent) (commit_id : Uuid) (message : string)
| FlushBlocked (table : TableIdent) (commit_id : Uuid)
| StaleWriterEpoch (table : TableIdent) (writer_id : Uuid) (request_epoch current_epoch : N)
| WriterRegistryFull (table : TableIdent) (limit : N)
| MetadataCorruption (table : TableIdent) (message : string)
| TableIncarnationMismatch (table : TableIdent) (expected actual : Uuid)
| WriteProtocol (table : TableIdent) (message : string)
| Unauthorized
| Forbidden (message : string)
| RateLimited (retry_after_ms : N)
| Backpressure (message : string)
| ResultTooLarge (limit_bytes : N)
| Unavailable (message : string)
| ObjectStore (source : string)
| Catalog (message : string)
| Parquet (message : string)
| Arrow (message : string)
| DataFusion (message : string)
| QueryExecution (message : string)
| Iceberg (message : string)
| Wal (message : string) (source : option string)
| Internal (message : string)
| ExternalRetryable (message : string)
| ExternalFatal (message : string).

#[export] Instance TeoDBError_eq_dec : EqDecision TeoDBError.
Proof. solve_decision. Defined.

Abbreviation TeoDBResult := (result TeoDBError).

Definition wal (message : string) : TeoDBError := Wal message None.
Definition wal_source (message source : string) : TeoDBError := Wal message (Some source).

Inductive GrpcCode :=
| GOk | GCancelled | GInvalidArgument | GNotFound | GAlreadyExists
| GPermissionDenied | GUnauthenticated | GResourceExhausted
| GFailedPrecondition | GAborted | GUnimplemented | GInternal
| GUnavailable | GDataLoss.

#[export] Instance GrpcCode_eq_dec : EqDecision GrpcCode.
Proof. solve_decision. Defined.

Definition code (e : TeoDBError) : string :=
  match e with
  | Config _ => "Config"
  | InvalidArgument _ _ => "InvalidArgument"
  | NotFound _ => "NotFound"
  | AlreadyExists _ => "AlreadyExists"
  | Conflict _ _ _ => "Conflict"
  | CommitStateUnknown _ _ _ => "CommitStateUnknown"
  | FlushBlocked _ _ => "FlushBlocked"
  | StaleWriterEpoch _ _ _ _ => "StaleWriterEpoch"
  | WriterRegistryFull _ _ => "WriterRegistryFull"
  | MetadataCorruption _ _ => "MetadataCorruption"
  | TableIncarnationMismatch _ _ _ => "TableIncarnationMismatch"
  | WriteProtocol _ _ => "WriteProtocol"
  | Unauthorized => "Unauthorized"
  | Forbidden _ => "Forbidden"
  | RateLimited _ => "RateLimited"
  | Backpressure _ => "Backpressure"
  | ResultTooLarge _ => "ResultTooLarge"
  | Unavailable _ => "Unavailable"
  | ObjectStore _ => "ObjectStore"
  | Catalog _ => "Catalog"
  | Parquet _ => "Parquet"
  | Arrow _ => "Arrow"
  | DataFusion _ => "DataFusion"
  | QueryExecution _ => "QueryExecution"
  | Iceberg _ => "Iceberg"
  | Wal _ _ => "Wal"
  | Internal _ => "Internal"
  | ExternalRetryable _ => "ExternalRetryable"
  | ExternalFatal _ => "ExternalFatal"
  end.

Definition http_status (e : TeoDBError) : N :=
  match e with
  | InvalidArgument _ _ | Config _ => 400
  | Unauthorized => 401
  | Forbidden _ => 403
  | NotFound _ => 404
  | AlreadyExists _ | Conflict _ _ _ | StaleWriterEpoch _ _ _ _
  | WriterRegistryFull _ _ | TableIncarnationMismatch _ _ _ | WriteProtocol _ _ => 409
  | RateLimited _ => 429
  | ResultTooLarge _ => 413
  | Backpressure _ | Unavailable _ | ExternalRetryable _ | ObjectStore _
  | CommitStateUnknown _ _ _ | FlushBlocked _ _ => 503
  | Parquet _ | Arrow _ | DataFusion _ | QueryExecution _ | Catalog _
  | Iceberg _ | Wal _ _ | Internal _ | MetadataCorruption _ _ | ExternalFatal _ => 500
  end.

Definition grpc_code (e : TeoDBError) : GrpcCode :=
  match e with
  | InvalidArgument _ _ | Config _ => GInvalidArgument
  | Unauthorized => GUnauthenticated
  | Forbidden _ => GPermissionDenied
  | NotFound _ => GNotFound
  | AlreadyExists _ => GAlreadyExists
  | Conflict _ _ _ => GAborted
  | StaleWriterEpoch _ _ _ _ | WriterRegistryFull _ _
  | TableIncarnationMismatch _ _ _ | WriteProtocol _ _ => GFailedPrecondition
  | RateLimited _ | Backpressure _ | ResultTooLarge _ => GResourceExhausted
  | Unavailable _ | ExternalRetryable _ | ObjectStore _
  | CommitStateUnknown _ _ _ | FlushBlocked _ _ => GUnavailable
  | Parquet _ | Arrow _ | DataFusion _ | QueryExecution _ | Catalog _
  | Iceberg _ | Wal _ _ | Internal _ | MetadataCorruption _ _ | ExternalFatal _ => GInternal
  end.

Definition is_retryable (e : TeoDBError) : bool :=
  match e with
  | Conflict _ _ _ | CommitStateUnknown _ _ _ | FlushBlocked _ _ | RateLimited _
  | Backpressure _ | Unavailable _ | ObjectStore _ | ExternalRetryable _ => true
  | _ => false
  end.

Definition retry_after_ms (e : TeoDBError) : option N :=
  match e with RateLimited ms => Some ms | _ => None end.
