(* ===== verification/Decimal.v ===== *)
(** * Decimal text of machine integers

    [str::parse] for unsigned and signed integers of a given width, against the
    decimal text [Display] writes (stdpp's [pretty]). *)

From S2P Require Import Prelude.
Open Scope nat_scope.
Open Scope list_scope.

Definition i32_max : Z := 2147483647.
Definition i32_min : Z := -2147483648.

Definition digit_char (d : N) : ascii := ascii_of_N (48 + d).
Definition digit_value (c : ascii) : option N :=
  let n := N_of_ascii c in
  if ((48 <=? n) && (n <=? 57))%N then Some (n - 48)%N else None.

(** Digits accumulated from the left; passing [max] is an error. *)
Fixpoint parse_digits (max acc : N) (s : string) : option N :=
  match s with
  | EmptyString => Some acc
  | String c s =>
      d ← digit_value c;
      let acc := (acc * 10 + d)%N in
      if (acc <=? max)%N then parse_digits max acc s else None
  end.

Definition parse_magnitude (max : N) (s : string) : option N :=
  if str_is_empty s then None else parse_digits max 0 s.

(** [str::parse::<u64>]: optional [+], at least one digit, overflow is an error. *)
Definition parse_u64 (s : string) : option N :=
  parse_magnitude u64_max (default s (str_strip_prefix "+" s)).

(** [str::parse] of a signed integer with the range [lo .. hi]. *)
Definition parse_signed (lo hi : Z) (s : string) : option Z :=
  match str_strip_prefix "-" s with
  | Some digits => (λ n, (- Z.of_N n)%Z) <$> parse_magnitude (Z.to_N (- lo)) digits
  | None => Z.of_N <$> parse_magnitude (Z.to_N hi) (default s (str_strip_prefix "+" s))
  end.
Definition parse_i32 : string → option Z := parse_signed i32_min i32_max.
Definition parse_i64 : string → option Z := parse_signed i64_min i64_max.

Lemma digit_value_char d : (d < 10)%N → digit_value (digit_char d) = Some d.
Proof.
  intros Hd. unfold digit_value, digit_char. rewrite N_ascii_embedding by lia.
  rewrite (proj2 (N.leb_le _ _)), (proj2 (N.leb_le _ _)) by lia. simpl. f_equal. lia.
Qed.

Lemma pretty_N_char_digit d : (d < 10)%N → pretty_N_char d = digit_char d.
Proof.
  intros Hd. destruct d as [|[[[[]|[]|]|[[]|[]|]|]|[[[]|[]|]|[[]|[]|]|]|]]; try reflexivity; lia.
Qed.

Lemma digit_char_neq d c :
  (d < 10)%N → (N_of_ascii c < 48 ∨ 57 < N_of_ascii c)%N → digit_char d ≠ c.
Proof.
  intros Hd Hc Heq. subst c. unfold digit_char in Hc. rewrite N_ascii_embedding in Hc by lia. lia.
Qed.

(** Printing and then parsing consumes the digits of the number. *)
Lemma parse_digits_pretty max n s :
  (n ≤ max)%N → parse_digits max 0 (pretty_N_go n s) = parse_digits max n s.
Proof.
  revert s. induction n as [n IH] using (well_founded_ind N.lt_wf_0). intros s Hn.
  destruct (N.eq_0_gt_0_cases n) as [->|Hpos]; [by rewrite pretty_N_go_0|].
  rewrite pretty_N_go_step by lia.
  pose proof (N.div_lt n 10 Hpos ltac:(lia)) as Hlt.
  pose proof (N.mod_lt n 10 ltac:(lia)) as Hm. pose proof (N.div_mod' n 10) as Hdm.
  rewrite IH by lia. cbn [parse_digits]. rewrite pretty_N_char_digit, digit_value_char by done.
  cbn [mbind option_bind]. replace (n `div` 10 * 10 + n `mod` 10)%N with n by lia.
  by rewrite (proj2 (N.leb_le _ _)).
Qed.

(** The text of a number starts with a digit. *)
Lemma pretty_N_go_digit n s :
  (0 < n)%N → ∃ d r, (d < 10)%N ∧ pretty_N_go n s = String (digit_char d) r.
Proof.
  revert s. induction n as [n IH] using (well_founded_ind N.lt_wf_0). intros s Hpos.
  rewrite pretty_N_go_step by lia. pose proof (N.mod_lt n 10 ltac:(lia)) as Hm.
  destruct (N.eq_0_gt_0_cases (n / 10)) as [->|Hq].
  - rewrite pretty_N_go_0, pretty_N_char_digit by done. eauto.
  - apply IH; [by apply N.div_lt|done].
Qed.

Lemma pretty_N_digit (n : N) : ∃ d r, (d < 10)%N ∧ pretty n = String (digit_char d) r.
Proof.
  unfold pretty, pretty_N. case_decide as Hn; [by exists 0%N, ""|].
  apply pretty_N_go_digit. lia.
Qed.

Lemma pretty_N_strip (n : N) c :
  (N_of_ascii c < 48 ∨ 57 < N_of_ascii c)%N → str_strip_prefix (String c "") (pretty n) = None.
Proof.
  intros Hc. destruct (pretty_N_digit n) as (d & r & Hd & ->). simpl.
  rewrite decide_False; [done|]. intros Heq. by apply (digit_char_neq d c Hd Hc).
Qed.

Lemma parse_magnitude_pretty max (n : N) : (n ≤ max)%N → parse_magnitude max (pretty n) = Some n.
Proof.
  intros Hn. unfold parse_magnitude. destruct (pretty_N_digit n) as (d & r & _ & Hp).
  rewrite Hp at 1. cbn [str_is_empty]. clear Hp.
  unfold pretty, pretty_N. case_decide as H0.
  - subst n. by destruct max.
  - by rewrite parse_digits_pretty.
Qed.

Lemma parse_u64_pretty (n : N) : (n ≤ u64_max)%N → parse_u64 (pretty n) = Some n.
Proof.
  intros Hn. unfold parse_u64. rewrite pretty_N_strip by (left; vm_compute; reflexivity).
  by apply parse_magnitude_pretty.
Qed.

Lemma parse_signed_pretty lo hi (z : Z) :
  (lo ≤ z ≤ hi)%Z → parse_signed lo hi (pretty z) = Some z.
Proof.
  intros Hz. unfold parse_signed. destruct z as [|p|p].
  - by destruct hi.
  - change (pretty (Zpos p)) with (pretty (Npos p)).
    rewrite !pretty_N_strip by (left; vm_compute; reflexivity). cbn [default].
    rewrite parse_magnitude_pretty by lia. done.
  - change (pretty (Zneg p)) with ("-" +:+ pretty (Npos p)).
    rewrite (proj2 (str_strip_prefix_Some "-" _ (pretty (Npos p)))) by done.
    rewrite parse_magnitude_pretty by lia. done.
Qed.

(** Decimal text contains digits and a leading minus only. *)
Lemma pretty_N_go_free c n s :
  (N_of_ascii c < 48 ∨ 57 < N_of_ascii c)%N → str_free c s = true → str_free c (pretty_N_go n s) = true.
Proof.
  intros Hc. revert s. induction n as [n IH] using (well_founded_ind N.lt_wf_0). intros s Hs.
  destruct (N.eq_0_gt_0_cases n) as [->|Hpos]; [by rewrite pretty_N_go_0|].
  rewrite pretty_N_go_step by lia. apply IH; [by apply N.div_lt|].
  pose proof (N.mod_lt n 10 ltac:(lia)). apply str_free_cons. split; [|done].
  rewrite pretty_N_char_digit by done. by apply digit_char_neq.
Qed.

Lemma pretty_N_free c (n : N) :
  (N_of_ascii c < 48 ∨ 57 < N_of_ascii c)%N → str_free c (pretty n) = true.
Proof.
  intros Hc. unfold pretty, pretty_N. case_decide.
  - apply str_free_cons. split; [|done]. by apply (digit_char_neq 0 c).
  - by apply pretty_N_go_free.
Qed.

Lemma pretty_Z_free c (z : Z) :
  (N_of_ascii c < 48 ∨ 57 < N_of_ascii c)%N → c ≠ "-"%char → str_free c (pretty z) = true.
Proof.
  intros Hc Hm. destruct z as [|p|p].
  - apply str_free_cons. split; [|done]. by apply (digit_char_neq 0 c).
  - by apply (pretty_N_free c (Npos p)).
  - change (pretty (Zneg p)) with ("-" +:+ pretty (Npos p)). rewrite str_app_cons, str_app_nil.
    apply str_free_cons. split; [done|]. by apply pretty_N_free.
Qed.
