(* ===== verification/Location.v ===== *)
(** * Object locations

    Models [teodb-core/src/location.rs]: storage schemes, rendering a location
    as a URI and parsing a URI into a location with a normalized key. *)

From S2P Require Import Prelude Core.
Open Scope nat_scope.
Open Scope list_scope.

Inductive StorageScheme := S3 | Gcs | AzureBlob | Local.
#[export] Instance StorageScheme_eq_dec : EqDecision StorageScheme.
Proof. solve_decision. Defined.

Record ObjectLocation := mkObjectLocation {
  scheme : StorageScheme; bucket : option string; key : string }.
#[export] Instance ObjectLocation_eq_dec : EqDecision ObjectLocation.
Proof. solve_decision. Defined.

Inductive LocationError :=
| Malformed (message : string)
| UnsupportedScheme (name : string)
| MissingBucket.

Definition uri_prefix (s : StorageScheme) (b : option string) : string :=
  match s with
  | S3 => "s3://" +:+ default "" b +:+ "/"
  | Gcs => "gs://" +:+ default "" b +:+ "/"
  | AzureBlob => "abfs://" +:+ default "" b +:+ "/"
  | Local => "file://"
  end.

Definition url_prefix (s : StorageScheme) (b : option string) : string :=
  match s with
  | S3 => "s3://" +:+ default "" b
  | Gcs => "gs://" +:+ default "" b
  | AzureBlob => "abfs://" +:+ default "" b
  | Local => "file://localhost"
  end.

Definition to_uri (l : ObjectLocation) : string := uri_prefix (scheme l) (bucket l) +:+ key l.

(** The text before the first ["://"], empty when there is none. *)
Fixpoint before_scheme_sep (s : string) : option string :=
  if str_starts_with "://" s then Some EmptyString
  else match s with
       | EmptyString => None
       | String a s => String a <$> before_scheme_sep s
       end.

Definition split_scheme (uri : string) : result LocationError (StorageScheme * string) :=
  match str_strip_prefix "s3://" uri with
  | Some rest => Ok (S3, rest)
  | None =>
  match str_strip_prefix "gs://" uri with
  | Some rest => Ok (Gcs, rest)
  | None =>
  match str_strip_prefix "abfs://" uri with
  | Some rest => Ok (AzureBlob, rest)
  | None =>
  match str_strip_prefix "file://" uri with
  | Some rest => Ok (Local, rest)
  | None => Err (UnsupportedScheme (default "" (before_scheme_sep uri)))
  end end end end.

Definition normalize_key (raw : string) : result LocationError string :=
  let stripped := default raw (str_strip_prefix "/" raw) in
  let segments := str_split "/" stripped in
  if existsb (λ s, bool_decide (s = "..")) segments then
    Err (Malformed "path contains '..' segment")
  else Ok (str_join "/" (filter (λ s, str_is_empty s = false) segments)).

(** [str::split_once]. *)
Fixpoint split_once (c : ascii) (s : string) : option (string * string) :=
  match s with
  | EmptyString => None
  | String a s =>
      if decide (a = c) then Some (EmptyString, s)
      else '(x, y) ← split_once c s; Some (String a x, y)
  end.

Definition parse (uri : string) : result LocationError ObjectLocation :=
  '(sch, rest) ← split_scheme uri;
  match sch with
  | Local => k ← normalize_key rest; Ok (mkObjectLocation sch None k)
  | _ =>
      '(b, key_part) ← ok_or (split_once "/" rest) (Malformed "no key after bucket in: {uri}");
      if str_is_empty b then Err MissingBucket
      else k ← normalize_key key_part; Ok (mkObjectLocation sch (Some b) k)
  end.

(** ** Canonical locations *)

(** A key in normal form: non-empty segments, none of them [..]. *)
Definition key_normal (k : string) : Prop :=
  ∃ segs, k = str_join "/" segs ∧
    Forall (λ s, str_free "/" s = true ∧ s ≠ "" ∧ s ≠ "..") segs.

Definition location_canonical (l : ObjectLocation) : Prop :=
  key_normal (key l) ∧
  match scheme l with
  | Local => bucket l = None
  | _ => ∃ b, bucket l = Some b ∧ b ≠ "" ∧ str_free "/" b = true
  end.

Lemma str_split_all_free c s : Forall (λ w, str_free c w = true) (str_split c s).
Proof.
  induction s as [|a s IH]; [by repeat constructor|]. simpl. case_decide as Ha; [by constructor|].
  destruct (str_split c s) as [|w ws]; [repeat constructor|].
  - apply str_free_cons. done.
  - apply Forall_cons in IH as [Hw Hws]. constructor; [by apply str_free_cons|done].
Qed.

Lemma split_once_Some c s x y :
  split_once c s = Some (x, y) ↔ s = x +:+ String c y ∧ str_free c x = true.
Proof.
  revert x. induction s as [|a s IH]; intros x.
  { simpl. split; [done|]. intros [Hs _]. destruct x; [rewrite str_app_nil in Hs|rewrite str_app_cons in Hs]; done. }
  cbn [split_once]. case_decide as Ha.
  - split.
    + intros [= <- <-]. rewrite str_app_nil, Ha. done.
    + intros [Hs Hx]. destruct x as [|b x]; [rewrite str_app_nil in Hs; congruence|].
      rewrite str_app_cons in Hs. apply str_free_cons in Hx as [? _]. congruence.
  - rewrite bind_Some. split.
    + intros ([x' y'] & Hs & [= <- <-]). apply IH in Hs as [-> Hx]. rewrite str_app_cons.
      split; [done|]. by apply str_free_cons.
    + intros [Hs Hx]. destruct x as [|b x]; [rewrite str_app_nil in Hs; congruence|].
      rewrite str_app_cons in Hs. injection Hs as -> Hs. apply str_free_cons in Hx as [? Hx].
      exists (x, y). split; [by apply IH|done].
Qed.

Lemma existsb_dotdot l :
  existsb (λ s, bool_decide (s = "..")) l = false ↔ Forall (λ s, s ≠ "..") l.
Proof.
  induction l as [|s l IH]; simpl; [done|].
  by rewrite orb_false_iff, bool_decide_eq_false, Forall_cons, IH.
Qed.

Lemma normalize_key_normal raw k : normalize_key raw = Ok k → key_normal k.
Proof.
  unfold normalize_key. destruct (existsb _ _) eqn:Hdd; [done|]. intros [= <-].
  apply existsb_dotdot in Hdd. eexists. split; [done|]. apply Forall_forall.
  intros s [Hne Hin]%list_elem_of_filter. rewrite Forall_forall in Hdd.
  split_and!; [|by destruct s|by apply Hdd].
  pose proof (str_split_all_free "/" (default raw (str_strip_prefix "/" raw))) as Hall.
  rewrite Forall_forall in Hall. auto.
Qed.

Lemma join_head segs s0 :
  Forall (λ s, str_free "/" s = true ∧ s ≠ "" ∧ s ≠ "..") (s0 :: segs) →
  ∃ a rest, str_join "/" (s0 :: segs) = String a rest ∧ a ≠ "/"%char.
Proof.
  intros [(Hf & Hne & _) _]%Forall_cons. destruct s0 as [|a s0]; [done|].
  apply str_free_cons in Hf as [Ha _]. destruct segs as [|s1 segs].
  - by exists a, s0.
  - exists a, (s0 +:+ "/" +:+ str_join "/" (s1 :: segs)). split; [|done]. apply str_app_cons.
Qed.

(** Normal keys are fixed points. *)
Lemma normalize_key_fixed k : key_normal k → normalize_key k = Ok k.
Proof.
  intros (segs & -> & Hsegs). unfold normalize_key. destruct segs as [|s0 segs]; [done|].
  destruct (join_head segs s0 Hsegs) as (a & rest & Heq & Ha).
  replace (str_strip_prefix "/" (str_join "/" (s0 :: segs))) with (@None string)
    by (rewrite Heq; simpl; by rewrite decide_False by congruence).
  cbn [default]. rewrite str_split_join by (eapply Forall_impl; [exact Hsegs|]; naive_solver).
  rewrite (proj2 (existsb_dotdot _)) by (eapply Forall_impl; [exact Hsegs|]; naive_solver).
  f_equal. f_equal. clear Heq.
  induction Hsegs as [|s l (_ & Hne & _) _ IH]; [done|]. rewrite filter_cons, decide_True.
  - by rewrite IH.
  - by destruct s.
Qed.

(**  Parsing normalizes and rendering round-trips: a parsed location is canonical (a
    bucket without slashes exactly for the remote schemes, a key of non-empty segments
    with no parent traversal), every canonical location parses back from its URI, so
    rendering and parsing a parsed location changes nothing. *)
Theorem location_roundtrip (l : ObjectLocation) :
  (∀ uri, parse uri = Ok l → location_canonical l) ∧
  (location_canonical l → parse (to_uri l) = Ok l).
Proof.
  split.
  - intros uri. unfold parse. intros ([sch rest] & _ & Hl)%bind_Ok.
    destruct sch; (* three remote schemes, then local *)
    try (apply bind_Ok in Hl as ([b kp] & Hs%ok_or_Ok & Hl); apply split_once_Some in Hs as [_ Hb];
         destruct b as [|c b]; [done|]; simpl in Hl; apply bind_Ok in Hl as (k & Hk & [= <-]);
         split; [by eapply normalize_key_normal|]; by exists (String c b)).
    apply bind_Ok in Hl as (k & Hk & [= <-]). split; [by eapply normalize_key_normal|done].
  - destruct l as [sch b k]. intros [Hk Hb]. cbn [key scheme bucket] in Hk, Hb.
    apply normalize_key_fixed in Hk.
    assert (∀ b, b ≠ "" → str_free "/" b = true →
      split_once "/" (b +:+ "/" +:+ k) = Some (b, k)) as Hso.
    { intros b0 _ Hfree. apply split_once_Some. rewrite str_app_cons, str_app_nil. done. }
    unfold parse, to_uri. cbn [scheme bucket key]. destruct sch; cbn [uri_prefix].
    4: { subst b. change (split_scheme ("file://" +:+ k)) with (@Ok LocationError _ (Local, k)).
         simpl. by rewrite Hk. }
    all: destruct Hb as (b0 & -> & Hne & Hfree); cbn [default]; rewrite <-!str_app_assoc.
    1: change (split_scheme ("s3://" +:+ ?x)) with (@Ok LocationError _ (S3, x)).
    2: change (split_scheme ("gs://" +:+ ?x)) with (@Ok LocationError _ (Gcs, x)).
    3: change (split_scheme ("abfs://" +:+ ?x)) with (@Ok LocationError _ (AzureBlob, x)).
    all: cbn [mbind result_bind]; rewrite Hso by done; cbn [ok_or mbind result_bind];
      destruct b0 as [|c b0]; [done|]; cbn [str_is_empty]; by rewrite Hk.
Qed.
