(* ===== verification/Codec.v ===== *)
(** * Concrete field codecs

    [Fields A] writes a value as a list of numbers and reads it back.  The
    instances compose to codecs for whole records; they instantiate the
    interfaces of third-party serializers when a theorem is evaluated on a
    concrete input. *)

From S2P Require Import Prelude.
Open Scope nat_scope.
Open Scope list_scope.

Class Fields (A : Type) := {
  put : A → list N;
  get : list N → option (A * list N);
  get_put a r : get (put a ++ r) = Some (a, r);
}.

#[export] Instance fields_N : Fields N.
Proof.
  refine ({|
  put n := [n]; get l := match l with n :: r => Some (n, r) | [] => None end;
  get_put := _ |}).
  done.
Defined.

(** Transport along an injection. *)
Program Definition fields_inj {A B} `{Fields B} (f : A → B) (g : B → option A)
    (Hgf : ∀ a, g (f a) = Some a) : Fields A := {|
  put a := put (f a);
  get l := '(b, r) ← get l; a ← g b; Some (a, r) |}.
Next Obligation. intros A B F f g Hgf a r. cbn. rewrite get_put. cbn. by rewrite Hgf. Qed.

#[export] Instance fields_Z : Fields Z :=
  fields_inj N_of_Z (λ n, Some (Z_of_N n)) (λ z, f_equal Some (Z_of_N_of_Z z)).
#[export] Instance fields_string : Fields string :=
  fields_inj N_of_string (λ n, Some (string_of_N n)) (λ s, f_equal Some (string_of_N_of_string s)).

#[export] Instance fields_bool : Fields bool.
Proof.
  refine (fields_inj (λ b, if b : bool then 1%N else 0%N) (λ n, Some (negb (N.eqb n 0))) _).
  by intros [].
Defined.

#[export] Instance fields_prod A B `{Fields A, Fields B} : Fields (A * B).
Proof.
  refine ({|
  put p := put p.1 ++ put p.2;
  get l := '(a, l) ← get l; '(b, l) ← get l; Some ((a, b), l);
  get_put := _ |}).
  intros [a b] r. simpl. rewrite <-app_assoc, get_put. simpl. by rewrite get_put.
Defined.

(** Lists, with their length first. *)
Fixpoint get_many {A} `{Fields A} (n : nat) (l : list N) : option (list A * list N) :=
  match n with
  | O => Some ([], l)
  | S n => '(a, l) ← get l; '(k, l) ← get_many n l; Some (a :: k, l)
  end.
Lemma get_many_put {A} `{Fields A} (k : list A) r :
  get_many (length k) (concat (put <$> k) ++ r) = Some (k, r).
Proof.
  induction k as [|a k IH]; [done|]. rewrite fmap_cons. simpl.
  rewrite <-app_assoc, get_put. simpl. by rewrite IH.
Qed.
#[export] Instance fields_list A `{Fields A} : Fields (list A).
Proof.
  refine ({|
  put k := N.of_nat (length k) :: concat (put <$> k);
  get l := match l with n :: l => get_many (N.to_nat n) l | [] => None end;
  get_put := _ |}).
  intros k r. simpl. rewrite Nat2N.id. apply get_many_put.
Defined.

#[export] Instance fields_option A `{Fields A} : Fields (option A).
Proof.
  refine (fields_inj (λ o, match o with Some a => [a] | None => [] end)
    (λ l, match l with [a] => Some (Some a) | [] => Some None | _ => None end) _).
  by intros [].
Defined.

#[export] Instance fields_gmap K V `{Countable K} `{Fields K, Fields V} : Fields (gmap K V).
Proof.
  refine (fields_inj (λ m : gmap K V, map_to_list m) (λ l : list (K * V), Some (list_to_map l : gmap K V)) _).
  intros m. cbn. by rewrite list_to_map_to_list.
Defined.

(** A value as text. *)
Definition fields_encode {A} `{Fields A} (a : A) : string := fields_text (0%N :: put a).
Definition fields_decode {A} `{Fields A} (s : string) : option A :=
  l ← fields_parse s;
  match l with
  | _ :: l => match get l with Some (a, []) => Some a | _ => None end
  | [] => None
  end.
Lemma fields_decode_encode {A} `{Fields A} (a : A) : fields_decode (fields_encode a) = Some a.
Proof.
  unfold fields_decode, fields_encode. rewrite fields_parse_text. simpl.
  rewrite <-(app_nil_r (put a)), get_put. done.
Qed.
