(* ===== verification/DataFiles.v ===== *)
(** * Data files, snapshots and table metadata

    Models [teodb-core/src/file.rs] and the scalar type of
    [teodb-core/src/scalar.rs].  Floating-point scalars are their bit patterns.
    Schemas, partition specs and sort orders are opaque values of a type the
    model is given. *)

From S2P Require Import Prelude Core Location Codec.
Open Scope nat_scope.
Open Scope list_scope.

Abbreviation FieldId := Z.
Abbreviation SequenceNumber := Z.

Inductive TeoScalar :=
| SNull
| SBoolean (b : bool)
| SInt8 (z : Z) | SInt16 (z : Z) | SInt32 (z : Z) | SInt64 (z : Z)
| SUInt8 (n : N) | SUInt16 (n : N) | SUInt32 (n : N) | SUInt64 (n : N)
| SFloat32 (bits : N) | SFloat64 (bits : N)
| SDecimal128 (value : Z) (precision : N) (scale : Z)
| SDate32 (z : Z)
| STimestampMicros (value : Z) (tz : option string)
| STime64Micros (z : Z)
| SUtf8 (s : string)
| SBinary (bs : list N)
| SFixedSizeBinary (bs : list N).
#[export] Instance TeoScalar_eq_dec : EqDecision TeoScalar.
Proof. solve_decision. Defined.

Inductive FileFormat := FmtParquet.
#[export] Instance FileFormat_eq_dec : EqDecision FileFormat.
Proof. solve_decision. Defined.

Inductive DataContent := ContentData | PositionDelete | EqualityDelete.
#[export] Instance DataContent_eq_dec : EqDecision DataContent.
Proof. solve_decision. Defined.

Record DataFile := mkDataFile {
  df_content : DataContent;
  df_path : ObjectLocation;
  df_format : FileFormat;
  df_partition_spec_id : Z;
  df_sort_order_id : option Z;
  df_schema_id : Z;
  df_partition_values : gmap FieldId TeoScalar;
  df_record_count : N;
  df_file_size_bytes : N;
  df_column_sizes : gmap FieldId N;
  df_value_counts : gmap FieldId N;
  df_null_value_counts : gmap FieldId N;
  df_nan_value_counts : gmap FieldId N;
  df_lower_bounds : gmap FieldId TeoScalar;
  df_upper_bounds : gmap FieldId TeoScalar;
  df_split_offsets : list Z;
  df_equality_ids : list FieldId;
  df_key_metadata : option (list N);
}.
#[export] Instance DataFile_eq_dec : EqDecision DataFile.
Proof. solve_decision. Defined.

Inductive SnapshotOperation := OpAppend | OpOverwrite | OpReplace | OpDelete.
#[export] Instance SnapshotOperation_eq_dec : EqDecision SnapshotOperation.
Proof. solve_decision. Defined.

Record Snapshot := mkSnapshot {
  sn_snapshot_id : SnapshotId;
  sn_parent_snapshot_id : option SnapshotId;
  sn_sequence_number : SequenceNumber;
  sn_timestamp_ms : Z;
  sn_operation : SnapshotOperation;
  sn_data_files : list DataFile;
  sn_delete_files : list DataFile;
  sn_summary : gmap string string;
}.

Record TableMetadata (SchemaDefinition PartitionSpec SortOrder : Type) := mkTableMetadata {
  tm_table_uuid : Uuid;
  tm_namespace : string;
  tm_table_name : string;
  tm_table_location : ObjectLocation;
  tm_current_snapshot_id : option SnapshotId;
  tm_current_schema_id : Z;
  tm_current_partition_spec_id : Z;
  tm_current_sort_order_id : Z;
  tm_schemas : list SchemaDefinition;
  tm_partition_specs : list PartitionSpec;
  tm_sort_orders : list SortOrder;
  tm_snapshots : list Snapshot;
  tm_current_snapshot : option Snapshot;
  tm_properties : gmap string string;
}.
Arguments mkTableMetadata {_ _ _}.
Arguments tm_table_uuid {_ _ _}.
Arguments tm_namespace {_ _ _}.
Arguments tm_table_name {_ _ _}.
Arguments tm_table_location {_ _ _}.
Arguments tm_current_snapshot_id {_ _ _}.
Arguments tm_current_schema_id {_ _ _}.
Arguments tm_current_partition_spec_id {_ _ _}.
Arguments tm_current_sort_order_id {_ _ _}.
Arguments tm_schemas {_ _ _}.
Arguments tm_partition_specs {_ _ _}.
Arguments tm_sort_orders {_ _ _}.
Arguments tm_snapshots {_ _ _}.
Arguments tm_current_snapshot {_ _ _}.
Arguments tm_properties {_ _ _}.

Section metadata.
Context {SchemaDefinition PartitionSpec SortOrder : Type}.
Abbreviation TableMetadata' := (TableMetadata SchemaDefinition PartitionSpec SortOrder).

Definition with_current_snapshot (m : TableMetadata') (s : option Snapshot) : TableMetadata' :=
  {| tm_table_uuid := tm_table_uuid m; tm_namespace := tm_namespace m;
     tm_table_name := tm_table_name m; tm_table_location := tm_table_location m;
     tm_current_snapshot_id := tm_current_snapshot_id m;
     tm_current_schema_id := tm_current_schema_id m;
     tm_current_partition_spec_id := tm_current_partition_spec_id m;
     tm_current_sort_order_id := tm_current_sort_order_id m;
     tm_schemas := tm_schemas m; tm_partition_specs := tm_partition_specs m;
     tm_sort_orders := tm_sort_orders m; tm_snapshots := tm_snapshots m;
     tm_current_snapshot := s; tm_properties := tm_properties m |}.

Definition with_live_files (m : TableMetadata') (files : list DataFile) : TeoDBResult TableMetadata' :=
  let data_files := filter (λ f, df_content f = ContentData) files in
  let delete_files := filter (λ f, df_content f ≠ ContentData) files in
  match tm_current_snapshot m with
  | Some s =>
      Ok (with_current_snapshot m (Some
        (mkSnapshot (sn_snapshot_id s) (sn_parent_snapshot_id s) (sn_sequence_number s)
           (sn_timestamp_ms s) (sn_operation s) data_files delete_files (sn_summary s))))
  | None =>
      if bool_decide (data_files = []) && bool_decide (delete_files = []) then Ok m
      else Err (MetadataCorruption (mkTableIdent (tm_namespace m) (tm_table_name m))
                  "catalog returned live files for a table without a current snapshot")
  end.
End metadata.

(** ** A concrete codec for data files *)
Definition scalar_pack (s : TeoScalar) : N * (Z * (N * (option string * (string * list N)))) :=
  let k tag z n o s l := (tag, (z, (n, (o, (s, l))))) in
  match s with
  | SNull => k 0%N 0%Z 0%N None "" []
  | SBoolean b => k 1%N (if b then 1 else 0)%Z 0%N None "" []
  | SInt8 z => k 2%N z 0%N None "" [] | SInt16 z => k 3%N z 0%N None "" []
  | SInt32 z => k 4%N z 0%N None "" [] | SInt64 z => k 5%N z 0%N None "" []
  | SUInt8 n => k 6%N 0%Z n None "" [] | SUInt16 n => k 7%N 0%Z n None "" []
  | SUInt32 n => k 8%N 0%Z n None "" [] | SUInt64 n => k 9%N 0%Z n None "" []
  | SFloat32 n => k 10%N 0%Z n None "" [] | SFloat64 n => k 11%N 0%Z n None "" []
  | SDecimal128 v p s => k 12%N v p None "" [N_of_Z s]
  | SDate32 z => k 13%N z 0%N None "" []
  | STimestampMicros v tz => k 14%N v 0%N tz "" []
  | STime64Micros z => k 15%N z 0%N None "" []
  | SUtf8 s => k 16%N 0%Z 0%N None s []
  | SBinary l => k 17%N 0%Z 0%N None "" l
  | SFixedSizeBinary l => k 18%N 0%Z 0%N None "" l
  end.
Definition scalar_unpack (x : N * (Z * (N * (option string * (string * list N))))) : option TeoScalar :=
  let '(tag, (z, (n, (o, (s, l))))) := x in
  match tag with
  | 0 => Some SNull | 1 => Some (SBoolean (z =? 1)%Z) | 2 => Some (SInt8 z) | 3 => Some (SInt16 z)
  | 4 => Some (SInt32 z) | 5 => Some (SInt64 z) | 6 => Some (SUInt8 n) | 7 => Some (SUInt16 n)
  | 8 => Some (SUInt32 n) | 9 => Some (SUInt64 n) | 10 => Some (SFloat32 n) | 11 => Some (SFloat64 n)
  | 12 => match l with [s] => Some (SDecimal128 z n (Z_of_N s)) | _ => None end
  | 13 => Some (SDate32 z) | 14 => Some (STimestampMicros z o) | 15 => Some (STime64Micros z)
  | 16 => Some (SUtf8 s) | 17 => Some (SBinary l) | 18 => Some (SFixedSizeBinary l) | _ => None
  end%N.
#[export] Instance fields_scalar : Fields TeoScalar.
Proof.
  refine (fields_inj scalar_pack scalar_unpack _).
  intros []; simpl; rewrite ?Z_of_N_of_Z; try done. by destruct b.
Defined.

#[export] Instance fields_scheme : Fields StorageScheme.
Proof.
  refine (fields_inj (λ s, match s with S3 => 0 | Gcs => 1 | AzureBlob => 2 | Local => 3 end)%N
    (λ n, match n with 0 => Some S3 | 1 => Some Gcs | 2 => Some AzureBlob | _ => Some Local end)%N _).
  by intros [].
Defined.
#[export] Instance fields_location : Fields ObjectLocation.
Proof.
  refine (fields_inj (λ l, (scheme l, (bucket l, key l))) (λ '(s, (b, k)), Some (mkObjectLocation s b k)) _).
  by intros [].
Defined.
#[export] Instance fields_content : Fields DataContent.
Proof.
  refine (fields_inj (λ c, match c with ContentData => 0 | PositionDelete => 1 | EqualityDelete => 2 end)%N
    (λ n, match n with 0 => Some ContentData | 1 => Some PositionDelete | _ => Some EqualityDelete end)%N _).
  by intros [].
Defined.
#[export] Instance fields_data_file : Fields DataFile.
Proof.
  refine (fields_inj
    (λ f, ((df_content f, df_path f, df_partition_spec_id f, df_sort_order_id f, df_schema_id f,
            df_partition_values f, df_record_count f, df_file_size_bytes f),
           (df_column_sizes f, df_value_counts f, df_null_value_counts f, df_nan_value_counts f,
            df_lower_bounds f, df_upper_bounds f, df_split_offsets f, df_equality_ids f,
            df_key_metadata f)))
    (λ '((c, p, ps, so, sc, pv, rc, fs), (cs, vc, nc, na, lb, ub, off, eq, km)),
       Some (mkDataFile c p FmtParquet ps so sc pv rc fs cs vc nc na lb ub off eq km)) _).
  by intros [?? []].
Defined.
