(* ===== verification/Schema.v ===== *)
(** * Schemas, partition specs and their Arrow form

    Models [teodb-core/src/schema.rs], [teodb-query/src/conversion] (types,
    fields and scalars).  Arrow's types and DataFusion's scalars are the
    constructors the conversions name; a variant the source does not name is
    [AOther] or [VOther]. *)

From S2P Require Import Prelude Core Decimal DataFiles.
Open Scope nat_scope.
Open Scope list_scope.

(** ** Table schemas *)
Inductive TeoDataType :=
| TBoolean | TInt8 | TInt16 | TInt32 | TInt64 | TUInt8 | TUInt16 | TUInt32 | TUInt64
| TFloat32 | TFloat64
| TDecimal128 (precision : N) (scale : Z)
| TDate32
| TTimestampMicros (tz : option string)
| TTime64Micros | TUtf8 | TBinary
| TFixedSizeBinary (size : Z).
#[export] Instance TeoDataType_eq_dec : EqDecision TeoDataType.
Proof. solve_decision. Defined.

Record ColumnMeta := mkColumnMeta {
  cm_id : FieldId; cm_name : string; cm_data_type : TeoDataType; cm_nullable : bool; cm_doc : option string }.

Record SchemaDefinition := mkSchemaDefinition {
  sd_schema_id : Z; sd_columns : list ColumnMeta; sd_identifier_field_ids : list FieldId }.

Definition by_id (s : SchemaDefinition) (id : FieldId) : option ColumnMeta :=
  snd <$> list_find (λ c, cm_id c = id) (sd_columns s).
Definition by_name (s : SchemaDefinition) (name : string) : option ColumnMeta :=
  snd <$> list_find (λ c, cm_name c = name) (sd_columns s).

Inductive PartitionTransform :=
| Identity | Year | Month | Day | Hour
| Bucket (num_buckets : N) | Truncate (width : N) | Void.
#[export] Instance PartitionTransform_eq_dec : EqDecision PartitionTransform.
Proof. solve_decision. Defined.

Record PartitionField := mkPartitionField {
  pf_source_id : FieldId; pf_field_id : FieldId; pf_name : string; pf_transform : PartitionTransform }.

Record PartitionSpec := mkPartitionSpec { ps_spec_id : Z; ps_fields : list PartitionField }.

Inductive SortDirection := Asc | Desc.
Inductive NullOrder := NullsFirst | NullsLast.
Record SortField := mkSortField {
  sf_source_id : FieldId; sf_transform : PartitionTransform; sf_direction : SortDirection;
  sf_null_order : NullOrder }.
Record SortOrder := mkSortOrder { so_order_id : Z; so_fields : list SortField }.

(** ** Arrow types and fields *)
Inductive ArrowType :=
| ANull | ABoolean | AInt8 | AInt16 | AInt32 | AInt64 | AUInt8 | AUInt16 | AUInt32 | AUInt64
| AFloat32 | AFloat64
| ADecimal128 (precision : N) (scale : Z)
| ADate32
| ATimestampMicrosecond (tz : option string)
| ATime64Microsecond | AUtf8 | ABinary
| AFixedSizeBinary (size : Z)
| AOther (tag : N).
#[export] Instance ArrowType_eq_dec : EqDecision ArrowType.
Proof. solve_decision. Defined.

Definition teo_to_arrow_type (t : TeoDataType) : ArrowType :=
  match t with
  | TBoolean => ABoolean | TInt8 => AInt8 | TInt16 => AInt16 | TInt32 => AInt32 | TInt64 => AInt64
  | TUInt8 => AUInt8 | TUInt16 => AUInt16 | TUInt32 => AUInt32 | TUInt64 => AUInt64
  | TFloat32 => AFloat32 | TFloat64 => AFloat64
  | TDecimal128 p s => ADecimal128 p s
  | TDate32 => ADate32
  | TTimestampMicros tz => ATimestampMicrosecond tz
  | TTime64Micros => ATime64Microsecond | TUtf8 => AUtf8 | TBinary => ABinary
  | TFixedSizeBinary size => AFixedSizeBinary size
  end.

Record ArrowField := mkArrowField {
  af_name : string; af_data_type : ArrowType; af_nullable : bool; af_metadata : gmap string string }.
Abbreviation ArrowSchema := (list ArrowField).

Definition FIELD_ID_KEY : string := "PARQUET:field_id".

Definition column_meta_to_arrow_field (c : ColumnMeta) : ArrowField :=
  mkArrowField (cm_name c) (teo_to_arrow_type (cm_data_type c)) (cm_nullable c)
    {[ FIELD_ID_KEY := pretty (cm_id c) ]}.

Definition schema_to_arrow (s : SchemaDefinition) : ArrowSchema :=
  map column_meta_to_arrow_field (sd_columns s).

Definition field_id_from_arrow_field (f : ArrowField) : option FieldId :=
  af_metadata f !! FIELD_ID_KEY ≫= parse_i32.

(** [Schema::field_with_name]: the first field of the name. *)
Definition field_with_name (s : ArrowSchema) (name : string) : option ArrowField :=
  snd <$> list_find (λ f, af_name f = name) s.

(** ** Scalars *)
Inductive ScalarValue :=
| VNull
| VBoolean (o : option bool)
| VInt8 (o : option Z) | VInt16 (o : option Z) | VInt32 (o : option Z) | VInt64 (o : option Z)
| VUInt8 (o : option N) | VUInt16 (o : option N) | VUInt32 (o : option N) | VUInt64 (o : option N)
| VFloat32 (o : option N) | VFloat64 (o : option N)
| VDecimal128 (o : option Z) (precision : N) (scale : Z)
| VDate32 (o : option Z)
| VTimestampMicrosecond (o : option Z) (tz : option string)
| VTime64Microsecond (o : option Z)
| VUtf8 (o : option string)
| VBinary (o : option (list N))
| VFixedSizeBinary (size : Z) (o : option (list N))
| VOther (tag : N).
#[export] Instance ScalarValue_eq_dec : EqDecision ScalarValue.
Proof. solve_decision. Defined.

(** [value.len() as i32]. *)
Definition as_i32 (n : N) : Z :=
  let r := Z.of_N (n mod 4294967296) in if (r <=? i32_max)%Z then r else (r - 4294967296)%Z.

Definition teo_scalar_to_scalar_value (s : TeoScalar) : TeoDBResult ScalarValue :=
  Ok (match s with
      | SNull => VNull
      | SBoolean b => VBoolean (Some b)
      | SInt8 z => VInt8 (Some z) | SInt16 z => VInt16 (Some z)
      | SInt32 z => VInt32 (Some z) | SInt64 z => VInt64 (Some z)
      | SUInt8 n => VUInt8 (Some n) | SUInt16 n => VUInt16 (Some n)
      | SUInt32 n => VUInt32 (Some n) | SUInt64 n => VUInt64 (Some n)
      | SFloat32 b => VFloat32 (Some b) | SFloat64 b => VFloat64 (Some b)
      | SDecimal128 v p s => VDecimal128 (Some v) p s
      | SDate32 z => VDate32 (Some z)
      | STimestampMicros v tz => VTimestampMicrosecond (Some v) tz
      | STime64Micros z => VTime64Microsecond (Some z)
      | SUtf8 s => VUtf8 (Some s)
      | SBinary bs => VBinary (Some bs)
      | SFixedSizeBinary bs => VFixedSizeBinary (as_i32 (N.of_nat (length bs))) (Some bs)
      end).

Definition scalar_value_to_teo_scalar (v : ScalarValue) : TeoDBResult TeoScalar :=
  match v with
  | VNull => Ok SNull
  | VBoolean (Some b) => Ok (SBoolean b)
  | VInt8 (Some z) => Ok (SInt8 z) | VInt16 (Some z) => Ok (SInt16 z)
  | VInt32 (Some z) => Ok (SInt32 z) | VInt64 (Some z) => Ok (SInt64 z)
  | VUInt8 (Some n) => Ok (SUInt8 n) | VUInt16 (Some n) => Ok (SUInt16 n)
  | VUInt32 (Some n) => Ok (SUInt32 n) | VUInt64 (Some n) => Ok (SUInt64 n)
  | VFloat32 (Some b) => Ok (SFloat32 b) | VFloat64 (Some b) => Ok (SFloat64 b)
  | VDecimal128 (Some v) p s => Ok (SDecimal128 v p s)
  | VDate32 (Some z) => Ok (SDate32 z)
  | VTimestampMicrosecond (Some v) tz => Ok (STimestampMicros v tz)
  | VTime64Microsecond (Some z) => Ok (STime64Micros z)
  | VUtf8 (Some s) => Ok (SUtf8 s)
  | VBinary (Some bs) => Ok (SBinary bs)
  | VFixedSizeBinary _ (Some bs) => Ok (SFixedSizeBinary bs)
  | VBoolean None | VInt8 None | VInt16 None | VInt32 None | VInt64 None
  | VUInt8 None | VUInt16 None | VUInt32 None | VUInt64 None | VFloat32 None | VFloat64 None
  | VDecimal128 None _ _ | VDate32 None | VTimestampMicrosecond None _ | VTime64Microsecond None
  | VUtf8 None | VBinary None | VFixedSizeBinary _ None => Ok SNull
  | VOther _ => Err (InvalidArgument "scalar_value" "unsupported ScalarValue variant: {unsupported:?}")
  end.

(** ** Conversions lose nothing *)
Lemma scalar_roundtrip s :
  teo_scalar_to_scalar_value s ≫= scalar_value_to_teo_scalar = Ok s.
Proof. by destruct s. Qed.

Lemma field_id_column c :
  (i32_min ≤ cm_id c ≤ i32_max)%Z → field_id_from_arrow_field (column_meta_to_arrow_field c) = Some (cm_id c).
Proof.
  intros Hid. unfold field_id_from_arrow_field. simpl. rewrite lookup_singleton_eq.
  by apply parse_signed_pretty.
Qed.

Lemma find_map {A B} (f : A → B) (P : B → Prop) (Q : A → Prop)
    `{!∀ x, Decision (P x), !∀ x, Decision (Q x)} l :
  (∀ a, a ∈ l → P (f a) ↔ Q a) →
  snd <$> list_find P (map f l) = f <$> (snd <$> list_find Q l).
Proof.
  induction l as [|a l IH]; intros HPQ; [done|]. simpl.
  pose proof (HPQ a ltac:(by left)).
  destruct (decide (Q a)); [by rewrite decide_True by tauto|rewrite decide_False by tauto].
  specialize (IH ltac:(intros; apply HPQ; by right)).
  destruct (list_find P (map f l)) as [[]|], (list_find Q l) as [[]|]; simpl in *; congruence.
Qed.

(** The Arrow form of a schema resolves names and field ids as the schema does: every
    column is found under its name, with its id and type, and the search by field id agrees
    with the search by id. *)
Lemma schema_to_arrow_resolves s :
  Forall (λ c, (i32_min ≤ cm_id c ≤ i32_max)%Z) (sd_columns s) →
  (∀ name, field_with_name (schema_to_arrow s) name = column_meta_to_arrow_field <$> by_name s name) ∧
  (∀ name, field_with_name (schema_to_arrow s) name ≫= field_id_from_arrow_field = cm_id <$> by_name s name) ∧
  (∀ id, snd <$> list_find (λ f, field_id_from_arrow_field f = Some id) (schema_to_arrow s)
         = column_meta_to_arrow_field <$> by_id s id).
Proof.
  rewrite Forall_forall. intros Hids.
  assert (∀ name, field_with_name (schema_to_arrow s) name = column_meta_to_arrow_field <$> by_name s name) as Hn.
  { intros name. apply find_map. done. }
  split; [done|]. split.
  - intros name. rewrite Hn. destruct (by_name s name) as [c|] eqn:Hc; [|done]. simpl.
    apply field_id_column, Hids. unfold by_name in Hc.
    apply fmap_Some in Hc as ([i c'] & (Hl & _)%list_find_Some & ->). by eapply list_elem_of_lookup_2.
  - intros id. apply find_map. intros c Hc. rewrite field_id_column by auto. naive_solver.
Qed.
