(* ===== verification/WriteProtocol.v ===== *)
(** * The multi-writer append protocol: identities and metadata codecs

    Models [teodb-core/src/write_protocol.rs].  The JSON text of a writer
    checkpoint ([serde_json]) is the [CheckpointJson] interface; integers are
    printed in decimal by stdpp's [pretty]. *)

From S2P Require Import Prelude Core.
Open Scope string_scope.
Open Scope nat_scope.
Open Scope list_scope.

Definition WRITE_PROTOCOL_VERSION : N := 1.
Definition WRITER_CHECKPOINT_PREFIX : string := "teodb.writer.v1.".
Definition MAX_WRITER_CHECKPOINT_VALUE_BYTES : nat := 4096.
Definition MAX_IDENTITY_COMPONENT_BYTES : nat := 128.
Definition COMMIT_ID_PROPERTY : string := "teodb.commit.id".
Definition WRITER_ID_PROPERTY : string := "teodb.writer.id".
Definition WRITER_EPOCH_PROPERTY : string := "teodb.writer.epoch".
Definition GENERATION_MIN_PROPERTY : string := "teodb.generation.min".
Definition GENERATION_MAX_PROPERTY : string := "teodb.generation.max".
Definition TABLE_UUID_PROPERTY : string := "teodb.table.uuid".
Definition PROTOCOL_VERSION_PROPERTY : string := "teodb.protocol.version".

(** ** Identity components *)
Definition is_ascii_alphanumeric (a : ascii) : bool :=
  let n := N_of_ascii a in
  ((48 <=? n) && (n <=? 57) || (65 <=? n) && (n <=? 90) || (97 <=? n) && (n <=? 122))%N.

Definition identity_byte (a : ascii) : bool :=
  is_ascii_alphanumeric a || bool_decide (a ∈ ["."; "_"; "-"]%char).

Definition validate_identity_component (field value : string) : TeoDBResult unit :=
  if str_is_empty value then Err (Config (field +:+ " must not be empty"))
  else if Nat.ltb MAX_IDENTITY_COMPONENT_BYTES (String.length value)
  then Err (Config (field +:+ " exceeds 128 bytes"))
  else if negb (str_bytes_all identity_byte value)
  then Err (Config (field +:+ " may contain only ASCII letters, digits, '.', '_' and '-'"))
  else Ok tt.

Definition NodeId_new (value : string) : TeoDBResult string :=
  _ ← validate_identity_component "cluster.node_id" value; Ok value.
Definition WriterSlot_new (value : string) : TeoDBResult string :=
  _ ← validate_identity_component "cluster.writer_slot" value; Ok value.

(** ** Epochs and generation ranges *)
Abbreviation WriterEpoch := N.

Definition checked_next (e : WriterEpoch) : TeoDBResult WriterEpoch :=
  ok_or (u64_checked_add e 1) (Config "writer epoch exhausted").

Record GenerationRange := mkGenerationRange { gr_lo : Generation; gr_hi : Generation }.
#[export] Instance GenerationRange_eq_dec : EqDecision GenerationRange.
Proof. solve_decision. Defined.

Definition GenerationRange_new (lo hi : Generation) : TeoDBResult GenerationRange :=
  if (lo =? 0)%N then
    Err (InvalidArgument "generation_lo" "generation ranges start at 1")
  else if (hi <? lo)%N then
    Err (InvalidArgument "generation_range" "lower bound {lo} exceeds upper bound {hi}")
  else Ok (mkGenerationRange lo hi).

Definition gr_contains (r : GenerationRange) (g : Generation) : bool :=
  ((gr_lo r <=? g) && (g <=? gr_hi r))%N.

(** Incarnation-aware key of the local WAL checkpoints. *)
Record WalTableKey := mkWalTableKey { wk_table_uuid : Uuid; wk_ident : TableIdent }.
#[export] Instance WalTableKey_eq_dec : EqDecision WalTableKey.
Proof. solve_decision. Defined.
#[export] Instance WalTableKey_countable : Countable WalTableKey.
Proof.
  refine (inj_countable' (λ k, (wk_table_uuid k, wk_ident k))
            (λ '(a, b), mkWalTableKey a b) _).
  by intros [].
Defined.

(** ** Append identities *)
Record AppendCommitIdentity := mkAppendCommitIdentity {
  id_writer_id : Uuid;
  id_writer_epoch : WriterEpoch;
  id_commit_id : Uuid;
  id_generations : GenerationRange;
}.
#[export] Instance AppendCommitIdentity_eq_dec : EqDecision AppendCommitIdentity.
Proof. solve_decision. Defined.

Definition identity_invalid (table_uuid : Uuid) (i : AppendCommitIdentity) : option string :=
  if uuid_is_nil table_uuid then Some "table UUID is nil"
  else if uuid_is_nil (id_writer_id i) then Some "writer ID is nil"
  else if (id_writer_epoch i =? 0)%N then Some "writer epoch is zero"
  else if uuid_is_nil (id_commit_id i) then Some "commit ID is nil"
  else if ((gr_lo (id_generations i) =? 0)
           || (gr_hi (id_generations i) <? gr_lo (id_generations i)))%N
  then Some "generation range is invalid"
  else None.

Definition identity_validate (table : TableIdent) (table_uuid : Uuid)
    (i : AppendCommitIdentity) : TeoDBResult unit :=
  match identity_invalid table_uuid i with
  | Some message => Err (WriteProtocol table message)
  | None => Ok tt
  end.

Section snapshot_identity.
Context `{UuidText}.

Definition append_snapshot_identity_properties (table_uuid : Uuid)
    (i : AppendCommitIdentity) : list (string * string) :=
  [ (COMMIT_ID_PROPERTY, uuid_to_string (id_commit_id i));
    (WRITER_ID_PROPERTY, uuid_to_string (id_writer_id i));
    (WRITER_EPOCH_PROPERTY, pretty (id_writer_epoch i));
    (GENERATION_MIN_PROPERTY, pretty (gr_lo (id_generations i)));
    (GENERATION_MAX_PROPERTY, pretty (gr_hi (id_generations i)));
    (TABLE_UUID_PROPERTY, uuid_to_string table_uuid);
    (PROTOCOL_VERSION_PROPERTY, pretty WRITE_PROTOCOL_VERSION) ].

Definition snapshot_matches_append_identity (table : TableIdent)
    (table_uuid : Uuid) (i : AppendCommitIdentity)
    (properties : gmap string string) : TeoDBResult bool :=
  if decide (properties !! COMMIT_ID_PROPERTY = Some (uuid_to_string (id_commit_id i)))
  then
    _ ← foldM (λ _ '(key, expected),
           if decide (properties !! key = Some expected) then Ok tt
           else Err (MetadataCorruption table
             "snapshot {} reuses commit ID {} with mismatched {key}"))
         tt (append_snapshot_identity_properties table_uuid i);
    Ok true
  else Ok false.
End snapshot_identity.

(** ** Writer checkpoints *)
Record WriterCheckpoint := mkWriterCheckpoint {
  ck_version : N;
  ck_epoch : WriterEpoch;
  ck_generation : Generation;
  ck_commit_id : Uuid;
  ck_committed_at_ms : Z;
}.
#[export] Instance WriterCheckpoint_eq_dec : EqDecision WriterCheckpoint.
Proof. solve_decision. Defined.

Definition WriterCheckpoint_new (epoch : WriterEpoch) (generation : Generation)
    (commit_id : Uuid) (committed_at_ms : Z) : WriterCheckpoint :=
  mkWriterCheckpoint WRITE_PROTOCOL_VERSION epoch generation commit_id committed_at_ms.

(** The Rust types of the fields. *)
Definition checkpoint_in_range (c : WriterCheckpoint) : Prop :=
  (ck_version c ≤ 65535)%N ∧ (ck_epoch c ≤ u64_max)%N ∧ (ck_generation c ≤ u64_max)%N ∧
  (ck_commit_id c ≤ u128_max)%N ∧ (i64_min ≤ ck_committed_at_ms c ≤ i64_max)%Z.

(** [serde_json::to_string] and [from_str] at [WriterCheckpoint]. *)
Class CheckpointJson := {
  checkpoint_to_json : WriterCheckpoint → string;
  checkpoint_from_json : string → option WriterCheckpoint;
}.
(** Documented behaviour: the derived codec round-trips a value of the Rust
    type, and the five scalar fields print within a few hundred bytes. *)
Class CheckpointJsonLaws `{CheckpointJson} : Prop := {
  checkpoint_from_to_json c :
    checkpoint_in_range c → checkpoint_from_json (checkpoint_to_json c) = Some c;
  checkpoint_json_length c :
    checkpoint_in_range c → String.length (checkpoint_to_json c) ≤ 512;
}.

Section checkpoints.
Context `{UuidText} `{CheckpointJson}.

Definition checkpoint_encode (c : WriterCheckpoint) : TeoDBResult string :=
  Ok (checkpoint_to_json c).

Definition checkpoint_decode (table : TableIdent) (value : string) :
    TeoDBResult WriterCheckpoint :=
  if Nat.ltb MAX_WRITER_CHECKPOINT_VALUE_BYTES (String.length value) then
    Err (MetadataCorruption table "writer checkpoint for {writer_id} exceeds 4096 bytes")
  else
    c ← ok_or (checkpoint_from_json value)
          (MetadataCorruption table "malformed writer checkpoint for {writer_id}: {error}");
    if negb (ck_version c =? WRITE_PROTOCOL_VERSION)%N then
      Err (MetadataCorruption table "unsupported writer checkpoint version {} for {writer_id}")
    else if (ck_epoch c =? 0)%N then
      Err (MetadataCorruption table "writer checkpoint for {writer_id} has zero epoch")
    else if (ck_generation c =? 0)%N then
      Err (MetadataCorruption table "writer checkpoint for {writer_id} has zero generation")
    else if uuid_is_nil (ck_commit_id c) then
      Err (MetadataCorruption table "writer checkpoint for {writer_id} has a nil commit ID")
    else if (ck_committed_at_ms c <? 0)%Z then
      Err (MetadataCorruption table "writer checkpoint for {writer_id} has a negative timestamp")
    else Ok c.

Definition writer_checkpoint_key (writer_id : Uuid) : string :=
  WRITER_CHECKPOINT_PREFIX +:+ uuid_to_string writer_id.

Definition parse_writer_checkpoint (table : TableIdent)
    (properties : gmap string string) (writer_id : Uuid) :
    TeoDBResult (option WriterCheckpoint) :=
  match properties !! writer_checkpoint_key writer_id with
  | Some value => c ← checkpoint_decode table value; Ok (Some c)
  | None => Ok None
  end.

(** One iteration of the validation loop, for a key with the registry prefix. *)
Definition validate_registry_entry (table : TableIdent) (key value : string) :
    TeoDBResult unit :=
  let suffix := default "" (str_strip_prefix WRITER_CHECKPOINT_PREFIX key) in
  writer_uuid ← ok_or (uuid_parse_str suffix)
    (MetadataCorruption table "malformed writer checkpoint key '{key}': {error}");
  if uuid_is_nil writer_uuid || negb (bool_decide (suffix = uuid_to_string writer_uuid)) then
    Err (MetadataCorruption table
      "writer checkpoint key '{key}' is not a canonical, non-nil writer ID")
  else _ ← checkpoint_decode table value; Ok tt.

Definition is_registry_key (key : string) : bool :=
  str_starts_with WRITER_CHECKPOINT_PREFIX key.

Definition validate_writer_checkpoints (table : TableIdent)
    (properties : gmap string string) : TeoDBResult nat :=
  foldM (λ count '(key, value),
           _ ← validate_registry_entry table key value; Ok (S count))
    0 (filter (λ kv, is_registry_key kv.1 = true) (map_to_list properties)).

Definition writer_checkpoint_count (properties : gmap string string) : nat :=
  length (filter (λ kv, is_registry_key kv.1 = true) (map_to_list properties)).
End checkpoints.

(** ** Properties of the identity tuple *)

(** What a checkpoint must satisfy to be accepted by [checkpoint_decode]. *)
Definition checkpoint_valid (c : WriterCheckpoint) : Prop :=
  ck_version c = WRITE_PROTOCOL_VERSION ∧ ck_epoch c ≠ 0%N ∧ ck_generation c ≠ 0%N ∧
  ck_commit_id c ≠ 0%N ∧ (0 ≤ ck_committed_at_ms c)%Z.

Lemma identity_validate_Ok t u i :
  identity_validate t u i = Ok tt ↔
    u ≠ 0%N ∧ id_writer_id i ≠ 0%N ∧ id_writer_epoch i ≠ 0%N ∧ id_commit_id i ≠ 0%N ∧
    (1 ≤ gr_lo (id_generations i) ≤ gr_hi (id_generations i))%N.
Proof.
  unfold identity_validate, identity_invalid, uuid_is_nil.
  repeat match goal with |- context [(?a =? ?b)%N] => destruct (N.eqb_spec a b) end;
    simpl; try naive_solver lia.
  destruct (N.ltb_spec (gr_hi (id_generations i)) (gr_lo (id_generations i)));
    naive_solver lia.
Qed.

Section identity_laws.
Context `{UuidTextLaws}.

Definition carries (ps : gmap string string) (kvs : list (string * string)) : Prop :=
  Forall (λ kv, ps !! kv.1 = Some kv.2) kvs.

Lemma foldM_check_carries t ps kvs (e : TeoDBError) :
  foldM (λ _ '(key, expected),
      if decide (ps !! key = Some expected) then Ok tt else Err e) t kvs = Ok tt
  ↔ carries ps kvs.
Proof.
  unfold carries. revert t. induction kvs as [|[k v] kvs IH]; intros []; simpl.
  { split; [constructor|done]. }
  rewrite Forall_cons. case_decide; simpl; [rewrite IH|]; naive_solver.
Qed.

(** The seven properties determine the table incarnation and the identity. *)
Lemma identity_properties_inj ps u i v j :
  carries ps (append_snapshot_identity_properties u i) →
  carries ps (append_snapshot_identity_properties v j) → u = v ∧ i = j.
Proof.
  destruct i as [wi ei ci [li hi]], j as [wj ej cj [lj hj]].
  unfold carries, append_snapshot_identity_properties; simpl.
  rewrite !Forall_cons; simpl. intros Hi Hj. destruct_and!.
  repeat match goal with
  | H1 : ps !! ?k = Some ?x, H2 : ps !! ?k = Some ?y |- _ =>
      let E := fresh "E" in
      assert (x = y) as E by congruence; clear H2
  end.
  repeat match goal with
  | E : uuid_to_string _ = uuid_to_string _ |- _ => apply uuid_to_string_inj in E
  | E : pretty _ = pretty _ |- _ => apply (inj pretty) in E
  end. by subst.
Qed.

Lemma snapshot_matches_Ok_true t u i ps :
  snapshot_matches_append_identity t u i ps = Ok true ↔
  carries ps (append_snapshot_identity_properties u i).
Proof.
  unfold snapshot_matches_append_identity. case_decide as Hc.
  - rewrite bind_Ok. split.
    + intros ([] & Hf & _). by apply foldM_check_carries in Hf.
    + intros Hcar. exists tt. split; [|done]. by apply foldM_check_carries.
  - split; [done|]. intros Hcar. destruct Hc.
    by apply Forall_cons in Hcar as [? _].
Qed.

Lemma snapshot_matches_Ok_false t u i ps :
  snapshot_matches_append_identity t u i ps = Ok false ↔
  ps !! COMMIT_ID_PROPERTY ≠ Some (uuid_to_string (id_commit_id i)).
Proof.
  unfold snapshot_matches_append_identity. case_decide as Hc; [|done].
  rewrite bind_Ok. naive_solver.
Qed.

Lemma identity_properties_carried u i :
  carries (list_to_map (append_snapshot_identity_properties u i))
    (append_snapshot_identity_properties u i).
Proof.
  unfold carries, append_snapshot_identity_properties. simpl.
  repeat (apply Forall_cons; split); [..|apply Forall_nil; done]; simpl;
    by simplify_map_eq.
Qed.
End identity_laws.

(** ** Properties of the checkpoint codec *)
Section checkpoint_laws.
Context `{UuidTextLaws} `{CheckpointJson}.

Lemma checkpoint_decode_Ok t s c :
  checkpoint_decode t s = Ok c ↔
    String.length s ≤ MAX_WRITER_CHECKPOINT_VALUE_BYTES ∧
    checkpoint_from_json s = Some c ∧ checkpoint_valid c.
Proof.
  unfold checkpoint_decode, checkpoint_valid, uuid_is_nil.
  destruct (Nat.ltb_spec MAX_WRITER_CHECKPOINT_VALUE_BYTES (String.length s)).
  { split; [done|]. intros []. lia. }
  destruct (checkpoint_from_json s) as [d|]; simpl; [|naive_solver].
  repeat match goal with |- context [(?a =? ?b)%N] => destruct (N.eqb_spec a b) end; simpl;
    try (split; [done|naive_solver]).
  destruct (Z.ltb_spec (ck_committed_at_ms d) 0).
  - split; [done|]. intros; destruct_and!; simplify_eq; lia.
  - split; [intros [= <-]; split_and!; done|]. intros; destruct_and!; congruence.
Qed.

Lemma checkpoint_decode_Err t s e :
  checkpoint_decode t s = Err e → ∃ m, e = MetadataCorruption t m.
Proof.
  unfold checkpoint_decode.
  repeat case_match; simpl; intros; simplify_eq; eauto.
  all: destruct (checkpoint_from_json s); simpl in *; simplify_eq; eauto.
  all: repeat case_match; simplify_eq; eauto.
Qed.

Lemma checkpoint_roundtrip `{!CheckpointJsonLaws} t c :
  checkpoint_in_range c → checkpoint_valid c →
  checkpoint_decode t (checkpoint_to_json c) = Ok c.
Proof.
  intros Hr Hv. apply checkpoint_decode_Ok. split_and!; [|by apply checkpoint_from_to_json|done].
  pose proof (checkpoint_json_length c Hr). unfold MAX_WRITER_CHECKPOINT_VALUE_BYTES. lia.
Qed.

Lemma writer_checkpoint_key_inj w w' :
  writer_checkpoint_key w = writer_checkpoint_key w' → w = w'.
Proof. intros ?%str_app_inj_l. by apply uuid_to_string_inj. Qed.

Lemma is_registry_key_writer w : is_registry_key (writer_checkpoint_key w) = true.
Proof. apply str_starts_with_app. Qed.

(** What one accepted registry entry looks like. *)
Definition registry_entry_ok (t : TableIdent) (key value : string) : Prop :=
  ∃ w c, key = writer_checkpoint_key w ∧ w ≠ 0%N ∧ checkpoint_decode t value = Ok c.

Lemma validate_registry_entry_Ok t k v u :
  is_registry_key k = true →
  validate_registry_entry t k v = Ok u ↔ registry_entry_ok t k v.
Proof.
  intros (r & ->)%str_starts_with_true. destruct u.
  unfold validate_registry_entry, registry_entry_ok.
  rewrite (proj2 (str_strip_prefix_Some _ _ r) eq_refl). simpl.
  rewrite bind_Ok. setoid_rewrite ok_or_Ok. split.
  - intros (w & Hw & Hrest). unfold uuid_is_nil in Hrest.
    destruct (N.eqb_spec w 0); [done|]. case_bool_decide as Hr; [|done].
    simpl in Hrest. apply bind_Ok in Hrest as (c & Hc & _).
    exists w, c. unfold writer_checkpoint_key. by rewrite Hr.
  - intros (w & c & Hk & Hnz & Hc). apply str_app_inj_l in Hk as ->.
    exists w. split; [apply uuid_parse_to_string|].
    unfold uuid_is_nil. rewrite (proj2 (N.eqb_neq w 0) Hnz).
    rewrite bool_decide_true by done. simpl. by rewrite Hc.
Qed.

Lemma validate_loop_Ok t n kvs m :
  Forall (λ kv : string * string, is_registry_key kv.1 = true) kvs →
  foldM (λ count '(key, value),
      _ ← validate_registry_entry t key value; Ok (S count)) n kvs = Ok m ↔
  m = n + length kvs ∧ Forall (λ kv, registry_entry_ok t kv.1 kv.2) kvs.
Proof.
  intros Hk. revert n. induction Hk as [|[k v] kvs Hkey _ IH]; intros n; simpl.
  { rewrite Forall_nil. split; [intros [= ->]|intros [-> _]]; [split; [lia|done]|f_equal; lia]. }
  rewrite Forall_cons. simpl in *. rewrite <-(validate_registry_entry_Ok t k v tt Hkey).
  destruct (validate_registry_entry t k v) as [[]|e]; simpl.
  - rewrite IH. split; intros; destruct_and!; split_and!; auto; lia.
  - naive_solver.
Qed.

Lemma validate_writer_checkpoints_Ok t ps n :
  validate_writer_checkpoints t ps = Ok n ↔
    n = writer_checkpoint_count ps ∧
    ∀ k v, ps !! k = Some v → is_registry_key k = true → registry_entry_ok t k v.
Proof.
  unfold validate_writer_checkpoints, writer_checkpoint_count.
  rewrite validate_loop_Ok by (apply Forall_forall; intros kv [? _]%list_elem_of_filter; done).
  simpl. apply and_iff_compat_l. rewrite Forall_forall. split.
  - intros Hall k v Hkv Hk. apply (Hall (k, v)), list_elem_of_filter.
    split; [done|]. by apply elem_of_map_to_list.
  - intros Hall [k v] [Hk Hkv%elem_of_map_to_list]%list_elem_of_filter. by apply Hall.
Qed.
End checkpoint_laws.

(** ** A concrete checkpoint codec, for evaluation *)
Definition checkpoint_pack (c : WriterCheckpoint) : N :=
  (ck_version c + 2 ^ 16 * (ck_epoch c + 2 ^ 64 * (ck_generation c +
   2 ^ 64 * (ck_commit_id c + 2 ^ 128 * Z.to_N (ck_committed_at_ms c + 2 ^ 63)))))%N.
Definition checkpoint_unpack (n : N) : WriterCheckpoint :=
  let n1 := (n / 2 ^ 16)%N in let n2 := (n1 / 2 ^ 64)%N in
  let n3 := (n2 / 2 ^ 64)%N in let n4 := (n3 / 2 ^ 128)%N in
  mkWriterCheckpoint (n mod 2 ^ 16) (n1 mod 2 ^ 64) (n2 mod 2 ^ 64) (n3 mod 2 ^ 128)
    (Z.of_N n4 - 2 ^ 63).
Definition demo_checkpoint_json : CheckpointJson :=
  {| checkpoint_to_json c := N_bits (checkpoint_pack c);
     checkpoint_from_json s := checkpoint_unpack <$> bits_N s |}.

Lemma split_digit (a b m : N) : (a < m)%N → ((a + m * b) mod m = a ∧ (a + m * b) / m = b)%N.
Proof.
  intros Ha. rewrite (N.mul_comm m b). split.
  - rewrite N.Div0.mod_add. by apply N.mod_small.
  - rewrite N.div_add by lia. rewrite N.div_small by done. lia.
Qed.

Lemma checkpoint_unpack_pack c : checkpoint_in_range c → checkpoint_unpack (checkpoint_pack c) = c.
Proof.
  destruct c as [v e g ci ts]. intros (Hv & He & Hg & Hc & Ht).
  unfold checkpoint_unpack, checkpoint_pack, u64_max, u128_max, i64_min, i64_max in *.
  cbn [ck_version ck_epoch ck_generation ck_commit_id ck_committed_at_ms] in *.
  set (n4 := Z.to_N (ts + 2 ^ 63)).
  destruct (split_digit v (e + 2 ^ 64 * (g + 2 ^ 64 * (ci + 2 ^ 128 * n4))) (2 ^ 16)) as [-> ->]; [lia|].
  destruct (split_digit e (g + 2 ^ 64 * (ci + 2 ^ 128 * n4)) (2 ^ 64)) as [-> ->]; [lia|].
  destruct (split_digit g (ci + 2 ^ 128 * n4) (2 ^ 64)) as [-> ->]; [lia|].
  destruct (split_digit ci n4 (2 ^ 128)) as [-> ->]; [lia|].
  f_equal. unfold n4. lia.
Qed.

Lemma demo_checkpoint_json_laws : @CheckpointJsonLaws demo_checkpoint_json.
Proof.
  constructor; intros c Hc; simpl.
  - rewrite bits_N_bits. simpl. by rewrite checkpoint_unpack_pack.
  - trans 336; [|lia]. apply N_bits_length.
    destruct c as [v e g ci ts], Hc as (Hv & He & Hg & Hc & Ht).
    unfold checkpoint_pack, u64_max, u128_max, i64_min, i64_max in *.
    cbn [ck_version ck_epoch ck_generation ck_commit_id ck_committed_at_ms] in *. lia.
Qed.

Definition demo_checkpoint : WriterCheckpoint := WriterCheckpoint_new 3 17 99 1700000000000.
Definition demo_table : TableIdent := mkTableIdent "analytics" "events".
Definition demo_identity : AppendCommitIdentity :=
  mkAppendCommitIdentity 7 3 99 (mkGenerationRange 11 17).

(** The checkpoint codec round-trips: an encoded checkpoint whose fields fit their
    Rust types decodes to itself when it is well formed (protocol version, non-zero
    epoch and generation, non-nil commit, non-negative time), and is reported as
    metadata corruption of its table in every other case. *)
Theorem checkpoint_codec_roundtrip `{CheckpointJsonLaws} (t : TableIdent) (c : WriterCheckpoint)
    (Hrange : checkpoint_in_range c) :
  ∃ s, checkpoint_encode c = Ok s ∧
    (checkpoint_valid c → checkpoint_decode t s = Ok c) ∧
    (¬ checkpoint_valid c → ∃ m, checkpoint_decode t s = Err (MetadataCorruption t m)).
Proof.
  exists (checkpoint_to_json c). split_and!; [done|by apply checkpoint_roundtrip|].
  intros Hv. destruct (checkpoint_decode t (checkpoint_to_json c)) as [d|e] eqn:Hd.
  - apply checkpoint_decode_Ok in Hd as (_ & Hd & Hdv).
    rewrite checkpoint_from_to_json in Hd by done. congruence.
  - apply checkpoint_decode_Err in Hd as [m ->]. eauto.
Qed.

Lemma checkpoint_codec_roundtrip_witness :
  ∃ s, @checkpoint_encode demo_checkpoint_json demo_checkpoint = Ok s ∧
    (checkpoint_valid demo_checkpoint →
      @checkpoint_decode demo_checkpoint_json demo_table s = Ok demo_checkpoint) ∧
    (¬ checkpoint_valid demo_checkpoint → ∃ m,
      @checkpoint_decode demo_checkpoint_json demo_table s = Err (MetadataCorruption demo_table m)).
Proof.
  apply (@checkpoint_codec_roundtrip demo_checkpoint_json demo_checkpoint_json_laws).
  vm_compute. repeat split; discriminate.
Defined.

(** Exactness of status resolution: on a snapshot that carries the seven identity
    properties written for [(v, j)], whatever else its summary holds, the matcher
    answers "no" exactly when the commit ids differ, "yes" exactly when table
    incarnation and the whole identity agree, and metadata corruption when a commit id
    is reused with any other component. *)
Theorem snapshot_identity_exact `{UuidTextLaws} (t : TableIdent) (u v : Uuid)
    (i j : AppendCommitIdentity) (ps : gmap string string)
    (Hps : carries ps (append_snapshot_identity_properties v j)) :
  snapshot_matches_append_identity t u i ps =
    if decide (id_commit_id i = id_commit_id j) then
      if decide (u = v ∧ i = j) then Ok true
      else Err (MetadataCorruption t "snapshot {} reuses commit ID {} with mismatched {key}")
    else Ok false.
Proof.
  assert (ps !! COMMIT_ID_PROPERTY = Some (uuid_to_string (id_commit_id j))) as Hcid
    by (by apply Forall_cons in Hps as [? _]).
  case_decide as Hc; [case_decide as Hij|].
  - destruct Hij as [-> ->]. by apply snapshot_matches_Ok_true.
  - unfold snapshot_matches_append_identity. rewrite Hc, decide_True by done.
    destruct (foldM _ _ _) as [[]|e] eqn:Hf; simpl.
    + apply foldM_check_carries in Hf.
      destruct Hij. by apply (identity_properties_inj ps).
    + f_equal. revert Hf. generalize tt.
      induction (append_snapshot_identity_properties u i) as [|[k x] l IH]; simpl; [done|].
      intros [] Hf. case_decide; simpl in Hf; [by apply (IH tt)|congruence].
  - apply snapshot_matches_Ok_false. rewrite Hcid. intros [= ?%uuid_to_string_inj]. congruence.
Qed.

Lemma snapshot_identity_exact_witness :
  @snapshot_matches_append_identity demo_uuid_text demo_table 5 demo_identity
    (list_to_map (@append_snapshot_identity_properties demo_uuid_text 5 demo_identity)) = Ok true.
Proof.
  rewrite (@snapshot_identity_exact demo_uuid_text demo_uuid_text_laws demo_table 5 5
             demo_identity demo_identity).
  - reflexivity.
  - apply identity_properties_carried.
Defined.

(**  Registry validation is exact: it accepts a property map iff every key under
    the registry prefix, foreign writers included, is the canonical key of a non-nil
    writer and its value decodes, and the number returned is the registry size used by
    the admission limit. *)
Theorem registry_validation_exact `{UuidTextLaws} `{CheckpointJson} (t : TableIdent)
    (ps : gmap string string) (n : nat) :
  validate_writer_checkpoints t ps = Ok n ↔
    n = writer_checkpoint_count ps ∧
    ∀ k v, ps !! k = Some v → is_registry_key k = true →
      ∃ w c, k = writer_checkpoint_key w ∧ w ≠ 0%N ∧ checkpoint_decode t v = Ok c.
Proof. apply validate_writer_checkpoints_Ok. Qed.

Lemma registry_validation_exact_witness :
  @validate_writer_checkpoints demo_uuid_text demo_checkpoint_json demo_table
    {[ @writer_checkpoint_key demo_uuid_text 7 := @checkpoint_to_json demo_checkpoint_json demo_checkpoint;
       "owner" := "x" ]} = Ok 1.
Proof.
  apply (@registry_validation_exact demo_uuid_text demo_uuid_text_laws demo_checkpoint_json).
  split; [vm_compute; reflexivity|].
  intros k v [[<- <-]|[_ [<- <-]%lookup_singleton_Some]]%lookup_insert_Some.
  - intros _. exists 7%N, demo_checkpoint. split_and!; [done|done|vm_compute; reflexivity].
  - intros Hk. vm_compute in Hk. discriminate.
Defined.
