(* ===== verification/WalFrame.v ===== *)
(** * WAL frames

    Models [teodb-storage/src/wal/segment/segment.rs]: record headers and their
    validation, the frame codec and the segment scan used by garbage
    collection.  Bytes are [Byte.byte]; the JSON text of a header, the Arrow IPC
    stream of a batch and the CRC are the [WalCodec] interface. *)

From Stdlib Require Export Init.Byte Strings.Byte.
From S2P Require Import Prelude Core WriteProtocol.
Open Scope string_scope.
Open Scope nat_scope.
Open Scope list_scope.

(** ** Little-endian words *)
Definition byte_of_N (n : N) : byte := default x00 (Byte.of_N (n mod 256)).
Definition u32_to_le_bytes (n : N) : list byte :=
  [byte_of_N n; byte_of_N (n / 256); byte_of_N (n / 65536); byte_of_N (n / 16777216)].
Definition u32_from_le_bytes (b0 b1 b2 b3 : byte) : N :=
  (Byte.to_N b0 + 256 * Byte.to_N b1 + 65536 * Byte.to_N b2 + 16777216 * Byte.to_N b3)%N.

#[export] Instance byte_eq_dec : EqDecision byte.
Proof. intros a b. destruct (Byte.byte_eq_dec a b); [left|right]; done. Defined.

(** ** Records *)
Inductive WalOp := Append | DropTable.
#[export] Instance WalOp_eq_dec : EqDecision WalOp.
Proof. solve_decision. Defined.

Record WalHeader := mkWalHeader {
  protocol_version : N;
  h_table_uuid : option Uuid;
  batch_id : Uuid;
  h_table : TableIdent;
  schema_id : Z;
  generation : Generation;
  created_at_ms : Z;
  idempotency_key : option string;
  row_count : N;
  byte_count : N;
  op : WalOp;
}.
#[export] Instance WalHeader_eq_dec : EqDecision WalHeader.
Proof. solve_decision. Defined.

Definition header_validate (h : WalHeader) : TeoDBResult unit :=
  if negb (protocol_version h =? WRITE_PROTOCOL_VERSION)%N then
    Err (wal "WAL record must use protocol version {WRITE_PROTOCOL_VERSION}, found {}")
  else match op h, h_table_uuid h with
  | Append, None => Err (wal "append WAL record is missing table_uuid")
  | Append, Some u =>
      if uuid_is_nil u then Err (wal "append WAL record has a nil table_uuid") else Ok tt
  | DropTable, Some _ => Err (wal "drop-table WAL record must not carry table_uuid")
  | DropTable, None => Ok tt
  end.

Definition table_key (h : WalHeader) : TeoDBResult WalTableKey :=
  _ ← header_validate h;
  u ← ok_or (h_table_uuid h) (wal "append WAL record is missing table_uuid");
  Ok (mkWalTableKey u (h_table h)).

(** ** Third-party codecs

    [serde_json] at [WalHeader], Arrow IPC streams ([StreamWriter] and the
    first batch of a [StreamReader]; a failure carries the message the source
    builds) and [crc32fast]. *)
Class WalCodec := {
  RecordBatch : Type;
  empty_batch : RecordBatch;
  header_to_json : WalHeader → list byte;
  header_from_json : list byte → option WalHeader;
  ipc_write : RecordBatch → TeoDBResult (list byte);
  ipc_read : list byte → result string RecordBatch;
  crc32 : list byte → N;
}.
(** Documented behaviour: both codecs round-trip, compact JSON escapes control
    characters (so it has no newline) and the CRC is a [u32]. *)
Class WalCodecLaws `{WalCodec} : Prop := {
  header_from_to_json h : header_from_json (header_to_json h) = Some h;
  header_json_no_newline h : x0a ∉ header_to_json h;
  ipc_read_write b bs : ipc_write b = Ok bs → ipc_read bs = Ok b;
  crc32_bound bs : (crc32 bs ≤ u32_max)%N;
}.

Definition FRAME_HEADER_SIZE : N := 8.
Definition ALIGNMENT : N := 8.
Definition MAX_PAYLOAD_BYTES : N := 1073741824.

Definition lenN {A} (l : list A) : N := N.of_nat (length l).

Section frames.
Context `{WalCodec}.

Record WalRecord := mkWalRecord { header : WalHeader; batch : RecordBatch }.

Definition drop_tombstone (now_v7 : Uuid) (now_ms : Z) (table : TableIdent) : WalRecord :=
  mkWalRecord
    (mkWalHeader WRITE_PROTOCOL_VERSION None now_v7 table 0 0 now_ms None 0 0 DropTable)
    empty_batch.

Inductive FrameDecode :=
| Complete (record : WalRecord) (consumed : N)
| Incomplete
| Corrupt (reason : string).

Definition frame_padding (total_content : N) : N :=
  ((ALIGNMENT - total_content mod ALIGNMENT) mod ALIGNMENT)%N.

(** The payload: header JSON, newline, IPC bytes of an append. *)
Definition encode_payload (record : WalRecord) : TeoDBResult (list byte) :=
  ipc_buf ← (match op (header record) with
             | Append => ipc_write (batch record)
             | DropTable => Ok []
             end);
  Ok (header_to_json (header record) ++ [x0a] ++ ipc_buf).

Definition encode_frame (record : WalRecord) : TeoDBResult (list byte) :=
  _ ← header_validate (header record);
  payload ← encode_payload record;
  let payload_len := (lenN payload mod (u32_max + 1))%N in (* [as u32] *)
  let crc := crc32 payload in
  let total_content := (FRAME_HEADER_SIZE + lenN payload)%N in
  let padding := frame_padding total_content in
  Ok (u32_to_le_bytes payload_len ++ u32_to_le_bytes crc ++ payload
        ++ replicate (N.to_nat padding) x00).

(** [payload.iter().position(|&b| b == b'\n')]. *)
Fixpoint newline_position (bs : list byte) : option nat :=
  match bs with
  | [] => None
  | b :: bs => if decide (b = x0a) then Some 0 else S <$> newline_position bs
  end.

(** The part of [decode_frame] after the length checks. *)
Definition decode_payload (expected_crc : N) (payload : list byte) (frame_size : N) : FrameDecode :=
  if negb (crc32 payload =? expected_crc)%N then
    Corrupt "CRC mismatch: expected {expected_crc:#x}, got {actual_crc:#x}"
  else match newline_position payload with
  | None => Corrupt "no newline in WAL payload"
  | Some newline_pos =>
      match header_from_json (take newline_pos payload) with
      | None => Corrupt "header json parse: {e}"
      | Some h =>
          match header_validate h with
          | Err _ => Corrupt "invalid WAL header: {error}"
          | Ok _ =>
              match op h with
              | DropTable => Complete (mkWalRecord h empty_batch) frame_size
              | Append =>
                  match ipc_read (drop (newline_pos + 1) payload) with
                  | Err e => Corrupt e
                  | Ok b => Complete (mkWalRecord h b) frame_size
                  end
              end
          end
      end
  end.

Definition decode_frame (data : list byte) : FrameDecode :=
  match data with
  | b0 :: b1 :: b2 :: b3 :: c0 :: c1 :: c2 :: c3 :: rest =>
      let payload_len := u32_from_le_bytes b0 b1 b2 b3 in
      let expected_crc := u32_from_le_bytes c0 c1 c2 c3 in
      if (payload_len =? 0)%N then
        if forallb (λ b, bool_decide (b = x00)) data then Incomplete
        else Corrupt "zero payload length with non-zero trailing bytes"
      else if (MAX_PAYLOAD_BYTES <? payload_len)%N then
        Corrupt "implausible payload length {payload_len} (corrupt length field)"
      else
        let total_content := (FRAME_HEADER_SIZE + payload_len)%N in
        let frame_size := (total_content + frame_padding total_content)%N in
        if (lenN data <? total_content)%N then Incomplete
        else decode_payload expected_crc (take (N.to_nat payload_len) rest) frame_size
  | _ => Incomplete
  end.

(** ** Segment scan *)
Inductive ScanFrame :=
| ScanAppend (key : WalTableKey) (gen : Generation)
| ScanDrop (table : TableIdent).

Record SegmentScan := mkSegmentScan { scan_frames : list ScanFrame; scan_corrupt : bool }.

(** The [while offset < data.len()] loop, on the bytes from [offset] on; each
    iteration consumes at least one byte, so [S (length data)] rounds are
    enough ([scan_loop_total]). *)
Fixpoint scan_loop (fuel : nat) (data : list byte) : option (TeoDBResult SegmentScan) :=
  match fuel with
  | O => None
  | S fuel =>
      match data with
      | [] => Some (Ok (mkSegmentScan [] false))
      | _ =>
          match decode_frame data with
          | Complete record consumed =>
              match (match op (header record) with
                     | Append => key ← table_key (header record);
                                 Ok (ScanAppend key (generation (header record)))
                     | DropTable => Ok (ScanDrop (h_table (header record)))
                     end) with
              | Err e => Some (Err e)
              | Ok frame =>
                  match scan_loop fuel (drop (N.to_nat consumed) data) with
                  | Some (Ok s) => Some (Ok (mkSegmentScan (frame :: scan_frames s) (scan_corrupt s)))
                  | r => r
                  end
              end
          | Incomplete => Some (Ok (mkSegmentScan [] false))
          | Corrupt _ => Some (Ok (mkSegmentScan [] true))
          end
      end
  end.

(** [None] as content: the file could not be read. *)
Definition scan_segment (content : option (list byte)) : option (TeoDBResult SegmentScan) :=
  match content with
  | None => Some (Err (wal "read segment {}: {e}"))
  | Some data => scan_loop (S (length data)) data
  end.
End frames.
#[global] Arguments decode_frame {_} _ : simpl never.

(** ** Lemmas on bytes and lengths *)
Lemma byte_of_N_to_N n : Byte.to_N (byte_of_N n) = (n mod 256)%N.
Proof.
  unfold byte_of_N. destruct (Byte.of_N (n mod 256)) as [b|] eqn:Hb; simpl.
  - by apply Byte.to_of_N.
  - apply Byte.of_N_None_iff in Hb. pose proof (N.mod_lt n 256 ltac:(done)). lia.
Qed.

Lemma u32_le_roundtrip n :
  (n ≤ u32_max)%N →
  u32_from_le_bytes (byte_of_N n) (byte_of_N (n / 256)) (byte_of_N (n / 65536))
    (byte_of_N (n / 16777216)) = n.
Proof.
  unfold u32_from_le_bytes, u32_max. rewrite !byte_of_N_to_N. intros Hn.
  pose proof (N.div_mod' n 256). pose proof (N.div_mod' (n / 256) 256).
  pose proof (N.div_mod' (n / 65536) 256).
  replace (n / 65536)%N with (n / 256 / 256)%N in * by (rewrite N.Div0.div_div; done).
  replace (n / 16777216)%N with (n / 256 / 256 / 256)%N in * by (rewrite !N.Div0.div_div; done).
  rewrite (N.mod_small (n / 256 / 256 / 256)); [lia|].
  rewrite !N.Div0.div_div. apply N.Div0.div_lt_upper_bound. lia.
Qed.

Lemma lenN_app {A} (l1 l2 : list A) : lenN (l1 ++ l2) = (lenN l1 + lenN l2)%N.
Proof. unfold lenN. rewrite length_app. lia. Qed.
Lemma lenN_take {A} n (l : list A) : lenN (take n l) = N.min (N.of_nat n) (lenN l).
Proof. unfold lenN. rewrite length_take. lia. Qed.
Lemma lenN_drop {A} n (l : list A) : lenN (drop n l) = (lenN l - N.of_nat n)%N.
Proof. unfold lenN. rewrite length_drop. lia. Qed.
Lemma lenN_replicate {A} n (x : A) : lenN (replicate n x) = N.of_nat n.
Proof. unfold lenN. by rewrite length_replicate. Qed.

Lemma newline_position_app j r :
  x0a ∉ j → newline_position (j ++ x0a :: r) = Some (length j).
Proof.
  induction j as [|b j IH]; intros Hj; simpl.
  - done.
  - apply not_elem_of_cons in Hj as [? ?]. rewrite decide_False by congruence.
    by rewrite IH.
Qed.

Lemma frame_padding_lt t : (frame_padding t < 8)%N.
Proof. apply N.mod_lt. done. Qed.

Lemma frame_padding_aligned t : ((t + frame_padding t) mod 8 = 0)%N.
Proof.
  unfold frame_padding, ALIGNMENT.
  pose proof (N.div_mod' t 8) as Ht. pose proof (N.mod_lt t 8 ltac:(done)) as Hr.
  generalize dependent (t mod 8)%N. generalize (t / 8)%N. intros q r -> Hr.
  destruct (decide (r = 0%N)) as [->|Hz].
  - change ((8 - 0) mod 8)%N with 0%N. rewrite !N.add_0_r, N.mul_comm. apply N.Div0.mod_mul.
  - rewrite (N.mod_small (8 - r)) by lia.
    replace (8 * q + r + (8 - r))%N with ((q + 1) * 8)%N by lia. apply N.Div0.mod_mul.
Qed.

Section frame_laws.
Context `{WalCodecLaws}.

(** Decoding forgets the batch of a tombstone. *)
Definition decoded_record (r : WalRecord) : WalRecord :=
  match op (header r) with
  | Append => r
  | DropTable => mkWalRecord (header r) empty_batch
  end.

(** The length prefix and CRC decide the outcome of [decode_frame] on a slice
    that starts with them. *)
Lemma decode_frame_shape len c body :
  (0 < len ≤ MAX_PAYLOAD_BYTES)%N → (c ≤ u32_max)%N →
  decode_frame (u32_to_le_bytes len ++ u32_to_le_bytes c ++ body) =
    if (lenN body <? len)%N then Incomplete
    else decode_payload c (take (N.to_nat len) body)
           (FRAME_HEADER_SIZE + len + frame_padding (FRAME_HEADER_SIZE + len)).
Proof.
  intros Hlen Hc. assert (len ≤ u32_max)%N by (unfold MAX_PAYLOAD_BYTES, u32_max in *; lia).
  unfold decode_frame, u32_to_le_bytes. cbn [app].
  rewrite !u32_le_roundtrip by done.
  rewrite (proj2 (N.eqb_neq _ _)) by lia.
  rewrite (proj2 (N.ltb_ge _ _)) by lia.
  unfold FRAME_HEADER_SIZE, lenN. cbn [length].
  destruct (N.ltb_spec (N.of_nat (length body)) len).
  - rewrite (proj2 (N.ltb_lt _ _)); [done|lia].
  - rewrite (proj2 (N.ltb_ge _ _)); [done|lia].
Qed.

Lemma decode_encoded_payload r p size :
  header_validate (header r) = Ok tt → encode_payload r = Ok p →
  decode_payload (crc32 p) p size = Complete (decoded_record r) size.
Proof.
  intros Hv (ipc & Hipc & [= <-])%bind_Ok. unfold decode_payload, decoded_record.
  rewrite N.eqb_refl. cbn [negb app].
  rewrite newline_position_app by apply header_json_no_newline.
  rewrite take_app_length, header_from_to_json, Hv.
  destruct (op (header r)) eqn:Hop; [|done].
  rewrite Nat.add_1_r, (drop_app_ge _ _ (S _)) by lia.
  replace (S _ - _) with 1 by lia. simpl. rewrite drop_0.
  rewrite (ipc_read_write _ _ Hipc). by destruct r.
Qed.

(** An encoded frame, taken apart. *)
Lemma encode_frame_Ok r f :
  encode_frame r = Ok f →
  ∃ p, encode_payload r = Ok p ∧ header_validate (header r) = Ok tt ∧ (0 < lenN p)%N ∧
    f = u32_to_le_bytes (lenN p mod (u32_max + 1)) ++ u32_to_le_bytes (crc32 p) ++ p
          ++ replicate (N.to_nat (frame_padding (FRAME_HEADER_SIZE + lenN p))) x00.
Proof.
  unfold encode_frame. intros ([] & Hv & (p & Hp & [= <-])%bind_Ok)%bind_Ok.
  exists p. split_and!; auto.
  apply bind_Ok in Hp as (ipc & _ & [= <-]). unfold lenN.
  rewrite length_app. simpl. lia.
Qed.

(** [r] has a payload within the limit the decoder accepts. *)
Definition payload_fits (r : WalRecord) : Prop :=
  ∀ p, encode_payload r = Ok p → (lenN p ≤ MAX_PAYLOAD_BYTES)%N.

Lemma encode_frame_length r f p :
  encode_frame r = Ok f → encode_payload r = Ok p →
  lenN f = (FRAME_HEADER_SIZE + lenN p + frame_padding (FRAME_HEADER_SIZE + lenN p))%N.
Proof.
  intros (p' & Hp & _ & _ & ->)%encode_frame_Ok Hp'. rewrite Hp in Hp'. injection Hp' as ->.
  rewrite !lenN_app, lenN_replicate. change (lenN (u32_to_le_bytes _)) with 4%N.
  unfold FRAME_HEADER_SIZE. lia.
Qed.

(** Decoding a cut of an encoded frame: the record once all content bytes are
    present, [Incomplete] before, never [Corrupt]. *)
Lemma decode_frame_cut r f p n rest :
  encode_frame r = Ok f → encode_payload r = Ok p → payload_fits r →
  (n = length f ∨ rest = []) →
  decode_frame (take n f ++ rest) =
    if decide (N.of_nat n < FRAME_HEADER_SIZE + lenN p)%N then Incomplete
    else Complete (decoded_record r) (lenN f).
Proof.
  intros Hf Hp Hfit Hrest. pose proof (encode_frame_length _ _ _ Hf Hp) as Hlen.
  apply encode_frame_Ok in Hf as (p' & Hp' & Hv & Hpos & Hf).
  rewrite Hp in Hp'. injection Hp' as <-.
  specialize (Hfit p Hp).
  rewrite N.mod_small in Hf by (unfold MAX_PAYLOAD_BYTES, u32_max in *; lia).
  set (pad := replicate _ _) in Hf.
  assert (∀ s, (lenN s < 8)%N → decode_frame s = Incomplete) as Hshort.
  { intros s Hs. do 8 (destruct s as [|? s]; [done|]). unfold lenN in Hs. simpl in Hs. lia. }
  destruct (decide (n < 8)) as [Hn|Hn].
  { rewrite decide_True by (unfold FRAME_HEADER_SIZE; lia).
    apply Hshort. destruct Hrest as [->| ->].
    - unfold lenN, FRAME_HEADER_SIZE in Hlen. lia.
    - rewrite app_nil_r, lenN_take. lia. }
  assert (take n f ++ rest = u32_to_le_bytes (lenN p) ++ u32_to_le_bytes (crc32 p)
            ++ take (n - 8) (p ++ pad) ++ rest) as ->.
  { rewrite Hf. do 8 (destruct n as [|n]; [lia|]).
    replace (S (S (S (S (S (S (S (S n))))))) - 8) with n by lia. done. }
  pose proof (crc32_bound p). rewrite decode_frame_shape by (done || lia).
  assert (lenN f = 8 + lenN (p ++ pad))%N as Hlen8
    by (rewrite Hf, !lenN_app; change (lenN (u32_to_le_bytes _)) with 4%N; lia).
  unfold FRAME_HEADER_SIZE in *.
  destruct (decide (N.of_nat n < 8 + lenN p)%N) as [Hcut|Hcut].
  - destruct Hrest as [->| ->].
    { unfold lenN in *. rewrite length_app in *. lia. }
    rewrite app_nil_r, lenN_take, (proj2 (N.ltb_lt _ _)); [done|lia].
  - rewrite lenN_app, lenN_take, lenN_app, (proj2 (N.ltb_ge _ _)) by (rewrite ?lenN_app; lia).
    rewrite <-Hlen. rewrite take_app_le by (rewrite length_take, length_app; unfold lenN in *; lia).
    rewrite take_take, Nat.min_l by (unfold lenN in *; lia).
    rewrite take_app_le by (unfold lenN; lia).
    rewrite take_ge by (unfold lenN; lia).
    by apply decode_encoded_payload.
Qed.

Lemma decode_encoded_frame r f rest :
  encode_frame r = Ok f → payload_fits r →
  decode_frame (f ++ rest) = Complete (decoded_record r) (lenN f).
Proof.
  intros Hf Hfit. destruct (encode_frame_Ok _ _ Hf) as (p & Hp & _).
  pose proof (encode_frame_length _ _ _ Hf Hp).
  rewrite <-(take_ge f (length f)) at 1 by done.
  rewrite (decode_frame_cut r f p) by auto.
  rewrite decide_False; [done|]. unfold lenN in *. lia.
Qed.
End frame_laws.

(** ** The frames of a segment

    [parse_segment] is the reference reading of a segment: its complete frames
    with their offsets, and how the reading ends. *)
Inductive SegTail := TailEnd | TailTorn | TailCorrupt (reason : string).

Definition tail_corrupt (t : SegTail) : bool :=
  match t with TailCorrupt _ => true | _ => false end.

Section parse.
Context `{WalCodec}.

Fixpoint parse_loop (fuel : nat) (off : N) (data : list byte) : list (N * WalRecord) * SegTail :=
  match fuel, data with
  | _, [] | O, _ => ([], TailEnd)
  | S fuel, _ =>
      match decode_frame data with
      | Complete r c =>
          let '(l, t) := parse_loop fuel (off + c) (drop (N.to_nat c) data) in ((off, r) :: l, t)
      | Incomplete => ([], TailTorn)
      | Corrupt e => ([], TailCorrupt e)
      end
  end.
Definition parse_from (off : N) (data : list byte) := parse_loop (length data) off data.
Definition parse_segment (data : list byte) := parse_from 0 data.

Lemma decode_payload_Complete c p size r k :
  decode_payload c p size = Complete r k → k = size ∧ header_validate (header r) = Ok tt.
Proof.
  unfold decode_payload. repeat case_match; intros; simplify_eq; simpl.
  all: match goal with u : () |- _ => destruct u; done end.
Qed.

Lemma decode_frame_Complete data r c :
  decode_frame data = Complete r c → (8 < c)%N ∧ header_validate (header r) = Ok tt.
Proof.
  unfold decode_frame. do 8 (destruct data as [|? data]; [done|]).
  case_match eqn:Hz; [by case_match|]. case_match; [done|]. case_match; [done|].
  intros [-> Hv]%decode_payload_Complete. split; [|done].
  apply N.eqb_neq in Hz. unfold FRAME_HEADER_SIZE. lia.
Qed.

Lemma parse_loop_fuel fuel fuel' off data :
  length data ≤ fuel → length data ≤ fuel' → parse_loop fuel off data = parse_loop fuel' off data.
Proof.
  revert fuel' off data. induction fuel as [|fuel IH]; intros fuel' off data Hf Hf'.
  { destruct data; [by destruct fuel'|simpl in Hf; lia]. }
  destruct data as [|b data]; [by destruct fuel'|].
  destruct fuel' as [|fuel']; [simpl in Hf'; lia|].
  cbn [parse_loop]. destruct (decode_frame (b :: data)) as [r c| |] eqn:Hd; [|done..].
  apply decode_frame_Complete in Hd as [? _].
  rewrite (IH fuel'); [done|..]; rewrite length_drop; simpl in *; lia.
Qed.

(** The unfolding equation of [parse_from], without fuel. *)
Lemma parse_from_eq off data :
  parse_from off data =
    match data with
    | [] => ([], TailEnd)
    | _ => match decode_frame data with
           | Complete r c =>
               let '(l, t) := parse_from (off + c) (drop (N.to_nat c) data) in ((off, r) :: l, t)
           | Incomplete => ([], TailTorn)
           | Corrupt e => ([], TailCorrupt e)
           end
    end.
Proof.
  unfold parse_from at 1. destruct data as [|b data]; [done|].
  cbn [length parse_loop]. destruct (decode_frame (b :: data)) as [r c| |] eqn:Hd; [|done..].
  apply decode_frame_Complete in Hd as [? _]. unfold parse_from.
  erewrite parse_loop_fuel; [done|rewrite length_drop; simpl; lia|done].
Qed.

(** Induction on the number of bytes left to read. *)
Lemma parse_from_ind (P : N → list byte → Prop) :
  (∀ off, P off []) →
  (∀ off data r c, data ≠ [] → decode_frame data = Complete r c →
     P (off + c)%N (drop (N.to_nat c) data) → P off data) →
  (∀ off data, data ≠ [] → decode_frame data = Incomplete → P off data) →
  (∀ off data e, data ≠ [] → decode_frame data = Corrupt e → P off data) →
  ∀ off data, P off data.
Proof.
  intros Hnil Hcomp Hinc Hcor off data. revert off.
  induction data as [data IH] using (induction_ltof1 _ length). unfold ltof in IH.
  intros off. destruct data as [|b data]; [done|].
  destruct (decode_frame (b :: data)) as [r c| |e] eqn:Hd; eauto.
  eapply Hcomp; [done|done|]. apply IH.
  apply decode_frame_Complete in Hd as [? _]. rewrite length_drop. simpl. lia.
Qed.

Ltac parse_induction off data :=
  pattern off, data; apply parse_from_ind; clear off data;
  [ intros off | intros off data r c ? Hd IH | intros off data ? Hd | intros off data e ? Hd ].

Lemma parse_from_valid off data :
  Forall (λ e, header_validate (header e.2) = Ok tt) (parse_from off data).1.
Proof.
  parse_induction off data; rewrite parse_from_eq; [done|..].
  all: destruct data; [done|]; rewrite Hd; simpl; try done.
  destruct (parse_from _ _). simpl in *. constructor; [|done].
  by apply decode_frame_Complete in Hd as [_ ?].
Qed.

(** What garbage collection sees of one record. *)
Definition scan_frame_of (r : WalRecord) : ScanFrame :=
  match op (header r) with
  | Append => ScanAppend (mkWalTableKey (default 0%N (h_table_uuid (header r))) (h_table (header r)))
                (generation (header r))
  | DropTable => ScanDrop (h_table (header r))
  end.

Lemma table_key_valid h :
  header_validate h = Ok tt → op h = Append →
  ∃ u, h_table_uuid h = Some u ∧ u ≠ 0%N ∧ table_key h = Ok (mkWalTableKey u (h_table h)).
Proof.
  intros Hv Hop. unfold table_key. rewrite Hv. unfold header_validate in Hv.
  rewrite Hop in Hv. case_match; [done|].
  destruct (h_table_uuid h) as [u|]; [|done]. unfold uuid_is_nil in Hv.
  destruct (N.eqb_spec u 0); [done|]. exists u. done.
Qed.

Lemma scan_loop_parse fuel off data :
  length data < fuel →
  scan_loop fuel data =
    Some (Ok (mkSegmentScan (scan_frame_of ∘ snd <$> (parse_from off data).1)
                (tail_corrupt (parse_from off data).2))).
Proof.
  revert fuel. parse_induction off data; rewrite parse_from_eq; intros fuel Hf;
    (destruct fuel as [|fuel]; [lia|]); cbn [scan_loop]; [done|..].
  all: destruct data as [|b data]; [done|]; rewrite Hd; try done.
  apply decode_frame_Complete in Hd as [Hc Hv].
  specialize (IH fuel). rewrite length_drop in IH.
  destruct (parse_from _ _) as [l t]. simpl in IH, Hf |- *.
  rewrite IH by lia.
  assert (scan_frame_of r = match op (header r) with
    | Append => _ | DropTable => _ end) as Hr by reflexivity.
  destruct (op (header r)) eqn:Hop; simpl; rewrite Hr; [|done].
  destruct (table_key_valid _ Hv Hop) as (u & Hu & _ & ->). simpl. by rewrite Hu.
Qed.

Lemma scan_segment_parse data :
  scan_segment (Some data) =
    Some (Ok (mkSegmentScan (scan_frame_of ∘ snd <$> (parse_segment data).1)
                (tail_corrupt (parse_segment data).2))).
Proof. apply scan_loop_parse. lia. Qed.
End parse.

(** ** Segments written frame by frame *)
Section written.
Context `{WalCodecLaws}.

(** [fs] are the frames of [rs], each within the decoder's limit. *)
Definition frames_of (rs : list WalRecord) (fs : list (list byte)) : Prop :=
  Forall2 (λ r f, encode_frame r = Ok f ∧ payload_fits r) rs fs.

(** Where the records of a run of frames are found again. *)
Fixpoint entries_at (off : N) (rs : list WalRecord) (fs : list (list byte)) : list (N * WalRecord) :=
  match rs, fs with
  | r :: rs, f :: fs => (off, decoded_record r) :: entries_at (off + lenN f) rs fs
  | _, _ => []
  end.

Lemma encode_frame_nonempty r f : encode_frame r = Ok f → f ≠ [].
Proof. by intros (p & _ & _ & _ & ->)%encode_frame_Ok. Qed.

Lemma parse_from_frame off r f rest :
  encode_frame r = Ok f → payload_fits r →
  parse_from off (f ++ rest) =
    let '(l, t) := parse_from (off + lenN f) rest in ((off, decoded_record r) :: l, t).
Proof.
  intros Hf Hfit. rewrite parse_from_eq, (decode_encoded_frame r) by done.
  destruct (f ++ rest) eqn:E.
  { apply app_nil in E as [-> _]. by apply encode_frame_nonempty in Hf. }
  rewrite <-E. unfold lenN at 2. rewrite Nat2N.id, drop_app_length. done.
Qed.

Lemma parse_from_frames off rs fs rest :
  frames_of rs fs →
  parse_from off (concat fs ++ rest) =
    let '(l, t) := parse_from (off + lenN (concat fs)) rest in (entries_at off rs fs ++ l, t).
Proof.
  intros Hfs. revert off. induction Hfs as [|r f rs fs [Hf Hfit] Hfs IH]; intros off; simpl.
  - rewrite N.add_0_r. by destruct (parse_from off rest).
  - rewrite <-app_assoc, (parse_from_frame off r f) by done.
    rewrite IH, lenN_app, N.add_assoc. by destruct (parse_from _ rest).
Qed.

(** A frame cut at byte [n]. *)
Lemma parse_from_cut off r f n :
  encode_frame r = Ok f → payload_fits r → n < length f →
  ∃ t, tail_corrupt t = false ∧
    (parse_from off (take n f) = ([], t) ∨
     parse_from off (take n f) = ([(off, decoded_record r)], t)).
Proof.
  intros Hf Hfit Hn. destruct (encode_frame_Ok _ _ Hf) as (p & Hp & _).
  rewrite parse_from_eq. destruct (take n f) eqn:E; [by exists TailEnd; auto|].
  rewrite <-E, <-(app_nil_r (take n f)), (decode_frame_cut r f p) by auto.
  case_decide; [by exists TailTorn; auto|].
  rewrite drop_ge by (rewrite app_nil_r, length_take; unfold lenN; lia).
  rewrite parse_from_eq. by exists TailEnd; auto.
Qed.

Lemma parse_from_torn off rs fs n :
  frames_of rs fs →
  ∃ k t, parse_from off (take n (concat fs)) = (entries_at off (take k rs) (take k fs), t) ∧
    k ≤ length fs ∧ tail_corrupt t = false ∧
    ∀ j, j ≤ length fs → length (concat (take j fs)) ≤ n → j ≤ k.
Proof.
  intros Hfs. revert off n. induction Hfs as [|r f rs fs [Hf Hfit] Hfs IH]; intros off n.
  { simpl. rewrite take_nil, parse_from_eq. exists 0, TailEnd. split_and!; auto. }
  cbn [concat]. destruct (decide (n < length f)) as [Hn|Hn].
  - rewrite take_app_le by lia.
    destruct (parse_from_cut off r f n) as (t & Ht & Hp); [done..|].
    assert (∀ j, length (concat (take j (f :: fs))) ≤ n → j = 0) as Hj.
    { intros [|j]; [done|]. simpl. rewrite length_app. lia. }
    destruct Hp as [Hp|Hp]; rewrite Hp.
    + exists 0, t. simpl. split_and!; [done|lia|done|]. intros j _ ->%Hj. lia.
    + exists 1, t. simpl. split_and!; [done|lia|done|]. intros j _ ->%Hj. lia.
  - rewrite take_app_ge by lia. rewrite (parse_from_frame off r f) by done.
    destruct (IH (off + lenN f)%N (n - length f)) as (k & t & -> & Hk & Ht & Hj).
    exists (S k), t. simpl. split_and!; [done|lia|done|].
    intros [|j] ? ?; [lia|]. simpl in *. rewrite length_app in *.
    apply le_n_S, Hj; lia.
Qed.

Lemma entries_at_snd off rs fs :
  length rs = length fs → (entries_at off rs fs).*2 = decoded_record <$> rs.
Proof.
  revert off fs. induction rs as [|r rs IH]; intros off [|f fs]; try done.
  simpl. intros [= ?]. by rewrite IH.
Qed.

Lemma scan_frame_of_decoded r : scan_frame_of (decoded_record r) = scan_frame_of r.
Proof.
  unfold decoded_record. destruct (op (header r)) eqn:E; [done|].
  unfold scan_frame_of. simpl. by rewrite E.
Qed.
End written.

(** ** A concrete codec, for evaluation

    Headers as binary text with a digit per byte, batches as lists of row
    numbers, a sum of bytes as checksum. *)
Definition demo_header_fields (h : WalHeader) : list N :=
  [ protocol_version h; N_of_option (h_table_uuid h); batch_id h;
    N_of_string (ti_namespace (h_table h)); N_of_string (ti_name (h_table h));
    N_of_Z (schema_id h); generation h; N_of_Z (created_at_ms h);
    N_of_option (N_of_string <$> idempotency_key h); row_count h; byte_count h;
    match op h with Append => 0 | DropTable => 1 end ]%N.
Definition demo_fields_header (l : list N) : option WalHeader :=
  match l with
  | [v; u; b; ns; n; s; g; c; i; r; bc; o] =>
      Some (mkWalHeader v (option_of_N u) b (mkTableIdent (string_of_N ns) (string_of_N n))
              (Z_of_N s) g (Z_of_N c) (string_of_N <$> option_of_N i) r bc
              (if (o =? 0)%N then Append else DropTable))
  | _ => None
  end.

Lemma demo_fields_header_fields h : demo_fields_header (demo_header_fields h) = Some h.
Proof.
  destruct h as [v u b [ns n] s g c i r bc o]. unfold demo_fields_header, demo_header_fields.
  cbn [protocol_version h_table_uuid batch_id h_table ti_namespace ti_name schema_id
       generation created_at_ms idempotency_key row_count byte_count op].
  rewrite !option_of_N_of_option, !string_of_N_of_string, !Z_of_N_of_Z.
  destruct i as [i|]; cbn [fmap option_fmap option_map];
    rewrite ?string_of_N_of_string; by destruct o.
Qed.

Definition demo_text_bytes (s : string) : list byte := String.list_byte_of_string s.
Definition demo_bytes_text (bs : list byte) : string := String.string_of_list_byte bs.
Definition demo_header_json (h : WalHeader) : list byte :=
  demo_text_bytes (fields_text (demo_header_fields h)).
Definition demo_json_header (bs : list byte) : option WalHeader :=
  fields_parse (demo_bytes_text bs) ≫= demo_fields_header.

Definition demo_wal_codec : WalCodec := {|
  RecordBatch := list N;
  empty_batch := [];
  header_to_json := demo_header_json;
  header_from_json := demo_json_header;
  ipc_write b := Ok (demo_text_bytes (fields_text (0%N :: b)));
  ipc_read bs := match fields_parse (demo_bytes_text bs) with
                 | Some (_ :: b) => Ok b
                 | _ => Err "no batch in IPC stream"
                 end;
  crc32 bs := (foldr (λ b n, Byte.to_N b + n) 0 bs mod 4294967296)%N;
|}.

Lemma demo_bytes_text_bytes s : demo_bytes_text (demo_text_bytes s) = s.
Proof. apply String.string_of_list_byte_of_string. Qed.

Lemma demo_json_header_json h : demo_json_header (demo_header_json h) = Some h.
Proof.
  unfold demo_json_header, demo_header_json. rewrite demo_bytes_text_bytes.
  unfold demo_header_fields. rewrite fields_parse_text. apply demo_fields_header_fields.
Qed.

Lemma text_bytes_free s : str_free "010"%char s = true → x0a ∉ demo_text_bytes s.
Proof.
  induction s as [|a s IH]; [intros; by apply not_elem_of_nil|].
  intros [Ha Hs]%str_free_cons. apply not_elem_of_cons. split; [|by apply IH].
  intros Hb. apply Ha. rewrite <-(ascii_of_byte_of_ascii a), <-Hb. done.
Qed.

Lemma fields_text_free c l :
  c ≠ "0"%char → c ≠ "1"%char → c ≠ ","%char → str_free c (fields_text l) = true.
Proof.
  intros H0 H1 H2. unfold fields_text. induction l as [|x l IH]; [done|].
  cbn [map str_join]. destruct (map N_bits l) as [|w ws]; [by apply pos_bits_free|].
  rewrite !str_free_app, IH. unfold N_bits at 1. rewrite (pos_bits_free c) by done.
  simpl. by rewrite (proj2 (str_free_cons c "," "")).
Qed.

Lemma demo_header_json_no_newline h : x0a ∉ demo_header_json h.
Proof. by apply text_bytes_free, fields_text_free. Qed.

Lemma demo_wal_codec_laws : @WalCodecLaws demo_wal_codec.
Proof.
  constructor.
  - apply demo_json_header_json.
  - apply demo_header_json_no_newline.
  - intros b bs [= <-]. simpl. by rewrite demo_bytes_text_bytes, fields_parse_text.
  - intros bs. unfold u32_max. simpl.
    pose proof (N.mod_lt (foldr (λ b n, Byte.to_N b + n) 0 bs)%N 4294967296 ltac:(done)). lia.
Qed.

Definition demo_header (o : WalOp) (u : option Uuid) (gen : N) : WalHeader :=
  mkWalHeader WRITE_PROTOCOL_VERSION u (100 + gen) demo_table 0 gen 0 None 1 8 o.
Definition demo_append (gen : N) : @WalRecord demo_wal_codec :=
  @mkWalRecord demo_wal_codec (demo_header Append (Some 5%N) gen) [gen; gen].
Definition demo_frame (r : @WalRecord demo_wal_codec) : list byte :=
  match @encode_frame demo_wal_codec r with Ok f => f | Err _ => [] end.

Lemma demo_append_fits gen f :
  @encode_frame demo_wal_codec (demo_append gen) = Ok f →
  (lenN f <=? MAX_PAYLOAD_BYTES)%N = true → @payload_fits demo_wal_codec (demo_append gen).
Proof.
  intros Hf Hle p Hp.
  pose proof (@encode_frame_length demo_wal_codec _ _ _ Hf Hp). apply N.leb_le in Hle. lia.
Qed.

(** Frame codec round trip: an encoded record whose payload is within the decoder's
    limit occupies a multiple of eight bytes, and decoding it, whatever bytes follow,
    returns the record (a tombstone without its unused batch) and consumes exactly the
    frame. *)
Theorem frame_roundtrip `{WalCodecLaws} (r : WalRecord) (f rest : list byte)
    (Hf : encode_frame r = Ok f) (Hfit : payload_fits r) :
  (lenN f mod 8 = 0)%N ∧
  decode_frame (f ++ rest) =
    Complete (match op (header r) with
              | Append => r
              | DropTable => mkWalRecord (header r) empty_batch
              end) (lenN f).
Proof.
  split; [|by apply decode_encoded_frame].
  destruct (encode_frame_Ok _ _ Hf) as (p & Hp & _).
  rewrite (encode_frame_length _ _ _ Hf Hp). apply frame_padding_aligned.
Qed.

Lemma frame_roundtrip_witness :
  @decode_frame demo_wal_codec (demo_frame (demo_append 3) ++ [x01; x02]) =
    @Complete demo_wal_codec (demo_append 3) (lenN (demo_frame (demo_append 3))).
Proof.
  refine (proj2 (@frame_roundtrip demo_wal_codec demo_wal_codec_laws (demo_append 3)
                   (demo_frame (demo_append 3)) [x01; x02] _ _)).
  - vm_compute. reflexivity.
  - apply (demo_append_fits 3 (demo_frame (demo_append 3))); vm_compute; reflexivity.
Defined.

(**  Torn writes are never taken for corruption: cut a segment of encoded frames at
    any byte, and the scan terminates, reports no corruption, and returns the records of
    an initial run of the frames that includes every frame wholly on disk. *)
Theorem torn_write_never_corrupt `{WalCodecLaws} (rs : list WalRecord) (fs : list (list byte))
    (n : nat) (Hfs : Forall2 (λ r f, encode_frame r = Ok f ∧ payload_fits r) rs fs) :
  ∃ k, scan_segment (Some (take n (concat fs))) =
         Some (Ok (mkSegmentScan (scan_frame_of <$> take k rs) false)) ∧
       ∀ j, j ≤ length fs → length (concat (take j fs)) ≤ n → j ≤ k.
Proof.
  destruct (parse_from_torn 0 rs fs n Hfs) as (k & t & Hp & Hk & Ht & Hj).
  exists k. split; [|done]. rewrite scan_segment_parse. unfold parse_segment. rewrite Hp. cbn [fst snd]. rewrite Ht.
  rewrite list_fmap_compose, entries_at_snd.
  - rewrite <-list_fmap_compose. do 3 f_equal. apply list_fmap_ext. intros ? ? _.
    apply scan_frame_of_decoded.
  - rewrite !length_take. by rewrite (Forall2_length _ _ _ Hfs).
Qed.

Lemma torn_write_never_corrupt_witness :
  ∃ k, @scan_segment demo_wal_codec
         (Some (take 700 (concat [demo_frame (demo_append 1); demo_frame (demo_append 2)]))) =
         Some (Ok (mkSegmentScan (@scan_frame_of demo_wal_codec <$>
           take k [demo_append 1; demo_append 2]) false)) ∧
       ∀ j, j ≤ 2 → length (concat (take j [demo_frame (demo_append 1); demo_frame (demo_append 2)])) ≤ 700
         → j ≤ k.
Proof.
  refine (@torn_write_never_corrupt demo_wal_codec demo_wal_codec_laws
            [demo_append 1; demo_append 2] [demo_frame (demo_append 1); demo_frame (demo_append 2)]
            700 _).
  apply Forall2_cons; split; [split|apply Forall2_cons; split; [split|apply Forall2_nil; done]].
  - vm_compute. reflexivity.
  - apply (demo_append_fits 1 (demo_frame (demo_append 1))); vm_compute; reflexivity.
  - vm_compute. reflexivity.
  - apply (demo_append_fits 2 (demo_frame (demo_append 2))); vm_compute; reflexivity.
Defined.

(**  The encoder has no payload limit while the decoder has one: a record whose
    payload is larger than one gibibyte (and below the [u32] range) is encoded without
    an error, and the bytes written for it are read back as corruption. *)
Theorem oversized_frame_unreadable `{WalCodecLaws} (r : WalRecord) (p rest : list byte)
    (Hv : header_validate (header r) = Ok tt) (Hp : encode_payload r = Ok p)
    (Hbig : (MAX_PAYLOAD_BYTES < lenN p ≤ u32_max)%N) :
  ∃ f reason, encode_frame r = Ok f ∧ decode_frame (f ++ rest) = Corrupt reason.
Proof.
  unfold encode_frame. rewrite Hv. simpl. rewrite Hp. simpl. do 2 eexists. split; [done|].
  unfold decode_frame, u32_to_le_bytes. cbn [app].
  rewrite u32_le_roundtrip.
  - rewrite N.mod_small by lia. rewrite (proj2 (N.eqb_neq _ _)) by lia.
    rewrite (proj2 (N.ltb_lt _ _)) by lia. done.
  - rewrite N.mod_small by lia. lia.
Qed.

(** Batches are row counts here, one byte per row. *)
Definition demo_sized_codec : WalCodec := {|
  RecordBatch := nat;
  empty_batch := 0;
  header_to_json := demo_header_json;
  header_from_json := demo_json_header;
  ipc_write b := Ok (replicate b x00);
  ipc_read bs := Ok (length bs);
  crc32 bs := 0%N;
|}.
Lemma demo_sized_codec_laws : @WalCodecLaws demo_sized_codec.
Proof.
  constructor; simpl.
  - apply demo_json_header_json.
  - apply demo_header_json_no_newline.
  - intros b bs [= <-]. by rewrite length_replicate.
  - done.
Qed.


Definition demo_sized_record (b : nat) : @WalRecord demo_sized_codec :=
  @mkWalRecord demo_sized_codec (demo_header Append (Some 5%N) 1) b.

Lemma demo_sized_payload b :
  @encode_payload demo_sized_codec (demo_sized_record b) =
    Ok (demo_header_json (demo_header Append (Some 5%N) 1) ++ [x0a] ++ replicate b x00).
Proof. reflexivity. Qed.

Lemma demo_sized_length b :
  (MAX_PAYLOAD_BYTES ≤ N.of_nat b ≤ MAX_PAYLOAD_BYTES + 1)%N →
  (MAX_PAYLOAD_BYTES <
   lenN (demo_header_json (demo_header Append (Some 5%N) 1) ++ [x0a] ++ replicate b x00) ≤ u32_max)%N.
Proof.
  intros Hb. rewrite !lenN_app, lenN_replicate. change (lenN [x0a]) with 1%N.
  assert (lenN (demo_header_json (demo_header Append (Some 5%N) 1)) <= 5000)%N
    by (apply N.leb_le; vm_compute; reflexivity).
  unfold MAX_PAYLOAD_BYTES, u32_max in *. lia.
Qed.

Lemma demo_sized_bound : (MAX_PAYLOAD_BYTES ≤ N.of_nat (N.to_nat MAX_PAYLOAD_BYTES) ≤ MAX_PAYLOAD_BYTES + 1)%N.
Proof. rewrite N2Nat.id. unfold MAX_PAYLOAD_BYTES. lia. Qed.

Lemma oversized_frame_unreadable_witness :
  ∃ f reason,
    @encode_frame demo_sized_codec (demo_sized_record (N.to_nat MAX_PAYLOAD_BYTES)) = Ok f ∧
    @decode_frame demo_sized_codec (f ++ []) = Corrupt reason.
Proof.
  exact (@oversized_frame_unreadable demo_sized_codec demo_sized_codec_laws
           (demo_sized_record (N.to_nat MAX_PAYLOAD_BYTES)) _ [] eq_refl
           (demo_sized_payload (N.to_nat MAX_PAYLOAD_BYTES))
           (demo_sized_length (N.to_nat MAX_PAYLOAD_BYTES) demo_sized_bound)).
Defined.
