(* ===== verification/WalReplay.v ===== *)
(** * WAL replay

    Models [teodb-storage/src/wal/replay.rs]: the validating first pass
    ([prepare]), the record-at-a-time second pass ([next_record], [collect])
    and the file reads below them, over a directory of named files.  A file
    handle is the file's bytes and a cursor; [read_frame] moves the cursor as
    [read_exact] does. *)

From S2P Require Import Prelude Core WriteProtocol WalFrame.
Open Scope nat_scope.
Open Scope list_scope.

Inductive WalRecoveryMode := ModeFail | ModeSalvage.
#[export] Instance WalRecoveryMode_eq_dec : EqDecision WalRecoveryMode.
Proof. solve_decision. Defined.

Record FramePosition := mkFramePosition { pos_segment : nat; pos_offset : N }.
#[export] Instance FramePosition_eq_dec : EqDecision FramePosition.
Proof. solve_decision. Defined.

(** Derived [Ord]: segment, then offset. *)
Definition position_compare (a b : FramePosition) : comparison :=
  match Nat.compare (pos_segment a) (pos_segment b) with
  | Eq => N.compare (pos_offset a) (pos_offset b)
  | c => c
  end.
Definition position_lt (a b : FramePosition) : bool :=
  match position_compare a b with Lt => true | _ => false end.

Record ReplayEntry := mkReplayEntry {
  e_position : FramePosition;
  e_generation : Generation;
  e_batch_id : Uuid;
  e_table_index : nat;
}.

(** ** The directory *)
Record SegFile := mkSegFile { f_bytes : list byte; f_modified : option N }.
Abbreviation WalDir := (gmap string SegFile).

Record SegmentIdentity := mkSegmentIdentity {
  si_path : string; si_len : N; si_modified : option N }.
#[export] Instance SegmentIdentity_eq_dec : EqDecision SegmentIdentity.
Proof. solve_decision. Defined.

Record SegmentSnapshot := mkSegmentSnapshot {
  ss_identity : SegmentIdentity; ss_replay_len : N; ss_live : bool }.

Definition snapshot_mismatch : TeoDBError :=
  wal "WAL segment snapshot mismatch between validation and replay: {}".
Definition corrupt_error : TeoDBError :=
  wal "corrupt WAL frame in {} at offset {offset}: {reason}; ...".

Definition str_leb (a b : string) : bool := bool_decide (String.le a b).

(** Names ending in [.wal], sorted. *)
Definition segment_paths (root : WalDir) : list string :=
  stable_sort str_leb
    (filter (λ n, str_ends_with ".wal" n = true) (map_to_list root).*1).

Definition segment_identity (root : WalDir) (path : string) : TeoDBResult SegmentIdentity :=
  f ← ok_or (root !! path) (wal_source "inspect WAL segment {}" "not found");
  Ok (mkSegmentIdentity path (lenN (f_bytes f)) (f_modified f)).

Definition verify_identity (root : WalDir) (expected : SegmentIdentity) : TeoDBResult unit :=
  actual ← map_err (λ _, snapshot_mismatch) (segment_identity root (si_path expected));
  if decide (actual = expected) then Ok tt else Err snapshot_mismatch.

Definition quarantine_path (path : string) : string := path +:+ ".corrupt".

(** [tokio::fs::rename] within the directory. *)
Definition rename_file (root : WalDir) (from to : string) : WalDir :=
  match root !! from with
  | Some f => <[to := f]> (delete from root)
  | None => root
  end.

(** ** File reads *)
Record Handle := mkHandle { hd_bytes : list byte; hd_pos : nat }.

Definition open_segment (root : WalDir) (path : string) : TeoDBResult Handle :=
  f ← ok_or (root !! path) (wal_source "failed to read WAL segment {}" "not found");
  Ok (mkHandle (f_bytes f) 0).

Definition seek (h : Handle) (offset : N) : Handle := mkHandle (hd_bytes h) (N.to_nat offset).

Definition read_exact (h : Handle) (n : nat) (message : string) :
    TeoDBResult (list byte * Handle) :=
  if decide (hd_pos h + n ≤ length (hd_bytes h)) then
    Ok (take n (drop (hd_pos h) (hd_bytes h)), mkHandle (hd_bytes h) (hd_pos h + n))
  else Err (wal_source message "unexpected end of file").

Definition all_zero (bs : list byte) : bool := forallb (λ b, bool_decide (b = x00)) bs.

(** The chunked read of a zero tail; [left] decreases by at least one. *)
Fixpoint read_zero_tail (fuel : nat) (h : Handle) (left : nat) (zero : bool) :
    outcome TeoDBError (bool * Handle) :=
  match left with
  | O => Returns (zero, h)
  | _ =>
      match fuel with
      | O => OutOfFuel
      | S fuel =>
          let take_n := Nat.min left (N.to_nat 8192) in
          '(chunk, h) ← lift (read_exact h take_n "read zero WAL tail in {}");
          read_zero_tail fuel h (left - take_n) (zero && all_zero chunk)
      end
  end.

Section replay.
Context `{WalCodec}.

Definition read_frame (h : Handle) (offset limit : N) : outcome TeoDBError (FrameDecode * Handle) :=
  let remaining := u64_saturating_sub limit offset in
  if (remaining <? FRAME_HEADER_SIZE)%N then Returns (Incomplete, h)
  else
    '(hdr, h) ← lift (read_exact h (N.to_nat FRAME_HEADER_SIZE) "read WAL frame header in {}");
    let payload_len :=
      match hdr with
      | b0 :: b1 :: b2 :: b3 :: _ => u32_from_le_bytes b0 b1 b2 b3
      | _ => 0%N
      end in
    if (payload_len =? 0)%N then
      let left := N.to_nat (remaining - FRAME_HEADER_SIZE) in
      '(zero, h) ← read_zero_tail left h left (all_zero hdr);
      Returns (if zero : bool then Incomplete
               else Corrupt "zero payload length with non-zero trailing bytes", h)
    else if (MAX_PAYLOAD_BYTES <? payload_len)%N then
      Returns (Corrupt "implausible payload length {payload_len} (corrupt length field)", h)
    else
      let total_content := (FRAME_HEADER_SIZE + payload_len)%N in
      if (remaining <? total_content)%N then Returns (Incomplete, h)
      else
        let padding := frame_padding total_content in
        let available_padding := N.min padding (remaining - total_content) in
        '(body, h) ← lift (read_exact h
            (N.to_nat (total_content + available_padding - FRAME_HEADER_SIZE))
            "read WAL frame in {}");
        Returns (decode_frame (hdr ++ body), h).

(** ** First pass *)
Record PrepState := mkPrepState {
  ps_entries : list ReplayEntry;
  ps_tables : list WalTableKey;
  ps_table_indexes : gmap WalTableKey nat;
  ps_tombstones : gmap TableIdent FramePosition;
}.

(** What the scan does with one complete frame. *)
Definition prepare_record (committed : gmap WalTableKey Generation) (position : FramePosition)
    (record : WalRecord) (st : PrepState) : TeoDBResult PrepState :=
  match op (header record) with
  | DropTable =>
      Ok (mkPrepState (ps_entries st) (ps_tables st) (ps_table_indexes st)
            (<[h_table (header record) := position]> (ps_tombstones st)))
  | Append =>
      key ← table_key (header record);
      let gen := generation (header record) in
      if (match committed !! key with Some g => (gen <=? g)%N | None => false end) then Ok st
      else
        let '(table_index, tables, table_indexes) :=
          match ps_table_indexes st !! key with
          | Some index => (index, ps_tables st, ps_table_indexes st)
          | None =>
              let index := length (ps_tables st) in
              (index, ps_tables st ++ [key], <[key := index]> (ps_table_indexes st))
          end in
        Ok (mkPrepState
              (ps_entries st ++
                 [mkReplayEntry position gen (batch_id (header record)) table_index])
              tables table_indexes (ps_tombstones st))
  end.

(** The [while offset < identity.len] loop over one segment: final state,
    offset reached, [replay_len] and the corruption found. *)
Fixpoint prepare_loop (fuel : nat) (committed : gmap WalTableKey Generation) (segment_index : nat)
    (len : N) (h : Handle) (offset : N) (st : PrepState) :
    outcome TeoDBError (PrepState * N * option string) :=
  if (len <=? offset)%N then Returns (st, len, None)
  else match fuel with
  | O => OutOfFuel
  | S fuel =>
      '(decoded, h) ← read_frame h offset len;
      match decoded with
      | Complete record consumed =>
          st ← lift (prepare_record committed (mkFramePosition segment_index offset) record st);
          prepare_loop fuel committed segment_index len h
            (N.min (u64_saturating_add offset consumed) len) st
      | Incomplete => Returns (st, offset, None)
      | Corrupt reason => Returns (st, offset, Some reason)
      end
  end.

(** One iteration of the [for] loop over segments.  [rename_ok] tells whether
    the quarantine rename succeeds. *)
Definition prepare_segment (rename_ok : string → bool) (committed : gmap WalTableKey Generation)
    (mode : WalRecoveryMode) (segment_index : nat) (path : string)
    (acc : WalDir * PrepState * list SegmentSnapshot) :
    outcome TeoDBError (WalDir * PrepState * list SegmentSnapshot) :=
  let '(root, st, segments) := acc in
  identity ← lift (segment_identity root path);
  h ← lift (open_segment root path);
  '(st, replay_len, corruption) ←
    prepare_loop (N.to_nat (si_len identity)) committed segment_index (si_len identity) h 0 st;
  match corruption with
  | None => Returns (root, st, segments ++ [mkSegmentSnapshot identity replay_len true])
  | Some _ =>
      match mode with
      | ModeFail => Raises corrupt_error
      | ModeSalvage =>
          if rename_ok path then
            let quarantine := quarantine_path path in
            let identity := mkSegmentIdentity quarantine (si_len identity) (si_modified identity) in
            Returns (rename_file root path quarantine, st,
                     segments ++ [mkSegmentSnapshot identity replay_len false])
          else Raises (wal "failed to quarantine corrupt segment: {error}")
      end
  end.

Fixpoint prepare_segments (rename_ok : string → bool) (committed : gmap WalTableKey Generation)
    (mode : WalRecoveryMode) (segment_index : nat) (paths : list string)
    (acc : WalDir * PrepState * list SegmentSnapshot) :
    outcome TeoDBError (WalDir * PrepState * list SegmentSnapshot) :=
  match paths with
  | [] => Returns acc
  | path :: paths =>
      acc ← prepare_segment rename_ok committed mode segment_index path acc;
      prepare_segments rename_ok committed mode (S segment_index) paths acc
  end.

Definition entry_leb (a b : ReplayEntry) : bool :=
  match N.compare (e_generation a) (e_generation b) with
  | Eq => match N.compare (e_batch_id a) (e_batch_id b) with
          | Eq => negb (position_lt (e_position b) (e_position a))
          | Lt => true
          | Gt => false
          end
  | Lt => true
  | Gt => false
  end.

(** [entries.retain]: the latest tombstone of the table voids what precedes it. *)
Definition survives (tables : list WalTableKey) (tombstones : gmap TableIdent FramePosition)
    (entry : ReplayEntry) : bool :=
  match tables !! e_table_index entry with
  | None => false
  | Some key =>
      match tombstones !! wk_ident key with
      | None => true
      | Some tombstone => position_lt tombstone (e_position entry)
      end
  end.

Record ReplayPlan := mkReplayPlan {
  rp_segments : list SegmentSnapshot;
  rp_entries : list ReplayEntry;
  rp_tables : list WalTableKey;
  rp_entry_index : nat;
  rp_file : option (nat * Handle);
  rp_snapshot_checked : bool;
}.

Definition prepare (rename_ok : string → bool) (committed : gmap WalTableKey Generation)
    (mode : WalRecoveryMode) (root : WalDir) : outcome TeoDBError (WalDir * ReplayPlan) :=
  '(root', st, segments) ←
    prepare_segments rename_ok committed mode 0 (segment_paths root)
      (root, mkPrepState [] [] ∅ ∅, []);
  let entries := filter (λ e, survives (ps_tables st) (ps_tombstones st) e = true) (ps_entries st) in
  Returns (root', mkReplayPlan segments (stable_sort entry_leb entries) (ps_tables st) 0 None false).

(** ** Second pass *)
Definition verify_live_snapshot (root : WalDir) (segments : list SegmentSnapshot) :
    TeoDBResult unit :=
  let actual_paths := segment_paths root in
  let expected := ss_identity <$> filter (λ s, ss_live s = true) segments in
  if bool_decide (actual_paths = si_path <$> expected) then
    foldM (λ _ i, verify_identity root i) tt expected
  else Err snapshot_mismatch.

Definition next_record (root : WalDir) (plan : ReplayPlan) :
    outcome TeoDBError (option WalRecord * ReplayPlan) :=
  _ ← lift (if rp_snapshot_checked plan then Ok tt
            else verify_live_snapshot root (rp_segments plan));
  match rp_entries plan !! rp_entry_index plan with
  | None => Returns (None, mkReplayPlan (rp_segments plan) (rp_entries plan) (rp_tables plan)
                             (rp_entry_index plan) (rp_file plan) true)
  | Some entry =>
      let seg := pos_segment (e_position entry) in
      snapshot ← lift (ok_or (rp_segments plan !! seg) snapshot_mismatch);
      h ← lift (match rp_file plan with
                | Some (s, h) => if decide (s = seg) then Ok h else
                    _ ← verify_identity root (ss_identity snapshot);
                    open_segment root (si_path (ss_identity snapshot))
                | None =>
                    _ ← verify_identity root (ss_identity snapshot);
                    open_segment root (si_path (ss_identity snapshot))
                end);
      '(decoded, h) ← read_frame (seek h (pos_offset (e_position entry)))
                        (pos_offset (e_position entry)) (ss_replay_len snapshot);
      match decoded with
      | Complete record _ =>
          expected_table ← lift (ok_or (rp_tables plan !! e_table_index entry) snapshot_mismatch);
          key ← lift (if bool_decide (op (header record) = Append ∧
                         generation (header record) = e_generation entry ∧
                         batch_id (header record) = e_batch_id entry)
                      then Some <$> table_key (header record) else Ok None);
          if decide (key = Some expected_table) then
            Returns (Some record,
                     mkReplayPlan (rp_segments plan) (rp_entries plan) (rp_tables plan)
                       (S (rp_entry_index plan)) (Some (seg, h)) true)
          else Raises snapshot_mismatch
      | Incomplete | Corrupt _ => Raises snapshot_mismatch
      end
  end.

Fixpoint collect (fuel : nat) (root : WalDir) (plan : ReplayPlan) :
    outcome TeoDBError (list WalRecord) :=
  match fuel with
  | O => OutOfFuel
  | S fuel =>
      '(record, plan) ← next_record root plan;
      match record with
      | None => Returns []
      | Some r => rs ← collect fuel root plan; Returns (r :: rs)
      end
  end.

(** Prepare and drain the plan, on an otherwise idle directory. *)
Definition replay_all (rename_ok : string → bool) (committed : gmap WalTableKey Generation)
    (mode : WalRecoveryMode) (root : WalDir) : outcome TeoDBError (WalDir * list WalRecord) :=
  '(root', plan) ← prepare rename_ok committed mode root;
  rs ← collect (S (length (rp_entries plan))) root' plan;
  Returns (root', rs).
End replay.

(** ** Reading equals decoding *)
Lemma take_drop_split {A} (l : list A) p n m :
  take (n + m) (drop p l) = take n (drop p l) ++ take m (drop (p + n) l).
Proof. by rewrite <-drop_drop, take_take_drop. Qed.

Lemma read_exact_Ok h n msg :
  hd_pos h + n ≤ length (hd_bytes h) →
  read_exact h n msg =
    Ok (take n (drop (hd_pos h) (hd_bytes h)), mkHandle (hd_bytes h) (hd_pos h + n)).
Proof. intros ?. unfold read_exact. by rewrite decide_True. Qed.

Lemma all_zero_app l1 l2 : all_zero (l1 ++ l2) = all_zero l1 && all_zero l2.
Proof. apply forallb_app. Qed.

Lemma read_zero_tail_spec fuel h n z :
  n ≤ fuel → hd_pos h + n ≤ length (hd_bytes h) →
  read_zero_tail fuel h n z =
    Returns (z && all_zero (take n (drop (hd_pos h) (hd_bytes h))),
             mkHandle (hd_bytes h) (hd_pos h + n)).
Proof.
  revert h n z. induction fuel as [|fuel IH]; intros [bs pos] n z Hn Hlen; simpl in *.
  { assert (n = 0) as -> by lia. by rewrite andb_true_r, Nat.add_0_r. }
  destruct n as [|n]; [by rewrite andb_true_r, Nat.add_0_r|].
  set (k := Nat.min (S n) (N.to_nat 8192)). assert (1 ≤ k ≤ S n) by (unfold k; lia).
  change (match S n with O => _ | S _ => ?x end) with x.
  rewrite read_exact_Ok by (simpl; lia). cbn [lift mbind outcome_bind hd_pos hd_bytes].
  rewrite IH by (simpl; lia). cbn [hd_pos hd_bytes]. f_equal. f_equal.
  - rewrite <-andb_assoc, <-all_zero_app. do 2 f_equal.
    replace (S n) with (k + (S n - k)) at 2 by lia. by rewrite take_drop_split.
  - f_equal. lia.
Qed.

Section replay_proofs.
Context `{WalCodec}.

Lemma decode_frame_short data : length data < 8 → decode_frame data = Incomplete.
Proof. intros Hs. do 8 (destruct data as [|? data]; [done|]). simpl in Hs. lia. Qed.

Lemma outcome_bind_Returns {E A B} (a : A) (f : A → outcome E B) : Returns a ≫= f = f a.
Proof. done. Qed.

(** [decode_frame] on a slice with a whole header. *)
Lemma decode_frame_header b0 b1 b2 b3 b4 b5 b6 b7 rest :
  let len := u32_from_le_bytes b0 b1 b2 b3 in
  decode_frame (b0 :: b1 :: b2 :: b3 :: b4 :: b5 :: b6 :: b7 :: rest) =
    if (len =? 0)%N then
      if all_zero [b0; b1; b2; b3; b4; b5; b6; b7] && all_zero rest then Incomplete
      else Corrupt "zero payload length with non-zero trailing bytes"
    else if (MAX_PAYLOAD_BYTES <? len)%N then
      Corrupt "implausible payload length {payload_len} (corrupt length field)"
    else if (8 + lenN rest <? 8 + len)%N then Incomplete
    else decode_payload (u32_from_le_bytes b4 b5 b6 b7) (take (N.to_nat len) rest)
           (8 + len + frame_padding (8 + len)).
Proof.
  intros len. unfold decode_frame. fold len. unfold FRAME_HEADER_SIZE.
  rewrite <-all_zero_app.
  replace (lenN (b0 :: b1 :: b2 :: b3 :: b4 :: b5 :: b6 :: b7 :: rest)) with (8 + lenN rest)%N
    by (unfold lenN; simpl; lia).
  done.
Qed.

(** The bytes past the content of the frame do not matter. *)
Lemma decode_frame_content b0 b1 b2 b3 b4 b5 b6 b7 rest n :
  let len := u32_from_le_bytes b0 b1 b2 b3 in
  len ≠ 0%N → (len ≤ N.of_nat n)%N → (len ≤ lenN rest)%N →
  decode_frame (b0 :: b1 :: b2 :: b3 :: b4 :: b5 :: b6 :: b7 :: take n rest) =
  decode_frame (b0 :: b1 :: b2 :: b3 :: b4 :: b5 :: b6 :: b7 :: rest).
Proof.
  intros len Hlen Hn Hrest. rewrite !decode_frame_header. fold len.
  rewrite (proj2 (N.eqb_neq len 0)) by done. destruct (N.ltb_spec MAX_PAYLOAD_BYTES len); [done|].
  rewrite lenN_take, !(proj2 (N.ltb_ge _ _)) by lia.
  rewrite take_take, Nat.min_l by lia. done.
Qed.

(** A slice of at least eight bytes, taken apart. *)
Lemma slice_header (slice : list byte) :
  8 ≤ length slice →
  ∃ c0 c1 c2 c3 c4 c5 c6 c7 rest,
    slice = c0 :: c1 :: c2 :: c3 :: c4 :: c5 :: c6 :: c7 :: rest.
Proof.
  intros Hs. do 8 (destruct slice as [|? slice]; [simpl in Hs; lia|]). by do 9 eexists.
Qed.

(** A cursor standing at [offset] with [limit] within the file reads what
    [decode_frame] sees on the slice, and moves past the frame. *)
Lemma read_frame_decode h offset limit :
  hd_pos h = N.to_nat offset → (offset ≤ limit ≤ lenN (hd_bytes h))%N →
  ∃ h', read_frame h offset limit =
          Returns (decode_frame (take (N.to_nat (limit - offset)) (drop (N.to_nat offset) (hd_bytes h))), h') ∧
        hd_bytes h' = hd_bytes h ∧
        ∀ r c, decode_frame (take (N.to_nat (limit - offset)) (drop (N.to_nat offset) (hd_bytes h)))
                 = Complete r c →
          hd_pos h' = N.to_nat (N.min (offset + c) limit).
Proof.
  destruct h as [bs pos]. simpl. intros -> [Hol Hlim].
  remember (limit - offset)%N as rem eqn:Hrem.
  remember (take (N.to_nat rem) (drop (N.to_nat offset) bs)) as slice eqn:Hslice.
  assert (length slice = N.to_nat rem) as Hlen
    by (subst slice; rewrite length_take, length_drop; unfold lenN in *; lia).
  unfold read_frame, u64_saturating_sub. rewrite <-Hrem. unfold FRAME_HEADER_SIZE.
  destruct (N.ltb_spec rem 8) as [Hs|Hs].
  { rewrite decode_frame_short by lia. eexists; split_and!; done. }
  assert (∀ n, 8 + n ≤ N.to_nat rem →
    take n (drop (N.to_nat offset + 8) bs) = take n (drop 8 slice)) as Hpost.
  { intros n Hn. subst slice. rewrite <-(drop_drop _ 8), skipn_firstn_comm, take_take.
    by rewrite Nat.min_l by lia. }
  assert (take 8 (drop (N.to_nat offset) bs) = take 8 slice) as Hpre
    by (subst slice; by rewrite take_take, Nat.min_l by lia).
  rewrite read_exact_Ok by (unfold lenN in *; simpl; lia).
  change (N.to_nat 8) with 8. cbn [lift mbind outcome_bind hd_pos hd_bytes]. rewrite Hpre.
  destruct (slice_header slice) as (c0&c1&c2&c3&c4&c5&c6&c7&rest&Hsl); [lia|].
  rewrite Hsl in *. clear Hslice Hpre.
  change (drop 8 (_ :: _)) with rest in Hpost.
  change (take 8 (_ :: _)) with [c0; c1; c2; c3; c4; c5; c6; c7]. cbv iota.
  rewrite decode_frame_header. set (len := u32_from_le_bytes c0 c1 c2 c3).
  simpl in Hlen. replace (8 + lenN rest)%N with rem by (unfold lenN; lia).
  destruct (N.eqb_spec len 0) as [Hz|Hz].
  { rewrite read_zero_tail_spec by (unfold lenN in *; simpl; lia).
    cbn [mbind outcome_bind hd_pos hd_bytes]. rewrite Hpost, take_ge by lia.
    eexists; split_and!; [done..|]. intros r c. by destruct (_ && _). }
  destruct (N.ltb_spec MAX_PAYLOAD_BYTES len); [eexists; split_and!; done|].
  destruct (N.ltb_spec rem (8 + len)) as [Hi|Hi]; [eexists; split_and!; done|].
  rewrite read_exact_Ok by (unfold lenN in *; simpl; lia).
  cbn [lift mbind outcome_bind hd_pos hd_bytes]. rewrite Hpost by lia. cbn [app].
  rewrite decode_frame_content by (fold len; unfold lenN; lia).
  rewrite decode_frame_header. fold len.
  rewrite (proj2 (N.eqb_neq len 0) Hz).
  rewrite (proj2 (N.ltb_ge MAX_PAYLOAD_BYTES len)) by lia.
  rewrite (proj2 (N.ltb_ge _ _)) by (unfold lenN; lia).
  eexists; split_and!; [done..|]. intros r c [-> _]%decode_payload_Complete. simpl. lia.
Qed.

(** ** First pass: reference semantics *)

(** [prepare_record] without its unreachable error. *)
Definition record_key (r : WalRecord) : WalTableKey :=
  mkWalTableKey (default 0%N (h_table_uuid (header r))) (h_table (header r)).
Definition is_committed (committed : gmap WalTableKey Generation) (r : WalRecord) : bool :=
  match committed !! record_key r with
  | Some g => (generation (header r) <=? g)%N
  | None => false
  end.
Definition intern (st : PrepState) (key : WalTableKey) : nat * PrepState :=
  match ps_table_indexes st !! key with
  | Some index => (index, st)
  | None =>
      (length (ps_tables st),
       mkPrepState (ps_entries st) (ps_tables st ++ [key])
         (<[key := length (ps_tables st)]> (ps_table_indexes st)) (ps_tombstones st))
  end.
Definition prep_step (committed : gmap WalTableKey Generation) (st : PrepState)
    (pr : FramePosition * WalRecord) : PrepState :=
  let '(position, r) := pr in
  match op (header r) with
  | DropTable =>
      mkPrepState (ps_entries st) (ps_tables st) (ps_table_indexes st)
        (<[h_table (header r) := position]> (ps_tombstones st))
  | Append =>
      if is_committed committed r then st
      else
        let '(index, st') := intern st (record_key r) in
        mkPrepState
          (ps_entries st' ++ [mkReplayEntry position (generation (header r)) (batch_id (header r)) index])
          (ps_tables st') (ps_table_indexes st') (ps_tombstones st')
  end.

Lemma prepare_record_step committed position r st :
  header_validate (header r) = Ok tt →
  prepare_record committed position r st = Ok (prep_step committed st (position, r)).
Proof.
  intros Hv. unfold prepare_record, prep_step, is_committed, record_key, intern.
  destruct (op (header r)) eqn:Hop; [|done].
  destruct (table_key_valid _ Hv Hop) as (u & Hu & _ & ->). rewrite Hu. simpl.
  destruct (match committed !! _ with Some _ => _ | None => _ end); [done|].
  by destruct (ps_table_indexes st !! _).
Qed.

Definition at_segment (seg : nat) (l : list (N * WalRecord)) : list (FramePosition * WalRecord) :=
  (λ e, (mkFramePosition seg e.1, e.2)) <$> l.
Definition tail_reason (t : SegTail) : option string :=
  match t with TailCorrupt e => Some e | _ => None end.

(** Entry [(o, r)] can be read again below [limit]. *)
Definition readable (data : list byte) (limit : N) (e : N * WalRecord) : Prop :=
  ∃ c, decode_frame (drop (N.to_nat e.1) data) = Complete e.2 c ∧
       (e.1 < lenN data)%N ∧ (N.min (e.1 + c) (lenN data) ≤ limit)%N.

Lemma prepare_loop_parse committed seg data off d :
  (lenN data ≤ u64_max)%N → d = drop (N.to_nat off) data →
  ∀ fuel pos st, pos = N.min off (lenN data) → (lenN data - pos ≤ N.of_nat fuel)%N →
  ∃ rl, prepare_loop fuel committed seg (lenN data) (mkHandle data (N.to_nat pos)) pos st =
          Returns (foldl (prep_step committed) st (at_segment seg (parse_from off d).1), rl,
                   tail_reason (parse_from off d).2) ∧
        (pos ≤ rl ≤ lenN data)%N ∧ Forall (readable data rl) (parse_from off d).1.
Proof.
  intros Hu64. revert off d. refine (parse_from_ind _ _ _ _ _);
    [ intros off Hd | intros off d r c Hne Hdec IH Hd
    | intros off d Hne Hdec Hd | intros off d e Hne Hdec Hd ].
  { intros fuel pos st Hpos _. assert (pos = lenN data) as ->.
    { apply (f_equal length) in Hd. rewrite length_drop in Hd. unfold lenN in *. simpl in Hd. lia. }
    exists (lenN data). destruct fuel; cbn [prepare_loop]; rewrite N.leb_refl;
      rewrite parse_from_eq; split_and!; done || lia. }
  all: intros fuel pos st Hpos Hfuel.
  all: assert (off < lenN data)%N as Hoff by
    (destruct (N.ltb_spec off (lenN data)); [done|]; destruct Hne; rewrite Hd;
     apply drop_ge; unfold lenN in *; lia).
  all: rewrite N.min_l in Hpos by lia; subst pos.
  all: destruct fuel as [|fuel]; [lia|].
  all: cbn [prepare_loop]; rewrite (proj2 (N.leb_gt _ _)) by lia.
  all: destruct (read_frame_decode (mkHandle data (N.to_nat off)) off (lenN data)) as (h' & Hr & Hb & Hp);
    [done|simpl; lia|]; rewrite Hr; cbn [hd_bytes] in *.
  all: rewrite take_ge in * by (rewrite length_drop; unfold lenN; lia).
  all: rewrite <-Hd, Hdec in *; cbn [mbind outcome_bind].
  all: rewrite parse_from_eq, Hdec; destruct d as [|b d]; [done|].
  - specialize (Hp r c eq_refl). destruct (decode_frame_Complete _ _ _ Hdec) as [Hc Hv].
    rewrite prepare_record_step by done. cbn [lift mbind outcome_bind].
    assert (N.min (u64_saturating_add off c) (lenN data) = N.min (off + c) (lenN data)) as ->
      by (unfold u64_saturating_add; lia).
    destruct h' as [bs' pos']. simpl in Hb, Hp. subst bs' pos'.
    edestruct (IH) with (fuel := fuel) as (rl & Hrl & Hle & Hall);
      [rewrite Hd, drop_drop; f_equal; lia|done|lia|].
    exists rl. rewrite Hrl. destruct (parse_from _ _) as [l t]. simpl in *.
    split_and!; [done|lia|lia|]. constructor; [|done].
    exists c. simpl. rewrite <-Hd. split_and!; done || lia.
  - exists off. split_and!; done || lia.
  - exists off. split_and!; done || lia.
Qed.
End replay_proofs.
