(* ===== verification/WalReplaySpec.v ===== *)
(** * What WAL replay computes

    The reference semantics of a WAL directory (the log of its frames, a drop
    tombstone voiding what precedes it by table name) and the refinement
    theorem: [prepare] followed by [collect] of [replay.rs] returns exactly the
    live records of the log, in [(generation, batch id, position)] order. *)

From S2P Require Import Prelude Core WriteProtocol WalFrame WalReplay.
Open Scope nat_scope.
Open Scope list_scope.

Section log.
Context `{WalCodec}.
Abbreviation log := (list (FramePosition * WalRecord)).

(** ** The log of a directory *)
Definition seg_parse (root : WalDir) (path : string) : list (N * WalRecord) * SegTail :=
  parse_segment (default [] (f_bytes <$> root !! path)).
Definition seg_corrupt (root : WalDir) (path : string) : bool :=
  tail_corrupt (seg_parse root path).2.

Fixpoint log_from (root : WalDir) (i : nat) (paths : list string) : log :=
  match paths with
  | [] => []
  | p :: paths => at_segment i (seg_parse root p).1 ++ log_from root (S i) paths
  end.
Definition wal_log (root : WalDir) : log := log_from root 0 (segment_paths root).

Definition drops (t : TableIdent) (r : WalRecord) : bool :=
  bool_decide (op (header r) = DropTable ∧ h_table (header r) = t).
Definition candidate (committed : gmap WalTableKey Generation) (r : WalRecord) : bool :=
  bool_decide (op (header r) = Append) && negb (is_committed committed r).

(** The appends that are neither committed nor followed by a tombstone of
    their table. *)
Fixpoint live_log (committed : gmap WalTableKey Generation) (l : log) : log :=
  match l with
  | [] => []
  | (p, r) :: l =>
      if candidate committed r && negb (existsb (λ e, drops (h_table (header r)) e.2) l)
      then (p, r) :: live_log committed l else live_log committed l
  end.

Definition log_leb (a b : FramePosition * WalRecord) : bool :=
  match N.compare (generation (header a.2)) (generation (header b.2)) with
  | Eq => match N.compare (batch_id (header a.2)) (batch_id (header b.2)) with
          | Eq => negb (position_lt b.1 a.1)
          | Lt => true
          | Gt => false
          end
  | Lt => true
  | Gt => false
  end.

(** What a recovery must replay. *)
Definition replay_spec (committed : gmap WalTableKey Generation) (root : WalDir) : list WalRecord :=
  (stable_sort log_leb (live_log committed (wal_log root))).*2.

(** ** The first pass builds an index of the log *)
Definition entry_for (tables : list WalTableKey) (pr : FramePosition * WalRecord)
    (e : ReplayEntry) : Prop :=
  e_position e = pr.1 ∧ e_generation e = generation (header pr.2) ∧
  e_batch_id e = batch_id (header pr.2) ∧ tables !! e_table_index e = Some (record_key pr.2).

Definition tombstone_step (t : TableIdent) (acc : option FramePosition)
    (pr : FramePosition * WalRecord) : option FramePosition :=
  if drops t pr.2 then Some pr.1 else acc.
Definition last_tombstone (t : TableIdent) (l : log) : option FramePosition :=
  foldl (tombstone_step t) None l.

Definition init_prep : PrepState := mkPrepState [] [] ∅ ∅.

Record prep_inv (committed : gmap WalTableKey Generation) (l : log) (st : PrepState) : Prop := {
  pi_indexes k i : ps_table_indexes st !! k = Some i → ps_tables st !! i = Some k;
  pi_entries : Forall2 (entry_for (ps_tables st))
                 (filter (λ pr, candidate committed pr.2 = true) l) (ps_entries st);
  pi_tombstones t : ps_tombstones st !! t = last_tombstone t l;
}.

Lemma entry_for_mono tables tables' pr e :
  entry_for tables pr e → entry_for (tables ++ tables') pr e.
Proof. intros (?&?&?&?). split_and!; try done. by apply lookup_app_l_Some. Qed.

Lemma last_tombstone_snoc t l pr :
  last_tombstone t (l ++ [pr]) = if drops t pr.2 then Some pr.1 else last_tombstone t l.
Proof. unfold last_tombstone. by rewrite foldl_app. Qed.

Lemma filter_snoc {A} (P : A → Prop) `{!∀ x, Decision (P x)} l x :
  filter P (l ++ [x]) = filter P l ++ if decide (P x) then [x] else [].
Proof. rewrite filter_app, filter_cons, filter_nil. done. Qed.

Lemma intern_spec st k :
  (∀ k i, ps_table_indexes st !! k = Some i → ps_tables st !! i = Some k) →
  let st' := (intern st k).2 in
  (∃ extra, ps_tables st' = ps_tables st ++ extra) ∧
  ps_tables st' !! (intern st k).1 = Some k ∧
  ps_entries st' = ps_entries st ∧ ps_tombstones st' = ps_tombstones st ∧
  (∀ k i, ps_table_indexes st' !! k = Some i → ps_tables st' !! i = Some k).
Proof.
  intros Hidx. unfold intern. destruct (ps_table_indexes st !! k) as [i|] eqn:Hk; simpl.
  - split_and!; auto. exists []. by rewrite app_nil_r.
  - split_and!; eauto; [by rewrite lookup_app_r, Nat.sub_diag by lia|].
    intros k' i [[<- <-]|[_ Hi]]%lookup_insert_Some.
    + by rewrite lookup_app_r, Nat.sub_diag by lia.
    + by apply lookup_app_l_Some, Hidx.
Qed.

Lemma prep_inv_step committed l st pr :
  prep_inv committed l st → prep_inv committed (l ++ [pr]) (prep_step committed st pr).
Proof.
  destruct pr as [p r]. intros [Hidx Hent Htomb]. unfold prep_step.
  destruct (op (header r)) eqn:Hop.
  - assert (∀ t, drops t r = false) as Hnd
      by (intros t; unfold drops; by rewrite bool_decide_false by (rewrite Hop; naive_solver)).
    assert (candidate committed r = negb (is_committed committed r)) as Hcand
      by (unfold candidate; by rewrite bool_decide_true).
    destruct (is_committed committed r) eqn:Hc.
    + constructor; [done| |intros t; by rewrite last_tombstone_snoc, Hnd].
      rewrite filter_snoc, decide_False, app_nil_r by (simpl; by rewrite Hcand). done.
    + destruct (intern_spec st (record_key r) Hidx) as ([extra Hex] & Hi & He & Ht & Hidx').
      destruct (intern st (record_key r)) as [i st']. simpl in *.
      constructor; simpl; [done| |intros t; by rewrite last_tombstone_snoc, Hnd, Ht].
      rewrite filter_snoc, decide_True by (simpl; by rewrite Hcand).
      apply Forall2_app; [|repeat constructor; done].
      rewrite He, Hex. eapply Forall2_impl; [done|]. intros; by apply entry_for_mono.
  - constructor; simpl; [done| |].
    + rewrite filter_snoc, decide_False, app_nil_r; [done|].
      simpl. unfold candidate. by rewrite bool_decide_false by (rewrite Hop; done).
    + intros t. rewrite last_tombstone_snoc. unfold drops. simpl.
      destruct (decide (h_table (header r) = t)) as [->|Hne].
      * by rewrite lookup_insert_eq, bool_decide_true.
      * rewrite lookup_insert_ne, bool_decide_false by naive_solver. done.
Qed.

Lemma prep_inv_foldl committed l : prep_inv committed l (foldl (prep_step committed) init_prep l).
Proof.
  induction l as [|pr l IH] using rev_ind.
  - constructor; simpl; [by intros ?? ?%lookup_empty_Some| |done]. by rewrite filter_nil.
  - rewrite foldl_snoc. by apply prep_inv_step.
Qed.

(** ** Positions in the log increase *)
Lemma position_lt_spec a b :
  position_lt a b = true ↔
    pos_segment a < pos_segment b ∨
    pos_segment a = pos_segment b ∧ (pos_offset a < pos_offset b)%N.
Proof.
  unfold position_lt, position_compare.
  destruct (Nat.compare_spec (pos_segment a) (pos_segment b)); [|naive_solver lia..].
  destruct (N.compare_spec (pos_offset a) (pos_offset b)); naive_solver lia.
Qed.

Abbreviation pos_sorted l := (StronglySorted (λ a b : FramePosition * WalRecord, position_lt a.1 b.1 = true) l).

Lemma parse_from_sorted off d :
  StronglySorted (λ a b, (a.1 < b.1)%N) (parse_from off d).1 ∧
  Forall (λ e, (off ≤ e.1)%N) (parse_from off d).1.
Proof.
  revert off d. refine (parse_from_ind _ _ _ _ _);
    [ intros off | intros off d r c Hne Hdec [IH1 IH2] | intros off d Hne Hdec | intros off d e Hne Hdec ];
    rewrite parse_from_eq; try (destruct d; [done|]); rewrite ?Hdec; [by repeat constructor| |by repeat constructor..].
  destruct (decode_frame_Complete _ _ _ Hdec) as [Hc _].
  destruct (parse_from _ _) as [l t]. simpl in *. split; constructor; try done; simpl.
  all: eapply Forall_impl; [exact IH2|]; simpl; intros; lia.
Qed.

Lemma at_segment_sorted i l :
  StronglySorted (λ a b : N * WalRecord, (a.1 < b.1)%N) l → pos_sorted (at_segment i l).
Proof.
  induction 1 as [|e l Hl IH He]; simpl; [constructor|]. constructor; [done|].
  apply Forall_fmap. eapply Forall_impl; [exact He|]. intros e' ?.
  apply position_lt_spec. simpl. auto.
Qed.

Lemma log_from_segment root i paths :
  Forall (λ e, i ≤ pos_segment e.1) (log_from root i paths).
Proof.
  revert i. induction paths as [|p paths IH]; intros i; simpl; [done|].
  apply Forall_app. split.
  - apply Forall_fmap, Forall_true. simpl. lia.
  - eapply Forall_impl; [apply IH|]. simpl. lia.
Qed.

Lemma log_from_sorted root i paths : pos_sorted (log_from root i paths).
Proof.
  revert i. induction paths as [|p paths IH]; intros i; simpl; [constructor|].
  apply StronglySorted_app_2; [|apply at_segment_sorted, parse_from_sorted|done].
  intros x y (e & -> & _)%list_elem_of_fmap Hy. apply position_lt_spec. simpl. left.
  eapply Forall_forall in Hy; [|apply log_from_segment]. simpl in Hy. lia.
Qed.

(** ** The tombstone filter is the log semantics *)
Lemma last_tombstone_app t l1 l2 :
  last_tombstone t (l1 ++ l2) =
    match last_tombstone t l2 with Some p => Some p | None => last_tombstone t l1 end.
Proof.
  induction l2 as [|pr l2 IH] using rev_ind; [by rewrite app_nil_r|].
  rewrite app_assoc, !last_tombstone_snoc, IH. by destruct (drops t pr.2).
Qed.

Lemma last_tombstone_elem t l p :
  last_tombstone t l = Some p → ∃ r, (p, r) ∈ l ∧ drops t r = true.
Proof.
  induction l as [|[p' r'] l IH] using rev_ind; [done|]. rewrite last_tombstone_snoc. simpl.
  destruct (drops t r') eqn:Hd.
  - intros [= ->]. exists r'. split; [|done]. apply elem_of_app. right. by left.
  - intros (r & Hr & ?)%IH. exists r. split; [|done]. apply elem_of_app. by left.
Qed.

Lemma last_tombstone_None t l :
  last_tombstone t l = None ↔ existsb (λ e, drops t e.2) l = false.
Proof.
  induction l as [|[p r] l IH] using rev_ind; [done|].
  rewrite last_tombstone_snoc, existsb_app. simpl.
  destruct (drops t r); simpl; [by rewrite orb_true_r|by rewrite IH, orb_false_r].
Qed.

Definition survives_log (l : log) (pr : FramePosition * WalRecord) : bool :=
  match last_tombstone (h_table (header pr.2)) l with
  | None => true
  | Some t => position_lt t pr.1
  end.

(** An append survives iff no tombstone of its table follows it. *)
Lemma survives_log_split pre p r suf :
  pos_sorted (pre ++ (p, r) :: suf) → op (header r) = Append →
  survives_log (pre ++ (p, r) :: suf) (p, r) =
    negb (existsb (λ e, drops (h_table (header r)) e.2) suf).
Proof.
  intros (Hlt & _ & Hsuf)%StronglySorted_app Hop. unfold survives_log. cbn [fst snd].
  assert (drops (h_table (header r)) r = false) as Hnd
    by (apply bool_decide_eq_false; intros [? _]; congruence).
  rewrite last_tombstone_app. change ((p, r) :: suf) with ([(p, r)] ++ suf).
  rewrite (last_tombstone_app _ [(p, r)]).
  destruct (last_tombstone (h_table (header r)) suf) as [t|] eqn:Ht.
  - destruct (existsb _ suf) eqn:Hex; [|apply last_tombstone_None in Hex; congruence].
    apply last_tombstone_elem in Ht as (r' & Ht & _).
    inversion Hsuf as [|? ? _ Hall]; subst.
    eapply Forall_forall in Hall; [|exact Ht]. apply not_true_is_false.
    rewrite position_lt_spec in Hall |- *. simpl in *. lia.
  - apply last_tombstone_None in Ht. rewrite Ht.
    replace (last_tombstone _ [(p, r)]) with (@None FramePosition)
      by (unfold last_tombstone, tombstone_step; simpl; by rewrite Hnd).
    destruct (last_tombstone _ pre) as [t|] eqn:Hp; [|done].
    apply last_tombstone_elem in Hp as (r' & Hp & _).
    apply (Hlt (t, r') (p, r)); [done|by left].
Qed.

Lemma candidate_append committed r : candidate committed r = true → op (header r) = Append.
Proof. unfold candidate. by intros [?%bool_decide_eq_true _]%andb_true_iff. Qed.

Lemma survives_live_app committed pre suf :
  pos_sorted (pre ++ suf) →
  filter (λ pr, survives_log (pre ++ suf) pr = true)
    (filter (λ pr, candidate committed pr.2 = true) suf) = live_log committed suf.
Proof.
  revert pre. induction suf as [|[p r] suf IH]; intros pre Hs; [done|].
  specialize (IH (pre ++ [(p, r)])). rewrite <-app_assoc in IH. specialize (IH Hs).
  cbn [app] in IH. cbn [live_log]. rewrite filter_cons. cbn [fst snd].
  destruct (candidate committed r) eqn:Hc; cbn [andb decide]; [|exact IH].
  pose proof (survives_log_split _ _ _ _ Hs (candidate_append _ _ Hc)) as Hsv.
  rewrite decide_True, filter_cons by done.
  destruct (negb (existsb _ suf)).
  - rewrite decide_True by done. by rewrite IH.
  - rewrite decide_False by (rewrite Hsv; done). exact IH.
Qed.

(** ** The segment loop *)

(** File lengths are [u64]. *)
Definition dir_ok (root : WalDir) : Prop :=
  ∀ p f, root !! p = Some f → (lenN (f_bytes f) ≤ u64_max)%N.

Definition quarantine_step (root r : WalDir) (p : string) : WalDir :=
  if seg_corrupt root p then rename_file r p (quarantine_path p) else r.
Definition quarantine_all (root : WalDir) : WalDir :=
  foldl (quarantine_step root) root (segment_paths root).

Definition snapshot_for (root : WalDir) (p : string) (s : SegmentSnapshot) : Prop :=
  ∃ f, root !! p = Some f ∧
    ss_identity s = mkSegmentIdentity (if seg_corrupt root p then quarantine_path p else p)
                      (lenN (f_bytes f)) (f_modified f) ∧
    ss_live s = negb (seg_corrupt root p) ∧
    (ss_replay_len s ≤ lenN (f_bytes f))%N ∧
    Forall (readable (f_bytes f) (ss_replay_len s)) (seg_parse root p).1.

Lemma prepare_segment_spec rename_ok committed mode root i p f r st segs :
  dir_ok root → root !! p = Some f → r !! p = Some f →
  ∃ snap, snapshot_for root p snap ∧
    prepare_segment rename_ok committed mode i p (r, st, segs) =
      let st' := foldl (prep_step committed) st (at_segment i (seg_parse root p).1) in
      if seg_corrupt root p then
        match mode with
        | ModeFail => Raises corrupt_error
        | ModeSalvage =>
            if rename_ok p then Returns (rename_file r p (quarantine_path p), st', segs ++ [snap])
            else Raises (wal "failed to quarantine corrupt segment: {error}")
        end
      else Returns (r, st', segs ++ [snap]).
Proof.
  intros Hok Hf Hr. unfold prepare_segment, segment_identity, open_segment. rewrite Hr.
  cbn [ok_or mbind result_bind lift outcome_bind si_len si_modified].
  destruct (prepare_loop_parse committed i (f_bytes f) 0 (f_bytes f) (Hok p f Hf) eq_refl
              (N.to_nat (lenN (f_bytes f))) 0%N st) as (rl & Hloop & [_ Hrl] & Hall); [lia..|].
  change (mkHandle (f_bytes f) 0) with (mkHandle (f_bytes f) (N.to_nat 0)). rewrite Hloop.
  cbn [mbind outcome_bind].
  assert (seg_parse root p = parse_from 0 (f_bytes f)) as Hp
    by (unfold seg_parse, parse_segment; by rewrite Hf).
  exists (mkSegmentSnapshot (mkSegmentIdentity (if seg_corrupt root p then quarantine_path p else p)
            (lenN (f_bytes f)) (f_modified f)) rl (negb (seg_corrupt root p))).
  split.
  - exists f. rewrite Hp. split_and!; done.
  - unfold seg_corrupt. rewrite Hp. destruct (parse_from 0 (f_bytes f)) as [l [| |e]]; simpl; [done..|].
    by destruct mode.
Qed.

Definition pending_ok (root r : WalDir) (paths : list string) : Prop :=
  NoDup paths ∧
  ∀ p, p ∈ paths → str_ends_with ".wal" p = true ∧ r !! p = root !! p ∧ is_Some (root !! p).

Lemma quarantine_not_wal p : str_ends_with ".wal" (quarantine_path p) = false.
Proof. by apply (str_ends_with_last "l" _ "aw." "t" _ "purroc."). Qed.

Lemma quarantine_inj p q : quarantine_path p = quarantine_path q → p = q.
Proof.
  unfold quarantine_path. intros Hq. apply (f_equal str_rev) in Hq.
  rewrite !str_rev_append in Hq. apply str_app_inj_l in Hq.
  rewrite <-(str_rev_involutive p), <-(str_rev_involutive q). by rewrite Hq.
Qed.

Lemma pending_ok_step root r p paths :
  pending_ok root r (p :: paths) → pending_ok root (quarantine_step root r p) paths.
Proof.
  intros [[Hp Hnd]%NoDup_cons Hall]. split; [done|]. intros q Hq.
  destruct (Hall q (list_elem_of_further _ _ _ Hq)) as (Hw & Hrq & Hs). split_and!; [done| |done].
  unfold quarantine_step. destruct (seg_corrupt root p); [|done].
  unfold rename_file. destruct (r !! p); [|done].
  rewrite lookup_insert_ne, lookup_delete_ne; [done|by intros ->|].
  intros Heq. pose proof (quarantine_not_wal p). congruence.
Qed.

Lemma prepare_segments_spec rename_ok committed mode root i paths r st segs :
  dir_ok root → pending_ok root r paths →
  (Forall (λ p, seg_corrupt root p = false) paths ∨ mode = ModeSalvage ∧ ∀ p, rename_ok p = true) →
  ∃ segs', Forall2 (snapshot_for root) paths segs' ∧
    prepare_segments rename_ok committed mode i paths (r, st, segs) =
      Returns (foldl (quarantine_step root) r paths,
               foldl (prep_step committed) st (log_from root i paths), segs ++ segs').
Proof.
  intros Hok. revert i r st segs. induction paths as [|p paths IH]; intros i r st segs Hpend Hmode.
  { exists []. rewrite app_nil_r. split; [constructor|done]. }
  destruct (proj2 Hpend p) as (_ & Hrp & [f Hf]); [by left|].
  destruct (prepare_segment_spec rename_ok committed mode root i p f r st segs) as (snap & Hsnap & Hseg);
    [done|done|congruence|].
  apply pending_ok_step in Hpend. cbn [prepare_segments log_from foldl]. rewrite foldl_app.
  destruct (IH (S i) (quarantine_step root r p)
              (foldl (prep_step committed) st (at_segment i (seg_parse root p).1)) (segs ++ [snap]))
    as (segs' & Hsegs' & Hrest); [done| |].
  { destruct Hmode as [Hm|Hm]; [left|by right]. by apply Forall_cons in Hm as [_ ?]. }
  exists (snap :: segs'). split; [by constructor|].
  rewrite <-app_assoc in Hrest. cbn [app] in Hrest. rewrite <-Hrest, Hseg. cbv zeta.
  unfold quarantine_step. destruct (seg_corrupt root p) eqn:Hc; [|done].
  destruct Hmode as [[Hm _]%Forall_cons|[-> Hren]]; [congruence|]. by rewrite Hren.
Qed.

Lemma prepare_segments_corrupt rename_ok committed root i paths st segs :
  dir_ok root → pending_ok root root paths →
  Exists (λ p, seg_corrupt root p = true) paths →
  prepare_segments rename_ok committed ModeFail i paths (root, st, segs) = Raises corrupt_error.
Proof.
  intros Hok. revert i st segs. induction paths as [|p paths IH]; intros i st segs Hpend Hex.
  { by apply Exists_nil in Hex. }
  destruct (proj2 Hpend p) as (_ & _ & [f Hf]); [by left|].
  destruct (prepare_segment_spec rename_ok committed ModeFail root i p f root st segs) as (snap & _ & Hseg);
    [done..|].
  cbn [prepare_segments]. rewrite Hseg. destruct (seg_corrupt root p) eqn:Hc; [done|].
  apply Exists_cons in Hex as [?|Hex]; [congruence|]. simpl. apply IH; [|done].
  apply pending_ok_step in Hpend. unfold quarantine_step in Hpend. by rewrite Hc in Hpend.
Qed.

(** ** Directory listings *)
Lemma str_leb_total a b : str_leb a b = true ∨ str_leb b a = true.
Proof.
  unfold str_leb. rewrite !bool_decide_eq_true. apply (total String.le).
Qed.
Lemma str_leb_trans a b c : str_leb a b = true → str_leb b c = true → str_leb a c = true.
Proof. unfold str_leb. rewrite !bool_decide_eq_true. apply (transitivity (R := String.le)). Qed.

Abbreviation str_sorted l := (StronglySorted (λ a b, str_leb a b = true) l).

Lemma str_sorted_unique l k : str_sorted l → str_sorted k → l ≡ₚ k → l = k.
Proof.
  apply StronglySorted_unique_strong. intros x y _ _. unfold str_leb.
  rewrite !bool_decide_eq_true. apply (anti_symm String.le).
Qed.

Lemma segment_paths_elem root n :
  n ∈ segment_paths root ↔ str_ends_with ".wal" n = true ∧ is_Some (root !! n).
Proof.
  unfold segment_paths. rewrite stable_sort_perm, list_elem_of_filter.
  apply and_iff_compat_l. rewrite list_elem_of_fmap. split.
  - intros ([k f] & -> & Hk%elem_of_map_to_list). by eexists.
  - intros [f Hf]. exists (n, f). split; [done|]. by apply elem_of_map_to_list.
Qed.

Lemma segment_paths_NoDup root : NoDup (segment_paths root).
Proof.
  unfold segment_paths. rewrite stable_sort_perm. apply NoDup_filter, NoDup_fst_map_to_list.
Qed.

Lemma segment_paths_sorted root : str_sorted (segment_paths root).
Proof. apply stable_sort_sorted; [apply str_leb_total|apply str_leb_trans]. Qed.

Lemma StronglySorted_filter {A} (R : A → A → Prop) (P : A → Prop) `{!∀ x, Decision (P x)} l :
  StronglySorted R l → StronglySorted R (filter P l).
Proof.
  induction 1 as [|x l Hl IH Hx]; [constructor|]. rewrite filter_cons. case_decide; [|done].
  constructor; [done|]. apply Forall_forall. intros y [_ Hy]%list_elem_of_filter.
  rewrite Forall_forall in Hx. auto.
Qed.

(** A listing is determined by its members. *)
Lemma segment_paths_ext root root' (P : string → Prop) `{!∀ x, Decision (P x)} :
  (∀ n, n ∈ segment_paths root' ↔ P n ∧ n ∈ segment_paths root) →
  segment_paths root' = filter P (segment_paths root).
Proof.
  intros Hext. apply str_sorted_unique;
    [apply segment_paths_sorted|apply StronglySorted_filter, segment_paths_sorted|].
  apply NoDup_Permutation; [apply segment_paths_NoDup|apply NoDup_filter, segment_paths_NoDup|].
  intros n. by rewrite list_elem_of_filter, Hext.
Qed.

Lemma pending_ok_paths root : pending_ok root root (segment_paths root).
Proof.
  split; [apply segment_paths_NoDup|]. by intros p [??]%segment_paths_elem.
Qed.

Lemma quarantine_step_other root r p n :
  n ≠ p → n ≠ quarantine_path p → quarantine_step root r p !! n = r !! n.
Proof.
  intros Hp Hq. unfold quarantine_step, rename_file. destruct (seg_corrupt root p); [|done].
  destruct (r !! p); [|done]. by rewrite lookup_insert_ne, lookup_delete_ne by done.
Qed.

Lemma quarantine_foldl_other root r paths n :
  (∀ p, p ∈ paths → n ≠ p ∧ n ≠ quarantine_path p) →
  foldl (quarantine_step root) r paths !! n = r !! n.
Proof.
  revert r. induction paths as [|p paths IH]; intros r Hn; [done|]. simpl.
  rewrite IH by (intros; apply Hn; by right).
  apply quarantine_step_other; by apply Hn; left.
Qed.

Lemma quarantine_foldl root r paths p :
  pending_ok root r paths → p ∈ paths →
  foldl (quarantine_step root) r paths !! (if seg_corrupt root p then quarantine_path p else p)
    = root !! p ∧
  (seg_corrupt root p = true → foldl (quarantine_step root) r paths !! p = None).
Proof.
  revert r. induction paths as [|q paths IH]; intros r Hpend Hp; [by apply not_elem_of_nil in Hp|].
  simpl. apply elem_of_cons in Hp as [->|Hp]; [|apply IH; [by apply pending_ok_step|done]].
  pose proof (pending_ok_step _ _ _ _ Hpend) as [Hnd' Hpend'].
  destruct Hpend as [[Hq Hnd]%NoDup_cons Hall].
  destruct (Hall q) as (Hw & Hr & [f Hf]); [by left|].
  assert (∀ n, n = q ∨ n = quarantine_path q → ∀ p, p ∈ paths → n ≠ p ∧ n ≠ quarantine_path p) as Hn.
  { intros n Hn p Hp. pose proof (quarantine_not_wal p). pose proof (quarantine_not_wal q).
    destruct (Hpend' p Hp) as [Hwp _]. destruct Hn as [-> | ->]; split; try congruence.
    intros ->%quarantine_inj. done. }
  rewrite !quarantine_foldl_other by (destruct (seg_corrupt root q); naive_solver).
  unfold quarantine_step, rename_file. rewrite Hr, Hf.
  destruct (seg_corrupt root q); [|split; [congruence|done]]. rewrite lookup_insert_eq. split; [done|]. intros _.
  rewrite lookup_insert_ne, lookup_delete_eq; [done|].
  pose proof (quarantine_not_wal q). congruence.
Qed.

Lemma quarantine_all_paths root :
  segment_paths (quarantine_all root) =
    filter (λ p, seg_corrupt root p = false) (segment_paths root).
Proof.
  apply segment_paths_ext. intros n. rewrite !segment_paths_elem.
  destruct (decide (str_ends_with ".wal" n = true)) as [Hw|Hw]; [|naive_solver].
  destruct (decide (n ∈ segment_paths root)) as [Hin|Hin].
  - destruct (quarantine_foldl root root _ n (pending_ok_paths root) Hin) as [Hq1 Hq2].
    fold (quarantine_all root) in Hq1, Hq2.
    destruct (seg_corrupt root n); [rewrite Hq2 by done|rewrite Hq1]; [|tauto].
    split; [by intros [_ [??]]|naive_solver].
  - unfold quarantine_all. rewrite quarantine_foldl_other.
    + rewrite segment_paths_elem in Hin. tauto.
    + intros p Hp. pose proof (quarantine_not_wal p). split; congruence.
Qed.

(** ** The second pass reads the indexed records back *)
Lemma decode_frame_take d r c n :
  decode_frame d = Complete r c → (N.min c (lenN d) ≤ N.of_nat n)%N →
  decode_frame (take n d) = Complete r c.
Proof.
  intros Hd Hn. pose proof Hd as [Hc _]%decode_frame_Complete.
  destruct (decide (length d < 8)) as [Hs|Hs]; [by rewrite decode_frame_short in Hd|].
  destruct (slice_header d) as (c0&c1&c2&c3&c4&c5&c6&c7&rest&->); [lia|].
  assert (8 ≤ n) as [m ->]%Nat.le_sum by (unfold lenN in Hn; simpl in Hn; lia).
  change (take (8 + m) (c0 :: c1 :: c2 :: c3 :: c4 :: c5 :: c6 :: c7 :: rest)) with
    (c0 :: c1 :: c2 :: c3 :: c4 :: c5 :: c6 :: c7 :: take m rest).
  rewrite <-Hd. rewrite decode_frame_header in Hd.
  destruct (N.eqb_spec (u32_from_le_bytes c0 c1 c2 c3) 0); [by destruct (_ && _)|].
  destruct (_ <? _)%N; [done|]. destruct (N.ltb_spec (8 + lenN rest) (8 + u32_from_le_bytes c0 c1 c2 c3));
    [done|].
  apply decode_payload_Complete in Hd as [-> _].
  apply decode_frame_content; [done|unfold lenN in *; simpl in Hn; lia|unfold lenN in *; lia].
Qed.

Lemma log_from_elem root i paths pos r :
  (pos, r) ∈ log_from root i paths →
  ∃ p, paths !! (pos_segment pos - i) = Some p ∧ i ≤ pos_segment pos ∧
       (pos_offset pos, r) ∈ (seg_parse root p).1.
Proof.
  revert i. induction paths as [|p paths IH]; intros i; simpl; [by intros ?%not_elem_of_nil|].
  intros [([o r'] & [= -> ->] & He)%list_elem_of_fmap|(q & Hq & Hi & Ho)%IH]%elem_of_app.
  - exists p. simpl. by rewrite Nat.sub_diag.
  - exists q. replace (pos_segment pos - i) with (S (pos_segment pos - S i)) by lia.
    split_and!; done || lia.
Qed.

Section second_pass.
Variables (root : WalDir) (segs : list SegmentSnapshot).
Hypothesis Hsegs : Forall2 (snapshot_for root) (segment_paths root) segs.

Lemma snapshot_identity_ok p s :
  p ∈ segment_paths root → snapshot_for root p s →
  verify_identity (quarantine_all root) (ss_identity s) = Ok tt ∧
  ∃ f, root !! p = Some f ∧
    open_segment (quarantine_all root) (si_path (ss_identity s)) = Ok (mkHandle (f_bytes f) 0).
Proof.
  intros Hp (f & Hf & Hid & _).
  destruct (quarantine_foldl root root _ p (pending_ok_paths root) Hp) as [Hq _].
  unfold verify_identity, segment_identity, open_segment. rewrite Hid. simpl.
  unfold quarantine_all. rewrite Hq, Hf. simpl. rewrite decide_True by done. eauto.
Qed.


Lemma live_paths paths segs' :
  Forall2 (snapshot_for root) paths segs' →
  si_path <$> (ss_identity <$> filter (λ s, ss_live s = true) segs') =
    filter (λ p, seg_corrupt root p = false) paths.
Proof.
  induction 1 as [|p s paths segs' (f & _ & Hid & Hlive & _) _ IH]; [done|].
  rewrite !filter_cons, Hlive. destruct (seg_corrupt root p).
  - rewrite !decide_False by done. exact IH.
  - rewrite !decide_True by done. rewrite !fmap_cons, IH, Hid. done.
Qed.

Lemma verify_live_snapshot_ok : verify_live_snapshot (quarantine_all root) segs = Ok tt.
Proof.
  unfold verify_live_snapshot. rewrite quarantine_all_paths, (live_paths _ _ Hsegs).
  rewrite bool_decide_true by done. apply foldM_unit_Ok.
  intros i (s & -> & [_ [k Hk]%list_elem_of_lookup]%list_elem_of_filter)%list_elem_of_fmap.
  destruct (Forall2_lookup_r _ _ _ _ _ Hsegs Hk) as (p & Hp & Hps).
  apply (snapshot_identity_ok p); [|done]. by eapply list_elem_of_lookup_2.
Qed.

(** An open handle holds the bytes of its segment. *)
Definition file_ok (file : option (nat * Handle)) : Prop :=
  match file with
  | None => True
  | Some (i, h) => ∃ p f, segment_paths root !! i = Some p ∧ root !! p = Some f ∧
                          hd_bytes h = f_bytes f
  end.

Lemma seg_parse_valid r p x : x ∈ (seg_parse r p).1 → header_validate (header x.2) = Ok tt.
Proof.
  intros Hx. pose proof (parse_from_valid 0 (default [] (f_bytes <$> r !! p))) as Hval.
  rewrite Forall_forall in Hval. by apply (Hval x).
Qed.

Lemma wal_log_valid r pr : pr ∈ wal_log r → header_validate (header pr.2) = Ok tt.
Proof.
  destruct pr as [pos rec]. intros (p & _ & _ & Hoff)%log_from_elem. by apply (seg_parse_valid r p _ Hoff).
Qed.

Lemma open_for_entry i p s file :
  segment_paths root !! i = Some p → segs !! i = Some s → file_ok file →
  ∃ h f, root !! p = Some f ∧ hd_bytes h = f_bytes f ∧
    match file with
    | Some (i', h) => if decide (i' = i) then Ok h else
        _ ← verify_identity (quarantine_all root) (ss_identity s);
        open_segment (quarantine_all root) (si_path (ss_identity s))
    | None =>
        _ ← verify_identity (quarantine_all root) (ss_identity s);
        open_segment (quarantine_all root) (si_path (ss_identity s))
    end = Ok h.
Proof.
  intros Hp Hs Hfile.
  destruct (Forall2_lookup_l _ _ _ _ _ Hsegs Hp) as (s' & Hs' & Hps).
  rewrite Hs in Hs'. injection Hs' as <-.
  destruct (snapshot_identity_ok p s (list_elem_of_lookup_2 _ _ _ Hp) Hps) as (-> & f & Hf & ->).
  destruct file as [[i' h]|]; simpl; [case_decide as Hi|];
    [|by exists (mkHandle (f_bytes f) 0), f..].
  destruct Hfile as (p' & f' & Hp' & Hf' & Hh). subst. rewrite Hp in Hp'. injection Hp' as <-. eauto.
Qed.

Lemma read_entry i p s f h off r :
  segment_paths root !! i = Some p → segs !! i = Some s → root !! p = Some f →
  hd_bytes h = f_bytes f → (off, r) ∈ (seg_parse root p).1 →
  ∃ c h', read_frame (seek h off) off (ss_replay_len s) = Returns (Complete r c, h') ∧
          hd_bytes h' = f_bytes f.
Proof.
  intros Hp Hs Hf Hh He.
  destruct (Forall2_lookup_l _ _ _ _ _ Hsegs Hp) as (s' & Hs' & (f' & Hf' & _ & _ & Hrl & Hall)).
  rewrite Hs in Hs'. injection Hs' as <-. rewrite Hf in Hf'. injection Hf' as <-.
  eapply Forall_forall in Hall as (c & Hd & Hlt & Hc); [|exact He]. simpl in *.
  destruct (decode_frame_Complete _ _ _ Hd) as [Hc8 _].
  destruct (read_frame_decode (seek h off) off (ss_replay_len s)) as (h' & Hread & Hb & _);
    [done|simpl; rewrite Hh; lia|].
  exists c, h'. rewrite Hread, Hb. simpl. rewrite Hh. split; [|done].
  rewrite (decode_frame_take _ r c); [done..|]. rewrite lenN_drop. lia.
Qed.

Variables (tables : list WalTableKey) (entries : list ReplayEntry).

Lemma next_record_step idx file checked pr e :
  file_ok file → entries !! idx = Some e → entry_for tables pr e →
  pr ∈ wal_log root → op (header pr.2) = Append →
  ∃ file', file_ok file' ∧
    next_record (quarantine_all root) (mkReplayPlan segs entries tables idx file checked) =
      Returns (Some pr.2, mkReplayPlan segs entries tables (S idx) file' true).
Proof.
  destruct pr as [pos r]. intros Hfile He (Hpos & Hgen & Hbid & Hkey) Hin Hop. simpl in *.
  apply log_from_elem in Hin as (p & Hp & _ & Hoff). rewrite Nat.sub_0_r in Hp.
  destruct (Forall2_lookup_l _ _ _ _ _ Hsegs Hp) as (s & Hs & _).
  destruct (open_for_entry _ p s file Hp Hs Hfile) as (h & f & Hf & Hh & Hopen).
  destruct (read_entry _ p s f h _ r Hp Hs Hf Hh Hoff) as (c & h' & Hread & Hh').
  unfold next_record.
  cbn [rp_snapshot_checked rp_entries rp_entry_index rp_segments rp_file rp_tables].
  rewrite verify_live_snapshot_ok.
  assert (∀ b : bool, (if b then Ok tt else Ok tt) = @Ok TeoDBError _ tt) as -> by (by intros []).
  cbn [lift mbind outcome_bind].
  rewrite He, Hpos, Hs. cbn [ok_or lift mbind outcome_bind]. rewrite Hopen.
  cbn [lift mbind outcome_bind]. rewrite Hread. cbn [mbind outcome_bind].
  rewrite Hkey. cbn [ok_or lift mbind outcome_bind].
  rewrite bool_decide_true by (split_and!; congruence).
  pose proof (seg_parse_valid root p _ Hoff) as Hv. simpl in Hv.
  destruct (table_key_valid _ Hv Hop) as (u & Hu & _ & ->).
  cbn [fmap result_fmap lift mbind outcome_bind]. unfold record_key in *. rewrite Hu.
  simpl. rewrite decide_True by done.
  eexists. split; [|done]. exists p, f. done.
Qed.

Lemma collect_entries fuel idx file checked recs :
  file_ok file → Forall2 (entry_for tables) recs (drop idx entries) →
  Forall (λ pr, pr ∈ wal_log root ∧ op (header pr.2) = Append) recs →
  length recs < fuel →
  collect fuel (quarantine_all root) (mkReplayPlan segs entries tables idx file checked)
    = Returns recs.*2.
Proof.
  intros Hfile Hrecs Hall. revert idx file checked Hfile Hrecs fuel.
  induction Hall as [|pr recs [Hin Hop] _ IH]; intros idx file checked Hfile Hrecs fuel Hfuel;
    (destruct fuel as [|fuel]; [simpl in *; lia|]); cbn [collect].
  - apply Forall2_nil_inv_l in Hrecs. unfold next_record.
    assert (entries !! idx = None) as He.
    { apply lookup_ge_None. apply (f_equal length) in Hrecs. rewrite length_drop in Hrecs. simpl in Hrecs. lia. }
    cbn [rp_snapshot_checked rp_segments rp_entries rp_entry_index].
    rewrite verify_live_snapshot_ok, He. by destruct checked.
  - apply Forall2_cons_inv_l in Hrecs as (e & es & Hpe & Hes & Hdrop).
    assert (entries !! idx = Some e) as He.
    { rewrite <-(Nat.add_0_r idx), <-lookup_drop, Hdrop. done. }
    destruct (next_record_step idx file checked pr e) as (file' & Hfile' & ->); [done..|].
    cbn [mbind outcome_bind]. rewrite IH; [done|done| |simpl in Hfuel; lia].
    replace (drop (S idx) entries) with es; [done|].
    rewrite <-Nat.add_1_r, <-drop_drop, Hdrop. done.
Qed.
End second_pass.

(** ** Refinement *)
Lemma live_log_elem committed l pr :
  pr ∈ live_log committed l → pr ∈ l ∧ op (header pr.2) = Append.
Proof.
  induction l as [|[p r] l IH]; simpl; [by intros ?%not_elem_of_nil|].
  destruct (candidate committed r) eqn:Hc; simpl; [destruct (existsb _ l); simpl|].
  2: intros [->|Hin]%elem_of_cons; [split; [by left|by eapply candidate_append]|].
  all: intros; destruct IH; [done|]; split; [by right|done].
Qed.

Lemma survives_entry committed l st pr e :
  prep_inv committed l st → entry_for (ps_tables st) pr e →
  survives (ps_tables st) (ps_tombstones st) e = survives_log l pr.
Proof.
  intros [_ _ Ht] (Hp & _ & _ & Hk). unfold survives, survives_log. rewrite Hk, Ht, Hp. done.
Qed.

Lemma entry_leb_log tables x e x' e' :
  entry_for tables x e → entry_for tables x' e' → log_leb x x' = entry_leb e e'.
Proof.
  intros (Hp & Hg & Hb & _) (Hp' & Hg' & Hb' & _). unfold entry_leb, log_leb.
  by rewrite Hp, Hp', Hg, Hg', Hb, Hb'.
Qed.

(** The plan of the first pass: its entries are the records of the replay, in order. *)
Lemma prepare_plan rename_ok committed mode root :
  dir_ok root →
  (Forall (λ p, seg_corrupt root p = false) (segment_paths root) ∨
   mode = ModeSalvage ∧ ∀ p, rename_ok p = true) →
  ∃ segs entries tables prs,
    prepare rename_ok committed mode root =
      Returns (quarantine_all root, mkReplayPlan segs entries tables 0 None false) ∧
    Forall2 (snapshot_for root) (segment_paths root) segs ∧ Forall2 (entry_for tables) prs entries ∧
    Forall (λ pr, pr ∈ wal_log root ∧ op (header pr.2) = Append) prs ∧ prs.*2 = replay_spec committed root.
Proof.
  intros Hok Hmode. unfold prepare.
  destruct (prepare_segments_spec rename_ok committed mode root 0 (segment_paths root) root
              init_prep [] Hok (pending_ok_paths root) Hmode) as (segs & Hsegs & Hprep).
  fold init_prep. rewrite Hprep. cbn [mbind outcome_bind rp_entries app].
  fold (wal_log root) (quarantine_all root).
  pose proof (prep_inv_foldl committed (wal_log root)) as Hinv. set (st := foldl _ _ _) in *.
  do 3 eexists. exists (stable_sort log_leb (live_log committed (wal_log root))). split_and!; [done|done| | |done].
  - apply stable_sort_Forall2; [intros ????; apply entry_leb_log|].
    rewrite <-(survives_live_app committed [] (wal_log root)) by apply log_from_sorted.
    apply Forall2_filter; [|apply pi_entries, Hinv]. intros pr e Hpe.
    by rewrite (survives_entry _ _ _ _ _ Hinv Hpe).
  - apply Forall_forall. intros pr Hpr. rewrite stable_sort_perm in Hpr. by eapply live_log_elem.
Qed.

Lemma replay_all_spec rename_ok committed mode root :
  dir_ok root →
  (Forall (λ p, seg_corrupt root p = false) (segment_paths root) ∨
   mode = ModeSalvage ∧ ∀ p, rename_ok p = true) →
  replay_all rename_ok committed mode root =
    Returns (quarantine_all root, replay_spec committed root).
Proof.
  intros Hok Hmode. unfold replay_all.
  destruct (prepare_plan rename_ok committed mode root Hok Hmode)
    as (segs & entries & tables & prs & -> & Hsegs & Hent & Hall & <-).
  cbn [mbind outcome_bind rp_entries]. erewrite collect_entries; [done|done|done|by rewrite drop_0|done|].
  rewrite (Forall2_length _ _ _ Hent). lia.
Qed.

Lemma quarantine_all_clean root :
  Forall (λ p, seg_corrupt root p = false) (segment_paths root) → quarantine_all root = root.
Proof.
  unfold quarantine_all. induction (segment_paths root) as [|p paths IH]; [done|].
  intros [Hp Hall]%Forall_cons. simpl. unfold quarantine_step at 2. rewrite Hp. auto.
Qed.

Lemma replay_all_fail rename_ok committed root :
  dir_ok root → Exists (λ p, seg_corrupt root p = true) (segment_paths root) →
  replay_all rename_ok committed ModeFail root = Raises corrupt_error.
Proof.
  intros Hok Hex. unfold replay_all, prepare.
  rewrite prepare_segments_corrupt; [done|done|apply pending_ok_paths|done].
Qed.

Lemma live_log_split committed l pr :
  pr ∈ live_log committed l ↔
  ∃ l1 l2, l = l1 ++ pr :: l2 ∧ candidate committed pr.2 = true ∧
    Forall (λ e, drops (h_table (header pr.2)) e.2 = false) l2.
Proof.
  assert (∀ t k, existsb (λ e : FramePosition * WalRecord, drops t e.2) k = false ↔
            Forall (λ e, drops t e.2 = false) k) as Hex.
  { intros t k. induction k as [|e k IH]; simpl; [done|].
    rewrite orb_false_iff, Forall_cons, IH. done. }
  induction l as [|[p r] l IH]; simpl.
  { split; [by intros ?%not_elem_of_nil|]. by intros ([] & ? & ? & _). }
  destruct (candidate committed r && _) eqn:Hc.
  - rewrite elem_of_cons, IH. apply andb_true_iff in Hc as [Hc He%negb_true_iff%Hex]. split.
    + intros [->|(l1 & l2 & -> & ?)]; [by exists [], l|by exists ((p, r) :: l1), l2].
    + intros (l1 & l2 & Hl & Hpr). destruct l1 as [|e l1]; simplify_eq/=; [by left|].
      right. by exists l1, l2.
  - rewrite IH. split.
    + intros (l1 & l2 & -> & ?). by exists ((p, r) :: l1), l2.
    + intros (l1 & l2 & Hl & Hcand & Hall). destruct l1 as [|e l1]; simplify_eq/=; [|by exists l1, l2].
      apply Hex in Hall. by rewrite Hcand, Hall in Hc.
Qed.

Lemma log_leb_generation a b :
  log_leb a b = true → (generation (header a.2) ≤ generation (header b.2))%N.
Proof.
  unfold log_leb. destruct (N.compare_spec (generation (header a.2)) (generation (header b.2)));
    done || lia.
Qed.

Lemma log_leb_total a b : log_leb a b = true ∨ log_leb b a = true.
Proof.
  unfold log_leb. rewrite (N.compare_antisym (generation (header a.2))), (N.compare_antisym (batch_id (header a.2))).
  destruct (_ ?= _)%N; simpl; auto. destruct (_ ?= _)%N; simpl; auto.
  destruct (position_lt a.1 b.1) eqn:Hab; auto. left.
  apply negb_true_iff, not_true_is_false. intros Hba.
  rewrite position_lt_spec in Hba. apply position_lt_spec in Hab. lia.
Qed.

Lemma log_leb_trans a b c : log_leb a b = true → log_leb b c = true → log_leb a c = true.
Proof.
  unfold log_leb. intros H1 H2.
  destruct (N.compare_spec (generation (header a.2)) (generation (header b.2))) as [E1|E1|E1]; [..|done];
  destruct (N.compare_spec (generation (header b.2)) (generation (header c.2))) as [E2|E2|E2]; try done;
  destruct (N.compare_spec (generation (header a.2)) (generation (header c.2))) as [E3|E3|E3]; try done; try lia.
  destruct (N.compare_spec (batch_id (header a.2)) (batch_id (header b.2))) as [F1|F1|F1]; [..|done];
  destruct (N.compare_spec (batch_id (header b.2)) (batch_id (header c.2))) as [F2|F2|F2]; try done;
  destruct (N.compare_spec (batch_id (header a.2)) (batch_id (header c.2))) as [F3|F3|F3]; try done; try lia.
  apply negb_true_iff in H1, H2. apply negb_true_iff.
  apply not_true_is_false. apply not_true_iff_false in H1, H2.
  rewrite position_lt_spec in *. lia.
Qed.

Lemma log_sorted_generation l :
  StronglySorted (λ a b, (generation (header a) ≤ generation (header b))%N)
    (stable_sort log_leb l).*2.
Proof.
  pose proof (stable_sort_sorted log_leb log_leb_total log_leb_trans l) as Hs.
  induction Hs as [|x k Hk IH Hx]; [constructor|]. rewrite fmap_cons. constructor; [done|].
  apply Forall_fmap. eapply Forall_impl; [exact Hx|]. intros; by apply log_leb_generation.
Qed.
End log.

(** ** Main theorems *)
Definition demo_tombstone : @WalRecord demo_wal_codec :=
  @drop_tombstone demo_wal_codec 900 0 (mkTableIdent "analytics" "old").
Definition demo_root : WalDir :=
  {[ "0001.wal" := mkSegFile (demo_frame (demo_append 2) ++ demo_frame demo_tombstone) None;
     "0002.wal" := mkSegFile (demo_frame (demo_append 1) ++ [x00; x00; x00]) (Some 7%N);
     "writer.lock" := mkSegFile [] None ]}.

Lemma demo_root_ok : dir_ok demo_root.
Proof.
  intros p f Hf. unfold demo_root in Hf.
  repeat (apply lookup_insert_Some in Hf as [[<- <-]|[_ Hf]]; [apply N.leb_le; vm_compute; reflexivity|]).
  apply lookup_singleton_Some in Hf as [<- <-]. done.
Qed.

(** C2.  Replay refines the log semantics: on a directory that nobody else changes,
    preparing a plan and draining it terminates; in salvage mode it returns exactly the
    live records of the log in canonical order and leaves each corrupt segment renamed
    away; in fail mode it returns the same records and leaves the directory alone when
    every segment is readable, and refuses to replay anything when one is corrupt. *)
Theorem replay_exact `{WalCodec} (rename_ok : string → bool)
    (committed : gmap WalTableKey Generation) (root : WalDir)
    (Hok : dir_ok root) (Hren : ∀ p, rename_ok p = true) :
  replay_all rename_ok committed ModeSalvage root =
    Returns (quarantine_all root, replay_spec committed root) ∧
  replay_all rename_ok committed ModeFail root =
    (if existsb (seg_corrupt root) (segment_paths root) then Raises corrupt_error
     else Returns (root, replay_spec committed root)).
Proof.
  split; [by apply replay_all_spec; auto|].
  destruct (existsb _ _) eqn:Hex.
  - apply replay_all_fail; [done|]. apply Exists_exists.
    apply existsb_exists in Hex as (p & Hp & Hc). exists p. by rewrite list_elem_of_In.
  - assert (Forall (λ p, seg_corrupt root p = false) (segment_paths root)) as Hall.
    { apply Forall_forall. intros p Hp. apply not_true_is_false. intros Hc.
      enough (existsb (seg_corrupt root) (segment_paths root) = true) by congruence.
      apply existsb_exists. exists p. by rewrite <-list_elem_of_In. }
    rewrite replay_all_spec by auto. by rewrite quarantine_all_clean.
Qed.

Lemma replay_exact_witness :
  @replay_all demo_wal_codec (λ _, true) ∅ ModeFail demo_root =
    Returns (demo_root, [demo_append 1; demo_append 2]).
Proof.
  rewrite (proj2 (@replay_exact demo_wal_codec (λ _, true) ∅ demo_root demo_root_ok (λ _, eq_refl))).
  vm_compute. reflexivity.
Defined.

(** What a completed replay returned: a record is in the result iff the log has it
    as an append that is above its table's committed generation and that no later drop
    tombstone names, and the result is in increasing generation order. *)
Theorem replay_live_iff `{WalCodec} (rename_ok : string → bool)
    (committed : gmap WalTableKey Generation) (mode : WalRecoveryMode) (root root' : WalDir)
    (rs : list WalRecord) (Hok : dir_ok root) (Hren : ∀ p, rename_ok p = true)
    (Hrs : replay_all rename_ok committed mode root = Returns (root', rs)) :
  StronglySorted (λ a b, (generation (header a) ≤ generation (header b))%N) rs ∧
  ∀ r, r ∈ rs ↔ ∃ l1 p l2, wal_log root = l1 ++ (p, r) :: l2 ∧
    op (header r) = Append ∧ is_committed committed r = false ∧
    ∀ p' r', (p', r') ∈ l2 → op (header r') = DropTable → h_table (header r') ≠ h_table (header r).
Proof.
  assert (rs = replay_spec committed root) as ->.
  { destruct mode; [destruct (decide (Exists (λ p, seg_corrupt root p = true) (segment_paths root))) as [Hex|Hex]|].
    - by rewrite replay_all_fail in Hrs.
    - rewrite replay_all_spec in Hrs; [congruence|done|]. left. apply Forall_forall. intros p Hp.
      apply not_true_is_false. intros Hc. apply Hex, Exists_exists. eauto.
    - rewrite replay_all_spec in Hrs by auto. congruence. }
  unfold replay_spec. split.
  - apply log_sorted_generation.
  - intros r. rewrite list_elem_of_fmap. split.
    + intros ([p r'] & -> & Hin). rewrite stable_sort_perm in Hin. apply live_log_split in Hin
        as (l1 & l2 & Hl & Hc & Hall). simpl in *. exists l1, p, l2. unfold candidate in Hc.
      apply andb_true_iff in Hc as [Hop%bool_decide_eq_true Hc%negb_true_iff].
      split_and!; try done. intros p' r'' Hin Hd Ht. rewrite Forall_forall in Hall.
      specialize (Hall _ Hin). apply bool_decide_eq_false in Hall. by apply Hall.
    + intros (l1 & p & l2 & Hl & Hop & Hc & Hnd). exists (p, r). split; [done|].
      rewrite stable_sort_perm. apply live_log_split. exists l1, l2. split; [done|]. split.
      * unfold candidate. simpl. by rewrite bool_decide_true, Hc.
      * apply Forall_forall. intros [p' r'] Hin. apply bool_decide_eq_false. intros [??].
        by eapply Hnd.
Qed.

Lemma replay_live_iff_witness :
  StronglySorted (λ a b, (generation (@header demo_wal_codec a) ≤ generation (@header demo_wal_codec b))%N)
    [demo_append 1; demo_append 2].
Proof.
  refine (proj1 (@replay_live_iff demo_wal_codec (λ _, true) ∅ ModeFail demo_root demo_root
            [demo_append 1; demo_append 2] demo_root_ok (λ _, eq_refl) _)).
  vm_compute. reflexivity.
Defined.
