(* ===== verification/WalState.v ===== *)
(** * WAL directory state: segment names and the committed checkpoint

    Models [teodb-storage/src/wal/state.rs] (sequence numbers in segment names,
    the committed-generation checkpoint file) and the segment name format of
    [writer.rs].  The JSON text of the checkpoint file is a codec on its
    version and entries. *)

From S2P Require Import Prelude Core Decimal WriteProtocol WalFrame WalReplay.
Open Scope nat_scope.
Open Scope list_scope.

(** ** Decimal segment names *)
(** [{:0k}] of a number with at most [k] digits. *)
Fixpoint dec_fixed (k : nat) (n : N) : string :=
  match k with
  | O => EmptyString
  | S k => String (digit_char (n / 10 ^ N.of_nat k)) (dec_fixed k (n mod 10 ^ N.of_nat k))
  end.

Definition segment_name (seq : N) : string := dec_fixed 20 seq +:+ ".wal".

Definition parse_seq (filename : string) : option N :=
  str_strip_suffix ".wal" filename ≫= parse_u64.

(** The next sequence number of a fresh writer. *)
Definition scan_next_seq (root : WalDir) : N :=
  (foldr N.max 0 (omap parse_seq (map_to_list root).*1) + 1)%N.

(** ** The committed checkpoint file *)
Record CommittedEntry := mkCommittedEntry {
  ce_namespace : string; ce_name : string; ce_table_uuid : Uuid; ce_generation : Generation }.

Definition COMMITTED_CHECKPOINT_FILE : string := "committed.json".
Definition CHECKPOINT_VERSION : N := 1.

Class CommittedJson := {
  committed_to_json : N → list CommittedEntry → list byte;
  committed_from_json : list byte → option (N * list CommittedEntry);
}.
Class CommittedJsonLaws `{CommittedJson} : Prop := {
  committed_from_to_json v es : committed_from_json (committed_to_json v es) = Some (v, es);
}.

Section committed.
Context `{CommittedJson}.

Definition load_entry (committed : gmap WalTableKey Generation) (entry : CommittedEntry) :
    TeoDBResult (gmap WalTableKey Generation) :=
  if uuid_is_nil (ce_table_uuid entry) then
    Err (wal "committed checkpoint contains a nil table UUID")
  else if str_is_empty (ce_namespace entry) || str_is_empty (ce_name entry) then
    Err (wal "committed checkpoint contains an empty table identifier")
  else
    let key := mkWalTableKey (ce_table_uuid entry)
                 (mkTableIdent (ce_namespace entry) (ce_name entry)) in
    match committed !! key with
    | Some _ => Err (wal "committed checkpoint contains a duplicate table incarnation")
    | None => Ok (<[key := ce_generation entry]> committed)
    end.

Definition load_committed_checkpoint (root : WalDir) : TeoDBResult (gmap WalTableKey Generation) :=
  match root !! COMMITTED_CHECKPOINT_FILE with
  | None => Ok ∅
  | Some f =>
      '(version, entries) ← ok_or (committed_from_json (f_bytes f))
        (wal_source "committed checkpoint is corrupt" "{error}");
      if negb (version =? CHECKPOINT_VERSION)%N then
        Err (wal "unsupported committed checkpoint version {}")
      else foldM load_entry ∅ entries
  end.

(** Order of the entries: namespace, name, UUID bytes (big endian, so numeric). *)
Definition entry_key_leb (a b : CommittedEntry) : bool :=
  match String.compare (ce_namespace a) (ce_namespace b) with
  | Eq => match String.compare (ce_name a) (ce_name b) with
          | Eq => (ce_table_uuid a <=? ce_table_uuid b)%N
          | Lt => true
          | Gt => false
          end
  | Lt => true
  | Gt => false
  end.

Definition committed_entries (committed : gmap WalTableKey Generation) : list CommittedEntry :=
  stable_sort entry_key_leb
    ((λ '(key, g), mkCommittedEntry (ti_namespace (wk_ident key)) (ti_name (wk_ident key))
                     (wk_table_uuid key) g) <$> map_to_list committed).

(** The I/O steps of [persist_committed_checkpoint], in order. *)
Inductive PersistStep := WriteTmp | OpenTmp | SyncTmp | RenameTmp | OpenDir | SyncDir.
#[export] Instance PersistStep_eq_dec : EqDecision PersistStep.
Proof. solve_decision. Defined.

Definition COMMITTED_TMP_FILE : string := "committed.json.tmp".

(** [fails s]: the system call of step [s] fails; a failed write may leave any
    bytes in the temporary file. *)
Definition persist_committed_checkpoint (fails : PersistStep → bool) (torn : list byte)
    (root : WalDir) (committed : gmap WalTableKey Generation) : WalDir * TeoDBResult unit :=
  let json := committed_to_json CHECKPOINT_VERSION (committed_entries committed) in
  if fails WriteTmp then
    (<[COMMITTED_TMP_FILE := mkSegFile torn None]> root, Err (wal_source "write checkpoint: {e}" "{e}"))
  else
    let root1 := <[COMMITTED_TMP_FILE := mkSegFile json None]> root in
    if fails OpenTmp then (root1, Err (wal_source "open checkpoint for fsync: {e}" "{e}"))
    else if fails SyncTmp then (root1, Err (wal_source "fsync checkpoint: {e}" "{e}"))
    else if fails RenameTmp then (root1, Err (wal_source "rename checkpoint: {e}" "{e}"))
    else
      let root2 := rename_file root1 COMMITTED_TMP_FILE COMMITTED_CHECKPOINT_FILE in
      if fails OpenDir then (root2, Err (wal_source "open WAL root for checkpoint fsync" "{e}"))
      else if fails SyncDir then
        (root2, Err (wal_source "fsync WAL root after checkpoint rename" "{e}"))
      else (root2, Ok tt).
End committed.

(** ** Names round-trip and sort like numbers *)
Lemma pow10_pos k : (0 < 10 ^ N.of_nat k)%N.
Proof. apply N.neq_0_lt_0, N.pow_nonzero. done. Qed.

Lemma dec_fixed_step k n :
  (n < 10 ^ N.of_nat (S k))%N →
  (n / 10 ^ N.of_nat k < 10)%N ∧ (n mod 10 ^ N.of_nat k < 10 ^ N.of_nat k)%N ∧
  n = (n / 10 ^ N.of_nat k * 10 ^ N.of_nat k + n mod 10 ^ N.of_nat k)%N.
Proof.
  rewrite Nat2N.inj_succ, N.pow_succ_r'. intros Hn. pose proof (pow10_pos k).
  split_and!.
  - apply N.Div0.div_lt_upper_bound. lia.
  - apply N.mod_lt. lia.
  - pose proof (N.div_mod' n (10 ^ N.of_nat k)). lia.
Qed.

Lemma parse_digits_dec k acc n :
  (n < 10 ^ N.of_nat k)%N → (acc * 10 ^ N.of_nat k + n ≤ u64_max)%N →
  parse_digits u64_max acc (dec_fixed k n) = Some (acc * 10 ^ N.of_nat k + n)%N.
Proof.
  revert acc n. induction k as [|k IH]; intros acc n Hn Hmax.
  { simpl in *. f_equal. lia. }
  destruct (dec_fixed_step k n Hn) as (Hq & Hr & Hn'). cbn [dec_fixed parse_digits].
  rewrite digit_value_char by done. cbn [mbind option_bind].
  set (q := (n / 10 ^ N.of_nat k)%N) in *. set (r := (n mod 10 ^ N.of_nat k)%N) in *.
  rewrite Nat2N.inj_succ, N.pow_succ_r' in Hmax |- *. pose proof (pow10_pos k).
  rewrite (proj2 (N.leb_le _ _)) by nia.
  rewrite IH by nia. f_equal. nia.
Qed.

Lemma compare_lex q1 r1 q2 r2 m :
  (r1 < m)%N → (r2 < m)%N →
  ((q1 * m + r1) ?= (q2 * m + r2))%N = match (q1 ?= q2)%N with Eq => (r1 ?= r2)%N | c => c end.
Proof.
  intros H1 H2. destruct (N.compare_spec q1 q2) as [->|Hq|Hq].
  - destruct (N.compare_spec r1 r2); [apply N.compare_eq_iff|apply N.compare_lt_iff|apply N.compare_gt_iff]; lia.
  - apply N.compare_lt_iff. nia.
  - apply N.compare_gt_iff. nia.
Qed.

Lemma digit_char_compare a b :
  (a < 10)%N → (b < 10)%N → Ascii.compare (digit_char a) (digit_char b) = (a ?= b)%N.
Proof.
  intros Ha Hb. unfold Ascii.compare, digit_char. rewrite !N_ascii_embedding by lia.
  destruct (N.compare_spec a b); [apply N.compare_eq_iff|apply N.compare_lt_iff|apply N.compare_gt_iff]; lia.
Qed.

Lemma str_compare_refl s : String.compare s s = Eq.
Proof. induction s as [|a s IH]; [done|]. simpl. unfold Ascii.compare. by rewrite N.compare_refl. Qed.

Lemma dec_fixed_compare k a b s :
  (a < 10 ^ N.of_nat k)%N → (b < 10 ^ N.of_nat k)%N →
  String.compare (dec_fixed k a +:+ s) (dec_fixed k b +:+ s) = (a ?= b)%N.
Proof.
  revert a b. induction k as [|k IH]; intros a b Ha Hb.
  { simpl in Ha, Hb. assert (a = 0 ∧ b = 0)%N as [-> ->] by lia. rewrite !str_app_nil. apply str_compare_refl. }
  destruct (dec_fixed_step k a Ha) as (Hqa & Hra & Ha').
  destruct (dec_fixed_step k b Hb) as (Hqb & Hrb & Hb').
  cbn [dec_fixed]. rewrite !str_app_cons. cbn [String.compare].
  rewrite digit_char_compare, IH by done. rewrite Ha', Hb' at 3. by rewrite compare_lex.
Qed.

Lemma u64_lt_pow20 n : (n ≤ u64_max)%N → (n < 10 ^ N.of_nat 20)%N.
Proof. intros. eapply N.le_lt_trans; [done|]. by vm_compute. Qed.

Lemma segment_name_leb a b :
  (a ≤ u64_max)%N → (b ≤ u64_max)%N →
  str_leb (segment_name a) (segment_name b) = (a <=? b)%N.
Proof.
  intros Ha Hb. unfold str_leb, String.le, String.leb, segment_name.
  rewrite dec_fixed_compare by (by apply u64_lt_pow20). unfold N.leb.
  by destruct (a ?= b)%N.
Qed.

Lemma parse_u64_dec k n :
  (n < 10 ^ N.of_nat (S k))%N → (n ≤ u64_max)%N → parse_u64 (dec_fixed (S k) n) = Some n.
Proof.
  intros Hlt Hn. pose proof (parse_digits_dec (S k) 0 n Hlt ltac:(lia)) as Hp.
  destruct (dec_fixed_step k n Hlt) as (Hq & _ & _).
  unfold parse_u64, parse_magnitude. replace (str_strip_prefix "+" (dec_fixed (S k) n)) with (@None string).
  - cbn [default]. cbn [dec_fixed str_is_empty] in *. rewrite Hp. f_equal; lia.
  - cbn [dec_fixed str_strip_prefix]. rewrite decide_False; [done|].
    intros Heq. by apply (digit_char_neq _ "+" Hq); [left; vm_compute; reflexivity|].
Qed.

Lemma parse_seq_name n : (n ≤ u64_max)%N → parse_seq (segment_name n) = Some n.
Proof.
  intros Hn. unfold parse_seq, segment_name. rewrite str_strip_suffix_app.
  apply (parse_u64_dec 19); [by apply u64_lt_pow20|done].
Qed.

Lemma segment_name_wal n : str_ends_with ".wal" (segment_name n) = true.
Proof. unfold str_ends_with, segment_name. by rewrite str_strip_suffix_app. Qed.

Lemma foldr_max_elem x l : x ∈ l → (x ≤ foldr N.max 0 l)%N.
Proof.
  induction l as [|y l IH]; [by intros ?%not_elem_of_nil|].
  intros [->|?%IH]%elem_of_cons; simpl; lia.
Qed.

(** A sequence number found in a listing is below the next one. *)
Lemma scan_next_seq_above root name f seq :
  root !! name = Some f → parse_seq name = Some seq → (seq < scan_next_seq root)%N.
Proof.
  intros Hf Hs. unfold scan_next_seq.
  assert (seq ∈ omap parse_seq (map_to_list root).*1) as Hin%foldr_max_elem; [|lia].
  apply list_elem_of_omap. exists name. split; [|done].
  apply list_elem_of_fmap. exists (name, f). split; [done|]. by apply elem_of_map_to_list.
Qed.

(** ** The checkpoint file *)
Section committed_laws.
Context `{CommittedJsonLaws}.

(** Keys the loader accepts. *)
Definition committed_valid (committed : gmap WalTableKey Generation) : Prop :=
  ∀ k g, committed !! k = Some g →
    wk_table_uuid k ≠ 0%N ∧ ti_namespace (wk_ident k) ≠ "" ∧ ti_name (wk_ident k) ≠ "".

Definition entry_of (kg : WalTableKey * Generation) : CommittedEntry :=
  mkCommittedEntry (ti_namespace (wk_ident kg.1)) (ti_name (wk_ident kg.1))
    (wk_table_uuid kg.1) kg.2.

Lemma load_entry_Ok m k g :
  wk_table_uuid k ≠ 0%N → ti_namespace (wk_ident k) ≠ "" → ti_name (wk_ident k) ≠ "" →
  m !! k = None → load_entry m (entry_of (k, g)) = Ok (<[k := g]> m).
Proof.
  destruct k as [u [ns n]]. simpl. intros Hu Hns Hn Hm.
  unfold load_entry, entry_of, uuid_is_nil. simpl.
  rewrite (proj2 (N.eqb_neq u 0) Hu). destruct ns, n; try done. simpl. by rewrite Hm.
Qed.

Lemma foldM_load_entries l m :
  NoDup l.*1 →
  (∀ k g, (k, g) ∈ l → wk_table_uuid k ≠ 0%N ∧ ti_namespace (wk_ident k) ≠ "" ∧
     ti_name (wk_ident k) ≠ "" ∧ m !! k = None) →
  foldM load_entry m (entry_of <$> l) = Ok (list_to_map l ∪ m).
Proof.
  revert m. induction l as [|[k g] l IH]; intros m Hnd Hl; simpl.
  { by rewrite (left_id_L ∅ (∪)). }
  apply NoDup_cons in Hnd as [Hk Hnd].
  destruct (Hl k g) as (? & ? & ? & Hm); [by left|].
  rewrite load_entry_Ok by done. simpl. rewrite IH; [|done|].
  - f_equal. rewrite <-insert_union_l, <-insert_union_r; [done|]. by apply not_elem_of_list_to_map_1.
  - intros k' g' Hin. destruct (Hl k' g') as (? & ? & ? & ?); [by right|]. split_and!; try done.
    rewrite lookup_insert_ne; [done|]. intros ->. apply Hk.
    apply list_elem_of_fmap. by exists (k', g').
Qed.

Lemma load_committed_entries committed :
  committed_valid committed → foldM load_entry ∅ (committed_entries committed) = Ok committed.
Proof.
  intros Hv. unfold committed_entries.
  assert (((λ '(key, g), mkCommittedEntry (ti_namespace (wk_ident key)) (ti_name (wk_ident key))
            (wk_table_uuid key) g) <$> map_to_list committed) = entry_of <$> map_to_list committed) as ->.
  { apply list_fmap_ext. by intros ? [] _. }
  destruct (Permutation_map_inv _ _ (stable_sort_perm entry_key_leb (entry_of <$> map_to_list committed)))
    as (l & Heq & Hl).
  replace (stable_sort _ _) with (map entry_of l) by (symmetry; exact Heq).
  change (map entry_of l) with (entry_of <$> l). rewrite foldM_load_entries.
  - rewrite (right_id_L ∅ (∪)). f_equal.
    etrans; [|apply list_to_map_to_list]. symmetry.
    apply list_to_map_proper; [apply NoDup_fst_map_to_list|done].
  - rewrite <-Hl. apply NoDup_fst_map_to_list.
  - intros k g Hin. rewrite <-Hl in Hin. apply elem_of_map_to_list in Hin.
    destruct (Hv k g Hin) as (? & ? & ?). by split_and!.
Qed.
End committed_laws.

(** A concrete codec for the checkpoint file. *)
Definition demo_entry_fields (e : CommittedEntry) : list N :=
  [N_of_string (ce_namespace e); N_of_string (ce_name e); ce_table_uuid e; ce_generation e].
Fixpoint demo_fields_entries (l : list N) : option (list CommittedEntry) :=
  match l with
  | [] => Some []
  | a :: b :: u :: g :: l =>
      es ← demo_fields_entries l; Some (mkCommittedEntry (string_of_N a) (string_of_N b) u g :: es)
  | _ => None
  end.
Definition demo_committed_json : CommittedJson := {|
  committed_to_json v es := demo_text_bytes (fields_text (v :: concat (demo_entry_fields <$> es)));
  committed_from_json bs :=
    l ← fields_parse (demo_bytes_text bs);
    match l with
    | [] => None
    | v :: l => es ← demo_fields_entries l; Some (v, es)
    end |}.

Lemma demo_committed_json_laws : @CommittedJsonLaws demo_committed_json.
Proof.
  constructor. intros v es. unfold committed_from_json, committed_to_json, demo_committed_json.
  rewrite demo_bytes_text_bytes, fields_parse_text. cbn [mbind option_bind].
  assert (demo_fields_entries (concat (demo_entry_fields <$> es)) = Some es) as ->; [|done].
  induction es as [|[ns n u g] es IH]; [done|]. rewrite fmap_cons. cbn [concat demo_entry_fields app].
  cbn [demo_fields_entries ce_namespace ce_name ce_table_uuid ce_generation].
  rewrite IH. cbn [mbind option_bind]. by rewrite !string_of_N_of_string.
Qed.

Definition demo_committed : gmap WalTableKey Generation :=
  {[ mkWalTableKey 5 demo_table := 17%N; mkWalTableKey 6 demo_table := 2%N ]}.

(** The committed checkpoint is replaced atomically: whichever system call fails,
    and whatever a failed write leaves behind, loading afterwards gives either what
    loading gave before or the new map; after a success it gives the new map. *)
Theorem committed_checkpoint_atomic `{CommittedJsonLaws} (fails : PersistStep → bool)
    (torn : list byte) (root root' : WalDir) (committed : gmap WalTableKey Generation)
    (res : TeoDBResult unit)
    (Hvalid : ∀ k g, committed !! k = Some g →
       wk_table_uuid k ≠ 0%N ∧ ti_namespace (wk_ident k) ≠ "" ∧ ti_name (wk_ident k) ≠ "")
    (Hrun : persist_committed_checkpoint fails torn root committed = (root', res)) :
  (res = Ok tt → load_committed_checkpoint root' = Ok committed) ∧
  (load_committed_checkpoint root' = load_committed_checkpoint root ∨
   load_committed_checkpoint root' = Ok committed).
Proof.
  assert (∀ m f, load_committed_checkpoint (<[COMMITTED_TMP_FILE := f]> m) = load_committed_checkpoint m) as Htmp.
  { intros m f. unfold load_committed_checkpoint. by rewrite lookup_insert_ne. }
  set (json := committed_to_json CHECKPOINT_VERSION (committed_entries committed)).
  assert (load_committed_checkpoint (rename_file (<[COMMITTED_TMP_FILE := mkSegFile json None]> root)
            COMMITTED_TMP_FILE COMMITTED_CHECKPOINT_FILE) = Ok committed) as Hnew.
  { unfold load_committed_checkpoint, rename_file. rewrite lookup_insert_eq, lookup_insert_eq.
    cbn [f_bytes]. unfold json. rewrite committed_from_to_json. simpl.
    by apply load_committed_entries. }
  unfold persist_committed_checkpoint in Hrun. fold json in Hrun.
  repeat case_match; injection Hrun as <- <-; rewrite ?Htmp, ?Hnew; auto; split; auto; done.
Qed.

Lemma committed_checkpoint_atomic_witness :
  @load_committed_checkpoint demo_committed_json
    (@persist_committed_checkpoint demo_committed_json (λ _, false) [] ∅ demo_committed).1
  = Ok demo_committed.
Proof.
  refine (proj1 (@committed_checkpoint_atomic demo_committed_json demo_committed_json_laws
            (λ _, false) [] ∅ _ demo_committed _ _ eq_refl) eq_refl).
  unfold demo_committed. intros k g [[<- <-]|[_ [<- <-]%lookup_singleton_Some]]%lookup_insert_Some; done.
Defined.

(**  Segment names: a name printed for a sequence number parses back to it, names
    sort like their numbers (so replay order is sequence order), and the number a fresh
    writer starts from, and every larger one, names no file already in the directory. *)
Theorem segment_names_sound (root : WalDir) (a b : N) (Ha : (a ≤ u64_max)%N) (Hb : (b ≤ u64_max)%N) :
  parse_seq (segment_name a) = Some a ∧
  str_leb (segment_name a) (segment_name b) = (a <=? b)%N ∧
  ((scan_next_seq root ≤ a)%N → root !! segment_name a = None).
Proof.
  split_and!; [by apply parse_seq_name|by apply segment_name_leb|].
  intros Hnext. destruct (root !! segment_name a) as [f|] eqn:Hf; [|done].
  pose proof (scan_next_seq_above root _ f a Hf (parse_seq_name a Ha)). lia.
Qed.

Lemma segment_names_sound_witness :
  parse_seq (segment_name 42) = Some 42%N ∧
  str_leb (segment_name 42) (segment_name 7) = (42 <=? 7)%N ∧
  ((scan_next_seq {[ segment_name 41 := mkSegFile [] None ]} ≤ 42)%N →
   ({[ segment_name 41 := mkSegFile [] None ]} : WalDir) !! segment_name 42 = None).
Proof. apply segment_names_sound; unfold u64_max; lia. Defined.
