(* ===== verification/WalGc.v ===== *)
(** * WAL garbage collection

    Models [teodb-storage/src/wal/gc.rs]: the choice of candidate segments, the
    readable prefix, the marking of frames voided by a later tombstone and the
    deletion pass; and proves that a pass never changes what a replay returns. *)

From S2P Require Import Prelude Core WriteProtocol WalFrame WalReplay WalReplaySpec WalState.
Open Scope nat_scope.
Open Scope list_scope.

Record ScannedSegment := mkScannedSegment {
  sg_path : string; sg_scan : SegmentScan; sg_voided : list bool }.

(** The published [current_seq] is the open segment's number plus one, or zero. *)
Definition open_seq (current_seq : N) : option N :=
  if (current_seq =? 0)%N then None else Some (current_seq - 1)%N.

Definition seq_leb (a b : N * string) : bool := (a.1 <=? b.1)%N.

Definition candidate_segments (current_seq : N) (root : WalDir) : list (N * string) :=
  stable_sort seq_leb
    (omap (λ name, match parse_seq name with
                   | Some sequence =>
                       if decide (open_seq current_seq = Some sequence) then None
                       else Some (sequence, name)
                   | None => None
                   end) (map_to_list root).*1).

Section gc.
Context `{WalCodec}.

(** [read_ok]: whether reading the file succeeds; the scan stops at the first
    failure. *)
Fixpoint scan_readable_prefix (read_ok : string → bool) (root : WalDir)
    (candidates : list (N * string)) : list ScannedSegment :=
  match candidates with
  | [] => []
  | (_, path) :: candidates =>
      match scan_segment (if read_ok path then f_bytes <$> root !! path else None) with
      | Some (Ok scan) =>
          mkScannedSegment path scan (replicate (length (scan_frames scan)) false)
            :: scan_readable_prefix read_ok root candidates
      | _ => []
      end
  end.

(** The reverse sweep over the frames of one segment. *)
Fixpoint mark_frames (frames : list ScanFrame) (tombstoned : gset TableIdent) :
    list bool * gset TableIdent :=
  match frames with
  | [] => ([], tombstoned)
  | frame :: frames =>
      let '(voided, tombstoned) := mark_frames frames tombstoned in
      match frame with
      | ScanAppend key _ => (bool_decide (wk_ident key ∈ tombstoned) :: voided, tombstoned)
      | ScanDrop table => (false :: voided, {[table]} ∪ tombstoned)
      end
  end.

(** The reverse sweep over segments. *)
Fixpoint mark_voided_frames (segments : list ScannedSegment) :
    list ScannedSegment * gset TableIdent :=
  match segments with
  | [] => ([], ∅)
  | s :: segments =>
      let '(segments, tombstoned) := mark_voided_frames segments in
      let '(voided, tombstoned) := mark_frames (scan_frames (sg_scan s)) tombstoned in
      (mkScannedSegment (sg_path s) (sg_scan s) voided :: segments, tombstoned)
  end.

Definition frame_dead (committed : gmap WalTableKey Generation) (retained : gset TableIdent)
    (fv : ScanFrame * bool) : bool :=
  match fv.1 with
  | ScanAppend key gen =>
      fv.2 || match committed !! key with Some g => (gen <=? g)%N | None => false end
  | ScanDrop table => negb (bool_decide (table ∈ retained))
  end.

Definition is_deletable (committed : gmap WalTableKey Generation) (retained : gset TableIdent)
    (s : ScannedSegment) : bool :=
  negb (scan_corrupt (sg_scan s)) &&
  negb (match scan_frames (sg_scan s) with [] => true | _ => false end) &&
  forallb (frame_dead committed retained) (zip (scan_frames (sg_scan s)) (sg_voided s)).

Definition retain_segment_tables (s : ScannedSegment) (retained : gset TableIdent) : gset TableIdent :=
  foldl (λ acc frame, match frame with
                      | ScanAppend key _ => {[wk_ident key]} ∪ acc
                      | ScanDrop _ => acc
                      end) retained (scan_frames (sg_scan s)).

(** [remove_ok]: whether the unlink succeeds. *)
Fixpoint delete_dead_segments (remove_ok : string → bool) (committed : gmap WalTableKey Generation)
    (segments : list ScannedSegment) (retained : gset TableIdent) (root : WalDir) (deleted : N) :
    WalDir * N :=
  match segments with
  | [] => (root, deleted)
  | s :: segments =>
      if is_deletable committed retained s && remove_ok (sg_path s) then
        delete_dead_segments remove_ok committed segments retained
          (delete (sg_path s) root) (deleted + 1)
      else
        delete_dead_segments remove_ok committed segments (retain_segment_tables s retained)
          root deleted
  end.

Definition collect_garbage (read_ok remove_ok : string → bool) (current_seq : N)
    (committed : gmap WalTableKey Generation) (root : WalDir) : WalDir * N :=
  let candidates := candidate_segments current_seq root in
  let segments := scan_readable_prefix read_ok root candidates in
  let '(segments, _) := mark_voided_frames segments in
  delete_dead_segments remove_ok committed segments ∅ root 0.

(** ** Replay without positions *)
Definition rec_leb (a b : WalRecord) : bool :=
  match N.compare (generation (header a)) (generation (header b)) with
  | Eq => match N.compare (batch_id (header a)) (batch_id (header b)) with
          | Gt => false
          | _ => true
          end
  | Lt => true
  | Gt => false
  end.

Definition dropped_in (t : TableIdent) (l : list WalRecord) : bool := existsb (drops t) l.

(** The live records of [l] when [after] follows it in the log. *)
Fixpoint live_before (committed : gmap WalTableKey Generation) (l after : list WalRecord) :
    list WalRecord :=
  match l with
  | [] => []
  | r :: l =>
      if candidate committed r && negb (dropped_in (h_table (header r)) (l ++ after))
      then r :: live_before committed l after else live_before committed l after
  end.

Definition seg_recs (root : WalDir) (p : string) : list WalRecord := (seg_parse root p).1.*2.

Lemma live_log_records committed l : (live_log committed l).*2 = live_before committed l.*2 [].
Proof.
  induction l as [|[p r] l IH]; [done|]. cbn [live_log]. rewrite fmap_cons. cbn [live_before snd].
  rewrite app_nil_r.
  replace (dropped_in (h_table (header r)) l.*2)
    with (existsb (λ e : FramePosition * WalRecord, drops (h_table (header r)) e.2) l).
  - destruct (_ && _); [rewrite fmap_cons|]; by rewrite IH.
  - unfold dropped_in. clear IH. induction l as [|e l IHl]; [done|]. rewrite fmap_cons. simpl. by rewrite IHl.
Qed.

Lemma live_before_app committed l1 l2 after :
  live_before committed (l1 ++ l2) after =
    live_before committed l1 (l2 ++ after) ++ live_before committed l2 after.
Proof.
  induction l1 as [|r l1 IH]; [done|]. cbn [live_before app]. rewrite <-app_assoc, IH.
  by destruct (_ && _).
Qed.

Lemma sort_insert_records x k :
  Forall (λ y : FramePosition * WalRecord, position_lt x.1 y.1 = true) k →
  (sort_insert log_leb x k).*2 = sort_insert rec_leb x.2 k.*2.
Proof.
  induction 1 as [|y k Hxy _ IH]; [done|]. cbn [sort_insert fmap list_fmap].
  assert (log_leb x y = rec_leb x.2 y.2) as ->.
  { unfold log_leb, rec_leb. destruct (_ ?= _)%N; try done. destruct (_ ?= _)%N; try done.
    apply negb_true_iff, not_true_is_false. rewrite position_lt_spec in *. lia. }
  destruct (rec_leb x.2 y.2); [done|]. rewrite fmap_cons, IH. done.
Qed.

Lemma stable_sort_records l :
  StronglySorted (λ a b : FramePosition * WalRecord, position_lt a.1 b.1 = true) l →
  (stable_sort log_leb l).*2 = stable_sort rec_leb l.*2.
Proof.
  induction 1 as [|x l Hl IH Hx]; [done|].
  change (stable_sort log_leb (x :: l)) with (sort_insert log_leb x (stable_sort log_leb l)).
  rewrite sort_insert_records; [by rewrite IH|]. by rewrite stable_sort_perm.
Qed.

Lemma live_log_sorted committed l :
  StronglySorted (λ a b : FramePosition * WalRecord, position_lt a.1 b.1 = true) l →
  StronglySorted (λ a b : FramePosition * WalRecord, position_lt a.1 b.1 = true) (live_log committed l).
Proof.
  induction 1 as [|[p r] l Hl IH Hx]; [constructor|]. cbn [live_log].
  destruct (_ && _); [|done]. constructor; [done|]. apply Forall_forall.
  intros e [He _]%live_log_elem. rewrite Forall_forall in Hx. auto.
Qed.

Lemma log_from_records root i paths : (log_from root i paths).*2 = concat (seg_recs root <$> paths).
Proof.
  revert i. induction paths as [|p paths IH]; intros i; [done|]. cbn [log_from].
  rewrite fmap_app, IH. rewrite fmap_cons. cbn [concat]. f_equal.
  unfold at_segment, seg_recs. rewrite <-list_fmap_compose. done.
Qed.

Lemma replay_spec_records committed root :
  replay_spec committed root =
    stable_sort rec_leb (live_before committed (concat (seg_recs root <$> segment_paths root)) []).
Proof.
  unfold replay_spec. rewrite stable_sort_records by (apply live_log_sorted, log_from_sorted).
  by rewrite live_log_records, <-(log_from_records root 0).
Qed.

(** ** Which segments may go

    Segments in log order, flagged [true] when kept. *)
Abbreviation flagged := (list (bool * list WalRecord)).
Definition kept_segments (l : flagged) : list (list WalRecord) :=
  (filter (λ e, e.1 = true) l).*2.

(** A deleted segment holds no live record, and its tombstones void nothing in
    a kept segment before it. *)
Fixpoint gc_ok (committed : gmap WalTableKey Generation) (l : flagged) : Prop :=
  match l with
  | [] => True
  | (kept, d) :: l =>
      gc_ok committed l ∧
      if kept : bool then
        ∀ r d2, r ∈ d → op (header r) = Append → (false, d2) ∈ l →
          dropped_in (h_table (header r)) d2 = false
      else live_before committed d (concat l.*2) = []
  end.

Lemma dropped_in_app t l1 l2 : dropped_in t (l1 ++ l2) = dropped_in t l1 || dropped_in t l2.
Proof. apply existsb_app. Qed.

Lemma live_before_ext committed d a1 a2 :
  (∀ r, r ∈ d → op (header r) = Append →
    dropped_in (h_table (header r)) a1 = dropped_in (h_table (header r)) a2) →
  live_before committed d a1 = live_before committed d a2.
Proof.
  induction d as [|r d IH]; intros Hd; [done|]. cbn [live_before].
  rewrite IH by (intros; apply Hd; [by right|done]). rewrite !dropped_in_app.
  destruct (candidate committed r) eqn:Hc; [|done].
  rewrite (Hd r); [done|by left|]. by eapply candidate_append.
Qed.

Lemma dropped_in_kept t (l : flagged) :
  (∀ d2, (false, d2) ∈ l → dropped_in t d2 = false) →
  dropped_in t (concat l.*2) = dropped_in t (concat (kept_segments l)).
Proof.
  induction l as [|[k d] l IH]; intros Hl; [done|].
  unfold kept_segments. rewrite filter_cons, fmap_cons. cbn [concat fst snd].
  rewrite dropped_in_app, IH by (intros; apply Hl; by right).
  destruct k; [rewrite decide_True by done|rewrite decide_False by done].
  - rewrite fmap_cons. cbn [concat snd]. by rewrite dropped_in_app.
  - by rewrite (Hl d) by (by left).
Qed.

Lemma gc_ok_live committed l :
  gc_ok committed l →
  live_before committed (concat l.*2) [] = live_before committed (concat (kept_segments l)) [].
Proof.
  induction l as [|[k d] l IH]; intros Hok; [done|]. destruct Hok as [Hok Hd].
  unfold kept_segments. rewrite filter_cons, fmap_cons. cbn [concat fst snd].
  rewrite live_before_app, app_nil_r, (IH Hok).
  destruct k; [rewrite decide_True by done|rewrite decide_False by done].
  - rewrite fmap_cons. cbn [concat snd]. rewrite live_before_app, app_nil_r. f_equal.
    apply live_before_ext. intros r Hr Hop. apply dropped_in_kept. eauto.
  - by rewrite Hd.
Qed.

(** ** The pass deletes only such segments *)
Definition committed_le (c c' : gmap WalTableKey Generation) : Prop :=
  ∀ k g, c !! k = Some g → ∃ g', c' !! k = Some g' ∧ (g ≤ g')%N.

Lemma is_committed_le c c' r :
  committed_le c c' → is_committed c r = true → is_committed c' r = true.
Proof.
  intros Hle. unfold is_committed. destruct (c !! record_key r) as [g|] eqn:Hg; [|done].
  destruct (Hle _ _ Hg) as (g' & -> & ?). rewrite !N.leb_le. lia.
Qed.

Lemma drops_append t r : op (header r) = Append → drops t r = false.
Proof. intros Hop. apply bool_decide_eq_false. rewrite Hop. naive_solver. Qed.
Lemma drops_drop t r : op (header r) = DropTable → drops t r = bool_decide (h_table (header r) = t).
Proof. intros Hop. apply bool_decide_ext. rewrite Hop. naive_solver. Qed.
Lemma dropped_in_cons t r l : dropped_in t (r :: l) = drops t r || dropped_in t l.
Proof. done. Qed.

Lemma mark_frames_tombstoned recs T t :
  t ∈ (mark_frames (scan_frame_of <$> recs) T).2 ↔ dropped_in t recs = true ∨ t ∈ T.
Proof.
  induction recs as [|r recs IH]; [simpl; naive_solver|]. rewrite fmap_cons. cbn [mark_frames].
  destruct (mark_frames _ T) as [v T']. simpl in IH.
  rewrite dropped_in_cons. unfold scan_frame_of. destruct (op (header r)) eqn:Hop; cbn [snd].
  - by rewrite (drops_append t r Hop).
  - rewrite (drops_drop t r Hop), elem_of_union, elem_of_singleton, IH, orb_true_iff, bool_decide_eq_true.
    naive_solver.
Qed.

(** Frames that are all dead hold nothing live and drop no retained table. *)
Lemma frames_dead c c' R recs T after :
  committed_le c c' → (∀ t, t ∈ T → dropped_in t after = true) →
  forallb (frame_dead c R)
    (zip (scan_frame_of <$> recs) (mark_frames (scan_frame_of <$> recs) T).1) = true →
  live_before c' recs after = [] ∧ ∀ t, t ∈ R → dropped_in t recs = false.
Proof.
  intros Hle HT. induction recs as [|r recs IH]; [done|].
  pose proof (mark_frames_tombstoned recs T) as Htomb.
  rewrite fmap_cons. cbn [mark_frames]. destruct (mark_frames _ T) as [v T'] eqn:Hm.
  cbn [fst snd] in IH, Htomb. cbn [live_before]. setoid_rewrite dropped_in_cons. unfold candidate.
  assert (scan_frame_of r = match op (header r) with
    | Append => _ | DropTable => _ end) as Hr by reflexivity.
  rewrite Hr. clear Hr. destruct (op (header r)) eqn:Hop; cbn [fst snd];
    cbn [zip zip_with forallb]; rewrite andb_true_iff; unfold frame_dead at 1; cbn [fst snd].
  - rewrite orb_true_iff. intros [Hdead Hrest]. destruct (IH Hrest) as [-> Hret].
    split; [|intros t Ht; rewrite drops_append by done; by apply Hret].
    rewrite bool_decide_true by done. cbn [andb].
    destruct (is_committed c' r) eqn:Hc; [done|]. destruct Hdead as [Hv|Hc2].
    + apply bool_decide_eq_true in Hv. simpl in Hv.
      assert (dropped_in (h_table (header r)) (recs ++ after) = true) as ->; [|done].
      rewrite dropped_in_app, orb_true_iff. destruct (proj1 (Htomb _) Hv) as [?|?]; auto.
    + enough (is_committed c r = true) as ?%(is_committed_le _ _ _ Hle) by congruence. done.
  - intros [Hdead Hrest]. destruct (IH Hrest) as [-> Hret].
    rewrite bool_decide_false by done. split; [done|]. intros t Ht. rewrite Hret by done.
    rewrite orb_false_r, drops_drop by done. apply bool_decide_eq_false. intros <-.
    by apply negb_true_iff, bool_decide_eq_false in Hdead.
Qed.

Definition scan_of (root : WalDir) (p : string) : SegmentScan :=
  mkSegmentScan (scan_frame_of <$> seg_recs root p) (seg_corrupt root p).

(** [s] was scanned from [root]. *)
Definition scanned (root : WalDir) (s : ScannedSegment) : Prop := sg_scan s = scan_of root (sg_path s).

Lemma scan_readable_prefix_spec read_ok root cands :
  (∀ p, p ∈ cands.*2 → is_Some (root !! p)) →
  ∃ k, sg_path <$> scan_readable_prefix read_ok root cands = take k cands.*2 ∧
       Forall (scanned root) (scan_readable_prefix read_ok root cands).
Proof.
  induction cands as [|[n p] cands IH]; intros Hc; [by exists 0|].
  destruct (Hc p) as [f Hf]; [by left|]. cbn [scan_readable_prefix].
  destruct (read_ok p); [|by exists 0]. rewrite Hf. cbn [fmap option_fmap option_map].
  rewrite scan_segment_parse.
  destruct IH as (k & Hk & Hall); [intros q Hq; apply Hc; by right|].
  exists (S k). rewrite !fmap_cons, Hk. split; [done|]. constructor; [|done].
  unfold scanned, scan_of, seg_recs, seg_corrupt, seg_parse. simpl. rewrite Hf. simpl.
  by rewrite <-list_fmap_compose.
Qed.

Lemma mark_voided_tombstoned root sgs t :
  Forall (scanned root) sgs → t ∈ (mark_voided_frames sgs).2 →
  dropped_in t (concat (seg_recs root <$> (sg_path <$> sgs))) = true.
Proof.
  induction 1 as [|s sgs Hs _ IH]; [simpl; set_solver|]. rewrite !fmap_cons. cbn [mark_voided_frames concat].
  destruct (mark_voided_frames sgs) as [sgs' T]. simpl in IH. rewrite Hs. simpl.
  pose proof (mark_frames_tombstoned (seg_recs root (sg_path s)) T t) as Hm.
  destruct (mark_frames _ T) as [v T']. simpl in *. rewrite dropped_in_app, orb_true_iff. naive_solver.
Qed.

Lemma retain_spec s R t :
  t ∈ retain_segment_tables s R ↔
    t ∈ R ∨ ∃ k g, ScanAppend k g ∈ scan_frames (sg_scan s) ∧ wk_ident k = t.
Proof.
  unfold retain_segment_tables. revert R.
  induction (scan_frames (sg_scan s)) as [|f fs IH]; intros R; simpl; [set_solver|].
  rewrite IH. destruct f as [k g|t']; set_solver.
Qed.

Definition flag (root : WalDir) (gone : list string) (paths : list string) : flagged :=
  (λ p, (bool_decide (p ∉ gone), seg_recs root p)) <$> paths.

Lemma flag_cons_ne root gone p paths :
  p ∉ paths → flag root (p :: gone) paths = flag root gone paths.
Proof.
  intros Hp. apply list_fmap_ext. intros i q Hq%list_elem_of_lookup_2. f_equal.
  apply bool_decide_ext. rewrite not_elem_of_cons. split; [tauto|]. intros; split; [|done].
  by intros ->.
Qed.

Lemma flag_concat root gone paths : (flag root gone paths).*2 = seg_recs root <$> paths.
Proof. unfold flag. by rewrite <-list_fmap_compose. Qed.

(** A segment kept before the others, whose tables the pass has retained. *)
Lemma gc_ok_kept c' root s (R : gset TableIdent) l :
  scanned root s → gc_ok c' l →
  (∀ t d, t ∈ retain_segment_tables s R → (false, d) ∈ l → dropped_in t d = false) →
  gc_ok c' ((true, seg_recs root (sg_path s)) :: l).
Proof.
  intros Hs Hok Hret. split; [done|]. intros r d2 Hr Hop Hd2. apply Hret; [|done].
  apply retain_spec. right.
  exists (mkWalTableKey (default 0%N (h_table_uuid (header r))) (h_table (header r))),
    (generation (header r)).
  split; [|done]. rewrite Hs. simpl. apply list_elem_of_fmap. exists r. split; [|done].
  unfold scan_frame_of. by rewrite Hop.
Qed.

Lemma flag_cons root gone p paths :
  flag root gone (p :: paths) =
    (bool_decide (p ∉ gone), seg_recs root p) :: flag root gone paths.
Proof. done. Qed.

Lemma flag_nil_kept root paths d : (false, d) ∉ flag root [] paths.
Proof.
  intros (q & Hq & _)%list_elem_of_fmap. rewrite bool_decide_true in Hq; [done|].
  apply not_elem_of_nil.
Qed.

Lemma gc_ok_flag_nil c root paths : gc_ok c (flag root [] paths).
Proof.
  induction paths as [|p paths IH]; [done|]. rewrite flag_cons.
  rewrite bool_decide_true by apply not_elem_of_nil. split; [done|].
  intros r d _ _ Hd. by apply flag_nil_kept in Hd.
Qed.

Lemma delete_loop_ok remove_ok c c' root rest sgs R cur n :
  committed_le c c' → Forall (scanned root) sgs → NoDup ((sg_path <$> sgs) ++ rest) →
  ∃ gone, gone ⊆ sg_path <$> sgs ∧
    (delete_dead_segments remove_ok c (mark_voided_frames sgs).1 R cur n).1 =
      foldl (λ r p, delete p r) cur gone ∧
    Forall (λ p, seg_corrupt root p = false) gone ∧
    gc_ok c' (flag root gone ((sg_path <$> sgs) ++ rest)) ∧
    ∀ t d, t ∈ R → (false, d) ∈ flag root gone ((sg_path <$> sgs) ++ rest) → dropped_in t d = false.
Proof.
  intros Hle Hsc. revert R cur n. induction Hsc as [|s sgs Hs Hsc IH]; intros R cur n Hnd.
  { exists []. split_and!; [done|done|constructor|apply gc_ok_flag_nil|].
    intros t d _ Hd. by apply flag_nil_kept in Hd. }
  rewrite fmap_cons in Hnd |- *. apply NoDup_cons in Hnd as [Hp Hnd].
  cbn [mark_voided_frames]. pose proof (mark_voided_tombstoned root sgs) as HT.
  destruct (mark_voided_frames sgs) as [sgs' T]. cbn [fst snd] in *. rewrite Hs. cbn [scan_of scan_frames].
  pose proof (frames_dead c c' R (seg_recs root (sg_path s)) T
                (concat (seg_recs root <$> ((sg_path <$> sgs) ++ rest))) Hle) as Hdead.
  destruct (mark_frames (scan_frame_of <$> _) T) as [v T']. cbn [fst snd delete_dead_segments] in *.
  set (s' := mkScannedSegment (sg_path s) (scan_of root (sg_path s)) v).
  change (sg_path s') with (sg_path s).
  destruct (is_deletable c R s' && remove_ok (sg_path s)) eqn:Hdel.
  - apply andb_true_iff in Hdel as [Hdel _].
    unfold is_deletable in Hdel. rewrite !andb_true_iff in Hdel. destruct Hdel as [[Hcor _] Hall].
    destruct (IH R (delete (sg_path s) cur) (n + 1)%N Hnd) as (gone & Hsub & Hroot & Hcs & Hok & Hret).
    destruct Hdead as [Hlive Hdrop]; [|done|].
    { intros t Ht. rewrite fmap_app, concat_app, dropped_in_app, HT by done. done. }
    exists (sg_path s :: gone). cbn [app]. rewrite flag_cons, flag_cons_ne by done.
    rewrite bool_decide_false by (intros []%not_elem_of_cons; done).
    split_and!; [set_solver|done|constructor; [by apply negb_true_iff|done]| |].
    + split; [done|]. by rewrite flag_concat.
    + intros t d Ht [[= ->]|Hd]%elem_of_cons; [by apply Hdrop|by eapply Hret].
  - destruct (IH (retain_segment_tables s' R) cur n Hnd) as (gone & Hsub & Hroot & Hcs & Hok & Hret).
    assert (sg_path s ∉ gone) as Hng.
    { intros ?%Hsub. apply Hp, elem_of_app. by left. }
    exists gone. cbn [app]. rewrite flag_cons, bool_decide_true by done.
    split_and!; [set_solver|done|done| |].
    + by apply (gc_ok_kept c' root s' R).
    + intros t d Ht [[=]|Hd]%elem_of_cons. eapply Hret; [|done]. apply retain_spec. by left.
Qed.

(** ** Sequence order is name order *)

(** Every segment in the directory was named by the writer. *)
Definition canonical (root : WalDir) : Prop :=
  ∀ n, n ∈ segment_paths root → ∃ seq, (seq ≤ u64_max)%N ∧ n = segment_name seq.

(** The open segment, if any, is the last one. *)
Definition open_is_last (current_seq : N) (root : WalDir) : Prop :=
  ∀ c seq, open_seq current_seq = Some c → (seq ≤ u64_max)%N →
    is_Some (root !! segment_name seq) → (seq ≤ c)%N.

Definition closed_name (current_seq : N) (n : string) : Prop :=
  match parse_seq n with Some s => open_seq current_seq ≠ Some s | None => False end.
#[local] Instance closed_name_dec v n : Decision (closed_name v n).
Proof. unfold closed_name. destruct (parse_seq n); apply _. Defined.

Lemma candidate_names v root :
  (candidate_segments v root).*2 ≡ₚ filter (closed_name v) (map_to_list root).*1.
Proof.
  unfold candidate_segments. rewrite stable_sort_perm.
  induction (map_to_list root).*1 as [|n l IH]; [done|]. rewrite filter_cons. cbn [omap list_omap].
  destruct (parse_seq n) as [s|] eqn:Hs.
  - destruct (decide (open_seq v = Some s)) as [Ho|Ho].
    + rewrite decide_False by (unfold closed_name; rewrite Hs; tauto). exact IH.
    + rewrite decide_True by (unfold closed_name; by rewrite Hs). rewrite fmap_cons. by constructor.
  - rewrite decide_False by (unfold closed_name; rewrite Hs; tauto). exact IH.
Qed.

Lemma parse_seq_wal n s : parse_seq n = Some s → str_ends_with ".wal" n = true.
Proof. unfold parse_seq, str_ends_with. by destruct (str_strip_suffix ".wal" n). Qed.

Lemma listed_elem (root : WalDir) n : n ∈ (map_to_list root).*1 ↔ is_Some (root !! n).
Proof.
  rewrite list_elem_of_fmap. split.
  - intros ([k f] & -> & Hk%elem_of_map_to_list). by eexists.
  - intros [f Hf]. exists (n, f). split; [done|]. by apply elem_of_map_to_list.
Qed.

Lemma candidate_elem v root n :
  n ∈ (candidate_segments v root).*2 ↔ closed_name v n ∧ n ∈ segment_paths root.
Proof.
  rewrite candidate_names, list_elem_of_filter, listed_elem, segment_paths_elem.
  unfold closed_name. destruct (parse_seq n) as [s|] eqn:Hs; [|tauto].
  rewrite (parse_seq_wal _ _ Hs). tauto.
Qed.

Lemma candidate_seq v root s n : (s, n) ∈ candidate_segments v root → parse_seq n = Some s.
Proof.
  unfold candidate_segments. rewrite stable_sort_perm, list_elem_of_omap.
  intros (n' & _ & Hn). destruct (parse_seq n') as [s'|] eqn:Hs; [|done].
  case_decide; simplify_eq; done.
Qed.

Lemma candidate_sorted v root :
  canonical root → StronglySorted (λ a b, str_leb a b = true) (candidate_segments v root).*2.
Proof.
  intros Hcan.
  assert (Forall (λ c, (c.1 ≤ u64_max)%N ∧ c.2 = segment_name c.1) (candidate_segments v root)) as Hall.
  { apply Forall_forall. intros [s n] Hin. pose proof (candidate_seq _ _ _ _ Hin) as Hs.
    assert (n ∈ segment_paths root) as (q & Hq & ->)%Hcan
      by (apply (candidate_elem v root); apply list_elem_of_fmap; by exists (s, n)).
    rewrite parse_seq_name in Hs by done. by injection Hs as ->. }
  assert (StronglySorted (λ a b, seq_leb a b = true) (candidate_segments v root)) as Hs.
  { apply stable_sort_sorted; unfold seq_leb; intros *; rewrite !N.leb_le; lia. }
  induction Hs as [|[s n] l Hl IH Hx]; [constructor|]. apply Forall_cons in Hall as [[Hs1 Hn1] Hall].
  rewrite fmap_cons. constructor; [by apply IH|]. apply Forall_fmap, Forall_forall.
  intros [s2 n2] Hin. rewrite Forall_forall in Hx, Hall. destruct (Hall _ Hin) as [Hs2 Hn2].
  simpl in *. subst. rewrite segment_name_leb by done. by apply (Hx _ Hin).
Qed.

Lemma candidate_prefix v root :
  canonical root → open_is_last v root →
  ∃ rest, segment_paths root = (candidate_segments v root).*2 ++ rest.
Proof.
  intros Hcan Hlast. exists (filter (λ n, ¬ closed_name v n) (segment_paths root)).
  assert ((candidate_segments v root).*2 = filter (closed_name v) (segment_paths root)) as Heq.
  { apply str_sorted_unique; [by apply candidate_sorted|apply StronglySorted_filter, segment_paths_sorted|].
    apply NoDup_Permutation; [|apply NoDup_filter, segment_paths_NoDup|].
    - rewrite candidate_names. apply NoDup_filter, NoDup_fst_map_to_list.
    - intros n. by rewrite candidate_elem, list_elem_of_filter. }
  rewrite Heq. apply str_sorted_unique; [apply segment_paths_sorted| |by rewrite filter_app_complement].
  apply StronglySorted_app. split_and!; [|apply StronglySorted_filter, segment_paths_sorted..].
  intros x y [_ Hx]%list_elem_of_filter [Hopen Hy]%list_elem_of_filter.
  pose proof (proj1 (segment_paths_elem _ _) Hx) as [_ Hxr].
  destruct (Hcan _ Hx) as (sx & Hsx & ->). destruct (Hcan _ Hy) as (sy & Hsy & ->).
  unfold closed_name in Hopen. rewrite parse_seq_name in Hopen by done.
  apply dec_stable in Hopen. rewrite segment_name_leb by done. apply N.leb_le.
  by apply (Hlast sy sx).
Qed.

Lemma delete_all_lookup (root : WalDir) gone n :
  foldl (λ r p, delete p r) root gone !! n = if decide (n ∈ gone) then None else root !! n.
Proof.
  revert root. induction gone as [|p gone IH]; intros root; [done|]. cbn [foldl].
  rewrite IH. destruct (decide (n ∈ gone)) as [Hg|Hg].
  - by rewrite decide_True by (by right).
  - destruct (decide (n = p)) as [->|Hne].
    + rewrite decide_True by (by left). apply lookup_delete_eq.
    + rewrite decide_False by (by rewrite elem_of_cons; tauto). by apply lookup_delete_ne.
Qed.

(** ** A pass keeps the replay *)
Lemma gone_segments read_ok remove_ok v c c' root :
  canonical root → open_is_last v root → committed_le c c' →
  ∃ gone, (collect_garbage read_ok remove_ok v c root).1 = foldl (λ r p, delete p r) root gone ∧
    Forall (λ p, seg_corrupt root p = false) gone ∧
    gc_ok c' (flag root gone (segment_paths root)).
Proof.
  intros Hcan Hlast Hle. destruct (candidate_prefix v root Hcan Hlast) as (rest & Hpaths).
  destruct (scan_readable_prefix_spec read_ok root (candidate_segments v root)) as (k & Hk & Hsc).
  { intros p Hp. apply candidate_elem in Hp as [_ Hp%segment_paths_elem]. tauto. }
  unfold collect_garbage.
  destruct (delete_loop_ok remove_ok c c' root (drop k (candidate_segments v root).*2 ++ rest)
              (scan_readable_prefix read_ok root (candidate_segments v root)) ∅ root 0 Hle Hsc)
    as (gone & _ & Hroot & Hcor & Hok & _).
  { rewrite Hk, app_assoc, take_drop, <-Hpaths. apply segment_paths_NoDup. }
  rewrite Hk, app_assoc, take_drop, <-Hpaths in Hok.
  destruct (mark_voided_frames _) as [segs T]. exists gone. split_and!; done.
Qed.

Section pass.
Variables (root : WalDir) (gone : list string).
Let root' : WalDir := foldl (λ r p, delete p r) root gone.

Lemma gone_paths : segment_paths root' = filter (λ p, p ∉ gone) (segment_paths root).
Proof.
  apply segment_paths_ext. intros n. rewrite !segment_paths_elem. unfold root'.
  rewrite delete_all_lookup. destruct (decide (n ∈ gone)); [|tauto].
  split; [by intros [_ []]|tauto].
Qed.

Lemma kept_parse p : p ∉ gone → seg_parse root' p = seg_parse root p.
Proof. intros Hp. unfold seg_parse, root'. by rewrite delete_all_lookup, decide_False. Qed.

Lemma kept_log :
  concat (seg_recs root' <$> segment_paths root') =
  concat (kept_segments (flag root gone (segment_paths root))).
Proof.
  rewrite gone_paths. unfold kept_segments. f_equal.
  induction (segment_paths root) as [|p l IH]; [done|]. rewrite flag_cons, !filter_cons.
  destruct (decide (p ∉ gone)) as [Hp|Hp].
  - rewrite bool_decide_true, decide_True by done. rewrite !fmap_cons, IH. f_equal.
    unfold seg_recs. by rewrite kept_parse.
  - rewrite bool_decide_false, decide_False by done. exact IH.
Qed.

Lemma kept_corrupt :
  Forall (λ p, seg_corrupt root p = false) gone →
  existsb (seg_corrupt root') (segment_paths root') = existsb (seg_corrupt root) (segment_paths root).
Proof.
  intros Hg. rewrite gone_paths. induction (segment_paths root) as [|p l IH]; [done|].
  rewrite filter_cons. cbn [existsb]. rewrite <-IH.
  destruct (decide (p ∉ gone)) as [Hp|Hp].
  - cbn [existsb]. unfold seg_corrupt at 1 3. by rewrite kept_parse.
  - apply dec_stable in Hp. rewrite Forall_forall in Hg. by rewrite (Hg p Hp).
Qed.

Lemma kept_dir_ok : dir_ok root → dir_ok root'.
Proof.
  intros Hok p f. unfold root'. rewrite delete_all_lookup. case_decide; [done|]. apply Hok.
Qed.
End pass.
End gc.

(** The records a replay returned, if it completed. *)
Definition replayed `{WalCodec} (m : outcome TeoDBError (WalDir * list WalRecord)) :
    option (list WalRecord) :=
  match m with Returns (_, rs) => Some rs | _ => None end.

Lemma replayed_spec `{WalCodec} rename_ok c mode root :
  dir_ok root → (∀ p, rename_ok p = true) →
  replayed (replay_all rename_ok c mode root) =
    if bool_decide (mode = ModeFail) && existsb (seg_corrupt root) (segment_paths root) then None
    else Some (replay_spec c root).
Proof.
  intros Hok Hren. destruct mode; simpl; [|by rewrite replay_all_spec by auto].
  destruct (existsb _ _) eqn:Hex.
  - rewrite replay_all_fail; [done|done|]. apply Exists_exists.
    apply existsb_exists in Hex as (p & Hp & Hc). exists p. by rewrite list_elem_of_In.
  - rewrite replay_all_spec; [done|done|]. left. apply Forall_forall. intros p Hp.
    apply not_true_is_false. intros Hc. rewrite <-not_true_iff_false in Hex. destruct Hex.
    apply existsb_exists. exists p. by rewrite <-list_elem_of_In.
Qed.

Definition demo_gc_root : WalDir :=
  {[ segment_name 1 := mkSegFile (demo_frame (demo_append 1) ++ demo_frame (demo_append 2)) None;
     segment_name 2 := mkSegFile (demo_frame (demo_append 3)) None ]}.

Lemma demo_gc_root_elem n :
  n ∈ segment_paths demo_gc_root → n = segment_name 1 ∨ n = segment_name 2.
Proof.
  intros [_ [f Hf]]%segment_paths_elem. unfold demo_gc_root in Hf.
  apply lookup_insert_Some in Hf as [[<- _]|[_ [<- _]%lookup_singleton_Some]]; auto.
Qed.


