(* ===== verification/WalWriter.v ===== *)
(** * The WAL writer task

    Models [teodb-storage/src/wal/writer.rs] (the task that owns the open
    segment: group commit, rotation, rollback of a failed group) and the
    [append] entry point of [manager.rs].  A write to an open segment reaches
    the file of that name; if the name was unlinked meanwhile it reaches no
    listed file.  The results of the system calls are an argument of each
    group write. *)

From S2P Require Import Prelude Core WriteProtocol WalFrame WalReplay WalReplaySpec WalState WalGc.
Open Scope nat_scope.
Open Scope list_scope.

Definition MAX_GROUP_FRAMES : nat := 128.

(** One encoded frame waiting to be persisted, with the channel of its waiter. *)
Record WriteRequest := mkWriteRequest { wr_frame : list byte; wr_ack : nat }.

Inductive WriterCommand :=
| Write_ (request : WriteRequest)
| Rotate (done : nat).

Record OpenSegment := mkOpenSegment { os_path : string; os_bytes_written : N }.

Record SegmentWriter := mkSegmentWriter {
  sw_max_segment_bytes : N;
  sw_fsync_on_append : bool;
  sw_current : option OpenSegment;
  sw_next_seq : N;
  sw_current_seq : N;
}.

Definition with_current (c : option OpenSegment) (cs : N) (w : SegmentWriter) : SegmentWriter :=
  mkSegmentWriter (sw_max_segment_bytes w) (sw_fsync_on_append w) c (sw_next_seq w) cs.

(** What the system calls of one group write do.  When a write, flush or sync
    fails, [io_landed] bytes of the group have reached the file. *)
Record GroupIo := mkGroupIo {
  io_open_ok : bool;
  io_write_ok : bool;
  io_flush_ok : bool;
  io_sync_ok : bool;
  io_set_len_ok : bool;
  io_landed : nat;
}.

Definition close_current (w : SegmentWriter) : SegmentWriter := with_current None 0 w.

(** [create(true).append(true)]: an existing file is kept. *)
Definition open_segment_file (io : GroupIo) (w : SegmentWriter) (root : WalDir) :
    SegmentWriter * WalDir * TeoDBResult unit :=
  let seq := sw_next_seq w in
  let w1 := mkSegmentWriter (sw_max_segment_bytes w) (sw_fsync_on_append w) (sw_current w)
              (seq + 1) (sw_current_seq w) in
  let path := segment_name seq in
  if io_open_ok io then
    (with_current (Some (mkOpenSegment path 0)) (seq + 1) w1,
     (match root !! path with Some _ => root | None => <[path := mkSegFile [] None]> root end),
     Ok tt)
  else (w1, root, Err (wal "failed to open segment: {e}")).

(** Append bytes to the open file; truncate it. *)
Definition append_bytes (path : string) (bs : list byte) (root : WalDir) : WalDir :=
  alter (λ f, mkSegFile (f_bytes f ++ bs) (f_modified f)) path root.
Definition set_len (path : string) (n : N) (root : WalDir) : WalDir :=
  alter (λ f, mkSegFile (take (N.to_nat n) (f_bytes f)) (f_modified f)) path root.

(** The failure exit of [write_group]: some bytes landed, then truncate back. *)
Definition roll_back (io : GroupIo) (path : string) (group_start : N) (frames : list byte)
    (root : WalDir) : WalDir :=
  let root := append_bytes path (take (io_landed io) frames) root in
  if io_set_len_ok io then set_len path group_start root else root.

Definition write_group (io : GroupIo) (group : list WriteRequest) (w : SegmentWriter) (root : WalDir) :
    SegmentWriter * WalDir * TeoDBResult unit :=
  let frames := concat (wr_frame <$> group) in
  let total := lenN frames in
  let w := match sw_current w with
           | Some s => if (sw_max_segment_bytes w <? os_bytes_written s + total)%N
                       then close_current w else w
           | None => w
           end in
  let '(w, root, opened) :=
    match sw_current w with
    | None => open_segment_file io w root
    | Some _ => (w, root, Ok tt)
    end in
  match opened with
  | Err e => (w, root, Err e)
  | Ok _ =>
      match sw_current w with
      | None => (w, root, Err (wal "segment missing after successful open"))
      | Some seg =>
          let group_start := os_bytes_written seg in
          let fail msg := (w, roll_back io (os_path seg) group_start frames root, Err (wal msg)) in
          if negb (io_write_ok io) then fail "write failed: {e}"
          else if negb (io_flush_ok io) then fail "flush failed: {e}"
          else if sw_fsync_on_append w && negb (io_sync_ok io) then fail "fsync failed: {e}"
          else
            (with_current (Some (mkOpenSegment (os_path seg) (os_bytes_written seg + total)))
               (sw_current_seq w) w,
             append_bytes (os_path seg) frames root, Ok tt)
      end
  end.

(** Draining the channel behind a first write: more writes up to the group
    limit, stopping after a rotate. *)
Fixpoint take_group (n : nat) (queue : list WriterCommand) :
    list WriteRequest * option nat * list WriterCommand :=
  match n, queue with
  | S n, Write_ r :: queue =>
      let '(group, rotate, queue) := take_group n queue in (r :: group, rotate, queue)
  | S _, Rotate done :: queue => ([], Some done, queue)
  | _, _ => ([], None, queue)
  end.

Inductive Reply :=
| Acked (ack : nat) (res : TeoDBResult unit)
| Rotated (done : nat).

(** One round of the [run] loop on the commands queued when it wakes up. *)
Definition run_round (io : GroupIo) (queue : list WriterCommand) (w : SegmentWriter) (root : WalDir) :
    SegmentWriter * WalDir * list Reply * list WriterCommand :=
  match queue with
  | [] => (w, root, [], [])
  | Rotate done :: queue => (close_current w, root, [Rotated done], queue)
  | Write_ first :: queue =>
      let '(group, rotate_after, queue) := take_group (MAX_GROUP_FRAMES - 1) queue in
      let group := first :: group in
      let '(w, root, res) := write_group io group w root in
      let '(w, acks) :=
        match res with
        | Ok _ => (w, (λ r, Acked (wr_ack r) (Ok tt)) <$> group)
        | Err _ =>
            (close_current w,
             (λ r, Acked (wr_ack r) (Err (wal "group write failed: {msg}"))) <$> group)
        end in
      match rotate_after with
      | Some done => (close_current w, root, acks ++ [Rotated done], queue)
      | None => (w, root, acks, queue)
      end
  end.

(** The writer of a freshly opened manager. *)
Definition spawn (max_segment_bytes : N) (fsync_on_append : bool) (next_seq : N) : SegmentWriter :=
  mkSegmentWriter max_segment_bytes fsync_on_append None next_seq 0.

(** ** The directory as an append-only log *)
Section writer.
Context `{WalCodecLaws}.

Definition log_records (root : WalDir) : list WalRecord :=
  concat (seg_recs root <$> segment_paths root).

(** All segments are numbered below [n]. *)
Definition seqs_below (n : N) (root : WalDir) : Prop :=
  ∀ p, p ∈ segment_paths root → ∃ seq, (seq < n)%N ∧ (seq ≤ u64_max)%N ∧ p = segment_name seq.

Lemma paths_snoc root p :
  p ∈ segment_paths root → (∀ q, q ∈ segment_paths root → str_leb q p = true) →
  segment_paths root = filter (λ q, q ≠ p) (segment_paths root) ++ [p].
Proof.
  intros Hp Hmax. apply str_sorted_unique; [apply segment_paths_sorted|..].
  - apply StronglySorted_app. split_and!; [|apply StronglySorted_filter, segment_paths_sorted|by repeat constructor].
    intros x y [_ Hx]%list_elem_of_filter ->%list_elem_of_singleton. auto.
  - apply NoDup_Permutation; [apply segment_paths_NoDup| |].
    + apply NoDup_app. split_and!; [apply NoDup_filter, segment_paths_NoDup| |apply NoDup_singleton].
      intros x [Hx _]%list_elem_of_filter. by rewrite list_elem_of_singleton.
    + intros x. rewrite elem_of_app, list_elem_of_filter, list_elem_of_singleton.
      destruct (decide (x = p)); naive_solver.
Qed.

Lemma log_records_last root p :
  p ∈ segment_paths root → (∀ q, q ∈ segment_paths root → str_leb q p = true) →
  log_records root =
    concat (seg_recs root <$> filter (λ q, q ≠ p) (segment_paths root)) ++ seg_recs root p.
Proof.
  intros Hp Hmax. unfold log_records. rewrite (paths_snoc root p) at 1 by done.
  rewrite fmap_app, concat_app. simpl. by rewrite app_nil_r.
Qed.

Lemma seg_recs_other root root' q : root' !! q = root !! q → seg_recs root' q = seg_recs root q.
Proof. intros Hq. unfold seg_recs, seg_parse. by rewrite Hq. Qed.

Lemma concat_recs_other root root' p l :
  (∀ q, q ≠ p → root' !! q = root !! q) →
  concat (seg_recs root' <$> filter (λ q, q ≠ p) l) = concat (seg_recs root <$> filter (λ q, q ≠ p) l).
Proof.
  intros Hq. f_equal. apply list_fmap_ext. intros i q [? _]%list_elem_of_lookup_2%list_elem_of_filter.
  by apply seg_recs_other, Hq.
Qed.

(** Changing the bytes of a listed segment keeps the listing. *)
Lemma alter_paths g root p : segment_paths (alter g p root) = segment_paths root.
Proof.
  apply str_sorted_unique; [apply segment_paths_sorted..|].
  apply NoDup_Permutation; [apply segment_paths_NoDup..|].
  intros n. by rewrite !segment_paths_elem, lookup_alter_is_Some.
Qed.

(** Frames appended to the last segment extend the log. *)
Lemma log_records_append root p f fs rs fs' rs' :
  root !! p = Some f → str_ends_with ".wal" p = true →
  (∀ q, q ∈ segment_paths root → str_leb q p = true) →
  f_bytes f = concat fs → frames_of rs fs → frames_of rs' fs' →
  log_records (append_bytes p (concat fs') root) = log_records root ++ (decoded_record <$> rs').
Proof.
  intros Hf Hw Hmax Hb Hfs Hfs'.
  assert (p ∈ segment_paths root) as Hp by (apply segment_paths_elem; split; [done|by eexists]).
  assert (∀ rs fs, frames_of rs fs → (parse_segment (concat fs)).1.*2 = decoded_record <$> rs) as Hparse.
  { intros rs1 fs1 H1. unfold parse_segment. rewrite <-(app_nil_r (concat fs1)), (parse_from_frames 0 rs1) by done.
    rewrite parse_from_eq. simpl. rewrite app_nil_r. apply entries_at_snd. by eapply Forall2_length. }
  unfold append_bytes.
  rewrite (log_records_last (alter _ p root) p), (log_records_last root p) by (rewrite ?alter_paths; done).
  rewrite alter_paths, (concat_recs_other root) by (intros; by apply lookup_alter_ne).
  rewrite <-app_assoc. f_equal. unfold seg_recs, seg_parse. rewrite lookup_alter_eq, Hf. simpl.
  rewrite Hb, <-concat_app, (Hparse rs fs Hfs), (Hparse (rs ++ rs')) by (by apply Forall2_app).
  by rewrite fmap_app.
Qed.

(** A new empty segment above the others leaves the log as it is. *)
Lemma log_records_new root p m :
  root !! p = None → str_ends_with ".wal" p = true →
  (∀ q, q ∈ segment_paths root → str_leb q p = true) →
  log_records (<[p := mkSegFile [] m]> root) = log_records root.
Proof.
  intros Hn Hw Hmax. set (root' := <[p := mkSegFile [] m]> root).
  assert (∀ n, n ∈ segment_paths root' ↔ n = p ∨ n ∈ segment_paths root) as Hel.
  { intros n. rewrite !segment_paths_elem. unfold root'. destruct (decide (n = p)) as [->|Hne].
    - rewrite lookup_insert_eq. naive_solver.
    - rewrite lookup_insert_ne by done. naive_solver. }
  rewrite (log_records_last root' p).
  - rewrite (concat_recs_other root) by (intros; by apply lookup_insert_ne).
    unfold seg_recs at 2, seg_parse. unfold root' at 2. rewrite lookup_insert_eq. simpl. rewrite app_nil_r.
    unfold log_records. do 2 f_equal. symmetry. apply segment_paths_ext.
    intros n. rewrite Hel. split; [|naive_solver]. intros Hin. split; [|by right].
    intros ->. apply segment_paths_elem in Hin as [_ [? ?]]. congruence.
  - apply Hel. by left.
  - intros q [->|Hq]%Hel; [|by apply Hmax].
    destruct (str_leb_total p p); done.
Qed.

(** ** The writer's invariant

    Segments are numbered below [next_seq]; the open one is the last, holds
    whole frames, and [bytes_written] is its length. *)
Definition open_ok (w : SegmentWriter) (root : WalDir) (seg : OpenSegment) : Prop :=
  ∃ seq f rs fs, sw_next_seq w = (seq + 1)%N ∧ (seq ≤ u64_max)%N ∧
    os_path seg = segment_name seq ∧ root !! os_path seg = Some f ∧
    f_bytes f = concat fs ∧ frames_of rs fs ∧ os_bytes_written seg = lenN (f_bytes f) ∧
    sw_current_seq w = (seq + 1)%N.

Record writer_inv (w : SegmentWriter) (root : WalDir) : Prop := {
  wi_seqs : seqs_below (sw_next_seq w) root;
  wi_current : match sw_current w with
               | None => sw_current_seq w = 0%N
               | Some seg => open_ok w root seg
               end;
}.

Lemma close_inv w root : writer_inv w root → writer_inv (close_current w) root.
Proof. intros [Hs _]. by constructor. Qed.

Lemma seqs_below_max n root seq :
  seqs_below (n + 1) root → (seq ≤ u64_max)%N → (n ≤ seq)%N →
  ∀ q, q ∈ segment_paths root → str_leb q (segment_name seq) = true.
Proof.
  intros Hs Hseq Hle q (s & Hlt & Hu & ->)%Hs. rewrite segment_name_leb by done. apply N.leb_le. lia.
Qed.

Lemma seqs_below_fresh n root : seqs_below n root → (n ≤ u64_max)%N → root !! segment_name n = None.
Proof.
  intros Hs Hn. destruct (root !! segment_name n) as [f|] eqn:Hf; [|done].
  destruct (Hs (segment_name n)) as (s & Hlt & Hu & Heq).
  { apply segment_paths_elem. split; [apply segment_name_wal|by eexists]. }
  apply (f_equal parse_seq) in Heq. rewrite !parse_seq_name in Heq by done. injection Heq as ->. lia.
Qed.

Lemma open_segment_inv io w root w' root' res :
  writer_inv w root → sw_current w = None → (sw_next_seq w ≤ u64_max)%N →
  open_segment_file io w root = (w', root', res) →
  writer_inv w' root' ∧ log_records root' = log_records root ∧
  (sw_next_seq w' = sw_next_seq w + 1)%N ∧
  (res = Ok tt ∧ is_Some (sw_current w') ∨ is_ok res = false).
Proof.
  intros [Hs Hc] Hnone Hmax. unfold open_segment_file. rewrite (seqs_below_fresh _ _ Hs Hmax).
  assert (seqs_below (sw_next_seq w + 1) root) as Hs1
    by (intros p (s & ? & ? & ?)%Hs; exists s; split_and!; [lia|done|done]).
  destruct (io_open_ok io); intros [= <- <- <-].
  - split_and!; [|apply log_records_new|done|left; by eauto].
    + constructor; simpl.
      * intros p [Hw Hp]%segment_paths_elem. destruct (decide (p = segment_name (sw_next_seq w))) as [->|Hne].
        -- exists (sw_next_seq w). split_and!; [lia|done|done].
        -- rewrite lookup_insert_ne in Hp by done. apply Hs1, segment_paths_elem. done.
      * exists (sw_next_seq w), (mkSegFile [] None), [], []. simpl. rewrite lookup_insert_eq.
        split_and!; try done. constructor.
    + by apply seqs_below_fresh.
    + apply segment_name_wal.
    + by apply (seqs_below_max (sw_next_seq w)).
  - split_and!; [|done|done|by right]. constructor; simpl; [done|]. by rewrite Hnone in *.
Qed.

Lemma roll_back_id io path n frames root f :
  io_set_len_ok io = true → root !! path = Some f → n = lenN (f_bytes f) →
  roll_back io path n frames root = root.
Proof.
  intros Hio Hf ->. unfold roll_back. rewrite Hio. unfold set_len, append_bytes.
  apply map_eq. intros q. destruct (decide (q = path)) as [->|Hne].
  - rewrite !lookup_alter_eq, Hf. destruct f as [bs m]. simpl.
    unfold lenN. by rewrite Nat2N.id, take_app_length.
  - by rewrite !lookup_alter_ne.
Qed.

(** Writing to the open segment. *)
Lemma append_inv w root seg rs fs :
  writer_inv w root → sw_current w = Some seg → frames_of rs fs →
  writer_inv
    (with_current (Some (mkOpenSegment (os_path seg) (os_bytes_written seg + lenN (concat fs))))
       (sw_current_seq w) w)
    (append_bytes (os_path seg) (concat fs) root) ∧
  log_records (append_bytes (os_path seg) (concat fs) root) = log_records root ++ (decoded_record <$> rs).
Proof.
  intros [Hs Hc] Hcur Hfs. rewrite Hcur in Hc.
  destruct Hc as (seq & f & rs0 & fs0 & Hn & Hu & Hp & Hf & Hb & Hfs0 & Hlen & Hcs). split.
  - constructor; simpl.
    + unfold append_bytes. intros p. rewrite alter_paths. apply Hs.
    + exists seq, (mkSegFile (f_bytes f ++ concat fs) (f_modified f)), (rs0 ++ rs), (fs0 ++ fs).
      unfold append_bytes. rewrite lookup_alter_eq, Hf. simpl.
      split_and!; try done; [by rewrite Hb, concat_app|by apply Forall2_app|by rewrite lenN_app, Hlen].
  - apply (log_records_append _ _ f fs0 rs0); try done.
    + rewrite Hp. apply segment_name_wal.
    + rewrite Hp. apply (seqs_below_max seq); [by rewrite <-Hn|done|lia].
Qed.

Lemma write_group_inv io group w root rs w' root' res :
  writer_inv w root → frames_of rs (wr_frame <$> group) → io_set_len_ok io = true →
  (sw_next_seq w ≤ u64_max)%N → write_group io group w root = (w', root', res) →
  writer_inv w' root' ∧
  log_records root' = log_records root ++ (if is_ok res then decoded_record <$> rs else []) ∧
  (sw_next_seq w ≤ sw_next_seq w')%N.
Proof.
  intros Hinv Hfs Hio Hmax. unfold write_group. set (frames := concat (wr_frame <$> group)).
  set (w0 := match sw_current w with Some s => _ | None => w end).
  assert (writer_inv w0 root ∧ sw_next_seq w0 = sw_next_seq w) as [Hinv0 Hn0].
  { unfold w0. destruct (sw_current w) as [s|]; [|done]. destruct (_ <? _)%N; [|done].
    split; [by apply close_inv|done]. }
  clearbody w0. rewrite <-Hn0 in Hmax |- *. clear w Hinv Hn0.
  destruct (match sw_current w0 with None => _ | Some _ => _ end) as [[w1 root1] opened] eqn:Hopen.
  assert (writer_inv w1 root1 ∧ log_records root1 = log_records root ∧
    (sw_next_seq w0 ≤ sw_next_seq w1)%N) as (Hinv1 & Hlog1 & Hn1).
  { destruct (sw_current w0) eqn:Hc0; [by injection Hopen as <- <- <-|].
    destruct (open_segment_inv _ _ _ _ _ _ Hinv0 Hc0 Hmax Hopen) as (? & ? & ? & _). split_and!; [done..|lia]. }
  destruct opened as [|e]; [|intros [= <- <- <-]; simpl; rewrite app_nil_r; done].
  destruct (sw_current w1) as [seg|] eqn:Hc1; [|intros [= <- <- <-]; simpl; rewrite app_nil_r; done].
  assert (roll_back io (os_path seg) (os_bytes_written seg) frames root1 = root1) as ->.
  { pose proof (wi_current _ _ Hinv1) as Hcur. rewrite Hc1 in Hcur.
    destruct Hcur as (seq & f & rs0 & fs0 & _ & _ & _ & Hf & _ & _ & Hlen & _). by eapply roll_back_id. }
  destruct (append_inv w1 root1 seg rs (wr_frame <$> group)) as [Hinv2 Hlog2]; [done..|].
  rewrite <-Hlog1. destruct (negb (io_write_ok io)); [|destruct (negb (io_flush_ok io));
    [|destruct (sw_fsync_on_append w1 && negb (io_sync_ok io))]];
    intros [= <- <- <-]; simpl; rewrite ?app_nil_r; done.
Qed.

(** ** Rounds of the task *)
#[export] Instance Reply_eq_dec : EqDecision Reply.
Proof. solve_decision. Defined.

(** The requests a round serves, and those it acknowledged. *)
Definition round_group (queue : list WriterCommand) : list WriteRequest :=
  match queue with
  | Write_ first :: queue => first :: (take_group (MAX_GROUP_FRAMES - 1) queue).1.1
  | _ => []
  end.
Definition acked_requests (queue : list WriterCommand) (replies : list Reply) : list WriteRequest :=
  filter (λ r, Acked (wr_ack r) (Ok tt) ∈ replies) (round_group queue).

(** Only encoded frames within the limit are queued. *)
Definition command_ok (cmd : WriterCommand) : Prop :=
  match cmd with
  | Write_ r => ∃ rec, encode_frame rec = Ok (wr_frame r) ∧ payload_fits rec
  | Rotate _ => True
  end.

Lemma take_group_requests n queue :
  Forall command_ok queue → Forall (command_ok ∘ Write_) (take_group n queue).1.1.
Proof.
  intros Hq. revert n. induction Hq as [|[r|d] queue Hr _ IH]; intros [|n]; simpl; try done.
  specialize (IH n). destruct (take_group n queue) as [[group rot] rest]. simpl in *. by constructor.
Qed.

Lemma requests_frames group :
  Forall (command_ok ∘ Write_) group → ∃ recs, frames_of recs (wr_frame <$> group).
Proof.
  induction 1 as [|r group (rec & Hrec & Hfit) _ (recs & IH)]; [by exists []; constructor|].
  exists (rec :: recs). by constructor.
Qed.

Lemma acked_all_ok group extra :
  filter (λ r, Acked (wr_ack r) (Ok tt) ∈ ((λ r, Acked (wr_ack r) (Ok tt)) <$> group) ++ extra) group
  = group.
Proof.
  assert (∀ l, l ⊆ group →
    filter (λ r, Acked (wr_ack r) (Ok tt) ∈ ((λ r, Acked (wr_ack r) (Ok tt)) <$> group) ++ extra) l = l) as Hl;
    [|by apply Hl].
  induction l as [|r l IH]; intros Hsub; [done|]. rewrite filter_cons, decide_True.
  - rewrite IH; [done|]. set_solver.
  - apply elem_of_app. left. apply list_elem_of_fmap. exists r. set_solver.
Qed.

Lemma acked_all_err group extra e :
  (∀ a, Acked a (Ok tt) ∉ extra) →
  filter (λ r, Acked (wr_ack r) (Ok tt) ∈ ((λ r, Acked (wr_ack r) (Err e)) <$> group) ++ extra) group
  = [].
Proof.
  intros Hex.
  assert (∀ l, filter (λ r, Acked (wr_ack r) (Ok tt) ∈
    ((λ r, Acked (wr_ack r) (Err e)) <$> group) ++ extra) l = []) as Hl; [|by apply Hl].
  induction l as [|r l IH]; [done|]. rewrite filter_cons, decide_False; [done|].
  intros [(q & [=] & _)%list_elem_of_fmap|Hin]%elem_of_app. by apply (Hex (wr_ack r)).
Qed.

Lemma run_round_inv io queue w root w' root' replies rest :
  writer_inv w root → Forall command_ok queue → io_set_len_ok io = true →
  (sw_next_seq w ≤ u64_max)%N → run_round io queue w root = (w', root', replies, rest) →
  writer_inv w' root' ∧
  ∃ recs, frames_of recs (wr_frame <$> acked_requests queue replies) ∧
    log_records root' = log_records root ++ (decoded_record <$> recs).
Proof.
  intros Hinv Hq Hio Hmax. unfold run_round, acked_requests.
  destruct queue as [|[first|d] queue]; cbn [round_group].
  1,3: intros [= <- <- <- <-]; split; [by try apply close_inv|];
    exists []; rewrite app_nil_r; split; [constructor|done].
  apply Forall_cons in Hq as [Hfirst Hq]. pose proof (take_group_requests (MAX_GROUP_FRAMES - 1) queue Hq) as Hgroup.
  destruct (take_group (MAX_GROUP_FRAMES - 1) queue) as [[group rotate_after] queue']. simpl in Hgroup. cbn [fst].
  destruct (requests_frames (first :: group)) as (recs & Hrecs); [by constructor|].
  destruct (write_group io (first :: group) w root) as [[w1 root1] res] eqn:Hw.
  destruct (write_group_inv _ _ _ _ _ _ _ _ Hinv Hrecs Hio Hmax Hw) as (Hinv1 & Hlog & _).
  pose proof (close_inv _ _ Hinv1) as Hclose.
  destruct res as [u|e]; destruct rotate_after as [d|]; intros [= <- <- <- <-]; split;
    try done; try (by apply close_inv).
  - exists recs. split; [|done]. replace (filter _ _) with (first :: group); [done|].
    symmetry. apply (acked_all_ok (first :: group) [Rotated d]).
  - exists recs. split; [|done]. replace (filter _ _) with (first :: group); [done|].
    pose proof (acked_all_ok (first :: group) []) as Ha. rewrite app_nil_r in Ha.
    symmetry. exact Ha.
  - exists []. split; [|done]. replace (filter _ _) with (@nil WriteRequest); [constructor|].
    symmetry. apply (acked_all_err (first :: group) [Rotated d]). by intros a ?%list_elem_of_singleton.
  - exists []. split; [|done]. replace (filter _ _) with (@nil WriteRequest); [constructor|].
    pose proof (acked_all_err (first :: group) [] (wal "group write failed: {msg}")) as Ha.
    rewrite app_nil_r in Ha. symmetry. apply Ha. intros; apply not_elem_of_nil.
Qed.

(** Reachable states, with the requests acknowledged so far. *)
Inductive writer_reach (w0 : SegmentWriter) (root0 : WalDir) :
    SegmentWriter → WalDir → list WriteRequest → Prop :=
| reach_init : writer_reach w0 root0 w0 root0 []
| reach_round w root acked io queue w' root' replies rest :
    writer_reach w0 root0 w root acked → Forall command_ok queue → io_set_len_ok io = true →
    (sw_next_seq w ≤ u64_max)%N → run_round io queue w root = (w', root', replies, rest) →
    writer_reach w0 root0 w' root' (acked ++ acked_requests queue replies).

Lemma spawn_inv max_bytes fsync root :
  canonical root → writer_inv (spawn max_bytes fsync (scan_next_seq root)) root.
Proof.
  intros Hcan. constructor; [|done]. intros p Hp. destruct (Hcan p Hp) as (seq & Hu & ->).
  exists seq. split_and!; try done. apply segment_paths_elem in Hp as [_ [f Hf]].
  simpl. eapply scan_next_seq_above; [done|]. by apply parse_seq_name.
Qed.
End writer.

(** ** The first segment of an empty directory *)
Lemma first_segment_max n m q :
  q ∈ segment_paths (<[segment_name n := m]> ∅) → str_leb q (segment_name n) = true.
Proof.
  intros [_ [f Hf]]%segment_paths_elem.
  apply lookup_insert_Some in Hf as [[<- _]|[_ Hf]]; [|by apply lookup_empty_Some in Hf].
  destruct (str_leb_total (segment_name n) (segment_name n)); done.
Qed.

Lemma log_records_empty `{WalCodec} : log_records ∅ = [].
Proof.
  unfold log_records. destruct (segment_paths ∅) as [|p l] eqn:Hp; [done|].
  assert (p ∈ segment_paths ∅) as [_ [f Hf]]%segment_paths_elem by (rewrite Hp; by left).
  by apply lookup_empty_Some in Hf.
Qed.

Lemma log_records_first `{WalCodec} n :
  log_records (<[segment_name n := mkSegFile [] None]> ∅) = [].
Proof.
  rewrite log_records_new; [apply log_records_empty|done|apply segment_name_wal|].
  intros q [_ [f Hf]]%segment_paths_elem. by apply lookup_empty_Some in Hf.
Qed.

(** ** Main theorems *)
Definition io_fine : GroupIo := mkGroupIo true true true true true 0.


Definition demo_request (gen : N) (ack : nat) : WriteRequest :=
  mkWriteRequest (demo_frame (demo_append gen)) ack.

Lemma demo_command_ok gen ack :
  @encode_frame demo_wal_codec (demo_append gen) = Ok (demo_frame (demo_append gen)) →
  (lenN (demo_frame (demo_append gen)) <=? MAX_PAYLOAD_BYTES)%N = true →
  @command_ok demo_wal_codec (Write_ (demo_request gen ack)).
Proof.
  intros He Hl. exists (demo_append gen). split; [done|]. by eapply demo_append_fits.
Qed.


(**  A failed append can be replayed: when a write fails after the frame's bytes
    reached the file and the truncation that follows also fails, its error is ignored;
    the waiter is told the append failed, and the record is in the log. *)
Theorem failed_append_survives `{WalCodecLaws} (r : WalRecord) (f : list byte) (max_bytes : N)
    (Hf : encode_frame r = Ok f) (Hfit : payload_fits r) :
  let io := mkGroupIo true false true true false (length f) in
  ∃ w root replies,
    run_round io [Write_ (mkWriteRequest f 0)] (spawn max_bytes true 1) ∅ = (w, root, replies, []) ∧
    replies = [Acked 0 (Err (wal "group write failed: {msg}"))] ∧
    log_records root = [decoded_record r].
Proof.
  intros io. exists (close_current (mkSegmentWriter max_bytes true None 2 0)),
    (append_bytes (segment_name 1) f (<[segment_name 1 := mkSegFile [] None]> ∅)).
  eexists. split_and!; [|reflexivity|].
  - cbn -[segment_name roll_back]. rewrite lookup_empty, app_nil_r. unfold roll_back.
    cbn [io_landed io_set_len_ok io]. rewrite take_ge by done. reflexivity.
  - rewrite <-(app_nil_r f). change (f ++ []) with (concat [f]).
    rewrite (log_records_append _ _ (mkSegFile [] None) [] [] [f] [r]); simpl.
    + by rewrite log_records_first.
    + apply lookup_insert_eq.
    + apply segment_name_wal.
    + apply first_segment_max.
    + done.
    + constructor.
    + by constructor; [|constructor].
Qed.

Lemma failed_append_survives_witness :
  let f := demo_frame (demo_append 4) in
  ∃ w root replies,
    run_round (mkGroupIo true false true true false (length f)) [Write_ (mkWriteRequest f 0)]
      (spawn 1000 true 1) ∅ = (w, root, replies, []) ∧
    replies = [Acked 0 (Err (wal "group write failed: {msg}"))] ∧
    @log_records demo_wal_codec root = [@decoded_record demo_wal_codec (demo_append 4)].
Proof.
  refine (@failed_append_survives demo_wal_codec demo_wal_codec_laws (demo_append 4)
            (demo_frame (demo_append 4)) 1000 _ _).
  - vm_compute. reflexivity.
  - apply (demo_append_fits 4 (demo_frame (demo_append 4))); vm_compute; reflexivity.
Defined.

Lemma parse_one_frame `{WalCodecLaws} r f :
  encode_frame r = Ok f → payload_fits r →
  parse_segment f = ([(0%N, decoded_record r)], TailEnd).
Proof.
  intros Hf Hfit. unfold parse_segment. rewrite <-(app_nil_r f), (parse_from_frame 0 r) by done.
  by rewrite parse_from_eq.
Qed.

Lemma candidate_single n f :
  (n ≤ u64_max)%N → candidate_segments 0 {[segment_name n := f]} = [(n, segment_name n)].
Proof.
  intros Hn. unfold candidate_segments. rewrite map_to_list_singleton.
  change ([(segment_name n, f)].*1) with [segment_name n]. cbn [omap list_omap].
  rewrite parse_seq_name by done. by rewrite decide_False.
Qed.

(** A pass that believes no segment is open deletes one that holds a tombstone only. *)
Lemma gc_deletes_tombstone_segment `{WalCodecLaws} r f committed :
  encode_frame r = Ok f → payload_fits r → op (header r) = DropTable →
  (collect_garbage (λ _, true) (λ _, true) 0 committed (<[segment_name 1 := mkSegFile f None]> ∅)).1 = ∅.
Proof.
  intros Hf Hfit Hop. rewrite (insert_empty (M := gmap string)). unfold collect_garbage.
  rewrite candidate_single by (unfold u64_max; lia). cbn [scan_readable_prefix].
  rewrite lookup_singleton_eq. cbn [fmap option_fmap option_map f_bytes].
  rewrite scan_segment_parse, (parse_one_frame r) by done.
  assert (scan_frame_of (decoded_record r) = ScanDrop (h_table (header r))) as Hsf.
  { rewrite scan_frame_of_decoded. unfold scan_frame_of. by rewrite Hop. }
  change ((scan_frame_of ∘ snd <$> ([(0%N, decoded_record r)], TailEnd).1))
    with [scan_frame_of (decoded_record r)]. rewrite Hsf.
  cbn -[segment_name delete]. apply delete_singleton_eq.
Qed.

(**  A garbage collection pass can lose acknowledged appends.  The pass reads the
    published open-segment number before it lists the directory; here it reads "none"
    just before the writer opens a segment for a drop tombstone.  The listed segment
    holds a dead tombstone only and is deleted while open, the next append is
    acknowledged, and the directory holds no record at all. *)
Theorem gc_race_loses_append `{WalCodecLaws} (t r : WalRecord) (ft fr : list byte) (max_bytes : N)
    (committed : gmap WalTableKey Generation)
    (Ht : encode_frame t = Ok ft) (Hr : encode_frame r = Ok fr) (Hfit : payload_fits t)
    (Hop : op (header t) = DropTable) (Hmax : (lenN ft + lenN fr ≤ max_bytes)%N) :
  let w0 := spawn max_bytes true 1 in
  let seen := sw_current_seq w0 in
  let '(w1, root1, replies1, _) := run_round io_fine [Write_ (mkWriteRequest ft 0)] w0 ∅ in
  let root2 := (collect_garbage (λ _, true) (λ _, true) seen committed root1).1 in
  let '(w2, root3, replies2, _) := run_round io_fine [Write_ (mkWriteRequest fr 1)] w1 root2 in
  replies1 = [Acked 0 (Ok tt)] ∧ replies2 = [Acked 1 (Ok tt)] ∧ log_records root3 = [].
Proof.
  intros w0 seen. cbn -[segment_name append_bytes collect_garbage N.ltb N.add lenN]. rewrite lookup_empty, !app_nil_r.
  assert (append_bytes (segment_name 1) ft (<[segment_name 1 := mkSegFile [] None]> ∅) =
          <[segment_name 1 := mkSegFile ft None]> ∅) as ->.
  { unfold append_bytes. by rewrite alter_insert_eq. }
  rewrite (gc_deletes_tombstone_segment t) by done.
  rewrite N.add_0_l. unfold write_group.
  cbn -[segment_name append_bytes N.ltb N.add lenN]. rewrite app_nil_r, (proj2 (N.ltb_ge _ _)) by lia.
  cbn -[segment_name append_bytes N.add lenN]. split_and!; [done..|].
  unfold append_bytes. rewrite alter_empty. apply log_records_empty.
Qed.

Definition demo_drop : @WalRecord demo_wal_codec := @drop_tombstone demo_wal_codec 900 0 demo_table.

Lemma gc_race_loses_append_witness :
  let w0 := spawn 100000 true 1 in
  let seen := sw_current_seq w0 in
  let '(w1, root1, replies1, _) := run_round io_fine [Write_ (mkWriteRequest (demo_frame demo_drop) 0)] w0 ∅ in
  let root2 := (@collect_garbage demo_wal_codec (λ _, true) (λ _, true) seen ∅ root1).1 in
  let '(w2, root3, replies2, _) :=
    run_round io_fine [Write_ (mkWriteRequest (demo_frame (demo_append 4)) 1)] w1 root2 in
  replies1 = [Acked 0 (Ok tt)] ∧ replies2 = [Acked 1 (Ok tt)] ∧
  @log_records demo_wal_codec root3 = [].
Proof.
  refine (@gc_race_loses_append demo_wal_codec demo_wal_codec_laws demo_drop (demo_append 4)
            (demo_frame demo_drop) (demo_frame (demo_append 4)) 100000 ∅ _ _ _ eq_refl _).
  - vm_compute. reflexivity.
  - vm_compute. reflexivity.
  - intros p Hp. assert ((lenN p <=? MAX_PAYLOAD_BYTES)%N = true) as ?%N.leb_le; [|done].
    injection Hp as <-. vm_compute. reflexivity.
  - apply N.leb_le. vm_compute. reflexivity.
Defined.

(**  Salvage keeps the validated prefix of a corrupt segment only once: it renames
    the segment away without writing the prefix anywhere else, so a second replay (after
    a crash before the replayed rows are flushed) returns the live records of the
    readable segments only, and none of the prefix it returned the first time. *)
Theorem salvage_prefix_not_durable `{WalCodec} (rename_ok : string → bool)
    (committed : gmap WalTableKey Generation) (root root1 : WalDir) (rs : list WalRecord)
    (Hok : dir_ok root) (Hok1 : dir_ok root1) (Hren : ∀ p, rename_ok p = true)
    (Hfirst : replay_all rename_ok committed ModeSalvage root = Returns (root1, rs)) :
  replayed (replay_all rename_ok committed ModeSalvage root1) =
    Some (stable_sort rec_leb (live_before committed
      (concat (seg_recs root <$> filter (λ p, seg_corrupt root p = false) (segment_paths root))) [])).
Proof.
  rewrite replay_all_spec in Hfirst by auto. injection Hfirst as <- _.
  rewrite replayed_spec by done. simpl. rewrite replay_spec_records, quarantine_all_paths.
  do 4 f_equal. apply list_fmap_ext.
  intros i p [Hc Hp]%list_elem_of_lookup_2%list_elem_of_filter. apply seg_recs_other.
  destruct (quarantine_foldl root root _ p (pending_ok_paths root) Hp) as [Hq _].
  rewrite Hc in Hq. done.
Qed.

Definition demo_corrupt_root : WalDir :=
  {[ segment_name 1 := mkSegFile (demo_frame (demo_append 1) ++ [x00; x00; x00; x00; x01; x00; x00; x00]) None ]}.

Lemma demo_corrupt_replay :
  @replay_all demo_wal_codec (λ _, true) ∅ ModeSalvage demo_corrupt_root =
    Returns (quarantine_all (H := demo_wal_codec) demo_corrupt_root, [demo_append 1]).
Proof. vm_compute. reflexivity. Qed.

Lemma salvage_prefix_not_durable_witness :
  replayed (@replay_all demo_wal_codec (λ _, true) ∅ ModeSalvage
    (quarantine_all (H := demo_wal_codec) demo_corrupt_root)) = Some [].
Proof.
  rewrite (@salvage_prefix_not_durable demo_wal_codec (λ _, true) ∅ demo_corrupt_root
             (quarantine_all (H := demo_wal_codec) demo_corrupt_root) [demo_append 1]).
  - vm_compute. reflexivity.
  - intros p f Hf. unfold demo_corrupt_root in Hf. apply lookup_singleton_Some in Hf as [_ <-]. apply N.leb_le. vm_compute. reflexivity.
  - assert (quarantine_all (H := demo_wal_codec) demo_corrupt_root =
      {[ quarantine_path (segment_name 1) :=
         mkSegFile (demo_frame (demo_append 1) ++ [x00; x00; x00; x00; x01; x00; x00; x00]) None ]}) as ->
      by (vm_compute; reflexivity).
    intros p f Hf. apply lookup_singleton_Some in Hf as [_ <-]. apply N.leb_le. vm_compute. reflexivity.
  - done.
  - apply demo_corrupt_replay.
Defined.
