(* ===== verification/Durable.v ===== *)
(** * Atomic replacement of a file

    The idiom [persist_identity] ([wal/identity.rs]) and [persist]
    ([wal/prepared.rs]) share: write a fresh temporary file, fsync it, rename it
    over the target, fsync the directory, and remove the temporary file when any
    step failed. *)

From S2P Require Import Prelude Core WalFrame WalReplay.
Open Scope nat_scope.
Open Scope list_scope.

Inductive AtomicStep := CreateTemp | WriteTemp | SyncTemp | RenameTemp | SyncDirectory | CleanupTemp.

(** What the system does to one replacement: the steps that fail, and the bytes a
    failed write leaves in the temporary file. *)
Record IoFaults := mkIoFaults { io_fails : AtomicStep → bool; io_torn : list byte }.
Definition no_faults : IoFaults := mkIoFaults (λ _, false) [].

Section atomic.
Context (err : AtomicStep → TeoDBError).

Definition atomic_steps (io : IoFaults) (dir : WalDir) (tmp path : string) (bytes : list byte) :
    WalDir * TeoDBResult unit :=
  if io_fails io CreateTemp || bool_decide (is_Some (dir !! tmp)) then (dir, Err (err CreateTemp))
  else if io_fails io WriteTemp then (<[tmp := mkSegFile (io_torn io) None]> dir, Err (err WriteTemp))
  else
    let dir1 := <[tmp := mkSegFile bytes None]> dir in
    if io_fails io SyncTemp then (dir1, Err (err SyncTemp))
    else if io_fails io RenameTemp then (dir1, Err (err RenameTemp))
    else
      let dir2 := rename_file dir1 tmp path in
      if io_fails io SyncDirectory then (dir2, Err (err SyncDirectory)) else (dir2, Ok tt).

Definition atomic_replace (io : IoFaults) (dir : WalDir) (tmp path : string) (bytes : list byte) :
    WalDir * TeoDBResult unit :=
  let '(dir', result) := atomic_steps io dir tmp path bytes in
  match result with
  | Ok _ => (dir', result)
  | Err _ => (if io_fails io CleanupTemp then dir' else delete tmp dir', result)
  end.

(** The target holds its old content or the new one, the new one on success, and no
    other file than the temporary one changes. *)
Lemma atomic_replace_spec io dir tmp path bytes dir' r :
  tmp ≠ path → atomic_replace io dir tmp path bytes = (dir', r) →
  (r = Ok tt → dir' !! path = Some (mkSegFile bytes None)) ∧
  (dir' !! path = dir !! path ∨ dir' !! path = Some (mkSegFile bytes None)) ∧
  (∀ n, n ≠ tmp → n ≠ path → dir' !! n = dir !! n).
Proof.
  intros Hne. unfold atomic_replace, atomic_steps, rename_file. rewrite lookup_insert_eq.
  repeat case_match; simplify_eq; intros; simplify_eq; split_and!; intros; try done;
    rewrite ?lookup_delete_ne, ?lookup_insert_ne, ?lookup_delete_ne, ?lookup_insert_ne,
      ?lookup_insert_eq by done; auto.
Qed.

Lemma atomic_replace_ok dir tmp path bytes :
  dir !! tmp = None →
  atomic_replace no_faults dir tmp path bytes = (<[path := mkSegFile bytes None]> dir, Ok tt).
Proof.
  intros Htmp. unfold atomic_replace, atomic_steps, rename_file. simpl.
  rewrite Htmp, bool_decide_false by (intros []; done). rewrite lookup_insert_eq.
  by rewrite delete_insert_id.
Qed.

Lemma atomic_replace_Ok_inv io dir tmp path bytes dir' :
  atomic_replace io dir tmp path bytes = (dir', Ok tt) →
  dir !! tmp = None ∧ dir' = <[path := mkSegFile bytes None]> dir.
Proof.
  unfold atomic_replace, atomic_steps, rename_file. rewrite lookup_insert_eq.
  destruct (io_fails io CreateTemp); [done|]. case_bool_decide as Htmp; [done|]. simpl.
  destruct (dir !! tmp) eqn:Hl; [destruct Htmp; eauto|].
  repeat case_match; intros; simplify_eq. by rewrite delete_insert_id.
Qed.
End atomic.
