(* ===== verification/WalIdentity.v ===== *)
(** * The durable writer identity

    Models [teodb-storage/src/wal/identity.rs] over the WAL root directory: the
    identity file is read and replaced atomically, [open] issues the next epoch
    and [observe_epoch_and_bump] moves it past an epoch seen in the catalog.
    UUID generation, the name-based UUIDs of [WriterId::derive] and the JSON text
    are interfaces. *)

From S2P Require Import Prelude Core Location WriteProtocol WalFrame WalReplay WalState Durable.
Open Scope nat_scope.
Open Scope list_scope.

Definition IDENTITY_FILE : string := "writer-identity.json".
Definition IDENTITY_VERSION : N := 1.
Definition MAX_IDENTITY_FILE_BYTES : N := 16 * 1024.

Record WalIdentityConfig := mkWalIdentityConfig {
  cfg_cluster_id : option Uuid; cfg_node_id : option string; cfg_writer_slot : option string }.

Record IdentityFile := mkIdentityFile {
  if_version : N; if_cluster_id : Uuid; if_writer_slot : string; if_writer_id : Uuid;
  if_epoch : WriterEpoch }.

Record ResolvedIdentity := mkResolvedIdentity {
  ri_cluster_id : Uuid; ri_node_id : string; ri_writer_slot : string; ri_writer_id : Uuid;
  ri_writer_epoch : WriterEpoch }.

(** [Uuid::new_v5]: a function of namespace and name, never nil. *)
Class UuidV5 := { uuid_new_v5 : Uuid → string → Uuid }.
Class UuidV5Laws `{UuidV5} : Prop := {
  uuid_new_v5_range c s : (0 < uuid_new_v5 c s ≤ u128_max)%N }.

Class IdentityJson := {
  identity_to_json : IdentityFile → list byte;
  identity_from_json : list byte → option IdentityFile;
}.
(** The Rust types of the fields, with the length limit of a slot. *)
Definition identity_in_range (i : IdentityFile) : Prop :=
  (if_version i ≤ 65535)%N ∧ (if_cluster_id i ≤ u128_max)%N ∧ (if_writer_id i ≤ u128_max)%N ∧
  (if_epoch i ≤ u64_max)%N ∧ String.length (if_writer_slot i) ≤ MAX_IDENTITY_COMPONENT_BYTES.
(** Documented behaviour: the derived codec round-trips; five short fields print
    within a few kilobytes. *)
Class IdentityJsonLaws `{IdentityJson} : Prop := {
  identity_from_to_json i :
    identity_in_range i → identity_from_json (identity_to_json i) = Some i;
  identity_json_length i :
    identity_in_range i → (0 < lenN (identity_to_json i) ≤ 4096)%N;
}.

Section identity.
Context `{UuidText} `{UuidV5} `{IdentityJson}.

Definition WriterId_derive (cluster_id : Uuid) (writer_slot : string) : Uuid :=
  uuid_new_v5 cluster_id writer_slot.

Definition read_identity (root : WalDir) : TeoDBResult IdentityFile :=
  f ← ok_or (root !! IDENTITY_FILE) (wal_source "stat writer identity" "{error}");
  let len := lenN (f_bytes f) in
  _ ← reject_if (len =? 0)%N (wal "writer identity file is empty");
  _ ← reject_if (MAX_IDENTITY_FILE_BYTES <? len)%N (wal "writer identity file exceeds {} bytes");
  identity ← ok_or (identity_from_json (f_bytes f)) (wal_source "parse writer identity" "{error}");
  _ ← reject_if (negb (if_version identity =? IDENTITY_VERSION)%N)
        (wal "unsupported writer identity version {}");
  _ ← reject_if (uuid_is_nil (if_cluster_id identity)) (wal "writer identity contains a nil cluster UUID");
  _ ← reject_if (uuid_is_nil (if_writer_id identity)) (wal "writer identity contains a nil writer UUID");
  _ ← map_err (λ _, wal "writer identity contains an invalid writer slot: {error}")
        (WriterSlot_new (if_writer_slot identity));
  let derived := WriterId_derive (if_cluster_id identity) (if_writer_slot identity) in
  _ ← reject_if (negb (if_writer_id identity =? derived)%N)
        (wal "writer identity is internally inconsistent: persisted {}, derived {}");
  Ok identity.

Definition validate_configured_identity (configured : WalIdentityConfig) : TeoDBResult unit :=
  _ ← reject_if (match cfg_cluster_id configured with Some c => uuid_is_nil c | None => false end)
        (Config "configured cluster UUID must not be nil");
  _ ← match cfg_node_id configured with Some n => NodeId_new n | None => Ok "" end;
  _ ← match cfg_writer_slot configured with Some s => WriterSlot_new s | None => Ok "" end;
  Ok tt.

Definition validate_identity (persisted : IdentityFile) (configured : WalIdentityConfig) :
    TeoDBResult unit :=
  _ ← reject_if (match cfg_cluster_id configured with
                 | Some c => negb (c =? if_cluster_id persisted)%N | None => false end)
        (Config "WAL cluster identity mismatch: configured {cluster_id}, persisted {}");
  _ ← reject_if (match cfg_writer_slot configured with
                 | Some s => negb (bool_decide (s = if_writer_slot persisted)) | None => false end)
        (Config "WAL writer slot mismatch: configured {writer_slot}, persisted {}");
  Ok tt.

(** The non-empty segments and checkpoint of a root. *)
Definition durable_files (root : WalDir) : list string :=
  (filter (λ nf, (str_ends_with ".wal" nf.1 || bool_decide (nf.1 = "committed.json"))
                 && (0 <? lenN (f_bytes nf.2))%N = true) (map_to_list root)).*1.

Definition ensure_uninitialized_root (root : WalDir) : TeoDBResult unit :=
  if bool_decide (durable_files root = []) then Ok tt
  else Err (wal "writer identity is missing while durable WAL state exists (files: {})").

Definition identity_io_error (s : AtomicStep) : TeoDBError :=
  match s with
  | CreateTemp => wal_source "create writer identity temp file" "{error}"
  | WriteTemp => wal_source "write writer identity temp file" "{error}"
  | SyncTemp => wal_source "fsync writer identity temp file" "{error}"
  | RenameTemp => wal_source "rename writer identity" "{error}"
  | SyncDirectory | CleanupTemp => wal_source "fsync WAL root after identity rename" "{error}"
  end.

Definition identity_tmp_path (suffix : Uuid) : string :=
  "." +:+ IDENTITY_FILE +:+ "." +:+ uuid_to_string suffix +:+ ".tmp".

(** [suffix] is the fresh UUID of the temporary name. *)
Definition persist_identity (io : IoFaults) (suffix : Uuid) (root : WalDir) (identity : IdentityFile) :
    WalDir * TeoDBResult unit :=
  atomic_replace identity_io_error io root (identity_tmp_path suffix) IDENTITY_FILE
    (identity_to_json identity).

(** What one [open] draws from its environment: the UUID of a new cluster, and the
    temporary names and faults of its two writes. *)
Record OpenEnv := mkOpenEnv {
  oe_new_cluster : Uuid; oe_suffix1 : Uuid; oe_io1 : IoFaults; oe_suffix2 : Uuid; oe_io2 : IoFaults }.

(** The first half of [open]: the persisted identity, created when there is none. *)
Definition load_or_create (env : OpenEnv) (root : WalDir) (configured : WalIdentityConfig) :
    WalDir * TeoDBResult IdentityFile :=
  match root !! IDENTITY_FILE with
  | Some _ => (root, read_identity root)
  | None =>
      match ensure_uninitialized_root root with
      | Err e => (root, Err e)
      | Ok _ =>
          let cluster_id := default (oe_new_cluster env) (cfg_cluster_id configured) in
          match (WriterSlot_new "standalone" : TeoDBResult string) with
          | Err e => (root, Err e)
          | Ok standalone =>
              let writer_slot := default standalone (cfg_writer_slot configured) in
              let identity := mkIdentityFile IDENTITY_VERSION cluster_id writer_slot
                                (WriterId_derive cluster_id writer_slot) 0 in
              let '(root', res) := persist_identity (oe_io1 env) (oe_suffix1 env) root identity in
              (root', match res with Ok _ => Ok identity | Err e => Err e end)
          end
      end
  end.

(** The second half: check it against the configuration and issue the next epoch. *)
Definition issue_next (env : OpenEnv) (root : WalDir) (configured : WalIdentityConfig) (node_id : string)
    (persisted : IdentityFile) : WalDir * TeoDBResult ResolvedIdentity :=
  match (_ ← validate_identity persisted configured; checked_next (if_epoch persisted)) with
  | Err e => (root, Err e)
  | Ok epoch =>
      let persisted := mkIdentityFile (if_version persisted) (if_cluster_id persisted)
                         (if_writer_slot persisted) (if_writer_id persisted) epoch in
      let '(root', res) := persist_identity (oe_io2 env) (oe_suffix2 env) root persisted in
      (root', match res with
              | Ok _ => Ok (mkResolvedIdentity (if_cluster_id persisted) node_id
                              (if_writer_slot persisted) (if_writer_id persisted) epoch)
              | Err e => Err e
              end)
  end.

Definition identity_open (env : OpenEnv) (root : WalDir) (configured : WalIdentityConfig) :
    WalDir * TeoDBResult ResolvedIdentity :=
  match (_ ← validate_configured_identity configured; NodeId_new "standalone") with
  | Err e => (root, Err e)
  | Ok standalone =>
      let node_id := default standalone (cfg_node_id configured) in
      match load_or_create env root configured with
      | (root', Err e) => (root', Err e)
      | (root', Ok persisted) => issue_next env root' configured node_id persisted
      end
  end.

Definition observe_epoch_and_bump (io : IoFaults) (suffix : Uuid) (root : WalDir)
    (resolved : ResolvedIdentity) (observed : WriterEpoch) :
    WalDir * ResolvedIdentity * TeoDBResult ResolvedIdentity :=
  if (observed <? ri_writer_epoch resolved)%N then (root, resolved, Ok resolved)
  else
    match checked_next observed with
    | Err e => (root, resolved, Err e)
    | Ok epoch =>
        let persisted := mkIdentityFile IDENTITY_VERSION (ri_cluster_id resolved)
                           (ri_writer_slot resolved) (ri_writer_id resolved) epoch in
        let '(root', res) := persist_identity io suffix root persisted in
        match res with
        | Err e => (root', resolved, Err e)
        | Ok _ =>
            let resolved' := mkResolvedIdentity (ri_cluster_id resolved) (ri_node_id resolved)
                               (ri_writer_slot resolved) (ri_writer_id resolved) epoch in
            (root', resolved', Ok resolved')
        end
    end.
End identity.

(** ** The life of one WAL root

    A root without an identity is opened, its epoch is bumped and its other files
    change, in any order and with any faults; a new [open] stands for a restart (the
    lease keeps two processes apart).  [ids_issued] records the identities handed to
    the rest of the program, newest first. *)
Record IdState := mkIdState {
  ids_root : WalDir; ids_live : option ResolvedIdentity; ids_issued : list ResolvedIdentity }.

Inductive IdEvent :=
| EvOpen (env : OpenEnv) (configured : WalIdentityConfig)
| EvObserve (io : IoFaults) (suffix : Uuid) (observed : WriterEpoch)
| EvFiles (others : WalDir).

Definition with_identity_of (root others : WalDir) : WalDir :=
  match root !! IDENTITY_FILE with
  | Some f => <[IDENTITY_FILE := f]> others
  | None => delete IDENTITY_FILE others
  end.

Section life.
Context `{UuidText} `{UuidV5} `{IdentityJson}.

Definition id_step (s : IdState) (e : IdEvent) : IdState :=
  match e with
  | EvOpen env configured =>
      match identity_open env (ids_root s) configured with
      | (root, Ok r) => mkIdState root (Some r) (r :: ids_issued s)
      | (root, Err _) => mkIdState root None (ids_issued s)
      end
  | EvObserve io suffix observed =>
      match ids_live s with
      | None => s
      | Some r =>
          let '(root, r', res) := observe_epoch_and_bump io suffix (ids_root s) r observed in
          mkIdState root (Some r')
            (if (ri_writer_epoch r <? ri_writer_epoch r')%N then r' :: ids_issued s else ids_issued s)
      end
  | EvFiles others => mkIdState (with_identity_of (ids_root s) others) (ids_live s) (ids_issued s)
  end.

Definition id_run (root : WalDir) (es : list IdEvent) : IdState :=
  foldl id_step (mkIdState root None []) es.
End life.

(** The Rust types of what an event brings in, and [now_v7] is not nil. *)
Definition event_typed (e : IdEvent) : Prop :=
  match e with
  | EvOpen env configured =>
      (0 < oe_new_cluster env ≤ u128_max)%N ∧ (∀ c, cfg_cluster_id configured = Some c → (c ≤ u128_max)%N)
  | EvObserve _ _ observed => (observed ≤ u64_max)%N
  | EvFiles _ => True
  end.

Section life_laws.
Context `{UuidText} `{UuidV5Laws} `{IdentityJsonLaws}.

Record identity_ok (i : IdentityFile) : Prop := {
  iok_range : identity_in_range i;
  iok_version : if_version i = IDENTITY_VERSION;
  iok_cluster : if_cluster_id i ≠ 0%N;
  iok_slot : WriterSlot_new (if_writer_slot i) = Ok (if_writer_slot i);
  iok_writer : if_writer_id i = WriterId_derive (if_cluster_id i) (if_writer_slot i);
}.

Definition same_identity (i : IdentityFile) (r : ResolvedIdentity) : Prop :=
  ri_cluster_id r = if_cluster_id i ∧ ri_writer_slot r = if_writer_slot i ∧
  ri_writer_id r = if_writer_id i.

Definition identity_seg (i : IdentityFile) : SegFile := mkSegFile (identity_to_json i) None.

Lemma identity_tmp_ne suffix : identity_tmp_path suffix ≠ IDENTITY_FILE.
Proof. unfold identity_tmp_path. rewrite str_app_cons. discriminate. Qed.

Lemma WriterSlot_new_length s s' :
  WriterSlot_new s = Ok s' → s' = s ∧ String.length s ≤ MAX_IDENTITY_COMPONENT_BYTES.
Proof.
  unfold WriterSlot_new, validate_identity_component.
  destruct (str_is_empty s); [done|]. 
  destruct (Nat.ltb_spec MAX_IDENTITY_COMPONENT_BYTES (String.length s)); [done|].
  destruct (negb _); [done|]. by intros [= <-].
Qed.

Lemma identity_ok_new c slot e :
  (0 < c ≤ u128_max)%N → WriterSlot_new slot = Ok slot → (e ≤ u64_max)%N →
  identity_ok (mkIdentityFile IDENTITY_VERSION c slot (WriterId_derive c slot) e).
Proof.
  intros Hc Hs He. pose proof (uuid_new_v5_range c slot).
  split; simpl; try done; [|lia]. unfold identity_in_range, WriterId_derive. simpl.
  apply WriterSlot_new_length in Hs as [_ ?]. unfold IDENTITY_VERSION. split_and!; lia.
Qed.

Lemma identity_ok_epoch i e :
  identity_ok i → (e ≤ u64_max)%N →
  identity_ok (mkIdentityFile (if_version i) (if_cluster_id i) (if_writer_slot i) (if_writer_id i) e).
Proof. intros [(?&?&?&?&?) ? ? ? ?] ?. by split. Qed.

Lemma read_identity_ok root i :
  root !! IDENTITY_FILE = Some (identity_seg i) → identity_ok i → read_identity root = Ok i.
Proof.
  intros Hf [Hr Hv Hc Hs Hw]. unfold read_identity. rewrite Hf.
  pose proof (identity_json_length i Hr). pose proof (uuid_new_v5_range (if_cluster_id i) (if_writer_slot i)).
  cbn [ok_or mbind result_bind f_bytes identity_seg].
  rewrite (proj2 (N.eqb_neq (lenN (identity_to_json i)) 0)) by lia.
  rewrite (proj2 (N.ltb_ge MAX_IDENTITY_FILE_BYTES (lenN (identity_to_json i))))
    by (unfold MAX_IDENTITY_FILE_BYTES; lia).
  cbn [reject_if mbind result_bind]. rewrite identity_from_to_json by done.
  cbn [ok_or mbind result_bind]. rewrite Hv, Hs, Hw. unfold uuid_is_nil.
  rewrite (proj2 (N.eqb_neq _ _) Hc). unfold WriterId_derive in *.
  rewrite (proj2 (N.eqb_neq (uuid_new_v5 _ _) 0)) by lia. by rewrite N.eqb_refl.
Qed.

Lemma persist_identity_spec io suffix root i root' res :
  persist_identity io suffix root i = (root', res) →
  (res = Ok tt → root' !! IDENTITY_FILE = Some (identity_seg i)) ∧
  (root' !! IDENTITY_FILE = root !! IDENTITY_FILE ∨ root' !! IDENTITY_FILE = Some (identity_seg i)).
Proof. intros Hp. apply atomic_replace_spec in Hp; [tauto|]. apply identity_tmp_ne. Qed.

(** What a root and the identities issued from it have in common. *)
Definition root_holds (issued : list ResolvedIdentity) (root : WalDir) : Prop :=
  match root !! IDENTITY_FILE with
  | None => issued = []
  | Some f => ∃ i, f = identity_seg i ∧ identity_ok i ∧
      Forall (λ r, same_identity i r ∧ (1 ≤ ri_writer_epoch r ≤ if_epoch i)%N) issued
  end.

Record id_inv (s : IdState) : Prop := {
  inv_root : root_holds (ids_issued s) (ids_root s);
  inv_sorted : StronglySorted (λ a b, (ri_writer_epoch b < ri_writer_epoch a)%N) (ids_issued s);
  inv_live : ∀ r, ids_live s = Some r → ∃ rs, ids_issued s = r :: rs;
}.

Lemma root_holds_stored issued root i :
  root !! IDENTITY_FILE = Some (identity_seg i) → identity_ok i →
  Forall (λ r, same_identity i r ∧ (1 ≤ ri_writer_epoch r ≤ if_epoch i)%N) issued →
  root_holds issued root.
Proof. intros Hf ??. unfold root_holds. rewrite Hf. eauto. Qed.

Lemma root_holds_ext issued root root' :
  root' !! IDENTITY_FILE = root !! IDENTITY_FILE → root_holds issued root → root_holds issued root'.
Proof. intros Hf. unfold root_holds. by rewrite Hf. Qed.

Definition covers (issued : list ResolvedIdentity) (i : IdentityFile) : Prop :=
  identity_ok i ∧ Forall (λ r, same_identity i r ∧ (1 ≤ ri_writer_epoch r ≤ if_epoch i)%N) issued.

Lemma persist_holds issued io suffix root i root' res :
  root_holds issued root → covers issued i → persist_identity io suffix root i = (root', res) →
  root_holds issued root' ∧ (res = Ok tt → root' !! IDENTITY_FILE = Some (identity_seg i)).
Proof.
  intros Hroot [Hok Hall] [Hres Hor]%persist_identity_spec. split; [|done].
  destruct Hor; [by eapply root_holds_ext|by eapply root_holds_stored].
Qed.

Lemma validate_configured_Ok configured :
  validate_configured_identity configured = Ok tt →
  (∀ c, cfg_cluster_id configured = Some c → c ≠ 0%N) ∧
  (∀ s, cfg_writer_slot configured = Some s → WriterSlot_new s = Ok s).
Proof.
  unfold validate_configured_identity. intros Hv. inv_ok Hv. split.
  - intros c Hc ->. by rewrite Hc in *.
  - intros s Hs. rewrite Hs in *.
    match goal with Hs : WriterSlot_new s = Ok ?x |- _ =>
      pose proof Hs as Hs'; apply WriterSlot_new_length in Hs' as [-> _]; done end.
Qed.

Lemma load_or_create_spec issued env root configured root' res :
  root_holds issued root → validate_configured_identity configured = Ok tt →
  event_typed (EvOpen env configured) → load_or_create env root configured = (root', res) →
  root_holds issued root' ∧
  ∀ p, res = Ok p → root' !! IDENTITY_FILE = Some (identity_seg p) ∧ covers issued p.
Proof.
  intros Hroot [Hcl Hslot]%validate_configured_Ok [Hnew Hty] Hload. unfold load_or_create in Hload.
  destruct (root !! IDENTITY_FILE) as [f|] eqn:Hf.
  - injection Hload as <- <-. split; [done|]. unfold root_holds in Hroot. rewrite Hf in Hroot.
    destruct Hroot as (i & -> & Hok & Hall). rewrite (read_identity_ok root i) by done.
    intros p [= <-]. done.
  - assert (issued = []) as -> by (unfold root_holds in Hroot; by rewrite Hf in Hroot).
    destruct (ensure_uninitialized_root root); [|by injection Hload as <- <-].
    change (WriterSlot_new "standalone") with (@Ok TeoDBError string "standalone") in Hload.
    cbv beta iota in Hload.
    set (c := default (oe_new_cluster env) (cfg_cluster_id configured)) in Hload.
    set (slot := default "standalone" (cfg_writer_slot configured)) in Hload.
    destruct (persist_identity _ _ _ _) as [root1 res1] eqn:Hp. injection Hload as <- <-.
    assert (covers [] (mkIdentityFile IDENTITY_VERSION c slot (WriterId_derive c slot) 0)) as Hcov.
    { split; [|by apply Forall_nil]. apply identity_ok_new; [| |unfold u64_max; lia].
      - unfold c. destruct (cfg_cluster_id configured) as [c0|]; simpl; [|done].
        specialize (Hcl c0 eq_refl). specialize (Hty c0 eq_refl). lia.
      - unfold slot. destruct (cfg_writer_slot configured) as [s0|]; simpl; [|done]. by apply Hslot. }
    destruct (persist_holds _ _ _ _ _ _ _ Hroot Hcov Hp) as [Hr Hst]. split; [done|].
    intros p Hres. destruct res1 as [[]|]; [|done]. injection Hres as <-. by rewrite Hst.
Qed.

Lemma checked_next_Ok e e' : checked_next e = Ok e' ↔ e' = (e + 1)%N ∧ (e' ≤ u64_max)%N.
Proof. unfold checked_next. rewrite ok_or_Ok, u64_checked_add_Some. split; intros [? ?]; split; lia. Qed.

Lemma covers_epoch issued i e :
  covers issued i → (if_epoch i ≤ e ≤ u64_max)%N →
  covers issued (mkIdentityFile (if_version i) (if_cluster_id i) (if_writer_slot i) (if_writer_id i) e).
Proof.
  intros [Hok Hall] He. split; [apply identity_ok_epoch; [done|lia]|].
  eapply Forall_impl; [exact Hall|]. intros r [? ?]. split; [done|]. simpl. lia.
Qed.

(** A successful [open] issues an epoch above everything issued before. *)
Lemma identity_open_spec issued env root configured root' res :
  root_holds issued root → event_typed (EvOpen env configured) →
  identity_open env root configured = (root', res) →
  match res with
  | Err _ => root_holds issued root'
  | Ok r => root_holds (r :: issued) root' ∧
      Forall (λ r', (ri_writer_epoch r' < ri_writer_epoch r)%N) issued
  end.
Proof.
  intros Hroot Hty Hopen. unfold identity_open in Hopen.
  destruct (validate_configured_identity configured) as [[]|e] eqn:Hv; [|by injection Hopen as <- <-].
  change (NodeId_new "standalone") with (@Ok TeoDBError string "standalone") in Hopen.
  cbn [mbind result_bind] in Hopen.
  destruct (load_or_create env root configured) as [root1 [p|e]] eqn:Hload;
    destruct (load_or_create_spec _ _ _ _ _ _ Hroot Hv Hty Hload) as [Hr1 Hp]; [|by injection Hopen as <- <-].
  destruct (Hp p eq_refl) as [Hfile Hcov]. clear Hp Hload. unfold issue_next in Hopen.
  destruct (_ ← validate_identity p configured; _) as [e|] eqn:Hnext; [|by injection Hopen as <- <-].
  apply bind_Ok in Hnext as (_ & _ & [-> Hmax]%checked_next_Ok).
  pose proof (covers_epoch issued p (if_epoch p + 1) Hcov ltac:(lia)) as Hcov'.
  destruct (persist_identity _ _ _ _) as [root2 res2] eqn:Hp2.
  destruct (persist_holds _ _ _ _ _ _ _ Hr1 Hcov' Hp2) as [Hr2 Hst].
  destruct res2 as [[]|e]; injection Hopen as <- <-; [|done]. destruct Hcov' as [Hok' Hall'].
  split.
  - eapply root_holds_stored; [by apply Hst|done|]. apply Forall_cons. split; [|done].
    split; [done|]. simpl. lia.
  - destruct Hcov as [_ Hall]. eapply Forall_impl; [exact Hall|]. intros r [_ ?]. simpl. lia.
Qed.

Lemma observe_spec issued r io suffix root observed root' r' res :
  root_holds (r :: issued) root → (observed ≤ u64_max)%N →
  Forall (λ r', (ri_writer_epoch r' < ri_writer_epoch r)%N) issued →
  observe_epoch_and_bump io suffix root r observed = (root', r', res) →
  (r' = r ∧ root_holds (r :: issued) root' ∨
   (ri_writer_epoch r < ri_writer_epoch r')%N ∧ root_holds (r' :: r :: issued) root') ∧
  (∀ x, res = Ok x → x = r' ∧ (observed < ri_writer_epoch r')%N).
Proof.
  intros Hroot Hobs Hsort. unfold observe_epoch_and_bump.
  destruct (N.ltb_spec observed (ri_writer_epoch r)) as [Hlt|Hge].
  { intros [= <- <- <-]. split; [by left|]. by intros x [= <-]. }
  destruct (checked_next observed) as [e|] eqn:Hn.
  2: { intros [= <- <- <-]. split; [by left|done]. }
  apply checked_next_Ok in Hn as [-> Hmax].
  destruct (persist_identity _ _ _ _) as [root1 res1] eqn:Hp. intros Hres.
  assert (covers (r :: issued) (mkIdentityFile IDENTITY_VERSION (ri_cluster_id r) (ri_writer_slot r)
            (ri_writer_id r) (observed + 1))) as Hcov.
  { unfold root_holds in Hroot. destruct (root !! IDENTITY_FILE) as [f|]; [|done].
    destruct Hroot as (i & -> & Hok & Hall). pose proof Hall as [[(-> & -> & ->) Hr] _]%Forall_cons.
    rewrite <-(iok_version i Hok). split; [apply identity_ok_epoch; [done|lia]|].
    apply Forall_forall. intros x Hx. rewrite Forall_forall in Hall. destruct (Hall x Hx) as [? ?].
    split; [done|]. simpl. rewrite Forall_forall in Hsort.
    apply elem_of_cons in Hx as [->|Hx]; [lia|]. specialize (Hsort x Hx). lia. }
  destruct (persist_holds _ _ _ _ _ _ _ Hroot Hcov Hp) as [Hr Hst].
  destruct res1 as [[]|e]; injection Hres as <- <- <-.
  - destruct Hcov as [Hok Hall]. simpl. split; [right; split; [lia|]|intros x [= <-]; split; [done|simpl; lia]].
    eapply root_holds_stored; [by apply Hst|done|]. apply Forall_cons. split; [|done].
    split; [done|]. simpl. lia.
  - split; [by left|done].
Qed.

Lemma id_step_inv s e : id_inv s → event_typed e → id_inv (id_step s e).
Proof.
  destruct s as [root live issued]. intros [Hroot Hsort Hlive] Hty. cbn [ids_root ids_live ids_issued] in *.
  destruct e as [env configured|io suffix observed|others]; cbn [id_step ids_root ids_live ids_issued].
  - destruct (identity_open env root configured) as [root' [r|e]] eqn:Ho;
      pose proof (identity_open_spec _ _ _ _ _ _ Hroot Hty Ho) as Hspec; simpl in Hspec.
    + destruct Hspec as [Hr Hall]. split; simpl; [done|by constructor|]. intros ? [= <-]. eauto.
    + by split.
  - destruct live as [r|]; [|by split]. destruct (Hlive r eq_refl) as [rs ->].
    pose proof Hsort as [Hs Hall]%StronglySorted_inv.
    destruct (observe_epoch_and_bump _ _ _ _ _) as [[root' r'] res] eqn:Ho.
    destruct (observe_spec _ _ _ _ _ _ _ _ _ Hroot Hty Hall Ho) as [[[-> Hr]|[Hlt Hr]] _].
    + rewrite N.ltb_irrefl. split; simpl; [done|done|]. intros ? [= <-]. eauto.
    + rewrite (proj2 (N.ltb_lt _ _) Hlt). split; simpl; [done| |intros ? [= <-]; eauto].
      constructor; [done|]. apply Forall_cons. split; [done|].
      eapply Forall_impl; [exact Hall|]. intros x Hx. simpl in *. lia.
  - split; simpl; [|done|done]. eapply root_holds_ext; [|exact Hroot]. unfold with_identity_of.
    destruct (root !! IDENTITY_FILE) eqn:Hf; [apply lookup_insert_eq|apply lookup_delete_eq].
Qed.

Lemma id_run_inv root es :
  root !! IDENTITY_FILE = None → Forall event_typed es → id_inv (id_run root es).
Proof.
  intros Hroot Hes. unfold id_run.
  assert (id_inv (mkIdState root None [])) as Hinv.
  { split; simpl; [|constructor|done]. unfold root_holds. by rewrite Hroot. }
  revert Hinv. generalize (mkIdState root None []). clear Hroot.
  induction Hes as [|e es He _ IH]; intros s Hinv; [done|]. simpl. by apply IH, id_step_inv.
Qed.
End life_laws.

Lemma durable_files_nil root :
  (∀ name f, root !! name = Some f →
     (str_ends_with ".wal" name = true ∨ name = "committed.json") → f_bytes f = []) →
  durable_files root = [].
Proof.
  intros Hempty. unfold durable_files.
  destruct (filter _ (map_to_list root)) as [|[n f] l] eqn:Hl; [done|]. exfalso.
  assert ((n, f) ∈ (n, f) :: l) as Hin by (by left). rewrite <-Hl in Hin.
  apply list_elem_of_filter in Hin as [[Hn Hlen]%andb_true_iff Hin%elem_of_map_to_list]. simpl in *.
  rewrite (Hempty n f Hin) in Hlen; [done|].
  apply orb_true_iff in Hn as [?|?%bool_decide_eq_true]; auto.
Qed.

(** A freshly created identity agrees with the configuration it came from. *)
Lemma validate_identity_created configured v c s w e :
  validate_identity (mkIdentityFile v (default c (cfg_cluster_id configured))
    (default s (cfg_writer_slot configured)) w e) configured = Ok tt.
Proof.
  unfold validate_identity. destruct (cfg_cluster_id configured); simpl; rewrite ?N.eqb_refl; simpl;
    destruct (cfg_writer_slot configured); simpl; rewrite ?bool_decide_true by done; done.
Qed.

(** ** Concrete interfaces, for evaluation *)
Definition demo_uuid_v5 : UuidV5 := {| uuid_new_v5 c s := (1 + (c + N.of_nat (String.length s)) mod 2 ^ 100)%N |}.
Lemma demo_uuid_v5_laws : @UuidV5Laws demo_uuid_v5.
Proof.
  constructor. intros c s. cbn [uuid_new_v5 demo_uuid_v5]. unfold u128_max.
  pose proof (N.mod_lt (c + N.of_nat (String.length s)) (2 ^ 100) ltac:(done)) as H.
  revert H. generalize ((c + N.of_nat (String.length s)) mod 2 ^ 100)%N. intros x Hx.
  assert (2 ^ 100 < 2 ^ 128 - 1)%N by (vm_compute; done). lia.
Qed.

Definition identity_pack (i : IdentityFile) : N :=
  (if_version i + 2 ^ 16 * (if_cluster_id i + 2 ^ 128 * (if_writer_id i + 2 ^ 128 * if_epoch i)))%N.
Definition identity_unpack (slot : string) (n : N) : IdentityFile :=
  let n1 := (n / 2 ^ 16)%N in let n2 := (n1 / 2 ^ 128)%N in
  mkIdentityFile (n mod 2 ^ 16) (n1 mod 2 ^ 128) slot (n2 mod 2 ^ 128) (n2 / 2 ^ 128).
Definition demo_identity_json : IdentityJson := {|
  identity_to_json i := demo_text_bytes (N_bits (identity_pack i) +:+ String "," (if_writer_slot i));
  identity_from_json bs :=
    '(bits, slot) ← split_once "," (demo_bytes_text bs); identity_unpack slot <$> bits_N bits |}.

Lemma str_length_app a b : String.length (a +:+ b) = String.length a + String.length b.
Proof. induction a as [|c a IH]; [by rewrite str_app_nil|]. rewrite str_app_cons. simpl. lia. Qed.

Lemma text_bytes_length s : length (demo_text_bytes s) = String.length s.
Proof. unfold demo_text_bytes. induction s; simpl; [done|]. by f_equal. Qed.

Lemma demo_identity_json_laws : @IdentityJsonLaws demo_identity_json.
Proof.
  constructor; intros [v c s w e] (Hv & Hc & Hw & He & Hs); simpl in *.
  - rewrite demo_bytes_text_bytes.
    rewrite (proj2 (split_once_Some "," _ (N_bits (identity_pack (mkIdentityFile v c s w e))) s)).
    + simpl. rewrite bits_N_bits. simpl. f_equal. unfold identity_unpack, identity_pack. simpl.
      unfold u128_max in *.
      destruct (split_digit v (c + 2 ^ 128 * (w + 2 ^ 128 * e)) (2 ^ 16)) as [-> ->]; [lia|].
      destruct (split_digit c (w + 2 ^ 128 * e) (2 ^ 128)) as [-> ->]; [lia|].
      by destruct (split_digit w e (2 ^ 128)) as [-> ->]; [lia|].
    + split; [done|]. by apply pos_bits_free.
  - unfold lenN. rewrite text_bytes_length, str_length_app. simpl.
    assert (String.length (N_bits (identity_pack (mkIdentityFile v c s w e))) ≤ 336) as Hl.
    { apply N_bits_length. unfold identity_pack. simpl. unfold u128_max, u64_max in *. lia. }
    unfold MAX_IDENTITY_COMPONENT_BYTES in Hs. lia.
Qed.

Definition demo_id_config : WalIdentityConfig := mkWalIdentityConfig None None (Some "data-0").
Definition demo_open_env : OpenEnv := mkOpenEnv 77 1 no_faults 2 no_faults.
Definition demo_torn_env : OpenEnv :=
  mkOpenEnv 78 3 no_faults 4 (mkIoFaults (λ s, match s with SyncDirectory => true | _ => false end) []).

(** C28.  Writer epochs fence restarts: over every sequence of opens, epoch observations
    and changes to other files, with any write, fsync or rename failing, the identities
    a WAL root hands out have strictly increasing epochs, all at least 1, and one cluster,
    slot and derived writer id; and a successful observation returns the live identity
    with an epoch above the one observed. *)
Theorem writer_epochs_fresh `{UuidText} `{UuidV5Laws} `{IdentityJsonLaws}
    (root : WalDir) (es : list IdEvent)
    (Hroot : root !! IDENTITY_FILE = None) (Hes : Forall event_typed es) :
  let s := id_run root es in
  StronglySorted (λ newer older, (ri_writer_epoch older < ri_writer_epoch newer)%N) (ids_issued s) ∧
  (∃ cluster slot, Forall (λ r, ri_cluster_id r = cluster ∧ ri_writer_slot r = slot ∧
     ri_writer_id r = WriterId_derive cluster slot ∧ (1 ≤ ri_writer_epoch r)%N) (ids_issued s)) ∧
  (∀ r, ids_live s = Some r → head (ids_issued s) = Some r) ∧
  (∀ io suffix observed r root' r' x, ids_live s = Some r → (observed ≤ u64_max)%N →
     observe_epoch_and_bump io suffix (ids_root s) r observed = (root', r', Ok x) →
     x = r' ∧ (observed < ri_writer_epoch r')%N).
Proof.
  intros s. destruct (id_run_inv root es Hroot Hes) as [Hr Hs Hl]. fold s in Hr, Hs, Hl.
  split_and!; [done| | |].
  - unfold root_holds in Hr. destruct (ids_root s !! IDENTITY_FILE) as [f|].
    + destruct Hr as (i & _ & Hok & Hall). exists (if_cluster_id i), (if_writer_slot i).
      eapply Forall_impl; [exact Hall|]. intros r [(-> & -> & ->) ?].
      rewrite (iok_writer i Hok). split_and!; try done. lia.
    + rewrite Hr. exists 0%N, "". by apply Forall_nil.
  - intros r Hlive. by destruct (Hl r Hlive) as [rs ->].
  - intros io suffix observed r root' r' x Hlive Hobs Ho. destruct (Hl r Hlive) as [rs Hrs].
    rewrite Hrs in Hr, Hs. apply StronglySorted_inv in Hs as [_ Hall].
    destruct (observe_spec _ _ _ _ _ _ _ _ _ Hr Hobs Hall Ho) as [_ Hx]. by apply Hx.
Qed.

Lemma writer_epochs_fresh_witness :
  let s := @id_run demo_uuid_text demo_uuid_v5 demo_identity_json ∅
    [EvOpen demo_open_env demo_id_config; EvObserve no_faults 5 9; EvOpen demo_torn_env demo_id_config;
     EvOpen demo_open_env demo_id_config] in
  ri_writer_epoch <$> ids_issued s = [12; 10; 1]%N ∧
  StronglySorted (λ newer older, (ri_writer_epoch older < ri_writer_epoch newer)%N) (ids_issued s).
Proof.
  split; [vm_compute; reflexivity|].
  refine (proj1 (@writer_epochs_fresh demo_uuid_text demo_uuid_v5 demo_uuid_v5_laws
    demo_identity_json demo_identity_json_laws ∅ _ eq_refl _)).
  repeat (apply Forall_cons; split); [..|by apply Forall_nil]; simpl; unfold u128_max, u64_max;
    split_and?; try lia; done.
Defined.

(** A root with durable state but no identity is refused, untouched: [open] of a
    root that lacks the identity file and holds a non-empty segment or checkpoint is an
    error and changes no file, whatever its configuration; on a root without such files,
    a valid configuration and no faults, it succeeds with epoch 1 and adds the identity
    file only. *)
Theorem identity_required_for_durable_state `{UuidText} `{UuidV5Laws} `{IdentityJsonLaws}
    (env : OpenEnv) (root : WalDir) (configured : WalIdentityConfig)
    (Hnone : root !! IDENTITY_FILE = None) :
  (∀ name f, root !! name = Some f → f_bytes f ≠ [] →
     str_ends_with ".wal" name = true ∨ name = "committed.json" →
     ∃ e, identity_open env root configured = (root, Err e)) ∧
  ((∀ name f, root !! name = Some f →
      (str_ends_with ".wal" name = true ∨ name = "committed.json") → f_bytes f = []) →
   event_typed (EvOpen env configured) → validate_configured_identity configured = Ok tt →
   oe_io1 env = no_faults → oe_io2 env = no_faults →
   root !! identity_tmp_path (oe_suffix1 env) = None →
   root !! identity_tmp_path (oe_suffix2 env) = None →
   ∃ f r, identity_open env root configured = (<[IDENTITY_FILE := f]> root, Ok r) ∧
     ri_writer_epoch r = 1%N).
Proof.
  split.
  - intros name f Hf Hne Hdur. unfold identity_open.
    destruct (_ ← validate_configured_identity configured; _) as [standalone|e]; [|by exists e].
    unfold load_or_create, ensure_uninitialized_root. rewrite Hnone, bool_decide_false; [by eexists|].
    intros Hnil. assert (name ∈ durable_files root) as Hin; [|rewrite Hnil in Hin; by apply elem_of_nil in Hin].
    apply list_elem_of_fmap. exists (name, f). split; [done|]. apply list_elem_of_filter.
    split; [|by apply elem_of_map_to_list]. simpl. apply andb_true_iff. split.
    + destruct Hdur as [->| ->]; [done|]. by rewrite bool_decide_true, orb_true_r.
    + unfold lenN. destruct (f_bytes f); [done|]. by apply N.ltb_lt.
  - intros Hempty Hty Hv Hio1 Hio2 Hs1 Hs2. unfold identity_open. rewrite Hv.
    change (NodeId_new "standalone") with (@Ok TeoDBError string "standalone").
    cbn [mbind result_bind]. unfold load_or_create, ensure_uninitialized_root. rewrite Hnone.
    rewrite bool_decide_true by (by apply durable_files_nil).
    change (WriterSlot_new "standalone") with (@Ok TeoDBError string "standalone"). cbv beta iota.
    unfold persist_identity. rewrite Hio1, atomic_replace_ok by done. unfold issue_next.
    rewrite validate_identity_created.
    cbn [mbind result_bind if_version if_cluster_id if_writer_slot if_writer_id if_epoch].
    change (checked_next 0) with (@Ok TeoDBError N 1%N). cbv beta iota.
    unfold persist_identity. rewrite Hio2, atomic_replace_ok
      by (rewrite lookup_insert_ne; [done|]; symmetry; apply identity_tmp_ne).
    rewrite insert_insert_eq. by do 2 eexists.
Qed.

Lemma identity_required_for_durable_state_witness :
  (∃ e, @identity_open demo_uuid_text demo_uuid_v5 demo_identity_json demo_open_env
     {[ "00000000000000000001.wal" := mkSegFile [x00] None ]} demo_id_config =
     ({[ "00000000000000000001.wal" := mkSegFile [x00] None ]}, Err e)) ∧
  (∃ f r, @identity_open demo_uuid_text demo_uuid_v5 demo_identity_json demo_open_env ∅ demo_id_config =
     (<[IDENTITY_FILE := f]> ∅, Ok r) ∧ ri_writer_epoch r = 1%N).
Proof.
  split.
  - refine (proj1 (@identity_required_for_durable_state demo_uuid_text demo_uuid_v5 demo_uuid_v5_laws
      demo_identity_json demo_identity_json_laws demo_open_env
      {[ "00000000000000000001.wal" := mkSegFile [x00] None ]} demo_id_config eq_refl)
      "00000000000000000001.wal" (mkSegFile [x00] None) _ _ _); [reflexivity|discriminate|by left].
  - refine (proj2 (@identity_required_for_durable_state demo_uuid_text demo_uuid_v5 demo_uuid_v5_laws
      demo_identity_json demo_identity_json_laws demo_open_env ∅ demo_id_config eq_refl)
      _ _ _ _ _ _ _); try reflexivity.
    + intros name f Hf. rewrite lookup_empty in Hf. discriminate.
    + simpl. unfold u128_max. split; [lia|discriminate].
Defined.
