(* ===== verification/Prepared.v ===== *)
(** * Prepared-flush intents

    Models [teodb-storage/src/wal/prepared.rs]: the intent written before a flush
    is committed, one sidecar file per table incarnation, its validation, and the
    operations on the [prepared] directory.  The JSON text is an interface. *)

From S2P Require Import Prelude Core Location Codec DataFiles WriteProtocol WalFrame WalReplay Durable.
Open Scope nat_scope.
Open Scope list_scope.

Definition DEFAULT_MAX_PREPARED_FILES : N := 10000.
Definition DEFAULT_MAX_PREPARED_BYTES : N := 16 * 1024 * 1024.

Record PreparedFlush := mkPreparedFlush {
  pf_version : N;
  pf_table : TableIdent;
  pf_table_uuid : Uuid;
  pf_writer_id : Uuid;
  pf_writer_epoch : WriterEpoch;
  pf_commit_id : Uuid;
  pf_generations : GenerationRange;
  pf_record_count : N;
  pf_prepared_at_ms : Z;
  pf_data_files : list DataFile;
  pf_base_snapshot_id : option SnapshotId;
}.
#[export] Instance PreparedFlush_eq_dec : EqDecision PreparedFlush.
Proof. solve_decision. Defined.

Definition PreparedFlush_new (table : TableIdent) (table_uuid writer_id : Uuid) (writer_epoch : WriterEpoch)
    (commit_id : Uuid) (generations : GenerationRange) (record_count : N) (prepared_at_ms : Z)
    (data_files : list DataFile) (base_snapshot_id : option SnapshotId) : PreparedFlush :=
  mkPreparedFlush WRITE_PROTOCOL_VERSION table table_uuid writer_id writer_epoch commit_id generations
    record_count prepared_at_ms data_files base_snapshot_id.

(** [serde_json] at [PreparedFlush].  JSON has no non-finite floats, so only the
    values for which [prepared_representable] holds are covered by the round trip. *)
Class PreparedJson := {
  prepared_to_json : PreparedFlush → list byte;
  prepared_from_json : list byte → option PreparedFlush;
  prepared_representable : PreparedFlush → Prop;
}.
Class PreparedJsonLaws `{PreparedJson} : Prop := {
  prepared_from_to_json p :
    prepared_representable p → prepared_from_json (prepared_to_json p) = Some p;
  prepared_to_json_nonempty p : prepared_to_json p ≠ [];
}.

(** [iter().position] and [iter().rposition]. *)
Fixpoint position (w : string) (l : list string) : option nat :=
  match l with
  | [] => None
  | x :: l => if decide (x = w) then Some 0 else S <$> position w l
  end.
Fixpoint rposition (w : string) (l : list string) : option nat :=
  match l with
  | [] => None
  | x :: l =>
      match rposition w l with
      | Some n => Some (S n)
      | None => if decide (x = w) then Some 0 else None
      end
  end.

Section prepared.
Context `{UuidText}.

(** The ownership test of one path. *)
Definition path_is_writer_owned (writer_component : string) (components : list string) : bool :=
  match rposition writer_component components with
  | None => false
  | Some index =>
      Nat.eqb (index + 2) (length components) &&
      match position "data" components with Some data => Nat.ltb data index | None => false end
  end.

(** The text the repeat check compares: scheme, bucket and key between bars. *)
Definition unique_path (l : ObjectLocation) : string :=
  match scheme l with S3 => "S3" | Gcs => "Gcs" | AzureBlob => "AzureBlob" | Local => "Local" end
  +:+ "|" +:+ default "" (bucket l) +:+ "|" +:+ key l.

(** One iteration of the loop over the data files. *)
Definition validate_data_file (writer_component commit_prefix : string)
    (acc : gset string * N) (data_file : DataFile) : TeoDBResult (gset string * N) :=
  let '(seen_paths, file_records) := acc in
  let k := key (df_path data_file) in
  let components := str_split "/" k in
  _ ← reject_if (str_starts_with "/" k
        || existsb (λ c, str_is_empty c || bool_decide (c = "..")) components
        || negb (path_is_writer_owned writer_component components))
        (wal "prepared data file path is outside the writer data subtree: {key}");
  let file_name := default "" (last components) in
  _ ← reject_if (negb (str_starts_with commit_prefix file_name) || negb (str_ends_with ".parquet" file_name))
        (wal "prepared data file '{key}' is not owned by commit {}");
  _ ← reject_if (bool_decide (df_content data_file ≠ ContentData)
                 || bool_decide (df_format data_file ≠ FmtParquet))
        (wal "prepared file '{key}' is not a Parquet data file");
  let unique := unique_path (df_path data_file) in
  _ ← reject_if (bool_decide (unique ∈ seen_paths)) (wal "prepared intent repeats data file '{key}'");
  file_records ← ok_or (u64_checked_add file_records (df_record_count data_file))
                   (wal "prepared file record count overflow");
  Ok ({[ unique ]} ∪ seen_paths, file_records).

Definition validate_prepared (prepared : PreparedFlush) (expected_writer : Uuid) (max_files : N) : TeoDBResult unit :=
  _ ← reject_if (negb (pf_version prepared =? WRITE_PROTOCOL_VERSION)%N)
        (wal "unsupported prepared intent version {}");
  _ ← reject_if (uuid_is_nil (pf_table_uuid prepared)) (wal "prepared intent has nil table UUID");
  _ ← reject_if (uuid_is_nil (pf_writer_id prepared)) (wal "prepared intent has nil writer ID");
  _ ← reject_if (negb (pf_writer_id prepared =? expected_writer)%N)
        (wal "prepared intent writer {} does not match WAL writer {expected_writer}");
  _ ← reject_if (max_files <? N.of_nat (length (pf_data_files prepared)))%N
        (wal "prepared intent has {} files, exceeding limit {max_files}");
  _ ← reject_if (pf_writer_epoch prepared =? 0)%N (wal "prepared intent has zero writer epoch");
  _ ← reject_if (uuid_is_nil (pf_commit_id prepared)) (wal "prepared intent has nil commit ID");
  _ ← reject_if ((gr_lo (pf_generations prepared) =? 0)
                 || (gr_hi (pf_generations prepared) <? gr_lo (pf_generations prepared)))%N
        (wal "prepared intent has an invalid generation range");
  _ ← reject_if (pf_record_count prepared =? 0)%N (wal "prepared intent has zero records");
  _ ← reject_if (pf_prepared_at_ms prepared <? 0)%Z
        (wal "prepared intent has a negative preparation timestamp");
  _ ← reject_if (bool_decide (pf_data_files prepared = [])) (wal "prepared intent has no data files");
  let writer_component := uuid_to_string (pf_writer_id prepared) in
  let commit_prefix := uuid_to_string (pf_commit_id prepared) +:+ "-" in
  '(_, file_records) ← foldM (validate_data_file writer_component commit_prefix) (∅, 0%N)
                         (pf_data_files prepared);
  reject_if (negb (file_records =? pf_record_count prepared)%N)
    (wal "prepared file record count {file_records} does not match intent count {}").

Context `{PreparedJson}.

Definition path_for (table_uuid : Uuid) : string := uuid_to_string table_uuid +:+ ".json".

Definition read_one (directory : WalDir) (path : string) (expected_writer : Uuid)
    (max_files max_bytes : N) : TeoDBResult PreparedFlush :=
  f ← ok_or (directory !! path) (wal_source "stat prepared intent" "{error}");
  let len := lenN (f_bytes f) in
  _ ← reject_if ((len =? 0) || (max_bytes <? len))%N (wal "prepared intent {} has invalid size {} (limit {max_bytes})");
  prepared ← ok_or (prepared_from_json (f_bytes f)) (wal_source "parse prepared intent" "{error}");
  _ ← validate_prepared prepared expected_writer max_files;
  let expected_name := uuid_to_string (pf_table_uuid prepared) +:+ ".json" in
  _ ← reject_if (negb (bool_decide (path = expected_name)))
        (wal "prepared intent filename does not match table UUID {}");
  Ok prepared.

Definition prepared_io_error (s : AtomicStep) : TeoDBError :=
  match s with
  | CreateTemp => wal_source "create prepared intent temp file" "{error}"
  | WriteTemp => wal_source "write prepared intent" "{error}"
  | SyncTemp => wal_source "fsync prepared intent" "{error}"
  | RenameTemp => wal_source "rename prepared intent" "{error}"
  | SyncDirectory | CleanupTemp => wal_source "fsync prepared intent directory" "{error}"
  end.

Definition prepared_tmp_path (table_uuid suffix : Uuid) : string :=
  "." +:+ uuid_to_string table_uuid +:+ "." +:+ uuid_to_string suffix +:+ ".tmp".

(** [directory] is [None] until it is created; [mkdir_fails] is the outcome of
    [create_dir_all]. *)
Definition persist_prepared (mkdir_fails : bool) (io : IoFaults) (suffix : Uuid) (directory : option WalDir)
    (prepared : PreparedFlush) (expected_writer : Uuid) (max_files max_bytes : N) :
    option WalDir * TeoDBResult unit :=
  match validate_prepared prepared expected_writer max_files with
  | Err e => (directory, Err e)
  | Ok _ =>
      if mkdir_fails then (directory, Err (wal_source "create prepared intent directory" "{error}"))
      else
        let dir := default ∅ directory in
        let path := path_for (pf_table_uuid prepared) in
        match dir !! path with
        | Some _ =>
            (Some dir,
             existing ← read_one dir path expected_writer max_files max_bytes;
             if decide (existing = prepared) then Ok tt
             else Err (wal "different prepared intent already exists for table {} ({})"))
        | None =>
            let payload := prepared_to_json prepared in
            if (max_bytes <? lenN payload)%N then
              (Some dir, Err (wal "prepared intent is {} bytes, exceeding limit {max_bytes}"))
            else
              let '(dir', res) := atomic_replace prepared_io_error io dir
                                    (prepared_tmp_path (pf_table_uuid prepared) suffix) path payload in
              (Some dir', res)
        end
  end.

(** [Path::extension] is ["json"]: a dot that is not the first character, then it. *)
Definition has_json_extension (name : string) : bool :=
  match str_strip_suffix ".json" name with
  | Some stem => negb (str_is_empty stem)
  | None => false
  end.

Definition list_prepared (directory : option WalDir) (expected_writer : Uuid) (max_files max_bytes : N) :
    TeoDBResult (list PreparedFlush) :=
  match directory with
  | None => Ok []
  | Some dir =>
      let paths := stable_sort str_leb
                     (filter (λ n, has_json_extension n = true) (map_to_list dir).*1) in
      mapM_res (λ path, read_one dir path expected_writer max_files max_bytes) paths
  end.

Inductive RemoveFault := RemoveOk | RemoveFails | RemoveSyncFails.
Definition remove_prepared (fault : RemoveFault) (directory : option WalDir) (table_uuid : Uuid) :
    option WalDir * TeoDBResult unit :=
  match directory with
  | None => (None, Ok tt)
  | Some dir =>
      match dir !! path_for table_uuid with
      | None => (Some dir, Ok tt)
      | Some _ =>
          match fault with
          | RemoveFails => (Some dir, Err (wal_source "remove prepared intent {}" "{error}"))
          | RemoveSyncFails => (Some (delete (path_for table_uuid) dir),
                                Err (wal_source "fsync prepared intent directory" "{error}"))
          | RemoveOk => (Some (delete (path_for table_uuid) dir), Ok tt)
          end
      end
  end.
End prepared.

(** ** What validation guarantees *)

(** A key of the writer's data subtree: [.../data/.../<writer>/<commit>-*.parquet]. *)
Definition owned_key (writer commit : string) (k : string) : Prop :=
  ∃ dirs name, str_split "/" k = dirs ++ [writer; name] ∧ "data" ∈ dirs ∧ name ≠ writer ∧
    Forall (λ c, c ≠ "" ∧ c ≠ "..") (dirs ++ [writer; name]) ∧
    str_starts_with (commit +:+ "-") name = true ∧ str_ends_with ".parquet" name = true.

Definition sum_records (files : list DataFile) : N := foldr (λ f n, (df_record_count f + n)%N) 0%N files.

Lemma position_app w l : w ∈ l → ∀ l', position w (l ++ l') = position w l.
Proof.
  induction l as [|x l IH]; intros Hw l'; [by apply elem_of_nil in Hw|]. simpl.
  case_decide; [done|]. apply elem_of_cons in Hw as [->|Hw]; [done|]. by rewrite IH.
Qed.
Lemma position_Some w l n : position w l = Some n → l !! n = Some w ∧ n < length l.
Proof.
  revert n. induction l as [|x l IH]; intros n; simpl; [done|]. case_decide as Hx.
  - intros [= <-]. subst. simpl. split; [done|lia].
  - intros (m & Hm & ->)%fmap_Some. apply IH in Hm as [? ?]. simpl. split; [done|lia].
Qed.
Lemma position_is_Some w l : w ∈ l → ∃ n, position w l = Some n.
Proof.
  induction l as [|x l IH]; intros Hw; [by apply elem_of_nil in Hw|]. simpl.
  case_decide; [eauto|]. apply elem_of_cons in Hw as [->|[n ->]%IH]; [done|]. simpl. eauto.
Qed.

Lemma rposition_snoc w l x :
  rposition w (l ++ [x]) = if decide (x = w) then Some (length l) else rposition w l.
Proof.
  induction l as [|y l IH]; simpl; [by case_decide|]. rewrite IH. case_decide; [done|]. done.
Qed.
Lemma rposition_lt w l n : rposition w l = Some n → n < length l.
Proof.
  revert n. induction l as [|x l IH]; intros n; simpl; [done|].
  destruct (rposition w l) as [m|]; [intros [= <-]; specialize (IH m eq_refl); lia|].
  case_decide; [intros [= <-]; lia|done].
Qed.

(** The index test says: the last directory is the writer's, below a [data] directory. *)
Lemma path_is_writer_owned_true w comps :
  path_is_writer_owned w comps = true ↔
  ∃ dirs name, comps = dirs ++ [w; name] ∧ "data" ∈ dirs ∧ name ≠ w.
Proof.
  unfold path_is_writer_owned. split.
  - destruct (rposition w comps) as [i|] eqn:Hr; [|done].
    intros [Hi Hd]%andb_true_iff. apply Nat.eqb_eq in Hi.
    destruct comps as [|name comps' _] using rev_ind; [simpl in Hi; lia|].
    rewrite rposition_snoc in Hr. rewrite length_app in Hi. simpl in Hi. case_decide as Hn.
    { injection Hr as <-. lia. }
    destruct comps' as [|w' dirs _] using rev_ind; [done|].
    rewrite rposition_snoc in Hr. rewrite length_app in Hi. simpl in Hi. case_decide as Hw.
    2: { apply rposition_lt in Hr. lia. }
    subst w'. exists dirs, name. rewrite <-app_assoc. split_and!; [done| |done].
    destruct (position "data" _) as [d|] eqn:Hp; [|done]. apply Nat.ltb_lt in Hd.
    apply position_Some in Hp as [Hp _]. injection Hr as <-.
    rewrite <-app_assoc, lookup_app_l in Hp by done. by apply list_elem_of_lookup_2 in Hp.
  - intros (dirs & name & -> & Hd & Hn).
    replace (dirs ++ [w; name]) with ((dirs ++ [w]) ++ [name]) by (by rewrite <-app_assoc).
    rewrite rposition_snoc, decide_False, rposition_snoc, decide_True by done.
    rewrite <-app_assoc, position_app by done. destruct (position_is_Some _ _ Hd) as [d Hp].
    rewrite Hp. apply position_Some in Hp as [_ Hlt]. apply andb_true_iff.
    rewrite Nat.eqb_eq, Nat.ltb_lt, length_app. simpl. split; lia.
Qed.

Lemma split_last_snoc dirs (w name : string) : last (dirs ++ [w; name]) = Some name.
Proof. replace (dirs ++ [w; name]) with ((dirs ++ [w]) ++ [name]) by (by rewrite <-app_assoc). apply last_snoc. Qed.

Lemma split_slash k : str_starts_with "/" k = true → head (str_split "/" k) = Some "".
Proof.
  intros (r & ->)%str_starts_with_true. rewrite str_app_cons, str_app_nil. simpl. done.
Qed.

Lemma components_clean l :
  existsb (λ c, str_is_empty c || bool_decide (c = "..")) l = false ↔ Forall (λ c, c ≠ "" ∧ c ≠ "..") l.
Proof.
  induction l as [|c l IH]; simpl; [done|]. rewrite !orb_false_iff, Forall_cons, IH, bool_decide_eq_false.
  destruct c; simpl; naive_solver.
Qed.

Section validate_laws.
Context `{UuidText}.

Lemma validate_data_file_Ok w c seen n f acc :
  validate_data_file w (c +:+ "-") (seen, n) f = Ok acc ↔
  owned_key w c (key (df_path f)) ∧ df_content f = ContentData ∧ (unique_path (df_path f) ∉ seen) ∧
  (n + df_record_count f ≤ u64_max)%N ∧
  acc = ({[ unique_path (df_path f) ]} ∪ seen, (n + df_record_count f)%N).
Proof.
  unfold validate_data_file. rewrite !bind_Ok. split.
  - intros ([] & [[Hs Hc]%orb_false_iff Ho]%reject_if_Ok%orb_false_iff & Hv).
    apply components_clean in Hc. apply negb_false_iff, path_is_writer_owned_true in Ho as (dirs & name & Hk & Hd & Hn).
    rewrite Hk, split_last_snoc in Hv. simpl in Hv. inv_ok Hv.
    inv_checks.
    match goal with Hx : u64_checked_add _ _ = Some _ |- _ => apply u64_checked_add_Some in Hx as [-> ?] end.
    injection Hv as <-. split_and!; try done. exists dirs, name. rewrite Hk in Hc. by split_and!.
  - intros ((dirs & name & Hk & Hd & Hn & Hcl & Hpre & Hsuf) & Hcon & Hun & Hmax & ->). exists tt. split.
    + apply reject_if_Ok. rewrite !orb_false_iff. split_and!.
      * destruct (str_starts_with "/" (key (df_path f))) eqn:Hs; [|done].
        apply split_slash in Hs. rewrite Hk in Hs.
        destruct dirs as [|d dirs]; simpl in Hs; injection Hs as ->; simpl in Hcl;
          apply Forall_cons in Hcl as [[? _] _]; done.
      * rewrite Hk. by apply components_clean.
      * rewrite Hk. apply negb_false_iff, path_is_writer_owned_true. eauto.
    + rewrite Hk, split_last_snoc. simpl. rewrite Hpre, Hsuf, Hcon. simpl.
      rewrite (bool_decide_false (df_format f ≠ FmtParquet)) by (destruct (df_format f); auto). simpl.
      rewrite bool_decide_false by done. simpl. unfold u64_checked_add.
      by rewrite (proj2 (N.leb_le _ _) Hmax).
Qed.

Definition files_ok (w c : string) (seen : gset string) (n : N) (files : list DataFile) : Prop :=
  Forall (λ f, owned_key w c (key (df_path f)) ∧ df_content f = ContentData) files ∧
  NoDup (unique_path ∘ df_path <$> files) ∧
  (∀ f, f ∈ files → unique_path (df_path f) ∉ seen) ∧ (n + sum_records files ≤ u64_max)%N.

Lemma validate_files_Ok w c files : ∀ seen n acc, (n ≤ u64_max)%N →
  foldM (validate_data_file w (c +:+ "-")) (seen, n) files = Ok acc ↔
  files_ok w c seen n files ∧
  acc = (list_to_set (unique_path ∘ df_path <$> files) ∪ seen, (n + sum_records files)%N).
Proof.
  unfold files_ok. induction files as [|f files IH]; intros seen n acc Hn; simpl.
  { rewrite Forall_nil, NoDup_nil, N.add_0_r, (left_id_L ∅ (∪)).
    split; [intros [= <-]|by intros [_ ->]]. split_and!; try done. intros f Hf. by apply elem_of_nil in Hf. }
  rewrite bind_Ok. rewrite Forall_cons, NoDup_cons. split.
  - intros (acc1 & (Hok & Hcon & Hun & Hmax & ->)%validate_data_file_Ok & Hrest).
    apply IH in Hrest as [(Hall & Hnd & Hseen & Hm) ->]; [|done]. split_and!; try done.
    + intros (f' & Hf' & Hin)%list_elem_of_fmap. simpl in *. apply (Hseen f' Hin). set_solver.
    + intros f' [->|Hin]%elem_of_cons; [done|]. specialize (Hseen f' Hin). set_solver.
    + lia.
    + f_equal; [set_solver|lia].
  - intros [([[Hok Hcon] Hall] & [Hnotin Hnd] & Hseen & Hm) ->].
    exists ({[ unique_path (df_path f) ]} ∪ seen, (n + df_record_count f)%N). split.
    + apply validate_data_file_Ok. split_and!; try done; [|lia]. apply Hseen. by left.
    + apply IH; [lia|]. split_and!; try done; [|lia|f_equal; [set_solver|lia]].
      intros f' Hin. assert (unique_path (df_path f') ≠ unique_path (df_path f)).
      { intros Heq. apply Hnotin. rewrite <-Heq. apply list_elem_of_fmap. by exists f'. }
      assert (unique_path (df_path f') ∉ seen) by (apply Hseen; by right). set_solver.
Qed.

(** The intents a store accepts. *)
Definition intent_wf (p : PreparedFlush) (expected_writer : Uuid) (max_files : N) : Prop :=
  pf_version p = WRITE_PROTOCOL_VERSION ∧ pf_table_uuid p ≠ 0%N ∧ pf_writer_id p ≠ 0%N ∧
  pf_writer_id p = expected_writer ∧ (N.of_nat (length (pf_data_files p)) ≤ max_files)%N ∧
  pf_writer_epoch p ≠ 0%N ∧ pf_commit_id p ≠ 0%N ∧
  (1 ≤ gr_lo (pf_generations p) ≤ gr_hi (pf_generations p))%N ∧
  pf_record_count p ≠ 0%N ∧ (0 ≤ pf_prepared_at_ms p)%Z ∧ pf_data_files p ≠ [] ∧
  Forall (λ f, owned_key (uuid_to_string (pf_writer_id p)) (uuid_to_string (pf_commit_id p))
                 (key (df_path f)) ∧ df_content f = ContentData) (pf_data_files p) ∧
  NoDup (unique_path ∘ df_path <$> pf_data_files p) ∧
  sum_records (pf_data_files p) = pf_record_count p.

Lemma validate_prepared_Ok p w mf :
  (pf_record_count p ≤ u64_max)%N → validate_prepared p w mf = Ok tt ↔ intent_wf p w mf.
Proof.
  intros Hrc. unfold validate_prepared, intent_wf. split.
  - intros Hv. inv_ok Hv. destruct x10 as [seen n]. inv_checks. unfold uuid_is_nil in *.
    match goal with Hf : foldM _ _ _ = Ok _ |- _ =>
      apply validate_files_Ok in Hf as [(Hall & Hnd & _ & Hmax) [= -> ->]]; [|unfold u64_max; lia] end.
    inv_checks. split_and!; try done; lia.
  - intros (-> & Hu & Hw & <- & Hmf & He & Hc & Hg & Hr & Ht & Hne & Hall & Hnd & Hsum).
    unfold uuid_is_nil.
    rewrite (proj2 (N.eqb_neq _ _) Hu), (proj2 (N.eqb_neq _ _) Hw), N.eqb_refl,
      (proj2 (N.ltb_ge _ _) Hmf), (proj2 (N.eqb_neq _ _) He), (proj2 (N.eqb_neq _ _) Hc),
      (proj2 (N.eqb_neq (gr_lo _) 0)), (proj2 (N.ltb_ge (gr_hi _) _)), (proj2 (N.eqb_neq _ _) Hr),
      (proj2 (Z.ltb_ge _ _) Ht), bool_decide_false by (done || lia).
    cbn [reject_if mbind result_bind negb orb N.eqb WRITE_PROTOCOL_VERSION Pos.eqb].
    destruct (validate_files_Ok (uuid_to_string (pf_writer_id p)) (uuid_to_string (pf_commit_id p))
      (pf_data_files p) ∅ 0 (list_to_set (unique_path ∘ df_path <$> pf_data_files p) ∪ ∅,
        (0 + sum_records (pf_data_files p))%N) ltac:(unfold u64_max; lia)) as [_ ->];
      [|split; [|done]; split_and!; try done; lia].
    cbn [mbind result_bind]. apply reject_if_Ok. apply negb_false_iff, N.eqb_eq. lia.
Qed.
End validate_laws.

(** ** The store as a finite map *)
Section store.
Context `{UuidTextLaws} `{PreparedJsonLaws} (expected_writer : Uuid) (max_files max_bytes : N).

(** [directory] holds exactly the intents of [m], one valid file per incarnation. *)
Definition store_rep (directory : option WalDir) (m : gmap Uuid PreparedFlush) : Prop :=
  let dir := default ∅ directory in
  (∀ name, has_json_extension name = true → is_Some (dir !! name) →
     ∃ p, read_one dir name expected_writer max_files max_bytes = Ok p ∧ m !! pf_table_uuid p = Some p) ∧
  (∀ u p, m !! u = Some p → pf_table_uuid p = u ∧
     read_one dir (path_for u) expected_writer max_files max_bytes = Ok p).

Lemma read_one_name dir name p :
  read_one dir name expected_writer max_files max_bytes = Ok p → name = path_for (pf_table_uuid p).
Proof. unfold read_one. intros Hr. inv_ok Hr. inv_checks. by simplify_eq. Qed.

Lemma read_one_ext dir dir' name :
  dir' !! name = dir !! name →
  read_one dir' name expected_writer max_files max_bytes = read_one dir name expected_writer max_files max_bytes.
Proof. intros Hn. unfold read_one. by rewrite Hn. Qed.

Lemma path_for_json u : has_json_extension (path_for u) = true.
Proof.
  unfold has_json_extension, path_for, str_strip_suffix. rewrite str_rev_append.
  rewrite (proj2 (str_strip_prefix_Some _ _ (str_rev (uuid_to_string u))) eq_refl). simpl.
  rewrite str_rev_involutive. pose proof (uuid_to_string_nonempty u). by destruct (uuid_to_string u).
Qed.

Lemma path_for_inj u v : path_for u = path_for v → u = v.
Proof.
  unfold path_for. intros Huv%(f_equal str_rev). rewrite !str_rev_append in Huv.
  apply str_app_inj_l, (f_equal str_rev) in Huv. rewrite !str_rev_involutive in Huv.
  by apply uuid_to_string_inj.
Qed.

Lemma tmp_not_json u suffix : has_json_extension (prepared_tmp_path u suffix) = false.
Proof.
  unfold has_json_extension, prepared_tmp_path. rewrite !str_app_assoc.
  pose proof (str_ends_with_last "n" ".json" "osj." "p" ".tmp" "mt."
    ((("." +:+ uuid_to_string u) +:+ ".") +:+ uuid_to_string suffix) ltac:(done) eq_refl eq_refl) as He.
  unfold str_ends_with in He. by destruct (str_strip_suffix _ _).
Qed.

Lemma read_one_written dir p :
  validate_prepared p expected_writer max_files = Ok tt → prepared_representable p →
  (lenN (prepared_to_json p) ≤ max_bytes)%N →
  dir !! path_for (pf_table_uuid p) = Some (mkSegFile (prepared_to_json p) None) →
  read_one dir (path_for (pf_table_uuid p)) expected_writer max_files max_bytes = Ok p.
Proof.
  intros Hv Hrep Hlen Hf. unfold read_one. rewrite Hf. cbn [ok_or mbind result_bind f_bytes].
  pose proof (prepared_to_json_nonempty p). unfold lenN in *.
  rewrite (proj2 (N.eqb_neq _ 0)) by (destruct (prepared_to_json p); simpl; [done|lia]).
  rewrite (proj2 (N.ltb_ge _ _) Hlen). cbn [orb reject_if mbind result_bind].
  rewrite prepared_from_to_json by done. cbn [ok_or mbind result_bind]. rewrite Hv.
  cbn [mbind result_bind]. by rewrite bool_decide_true.
Qed.

(** Writing or removing one file, with the others unchanged. *)
Lemma store_rep_insert dir dir' m p :
  store_rep (Some dir) m → m !! pf_table_uuid p = None →
  read_one dir' (path_for (pf_table_uuid p)) expected_writer max_files max_bytes = Ok p →
  (∀ n, has_json_extension n = true → n ≠ path_for (pf_table_uuid p) → dir' !! n = dir !! n) →
  store_rep (Some dir') (<[pf_table_uuid p := p]> m).
Proof.
  intros [Hd Hm] Hnone Hr Hn. split; simpl in *.
  - intros name Hj Hs. destruct (decide (name = path_for (pf_table_uuid p))) as [->|Hne].
    + exists p. split; [done|]. apply lookup_insert_eq.
    + rewrite Hn in Hs by done. destruct (Hd name Hj Hs) as (q & Hq & Hmq). exists q.
      rewrite (read_one_ext dir) by (by apply Hn). split; [done|]. rewrite lookup_insert_ne; [done|].
      intros Heq. apply Hne. rewrite Heq. by apply (read_one_name dir).
  - intros u q [[<- <-]|[Hne Hq]]%lookup_insert_Some; [done|].
    destruct (Hm u q Hq) as [<- Hrq]. split; [done|]. rewrite (read_one_ext dir); [done|].
    apply Hn; [apply path_for_json|]. intros ?%path_for_inj. done.
Qed.

Lemma store_rep_delete dir m u :
  store_rep (Some dir) m → store_rep (Some (delete (path_for u) dir)) (delete u m).
Proof.
  intros [Hd Hm]. split; simpl in *.
  - intros name Hj Hs. destruct (decide (name = path_for u)) as [->|Hne].
    { rewrite lookup_delete_eq in Hs. by destruct Hs. }
    rewrite lookup_delete_ne in Hs by done. destruct (Hd name Hj Hs) as (q & Hq & Hmq). exists q.
    rewrite (read_one_ext dir) by (by rewrite lookup_delete_ne). split; [done|].
    rewrite lookup_delete_ne; [done|]. intros ->. apply Hne. by apply (read_one_name dir).
  - intros v q [Hne Hq]%lookup_delete_Some. destruct (Hm v q Hq) as [<- Hrq]. split; [done|].
    rewrite (read_one_ext dir); [done|]. rewrite lookup_delete_ne; [done|]. by intros ?%path_for_inj.
Qed.

Lemma store_rep_ext dir dir' m :
  store_rep (Some dir) m → (∀ n, has_json_extension n = true → dir' !! n = dir !! n) → store_rep (Some dir') m.
Proof.
  intros [Hd Hm] Hn. split; simpl in *.
  - intros name Hj Hs. rewrite Hn in Hs by done. destruct (Hd name Hj Hs) as (q & Hq & ?). exists q.
    by rewrite (read_one_ext dir) by auto.
  - intros u q Hq. destruct (Hm u q Hq) as [<- ?]. split; [done|].
    by rewrite (read_one_ext dir) by (apply Hn, path_for_json).
Qed.

Lemma store_rep_None m : store_rep None m ↔ store_rep (Some ∅) m.
Proof. done. Qed.

Lemma store_rep_read d m u q :
  store_rep d m → read_one (default ∅ d) (path_for u) expected_writer max_files max_bytes = Ok q → m !! u = Some q.
Proof.
  intros [Hfiles _] Hq. destruct (Hfiles (path_for u) (path_for_json u)) as (p & Hp & Hm).
  { unfold read_one in Hq. destruct (default ∅ d !! path_for u); [by eexists|done]. }
  assert (p = q) as -> by congruence. by rewrite (path_for_inj _ _ (read_one_name _ _ _ Hq)).
Qed.

Lemma persist_prepared_store mk io suffix d m p d' res :
  store_rep d m → prepared_representable p →
  persist_prepared mk io suffix d p expected_writer max_files max_bytes = (d', res) →
  match m !! pf_table_uuid p with
  | Some q => store_rep d' m ∧ (res = Ok tt → q = p)
  | None => (store_rep d' m ∧ res ≠ Ok tt) ∨ store_rep d' (<[pf_table_uuid p := p]> m)
  end.
Proof.
  intros Hrep Hjson. assert (store_rep (Some (default ∅ d)) m) as Hrep' by (by destruct d).
  unfold persist_prepared. destruct (validate_prepared p expected_writer max_files) as [[]|e] eqn:Hv.
  2: { intros [= <- <-]. case_match; [done|by left]. }
  destruct mk. { intros [= <- <-]. case_match; [done|by left]. }
  destruct (default ∅ d !! path_for (pf_table_uuid p)) as [f|] eqn:Hf.
  - intros [= <- <-]. destruct (proj1 Hrep' _ (path_for_json (pf_table_uuid p))) as (q & Hq & Hmq).
    { simpl. by rewrite Hf. }
    simpl in Hq. pose proof (path_for_inj _ _ (read_one_name _ _ _ Hq)) as Heq. rewrite <-Heq in Hmq.
    rewrite Hmq. split; [done|]. rewrite Hq. simpl. by case_decide.
  - assert (m !! pf_table_uuid p = None) as Hnone.
    { destruct (m !! pf_table_uuid p) as [q|] eqn:Hq; [|done].
      destruct (proj2 Hrep' _ _ Hq) as [_ Hr]. simpl in Hr. unfold read_one in Hr. by rewrite Hf in Hr. }
    rewrite Hnone. destruct (N.ltb_spec max_bytes (lenN (prepared_to_json p))) as [|Hlen].
    { intros [= <- <-]. by left. }
    destruct (atomic_replace _ _ _ _ _ _) as [dir' r] eqn:Ha. intros [= <- <-].
    assert (prepared_tmp_path (pf_table_uuid p) suffix ≠ path_for (pf_table_uuid p)) as Htmp.
    { intros Heq. pose proof (tmp_not_json (pf_table_uuid p) suffix) as Hj.
      by rewrite Heq, path_for_json in Hj. }
    apply atomic_replace_spec in Ha as (Hok & Hor & Hoth); [|done].
    assert (∀ n, has_json_extension n = true → n ≠ prepared_tmp_path (pf_table_uuid p) suffix) as Hjt.
    { intros n Hn ->. by rewrite tmp_not_json in Hn. }
    destruct Hor as [Hold|Hnew].
    + left. split; [|intros Hr; specialize (Hok Hr); congruence].
      eapply store_rep_ext; [done|]. intros n Hn. destruct (decide (n = path_for (pf_table_uuid p))) as [->|]; auto.
    + right. eapply store_rep_insert; [done|done| |intros; auto]. by apply read_one_written.
Qed.

Lemma remove_prepared_store fault d m u d' r :
  store_rep d m → remove_prepared fault d u = (d', r) →
  (r = Ok tt → store_rep d' (delete u m)) ∧ (store_rep d' m ∨ store_rep d' (delete u m)).
Proof.
  intros Hst Hr. unfold remove_prepared in Hr.
  assert (∀ d, store_rep d m → default ∅ d !! path_for u = None → store_rep d (delete u m)) as Hgone.
  { intros d0 Hd0 Hn. rewrite delete_id; [done|]. destruct (m !! u) as [q|] eqn:Hq; [|done].
    destruct (proj2 Hd0 _ _ Hq) as [_ Hread]. unfold read_one in Hread. by rewrite Hn in Hread. }
  destruct d as [dir|]; [|injection Hr as <- <-; split; auto].
  destruct (dir !! path_for u) as [f|] eqn:Hf; [|injection Hr as <- <-; split; auto].
  pose proof (store_rep_delete dir m u Hst).
  destruct fault; injection Hr as <- <-; split; auto; done.
Qed.

Lemma list_prepared_store d m :
  store_rep d m →
  ∃ l, list_prepared d expected_writer max_files max_bytes = Ok l ∧ l ≡ₚ (map_to_list m).*2.
Proof.
  intros [Hd Hm]. destruct d as [dir|]; simpl in *.
  2: { exists []. split; [done|]. destruct (map_to_list m) as [|[u q] l] eqn:Hl; [done|].
       assert (m !! u = Some q) as Hq by (apply elem_of_map_to_list; rewrite Hl; by left).
       by destruct (Hm u q Hq). }
  set (paths := stable_sort _ _).
  assert (∀ n, n ∈ paths ↔ has_json_extension n = true ∧ is_Some (dir !! n)) as Hin.
  { intros n. unfold paths. rewrite stable_sort_perm, list_elem_of_filter, list_elem_of_fmap.
    apply and_iff_compat_l. split.
    - intros ([n' f] & -> & ?%elem_of_map_to_list). by exists f.
    - intros [f Hf]. exists (n, f). split; [done|]. by apply elem_of_map_to_list. }
  assert (NoDup paths) as Hnd.
  { unfold paths. rewrite stable_sort_perm. apply NoDup_filter, NoDup_fst_map_to_list. }
  assert (∃ l, Forall2 (λ n q, read_one dir n expected_writer max_files max_bytes = Ok q) paths l) as [l Hl].
  { assert (∀ n, n ∈ paths → ∃ q, read_one dir n expected_writer max_files max_bytes = Ok q) as Hall.
    { intros n [Hj Hs]%Hin. destruct (Hd n Hj Hs) as (q & ? & _). eauto. }
    clear -Hall. induction paths as [|n paths IH]; [by exists []|].
    destruct (Hall n) as [q Hq]; [by left|]. destruct IH as [l Hl]; [intros; apply Hall; by right|].
    exists (q :: l). by constructor. }
  exists l. split; [by apply mapM_res_Ok|]. apply NoDup_Permutation.
  - clear -Hl Hnd H0. induction Hl as [|n q paths l Hq Hl IH]; [constructor|].
    apply NoDup_cons in Hnd as [Hn Hnd]. apply NoDup_cons. split; [|by apply IH].
    intros Hin. apply Hn. destruct (Forall2_elem_of_r _ _ _ _ Hl Hin) as (n' & Hn' & Hq').
    apply read_one_name in Hq, Hq'. congruence.
  - apply NoDup_fmap_2_strong; [|apply NoDup_map_to_list].
    intros [u q] [u' q'] Hu%elem_of_map_to_list Hu'%elem_of_map_to_list. simpl. intros ->.
    destruct (Hm _ _ Hu) as [<- _], (Hm _ _ Hu') as [<- _]. done.
  - intros q. rewrite list_elem_of_fmap. split.
    + intros Hq. destruct (Forall2_elem_of_r _ _ _ _ Hl Hq) as (n & [Hj Hs]%Hin & Hr).
      destruct (Hd n Hj Hs) as (q' & Hr' & Hq'). exists (pf_table_uuid q, q). split; [done|].
      apply elem_of_map_to_list. congruence.
    + intros ([u q'] & -> & Hu%elem_of_map_to_list). destruct (Hm _ _ Hu) as [<- Hr].
      assert (path_for (pf_table_uuid q') ∈ paths) as Hp.
      { apply Hin. split; [apply path_for_json|]. unfold read_one in Hr.
        destruct (dir !! path_for (pf_table_uuid q')); [by eexists|done]. }
      destruct (Forall2_elem_of_l _ _ _ _ Hl Hp) as (q'' & Hq'' & Hr'').
      simpl. by assert (q'' = q') as <- by congruence.
Qed.
End store.

(** ** A concrete codec, for evaluation *)
#[export] Instance fields_prepared : Fields PreparedFlush.
Proof.
  refine (fields_inj
    (λ p, ((pf_version p, ti_namespace (pf_table p), ti_name (pf_table p), pf_table_uuid p,
            pf_writer_id p, pf_writer_epoch p),
           (pf_commit_id p, gr_lo (pf_generations p), gr_hi (pf_generations p), pf_record_count p,
            pf_prepared_at_ms p, pf_data_files p, pf_base_snapshot_id p)))
    (λ '((v, ns, n, tu, w, e), (c, lo, hi, rc, ts, fs, b)),
       Some (mkPreparedFlush v (mkTableIdent ns n) tu w e c (mkGenerationRange lo hi) rc ts fs b)) _).
  by intros [? [] ???? [] ????].
Defined.
Definition demo_prepared_json : PreparedJson := {|
  prepared_to_json p := x7b :: demo_text_bytes (fields_encode p);
  prepared_from_json bs := match bs with _ :: bs => fields_decode (demo_bytes_text bs) | [] => None end;
  prepared_representable _ := True |}.
Lemma demo_prepared_json_laws : @PreparedJsonLaws demo_prepared_json.
Proof.
  constructor; intros p; simpl; [|discriminate]. intros _.
  by rewrite demo_bytes_text_bytes, fields_decode_encode.
Qed.

Definition demo_data_file (name : string) (records : N) : DataFile :=
  mkDataFile ContentData
    (mkObjectLocation S3 (Some "lake")
       ("wh/events/data/" +:+ @uuid_to_string demo_uuid_text 7 +:+ "/" +:+ name))
    FmtParquet 0 None 0 ∅ records 100 ∅ ∅ ∅ ∅ ∅ ∅ [] [] None.
Definition demo_prepared : PreparedFlush :=
  PreparedFlush_new demo_table 5 7 3 99 (mkGenerationRange 11 17) 30 1700000000000
    [demo_data_file (@uuid_to_string demo_uuid_text 99 +:+ "-0.parquet") 10;
     demo_data_file (@uuid_to_string demo_uuid_text 99 +:+ "-1.parquet") 20] (Some 4%Z).

(** Intent validation is exact: a prepared flush is accepted iff its identity fields
    are those of this writer and well formed, it lists at least one and at most the
    allowed number of files, every file is a Parquet data file named after the commit in
    the writer's own directory below a [data] directory with no empty or parent segment,
    no path is repeated, and the files' record counts add up to the intent's. *)
Theorem prepared_validation_exact `{UuidText} (p : PreparedFlush) (expected_writer : Uuid) (max_files : N)
    (Hcount : (pf_record_count p ≤ u64_max)%N) :
  validate_prepared p expected_writer max_files = Ok tt ↔ intent_wf p expected_writer max_files.
Proof. by apply validate_prepared_Ok. Qed.

Lemma prepared_validation_exact_witness : @intent_wf demo_uuid_text demo_prepared 7 10000.
Proof.
  refine (proj1 (@prepared_validation_exact demo_uuid_text demo_prepared 7 10000 _) _);
    [unfold u64_max; simpl; lia|vm_compute; reflexivity].
Defined.

(**  The prepared directory implements a map from table incarnations to intents: on
    a directory that holds the intents [m], a persist whose result is success leaves
    exactly [m] with this intent; whichever step fails it leaves [m], or [m] with the
    intent when the failure came after the rename; an incarnation that has another intent
    keeps it and the persist fails; removal deletes one entry; and listing returns the
    intents of [m], each once. *)
Theorem prepared_store_refines `{UuidTextLaws} `{PreparedJsonLaws} (w : Uuid) (max_files max_bytes : N)
    (d : option WalDir) (m : gmap Uuid PreparedFlush) (Hrep : store_rep w max_files max_bytes d m) :
  (∀ mk io suffix p d' res, prepared_representable p →
     persist_prepared mk io suffix d p w max_files max_bytes = (d', res) →
     (res = Ok tt → store_rep w max_files max_bytes d' (<[pf_table_uuid p := p]> m)) ∧
     (store_rep w max_files max_bytes d' m ∨
      m !! pf_table_uuid p = None ∧ store_rep w max_files max_bytes d' (<[pf_table_uuid p := p]> m)) ∧
     (∀ q, m !! pf_table_uuid p = Some q → q ≠ p → res ≠ Ok tt ∧ store_rep w max_files max_bytes d' m)) ∧
  (∀ fault u d' res, remove_prepared fault d u = (d', res) →
     (res = Ok tt → store_rep w max_files max_bytes d' (delete u m)) ∧
     (store_rep w max_files max_bytes d' m ∨ store_rep w max_files max_bytes d' (delete u m))) ∧
  (∃ l, list_prepared d w max_files max_bytes = Ok l ∧ l ≡ₚ (map_to_list m).*2).
Proof.
  split_and!.
  - intros mk io suffix p d' res Hjson Hp.
    pose proof (persist_prepared_store w max_files max_bytes mk io suffix d m p d' res Hrep Hjson Hp) as Hs.
    destruct (m !! pf_table_uuid p) as [q|] eqn:Hq.
    + destruct Hs as [Hr Hqp]. split_and!; [|by left|].
      * intros Hres. specialize (Hqp Hres). subst q. by rewrite insert_id.
      * intros q' [= <-] Hne. split; [|done]. intros Hres. by apply Hne, Hqp.
    + split_and!; [|naive_solver|done]. intros Hres. by destruct Hs as [[_ ?]|?].
  - intros fault u d' res Hr. by eapply remove_prepared_store.
  - by apply list_prepared_store.
Qed.

Lemma prepared_store_refines_witness :
  let d := (@persist_prepared demo_uuid_text demo_prepared_json false no_faults 1 None demo_prepared 7 10000
              DEFAULT_MAX_PREPARED_BYTES).1 in
  @store_rep demo_uuid_text demo_prepared_json 7 10000 DEFAULT_MAX_PREPARED_BYTES d {[ 5%N := demo_prepared ]}
  ∧ @list_prepared demo_uuid_text demo_prepared_json d 7 10000 DEFAULT_MAX_PREPARED_BYTES = Ok [demo_prepared].
Proof.
  assert (@store_rep demo_uuid_text demo_prepared_json 7 10000 DEFAULT_MAX_PREPARED_BYTES None ∅) as Hempty.
  { split; [intros name _ [f Hf]; discriminate (eq_trans (eq_sym (lookup_empty name)) Hf)|].
    intros u p Hp. rewrite lookup_empty in Hp. discriminate. }
  split; [|vm_compute; reflexivity].
  refine (proj1 (proj1 (@prepared_store_refines demo_uuid_text demo_uuid_text_laws demo_prepared_json
    demo_prepared_json_laws 7 10000 DEFAULT_MAX_PREPARED_BYTES None ∅ Hempty) false no_faults 1%N demo_prepared
    _ _ I (surjective_pairing _)) _).
  vm_compute. reflexivity.
Defined.
