(* ===== verification/Buffer.v ===== *)
(** * The hot buffer of a table

    Models [teodb-ingest/src/buffer/table.rs].  Every operation takes the state
    lock for its whole duration, so it is one step on the buffer.  Record batches
    are opaque: the code uses their column sizes and row count.  Clock readings
    are arguments. *)

From S2P Require Import Prelude Core Location DataFiles WriteProtocol Prepared.
Open Scope nat_scope.
Open Scope list_scope.

(** Arrow: the memory size of each column and the number of rows. *)
Class BatchOps (Batch : Type) := { column_sizes : Batch → list N; num_rows : Batch → N }.

(** [Iterator::min], [Iterator::max]. *)
Definition minN (l : list N) : option N :=
  match l with [] => None | x :: l => Some (foldr N.min x l) end.
Definition maxN (l : list N) : option N :=
  match l with [] => None | x :: l => Some (foldr N.max x l) end.

Record BufferEntry (Batch : Type) := mkBufferEntry {
  be_batch_id : Uuid; be_generation : Generation; be_created_at_ms : Z; be_batch : Batch; be_byte_size : N }.
Arguments mkBufferEntry {_}.
Arguments be_batch_id {_}.
Arguments be_generation {_}.
Arguments be_created_at_ms {_}.
Arguments be_batch {_}.
Arguments be_byte_size {_}.

Record BufferStats := mkBufferStats {
  bs_pending_bytes : N; bs_in_flight_bytes : N; bs_recently_committed_bytes : N; bs_reserved_bytes : N;
  bs_pending_entries : nat; bs_in_flight_entries : nat; bs_oldest_uncommitted_created_at_ms : option Z }.
Record InsertOk := mkInsertOk { io_generation : Generation; io_backpressure_signal : bool }.
Record EvictionStats := mkEvictionStats { ev_rows : N; ev_entries : nat; ev_bytes : N }.

Record BlockedFlush := mkBlockedFlush {
  bf_prepared : PreparedFlush; bf_since_ms : Z; bf_last_error : string; bf_last_error_class : string;
  bf_status_check_attempts : N; bf_last_recheck_ms : Z }.

Inductive TableFlushState := FIdle | FPrepared (p : PreparedFlush) | FBlocked (b : BlockedFlush).

Record Reservation := mkReservation { rs_generation : Generation; rs_byte_size : N }.

Section buffer.
Context {Batch Schema Spec Order : Type} `{!BatchOps Batch}.
Abbreviation Entry := (BufferEntry Batch).
Abbreviation Metadata := (TableMetadata Schema Spec Order).

Record BufferState := mkBufferState {
  next_gen : Generation;
  committed_high_water : Generation;
  pending : list Entry;
  in_flight : list Entry;
  recently_committed : list (N * list Entry);
  pending_bytes : N;
  in_flight_bytes : N;
  reserved_bytes : N;
  reserved_generations : gmap Generation N;
  flush_state : TableFlushState;
}.

Record TableBuffer := mkTableBuffer {
  tb_ident : TableIdent;
  tb_state : BufferState;
  tb_metadata : Metadata;
  tb_max_bytes : N;
  tb_soft_watermark_bytes : N;
  tb_committed_grace : N;
}.

Record BufferSnapshot := mkBufferSnapshot { bsn_committed_high_water : Generation; bsn_batches : list Entry }.

Definition set_state (t : TableBuffer) (s : BufferState) : TableBuffer :=
  mkTableBuffer (tb_ident t) s (tb_metadata t) (tb_max_bytes t) (tb_soft_watermark_bytes t)
    (tb_committed_grace t).
Definition set_metadata (t : TableBuffer) (m : Metadata) : TableBuffer :=
  mkTableBuffer (tb_ident t) (tb_state t) m (tb_max_bytes t) (tb_soft_watermark_bytes t)
    (tb_committed_grace t).
Definition set_flush_state (s : BufferState) (f : TableFlushState) : BufferState :=
  mkBufferState (next_gen s) (committed_high_water s) (pending s) (in_flight s) (recently_committed s)
    (pending_bytes s) (in_flight_bytes s) (reserved_bytes s) (reserved_generations s) f.
Definition set_pending (s : BufferState) (p : list Entry) (bytes : N) : BufferState :=
  mkBufferState (next_gen s) (committed_high_water s) p (in_flight s) (recently_committed s)
    bytes (in_flight_bytes s) (reserved_bytes s) (reserved_generations s) (flush_state s).
Definition set_in_flight (s : BufferState) (l : list Entry) (bytes : N) : BufferState :=
  mkBufferState (next_gen s) (committed_high_water s) (pending s) l (recently_committed s)
    (pending_bytes s) bytes (reserved_bytes s) (reserved_generations s) (flush_state s).
Definition set_reserved (s : BufferState) (bytes : N) (m : gmap Generation N) : BufferState :=
  mkBufferState (next_gen s) (committed_high_water s) (pending s) (in_flight s) (recently_committed s)
    (pending_bytes s) (in_flight_bytes s) bytes m (flush_state s).
Definition set_next_gen (s : BufferState) (g : Generation) : BufferState :=
  mkBufferState g (committed_high_water s) (pending s) (in_flight s) (recently_committed s)
    (pending_bytes s) (in_flight_bytes s) (reserved_bytes s) (reserved_generations s) (flush_state s).

Definition sum_bytes (l : list Entry) : N := sumN (be_byte_size <$> l).
Definition generations (l : list Entry) : list N := be_generation <$> l.

Definition batch_byte_size (b : Batch) : N := sumN (column_sizes b).

Definition TableBuffer_new (ident : TableIdent) (metadata : Metadata) (committed_generation : Generation)
    (max_bytes soft_watermark_bytes : N) : TableBuffer :=
  mkTableBuffer ident
    (mkBufferState (u64_saturating_add committed_generation 1) committed_generation [] [] [] 0 0 0 ∅ FIdle)
    metadata max_bytes soft_watermark_bytes 0.

Definition with_committed_grace (t : TableBuffer) (grace : N) : TableBuffer :=
  mkTableBuffer (tb_ident t) (tb_state t) (tb_metadata t) (tb_max_bytes t) (tb_soft_watermark_bytes t) grace.

Definition protocol_error (t : TableBuffer) (message : string) : TeoDBError :=
  WriteProtocol (tb_ident t) message.

Definition ensure_capacity (t : TableBuffer) (s : BufferState) (byte_size : N) (include_reserved : bool) :
    TeoDBResult unit :=
  total ← ok_or (a ← u64_checked_add (pending_bytes s) (in_flight_bytes s);
                 b ← u64_checked_add a (reserved_bytes s); u64_checked_add b byte_size)
            (Backpressure "buffer byte accounting overflow for {}");
  if (total <=? tb_max_bytes t)%N then Ok tt
  else if include_reserved then
    Err (Backpressure "buffer for {} would exceed {}B limit (currently {}B, reserved {}B)")
  else Err (Backpressure "buffer for {} would exceed {}B limit (currently {}B)").

Definition ensure_generation_available (t : TableBuffer) (generation : Generation) : TeoDBResult unit :=
  if ((generation =? 0) || (generation =? u64_max))%N then
    Err (protocol_error t "writer-local generation space is exhausted")
  else Ok tt.

Definition admit_entry (t : TableBuffer) (s : BufferState) (entry : Entry) : BufferState * InsertOk :=
  let bytes := (pending_bytes s + be_byte_size entry)%N in
  let s := set_pending s (pending s ++ [entry]) bytes in
  let s := set_next_gen s (N.max (next_gen s) (be_generation entry + 1)) in
  (s, mkInsertOk (be_generation entry) (tb_soft_watermark_bytes t <? bytes + in_flight_bytes s)%N).

Definition insert_with_generation_at (t : TableBuffer) (batch_id : Uuid) (generation : Generation)
    (created_at_ms : Z) (batch : Batch) : TableBuffer * TeoDBResult InsertOk :=
  let byte_size := batch_byte_size batch in
  match (_ ← ensure_capacity t (tb_state t) byte_size false; ensure_generation_available t generation) with
  | Err e => (t, Err e)
  | Ok _ =>
      let '(s, ok) := admit_entry t (tb_state t)
                        (mkBufferEntry batch_id generation created_at_ms batch byte_size) in
      (set_state t s, Ok ok)
  end.

Definition buf_insert (t : TableBuffer) (batch_id : Uuid) (now_ms : Z) (batch : Batch) :
    TableBuffer * TeoDBResult InsertOk :=
  let byte_size := batch_byte_size batch in
  match (_ ← ensure_capacity t (tb_state t) byte_size false;
         ensure_generation_available t (next_gen (tb_state t))) with
  | Err e => (t, Err e)
  | Ok _ =>
      let '(s, ok) := admit_entry t (tb_state t)
                        (mkBufferEntry batch_id (next_gen (tb_state t)) now_ms batch byte_size) in
      (set_state t s, Ok ok)
  end.

Definition reserve (t : TableBuffer) (batch : Batch) : TableBuffer * TeoDBResult Reservation :=
  let byte_size := batch_byte_size batch in
  let s := tb_state t in
  match flush_state s with
  | FBlocked blocked => (t, Err (FlushBlocked (tb_ident t) (pf_commit_id (bf_prepared blocked))))
  | _ =>
      match (_ ← ensure_capacity t s byte_size true; ensure_generation_available t (next_gen s)) with
      | Err e => (t, Err e)
      | Ok _ =>
          let generation := next_gen s in
          let s := set_next_gen s (generation + 1) in
          let s := set_reserved s (reserved_bytes s + byte_size)
                     (<[generation := byte_size]> (reserved_generations s)) in
          (set_state t s, Ok (mkReservation generation byte_size))
      end
  end.

(** The common prefix of releasing and using a reservation. *)
Definition take_reservation (s : BufferState) (generation : Generation) : BufferState :=
  match reserved_generations s !! generation with
  | Some byte_size =>
      set_reserved s (u64_saturating_sub (reserved_bytes s) byte_size)
        (delete generation (reserved_generations s))
  | None => s
  end.

Definition release_reservation (t : TableBuffer) (r : Reservation) : TableBuffer :=
  set_state t (take_reservation (tb_state t) (rs_generation r)).

Definition insert_reserved_at (t : TableBuffer) (batch_id : Uuid) (r : Reservation) (created_at_ms : Z)
    (batch : Batch) : TableBuffer * InsertOk :=
  let byte_size := batch_byte_size batch in
  let s := take_reservation (tb_state t) (rs_generation r) in
  let '(s, ok) := admit_entry t s
                    (mkBufferEntry batch_id (rs_generation r) created_at_ms batch byte_size) in
  (set_state t s, ok).

(** [now] is the reading of the monotonic clock. *)
Definition elapsed (now at_ : N) : N := (now - at_)%N.

Definition snapshot_for_query (now : N) (t : TableBuffer) : BufferSnapshot :=
  let s := tb_state t in
  mkBufferSnapshot (committed_high_water s)
    (pending s ++ in_flight s ++
     concat (filter (λ c, (elapsed now c.1 ≤ tb_committed_grace t)%N) (recently_committed s)).*2).

(** [is_none_or] of the drain loop. *)
Definition below_reserved (lowest_reserved : option Generation) (e : Entry) : bool :=
  match lowest_reserved with None => true | Some reserved => (be_generation e <? reserved)%N end.

Definition drain_pending_to_in_flight (t : TableBuffer) : TableBuffer * list Entry :=
  let s := tb_state t in
  match in_flight s with
  | _ :: _ => (t, in_flight s)
  | [] =>
      match pending s with
      | [] => (t, [])
      | _ :: _ =>
          let lowest_reserved := minN (map_to_list (reserved_generations s)).*1 in
          let drained := filter (λ e, below_reserved lowest_reserved e = true) (pending s) in
          let remaining := filter (λ e, below_reserved lowest_reserved e = false) (pending s) in
          match drained with
          | [] => (set_state t (set_pending s remaining (sum_bytes remaining)), [])
          | _ :: _ =>
              (set_state t (set_in_flight (set_pending s remaining (sum_bytes remaining))
                              drained (sum_bytes drained)), drained)
          end
      end
  end.

Definition range_matches (l : list Entry) (r : GenerationRange) : bool :=
  bool_decide (minN (generations l) = Some (gr_lo r)) && bool_decide (maxN (generations l) = Some (gr_hi r)).

Definition set_prepared (t : TableBuffer) (prepared : PreparedFlush) : TableBuffer * TeoDBResult unit :=
  let s := tb_state t in
  if negb (range_matches (in_flight s) (pf_generations prepared))
     || negb (pf_table_uuid prepared =? tm_table_uuid (tb_metadata t))%N
  then (t, Err (protocol_error t "prepared range {}-{} does not match in-flight range {:?}-{:?}"))
  else
    let other := (t, Err (protocol_error t "a different prepared flush already owns this table")) in
    match flush_state s with
    | FIdle => (set_state t (set_flush_state s (FPrepared prepared)), Ok tt)
    | FPrepared existing => if decide (existing = prepared) then (t, Ok tt) else other
    | FBlocked existing => if decide (bf_prepared existing = prepared) then (t, Ok tt) else other
    end.

Definition restore_prepared (t : TableBuffer) (prepared : PreparedFlush) : TableBuffer * TeoDBResult unit :=
  let s := tb_state t in
  match in_flight s with
  | _ :: _ => (t, Err (protocol_error t "cannot restore prepared intent over existing in-flight entries"))
  | [] =>
      if (gr_hi (pf_generations prepared) <=? committed_high_water s)%N then
        (set_state t (set_flush_state s (FPrepared prepared)), Ok tt)
      else
        let restored := filter (λ e, gr_contains (pf_generations prepared) (be_generation e) = true) (pending s) in
        let remaining := filter (λ e, gr_contains (pf_generations prepared) (be_generation e) = false) (pending s) in
        if negb (range_matches restored (pf_generations prepared)) then
          let merged := stable_sort (λ a b, (be_generation a <=? be_generation b)%N) (restored ++ remaining) in
          (set_state t (set_pending s merged (sum_bytes merged)),
           Err (protocol_error t "prepared sidecar range {}-{} is not fully represented in WAL (found {:?}-{:?})"))
        else
          let s := set_in_flight (set_pending s remaining (sum_bytes remaining)) restored (sum_bytes restored) in
          (set_state t (set_flush_state s (FPrepared prepared)), Ok tt)
  end.

Definition prepared_flush (t : TableBuffer) : option PreparedFlush :=
  match flush_state (tb_state t) with
  | FPrepared prepared => Some prepared
  | FBlocked blocked => Some (bf_prepared blocked)
  | FIdle => None
  end.

Definition blocked_flush (t : TableBuffer) : option BlockedFlush :=
  match flush_state (tb_state t) with FBlocked blocked => Some blocked | _ => None end.

Definition mark_flush_blocked_with_class (t : TableBuffer) (now : Z) (prepared : PreparedFlush)
    (last_error last_error_class : string) (status_check_attempts : N) : TableBuffer * TeoDBResult unit :=
  let s := tb_state t in
  let foreign := (t, Err (protocol_error t "cannot block a flush that does not own prepared state")) in
  let block since_ms :=
    (set_state t (set_flush_state s (FBlocked
       (mkBlockedFlush prepared since_ms last_error last_error_class status_check_attempts now))), Ok tt) in
  match flush_state s with
  | FPrepared existing => if decide (existing = prepared) then block now else foreign
  | FBlocked existing => if decide (bf_prepared existing = prepared) then block (bf_since_ms existing) else foreign
  | FIdle => foreign
  end.

Definition mark_flush_blocked (t : TableBuffer) (now : Z) (prepared : PreparedFlush) (last_error : string)
    (status_check_attempts : N) : TableBuffer * TeoDBResult unit :=
  mark_flush_blocked_with_class t now prepared last_error "commit_status_unknown" status_check_attempts.

Definition mark_blocked_recheck (t : TableBuffer) (now : Z) (last_error : string) (attempts : N) : TableBuffer :=
  match flush_state (tb_state t) with
  | FBlocked b =>
      set_state t (set_flush_state (tb_state t) (FBlocked
        (mkBlockedFlush (bf_prepared b) (bf_since_ms b) last_error "commit_status_unknown" attempts now)))
  | _ => t
  end.

(** The clock is read once per use: when the group is stamped and when old groups
    are dropped; both readings are [now]. *)
Definition mark_committed (now : N) (t : TableBuffer) (gen_hi : Generation) (new_metadata : Metadata) :
    TableBuffer * TeoDBResult unit :=
  let s := tb_state t in
  let actual_hi := maxN (generations (in_flight s)) in
  let problem := match actual_hi with
  | Some hi => if (hi =? gen_hi)%N then None else
      Some "flush completion generation {gen_hi} does not match in-flight high generation {actual_hi}"
  | None => if (committed_high_water s <? gen_hi)%N then
      Some "flush completion for generation {gen_hi} has no matching in-flight entries" else None
  end in
  match problem with
  | Some message => (t, Err (protocol_error t message))
  | None =>
      let grace := tb_committed_grace t in
      let groups :=
        if negb (grace =? 0)%N && negb (bool_decide (in_flight s = []))
        then recently_committed s ++ [(now, in_flight s)] else recently_committed s in
      let groups := filter (λ c, (elapsed now c.1 ≤ grace)%N) groups in
      let s := mkBufferState (next_gen s) (N.max (committed_high_water s) gen_hi) (pending s) [] groups
                 (pending_bytes s) 0 (reserved_bytes s) (reserved_generations s) FIdle in
      (set_metadata (set_state t s) new_metadata, Ok tt)
  end.

Definition merge_in_flight_back_to_pending (s : BufferState) : BufferState :=
  set_in_flight (set_pending s (in_flight s ++ pending s) (pending_bytes s + in_flight_bytes s)) [] 0.

Definition rollback_unprepared_flush (t : TableBuffer) : TableBuffer * TeoDBResult unit :=
  match flush_state (tb_state t) with
  | FIdle => (set_state t (merge_in_flight_back_to_pending (tb_state t)), Ok tt)
  | _ => (t, Err (protocol_error t "cannot roll back an unprepared flush while a prepared owner exists"))
  end.

Definition owns_state (f : TableFlushState) (prepared : PreparedFlush) : bool :=
  match f with
  | FPrepared existing => bool_decide (existing = prepared)
  | FBlocked existing => bool_decide (bf_prepared existing = prepared)
  | FIdle => false
  end.

Definition mark_flush_failed (t : TableBuffer) (prepared : PreparedFlush) : TableBuffer * TeoDBResult unit :=
  if owns_state (flush_state (tb_state t)) prepared then
    (set_state t (set_flush_state (merge_in_flight_back_to_pending (tb_state t)) FIdle), Ok tt)
  else (t, Err (protocol_error t "cannot fail a flush that does not own prepared state")).

Definition has_pending (t : TableBuffer) : bool :=
  let s := tb_state t in
  negb (bool_decide (pending s = [])) || negb (bool_decide (in_flight s = []))
  || match flush_state s with FIdle => false | _ => true end.

Definition minZ (l : list Z) : option Z :=
  match l with [] => None | x :: l => Some (foldr Z.min x l) end.

Definition buffer_stats (t : TableBuffer) : BufferStats :=
  let s := tb_state t in
  mkBufferStats (pending_bytes s) (in_flight_bytes s) (sum_bytes (concat (recently_committed s).*2))
    (reserved_bytes s) (length (pending s)) (length (in_flight s))
    (minZ (be_created_at_ms <$> pending s ++ in_flight s)).

Definition unflushed_stats (t : TableBuffer) : EvictionStats :=
  let s := tb_state t in
  mkEvictionStats (sumN ((λ e, num_rows (be_batch e)) <$> pending s ++ in_flight s))
    (length (pending s) + length (in_flight s)) (pending_bytes s + in_flight_bytes s).
End buffer.
