(* ===== verification/BufferSpec.v ===== *)
(** * Correctness of the hot buffer

    Histories of one buffer: the operations its callers run, in any order, with
    the entries admitted and the groups committed so far.  The invariant ties the
    counters to the entries, keeps the capacity limit and orders generations. *)

From S2P Require Import Prelude Core Location DataFiles WriteProtocol Prepared Buffer.
Open Scope nat_scope.
Open Scope list_scope.

(** ** Minima and maxima *)
Lemma foldr_max_spec x l :
  foldr N.max x l ∈ x :: l ∧ ∀ y, y ∈ x :: l → (y ≤ foldr N.max x l)%N.
Proof.
  induction l as [|z l [IH1 IH2]]; simpl.
  { split; [by left|]. intros y ->%list_elem_of_singleton. done. }
  split.
  - destruct (N.max_spec z (foldr N.max x l)) as [[_ ->]|[_ ->]]; [|by right; left].
    apply elem_of_cons in IH1 as [->|?]; [by left|by right; right].
  - intros y [->|[->|Hy]%elem_of_cons]%elem_of_cons; [|lia|].
    + specialize (IH2 x ltac:(by left)). lia.
    + specialize (IH2 y ltac:(by right)). lia.
Qed.

Lemma maxN_Some l m : maxN l = Some m → m ∈ l ∧ ∀ y, y ∈ l → (y ≤ m)%N.
Proof. destruct l as [|x l]; [done|]. intros [= <-]. apply foldr_max_spec. Qed.

Lemma foldr_min_spec x l :
  foldr N.min x l ∈ x :: l ∧ ∀ y, y ∈ x :: l → (foldr N.min x l ≤ y)%N.
Proof.
  induction l as [|z l [IH1 IH2]]; simpl.
  { split; [by left|]. intros y ->%list_elem_of_singleton. done. }
  split.
  - destruct (N.min_spec z (foldr N.min x l)) as [[_ ->]|[_ ->]]; [by right; left|].
    apply elem_of_cons in IH1 as [->|?]; [by left|by right; right].
  - intros y [->|[->|Hy]%elem_of_cons]%elem_of_cons; [|lia|].
    + specialize (IH2 x ltac:(by left)). lia.
    + specialize (IH2 y ltac:(by right)). lia.
Qed.

Lemma minN_Some l m : minN l = Some m → m ∈ l ∧ ∀ y, y ∈ l → (m ≤ y)%N.
Proof. destruct l as [|x l]; [done|]. intros [= <-]. apply foldr_min_spec. Qed.

Lemma minN_None l : minN l = None → l = [].
Proof. by destruct l. Qed.
Lemma maxN_None l : maxN l = None → l = [].
Proof. by destruct l. Qed.

(** A filter and its complement split a list. *)
Lemma filter_split {A} (P Q : A → Prop) `{!∀ x, Decision (P x), !∀ x, Decision (Q x)} l :
  (∀ x, Q x ↔ ¬ P x) → filter P l ++ filter Q l ≡ₚ l.
Proof.
  intros HPQ. induction l as [|x l IH]; [done|]. rewrite !filter_cons.
  destruct (decide (P x)) as [Hp|Hp], (decide (Q x)) as [Hq|Hq].
  - by apply HPQ in Hq.
  - simpl. by rewrite IH.
  - by rewrite <-Permutation_middle, IH.
  - by destruct Hq; apply HPQ.
Qed.

Lemma elem_of_concat {A} (x : A) ls : x ∈ concat ls ↔ ∃ l, x ∈ l ∧ l ∈ ls.
Proof.
  induction ls as [|l ls IH]; simpl.
  - split; [by intros ?%elem_of_nil|]. by intros (l & _ & ?%elem_of_nil).
  - rewrite elem_of_app, IH. setoid_rewrite elem_of_cons. naive_solver.
Qed.

Lemma list_filter_all {A} (P : A → Prop) `{!∀ x, Decision (P x)} l : Forall P l → filter P l = l.
Proof. induction 1 as [|x l Hx _ IH]; [done|]. rewrite filter_cons, decide_True by done. by rewrite IH. Qed.

Definition keys (m : gmap N N) : list N := (map_to_list m).*1.
Lemma elem_of_keys m g : g ∈ keys m ↔ is_Some (m !! g).
Proof.
  unfold keys. rewrite list_elem_of_fmap. split.
  - intros ([k v] & -> & ?%elem_of_map_to_list). by exists v.
  - intros [v Hv]. exists (g, v). split; [done|]. by apply elem_of_map_to_list.
Qed.
Lemma keys_insert m g b : m !! g = None → keys (<[g := b]> m) ≡ₚ g :: keys m.
Proof. intros Hg. unfold keys. by rewrite map_to_list_insert. Qed.
Lemma keys_delete m g b : m !! g = Some b → keys m ≡ₚ g :: keys (delete g m).
Proof. intros Hg. rewrite <-(insert_delete_id m g b) at 1 by done. apply keys_insert, lookup_delete_eq. Qed.

(** ** Histories *)
Section histories.
Context {Batch Schema Spec Order : Type} `{!BatchOps Batch}.
Abbreviation Entry := (BufferEntry Batch).
Abbreviation Metadata := (TableMetadata Schema Spec Order).
Abbreviation Buf := (@TableBuffer Batch Schema Spec Order).

Inductive BufOp :=
| DoInsert (batch_id : Uuid) (now_ms : Z) (batch : Batch)
| DoReserve (batch : Batch)
| DoRelease (r : Reservation)
| DoInsertReserved (batch_id : Uuid) (r : Reservation) (created_at_ms : Z) (batch : Batch)
| DoInsertWithGeneration (batch_id : Uuid) (generation : Generation) (created_at_ms : Z) (batch : Batch)
| DoDrain
| DoSetPrepared (p : PreparedFlush)
| DoRestore (p : PreparedFlush)
| DoBlock (now_ms : Z) (p : PreparedFlush) (last_error error_class : string) (attempts : N)
| DoRecheck (now_ms : Z) (last_error : string) (attempts : N)
| DoCommitted (gen_hi : Generation) (m : Metadata)
| DoRollback
| DoFailed (p : PreparedFlush)
| DoRefresh (m : Metadata).

Definition exec (now : N) (t : Buf) (op : BufOp) : Buf :=
  match op with
  | DoInsert id now_ms b => (buf_insert t id now_ms b).1
  | DoReserve b => (reserve t b).1
  | DoRelease r => release_reservation t r
  | DoInsertReserved id r c b => (insert_reserved_at t id r c b).1
  | DoInsertWithGeneration id g c b => (insert_with_generation_at t id g c b).1
  | DoDrain => (drain_pending_to_in_flight t).1
  | DoSetPrepared p => (set_prepared t p).1
  | DoRestore p => (restore_prepared t p).1
  | DoBlock now_ms p e c a => (mark_flush_blocked_with_class t now_ms p e c a).1
  | DoRecheck now_ms e a => mark_blocked_recheck t now_ms e a
  | DoCommitted hi m => (mark_committed now t hi m).1
  | DoRollback => (rollback_unprepared_flush t).1
  | DoFailed p => (mark_flush_failed t p).1
  | DoRefresh m => set_metadata t m
  end.

(** The entries an operation admits and the group it commits. *)
Definition admitted_by (t : Buf) (op : BufOp) : list Entry :=
  match op with
  | DoInsert id now_ms b =>
      if is_ok (buf_insert t id now_ms b).2
      then [mkBufferEntry id (next_gen (tb_state t)) now_ms b (batch_byte_size b)] else []
  | DoInsertReserved id r c b => [mkBufferEntry id (rs_generation r) c b (batch_byte_size b)]
  | DoInsertWithGeneration id g c b =>
      if is_ok (insert_with_generation_at t id g c b).2
      then [mkBufferEntry id g c b (batch_byte_size b)] else []
  | _ => []
  end.
Definition committed_by (now : N) (t : Buf) (op : BufOp) : list (N * list Entry) :=
  match op with
  | DoCommitted hi m =>
      if is_ok (mark_committed now t hi m).2 && negb (bool_decide (in_flight (tb_state t) = []))
      then [(now, in_flight (tb_state t))] else []
  | _ => []
  end.

(** How the callers use the buffer.  A reservation is a value that is moved into the
    call that resolves it, with the batch it was taken for; replayed generations are new
    and above the committed one; a sidecar is restored before any reservation, when
    nothing older than its range is pending; the flusher drains only when no prepared
    flush waits without entries. *)
Definition op_allowed (t : Buf) (op : BufOp) : Prop :=
  let s := tb_state t in
  match op with
  | DoInsertReserved _ r _ b => reserved_generations s !! rs_generation r = Some (batch_byte_size b)
  | DoInsertWithGeneration _ g _ _ =>
      (committed_high_water s < g ≤ u64_max)%N ∧ ¬ (g ∈ generations (pending s)) ∧
      reserved_generations s !! g = None ∧ ∀ g', g' ∈ generations (in_flight s) → (g' < g)%N
  | DoDrain => prepared_flush t = None ∨ in_flight s ≠ []
  | DoRestore p => reserved_generations s = ∅ ∧
      ∀ g, g ∈ generations (pending s) → (gr_lo (pf_generations p) ≤ g)%N
  | _ => True
  end.

(** [buf_reach t admitted committed now]: a history from an empty buffer ends in [t]. *)
Inductive buf_reach : Buf → list Entry → list (N * list Entry) → N → Prop :=
| reach_new ident metadata committed_generation max_bytes soft grace now :
    (committed_generation < u64_max)%N → (max_bytes ≤ u64_max)%N →
    buf_reach (with_committed_grace (TableBuffer_new ident metadata committed_generation max_bytes soft) grace)
      [] [] now
| reach_op t admitted committed now now' op :
    buf_reach t admitted committed now → (now ≤ now')%N → op_allowed t op →
    buf_reach (exec now' t op) (admitted ++ admitted_by t op) (committed ++ committed_by now' t op) now'.

(** ** The invariant *)
Definition live_generations (s : @BufferState Batch) : list N :=
  generations (pending s) ++ generations (in_flight s) ++ keys (reserved_generations s).

Record buf_inv (t : Buf) : Prop := {
  bi_pending_bytes : pending_bytes (tb_state t) = sum_bytes (pending (tb_state t));
  bi_in_flight_bytes : in_flight_bytes (tb_state t) = sum_bytes (in_flight (tb_state t));
  bi_reserved_bytes : reserved_bytes (tb_state t) = map_sum (reserved_generations (tb_state t));
  bi_capacity : (pending_bytes (tb_state t) + in_flight_bytes (tb_state t) + reserved_bytes (tb_state t)
                 ≤ tb_max_bytes t ≤ u64_max)%N;
  bi_unique : NoDup (live_generations (tb_state t));
  bi_bounds : ∀ g, g ∈ live_generations (tb_state t) →
    (committed_high_water (tb_state t) < g < next_gen (tb_state t))%N;
  bi_next : (committed_high_water (tb_state t) < next_gen (tb_state t) ≤ u64_max)%N;
  bi_order : ∀ g g', g ∈ generations (in_flight (tb_state t)) →
    g' ∈ generations (pending (tb_state t)) ++ keys (reserved_generations (tb_state t)) → (g < g')%N;
  bi_prepared : ∀ p, prepared_flush t = Some p →
    range_matches (in_flight (tb_state t)) (pf_generations p) = true ∨
    in_flight (tb_state t) = [] ∧ (gr_hi (pf_generations p) ≤ committed_high_water (tb_state t))%N;
}.

Lemma sum_bytes_app (l k : list Entry) : sum_bytes (l ++ k) = (sum_bytes l + sum_bytes k)%N.
Proof. unfold sum_bytes. by rewrite fmap_app, sumN_app. Qed.
Lemma generations_app (l k : list Entry) : generations (l ++ k) = generations l ++ generations k.
Proof. apply fmap_app. Qed.
#[export] Instance sum_bytes_Permutation : Proper (Permutation ==> eq) (@sum_bytes Batch).
Proof. intros l k Hlk. unfold sum_bytes. by rewrite Hlk. Qed.
#[export] Instance generations_Permutation : Proper (Permutation ==> Permutation) (@generations Batch).
Proof. intros l k Hlk. unfold generations. by rewrite Hlk. Qed.

Lemma elem_of_generations (l : list Entry) g : g ∈ generations l ↔ ∃ e, e ∈ l ∧ be_generation e = g.
Proof. unfold generations. rewrite list_elem_of_fmap. naive_solver. Qed.

Lemma range_matches_true (l : list Entry) r :
  range_matches l r = true ↔ minN (generations l) = Some (gr_lo r) ∧ maxN (generations l) = Some (gr_hi r).
Proof. unfold range_matches. by rewrite andb_true_iff, !bool_decide_eq_true. Qed.

(** Entries move between pending and in flight, and the owner changes. *)
Lemma inv_rearrange t t' :
  buf_inv t → tb_max_bytes t' = tb_max_bytes t →
  next_gen (tb_state t') = next_gen (tb_state t) →
  committed_high_water (tb_state t') = committed_high_water (tb_state t) →
  reserved_bytes (tb_state t') = reserved_bytes (tb_state t) →
  reserved_generations (tb_state t') = reserved_generations (tb_state t) →
  pending (tb_state t') ++ in_flight (tb_state t') ≡ₚ pending (tb_state t) ++ in_flight (tb_state t) →
  pending_bytes (tb_state t') = sum_bytes (pending (tb_state t')) →
  in_flight_bytes (tb_state t') = sum_bytes (in_flight (tb_state t')) →
  (∀ g g', g ∈ generations (in_flight (tb_state t')) →
    g' ∈ generations (pending (tb_state t')) ++ keys (reserved_generations (tb_state t)) → (g < g')%N) →
  (∀ p, prepared_flush t' = Some p →
    range_matches (in_flight (tb_state t')) (pf_generations p) = true ∨
    in_flight (tb_state t') = [] ∧ (gr_hi (pf_generations p) ≤ committed_high_water (tb_state t))%N) →
  buf_inv t'.
Proof.
  intros [Hpb Hib Hrb Hcap Huniq Hbnd Hnext _ _] Hmax Hng Hhw Hr Hrg Hperm Hpb' Hib' Hord Hprep.
  assert (live_generations (tb_state t') ≡ₚ live_generations (tb_state t)) as Hlive.
  { unfold live_generations. rewrite Hrg, !(assoc_L (++)), <-!generations_app. by rewrite Hperm. }
  split; rewrite ?Hmax, ?Hng, ?Hhw, ?Hr, ?Hrg; try done.
  - rewrite Hpb', Hib', <-sum_bytes_app, Hperm, sum_bytes_app. lia.
  - by rewrite Hlive.
  - intros g. rewrite Hlive. apply Hbnd.
Qed.

(** Nothing but the owner and the metadata changes. *)
Lemma inv_same t t' :
  buf_inv t → tb_max_bytes t' = tb_max_bytes t →
  (∃ f, tb_state t' = set_flush_state (tb_state t) f) →
  (∀ p, prepared_flush t' = Some p → prepared_flush t = Some p ∨
     range_matches (in_flight (tb_state t)) (pf_generations p) = true ∨
     in_flight (tb_state t) = [] ∧ (gr_hi (pf_generations p) ≤ committed_high_water (tb_state t))%N) →
  buf_inv t'.
Proof.
  intros Hinv Hmax [f Hs] Hp. eapply inv_rearrange; [exact Hinv|done|..]; rewrite ?Hs; try done.
  - apply Hinv.
  - apply Hinv.
  - apply Hinv.
  - intros p Hpf. destruct (Hp p Hpf) as [Hold|?]; [|done]. by apply Hinv.
Qed.

Lemma inv_set_prepared t p : buf_inv t → buf_inv (set_prepared t p).1.
Proof.
  intros Hinv. unfold set_prepared.
  destruct (negb (range_matches _ _)) eqn:Hrange; [done|]. apply negb_false_iff in Hrange.
  destruct (negb (pf_table_uuid p =? _)%N); [done|]. simpl.
  destruct (flush_state (tb_state t)) eqn:Hf; [|by case_decide|by case_decide].
  eapply inv_same; [done|done|by eexists|]. intros q [= <-]. auto.
Qed.

Lemma inv_block t now p e c a : buf_inv t → buf_inv (mark_flush_blocked_with_class t now p e c a).1.
Proof.
  intros Hinv. unfold mark_flush_blocked_with_class.
  destruct (flush_state (tb_state t)) as [|q|b] eqn:Hf; [done|..]; case_decide as Hq; [|done| |done]; simpl;
    (eapply inv_same; [done|done|by eexists|]); intros x [= <-]; left; unfold prepared_flush; rewrite Hf; congruence.
Qed.

Lemma inv_recheck t now e a : buf_inv t → buf_inv (mark_blocked_recheck t now e a).
Proof.
  intros Hinv. unfold mark_blocked_recheck.
  destruct (flush_state (tb_state t)) as [|q|b] eqn:Hf; [done|done|].
  eapply inv_same; [done|done|by eexists|]. intros x [= <-]. left. unfold prepared_flush. by rewrite Hf.
Qed.

Lemma inv_refresh t m : buf_inv t → buf_inv (set_metadata t m).
Proof.
  intros Hinv. eapply inv_same; [done|done| |by left].
  exists (flush_state (tb_state t)). by destruct t as [? [] ? ? ? ?].
Qed.

Lemma merge_inv t :
  buf_inv t → buf_inv (set_state t (set_flush_state (merge_in_flight_back_to_pending (tb_state t)) FIdle)).
Proof.
  intros Hinv. eapply inv_rearrange; [done|done|done|done|done|done|..]; simpl; try done.
  - by rewrite app_nil_r, Permutation_app_comm.
  - rewrite sum_bytes_app, (bi_pending_bytes t), (bi_in_flight_bytes t) by done. lia.
  - by intros g g' ?%elem_of_nil.
Qed.

Lemma inv_rollback t : buf_inv t → buf_inv (rollback_unprepared_flush t).1.
Proof.
  intros Hinv. unfold rollback_unprepared_flush. destruct (flush_state (tb_state t)) eqn:Hf; [|done|done].
  eapply inv_same; [exact (merge_inv t Hinv)|done| |].
  - exists FIdle. unfold merge_in_flight_back_to_pending, set_flush_state, set_in_flight. simpl. by rewrite Hf.
  - intros q. unfold prepared_flush. simpl. by rewrite Hf.
Qed.

Lemma inv_failed t p : buf_inv t → buf_inv (mark_flush_failed t p).1.
Proof.
  intros Hinv. unfold mark_flush_failed. destruct (owns_state _ _); [|done].
  by apply merge_inv.
Qed.

Lemma filter_bool_split (f : Entry → bool) l :
  filter (λ e, f e = true) l ++ filter (λ e, f e = false) l ≡ₚ l.
Proof. apply filter_split. intros x. by destruct (f x). Qed.

Lemma elem_of_gen_filter (f : Entry → bool) b l g :
  g ∈ generations (filter (λ e, f e = b) l) → ∃ e, f e = b ∧ e ∈ l ∧ be_generation e = g.
Proof. intros (e & [? ?]%list_elem_of_filter & ?)%elem_of_generations. eauto. Qed.

Lemma inv_drain t : buf_inv t → op_allowed t DoDrain → buf_inv (drain_pending_to_in_flight t).1.
Proof.
  intros Hinv Hall. unfold drain_pending_to_in_flight.
  destruct (in_flight (tb_state t)) as [|e l] eqn:Hif; [|done].
  destruct Hall as [Hidle|]; [|done]. destruct (pending (tb_state t)) as [|e l] eqn:Hpd; [done|].
  rewrite <-Hpd. clear e l Hpd. set (below := below_reserved (minN _)).
  assert (∀ e r, below e = true → r ∈ keys (reserved_generations (tb_state t)) → (be_generation e < r)%N) as Hlt.
  { intros e r. unfold below, below_reserved. destruct (minN _) as [m|] eqn:Hm.
    - apply minN_Some in Hm as [_ Hm]. intros ?%N.ltb_lt Hr. specialize (Hm r Hr). lia.
    - apply minN_None in Hm. unfold keys. rewrite Hm. by intros _ ?%elem_of_nil. }
  assert (∀ e e', below e = true → below e' = false → (be_generation e < be_generation e')%N) as Hlt'.
  { intros e e'. unfold below, below_reserved. destruct (minN _) as [m|]; [|done]. intros ?%N.ltb_lt ?%N.ltb_ge. lia. }
  pose proof (filter_bool_split below (pending (tb_state t))) as Hsplit.
  destruct (filter (λ e, below e = true) (pending (tb_state t))) as [|e l] eqn:Hdr; simpl.
  - eapply inv_rearrange; [done|done|done|done|done|done|..]; simpl; rewrite ?Hif; try done.
    + by rewrite app_nil_r, (app_nil_r (pending _)).
    + rewrite (bi_in_flight_bytes t) by done. by rewrite Hif.
    + by intros g g' ?%elem_of_nil.
    + intros p Hp. unfold prepared_flush in *. simpl in Hp. by rewrite Hp in Hidle.
  - rewrite <-Hdr in *. eapply inv_rearrange; [done|done|done|done|done|done|..]; simpl; try done.
    + by rewrite Hif, app_nil_r, Permutation_app_comm.
    + intros g g' (x & Hx & _ & <-)%elem_of_gen_filter [Hg'|Hg']%elem_of_app; [|by apply Hlt].
      apply elem_of_gen_filter in Hg' as (y & Hy & _ & <-). by apply Hlt'.
    + intros p Hp. unfold prepared_flush in *. simpl in Hp. by rewrite Hp in Hidle.
Qed.

Lemma inv_restore t p : buf_inv t → op_allowed t (DoRestore p) → buf_inv (restore_prepared t p).1.
Proof.
  intros Hinv [Hres Hlo]. unfold restore_prepared.
  destruct (in_flight (tb_state t)) as [|e l] eqn:Hif; [|done].
  destruct (N.leb_spec (gr_hi (pf_generations p)) (committed_high_water (tb_state t))) as [Hle|_]; simpl.
  { eapply inv_same; [done|done|by eexists|]. intros q [= <-]. auto. }
  set (inr := λ e : Entry, gr_contains (pf_generations p) (be_generation e)).
  change (λ e : Entry, gr_contains (pf_generations p) (be_generation e) = true) with (λ e, inr e = true).
  change (λ e : Entry, gr_contains (pf_generations p) (be_generation e) = false) with (λ e, inr e = false).
  pose proof (filter_bool_split inr (pending (tb_state t))) as Hsplit.
  set (restored := filter (λ e, inr e = true) (pending (tb_state t))) in *.
  set (remaining := filter (λ e, inr e = false) (pending (tb_state t))) in *.
  destruct (negb (range_matches restored (pf_generations p))) eqn:Hm; simpl.
  - eapply inv_rearrange; [done|done|done|done|done|done|..]; simpl; rewrite ?Hif; try done.
    + by rewrite !app_nil_r, stable_sort_perm.
    + rewrite (bi_in_flight_bytes t) by done. by rewrite Hif.
    + by intros g g' ?%elem_of_nil.
    + intros q Hq. destruct (bi_prepared t Hinv q Hq) as [Hr|[_ ?]]; [left|by right]. by rewrite <-Hif.
  - apply negb_false_iff in Hm.
    eapply inv_rearrange; [done|done|done|done|done|done|..]; simpl; rewrite ?Hif; try done.
    + by rewrite app_nil_r, Permutation_app_comm.
    + intros g g' (x & Hx & _ & <-)%elem_of_gen_filter [Hg'|Hg']%elem_of_app.
      * apply elem_of_gen_filter in Hg' as (y & Hy & Hin & <-).
        assert (be_generation y ∈ generations (pending (tb_state t))) as Hge%Hlo
          by (apply elem_of_generations; eauto).
        unfold inr, gr_contains in *. apply andb_true_iff in Hx as [? ?%N.leb_le].
        apply andb_false_iff in Hy as [?%N.leb_gt|?%N.leb_gt]; lia.
      * rewrite Hres in Hg'. apply elem_of_keys in Hg' as [? Hg']. by rewrite lookup_empty in Hg'.
    + intros q [= <-]. by left.
Qed.

Lemma live_elem (s : @BufferState Batch) g :
  g ∈ live_generations s ↔
  g ∈ generations (pending s) ∨ g ∈ generations (in_flight s) ∨ is_Some (reserved_generations s !! g).
Proof. unfold live_generations. by rewrite !elem_of_app, elem_of_keys. Qed.

Lemma inv_release t r : buf_inv t → buf_inv (release_reservation t r).
Proof.
  intros Hinv. unfold release_reservation, take_reservation.
  destruct (reserved_generations (tb_state t) !! rs_generation r) as [b|] eqn:Hr.
  2: { by destruct t. }
  destruct Hinv as [Hpb Hib Hrb Hcap Huniq Hbnd Hnext Hord Hprep].
  pose proof (map_sum_of_delete (λ n : N, n) _ _ _ Hr) as Hsum. pose proof (keys_delete _ _ _ Hr) as Hkeys.
  assert (∀ g, g ∈ keys (delete (rs_generation r) (reserved_generations (tb_state t))) →
    g ∈ keys (reserved_generations (tb_state t))) as Hsub by (intros g Hg; rewrite Hkeys; by right).
  split; simpl; try done.
  - unfold u64_saturating_sub. lia.
  - unfold u64_saturating_sub. lia.
  - unfold live_generations in *. simpl. rewrite Hkeys in Huniq.
    rewrite (assoc_L (++)) in Huniq |- *. by rewrite <-Permutation_middle in Huniq; apply NoDup_cons in Huniq as [_ ?].
  - intros g Hg. apply Hbnd. unfold live_generations in *. rewrite !elem_of_app in *. simpl in Hg. naive_solver.
  - intros g g' Hg Hg'. apply Hord; [done|]. rewrite !elem_of_app in *. naive_solver.
Qed.

Lemma inv_admit t e :
  buf_inv t → e.(be_generation) ∉ live_generations (tb_state t) →
  (committed_high_water (tb_state t) < be_generation e < u64_max)%N →
  (∀ g, g ∈ generations (in_flight (tb_state t)) → (g < be_generation e)%N) →
  (pending_bytes (tb_state t) + in_flight_bytes (tb_state t) + reserved_bytes (tb_state t)
   + be_byte_size e ≤ tb_max_bytes t)%N →
  buf_inv (set_state t (admit_entry t (tb_state t) e).1).
Proof.
  intros [Hpb Hib Hrb Hcap Huniq Hbnd Hnext Hord Hprep] Hfresh Hgen Hinf Hfit.
  assert (live_generations (admit_entry t (tb_state t) e).1 ≡ₚ be_generation e :: live_generations (tb_state t)) as Hlive.
  { unfold live_generations. simpl. rewrite generations_app, <-app_assoc.
    change (generations [e]) with [be_generation e]. simpl. symmetry. apply Permutation_middle. }
  split; cbn [set_state tb_state tb_max_bytes]; try done; simpl.
  - rewrite sum_bytes_app. unfold sum_bytes at 2. simpl. lia.
  - lia.
  - rewrite Hlive. by apply NoDup_cons.
  - intros g. rewrite Hlive. intros [->|Hg%Hbnd]%elem_of_cons; lia.
  - lia.
  - intros g g' Hg. rewrite generations_app, !elem_of_app. intros [[Hg'|Hg']|Hg'].
    + apply Hord; [done|]. apply elem_of_app. by left.
    + apply list_elem_of_singleton in Hg' as ->. by apply Hinf.
    + apply Hord; [done|]. apply elem_of_app. by right.
Qed.

Lemma ensure_capacity_Ok (t : Buf) s b f :
  ensure_capacity t s b f = Ok tt →
  (pending_bytes s + in_flight_bytes s + reserved_bytes s + b ≤ tb_max_bytes t)%N.
Proof.
  unfold ensure_capacity. intros (total & Hsum%ok_or_Ok & Hle)%bind_Ok.
  apply bind_Some in Hsum as (a & [-> _]%u64_checked_add_Some & Hsum).
  apply bind_Some in Hsum as (c & [-> _]%u64_checked_add_Some & [-> _]%u64_checked_add_Some).
  destruct (N.leb_spec (pending_bytes s + in_flight_bytes s + reserved_bytes s + b) (tb_max_bytes t)); [done|].
  by destruct f.
Qed.

Lemma ensure_generation_Ok (t : Buf) g : ensure_generation_available t g = Ok tt ↔ g ≠ 0%N ∧ g ≠ u64_max.
Proof.
  unfold ensure_generation_available. destruct (N.eqb_spec g 0), (N.eqb_spec g u64_max); simpl; naive_solver.
Qed.

(** The two fallible inserts share their checks. *)
Lemma insert_checks (t : Buf) g b f :
  (_ ← ensure_capacity t (tb_state t) b f; ensure_generation_available t g) = Ok tt →
  (pending_bytes (tb_state t) + in_flight_bytes (tb_state t) + reserved_bytes (tb_state t) + b
   ≤ tb_max_bytes t)%N ∧ g ≠ 0%N ∧ g ≠ u64_max.
Proof.
  intros ([] & ?%ensure_capacity_Ok & ?%ensure_generation_Ok)%bind_Ok. done.
Qed.

Lemma next_gen_fresh t :
  buf_inv t → ¬ (next_gen (tb_state t) ∈ live_generations (tb_state t)) ∧
  (∀ g, g ∈ generations (in_flight (tb_state t)) → (g < next_gen (tb_state t))%N).
Proof.
  intros Hinv. split.
  - intros Hg. apply (bi_bounds t Hinv) in Hg. lia.
  - intros g Hg. apply (bi_bounds t Hinv). apply live_elem. auto.
Qed.

Lemma inv_insert t id now b : buf_inv t → buf_inv (buf_insert t id now b).1.
Proof.
  intros Hinv. unfold buf_insert. destruct (_ ← ensure_capacity _ _ _ _; _) as [[]|] eqn:Hc; [|done].
  apply insert_checks in Hc as (Hfit & _ & Hmax). destruct (next_gen_fresh t Hinv).
  pose proof (bi_next t Hinv). apply inv_admit; simpl; try done. lia.
Qed.

Lemma inv_insert_with_generation t id g c b :
  buf_inv t → op_allowed t (DoInsertWithGeneration id g c b) →
  buf_inv (insert_with_generation_at t id g c b).1.
Proof.
  intros Hinv (Hhw & Hpend & Hres & Hinf). unfold insert_with_generation_at.
  destruct (_ ← ensure_capacity _ _ _ _; _) as [[]|] eqn:Hc; [|done].
  apply insert_checks in Hc as (Hfit & _ & Hmax). apply inv_admit; simpl; try done; [|lia].
  rewrite live_elem. intros [?|[?%Hinf|[? ?]]]; [done|lia|congruence].
Qed.

Lemma inv_reserve t b : buf_inv t → buf_inv (reserve t b).1.
Proof.
  intros Hinv. unfold reserve. destruct (flush_state (tb_state t)) eqn:Hf; [..|done];
  (destruct (_ ← ensure_capacity _ _ _ _; _) as [[]|] eqn:Hc; [|done]);
  apply insert_checks in Hc as (Hfit & _ & Hmax); destruct (next_gen_fresh t Hinv) as [Hfresh Hinf];
  destruct Hinv as [Hpb Hib Hrb Hcap Huniq Hbnd Hnext Hord Hprep];
  (assert (reserved_generations (tb_state t) !! next_gen (tb_state t) = None) as Hnone
    by (apply eq_None_not_Some; intros ?; apply Hfresh, live_elem; auto));
  pose proof (keys_insert _ _ (batch_byte_size b) Hnone) as Hkeys;
  pose proof (map_sum_of_insert (λ n : N, n) _ _ (batch_byte_size b) Hnone) as Hsum;
  (split; simpl; try done; [lia|lia| | |lia|]).
  all: try (unfold live_generations; simpl; rewrite Hkeys, !(assoc_L (++)), <-Permutation_middle, <-(assoc_L (++));
    by apply NoDup_cons).
  all: try (intros g; unfold live_generations; simpl; rewrite Hkeys, !(assoc_L (++)), <-Permutation_middle,
    <-(assoc_L (++)); intros [->|Hg%Hbnd]%elem_of_cons; lia).
  all: intros g g' Hg; rewrite elem_of_app, Hkeys, elem_of_cons; intros [Hg'|[->|Hg']];
    [apply Hord; [done|]; apply elem_of_app; by left|by apply Hinf|apply Hord; [done|]; apply elem_of_app; by right].
Qed.

Lemma inv_insert_reserved t id r c b :
  buf_inv t → op_allowed t (DoInsertReserved id r c b) → buf_inv (insert_reserved_at t id r c b).1.
Proof.
  intros Hinv Hr. simpl in Hr. pose proof (inv_release t r Hinv) as Hinv'.
  pose proof (bi_capacity t Hinv) as Hcap. pose proof (bi_reserved_bytes t Hinv) as Hrb.
  pose proof (map_sum_of_delete (λ n : N, n) _ _ _ Hr) as Hsum.
  assert (rs_generation r ∈ live_generations (tb_state t)) as Hlive by (apply live_elem; eauto).
  pose proof (bi_bounds t Hinv _ Hlive) as Hb. pose proof (bi_next t Hinv) as Hn.
  unfold release_reservation, take_reservation in Hinv'. rewrite Hr in Hinv'.
  unfold insert_reserved_at, take_reservation. rewrite Hr.
  refine (inv_admit _ (mkBufferEntry id (rs_generation r) c b (batch_byte_size b)) Hinv' _ _ _ _); simpl.
  - rewrite live_elem. simpl. rewrite lookup_delete_eq.
    assert (∀ g, g ∈ generations (pending (tb_state t)) ++ generations (in_flight (tb_state t)) →
      g ≠ rs_generation r) as Hne.
    { intros g Hg ->. pose proof (bi_unique t Hinv) as Huniq. unfold live_generations in Huniq.
      rewrite (assoc_L (++)) in Huniq. apply NoDup_app in Huniq as (_ & Hdisj & _).
      apply (Hdisj _ Hg). apply elem_of_keys. eauto. }
    intros [Hg|[Hg|[? ?]]]; [| |done]; apply (Hne (rs_generation r)); try done; apply elem_of_app; auto.
  - lia.
  - intros g Hg. apply (bi_order t Hinv); [done|]. apply elem_of_app. right. apply elem_of_keys. eauto.
  - unfold u64_saturating_sub. lia.
Qed.

(** What [mark_committed] accepts, and what it leaves. *)
Lemma mark_committed_cases now (t : Buf) hi m t' r :
  mark_committed now t hi m = (t', r) →
  (t' = t ∧ r ≠ Ok tt) ∨
  (r = Ok tt ∧
   (in_flight (tb_state t) = [] ∧ (hi ≤ committed_high_water (tb_state t))%N ∨
    maxN (generations (in_flight (tb_state t))) = Some hi) ∧
   t' = set_metadata (set_state t (mkBufferState (next_gen (tb_state t))
          (N.max (committed_high_water (tb_state t)) hi) (pending (tb_state t)) []
          (filter (λ c, (elapsed now c.1 ≤ tb_committed_grace t)%N)
             (if negb (tb_committed_grace t =? 0)%N && negb (bool_decide (in_flight (tb_state t) = []))
              then recently_committed (tb_state t) ++ [(now, in_flight (tb_state t))]
              else recently_committed (tb_state t)))
          (pending_bytes (tb_state t)) 0 (reserved_bytes (tb_state t))
          (reserved_generations (tb_state t)) FIdle)) m).
Proof.
  unfold mark_committed. destruct (maxN _) as [x|] eqn:Hmax.
  - destruct (N.eqb_spec x hi) as [->|]; intros [= <- <-]; [right|left]; auto.
  - apply maxN_None in Hmax. destruct (N.ltb_spec (committed_high_water (tb_state t)) hi);
      intros [= <- <-]; [left; auto|right].
    assert (in_flight (tb_state t) = []) by (by destruct (in_flight (tb_state t))). auto 6.
Qed.

Lemma inv_committed now t hi m : buf_inv t → buf_inv (mark_committed now t hi m).1.
Proof.
  intros Hinv. destruct (mark_committed now t hi m) as [t' r] eqn:Hc.
  destruct (mark_committed_cases _ _ _ _ _ _ Hc) as [[-> _]|(_ & Hhi & ->)]; [done|].
  destruct Hinv as [Hpb Hib Hrb Hcap Huniq Hbnd Hnext Hord Hprep].
  assert (∀ g, g ∈ generations (pending (tb_state t)) ++ keys (reserved_generations (tb_state t)) →
    (N.max (committed_high_water (tb_state t)) hi < g < next_gen (tb_state t))%N) as Hrest.
  { intros g Hg. assert (committed_high_water (tb_state t) < g < next_gen (tb_state t))%N as Hb.
    { apply Hbnd. unfold live_generations. apply elem_of_app in Hg. rewrite !elem_of_app. naive_solver. }
    destruct Hhi as [[_ ?]|[Hin _]%maxN_Some]; [lia|]. specialize (Hord hi g Hin Hg). lia. }
  split; simpl; try done.
  - lia.
  - unfold live_generations in *. simpl.
    apply NoDup_app in Huniq as (Hp & Hd & Hik). apply NoDup_app in Hik as (_ & _ & Hk).
    apply NoDup_app. split_and!; [done| |done]. intros g Hg Hg'. apply (Hd g Hg), elem_of_app. by right.
  - split; [|apply Hnext]. destruct Hhi as [[_ ?]|[Hin _]%maxN_Some]; [lia|].
    assert (hi ∈ live_generations (tb_state t)) as Hb%Hbnd by (apply live_elem; auto). lia.
  - by intros g g' ?%elem_of_nil.
Qed.

Lemma exec_inv now t op : buf_inv t → op_allowed t op → buf_inv (exec now t op).
Proof.
  intros Hinv Hall. destruct op; simpl.
  - by apply inv_insert.
  - by apply inv_reserve.
  - by apply inv_release.
  - by apply inv_insert_reserved.
  - by apply inv_insert_with_generation.
  - by apply inv_drain.
  - by apply inv_set_prepared.
  - by apply inv_restore.
  - by apply inv_block.
  - by apply inv_recheck.
  - by apply inv_committed.
  - by apply inv_rollback.
  - by apply inv_failed.
  - by apply inv_refresh.
Qed.

(** Every other operation keeps what is committed and loses no entry. *)
Definition unchanged_by (t t' : Buf) (new : list Entry) : Prop :=
  pending (tb_state t') ++ in_flight (tb_state t') ≡ₚ (pending (tb_state t) ++ in_flight (tb_state t)) ++ new ∧
  recently_committed (tb_state t') = recently_committed (tb_state t) ∧
  committed_high_water (tb_state t') = committed_high_water (tb_state t) ∧
  tb_committed_grace t' = tb_committed_grace t.

Lemma unchanged_same t t' :
  pending (tb_state t') = pending (tb_state t) → in_flight (tb_state t') = in_flight (tb_state t) →
  recently_committed (tb_state t') = recently_committed (tb_state t) →
  committed_high_water (tb_state t') = committed_high_water (tb_state t) →
  tb_committed_grace t' = tb_committed_grace t → unchanged_by t t' [].
Proof. intros Hp Hi Hr Hh Hg. unfold unchanged_by. by rewrite app_nil_r, Hp, Hi. Qed.

Lemma unchanged_admit t s e :
  recently_committed s = recently_committed (tb_state t) →
  committed_high_water s = committed_high_water (tb_state t) →
  pending s = pending (tb_state t) → in_flight s = in_flight (tb_state t) →
  unchanged_by t (set_state t (admit_entry t s e).1) [e].
Proof.
  intros Hr Hh Hp Hi. unfold unchanged_by. simpl. rewrite Hr, Hh, Hp, Hi. split_and!; try done.
  by rewrite <-!app_assoc, (Permutation_app_comm [e]).
Qed.

Lemma exec_unchanged now t op :
  (∀ hi m, op ≠ DoCommitted hi m) → unchanged_by t (exec now t op) (admitted_by t op).
Proof.
  intros Hop. destruct op; simpl; try (by apply unchanged_same).
  - unfold buf_insert. destruct (_ ← ensure_capacity _ _ _ _; _) as [[]|]; [|by apply unchanged_same].
    by apply unchanged_admit.
  - unfold reserve. repeat case_match; simplify_eq; by apply unchanged_same.
  - unfold release_reservation, take_reservation. case_match; by apply unchanged_same.
  - unfold insert_reserved_at, take_reservation. case_match; by apply unchanged_admit.
  - unfold insert_with_generation_at. destruct (_ ← ensure_capacity _ _ _ _; _) as [[]|]; [|by apply unchanged_same].
    by apply unchanged_admit.
  - unfold drain_pending_to_in_flight. destruct (in_flight (tb_state t)) eqn:Hif; [|by apply unchanged_same].
    destruct (pending (tb_state t)) eqn:Hpd; [by apply unchanged_same|]. rewrite <-Hpd. clear Hpd.
    pose proof (filter_bool_split (below_reserved (minN (map_to_list (reserved_generations (tb_state t))).*1))
      (pending (tb_state t))) as Hsplit.
    destruct (filter (λ e, _ = true) _) eqn:Hdr; unfold unchanged_by; simpl;
      rewrite Hif, !app_nil_r; split_and!; try done. by rewrite Permutation_app_comm.
  - unfold set_prepared. repeat case_match; by apply unchanged_same.
  - unfold restore_prepared. destruct (in_flight (tb_state t)) eqn:Hif; [|by apply unchanged_same].
    case_match; [by apply unchanged_same|].
    pose proof (filter_bool_split (λ e, gr_contains (pf_generations p) (be_generation e)) (pending (tb_state t))).
    case_match; unfold unchanged_by; simpl; rewrite Hif, !app_nil_r; split_and!; try done.
    + by rewrite stable_sort_perm.
    + by rewrite Permutation_app_comm.
  - unfold mark_flush_blocked_with_class. repeat case_match; by apply unchanged_same.
  - unfold mark_blocked_recheck. case_match; by apply unchanged_same.
  - by destruct (Hop gen_hi m).
  - unfold rollback_unprepared_flush. case_match; [|by apply unchanged_same|by apply unchanged_same].
    unfold unchanged_by. simpl. rewrite !app_nil_r. split_and!; try done. apply Permutation_app_comm.
  - unfold mark_flush_failed. case_match; [|by apply unchanged_same].
    unfold unchanged_by. simpl. rewrite !app_nil_r. split_and!; try done. apply Permutation_app_comm.
Qed.

(** ** The invariant of a history *)
Definition in_grace (t : Buf) (now : N) (c : N * list Entry) : Prop :=
  (elapsed now c.1 ≤ tb_committed_grace t)%N.
#[export] Instance in_grace_dec t now c : Decision (in_grace t now c).
Proof. unfold in_grace. apply _. Defined.

Record hist_inv (t : Buf) (admitted : list Entry) (committed : list (N * list Entry)) (now : N) : Prop := {
  hi_buf : buf_inv t;
  hi_conserved : (pending (tb_state t) ++ in_flight (tb_state t)) ++ concat committed.*2 ≡ₚ admitted;
  hi_below : ∀ g, g ∈ generations (concat committed.*2) → (g ≤ committed_high_water (tb_state t))%N;
  hi_once : NoDup (generations (concat committed.*2));
  hi_zero : tb_committed_grace t = 0%N → recently_committed (tb_state t) = [];
  hi_recent : tb_committed_grace t ≠ 0%N → ∀ later, (now ≤ later)%N →
    filter (in_grace t later) (recently_committed (tb_state t)) = filter (in_grace t later) committed;
}.

Lemma hist_other t t' adm com now now' new :
  hist_inv t adm com now → (now ≤ now')%N → buf_inv t' → unchanged_by t t' new →
  hist_inv t' (adm ++ new) (com ++ []) now'.
Proof.
  intros [Hb Hcon Hbel Honce Hz Hrec] Hnow Hb' (Hperm & Hr & Hh & Hg).
  rewrite app_nil_r. split; rewrite ?Hr, ?Hh, ?Hg; try done.
  - rewrite Hperm, <-Hcon, <-!app_assoc. do 2 f_equiv. apply Permutation_app_comm.
  - intros Hgr later Hlater.
    assert (∀ l, filter (in_grace t' later) l = filter (in_grace t later) l) as Hgg
      by (intros l; apply list_filter_iff; intros c; unfold in_grace; by rewrite Hg).
    rewrite !Hgg. apply Hrec; [done|lia].
Qed.

Lemma in_grace_earlier t now later c : (now ≤ later)%N → in_grace t later c → in_grace t now c.
Proof. unfold in_grace, elapsed. lia. Qed.

Lemma filter_in_grace_twice t now later (l : list (N * list Entry)) :
  (now ≤ later)%N → filter (in_grace t later) (filter (in_grace t now) l) = filter (in_grace t later) l.
Proof.
  intros Hle. rewrite list_filter_filter. apply list_filter_iff. intros c.
  split; [tauto|]. intros Hc. split; [done|]. by eapply in_grace_earlier.
Qed.

Lemma hist_committed t adm com now now' hi m :
  hist_inv t adm com now → (now ≤ now')%N →
  hist_inv (exec now' t (DoCommitted hi m)) (adm ++ []) (com ++ committed_by now' t (DoCommitted hi m)) now'.
Proof.
  intros [Hb Hcon Hbel Honce Hz Hrec] Hnow. rewrite app_nil_r. pose proof (inv_committed now' t hi m Hb) as Hb'.
  simpl. destruct (mark_committed now' t hi m) as [t' r] eqn:Hc. simpl in *.
  destruct (mark_committed_cases _ _ _ _ _ _ Hc) as [[-> Hr]|(-> & Hhi & ->)].
  { assert (is_ok r = false) as -> by (by destruct r as [[]|]). simpl. rewrite app_nil_r.
    split; try done. intros Hg later ?. apply Hrec; [done|lia]. }
  cbn [is_ok andb]. set (group := if negb (bool_decide (in_flight (tb_state t) = [])) then _ else _).
  assert (concat (com ++ group).*2 = concat com.*2 ++ in_flight (tb_state t)) as Hcat.
  { rewrite fmap_app, concat_app. f_equal. unfold group. case_bool_decide as Hi; simpl; [done|]. apply app_nil_r. }
  split; [done|..]; cbn [set_metadata set_state tb_state pending in_flight recently_committed
      committed_high_water tb_committed_grace]; rewrite ?Hcat.
  - rewrite app_nil_r, <-Hcon, <-app_assoc. f_equiv. apply Permutation_app_comm.
  - intros g. rewrite generations_app, elem_of_app. intros [Hg%Hbel|Hg]; [lia|].
    destruct Hhi as [[Hn _]|[_ Hmax]%maxN_Some]; [rewrite Hn in Hg; by apply elem_of_nil in Hg|].
    specialize (Hmax g Hg). lia.
  - rewrite generations_app. apply NoDup_app. split_and!; [done| |].
    + intros g Hg%Hbel Hg'. assert (g ∈ live_generations (tb_state t)) as Hl%(bi_bounds t Hb)
        by (apply live_elem; auto). lia.
    + pose proof (bi_unique t Hb) as Hu. unfold live_generations in Hu.
      apply NoDup_app in Hu as (_ & _ & Hu). by apply NoDup_app in Hu as (? & _).
  - intros Hg0. rewrite Hg0. simpl. by rewrite (Hz Hg0).
  - intros Hg0 later Hlater. rewrite (proj2 (N.eqb_neq _ _) Hg0). cbn [negb andb].
    change (λ c : N * list Entry, (elapsed now' c.1 ≤ tb_committed_grace t)%N) with (in_grace t now').
    change (filter (in_grace t later) (filter (in_grace t now')
      (if negb (bool_decide (in_flight (tb_state t) = [])) then
         recently_committed (tb_state t) ++ [(now', in_flight (tb_state t))]
       else recently_committed (tb_state t))) = filter (in_grace t later) (com ++ group)).
    rewrite filter_in_grace_twice by done. rewrite filter_app, <-Hrec by (done || lia).
    unfold group. repeat case_bool_decide; simpl; rewrite ?filter_app, ?app_nil_r; done.
Qed.

Lemma buf_reach_inv t adm com now : buf_reach t adm com now → hist_inv t adm com now.
Proof.
  induction 1 as [ident metadata cg mb soft grace now Hcg Hmb|t adm com now now' op _ IH Hnow Hall].
  - split; simpl; try done; [|by intros ? ?%elem_of_nil|constructor].
    split; simpl; try done.
    + lia.
    + unfold live_generations. simpl. unfold keys. rewrite map_to_list_empty. constructor.
    + intros g Hg. unfold live_generations, keys in Hg. simpl in Hg. rewrite map_to_list_empty in Hg.
      by apply elem_of_nil in Hg.
    + unfold u64_saturating_add. lia.
    + by intros ? ? ?%elem_of_nil.
  - pose proof (exec_inv now' t op (hi_buf _ _ _ _ IH) Hall) as Hb.
    destruct (match op with DoCommitted hi m => true | _ => false end) eqn:Hop.
    + destruct op; try discriminate Hop. by apply (hist_committed t adm com now).
    + replace (committed_by now' t op) with (@nil (N * list Entry)) by (by destruct op).
      eapply hist_other; [done|done|done|]. apply exec_unchanged. intros hi m ->. discriminate Hop.
Qed.

Lemma concat_committed_fresh (com : list (N * list Entry)) (P : N * list Entry → Prop) (Q : Entry → Prop)
    `{!∀ c, Decision (P c), !∀ e, Decision (Q e)} :
  (∀ c e, c ∈ com → e ∈ c.2 → Q e → P c) →
  filter Q (concat (filter P com).*2) = filter Q (concat com.*2).
Proof.
  induction com as [|c com IH]; intros Hall; [done|]. rewrite filter_cons.
  assert (filter Q (concat (filter P com).*2) = filter Q (concat com.*2)) as IH'
    by (apply IH; intros c' e ?; apply Hall; by right).
  destruct (decide (P c)) as [Hp|Hp]; rewrite ?fmap_cons; cbn [concat]; rewrite ?filter_app, IH'; [done|].
  replace (filter Q c.2) with (@nil Entry); [done|]. symmetry. apply elem_of_nil_inv.
  intros e [HQ He]%list_elem_of_filter. apply Hp. by eapply Hall; [left| |].
Qed.

(** Operations that leave the reservation of generation [g] alone. *)
Definition avoids (g : Generation) (op : BufOp) : Prop :=
  match op with
  | DoRelease r | DoInsertReserved _ r _ _ => rs_generation r ≠ g
  | _ => True
  end.

Inductive steps_avoiding (g : Generation) : Buf → Buf → Prop :=
| avoiding_refl t : steps_avoiding g t t
| avoiding_step t t' now op :
    steps_avoiding g t t' → op_allowed t' op → avoids g op → steps_avoiding g t (exec now t' op).

Lemma take_reservation_other (s : @BufferState Batch) g g' :
  g' ≠ g → reserved_generations (take_reservation s g') !! g = reserved_generations s !! g.
Proof. intros Hne. unfold take_reservation. case_match; [|done]. simpl. by rewrite lookup_delete_ne. Qed.

Lemma exec_keeps_reservation now t op g b :
  buf_inv t → avoids g op → reserved_generations (tb_state t) !! g = Some b →
  reserved_generations (tb_state (exec now t op)) !! g = Some b.
Proof.
  intros Hinv Hav Hg. destruct op; simpl in *; try done.
  - unfold buf_insert. by case_match.
  - assert (next_gen (tb_state t) ≠ g) as Hne.
    { intros <-. destruct (next_gen_fresh t Hinv) as [Hf _]. apply Hf, live_elem. eauto. }
    unfold reserve. repeat case_match; simpl; try done; by rewrite lookup_insert_ne.
  - by rewrite take_reservation_other.
  - by rewrite take_reservation_other.
  - unfold insert_with_generation_at. by case_match.
  - unfold drain_pending_to_in_flight. by repeat case_match.
  - unfold set_prepared. by repeat case_match.
  - unfold restore_prepared. by repeat case_match.
  - unfold mark_flush_blocked_with_class. by repeat case_match.
  - unfold mark_blocked_recheck. by repeat case_match.
  - destruct (mark_committed now t gen_hi m) as [t' r] eqn:Hc.
    by destruct (mark_committed_cases _ _ _ _ _ _ Hc) as [[-> _]|(_ & _ & ->)].
  - unfold rollback_unprepared_flush. by repeat case_match.
  - unfold mark_flush_failed. by repeat case_match.
Qed.

Lemma steps_avoiding_inv g t t' b :
  steps_avoiding g t t' → buf_inv t → reserved_generations (tb_state t) !! g = Some b →
  buf_inv t' ∧ reserved_generations (tb_state t') !! g = Some b.
Proof.
  induction 1 as [|t t' now op _ IH Hall Hav]; intros Hb Hr; [done|]. destruct (IH Hb Hr) as [Hi Hr'].
  split; [by apply exec_inv|by apply exec_keeps_reservation].
Qed.

Lemma exec_ident now t op : tb_ident (exec now t op) = tb_ident t.
Proof.
  destruct op; simpl; try done;
    unfold buf_insert, reserve, release_reservation, insert_reserved_at, insert_with_generation_at,
      drain_pending_to_in_flight, set_prepared, restore_prepared, mark_flush_blocked_with_class, mark_blocked_recheck,
      mark_committed, rollback_unprepared_flush, mark_flush_failed; repeat case_match; simplify_eq/=; done.
Qed.

Lemma steps_avoiding_ident g t t' : steps_avoiding g t t' → tb_ident t' = tb_ident t.
Proof. induction 1; [done|]. by rewrite exec_ident. Qed.

(** A reserved generation belongs to no entry. *)
Lemma reserved_no_entry t g b :
  buf_inv t → reserved_generations (tb_state t) !! g = Some b →
  ∀ e, e ∈ pending (tb_state t) ++ in_flight (tb_state t) → be_generation e ≠ g.
Proof.
  intros Hb Hr e He <-. pose proof (bi_unique t Hb) as Hnd. unfold live_generations in Hnd.
  rewrite (assoc_L (++)), <-generations_app in Hnd. apply NoDup_app in Hnd as (_ & Hdis & _).
  apply (Hdis (be_generation e)); [apply elem_of_generations; eauto|]. apply elem_of_keys. eauto.
Qed.

(** Running a list of timed operations. *)
Definition run_ops (t : Buf) (adm : list Entry) (com : list (N * list Entry)) (now : N)
    (ops : list (N * BufOp)) : Buf * list Entry * list (N * list Entry) * N :=
  foldl (λ '(t, adm, com, _) '(now, op),
           (exec now t op, adm ++ admitted_by t op, com ++ committed_by now t op, now)) (t, adm, com, now) ops.
Fixpoint run_allowed (t : Buf) (now : N) (ops : list (N * BufOp)) : Prop :=
  match ops with
  | [] => True
  | (now', op) :: ops => (now ≤ now')%N ∧ op_allowed t op ∧ run_allowed (exec now' t op) now' ops
  end.
Lemma run_ops_reach t adm com now ops :
  buf_reach t adm com now → run_allowed t now ops →
  let '(t', adm', com', now') := run_ops t adm com now ops in buf_reach t' adm' com' now'.
Proof.
  revert t adm com now. induction ops as [|[now' op] ops IH]; intros t adm com now Ht; [done|].
  intros (Hn & Hop & Hops). apply (IH (exec now' t op)); [|done]. by eapply reach_op.
Qed.
End histories.

(** ** A concrete history, for evaluation: batches are their column sizes *)
#[export] Instance demo_batch_ops : BatchOps (list N) := {| column_sizes b := b; num_rows b := N.of_nat (length b) |}.
Definition demo_metadata : TableMetadata unit unit unit :=
  mkTableMetadata 5 "analytics" "events" (mkObjectLocation Local None "t") None 0 0 0 [] [] [] [] None ∅.
Definition demo_buffer : @TableBuffer (list N) unit unit unit :=
  with_committed_grace (TableBuffer_new demo_table demo_metadata 10 1000 800) 50.
Definition demo_ops : list (N * @BufOp (list N) unit unit unit) :=
  [(1%N, DoReserve [10]%N); (2%N, DoReserve [20]%N);
   (3%N, DoInsertReserved 101 (mkReservation 12 20) 5%Z [20]%N);
   (4%N, DoInsertReserved 100 (mkReservation 11 10) 6%Z [10]%N);
   (5%N, DoDrain); (6%N, DoInsert 102 7%Z [30]%N); (7%N, DoCommitted 12 demo_metadata)].
Definition demo_final := Eval vm_compute in run_ops demo_buffer [] [] 0 demo_ops.

Lemma demo_final_reach :
  buf_reach demo_final.1.1.1 demo_final.1.1.2 demo_final.1.2 demo_final.2.
Proof.
  pose proof (run_ops_reach demo_buffer [] [] 0 demo_ops) as Hr.
  change (run_ops demo_buffer [] [] 0 demo_ops) with demo_final in Hr. apply Hr.
  - apply reach_new; unfold u64_max; lia.
  - vm_compute. split_and!; try discriminate; try reflexivity; auto.
Qed.

(** ** Theorems *)
Section theorems.
Context {Batch Schema Spec Order : Type} `{!BatchOps Batch}.

(** Byte accounting is exact and bounded: in every history the pending, in-flight
    and reserved counters are the sums of what they count and together stay within the
    buffer's limit, so admission after a reservation never overshoots it and none of the
    64-bit sums overflows; generations below the limit remain. *)
Theorem buffer_accounting_exact (t : @TableBuffer Batch Schema Spec Order) admitted committed now
    (H : buf_reach t admitted committed now) :
  pending_bytes (tb_state t) = sum_bytes (pending (tb_state t)) ∧
  in_flight_bytes (tb_state t) = sum_bytes (in_flight (tb_state t)) ∧
  reserved_bytes (tb_state t) = map_sum (reserved_generations (tb_state t)) ∧
  (pending_bytes (tb_state t) + in_flight_bytes (tb_state t) + reserved_bytes (tb_state t)
   ≤ tb_max_bytes t ≤ u64_max)%N ∧
  (next_gen (tb_state t) ≤ u64_max)%N.
Proof. destruct (hi_buf _ _ _ _ (buf_reach_inv _ _ _ _ H)) as [? ? ? ? _ _ ? _ _]. split_and!; try done; lia. Qed.

(** C10.  The committed mark never passes unflushed data: in every history an admitted
    entry is committed exactly when its generation is at or below the committed mark, and
    every pending, in-flight or reserved generation is above it, in-flight ones below the
    others; so discarding log records up to the mark loses no entry. *)
Theorem high_water_never_skips (t : @TableBuffer Batch Schema Spec Order) admitted committed now
    (H : buf_reach t admitted committed now) :
  (∀ e, e ∈ admitted →
     (be_generation e ≤ committed_high_water (tb_state t))%N ↔ e ∈ concat committed.*2) ∧
  (∀ g, is_Some (reserved_generations (tb_state t) !! g) → (committed_high_water (tb_state t) < g)%N) ∧
  (∀ e e', e ∈ in_flight (tb_state t) → e' ∈ pending (tb_state t) → (be_generation e < be_generation e')%N) ∧
  (∀ e g, e ∈ in_flight (tb_state t) → is_Some (reserved_generations (tb_state t) !! g) →
     (be_generation e < g)%N).
Proof.
  destruct (buf_reach_inv _ _ _ _ H) as [Hb Hcon Hbel _ _ _]. split_and!.
  - intros e He. rewrite <-Hcon, elem_of_app in He. split.
    + intros Hle. destruct He as [He|]; [|done].
      assert (be_generation e ∈ live_generations (tb_state t)) as Hl%(bi_bounds t Hb); [|lia].
      apply live_elem. rewrite !elem_of_generations. apply elem_of_app in He as [?|?]; eauto.
    + intros Hin. apply Hbel, elem_of_generations. eauto.
  - intros g Hg. apply (bi_bounds t Hb), live_elem. auto.
  - intros e e' He He'. apply (bi_order t Hb); [|apply elem_of_app; left]; apply elem_of_generations; eauto.
  - intros e g He Hg. apply (bi_order t Hb); [apply elem_of_generations; eauto|].
    apply elem_of_app. right. by apply elem_of_keys.
Qed.

(** C9.  No entry is lost or duplicated: in every history, drains, failures, rollbacks,
    restores and commits included, the admitted entries are exactly those pending, in
    flight or committed, and their generations are pairwise distinct. *)
Theorem buffer_conserves_entries (t : @TableBuffer Batch Schema Spec Order) admitted committed now
    (H : buf_reach t admitted committed now) :
  pending (tb_state t) ++ in_flight (tb_state t) ++ concat committed.*2 ≡ₚ admitted ∧
  NoDup (be_generation <$> admitted).
Proof.
  destruct (buf_reach_inv _ _ _ _ H) as [Hb Hcon Hbel Honce _ _].
  rewrite (assoc_L (++)). split; [done|]. rewrite <-Hcon.
  change (NoDup (generations ((pending (tb_state t) ++ in_flight (tb_state t)) ++ concat committed.*2))).
  rewrite generations_app. apply NoDup_app. split_and!; [| |done].
  - pose proof (bi_unique t Hb) as Hu. unfold live_generations in Hu.
    rewrite (assoc_L (++)), <-generations_app in Hu. by apply NoDup_app in Hu as (? & _).
  - intros g Hg Hg'%Hbel. rewrite generations_app, elem_of_app in Hg.
    assert (g ∈ live_generations (tb_state t)) as Hl%(bi_bounds t Hb); [|lia]. apply live_elem. tauto.
Qed.

(**  The query overlay is exact: a reader whose table snapshot covers this writer's
    generations up to [cutoff] sees, among the snapshot's batches above the cutoff,
    exactly the admitted entries above it, each once, provided the groups it still misses
    were committed within the grace window; and a reader at the committed mark sees
    exactly the uncommitted entries. *)
Theorem query_overlay_exact (t : @TableBuffer Batch Schema Spec Order) admitted committed now later
    (cutoff : Generation) (H : buf_reach t admitted committed now) (Hlater : (now ≤ later)%N)
    (Hgrace : ∀ c e, c ∈ committed → e ∈ c.2 → (cutoff < be_generation e)%N →
       tb_committed_grace t ≠ 0%N ∧ (elapsed later c.1 ≤ tb_committed_grace t)%N) :
  filter (λ e, (cutoff < be_generation e)%N) (bsn_batches (snapshot_for_query later t)) ≡ₚ
  filter (λ e, (cutoff < be_generation e)%N) admitted ∧
  filter (λ e, (committed_high_water (tb_state t) < be_generation e)%N)
    (bsn_batches (snapshot_for_query later t)) = pending (tb_state t) ++ in_flight (tb_state t).
Proof.
  destruct (buf_reach_inv _ _ _ _ H) as [Hb Hcon Hbel _ Hz Hrec].
  set (seen := concat (filter (in_grace t later) (recently_committed (tb_state t))).*2).
  assert (bsn_batches (snapshot_for_query later t) =
    (pending (tb_state t) ++ in_flight (tb_state t)) ++ seen) as -> by (simpl; by rewrite (assoc_L (++))).
  assert (∀ e, e ∈ seen → e ∈ concat committed.*2) as Hseen.
  { intros e. unfold seen. destruct (decide (tb_committed_grace t = 0%N)) as [Hg|Hg].
    { rewrite (Hz Hg). by intros ?%elem_of_nil. }
    rewrite (Hrec Hg later Hlater), !elem_of_concat. intros (l & He & Hl). exists l. split; [done|].
    apply list_elem_of_fmap in Hl as (c & -> & [_ Hc]%list_elem_of_filter). apply list_elem_of_fmap. eauto. }
  split.
  - rewrite <-Hcon, !filter_app. apply Permutation_app_head. unfold seen.
    destruct (decide (tb_committed_grace t = 0%N)) as [Hg|Hg].
    + rewrite (Hz Hg). simpl.
      rewrite <-(concat_committed_fresh committed (λ _, False) (λ e, (cutoff < be_generation e)%N)).
      { replace (filter (λ _, False) committed) with (@nil (N * list (BufferEntry Batch))); [done|].
        symmetry. apply elem_of_nil_inv. by intros c [[] _]%list_elem_of_filter. }
      intros c e Hc He Hcut. by destruct (Hgrace c e Hc He Hcut).
    + rewrite (Hrec Hg later Hlater). rewrite concat_committed_fresh; [done|].
      intros c e Hc He Hcut. by destruct (Hgrace c e Hc He Hcut).
  - rewrite filter_app. rewrite <-(app_nil_r (pending (tb_state t) ++ in_flight (tb_state t))) at 2. f_equal.
    + apply list_filter_all, Forall_forall. intros e He.
      assert (be_generation e ∈ live_generations (tb_state t)) as Hl%(bi_bounds t Hb); [|lia].
      apply live_elem. rewrite !elem_of_generations. apply elem_of_app in He as [?|?]; eauto.
    + apply elem_of_nil_inv. intros e [Hlt He%Hseen]%list_elem_of_filter.
      assert (be_generation e ∈ generations (concat committed.*2)) as ?%Hbel
        by (apply elem_of_generations; eauto). lia.
Qed.

(** Reservation is exact: it is refused as blocked iff a blocked flush owns the
    table, otherwise it succeeds iff the batch fits under the limit next to everything
    pending, in flight and reserved and a generation is left; success hands out the next
    generation, charges the batch, and inserting with it always succeeds in admitting the
    batch under that generation. *)
Theorem reserve_exact (t : @TableBuffer Batch Schema Spec Order) (batch : Batch) admitted committed now
    (H : buf_reach t admitted committed now) :
  let s := tb_state t in
  match flush_state s with
  | FBlocked b => reserve t batch = (t, Err (FlushBlocked (tb_ident t) (pf_commit_id (bf_prepared b))))
  | _ =>
      if decide ((pending_bytes s + in_flight_bytes s + reserved_bytes s + batch_byte_size batch ≤ tb_max_bytes t)%N
                 ∧ next_gen s ≠ u64_max)
      then ∃ t', reserve t batch = (t', Ok (mkReservation (next_gen s) (batch_byte_size batch))) ∧
             reserved_generations (tb_state t') !! next_gen s = Some (batch_byte_size batch) ∧
             ∀ id ms, let '(t'', ok) := insert_reserved_at t' id (mkReservation (next_gen s) (batch_byte_size batch))
                                          ms batch in
               io_generation ok = next_gen s ∧
               pending (tb_state t'') = pending s ++ [mkBufferEntry id (next_gen s) ms batch (batch_byte_size batch)] ∧
               reserved_generations (tb_state t'') = reserved_generations s
      else ∃ e, reserve t batch = (t, Err e)
  end.
Proof.
  intros s. pose proof (hi_buf _ _ _ _ (buf_reach_inv _ _ _ _ H)) as Hb.
  pose proof (bi_capacity t Hb) as Hcap. pose proof (bi_next t Hb) as Hn. fold s in Hcap, Hn.
  assert (match (_ ← ensure_capacity t s (batch_byte_size batch) true; ensure_generation_available t (next_gen s)) with
          | Ok _ => (pending_bytes s + in_flight_bytes s + reserved_bytes s + batch_byte_size batch ≤ tb_max_bytes t)%N
              ∧ next_gen s ≠ u64_max
          | Err _ => ¬ ((pending_bytes s + in_flight_bytes s + reserved_bytes s + batch_byte_size batch
                         ≤ tb_max_bytes t)%N ∧ next_gen s ≠ u64_max) end) as Hchk.
  { destruct (ensure_capacity t s (batch_byte_size batch) true) as [[]|e] eqn:Hc; simpl.
    - apply ensure_capacity_Ok in Hc.
      destruct (ensure_generation_available t (next_gen s)) as [[]|e] eqn:Hg.
      + by apply ensure_generation_Ok in Hg as [_ ?].
      + intros [_ Hne]. assert (ensure_generation_available t (next_gen s) = Ok tt) as Hok; [|congruence].
        apply ensure_generation_Ok. split; [lia|done].
    - intros [Hfit _]. unfold ensure_capacity, u64_checked_add in Hc.
      rewrite (proj2 (N.leb_le (pending_bytes s + in_flight_bytes s) u64_max)) in Hc by lia. simpl in Hc.
      rewrite (proj2 (N.leb_le (pending_bytes s + in_flight_bytes s + reserved_bytes s) u64_max)) in Hc by lia.
      simpl in Hc. rewrite (proj2 (N.leb_le _ u64_max)) in Hc by lia. simpl in Hc.
      by rewrite (proj2 (N.leb_le _ _) Hfit) in Hc. }
  assert (reserved_generations s !! next_gen s = None) as Hnone.
  { apply eq_None_not_Some. intros Hs. destruct (next_gen_fresh t Hb) as [Hf _]. apply Hf, live_elem. auto. }
  unfold reserve. fold s. destruct (flush_state s) as [|p|b] eqn:Hf; [..|done].
  all: destruct (_ ← ensure_capacity _ _ _ _; _) as [u|e]; case_decide as Hd; try (by destruct Hd); try done; [|by eexists].
  all: eexists; split; [done|]; simpl; split; [apply lookup_insert_eq|]; intros id ms;
    unfold insert_reserved_at, take_reservation; simpl; rewrite lookup_insert_eq; simpl;
    split_and!; try done; by rewrite delete_insert_id.
Qed.

(**  An unresolved reservation stops the table: while the reservation of generation
    [g] is neither used nor released, whatever else happens, it stays charged, no entry
    of a generation above [g] is ever in flight and the committed mark stays below [g]. *)
Theorem unresolved_reservation_stalls (t t' : @TableBuffer Batch Schema Spec Order) admitted committed now
    (g : Generation) (b : N) (H : buf_reach t admitted committed now)
    (Hres : reserved_generations (tb_state t) !! g = Some b) (Hsteps : steps_avoiding g t t') :
  reserved_generations (tb_state t') !! g = Some b ∧
  (b ≤ reserved_bytes (tb_state t'))%N ∧
  (committed_high_water (tb_state t') < g)%N ∧
  ∀ e, e ∈ in_flight (tb_state t') → (be_generation e < g)%N.
Proof.
  pose proof (hi_buf _ _ _ _ (buf_reach_inv _ _ _ _ H)) as Hb.
  destruct (steps_avoiding_inv _ _ _ _ Hsteps Hb Hres) as [Hb' Hres'].
  split_and!; [done| | |].
  - rewrite (bi_reserved_bytes t' Hb'), (map_sum_of_delete (λ n : N, n) _ _ _ Hres'). lia.
  - apply (bi_bounds t' Hb'), live_elem. eauto.
  - intros e He. apply (bi_order t' Hb'); [apply elem_of_generations; eauto|].
    apply elem_of_app. right. apply elem_of_keys. eauto.
Qed.
End theorems.

Lemma buffer_accounting_exact_witness :
  (pending_bytes (tb_state demo_final.1.1.1) + in_flight_bytes (tb_state demo_final.1.1.1)
   + reserved_bytes (tb_state demo_final.1.1.1) ≤ 1000)%N.
Proof. apply (buffer_accounting_exact _ _ _ _ demo_final_reach). Defined.

Lemma high_water_never_skips_witness :
  committed_high_water (tb_state demo_final.1.1.1) = 12%N ∧
  ∀ e, e ∈ demo_final.1.1.2 →
    (be_generation e ≤ committed_high_water (tb_state demo_final.1.1.1))%N ↔ e ∈ concat demo_final.1.2.*2.
Proof. split; [reflexivity|]. apply (proj1 (high_water_never_skips _ _ _ _ demo_final_reach)). Defined.

Lemma buffer_conserves_entries_witness :
  length demo_final.1.1.2 = 3 ∧ NoDup (be_generation <$> demo_final.1.1.2).
Proof. split; [reflexivity|]. exact (proj2 (buffer_conserves_entries _ _ _ _ demo_final_reach)). Defined.

Lemma query_overlay_exact_witness :
  filter (λ e, (10 < be_generation e)%N) (bsn_batches (snapshot_for_query 20 demo_final.1.1.1)) ≡ₚ
  filter (λ e, (10 < be_generation e)%N) demo_final.1.1.2.
Proof.
  refine (proj1 (query_overlay_exact _ _ _ _ 20 10 demo_final_reach _ _)).
  - vm_compute. discriminate.
  - intros c e Hc _ _. apply list_elem_of_singleton in Hc. subst c. vm_compute. split; discriminate.
Defined.

Lemma reserve_exact_witness :
  (∃ e, reserve demo_final.1.1.1 [971]%N = (demo_final.1.1.1, Err e)) ∧
  ∃ t', reserve demo_final.1.1.1 [970]%N = (t', Ok (mkReservation 14 970)).
Proof.
  split.
  - exact (reserve_exact demo_final.1.1.1 [971]%N _ _ _ demo_final_reach).
  - destruct (reserve_exact demo_final.1.1.1 [970]%N _ _ _ demo_final_reach) as (t' & Hr & _). by exists t'.
Defined.

Lemma unresolved_reservation_stalls_witness :
  (committed_high_water (tb_state (exec 9 (reserve demo_final.1.1.1 [5]%N).1 DoDrain)) < 14)%N.
Proof.
  refine (proj1 (proj2 (proj2 (unresolved_reservation_stalls (exec 8 demo_final.1.1.1 (DoReserve [5]%N)) _ _ _ 8 14 5
    (reach_op _ _ _ _ 8 (DoReserve [5]%N) demo_final_reach _ I) eq_refl
    (avoiding_step 14 _ _ 9 DoDrain (avoiding_refl 14 _) _ I))))); [vm_compute; discriminate|by left].
Defined.
