(* ===== verification/Catalog.v ===== *)
(** * Catalog commits: the append guard, commit classification and status resolution

    Models [teodb-catalog/src/adapter]: [append_attempt_guard.rs], [commit.rs],
    [commit_error.rs], [commit_metadata.rs], [resolve_append_status] of
    [catalog.rs], and [error.rs].  The Iceberg library is not modelled: table
    metadata is what the adapter reads of it, the conversion of data files is an
    interface, and a run of [Transaction::commit] is the list of its attempts. *)

From S2P Require Import Prelude Core Location DataFiles WriteProtocol.
Open Scope nat_scope.
Open Scope list_scope.

(** ** Iceberg values the adapter reads *)
Record IceMeta := mkIceMeta {
  im_uuid : Uuid;
  im_properties : gmap string string;
  im_snapshots : list (SnapshotId * gmap string string);
  im_current : option SnapshotId;
  im_spec_ids : list Z;
}.

Inductive ErrorKind :=
| KPreconditionFailed | KUnexpected | KDataInvalid | KNamespaceAlreadyExists | KTableAlreadyExists
| KNamespaceNotFound | KTableNotFound | KFeatureUnsupported | KCatalogCommitConflicts | KOther.
#[export] Instance ErrorKind_eq_dec : EqDecision ErrorKind.
Proof. solve_decision. Defined.

(** [ie_connect]: some cause in the source chain is a connect failure of [reqwest]. *)
Record IceError := mkIceError {
  ie_kind : ErrorKind; ie_retryable : bool; ie_connect : bool; ie_message : string }.

(** ** Errors *)
Fixpoint str_contains (p s : string) : bool :=
  str_starts_with p s || match s with EmptyString => false | String _ s => str_contains p s end.

Definition concurrent_change (resource : string) : TeoDBError :=
  Conflict resource "" "<concurrent change>".

Definition map_iceberg_error (e : IceError) : TeoDBError :=
  let msg := ie_message e in
  match ie_kind e with
  | KDataInvalid => InvalidArgument "iceberg" msg
  | KFeatureUnsupported => Catalog "unsupported: {e}"
  | KTableAlreadyExists | KNamespaceAlreadyExists => AlreadyExists msg
  | KTableNotFound | KNamespaceNotFound => NotFound msg
  | KPreconditionFailed | KCatalogCommitConflicts => concurrent_change msg
  | KUnexpected =>
      if str_contains "404" msg || str_contains "NoSuchTable" msg || str_contains "not found" msg
         || str_contains "does not exist" msg then NotFound msg
      else if str_contains "409" msg || str_contains "already exists" msg then AlreadyExists msg
      else if str_contains "Conflict" msg || str_contains "CommitFailed" msg then concurrent_change msg
      else if str_contains "401" msg then Unauthorized
      else if str_contains "403" msg then Forbidden "access denied"
      else Catalog msg
  | KOther => Catalog "iceberg error: {e}"
  end.

Inductive CommitAttemptError :=
| AttemptConflict (e : IceError)
| AttemptStateUnknown (e : IceError)
| AttemptRetryableBeforeCommit (e : IceError)
| AttemptFatal (e : IceError).

Definition is_pre_dispatch_connect_failure (e : IceError) : bool := ie_connect e.

Definition classify (e : IceError) : CommitAttemptError :=
  match ie_kind e with
  | KCatalogCommitConflicts | KPreconditionFailed => AttemptConflict e
  | KUnexpected =>
      if is_pre_dispatch_connect_failure e then AttemptRetryableBeforeCommit e else AttemptStateUnknown e
  | _ => if ie_retryable e then AttemptRetryableBeforeCommit e else AttemptFatal e
  end.

Definition is_retryable_replace (e : TeoDBError) : bool :=
  match e with Catalog _ => true | _ => false end.

Inductive CatalogCommitOutcome :=
| OutCommitted | OutConflict | OutStateUnknown | OutStaleWriterEpoch | OutWriterRegistryFull
| OutTableIncarnationMismatch | OutMetadataCorruption | OutProtocolError | OutRetryableError | OutFatalError.

Definition commit_outcome (r : TeoDBResult IceMeta) : CatalogCommitOutcome :=
  match r with
  | Ok _ => OutCommitted
  | Err (Conflict _ _ _) => OutConflict
  | Err (CommitStateUnknown _ _ _) => OutStateUnknown
  | Err (StaleWriterEpoch _ _ _ _) => OutStaleWriterEpoch
  | Err (WriterRegistryFull _ _) => OutWriterRegistryFull
  | Err (TableIncarnationMismatch _ _ _) => OutTableIncarnationMismatch
  | Err (MetadataCorruption _ _) => OutMetadataCorruption
  | Err (WriteProtocol _ _) => OutProtocolError
  | Err (ExternalRetryable _) | Err (Unavailable _) => OutRetryableError
  | Err _ => OutFatalError
  end.

(** ** Requests *)
Record CommitAppend := mkCommitAppend {
  ca_table : TableIdent;
  ca_table_uuid : Uuid;
  ca_identity : AppendCommitIdentity;
  ca_base_snapshot_id : option SnapshotId;
  ca_added_data_files : list DataFile;
  ca_properties : gmap string string;
}.

(** Over the metadata reported with a commit. *)
Inductive CommitStatus (M : Type) := StCommitted (m : M) | StNotCommitted | StUnknown (message : string).
Arguments StCommitted {M} _.
Arguments StNotCommitted {M}.
Arguments StUnknown {M} _.

(** ** Commit metadata *)
Definition ENGINE_NAME : string := "engine-name".
Definition ENGINE_VERSION : string := "engine-version".
Definition RESERVED_KEYS : list string :=
  [COMMIT_ID_PROPERTY; WRITER_ID_PROPERTY; WRITER_EPOCH_PROPERTY; GENERATION_MIN_PROPERTY;
   GENERATION_MAX_PROPERTY; TABLE_UUID_PROPERTY; PROTOCOL_VERSION_PROPERTY; ENGINE_NAME; ENGINE_VERSION].

(** [HashMap::extend]. *)
Definition extend (m : gmap string string) (kvs : list (string * string)) : gmap string string :=
  foldl (λ m kv, <[kv.1 := kv.2]> m) m kvs.

Section commit.
Context `{UuidText} `{CheckpointJson}.
(** [CARGO_PKG_VERSION] of the build. *)
Context (pkg_version : string).

Definition snapshot_properties (request : CommitAppend) : TeoDBResult (gmap string string) :=
  if existsb (λ k, bool_decide (k ∈ RESERVED_KEYS) || str_starts_with "teodb." k)
       (map_to_list (ca_properties request)).*1
  then Err (InvalidArgument "properties" "reserved snapshot property '{key}' cannot be overridden")
  else
    let properties := extend (ca_properties request)
      (append_snapshot_identity_properties (ca_table_uuid request) (ca_identity request)) in
    Ok (extend properties [(ENGINE_NAME, "teodb"); (ENGINE_VERSION, pkg_version)]).

(** [now_ms] is the time since the epoch, [None] when the clock is before it. *)
Definition checkpoint_property (now_ms : option Z) (request : CommitAppend) : TeoDBResult (string * string) :=
  ms ← ok_or now_ms (Internal "system clock before UNIX epoch: {error}");
  _ ← reject_if (i64_max <? ms)%Z (Internal "commit timestamp exceeds i64");
  let checkpoint := WriterCheckpoint_new (id_writer_epoch (ca_identity request))
                      (gr_hi (id_generations (ca_identity request))) (id_commit_id (ca_identity request)) ms in
  value ← checkpoint_encode checkpoint;
  Ok (writer_checkpoint_key (id_writer_id (ca_identity request)), value).

(** ** The append guard *)
Inductive GuardRejection :=
| AlreadyCommitted (m : IceMeta)
| RejStaleWriterEpoch (current : WriterEpoch)
| RejWriterRegistryFull
| RejTableIncarnationMismatch (actual : Uuid)
| RejMetadataCorruption (message : string)
| RejProtocolViolation (message : string).

Definition into_teodb_error (rejection : GuardRejection) (request : CommitAppend) (limit : N) : TeoDBError :=
  match rejection with
  | AlreadyCommitted _ => WriteProtocol (ca_table request) "already committed guard outcome consumed as an error"
  | RejStaleWriterEpoch current =>
      StaleWriterEpoch (ca_table request) (id_writer_id (ca_identity request))
        (id_writer_epoch (ca_identity request)) current
  | RejWriterRegistryFull => WriterRegistryFull (ca_table request) limit
  | RejTableIncarnationMismatch actual =>
      TableIncarnationMismatch (ca_table request) (ca_table_uuid request) actual
  | RejMetadataCorruption message => MetadataCorruption (ca_table request) message
  | RejProtocolViolation message => WriteProtocol (ca_table request) message
  end.

(** Whether some snapshot carries the request's identity. *)
Definition snapshots_match (request : CommitAppend) (snapshots : list (SnapshotId * gmap string string)) :
    TeoDBResult bool :=
  foldM (λ found snapshot,
           m ← snapshot_matches_append_identity (ca_table request) (ca_table_uuid request)
                 (ca_identity request) snapshot.2;
           Ok (found || m)) false snapshots.

(** The comparison of the writer's own checkpoint with the request. *)
Definition exact_checkpoint (request : CommitAppend) (own : option WriterCheckpoint) :
    result GuardRejection bool :=
  let identity := ca_identity request in
  match own with
  | Some checkpoint =>
      if (ck_commit_id checkpoint =? id_commit_id identity)%N then
        if negb (ck_epoch checkpoint =? id_writer_epoch identity)%N
           || negb (ck_generation checkpoint =? gr_hi (id_generations identity))%N
        then Err (RejMetadataCorruption
               "writer checkpoint reuses commit ID {} with a mismatched epoch or generation")
        else Ok true
      else Ok false
  | None => Ok false
  end.

Definition guard_validate (max_writer_checkpoints : N) (request : CommitAppend) (metadata : IceMeta) :
    result GuardRejection unit :=
  let identity := ca_identity request in
  _ ← map_err (λ _, RejProtocolViolation "{error}")
        (identity_validate (ca_table request) (ca_table_uuid request) identity);
  _ ← reject_if (negb (im_uuid metadata =? ca_table_uuid request)%N)
        (RejTableIncarnationMismatch (im_uuid metadata));
  checkpoint_count ← map_err (λ _, RejMetadataCorruption "{error}")
        (validate_writer_checkpoints (ca_table request) (im_properties metadata));
  own_checkpoint ← map_err (λ _, RejMetadataCorruption "{error}")
        (parse_writer_checkpoint (ca_table request) (im_properties metadata) (id_writer_id identity));
  exact_snapshot ← map_err (λ _, RejMetadataCorruption "{error}")
        (snapshots_match request (im_snapshots metadata));
  exact_cp ← exact_checkpoint request own_checkpoint;
  _ ← reject_if (exact_snapshot || exact_cp) (AlreadyCommitted metadata);
  let own_key := writer_checkpoint_key (id_writer_id identity) in
  _ ← reject_if (negb (bool_decide (is_Some (im_properties metadata !! own_key)))
                 && (max_writer_checkpoints <=? N.of_nat checkpoint_count)%N) RejWriterRegistryFull;
  match own_checkpoint with
  | None => Ok tt
  | Some checkpoint =>
      _ ← reject_if (id_writer_epoch identity <? ck_epoch checkpoint)%N
            (RejStaleWriterEpoch (ck_epoch checkpoint));
      reject_if (gr_lo (id_generations identity) <=? ck_generation checkpoint)%N
        (RejProtocolViolation "generation range {}-{} overlaps committed generation {} with a different commit ID")
  end.

(** The error the guard hands to the transaction. *)
Definition guard_error : IceError :=
  mkIceError KPreconditionFailed false false "append rejected by typed TeoDB attempt guard".

(** [load_table] of the guard: the rejection left in its cell, and what it returns. *)
Definition guard_load_table (limit : N) (request : CommitAppend) (loaded : result IceError IceMeta) :
    option GuardRejection * result IceError IceMeta :=
  match loaded with
  | Err e => (None, Err e)
  | Ok metadata =>
      match guard_validate limit request metadata with
      | Ok _ => (None, Ok metadata)
      | Err rejection => (Some rejection, Err guard_error)
      end
  end.

(** ** Transactions *)
Context {IceFile : Type} (teodb_data_file_to_iceberg : DataFile → TeoDBResult IceFile).

Record AppendTx := mkAppendTx {
  tx_commit_uuid : Uuid; tx_files : list IceFile; tx_properties : gmap string string;
  tx_checkpoint : string * string }.

Definition convert_data_files (table : TableIdent) (metadata : IceMeta) (files : list DataFile) :
    TeoDBResult (list IceFile) :=
  mapM_res (λ file,
    _ ← reject_if (negb (bool_decide (df_partition_spec_id file ∈ im_spec_ids metadata)))
          (MetadataCorruption table "partition spec {} is missing");
    teodb_data_file_to_iceberg file) files.

Definition build_append_transaction (now_ms : option Z) (request : CommitAppend) (table : IceMeta) :
    TeoDBResult AppendTx :=
  properties ← snapshot_properties request;
  checkpoint ← checkpoint_property now_ms request;
  added_data_files ← convert_data_files (ca_table request) table (ca_added_data_files request);
  Ok (mkAppendTx (id_commit_id (ca_identity request)) added_data_files properties checkpoint).

(** One attempt of [Transaction::commit]: the reload, then the reply to the update. *)
Inductive UpdateReply := UpdateOk (m : IceMeta) | UpdateRetry | UpdateErr (e : IceError).
Abbreviation Attempt := (result IceError IceMeta * UpdateReply)%type.

(** The attempts of one commit through the guard; [exhausted] is the error when the
    transaction gives up. *)
Fixpoint run_transaction (limit : N) (request : CommitAppend) (exhausted : IceError) (attempts : list Attempt) :
    option GuardRejection * result IceError IceMeta :=
  match attempts with
  | [] => (None, Err exhausted)
  | (loaded, reply) :: attempts =>
      match guard_load_table limit request loaded with
      | (rejection, Err e) => (rejection, Err e)
      | (_, Ok _) =>
          match reply with
          | UpdateOk m => (None, Ok m)
          | UpdateErr e => (None, Err e)
          | UpdateRetry => run_transaction limit request exhausted attempts
          end
      end
  end.

Definition guard_result (limit : N) (rejection : option GuardRejection) (request : CommitAppend)
    (error : IceError) : TeoDBResult IceMeta :=
  match rejection with
  | Some (AlreadyCommitted metadata) => Ok metadata
  | Some other => Err (into_teodb_error other request limit)
  | None =>
      match classify error with
      | AttemptConflict e => Err (map_iceberg_error e)
      | AttemptStateUnknown e =>
          Err (CommitStateUnknown (ca_table request) (id_commit_id (ca_identity request)) (ie_message e))
      | AttemptRetryableBeforeCommit e => Err (ExternalRetryable (ie_message e))
      | AttemptFatal e => Err (map_iceberg_error e)
      end
  end.

Definition try_commit_append (limit : N) (now_ms : option Z) (request : CommitAppend)
    (bootstrap : result IceError IceMeta) (exhausted : IceError) (attempts : list Attempt) : TeoDBResult IceMeta :=
  table ← map_err map_iceberg_error bootstrap;
  _ ← build_append_transaction now_ms request table;
  match run_transaction limit request exhausted attempts with
  | (_, Ok updated) => Ok updated
  | (rejection, Err error) => guard_result limit rejection request error
  end.

(** ** Status resolution *)
Definition found_in_checkpoint (identity : AppendCommitIdentity) (own : option WriterCheckpoint) : bool :=
  match own with
  | Some c => (ck_commit_id c =? id_commit_id identity)%N && (ck_epoch c =? id_writer_epoch identity)%N
              && (ck_generation c =? gr_hi (id_generations identity))%N
  | None => false
  end.

Definition resolve_append_status (request : CommitAppend) (loaded : result IceError IceMeta) :
    TeoDBResult (CommitStatus IceMeta) :=
  let identity := ca_identity request in
  _ ← identity_validate (ca_table request) (ca_table_uuid request) identity;
  match map_err map_iceberg_error loaded with
  | Err (NotFound _) => Ok StNotCommitted
  | Err _ => Ok (StUnknown "{error}")
  | Ok metadata =>
      _ ← reject_if (negb (im_uuid metadata =? ca_table_uuid request)%N)
            (TableIncarnationMismatch (ca_table request) (ca_table_uuid request) (im_uuid metadata));
      found_in_history ← snapshots_match request (im_snapshots metadata);
      _ ← validate_writer_checkpoints (ca_table request) (im_properties metadata);
      checkpoint ← parse_writer_checkpoint (ca_table request) (im_properties metadata) (id_writer_id identity);
      let in_checkpoint := found_in_checkpoint identity checkpoint in
      _ ← reject_if (match checkpoint with
                     | Some c => (ck_commit_id c =? id_commit_id identity)%N && negb in_checkpoint
                     | None => false end)
            (MetadataCorruption (ca_table request)
               "writer checkpoint reuses commit ID {} with a mismatched epoch or generation");
      if found_in_history || in_checkpoint then Ok (StCommitted metadata) else Ok StNotCommitted
  end.
End commit.
