(* ===== verification/CatalogSpec.v ===== *)
(** * Safety of concurrent appends

    The catalog of one table under many writers: requests are loaded through the
    guard, published later against the metadata they were validated on, or never;
    other operations change the table in between.  What the catalog server does on
    an update is an interface with the compare-and-swap contract of the Iceberg REST
    protocol. *)

From S2P Require Import Prelude Core Location DataFiles WriteProtocol Catalog.
Open Scope nat_scope.
Open Scope list_scope.

(** [update_table] for an append: [publish cur base properties checkpoint] is the server's
    new metadata when it holds [cur] and the update was built on [base]. *)
Class CatalogServer := {
  publish : IceMeta → IceMeta → gmap string string → string * string → option IceMeta;
}.
(** Documented behaviour: the update asserts the table UUID and the current snapshot of
    its base, adds one snapshot with a fresh id that becomes current, whose summary holds
    the given properties next to Iceberg's own metrics, and sets the table property. *)
Class CatalogServerLaws `{CatalogServer} : Prop := {
  publish_cas cur base ps cp new :
    publish cur base ps cp = Some new → im_uuid cur = im_uuid base ∧ im_current cur = im_current base;
  publish_properties cur base ps cp new :
    publish cur base ps cp = Some new →
    im_uuid new = im_uuid cur ∧ im_properties new = <[cp.1 := cp.2]> (im_properties cur);
  publish_snapshot cur base ps cp new :
    publish cur base ps cp = Some new →
    ∃ sid summary, im_snapshots new = im_snapshots cur ++ [(sid, summary)] ∧ im_current new = Some sid ∧
      ∀ k v, ps !! k = Some v → summary !! k = Some v;
}.

Section system.
Context `{UuidText} `{CheckpointJson} `{CatalogServer}.
Context (pkg_version : string) (limit : N).
(** Commit ids are UUIDs drawn once per prepared flush: an id belongs to one identity. *)
Context (identity_of : Uuid → AppendCommitIdentity).

(** [cs_ids]: every current snapshot the table has had; [cs_history]: the published
    identities, oldest first; [cs_attempts]: requests that passed the guard, with the
    metadata they passed on. *)
Record CatState := mkCatState {
  cs_meta : IceMeta;
  cs_ids : list (option SnapshotId);
  cs_history : list AppendCommitIdentity;
  cs_attempts : list (CommitAppend * IceMeta);
}.

(** Other operations on the table (replace commits, property updates, snapshot
    expiration): writer checkpoints are left alone, a new snapshot carries no commit id
    and a new current snapshot is a new one. *)
Definition other_change (s : CatState) (new : IceMeta) : Prop :=
  im_uuid new = im_uuid (cs_meta s) ∧
  (∀ k, is_registry_key k = true → im_properties new !! k = im_properties (cs_meta s) !! k) ∧
  (∀ sn, sn ∈ im_snapshots new → sn ∈ im_snapshots (cs_meta s) ∨ sn.2 !! COMMIT_ID_PROPERTY = None) ∧
  (im_current new = im_current (cs_meta s) ∨ im_current new ∉ cs_ids s).

(** The Rust types of a request, with the integers within their width. *)
Definition identity_typed (i : AppendCommitIdentity) : Prop :=
  (id_writer_epoch i ≤ u64_max)%N ∧ (id_commit_id i ≤ u128_max)%N ∧ (gr_hi (id_generations i) ≤ u64_max)%N.

Inductive cat_step (s : CatState) : CatState → Prop :=
| step_load req :
    identity_typed (ca_identity req) →
    ca_identity req = identity_of (id_commit_id (ca_identity req)) →
    guard_validate limit req (cs_meta s) = Ok tt →
    cat_step s (mkCatState (cs_meta s) (cs_ids s) (cs_history s) ((req, cs_meta s) :: cs_attempts s))
| step_publish req base ps cp now_ms new :
    (req, base) ∈ cs_attempts s →
    snapshot_properties pkg_version req = Ok ps → checkpoint_property (Some now_ms) req = Ok cp →
    (0 ≤ now_ms)%Z → publish (cs_meta s) base ps cp = Some new → im_current new ∉ cs_ids s →
    cat_step s (mkCatState new (im_current new :: cs_ids s) (cs_history s ++ [ca_identity req]) (cs_attempts s))
| step_other new :
    other_change s new →
    cat_step s (mkCatState new (im_current new :: cs_ids s) (cs_history s) (cs_attempts s)).

(** A table as it is created: no writer checkpoints, no TeoDB commits. *)
Definition cat_initial (s : CatState) : Prop :=
  (∀ k, is_registry_key k = true → im_properties (cs_meta s) !! k = None) ∧
  (∀ sn, sn ∈ im_snapshots (cs_meta s) → sn.2 !! COMMIT_ID_PROPERTY = None) ∧
  cs_ids s = [im_current (cs_meta s)] ∧ cs_history s = [] ∧ cs_attempts s = [].

Inductive cat_reach : CatState → Prop :=
| cat_reach_init s : cat_initial s → cat_reach s
| cat_reach_step s s' : cat_reach s → cat_step s s' → cat_reach s'.
End system.

Definition last_of (w : Uuid) (h : list AppendCommitIdentity) : option AppendCommitIdentity :=
  last (filter (λ i, id_writer_id i = w) h).

(** Per writer, epochs never go back and generation ranges follow one another. *)
Definition follows (i j : AppendCommitIdentity) : Prop :=
  id_writer_id i = id_writer_id j →
  (id_writer_epoch i ≤ id_writer_epoch j)%N ∧ (gr_hi (id_generations i) < gr_lo (id_generations j))%N.
Definition chained (h : list AppendCommitIdentity) : Prop := StronglySorted follows h.

(** ** Lists and registries *)
Lemma StronglySorted_snoc {A} (R : A → A → Prop) l x :
  StronglySorted R (l ++ [x]) ↔ StronglySorted R l ∧ Forall (λ y, R y x) l.
Proof.
  induction l as [|y l IH]; simpl.
  { split; [intros _; split; constructor|intros _; repeat constructor]. }
  rewrite Forall_cons. split.
  - intros [Hs Ha]%StronglySorted_inv. apply IH in Hs as [Hs Hf]. apply Forall_app in Ha as [Ha Hx].
    apply Forall_cons in Hx as [Hx _]. split_and!; [by constructor|done|done].
  - intros ([Hs Ha]%StronglySorted_inv & Hx & Hf). constructor; [by apply IH|].
    apply Forall_app. split; [done|]. by apply Forall_cons.
Qed.

Lemma last_of_snoc w h i :
  last_of w (h ++ [i]) = if decide (id_writer_id i = w) then Some i else last_of w h.
Proof.
  unfold last_of. rewrite filter_app. case_decide as Hw.
  - rewrite filter_cons, decide_True by done. apply last_snoc.
  - rewrite filter_cons, decide_False by done. simpl. by rewrite app_nil_r.
Qed.

Lemma last_of_elem w h i : last_of w h = Some i → i ∈ h ∧ id_writer_id i = w.
Proof.
  unfold last_of. intros Hl%last_Some_elem_of. apply list_elem_of_filter in Hl as [? ?]. done.
Qed.

Lemma last_of_bound w h i :
  chained h → (∀ j, j ∈ h → (gr_lo (id_generations j) ≤ gr_hi (id_generations j))%N) →
  i ∈ h → id_writer_id i = w →
  ∃ l, last_of w h = Some l ∧ (id_writer_epoch i ≤ id_writer_epoch l)%N ∧
       (gr_hi (id_generations i) ≤ gr_hi (id_generations l))%N.
Proof.
  intros Hch Hval Hi Hw. induction h as [|l h IH] using rev_ind; [by apply elem_of_nil in Hi|].
  apply StronglySorted_snoc in Hch as [Hch Hall]. rewrite last_of_snoc.
  apply elem_of_app in Hi as [Hi|Hi%list_elem_of_singleton].
  - case_decide as Hl.
    + exists l. split; [done|]. rewrite Forall_forall in Hall. destruct (Hall i Hi) as [? ?]; [congruence|].
      assert (gr_lo (id_generations l) ≤ gr_hi (id_generations l))%N
        by (apply Hval, elem_of_app; right; by apply list_elem_of_singleton). lia.
    + apply IH; try done. intros j Hj. apply Hval, elem_of_app. by left.
  - subst l. rewrite decide_True by done. by exists i.
Qed.

Definition same_registry (ps ps' : gmap string string) : Prop :=
  ∀ k, is_registry_key k = true → ps !! k = ps' !! k.

Definition registry_map (ps : gmap string string) : gmap string string :=
  filter (λ kv, is_registry_key kv.1 = true) ps.

Lemma writer_checkpoint_count_size ps : writer_checkpoint_count ps = size (registry_map ps).
Proof.
  unfold writer_checkpoint_count, registry_map. rewrite <-length_map_to_list.
  rewrite map_filter_alt. apply Permutation_length. symmetry. apply map_to_list_to_map.
  apply NoDup_fmap_fst.
  - intros x y1 y2 [_ H1%elem_of_map_to_list]%list_elem_of_filter [_ H2%elem_of_map_to_list]%list_elem_of_filter.
    congruence.
  - apply NoDup_filter, NoDup_map_to_list.
Qed.

Lemma same_registry_map ps ps' : same_registry ps ps' → registry_map ps = registry_map ps'.
Proof.
  intros Hs. apply map_eq. intros k. unfold registry_map.
  destruct (is_registry_key k) eqn:Hk.
  - destruct (ps' !! k) as [v|] eqn:Hv.
    + rewrite !(map_lookup_filter_Some_2 _ _ k v); try done. by rewrite Hs.
    + rewrite !map_lookup_filter_None_2; [done|by left|left; by rewrite Hs].
  - rewrite !map_lookup_filter_None_2; [done|..]; right; intros; simpl; by rewrite Hk.
Qed.
Lemma same_registry_count ps ps' :
  same_registry ps ps' → writer_checkpoint_count ps = writer_checkpoint_count ps'.
Proof. intros Hs. by rewrite !writer_checkpoint_count_size, (same_registry_map ps ps'). Qed.

Lemma registry_count_insert ps k v :
  is_registry_key k = true →
  writer_checkpoint_count (<[k := v]> ps) =
    if decide (is_Some (ps !! k)) then writer_checkpoint_count ps else S (writer_checkpoint_count ps).
Proof.
  intros Hk. rewrite !writer_checkpoint_count_size. unfold registry_map.
  rewrite map_filter_insert_True by done.
  case_decide as Hs.
  - destruct Hs as [v' Hv]. rewrite map_size_insert_Some; [done|].
    exists v'. by apply map_lookup_filter_Some_2.
  - rewrite map_size_insert_None; [done|]. apply map_lookup_filter_None_2. left.
    by apply eq_None_not_Some.
Qed.

(** ** What a passed guard means *)
Section guard_facts.
Context `{UuidText} `{CheckpointJson}.

Lemma guard_validate_Ok limit req m :
  guard_validate limit req m = Ok tt →
  identity_validate (ca_table req) (ca_table_uuid req) (ca_identity req) = Ok tt ∧
  im_uuid m = ca_table_uuid req ∧
  ∃ n own, validate_writer_checkpoints (ca_table req) (im_properties m) = Ok n ∧
    parse_writer_checkpoint (ca_table req) (im_properties m) (id_writer_id (ca_identity req)) = Ok own ∧
    (is_Some (im_properties m !! writer_checkpoint_key (id_writer_id (ca_identity req))) ∨ (N.of_nat n < limit)%N) ∧
    ∀ c, own = Some c → (ck_epoch c ≤ id_writer_epoch (ca_identity req))%N ∧
      (ck_generation c < gr_lo (id_generations (ca_identity req)))%N.
Proof.
  unfold guard_validate. intros Hg.
  apply bind_Ok in Hg as ([] & Hid%map_err_Ok & Hg). apply bind_Ok in Hg as (? & Hu%reject_if_Ok & Hg).
  apply bind_Ok in Hg as (n & Hn%map_err_Ok & Hg). apply bind_Ok in Hg as (own & Hown%map_err_Ok & Hg).
  apply bind_Ok in Hg as (es & _ & Hg). apply bind_Ok in Hg as (ec & _ & Hg).
  apply bind_Ok in Hg as (? & _ & Hg). apply bind_Ok in Hg as (? & Hfull%reject_if_Ok & Hg).
  split; [done|]. apply negb_false_iff, N.eqb_eq in Hu. split; [done|].
  exists n, own. split_and!; [done|done| |].
  - apply andb_false_iff in Hfull as [Hp|Hl]; [left|right].
    + by apply negb_false_iff, bool_decide_eq_true in Hp.
    + by apply N.leb_gt in Hl.
  - intros c ->. apply bind_Ok in Hg as (? & ?%reject_if_Ok & ?%reject_if_Ok). inv_checks. done.
Qed.

Lemma extend_carries m kvs :
  NoDup kvs.*1 → Forall (λ kv, extend m kvs !! kv.1 = Some kv.2) kvs.
Proof.
  revert m. induction kvs as [|[k v] kvs IH]; intros m Hnd; [by apply Forall_nil|].
  apply NoDup_cons in Hnd as [Hk Hnd]. apply Forall_cons. split; [|by apply IH].
  change (extend m ((k, v) :: kvs)) with (extend (<[k := v]> m) kvs).
  assert (∀ m', m' !! k = Some v → extend m' kvs !! k = Some v) as Hkeep; [|apply Hkeep, lookup_insert_eq].
  clear -Hk. induction kvs as [|[k' v'] kvs IH]; intros m' Hm; [done|].
  change (extend m' ((k', v') :: kvs)) with (extend (<[k' := v']> m') kvs).
  apply IH; [intros ?; apply Hk; by right|]. rewrite lookup_insert_ne; [done|]. intros ->. apply Hk. by left.
Qed.

Lemma extend_other m kvs k : k ∉ kvs.*1 → extend m kvs !! k = m !! k.
Proof.
  revert m. induction kvs as [|[k' v'] kvs IH]; intros m Hk; [done|].
  change (extend m ((k', v') :: kvs)) with (extend (<[k' := v']> m) kvs).
  rewrite IH by (intros ?; apply Hk; by right). rewrite lookup_insert_ne; [done|]. intros ->. apply Hk. by left.
Qed.

Lemma snapshot_properties_carries v req ps :
  snapshot_properties v req = Ok ps →
  carries ps (append_snapshot_identity_properties (ca_table_uuid req) (ca_identity req)).
Proof.
  intros Hps. assert (ps = extend (extend (ca_properties req)
    (append_snapshot_identity_properties (ca_table_uuid req) (ca_identity req)))
    [(ENGINE_NAME, "teodb"); (ENGINE_VERSION, v)]) as ->.
  { unfold snapshot_properties in Hps. case_match; [done|]. by injection Hps. }
  clear Hps. set (kvs := append_snapshot_identity_properties _ _).
  assert (NoDup kvs.*1) as Hnd by (simpl; apply (bool_decide_unpack _); by vm_compute).
  pose proof (extend_carries (ca_properties req) kvs Hnd) as Hc. unfold carries.
  apply Forall_forall. intros [k x] Hin. rewrite Forall_forall in Hc. cbn [fst snd].
  rewrite extend_other; [by apply (Hc (k, x))|].
  assert (k ∈ kvs.*1) as Hk by (apply list_elem_of_fmap; by exists (k, x)).
  assert (∀ k', k' ∈ kvs.*1 → k' ≠ ENGINE_NAME ∧ k' ≠ ENGINE_VERSION) as Hne.
  { apply Forall_forall. simpl. repeat (apply Forall_cons; split); [done..|by apply Forall_nil]. }
  destruct (Hne k Hk). simpl. rewrite !elem_of_cons, elem_of_nil. naive_solver.
Qed.

Lemma checkpoint_property_Ok now_ms req cp :
  checkpoint_property (Some now_ms) req = Ok cp →
  (now_ms ≤ i64_max)%Z ∧ cp = (writer_checkpoint_key (id_writer_id (ca_identity req)),
    checkpoint_to_json (WriterCheckpoint_new (id_writer_epoch (ca_identity req))
      (gr_hi (id_generations (ca_identity req))) (id_commit_id (ca_identity req)) now_ms)).
Proof.
  unfold checkpoint_property, checkpoint_encode. simpl. destruct (Z.ltb_spec i64_max now_ms); simpl; [done|].
  by intros [= <-].
Qed.

Lemma parse_writer_checkpoint_Some t ps w v c :
  ps !! writer_checkpoint_key w = Some v → checkpoint_decode t v = Ok c →
  parse_writer_checkpoint t ps w = Ok (Some c).
Proof. intros Hv Hc. unfold parse_writer_checkpoint. rewrite Hv. simpl. by rewrite Hc. Qed.
Lemma parse_writer_checkpoint_None t ps w :
  ps !! writer_checkpoint_key w = None → parse_writer_checkpoint t ps w = Ok None.
Proof. intros Hv. unfold parse_writer_checkpoint. by rewrite Hv. Qed.
End guard_facts.

(** ** The invariant *)
Section invariant.
Context `{UuidTextLaws} `{CheckpointJsonLaws} `{CatalogServerLaws}.
Context (pkg_version : string) (limit : N) (identity_of : Uuid → AppendCommitIdentity).

Definition checkpoint_of (i : AppendCommitIdentity) (c : WriterCheckpoint) : Prop :=
  ck_epoch c = id_writer_epoch i ∧ ck_generation c = gr_hi (id_generations i) ∧
  ck_commit_id c = id_commit_id i.

(** The registry holds exactly the last publication of every writer. *)
Definition registry_reflects (ps : gmap string string) (h : list AppendCommitIdentity) : Prop :=
  ∀ w, match last_of w h with
       | None => ps !! writer_checkpoint_key w = None
       | Some i => ∃ v, ps !! writer_checkpoint_key w = Some v ∧
                     ∃ c, checkpoint_of i c ∧ ∀ t, checkpoint_decode t v = Ok c
       end.

Definition identity_fine (i : AppendCommitIdentity) : Prop :=
  id_writer_id i ≠ 0%N ∧ (gr_lo (id_generations i) ≤ gr_hi (id_generations i))%N ∧
  i = identity_of (id_commit_id i).

Record cat_inv (s : CatState) : Prop := {
  ci_registry : registry_reflects (im_properties (cs_meta s)) (cs_history s);
  ci_keys k : is_registry_key k = true → is_Some (im_properties (cs_meta s) !! k) →
    ∃ w, k = writer_checkpoint_key w ∧ w ≠ 0%N;
  ci_limit : (N.of_nat (writer_checkpoint_count (im_properties (cs_meta s))) ≤ limit)%N;
  ci_attempts req base : (req, base) ∈ cs_attempts s →
    guard_validate limit req base = Ok tt ∧ identity_typed (ca_identity req) ∧
    ca_identity req = identity_of (id_commit_id (ca_identity req)) ∧
    im_current base ∈ cs_ids s ∧
    (im_current base = im_current (cs_meta s) →
       same_registry (im_properties base) (im_properties (cs_meta s)));
  ci_current : im_current (cs_meta s) ∈ cs_ids s;
  ci_snapshots sn : sn ∈ im_snapshots (cs_meta s) →
    sn.2 !! COMMIT_ID_PROPERTY = None ∨
    ∃ i, i ∈ cs_history s ∧ carries sn.2 (append_snapshot_identity_properties (im_uuid (cs_meta s)) i);
  ci_chained : chained (cs_history s);
  ci_fine i : i ∈ cs_history s → identity_fine i;
}.

Lemma cat_inv_init s : cat_initial s → cat_inv s.
Proof.
  intros (Hreg & Hsn & Hids & Hh & Hat).
  assert (∀ k, is_registry_key k = true → ¬ is_Some (im_properties (cs_meta s) !! k)) as Hno.
  { intros k Hk [v Hv]. by rewrite Hreg in Hv. }
  split; rewrite ?Hids, ?Hh, ?Hat.
  - intros w. simpl. apply Hreg, is_registry_key_writer.
  - intros k Hk Hs. by destruct (Hno k Hk).
  - rewrite writer_checkpoint_count_size.
    replace (registry_map (im_properties (cs_meta s))) with (∅ : gmap string string); [rewrite map_size_empty; lia|].
    symmetry. apply map_empty. intros k. apply map_lookup_filter_None_2. destruct (is_registry_key k) eqn:Hk.
    + left. by apply Hreg.
    + right. intros v _. simpl. by rewrite Hk.
  - by intros ? ? ?%elem_of_nil.
  - by apply list_elem_of_singleton.
  - intros sn Hin. left. by apply Hsn.
  - constructor.
  - by intros ? ?%elem_of_nil.
Qed.

(** What the guard checked still holds when the update is accepted. *)
Lemma publish_facts s req base :
  cat_inv s → (req, base) ∈ cs_attempts s → im_current base = im_current (cs_meta s) →
  im_uuid base = im_uuid (cs_meta s) →
  identity_fine (ca_identity req) ∧ ca_table_uuid req = im_uuid (cs_meta s) ∧
  identity_typed (ca_identity req) ∧ id_writer_epoch (ca_identity req) ≠ 0%N ∧
  id_commit_id (ca_identity req) ≠ 0%N ∧ (1 ≤ gr_lo (id_generations (ca_identity req)))%N ∧
  Forall (λ i, follows i (ca_identity req)) (cs_history s) ∧
  (is_Some (im_properties (cs_meta s) !! writer_checkpoint_key (id_writer_id (ca_identity req))) ∨
   (N.of_nat (writer_checkpoint_count (im_properties (cs_meta s))) < limit)%N).
Proof.
  intros Hinv Hat Hcur Huuid. destruct (ci_attempts s Hinv req base Hat) as (Hg & Hty & Hio & _ & Hsame).
  specialize (Hsame Hcur). apply guard_validate_Ok in Hg as (Hid & Hu & n & own & Hn & Hown & Hlim & Hck).
  apply identity_validate_Ok in Hid as (_ & Hw & He & Hc & Hr). unfold identity_fine.
  split_and!; try done; try apply Hty; try lia; try congruence.
  - apply Forall_forall. intros i Hi Hwi.
    destruct (last_of_bound (id_writer_id (ca_identity req)) (cs_history s) i) as (l & Hl & Hle & Hlg);
      [apply Hinv|intros j Hj; by apply (ci_fine s Hinv)|done|done|].
    pose proof (ci_registry s Hinv (id_writer_id (ca_identity req))) as Href. rewrite Hl in Href.
    destruct Href as (v & Hv & c & (Hce & Hcg & _) & Hdec).
    rewrite <-Hsame in Hv by apply is_registry_key_writer.
    rewrite (parse_writer_checkpoint_Some _ _ _ _ _ Hv (Hdec _)) in Hown. injection Hown as <-.
    destruct (Hck c eq_refl). lia.
  - apply validate_writer_checkpoints_Ok in Hn as [-> _].
    rewrite <-(Hsame _ (is_registry_key_writer _)), <-(same_registry_count _ _ Hsame). done.
Qed.

Lemma cat_inv_publish s req base ps cp now_ms new :
  cat_inv s → (req, base) ∈ cs_attempts s → snapshot_properties pkg_version req = Ok ps →
  checkpoint_property (Some now_ms) req = Ok cp → (0 ≤ now_ms)%Z →
  publish (cs_meta s) base ps cp = Some new → im_current new ∉ cs_ids s →
  cat_inv (mkCatState new (im_current new :: cs_ids s) (cs_history s ++ [ca_identity req]) (cs_attempts s)).
Proof.
  intros Hinv Hat Hps Hcp Hnow Hpub Hfresh. set (i := ca_identity req).
  destruct (publish_cas _ _ _ _ _ Hpub) as [Huu Hcc]. destruct (publish_properties _ _ _ _ _ Hpub) as [Hu Hpr].
  destruct (publish_snapshot _ _ _ _ _ Hpub) as (sid & summary & Hsn & Hcur & Hsum).
  destruct (publish_facts s req base Hinv Hat (eq_sym Hcc) (eq_sym Huu))
    as (Hfine & Htu & Hty & He & Hc & Hlo & Hfol & Hlim). fold i in Hfine, Hty, He, Hc, Hlo, Hfol, Hlim.
  apply checkpoint_property_Ok in Hcp as [Hmax ->]. fold i in Hpr. cbn [fst snd] in Hpr.
  set (c := WriterCheckpoint_new (id_writer_epoch i) (gr_hi (id_generations i)) (id_commit_id i) now_ms) in *.
  assert (∀ t, checkpoint_decode t (checkpoint_to_json c) = Ok c) as Hdec.
  { intros t. destruct Hty as (? & ? & ?), Hfine as (? & ? & _). apply checkpoint_roundtrip.
    - unfold checkpoint_in_range, c, WRITE_PROTOCOL_VERSION, i64_min in *. simpl. unfold WRITE_PROTOCOL_VERSION.
      split_and!; lia.
    - unfold checkpoint_valid, c. simpl. split_and!; try done. lia. }
  split; cbn [cs_meta cs_ids cs_history cs_attempts]; rewrite ?Hpr, ?Hu.
  - intros w. rewrite last_of_snoc. case_decide as Hw.
    + subst w. exists (checkpoint_to_json c). rewrite lookup_insert_eq. split; [done|]. by exists c.
    + pose proof (ci_registry s Hinv w) as Href.
      rewrite lookup_insert_ne by (intros Heq%writer_checkpoint_key_inj; congruence). done.
  - intros k Hk [v [[<- _]|[_ Hv]]%lookup_insert_Some]; [by exists (id_writer_id i); destruct Hfine|].
    apply (ci_keys s Hinv k Hk). eauto.
  - rewrite registry_count_insert by apply is_registry_key_writer. pose proof (ci_limit s Hinv).
    case_decide; [done|]. destruct Hlim as [?|?]; [done|lia].
  - intros r b Hin. destruct (ci_attempts s Hinv r b Hin) as (? & ? & ? & Hid & _).
    split_and!; try done; [by right|]. intros Heq. by rewrite Heq in Hid.
  - by left.
  - intros sn. rewrite Hsn. intros [Hin| ->%list_elem_of_singleton]%elem_of_app.
    + destruct (ci_snapshots s Hinv sn Hin) as [?|(j & Hj & Hcar)]; [by left|right].
      exists j. split; [|done]. apply elem_of_app. by left.
    + right. exists i. split; [apply elem_of_app; right; by apply list_elem_of_singleton|].
      rewrite <-Htu. eapply Forall_impl; [apply (snapshot_properties_carries _ _ _ Hps)|].
      intros [k v] Hk. by apply Hsum.
  - apply StronglySorted_snoc. split; [apply Hinv|done].
  - intros j [Hj| ->%list_elem_of_singleton]%elem_of_app; [by apply Hinv|done].
Qed.

Lemma cat_inv_other s new :
  cat_inv s → other_change s new →
  cat_inv (mkCatState new (im_current new :: cs_ids s) (cs_history s) (cs_attempts s)).
Proof.
  intros Hinv (Hu & Hreg & Hsn & Hcur).
  assert (same_registry (im_properties (cs_meta s)) (im_properties new)) as Hsame
    by (intros k Hk; by rewrite Hreg).
  split; cbn [cs_meta cs_ids cs_history cs_attempts]; rewrite ?Hu.
  - intros w. rewrite Hreg by apply is_registry_key_writer. apply (ci_registry s Hinv w).
  - intros k Hk. rewrite Hreg by done. by apply Hinv.
  - rewrite <-(same_registry_count _ _ Hsame). apply Hinv.
  - intros r b Hin. destruct (ci_attempts s Hinv r b Hin) as (? & ? & ? & Hid & Hsr).
    split_and!; try done; [by right|]. intros Heq k Hk. rewrite Hreg by done. apply Hsr; [|done].
    destruct Hcur as [Hcur|Hcur]; [congruence|]. by rewrite Heq in Hid.
  - by left.
  - intros sn Hin. destruct (Hsn sn Hin) as [Hold|]; [|by left]. by apply Hinv.
  - apply Hinv.
  - apply Hinv.
Qed.

Lemma cat_reach_inv s : cat_reach pkg_version limit identity_of s → cat_inv s.
Proof.
  induction 1 as [s Hi|s s' _ IH Hstep]; [by apply cat_inv_init|].
  destruct Hstep as [req Hty Hio Hg|req base ps cp now_ms new Hat Hps Hcp Hnow Hpub Hfresh|new Hoth].
  - split; simpl; try apply IH. intros r b [[= -> ->]|Hin]%elem_of_cons; [|by apply IH].
    split_and!; try done. apply IH.
  - by eapply cat_inv_publish.
  - by apply cat_inv_other.
Qed.

(** Reachable metadata passes the registry checks. *)
Lemma reach_registry_valid s t :
  cat_inv s → validate_writer_checkpoints t (im_properties (cs_meta s)) =
    Ok (writer_checkpoint_count (im_properties (cs_meta s))).
Proof.
  intros Hinv. apply validate_writer_checkpoints_Ok. split; [done|]. intros k v Hv Hk.
  destruct (ci_keys s Hinv k Hk (mk_is_Some _ _ Hv)) as (w & -> & Hw).
  pose proof (ci_registry s Hinv w) as Href. destruct (last_of w (cs_history s)) as [i|]; [|congruence].
  destruct Href as (v' & Hv' & c & _ & Hdec). rewrite Hv in Hv'. injection Hv' as <-. by exists w, c.
Qed.

Lemma reach_own_checkpoint s t w :
  cat_inv s → match last_of w (cs_history s) with
  | Some i => ∃ c, checkpoint_of i c ∧ parse_writer_checkpoint t (im_properties (cs_meta s)) w = Ok (Some c) ∧
                is_Some (im_properties (cs_meta s) !! writer_checkpoint_key w)
  | None => parse_writer_checkpoint t (im_properties (cs_meta s)) w = Ok None
  end.
Proof.
  intros Hinv. pose proof (ci_registry s Hinv w) as Href. destruct (last_of w (cs_history s)) as [i|].
  - destruct Href as (v & Hv & c & Hc & Hdec). exists c. split_and!; [done| |eauto].
    by eapply parse_writer_checkpoint_Some.
  - by apply parse_writer_checkpoint_None.
Qed.

Definition snapshot_of (i : AppendCommitIdentity) (u : Uuid) (sn : SnapshotId * gmap string string) : Prop :=
  carries sn.2 (append_snapshot_identity_properties u i).

(** Matching a request against reachable snapshots never reports corruption, and finds
    exactly the snapshot of its own publication. *)
Lemma reach_snapshots_match s req :
  cat_inv s → ca_table_uuid req = im_uuid (cs_meta s) →
  ca_identity req = identity_of (id_commit_id (ca_identity req)) →
  ∃ b, snapshots_match req (im_snapshots (cs_meta s)) = Ok b ∧
    (b = true ↔ ∃ sn, sn ∈ im_snapshots (cs_meta s) ∧ snapshot_of (ca_identity req) (im_uuid (cs_meta s)) sn) ∧
    (b = true → ca_identity req ∈ cs_history s).
Proof.
  intros Hinv Hu Hio. set (i := ca_identity req) in *.
  assert (∀ sn, sn ∈ im_snapshots (cs_meta s) →
    ∃ b, snapshot_matches_append_identity (ca_table req) (ca_table_uuid req) i sn.2 = Ok b ∧
      (b = true ↔ snapshot_of i (im_uuid (cs_meta s)) sn) ∧ (b = true → i ∈ cs_history s)) as Hone.
  { intros sn Hin. destruct (ci_snapshots s Hinv sn Hin) as [Hnone|(j & Hj & Hcar)].
    - exists false. split_and!; [apply snapshot_matches_Ok_false; by rewrite Hnone| |done].
      split; [done|]. intros Hc. unfold snapshot_of, carries in Hc. apply Forall_cons in Hc as [Hc _].
      simpl in Hc. by rewrite Hnone in Hc.
    - destruct (decide (id_commit_id i = id_commit_id j)) as [Hc|Hc].
      + assert (j = i) as -> by (rewrite Hio, Hc; by apply (ci_fine s Hinv)).
        exists true. rewrite Hu. split_and!; try done. by apply snapshot_matches_Ok_true.
      + exists false. split_and!; [| |done].
        * apply snapshot_matches_Ok_false. apply Forall_cons in Hcar as [Hcar _]. simpl in Hcar. rewrite Hcar.
          intros [= ?%uuid_to_string_inj]. congruence.
        * split; [done|]. intros Hc'. destruct Hc.
          destruct (identity_properties_inj sn.2 _ _ _ _ Hc' Hcar) as [_ ->]. done. }
  unfold snapshots_match. fold i.
  assert (∀ b0, ∃ b, foldM (λ found snapshot,
      m ← snapshot_matches_append_identity (ca_table req) (ca_table_uuid req) i snapshot.2; Ok (found || m))
      b0 (im_snapshots (cs_meta s)) = Ok b ∧
    (b = true ↔ b0 = true ∨ ∃ sn, sn ∈ im_snapshots (cs_meta s) ∧ snapshot_of i (im_uuid (cs_meta s)) sn) ∧
    (b = true → b0 = true ∨ i ∈ cs_history s)) as Hfold.
  { revert Hone. induction (im_snapshots (cs_meta s)) as [|sn l IH]; intros Hone b0.
    { exists b0. split_and!; [done| |tauto]. split; [tauto|]. intros [?|(sn & ?%elem_of_nil & _)]; done. }
    destruct (Hone sn) as (b & Hb & Hiff & Hh); [by left|]. simpl. rewrite Hb. simpl.
    destruct (IH (λ sn' Hin, Hone sn' ltac:(by right)) (b0 || b)) as (b' & -> & Hiff' & Hh').
    exists b'. setoid_rewrite elem_of_cons. destruct b0, b; simpl in *; naive_solver. }
  destruct (Hfold false) as (b & Hb & Hiff & Hh). exists b. split_and!; [done| |naive_solver].
  rewrite Hiff. naive_solver.
Qed.

Lemma found_in_checkpoint_true i c :
  checkpoint_of i c → found_in_checkpoint i (Some c) = true.
Proof. intros (He & Hg & Hc). simpl. by rewrite He, Hg, Hc, !N.eqb_refl. Qed.
End invariant.

Lemma StronglySorted_lookup_lt {A} (R : A → A → Prop) l n m x y :
  StronglySorted R l → l !! n = Some x → l !! m = Some y → n < m → R x y.
Proof.
  intros Hs. revert n m. induction Hs as [|z l Hs IH Hall]; intros n m Hn Hm Hlt; [done|].
  destruct m as [|m]; [lia|]. destruct n as [|n]; simpl in *.
  - injection Hn as <-. rewrite Forall_forall in Hall. apply Hall. by eapply list_elem_of_lookup_2.
  - apply (IH n m); [done|done|lia].
Qed.

(** ** A concrete catalog, for evaluation *)
Definition demo_server : CatalogServer := {|
  publish cur base ps cp :=
    if (im_uuid cur =? im_uuid base)%N && bool_decide (im_current cur = im_current base) then
      let sid := Z.of_nat (S (length (im_snapshots cur))) in
      Some (mkIceMeta (im_uuid cur) (<[cp.1 := cp.2]> (im_properties cur))
              (im_snapshots cur ++ [(sid, ps)]) (Some sid) (im_spec_ids cur))
    else None |}.
Lemma demo_server_laws : @CatalogServerLaws demo_server.
Proof.
  constructor; intros cur base ps cp new; simpl; destruct (_ && _) eqn:Hc; try done; intros [= <-]; simpl.
  - apply andb_true_iff in Hc as [?%N.eqb_eq ?%bool_decide_eq_true]. done.
  - done.
  - eexists _, ps. split_and!; [done|done|]. done.
Qed.

Definition demo_ice : IceMeta := mkIceMeta 5 ∅ [] None [0%Z].
Definition demo_request : CommitAppend := mkCommitAppend demo_table 5 demo_identity None [] ∅.
Definition demo_identity_of (c : Uuid) : AppendCommitIdentity := demo_identity.
Definition demo_ps : gmap string string :=
  extend (extend ∅ (@append_snapshot_identity_properties demo_uuid_text 5 demo_identity))
    [(ENGINE_NAME, "teodb"); (ENGINE_VERSION, "0.1.0")].
Definition demo_cp : string * string := Eval vm_compute in
  match @checkpoint_property demo_uuid_text demo_checkpoint_json (Some 1700000000000%Z) demo_request with
  | Ok cp => cp | Err _ => ("", "") end.
Definition demo_published : IceMeta :=
  mkIceMeta 5 (<[demo_cp.1 := demo_cp.2]> ∅) [(1%Z, demo_ps)] (Some 1%Z) [0%Z].
Definition demo_cat : CatState :=
  mkCatState demo_published [im_current demo_published; None] [demo_identity] [(demo_request, demo_ice)].

Lemma demo_cat_reach :
  @cat_reach demo_uuid_text demo_checkpoint_json demo_server "0.1.0" 32 demo_identity_of demo_cat.
Proof.
  eapply cat_reach_step; [eapply cat_reach_step; [apply (cat_reach_init _ _ _ (mkCatState demo_ice [None] [] []))|]|].
  - repeat split; simpl; try (intros k _; apply lookup_empty). by intros sn ?%elem_of_nil.
  - apply (step_load _ _ _ _ demo_request); [|done|vm_compute; reflexivity].
    unfold identity_typed, u64_max, u128_max. simpl. split_and!; lia.
  - pose proof (@step_publish demo_uuid_text demo_checkpoint_json demo_server "0.1.0" 32 demo_identity_of
      (mkCatState demo_ice [None] [] [(demo_request, demo_ice)]) demo_request demo_ice demo_ps demo_cp
      1700000000000 demo_published) as Hs.
    apply Hs; simpl.
    + by left.
    + reflexivity.
    + vm_compute. reflexivity.
    + lia.
    + reflexivity.
    + intros Hin%list_elem_of_singleton. discriminate Hin.
Qed.

(** ** Theorems *)

(** C1.  Concurrent appends are exactly-once per generation: however requests of many
    writers are validated, delayed, retried and interleaved with other changes of the
    table, the publications of each writer have non-decreasing epochs and strictly
    increasing, disjoint generation ranges, so no generation of a writer is published
    twice; the registry holds precisely every writer's last publication and never more
    writers than the limit. *)
Theorem append_history_safe `{UuidTextLaws} `{CheckpointJsonLaws} `{CatalogServerLaws}
    (pkg_version : string) (limit : N) (identity_of : Uuid → AppendCommitIdentity) (s : CatState)
    (Hreach : cat_reach pkg_version limit identity_of s) :
  (∀ n m i j, cs_history s !! n = Some i → cs_history s !! m = Some j → n < m →
     id_writer_id i = id_writer_id j →
     (id_writer_epoch i ≤ id_writer_epoch j)%N ∧
     (gr_hi (id_generations i) < gr_lo (id_generations j))%N) ∧
  (∀ n m i j g, cs_history s !! n = Some i → cs_history s !! m = Some j →
     id_writer_id i = id_writer_id j →
     gr_contains (id_generations i) g = true → gr_contains (id_generations j) g = true → n = m) ∧
  registry_reflects (im_properties (cs_meta s)) (cs_history s) ∧
  (N.of_nat (writer_checkpoint_count (im_properties (cs_meta s))) ≤ limit)%N.
Proof.
  pose proof (cat_reach_inv _ _ _ _ Hreach) as Hinv.
  assert (∀ n m i j, cs_history s !! n = Some i → cs_history s !! m = Some j → n < m → follows i j) as Hch
    by (intros; by eapply StronglySorted_lookup_lt; [apply (ci_chained _ _ s Hinv)|..]).
  split_and!; [exact Hch| |apply Hinv|apply Hinv].
  intros n m i j g Hn Hm Hw [Hil Hih]%andb_true_iff [Hjl Hjh]%andb_true_iff.
  apply N.leb_le in Hil, Hih, Hjl, Hjh. destruct (lt_eq_lt_dec n m) as [[Hlt|Heq]|Hlt]; [|done|].
  - destruct (Hch n m i j Hn Hm Hlt Hw). lia.
  - destruct (Hch m n j i Hm Hn Hlt (eq_sym Hw)). lia.
Qed.

Lemma append_history_safe_witness :
  (N.of_nat (writer_checkpoint_count (im_properties (cs_meta demo_cat))) ≤ 32)%N.
Proof.
  refine (proj2 (proj2 (proj2 (@append_history_safe demo_uuid_text demo_uuid_text_laws demo_checkpoint_json
    demo_checkpoint_json_laws demo_server demo_server_laws "0.1.0" 32 demo_identity_of demo_cat demo_cat_reach)))).
Defined.

(** Retrying a published append is harmless: in every reachable state of the table,
    a request whose identity is the last publication of its writer is recognised by the
    guard as already committed, whatever other writers did since and even if its snapshot
    has expired, so committing it again publishes nothing and reports success with the
    table's metadata. *)
Theorem append_retry_idempotent `{UuidTextLaws} `{CheckpointJsonLaws} `{CatalogServerLaws}
    {IceFile : Type} (convert : DataFile → TeoDBResult IceFile)
    (pkg_version : string) (limit : N) (identity_of : Uuid → AppendCommitIdentity) (s : CatState)
    (req : CommitAppend) (now_ms : option Z) (bootstrap : IceMeta) (tx : AppendTx) (exhausted : IceError)
    (reply : UpdateReply) (rest : list (result IceError IceMeta * UpdateReply))
    (Hreach : cat_reach pkg_version limit identity_of s)
    (Huuid : ca_table_uuid req = im_uuid (cs_meta s))
    (Hvalid : identity_validate (ca_table req) (ca_table_uuid req) (ca_identity req) = Ok tt)
    (Hlast : last_of (id_writer_id (ca_identity req)) (cs_history s) = Some (ca_identity req))
    (Hbuild : build_append_transaction pkg_version convert now_ms req bootstrap = Ok tx) :
  guard_validate limit req (cs_meta s) = Err (AlreadyCommitted (cs_meta s)) ∧
  try_commit_append pkg_version convert limit now_ms req (Ok bootstrap) exhausted
    ((Ok (cs_meta s), reply) :: rest) = Ok (cs_meta s).
Proof.
  pose proof (cat_reach_inv _ _ _ _ Hreach) as Hinv.
  assert (guard_validate limit req (cs_meta s) = Err (AlreadyCommitted (cs_meta s))) as Hg.
  { destruct (last_of_elem _ _ _ Hlast) as [Hin _].
    destruct (reach_snapshots_match limit identity_of s req Hinv Huuid) as (b & Hb & _);
      [by apply (ci_fine _ _ s Hinv)|].
    pose proof (reach_own_checkpoint limit identity_of s (ca_table req) (id_writer_id (ca_identity req)) Hinv) as Hown.
    rewrite Hlast in Hown. destruct Hown as (c & (Hce & Hcg & Hcc) & Hparse & _).
    unfold guard_validate. rewrite Hvalid. cbn [map_err mbind result_bind].
    rewrite Huuid, N.eqb_refl. cbn [negb reject_if mbind result_bind].
    rewrite (reach_registry_valid limit identity_of s _ Hinv). cbn [map_err mbind result_bind].
    rewrite Hparse, Hb. cbn [map_err mbind result_bind]. unfold exact_checkpoint.
    rewrite Hce, Hcg, Hcc, !N.eqb_refl. cbn [negb orb mbind result_bind]. by rewrite orb_true_r. }
  split; [done|]. unfold try_commit_append. cbn [map_err mbind result_bind]. rewrite Hbuild.
  cbn [mbind result_bind run_transaction guard_load_table]. by rewrite Hg.
Qed.

Lemma append_retry_idempotent_witness :
  @try_commit_append demo_uuid_text demo_checkpoint_json "0.1.0" DataFile Ok 32 (Some 1700000000001%Z) demo_request
    (Ok demo_published) guard_error [(Ok demo_published, UpdateRetry)] = Ok demo_published.
Proof.
  refine (proj2 (@append_retry_idempotent demo_uuid_text demo_uuid_text_laws demo_checkpoint_json
    demo_checkpoint_json_laws demo_server demo_server_laws DataFile Ok "0.1.0" 32 demo_identity_of demo_cat
    demo_request (Some 1700000000001%Z) demo_published _ guard_error UpdateRetry [] demo_cat_reach eq_refl _ _ _));
    vm_compute; reflexivity.
Defined.

(**  Status resolution is exact on reachable metadata: for a well-formed request of
    this table incarnation it answers "committed" when the request is its writer's last
    publication or its snapshot is still retained, and "not committed" when it was never
    published; it never reports corruption. *)
Theorem append_status_exact `{UuidTextLaws} `{CheckpointJsonLaws} `{CatalogServerLaws}
    (pkg_version : string) (limit : N) (identity_of : Uuid → AppendCommitIdentity) (s : CatState)
    (req : CommitAppend)
    (Hreach : cat_reach pkg_version limit identity_of s)
    (Huuid : ca_table_uuid req = im_uuid (cs_meta s))
    (Hvalid : identity_validate (ca_table req) (ca_table_uuid req) (ca_identity req) = Ok tt)
    (Hid : ca_identity req = identity_of (id_commit_id (ca_identity req))) :
  (last_of (id_writer_id (ca_identity req)) (cs_history s) = Some (ca_identity req) ∨
   (∃ sn, sn ∈ im_snapshots (cs_meta s) ∧ snapshot_of (ca_identity req) (im_uuid (cs_meta s)) sn) →
   resolve_append_status req (Ok (cs_meta s)) = Ok (StCommitted (cs_meta s))) ∧
  (ca_identity req ∉ cs_history s → resolve_append_status req (Ok (cs_meta s)) = Ok StNotCommitted).
Proof.
  pose proof (cat_reach_inv _ _ _ _ Hreach) as Hinv.
  destruct (reach_snapshots_match limit identity_of s req Hinv Huuid Hid) as (b & Hb & Hiff & Hin).
  pose proof (reach_own_checkpoint limit identity_of s (ca_table req) (id_writer_id (ca_identity req)) Hinv) as Hown.
  unfold resolve_append_status. rewrite Hvalid. cbn [map_err mbind result_bind].
  rewrite Huuid, N.eqb_refl. cbn [negb reject_if mbind result_bind].
  rewrite Hb. cbn [mbind result_bind]. rewrite (reach_registry_valid limit identity_of s _ Hinv).
  cbn [mbind result_bind].
  destruct (last_of (id_writer_id (ca_identity req)) (cs_history s)) as [i|] eqn:Hlast.
  - destruct Hown as (c & Hc & -> & _). cbn [mbind result_bind].
    destruct (last_of_elem _ _ _ Hlast) as [Hi _].
    destruct (decide (i = ca_identity req)) as [->|Hne].
    + rewrite (found_in_checkpoint_true _ _ Hc). rewrite andb_false_r, orb_true_r. split; [done|by intros []].
    + destruct Hc as (_ & _ & Hcc).
      assert (id_commit_id i ≠ id_commit_id (ca_identity req)) as Hce.
      { intros Heq. apply Hne. rewrite Hid, <-Heq. by apply (ci_fine _ _ s Hinv). }
      unfold found_in_checkpoint. rewrite Hcc, (proj2 (N.eqb_neq _ _) Hce).
      cbn [andb reject_if mbind result_bind]. rewrite orb_false_r.
      split; [intros [[= ?]|Hsn]; [done|]; by rewrite (proj2 Hiff Hsn)|].
      intros Hnot. destruct b; [by destruct Hnot; apply Hin|done].
  - rewrite Hown. cbn [mbind result_bind found_in_checkpoint reject_if]. rewrite orb_false_r.
    split; [intros [?|Hsn]; [done|]; by rewrite (proj2 Hiff Hsn)|].
    intros Hnot. destruct b; [by destruct Hnot; apply Hin|done].
Qed.

Lemma append_status_exact_witness :
  @resolve_append_status demo_uuid_text demo_checkpoint_json demo_request (Ok demo_published)
  = Ok (StCommitted demo_published).
Proof.
  refine (proj1 (@append_status_exact demo_uuid_text demo_uuid_text_laws demo_checkpoint_json
    demo_checkpoint_json_laws demo_server demo_server_laws "0.1.0" 32 demo_identity_of demo_cat demo_request
    demo_cat_reach eq_refl _ eq_refl) _); [vm_compute; reflexivity|]. left. vm_compute. reflexivity.
Defined.
