(* ===== verification/Flush.v ===== *)
(** * The flush state machine

    Models [teodb-ingest/src/flush/mod.rs] and [flush/commit.rs]: one flush of a
    table from draining its buffer to the catalog commit, the resolution of an
    ambiguous commit and the recheck of a blocked one, over the buffer, the prepared
    directory, the WAL root and the committed checkpoint.  Replies of the catalog,
    the writing of data files, clock readings, I/O faults and the buffer operations
    other tasks run while this one awaits are arguments. *)

From S2P Require Import Prelude Core Location DataFiles WriteProtocol WalFrame WalReplay WalState WalGc.
From S2P Require Import Durable WalIdentity Prepared Buffer BufferSpec Catalog.
Open Scope nat_scope.
Open Scope list_scope.

Inductive FlushOutcome := FlushEmpty | FlushCommitted (gen_lo gen_hi record_count : N).

Record CommitStatusCheckConfig := mkStatusCheck {
  num_retries : N; min_wait : N; max_wait : N; total_timeout : N;
  blocked_recheck_interval : N; blocked_recheck_jitter_percent : N; max_concurrent_blocked_rechecks : N }.

(** What the validation of data files reads of schemas and partition specs, and the
    partition directory of a data file. *)
Class TableLayout (Schema Spec : Type) := {
  schema_id : Schema → Z;
  spec_id : Spec → Z;
  spec_unpartitioned : Spec → bool;
  iceberg_partition_path : Schema → Spec → gmap FieldId TeoScalar → TeoDBResult string;
}.

(** [trim_end_matches('/')]. *)
Definition trim_end_slashes (s : string) : string :=
  let fix drop (r : string) : string :=
    match r with String "/" r => drop r | _ => r end in
  str_rev (drop (str_rev s)).

Definition str_has_char (c : ascii) (s : string) : bool := negb (str_free c s).

(** [u64::from_le_bytes] of a big-endian eight-byte half of a UUID. *)
Fixpoint swap_bytes (k : nat) (n : N) : N :=
  match k with
  | O => 0
  | S k => (N.land n 255 * 2 ^ (8 * N.of_nat k) + swap_bytes k (N.shiftr n 8))%N
  end.
Definition commit_hash (commit_id : Uuid) : N :=
  N.lxor (swap_bytes 8 (N.shiftr commit_id 64)) (swap_bytes 8 (N.land commit_id u64_max)).

Definition i128_max : Z := 2 ^ 127 - 1.
Definition i128_min : Z := - 2 ^ 127.
Definition i128_clamp (z : Z) : Z := Z.max i128_min (Z.min i128_max z).

(** Durations are in nanoseconds. *)
Definition as_millis (d : N) : N := (d / 1000000)%N.
Definition from_millis (ms : N) : N := (ms * 1000000)%N.

Definition blocked_recheck_delay (base : N) (jitter_percent : N) (commit_id : Uuid) : N :=
  let percent := N.min jitter_percent 100 in
  if ((percent =? 0) || (base =? 0))%N then base
  else
    let signed_percent := (Z.of_N (commit_hash commit_id mod (percent * 2 + 1)) - Z.of_N percent)%Z in
    let base_ms := if (i128_max <? Z.of_N (as_millis base))%Z then i128_max else Z.of_N (as_millis base) in
    let jittered_ms := Z.max (i128_clamp (base_ms + Z.quot (i128_clamp (base_ms * signed_percent)) 100)) 0 in
    from_millis (if (Z.of_N u64_max <? jittered_ms)%Z then u64_max else Z.to_N jittered_ms).

Section flush.
Context {Batch Schema Spec Order : Type} `{!BatchOps Batch} `{!TableLayout Schema Spec}.
Context `{UuidText} `{IdentityJson} `{PreparedJson} `{CommittedJson} `{WalCodec}.
Context (max_prepared_files max_prepared_bytes : N) (status_check : CommitStatusCheckConfig).
Abbreviation Metadata := (TableMetadata Schema Spec Order).
Abbreviation Buf := (@TableBuffer Batch Schema Spec Order).
Abbreviation Op := (@BufOp Batch Schema Spec Order).

(** ** The state a flush works on *)
Record World := mkWorld {
  w_buf : Buf;
  w_prepared : option WalDir;
  w_root : WalDir;
  w_committed : gmap WalTableKey Generation;
  w_identity : ResolvedIdentity;
}.
Definition with_buf (w : World) (b : Buf) : World :=
  mkWorld b (w_prepared w) (w_root w) (w_committed w) (w_identity w).
Definition with_prepared (w : World) (d : option WalDir) : World :=
  mkWorld (w_buf w) d (w_root w) (w_committed w) (w_identity w).

(** The buffer operations other tasks run while this one awaits, given the buffer. *)
Definition others (sched : Buf → list (N * Op)) (w : World) : World :=
  with_buf w (foldl (λ b op, exec op.1 b op.2) (w_buf w) (sched (w_buf w))).

(** ** The WAL manager *)
Record PersistEnv := mkPersistEnv { pe_mkdir_fails : bool; pe_io : IoFaults; pe_suffix : Uuid }.

Definition wal_persist_prepared (pe : PersistEnv) (w : World) (p : PreparedFlush) : World * TeoDBResult unit :=
  let '(d, r) := persist_prepared (pe_mkdir_fails pe) (pe_io pe) (pe_suffix pe) (w_prepared w) p
                   (ri_writer_id (w_identity w)) max_prepared_files max_prepared_bytes in
  (with_prepared w d, r).

Definition wal_remove_prepared (fault : RemoveFault) (w : World) (table_uuid : Uuid) : World * TeoDBResult unit :=
  let '(d, r) := remove_prepared fault (w_prepared w) table_uuid in (with_prepared w d, r).

Definition wal_mark_committed (fails : PersistStep → bool) (torn : list byte) (w : World)
    (table : WalTableKey) (generation : Generation) : World :=
  let committed :=
    match w_committed w !! table with
    | Some g => <[table := N.max g generation]> (w_committed w)
    | None => <[table := generation]> (w_committed w)
    end in
  mkWorld (w_buf w) (w_prepared w) (persist_committed_checkpoint fails torn (w_root w) committed).1 committed
    (w_identity w).

Definition wal_gc (read_ok remove_ok : string → bool) (current_seq : N) (w : World) : World :=
  mkWorld (w_buf w) (w_prepared w) (collect_garbage read_ok remove_ok current_seq (w_committed w) (w_root w)).1
    (w_committed w) (w_identity w).

Definition wal_observe_epoch (io : IoFaults) (suffix : Uuid) (w : World) (observed : WriterEpoch) :
    World * TeoDBResult unit :=
  let '(root, identity, r) := observe_epoch_and_bump io suffix (w_root w) (w_identity w) observed in
  (mkWorld (w_buf w) (w_prepared w) root (w_committed w) identity,
   match r with Ok _ => Ok tt | Err e => Err e end).

(** ** Committing a prepared flush *)
Record CommitEnv := mkCommitEnv {
  ce_others : Buf → list (N * Op);
  ce_reply : TeoDBResult Metadata;
  ce_now : N;
  ce_now_ms : Z;
  ce_checkpoint_fails : PersistStep → bool;
  ce_torn : list byte;
  ce_remove : RemoveFault;
  ce_read_ok : string → bool;
  ce_remove_ok : string → bool;
  ce_current_seq : N;
  ce_epoch_io : IoFaults;
  ce_epoch_suffix : Uuid;
  ce_reload : TeoDBResult Metadata;
}.

Definition build_commit_request (p : PreparedFlush) : CommitAppend :=
  mkCommitAppend (pf_table p) (pf_table_uuid p)
    (mkAppendCommitIdentity (pf_writer_id p) (pf_writer_epoch p) (pf_commit_id p) (pf_generations p))
    (pf_base_snapshot_id p) (pf_data_files p) ∅.

Definition complete_flush (env : CommitEnv) (w : World) (p : PreparedFlush) (updated : Metadata) :
    World * TeoDBResult FlushOutcome :=
  match mark_committed (ce_now env) (w_buf w) (gr_hi (pf_generations p)) updated with
  | (b, Err e) => (with_buf w b, Err e)
  | (b, Ok _) =>
      let w := wal_mark_committed (ce_checkpoint_fails env) (ce_torn env) (with_buf w b)
                 (mkWalTableKey (pf_table_uuid p) (tb_ident b)) (gr_hi (pf_generations p)) in
      let '(w, _) := wal_remove_prepared (ce_remove env) w (pf_table_uuid p) in
      let w := wal_gc (ce_read_ok env) (ce_remove_ok env) (ce_current_seq env) w in
      (w, Ok (FlushCommitted (gr_lo (pf_generations p)) (gr_hi (pf_generations p)) (pf_record_count p)))
  end.

Definition refresh_after_conflict (env : CommitEnv) (w : World) : World :=
  match ce_reload env with
  | Ok fresh => with_buf w (set_metadata (w_buf w) fresh)
  | Err _ => w
  end.

(** Drop the sidecar, then hand the rows back. *)
Definition retire_intent (env : CommitEnv) (w : World) (p : PreparedFlush) : World * TeoDBResult unit :=
  match wal_remove_prepared (ce_remove env) w (pf_table_uuid p) with
  | (w, Err e) => (w, Err e)
  | (w, Ok _) => let '(b, r) := mark_flush_failed (w_buf w) p in (with_buf w b, r)
  end.

Definition commit_flush (env : CommitEnv) (w : World) (p : PreparedFlush) : World * TeoDBResult FlushOutcome :=
  let w := others (ce_others env) w in
  match ce_reply env with
  | Ok updated => complete_flush env w p updated
  | Err error =>
      match error with
      | CommitStateUnknown _ _ _ => (w, Err error)
      | ExternalRetryable _ => (w, Err error)
      | StaleWriterEpoch _ _ _ current_epoch =>
          match wal_observe_epoch (ce_epoch_io env) (ce_epoch_suffix env) w current_epoch with
          | (w, Err e) => (w, Err e)
          | (w, Ok _) =>
              match retire_intent env w p with
              | (w, Err e) => (w, Err e)
              | (w, Ok _) => (w, Err error)
              end
          end
      | WriterRegistryFull _ _ | MetadataCorruption _ _ | TableIncarnationMismatch _ _ _ | WriteProtocol _ _ =>
          match mark_flush_blocked_with_class (w_buf w) (ce_now_ms env) p "{error}" (code error) 1 with
          | (b, Err e) => (with_buf w b, Err e)
          | (b, Ok _) => (with_buf w b, Err error)
          end
      | _ =>
          match retire_intent env w p with
          | (w, Err e) => (w, Err e)
          | (w, Ok _) =>
              match error with
              | Conflict _ _ _ => (refresh_after_conflict env w, Err error)
              | _ => (w, Err error)
              end
          end
      end
  end.

(** ** Resolving an ambiguous commit *)
Record StatusEnv := mkStatusEnv {
  se_others : Buf → list (N * Op);
  se_status : TeoDBResult (CommitStatus Metadata);
  se_commit : CommitEnv;
  se_past_deadline : bool;
  se_now_ms : Z;
}.

Definition flush_blocked (w : World) (p : PreparedFlush) : TeoDBError :=
  FlushBlocked (tb_ident (w_buf w)) (pf_commit_id p).

(** The end of the loop: give up and block. *)
Definition block_unknown (now_ms : Z) (w : World) (p : PreparedFlush) (last_error : string) (attempts : N) :
    World * TeoDBResult FlushOutcome :=
  match mark_flush_blocked (w_buf w) now_ms p last_error attempts with
  | (b, Err e) => (with_buf w b, Err e)
  | (b, Ok _) => (with_buf w b, Err (flush_blocked w p))
  end.

Definition u32_saturating_succ (n : N) : N := N.min (n + 1) u32_max.
Definition u8_saturating_succ (n : N) : N := N.min (n + 1) 255.

(** One status check: the result of the flush, or the error text and the count of
    consecutive "not committed" answers to go on with. *)
Definition check_status (env : StatusEnv) (w : World) (p : PreparedFlush) (attempts consecutive : N)
    (last_error : string) : World * (TeoDBResult FlushOutcome + string * N) :=
  let w := others (se_others env) w in
  match se_status env with
  | Ok (StCommitted metadata) =>
      let '(w, r) := complete_flush (se_commit env) w p metadata in (w, inl r)
  | Ok StNotCommitted =>
      let consecutive := u8_saturating_succ consecutive in
      if (2 <=? consecutive)%N then
        match commit_flush (se_commit env) w p with
        | (w, Err (CommitStateUnknown _ _ message)) => (w, inr (message, 0%N))
        | (w, r) => (w, inl r)
        end
      else (w, inr ("exact commit not visible in authoritative metadata", consecutive))
  | Ok (StUnknown message) => (w, inr (message, 0%N))
  | Err error =>
      if negb (is_retryable error) then
        match mark_flush_blocked_with_class (w_buf w) (se_now_ms env) p "{error}" (code error) attempts with
        | (b, Err e) => (with_buf w b, inl (Err e))
        | (b, Ok _) => (with_buf w b, inl (Err error))
        end
      else (w, inr ("{error}", 0%N))
  end.

Fixpoint resolve_loop (fuel : nat) (envs : N → StatusEnv) (w : World) (p : PreparedFlush)
    (attempts consecutive : N) (last_error : string) : option (World * TeoDBResult FlushOutcome) :=
  match fuel with
  | O => None
  | S fuel =>
      let env := envs attempts in
      let attempts := u32_saturating_succ attempts in
      match check_status env w p attempts consecutive last_error with
      | (w, inl r) => Some (w, r)
      | (w, inr (last_error, consecutive)) =>
          if (num_retries status_check <? attempts)%N || se_past_deadline env then
            Some (block_unknown (se_now_ms env) w p last_error attempts)
          else resolve_loop fuel envs w p attempts consecutive last_error
      end
  end.

Definition resolve_unknown (fuel : nat) (envs : N → StatusEnv) (w : World) (p : PreparedFlush)
    (last_error : string) : option (World * TeoDBResult FlushOutcome) :=
  resolve_loop fuel envs w p 0 0 last_error.

(** ** Flushing *)
Definition commit_prepared (fuel : nat) (pe : PersistEnv) (ce : CommitEnv) (envs : N → StatusEnv) (w : World)
    (p : PreparedFlush) : option (World * TeoDBResult FlushOutcome) :=
  match wal_persist_prepared pe w p with
  | (w, Err e) => Some (w, Err e)
  | (w, Ok _) =>
      match commit_flush ce w p with
      | (w, Err (CommitStateUnknown _ _ message)) => resolve_unknown fuel envs w p message
      | other => Some other
      end
  end.

Definition validate_data_file_path (metadata : Metadata) (p : PreparedFlush) (f : DataFile) : TeoDBResult unit :=
  let table := mkTableIdent (tm_namespace metadata) (tm_table_name metadata) in
  let data_prefix := trim_end_slashes (key (tm_table_location metadata)) +:+ "/data/" in
  let commit_prefix := uuid_to_string (pf_commit_id p) +:+ "-" in
  let k := key (df_path f) in
  schema ← ok_or (head (filter (λ s, schema_id s = df_schema_id f) (tm_schemas metadata)))
             (WriteProtocol table "prepared data file references unknown schema {}");
  spec ← ok_or (head (filter (λ s, spec_id s = df_partition_spec_id f) (tm_partition_specs metadata)))
           (WriteProtocol table "prepared data file references unknown partition spec {}");
  prefix ← (if spec_unpartitioned spec then Ok (data_prefix +:+ uuid_to_string (pf_writer_id p) +:+ "/")
            else path ← iceberg_partition_path schema spec (df_partition_values f);
                 Ok (data_prefix +:+ path +:+ "/" +:+ uuid_to_string (pf_writer_id p) +:+ "/"));
  let relative_name := str_strip_prefix prefix k in
  reject_if
    (match relative_name with None => true | Some name => str_is_empty name || str_has_char "/" name end
     || str_starts_with "/" k
     || existsb (λ c, bool_decide (c = "..")) (str_split "/" k)
     || negb (bool_decide (scheme (df_path f) = scheme (tm_table_location metadata)))
     || negb (bool_decide (bucket (df_path f) = bucket (tm_table_location metadata)))
     || negb (bool_decide (df_content f = ContentData))
     || negb match relative_name with Some name => str_starts_with commit_prefix name | None => false end)
    (WriteProtocol table "data-file path '{key}' is not an exact member of commit {} under '{prefix}'").

Definition validate_prepared_data_files (metadata : Metadata) (p : PreparedFlush) : TeoDBResult unit :=
  let table := mkTableIdent (tm_namespace metadata) (tm_table_name metadata) in
  _ ← reject_if (negb (pf_table_uuid p =? tm_table_uuid metadata)%N || negb (bool_decide (pf_table p = table)))
        (WriteProtocol table "prepared intent does not match the loaded table incarnation");
  _ ← reject_if (bool_decide (pf_data_files p = [])) (WriteProtocol table "prepared intent contains no data files");
  foldM (λ _ f, validate_data_file_path metadata p f) tt (pf_data_files p).

(** [rollback_unprepared_flush()?; return Err(error)]. *)
Definition rollback_with (w : World) (error : TeoDBError) : World * TeoDBResult FlushOutcome :=
  match rollback_unprepared_flush (w_buf w) with
  | (b, Err e) => (with_buf w b, Err e)
  | (b, Ok _) => (with_buf w b, Err error)
  end.

(** [fe_files]: what writing the data files returned. *)
Record FlushEnv := mkFlushEnv {
  fe_commit_id : Uuid;
  fe_files : TeoDBResult (list DataFile);
  fe_others : Buf → list (N * Op);
  fe_now_ms : Z;
  fe_persist : PersistEnv;
  fe_commit : CommitEnv;
  fe_status : N → StatusEnv;
}.

Definition flush_once_inner (fuel : nat) (env : FlushEnv) (w : World) : option (World * TeoDBResult FlushOutcome) :=
  match blocked_flush (w_buf w) with
  | Some blocked => Some (w, Err (FlushBlocked (tb_ident (w_buf w)) (pf_commit_id (bf_prepared blocked))))
  | None =>
  match prepared_flush (w_buf w) with
  | Some p => commit_prepared fuel (fe_persist env) (fe_commit env) (fe_status env) w p
  | None =>
      let '(b, in_flight) := drain_pending_to_in_flight (w_buf w) in
      let w := with_buf w b in
      match in_flight with
      | [] => Some (w, Ok FlushEmpty)
      | _ :: _ =>
          let gen_lo := default 0%N (minN (generations in_flight)) in
          let gen_hi := default 0%N (maxN (generations in_flight)) in
          let record_count := sumN ((λ e, num_rows (be_batch e)) <$> in_flight) in
          let metadata := tb_metadata b in
          let identity := w_identity w in
          match GenerationRange_new gen_lo gen_hi with
          | Err e => Some (rollback_with w e)
          | Ok generations =>
              let w := others (fe_others env) w in
              match fe_files env with
              | Err e => Some (rollback_with w e)
              | Ok data_files =>
                  let p := PreparedFlush_new (tb_ident b) (tm_table_uuid metadata) (ri_writer_id identity)
                             (ri_writer_epoch identity) (fe_commit_id env) generations record_count
                             (fe_now_ms env) data_files (tm_current_snapshot_id metadata) in
                  match validate_prepared_data_files metadata p with
                  | Err e => Some (rollback_with w e)
                  | Ok _ =>
                      match set_prepared (w_buf w) p with
                      | (b, Err e) => Some (rollback_with (with_buf w b) e)
                      | (b, Ok _) =>
                          commit_prepared fuel (fe_persist env) (fe_commit env) (fe_status env) (with_buf w b) p
                      end
                  end
              end
          end
      end
  end end.

Definition recheck_blocked (env : StatusEnv) (w : World) : World * TeoDBResult FlushOutcome :=
  match blocked_flush (w_buf w) with
  | None => (w, Ok FlushEmpty)
  | Some blocked =>
      let p := bf_prepared blocked in
      let attempts := u32_saturating_succ (bf_status_check_attempts blocked) in
      let w := others (se_others env) w in
      let still_blocked w message :=
        (with_buf w (mark_blocked_recheck (w_buf w) (se_now_ms env) message attempts), Err (flush_blocked w p)) in
      match se_status env with
      | Err error => (w, Err error)
      | Ok (StCommitted metadata) => complete_flush (se_commit env) w p metadata
      | Ok StNotCommitted =>
          match commit_flush (se_commit env) w p with
          | (w, Err (CommitStateUnknown _ _ message)) => still_blocked w message
          | r => r
          end
      | Ok (StUnknown message) => still_blocked w message
      end
  end.
End flush.
