(* ===== verification/FlushSpec.v ===== *)
(** * Correctness of the flush state machine

    A flush keeps the buffer's invariant and the agreement between the buffer and
    the durable intents, loses no entry whatever fails, and ends within the
    configured number of status checks. *)

From S2P Require Import Prelude Core Location DataFiles WriteProtocol WalFrame WalReplay WalState WalGc.
From S2P Require Import Durable WalIdentity Prepared Buffer BufferSpec Catalog Flush.
Open Scope nat_scope.
Open Scope list_scope.

Section spec.
Context {Batch Schema Spec Order : Type} `{!BatchOps Batch} `{!TableLayout Schema Spec}.
Context `{UuidTextLaws} `{IdentityJson} `{PreparedJsonLaws} `{CommittedJson} `{WalCodec}.
Context (max_files max_bytes : N) (status_check : CommitStatusCheckConfig) (table_uuid : Uuid).
Abbreviation Buf := (@TableBuffer Batch Schema Spec Order).
Abbreviation Entry := (BufferEntry Batch).
Abbreviation Op := (@BufOp Batch Schema Spec Order).
Abbreviation Wd := (@World Batch Schema Spec Order).

(** ** What runs beside a flush *)

(** [concurrent]: the operations other tasks run during the flush. *)
Context (concurrent : Op → Prop).

(** The flush lock keeps other flushes out; ingestion goes on. *)
Definition ingest_op (op : Op) : Prop :=
  match op with
  | DoInsert _ _ _ | DoReserve _ | DoRelease _ | DoInsertReserved _ _ _ _ => True
  | _ => False
  end.
Fixpoint others_ok (t : Buf) (ops : list (N * Op)) : Prop :=
  match ops with
  | [] => True
  | (now, op) :: ops => ingest_op op ∧ concurrent op ∧ op_allowed t op ∧ others_ok (exec now t op) ops
  end.
Fixpoint others_admitted (t : Buf) (ops : list (N * Op)) : list Entry :=
  match ops with
  | [] => []
  | (now, op) :: ops => admitted_by t op ++ others_admitted (exec now t op) ops
  end.

(** The entries an operation can admit. *)
Definition admits (op : Op) (e : Entry) : Prop :=
  match op with
  | DoInsert id _ b | DoInsertReserved id _ _ b =>
      be_batch_id e = id ∧ be_batch e = b ∧ be_byte_size e = batch_byte_size b
  | _ => False
  end.
Definition from_concurrent (l : list Entry) : Prop := Forall (λ e, ∃ op, concurrent op ∧ admits op e) l.

Lemma others_admitted_from ops : ∀ t, others_ok t ops → from_concurrent (others_admitted t ops).
Proof.
  induction ops as [|[now op] ops IH]; intros t Hok; simpl; [by apply Forall_nil|].
  destruct Hok as (Hi & Hc & _ & Hok). apply Forall_app. split; [|by apply IH].
  destruct op; simpl in *; try done; try (by apply Forall_nil); [case_match|]; try (by apply Forall_nil);
    apply Forall_cons; (split; [|by apply Forall_nil]); eexists; by split.
Qed.

(** The part of a buffer a flush owns. *)
Definition same_flush (t t' : Buf) : Prop :=
  flush_state (tb_state t') = flush_state (tb_state t) ∧ in_flight (tb_state t') = in_flight (tb_state t) ∧
  committed_high_water (tb_state t') = committed_high_water (tb_state t) ∧ tb_metadata t' = tb_metadata t ∧
  tb_ident t' = tb_ident t.

Lemma ingest_same_flush now t op : ingest_op op → same_flush t (exec now t op).
Proof.
  destruct op; simpl; try done; intros _.
  - unfold buf_insert. case_match; [|done]. done.
  - unfold reserve. repeat case_match; done.
  - unfold release_reservation, take_reservation. by case_match.
  - unfold insert_reserved_at, take_reservation. by case_match.
Qed.

Lemma others_spec ops : ∀ t, buf_inv t → others_ok t ops →
  let t' := foldl (λ b op, exec op.1 b op.2) t ops in
  buf_inv t' ∧ same_flush t t' ∧
  pending (tb_state t') ++ in_flight (tb_state t') ≡ₚ
    (pending (tb_state t) ++ in_flight (tb_state t)) ++ others_admitted t ops.
Proof.
  induction ops as [|[now op] ops IH]; intros t Hb Hok; simpl.
  { split_and!; try done. by rewrite app_nil_r. }
  destruct Hok as (Hi & Hc & Ha & Hok).
  destruct (IH (exec now t op) (exec_inv now t op Hb Ha) Hok) as (Hb' & (Hf & Hif & Hh & Hm & Hid) & Hp).
  destruct (ingest_same_flush now t op Hi) as (Hf' & Hif' & Hh' & Hm' & Hid').
  split_and!; [done|unfold same_flush; split_and!; congruence|]. rewrite Hp, (assoc_L (++)). f_equiv.
  apply (exec_unchanged now t op). intros hi m ->. done.
Qed.

(** ** The invariant *)
Definition rows (t : Buf) : list Entry := pending (tb_state t) ++ in_flight (tb_state t).

(** A durable intent whose range is not committed is the one the buffer owns. *)
Record world_inv (w : Wd) : Prop := {
  wi_buf : buf_inv (w_buf w);
  wi_uuid : tm_table_uuid (tb_metadata (w_buf w)) = table_uuid;
  wi_owner p : prepared_flush (w_buf w) = Some p → pf_table_uuid p = table_uuid ∧ prepared_representable p;
  wi_store : ∃ m, store_rep (ri_writer_id (w_identity w)) max_files max_bytes (w_prepared w) m ∧
    ∀ p, m !! table_uuid = Some p → prepared_flush (w_buf w) = Some p ∨
      (gr_hi (pf_generations p) ≤ committed_high_water (tb_state (w_buf w)))%N;
}.

Lemma prepared_flush_state (t t' : Buf) :
  flush_state (tb_state t') = flush_state (tb_state t) → prepared_flush t' = prepared_flush t.
Proof. unfold prepared_flush. by intros ->. Qed.

Definition sched_ok (sched : Buf → list (N * Op)) : Prop := ∀ t, buf_inv t → others_ok t (sched t).

Lemma others_world w sched :
  world_inv w → sched_ok sched →
  world_inv (others sched w) ∧ same_flush (w_buf w) (w_buf (others sched w)) ∧
  ∃ adm, from_concurrent adm ∧ rows (w_buf (others sched w)) ≡ₚ rows (w_buf w) ++ adm.
Proof.
  intros [Hb Hu Ho (m & Hst & Hown)] Hsched. pose proof (Hsched _ Hb) as Hok.
  destruct (others_spec _ (w_buf w) Hb Hok) as (Hb' & Hs & Hp).
  split_and!; [|done|eexists; split; [by eapply others_admitted_from|done]].
  destruct Hs as (Hf & Hif & Hh & Hm & _). simpl in *.
  split; simpl.
  - done.
  - by rewrite Hm.
  - intros p. rewrite (prepared_flush_state _ _ Hf). apply Ho.
  - exists m. split; [done|]. intros p Hp'. rewrite (prepared_flush_state _ _ Hf), Hh. by apply Hown.
Qed.

(** ** The pieces of a commit *)

(** The environment's replies carry metadata of the same table. *)
Definition reply_ok (r : TeoDBResult (TableMetadata Schema Spec Order)) : Prop :=
  ∀ m, r = Ok m → tm_table_uuid m = table_uuid.
Definition commit_env_ok (env : @CommitEnv Batch Schema Spec Order) : Prop :=
  sched_ok (ce_others env) ∧ reply_ok (ce_reply env) ∧ reply_ok (ce_reload env).
Definition status_env_ok (env : @StatusEnv Batch Schema Spec Order) : Prop :=
  sched_ok (se_others env) ∧ (∀ m, se_status env = Ok (StCommitted m) → tm_table_uuid m = table_uuid) ∧
  commit_env_ok (se_commit env).

Lemma owned_commit_ok now w p m :
  world_inv w → prepared_flush (w_buf w) = Some p →
  ∃ t', mark_committed now (w_buf w) (gr_hi (pf_generations p)) m = (t', Ok tt) ∧ buf_inv t' ∧
    flush_state (tb_state t') = FIdle ∧ in_flight (tb_state t') = [] ∧
    pending (tb_state t') = pending (tb_state (w_buf w)) ∧ tb_metadata t' = m ∧ tb_ident t' = tb_ident (w_buf w) ∧
    committed_high_water (tb_state t') =
      N.max (committed_high_water (tb_state (w_buf w))) (gr_hi (pf_generations p)).
Proof.
  intros Hw Hp. pose proof (inv_committed now (w_buf w) (gr_hi (pf_generations p)) m (wi_buf w Hw)) as Hb'.
  destruct (mark_committed now (w_buf w) (gr_hi (pf_generations p)) m) as [t' r] eqn:Hc.
  destruct (mark_committed_cases _ _ _ _ _ _ Hc) as [[-> Hr]|(-> & _ & ->)]; [|by eexists; split_and!].
  exfalso. apply Hr. unfold mark_committed in Hc.
  destruct (bi_prepared _ (wi_buf w Hw) p Hp) as [[_ Hmax]%range_matches_true|[Hnil Hle]].
  - rewrite Hmax, N.eqb_refl in Hc. by injection Hc as _ <-.
  - rewrite Hnil in Hc. simpl in Hc.
    rewrite (proj2 (N.ltb_ge _ _) Hle) in Hc. by injection Hc as _ <-.
Qed.

(** Completing an owned flush succeeds, commits exactly the in-flight rows and leaves no
    uncommitted intent. *)
Lemma complete_flush_spec env w p m :
  world_inv w → prepared_flush (w_buf w) = Some p → tm_table_uuid m = table_uuid →
  ∃ w', complete_flush env w p m =
      (w', Ok (FlushCommitted (gr_lo (pf_generations p)) (gr_hi (pf_generations p)) (pf_record_count p))) ∧
    world_inv w' ∧ rows (w_buf w') = pending (tb_state (w_buf w)) ∧ prepared_flush (w_buf w') = None ∧
    (gr_hi (pf_generations p) ≤ committed_high_water (tb_state (w_buf w')))%N.
Proof.
  intros Hw Hp Hm. destruct (owned_commit_ok (ce_now env) w p m Hw Hp)
    as (t' & Hc & Hb' & Hf & Hif & Hpd & Hmd & Hid & Hhw).
  unfold complete_flush. rewrite Hc. unfold wal_remove_prepared.
  destruct Hw as [_ _ Ho (ms & Hst & Hown)]. destruct (Ho p Hp) as [Hpu _].
  match goal with |- context [remove_prepared ?f ?x ?u] => destruct (remove_prepared f x u) as [d' r] eqn:Hrm end.
  eexists. split; [done|]. split_and!.
  - split; cbn -[collect_garbage persist_committed_checkpoint].
    + done.
    + by rewrite Hmd.
    + unfold prepared_flush. by rewrite Hf.
    + assert (∀ q, ms !! table_uuid = Some q →
        (gr_hi (pf_generations q) ≤ committed_high_water (tb_state t'))%N) as Hle.
      { intros q Hq. rewrite Hhw. destruct (Hown q Hq) as [Hq'|?]; [|lia].
        rewrite Hp in Hq'. injection Hq' as <-. lia. }
      destruct (remove_prepared_store _ _ _ _ _ _ _ _ _ Hst Hrm) as [_ [?|?]].
      * exists ms. split; [done|]. auto.
      * exists (delete (pf_table_uuid p) ms). split; [done|].
        intros q [_ Hq]%lookup_delete_Some. auto.
  - change (rows t' = pending (tb_state (w_buf w))). unfold rows. by rewrite Hif, Hpd, app_nil_r.
  - change (prepared_flush t' = None). unfold prepared_flush. by rewrite Hf.
  - change (gr_hi (pf_generations p) ≤ committed_high_water (tb_state t'))%N. rewrite Hhw. lia.
Qed.

(** What one call does: the invariant holds again; a committed range leaves the buffer with
    exactly its entries, and otherwise nothing leaves it. *)
Definition effect (w w' : Wd) (r : TeoDBResult FlushOutcome) : Prop :=
  world_inv w' ∧ ∃ adm, from_concurrent adm ∧
  match r with
  | Ok (FlushCommitted lo hi _) =>
      (hi ≤ committed_high_water (tb_state (w_buf w')))%N ∧
      ∃ com, rows (w_buf w') ++ com ≡ₚ rows (w_buf w) ++ adm ∧
        Forall (λ e, (lo ≤ be_generation e ≤ hi)%N) com
  | Ok FlushEmpty | Err _ => rows (w_buf w') ≡ₚ rows (w_buf w) ++ adm
  end.

Lemma from_concurrent_app l k : from_concurrent l → from_concurrent k → from_concurrent (l ++ k).
Proof. intros. by apply Forall_app. Qed.

Lemma effect_error w w' e : world_inv w' → rows (w_buf w') ≡ₚ rows (w_buf w) → effect w w' (Err e).
Proof.
  intros Hw Hr. split; [done|]. exists []. split; [by apply Forall_nil|]. by rewrite app_nil_r.
Qed.

Lemma effect_after w w1 w' r adm :
  from_concurrent adm → rows (w_buf w1) ≡ₚ rows (w_buf w) ++ adm → effect w1 w' r → effect w w' r.
Proof.
  intros Hadm Hrows [Hw (adm' & Hadm' & Hr)]. split; [done|]. exists (adm ++ adm').
  split; [by apply from_concurrent_app|]. destruct r as [[|lo hi n]|e].
  - by rewrite Hr, Hrows, <-app_assoc.
  - destruct Hr as (Hhi & com & Hcom & Hall). split; [done|]. exists com. split; [|done].
    by rewrite Hcom, Hrows, <-app_assoc.
  - by rewrite Hr, Hrows, <-app_assoc.
Qed.

Lemma rows_in_range (t : Buf) p :
  buf_inv t → prepared_flush t = Some p →
  Forall (λ e : Entry, (gr_lo (pf_generations p) ≤ be_generation e ≤ gr_hi (pf_generations p))%N)
    (in_flight (tb_state t)).
Proof.
  intros Hb Hp. apply Forall_forall. intros e He.
  destruct (bi_prepared t Hb p Hp) as [[Hlo Hhi]%range_matches_true|[Hnil _]].
  - apply minN_Some in Hlo as [_ Hlo]. apply maxN_Some in Hhi as [_ Hhi].
    assert (be_generation e ∈ generations (in_flight (tb_state t))) as Hg by (apply elem_of_generations; eauto).
    split; [by apply Hlo|by apply Hhi].
  - rewrite Hnil in He. by apply elem_of_nil in He.
Qed.

Lemma complete_flush_effect env w p m w' r :
  world_inv w → prepared_flush (w_buf w) = Some p → tm_table_uuid m = table_uuid →
  complete_flush env w p m = (w', r) → effect w w' r.
Proof.
  intros Hw Hp Hm Hc. destruct (complete_flush_spec env w p m Hw Hp Hm) as (w1 & Hc1 & Hw1 & Hr & _ & Hhi).
  rewrite Hc1 in Hc. injection Hc as <- <-. split; [done|]. exists []. split; [by apply Forall_nil|].
  split; [done|]. exists (in_flight (tb_state (w_buf w))). split; [by rewrite Hr, app_nil_r|].
  apply rows_in_range; [by apply wi_buf|done].
Qed.

(** Changing the owner's bookkeeping. *)
Lemma block_world w now p e c a b r :
  world_inv w → prepared_flush (w_buf w) = Some p →
  mark_flush_blocked_with_class (w_buf w) now p e c a = (b, r) →
  r = Ok tt ∧ world_inv (with_buf w b) ∧ rows b = rows (w_buf w) ∧ prepared_flush b = Some p.
Proof.
  intros [Hb Hu Ho (m & Hst & Hown)] Hp Hblk. pose proof (inv_block (w_buf w) now p e c a Hb) as Hb'.
  unfold mark_flush_blocked_with_class in *. unfold prepared_flush in Hp.
  destruct (flush_state (tb_state (w_buf w))) as [|q|q] eqn:Hf; [done|injection Hp as ->|injection Hp as Hq];
    rewrite decide_True in Hblk, Hb' by done; injection Hblk as <- <-; simpl in Hb';
    (split_and!; [done| |done|done]); (split; simpl; [done|done| |]).
  - intros x [= <-]. apply Ho. unfold prepared_flush. by rewrite Hf.
  - exists m. split; [done|]. intros x Hx. destruct (Hown x Hx) as [Hx'|?]; [left|by right].
    unfold prepared_flush in *. simpl. by rewrite Hf in Hx'.
  - intros x [= <-]. apply Ho. unfold prepared_flush. rewrite Hf. congruence.
  - exists m. split; [done|]. intros x Hx. destruct (Hown x Hx) as [Hx'|?]; [left|by right].
    unfold prepared_flush in *. simpl. rewrite Hf in Hx'. congruence.
Qed.

Lemma retire_effect env w p w' r :
  world_inv w → prepared_flush (w_buf w) = Some p → retire_intent env w p = (w', r) →
  world_inv w' ∧ rows (w_buf w') ≡ₚ rows (w_buf w) ∧ (∀ e, r = Err e → prepared_flush (w_buf w') = Some p).
Proof.
  intros Hw Hp Hr. pose proof Hw as [Hb Hu Ho (m & Hst & Hown)]. destruct (Ho p Hp) as [Hpu _].
  unfold retire_intent, wal_remove_prepared in Hr.
  destruct (remove_prepared (ce_remove env) (w_prepared w) (pf_table_uuid p)) as [d r1] eqn:Hrm.
  destruct (remove_prepared_store _ _ _ _ _ _ _ _ _ Hst Hrm) as [Hok Hor].
  destruct r1 as [[]|e].
  - unfold mark_flush_failed in Hr. simpl in Hr.
    assert (owns_state (flush_state (tb_state (w_buf w))) p = true) as Hown'.
    { unfold prepared_flush in Hp. unfold owns_state.
      destruct (flush_state (tb_state (w_buf w))); [done|..]; injection Hp as Hq; by apply bool_decide_eq_true. }
    rewrite Hown' in Hr. injection Hr as <- <-. split_and!; [| |done].
    + split; simpl; [by apply merge_inv|done|done|].
      exists (delete (pf_table_uuid p) m). split; [by apply Hok|].
      intros q [Hne Hq]%lookup_delete_Some. by rewrite Hpu in Hne.
    + unfold rows. simpl. rewrite app_nil_r. apply Permutation_app_comm.
  - injection Hr as <- <-. split_and!; [|done|done]. split; simpl; [done|done|done|].
    destruct Hor as [?|?]; [by exists m|]. exists (delete (pf_table_uuid p) m). split; [done|].
    intros q [_ Hq]%lookup_delete_Some. by apply Hown.
Qed.

Lemma observe_writer_id io suffix root (r : ResolvedIdentity) observed root' r' res :
  observe_epoch_and_bump io suffix root r observed = (root', r', res) → ri_writer_id r' = ri_writer_id r.
Proof. unfold observe_epoch_and_bump. repeat case_match; intros [= <- <- <-]; done. Qed.

Lemma refresh_world env w :
  world_inv w → reply_ok (ce_reload env) →
  world_inv (refresh_after_conflict env w) ∧ rows (w_buf (refresh_after_conflict env w)) = rows (w_buf w).
Proof.
  intros Hw Hrel. unfold refresh_after_conflict. destruct (ce_reload env) as [fresh|] eqn:Hl; [|done].
  destruct Hw as [Hb Hu Ho Hst]. split; [|done]. split; simpl; [by apply inv_refresh|by apply Hrel|done|done].
Qed.

(** Whether a result leaves the commit's outcome open. *)
Definition undecided (r : TeoDBResult FlushOutcome) : Prop :=
  ∃ t c m, r = Err (CommitStateUnknown t c m).

Lemma commit_flush_effect env w p w' r :
  world_inv w → prepared_flush (w_buf w) = Some p → commit_env_ok env → commit_flush env w p = (w', r) →
  effect w w' r ∧ (undecided r → prepared_flush (w_buf w') = Some p).
Proof.
  intros Hw Hp (Hsch & Hrep & Hrel) Hc. unfold commit_flush in Hc.
  destruct (others_world w _ Hw Hsch) as (Hw1 & (Hf & _) & adm & Hadm & Hrows).
  set (w1 := others (ce_others env) w) in *.
  assert (prepared_flush (w_buf w1) = Some p) as Hp1 by (by rewrite (prepared_flush_state _ _ Hf)).
  assert (effect w1 w' r ∧ (undecided r → prepared_flush (w_buf w') = Some p)) as [He Hu];
    [|split; [by eapply effect_after|done]].
  clear Hw Hp Hf Hrows Hadm adm. clearbody w1. clear w.
  destruct (ce_reply env) as [updated|error] eqn:Hreply.
  { split; [eapply complete_flush_effect; [done|done|by apply Hrep|done]|].
    destruct (complete_flush_spec env w1 p updated Hw1 Hp1 (Hrep _ eq_refl)) as (w2 & Hc2 & _).
    rewrite Hc2 in Hc. injection Hc as _ <-. by intros (? & ? & ? & ?). }
  assert (∀ w2 e, retire_intent env w1 p = (w2, Err e) → w' = w2 → r = Err e →
    effect w1 w' r ∧ (undecided r → prepared_flush (w_buf w') = Some p)) as Hretire_err.
  { intros w2 e Hr -> ->. destruct (retire_effect env w1 p _ _ Hw1 Hp1 Hr) as (? & ? & Hprep).
    split; [by apply effect_error|]. intros _. by eapply Hprep. }
  assert (∀ w2 u, retire_intent env w1 p = (w2, Ok u) → ∀ w3, world_inv w3 → rows (w_buf w3) = rows (w_buf w2) →
    effect w1 w3 (Err error)) as Hretire_ok.
  { intros w2 u Hr w3 Hw3 Hrows. destruct (retire_effect env w1 p _ _ Hw1 Hp1 Hr) as (? & Hr2 & _).
    apply effect_error; [done|]. by rewrite Hrows. }
  assert (∀ b r1, mark_flush_blocked_with_class (w_buf w1) (ce_now_ms env) p "{error}" (code error) 1 = (b, r1) →
    (match r1 with Err e => (with_buf w1 b, Err e) | Ok _ => (with_buf w1 b, Err error) end) = (w', r) →
    effect w1 w' r ∧ (undecided r → prepared_flush (w_buf w') = Some p)) as Hblock.
  { intros b r1 Hb Hres. destruct (block_world _ _ _ _ _ _ _ _ Hw1 Hp1 Hb) as (-> & Hwb & Hrb & Hpb).
    injection Hres as <- <-. split; [apply effect_error; [done|by rewrite <-Hrb]|done]. }
  destruct error; try (* the catch-all branch *)
    (destruct (retire_intent env w1 p) as [w2 [u|e]] eqn:Hr; [|injection Hc as <- <-; by eapply Hretire_err];
     injection Hc as <- <-; split; [|by intros (? & ? & ? & ?)];
     (eapply Hretire_ok; [done| |]);
     [by apply (retire_effect env w1 p _ _ Hw1 Hp1 Hr)|done]);
    try (destruct (mark_flush_blocked_with_class _ _ _ _ _ _) as [b r1] eqn:Hb; by eapply Hblock).
  - destruct (retire_intent env w1 p) as [w2 [u|e]] eqn:Hr; [|injection Hc as <- <-; by eapply Hretire_err].
    injection Hc as <- <-. split; [|by intros (? & ? & ? & ?)].
    destruct (retire_effect env w1 p _ _ Hw1 Hp1 Hr) as (Hw2 & _ & _).
    destruct (refresh_world env w2 Hw2 Hrel) as [? ?]. by eapply Hretire_ok.
  - injection Hc as <- <-. split; [by apply effect_error|done].
  - unfold wal_observe_epoch in Hc.
    destruct (observe_epoch_and_bump _ _ _ _ _) as [[root' id'] res] eqn:Ho.
    pose proof (observe_writer_id _ _ _ _ _ _ _ _ Ho) as Hwid.
    set (w2 := mkWorld (w_buf w1) (w_prepared w1) root' (w_committed w1) id') in *.
    assert (world_inv w2) as Hw2.
    { destruct Hw1 as [? ? ? Hst]. split; simpl; [done|done|done|]. by rewrite Hwid. }
    destruct res as [x|e]; [|injection Hc as <- <-; split; [by apply effect_error|done]].
    destruct (retire_intent env w2 p) as [w3 r3] eqn:Hr.
    destruct (retire_effect env w2 p _ _ Hw2 Hp1 Hr) as (Hw3 & Hr3 & Hp3).
    destruct r3 as [u|e]; injection Hc as <- <-.
    + split; [by apply effect_error|]. by intros (? & ? & ? & ?).
    + split; [by apply effect_error|]. intros _. by eapply Hp3.
  - injection Hc as <- <-. split; [by apply effect_error|done].
Qed.

(** ** Status checks *)
Definition still_open (w w' : Wd) (p : PreparedFlush) : Prop :=
  world_inv w' ∧ prepared_flush (w_buf w') = Some p ∧
  ∃ adm, from_concurrent adm ∧ rows (w_buf w') ≡ₚ rows (w_buf w) ++ adm.

Lemma effect_open w w' e : effect w w' (Err e) → ∀ p, prepared_flush (w_buf w') = Some p → still_open w w' p.
Proof. intros [Hw Hadm] p Hp. by split. Qed.

Lemma check_status_effect env w p a c le w' x :
  world_inv w → prepared_flush (w_buf w) = Some p → status_env_ok env →
  check_status env w p a c le = (w', x) →
  match x with inl r => effect w w' r | inr _ => still_open w w' p end.
Proof.
  intros Hw Hp (Hsch & Hst & Hce) Hc. unfold check_status in Hc.
  destruct (others_world w _ Hw Hsch) as (Hw1 & (Hf & _) & adm & Hadm & Hrows).
  set (w1 := others (se_others env) w) in *.
  assert (prepared_flush (w_buf w1) = Some p) as Hp1 by (by rewrite (prepared_flush_state _ _ Hf)).
  assert (still_open w w1 p) as Hopen by (split_and!; eauto).
  destruct (se_status env) as [[m| |msg]|error] eqn:Hs.
  - destruct (complete_flush (se_commit env) w1 p m) as [w2 r] eqn:Hcf. injection Hc as <- <-.
    eapply effect_after; [done|done|]. eapply complete_flush_effect; [done|done|by apply Hst|done].
  - destruct (2 <=? u8_saturating_succ c)%N; [|by injection Hc as <- <-].
    destruct (commit_flush (se_commit env) w1 p) as [w2 r] eqn:Hcf.
    destruct (commit_flush_effect _ _ _ _ _ Hw1 Hp1 Hce Hcf) as [He Hu].
    assert (effect w w2 r) as He' by (by eapply effect_after).
    destruct r as [o|[]]; injection Hc as <- <-; try done.
    apply (effect_open _ _ _ He'), Hu. by do 3 eexists.
  - by injection Hc as <- <-.
  - destruct (is_retryable error); simpl in Hc; [by injection Hc as <- <-|].
    destruct (mark_flush_blocked_with_class _ _ _ _ _ _) as [b r1] eqn:Hb.
    destruct (block_world _ _ _ _ _ _ _ _ Hw1 Hp1 Hb) as (-> & Hwb & Hrb & _).
    injection Hc as <- <-. eapply effect_after; [done|done|]. apply effect_error; [done|]. simpl. by rewrite Hrb.
Qed.

Lemma resolve_loop_effect fuel envs : ∀ w p a c le w' r,
  world_inv w → prepared_flush (w_buf w) = Some p → (∀ n, status_env_ok (envs n)) →
  resolve_loop status_check fuel envs w p a c le = Some (w', r) → effect w w' r.
Proof.
  induction fuel as [|fuel IH]; intros w p a c le w' r Hw Hp Hok Hres; [done|]. simpl in Hres.
  destruct (check_status _ _ _ _ _ _) as [w1 [r1|[le1 c1]]] eqn:Hc;
    pose proof (check_status_effect _ _ _ _ _ _ _ _ Hw Hp (Hok a) Hc) as He; simpl in He.
  { by injection Hres as <- <-. }
  destruct He as (Hw1 & Hp1 & adm & Hadm & Hrows). destruct (_ || _).
  - unfold block_unknown, mark_flush_blocked in Hres.
    destruct (mark_flush_blocked_with_class _ _ _ _ _ _) as [b r1] eqn:Hb.
    destruct (block_world _ _ _ _ _ _ _ _ Hw1 Hp1 Hb) as (-> & Hwb & Hrb & _).
    injection Hres as <- <-. eapply effect_after; [done|done|]. apply effect_error; [done|]. simpl. by rewrite Hrb.
  - eapply effect_after; [done|done|]. by eapply IH.
Qed.

(** The loop ends: at most [num_retries + 1] status checks are made. *)
Lemma resolve_loop_total fuel (envs : N → @StatusEnv Batch Schema Spec Order) : ∀ (w : Wd) p a c le,
  (num_retries status_check < u32_max)%N → (a ≤ num_retries status_check)%N →
  (num_retries status_check < a + N.of_nat fuel)%N →
  ∃ res, resolve_loop status_check fuel envs w p a c le = Some res.
Proof.
  induction fuel as [|fuel IH]; intros w p a c le Hmax Ha Hfuel; [lia|]. simpl.
  assert (u32_saturating_succ a = (a + 1)%N) as Hs by (unfold u32_saturating_succ; lia). rewrite Hs.
  destruct (check_status _ _ _ _ _ _) as [w1 [r1|[le1 c1]]]; [by eexists|].
  destruct (N.ltb_spec (num_retries status_check) (a + 1)); simpl; [by eexists|].
  destruct (se_past_deadline _); [by eexists|]. apply IH; lia.
Qed.

(** ** A whole flush *)
Lemma persist_world pe w p w' r :
  world_inv w → prepared_flush (w_buf w) = Some p →
  wal_persist_prepared max_files max_bytes pe w p = (w', r) →
  world_inv w' ∧ w_buf w' = w_buf w.
Proof.
  intros Hw Hp Hr. pose proof Hw as [Hb Hu Ho (m & Hst & Hown)]. destruct (Ho p Hp) as [Hpu Hjson].
  unfold wal_persist_prepared in Hr.
  destruct (persist_prepared _ _ _ _ _ _ _ _) as [d r1] eqn:Hpp. injection Hr as <- <-. split; [|done].
  pose proof (persist_prepared_store _ _ _ _ _ _ _ _ _ _ _ Hst Hjson Hpp) as Hs. rewrite Hpu in Hs.
  split; simpl; [done|done|done|]. destruct (m !! table_uuid) as [q|] eqn:Hq.
  - exists m. split; [by destruct Hs|]. intros x Hx. apply Hown. congruence.
  - destruct Hs as [[Hs _]|Hs].
    + exists m. split; [done|]. intros x Hx. congruence.
    + exists (<[table_uuid := p]> m). split; [done|]. rewrite lookup_insert_eq. intros x [= <-]. by left.
Qed.

Lemma commit_prepared_effect fuel pe ce envs w p w' r :
  world_inv w → prepared_flush (w_buf w) = Some p → commit_env_ok ce → (∀ n, status_env_ok (envs n)) →
  commit_prepared max_files max_bytes status_check fuel pe ce envs w p = Some (w', r) → effect w w' r.
Proof.
  intros Hw Hp Hce Hse Hc. unfold commit_prepared in Hc.
  destruct (wal_persist_prepared _ _ _ _ _) as [w1 r1] eqn:Hpw.
  destruct (persist_world _ _ _ _ _ Hw Hp Hpw) as [Hw1 Hb1].
  assert (∀ w2 r2, effect w1 w2 r2 → effect w w2 r2) as Hback.
  { intros w2 r2. apply effect_after with (adm := []); [by apply Forall_nil|]. by rewrite Hb1, app_nil_r. }
  destruct r1 as [u|e].
  2: { injection Hc as <- <-. apply Hback, effect_error; done. }
  rewrite <-Hb1 in Hp. destruct (commit_flush ce w1 p) as [w2 r2] eqn:Hcf.
  destruct (commit_flush_effect _ _ _ _ _ Hw1 Hp Hce Hcf) as [He Hu]. apply Hback.
  destruct r2 as [o|[]]; try (by injection Hc as <- <-).
  destruct (effect_open _ _ _ He p (Hu ltac:(by do 3 eexists))) as (Hw2 & Hp2 & adm & Hadm & Hrows).
  eapply effect_after; [done|done|]. by eapply resolve_loop_effect.
Qed.

Lemma rollback_world w e w' r :
  world_inv w → flush_state (tb_state (w_buf w)) = FIdle → rollback_with w e = (w', r) →
  effect w w' r.
Proof.
  intros Hw Hf Hr. pose proof Hw as [Hb Hu Ho (m & Hst & Hown)].
  pose proof (inv_rollback (w_buf w) Hb) as Hb'.
  unfold rollback_with, rollback_unprepared_flush in *. rewrite Hf in *. injection Hr as <- <-.
  apply effect_error.
  - split; simpl; [done|done| |].
    + intros p Hp. unfold prepared_flush in Hp. simpl in Hp. by rewrite Hf in Hp.
    + exists m. split; [done|]. intros p Hp. destruct (Hown p Hp) as [Hp'|?]; [|by right].
      unfold prepared_flush in Hp'. by rewrite Hf in Hp'.
  - unfold rows. simpl. rewrite app_nil_r. apply Permutation_app_comm.
Qed.

Definition flush_env_ok (env : @FlushEnv Batch Schema Spec Order) : Prop :=
  sched_ok (fe_others env) ∧ commit_env_ok (fe_commit env) ∧ (∀ n, status_env_ok (fe_status env n)) ∧
  ∀ files p, fe_files env = Ok files → pf_data_files p = files → prepared_representable p.

Lemma drain_world w t l :
  world_inv w → prepared_flush (w_buf w) = None → drain_pending_to_in_flight (w_buf w) = (t, l) →
  world_inv (with_buf w t) ∧ rows t ≡ₚ rows (w_buf w) ∧ flush_state (tb_state t) = FIdle ∧
  tb_metadata t = tb_metadata (w_buf w) ∧ (l ≠ [] → in_flight (tb_state t) = l).
Proof.
  intros Hw Hp Hd. pose proof Hw as [Hb Hu Ho (m & Hst & Hown)].
  assert (flush_state (tb_state (w_buf w)) = FIdle) as Hf.
  { unfold prepared_flush in Hp. by destruct (flush_state (tb_state (w_buf w))). }
  pose proof (inv_drain (w_buf w) Hb (or_introl Hp)) as Hb'.
  destruct (exec_unchanged 0 (w_buf w) DoDrain ltac:(done)) as (Hrows & _ & Hhw & _).
  simpl in Hrows, Hhw. rewrite Hd in Hb', Hrows, Hhw. simpl in Hb', Hrows, Hhw. rewrite app_nil_r in Hrows.
  assert (flush_state (tb_state t) = FIdle ∧ tb_metadata t = tb_metadata (w_buf w) ∧
    (l ≠ [] → in_flight (tb_state t) = l)) as (Hf' & Hm' & Hl).
  { revert Hd. unfold drain_pending_to_in_flight. repeat case_match; intros [= <- <-]; simpl; try done. }
  split_and!; try done. split; simpl; [done|by rewrite Hm'| |].
  - intros p. unfold prepared_flush. by rewrite Hf'.
  - exists m. split; [done|]. intros p Hq. rewrite Hhw. destruct (Hown p Hq) as [Hq'|?]; [|by right]. congruence.
Qed.

Lemma set_prepared_world w p t r :
  world_inv w → flush_state (tb_state (w_buf w)) = FIdle → prepared_representable p →
  set_prepared (w_buf w) p = (t, r) →
  match r with
  | Ok _ => world_inv (with_buf w t) ∧ prepared_flush t = Some p ∧ rows t = rows (w_buf w)
  | Err _ => t = w_buf w
  end.
Proof.
  intros Hw Hf Hjson Hs. pose proof Hw as [Hb Hu Ho (m & Hst & Hown)].
  pose proof (inv_set_prepared (w_buf w) p Hb) as Hb'. unfold set_prepared in *. rewrite Hf in *.
  destruct (negb (range_matches _ _)); [by injection Hs as <- <-|].
  destruct (N.eqb_spec (pf_table_uuid p) (tm_table_uuid (tb_metadata (w_buf w)))) as [Heq|]; simpl in *;
    [|by injection Hs as <- <-].
  injection Hs as <- <-. split_and!; [|done|done]. split; simpl; [done|done| |].
  - intros q [= <-]. split; [congruence|done].
  - exists m. split; [done|]. intros q Hq. destruct (Hown q Hq) as [Hq'|?]; [|by right].
    unfold prepared_flush in Hq'. by rewrite Hf in Hq'.
Qed.

Lemma flush_once_effect fuel env w w' r :
  world_inv w → flush_env_ok env →
  flush_once_inner max_files max_bytes status_check fuel env w = Some (w', r) → effect w w' r.
Proof.
  intros Hw (Hsch & Hce & Hse & Hfiles) Hfl. unfold flush_once_inner in Hfl. cbv zeta in Hfl.
  destruct (blocked_flush (w_buf w)) as [b|].
  { injection Hfl as <- <-. by apply effect_error. }
  destruct (prepared_flush (w_buf w)) as [p|] eqn:Hp; [by eapply commit_prepared_effect|].
  destruct (drain_pending_to_in_flight (w_buf w)) as [t l] eqn:Hd.
  destruct (drain_world _ _ _ Hw Hp Hd) as (Hw1 & Hrows1 & Hf1 & Hm1 & Hl).
  assert (∀ w2 r2, effect (with_buf w t) w2 r2 → effect w w2 r2) as Hback.
  { intros w2 r2. apply effect_after with (adm := []); [by apply Forall_nil|]. simpl. by rewrite Hrows1, app_nil_r. }
  apply Hback. clear Hback. destruct l as [|e0 l0].
  { injection Hfl as <- <-. split; [done|]. exists []. split; [by apply Forall_nil|]. by rewrite app_nil_r. }
  destruct (GenerationRange_new _ _) as [gr|e].
  2: { injection Hfl as Hfl. by eapply rollback_world. }
  destruct (others_world _ _ Hw1 Hsch) as (Hw2 & (Hf2 & _) & adm & Hadm & Hrows2).
  set (w2 := others (fe_others env) (with_buf w t)) in *.
  assert (flush_state (tb_state (w_buf w2)) = FIdle) as Hf3 by (rewrite Hf2; exact Hf1). clear Hf2. clearbody w2.
  eapply effect_after; [done|done|]. destruct (fe_files env) as [files|e] eqn:Hff.
  2: { injection Hfl as Hfl. by eapply rollback_world. }
  set (p := PreparedFlush_new _ _ _ _ _ _ _ _ _ _) in Hfl.
  destruct (validate_prepared_data_files _ p) as [u|e].
  2: { injection Hfl as Hfl. by eapply rollback_world. }
  destruct (set_prepared (w_buf w2) p) as [t3 r3] eqn:Hs.
  pose proof (set_prepared_world w2 p t3 r3 Hw2 Hf3 (Hfiles files p eq_refl eq_refl) Hs) as Hsp.
  destruct r3 as [u3|e].
  - destruct Hsp as (Hw3 & Hp3 & Hr3).
    apply effect_after with (w1 := with_buf w2 t3) (adm := []); [by apply Forall_nil|simpl; by rewrite Hr3, app_nil_r|].
    by eapply commit_prepared_effect.
  - subst t3. injection Hfl as Hfl.
    assert (with_buf w2 (w_buf w2) = w2) as Heq by (by destruct w2). rewrite Heq in Hfl. by eapply rollback_world.
Qed.

Lemma recheck_effect env w w' r :
  world_inv w → status_env_ok env → recheck_blocked env w = (w', r) → effect w w' r.
Proof.
  intros Hw (Hsch & Hst & Hce) Hr. unfold recheck_blocked in Hr.
  destruct (blocked_flush (w_buf w)) as [bl|] eqn:Hbl.
  2: { injection Hr as <- <-. split; [done|]. exists []. split; [by apply Forall_nil|]. by rewrite app_nil_r. }
  assert (prepared_flush (w_buf w) = Some (bf_prepared bl)) as Hp.
  { unfold blocked_flush, prepared_flush in *. destruct (flush_state (tb_state (w_buf w))); by simplify_eq. }
  destruct (others_world _ _ Hw Hsch) as (Hw1 & (Hf & _) & adm & Hadm & Hrows).
  set (w1 := others (se_others env) w) in *.
  assert (prepared_flush (w_buf w1) = Some (bf_prepared bl)) as Hp1 by (by rewrite (prepared_flush_state _ _ Hf)).
  eapply effect_after; [done|done|].
  assert (∀ w2 msg a now e, world_inv w2 → prepared_flush (w_buf w2) = Some (bf_prepared bl) →
    effect w2 (with_buf w2 (mark_blocked_recheck (w_buf w2) now msg a)) (Err e)) as Hre.
  { intros w2 msg a now e [Hb Hu Ho (m & Hs & Hown)] Hp2.
    pose proof (inv_recheck (w_buf w2) now msg a Hb) as Hb'. unfold mark_blocked_recheck in *.
    destruct (flush_state (tb_state (w_buf w2))) as [|q|q] eqn:Hf2.
    - apply effect_error; [|done]. split; simpl; eauto.
    - apply effect_error; [|done]. split; simpl; eauto.
    - apply effect_error; [|done]. split; simpl; [done|done| |].
      + intros x [= <-]. apply Ho. unfold prepared_flush. by rewrite Hf2.
      + exists m. split; [done|]. intros x Hx. destruct (Hown x Hx) as [Hx'|?]; [left|by right].
        unfold prepared_flush in *. simpl. by rewrite Hf2 in Hx'. }
  destruct (se_status env) as [[m| |msg]|error] eqn:Hs.
  - eapply complete_flush_effect; [done|done|by apply Hst|done].
  - destruct (commit_flush (se_commit env) w1 (bf_prepared bl)) as [w2 r2] eqn:Hcf.
    destruct (commit_flush_effect _ _ _ _ _ Hw1 Hp1 Hce Hcf) as [He Hu].
    destruct r2 as [o|[]]; injection Hr as <- <-; try done.
    pose proof (Hu ltac:(by do 3 eexists)) as Hp2.
    destruct (effect_open _ _ _ He _ Hp2) as (Hw2 & _ & adm' & Hadm' & Hrows').
    eapply effect_after; [done|done|]. by apply Hre.
  - injection Hr as <- <-. by apply Hre.
  - injection Hr as <- <-. by apply effect_error.
Qed.

(** The whole flush returns. *)
Lemma flush_once_total fuel env (w : Wd) :
  (num_retries status_check < u32_max)%N → (num_retries status_check < N.of_nat fuel)%N →
  ∃ w' r, flush_once_inner max_files max_bytes status_check fuel env w = Some (w', r).
Proof.
  intros Hmax Hfuel.
  assert (∀ pe ce envs (w : Wd) p, ∃ w' r,
    commit_prepared max_files max_bytes status_check fuel pe ce envs w p = Some (w', r)) as Hcp.
  { intros pe ce envs w0 p. unfold commit_prepared.
    destruct (wal_persist_prepared _ _ _ _ _) as [w1 [u|e]]; [|by do 2 eexists].
    destruct (commit_flush ce w1 p) as [w2 [o|[]]]; try (by do 2 eexists).
    edestruct (resolve_loop_total fuel envs w2 p 0 0) as [[w3 r3] Hr]; [done|lia|lia|by do 2 eexists]. }
  unfold flush_once_inner. destruct (blocked_flush _); [by do 2 eexists|].
  destruct (prepared_flush _); [by apply Hcp|]. destruct (drain_pending_to_in_flight _) as [t l].
  destruct l; [by do 2 eexists|]. cbv zeta.
  repeat match goal with
  | |- ∃ w' r, commit_prepared _ _ _ _ _ _ _ _ _ = _ => apply Hcp
  | |- ∃ w' r, Some (rollback_with ?x ?e) = _ => destruct (rollback_with x e); by do 2 eexists
  | _ => case_match
  end.
Qed.

(** ** What a committed flush rests on *)

(** The [n]-th check saw the commit, or saw for the second time in a row that it is not there
    and the resumed request was answered with success. *)
Definition status_evidence (envs : N → @StatusEnv Batch Schema Spec Order) (n : N) : Prop :=
  (∃ m, se_status (envs n) = Ok (StCommitted m)) ∨
  ((0 < n)%N ∧ se_status (envs (n - 1)%N) = Ok StNotCommitted ∧ se_status (envs n) = Ok StNotCommitted ∧
   ∃ m, ce_reply (se_commit (envs n)) = Ok m).

Lemma commit_flush_evidence env (w : Wd) p w' lo hi n :
  commit_flush env w p = (w', Ok (FlushCommitted lo hi n)) → ∃ m, ce_reply env = Ok m.
Proof.
  unfold commit_flush. destruct (ce_reply env) as [m|e]; [by eexists|].
  intros Hc. exfalso. revert Hc.
  destruct e; simpl; repeat (case_match; simplify_eq/=); intros Hc; simplify_eq.
Qed.

Lemma block_unknown_err now_ms (w : Wd) p le a w' o : block_unknown now_ms w p le a ≠ (w', Ok o).
Proof. unfold block_unknown. destruct (mark_flush_blocked _ _ _ _ _) as [b [u|e]]; congruence. Qed.

Lemma resolve_evidence fuel envs : ∀ (w : Wd) p a c le w' lo hi n,
  (num_retries status_check < u32_max)%N → (a ≤ num_retries status_check)%N →
  (c ≤ 1)%N → (c = 1%N → (0 < a)%N ∧ se_status (envs (a - 1)%N) = Ok StNotCommitted) →
  resolve_loop status_check fuel envs w p a c le = Some (w', Ok (FlushCommitted lo hi n)) →
  ∃ k, (a ≤ k ≤ num_retries status_check)%N ∧ status_evidence envs k.
Proof.
  induction fuel as [|fuel IH]; intros w p a c le w' lo hi n Hmax Ha Hc1 Hc Hr; [done|]. simpl in Hr.
  assert (u32_saturating_succ a = (a + 1)%N) as Hs by (unfold u32_saturating_succ; lia). rewrite Hs in Hr.
  assert (∀ w1 c1 le1, (c1 ≤ 1)%N → (c1 = 1%N → se_status (envs a) = Ok StNotCommitted) →
    (if (num_retries status_check <? a + 1)%N || se_past_deadline (envs a)
     then Some (block_unknown (se_now_ms (envs a)) w1 p le1 (a + 1))
     else resolve_loop status_check fuel envs w1 p (a + 1) c1 le1) = Some (w', Ok (FlushCommitted lo hi n)) →
    ∃ k, (a ≤ k ≤ num_retries status_check)%N ∧ status_evidence envs k) as Hnext.
  { intros w1 c1 le1 Hle Hc1' Hr1. destruct (N.ltb_spec (num_retries status_check) (a + 1)); simpl in Hr1.
    { injection Hr1 as Hr1. by apply block_unknown_err in Hr1. }
    destruct (se_past_deadline (envs a)).
    { injection Hr1 as Hr1. by apply block_unknown_err in Hr1. }
    edestruct IH as (k & Hk & He); [done| |exact Hle| |exact Hr1|]; [lia| |exists k; split; [lia|done]].
    intros Heq. split; [lia|]. rewrite N.add_sub. by apply Hc1'. }
  unfold check_status in Hr. destruct (se_status (envs a)) as [[m| |msg]|error] eqn:Hst.
  - exists a. split; [lia|]. left. by eexists.
  - destruct (N.leb_spec 2 (u8_saturating_succ c)) as [Htwo|Htwo].
    + assert (c = 1%N) as Hceq by (unfold u8_saturating_succ in Htwo; lia). destruct (Hc Hceq) as [Hpos Hprev].
      destruct (commit_flush _ _ _) as [w1 r1] eqn:Hcf. destruct r1 as [o|e].
      * assert (o = FlushCommitted lo hi n) as -> by congruence.
        exists a. split; [lia|]. right. split_and!; try done. by eapply commit_flush_evidence.
      * destruct e; try (injection Hr as Hr1 Hr2; discriminate Hr2). by eapply Hnext; [| |exact Hr].
    + eapply Hnext; [| |exact Hr]; [unfold u8_saturating_succ in *; lia|done].
  - by eapply Hnext; [| |exact Hr].
  - destruct (is_retryable error); simpl in Hr; [by eapply Hnext; [| |exact Hr]|].
    destruct (mark_flush_blocked_with_class _ _ _ _ _ _) as [b [u|e]]; injection Hr as _ Hr; discriminate Hr.
Qed.

(** ** A sidecar left behind *)

(** The buffer owns [p]; another intent [q] of the same table is still on disk. *)
Definition wedged (p q : PreparedFlush) (w : Wd) : Prop :=
  flush_state (tb_state (w_buf w)) = FPrepared p ∧ prepared_representable p ∧ q ≠ p ∧
  ∃ m, store_rep (ri_writer_id (w_identity w)) max_files max_bytes (w_prepared w) m ∧
    m !! pf_table_uuid p = Some q.

Lemma wedged_flush p q w fuel env :
  wedged p q w →
  ∃ w' e, flush_once_inner max_files max_bytes status_check fuel env w = Some (w', Err e) ∧
    wedged p q w' ∧ w_buf w' = w_buf w.
Proof.
  intros (Hf & Hjson & Hne & m & Hst & Hm). unfold flush_once_inner, blocked_flush, prepared_flush. rewrite Hf.
  unfold commit_prepared, wal_persist_prepared.
  destruct (persist_prepared _ _ _ _ _ _ _ _) as [d r] eqn:Hp.
  pose proof (persist_prepared_store _ _ _ _ _ _ _ _ _ _ _ Hst Hjson Hp) as Hs. rewrite Hm in Hs.
  destruct Hs as [Hs Hr]. destruct r as [[]|e]; [by specialize (Hr eq_refl)|].
  do 2 eexists. split_and!; [done| |done]. by split_and!; [..|exists m].
Qed.

(** * Properties *)


(** The operator's recheck of a blocked flush never discards or force-marks: it keeps the same
    invariant and entries as a flush does. *)
Theorem recheck_blocked_safe env (w : Wd) (Hw : world_inv w) (Henv : status_env_ok env) :
  effect w (recheck_blocked env w).1 (recheck_blocked env w).2.
Proof. destruct (recheck_blocked env w) as [w' r] eqn:Hr. by eapply recheck_effect. Qed.

(** A flush that resolves an ambiguous commit reports a committed range only on evidence: one of the
    first [num_retries + 1] status checks found the exact commit, or two checks in a row did not find it
    and the same intent, sent again, was accepted. *)
Theorem resolve_commits_on_evidence (fuel : nat) envs (w : Wd) p message w' lo hi n
    (Hmax : (num_retries status_check < u32_max)%N)
    (Hres : resolve_unknown status_check fuel envs w p message = Some (w', Ok (FlushCommitted lo hi n))) :
  ∃ k, (k ≤ num_retries status_check)%N ∧ status_evidence envs k.
Proof.
  edestruct (resolve_evidence fuel envs w p 0 0 message) as (k & Hk & He); [done|lia|lia|done|exact Hres|].
  exists k. split; [lia|done].
Qed.

(** When the sidecar of a committed flush could not be unlinked, the next intent of the table cannot
    be persisted: every further flush fails and changes nothing in the buffer, and the recheck of blocked
    flushes does not apply, so the table stays unflushable while the process runs. *)
Theorem leftover_sidecar_wedges_flush p q (w : Wd) (Hwedged : wedged p q w) :
  (∀ fuel env, ∃ w' e, flush_once_inner max_files max_bytes status_check fuel env w = Some (w', Err e) ∧
     wedged p q w' ∧ w_buf w' = w_buf w) ∧
  (∀ env, recheck_blocked env w = (w, Ok FlushEmpty)).
Proof.
  split; [intros; by apply wedged_flush|]. destruct Hwedged as (Hf & _). intros env.
  unfold recheck_blocked, blocked_flush. by rewrite Hf.
Qed.
End spec.

(** ** The recheck delay *)
Lemma i128_clamp_id z : (i128_min ≤ z ≤ i128_max)%Z → i128_clamp z = z.
Proof. unfold i128_clamp. lia. Qed.

Lemma quot_percent (b s p : Z) :
  (0 ≤ b)%Z → (- p ≤ s ≤ p)%Z → (Z.abs (Z.quot (b * s) 100) * 100 ≤ b * p)%Z.
Proof.
  intros Hb Hs. rewrite <-(Z.quot_abs (b * s) 100 ltac:(lia)), Z.abs_mul.
  rewrite Z.quot_div_nonneg by nia. pose proof (Z.mul_div_le (Z.abs b * Z.abs s) (Z.abs 100) ltac:(lia)). nia.
Qed.

(** The wait before a blocked flush is checked again, in milliseconds, differs from the configured
    interval by at most the configured percentage (capped at 100) and depends on the commit only. *)
Theorem blocked_recheck_delay_bounded (base jitter : N) (commit_id : Uuid)
    (Hbase : (as_millis base * 2 ≤ u64_max)%N) :
  let b := Z.of_N (as_millis base) in
  let d := Z.of_N (as_millis (blocked_recheck_delay base jitter commit_id)) in
  (Z.abs (d - b) * 100 ≤ b * Z.of_N (N.min jitter 100))%Z.
Proof.
  simpl. unfold blocked_recheck_delay. destruct (_ || _) eqn:Hz; [rewrite Z.sub_diag; lia|].
  apply orb_false_iff in Hz as [Hp%N.eqb_neq _]. set (p := N.min jitter 100) in *. assert (p ≤ 100)%N by lia.
  pose proof (N.mod_lt (commit_hash commit_id) (p * 2 + 1) ltac:(lia)) as Hh.
  set (h := (commit_hash commit_id mod (p * 2 + 1))%N) in *. clearbody h.
  set (s := (Z.of_N h - Z.of_N p)%Z). assert (- Z.of_N p ≤ s ≤ Z.of_N p)%Z as Hs by lia.
  set (b := as_millis base) in *. clearbody s b p.
  assert (u64_max = 18446744073709551615)%N as Hu by done.
  assert (i128_max = 170141183460469231731687303715884105727)%Z as Hmax by done.
  assert (i128_min = -170141183460469231731687303715884105728)%Z as Hmin by done.
  rewrite (proj2 (Z.ltb_ge i128_max (Z.of_N b))) by lia. rewrite (i128_clamp_id (Z.of_N b * s)) by nia.
  pose proof (quot_percent (Z.of_N b) s (Z.of_N p) ltac:(lia) Hs) as Hq.
  set (q := Z.quot (Z.of_N b * s) 100) in *. clearbody q.
  assert (Z.abs q ≤ Z.of_N b)%Z by nia. rewrite i128_clamp_id by lia. rewrite Z.max_l by lia.
  rewrite (proj2 (Z.ltb_ge _ _)) by lia.
  unfold as_millis, from_millis. rewrite N.div_mul by done. lia.
Qed.

Lemma blocked_recheck_delay_bounded_witness :
  (Z.abs (Z.of_N (as_millis (blocked_recheck_delay 30000000000 20 99)) - 30000) * 100 ≤ 30000 * 20)%Z.
Proof. refine (blocked_recheck_delay_bounded 30000000000 20 99 _). vm_compute. discriminate. Defined.

(** ** A concrete table, for evaluation *)
#[export] Instance demo_layout : TableLayout unit unit := {|
  schema_id _ := 0%Z; spec_id _ := 0%Z; spec_unpartitioned _ := true;
  iceberg_partition_path _ _ _ := Ok "" |}.
Definition demo_lake_metadata : TableMetadata unit unit unit :=
  mkTableMetadata 5 "analytics" "events" (mkObjectLocation S3 (Some "lake") "wh/events") None 0 0 0
    [tt] [tt] [] [] None ∅.
Definition demo_lake_buffer : @TableBuffer (list N) unit unit unit :=
  foldl (λ b op, exec op.1 b op.2) (with_committed_grace (TableBuffer_new demo_table demo_lake_metadata 10 1000 800) 50)
    [(1%N, DoInsert 100 5%Z [10]%N); (2%N, DoInsert 101 6%Z [20]%N)].
Definition demo_ingest (_ : @TableBuffer (list N) unit unit unit) : list (N * @BufOp (list N) unit unit unit) :=
  [(3%N, DoInsert 102 7%Z [30]%N)].
Definition demo_world (b : @TableBuffer (list N) unit unit unit) (d : option WalDir) : World :=
  mkWorld b d ∅ ∅ (mkResolvedIdentity 1 "node" "slot" 7 3).
Definition demo_files (commit_id : Uuid) : list DataFile :=
  [demo_data_file (@uuid_to_string demo_uuid_text commit_id +:+ "-0.parquet") 2].
Definition demo_commit_env (reply : TeoDBResult (TableMetadata unit unit unit)) (remove : RemoveFault) : CommitEnv :=
  mkCommitEnv demo_ingest reply 4 7%Z (λ _, false) [] remove (λ _, true) (λ _, true) 0 no_faults 8 (Err (NotFound "t")).
(** The first reply is ambiguous; two checks do not find the commit, and it is sent again. *)
Definition demo_status_env (_ : N) : StatusEnv :=
  mkStatusEnv demo_ingest (Ok StNotCommitted) (demo_commit_env (Ok demo_lake_metadata) RemoveOk) false 9%Z.
Definition demo_flush_env (commit_id : Uuid) (reply : TeoDBResult (TableMetadata unit unit unit))
    (remove : RemoveFault) : FlushEnv :=
  mkFlushEnv commit_id (Ok (demo_files commit_id)) demo_ingest 7%Z (mkPersistEnv false no_faults 6)
    (demo_commit_env reply remove) demo_status_env.
Definition demo_status_check : CommitStatusCheckConfig := mkStatusCheck 4 100000000 5000000000 30000000000 30000000000 20 4.
Definition demo_flush (commit_id : Uuid) (reply : TeoDBResult (TableMetadata unit unit unit)) (remove : RemoveFault)
    (w : World) : option (World * TeoDBResult FlushOutcome) :=
  @flush_once_inner _ _ _ unit _ _ demo_uuid_text demo_identity_json demo_prepared_json demo_committed_json
    demo_wal_codec 10000 DEFAULT_MAX_PREPARED_BYTES demo_status_check 5 (demo_flush_env commit_id reply remove) w.

Section demo.
#[local] Existing Instances demo_uuid_text demo_uuid_text_laws demo_identity_json demo_prepared_json
  demo_prepared_json_laws demo_committed_json demo_wal_codec.
Abbreviation any_op := (λ _ : @BufOp (list N) unit unit unit, True).
Abbreviation demo_inv := (world_inv 10000 DEFAULT_MAX_PREPARED_BYTES 5).

Lemma demo_lake_inv : buf_inv demo_lake_buffer.
Proof.
  refine (exec_inv 2 (exec 1 _ (DoInsert 100 5%Z [10]%N)) (DoInsert 101 6%Z [20]%N)
    (exec_inv 1 _ (DoInsert 100 5%Z [10]%N) _ I) I).
  refine (hi_buf _ _ _ _ (buf_reach_inv _ [] [] 0 (reach_new demo_table demo_lake_metadata 10 1000 800 50 0 _ _))); done.
Qed.
Lemma demo_world_inv : demo_inv (demo_world demo_lake_buffer None).
Proof.
  split; [apply demo_lake_inv|done|done|]. exists ∅. split; [|done]. split; [|done].
  intros name _ [f Hf]. simpl in Hf. by rewrite lookup_empty in Hf.
Qed.
Lemma demo_sched_ok : sched_ok any_op demo_ingest.
Proof. intros t _. by split_and!. Qed.
Lemma demo_commit_env_ok reply remove :
  reply_ok 5 reply → commit_env_ok 5 any_op (demo_commit_env reply remove).
Proof. intros Hr. split_and!; [apply demo_sched_ok|done|done]. Qed.
Lemma demo_status_env_ok n : status_env_ok 5 any_op (demo_status_env n).
Proof. split_and!; [apply demo_sched_ok|done|]. apply demo_commit_env_ok. by intros m [= <-]. Qed.
Lemma demo_flush_env_ok c reply remove : reply_ok 5 reply → flush_env_ok 5 any_op (demo_flush_env c reply remove).
Proof.
  intros Hr. split_and!; [apply demo_sched_ok|by apply demo_commit_env_ok|apply demo_status_env_ok|done].
Qed.


(** The ambiguous commit above ends after the second check. *)
Definition demo_intent : PreparedFlush :=
  PreparedFlush_new demo_table 5 7 3 99 (mkGenerationRange 11 12) 2 7 (demo_files 99) None.
Definition demo_owned : World :=
  demo_world (set_prepared (drain_pending_to_in_flight demo_lake_buffer).1 demo_intent).1 None.
Lemma resolve_commits_on_evidence_witness :
  ∃ k, (k ≤ 4)%N ∧ status_evidence (Batch := list N) demo_status_env k.
Proof.
  assert (snd <$> resolve_unknown demo_status_check 5 demo_status_env demo_owned demo_intent "timeout" =
    Some (Ok (FlushCommitted 11 12 2))) as Hr by (vm_compute; reflexivity).
  destruct (resolve_unknown demo_status_check 5 demo_status_env demo_owned demo_intent "timeout") as [[w' r]|] eqn:He;
    [|discriminate].
  injection Hr as ->.
  exact (resolve_commits_on_evidence demo_status_check 5 demo_status_env demo_owned demo_intent "timeout" w' 11 12 2
    eq_refl He).
Defined.

(** A flush that blocks: the catalog has another incarnation. *)
Definition demo_blocked : World :=
  match demo_flush 99 (Err (TableIncarnationMismatch demo_table 5 6)) RemoveOk (demo_world demo_lake_buffer None) with
  | Some (w, _) => w
  | None => demo_world demo_lake_buffer None
  end.
Lemma demo_flush_inv c reply remove w w' r :
  demo_inv w → reply_ok 5 reply → demo_flush c reply remove w = Some (w', r) → demo_inv w'.
Proof. intros Hw Hr Hf. eapply flush_once_effect; [exact Hw|by eapply demo_flush_env_ok|exact Hf]. Qed.
Lemma demo_blocked_inv : demo_inv demo_blocked.
Proof.
  unfold demo_blocked. destruct (demo_flush _ _ _ _) as [[w r]|] eqn:Hf; [|apply demo_world_inv].
  by eapply demo_flush_inv; [apply demo_world_inv| |exact Hf].
Qed.
Lemma recheck_blocked_safe_witness :
  is_Some (blocked_flush (w_buf demo_blocked)) ∧
  effect 10000 DEFAULT_MAX_PREPARED_BYTES 5 any_op demo_blocked (recheck_blocked (demo_status_env 0) demo_blocked).1
    (recheck_blocked (demo_status_env 0) demo_blocked).2.
Proof.
  split; [vm_compute; eexists; reflexivity|].
  exact (recheck_blocked_safe 10000 DEFAULT_MAX_PREPARED_BYTES 5 any_op (demo_status_env 0) demo_blocked
    demo_blocked_inv (demo_status_env_ok 0)).
Defined.

(** A committed flush whose sidecar is not removed, then another flush. *)
Definition demo_stuck : World :=
  match demo_flush 99 (Ok demo_lake_metadata) RemoveFails (demo_world demo_lake_buffer None) with
  | Some (w, _) =>
      match demo_flush 98 (Ok demo_lake_metadata) RemoveOk w with Some (w, _) => w | None => w end
  | None => demo_world demo_lake_buffer None
  end.

Lemma demo_stuck_inv : demo_inv demo_stuck.
Proof.
  unfold demo_stuck.
  destruct (demo_flush 99 _ _ _) as [[w r]|] eqn:Hf; [|apply demo_world_inv].
  assert (demo_inv w) as Hw by (eapply demo_flush_inv; [apply demo_world_inv| |exact Hf]; by intros m [= <-]).
  destruct (demo_flush 98 _ _ _) as [[w2 r2]|] eqn:Hf2; [|done].
  eapply demo_flush_inv; [exact Hw| |exact Hf2]. by intros m [= <-].
Qed.

Lemma leftover_sidecar_wedges_flush_witness :
  ∃ p, prepared_flush (w_buf demo_stuck) = Some p ∧ pf_commit_id p = 98%N ∧
    ∀ fuel env, ∃ w' e, flush_once_inner 10000 DEFAULT_MAX_PREPARED_BYTES demo_status_check fuel env demo_stuck
                        = Some (w', Err e).
Proof.
  pose proof (wi_store _ _ _ _ demo_stuck_inv) as (m & Hst & _).
  destruct (flush_state (tb_state (w_buf demo_stuck))) as [|p|] eqn:Hf;
    [exfalso; revert Hf; vm_compute; discriminate| |exfalso; revert Hf; vm_compute; discriminate].
  destruct (read_one (default ∅ (w_prepared demo_stuck)) (path_for 5) 7 10000 DEFAULT_MAX_PREPARED_BYTES)
    as [q|] eqn:Hq; [|exfalso; revert Hq; vm_compute; discriminate].
  assert (pf_commit_id <$> prepared_flush (w_buf demo_stuck) = Some 98%N) as Hc by (vm_compute; reflexivity).
  assert (pf_table_uuid <$> prepared_flush (w_buf demo_stuck) = Some 5%N) as Hu by (vm_compute; reflexivity).
  assert (match read_one (default ∅ (w_prepared demo_stuck)) (path_for 5) 7 10000 DEFAULT_MAX_PREPARED_BYTES with
    Ok q => pf_commit_id q | Err _ => 98%N end = 99%N) as Hd by (vm_compute; reflexivity).
  rewrite Hq in Hd.
  assert (prepared_flush (w_buf demo_stuck) = Some p) as Hp by (unfold prepared_flush; rewrite Hf; reflexivity).
  rewrite Hp in Hc, Hu. injection Hc as Hc. injection Hu as Hu. exists p. split; [exact Hp|]. split; [exact Hc|].
  assert (wedged 10000 DEFAULT_MAX_PREPARED_BYTES p q demo_stuck) as Hwed.
  { split; [exact Hf|]. split; [exact I|]. split; [congruence|]. exists m. split; [exact Hst|]. rewrite Hu.
    by eapply store_rep_read. }
  intros fuel env.
  destruct (proj1 (leftover_sidecar_wedges_flush 10000 DEFAULT_MAX_PREPARED_BYTES demo_status_check p q demo_stuck Hwed)
    fuel env) as (w' & e & He & _).
  exists w', e. exact He.
Defined.
End demo.
