(* ===== verification/FlushFrame.v ===== *)
(** * What a flush leaves alone

    A flush that runs alone moves the entries of its buffer without admitting any, and
    only removes log files.  Recovery relies on both. *)

From S2P Require Import Prelude Core Location DataFiles WriteProtocol WalFrame WalReplay WalReplaySpec WalState WalGc.
From S2P Require Import Durable WalIdentity Prepared Buffer BufferSpec Catalog Flush FlushSpec.
Open Scope nat_scope.
Open Scope list_scope.

(** ** Log files *)
Definition log_file (name : string) : Prop :=
  str_ends_with ".wal" name = true ∨ str_ends_with ".corrupt" name = true.

(** Log files only disappear. *)
Definition log_shrinks (root root' : WalDir) : Prop :=
  ∀ name, log_file name → root' !! name = root !! name ∨ root' !! name = None.

#[export] Instance log_shrinks_preorder : PreOrder log_shrinks.
Proof.
  split; [by left|]. intros r1 r2 r3 H1 H2 name Hn.
  destruct (H1 name Hn), (H2 name Hn); [left; congruence|right; congruence..].
Qed.

Lemma log_shrinks_same root root' : (∀ name, log_file name → root' !! name = root !! name) → log_shrinks root root'.
Proof. intros Hs name Hn. left. by apply Hs. Qed.

Section roots.
Context `{WalCodec} `{UuidText} `{IdentityJson} `{CommittedJson}.

Lemma tmp_not_log suffix : ¬ log_file (identity_tmp_path suffix).
Proof.
  unfold identity_tmp_path. rewrite !str_app_assoc. intros [Hw|Hw].
  - by rewrite (str_ends_with_last "l" ".wal" "aw." "p" ".tmp" "mt.") in Hw.
  - by rewrite (str_ends_with_last "t" ".corrupt" "purroc." "p" ".tmp" "mt.") in Hw.
Qed.

Lemma observe_log io suffix root r observed root' r' res :
  observe_epoch_and_bump io suffix root r observed = (root', r', res) →
  (∀ name, log_file name → root' !! name = root !! name) ∧ ri_writer_id r' = ri_writer_id r.
Proof.
  unfold observe_epoch_and_bump. destruct (observed <? ri_writer_epoch r)%N; [by intros [= <- <- <-]|].
  destruct (checked_next observed) as [e|]; [|by intros [= <- <- <-]].
  destruct (persist_identity _ _ _ _) as [root1 res1] eqn:Hp. intros Heq.
  assert (root' = root1 ∧ ri_writer_id r' = ri_writer_id r) as [-> ->] by (by destruct res1; simplify_eq).
  split; [|done]. apply atomic_replace_spec in Hp as (_ & _ & Hoth); [|apply identity_tmp_ne].
  intros name Hw. apply Hoth; intros ->; [by apply tmp_not_log in Hw|by destruct Hw].
Qed.

Lemma checkpoint_log fails torn root committed name :
  log_file name → (persist_committed_checkpoint fails torn root committed).1 !! name = root !! name.
Proof.
  intros Hn. assert (name ≠ COMMITTED_TMP_FILE ∧ name ≠ COMMITTED_CHECKPOINT_FILE) as [H1' H2']
    by (split; intros ->; by destruct Hn).
  unfold persist_committed_checkpoint, rename_file. rewrite lookup_insert_eq.
  repeat case_match; simpl; rewrite ?lookup_insert_ne, ?lookup_delete_ne, ?lookup_insert_ne by done; done.
Qed.

Lemma gc_log read_ok remove_ok current_seq committed root :
  log_shrinks root (collect_garbage read_ok remove_ok current_seq committed root).1.
Proof.
  unfold collect_garbage. destruct (mark_voided_frames _) as [segments x]. clear x.
  assert (∀ ret r d, log_shrinks r (delete_dead_segments remove_ok committed segments ret r d).1) as Hd; [|done].
  induction segments as [|s segments IH]; intros ret r d; simpl; [done|].
  destruct (_ && _); [|done]. etrans; [|apply IH]. intros name _.
  destruct (decide (name = sg_path s)) as [->|Hne]; [right; apply lookup_delete_eq|left; by apply lookup_delete_ne].
Qed.
End roots.

(** ** Moves of a buffer *)
Section frame.
Context {Batch Schema Spec Order : Type} `{!BatchOps Batch} `{!TableLayout Schema Spec}.
Context `{UuidTextLaws} `{IdentityJson} `{PreparedJson} `{CommittedJson} `{WalCodec}.
Context (max_files max_bytes : N) (status_check : CommitStatusCheckConfig) (table_uuid : Uuid).
Abbreviation Buf := (@TableBuffer Batch Schema Spec Order).
Abbreviation Op := (@BufOp Batch Schema Spec Order).
Abbreviation Wd := (@World Batch Schema Spec Order).

(** [acked]: the catalog has reported a commit. *)
Context (acked : Prop).

Definition moving_op (op : Op) : Prop :=
  match op with
  | DoInsert _ _ _ | DoReserve _ | DoRelease _ | DoInsertReserved _ _ _ _ | DoInsertWithGeneration _ _ _ _ => False
  | DoCommitted _ _ => acked
  | _ => True
  end.

Inductive moves (t : Buf) : Buf → Prop :=
| moves_refl : moves t t
| moves_step t' now op : moves t t' → moving_op op → moves t (exec now t' op).

#[export] Instance moves_preorder : PreOrder moves.
Proof.
  split; [intros t; apply moves_refl|]. intros t1 t2 t3 H12 H23. induction H23; [exact H12|]. by apply moves_step.
Qed.

Lemma moves_one t now op t' : moving_op op → exec now t op = t' → moves t t'.
Proof. intros Hop <-. by apply moves_step; [apply moves_refl|]. Qed.

Lemma exec_moving now t op :
  moving_op op →
  next_gen (tb_state (exec now t op)) = next_gen (tb_state t) ∧
  reserved_generations (tb_state (exec now t op)) = reserved_generations (tb_state t) ∧
  (committed_high_water (tb_state t) ≤ committed_high_water (tb_state (exec now t op)))%N ∧
  (committed_high_water (tb_state (exec now t op)) = committed_high_water (tb_state t) ∨ acked).
Proof.
  destruct op; simpl; try done; intros Hop;
    unfold drain_pending_to_in_flight, set_prepared, restore_prepared, mark_flush_blocked_with_class,
      mark_blocked_recheck, mark_committed, rollback_unprepared_flush, mark_flush_failed;
    repeat case_match; simplify_eq/=; split_and!; auto; lia.
Qed.

Lemma moves_keep t t' :
  moves t t' →
  next_gen (tb_state t') = next_gen (tb_state t) ∧
  reserved_generations (tb_state t') = reserved_generations (tb_state t) ∧
  (committed_high_water (tb_state t) ≤ committed_high_water (tb_state t'))%N ∧
  (committed_high_water (tb_state t') = committed_high_water (tb_state t) ∨ acked) ∧ tb_ident t' = tb_ident t.
Proof.
  induction 1 as [|t' now op _ IH Hop]; [split_and!; auto; lia|]. destruct IH as (<- & <- & Hle & Hc & <-).
  destruct (exec_moving now t' op Hop) as (Hn & Hr & Hle' & Hc'). rewrite exec_ident.
  split_and!; try done; [lia|]. destruct Hc, Hc'; auto. left. congruence.
Qed.

(** ** Flushes *)

(** The intents of other tables stay. *)
Definition sidecars_kept (d d' : option WalDir) : Prop :=
  ∀ u, u ≠ table_uuid → default ∅ d' !! path_for u = (default ∅ d : WalDir) !! path_for u.

(** A step of a flush of the table that runs alone. *)
Definition quiet (w w' : Wd) : Prop :=
  moves (w_buf w) (w_buf w') ∧ log_shrinks (w_root w) (w_root w') ∧
  ri_writer_id (w_identity w') = ri_writer_id (w_identity w) ∧ sidecars_kept (w_prepared w) (w_prepared w').

#[export] Instance quiet_preorder : PreOrder quiet.
Proof.
  split; [intros w; by split_and!|]. intros w1 w2 w3 (? & ? & ? & Hs) (? & ? & ? & Hs').
  split_and!; [by etrans..|congruence|]. intros u Hu. by rewrite Hs', Hs.
Qed.

Definition alone (sched : Buf → list (N * Op)) : Prop := ∀ t, sched t = [].
Definition commit_alone (env : @CommitEnv Batch Schema Spec Order) : Prop :=
  alone (ce_others env) ∧ (∀ m, ce_reply env = Ok m → acked).
Definition status_alone (env : @StatusEnv Batch Schema Spec Order) : Prop :=
  alone (se_others env) ∧ (∀ m, se_status env = Ok (StCommitted m) → acked) ∧ commit_alone (se_commit env).
Definition flush_alone (env : @FlushEnv Batch Schema Spec Order) : Prop :=
  alone (fe_others env) ∧ commit_alone (fe_commit env) ∧ ∀ n, status_alone (fe_status env n).

Lemma others_alone sched (w : Wd) : alone sched → others sched w = w.
Proof. intros Ha. unfold others. rewrite Ha. by destruct w. Qed.

Lemma quiet_buf w t now op : moving_op op → exec now (w_buf w) op = t → quiet w (with_buf w t).
Proof. intros Hop He. split_and!; simpl; [by eapply moves_one|done|done|done]. Qed.

Lemma remove_quiet fault w w' r : wal_remove_prepared fault w table_uuid = (w', r) → quiet w w'.
Proof.
  unfold wal_remove_prepared. destruct (remove_prepared _ _ _) as [d r1] eqn:Hr. intros [= <- <-].
  split_and!; simpl; try done. intros u Hu. revert Hr. unfold remove_prepared.
  assert (path_for table_uuid ≠ path_for u) by (intros Heq; by apply Hu, path_for_inj).
  repeat case_match; intros [= <- <-]; simpl; rewrite ?lookup_delete_ne by done; done.
Qed.

Lemma persist_quiet pe w p w' r :
  pf_table_uuid p = table_uuid → wal_persist_prepared max_files max_bytes pe w p = (w', r) → quiet w w'.
Proof.
  intros Hp. unfold wal_persist_prepared.
  destruct (persist_prepared _ _ _ _ _ _ _ _) as [d r1] eqn:Hr. intros [= <- <-].
  split_and!; simpl; try done. intros u Hu. revert Hr. unfold persist_prepared. rewrite Hp.
  repeat case_match; intros [= <- <-]; simpl; try done.
  match goal with Ha : atomic_replace _ _ _ _ _ _ = _ |- _ => apply atomic_replace_spec in Ha as (_ & _ & Ho) end.
  - apply Ho; [|by intros ?%path_for_inj].
    intros Heq. pose proof (path_for_json u) as Hj. by rewrite Heq, tmp_not_json in Hj.
  - intros Heq. pose proof (path_for_json table_uuid) as Hj. by rewrite <-Heq, tmp_not_json in Hj.
Qed.

Lemma mark_committed_quiet fails torn w k g : quiet w (wal_mark_committed fails torn w k g).
Proof.
  unfold wal_mark_committed. split_and!; simpl; [done| |done|done].
  apply log_shrinks_same. intros name Hn. by apply checkpoint_log.
Qed.

Lemma gc_quiet ro rm seq w : quiet w (wal_gc ro rm seq w).
Proof. split_and!; simpl; [done|apply gc_log|done|done]. Qed.

Lemma observe_quiet io suffix w e w' r : wal_observe_epoch io suffix w e = (w', r) → quiet w w'.
Proof.
  unfold wal_observe_epoch. destruct (observe_epoch_and_bump _ _ _ _ _) as [[root id] res] eqn:Ho.
  intros [= <- <-]. apply observe_log in Ho as [Hl Hid]. split_and!; simpl; [done|by apply log_shrinks_same|done|done].
Qed.

Lemma complete_quiet env w p m w' r :
  acked → pf_table_uuid p = table_uuid → complete_flush env w p m = (w', r) → quiet w w'.
Proof.
  intros Hack Hp. unfold complete_flush. destruct (mark_committed _ _ _ _) as [b r1] eqn:Hm.
  assert (quiet w (with_buf w b)) as Hq
    by (by apply (quiet_buf w b (ce_now env) (DoCommitted (gr_hi (pf_generations p)) m)); simpl; rewrite ?Hm).
  destruct r1 as [u|e]; [|by intros [= <- <-]].
  rewrite Hp. destruct (wal_remove_prepared _ _ _) as [w2 r2] eqn:Hr. intros [= <- <-].
  apply remove_quiet in Hr. etrans; [exact Hq|]. etrans; [|apply gc_quiet]. etrans; [|exact Hr].
  apply mark_committed_quiet.
Qed.

Lemma block_quiet w now p e c a b r :
  mark_flush_blocked_with_class (w_buf w) now p e c a = (b, r) → quiet w (with_buf w b).
Proof. intros Hb. apply (quiet_buf w b 0 (DoBlock now p e c a)); [done|]. simpl. by rewrite Hb. Qed.

Lemma retire_quiet env w p w' r :
  pf_table_uuid p = table_uuid → retire_intent env w p = (w', r) → quiet w w'.
Proof.
  intros Hp. unfold retire_intent. rewrite Hp. destruct (wal_remove_prepared _ _ _) as [w1 [u|e]] eqn:Hr; apply remove_quiet in Hr.
  2: by intros [= <- <-].
  destruct (mark_flush_failed (w_buf w1) p) as [b r1] eqn:Hf. intros [= <- <-]. etrans; [exact Hr|].
  apply (quiet_buf w1 b 0 (DoFailed p)); [done|]. simpl. by rewrite Hf.
Qed.

Lemma refresh_quiet env w : quiet w (refresh_after_conflict env w).
Proof.
  unfold refresh_after_conflict. destruct (ce_reload env) as [m|]; [|done]. by apply (quiet_buf w _ 0 (DoRefresh m)).
Qed.

Lemma commit_quiet env w p w' r :
  commit_alone env → pf_table_uuid p = table_uuid → commit_flush env w p = (w', r) → quiet w w'.
Proof.
  intros [Ha Hack] Hp. unfold commit_flush. rewrite others_alone by done.
  destruct (ce_reply env) as [m|error]; [intros Hc; by eapply complete_quiet, Hc; eauto|].
  assert (∀ w1, quiet w w1 →
    (match retire_intent env w1 p with
     | (w2, Ok _) => (w2, Err error)
     | (w2, Err e) => (w2, Err e)
     end : Wd * TeoDBResult FlushOutcome) = (w', r) → quiet w w') as Hretire.
  { intros w1 Hq. destruct (retire_intent env w1 p) as [w2 [u|e]] eqn:Hr; apply retire_quiet in Hr; try done;
      intros [= <- <-]; by etrans. }
  assert ((match mark_flush_blocked_with_class (w_buf w) (ce_now_ms env) p "{error}" (code error) 1 with
           | (b, Ok _) => (with_buf w b, Err error)
           | (b, Err e) => (with_buf w b, Err e)
           end : Wd * TeoDBResult FlushOutcome) = (w', r) → quiet w w') as Hblock.
  { destruct (mark_flush_blocked_with_class _ _ _ _ _ _) as [b [u|e]] eqn:Hb; apply block_quiet in Hb;
      by intros [= <- <-]. }
  destruct error; try exact Hblock; try (by apply Hretire); try (by intros [= <- <-]).
  - destruct (retire_intent env w p) as [w2 [u|e]] eqn:Hr; apply retire_quiet in Hr; try done;
      intros [= <- <-]; [|done]. etrans; [exact Hr|apply refresh_quiet].
  - destruct (wal_observe_epoch _ _ _ _) as [w1 [u|e]] eqn:Ho; apply observe_quiet in Ho;
      [by apply Hretire|by intros [= <- <-]].
Qed.

Lemma check_quiet env w p a c le w' x :
  status_alone env → pf_table_uuid p = table_uuid → check_status env w p a c le = (w', x) → quiet w w'.
Proof.
  intros (Ha & Hack & Hce) Hp. unfold check_status. rewrite others_alone by done.
  destruct (se_status env) as [[m| |msg]|error].
  - destruct (complete_flush _ w p m) as [w1 r] eqn:Hc. intros [= <- <-]. by eapply complete_quiet, Hc; eauto.
  - destruct (2 <=? _)%N; [|by intros [= <- <-]].
    destruct (commit_flush (se_commit env) w p) as [w1 r] eqn:Hc. apply commit_quiet in Hc; [|done|done].
    destruct r as [o|[]]; by intros [= <- <-].
  - by intros [= <- <-].
  - destruct (negb _); [|by intros [= <- <-]].
    destruct (mark_flush_blocked_with_class _ _ _ _ _ _) as [b [u|e]] eqn:Hb; apply block_quiet in Hb;
      by intros [= <- <-].
Qed.

Lemma resolve_loop_quiet fuel envs : (∀ n, status_alone (envs n)) → ∀ w p a c le w' r,
  pf_table_uuid p = table_uuid →
  resolve_loop status_check fuel envs w p a c le = Some (w', r) → quiet w w'.
Proof.
  intros Hen. induction fuel as [|fuel IH]; intros w p a c le w' r Hp; simpl; [done|].
  destruct (check_status _ _ _ _ _ _) as [w1 x] eqn:Hc. apply check_quiet in Hc; [|done|done].
  destruct x as [r1|[le1 c1]]; [by intros [= <- <-]|]. destruct (_ || _).
  - unfold block_unknown, mark_flush_blocked.
    destruct (mark_flush_blocked_with_class _ _ _ _ _ _) as [b [u|e]] eqn:Hb; apply block_quiet in Hb;
      intros [= <- <-]; by etrans.
  - intros Hr%IH; [by etrans|done].
Qed.

Lemma commit_prepared_quiet fuel pe ce envs w p w' r :
  commit_alone ce → (∀ n, status_alone (envs n)) → pf_table_uuid p = table_uuid →
  commit_prepared max_files max_bytes status_check fuel pe ce envs w p = Some (w', r) → quiet w w'.
Proof.
  intros Hce Hen Hpu. unfold commit_prepared.
  destruct (wal_persist_prepared _ _ _ _ _) as [w1 [u|e]] eqn:Hp; apply persist_quiet in Hp; try done;
    [|by intros [= <- <-]].
  destruct (commit_flush ce w1 p) as [w2 r2] eqn:Hc. apply commit_quiet in Hc; [|done|done].
  assert (quiet w w2) by (by etrans).
  destruct r2 as [o|[]]; try (by intros [= <- <-]). intros Hr%resolve_loop_quiet; [by etrans|done|done].
Qed.

Lemma rollback_quiet w e w' r : rollback_with w e = (w', r) → quiet w w'.
Proof.
  unfold rollback_with. destruct (rollback_unprepared_flush (w_buf w)) as [b r1] eqn:Hr.
  assert (quiet w (with_buf w b)) by (apply (quiet_buf w b 0 DoRollback); [done|simpl; by rewrite Hr]).
  destruct r1; by intros [= <- <-].
Qed.

Lemma flush_quiet fuel env w w' r :
  flush_alone env → tm_table_uuid (tb_metadata (w_buf w)) = table_uuid →
  (∀ p, prepared_flush (w_buf w) = Some p → pf_table_uuid p = table_uuid) →
  flush_once_inner max_files max_bytes status_check fuel env w = Some (w', r) → quiet w w'.
Proof.
  intros (Ha & Hce & Hen) Hm Hp. unfold flush_once_inner. destruct (blocked_flush (w_buf w)); [by intros [= <- <-]|].
  destruct (prepared_flush (w_buf w)); [apply commit_prepared_quiet; auto|].
  destruct (drain_pending_to_in_flight (w_buf w)) as [t l] eqn:Hd.
  assert (quiet w (with_buf w t)) as Hq by (apply (quiet_buf w t 0 DoDrain); [done|simpl; by rewrite Hd]).
  assert (tb_metadata t = tb_metadata (w_buf w)) as Ht
    by (revert Hd; unfold drain_pending_to_in_flight; repeat case_match; by intros [= <- <-]).
  destruct l as [|e0 l]; [by intros [= <- <-]|]. cbv zeta. rewrite others_alone by done.
  destruct (GenerationRange_new _ _); [|intros [= Hr]; apply rollback_quiet in Hr; by etrans].
  destruct (fe_files env); [|intros [= Hr]; apply rollback_quiet in Hr; by etrans].
  destruct (validate_prepared_data_files _ _); [|intros [= Hr]; apply rollback_quiet in Hr; by etrans].
  destruct (set_prepared _ _) as [b3 r3] eqn:Hs. cbn [w_buf with_buf] in Hs.
  assert (quiet w (with_buf (with_buf w t) b3)) as Hq3.
  { etrans; [exact Hq|]. eapply (quiet_buf _ b3 0 (DoSetPrepared _)); [done|]. simpl. by rewrite Hs. }
  destruct r3; [intros Hr%commit_prepared_quiet; [by etrans|done|done|simpl; congruence]|].
  intros [= Hr]; apply rollback_quiet in Hr; by etrans.
Qed.
End frame.
