(* ===== verification/Json.v ===== *)
(** * Flattening of ingested JSON rows

    Models [teodb-ingest/src/json.rs]: nested objects become dotted column names and
    arrays become their JSON text.  A [serde_json::Map] is the list of its entries in
    iteration order, which is key order. *)

From S2P Require Import Prelude.
Open Scope nat_scope.
Open Scope list_scope.

#[warnings="-register-all"]
Inductive Json :=
| JNull
| JBool (b : bool)
| JNumber (text : string)
| JString (s : string)
| JArray (l : list Json)
| JObject (m : list (string * Json)).
Abbreviation JMap := (list (string * Json)).

(** [serde_json::to_string]. *)
Class JsonText := { json_to_string : Json → option string }.

(** [Map::get] and [Map::insert]. *)
Fixpoint obj_get (k : string) (m : JMap) : option Json :=
  match m with
  | [] => None
  | (k', v) :: m => if decide (k = k') then Some v else obj_get k m
  end.
Fixpoint obj_insert (k : string) (v : Json) (m : JMap) : JMap :=
  match m with
  | [] => [(k, v)]
  | (k', v') :: m' =>
      match String.compare k k' with
      | Lt => (k, v) :: m
      | Eq => (k, v) :: m'
      | Gt => (k', v') :: obj_insert k v m'
      end
  end.

Section flatten.
Context `{JsonText}.

Definition full_key (prefix key : string) : string :=
  if str_is_empty prefix then key else prefix +:+ "." +:+ key.

Definition array_text (value : Json) : string := default "[]" (json_to_string value).

(** One entry of the loop, recursive calls included. *)
Fixpoint flatten_entry (value : Json) (k : string) (dst : JMap) : JMap :=
  match value with
  | JObject nested =>
      (fix go (src : JMap) (dst : JMap) : JMap :=
         match src with
         | [] => dst
         | (key, v) :: src => go src (flatten_entry v (full_key k key) dst)
         end) nested dst
  | JArray _ => obj_insert k (JString (array_text value)) dst
  | _ => obj_insert k value dst
  end.

Fixpoint flatten_into (src dst : JMap) (prefix : string) : JMap :=
  match src with
  | [] => dst
  | (key, v) :: src => flatten_into src (flatten_entry v (full_key prefix key) dst) prefix
  end.

Definition flatten (value : Json) : Json :=
  match value with
  | JObject m => JObject (flatten_into m [] "")
  | other => other
  end.

Definition flatten_rows (rows : list Json) : list Json := map flatten rows.

(** ** What a flattened row holds *)

(** The column a path of keys leads to. *)
Fixpoint leaf_at (path : list string) (v : Json) : option Json :=
  match path, v with
  | [], JObject _ => None
  | [], JArray _ => Some (JString (array_text v))
  | [], v => Some v
  | key :: path, JObject m => obj_get key m ≫= leaf_at path
  | _ :: _, _ => None
  end.

Definition plain_key (k : string) : Prop := k ≠ "" ∧ str_free "." k = true.
Fixpoint plain (v : Json) : Prop :=
  match v with
  | JObject m =>
      NoDup m.*1 ∧ Forall plain_key m.*1 ∧
      (fix all (m : JMap) : Prop := match m with [] => True | (_, v) :: m => plain v ∧ all m end) m
  | _ => True
  end.

(** ** Lemmas *)
Lemma json_ind (P : Json → Prop) :
  P JNull → (∀ b, P (JBool b)) → (∀ t, P (JNumber t)) → (∀ s, P (JString s)) → (∀ l, P (JArray l)) →
  (∀ m, Forall (λ e, P e.2) m → P (JObject m)) → ∀ v, P v.
Proof.
  intros H1 H2 H3 H4 H5 H6. fix IH 1. intros [| | | | |m]; [done|done|done|done|done|].
  apply H6. induction m as [|[k v] m IHm]; constructor; [apply IH|apply IHm].
Qed.

Lemma string_compare_refl k : String.compare k k = Eq.
Proof. induction k as [|a k IH]; [done|]. simpl. unfold Ascii.compare. by rewrite N.compare_refl. Qed.

Lemma obj_get_insert k k' v m :
  obj_get k (obj_insert k' v m) = if decide (k = k') then Some v else obj_get k m.
Proof.
  induction m as [|[k0 v0] m IH]; simpl; [done|].
  destruct (String.compare k' k0) eqn:Hc; simpl.
  - apply String.compare_eq_iff in Hc as ->. by destruct (decide (k = k0)).
  - done.
  - rewrite IH. destruct (decide (k = k0)) as [->|]; [|done].
    destruct (decide (k0 = k')) as [->|]; [|done]. by rewrite string_compare_refl in Hc.
Qed.

Lemma flatten_entry_object m k dst : flatten_entry (JObject m) k dst =
  foldl (λ dst e, flatten_entry e.2 (full_key k e.1) dst) dst m.
Proof. simpl. revert dst. by induction m as [|[key v] m IH]; intros dst; simpl. Qed.
Lemma flatten_into_foldl src : ∀ dst prefix, flatten_into src dst prefix =
  foldl (λ dst e, flatten_entry e.2 (full_key prefix e.1) dst) dst src.
Proof. by induction src as [|[key v] src IH]; intros dst prefix; simpl. Qed.
Lemma plain_object m : plain (JObject m) ↔
  NoDup m.*1 ∧ Forall plain_key m.*1 ∧ Forall (λ e, plain e.2) m.
Proof.
  simpl. do 2 f_equiv. induction m as [|[k v] m IH]; [by rewrite Forall_nil|]. by rewrite Forall_cons, IH.
Qed.

(** Dotted names of plain paths. *)
Abbreviation dotted := (str_join ".").
Lemma dotted_cons k k' ks : dotted (k :: k' :: ks) = k +:+ "." +:+ dotted (k' :: ks).
Proof. done. Qed.
Lemma dotted_empty k ks : plain_key k → str_is_empty (dotted (k :: ks)) = false.
Proof. intros [Hne _]. destruct k as [|a k]; [done|]. by destruct ks. Qed.
Lemma full_key_dotted ks key : Forall plain_key ks → full_key (dotted ks) key = dotted (ks ++ [key]).
Proof.
  intros Hks. unfold full_key. destruct ks as [|k ks]; [done|].
  apply Forall_cons in Hks as [Hk Hks]. rewrite dotted_empty by done. clear Hk.
  revert k. induction ks as [|k' ks IH]; intros k; [done|].
  apply Forall_cons in Hks as [_ Hks]. simpl app. rewrite !dotted_cons, <-!str_app_assoc. do 2 f_equal.
  by apply (IH Hks k').
Qed.
Lemma split_dotted ks : ks ≠ [] → Forall plain_key ks → str_split "." (dotted ks) = ks.
Proof.
  destruct ks as [|k ks]; [done|]. intros _ Hks. apply str_split_join.
  eapply Forall_impl; [exact Hks|]. by intros x [_ ?].
Qed.
Lemma dotted_split k : dotted (str_split "." k) = k.
Proof.
  induction k as [|a k IH]; [done|]. simpl str_split. case_decide as Ha.
  - subst a. destruct (str_split "." k) as [|w ws] eqn:Hs; [by destruct k; simpl in Hs; repeat case_match|].
    rewrite dotted_cons, IH. done.
  - destruct (str_split "." k) as [|w ws] eqn:Hs; [by destruct k; simpl in Hs; repeat case_match|].
    rewrite <-IH. by destruct ws.
Qed.

Fixpoint strip_path (ks path : list string) : option (list string) :=
  match ks, path with
  | [], path => Some path
  | k :: ks, k' :: path => if decide (k = k') then strip_path ks path else None
  | _ :: _, [] => None
  end.
Lemma strip_path_Some ks path p : strip_path ks path = Some p ↔ path = ks ++ p.
Proof.
  revert path. induction ks as [|k ks IH]; intros [|k' path]; simpl; try naive_solver.
  case_decide; [|naive_solver]. rewrite IH. naive_solver.
Qed.
Lemma strip_path_app ks k path :
  strip_path (ks ++ [k]) path = strip_path ks path ≫= λ p, strip_path [k] p.
Proof.
  revert path. induction ks as [|k' ks IH]; intros path; [done|]. destruct path as [|k0 path]; simpl; [done|].
  case_decide; [|done]. apply IH.
Qed.

(** What an entry adds to the row. *)
Definition added (v : Json) (ks : list string) (col : string) : option Json :=
  strip_path ks (str_split "." col) ≫= λ path, leaf_at path v.

Lemma added_leaf v ks col x : ks ≠ [] → Forall plain_key ks →
  (∀ path, leaf_at path v = match path with [] => Some x | _ => None end) →
  added v ks col = if decide (col = dotted ks) then Some x else None.
Proof.
  intros Hne Hks Hv. unfold added. case_decide as Hc.
  - subst col. rewrite split_dotted by done.
    assert (strip_path ks ks = Some []) as -> by (apply strip_path_Some; by rewrite app_nil_r).
    cbn [mbind option_bind]. by rewrite Hv.
  - destruct (strip_path ks (str_split "." col)) as [path|] eqn:Hp; [|done]. cbn [mbind option_bind]. rewrite Hv.
    destruct path; [|done]. exfalso. apply Hc. apply strip_path_Some in Hp. rewrite app_nil_r in Hp.
    by rewrite <-Hp, dotted_split.
Qed.

Lemma added_object m ks col :
  added (JObject m) ks col =
  match strip_path ks (str_split "." col) with
  | Some (key :: path) => obj_get key m ≫= leaf_at path
  | _ => None
  end.
Proof. unfold added. by destruct (strip_path _ _) as [[|key path]|]. Qed.

Lemma flatten_entries_get m ks :
  Forall plain_key ks → NoDup m.*1 → Forall plain_key m.*1 →
  Forall (λ e, ∀ ks dst col, ks ≠ [] → Forall plain_key ks →
     obj_get col (flatten_entry e.2 (dotted ks) dst) =
     match added e.2 ks col with Some x => Some x | None => obj_get col dst end) m →
  ∀ dst col,
    obj_get col (foldl (λ dst e, flatten_entry e.2 (full_key (dotted ks) e.1) dst) dst m) =
    match added (JObject m) ks col with Some x => Some x | None => obj_get col dst end.
Proof.
  intros Hks Hnd Hpl Hall dst col. rewrite added_object.
  revert dst. induction m as [|[k v] m IH]; intros dst; simpl.
  { by repeat case_match. }
  apply NoDup_cons in Hnd as [Hk Hnd]. apply Forall_cons in Hpl as [Hk' Hpl]. apply Forall_cons in Hall as [Hv Hall].
  simpl in *. rewrite IH by done. rewrite full_key_dotted by done.
  rewrite Hv; [|by destruct ks|apply Forall_app; split; [done|by apply Forall_singleton]].
  unfold added. rewrite strip_path_app.
  destruct (strip_path ks (str_split "." col)) as [[|key path]|]; simpl; [done| |done].
  destruct (decide (k = key)) as [->|Hne].
  - rewrite decide_True by done. simpl. assert (obj_get key m = None) as ->; [|done].
    clear -Hk. induction m as [|[k v] m IH]; [done|]. simpl in *. rewrite decide_False by set_solver. apply IH. set_solver.
  - rewrite decide_False by done. done.
Qed.

Lemma flatten_entry_get v : plain v → ∀ ks dst col, ks ≠ [] → Forall plain_key ks →
  obj_get col (flatten_entry v (dotted ks) dst) =
  match added v ks col with Some x => Some x | None => obj_get col dst end.
Proof.
  induction v as [|b|t|s|l|m IH] using json_ind; intros Hpl ks dst col Hne Hks;
    try (simpl flatten_entry; rewrite obj_get_insert;
         erewrite added_leaf; [|done|done|by intros [|? ?]]; by case_decide).
  apply plain_object in Hpl as (Hnd & Hpl & Hall). rewrite flatten_entry_object.
  apply flatten_entries_get; try done. rewrite Forall_forall in *. intros e He ks' dst' col' Hne' Hks'.
  apply IH; auto.
Qed.

(** Flattening is exact on rows whose object keys are non-empty and contain no dot: the
    flattened row has a column for precisely the paths that lead to a value other than an object,
    named by the keys of the path joined with dots, and it holds that value, or its JSON text for an
    array. *)
Theorem flatten_exact (m : JMap) (Hplain : plain (JObject m)) :
  ∃ row, flatten (JObject m) = JObject row ∧
    ∀ column, obj_get column row = leaf_at (str_split "." column) (JObject m).
Proof.
  eexists. split; [done|]. intros col. rewrite flatten_into_foldl.
  apply plain_object in Hplain as (Hnd & Hpl & Hall).
  rewrite (flatten_entries_get m []); [|done|done|done|].
  - unfold added. simpl strip_path. cbn [mbind option_bind]. by destruct (leaf_at _ _).
  - eapply Forall_impl; [exact Hall|]. intros e He ks dst col' Hne Hks. by apply flatten_entry_get.
Qed.
End flatten.

Definition demo_json_text : JsonText := {| json_to_string v := Some "[1]" |}.
Definition demo_row : JMap :=
  [("active", JBool true); ("tags", JArray [JNumber "1"]);
   ("user", JObject [("age", JNumber "30"); ("name", JObject [("first", JString "Ada")])])].
Lemma flatten_exact_witness :
  ∃ row, @flatten demo_json_text (JObject demo_row) = JObject row ∧
    obj_get "user.name.first" row = Some (JString "Ada") ∧ obj_get "tags" row = Some (JString "[1]") ∧
    obj_get "user" row = None.
Proof.
  destruct (@flatten_exact demo_json_text demo_row) as (row & Hrow & Hget).
  { repeat match goal with
    | |- _ ∧ _ => split
    | |- NoDup _ => apply (bool_decide_unpack _); vm_compute; exact I
    | |- Forall _ _ => repeat (apply Forall_cons; split); try apply Forall_nil
    | |- _ => split || exact I || (vm_compute; discriminate) || reflexivity
    end. }
  exists row. split; [exact Hrow|]. rewrite !Hget. vm_compute. repeat split.
Defined.

(** A dotted key and a nested key can name the same column; then one value is dropped. *)
Example flatten_collision :
  @flatten demo_json_text (JObject [("a", JObject [("b", JNumber "1")]); ("a.b", JNumber "2")])
  = JObject [("a.b", JNumber "2")].
Proof. reflexivity. Qed.
