(* ===== verification/Idempotency.v ===== *)
(** * The idempotency index

    Models [teodb-ingest/src/idempotency.rs]: the claim-before-WAL handshake on
    idempotency keys.  Times are the readings of a monotonic clock.  The completed
    entries live in a bounded cache which may drop an entry at any time; that is an
    operation of its own here. *)

From S2P Require Import Prelude Core.
Open Scope nat_scope.
Open Scope list_scope.

Record IngestReceipt := mkIngestReceipt {
  ir_batch_id : Uuid; ir_writer_id : Uuid; ir_generation : N; ir_accepted_rows : N }.

Inductive Claim := Acquired | Duplicate (r : IngestReceipt) | InProgress.

Record CompletedEntry := mkCompletedEntry { ce_receipt : IngestReceipt; ce_claimed_at : N }.

Record TableIndex := mkTableIndex {
  in_progress : gmap string N;
  completed : gmap string CompletedEntry;
}.

Record IdempotencyIndex := mkIdempotencyIndex {
  ii_tables : gmap TableIdent TableIndex;
  ii_ttl : N;
}.
Definition IdempotencyIndex_new (ttl : N) : IdempotencyIndex := mkIdempotencyIndex ∅ ttl.
Definition with_table (i : IdempotencyIndex) (table : TableIdent) (x : TableIndex) : IdempotencyIndex :=
  mkIdempotencyIndex (<[table := x]> (ii_tables i)) (ii_ttl i).

Definition table_index (i : IdempotencyIndex) (table : TableIdent) : TableIndex :=
  default (mkTableIndex ∅ ∅) (ii_tables i !! table).

Definition completed_duplicate (ttl : N) (x : TableIndex) (key : string) (now : N) : TableIndex * option IngestReceipt :=
  match completed x !! key with
  | None => (x, None)
  | Some c =>
      if (now - ce_claimed_at c <=? ttl)%N then (x, Some (ce_receipt c))
      else (mkTableIndex (in_progress x) (delete key (completed x)), None)
  end.

(** The first look, without the lock. *)
Definition claim_check (now : N) (i : IdempotencyIndex) (table : TableIdent) (key : string) :
    IdempotencyIndex * option IngestReceipt :=
  let '(x, r) := completed_duplicate (ii_ttl i) (table_index i table) key now in (with_table i table x, r).

(** The rest of [claim], under the lock of the table's index. *)
Definition claim_locked (now : N) (i : IdempotencyIndex) (table : TableIdent) (key : string) :
    IdempotencyIndex * Claim :=
  match completed_duplicate (ii_ttl i) (table_index i table) key now with
  | (x, Some r) => (with_table i table x, Duplicate r)
  | (x, None) =>
      let won := (with_table i table (mkTableIndex (<[key := now]> (in_progress x)) (completed x)), Acquired) in
      match in_progress x !! key with
      | Some claimed_at => if (now - claimed_at <=? ii_ttl i)%N then (with_table i table x, InProgress) else won
      | None => won
      end
  end.

Definition claim (now : N) (i : IdempotencyIndex) (table : TableIdent) (key : string) : IdempotencyIndex * Claim :=
  match claim_check now i table key with
  | (i, Some r) => (i, Duplicate r)
  | (i, None) => claim_locked now i table key
  end.

Definition complete (i : IdempotencyIndex) (table : TableIdent) (key : string) (r : IngestReceipt) : IdempotencyIndex :=
  match ii_tables i !! table with
  | None => i
  | Some x =>
      match in_progress x !! key with
      | None => i
      | Some claimed_at =>
          with_table i table
            (mkTableIndex (delete key (in_progress x)) (<[key := mkCompletedEntry r claimed_at]> (completed x)))
      end
  end.

Definition abort (i : IdempotencyIndex) (table : TableIdent) (key : string) : IdempotencyIndex :=
  match ii_tables i !! table with
  | None => i
  | Some x => with_table i table (mkTableIndex (delete key (in_progress x)) (completed x))
  end.

Definition record_completed (now : N) (i : IdempotencyIndex) (table : TableIdent) (key : string)
    (r : IngestReceipt) : IdempotencyIndex :=
  let x := table_index i table in
  with_table i table (mkTableIndex (in_progress x) (<[key := mkCompletedEntry r now]> (completed x))).

Definition evict_table (i : IdempotencyIndex) (table : TableIdent) : IdempotencyIndex :=
  mkIdempotencyIndex (delete table (ii_tables i)) (ii_ttl i).

(** The cache drops a completed key. *)
Definition cache_evict (i : IdempotencyIndex) (table : TableIdent) (key : string) : IdempotencyIndex :=
  match ii_tables i !! table with
  | None => i
  | Some x => with_table i table (mkTableIndex (in_progress x) (delete key (completed x)))
  end.

(** ** Interleavings *)
Inductive IdemEvent :=
| EvCheck (now : N) (table : TableIdent) (key : string)
| EvLocked (now : N) (table : TableIdent) (key : string)
| EvComplete (table : TableIdent) (key : string) (r : IngestReceipt)
| EvAbort (table : TableIdent) (key : string)
| EvRecord (now : N) (table : TableIdent) (key : string) (r : IngestReceipt)
| EvEvictTable (table : TableIdent)
| EvCacheEvict (table : TableIdent) (key : string).

Definition idem_step (i : IdempotencyIndex) (e : IdemEvent) : IdempotencyIndex :=
  match e with
  | EvCheck now t k => (claim_check now i t k).1
  | EvLocked now t k => (claim_locked now i t k).1
  | EvComplete t k r => complete i t k r
  | EvAbort t k => abort i t k
  | EvRecord now t k r => record_completed now i t k r
  | EvEvictTable t => evict_table i t
  | EvCacheEvict t k => cache_evict i t k
  end.

(** [e] leaves a claim of [key] made at [since] alone: it does not release the key, and
    looks at it only within the time to live. *)
Definition keeps_claim (ttl since : N) (table : TableIdent) (key : string) (e : IdemEvent) : Prop :=
  match e with
  | EvCheck now t k | EvLocked now t k => t = table → k = key → (now - since ≤ ttl)%N
  | EvComplete _ _ _ => True
  | EvAbort t k | EvRecord _ t k _ | EvCacheEvict t k => ¬ (t = table ∧ k = key)
  | EvEvictTable t => t ≠ table
  end.

(** The receipt the key was first completed with. *)
Fixpoint first_receipt (table : TableIdent) (key : string) (es : list IdemEvent) : option IngestReceipt :=
  match es with
  | [] => None
  | EvComplete t k r :: es => if decide (t = table ∧ k = key) then Some r else first_receipt table key es
  | _ :: es => first_receipt table key es
  end.

(** ** Lemmas *)
Section lemmas.
Context (table : TableIdent) (key : string) (since : N).

(** The key is claimed since [since] and not completed, or completed with [r]. *)
Definition claim_is (i : IdempotencyIndex) (r : option IngestReceipt) : Prop :=
  ∃ x, ii_tables i !! table = Some x ∧
  match r with
  | None => in_progress x !! key = Some since ∧ completed x !! key = None
  | Some r => in_progress x !! key = None ∧ completed x !! key = Some (mkCompletedEntry r since)
  end.

Lemma claim_is_other i i' r :
  ii_tables i' !! table = ii_tables i !! table → claim_is i r → claim_is i' r.
Proof. intros Heq (x & Hx & H). exists x. by rewrite Heq. Qed.

Lemma with_table_ne i t x : t ≠ table → ii_tables (with_table i t x) !! table = ii_tables i !! table.
Proof. intros Hne. simpl. by rewrite lookup_insert_ne. Qed.

Lemma claim_is_same i x y r :
  ii_tables i !! table = Some x → in_progress y !! key = in_progress x !! key →
  completed y !! key = completed x !! key → claim_is i r → claim_is (with_table i table y) r.
Proof.
  intros Hx Hp Hc (x' & Hx' & H). simplify_eq. exists y. split; [apply lookup_insert_eq|].
  by destruct r; rewrite Hp, Hc.
Qed.

Lemma claim_is_duplicate ttl i x r now k y res :
  claim_is i r → ii_tables i !! table = Some x → (k = key → now - since ≤ ttl)%N →
  completed_duplicate ttl x k now = (y, res) →
  in_progress y = in_progress x ∧ completed y !! key = completed x !! key ∧ (k = key → y = x ∧ res = r).
Proof.
  intros (x' & Hx' & H) Hx Hnow Hd. assert (x' = x) as -> by congruence. unfold completed_duplicate in Hd.
  destruct (decide (k = key)) as [->|Hne].
  - specialize (Hnow eq_refl). destruct r as [r|]; destruct H as [Hp Hc]; rewrite Hc in Hd; [|by simplify_eq].
    simpl in Hd. rewrite (proj2 (N.leb_le _ _) Hnow) in Hd. by simplify_eq.
  - destruct (completed x !! k); [|by simplify_eq]. case_match; simplify_eq; [done|]. simpl.
    split_and!; [done| |done]. by rewrite lookup_delete_ne.
Qed.

Lemma claim_is_locked i r now t k :
  claim_is i r → (t = table → k = key → now - since ≤ ii_ttl i)%N →
  claim_is (claim_locked now i t k).1 r ∧
  (t = table → k = key → (claim_locked now i t k).2 = match r with Some r => Duplicate r | None => InProgress end).
Proof.
  intros Hi Hnow. unfold claim_locked. destruct (decide (t = table)) as [->|Hne].
  - pose proof Hi as (x & Hx & H). unfold table_index. rewrite Hx. simpl.
    destruct (completed_duplicate (ii_ttl i) x k now) as [y res] eqn:Hd.
    destruct (claim_is_duplicate _ _ _ _ _ _ _ _ Hi Hx (Hnow eq_refl) Hd) as (Hp & Hc & Hsame).
    destruct (decide (k = key)) as [->|Hk].
    + destruct (Hsame eq_refl) as [-> ->]. specialize (Hnow eq_refl eq_refl). destruct r as [r|].
      * split; [by eapply claim_is_same|done].
      * destruct H as [Hpr _]. rewrite Hpr, (proj2 (N.leb_le _ _) Hnow). split; [by eapply claim_is_same|done].
    + split; [|done]. destruct res as [r'|]; [eapply claim_is_same; [done|by rewrite Hp|done|done]|].
      assert (∀ v, claim_is (with_table i table (mkTableIndex (<[k := v]> (in_progress y)) (completed y))) r) as Hwon.
      { intros v. eapply claim_is_same; [done| |exact Hc|done]. simpl. by rewrite lookup_insert_ne, Hp. }
      destruct (in_progress y !! k); [|exact (Hwon now)]. destruct (_ <=? _)%N; [|exact (Hwon now)].
      eapply claim_is_same; [done|by rewrite Hp|done|done].
  - split; [|done].
    assert (∀ y, claim_is (with_table i t y) r) by (intros y; eapply claim_is_other; [by apply with_table_ne|done]).
    destruct (completed_duplicate _ _ _ _) as [y [r'|]]; simpl; [done|].
    destruct (in_progress y !! k); [destruct (_ <=? _)%N|]; simpl; auto.
Qed.

Lemma claim_is_check i r now t k :
  claim_is i r → (t = table → k = key → now - since ≤ ii_ttl i)%N →
  claim_is (claim_check now i t k).1 r ∧ (t = table → k = key → (claim_check now i t k).2 = r).
Proof.
  intros Hi Hnow. unfold claim_check.
  destruct (completed_duplicate (ii_ttl i) (table_index i t) k now) as [y res] eqn:Hd. simpl.
  destruct (decide (t = table)) as [->|Hne].
  - pose proof Hi as (x & Hx & H). unfold table_index in Hd. rewrite Hx in Hd.
    destruct (claim_is_duplicate _ _ _ _ _ _ _ _ Hi Hx (Hnow eq_refl) Hd) as (Hp & Hc & Hsame).
    split; [eapply claim_is_same; [done|by rewrite Hp|done|done]|]. intros _ Hk. by apply Hsame.
  - split; [|done]. eapply claim_is_other; [by apply with_table_ne|done].
Qed.

Lemma claim_is_step i r e :
  claim_is i r → keeps_claim (ii_ttl i) since table key e →
  claim_is (idem_step i e) (match r with Some r => Some r | None => first_receipt table key [e] end) ∧
  ii_ttl (idem_step i e) = ii_ttl i.
Proof.
  intros Hi Hk. split.
  2: { destruct e; simpl; unfold claim_check, claim_locked, complete, abort, cache_evict; repeat case_match;
       simplify_eq/=; done. }
  pose proof Hi as (x & Hx & H).
  destruct e as [now t k|now t k|t k r'|t k|now t k r'|t|t k]; simpl in *.
  - destruct r; by apply claim_is_check.
  - destruct r; by apply claim_is_locked.
  - unfold complete. case_decide as Htk.
    + destruct Htk as [-> ->]. rewrite Hx. destruct r as [r|]; destruct H as [Hp Hc]; rewrite Hp; [done|].
      eexists. simpl. split; [apply lookup_insert_eq|]. simpl. by rewrite lookup_delete_eq, lookup_insert_eq.
    + assert (claim_is (complete i t k r') r) as Hgoal; [|by destruct r].
      unfold complete. destruct (decide (t = table)) as [->|Hne].
      * rewrite Hx. destruct (in_progress x !! k); [|done]. assert (k ≠ key) by naive_solver.
        eapply claim_is_same; simpl; [done|by rewrite lookup_delete_ne|by rewrite lookup_insert_ne|done].
      * destruct (ii_tables i !! t) as [y|]; [destruct (in_progress y !! k)|]; try done; (eapply claim_is_other; [by apply with_table_ne|done]).
  - assert (claim_is (abort i t k) r) as Hgoal; [|by destruct r]. unfold abort.
    destruct (decide (t = table)) as [->|Hne]; [|destruct (ii_tables i !! t); [|done]; (eapply claim_is_other; [by apply with_table_ne|done])].
    rewrite Hx. assert (k ≠ key) by naive_solver.
    eapply claim_is_same; simpl; [done|by rewrite lookup_delete_ne|done|done].
  - assert (claim_is (record_completed now i t k r') r) as Hgoal; [|by destruct r]. unfold record_completed.
    destruct (decide (t = table)) as [->|Hne]; [|eapply claim_is_other; [by apply with_table_ne|done]].
    unfold table_index. rewrite Hx. assert (k ≠ key) by naive_solver.
    eapply claim_is_same; simpl; [done|done|by rewrite lookup_insert_ne|done].
  - assert (claim_is (evict_table i t) r) as Hgoal; [|by destruct r]. eapply claim_is_other; [|done].
    simpl. by rewrite lookup_delete_ne.
  - assert (claim_is (cache_evict i t k) r) as Hgoal; [|by destruct r]. unfold cache_evict.
    destruct (decide (t = table)) as [->|Hne]; [|destruct (ii_tables i !! t); [|done]; (eapply claim_is_other; [by apply with_table_ne|done])].
    rewrite Hx. assert (k ≠ key) by naive_solver.
    eapply claim_is_same; simpl; [done|done|by rewrite lookup_delete_ne|done].
Qed.

Lemma claim_is_steps es : ∀ i r, claim_is i r → Forall (keeps_claim (ii_ttl i) since table key) es →
  claim_is (foldl idem_step i es) (match r with Some r => Some r | None => first_receipt table key es end) ∧
  ii_ttl (foldl idem_step i es) = ii_ttl i.
Proof.
  induction es as [|e es IH]; intros i r Hi Hes; simpl; [by destruct r|].
  apply Forall_cons in Hes as [He Hes]. destruct (claim_is_step i r e Hi He) as [Hi' Httl].
  rewrite <-Httl in Hes. destruct (IH _ _ Hi' Hes) as [Hr Httl']. rewrite Httl', Httl. split; [|done].
  destruct r as [r|]; [done|]. simpl in Hr. destruct e; simpl in *; try done. by case_decide.
Qed.
End lemmas.

Lemma completed_duplicate_None ttl x key now y :
  completed_duplicate ttl x key now = (y, None) → completed y !! key = None.
Proof.
  unfold completed_duplicate. destruct (completed x !! key) eqn:Hc; [|by intros [= <-]].
  destruct (_ <=? _)%N; [done|]. intros [= <-]. apply lookup_delete_eq.
Qed.

Lemma acquired_claim_is now i table key i' :
  claim_locked now i table key = (i', Acquired) → claim_is table key now i' None ∧ ii_ttl i' = ii_ttl i.
Proof.
  unfold claim_locked. destruct (completed_duplicate _ _ _ _) as [x [r|]] eqn:Hd; [done|].
  apply completed_duplicate_None in Hd. intros Hw.
  assert (i' = with_table i table (mkTableIndex (<[key := now]> (in_progress x)) (completed x))) as ->.
  { destruct (in_progress x !! key); [destruct (_ <=? _)%N|]; congruence. }
  split; [|done]. eexists. split; [apply lookup_insert_eq|]. simpl. by rewrite lookup_insert_eq.
Qed.

Lemma abort_claim table key since i now :
  claim_is table key since i None → (claim_locked now (abort i table key) table key).2 = Acquired.
Proof.
  intros (x & Hx & Hp & Hc). unfold abort, claim_locked, table_index, completed_duplicate. rewrite Hx. simpl.
  rewrite lookup_insert_eq. simpl. rewrite Hc. simpl. by rewrite lookup_delete_eq.
Qed.

Lemma abort_claim_whole table key since i now :
  claim_is table key since i None → (claim now (abort i table key) table key).2 = Acquired.
Proof.
  intros Hi. unfold claim. pose proof Hi as (x & Hx & Hp & Hc).
  assert (claim_check now (abort i table key) table key = (abort i table key, None)) as ->.
  { unfold claim_check, table_index, abort. rewrite Hx. simpl. rewrite lookup_insert_eq. simpl.
    unfold completed_duplicate. simpl. rewrite Hc. unfold with_table. simpl. by rewrite insert_insert_eq. }
  by eapply abort_claim.
Qed.

(** What a claim of a held or completed key returns. *)
Lemma claim_is_claim table key since i r now :
  claim_is table key since i r → (now - since ≤ ii_ttl i)%N →
  (claim now i table key).2 = match r with Some r => Duplicate r | None => InProgress end.
Proof.
  intros Hi Hnow. unfold claim. destruct (claim_is_check _ _ _ i _ now table key Hi (λ _ _, Hnow)) as [Hi3 Hr].
  specialize (Hr eq_refl eq_refl). destruct (claim_check now i table key) as [i3 r3] eqn:Hck. simpl in Hr, Hi3.
  subst r3. destruct r as [r|]; [done|].
  assert (ii_ttl i3 = ii_ttl i) as Httl3.
  { unfold claim_check in Hck. destruct (completed_duplicate _ _ _ _). by simplify_eq/=. }
  rewrite <-Httl3 in Hnow. apply (claim_is_locked _ _ _ i3 None now table key Hi3 (λ _ _, Hnow)); done.
Qed.

Lemma completed_duplicate_twice ttl x key now y :
  completed_duplicate ttl x key now = (y, None) → completed_duplicate ttl y key now = (y, None).
Proof. intros Hd. unfold completed_duplicate at 1. by rewrite (completed_duplicate_None _ _ _ _ _ Hd). Qed.

(** The two looks of an undisturbed claim agree. *)
Lemma claim_unfold now i table key : claim now i table key =
  match completed_duplicate (ii_ttl i) (table_index i table) key now with
  | (x, Some r) => (with_table i table x, Duplicate r)
  | (x, None) => claim_locked now (with_table i table x) table key
  end.
Proof. unfold claim, claim_check. by destruct (completed_duplicate _ _ _ _) as [x [r|]]. Qed.

Lemma claim_locked_acquired now i table key :
  (claim_locked now i table key).2 = Acquired ↔
  (∀ c, completed (table_index i table) !! key = Some c → (ii_ttl i < now - ce_claimed_at c)%N) ∧
  (∀ t, in_progress (table_index i table) !! key = Some t → (ii_ttl i < now - t)%N).
Proof.
  unfold claim_locked, completed_duplicate.
  destruct (completed (table_index i table) !! key) as [c|]; [destruct (N.leb_spec (now - ce_claimed_at c) (ii_ttl i))|];
    simpl; [naive_solver lia| |];
    (destruct (in_progress (table_index i table) !! key) as [t|]; [destruct (N.leb_spec (now - t) (ii_ttl i))|];
     simpl; naive_solver lia).
Qed.

Lemma claim_acquired now i table key :
  (claim now i table key).2 = Acquired ↔ (claim_locked now i table key).2 = Acquired.
Proof.
  rewrite claim_unfold, claim_locked_acquired.
  destruct (completed_duplicate (ii_ttl i) (table_index i table) key now) as [x [r|]] eqn:Hd.
  - unfold completed_duplicate in Hd. destruct (completed _ !! key) as [c|]; [|done].
    destruct (N.leb_spec (now - ce_claimed_at c) (ii_ttl i)); [|done]. simpl. naive_solver lia.
  - rewrite claim_locked_acquired. unfold table_index at 1 2. simpl. rewrite lookup_insert_eq. simpl.
    unfold completed_duplicate in Hd. destruct (completed (table_index i table) !! key) as [c|] eqn:Hc.
    + destruct (N.leb_spec (now - ce_claimed_at c) (ii_ttl i)); [done|]. injection Hd as <-. simpl.
      rewrite lookup_delete_eq. naive_solver.
    + injection Hd as <-. rewrite Hc. naive_solver.
Qed.

Lemma claim_acquired_later now now' i table key :
  (claim now i table key).2 = Acquired → (now ≤ now')%N → (claim now' i table key).2 = Acquired.
Proof.
  rewrite !claim_acquired, !claim_locked_acquired. intros [Hc Hp] Hle.
  split; [intros c Hx; specialize (Hc c Hx)|intros t Hx; specialize (Hp t Hx)]; lia.
Qed.

Lemma claim_acquired_is now i table key i' :
  claim now i table key = (i', Acquired) → claim_is table key now i' None.
Proof.
  rewrite claim_unfold. destruct (completed_duplicate _ _ _ _) as [x [r|]]; [done|].
  intros Hl. by apply (acquired_claim_is _ _ _ _ _ Hl).
Qed.

Lemma claim_ttl now i table key i' c : claim now i table key = (i', c) → ii_ttl i' = ii_ttl i.
Proof.
  rewrite claim_unfold. destruct (completed_duplicate _ _ _ _) as [x [r|]]; [by intros [= <- <-]|].
  unfold claim_locked. destruct (completed_duplicate _ _ _ _) as [y [r|]]; [by intros [= <- <-]|].
  destruct (in_progress y !! key); [destruct (_ <=? _)%N|]; by intros [= <- <-].
Qed.


