(* ===== verification/Node.v ===== *)
(** * A writer node: WAL manager, buffer registry and ingest service

    Models the manager operations of [teodb-storage/src/wal/manager.rs] that ingestion
    and recovery use, [teodb-ingest/src/buffer/registry.rs] and
    [teodb-ingest/src/service/ingest.rs] over the state of one node.  Catalog replies,
    the outcome of system calls, clock readings and what other tasks do while a call
    awaits are arguments; JSON inference and decoding are functions of a class. *)

From S2P Require Import Prelude Core Location DataFiles WriteProtocol WalFrame WalReplay WalState WalGc WalWriter.
From S2P Require Import Durable WalIdentity Prepared Buffer BufferSpec Catalog Flush Json Idempotency.
Open Scope nat_scope.
Open Scope list_scope.

(** Arrow's JSON reader: schema inference, and decoding of rows against a table schema. *)
Class ArrowJson (Schema Batch : Type) := {
  InferredSchema : Type;
  infer_json_schema : list Json → option InferredSchema;
  decode_rows : Schema → list Json → result string (option Batch);
  array_memory_size : Batch → N;
}.

Section node.
Context {Schema Spec Order : Type} `{WalCodec} `{!BatchOps RecordBatch} `{!TableLayout Schema Spec}.
Context `{UuidText} `{CheckpointJson} `{IdentityJson} `{CommittedJson} `{JsonText} `{!ArrowJson Schema RecordBatch}.
Abbreviation Metadata := (TableMetadata Schema Spec Order).
Abbreviation Buf := (@TableBuffer RecordBatch Schema Spec Order).

(** Buffers are shared: the registry maps a table to a reference into [n_heap]. *)
Abbreviation BufRef := nat.
Record Node := mkNode {
  n_heap : list Buf;
  n_buffers : gmap TableIdent BufRef;
  n_evicted_rows : N;
  n_writer : SegmentWriter;
  n_root : WalDir;
  n_prepared : option WalDir;
  n_committed : gmap WalTableKey Generation;
  n_identity : ResolvedIdentity;
  n_idem : IdempotencyIndex;
}.
Definition set_heap (n : Node) (h : list Buf) (b : gmap TableIdent BufRef) : Node :=
  mkNode h b (n_evicted_rows n) (n_writer n) (n_root n) (n_prepared n) (n_committed n) (n_identity n) (n_idem n).
Definition write_buffer (n : Node) (ref : BufRef) (b : Buf) : Node :=
  set_heap n (<[ref := b]> (n_heap n)) (n_buffers n).
Definition set_log (n : Node) (w : SegmentWriter) (root : WalDir) : Node :=
  mkNode (n_heap n) (n_buffers n) (n_evicted_rows n) w root (n_prepared n) (n_committed n) (n_identity n) (n_idem n).
Definition set_committed (n : Node) (c : gmap WalTableKey Generation) : Node :=
  mkNode (n_heap n) (n_buffers n) (n_evicted_rows n) (n_writer n) (n_root n) (n_prepared n) c (n_identity n) (n_idem n).
Definition set_identity (n : Node) (root : WalDir) (i : ResolvedIdentity) : Node :=
  mkNode (n_heap n) (n_buffers n) (n_evicted_rows n) (n_writer n) root (n_prepared n) (n_committed n) i (n_idem n).
Definition set_idem (n : Node) (i : IdempotencyIndex) : Node :=
  mkNode (n_heap n) (n_buffers n) (n_evicted_rows n) (n_writer n) (n_root n) (n_prepared n) (n_committed n)
    (n_identity n) i.

(** ** WAL manager *)

(** [append]: [behind] are the commands queued behind this request when the writer task
    takes it.  The first reply of the round is the acknowledgement awaited. *)
Definition append (io : GroupIo) (behind : list WriterCommand) (n : Node) (record : WalRecord) :
    Node * TeoDBResult unit :=
  match encode_frame record with
  | Err e => (n, Err e)
  | Ok frame =>
      let '(w, root, replies, _) :=
        run_round io (Write_ (mkWriteRequest frame 0) :: behind) (n_writer n) (n_root n) in
      (set_log n w root,
       match replies with
       | Acked _ res :: _ => res
       | _ => Err (wal "WAL writer dropped ack channel")
       end)
  end.

Definition seed_committed (n : Node) (table : WalTableKey) (generation : Generation) : Node :=
  set_committed n (<[table := generation]> (n_committed n)).

Definition node_observe_epoch (io : IoFaults) (suffix : Uuid) (n : Node) (observed : WriterEpoch) :
    Node * TeoDBResult unit :=
  let '(root, identity, r) := observe_epoch_and_bump io suffix (n_root n) (n_identity n) observed in
  (set_identity n root identity, match r with Ok _ => Ok tt | Err e => Err e end).

(** [fails] and [torn] describe the writing of the checkpoint file, whose failure is only
    logged. *)
Definition append_drop_tombstone (io : GroupIo) (behind : list WriterCommand) (now_v7 : Uuid) (now_ms : Z)
    (fails : PersistStep → bool) (torn : list byte) (n : Node) (table : TableIdent) : Node * TeoDBResult unit :=
  match append io behind n (drop_tombstone now_v7 now_ms table) with
  | (n, Err e) => (n, Err e)
  | (n, Ok _) =>
      let committed := filter (λ kv, wk_ident kv.1 ≠ table) (n_committed n) in
      (set_log (set_committed n committed) (n_writer n) (persist_committed_checkpoint fails torn (n_root n) committed).1,
       Ok tt)
  end.

(** ** Buffer registry *)
Record LoadEnv := mkLoadEnv {
  le_load : TeoDBResult Metadata;
  le_io : IoFaults;
  le_suffix : Uuid;
}.
Context (max_bytes soft_watermark_bytes committed_grace : N).

Definition get_or_load (env : LoadEnv) (n : Node) (ident : TableIdent) : Node * TeoDBResult BufRef :=
  match n_buffers n !! ident with
  | Some ref => (n, Ok ref)
  | None =>
      match le_load env with
      | Err e => (n, Err e)
      | Ok metadata =>
          match (_ ← validate_writer_checkpoints ident (tm_properties metadata);
                 parse_writer_checkpoint ident (tm_properties metadata) (ri_writer_id (n_identity n))) with
          | Err e => (n, Err e)
          | Ok checkpoint =>
              let seed n g := seed_committed n (mkWalTableKey (tm_table_uuid metadata) ident) g in
              let insert n g :=
                match n_buffers n !! ident with
                | Some ref => (n, Ok ref)
                | None =>
                    let buffer := with_committed_grace
                      (TableBuffer_new ident metadata g max_bytes soft_watermark_bytes) committed_grace in
                    let ref := length (n_heap n) in
                    (set_heap n (n_heap n ++ [buffer]) (<[ident := ref]> (n_buffers n)), Ok ref)
                end in
              match checkpoint with
              | Some c =>
                  match node_observe_epoch (le_io env) (le_suffix env) n (ck_epoch c) with
                  | (n, Err e) => (n, Err e)
                  | (n, Ok _) => insert (seed n (ck_generation c)) (ck_generation c)
                  end
              | None => insert (seed n 0%N) 0%N
              end
          end
      end
  end.

Definition registry_remove (n : Node) (ident : TableIdent) : Node * option EvictionStats :=
  match n_buffers n !! ident ≫= λ ref, n_heap n !! ref with
  | None => (n, None)
  | Some buffer =>
      let stats := unflushed_stats buffer in
      (mkNode (n_heap n) (delete ident (n_buffers n))
         (if (0 <? ev_rows stats)%N then (n_evicted_rows n + ev_rows stats) mod (u64_max + 1) else n_evicted_rows n)%N
         (n_writer n) (n_root n) (n_prepared n) (n_committed n) (n_identity n) (n_idem n), Some stats)
  end.

(** ** Ingest service *)
Inductive IngestOutcome := Accepted (r : IngestReceipt) | Deduplicated (r : IngestReceipt).

(** [ie_auto_create]: what creating the missing table returned; [ie_others]: what other
    tasks do while the append awaits its acknowledgement. *)
Record IngestEnv := mkIngestEnv {
  ie_first : LoadEnv;
  ie_auto_create : TeoDBResult unit;
  ie_second : LoadEnv;
  ie_now : N;
  ie_batch_id : Uuid;
  ie_now_ms : Z;
  ie_others : Node → Node;
  ie_io : GroupIo;
  ie_behind : list WriterCommand;
}.

Definition current_schema (m : Metadata) : TeoDBResult Schema :=
  ok_or (head (filter (λ s, Flush.schema_id s = tm_current_schema_id m) (tm_schemas m)))
    (Internal "current_schema_id {} not found in schemas list").

Definition release_key (n : Node) (ident : TableIdent) (key : option string) : Node :=
  match key with Some k => set_idem n (abort (n_idem n) ident k) | None => n end.

Definition ingest_header (env : IngestEnv) (b : Buf) (ident : TableIdent) (r : Reservation)
    (idempotency_key : option string) (batch : RecordBatch) : WalHeader :=
  mkWalHeader WRITE_PROTOCOL_VERSION (Some (tm_table_uuid (tb_metadata b))) (ie_batch_id env) ident
    (tm_current_schema_id (tb_metadata b)) (rs_generation r) (ie_now_ms env) idempotency_key (num_rows batch)
    (array_memory_size batch) Append.

(** Reserving, appending, admitting: the part after the key is claimed.  The buffer is
    read again after the append: other tasks work on it meanwhile. *)
Definition ingest_batch (env : IngestEnv) (n : Node) (ident : TableIdent) (ref : BufRef) (b : Buf)
    (batch : RecordBatch) (idempotency_key : option string) : Node * TeoDBResult IngestOutcome :=
  match reserve b batch with
  | (b, Err e) => (release_key (write_buffer n ref b) ident idempotency_key, Err e)
  | (b, Ok reservation) =>
      let n := write_buffer n ref b in
      let record := mkWalRecord (ingest_header env b ident reservation idempotency_key batch) batch in
      let '(n, appended) := append (ie_io env) (ie_behind env) n record in
      let n := ie_others env n in
      let b := default b (n_heap n !! ref) in
      match appended with
      | Err _ =>
          (release_key (write_buffer n ref (release_reservation b reservation)) ident idempotency_key,
           Err (wal "WAL append failed: {e}"))
      | Ok _ =>
          let '(b, ok) := insert_reserved_at b (ie_batch_id env) reservation (ie_now_ms env) batch in
          let receipt := mkIngestReceipt (ie_batch_id env) (ri_writer_id (n_identity n)) (io_generation ok)
                           (num_rows batch) in
          let n := write_buffer n ref b in
          (match idempotency_key with
           | Some key => set_idem n (complete (n_idem n) ident key receipt)
           | None => n
           end, Ok (Accepted receipt))
      end
  end.

(** The buffer of the table, which is created when the catalog does not know it. *)
Definition ensure_buffer (env : IngestEnv) (n : Node) (ident : TableIdent) : Node * TeoDBResult BufRef :=
  match get_or_load (ie_first env) n ident with
  | (n, Err (NotFound _)) =>
      match ie_auto_create env with
      | Err e => (n, Err e)
      | Ok _ => get_or_load (ie_second env) n ident
      end
  | r => r
  end.

Definition rows_to_batch (b : Buf) (flat_rows : list Json) : TeoDBResult RecordBatch :=
  schema ← current_schema (tb_metadata b);
  match decode_rows schema flat_rows with
  | Ok (Some batch) => Ok batch
  | Ok None => Err (InvalidArgument "data" "rows produced no Arrow data")
  | Err _ => Err (InvalidArgument "data" "JSON to Arrow conversion failed: {e}")
  end.

(** A reference of the registry always has its buffer, by the invariant of NodeSpec.v: the
    branch without one is not reached. *)
Definition ingest_rows (env : IngestEnv) (n : Node) (ident : TableIdent) (rows : list Json)
    (idempotency_key : option string) : Node * TeoDBResult IngestOutcome :=
  match rows with
  | [] => (n, Err (InvalidArgument "data" "request must contain at least one row"))
  | _ :: _ =>
      let flat_rows := flatten_rows rows in
      match infer_json_schema flat_rows with
      | None => (n, Err (InvalidArgument "data" "cannot infer schema from JSON: {e}"))
      | Some _ =>
          match ensure_buffer env n ident with
          | (n, Err e) => (n, Err e)
          | (n, Ok ref) =>
              match n_heap n !! ref with
              | None => (n, Err (Internal "dangling buffer reference"))
              | Some b =>
              match rows_to_batch b flat_rows with
              | Err e => (n, Err e)
              | Ok batch =>
                  match idempotency_key with
                  | None => ingest_batch env n ident ref b batch None
                  | Some key =>
                      match claim (ie_now env) (n_idem n) ident key with
                      | (i, Duplicate receipt) => (set_idem n i, Ok (Deduplicated receipt))
                      | (i, InProgress) =>
                          (set_idem n i, Err (Conflict "idempotency key '{key}' on table {ident}"
                             "key completed or unused" "another request with this key is in flight"))
                      | (i, Acquired) => ingest_batch env (set_idem n i) ident ref b batch (Some key)
                      end
                  end
              end end
          end
      end
  end.
End node.
