(* ===== verification/NodeSpec.v ===== *)
(** * Correctness of ingestion on a node

    An acknowledged ingest has its record in the log and its entry in the buffer under
    the generation of its receipt; a refused one leaves no reservation and no claimed
    key behind. *)

From S2P Require Import Prelude Core Location DataFiles WriteProtocol WalFrame WalReplay WalReplaySpec WalState WalGc.
From S2P Require Import WalWriter Durable WalIdentity Prepared Buffer BufferSpec Catalog Flush FlushSpec Json Idempotency Node.
Open Scope nat_scope.
Open Scope list_scope.

(** ** The log in a root that changes outside its segments *)
Section roots.
Context `{WalCodecLaws}.

Definition same_segments (root root' : WalDir) : Prop :=
  ∀ name, str_ends_with ".wal" name = true → root' !! name = root !! name.

Lemma same_segments_paths root root' : same_segments root root' → segment_paths root' = segment_paths root.
Proof.
  intros Hs. rewrite (segment_paths_ext root root' (λ _, True)).
  - apply list_filter_all. by apply Forall_forall.
  - intros n. rewrite !segment_paths_elem. split; intros Hn; [destruct Hn as [Hw Hn]|destruct Hn as [_ [Hw Hn]]];
      (split_and!; [done..|]); by rewrite ?Hs in * by done.
Qed.

Lemma same_segments_log root root' : same_segments root root' → log_records root' = log_records root.
Proof.
  intros Hs. unfold log_records. rewrite (same_segments_paths root root') by done. f_equal.
  apply list_fmap_ext. intros i p [Hw _]%list_elem_of_lookup_2%segment_paths_elem. by apply seg_recs_other, Hs.
Qed.

Lemma same_segments_writer w root root' : same_segments root root' → writer_inv w root → writer_inv w root'.
Proof.
  intros Hs [Hseq Hcur]. split.
  - intros p Hp. rewrite (same_segments_paths root root') in Hp by done. by apply Hseq.
  - destruct (sw_current w) as [seg|]; [|done].
    destruct Hcur as (seq & f & rs & fs & H1 & H2 & H3 & H4 & H5). exists seq, f, rs, fs.
    split_and!; try done; try apply H5. rewrite Hs; [done|]. rewrite H3. apply segment_name_wal.
Qed.

Lemma tmp_not_segment `{UuidText} suffix : str_ends_with ".wal" (identity_tmp_path suffix) = false.
Proof.
  unfold identity_tmp_path. rewrite !str_app_assoc.
  by apply (str_ends_with_last "l" ".wal" "aw." "p" ".tmp" "mt.").
Qed.

Lemma observe_same_segments `{UuidText} `{IdentityJson} io suffix root r observed root' r' res :
  observe_epoch_and_bump io suffix root r observed = (root', r', res) →
  same_segments root root' ∧ ri_writer_id r' = ri_writer_id r.
Proof.
  unfold observe_epoch_and_bump. destruct (observed <? ri_writer_epoch r)%N; [by intros [= <- <- <-]|].
  destruct (checked_next observed) as [e|]; [|by intros [= <- <- <-]].
  destruct (persist_identity _ _ _ _) as [root1 res1] eqn:Hp. intros Heq.
  assert (root' = root1 ∧ ri_writer_id r' = ri_writer_id r) as [-> ->] by (by destruct res1; simplify_eq).
  split; [|done]. apply atomic_replace_spec in Hp as (_ & _ & Hoth); [|apply identity_tmp_ne].
  intros name Hw. apply Hoth; intros ->; [by rewrite tmp_not_segment in Hw|done].
Qed.
End roots.

Section spec.
Context {Schema Spec Order : Type} `{WalCodecLaws} `{!BatchOps RecordBatch} `{!TableLayout Schema Spec}.
Context `{UuidText} `{CheckpointJson} `{IdentityJson} `{CommittedJson} `{JsonText} `{!ArrowJson Schema RecordBatch}.
Context (max_bytes soft grace : N).
Abbreviation Buf := (@TableBuffer RecordBatch Schema Spec Order).
Abbreviation Nd := (@Node Schema Spec Order _).
Abbreviation Env := (@IngestEnv Schema Spec Order _).

(** ** Appending *)
Lemma encode_frame_inj r r' f :
  encode_frame r = Ok f → encode_frame r' = Ok f → payload_fits r → payload_fits r' →
  decoded_record r = decoded_record r'.
Proof.
  intros Hr Hr' Hf Hf'. pose proof (decode_encoded_frame r f [] Hr Hf) as Hd.
  rewrite (decode_encoded_frame r' f [] Hr' Hf') in Hd. by injection Hd.
Qed.

Lemma run_round_first io queue w root frame ack w' root' replies rest :
  run_round io (Write_ (mkWriteRequest frame ack) :: queue) w root = (w', root', replies, rest) →
  ∃ res replies', replies = Acked ack res :: replies' ∧
    match res with
    | Ok _ => ∃ more, acked_requests (Write_ (mkWriteRequest frame ack) :: queue) replies =
                        mkWriteRequest frame ack :: more
    | Err _ => acked_requests (Write_ (mkWriteRequest frame ack) :: queue) replies = []
    end.
Proof.
  unfold run_round, acked_requests. cbn [round_group].
  destruct (take_group (MAX_GROUP_FRAMES - 1) queue) as [[group rot] queue']. cbn [fst].
  destruct (write_group io _ w root) as [[w1 root1] [u|e]]; destruct rot as [d|]; intros [= <- <- <- <-];
    cbn [fmap list_fmap app]; do 2 eexists; (split; [reflexivity|]); simpl.
  1,2: destruct u; eexists; rewrite filter_cons, decide_True; [reflexivity|by left].
  - apply (acked_all_err (mkWriteRequest frame ack :: group) [Rotated d]). by intros a ?%list_elem_of_singleton.
  - pose proof (acked_all_err (mkWriteRequest frame ack :: group) [] (wal "group write failed: {msg}")) as Ha.
    rewrite app_nil_r in Ha. apply Ha. intros; apply not_elem_of_nil.
Qed.

(** What the WAL promises to the ingest service. *)
Lemma append_spec io behind (n : Nd) record n' res :
  writer_inv (n_writer n) (n_root n) → Forall command_ok behind → io_set_len_ok io = true →
  (sw_next_seq (n_writer n) ≤ u64_max)%N → payload_fits record →
  append io behind n record = (n', res) →
  n' = set_log n (n_writer n') (n_root n') ∧ writer_inv (n_writer n') (n_root n') ∧
  match res with
  | Ok _ => ∃ more, log_records (n_root n') = log_records (n_root n) ++ decoded_record record :: more
  | Err _ => log_records (n_root n') = log_records (n_root n)
  end.
Proof.
  intros Hinv Hb Hio Hseq Hfit. unfold append. destruct (encode_frame record) as [frame|e] eqn:Hf.
  2: { intros [= <- <-]. split_and!; try done. by destruct n. }
  destruct (run_round _ _ _ _) as [[[w root] replies] rest] eqn:Hr. intros [= <- <-]. simpl.
  destruct (run_round_inv _ _ _ _ _ _ _ _ Hinv (Forall_cons_2 command_ok
    (Write_ (mkWriteRequest frame 0)) behind (ex_intro _ record (conj Hf Hfit)) Hb) Hio Hseq Hr) as (Hinv' & recs & Hrecs & Hlog).
  split; [done|]. split; [done|].
  destruct (run_round_first _ _ _ _ _ _ _ _ _ _ Hr) as (res & replies' & -> & Hack).
  destruct res as [u|e].
  - destruct Hack as [more Hack]. rewrite Hack in Hrecs. inversion Hrecs as [|rec ? recs' ? [Hrec Hrfit] _]; subst.
    exists (decoded_record <$> recs'). rewrite Hlog. simpl. by rewrite (encode_frame_inj record rec frame).
  - rewrite Hack in Hrecs. inversion Hrecs; subst. by rewrite Hlog, app_nil_r.
Qed.

(** ** The invariant of a node *)
Record node_inv (n : Nd) : Prop := {
  ni_heap : Forall buf_inv (n_heap n);
  ni_refs : ∀ ident ref, n_buffers n !! ident = Some ref → ∃ b, n_heap n !! ref = Some b ∧ tb_ident b = ident;
  ni_writer : writer_inv (n_writer n) (n_root n);
}.

Lemma node_inv_same n n' :
  node_inv n → n_heap n' = n_heap n → n_buffers n' = n_buffers n → writer_inv (n_writer n') (n_root n') → node_inv n'.
Proof. intros [Hh Hr Hw] Heq1 Heq2 Hw'. split; [by rewrite Heq1|by rewrite Heq1, Heq2|done]. Qed.

Lemma node_inv_write n ref b b' :
  node_inv n → n_heap n !! ref = Some b → buf_inv b' → tb_ident b' = tb_ident b → node_inv (write_buffer n ref b').
Proof.
  intros [Hh Hr Hw] Hb Hb' Hid. split; simpl; [by apply Forall_insert| |done].
  intros ident ref' Hi. destruct (Hr ident ref' Hi) as (b0 & Hb0 & Hid0).
  destruct (decide (ref' = ref)) as [->|Hne].
  - exists b'. rewrite list_lookup_insert_eq by (by eapply lookup_lt_Some). split; [done|]. congruence.
  - exists b0. by rewrite list_lookup_insert_ne.
Qed.

(** ** The registry *)

(** The checkpoint a load returns leaves a generation. *)
Definition load_ok (env : @LoadEnv Schema Spec Order) (ident : TableIdent) (writer : Uuid) : Prop :=
  ∀ m c, le_load env = Ok m → parse_writer_checkpoint ident (tm_properties m) writer = Ok (Some c) →
    (ck_generation c < u64_max)%N.

(** What loading a buffer keeps. *)
Record loaded_from (n n' : Nd) : Prop := {
  lf_inv : node_inv n';
  lf_heap : n_heap n `prefix_of` n_heap n';
  lf_log : log_records (n_root n') = log_records (n_root n);
  lf_writer : n_writer n' = n_writer n;
  lf_idem : n_idem n' = n_idem n;
  lf_writer_id : ri_writer_id (n_identity n') = ri_writer_id (n_identity n);
}.

Lemma loaded_from_refl n : node_inv n → loaded_from n n.
Proof. by split. Qed.
Lemma loaded_from_trans n1 n2 n3 : loaded_from n1 n2 → loaded_from n2 n3 → loaded_from n1 n3.
Proof. intros [] []. split; try congruence; try done. by etrans. Qed.

Lemma node_observe_spec io suffix n observed n' r :
  node_inv n → node_observe_epoch io suffix n observed = (n', r) → loaded_from n n' ∧ n_buffers n' = n_buffers n.
Proof.
  intros Hn. unfold node_observe_epoch.
  destruct (observe_epoch_and_bump _ _ _ _ _) as [[root identity] r0] eqn:Ho. intros [= <- <-].
  apply observe_same_segments in Ho as [Hs Hid]. split; [|done]. split; simpl; try done.
  - apply (node_inv_same n); try done. simpl. eapply same_segments_writer; [exact Hs|apply Hn].
  - by apply same_segments_log.
Qed.

Lemma insert_buffer_spec n ident b :
  node_inv n → buf_inv b → tb_ident b = ident →
  loaded_from n (set_heap n (n_heap n ++ [b]) (<[ident := length (n_heap n)]> (n_buffers n))).
Proof.
  intros [Hh Hr Hw] Hb Hid. split; simpl; try done; [|by eexists].
  split; simpl; [apply Forall_app; split; [done|by apply Forall_singleton]| |done].
  intros ident' ref Hl. apply lookup_insert_Some in Hl as [[<- <-]|[_ Hl]].
  - exists b. split; [|done]. by rewrite lookup_app_r, Nat.sub_diag by lia.
  - destruct (Hr _ _ Hl) as (b' & Hb' & ?). exists b'. split; [|done]. by apply lookup_app_l_Some.
Qed.

Lemma inv_new ident (m : TableMetadata Schema Spec Order) g :
  (g < u64_max)%N → (max_bytes ≤ u64_max)%N →
  buf_inv (with_committed_grace (TableBuffer_new ident m g max_bytes soft) grace : Buf).
Proof.
  intros Hg Hm. exact (hi_buf _ _ _ _ (buf_reach_inv _ [] [] 0 (reach_new ident m g max_bytes soft grace 0 Hg Hm))).
Qed.

Lemma get_or_load_spec env n ident n' r :
  node_inv n → (max_bytes ≤ u64_max)%N → load_ok env ident (ri_writer_id (n_identity n)) →
  get_or_load max_bytes soft grace env n ident = (n', r) →
  loaded_from n n' ∧ ∀ ref, r = Ok ref → n_buffers n' !! ident = Some ref.
Proof.
  intros Hn Hmax Hload. unfold get_or_load. destruct (n_buffers n !! ident) as [ref|] eqn:Href.
  { intros [= <- <-]. split; [by apply loaded_from_refl|]. by intros ref' [= <-]. }
  destruct (le_load env) as [m|e] eqn:Hl; [|intros [= <- <-]; split; [by apply loaded_from_refl|done]].
  destruct (validate_writer_checkpoints ident (tm_properties m)) as [k|e];
    [|intros [= <- <-]; split; [by apply loaded_from_refl|done]]. simpl.
  destruct (parse_writer_checkpoint ident (tm_properties m) _) as [c|e] eqn:Hc;
    [|intros [= <- <-]; split; [by apply loaded_from_refl|done]].
  assert (∀ n1 g, loaded_from n n1 → n_buffers n1 !! ident = None → (g < u64_max)%N →
    let b : Buf := with_committed_grace (TableBuffer_new ident m g max_bytes soft) grace in
    let n2 := seed_committed n1 (mkWalTableKey (tm_table_uuid m) ident) g in
    loaded_from n (set_heap n2 (n_heap n2 ++ [b]) (<[ident := length (n_heap n2)]> (n_buffers n2)))) as Hins.
  { intros n1 g Hf Hnone Hg b n2. eapply loaded_from_trans; [exact Hf|].
    apply (loaded_from_trans n1 n2).
    - split; try done. by apply (node_inv_same n1); try done; apply Hf.
    - apply insert_buffer_spec; [|by apply inv_new|done]. by apply (node_inv_same n1); try done; apply Hf. }
  destruct c as [c|].
  - specialize (Hload _ _ Hl Hc).
    destruct (node_observe_epoch _ _ n (ck_epoch c)) as [n1 [u|e]] eqn:Ho;
      apply (node_observe_spec _ _ _ _ _ _ Hn) in Ho as [Hf Hb].
    2: { intros [= <- <-]. by split. }
    simpl. rewrite Hb, Href. intros [= <- <-].
    split; [rewrite <-Hb; apply Hins; try done; by rewrite Hb|]. intros ref [= <-]. apply lookup_insert_eq.
  - simpl. rewrite Href. intros [= <- <-].
    split; [by apply Hins; [apply loaded_from_refl|..]|]. intros ref [= <-]. apply lookup_insert_eq.
Qed.

Lemma ensure_buffer_spec env n ident n' r :
  node_inv n → (max_bytes ≤ u64_max)%N →
  load_ok (ie_first env) ident (ri_writer_id (n_identity n)) →
  load_ok (ie_second env) ident (ri_writer_id (n_identity n)) →
  ensure_buffer max_bytes soft grace env n ident = (n', r) →
  loaded_from n n' ∧ ∀ ref, r = Ok ref → n_buffers n' !! ident = Some ref.
Proof.
  intros Hn Hmax H1' H2'. unfold ensure_buffer.
  destruct (get_or_load _ _ _ _ n ident) as [n1 r1] eqn:Hg.
  destruct (get_or_load_spec _ _ _ _ _ Hn Hmax H1' Hg) as [Hf1 Href1].
  assert (∀ e, (n1, Err e) = (n', r) → loaded_from n n' ∧ ∀ ref, r = Ok ref → n_buffers n' !! ident = Some ref) as Herr
    by (by intros e [= <- <-]).
  destruct r1 as [ref|[]]; try (by apply Herr); [by intros [= <- <-]|].
  destruct (ie_auto_create env); [|by apply Herr].
  intros Hg2. rewrite <-(lf_writer_id _ _ Hf1) in H2'.
  destruct (get_or_load_spec _ _ _ _ _ (lf_inv _ _ Hf1) Hmax H2' Hg2) as [Hf2 Href2].
  split; [by eapply loaded_from_trans|done].
Qed.

(** ** Ingestion *)
Lemma reserve_spec (b : Buf) batch b' r :
  buf_inv b → reserve b batch = (b', r) →
  match r with
  | Ok rs => rs = mkReservation (next_gen (tb_state b)) (batch_byte_size batch) ∧ buf_inv b' ∧
      tb_ident b' = tb_ident b ∧ tb_metadata b' = tb_metadata b ∧
      reserved_generations (tb_state b') !! next_gen (tb_state b) = Some (batch_byte_size batch)
  | Err _ => b' = b
  end.
Proof.
  intros Hb Hr. pose proof (inv_reserve b batch Hb) as Hb'. rewrite Hr in Hb'. simpl in Hb'.
  revert Hr. unfold reserve.
  destruct (flush_state (tb_state b)); [| |by intros [= <- <-]];
    (destruct (_ ≫= _) as [u|e]; [|by intros [= <- <-]]); intros [= <- <-]; simpl in *; split_and!; try done;
    apply lookup_insert_eq.
Qed.

(** Other tasks leave this request alone: they work on the buffer without touching its
    generation, do not remove its record from the log (nobody drops the table) and do not
    touch the key it holds. *)
Definition ingest_others_ok (f : Nd → Nd) (ident : TableIdent) (ref : nat) (key : option string) (since : N) : Prop :=
  ∀ n b g, node_inv n → n_heap n !! ref = Some b →
    node_inv (f n) ∧
    (∃ b', n_heap (f n) !! ref = Some b' ∧ steps_avoiding g b b') ∧
    (∀ r, h_table (header r) = ident → generation (header r) = g →
       r ∈ log_records (n_root n) → r ∈ log_records (n_root (f n))) ∧
    ri_writer_id (n_identity (f n)) = ri_writer_id (n_identity n) ∧
    ∀ k, key = Some k → ∃ es, n_idem (f n) = foldl idem_step (n_idem n) es ∧
      Forall (λ e, keeps_claim (ii_ttl (n_idem n)) since ident k e ∧ first_receipt ident k [e] = None) es.

Record ingest_env_ok (env : Env) (n : Nd) (ident : TableIdent) (key : option string) : Prop := {
  eo_max : (max_bytes ≤ u64_max)%N;
  eo_first : load_ok (ie_first env) ident (ri_writer_id (n_identity n));
  eo_second : load_ok (ie_second env) ident (ri_writer_id (n_identity n));
  eo_others : ∀ ref, ingest_others_ok (ie_others env) ident ref key (ie_now env);
  eo_io : io_set_len_ok (ie_io env) = true;
  eo_behind : Forall command_ok (ie_behind env);
  eo_seq : (sw_next_seq (n_writer n) ≤ u64_max)%N;
}.

(** The record a request writes when [b] is its buffer. *)
Definition ingest_record (env : Env) (b : Buf) (ident : TableIdent) (key : option string) (rows_batch : RecordBatch) :
    WalRecord :=
  mkWalRecord (ingest_header env b ident (mkReservation (next_gen (tb_state b)) (batch_byte_size rows_batch)) key
    rows_batch) rows_batch.

(** It is within the frame limit. *)
Definition request_fits (env : Env) (n : Nd) (ident : TableIdent) (rows : list Json) (key : option string) : Prop :=
  ∀ ref b rows_batch, let n0 := (ensure_buffer max_bytes soft grace env n ident).1 in
    n_buffers n0 !! ident = Some ref → n_heap n0 !! ref = Some b →
    rows_to_batch b (flatten_rows rows) = Ok rows_batch → payload_fits (ingest_record env b ident key rows_batch).

(** The request's row group as admitted, and its log record. *)
Definition admitted_record (n : Nd) (ident : TableIdent) (key : option string) (receipt : IngestReceipt) : Prop :=
  ∃ ref b entry record, n_heap n !! ref = Some b ∧ tb_ident b = ident ∧
    entry ∈ pending (tb_state b) ∧ be_generation entry = ir_generation receipt ∧
    be_batch_id entry = ir_batch_id receipt ∧ num_rows (be_batch entry) = ir_accepted_rows receipt ∧
    reserved_generations (tb_state b) !! ir_generation receipt = None ∧
    record ∈ log_records (n_root n) ∧ batch record = be_batch entry ∧ op (header record) = Append ∧
    h_table (header record) = ident ∧ generation (header record) = be_generation entry ∧
    batch_id (header record) = be_batch_id entry ∧ idempotency_key (header record) = key.

(** The generation [g] of the buffer [ref] is neither reserved nor used. *)
Definition unused (n : Nd) (ref : nat) (g : Generation) : Prop :=
  ∀ b, n_heap n !! ref = Some b → reserved_generations (tb_state b) !! g = None ∧
    ∀ e, e ∈ pending (tb_state b) ++ in_flight (tb_state b) → be_generation e ≠ g.

Lemma first_receipt_app ident k es1 es2 :
  first_receipt ident k (es1 ++ es2) =
  match first_receipt ident k es1 with Some r => Some r | None => first_receipt ident k es2 end.
Proof.
  induction es1 as [|e es1 IH]; simpl; [done|]. destruct e; try done. by case_decide.
Qed.
Lemma first_receipt_none ident k es : Forall (λ e, first_receipt ident k [e] = None) es → first_receipt ident k es = None.
Proof.
  induction 1 as [|e es He _ IH]; [done|]. change (e :: es) with ([e] ++ es). by rewrite first_receipt_app, He.
Qed.

Lemma others_claim (env : Env) (n : Nd) ident key k since :
  claim_is ident k since (n_idem n) None → key = Some k →
  (∃ es, n_idem (ie_others env n) = foldl idem_step (n_idem n) es ∧
     Forall (λ e, keeps_claim (ii_ttl (n_idem n)) since ident k e ∧ first_receipt ident k [e] = None) es) →
  claim_is ident k since (n_idem (ie_others env n)) None ∧
  ii_ttl (n_idem (ie_others env n)) = ii_ttl (n_idem n).
Proof.
  intros Hc -> (es & Heq & Hes). rewrite Heq. apply Forall_and in Hes as [Hk Hf].
  destruct (claim_is_steps ident k since es _ None Hc Hk) as [Hc' Httl].
  by rewrite first_receipt_none in Hc'.
Qed.

Lemma unused_next n ref b : buf_inv b → n_heap n !! ref = Some b → unused n ref (next_gen (tb_state b)).
Proof.
  intros Hbi Hb b' Hb'. assert (b' = b) as -> by congruence. pose proof (bi_bounds b Hbi) as Hbnd. split.
  - destruct (reserved_generations (tb_state b) !! next_gen (tb_state b)) eqn:Hl; [|done].
    assert (next_gen (tb_state b) ∈ live_generations (tb_state b)) as ?%Hbnd by (apply live_elem; eauto). lia.
  - intros x Hx Heq. assert (next_gen (tb_state b) ∈ live_generations (tb_state b)) as ?%Hbnd; [|lia].
    apply live_elem. rewrite <-Heq. apply elem_of_app in Hx. rewrite !elem_of_generations. naive_solver.
Qed.

(** Giving a reservation back. *)
Lemma release_spec n ref b g size :
  node_inv n → n_heap n !! ref = Some b → reserved_generations (tb_state b) !! g = Some size →
  let n' := write_buffer n ref (release_reservation b (mkReservation g size)) in node_inv n' ∧ unused n' ref g.
Proof.
  intros Hn Hb Hres n'. pose proof (proj1 (Forall_lookup _ _) (ni_heap n Hn) _ _ Hb) as Hbi.
  split; [by eapply node_inv_write; [done|exact Hb|apply inv_release|]|].
  intros b' Hb'. simpl in Hb'. rewrite list_lookup_insert_eq in Hb' by (by eapply lookup_lt_Some).
  injection Hb' as <-. unfold release_reservation, take_reservation. simpl. rewrite Hres. simpl.
  split; [apply lookup_delete_eq|]. by eapply reserved_no_entry.
Qed.

(** Using it for a logged record. *)
Lemma admit_spec n ref b g id ms record key receipt b' ok :
  node_inv n → n_heap n !! ref = Some b →
  reserved_generations (tb_state b) !! g = Some (batch_byte_size (batch record)) →
  record ∈ log_records (n_root n) → op (header record) = Append → h_table (header record) = tb_ident b →
  generation (header record) = g → batch_id (header record) = id → idempotency_key (header record) = key →
  insert_reserved_at b id (mkReservation g (batch_byte_size (batch record))) ms (batch record) = (b', ok) →
  receipt = mkIngestReceipt id (ri_writer_id (n_identity n)) (io_generation ok) (num_rows (batch record)) →
  node_inv (write_buffer n ref b') ∧ admitted_record (write_buffer n ref b') (tb_ident b) key receipt.
Proof.
  intros Hn Hb Hres Hlog Hop Ht Hg Hid Hkey Hins ->. pose proof (proj1 (Forall_lookup _ _) (ni_heap n Hn) _ _ Hb) as Hbi.
  pose proof (inv_insert_reserved b id (mkReservation g (batch_byte_size (batch record))) ms (batch record) Hbi Hres) as Hb'.
  rewrite Hins in Hb'. simpl in Hb'. unfold insert_reserved_at, take_reservation in Hins. simpl in Hins.
  rewrite Hres in Hins. injection Hins as <- <-.
  split; [by eapply node_inv_write|]. exists ref.
  eexists _, (mkBufferEntry id g ms (batch record) (batch_byte_size (batch record))), record.
  split; [apply list_lookup_insert_eq; by eapply lookup_lt_Some|]. split_and!; try done; simpl.
  - apply elem_of_app. right. by left.
  - apply lookup_delete_eq.
Qed.

Lemma completed_key (n : Nd) ident k since receipt now :
  claim_is ident k since (n_idem n) None → (now - since ≤ ii_ttl (n_idem n))%N →
  (claim now (complete (n_idem n) ident k receipt) ident k).2 = Duplicate receipt.
Proof.
  intros Hc Hnow.
  destruct (claim_is_step ident k since (n_idem n) None (EvComplete ident k receipt) Hc I) as [Hc' Httl].
  simpl in Hc', Httl. rewrite decide_True in Hc' by done. by rewrite (claim_is_claim _ _ _ _ _ _ Hc'); [|rewrite Httl].
Qed.

Lemma ingest_batch_spec env n ident ref b rows_batch key n' res :
  node_inv n → n_heap n !! ref = Some b → tb_ident b = ident → ingest_env_ok env n ident key →
  payload_fits (ingest_record env b ident key rows_batch) →
  (∀ k, key = Some k → claim_is ident k (ie_now env) (n_idem n) None) →
  ingest_batch env n ident ref b rows_batch key = (n', res) →
  node_inv n' ∧
  match res with
  | Ok (Accepted receipt) => admitted_record n' ident key receipt ∧
      ∀ k, key = Some k → ∀ now, (now - ie_now env ≤ ii_ttl (n_idem n))%N →
        (claim now (n_idem n') ident k).2 = Duplicate receipt
  | Ok (Deduplicated _) => False
  | Err _ => unused n' ref (next_gen (tb_state b)) ∧
      ∀ k, key = Some k → ∀ now, (claim now (n_idem n') ident k).2 = Acquired
  end.
Proof.
  intros Hn Hb Hid Henv Hfit Hkey. unfold ingest_batch. pose proof (proj1 (Forall_lookup _ _) (ni_heap n Hn) _ _ Hb) as Hbi.
  destruct (reserve b rows_batch) as [b1 r1] eqn:Hr. pose proof (reserve_spec _ _ _ _ Hbi Hr) as Hrs.
  assert (∀ n1, node_inv n1 → (∀ k, key = Some k → claim_is ident k (ie_now env) (n_idem n1) None) →
    unused n1 ref (next_gen (tb_state b)) →
    node_inv (release_key n1 ident key) ∧ unused (release_key n1 ident key) ref (next_gen (tb_state b)) ∧
    ∀ k, key = Some k → ∀ now, (claim now (n_idem (release_key n1 ident key)) ident k).2 = Acquired) as Hrelease.
  { intros n1 Hn1 Hk1 Hun. destruct key as [k|]; [|by split_and!]. split_and!; simpl; [|done|].
    - by apply (node_inv_same n1); try done; apply Hn1.
    - intros k' [= <-] now. eapply abort_claim_whole. by apply Hk1. }
  destruct r1 as [rs|e].
  2: { subst b1. intros [= <- <-].
    assert (write_buffer n ref b = n) as -> by (unfold write_buffer; rewrite list_insert_id by done; by destruct n).
    apply Hrelease; [done|done|by apply unused_next]. }
  destruct Hrs as (-> & Hb1 & Hid1 & Hm1 & Hres1). set (g := next_gen (tb_state b)) in *.
  set (n1 := write_buffer n ref b1).
  assert (node_inv n1) as Hn1 by (by eapply node_inv_write).
  assert (n_heap n1 !! ref = Some b1) as Hh1 by (apply list_lookup_insert_eq; by eapply lookup_lt_Some).
  assert (ingest_header env b1 ident (mkReservation g (batch_byte_size rows_batch)) key rows_batch =
    header (ingest_record env b ident key rows_batch)) as Hh by (unfold ingest_record, ingest_header; by rewrite Hm1).
  rewrite Hh. clear Hh. set (record := mkWalRecord _ rows_batch). destruct (append _ _ n1 record) as [n2 ap] eqn:Hap.
  destruct (append_spec _ _ n1 record n2 ap (ni_writer _ Hn1) (eo_behind _ _ _ _ Henv) (eo_io _ _ _ _ Henv)
    (eo_seq _ _ _ _ Henv) Hfit Hap) as (Hset & Hw2 & Hlog2).
  assert (node_inv n2) as Hn2 by (apply (node_inv_same n1); [done|by rewrite Hset..|done]).
  assert (n_heap n2 !! ref = Some b1) as Hh2 by (by rewrite Hset).
  assert (n_idem n2 = n_idem n) as Hi2 by (by rewrite Hset).
  destruct (eo_others _ _ _ _ Henv ref n2 b1 g Hn2 Hh2) as (Hn3 & (b3 & Hh3 & Hst) & Hlog3 & Hw3 & Hidem).
  set (n3 := ie_others env n2) in *. rewrite Hh3. simpl default.
  destruct (steps_avoiding_inv _ _ _ _ Hst Hb1 Hres1) as [Hb3 Hres3].
  assert (tb_ident b3 = ident) as Hid3 by (rewrite (steps_avoiding_ident _ _ _ Hst); congruence).
  assert (∀ k, key = Some k → claim_is ident k (ie_now env) (n_idem n3) None ∧ ii_ttl (n_idem n3) = ii_ttl (n_idem n)) as Hc3.
  { intros k Hk. rewrite <-Hi2. eapply others_claim; [rewrite Hi2; by apply Hkey|exact Hk|by apply Hidem]. }
  destruct ap as [u|e].
  2: { intros [= <- <-]. destruct (release_spec n3 ref b3 g _ Hn3 Hh3 Hres3).
    apply Hrelease; [done| |done]. intros k Hk. by apply Hc3. }
  destruct (insert_reserved_at b3 (ie_batch_id env) _ (ie_now_ms env) rows_batch) as [b4 ok] eqn:Hins.
  destruct Hlog2 as [more Hlog2].
  destruct (admit_spec n3 ref b3 g (ie_batch_id env) (ie_now_ms env) record key
    (mkIngestReceipt (ie_batch_id env) (ri_writer_id (n_identity n3)) (io_generation ok) (num_rows rows_batch))
    b4 ok Hn3 Hh3 Hres3) as [Hn4 Hadm]; try done.
  { apply Hlog3; [done|done|]. rewrite Hlog2. apply elem_of_app. right. by left. }
  rewrite Hid3 in Hadm. destruct key as [k|]; intros [= <- <-]; [|by split_and!].
  split; [by apply (node_inv_same (write_buffer n3 ref b4)); try done; apply Hn4|]. split.
  - destruct Hadm as (x1 & x2 & x3 & x4 & Hx). by exists x1, x2, x3, x4.
  - intros k' [= <-] now Hnow. destruct (Hc3 k eq_refl) as [Hc Httl]. eapply completed_key; [exact Hc|]. by rewrite Httl.
Qed.

(** What a request that found the buffers of [n0] in place ended with. *)
Definition ingest_post (env : Env) (n n0 : Nd) (ident : TableIdent) (key : option string) (n' : Nd)
    (res : TeoDBResult IngestOutcome) : Prop :=
  match res with
  | Ok (Accepted receipt) => admitted_record n' ident key receipt ∧
      ∀ k, key = Some k → ∀ now, (now - ie_now env ≤ ii_ttl (n_idem n))%N →
        (claim now (n_idem n') ident k).2 = Duplicate receipt
  | Ok (Deduplicated receipt) => n_heap n `prefix_of` n_heap n' ∧
      log_records (n_root n') = log_records (n_root n) ∧
      ∃ k, key = Some k ∧ (claim (ie_now env) (n_idem n) ident k).2 = Duplicate receipt
  | Err _ =>
      (n' = n ∨ ∀ ref b, n_buffers n0 !! ident = Some ref → n_heap n0 !! ref = Some b →
         unused n' ref (next_gen (tb_state b))) ∧
      (∀ k, key = Some k → (claim (ie_now env) (n_idem n) ident k).2 = Acquired →
         ∀ now, (ie_now env ≤ now)%N → (claim now (n_idem n') ident k).2 = Acquired)
  end.

Lemma post_refused env n n0 ident key i e :
  node_inv n0 → (∀ k, key = Some k → (claim (ie_now env) (n_idem n) ident k).2 = Acquired → i = n_idem n) →
  node_inv (set_idem n0 i) ∧ ingest_post env n n0 ident key (set_idem n0 i) (Err e).
Proof.
  intros Hn0 Hi. split; [by apply (node_inv_same n0); try done; apply Hn0|split].
  - right. intros ref b _ Hb. apply unused_next; [|done]. by eapply Forall_lookup; [apply Hn0|].
  - intros k Hk Hacq now Hnow. simpl. rewrite (Hi k Hk Hacq). by eapply claim_acquired_later.
Qed.

Lemma post_batch env n n0 ident key ref b rows_batch i n' res :
  loaded_from n n0 → n_buffers n0 !! ident = Some ref → n_heap n0 !! ref = Some b → tb_ident b = ident →
  ingest_env_ok env n ident key → payload_fits (ingest_record env b ident key rows_batch) →
  ii_ttl i = ii_ttl (n_idem n) →
  (∀ k, key = Some k → claim_is ident k (ie_now env) i None) →
  ingest_batch env (set_idem n0 i) ident ref b rows_batch key = (n', res) →
  node_inv n' ∧ ingest_post env n n0 ident key n' res.
Proof.
  intros Hf Href Hb Hbid Henv Hfit Httl Hk Hr.
  assert (ingest_env_ok env (set_idem n0 i) ident key) as Henv0.
  { destruct Henv. split; simpl; try done; rewrite ?(lf_writer_id _ _ Hf), ?(lf_writer _ _ Hf); done. }
  assert (node_inv (set_idem n0 i)) as Hn0 by (by apply (node_inv_same n0); try done; apply Hf).
  destruct (ingest_batch_spec env (set_idem n0 i) ident ref b rows_batch key n' res Hn0 Hb Hbid Henv0 Hfit Hk Hr) as [Hn' Hres].
  split; [done|]. destruct res as [[receipt|receipt]|e]; simpl in *; [|done|].
  - by rewrite <-Httl.
  - destruct Hres as [Hun Hfree]. split; [|eauto]. right. intros ref' b' Href' Hb'. by simplify_eq.
Qed.

End spec.
(** ** A concrete node, for evaluation *)
Section demo.
#[local] Existing Instances demo_uuid_text demo_checkpoint_json demo_identity_json demo_committed_json demo_wal_codec
  demo_wal_codec_laws demo_json_text.
Definition demo_record_ops : BatchOps (@RecordBatch demo_wal_codec) := demo_batch_ops.
#[local] Existing Instance demo_record_ops.
Definition demo_arrow : ArrowJson unit (@RecordBatch demo_wal_codec) := {|
  InferredSchema := unit; infer_json_schema _ := Some tt; decode_rows _ rows := Ok (Some [10%N]);
  array_memory_size _ := 64%N |}.
#[local] Existing Instance demo_arrow.

Definition demo_node : @Node unit unit unit demo_wal_codec :=
  mkNode [] ∅ 0 (spawn 1000 true (scan_next_seq ∅)) ∅ None ∅ (mkResolvedIdentity 1 "node" "slot" 7 3)
    (IdempotencyIndex_new 60).
Definition demo_load : @LoadEnv unit unit unit := mkLoadEnv (Ok demo_lake_metadata) no_faults 9.
Definition demo_ingest_env : @IngestEnv unit unit unit demo_wal_codec :=
  mkIngestEnv demo_load (Ok tt) demo_load 5 77 1700 (λ n, n) io_fine [].


Lemma demo_node_inv : node_inv demo_node.
Proof. split; [by apply Forall_nil|done|]. apply spawn_inv. intros n Hn. by apply segment_paths_elem in Hn as [_ [? ?]]. Qed.

End demo.
