(* ===== verification/WalLease.v ===== *)
(** * Opening a log root and holding it

    Models the lease of [teodb-storage/src/wal/state.rs] and [release_lease],
    [open], [check_capacity], [disk_usage_bytes] and [segment_count] of
    [teodb-storage/src/wal/manager.rs].  The lease is modelled below the path name: the
    directory entry [.lease] names an inode, advisory locks belong to inodes, and every
    system call of every process is a step. *)

From S2P Require Import Prelude Core WriteProtocol WalFrame WalReplay WalState WalWriter Durable WalIdentity Prepared Flush FlushFrame Buffer Node NodeSpec.
Open Scope nat_scope.
Open Scope list_scope.

(** ** The lease file *)
Abbreviation Pid := N.
Abbreviation Inode := N.
(** A process between two calls: file opened, lock taken, lease held, lock given up. *)
Inductive LeasePc := LeaseOpened (i : Inode) | LeaseLocked (i : Inode) | LeaseHeld (i : Inode) | LeaseUnlocked.
Definition lock_of (pc : LeasePc) : option Inode :=
  match pc with LeaseLocked i | LeaseHeld i => Some i | _ => None end.
Record LeaseFs := mkLeaseFs {
  lf_entry : option Inode;
  lf_next : Inode;
  lf_locks : gmap Inode Pid;
  lf_procs : gmap Pid LeasePc;
}.
Definition lease_fs_new : LeaseFs := mkLeaseFs None 0 ∅ ∅.

Definition set_proc (p : Pid) (pc : LeasePc) (s : LeaseFs) : LeaseFs :=
  mkLeaseFs (lf_entry s) (lf_next s) (lf_locks s) (<[p := pc]> (lf_procs s)).
(** The file is closed: a lock held through it goes with it. *)
Definition close_lease (p : Pid) (s : LeaseFs) : LeaseFs :=
  mkLeaseFs (lf_entry s) (lf_next s)
    match lf_procs s !! p ≫= lock_of with Some i => delete i (lf_locks s) | None => lf_locks s end
    (delete p (lf_procs s)).

(** [acquire_lease_blocking], call by call: the open creates the file if it is missing. *)
Definition lease_open (p : Pid) (ok : bool) (s : LeaseFs) : LeaseFs * TeoDBResult unit :=
  if ok then
    match lf_entry s with
    | Some i => (set_proc p (LeaseOpened i) s, Ok tt)
    | None =>
        let i := lf_next s in
        (mkLeaseFs (Some i) (N.succ i) (lf_locks s) (<[p := LeaseOpened i]> (lf_procs s)), Ok tt)
    end
  else (s, Err (wal_source "failed to open WAL lease file: {e}" "{e}")).
Definition lease_try_lock (p : Pid) (i : Inode) (ok : bool) (s : LeaseFs) : LeaseFs * TeoDBResult unit :=
  if ok then
    match lf_locks s !! i with
    | Some _ => (close_lease p s, Err (wal "WAL directory is locked by another process"))
    | None => (mkLeaseFs (lf_entry s) (lf_next s) (<[i := p]> (lf_locks s)) (<[p := LeaseLocked i]> (lf_procs s)), Ok tt)
    end
  else (close_lease p s, Err (wal_source "failed to lock WAL lease file: {error}" "{error}")).
(** [set_len], [write_all] and [sync_all] of the holder's description. *)
Inductive LeaseWrite := LeaseTruncate | LeaseWriteAll | LeaseSync.
Definition lease_write_error (f : LeaseWrite) : TeoDBError :=
  match f with
  | LeaseTruncate => wal_source "failed to truncate WAL lease file: {e}" "{e}"
  | LeaseWriteAll => wal_source "failed to write WAL lease file: {e}" "{e}"
  | LeaseSync => wal_source "failed to fsync WAL lease file: {e}" "{e}"
  end.
Definition lease_write (p : Pid) (i : Inode) (failed : option LeaseWrite) (s : LeaseFs) : LeaseFs * TeoDBResult unit :=
  match failed with
  | Some f => (close_lease p s, Err (lease_write_error f))
  | None => (set_proc p (LeaseHeld i) s, Ok tt)
  end.
(** [release_lease]: the unlock, and the removal of whatever the path names by then. *)
Definition lease_unlock (p : Pid) (i : Inode) (ok : bool) (s : LeaseFs) : LeaseFs :=
  if ok then mkLeaseFs (lf_entry s) (lf_next s) (delete i (lf_locks s)) (<[p := LeaseUnlocked]> (lf_procs s)) else s.
Definition lease_remove (p : Pid) (ok : bool) (s : LeaseFs) : LeaseFs :=
  mkLeaseFs (if ok then None else lf_entry s) (lf_next s) (lf_locks s) (delete p (lf_procs s)).

Inductive LeaseEvent :=
| LeOpen (p : Pid) (ok : bool) | LeTryLock (p : Pid) (ok : bool) | LeWrite (p : Pid) (failed : option LeaseWrite)
| LeUnlock (p : Pid) (ok : bool) | LeRemove (p : Pid) (ok : bool) | LeCrash (p : Pid).
(** One call of one process; [None] when the process is not at that call. *)
Definition lease_step (s : LeaseFs) (e : LeaseEvent) : option (LeaseFs * TeoDBResult unit) :=
  match e with
  | LeOpen p ok => match lf_procs s !! p with None => Some (lease_open p ok s) | Some _ => None end
  | LeTryLock p ok => match lf_procs s !! p with Some (LeaseOpened i) => Some (lease_try_lock p i ok s) | _ => None end
  | LeWrite p f => match lf_procs s !! p with Some (LeaseLocked i) => Some (lease_write p i f s) | _ => None end
  | LeUnlock p ok => match lf_procs s !! p with Some (LeaseHeld i) => Some (lease_unlock p i ok s, Ok tt) | _ => None end
  | LeRemove p ok => match lf_procs s !! p with Some LeaseUnlocked => Some (lease_remove p ok s, Ok tt) | _ => None end
  | LeCrash p => match lf_procs s !! p with Some _ => Some (close_lease p s, Ok tt) | None => None end
  end.
Fixpoint lease_run (s : LeaseFs) (es : list LeaseEvent) : option LeaseFs :=
  match es with
  | [] => Some s
  | e :: es => '(s, _) ← lease_step s e; lease_run s es
  end.

(** ** What the lease promises *)
Definition holds_lease (s : LeaseFs) (p : Pid) : Prop := ∃ i, lf_procs s !! p = Some (LeaseHeld i).
Definition file_of (pc : LeasePc) : option Inode :=
  match pc with LeaseOpened i | LeaseLocked i | LeaseHeld i => Some i | LeaseUnlocked => None end.
(** No removal while the file it removes is open in another process. *)
Definition removal_alone (s : LeaseFs) (e : LeaseEvent) : Prop :=
  match e with
  | LeRemove p true => map_Forall (λ _ pc, file_of pc = None) (lf_procs s)
  | _ => True
  end.
Inductive lease_reach : LeaseFs → Prop :=
| lease_reach_new : lease_reach lease_fs_new
| lease_reach_step s e s' r : lease_reach s → removal_alone s e → lease_step s e = Some (s', r) → lease_reach s'.

Record lease_inv (s : LeaseFs) : Prop := {
  le_named p pc i : lf_procs s !! p = Some pc → file_of pc = Some i → lf_entry s = Some i;
  le_locks i p : lf_locks s !! i = Some p ↔ ∃ pc, lf_procs s !! p = Some pc ∧ lock_of pc = Some i;
}.
Lemma lock_file pc i : lock_of pc = Some i → file_of pc = Some i.
Proof. by destruct pc. Qed.

Lemma lease_inv_close s p : lease_inv s → lease_inv (close_lease p s).
Proof.
  intros [Hn Hl]. split; simpl.
  - intros q pc i [_ Hq]%lookup_delete_Some. by eapply Hn.
  - intros i q. setoid_rewrite lookup_delete_Some.
    assert (Hkeep : lf_locks s !! i = Some q ∧ p ≠ q ↔ ∃ pc, (p ≠ q ∧ lf_procs s !! q = Some pc) ∧ lock_of pc = Some i) by (rewrite Hl; naive_solver).
    rewrite <- Hkeep. clear Hkeep.
    destruct (lf_procs s !! p ≫= lock_of) as [j|] eqn:Hj.
    + apply bind_Some in Hj as (pc & Hp & Hj). assert (lf_locks s !! j = Some p) as Hjp by (apply Hl; eauto).
      rewrite lookup_delete_Some. split; [|naive_solver]. intros [Hne Hq]. split; [done|]. intros <-.
      apply Hl in Hq as (pc' & Hp' & Hl'). naive_solver.
    + split; [|naive_solver]. intros Hq. split; [done|]. intros <-. apply Hl in Hq as (pc' & Hp' & Hl').
      rewrite Hp' in Hj. simpl in Hj. congruence.
Qed.

(** A process moves on without touching entry or locks. *)
Lemma lease_inv_move s p pc pc' :
  lease_inv s → lf_procs s !! p = Some pc → file_of pc' = file_of pc → lock_of pc' = lock_of pc → lease_inv (set_proc p pc' s).
Proof.
  intros [Hn Hl] Hp Hf Hk. split; simpl.
  - intros q x i [[<- <-]|[_ Hq]]%lookup_insert_Some; [rewrite Hf|]; by eapply Hn.
  - intros i q. rewrite Hl. destruct (decide (p = q)) as [<-|Hne].
    + rewrite lookup_insert_eq, Hp. split; intros (x & [= <-] & Hx); eexists; (split; [done|congruence]).
    + by rewrite lookup_insert_ne.
Qed.

Lemma lease_step_inv s e s' r : lease_inv s → removal_alone s e → lease_step s e = Some (s', r) → lease_inv s'.
Proof.
  intros Hs Ha He. pose proof Hs as [Hn Hl].
  destruct e as [p ok|p ok|p f|p ok|p ok|p]; simpl in He; destruct (lf_procs s !! p) as [pc|] eqn:Hp; try done.
  - unfold lease_open in He. destruct ok; [|by simplify_eq]. destruct (lf_entry s) as [i|] eqn:Hent; simplify_eq; split; simpl.
    + intros q x j [[<- <-]|[_ Hq]]%lookup_insert_Some; simpl; [congruence|]. rewrite Hent. by apply (Hn _ _ _ Hq).
    + intros j q. rewrite Hl. setoid_rewrite lookup_insert_Some. naive_solver.
    + intros q x j [[<- <-]|[_ Hq]]%lookup_insert_Some; simpl; [done|]. intros Hf. by specialize (Hn _ _ _ Hq Hf).
    + intros j q. rewrite Hl. setoid_rewrite lookup_insert_Some. naive_solver.
  - destruct pc as [i| | |]; try done. unfold lease_try_lock in He. destruct ok; [|simplify_eq; by apply lease_inv_close].
    destruct (lf_locks s !! i) as [o|] eqn:Ho; simplify_eq; [by apply lease_inv_close|]. split; simpl.
    + intros q x j [[<- <-]|[_ Hq]]%lookup_insert_Some; simpl; [intros [= <-]; by eapply Hn|by eapply Hn].
    + intros j q. rewrite lookup_insert_Some, Hl. setoid_rewrite lookup_insert_Some. split.
      * intros [[<- <-]|[Hne (x & Hq & Hx)]]; [naive_solver|]. exists x. split; [|done]. right. split; [|done]. intros <-. naive_solver.
      * intros (x & [[<- <-]|[Hne Hq]] & Hx); simpl in *; [naive_solver|]. right. split; [|naive_solver].
        intros <-. assert (lf_locks s !! i = Some q) by (apply Hl; eauto). congruence.
  - destruct pc as [|i| |]; try done. unfold lease_write in He. destruct f; simplify_eq; [by apply lease_inv_close|]. by eapply lease_inv_move.
  - destruct pc as [| |i|]; try done. unfold lease_unlock in He. destruct ok; simplify_eq; [|done].
    assert (lf_locks s !! i = Some p) as Hip by (apply Hl; eauto). split; simpl.
    + intros q x j [[<- <-]|[_ Hq]]%lookup_insert_Some; [done|by eapply Hn].
    + intros j q. rewrite lookup_delete_Some, Hl. setoid_rewrite lookup_insert_Some. split.
      * intros (Hne & x & Hq & Hx). exists x. split; [|done]. right. split; [|done]. intros <-. naive_solver.
      * intros (x & [[<- <-]|[Hne Hq]] & Hx); [done|]. split; [|eauto]. intros <-. assert (lf_locks s !! i = Some q) by (apply Hl; eauto). congruence.
  - destruct pc; try done. injection He as <- <-. split; simpl.
    + intros q x j [_ Hq]%lookup_delete_Some Hf. destruct ok; [|by eapply Hn]. specialize (Ha q x Hq). simpl in Ha. congruence.
    + intros j q. rewrite Hl. setoid_rewrite lookup_delete_Some. naive_solver.
  - injection He as <- <-. by apply lease_inv_close.
Qed.

Lemma lease_reach_inv s : lease_reach s → lease_inv s.
Proof.
  induction 1 as [|s e s' r _ IH Ha He]; [|by eapply lease_step_inv].
  split; simpl; [intros p pc i; by rewrite lookup_empty|]. intros i p. rewrite !lookup_empty. naive_solver.
Qed.

(** Acquisition by a process that was not there, with no system call failing. *)
Definition acquire_events (p : Pid) : list LeaseEvent := [LeOpen p true; LeTryLock p true; LeWrite p None].

(** C29. The lease is exclusive as long as nobody removes the file while another process has it open, whatever else fails or crashes: at most
    one process holds it; while one does, a process that opens the file is refused; and when no lock is held, the next one gets it. *)
Theorem lease_exclusive s (Hs : lease_reach s) :
  (∀ p q, holds_lease s p → holds_lease s q → p = q) ∧
  (∀ p q i s' r, holds_lease s p → lf_procs s !! q = Some (LeaseOpened i) → lease_step s (LeTryLock q true) = Some (s', r) →
     r = Err (wal "WAL directory is locked by another process") ∧ holds_lease s' p) ∧
  (∀ p, lf_locks s = ∅ → lf_procs s !! p = None → ∃ s', lease_run s (acquire_events p) = Some s' ∧ holds_lease s' p).
Proof.
  apply lease_reach_inv in Hs as [Hn Hl]. split_and!.
  - intros p q [i Hp] [j Hq]. assert (j = i) as -> by (pose proof (Hn _ _ _ Hp eq_refl); pose proof (Hn _ _ _ Hq eq_refl); congruence).
    assert (lf_locks s !! i = Some p) by (apply Hl; eauto). assert (lf_locks s !! i = Some q) by (apply Hl; eauto). congruence.
  - intros p q i s' r [j Hp] Hq He. assert (j = i) as -> by (pose proof (Hn _ _ _ Hp eq_refl); pose proof (Hn _ _ _ Hq eq_refl); congruence).
    assert (lf_locks s !! i = Some p) as Hi by (apply Hl; eauto). simpl in He. rewrite Hq in He. unfold lease_try_lock in He.
    rewrite Hi in He. simplify_eq. split; [done|]. exists i. simpl. rewrite lookup_delete_ne; [done|]. congruence.
  - intros p Hno Hp. unfold acquire_events, lease_run, lease_step. rewrite Hp. unfold lease_open.
    assert (∃ i s1, (match lf_entry s with
      | Some i => (set_proc p (LeaseOpened i) s, Ok tt)
      | None => (mkLeaseFs (Some (lf_next s)) (N.succ (lf_next s)) (lf_locks s) (<[p := LeaseOpened (lf_next s)]> (lf_procs s)), Ok tt) end
      : LeaseFs * TeoDBResult unit) = (s1, Ok tt) ∧ lf_procs s1 !! p = Some (LeaseOpened i) ∧ lf_locks s1 = ∅) as (i & s1 & -> & Hp1 & Hl1).
    { destruct (lf_entry s) as [i|]; do 2 eexists; (split; [done|]); simpl; by rewrite lookup_insert_eq. }
    cbn [mbind option_bind]. rewrite Hp1. unfold lease_try_lock. rewrite Hl1, lookup_empty. cbn [mbind option_bind lf_procs].
    rewrite lookup_insert_eq. unfold lease_write. eexists. split; [done|]. exists i. simpl. by rewrite lookup_insert_eq.
Qed.
Lemma lease_run_reach es s s' :
  lease_reach s → Forall (λ e, match e with LeRemove _ true => False | _ => True end) es → lease_run s es = Some s' → lease_reach s'.
Proof.
  revert s. induction es as [|e es IH]; intros s Hs; simpl; [by intros _ [= <-]|]. intros [He Hes]%Forall_cons.
  intros ([s1 r] & Hstep & Hrun)%bind_Some. eapply IH; [|done|exact Hrun]. eapply lease_reach_step; [done| |done]. by destruct e as [| | | |? []|].
Qed.
Definition demo_lease_run : list LeaseEvent := acquire_events 1 ++ [LeOpen 2 true].
Lemma lease_exclusive_witness :
  ∃ s s' r, lease_run lease_fs_new demo_lease_run = Some s ∧ lease_step s (LeTryLock 2 true) = Some (s', r) ∧
    r = Err (wal "WAL directory is locked by another process") ∧ holds_lease s' 1.
Proof.
  destruct (lease_run lease_fs_new demo_lease_run) as [s|] eqn:Hr; [|discriminate Hr].
  assert (Hreach : lease_reach s) by (apply (lease_run_reach demo_lease_run lease_fs_new); [constructor|repeat constructor|exact Hr]).
  vm_compute in Hr. injection Hr as <-. do 3 eexists. split; [reflexivity|]. split; [reflexivity|].
  destruct (lease_exclusive _ Hreach) as (_ & Hx & _).
  eapply (Hx 1%N 2%N 0%N); [by exists 0%N|reflexivity|reflexivity].
Defined.

(** A release gives up the lock before it removes the file.  A process that takes the lock in between holds a file without a name: the next
    process makes a new one, and both hold the lease. *)
Theorem lease_can_be_held_twice :
  ∃ s, lease_run lease_fs_new
    (acquire_events 1 ++ [LeUnlock 1 true] ++ acquire_events 2 ++ [LeRemove 1 true] ++ acquire_events 3) = Some s ∧
  holds_lease s 2 ∧ holds_lease s 3.
Proof. eexists. split; [vm_compute; reflexivity|]. split; eexists; reflexivity. Qed.

(** ** Opening a root *)
Section opening.
Context `{UuidText} `{UuidV5} `{IdentityJson} `{CommittedJson}.

(** What an open meets: the directory's creation, the outcome of the lease, the identity's writes and the listing. *)
Record OpenRootEnv := mkOpenRootEnv {
  or_create_ok : bool; or_lease : TeoDBResult unit; or_identity : OpenEnv; or_readdir_ok : bool }.
Record OpenedWal := mkOpenedWal {
  ow_identity : ResolvedIdentity; ow_committed : gmap WalTableKey Generation; ow_writer : SegmentWriter }.

Definition wal_open (env : OpenRootEnv) (max_segment_bytes : N) (fsync_on_append : bool) (configured : WalIdentityConfig) (root : WalDir) :
    WalDir * TeoDBResult OpenedWal :=
  match (_ ← (if or_create_ok env then Ok tt else Err (wal "failed to create WAL dir: {e}")); or_lease env) with
  | Err e => (root, Err e)
  | Ok _ =>
      match identity_open (or_identity env) root configured with
      | (root, Err e) => (root, Err e)
      | (root, Ok resolved) =>
          (root,
           next_seq ← (if or_readdir_ok env then Ok (scan_next_seq root) else Err (wal_source "readdir: {e}" "{e}"));
           committed ← load_committed_checkpoint root;
           Ok (mkOpenedWal resolved committed (spawn max_segment_bytes fsync_on_append next_seq)))
      end
  end.

Lemma root_holds_weaken issued r root : root_holds (r :: issued) root → root_holds issued root.
Proof.
  unfold root_holds. destruct (root !! IDENTITY_FILE); [|done]. intros (i & Hf & Hi & [_ Hall]%Forall_cons). by exists i.
Qed.
Lemma persist_identity_log io suffix root i root' res name :
  persist_identity io suffix root i = (root', res) → log_file name → root' !! name = root !! name.
Proof.
  intros Hp Hn. apply atomic_replace_spec in Hp as (_ & _ & Hoth); [|apply identity_tmp_ne].
  apply Hoth; intros ->; [by apply tmp_not_log in Hn|by destruct Hn].
Qed.
Lemma load_or_create_log env root configured root' res name :
  load_or_create env root configured = (root', res) → log_file name → root' !! name = root !! name.
Proof.
  unfold load_or_create. intros Ho Hn. destruct (root !! IDENTITY_FILE); [by simplify_eq|].
  destruct (ensure_uninitialized_root root); [|by simplify_eq]. destruct (WriterSlot_new "standalone"); [|by simplify_eq].
  destruct (persist_identity _ _ _ _) as [root1 res1] eqn:Hp. simplify_eq. by eapply persist_identity_log.
Qed.
Lemma identity_open_log env root configured root' res name :
  identity_open env root configured = (root', res) → log_file name → root' !! name = root !! name.
Proof.
  unfold identity_open, issue_next. intros Ho Hn. destruct (_ ← validate_configured_identity configured; _); [|by simplify_eq].
  destruct (load_or_create _ _ _) as [root1 [p|e]] eqn:Hl; [|simplify_eq; by eapply load_or_create_log].
  destruct (_ ← validate_identity _ _; _); [|simplify_eq; by eapply load_or_create_log].
  destruct (persist_identity _ _ _ _) as [root2 res2] eqn:Hp. simplify_eq.
  etrans; [by eapply persist_identity_log|by eapply load_or_create_log].
Qed.
End opening.

(** Opening a root never touches its log, whether it succeeds or not; a manager that is returned has a writer epoch above every epoch issued on
    this root before, on disk, the checkpoint as persisted, and a writer whose segments sort after all that are there. *)
Theorem wal_open_continues `{UuidText} `{UuidV5Laws} `{IdentityJsonLaws} `{CommittedJson}
    (env : OpenRootEnv) (max_bytes : N) (fsync : bool) (configured : WalIdentityConfig) (root root' : WalDir) issued res
    (Hroot : root_holds issued root) (Htyped : event_typed (EvOpen (or_identity env) configured))
    (Hopen : wal_open env max_bytes fsync configured root = (root', res)) :
  (∀ name, log_file name → root' !! name = root !! name) ∧
  match res with
  | Err _ => root_holds issued root'
  | Ok o =>
      root_holds (ow_identity o :: issued) root' ∧
      Forall (λ r, (ri_writer_epoch r < ri_writer_epoch (ow_identity o))%N) issued ∧
      load_committed_checkpoint root' = Ok (ow_committed o) ∧
      sw_current (ow_writer o) = None ∧
      ∀ name f seq, root' !! name = Some f → parse_seq name = Some seq → (seq < sw_next_seq (ow_writer o))%N
  end.
Proof.
  unfold wal_open in Hopen. destruct (_ ← _; or_lease env); [|by simplify_eq].
  destruct (identity_open _ _ _) as [root1 [r|e]] eqn:Hid; pose proof (identity_open_spec _ _ _ _ _ _ Hroot Htyped Hid) as Hs;
    simplify_eq; (split; [intros name Hn; by eapply identity_open_log|]); [|done].
  destruct Hs as [Hr Hall]. destruct (or_readdir_ok env); cbn [mbind result_bind]; [|by eapply root_holds_weaken].
  destruct (load_committed_checkpoint root') as [c|e] eqn:Hc; cbn [mbind result_bind]; [|by eapply root_holds_weaken].
  split_and!; try done. intros name f seq. apply scan_next_seq_above.
Qed.

(** ** Disk usage *)
(** A directory tree; [FsBroken] is an entry whose type or metadata cannot be read. *)
#[local] Set Warnings "-register-all".
Inductive FsNode := FsFile (len : N) | FsOther | FsBroken | FsDir (readable : bool) (entries : list FsNode).
Fixpoint scan_directory (total : N) (pending : list FsNode) (entries : list FsNode) : TeoDBResult (N * list FsNode) :=
  match entries with
  | [] => Ok (total, pending)
  | FsDir r es :: entries => scan_directory total (FsDir r es :: pending) entries
  | FsFile bytes :: entries =>
      total ← ok_or (u64_checked_add total bytes) (wal "WAL disk usage exceeds u64");
      scan_directory total pending entries
  | FsOther :: entries => scan_directory total pending entries
  | FsBroken :: _ => Err (wal_source "inspect WAL directory entry" "{error}")
  end.
(** The stack of directories, the last pushed first; [None] only when the fuel runs out. *)
Fixpoint usage_loop (fuel : nat) (total : N) (pending : list FsNode) : option (TeoDBResult N) :=
  match pending, fuel with
  | [], _ => Some (Ok total)
  | _, O => None
  | FsDir readable entries :: pending, S fuel =>
      if readable then
        match scan_directory total pending entries with
        | Err e => Some (Err e)
        | Ok (total, pending) => usage_loop fuel total pending
        end
      else Some (Err (wal_source "read WAL directory {}" "{error}"))
  | _ :: _, S _ => Some (Err (wal_source "read WAL directory {}" "{error}"))
  end.
Fixpoint fs_dirs (n : FsNode) : nat :=
  match n with FsDir _ es => S (list_sum (map fs_dirs es)) | _ => 0 end.
Definition disk_usage_bytes (root : FsNode) : option (TeoDBResult N) := usage_loop (S (fs_dirs root)) 0 [root].
Definition check_capacity (soft_watermark hard_cap : N) (root : FsNode) : option (TeoDBResult bool) :=
  used ← disk_usage_bytes root;
  Some (used ← used;
        if (hard_cap <=? used)%N then Err (wal "WAL capacity exceeded: {used} >= {} bytes") else Ok (used <? soft_watermark)%N).

(** The bytes of all regular files below. *)
Fixpoint fs_bytes (n : FsNode) : N :=
  match n with FsFile b => b | FsDir _ es => sumN (map fs_bytes es) | _ => 0 end.
Fixpoint fs_readable (n : FsNode) : bool :=
  match n with FsDir r es => r && forallb fs_readable es | FsBroken => false | _ => true end.
Definition is_fs_dir (n : FsNode) : Prop := match n with FsDir _ _ => True | _ => False end.
#[export] Instance is_fs_dir_dec n : Decision (is_fs_dir n).
Proof. destruct n; apply _. Defined.

Definition pending_ok (pending : list FsNode) : Prop := Forall (λ d, is_fs_dir d ∧ fs_readable d = true) pending.
Definition bytes_of (l : list FsNode) : N := sumN (map fs_bytes l).
Definition dirs_of (l : list FsNode) : nat := list_sum (map fs_dirs l).

Lemma scan_directory_spec entries total pending :
  pending_ok pending → forallb fs_readable entries = true →
  (∃ total' pending', scan_directory total pending entries = Ok (total', pending') ∧ pending_ok pending' ∧
     (total' + bytes_of pending' = total + bytes_of pending + bytes_of entries)%N ∧ dirs_of pending' = dirs_of pending + dirs_of entries ∧
     ((total ≤ u64_max)%N → (total' ≤ u64_max)%N)) ∨
  scan_directory total pending entries = Err (wal "WAL disk usage exceeds u64") ∧ (u64_max < total + bytes_of pending + bytes_of entries)%N.
Proof.
  revert total pending. induction entries as [|e entries IH]; intros total pending Hp; simpl.
  { intros _. left. exists total, pending. unfold bytes_of, dirs_of. simpl. split_and!; try done; lia. }
  intros [He Hes]%andb_true_iff. unfold bytes_of, dirs_of in *. simpl. destruct e as [b| | |r es]; [| |done|].
  - destruct (u64_checked_add total b) as [t|] eqn:Ht; simpl.
    + apply u64_checked_add_Some in Ht as [-> Hle].
      destruct (IH (total + b)%N pending Hp Hes) as [(t' & p' & -> & Hp' & Hb & Hd & Hm)|[-> Hov]]; [left|right].
      * exists t', p'. split_and!; try done; [lia|]. intros _. by apply Hm.
      * split; [done|lia].
    + right. split; [done|]. unfold u64_checked_add in Ht. destruct (N.leb_spec (total + b) u64_max); [done|lia].
  - destruct (IH total pending Hp Hes) as [(t' & p' & -> & Hp' & Hb & Hd & Hm)|[-> Hov]]; [left|right].
    + exists t', p'. split_and!; try done; lia.
    + split; [done|lia].
  - destruct (IH total (FsDir r es :: pending)) as [(t' & p' & -> & Hp' & Hb & Hd & Hm)|[-> Hov]]; [by constructor|done|left|right].
    + exists t', p'. simpl in *. split_and!; try done; [lia|]. rewrite Hd. simpl. lia.
    + simpl in *. split; [done|lia].
Qed.

Lemma usage_loop_spec fuel total pending :
  pending_ok pending → (total ≤ u64_max)%N → dirs_of pending ≤ fuel →
  usage_loop fuel total pending =
    Some (if (total + bytes_of pending <=? u64_max)%N then Ok (total + bytes_of pending)%N else Err (wal "WAL disk usage exceeds u64")).
Proof.
  revert total pending. induction fuel as [|fuel IH]; intros total pending Hp Ht Hf.
  - destruct pending as [|[] pending]; unfold bytes_of, dirs_of in *; simpl in *; try lia;
      [|by apply Forall_cons in Hp as [[[] _] _]..].
    rewrite N.add_0_r. by rewrite (proj2 (N.leb_le _ _)).
  - destruct pending as [|d pending]; simpl.
    { unfold bytes_of. simpl. rewrite N.add_0_r. by rewrite (proj2 (N.leb_le _ _)). }
    apply Forall_cons in Hp as [[Hd Hr] Hp]. destruct d as [| | |r es]; try done. simpl in Hr. apply andb_true_iff in Hr as [-> Hes].
    unfold dirs_of, bytes_of in Hf |- *. simpl in Hf |- *.
    destruct (scan_directory_spec es total pending Hp Hes) as [(t' & p' & -> & Hp' & Hb & Hdd & Hm)|[-> Hov]].
    + unfold dirs_of, bytes_of in *. rewrite IH; [|done|auto|unfold dirs_of; lia]. unfold bytes_of. by replace (t' + sumN (map fs_bytes p'))%N with (total + (sumN (map fs_bytes es) + sumN (map fs_bytes pending)))%N by lia.
    + unfold bytes_of in Hov. by rewrite (proj2 (N.leb_gt _ _)) by lia.
Qed.

(** The walk over a readable root ends and adds up every regular file below it, at any depth, or reports that the sum does not fit 64 bits; the
    capacity check compares that sum with the two limits. *)
Theorem disk_usage_exact soft_watermark hard_cap readable entries (Hr : fs_readable (FsDir readable entries) = true) :
  let used := fs_bytes (FsDir readable entries) in
  disk_usage_bytes (FsDir readable entries) = Some (if (used <=? u64_max)%N then Ok used else Err (wal "WAL disk usage exceeds u64")) ∧
  ((used ≤ u64_max)%N →
    check_capacity soft_watermark hard_cap (FsDir readable entries) =
      Some (if (hard_cap <=? used)%N then Err (wal "WAL capacity exceeded: {used} >= {} bytes") else Ok (used <? soft_watermark)%N)).
Proof.
  intros used. assert (Hu : disk_usage_bytes (FsDir readable entries) = Some (if (used <=? u64_max)%N then Ok used else Err (wal "WAL disk usage exceeds u64"))).
  { unfold disk_usage_bytes. rewrite usage_loop_spec; [|by repeat constructor|lia|unfold dirs_of; simpl; lia].
    unfold bytes_of, used. simpl. by rewrite N.add_0_r. }
  split; [done|]. intros Hle. unfold check_capacity. rewrite Hu. by rewrite (proj2 (N.leb_le _ _)).
Qed.

(** The files of a root as a tree. *)
Definition root_tree (root : WalDir) : FsNode := FsDir true ((λ nf, FsFile (lenN (f_bytes nf.2))) <$> map_to_list root).

(** Nothing consults the capacity before it writes: a node over its hard cap goes on acknowledging appends. *)
Theorem hard_cap_not_enforced :
  let n := (append (H := demo_wal_codec) io_fine [] demo_node (demo_append 4)).1 in
  check_capacity 1 1 (root_tree (n_root n)) = Some (Err (wal "WAL capacity exceeded: {used} >= {} bytes")) ∧
  (append (H := demo_wal_codec) io_fine [] n (demo_append 5)).2 = Ok tt.
Proof. split; vm_compute; reflexivity. Qed.
