(* ===== verification/Manifests.v ===== *)
(** * Snapshot history: live files, referenced files, retention

    Models [teodb-catalog/src/adapter/manifests.rs] and
    [teodb-core/src/snapshot_retention.rs].  Manifest lists and manifests are
    read through the Iceberg library: what a read returns is an argument, as
    is the JSON of a list of paths. *)

From S2P Require Import Prelude Core Location DataFiles Catalog Flush.
Open Scope nat_scope.
Open Scope list_scope.

Definition REMOVED_DATA_FILES_PROP : string := "teodb.removed_data_files".

(** What the adapter reads of a snapshot of the table's history. *)
Record IceSnapshot := mkIceSnapshot {
  is_id : SnapshotId; is_timestamp_ms : Z; is_parent : option SnapshotId;
  is_summary : gmap string string; is_manifest_list : string }.

Record IceHistory := mkIceHistory { ih_snapshots : list IceSnapshot; ih_current : option SnapshotId }.

Definition snapshot_by_id (h : IceHistory) (id : SnapshotId) : option IceSnapshot :=
  snd <$> list_find (λ s, is_id s = id) (ih_snapshots h).
Definition current_snapshot (h : IceHistory) : option IceSnapshot := ih_current h ≫= snapshot_by_id h.

(** ** Retention *)
(** [max_age] is a duration in nanoseconds. *)
Record SnapshotRetention := mkSnapshotRetention { sr_max_age : N; sr_keep_last : N }.

Definition by_recency (snapshots : list (SnapshotId * Z)) : list (SnapshotId * Z) :=
  stable_sort (λ a b, (b.2 <=? a.2)%Z) snapshots.

Definition cutoff_ms (retention : SnapshotRetention) (now_ms : Z) : Z :=
  i64_saturating_sub now_ms (Z.min (Z.of_N (as_millis (sr_max_age retention))) i64_max).

Definition select_expired_snapshots (snapshots : list (SnapshotId * Z)) (current_snapshot_id : option SnapshotId)
    (retention : SnapshotRetention) (protected : gset SnapshotId) (now_ms : Z) : gset SnapshotId :=
  let keep_last := N.max (sr_keep_last retention) 1 in
  list_to_set (map fst
    (List.filter (λ x, (x.2 <? cutoff_ms retention now_ms)%Z && bool_decide (Some x.1 ≠ current_snapshot_id)
                       && bool_decide (x.1 ∉ protected))
       (drop (N.to_nat keep_last) (by_recency snapshots)))).

Record RetainedFileSet := mkRetainedFileSet {
  rf_paths : gset string; rf_retained_snapshots : gset SnapshotId; rf_expired_snapshots : nat }.

(** ** Manifests *)
Section manifests.
Context {F : Type}.

Record ManifestEntry := mkManifestEntry { me_alive : bool; me_path : string; me_file : F }.
Record Manifest := mkManifest { mf_schema_id : Z; mf_spec_id : Z; mf_entries : list ManifestEntry }.
Record LoadedFile := mkLoadedFile { lf_file : F; lf_schema_id : Z; lf_spec_id : Z; lf_path : string }.

(** Reading a snapshot's manifest list (its manifest paths), a manifest, and a JSON list. *)
Context (load_manifest_list : IceSnapshot → result IceError (list string)).
Context (parse_manifest : string → result IceError Manifest).

Definition read_manifest (path : string) : TeoDBResult Manifest :=
  map_err map_iceberg_error (parse_manifest path).

Section live.
Context (paths_from_json : string → option (list string)).

(** [by_id]: a later snapshot of the same id replaces an earlier one. *)
Definition by_id_map (snapshots : list IceSnapshot) : gmap SnapshotId IceSnapshot :=
  foldl (λ m s, <[is_id s := s]> m) ∅ snapshots.

(** The walk along the parents; each round visits one snapshot. *)
Fixpoint removed_walk (fuel : nat) (by_id : gmap SnapshotId IceSnapshot) (removed : gset string)
    (next : option SnapshotId) : outcome TeoDBError (gset string) :=
  match next with
  | None => Returns removed
  | Some snapshot_id =>
      match fuel with
      | O => OutOfFuel
      | S fuel =>
          match by_id !! snapshot_id with
          | None => Raises (Catalog "snapshot {snapshot_id} referenced by current lineage is missing from table metadata")
          | Some snapshot =>
              match is_summary snapshot !! REMOVED_DATA_FILES_PROP with
              | None => removed_walk fuel by_id removed (is_parent snapshot)
              | Some raw =>
                  match paths_from_json raw with
                  | None => Raises (Catalog "failed to parse {REMOVED_DATA_FILES_PROP} on snapshot {snapshot_id}: {error}")
                  | Some paths => removed_walk fuel by_id (removed ∪ list_to_set paths) (is_parent snapshot)
                  end
              end
          end
      end
  end.

Definition removed_data_file_paths (fuel : nat) (h : IceHistory) : outcome TeoDBError (gset string) :=
  removed_walk fuel (by_id_map (ih_snapshots h)) ∅ (ih_current h).

(** The live entries of one manifest. *)
Definition live_entries (removed : gset string) (m : Manifest) : list LoadedFile :=
  map (λ e, mkLoadedFile (me_file e) (mf_schema_id m) (mf_spec_id m) (me_path e))
    (List.filter (λ e, me_alive e && bool_decide (me_path e ∉ removed)) (mf_entries m)).

Fixpoint live_of_manifests (removed : gset string) (paths : list string) : TeoDBResult (list LoadedFile) :=
  match paths with
  | [] => Ok []
  | path :: paths =>
      m ← read_manifest path;
      rest ← live_of_manifests removed paths;
      Ok (live_entries removed m ++ rest)
  end.

Definition live_data_files (fuel : nat) (h : IceHistory) : outcome TeoDBError (list LoadedFile) :=
  match current_snapshot h with
  | None => Returns []
  | Some snapshot =>
      removed ← removed_data_file_paths fuel h;
      paths ← lift (map_err map_iceberg_error (load_manifest_list snapshot));
      lift (live_of_manifests removed paths)
  end.

End live.

(** One manifest list: manifests seen before are skipped. *)
Fixpoint collect_manifests (acc : gset string * gset string) (paths : list string) :
    TeoDBResult (gset string * gset string) :=
  match paths with
  | [] => Ok acc
  | path :: paths =>
      let '(referenced, seen) := acc in
      if bool_decide (path ∈ seen) then collect_manifests acc paths
      else
        m ← read_manifest path;
        collect_manifests (referenced ∪ list_to_set (map me_path (mf_entries m)), {[path]} ∪ seen) paths
  end.

Definition collect_snapshot (include_snapshot : SnapshotId → bool) (acc : gset string * gset string)
    (s : IceSnapshot) : TeoDBResult (gset string * gset string) :=
  if include_snapshot (is_id s) then
    paths ← map_err map_iceberg_error (load_manifest_list s);
    collect_manifests acc paths
  else Ok acc.

Definition collect_referenced_paths (h : IceHistory) (include_snapshot : SnapshotId → bool) :
    TeoDBResult (gset string) :=
  acc ← foldM (collect_snapshot include_snapshot) (∅, ∅) (ih_snapshots h);
  Ok acc.1.

Definition history_of (h : IceHistory) : list (SnapshotId * Z) :=
  map (λ s, (is_id s, is_timestamp_ms s)) (ih_snapshots h).

(** [now_ms]: milliseconds since the epoch, 0 when the clock is before it. *)
Definition retained_file_set (h : IceHistory) (retention : SnapshotRetention) (protected : gset SnapshotId)
    (now_ms : Z) : TeoDBResult RetainedFileSet :=
  let history := history_of h in
  let expired := select_expired_snapshots history (ih_current h) retention protected now_ms in
  let retained_snapshots : gset SnapshotId :=
    list_to_set (List.filter (λ id, bool_decide (id ∉ expired)) (map fst history)) in
  paths ← collect_referenced_paths h (λ id, bool_decide (id ∈ retained_snapshots));
  Ok (mkRetainedFileSet paths retained_snapshots (size expired)).

Definition load_all_referenced_file_paths (h : IceHistory) : TeoDBResult (gset string) :=
  collect_referenced_paths h (λ _, true).

(** ** What the walks compute *)
Lemma by_recency_perm l : by_recency l ≡ₚ l.
Proof. apply stable_sort_perm. Qed.

Lemma by_recency_sorted l : StronglySorted (λ a b, (b.2 <=? a.2)%Z = true) (by_recency l).
Proof. apply stable_sort_sorted; intros; rewrite !Z.leb_le in *; lia. Qed.

(** An expired snapshot is none of those the policy retains. *)
Lemma expired_spec l cur r prot now id :
  id ∈ select_expired_snapshots l cur r prot now →
  Some id ≠ cur ∧ (id ∉ prot) ∧
  ∃ ts, (id, ts) ∈ drop (N.to_nat (N.max (sr_keep_last r) 1)) (by_recency l) ∧ (ts < cutoff_ms r now)%Z.
Proof.
  unfold select_expired_snapshots. rewrite elem_of_list_to_set. intros Hin.
  apply list_elem_of_In, in_map_iff in Hin as ([id' ts] & Heq & [Hin Hc]%filter_In). simpl in *. subst id'.
  inv_checks. split_and!; [done..|]. exists ts. split; [by apply list_elem_of_In|by apply Z.ltb_lt].
Qed.

Lemma not_expired l cur r prot now id ts :
  NoDup (map fst l) → (id, ts) ∈ l →
  (Some id = cur ∨ id ∈ prot ∨ (cutoff_ms r now ≤ ts)%Z ∨
    (id, ts) ∈ take (N.to_nat (N.max (sr_keep_last r) 1)) (by_recency l)) →
  id ∉ select_expired_snapshots l cur r prot now.
Proof.
  intros Hnd Hin Hkeep (Hcur & Hprot & ts' & Hd & Hts)%expired_spec.
  assert (NoDup (map fst (by_recency l))) as Hnd'.
  { change (NoDup (fst <$> by_recency l)). by rewrite by_recency_perm. }
  assert ((id, ts') ∈ l) as Hin'.
  { rewrite <-by_recency_perm. rewrite <-(take_drop (N.to_nat (N.max (sr_keep_last r) 1)) (by_recency l)).
    apply elem_of_app. by right. }
  assert (ts' = ts) as ->.
  { clear -Hnd Hin Hin'. induction l as [|[i t] l IH]; [by apply elem_of_nil in Hin|].
    simpl in Hnd. apply NoDup_cons in Hnd as [Hni Hnd].
    assert (∀ t', (i, t') ∉ l) as Hfr.
    { intros t' Ht. apply Hni. change (map fst l) with (fst <$> l). apply list_elem_of_fmap. by exists (i, t'). }
    apply elem_of_cons in Hin. apply elem_of_cons in Hin'.
    destruct Hin as [Heq|Hin], Hin' as [Heq'|Hin']; simplify_eq; [done|..|auto].
    - by apply Hfr in Hin'.
    - by apply Hfr in Hin. }
  destruct Hkeep as [?|[?|[?|Ht]]]; [done..|lia|].
  rewrite <-(take_drop (N.to_nat (N.max (sr_keep_last r) 1)) (by_recency l)), map_app in Hnd'.
  apply NoDup_app in Hnd' as (_ & Hdis & _).
  eapply (Hdis id); apply list_elem_of_In, in_map_iff; eexists (id, ts); (split; [done|by apply list_elem_of_In]).
Qed.

(** A path recorded, alive or not, in a manifest of the snapshot. *)
Definition references (s : IceSnapshot) (p : string) : Prop :=
  ∃ paths mp m e, load_manifest_list s = Ok paths ∧ mp ∈ paths ∧ parse_manifest mp = Ok m ∧
    e ∈ mf_entries m ∧ me_path e = p.

(** [acc] holds exactly the paths of the manifests it has seen. *)
Definition collected (acc : gset string * gset string) : Prop :=
  (∀ p, p ∈ acc.1 ↔ ∃ mp m e, mp ∈ acc.2 ∧ parse_manifest mp = Ok m ∧ e ∈ mf_entries m ∧ me_path e = p) ∧
  (∀ mp, mp ∈ acc.2 → ∃ m, parse_manifest mp = Ok m).

Lemma collect_manifests_spec paths acc acc' :
  collect_manifests acc paths = Ok acc' → collected acc →
  collected acc' ∧ (∀ mp, mp ∈ acc'.2 ↔ mp ∈ acc.2 ∨ mp ∈ paths).
Proof.
  revert acc. induction paths as [|path paths IH]; intros [refs seen]; cbn [collect_manifests].
  { intros [= <-] Hc. split; [done|]. set_solver. }
  case_bool_decide as Hs.
  - intros Hr Hc. destruct (IH _ Hr Hc) as [? Hseen]. split; [done|]. intros mp. rewrite Hseen. set_solver.
  - intros (m & Hm%map_err_Ok & Hr)%bind_Ok [Hc1 Hc2]. cbn [fst snd] in Hc1, Hc2.
    destruct (IH _ Hr) as [? Hseen].
    + split; cbn [fst snd].
      * intros p. rewrite elem_of_union, Hc1, elem_of_list_to_set. split.
        -- intros [(mp & m' & e & Hmp & Hrest)|Hin]; [exists mp, m', e; split; [apply elem_of_union; by right|exact Hrest]|].
           change (map me_path ?l) with (me_path <$> l) in Hin.
           apply list_elem_of_fmap in Hin as (e & -> & He). exists path, m, e.
           split; [apply elem_of_union; left; by apply elem_of_singleton|done].
        -- intros (mp & m' & e & [->%elem_of_singleton|Hin]%elem_of_union & Hp & He & <-); [|eauto 10].
           right. assert (m' = m) as -> by congruence. by apply list_elem_of_In, in_map, list_elem_of_In.
      * intros mp [->%elem_of_singleton|?]%elem_of_union; eauto.
    + split; [done|]. intros mp. rewrite Hseen. cbn [fst snd]. set_solver.
Qed.

Lemma collect_snapshots_spec include snaps acc acc' :
  foldM (collect_snapshot include) acc snaps = Ok acc' → collected acc →
  collected acc' ∧
  ∀ mp, mp ∈ acc'.2 ↔ mp ∈ acc.2 ∨ ∃ s paths, s ∈ snaps ∧ include (is_id s) = true ∧
                                        load_manifest_list s = Ok paths ∧ mp ∈ paths.
Proof.
  revert acc. induction snaps as [|s snaps IH]; intros acc; simpl.
  { intros [= <-] Hc. split; [done|]. intros mp. split; [by left|]. intros [|(? & ? & []%elem_of_nil & _)]. done. }
  intros (acc1 & H1 & H2)%bind_Ok Hc. unfold collect_snapshot in H1. destruct (include (is_id s)) eqn:Hi.
  - apply bind_Ok in H1 as (paths & Hp%map_err_Ok & H1). destruct (collect_manifests_spec _ _ _ H1 Hc) as [Hc1 Hs1].
    destruct (IH _ H2 Hc1) as [Hc2 Hs2]. split; [done|]. intros mp. rewrite Hs2, Hs1. split.
    + intros [[?|?]|(s' & ps & ? & ?)]; [by left|..]; right.
      * exists s, paths. split_and!; [by left|done..].
      * exists s', ps. split; [by right|done].
    + intros [?|(s' & ps & [->|?]%elem_of_cons & ? & ? & ?)]; [tauto|..].
      * assert (ps = paths) as -> by congruence. left. by right.
      * right. eauto 10.
  - injection H1 as <-. destruct (IH _ H2 Hc) as [Hc2 Hs2]. split; [done|]. intros mp. rewrite Hs2.
    split; (intros [?|(s' & ps & Hin & ? & ?)]; [by left|right; exists s', ps]).
    + split; [by right|done].
    + apply elem_of_cons in Hin as [->|?]; [congruence|done].
Qed.

(** Sharing manifests between snapshots loses nothing: the result is what the included
    snapshots reference. *)
Lemma collect_referenced_spec h include refs :
  collect_referenced_paths h include = Ok refs →
  ∀ p, p ∈ refs ↔ ∃ s, s ∈ ih_snapshots h ∧ include (is_id s) = true ∧ references s p.
Proof.
  intros (acc & Hf & [= <-])%bind_Ok p.
  destruct (collect_snapshots_spec _ _ _ _ Hf) as [[Hc _] Hs].
  { split; [|set_solver]. intros q. split; [set_solver|]. intros (? & ? & ? & Hin & _). set_solver. }
  rewrite Hc. unfold references. setoid_rewrite Hs. split.
  - intros (mp & m & e & [?|(s & paths & ? & ? & ? & ?)] & ? & ? & <-); [set_solver|].
    exists s. split_and!; [done..|]. exists paths, mp, m, e. done.
  - intros (s & ? & ? & paths & mp & m & e & ? & ? & ? & ? & <-). exists mp, m, e. split; [|done].
    right. exists s, paths. done.
Qed.
End manifests.
Arguments ManifestEntry : clear implicits.
Arguments Manifest : clear implicits.
Arguments LoadedFile : clear implicits.
