(* ===== verification/Pins.v ===== *)
(** * Snapshot pins

    Models [teodb-core/src/snapshot_pin.rs] (the in-memory registry), the
    property updates of [teodb-catalog/src/adapter/catalog.rs] and
    [teodb-distributed/src/snapshot_registry/registry.rs] (pins leased through
    table properties).  Replies of the catalog and the clock are arguments. *)

From S2P Require Import Prelude Core Decimal Catalog.
Open Scope nat_scope.
Open Scope list_scope.

Abbreviation QueryId := Uuid.

(** ** The in-memory registry *)
Record QueryPin := mkQueryPin { qp_query_id : QueryId; qp_snapshot_id : SnapshotId }.

(** [by_query]: the tables a query has pinned, [TablePin] being the table. *)
Record PinState := mkPinState {
  by_query : gmap QueryId (list TableIdent); by_table : gmap TableIdent (list QueryPin) }.

Definition pin_new : PinState := mkPinState ∅ ∅.

Definition pin (s : PinState) (query_id : QueryId) (table : TableIdent) (snapshot_id : SnapshotId) : PinState :=
  mkPinState
    (<[query_id := default [] (by_query s !! query_id) ++ [table]]> (by_query s))
    (<[table := default [] (by_table s !! table) ++ [mkQueryPin query_id snapshot_id]]> (by_table s)).

(** One round of the loop over the released query's tables. *)
Definition release_table (query_id : QueryId) (by_table : gmap TableIdent (list QueryPin)) (table : TableIdent) :
    gmap TableIdent (list QueryPin) :=
  match by_table !! table with
  | None => by_table
  | Some table_pins =>
      let retained := List.filter (λ e, negb (qp_query_id e =? query_id)%N) table_pins in
      match retained with [] => delete table by_table | _ => <[table := retained]> by_table end
  end.

Definition release (s : PinState) (query_id : QueryId) : PinState :=
  match by_query s !! query_id with
  | None => s
  | Some pins => mkPinState (delete query_id (by_query s)) (foldl (release_table query_id) (by_table s) pins)
  end.

Definition active_snapshots (s : PinState) (table : TableIdent) : list SnapshotId :=
  map qp_snapshot_id (default [] (by_table s !! table)).

(** What a registry promises: the pins held, oldest first. *)
Record HeldPin := mkHeldPin { hp_query : QueryId; hp_table : TableIdent; hp_snapshot : SnapshotId }.
Inductive PinOp := OpPin (q : QueryId) (t : TableIdent) (sn : SnapshotId) | OpRelease (q : QueryId).
Definition abstract_op (held : list HeldPin) (op : PinOp) : list HeldPin :=
  match op with
  | OpPin q t sn => held ++ [mkHeldPin q t sn]
  | OpRelease q => List.filter (λ h, negb (hp_query h =? q)%N) held
  end.
Definition concrete_op (s : PinState) (op : PinOp) : PinState :=
  match op with OpPin q t sn => pin s q t sn | OpRelease q => release s q end.

Definition nonempty {A} (l : list A) : option (list A) := match l with [] => None | _ => Some l end.
Definition pins_of_table (held : list HeldPin) (t : TableIdent) : list QueryPin :=
  map (λ h, mkQueryPin (hp_query h) (hp_snapshot h)) (List.filter (λ h, bool_decide (hp_table h = t)) held).
Definition tables_of_query (held : list HeldPin) (q : QueryId) : list TableIdent :=
  map hp_table (List.filter (λ h, hp_query h =? q)%N held).

(** Both indexes are views of the pins held; an index holds no empty list. *)
Definition pins_refine (s : PinState) (held : list HeldPin) : Prop :=
  (∀ t, by_table s !! t = nonempty (pins_of_table held t)) ∧
  (∀ q, by_query s !! q = nonempty (tables_of_query held q)).

Lemma nonempty_snoc {A} (l : list A) x : nonempty (l ++ [x]) = Some (l ++ [x]).
Proof. by destruct l. Qed.
Lemma default_nonempty {A} (l : list A) : default [] (nonempty l) = l.
Proof. by destruct l. Qed.

Lemma pins_refine_pin s held q t sn :
  pins_refine s held → pins_refine (pin s q t sn) (held ++ [mkHeldPin q t sn]).
Proof.
  intros [Ht Hq]. split; [intros t'|intros q']; unfold pin, pins_of_table, tables_of_query; cbn [by_query by_table].
  - rewrite List.filter_app, map_app. simpl. rewrite lookup_insert. case_decide as Heq.
    + subst t'. rewrite bool_decide_true by done. simpl. by rewrite Ht, default_nonempty, nonempty_snoc.
    + rewrite bool_decide_false by done. simpl. rewrite app_nil_r. apply Ht.
  - rewrite List.filter_app, map_app. simpl. rewrite lookup_insert. case_decide as Heq.
    + subst q'. rewrite N.eqb_refl. simpl. by rewrite Hq, default_nonempty, nonempty_snoc.
    + rewrite (proj2 (N.eqb_neq _ _)) by done. simpl. rewrite app_nil_r. apply Hq.
Qed.

(** Releasing from one table's index, as a function of the index entry. *)
Definition released (q : QueryId) (o : option (list QueryPin)) : option (list QueryPin) :=
  l ← o; nonempty (List.filter (λ e, negb (qp_query_id e =? q)%N) l).

Lemma release_table_lookup q m t t' :
  release_table q m t !! t' = if decide (t = t') then released q (m !! t') else m !! t'.
Proof.
  unfold release_table, released. destruct (m !! t) as [l|] eqn:Hl.
  - destruct (List.filter _ l) as [|e l'] eqn:Hf.
    + rewrite lookup_delete. case_decide; [subst; by rewrite Hl; simpl; rewrite Hf|done].
    + rewrite lookup_insert. case_decide; [subst; by rewrite Hl; simpl; rewrite Hf|done].
  - case_decide; [subst; by rewrite Hl|done].
Qed.

Lemma filter_idem {A} (f : A → bool) l : List.filter f (List.filter f l) = List.filter f l.
Proof. induction l as [|x l IH]; simpl; [done|]. destruct (f x) eqn:Hx; simpl; rewrite ?Hx, ?IH; done. Qed.

Lemma released_idem q o : released q (released q o) = released q o.
Proof.
  destruct o as [l|]; [|done]. unfold released. simpl.
  destruct (List.filter _ l) as [|e l'] eqn:Hf; [done|]. cbn [nonempty mbind option_bind].
  rewrite <-Hf at 1. by rewrite filter_idem, Hf.
Qed.

Lemma release_tables_lookup q m ts t :
  foldl (release_table q) m ts !! t = if decide (t ∈ ts) then released q (m !! t) else m !! t.
Proof.
  revert m. induction ts as [|t0 ts IH]; intros m; simpl; [done|]. rewrite IH, release_table_lookup.
  destruct (decide (t0 = t)) as [->|Hne].
  - rewrite (decide_True (P := t ∈ t :: ts)) by (by left). case_decide; [apply released_idem|done].
  - case_decide; [rewrite decide_True by (by right)|rewrite decide_False by set_solver]; done.
Qed.

Lemma released_table held q t :
  released q (nonempty (pins_of_table held t))
  = nonempty (pins_of_table (List.filter (λ h, negb (hp_query h =? q)%N) held) t).
Proof.
  assert (List.filter (λ e, negb (qp_query_id e =? q)%N) (pins_of_table held t)
          = pins_of_table (List.filter (λ h, negb (hp_query h =? q)%N) held) t) as Hf.
  { unfold pins_of_table. induction held as [|h held IH]; simpl; [done|].
    destruct (bool_decide (hp_table h = t)) eqn:Hb, (negb (hp_query h =? q)%N) eqn:Hq; simpl;
      rewrite ?Hb, ?Hq; simpl; rewrite ?IH; done. }
  rewrite <-Hf. unfold released. by destruct (pins_of_table held t).
Qed.

Lemma not_pinning held q t :
  t ∉ tables_of_query held q →
  pins_of_table (List.filter (λ h, negb (hp_query h =? q)%N) held) t = pins_of_table held t.
Proof.
  unfold tables_of_query, pins_of_table. induction held as [|h held IH]; simpl; [done|].
  destruct (hp_query h =? q)%N; simpl; [|intros; case_bool_decide; simpl; by rewrite IH].
  intros [? ?]%not_elem_of_cons. rewrite (bool_decide_false (hp_table h = t)) by done. auto.
Qed.

Lemma pins_refine_release s held q :
  pins_refine s held → pins_refine (release s q) (List.filter (λ h, negb (hp_query h =? q)%N) held).
Proof.
  intros [Ht Hq].
  assert (∀ q', q' ≠ q → tables_of_query (List.filter (λ h, negb (hp_query h =? q)%N) held) q'
                         = tables_of_query held q') as Hother.
  { intros q' Hne. unfold tables_of_query. clear Ht Hq. induction held as [|h held IH]; simpl; [done|].
    destruct (N.eqb_spec (hp_query h) q) as [Hh|Hh]; simpl.
    - rewrite (proj2 (N.eqb_neq _ _)) by congruence. apply IH.
    - destruct (hp_query h =? q')%N; simpl; by rewrite IH. }
  assert (tables_of_query (List.filter (λ h, negb (hp_query h =? q)%N) held) q = []) as Hnone.
  { unfold tables_of_query. clear. induction held as [|h held IH]; simpl; [done|].
    destruct (hp_query h =? q)%N eqn:Hh; simpl; [done|]. by rewrite Hh. }
  unfold release. rewrite Hq. destruct (tables_of_query held q) as [|t0 ts] eqn:Hts; cbn [nonempty].
  - split; [intros t; rewrite Ht; f_equal; symmetry; apply not_pinning; rewrite Hts; set_solver|].
    intros q'. rewrite Hq. destruct (decide (q' = q)) as [->|Hne]; [by rewrite Hts, Hnone|by rewrite Hother].
  - split; cbn [by_query by_table].
    + intros t. rewrite release_tables_lookup, Ht. case_decide as Hin; [apply released_table|].
      f_equal. symmetry. apply not_pinning. by rewrite Hts.
    + intros q'. rewrite lookup_delete. case_decide as Heq; [subst; by rewrite Hnone|].
      rewrite Hq. by rewrite Hother.
Qed.

(** The in-memory registry implements the pins its callers hold: after any sequence of pins
    and releases the snapshots it reports for a table are those of the pins taken on it and
    not released since, in order, one per pin; a release drops every pin of its query and no
    other; and no entry is left behind for a table or query without pins. *)
Theorem pin_registry_refines (ops : list PinOp) :
  let s := foldl concrete_op pin_new ops in
  let held := foldl abstract_op [] ops in
  pins_refine s held ∧
  ∀ t, active_snapshots s t = map hp_snapshot (List.filter (λ h, bool_decide (hp_table h = t)) held).
Proof.
  assert (∀ s held, pins_refine s held → pins_refine (foldl concrete_op s ops) (foldl abstract_op held ops)) as Hrun.
  { induction ops as [|op ops IH]; intros s held Hr; [done|]. apply IH.
    destruct op; [by apply pins_refine_pin|by apply pins_refine_release]. }
  intros s held. assert (pins_refine s held) as Hr by (apply Hrun; split; done).
  split; [done|]. intros t. unfold active_snapshots. rewrite (proj1 Hr), default_nonempty.
  unfold pins_of_table. by rewrite map_map.
Qed.
