(* ===== verification/Leases.v ===== *)
(** * Pins leased through table properties

    Models [update_table_properties] of [teodb-catalog/src/adapter/catalog.rs]
    and the registry of [teodb-distributed/src/snapshot_registry/registry.rs].
    An update is checked against one load of the table and applied by the
    catalog transaction to the metadata it reloads; both are arguments, as are
    the clock and the replies of every attempt. *)

From S2P Require Import Prelude Core Decimal WriteProtocol Catalog Flush Pins.
Open Scope nat_scope.
Open Scope list_scope.

Abbreviation Properties := (gmap string string).

(** ** Property updates *)
(** [pe_check]: the load the expectations are checked on; [pe_commit]: the properties the
    transaction was applied to, or the error of the commit. *)
Record PropsEnv := mkPropsEnv { pe_check : result IceError Properties; pe_commit : result IceError Properties }.

Definition check_expected (current_props : Properties) (expected : list (string * string)) : TeoDBResult unit :=
  foldM (λ _ kv, let actual := default "" (current_props !! kv.1) in
                 reject_if (bool_decide (actual ≠ kv.2)) (Conflict "property '{key}'" kv.2 actual)) tt expected.

Definition apply_properties (updates : list (string * string)) (removals : list string) (base : Properties) : Properties :=
  foldl (λ m k, delete k m) (extend base updates) removals.

Definition update_table_properties (env : PropsEnv) (expected updates : list (string * string))
    (removals : list string) : TeoDBResult Properties :=
  current_props ← map_err map_iceberg_error (pe_check env);
  _ ← check_expected current_props expected;
  base ← map_err map_iceberg_error (pe_commit env);
  Ok (apply_properties updates removals base).

(** ** Leased pins *)
Record LeasedPin := mkLeasedPin {
  lp_snapshot_id : SnapshotId; lp_owner : string; lp_created_ms : N; lp_deadline_ms : N }.

Definition pin_encode (p : LeasedPin) : string :=
  str_join ";" [pretty (lp_snapshot_id p); lp_owner p; pretty (lp_created_ms p); pretty (lp_deadline_ms p)].

Definition pin_decode (value : string) : option LeasedPin :=
  match str_split ";" value with
  | [snapshot_id; owner; created_ms; deadline_ms] =>
      snapshot_id ← parse_i64 snapshot_id;
      created_ms ← parse_u64 created_ms;
      deadline_ms ← parse_u64 deadline_ms;
      Some (mkLeasedPin snapshot_id owner created_ms deadline_ms)
  | _ => None
  end.

Definition PIN_PREFIX : string := "teodb.pin.".

Record SnapshotRegistryConfig := mkSnapshotRegistryConfig { lease_ttl : N; max_cas_retries : nat }.

(** ** Compare-and-swap loops *)
(** One attempt: the load of the table and the update. *)
Record AttemptEnv := mkAttemptEnv { ae_load : TeoDBResult Properties; ae_update : PropsEnv }.

(** The loop [for attempt in 0..=max]: a conflict of the update is retried while attempts
    are left; the outer result of an attempt is an early return. *)
Fixpoint retry_conflicts {A} (todo : nat) (attempt : nat → result (TeoDBResult A) (TeoDBResult A)) (i : nat) : TeoDBResult A :=
  match attempt i with
  | Err early => early
  | Ok (Err (Conflict resource expected actual)) =>
      match todo with
      | O => Err (Conflict resource expected actual)
      | S todo => retry_conflicts todo attempt (S i)
      end
  | Ok r => r
  end.

Section registry.
Context `{UuidText}.
Context (node_id : string) (config : SnapshotRegistryConfig).

Definition query_id_text (q : QueryId) : string := "q-" +:+ uuid_to_string q.
Definition pin_key (q : QueryId) : string := PIN_PREFIX +:+ query_id_text q.
(** [as_millis() as u64] truncates, the addition saturates. *)
Definition lease_deadline (now_ms : N) : N :=
  u64_saturating_add now_ms (as_millis (lease_ttl config) mod 18446744073709551616)%N.

(** The local index of the tables each query pinned. *)
Abbreviation Held := (gmap QueryId (list TableIdent)).
Definition record_local (held : Held) (q : QueryId) (t : TableIdent) : Held :=
  let tables := default [] (held !! q) in
  if bool_decide (t ∈ tables) then <[q := tables]> held else <[q := tables ++ [t]]> held.
Definition forget_local (held : Held) (q : QueryId) : Held * list TableIdent :=
  (delete q held, default [] (held !! q)).
Definition tables_for (held : Held) (q : QueryId) : list TableIdent := default [] (held !! q).

Definition cas_set (env : nat → AttemptEnv) (key value : string) : TeoDBResult Properties :=
  retry_conflicts (max_cas_retries config) (λ i,
    match ae_load (env i) with
    | Err e => Err (Err e)
    | Ok props =>
        let current := default "" (props !! key) in
        Ok (update_table_properties (ae_update (env i)) [(key, current)] [(key, value)] [])
    end) 0.

(** [Ok None]: nothing was there to remove. *)
Definition cas_remove (env : nat → AttemptEnv) (keys : list string) : TeoDBResult (option Properties) :=
  retry_conflicts (max_cas_retries config) (λ i,
    match ae_load (env i) with
    | Err e => Err (Err e)
    | Ok props =>
        let expected := map (λ k, (k, default "" (props !! k))) keys in
        if forallb (λ kv, str_is_empty kv.2) expected then Err (Ok None)
        else Ok (Some <$> update_table_properties (ae_update (env i)) expected [] keys)
    end) 0.

Definition registry_pin (held : Held) (now : N) (env : nat → AttemptEnv) (q : QueryId) (t : TableIdent)
    (snapshot_id : SnapshotId) : Held * TeoDBResult Properties :=
  let p := mkLeasedPin snapshot_id node_id now (lease_deadline now) in
  match cas_set env (pin_key q) (pin_encode p) with
  | Ok props => (record_local held q t, Ok props)
  | Err e => (held, Err e)
  end.

(** The last failed removal's error, if any. *)
Definition registry_release (held : Held) (env : TableIdent → nat → AttemptEnv) (q : QueryId) : Held * TeoDBResult unit :=
  let '(held, tables) := forget_local held q in
  let last_error := foldl (λ err t, match cas_remove (env t) [pin_key q] with Ok _ => err | Err e => Some e end) None tables in
  (held, match last_error with Some e => Err e | None => Ok tt end).

(** The live pins among the properties of a table. *)
Definition live_pins (props : Properties) (now : N) : list LeasedPin :=
  List.filter (λ p, (now <=? lp_deadline_ms p)%N)
    (omap (λ kv, if str_starts_with PIN_PREFIX kv.1 then pin_decode kv.2 else None) (map_to_list props)).
Definition registry_active_snapshots (load : TeoDBResult Properties) (now : N) : TeoDBResult (list SnapshotId) :=
  props ← load; Ok (map lp_snapshot_id (live_pins props now)).

(** One table of [renew]: [Ok None] when there is no pin to renew. *)
Definition renew_table (now : N) (load : TeoDBResult Properties) (env : nat → AttemptEnv) (q : QueryId) :
    TeoDBResult (option Properties) :=
  props ← load;
  match props !! pin_key q ≫= pin_decode with
  | None => Ok None
  | Some p =>
      let renewed := mkLeasedPin (lp_snapshot_id p) (lp_owner p) (lp_created_ms p) (lease_deadline now) in
      Some <$> cas_set env (pin_key q) (pin_encode renewed)
  end.
Definition registry_renew (held : Held) (q : QueryId)
    (env : TableIdent → N * TeoDBResult Properties * (nat → AttemptEnv)) : TeoDBResult unit :=
  foldM (λ _ t, let '(now, load, attempts) := env t in _ ← renew_table now load attempts q; Ok tt) tt (tables_for held q).

Definition is_stale (now : N) (value : string) : bool :=
  match pin_decode value with Some p => (lp_deadline_ms p <? now)%N | None => true end.
Definition stale_keys (props : Properties) (now : N) : list string :=
  map fst (List.filter (λ kv, str_starts_with PIN_PREFIX kv.1 && is_stale now kv.2) (map_to_list props)).
(** The number of pins removed and the properties left; [now] is read in every attempt. *)
Definition registry_expire_stale (now : nat → N) (env : nat → AttemptEnv) : TeoDBResult (nat * option Properties) :=
  retry_conflicts (max_cas_retries config) (λ i,
    match ae_load (env i) with
    | Err e => Err (Err e)
    | Ok props =>
        let stale := stale_keys props (now i) in
        match stale with
        | [] => Err (Ok (0, None))
        | _ =>
            let expected := map (λ k, (k, default "" (props !! k))) stale in
            Ok ((λ props', (length stale, Some props'))
                  <$> update_table_properties (ae_update (env i)) expected [] stale)
        end
    end) 0.
End registry.

(** ** Encoding *)
Fixpoint str_count (c : ascii) (s : string) : nat :=
  match s with EmptyString => 0 | String a s => (if decide (a = c) then 1 else 0) + str_count c s end.

Lemma str_split_count c s : length (str_split c s) = S (str_count c s).
Proof.
  induction s as [|a s IH]; [done|]. simpl. case_decide; simpl; [by rewrite IH|].
  destruct (str_split c s); simpl in *; lia.
Qed.

Lemma str_count_app c s1 s2 : str_count c (s1 +:+ s2) = str_count c s1 + str_count c s2.
Proof. induction s1 as [|a s1 IH]; [done|]. rewrite str_app_cons. simpl. rewrite IH. lia. Qed.

Lemma str_count_free c s : str_count c s = 0 ↔ str_free c s = true.
Proof.
  induction s as [|a s IH]; [done|]. rewrite str_free_cons. simpl. rewrite <-IH.
  case_decide; simpl; [split; [lia|tauto]|naive_solver].
Qed.

Definition pin_typed (p : LeasedPin) : Prop :=
  (i64_min ≤ lp_snapshot_id p ≤ i64_max)%Z ∧ (lp_created_ms p ≤ u64_max)%N ∧ (lp_deadline_ms p ≤ u64_max)%N.

Lemma semicolon_no_digit : (N_of_ascii ";" < 48 ∨ 57 < N_of_ascii ";")%N.
Proof. right. vm_compute. reflexivity. Qed.

(** An encoded pin is read back exactly when its owner has no separator in it; otherwise it
    reads as malformed. *)
Lemma pin_decode_encode p :
  pin_typed p → pin_decode (pin_encode p) = if str_free ";" (lp_owner p) then Some p else None.
Proof.
  destruct p as [sn owner created deadline]. intros (Hsn & Hc & Hd). cbn [lp_owner lp_snapshot_id lp_created_ms lp_deadline_ms] in *.
  unfold pin_decode, pin_encode. cbn [lp_snapshot_id lp_owner lp_created_ms lp_deadline_ms].
  assert (str_free ";" (pretty sn) = true) as F1 by (apply pretty_Z_free; [apply semicolon_no_digit|done]).
  assert (∀ n : N, str_free ";" (pretty n) = true) as F2 by (intros; apply pretty_N_free, semicolon_no_digit).
  destruct (str_free ";" owner) eqn:Ho.
  - rewrite str_split_join by (repeat constructor; auto). unfold parse_i64.
    by rewrite parse_signed_pretty, !parse_u64_pretty by done.
  - destruct (str_split ";" _) as [|a [|b [|c [|d [|e l]]]]] eqn:Hs; try done.
    apply (f_equal length) in Hs. rewrite str_split_count in Hs. exfalso.
    assert (str_count ";" owner ≠ 0) by (rewrite str_count_free; congruence).
    cbn [str_join] in Hs. rewrite !str_count_app in Hs. simpl in Hs. lia.
Qed.

(** Node ids are valid identity components, so they hold no separator. *)
Lemma node_id_free s s' : NodeId_new s = Ok s' → s' = s ∧ str_free ";" s = true.
Proof.
  intros (u & Hv & [= <-])%bind_Ok. split; [done|]. unfold validate_identity_component in Hv.
  destruct (str_is_empty s); [done|]. destruct (Nat.ltb _ _); [done|].
  destruct (str_bytes_all identity_byte s) eqn:Hb; [|done]. clear Hv. unfold str_free.
  induction s as [|a s IH]; [done|]. simpl in Hb |- *. apply andb_true_iff in Hb as [Ha Hb].
  rewrite IH by done. rewrite bool_decide_true; [done|]. by intros ->.
Qed.

(** ** Compare-and-swap *)
Lemma retry_conflicts_Ok {A} todo (attempt : nat → result (TeoDBResult A) (TeoDBResult A)) i r :
  retry_conflicts todo attempt i = Ok r → ∃ j, attempt j = Err (Ok r) ∨ attempt j = Ok (Ok r).
Proof.
  revert i. induction todo as [|todo IH]; intros i; simpl; destruct (attempt i) as [[|[]]|] eqn:Ha; try done.
  all: first [by apply IH|by intros [= <-]; eauto|intros ->; eauto].
Qed.

Lemma update_Ok env expected updates removals props :
  update_table_properties env expected updates removals = Ok props →
  ∃ base, pe_commit env = Ok base ∧ props = apply_properties updates removals base.
Proof.
  intros (cur & _ & (u & _ & (base & Hb%map_err_Ok & [= <-])%bind_Ok)%bind_Ok)%bind_Ok. eauto.
Qed.

Lemma foldl_delete_lookup (removals : list string) (m : Properties) k :
  foldl (λ m k, delete k m) m removals !! k = if decide (k ∈ removals) then None else m !! k.
Proof.
  revert m. induction removals as [|r rs IH]; intros m; simpl; [done|]. rewrite IH, lookup_delete.
  destruct (decide (r = k)) as [->|Hne].
  - rewrite (decide_True (P := k ∈ k :: rs)) by (by left). by case_decide.
  - case_decide; [rewrite decide_True by (by right)|rewrite decide_False by set_solver]; done.
Qed.

Section leases.
Context `{UuidText}.
Context (node_id : string) (config : SnapshotRegistryConfig).

Lemma cas_set_Ok env key value props :
  cas_set config env key value = Ok props →
  ∃ i base, pe_commit (ae_update (env i)) = Ok base ∧ props = <[key := value]> base.
Proof.
  intros (i & Hi)%retry_conflicts_Ok. exists i. destruct (ae_load (env i)); [|naive_solver].
  destruct Hi as [|[= Hi]]; [done|]. apply update_Ok in Hi as (base & ? & ->). eauto.
Qed.

Lemma live_pin props k v p now :
  props !! k = Some v → str_starts_with PIN_PREFIX k = true → pin_decode v = Some p → (now ≤ lp_deadline_ms p)%N →
  lp_snapshot_id p ∈ map lp_snapshot_id (live_pins props now) ∧ k ∉ stale_keys props now.
Proof.
  intros Hk Hpre Hv Hnow. split.
  - apply list_elem_of_In, in_map, filter_In. split; [|by apply N.leb_le]. apply list_elem_of_In, list_elem_of_omap.
    exists (k, v). split; [by apply elem_of_map_to_list|]. simpl. by rewrite Hpre.
  - intros Hin. apply list_elem_of_In, in_map_iff in Hin as ([k' v'] & Heq & [Hin Hs]%filter_In). simpl in *. subst k'.
    apply list_elem_of_In, elem_of_map_to_list in Hin. simplify_eq. apply andb_true_iff in Hs as [_ Hs].
    unfold is_stale in Hs. rewrite Hv in Hs. apply N.ltb_lt in Hs. lia.
Qed.

Lemma pin_key_prefix q : str_starts_with PIN_PREFIX (pin_key q) = true.
Proof. apply str_starts_with_app. Qed.

Lemma record_local_elem held q t : t ∈ tables_for (record_local held q t) q.
Proof.
  unfold tables_for, record_local. case_bool_decide; rewrite lookup_insert_eq; simpl; [done|].
  apply elem_of_app. right. by left.
Qed.

Lemma expire_Ok now env n props :
  registry_expire_stale config now env = Ok (n, Some props) →
  ∃ i loaded base, ae_load (env i) = Ok loaded ∧ pe_commit (ae_update (env i)) = Ok base ∧
    ∀ k, props !! k = if decide (k ∈ stale_keys loaded (now i)) then None else base !! k.
Proof.
  intros (i & Hi)%retry_conflicts_Ok. exists i. destruct (ae_load (env i)) as [loaded|]; [|naive_solver].
  exists loaded. destruct (stale_keys loaded (now i)) as [|k0 ks]; [naive_solver|].
  destruct Hi as [|Hi]; [done|]. injection Hi as Hi.
  destruct (update_table_properties _ _ _ _) as [p'|] eqn:Hu; [|done]. simplify_eq/=.
  apply update_Ok in Hu as (base & ? & ->). exists base. split_and!; [done..|]. intros k.
  apply (foldl_delete_lookup (k0 :: ks)).
Qed.

End leases.

(** The claim at a pin on an empty table, read back before its deadline. *)
Definition demo_attempt (m : Properties) : AttemptEnv := mkAttemptEnv (Ok m) (mkPropsEnv (Ok m) (Ok m)).
Definition demo_registry : SnapshotRegistryConfig := mkSnapshotRegistryConfig 300000000000 8.
