(* ===== verification/Sweep.v ===== *)
(** * The orphan sweeper

    Models [teodb-distributed/src/orphan/sweeper.rs] and the resolution of
    locations in [teodb-storage/src/factory.rs].  Every reply of the catalog,
    the pin registry, the object store and the clock is an argument; the paths
    the store deleted are returned next to the report. *)

From S2P Require Import Prelude Core Location DataFiles Catalog Flush Manifests.
Open Scope nat_scope.
Open Scope list_scope.

(** ** Storage *)
Abbreviation ObjectPath := string.
(** [last_modified] in nanoseconds since the epoch. *)
Record ObjectMeta := mkObjectMeta {
  om_path : ObjectPath; om_size : N; om_etag : option string; om_last_modified : Z }.

(** [DefaultStorageFactory::resolve] for its one backend. *)
Definition resolve (backend_scheme : StorageScheme) (backend_bucket : string) (loc : ObjectLocation) :
    TeoDBResult ObjectPath :=
  let b := default "" (bucket loc) in
  if bool_decide (backend_scheme = scheme loc) && bool_decide (backend_bucket = b) then Ok (key loc)
  else Err (Config "no storage backend registered for {:?} bucket {:?}").

Record SweepReport := mkSweepReport { sw_scanned : nat; sw_deleted : nat; sw_retained : nat }.

Record ProtectedFiles := mkProtectedFiles {
  pf_keys : gset string; pf_retained_snapshots : gset SnapshotId; pf_expired_snapshots : nat }.

Record SweepListing := mkSweepListing { sl_data_prefix : ObjectPath; sl_objects : list ObjectMeta }.

(** What the sweep reads: the cleanup of stale pins, the pins, the table, its history, the
    clock of the retention, the listing, the pins again, the clock, the deletions. *)
Record SweepEnv := mkSweepEnv {
  se_expire_stale : TeoDBResult nat;
  se_pins : TeoDBResult (list SnapshotId);
  se_table_location : TeoDBResult ObjectLocation;
  se_history : TeoDBResult IceHistory;
  se_now_ms : Z;
  se_list : ObjectPath → TeoDBResult (list ObjectMeta);
  se_pins_now : TeoDBResult (list SnapshotId);
  se_now : Z;
  se_delete : ObjectPath → TeoDBResult unit }.

Section sweep.
Context {F : Type}.
Context (load_manifest_list : IceSnapshot → result IceError (list string)).
Context (parse_manifest : string → result IceError (Manifest F)).
Context (backend_scheme : StorageScheme) (backend_bucket : string).
(** [min_age] is a duration in nanoseconds. *)
Context (min_age : N) (retention : option SnapshotRetention).

Definition active_pins (env : SweepEnv) : TeoDBResult (gset SnapshotId) :=
  (* a failed cleanup of stale pins is only logged *)
  pins ← se_pins env; Ok (list_to_set pins).

(** A referenced URI as the key the store lists it under. *)
Definition protected_key (uri : string) : string :=
  match parse uri with Ok loc => key loc | Err _ => uri end.

Definition collect_protected_files (env : SweepEnv) (pinned : gset SnapshotId) : TeoDBResult ProtectedFiles :=
  '(referenced_uris, retained_snapshots, expired_snapshots) ←
    match retention with
    | None =>
        h ← se_history env;
        paths ← load_all_referenced_file_paths load_manifest_list parse_manifest h;
        Ok (paths, ∅, 0)
    | Some retention =>
        h ← se_history env;
        retained ← retained_file_set load_manifest_list parse_manifest h retention pinned (se_now_ms env);
        Ok (rf_paths retained, rf_retained_snapshots retained, rf_expired_snapshots retained)
    end;
  Ok (mkProtectedFiles (set_map protected_key (referenced_uris : gset string)) retained_snapshots expired_snapshots).

Definition data_prefix (table_prefix : ObjectPath) : ObjectPath :=
  if str_is_empty table_prefix then "data/" else str_trim_end "/" table_prefix +:+ "/data/".

Definition list_data_objects (env : SweepEnv) (table_location : string) : TeoDBResult SweepListing :=
  table_location ← map_err (λ _, Catalog "{error}") (parse table_location);
  table_prefix ← resolve backend_scheme backend_bucket table_location;
  let data_prefix := data_prefix table_prefix in
  objects ← se_list env data_prefix;
  Ok (mkSweepListing data_prefix objects).

Definition pins_changed_during_sweep (env : SweepEnv) (protected : ProtectedFiles) : TeoDBResult bool :=
  if 0 <? pf_expired_snapshots protected then
    pins_now ← se_pins_now env;
    Ok (existsb (λ id, bool_decide (id ∉ pf_retained_snapshots protected)) pins_now)
  else Ok false.

(** Whether the loop tries to delete the object. *)
Definition is_candidate (now : Z) (data_prefix : ObjectPath) (referenced_keys : gset string) (obj : ObjectMeta) : bool :=
  negb (bool_decide (om_path obj ∈ referenced_keys)) &&
  str_starts_with data_prefix (om_path obj) &&
  negb (Z.to_N (now - om_last_modified obj) <? min_age)%N.

(** The deleted paths, in order. *)
Definition delete_candidates (env : SweepEnv) (listing : SweepListing) (referenced_keys : gset string) : list ObjectPath :=
  omap (λ obj, if is_candidate (se_now env) (sl_data_prefix listing) referenced_keys obj
               then match se_delete env (om_path obj) with Ok _ => Some (om_path obj) | Err _ => None end
               else None) (sl_objects listing).

Definition sweep (env : SweepEnv) : list ObjectPath * TeoDBResult SweepReport :=
  match (pinned ← active_pins env;
         table_location ← se_table_location env;
         protected ← collect_protected_files env pinned;
         listing ← list_data_objects env (to_uri table_location);
         changed ← pins_changed_during_sweep env protected;
         Ok (protected, listing, changed)) with
  | Err e => ([], Err e)
  | Ok (protected, listing, changed) =>
      let scanned := length (sl_objects listing) in
      if changed : bool then ([], Ok (mkSweepReport scanned 0 scanned))
      else
        let removed := delete_candidates env listing (pf_keys protected) in
        (removed, Ok (mkSweepReport scanned (length removed) (scanned - length removed)))
  end.

(** ** Safety *)

(** The snapshots that must keep their files: all of them without a policy; with one the
    current snapshot, those pinned when the sweep started or when it looked again before
    deleting, the young ones and the most recent ones. *)
Definition must_keep (env : SweepEnv) (h : IceHistory) (s : IceSnapshot) : Prop :=
  match retention with
  | None => True
  | Some r =>
      Some (is_id s) = ih_current h ∨
      (∃ pins, (se_pins env = Ok pins ∨ se_pins_now env = Ok pins) ∧ is_id s ∈ pins) ∨
      (cutoff_ms r (se_now_ms env) ≤ is_timestamp_ms s)%Z ∨
      (is_id s, is_timestamp_ms s)
        ∈ take (N.to_nat (N.max (sr_keep_last r) 1)) (by_recency (history_of h))
  end.

Lemma delete_candidates_elem env listing keys p :
  p ∈ delete_candidates env listing keys →
  ∃ obj, obj ∈ sl_objects listing ∧ om_path obj = p ∧ (p ∉ keys) ∧
    str_starts_with (sl_data_prefix listing) p = true ∧ (Z.of_N min_age ≤ Z.max 0 (se_now env - om_last_modified obj))%Z.
Proof.
  intros (obj & Hin & Hc)%list_elem_of_omap. exists obj. split; [done|].
  destruct (is_candidate _ _ _ obj) eqn:Hcand; [|done]. unfold is_candidate in Hcand. inv_checks.
  destruct (se_delete env (om_path obj)); [|done]. injection Hc as <-. split_and!; [done..|lia].
Qed.

Lemma delete_candidates_length env listing keys :
  length (delete_candidates env listing keys) ≤ length (sl_objects listing).
Proof.
  unfold delete_candidates. induction (sl_objects listing) as [|o os IH]; [done|]. cbn [omap list_omap].
  destruct (is_candidate _ _ _ o); [destruct (se_delete env (om_path o))|]; simpl; lia.
Qed.

(** What an unchanged protected set covers. *)
Lemma protected_covers env h pinned protected pins s uri :
  se_history env = Ok h → NoDup (map is_id (ih_snapshots h)) → se_pins env = Ok pins → pinned = list_to_set pins →
  collect_protected_files env pinned = Ok protected → pins_changed_during_sweep env protected = Ok false →
  s ∈ ih_snapshots h → must_keep env h s → references load_manifest_list parse_manifest s uri →
  protected_key uri ∈ pf_keys protected.
Proof.
  intros Hh Hnd Hpins Hpinned Hcol Hpc Hs Hkeep Href.
  apply bind_Ok in Hcol as ([[uris retained] expired] & Huris & [= <-]).
  apply elem_of_map. exists uri. split; [done|]. unfold must_keep in Hkeep.
  destruct retention as [r|]; rewrite Hh in Huris; cbn [mbind result_bind] in Huris.
  - apply bind_Ok in Huris as (rf & Hrf & [= <- <- <-]). unfold retained_file_set in Hrf.
    set (ex := select_expired_snapshots (history_of h) (ih_current h) r pinned (se_now_ms env)) in *.
    set (ret := list_to_set (List.filter _ (map fst (history_of h))) : gset SnapshotId) in *.
    apply bind_Ok in Hrf as (paths & Hpaths & [= <-]). cbn [rf_paths rf_retained_snapshots rf_expired_snapshots] in *.
    rewrite (collect_referenced_spec _ _ _ _ _ Hpaths). exists s. split; [done|]. split; [|done].
    apply bool_decide_eq_true. assert (is_id s ∈ map fst (history_of h)) as Hid.
    { apply list_elem_of_In, in_map_iff. exists (is_id s, is_timestamp_ms s). split; [done|].
      apply in_map_iff. exists s. split; [done|by apply list_elem_of_In]. }
    assert (is_id s ∉ ex → is_id s ∈ ret) as Hret.
    { intros Hne. apply elem_of_list_to_set, list_elem_of_In, filter_In. split; [by apply list_elem_of_In|].
      by apply bool_decide_eq_true. }
    assert (is_id s ∈ pinned ∨ Some (is_id s) = ih_current h ∨ (cutoff_ms r (se_now_ms env) ≤ is_timestamp_ms s)%Z ∨
            (is_id s, is_timestamp_ms s) ∈ take (N.to_nat (N.max (sr_keep_last r) 1)) (by_recency (history_of h)) →
            is_id s ∈ ret) as Hpol.
    { intros Hor. apply Hret. apply not_expired with (is_timestamp_ms s); [| |tauto].
      2: { apply list_elem_of_In, in_map_iff. exists s. split; [done|by apply list_elem_of_In]. }
      unfold history_of. by rewrite map_map. }
    destruct Hkeep as [?|[(ps & [Hp|Hp] & Hin)|[?|?]]]; [tauto| | |tauto..].
    + apply Hpol. left. assert (ps = pins) as -> by congruence. rewrite Hpinned. by apply elem_of_list_to_set.
    + unfold pins_changed_during_sweep in Hpc. cbn [pf_expired_snapshots pf_retained_snapshots] in Hpc.
      destruct (Nat.ltb_spec 0 (size ex)) as [Hsz|Hsz].
      * rewrite Hp in Hpc. injection Hpc as Hex. apply not_true_iff_false in Hex. apply dec_stable.
        intros Hnr. apply Hex, existsb_exists. exists (is_id s). split; [by apply list_elem_of_In|].
        by apply bool_decide_eq_true.
      * apply Hret. assert (ex ≡ ∅) as -> by (apply size_empty_iff; lia). set_solver.
  - apply bind_Ok in Huris as (paths & Hpaths & [= <- <- <-]).
    rewrite (collect_referenced_spec _ _ _ _ _ Hpaths). eauto.
Qed.

(** What a sweep that deletes has read, and that the deleted object is not protected. *)
Lemma sweep_deleted env h p :
  se_history env = Ok h → NoDup (map is_id (ih_snapshots h)) → p ∈ (sweep env).1 →
  ∃ loc prefix objects obj,
     se_table_location env = Ok loc ∧
     map_err (λ _, Catalog "{error}") (parse (to_uri loc)) ≫= resolve backend_scheme backend_bucket = Ok prefix ∧
     se_list env (data_prefix prefix) = Ok objects ∧ obj ∈ objects ∧ om_path obj = p ∧
     str_starts_with (data_prefix prefix) p = true ∧
     (Z.of_N min_age ≤ Z.max 0 (se_now env - om_last_modified obj))%Z ∧
     ∀ s uri, s ∈ ih_snapshots h → must_keep env h s →
       references load_manifest_list parse_manifest s uri → protected_key uri ≠ p.
Proof.
  intros Hhistory Hids. unfold sweep.
  destruct (_ ≫= _) as [[[protected listing] changed]|e] eqn:Hall; cbn [fst]; [|by intros Hp%elem_of_nil].
  apply bind_Ok in Hall as (pinned & Hpin & Hall). apply bind_Ok in Hall as (loc & Hloc & Hall).
  apply bind_Ok in Hall as (prot & Hprot & Hall). apply bind_Ok in Hall as (lst & Hlst & Hall).
  apply bind_Ok in Hall as (ch & Hch & [= <- <- <-]). apply bind_Ok in Hpin as (pins & Hpins & [= <-]).
  destruct ch; cbn [fst]; [by intros Hp%elem_of_nil|].
  intros (obj & Hobj & Hp & Hnk & Hpre & Hage)%delete_candidates_elem.
  apply bind_Ok in Hlst as (tl & Htl & Hlst). apply bind_Ok in Hlst as (prefix & Hpx & Hlst).
  apply bind_Ok in Hlst as (objects & Hlist & [= <-]).
  exists loc, prefix, objects, obj. split; [done|]. split; [by rewrite Htl|]. do 5 (split; [done|]).
  intros s uri Hs Hkeep Href Heq. apply Hnk. rewrite <-Heq. by eapply protected_covers.
Qed.

(** C13. The sweeper deletes orphans only: a deleted object was listed under the table's data
    directory, is older than the grace period, and is referenced (in whatever manifest,
    alive or not) by no snapshot that must keep its files: none at all without a retention
    policy, and with one neither the current snapshot, nor a snapshot pinned at the start or
    at the check before deletion, nor one the policy retains.  A failed sweep deletes
    nothing, and the report counts what happened. *)
Theorem sweep_deletes_only_orphans (env : SweepEnv) (h : IceHistory)
    (Hhistory : se_history env = Ok h) (Hids : NoDup (map is_id (ih_snapshots h))) :
  (∀ e, (sweep env).2 = Err e → (sweep env).1 = []) ∧
  (∀ report, (sweep env).2 = Ok report →
     sw_deleted report = length (sweep env).1 ∧ sw_deleted report + sw_retained report = sw_scanned report) ∧
  (∀ p, p ∈ (sweep env).1 → ∃ loc prefix objects obj,
     se_table_location env = Ok loc ∧
     map_err (λ _, Catalog "{error}") (parse (to_uri loc)) ≫= resolve backend_scheme backend_bucket = Ok prefix ∧
     se_list env (data_prefix prefix) = Ok objects ∧ obj ∈ objects ∧ om_path obj = p ∧
     str_starts_with (data_prefix prefix) p = true ∧
     (Z.of_N min_age ≤ Z.max 0 (se_now env - om_last_modified obj))%Z ∧
     ∀ s uri, s ∈ ih_snapshots h → must_keep env h s →
       references load_manifest_list parse_manifest s uri → protected_key uri ≠ p).
Proof.
  split_and!; [..|intros p; by apply sweep_deleted]; unfold sweep;
    destruct (_ ≫= _) as [[[protected listing] changed]|e]; cbn [fst snd]; try done; destruct changed; try done;
    intros r [= <-]; cbn [sw_deleted sw_retained sw_scanned length].
  - split; [done|lia].
  - split; [done|]. pose proof (delete_candidates_length env listing (pf_keys protected)). lia.
Qed.
End sweep.

(** ** A concrete sweep

    Snapshot 1 has expired, snapshot 2 is current; an upload was never committed. *)
Definition demo_snap (id : SnapshotId) : IceSnapshot := mkIceSnapshot id (id * 1000) None ∅ "".
Definition demo_history : IceHistory := mkIceHistory [demo_snap 1; demo_snap 2] (Some 2%Z).
Definition demo_lists (s : IceSnapshot) : result IceError (list string) :=
  Ok [if decide (is_id s = 1%Z) then "m1" else "m2"].
Definition demo_manifest (path : string) : result IceError (Manifest unit) :=
  Ok (mkManifest 0 0 [mkManifestEntry true
        (if decide (path = "m1") then "s3://b/t/data/a.parquet" else "s3://b/t/data/b.parquet") ()]).
Definition demo_object (k : string) : ObjectMeta := mkObjectMeta k 10 None 0.
Definition demo_sweep_env : SweepEnv := {|
  se_expire_stale := Ok 0; se_pins := Ok []; se_table_location := Ok (mkObjectLocation S3 (Some "b") "t");
  se_history := Ok demo_history; se_now_ms := 5000;
  se_list _ := Ok (map demo_object ["t/data/a.parquet"; "t/data/b.parquet"; "t/data/c.parquet"]);
  se_pins_now := Ok []; se_now := 9000000000; se_delete _ := Ok tt |}.
Definition demo_retention : SnapshotRetention := mkSnapshotRetention 1000000 1.

Lemma sweep_deletes_only_orphans_witness :
  (sweep demo_lists demo_manifest S3 "b" 1000 (Some demo_retention) demo_sweep_env).1
    = ["t/data/a.parquet"; "t/data/c.parquet"] ∧
  ∃ report, (sweep demo_lists demo_manifest S3 "b" 1000 (Some demo_retention) demo_sweep_env).2 = Ok report ∧
    sw_deleted report + sw_retained report = sw_scanned report.
Proof.
  assert (NoDup (map is_id (ih_snapshots demo_history))) as Hids by (repeat constructor; set_solver).
  destruct (sweep_deletes_only_orphans demo_lists demo_manifest S3 "b" 1000 (Some demo_retention) demo_sweep_env
              demo_history eq_refl Hids) as (_ & Hreport & _).
  split; [vm_compute; reflexivity|].
  destruct ((sweep demo_lists demo_manifest S3 "b" 1000 (Some demo_retention) demo_sweep_env).2) as [report|e] eqn:Hr;
    [|vm_compute in Hr; discriminate].
  exists report. split; [reflexivity|]. apply (Hreport report). reflexivity.
Defined.
