(* ===== verification/Cache.v ===== *)
(** * The local object cache

    Models [teodb-storage/src/cache]: the index with its least-recently-used
    eviction ([index.rs]), the caching wrapper around a storage backend
    ([storage.rs]) and the sharing of concurrent fetches ([flight.rs]).  The
    cache directory is a map from relative paths to bytes; the checksum
    function, the JSON text of the index, the clock and the replies of the file
    system are arguments. *)

From S2P Require Import Prelude Core WalFrame WalReplay Location DataFiles Catalog Flush Manifests Sweep.
Open Scope nat_scope.
Open Scope list_scope.

Abbreviation Bytes := (list byte).

(** ** The eviction target: [(max_total_bytes as f64 * 0.9) as u64] *)
(** Division rounded to the nearest integer, ties to the even one. *)
Definition round_even (n d : N) : N :=
  let q := (n / d)%N in
  let r := (n mod d)%N in
  if (2 * r <? d)%N then q else if (d <? 2 * r)%N then (q + 1)%N else (q + N.b2n (N.odd q))%N.

(** The binary64 nearest to an integer: 53 significant bits. *)
Definition f64_round (n : N) : N :=
  let unit := (2 ^ (N.log2 n - 52))%N in (round_even n unit * unit)%N.

(** The binary64 [0.9] is this numerator over [2^53]. *)
Definition NINE_TENTHS : N := 8106479329266893.
Definition evict_target (max_total_bytes : N) : N :=
  (f64_round (f64_round max_total_bytes * NINE_TENTHS) / 2 ^ 53)%N.

(** ** Data *)
Record CacheConfig := mkCacheConfig { max_total_bytes : N; max_per_object_bytes : N }.

Record CacheEntry := mkCacheEntry {
  cn_uri : string; cn_size : N; cn_etag : option string; cn_checksum : N; cn_last_access_ms : Z }.

(** [BTreeSet<LruKey>]: a key is the access time and the URI, compared in this order. *)
Abbreviation LruKey := (Z * string)%type.
Definition lru_leb (a b : LruKey) : bool :=
  (a.1 <? b.1)%Z || (a.1 =? b.1)%Z && str_leb a.2 b.2.

Record IndexState := mkIndexState {
  ix_entries : gmap string CacheEntry; ix_lru_order : gset LruKey; ix_total_bytes : N }.

Record CacheIndex := mkCacheIndex {
  ci_state : IndexState; ci_hits : N; ci_misses : N; ci_dirty : bool }.

(** The index in memory and the files below the cache's root directory. *)
Record CacheWorld := mkCacheWorld { cw_index : CacheIndex; cw_disk : gmap string Bytes }.

Definition entries_of (w : CacheWorld) : gmap string CacheEntry := ix_entries (ci_state (cw_index w)).
Definition set_index_state (i : CacheIndex) (s : IndexState) : CacheIndex :=
  mkCacheIndex s (ci_hits i) (ci_misses i) (ci_dirty i).
Definition set_dirty (i : CacheIndex) (dirty : bool) : CacheIndex :=
  mkCacheIndex (ci_state i) (ci_hits i) (ci_misses i) dirty.
(** [AtomicU64::fetch_add] wraps around. *)
Definition add_hit (i : CacheIndex) : CacheIndex :=
  mkCacheIndex (ci_state i) ((ci_hits i + 1) mod (u64_max + 1)) (ci_misses i) (ci_dirty i).
Definition add_miss (i : CacheIndex) : CacheIndex :=
  mkCacheIndex (ci_state i) (ci_hits i) ((ci_misses i + 1) mod (u64_max + 1)) (ci_dirty i).
Definition with_index (w : CacheWorld) (i : CacheIndex) : CacheWorld := mkCacheWorld i (cw_disk w).
Definition with_disk (w : CacheWorld) (d : gmap string Bytes) : CacheWorld := mkCacheWorld (cw_index w) d.

(** ** Paths *)
(** [{:016x}]. *)
Definition hex_char (d : N) : ascii := ascii_of_N (if (d <? 10)%N then 48 + d else 87 + d)%N.
Fixpoint hex_fixed (k : nat) (n : N) : string :=
  match k with
  | O => EmptyString
  | S k => String (hex_char (n / 16 ^ N.of_nat k)) (hex_fixed k (n mod 16 ^ N.of_nat k))
  end.
Definition bin_stem (checksum : N) : string :=
  let hex := hex_fixed 16 checksum in "v1/" +:+ String.substring 0 2 hex +:+ "/" +:+ hex.
Definition bin_path_for_checksum (checksum : N) : string := bin_stem checksum +:+ ".bin".
Definition bin_tmp_path (checksum : N) : string := bin_stem checksum +:+ ".tmp".

Definition INDEX_PATH : string := "index.json".
Definition INDEX_TMP_PATH : string := "index.json.tmp".

(** A name with the extension [tmp], directly in the data directory or in a bucket. *)
Definition has_tmp_extension (name : string) : bool :=
  match str_strip_suffix ".tmp" name with Some stem => negb (str_is_empty stem) | None => false end.
Definition is_temp_file (path : string) : bool :=
  match str_split "/" path with
  | ["v1"; f] => has_tmp_extension f
  | ["v1"; _; f] => has_tmp_extension f
  | _ => false
  end.
Definition cleanup_temp_files (remove_ok : string → bool) (disk : gmap string Bytes) : gmap string Bytes :=
  filter (λ f, negb (is_temp_file f.1 && remove_ok f.1) = true) disk.

(** ** Sections of the index that run under its lock *)
(** Dropping an entry: shared by [remove] and by [get_cached] when the file is gone. *)
Definition drop_entry (s : IndexState) (uri : string) : IndexState * option CacheEntry :=
  match ix_entries s !! uri with
  | None => (s, None)
  | Some e =>
      (mkIndexState (delete uri (ix_entries s)) (ix_lru_order s ∖ {[(cn_last_access_ms e, uri)]})
         (u64_saturating_sub (ix_total_bytes s) (cn_size e)), Some e)
  end.

Definition insert_entry (s : IndexState) (uri : string) (entry : CacheEntry) : IndexState :=
  let s1 := match ix_entries s !! uri with
            | None => s
            | Some old =>
                mkIndexState (ix_entries s) (ix_lru_order s ∖ {[(cn_last_access_ms old, uri)]})
                  (u64_saturating_sub (ix_total_bytes s) (cn_size old))
            end in
  mkIndexState (<[uri := entry]> (ix_entries s1)) ({[(cn_last_access_ms entry, uri)]} ∪ ix_lru_order s1)
    ((ix_total_bytes s1 + cn_size entry) mod (u64_max + 1)).

Definition touch (now : Z) (s : IndexState) (uri : string) : IndexState :=
  match ix_entries s !! uri with
  | None => s
  | Some e =>
      mkIndexState (<[uri := mkCacheEntry (cn_uri e) (cn_size e) (cn_etag e) (cn_checksum e) now]> (ix_entries s))
        ({[(now, uri)]} ∪ ix_lru_order s ∖ {[(cn_last_access_ms e, uri)]}) (ix_total_bytes s)
  end.

(** The URIs to evict, oldest first, until enough bytes are counted. *)
Fixpoint evict_uris (entries : gmap string CacheEntry) (to_free : N) (order : list LruKey) : list string :=
  match order with
  | [] => []
  | (_, uri) :: rest =>
      if (to_free =? 0)%N then []
      else match entries !! uri with
           | Some e => uri :: evict_uris entries (u64_saturating_sub to_free (cn_size e)) rest
           | None => evict_uris entries to_free rest
           end
  end.

Definition entries_to_evict (config : CacheConfig) (s : IndexState) : list string :=
  if (ix_total_bytes s <=? max_total_bytes config)%N then []
  else evict_uris (ix_entries s) (ix_total_bytes s - evict_target (max_total_bytes config))%N
         (stable_sort lru_leb (elements (ix_lru_order s))).

(** ** Operations of the index *)
(** Replies of the file system and the clock to one [get_cached] and one [put_cached]. *)
Record GetIo := mkGetIo { gi_read_ok : bool; gi_now : Z; gi_unlink_ok : string → bool }.
Record PutIo := mkPutIo {
  pi_mkdir_ok : bool; pi_write_ok : bool; pi_torn : Bytes; pi_rename_ok : bool; pi_now : Z;
  pi_unlink_ok : string → bool }.

Class CacheJson := {
  entries_to_json : list CacheEntry → Bytes;
  entries_from_json : Bytes → option (list CacheEntry);
}.
Class CacheJsonLaws `{CacheJson} : Prop := {
  entries_from_to_json es : entries_from_json (entries_to_json es) = Some es;
}.

Section index.
Context (xxh3_64 : Bytes → N) (config : CacheConfig).

Definition remove (unlink_ok : string → bool) (w : CacheWorld) (uri : string) : CacheWorld :=
  let '(s, entry) := drop_entry (ci_state (cw_index w)) uri in
  match entry with
  | None => with_index w (set_index_state (cw_index w) s)
  | Some e =>
      let bin_path := bin_path_for_checksum (cn_checksum e) in
      mkCacheWorld (set_dirty (set_index_state (cw_index w) s) true)
        (if unlink_ok bin_path then delete bin_path (cw_disk w) else cw_disk w)
  end.

Definition get_cached (io : GetIo) (w : CacheWorld) (uri : string) : CacheWorld * TeoDBResult (option Bytes) :=
  match entries_of w !! uri with
  | None => (with_index w (add_miss (cw_index w)), Ok None)
  | Some entry =>
      match (if gi_read_ok io then cw_disk w !! bin_path_for_checksum (cn_checksum entry) else None) with
      | Some data =>
          if (xxh3_64 data =? cn_checksum entry)%N then
            (with_index w (add_hit (set_index_state (cw_index w) (touch (gi_now io) (ci_state (cw_index w)) uri))),
             Ok (Some data))
          else (remove (gi_unlink_ok io) w uri, Ok None)
      | None =>
          (with_index w (set_index_state (cw_index w) (drop_entry (ci_state (cw_index w)) uri).1), Ok None)
      end
  end.

Definition maybe_evict (unlink_ok : string → bool) (w : CacheWorld) : CacheWorld :=
  foldl (remove unlink_ok) w (entries_to_evict config (ci_state (cw_index w))).

Definition put_cached (io : PutIo) (w : CacheWorld) (uri : string) (data : Bytes) (etag : option string) :
    CacheWorld * TeoDBResult unit :=
  if (max_per_object_bytes config <? lenN data)%N then (w, Ok tt)
  else
    let checksum := xxh3_64 data in
    let bin_path := bin_path_for_checksum checksum in
    let tmp_path := bin_tmp_path checksum in
    if negb (pi_mkdir_ok io) then (w, Err (Internal "create cache bucket dir: {e}"))
    else if negb (pi_write_ok io) then
      (with_disk w (<[tmp_path := pi_torn io]> (cw_disk w)), Err (Internal "write cache file: {e}"))
    else
      let disk1 := <[tmp_path := data]> (cw_disk w) in
      if negb (pi_rename_ok io) then (with_disk w disk1, Err (Internal "rename cache file: {e}"))
      else
        let w2 := with_disk w (<[bin_path := data]> (delete tmp_path disk1)) in
        let entry := mkCacheEntry uri (lenN data) etag checksum (pi_now io) in
        let s := insert_entry (ci_state (cw_index w)) uri entry in
        let needs_eviction := (max_total_bytes config <? ix_total_bytes s)%N in
        let w3 := with_index w2 (set_index_state (cw_index w2) s) in
        let w4 := if needs_eviction then maybe_evict (pi_unlink_ok io) w3 else w3 in
        (with_index w4 (set_dirty (cw_index w4) true), Ok tt).

(** ** Persistence *)
Context `{CacheJson}.

Record PersistIo := mkPersistIo {
  po_write_ok : bool; po_torn : Bytes; po_sync_ok : bool; po_rename_ok : bool }.

Definition persist (io : PersistIo) (w : CacheWorld) : CacheWorld * TeoDBResult unit :=
  let w := with_index w (set_dirty (cw_index w) false) in
  let json := entries_to_json (map_to_list (entries_of w)).*2 in
  if negb (po_write_ok io) then
    (with_disk w (<[INDEX_TMP_PATH := po_torn io]> (cw_disk w)), Err (Internal "write index: {e}"))
  else
    let disk := <[INDEX_TMP_PATH := json]> (cw_disk w) in
    if negb (po_sync_ok io) then (with_disk w disk, Err (Internal "fsync index: {e}"))
    else if negb (po_rename_ok io) then (with_disk w disk, Err (Internal "rename index: {e}"))
    else (with_disk w (<[INDEX_PATH := json]> (delete INDEX_TMP_PATH disk)), Ok tt).

Definition persist_if_dirty (io : PersistIo) (w : CacheWorld) : CacheWorld * TeoDBResult bool :=
  if negb (ci_dirty (cw_index w)) then (w, Ok false)
  else
    let '(w, result) := persist io (with_index w (set_dirty (cw_index w) false)) in
    match result with
    | Err e => (with_index w (set_dirty (cw_index w) true), Err e)
    | Ok _ => (w, Ok true)
    end.

Definition load_cache_entry (s : IndexState) (e : CacheEntry) : IndexState :=
  mkIndexState (<[cn_uri e := e]> (ix_entries s)) ({[(cn_last_access_ms e, cn_uri e)]} ∪ ix_lru_order s)
    (ix_total_bytes s).

Definition open_with_config (mkdir_ok read_ok : bool) (remove_ok : string → bool) (disk : gmap string Bytes) :
    TeoDBResult CacheWorld :=
  if negb mkdir_ok then Err (Internal "create cache dir: {e}")
  else
    let disk := cleanup_temp_files remove_ok disk in
    let loaded := match (if read_ok then disk !! INDEX_PATH else None) with
                  | Some json => default [] (entries_from_json json)
                  | None => []
                  end in
    let total := (sumN (cn_size <$> loaded) mod (u64_max + 1))%N in
    let s := foldl load_cache_entry (mkIndexState ∅ ∅ total) loaded in
    Ok (mkCacheWorld (mkCacheIndex s 0 0 false) disk).
End index.

(** ** The storage interface *)
(** [trait Storage]: each operation may change the store and replies. *)
Class Storage (St : Type) := {
  s_get : St → ObjectPath → St * TeoDBResult Bytes;
  s_get_range : St → ObjectPath → N → N → St * TeoDBResult Bytes;
  s_head : St → ObjectPath → St * TeoDBResult ObjectMeta;
  s_put : St → ObjectPath → Bytes → St * TeoDBResult ObjectMeta;
  s_delete : St → ObjectPath → St * TeoDBResult unit;
  s_copy : St → ObjectPath → ObjectPath → St * TeoDBResult unit;
}.

(** [Bytes::slice] of the range clamped to the object. *)
Definition slice (start end_ : N) (b : Bytes) : Bytes :=
  let start := N.min start (lenN b) in
  let end_ := N.min end_ (lenN b) in
  take (N.to_nat (end_ - start)) (drop (N.to_nat start) b).

(** What an object store promises about its objects: reads return them and change nothing;
    a write that is acknowledged has happened, one that failed may have happened or not. *)
Class StorageLaws (St : Type) `{Storage St} (objects : St → gmap ObjectPath Bytes) : Prop := {
  get_law s p s' r : s_get s p = (s', r) →
    objects s' = objects s ∧ (∀ b, r = Ok b → objects s !! p = Some b);
  get_range_law s p lo hi s' r : s_get_range s p lo hi = (s', r) →
    objects s' = objects s ∧ (∀ b, r = Ok b → slice lo hi <$> objects s !! p = Some b);
  head_law s p s' r : s_head s p = (s', r) → objects s' = objects s;
  put_law s p b s' r : s_put s p b = (s', r) →
    objects s' = <[p := b]> (objects s) ∨ is_ok r = false ∧ objects s' = objects s;
  delete_law s p s' r : s_delete s p = (s', r) →
    objects s' = delete p (objects s) ∨ is_ok r = false ∧ objects s' = objects s;
  copy_law s from to s' r : s_copy s from to = (s', r) →
    (∃ b, objects s !! from = Some b ∧ objects s' = <[to := b]> (objects s)) ∨
    is_ok r = false ∧ objects s' = objects s;
}.

Section storage.
Context (xxh3_64 : Bytes → N) (config : CacheConfig) (uri_prefix : string).
Context {St : Type} `{!Storage St}.

Definition cache_key (path : ObjectPath) : string := uri_prefix +:+ path.

Abbreviation State := (CacheWorld * St)%type.

(** The fetch of a miss, and the eviction after it. *)
Definition fetch (io : PutIo) (st : State) (path : ObjectPath) : State * TeoDBResult Bytes :=
  let '(w, inner) := st in
  match s_get inner path with
  | (inner, Err e) => ((w, inner), Err e)
  | (inner, Ok bytes) =>
      match s_head inner path with
      | (inner, Err e) => ((w, inner), Err e)
      | (inner, Ok head) =>
          match put_cached xxh3_64 config io w (cache_key path) bytes (om_etag head) with
          | (w, Err e) => ((w, inner), Err e)
          | (w, Ok _) => ((maybe_evict config (pi_unlink_ok io) w, inner), Ok bytes)
          end
      end
  end.

Definition cached_get (gio : GetIo) (pio : PutIo) (st : State) (path : ObjectPath) : State * TeoDBResult Bytes :=
  let '(w, inner) := st in
  match get_cached xxh3_64 gio w (cache_key path) with
  | (w, Err e) => ((w, inner), Err e)
  | (w, Ok (Some bytes)) => ((w, inner), Ok bytes)
  | (w, Ok None) => fetch pio (w, inner) path
  end.

Definition cached_get_range (gio gio2 : GetIo) (pio : PutIo) (st : State) (path : ObjectPath) (start end_ : N) :
    State * TeoDBResult Bytes :=
  if (end_ <? start)%N then (st, Err (InvalidArgument "range" "start ({}) > end ({})"))
  else
    let '(w, inner) := st in
    match get_cached xxh3_64 gio w (cache_key path) with
    | (w, Err e) => ((w, inner), Err e)
    | (w, Ok (Some bytes)) => ((w, inner), Ok (slice start end_ bytes))
    | (w, Ok None) =>
        let range_len := u64_saturating_sub end_ start in
        if (range_len <=? 64 * 1024)%N then
          let '(inner, r) := s_get_range inner path start end_ in ((w, inner), r)
        else
          match s_head inner path with
          | (inner, Err e) => ((w, inner), Err e)
          | (inner, Ok head) =>
              let covers_most := (om_size head =? 0)%N || (om_size head <=? N.min (range_len * 2) u64_max)%N in
              if covers_most then
                match cached_get gio2 pio (w, inner) path with
                | (st, Err e) => (st, Err e)
                | (st, Ok full) => (st, Ok (slice start end_ full))
                end
              else let '(inner, r) := s_get_range inner path start end_ in ((w, inner), r)
          end
    end.

Definition cached_put (unlink_ok : string → bool) (io : PutIo) (st : State) (path : ObjectPath) (bytes : Bytes) :
    State * TeoDBResult ObjectMeta :=
  let '(w, inner) := st in
  let w := remove unlink_ok w (cache_key path) in
  match s_put inner path bytes with
  | (inner, Err e) => ((w, inner), Err e)
  | (inner, Ok meta) =>
      match put_cached xxh3_64 config io w (cache_key path) bytes (om_etag meta) with
      | (w, Err e) => ((w, inner), Err e)
      | (w, Ok _) => ((w, inner), Ok meta)
      end
  end.

Definition cached_delete (unlink_ok : string → bool) (st : State) (path : ObjectPath) : State * TeoDBResult unit :=
  let '(w, inner) := st in
  let w := remove unlink_ok w (cache_key path) in
  let '(inner, r) := s_delete inner path in ((w, inner), r).

Definition cached_copy (unlink_ok : string → bool) (st : State) (from to : ObjectPath) : State * TeoDBResult unit :=
  let '(w, inner) := st in
  let w := remove unlink_ok w (cache_key to) in
  let '(inner, r) := s_copy inner from to in ((w, inner), r).
End storage.

(** ** Sharing of concurrent fetches ([SingleFlight::run])

    A call first looks for a running fetch of its key; a later step of the same call registers
    its own.  Channels are numbered; [fl_sent] holds what was broadcast on a channel and
    [fl_closed] the channels whose sender is gone. *)
Record Flights := mkFlights {
  fl_in_flight : gmap string nat; fl_sent : gmap nat (result string Bytes); fl_closed : gset nat; fl_next : nat }.
Definition flights_new : Flights := mkFlights ∅ ∅ ∅ 0.

Definition run_join (f : Flights) (k : string) : option nat := fl_in_flight f !! k.
Definition run_lead (f : Flights) (k : string) : Flights * nat :=
  (mkFlights (<[k := fl_next f]> (fl_in_flight f)) (fl_sent f) (fl_closed f) (S (fl_next f)), fl_next f).
(** The leader broadcasts its result; the guard removes the key. *)
Definition run_finish (f : Flights) (k : string) (channel : nat) (r : TeoDBResult Bytes) : Flights :=
  mkFlights (delete k (fl_in_flight f)) (<[channel := map_err (λ _, "{e}") r]> (fl_sent f))
    ({[channel]} ∪ fl_closed f) (fl_next f).
(** The leader's future is dropped: the guard removes the key and the sender goes away. *)
Definition run_cancel (f : Flights) (k : string) (channel : nat) : Flights :=
  mkFlights (delete k (fl_in_flight f)) (fl_sent f) ({[channel]} ∪ fl_closed f) (fl_next f).
(** What a waiter on a channel gets, if anything yet. *)
Definition run_wait (f : Flights) (channel : nat) : option (TeoDBResult Bytes) :=
  match fl_sent f !! channel with
  | Some r => Some (map_err Internal r)
  | None => if decide (channel ∈ fl_closed f) then Some (Err (Internal "single-flight channel closed")) else None
  end.
