(* ===== verification/CacheSpec.v ===== *)
(** * Properties of the local object cache

    The index invariant and that every locked section keeps it, the bound and
    the order of evictions, what survives a restart, and that the caching
    wrapper is transparent over any storage backend that satisfies the
    interface's laws. *)

From S2P Require Import Prelude Core WalFrame WalReplay WalReplaySpec Location DataFiles Catalog Flush Manifests Sweep Cache.
Open Scope nat_scope.
Open Scope list_scope.

(** ** The eviction target stays below the limit *)
Lemma round_even_bound n d : (d ≠ 0 → 2 * (round_even n d * d) ≤ 2 * n + d)%N.
Proof.
  intros Hd. unfold round_even. pose proof (N.div_mod' n d). pose proof (N.mod_lt n d Hd).
  set (q := (n / d)%N) in *. set (r := (n mod d)%N) in *.
  destruct (N.ltb_spec (2 * r) d); [nia|]. destruct (N.ltb_spec d (2 * r)); [nia|].
  destruct (N.odd q); cbn [N.b2n]; nia.
Qed.

Lemma f64_round_bound n : (2 ^ 53 * f64_round n ≤ (2 ^ 53 + 1) * n)%N.
Proof.
  unfold f64_round. destruct (N.le_gt_cases (N.log2 n) 52) as [Hs|Hb].
  - replace (N.log2 n - 52)%N with 0%N by lia. change (2 ^ 0)%N with 1%N.
    unfold round_even. rewrite N.div_1_r, N.mod_1_r. change (2 * 0 <? 1)%N with true. cbv iota zeta. lia.
  - assert (n ≠ 0)%N as Hn by (intros ->; simpl in Hb; lia).
    pose proof (proj1 (N.log2_spec n ltac:(lia))) as Hlog.
    replace (N.log2 n) with (52 + (N.log2 n - 52))%N in Hlog by lia. rewrite N.pow_add_r in Hlog.
    set (d := (2 ^ (N.log2 n - 52))%N) in *.
    assert (d ≠ 0)%N as Hd by (unfold d; apply N.pow_nonzero; lia).
    pose proof (round_even_bound n d Hd).
    change (2 ^ 53)%N with (2 * 2 ^ 52)%N. lia.
Qed.

Lemma evict_target_le m : (evict_target m ≤ m)%N.
Proof.
  unfold evict_target. pose proof (f64_round_bound m) as Hm.
  pose proof (f64_round_bound (f64_round m * NINE_TENTHS)) as Hv.
  set (v := f64_round m) in *. set (x := f64_round (v * NINE_TENTHS)) in *.
  assert (2 ^ 53 * (x / 2 ^ 53) ≤ x)%N as Hx by (apply N.Div0.mul_div_le; done).
  set (t := (x / 2 ^ 53)%N) in *. unfold NINE_TENTHS in *. lia.
Qed.

(** ** The index invariant *)
Record index_inv (s : IndexState) : Prop := {
  inv_uri u e : ix_entries s !! u = Some e → cn_uri e = u;
  inv_lru t u : (t, u) ∈ ix_lru_order s ↔ ∃ e, ix_entries s !! u = Some e ∧ cn_last_access_ms e = t;
  inv_total : ix_total_bytes s = map_sum_of cn_size (ix_entries s);
  inv_width : (ix_total_bytes s ≤ u64_max)%N;
}.

Lemma drop_entry_entries s u : ix_entries (drop_entry s u).1 = delete u (ix_entries s).
Proof.
  unfold drop_entry. destruct (ix_entries s !! u) as [e|] eqn:He; simpl; [done|].
  by rewrite delete_id.
Qed.

Lemma drop_entry_inv s u : index_inv s → index_inv (drop_entry s u).1.
Proof.
  intros [Huri Hlru Htotal Hwidth]. unfold drop_entry. destruct (ix_entries s !! u) as [e|] eqn:He; [|by split].
  pose proof (map_sum_of_delete cn_size _ _ _ He) as Hsum. unfold u64_saturating_sub.
  split; simpl; [|..|lia|lia].
  - intros u' e'. rewrite lookup_delete_Some. naive_solver.
  - intros t u'. rewrite elem_of_difference, elem_of_singleton, Hlru. setoid_rewrite lookup_delete_Some.
    split.
    + intros [(e' & He' & <-) Hne]. exists e'. split_and!; [|done|done]. intros ->. by simplify_eq.
    + intros (e' & [Hne He'] & <-). split; [eauto|]. intros [= _ ->]. done.
Qed.

Lemma insert_entry_entries s u e : ix_entries (insert_entry s u e) = <[u := e]> (ix_entries s).
Proof. unfold insert_entry. by destruct (ix_entries s !! u). Qed.

Lemma insert_entry_inv s u e :
  index_inv s → cn_uri e = u → (ix_total_bytes s + cn_size e ≤ u64_max)%N → index_inv (insert_entry s u e).
Proof.
  intros [Huri Hlru Htotal Hwidth] Hu Hfit.
  assert (ix_total_bytes (insert_entry s u e) = map_sum_of cn_size (<[u := e]> (ix_entries s)) ∧
          (ix_total_bytes (insert_entry s u e) ≤ u64_max)%N) as [Hsum Hw].
  { rewrite map_sum_of_insert_delete. unfold insert_entry. destruct (ix_entries s !! u) as [o|] eqn:Ho.
    - pose proof (map_sum_of_delete cn_size _ _ _ Ho). simpl. unfold u64_saturating_sub. rewrite N.mod_small; lia.
    - rewrite (delete_id _ _ Ho). simpl. rewrite N.mod_small; lia. }
  split; [| |by rewrite insert_entry_entries|done].
  - intros u' e'. rewrite insert_entry_entries, lookup_insert_Some. naive_solver.
  - intros t u'. rewrite insert_entry_entries. setoid_rewrite lookup_insert_Some.
    unfold insert_entry. destruct (ix_entries s !! u) as [o|] eqn:Ho; simpl;
      rewrite elem_of_union, ?elem_of_difference, !elem_of_singleton, Hlru; split.
    + intros [[= -> ->]|[(e' & He' & <-) Hne]]; [naive_solver|].
      exists e'. split; [right; split; [|done]|done]. intros ->. by simplify_eq.
    + intros (e' & [[-> ->]|[Hne He']] & <-); [by left|]. right. split; [naive_solver|]. congruence.
    + intros [[= -> ->]|(e' & He' & <-)]; [naive_solver|]. exists e'. split; [right; split; [congruence|done]|done].
    + intros (e' & [[-> ->]|[Hne He']] & <-); [by left|]. right. eauto.
Qed.

Lemma touch_inv now s u : index_inv s → index_inv (touch now s u).
Proof.
  intros [Huri Hlru Htotal Hwidth]. unfold touch. destruct (ix_entries s !! u) as [e|] eqn:He; [|by split].
  split; simpl; [| | |done].
  - intros u' e'. rewrite lookup_insert_Some. intros [[<- <-]|[_ He']]; [apply (Huri _ _ He)|by apply Huri].
  - intros t u'. setoid_rewrite lookup_insert_Some.
    rewrite elem_of_union, elem_of_difference, !elem_of_singleton, Hlru. split.
    + intros [[= -> ->]|[(e' & He' & <-) Hne]]; [eexists; split; [by left|done]|].
      exists e'. split; [right; split; [|done]|done]. intros ->. by simplify_eq.
    + intros (e' & [[-> <-]|[Hne He']] & <-); [by left|]. right. split; [by eauto|]. congruence.
  - rewrite map_sum_of_insert_delete, Htotal. by rewrite (map_sum_of_delete cn_size _ _ _ He).
Qed.

Lemma touch_entry now s u u' e :
  ix_entries (touch now s u) !! u' = Some e →
  ∃ e0, ix_entries s !! u' = Some e0 ∧ cn_checksum e = cn_checksum e0 ∧ cn_size e = cn_size e0.
Proof.
  unfold touch. destruct (ix_entries s !! u) as [e0|] eqn:He; [|by eauto]. simpl.
  rewrite lookup_insert_Some. intros [[<- <-]|[_ ?]]; eauto.
Qed.

(** ** Eviction *)
Abbreviation state_of w := (ci_state (cw_index w)).
Abbreviation world_inv w := (index_inv (state_of w)).

Lemma remove_entries ok w u : entries_of (remove ok w u) = delete u (entries_of w).
Proof.
  unfold remove, entries_of. rewrite <-drop_entry_entries.
  by destruct (drop_entry (state_of w) u) as [s [e|]].
Qed.

Lemma remove_inv ok w u : world_inv w → world_inv (remove ok w u).
Proof.
  intros Hinv%(drop_entry_inv _ u). unfold remove.
  by destruct (drop_entry (state_of w) u) as [s [e|]].
Qed.

Definition size_of (m : gmap string CacheEntry) (u : string) : N := from_option cn_size 0%N (m !! u).

Lemma remove_all ok us w :
  world_inv w → NoDup us → (∀ u, u ∈ us → is_Some (entries_of w !! u)) →
  let w' := foldl (remove ok) w us in
  world_inv w' ∧ (∀ u, entries_of w' !! u = if decide (u ∈ us) then None else entries_of w !! u) ∧
  ix_total_bytes (state_of w) = (sumN (size_of (entries_of w) <$> us) + ix_total_bytes (state_of w'))%N.
Proof.
  revert w. induction us as [|u us IH]; intros w Hinv Hnd Hin; [done|].
  inversion Hnd as [|? ? Hu Hnd']; subst. destruct (Hin u ltac:(by left)) as [e He].
  pose proof (remove_inv ok w u Hinv) as Hinv1. pose proof (remove_entries ok w u) as Hent1.
  destruct (IH (remove ok w u) Hinv1 Hnd') as (Hinv' & Hent & Htotal).
  { intros v Hv. rewrite Hent1, lookup_delete_ne by congruence. apply Hin. by right. }
  cbn [foldl]. split; [done|]. split.
  - intros v. rewrite Hent, Hent1. destruct (decide (v = u)) as [->|Hne].
    + rewrite lookup_delete_eq, (decide_True _ _ (list_elem_of_here u us)). by destruct (decide _).
    + rewrite lookup_delete_ne by done.
      destruct (decide (v ∈ us)), (decide (v ∈ u :: us)) as [Hv|Hv]; try done;
        [by destruct Hv; right|by apply elem_of_cons in Hv as [->|?]].
  - rewrite fmap_cons, sumN_cons. unfold size_of at 1. rewrite He. simpl (from_option _ _ _).
    assert (size_of (entries_of (remove ok w u)) <$> us = size_of (entries_of w) <$> us) as Hsz.
    { apply list_fmap_ext. intros i v Hv. unfold size_of. rewrite Hent1, lookup_delete_ne; [done|].
      intros ->. by apply list_elem_of_lookup_2 in Hv. }
    rewrite Hsz in Htotal. rewrite (inv_total _ Hinv). change (ix_entries (state_of w)) with (entries_of w).
    rewrite (map_sum_of_delete cn_size _ _ _ He), <-Hent1, <-N.add_assoc, <-Htotal.
    by rewrite (inv_total _ Hinv1).
Qed.

Lemma evict_uris_prefix entries to_free order :
  (∀ k, k ∈ order → is_Some (entries !! k.2)) →
  ∃ pre post, order = pre ++ post ∧ evict_uris entries to_free order = pre.*2 ∧
    (post = [] ∨ (to_free ≤ sumN (size_of entries <$> pre.*2))%N).
Proof.
  revert to_free. induction order as [|[t u] order IH]; intros to_free Hin.
  { exists [], []. split_and!; [done..|by left]. }
  cbn [evict_uris]. destruct (N.eqb_spec to_free 0) as [->|Hne].
  { exists [], ((t, u) :: order). split_and!; [done..|right; simpl; lia]. }
  destruct (Hin (t, u) ltac:(by left)) as [e He]. simpl in He. rewrite He.
  destruct (IH (u64_saturating_sub to_free (cn_size e))) as (pre & post & -> & -> & Hpost).
  { intros k Hk. apply Hin. by right. }
  exists ((t, u) :: pre), post. split_and!; [done..|]. destruct Hpost as [->|Hle]; [by left|right].
  rewrite !fmap_cons, sumN_cons. unfold size_of at 1. cbn [snd]. rewrite He. unfold u64_saturating_sub in Hle.
  simpl (from_option _ _ _). lia.
Qed.

Lemma lru_leb_total a b : lru_leb a b = true ∨ lru_leb b a = true.
Proof.
  destruct a as [t u], b as [t' u']. unfold lru_leb. simpl.
  destruct (str_leb_total u u'); destruct (Z.ltb_spec t t'), (Z.ltb_spec t' t), (Z.eqb_spec t t'), (Z.eqb_spec t' t);
    simpl; auto; lia.
Qed.
Lemma lru_leb_trans a b c : lru_leb a b = true → lru_leb b c = true → lru_leb a c = true.
Proof.
  destruct a as [t u], b as [t' u'], c as [t2 u2]. unfold lru_leb. simpl.
  rewrite !orb_true_iff, !andb_true_iff, !Z.ltb_lt, !Z.eqb_eq.
  intros [?|[-> ?]] [?|[-> ?]]; [left; lia|left; lia|by left|right; eauto using str_leb_trans].
Qed.

(** Eviction keeps a suffix of the access order and frees down to the target. *)
Lemma maybe_evict_spec config ok w :
  world_inv w →
  let w' := maybe_evict config ok w in
  world_inv w' ∧ (ix_total_bytes (state_of w') ≤ max_total_bytes config)%N ∧
  (∀ u e, entries_of w' !! u = Some e → entries_of w !! u = Some e) ∧
  (∀ u e u' e', entries_of w' !! u = Some e → entries_of w !! u' = Some e' → entries_of w' !! u' = None →
     lru_leb (cn_last_access_ms e', u') (cn_last_access_ms e, u) = true) ∧
  ((ix_total_bytes (state_of w) ≤ max_total_bytes config)%N → w' = w).
Proof.
  intros Hinv. unfold maybe_evict, entries_to_evict. destruct (N.leb_spec (ix_total_bytes (state_of w)) (max_total_bytes config)) as [Hle|Hgt].
  { split_and!; simpl; [done..|intros; congruence|done]. }
  set (order := stable_sort lru_leb (elements (ix_lru_order (state_of w)))).
  assert (∀ k, k ∈ order ↔ ∃ e, entries_of w !! k.2 = Some e ∧ cn_last_access_ms e = k.1) as Horder.
  { intros [t u]. unfold order. rewrite stable_sort_perm, elem_of_elements. apply (inv_lru _ Hinv). }
  destruct (evict_uris_prefix (entries_of w) (ix_total_bytes (state_of w) - evict_target (max_total_bytes config)) order)
    as (pre & post & Heq & Hus & Hfreed).
  { intros k (e & He & _)%Horder. eauto. }
  change (ix_entries (state_of w)) with (entries_of w). rewrite Hus.
  assert (NoDup pre.*2) as Hnd.
  { assert (NoDup order) as Ho by (unfold order; rewrite stable_sort_perm; apply NoDup_elements).
    rewrite Heq in Ho. apply NoDup_app in Ho as (Ho & _).
    apply NoDup_fmap_2_strong; [|done]. intros [t u] [t' u'] Hk Hk' Hu. simpl in Hu. subst u'.
    assert ((t, u) ∈ order) as (e & He & Ht)%Horder by (rewrite Heq; apply elem_of_app; by left).
    assert ((t', u) ∈ order) as (e' & He' & Ht')%Horder by (rewrite Heq; apply elem_of_app; by left).
    simpl in *. congruence. }
  destruct (remove_all ok pre.*2 w Hinv Hnd) as (Hinv' & Hent & Htotal).
  { intros u ([t v] & -> & Hk)%list_elem_of_fmap.
    assert ((t, v) ∈ order) as (e & He & _)%Horder by (rewrite Heq; apply elem_of_app; by left). eauto. }
  set (w' := foldl (remove ok) w pre.*2) in *.
  assert (∀ u e, entries_of w' !! u = Some e → entries_of w !! u = Some e ∧ (cn_last_access_ms e, u) ∈ post) as Hkept.
  { intros u e. rewrite Hent. destruct (decide _) as [|Hu]; [done|]. intros He. split; [done|].
    assert ((cn_last_access_ms e, u) ∈ order) as Hk by (apply Horder; eauto).
    rewrite Heq in Hk. apply elem_of_app in Hk as [Hk|?]; [|done].
    destruct Hu. apply list_elem_of_fmap. by exists (cn_last_access_ms e, u). }
  split_and!; [done| |naive_solver| |lia].
  - pose proof (evict_target_le (max_total_bytes config)). destruct Hfreed as [->|Hf]; [|lia].
    assert (entries_of w' = ∅) as Hempty.
    { apply map_empty. intros u. destruct (entries_of w' !! u) as [e|] eqn:He; [|done].
      apply Hkept in He as [_ Hk]. by apply elem_of_nil in Hk. }
    rewrite (inv_total _ Hinv'). unfold entries_of in Hempty. rewrite Hempty. unfold map_sum_of.
    rewrite map_to_list_empty. simpl. lia.
  - intros u e u' e' He He' Hgone. apply Hkept in He as [_ Hk].
    rewrite Hent in Hgone. destruct (decide (u' ∈ pre.*2)) as [Hu'|]; [|congruence].
    apply list_elem_of_fmap in Hu' as ([t v] & -> & Hpre). simpl in *.
    assert ((t, v) ∈ order) as (e2 & He2 & Ht)%Horder by (rewrite Heq; apply elem_of_app; by left).
    simpl in *. assert (e2 = e') as -> by congruence. rewrite Ht.
    assert (StronglySorted (λ a b, lru_leb a b = true) order) as Hs
      by (apply stable_sort_sorted; [apply lru_leb_total|apply lru_leb_trans]).
    rewrite Heq in Hs. exact (StronglySorted_app_1_elem_of _ _ _ _ _ Hs Hpre Hk).
Qed.

(** The cache stays within its limit and evicts the least recently used first: from a
    consistent index within the limit, a successful put leaves a consistent index within the
    limit, whose entries are among the old ones and the new one; an entry is only given up
    for entries accessed later; and when everything fits nothing is given up and the object can be read
    back. *)
Theorem put_cached_bounded (xxh3_64 : Bytes → N) (config : CacheConfig) (io : PutIo) (w w' : CacheWorld)
    (uri : string) (data : Bytes) (etag : option string)
    (Hinv : world_inv w) (Hmax : (ix_total_bytes (state_of w) ≤ max_total_bytes config)%N)
    (Hwidth : (max_total_bytes config + max_per_object_bytes config ≤ u64_max)%N)
    (Hsize : (lenN data ≤ max_per_object_bytes config)%N)
    (Hput : put_cached xxh3_64 config io w uri data etag = (w', Ok tt)) :
  let before := <[uri := mkCacheEntry uri (lenN data) etag (xxh3_64 data) (pi_now io)]> (entries_of w) in
  world_inv w' ∧ (ix_total_bytes (state_of w') ≤ max_total_bytes config)%N ∧
  (∀ u e, entries_of w' !! u = Some e → before !! u = Some e) ∧
  (∀ u e u' e', entries_of w' !! u = Some e → before !! u' = Some e' → entries_of w' !! u' = None →
     lru_leb (cn_last_access_ms e', u') (cn_last_access_ms e, u) = true) ∧
  ((map_sum_of cn_size before ≤ max_total_bytes config)%N →
     entries_of w' = before ∧
     ∀ gio, gi_read_ok gio = true → (get_cached xxh3_64 gio w' uri).2 = Ok (Some data)).
Proof.
  unfold put_cached in Hput. rewrite (proj2 (N.ltb_ge _ _) Hsize) in Hput.
  destruct (pi_mkdir_ok io), (pi_write_ok io), (pi_rename_ok io); cbn [negb] in Hput; try done.
  set (entry := mkCacheEntry uri (lenN data) etag (xxh3_64 data) (pi_now io)) in *.
  pose proof (insert_entry_inv (state_of w) uri entry Hinv eq_refl) as Hins. simpl in Hins.
  specialize (Hins ltac:(lia)). pose proof (insert_entry_entries (state_of w) uri entry) as Hent.
  set (s := insert_entry (state_of w) uri entry) in *.
  set (w3 := with_index _ (set_index_state _ s)) in Hput.
  assert (world_inv w3) as Hinv3 by exact Hins.
  destruct (maybe_evict_spec config (pi_unlink_ok io) w3 Hinv3) as (Hi & Ht & Hsub & Hlru & Hno).
  assert ((if (max_total_bytes config <? ix_total_bytes s)%N then maybe_evict config (pi_unlink_ok io) w3 else w3)
            = maybe_evict config (pi_unlink_ok io) w3) as Heq.
  { destruct (N.ltb_spec (max_total_bytes config) (ix_total_bytes s)); [done|]. symmetry. by apply Hno. }
  rewrite Heq in Hput. simplify_eq. cbn zeta.
  assert (entries_of w3 = <[uri := entry]> (entries_of w)) as Hent3 by exact Hent.
  rewrite <-Hent3. split_and!; [done..|]. intros Hfits.
  assert (ix_total_bytes (state_of w3) ≤ max_total_bytes config)%N as Hle by (by rewrite (inv_total _ Hinv3)).
  rewrite (Hno Hle).
  split; [done|]. intros gio Hread. unfold get_cached.
  change (entries_of (with_index w3 _)) with (entries_of w3). rewrite Hent3, lookup_insert_eq, Hread.
  unfold w3. cbn [cw_disk with_index with_disk cn_checksum entry]. by rewrite lookup_insert_eq, N.eqb_refl.
Qed.

(** ** Restart *)
Lemma load_entries_spec (es : list CacheEntry) s :
  NoDup (cn_uri <$> es) → (∀ e, e ∈ es → ix_entries s !! cn_uri e = None) →
  let s' := foldl load_cache_entry s es in
  (∀ u e, ix_entries s' !! u = Some e ↔ ix_entries s !! u = Some e ∨ e ∈ es ∧ cn_uri e = u) ∧
  (∀ k, k ∈ ix_lru_order s' ↔ k ∈ ix_lru_order s ∨ ∃ e, e ∈ es ∧ k = (cn_last_access_ms e, cn_uri e)) ∧
  ix_total_bytes s' = ix_total_bytes s.
Proof.
  revert s. induction es as [|e es IH]; intros s Hnd Hfresh; simpl.
  { split_and!; [intros; split; [by left|]|intros; split; [by left|]|done]; set_solver. }
  inversion Hnd as [|? ? Hu Hnd']; subst.
  assert (ix_entries s !! cn_uri e = None) as Hnone by (apply Hfresh; by left).
  destruct (IH (load_cache_entry s e) Hnd') as (Hent & Hlru & Htotal).
  { intros e' He'. simpl. rewrite lookup_insert_ne; [apply Hfresh; by right|].
    intros Heq. apply Hu. rewrite Heq. by apply list_elem_of_fmap_2. }
  split_and!; [| |done].
  - intros u e'. rewrite Hent. simpl. rewrite lookup_insert_Some, elem_of_cons.
    split; [naive_solver|]. intros [He'|[[->|He'] <-]]; [|by left; left|by right].
    left. right. split; [congruence|done].
  - intros k. rewrite Hlru. simpl. rewrite elem_of_union, elem_of_singleton. setoid_rewrite elem_of_cons. naive_solver.
Qed.

(** A persisted index is restored by the next start, consistent, whatever temporary files
    an interrupted write left behind. *)
Lemma reopen_restores `{CacheJsonLaws} io w w1 mkdir_ok remove_ok w2 :
  world_inv w → persist io w = (w1, Ok tt) →
  open_with_config mkdir_ok true remove_ok (cw_disk w1) = Ok w2 →
  world_inv w2 ∧ entries_of w2 = entries_of w.
Proof.
  intros Hinv Hp Ho. unfold persist in Hp.
  destruct (po_write_ok io), (po_sync_ok io), (po_rename_ok io); cbn [negb] in Hp; try done. simplify_eq.
  unfold open_with_config in Ho. destruct mkdir_ok; [|done]. cbn [negb with_disk cw_disk with_index] in Ho.
  unfold cleanup_temp_files in Ho.
  rewrite (map_lookup_filter_Some_2 _ _ INDEX_PATH
             (entries_to_json (map_to_list (entries_of w)).*2)) in Ho; [|by rewrite lookup_insert_eq|done].
  rewrite entries_from_to_json in Ho. cbn [default from_option] in Ho. simplify_eq. cbn [cw_index ci_state entries_of].
  set (es := id (map_to_list (entries_of w)).*2).
  assert (∀ e, e ∈ es ↔ entries_of w !! cn_uri e = Some e) as Hes.
  { intros e. unfold es, id. rewrite list_elem_of_fmap. split.
    - intros ([u e'] & -> & Hin%elem_of_map_to_list). simpl. by rewrite (inv_uri _ Hinv u e').
    - intros He. exists (cn_uri e, e). split; [done|]. by apply elem_of_map_to_list. }
  assert (cn_uri <$> es = (map_to_list (entries_of w)).*1) as Huris.
  { unfold es, id. rewrite <-list_fmap_compose. apply list_fmap_ext. intros i [u e] Hi%list_elem_of_lookup_2.
    apply elem_of_map_to_list in Hi. simpl. by apply (inv_uri _ Hinv). }
  set (total := (_ mod _)%N).
  destruct (load_entries_spec es (mkIndexState ∅ ∅ total)) as (Hent & Hlru & Htotal).
  { rewrite Huris. apply NoDup_fst_map_to_list. } { done. }
  set (s := foldl _ _ es) in *.
  assert (ix_entries s = entries_of w) as Heq.
  { apply map_eq. intros u. apply option_eq. intros e. rewrite Hent, Hes. simpl. rewrite lookup_empty.
    split; [by intros [?|[? <-]]|]. intros He. right. pose proof (inv_uri _ Hinv u e He) as Hu.
    by rewrite Hu. }
  split; [|done]. unfold entries_of in Heq.
  assert (total = ix_total_bytes (state_of w)) as Ht.
  { rewrite (inv_total _ Hinv). unfold total, map_sum_of. unfold es, id, entries_of. rewrite N.mod_small; [done|].
    pose proof (inv_width _ Hinv) as Hw. rewrite (inv_total _ Hinv) in Hw. unfold map_sum_of in Hw. lia. }
  change (index_inv s). cbn [ix_total_bytes] in Htotal.
  split; [| |by rewrite Htotal, Heq, Ht, (inv_total _ Hinv)|rewrite Htotal, Ht; apply (inv_width _ Hinv)].
  - intros u e. rewrite Heq. apply (inv_uri _ Hinv).
  - intros t u. rewrite Hlru, Heq. simpl. split.
    + intros [?|(e & He & [= -> ->])]; [set_solver|]. exists e. split; [by apply Hes|done].
    + intros (e & He & <-). right. exists e. pose proof (inv_uri _ Hinv u e He) as Hu. subst u. split; [by apply Hes|done].
Qed.

(** ** Transparency *)
Lemma remove_all_sub ok us w u e :
  entries_of (foldl (remove ok) w us) !! u = Some e → entries_of w !! u = Some e.
Proof.
  revert w. induction us as [|v us IH]; intros w; simpl; [done|].
  intros He%IH. rewrite remove_entries, lookup_delete_Some in He. by destruct He.
Qed.

Lemma put_cached_entries xxh3_64 config io w uri data etag w' r u e :
  put_cached xxh3_64 config io w uri data etag = (w', r) → entries_of w' !! u = Some e →
  entries_of w !! u = Some e ∨ u = uri ∧ cn_checksum e = xxh3_64 data.
Proof.
  unfold put_cached. destruct (_ <? _)%N; [naive_solver|].
  destruct (pi_mkdir_ok io), (pi_write_ok io), (pi_rename_ok io); cbn [negb]; try (intros; simplify_eq; by left).
  set (entry := mkCacheEntry uri _ _ _ _). set (s := insert_entry _ _ entry).
  set (w3 := with_index _ (set_index_state _ s)).
  intros Hp He. simplify_eq.
  assert (entries_of w3 !! u = Some e) as He3.
  { destruct (_ <? _)%N; [|exact He]. exact (remove_all_sub _ _ _ _ _ He). }
  change (entries_of w3) with (ix_entries s) in He3. unfold s in He3.
  rewrite insert_entry_entries, lookup_insert_Some in He3. destruct He3 as [[<- <-]|[_ ?]]; [by right|by left].
Qed.

Lemma get_cached_spec xxh3_64 io w uri w' r :
  get_cached xxh3_64 io w uri = (w', r) →
  (∀ u e, entries_of w' !! u = Some e →
     ∃ e0, entries_of w !! u = Some e0 ∧ cn_checksum e = cn_checksum e0) ∧
  ∃ o, r = Ok o ∧ ∀ data, o = Some data → ∃ e, entries_of w !! uri = Some e ∧ xxh3_64 data = cn_checksum e.
Proof.
  unfold get_cached. destruct (entries_of w !! uri) as [entry|] eqn:He.
  2: { intros [= <- <-]. split; [|by exists None]. eauto. }
  assert (∀ u e, delete uri (entries_of w) !! u = Some e →
            ∃ e0, entries_of w !! u = Some e0 ∧ cn_checksum e = cn_checksum e0) as Hdel.
  { intros u e [_ ?]%lookup_delete_Some. eauto. }
  destruct (if gi_read_ok io then _ else _) as [data|].
  - destruct (N.eqb_spec (xxh3_64 data) (cn_checksum entry)) as [Hsum|]; intros [= <- <-].
    + split; [|exists (Some data); split; [done|intros ? [= <-]; eauto]].
      intros u e Hu. destruct (touch_entry _ _ _ _ _ Hu) as (e0 & He0 & Hc & _). eauto.
    + split; [|by exists None]. intros u e. rewrite remove_entries. apply Hdel.
  - intros [= <- <-]. split; [|by exists None]. intros u e Hu. apply Hdel.
    unfold entries_of. by rewrite <-drop_entry_entries.
Qed.

Section transparency.
Context (xxh3_64 : Bytes → N) (config : CacheConfig) (uri_prefix : string).
Context {St : Type} `{!Storage St} (objects : St → gmap ObjectPath Bytes) `{!StorageLaws St objects}.

Abbreviation key_of := (cache_key uri_prefix).

(** Every cached entry carries the checksum of the object the backend holds. *)
Definition coherent (st : CacheWorld * St) : Prop :=
  ∀ p e, entries_of st.1 !! key_of p = Some e → ∃ b, objects st.2 !! p = Some b ∧ xxh3_64 b = cn_checksum e.

Inductive StoreOp :=
| OpGet (gio : GetIo) (pio : PutIo) (p : ObjectPath)
| OpGetRange (gio gio2 : GetIo) (pio : PutIo) (p : ObjectPath) (start end_ : N)
| OpPut (unlink_ok : string → bool) (io : PutIo) (p : ObjectPath) (b : Bytes)
| OpDelete (unlink_ok : string → bool) (p : ObjectPath)
| OpCopy (unlink_ok : string → bool) (from to : ObjectPath)
| OpMaintain (unlink_ok : string → bool) (uri : string).

Definition exec_op (st : CacheWorld * St) (op : StoreOp) : CacheWorld * St :=
  match op with
  | OpGet gio pio p => (cached_get xxh3_64 config uri_prefix gio pio st p).1
  | OpGetRange gio gio2 pio p lo hi => (cached_get_range xxh3_64 config uri_prefix gio gio2 pio st p lo hi).1
  | OpPut ok io p b => (cached_put xxh3_64 config uri_prefix ok io st p b).1
  | OpDelete ok p => (cached_delete uri_prefix ok st p).1
  | OpCopy ok from to => (cached_copy uri_prefix ok st from to).1
  | OpMaintain ok uri => (maybe_evict config ok (remove ok st.1 uri), st.2)
  end.

Lemma key_of_inj p q : key_of p = key_of q → p = q.
Proof. apply str_app_inj_l. Qed.

Lemma coherent_sub w w' s s' :
  coherent (w, s) → objects s' = objects s →
  (∀ u e, entries_of w' !! u = Some e → ∃ e0, entries_of w !! u = Some e0 ∧ cn_checksum e = cn_checksum e0) →
  coherent (w', s').
Proof.
  intros Hco Hobj Hsub p e He. simpl in *. destruct (Hsub _ _ He) as (e0 & He0 & Hc).
  destruct (Hco p e0 He0) as (b & Hb & Hx). exists b. simpl. by rewrite Hobj, Hc.
Qed.

Lemma coherent_put io w s p bytes etag w' r :
  (∀ q e, q ≠ p → entries_of w !! key_of q = Some e → ∃ b, objects s !! q = Some b ∧ xxh3_64 b = cn_checksum e) →
  (∀ e, entries_of w !! key_of p = Some e → xxh3_64 bytes = cn_checksum e) →
  objects s !! p = Some bytes →
  put_cached xxh3_64 config io w (key_of p) bytes etag = (w', r) → coherent (w', s).
Proof.
  intros Hothers Hp Hobj Hput q e He. simpl in *.
  destruct (put_cached_entries _ _ _ _ _ _ _ _ _ _ _ Hput He) as [Hold|[->%key_of_inj Hc]]; [|by eauto].
  destruct (decide (q = p)) as [->|Hq]; [|by apply Hothers]. exists bytes. split; [done|by apply Hp].
Qed.

Lemma fetch_coherent io st p st' r :
  coherent st → fetch xxh3_64 config uri_prefix io st p = (st', r) →
  coherent st' ∧ objects st'.2 = objects st.2 ∧ ∀ b, r = Ok b → objects st.2 !! p = Some b.
Proof.
  destruct st as [w s]. intros Hco. unfold fetch.
  destruct (s_get s p) as [s1 [bytes|e]] eqn:Hget; destruct (get_law _ _ _ _ Hget) as [Hobj1 Hbytes].
  2: { intros [= <- <-]. simpl. split_and!; [|done|done]. eapply coherent_sub; [exact Hco|done|eauto]. }
  specialize (Hbytes _ eq_refl).
  destruct (s_head s1 p) as [s2 [head|e]] eqn:Hhead; pose proof (head_law _ _ _ _ Hhead) as Hobj2.
  2: { intros [= <- <-]. simpl. split_and!; [|congruence|done]. eapply coherent_sub; [exact Hco|congruence|eauto]. }
  destruct (put_cached _ _ _ _ _ _ _) as [w3 r3] eqn:Hput.
  assert (coherent (w3, s2)) as Hco3.
  { eapply coherent_put; [..|exact Hput].
    - intros q e _ He. rewrite Hobj2, Hobj1. apply (Hco q e He).
    - intros e He. destruct (Hco p e He) as (b & Hb & Hx). simpl in Hb. congruence.
    - by rewrite Hobj2, Hobj1. }
  destruct r3 as [[]|e]; intros [= <- <-]; simpl; (split_and!; [|congruence|naive_solver]); [|done].
  eapply coherent_sub; [exact Hco3|done|]. intros u e He%remove_all_sub. eauto.
Qed.

Lemma get_coherent gio pio st p st' r :
  coherent st → cached_get xxh3_64 config uri_prefix gio pio st p = (st', r) →
  coherent st' ∧ objects st'.2 = objects st.2 ∧
  ∀ b, r = Ok b → ∃ b0, objects st.2 !! p = Some b0 ∧ xxh3_64 b = xxh3_64 b0.
Proof.
  destruct st as [w s]. intros Hco. unfold cached_get.
  destruct (get_cached _ _ _ _) as [w1 r1] eqn:Hget.
  destruct (get_cached_spec _ _ _ _ _ _ Hget) as (Hsub & o & -> & Hdata).
  assert (coherent (w1, s)) as Hco1 by (eapply coherent_sub; [exact Hco|done|exact Hsub]).
  destruct o as [data|].
  - intros [= <- <-]. split_and!; [done..|]. intros b [= <-].
    destruct (Hdata _ eq_refl) as (e & He & Hx). destruct (Hco p e He) as (b0 & Hb0 & Hx0).
    exists b0. split; [done|congruence].
  - intros Hf. destruct (fetch_coherent _ _ _ _ _ Hco1 Hf) as (? & ? & Hb). split_and!; [done..|].
    intros b ->. exists b. split; [by apply Hb|done].
Qed.

Lemma get_range_coherent gio gio2 pio st p lo hi st' r :
  coherent st → cached_get_range xxh3_64 config uri_prefix gio gio2 pio st p lo hi = (st', r) →
  coherent st' ∧ objects st'.2 = objects st.2 ∧
  ∀ b, r = Ok b → (lo ≤ hi)%N ∧ ∃ b0 b1, objects st.2 !! p = Some b0 ∧ xxh3_64 b1 = xxh3_64 b0 ∧ b = slice lo hi b1.
Proof.
  destruct st as [w s]. intros Hco. unfold cached_get_range.
  destruct (N.ltb_spec hi lo) as [|Hle]; [by intros [= <- <-]|].
  destruct (get_cached _ _ _ _) as [w1 r1] eqn:Hget.
  destruct (get_cached_spec _ _ _ _ _ _ Hget) as (Hsub & o & -> & Hdata).
  assert (∀ s1, objects s1 = objects s → coherent (w1, s1)) as Hco1.
  { intros s1 Hs1. eapply coherent_sub; [exact Hco|done|exact Hsub]. }
  assert (∀ s0 st' r, objects s0 = objects s →
    (let '(inner, r) := s_get_range s0 p lo hi in ((w1, inner), r)) = (st', r) →
    coherent st' ∧ objects st'.2 = objects s ∧
    ∀ b, r = Ok b → (lo ≤ hi)%N ∧ ∃ b0 b1, objects s !! p = Some b0 ∧ xxh3_64 b1 = xxh3_64 b0 ∧ b = slice lo hi b1)
    as Hdirect.
  { intros s0 st2 r2 Hs0. destruct (s_get_range s0 p lo hi) as [s1 r1] eqn:Hr.
    destruct (get_range_law _ _ _ _ _ _ Hr) as [Hobj Hb]. intros [= <- <-].
    split_and!; [apply Hco1; congruence|simpl; congruence|]. intros b ->. split; [done|].
    specialize (Hb _ eq_refl). rewrite Hs0 in Hb. apply fmap_Some in Hb as (b0 & Hb0 & ->). eauto. }
  destruct o as [data|].
  - intros [= <- <-]. split_and!; [by apply Hco1|done|]. intros b [= <-]. split; [done|].
    destruct (Hdata _ eq_refl) as (e & He & Hx). destruct (Hco p e He) as (b0 & Hb0 & Hx0).
    exists b0, data. split_and!; [done|congruence|done].
  - destruct (_ <=? 64 * 1024)%N; [by apply Hdirect|].
    destruct (s_head s p) as [s1 [head|e]] eqn:Hhead; pose proof (head_law _ _ _ _ Hhead) as Hobj.
    2: { intros [= <- <-]. split_and!; [by apply Hco1|done|done]. }
    destruct (_ || _); [|by apply Hdirect].
    destruct (cached_get _ _ _ _ _ _ _) as [st2 r2] eqn:Hg.
    destruct (get_coherent _ _ _ _ _ _ (Hco1 s1 Hobj) Hg) as (Hco2 & Hobj2 & Hb).
    destruct r2 as [full|e]; intros [= <- <-]; simpl in *; (split_and!; [done|congruence|]); [|done].
    intros b [= <-]. split; [done|]. destruct (Hb _ eq_refl) as (b0 & Hb0 & Hx).
    exists b0, full. rewrite <-Hobj. done.
Qed.

Lemma remove_coherent ok w s p s' :
  coherent (w, s) → (∀ q, q ≠ p → objects s' !! q = objects s !! q) → coherent (remove ok w (key_of p), s').
Proof.
  intros Hco Hsame q e. simpl. rewrite remove_entries, lookup_delete_Some. intros [Hne He].
  rewrite Hsame by congruence. by apply (Hco q e).
Qed.

Lemma put_coherent ok io st p b st' r :
  coherent st → cached_put xxh3_64 config uri_prefix ok io st p b = (st', r) →
  coherent st' ∧ (objects st'.2 = <[p := b]> (objects st.2) ∨ is_ok r = false ∧ objects st'.2 = objects st.2).
Proof.
  destruct st as [w s]. intros Hco. unfold cached_put.
  destruct (s_put s p b) as [s1 r1] eqn:Hput. pose proof (put_law _ _ _ _ _ Hput) as Hobj.
  assert (coherent (remove ok w (key_of p), s1)) as Hco1.
  { apply (remove_coherent _ _ s); [done|]. intros q Hq. destruct Hobj as [->|[_ ->]]; [by rewrite lookup_insert_ne|done]. }
  destruct r1 as [meta|e]; [|intros [= <- <-]; simpl; split; [done|]; destruct Hobj as [?|[_ ?]]; [by left|by right]].
  destruct Hobj as [Hobj|[? _]]; [|done].
  destruct (put_cached _ _ _ _ _ _ _) as [w2 r2] eqn:Hc.
  assert (coherent (w2, s1)) as Hco2.
  { eapply coherent_put; [..|exact Hc].
    - intros q e _. apply Hco1.
    - intros e. by rewrite remove_entries, lookup_delete_eq.
    - by rewrite Hobj, lookup_insert_eq. }
  destruct r2 as [[]|e]; intros [= <- <-]; simpl; (split; [done|]); by left.
Qed.

Lemma exec_op_coherent st op : coherent st → coherent (exec_op st op).
Proof.
  intros Hco. destruct op as [gio pio p|gio gio2 pio p lo hi|ok io p b|ok p|ok from to|ok uri]; cbn [exec_op].
  - destruct (cached_get _ _ _ _ _ _ _) eqn:E. by eapply get_coherent.
  - destruct (cached_get_range _ _ _ _ _ _ _ _ _ _) eqn:E. by eapply get_range_coherent.
  - destruct (cached_put _ _ _ _ _ _ _ _) eqn:E. by eapply put_coherent.
  - destruct st as [w s]. unfold cached_delete. destruct (s_delete s p) as [s1 r] eqn:E.
    apply (remove_coherent _ _ s); [done|]. intros q Hq.
    destruct (delete_law _ _ _ _ E) as [->|[_ ->]]; [by rewrite lookup_delete_ne|done].
  - destruct st as [w s]. unfold cached_copy. destruct (s_copy s from to) as [s1 r] eqn:E.
    apply (remove_coherent _ _ s); [done|]. intros q Hq.
    destruct (copy_law _ _ _ _ _ E) as [(b & _ & ->)|[_ ->]]; [by rewrite lookup_insert_ne|done].
  - destruct st as [w s]. eapply coherent_sub; [exact Hco|done|]. simpl.
    intros u e He%remove_all_sub. rewrite remove_entries, lookup_delete_Some in He. destruct He. eauto.
Qed.

(** C26. The cache is transparent: over any backend that keeps the promises of the storage interface,
    after any sequence of reads, writes, deletions, copies and evictions, with any failures of
    the cache directory and whatever its files hold, a read returns bytes with the checksum
    of the object the backend holds (for a range, that range of them), acknowledged
    writes, deletions and copies have reached the backend, and a read does not fail unless the backend or a write of
    the cache directory does. *)
Theorem cached_storage_transparent (st : CacheWorld * St) (ops : list StoreOp) (Hco : coherent st) :
  let st1 := foldl exec_op st ops in
  coherent st1 ∧
  (∀ gio pio p st2 b, cached_get xxh3_64 config uri_prefix gio pio st1 p = (st2, Ok b) →
     objects st2.2 = objects st1.2 ∧ ∃ b0, objects st1.2 !! p = Some b0 ∧ xxh3_64 b = xxh3_64 b0) ∧
  (∀ gio gio2 pio p lo hi st2 b, cached_get_range xxh3_64 config uri_prefix gio gio2 pio st1 p lo hi = (st2, Ok b) →
     objects st2.2 = objects st1.2 ∧
     ∃ b0 b1, objects st1.2 !! p = Some b0 ∧ xxh3_64 b1 = xxh3_64 b0 ∧ b = slice lo hi b1) ∧
  (∀ ok io p b st2 m, cached_put xxh3_64 config uri_prefix ok io st1 p b = (st2, Ok m) →
     objects st2.2 = <[p := b]> (objects st1.2)) ∧
  (∀ ok p st2 m, cached_delete uri_prefix ok st1 p = (st2, Ok m) → objects st2.2 = delete p (objects st1.2)) ∧
  (∀ ok from to st2 m, cached_copy uri_prefix ok st1 from to = (st2, Ok m) →
     ∃ b, objects st1.2 !! from = Some b ∧ objects st2.2 = <[to := b]> (objects st1.2)) ∧
  (∀ gio pio p, pi_mkdir_ok pio = true → pi_write_ok pio = true → pi_rename_ok pio = true →
     is_ok (s_get st1.2 p).2 = true → is_ok (s_head (s_get st1.2 p).1 p).2 = true →
     is_ok (cached_get xxh3_64 config uri_prefix gio pio st1 p).2 = true).
Proof.
  cbn zeta. assert (coherent (foldl exec_op st ops)) as Hco1.
  { clear -Hco StorageLaws0. revert st Hco. induction ops as [|op ops IH]; intros st Hco; [done|].
    apply IH. by apply exec_op_coherent. }
  set (st1 := foldl exec_op st ops) in *. split_and!; [done| | | | | |].
  - intros gio pio p st2 b Hg. destruct (get_coherent _ _ _ _ _ _ Hco1 Hg) as (_ & ? & ?). auto.
  - intros gio gio2 pio p lo hi st2 b Hg. destruct (get_range_coherent _ _ _ _ _ _ _ _ _ Hco1 Hg) as (_ & ? & Hb).
    split; [done|]. by apply Hb.
  - intros ok io p b st2 m Hp. destruct (put_coherent _ _ _ _ _ _ _ Hco1 Hp) as (_ & [?|[? _]]); done.
  - intros ok p st2 m Hd. destruct st1 as [w s]. unfold cached_delete in Hd.
    destruct (s_delete s p) as [s1 r] eqn:E. simplify_eq. by destruct (delete_law _ _ _ _ E) as [?|[? _]].
  - intros ok from to st2 m Hc. destruct st1 as [w s]. unfold cached_copy in Hc.
    destruct (s_copy s from to) as [s1 r] eqn:E. simplify_eq. by destruct (copy_law _ _ _ _ _ E) as [?|[? _]].
  - intros gio pio p Hm Hw Hr Hget Hhead. destruct st1 as [w s]. unfold cached_get.
    destruct (get_cached _ _ _ _) as [w1 r1] eqn:Hg.
    destruct (get_cached_spec _ _ _ _ _ _ Hg) as (_ & [data|] & -> & _); [done|].
    unfold fetch. simpl in *. destruct (s_get s p) as [s1 [bytes|]]; [|done]. simpl in *.
    destruct (s_head s1 p) as [s2 [head|]]; [|done].
    unfold put_cached. rewrite Hm, Hw, Hr. by destruct (_ <? _)%N.
Qed.
End transparency.

(** ** Examples *)
#[export] Instance demo_storage : Storage (gmap ObjectPath Bytes) := {|
  s_get s p := (s, ok_or (s !! p) (Internal "not found"));
  s_get_range s p lo hi := (s, ok_or (slice lo hi <$> s !! p) (Internal "not found"));
  s_head s p := (s, ok_or ((λ b, mkObjectMeta p (lenN b) None 0) <$> s !! p) (Internal "not found"));
  s_put s p b := (<[p := b]> s, Ok (mkObjectMeta p (lenN b) None 0));
  s_delete s p := (delete p s, Ok tt);
  s_copy s from to := match s !! from with
                      | Some b => (<[to := b]> s, Ok tt)
                      | None => (s, Err (Internal "not found"))
                      end |}.

#[export] Instance demo_storage_laws : StorageLaws (gmap ObjectPath Bytes) (λ s, s).
Proof.
  split; simpl; intros; simplify_eq; [split; [done|]..|done|by left|by left|].
  - intros b Hb. by apply ok_or_Ok in Hb.
  - intros b Hb. by apply ok_or_Ok in Hb.
  - destruct (s !! from) eqn:E; simplify_eq; [left; eauto|by right].
Qed.

Definition demo_checksum (b : Bytes) : N := lenN b.
Definition demo_cache_config : CacheConfig := mkCacheConfig 100 50.
Definition demo_cache : CacheWorld := mkCacheWorld (mkCacheIndex (mkIndexState ∅ ∅ 0) 0 0 false) ∅.
Definition demo_get_io : GetIo := mkGetIo true 7 (λ _, true).
Definition demo_put_io : PutIo := mkPutIo true true [] true 5 (λ _, true).

Lemma demo_cache_inv : world_inv demo_cache.
Proof.
  split; simpl; [done| |done|done]. intros t u. rewrite elem_of_empty. split; [done|].
  intros (e & He & _). by rewrite lookup_empty in He.
Qed.

Lemma put_cached_bounded_witness :
  ∃ w', put_cached demo_checksum demo_cache_config demo_put_io demo_cache "s3://b/k" [x00; x01] None = (w', Ok tt) ∧
    (ix_total_bytes (state_of w') ≤ 100)%N ∧ (get_cached demo_checksum demo_get_io w' "s3://b/k").2 = Ok (Some [x00; x01]).
Proof.
  eexists. split; [reflexivity|].
  destruct (put_cached_bounded demo_checksum demo_cache_config demo_put_io demo_cache _ "s3://b/k" [x00; x01] None
              demo_cache_inv ltac:(vm_compute; discriminate) ltac:(vm_compute; discriminate)
              ltac:(vm_compute; discriminate) eq_refl) as (_ & Ht & _ & _ & Hget).
  split; [exact Ht|]. apply (Hget ltac:(vm_compute; discriminate)). reflexivity.
Defined.

Lemma cached_storage_transparent_witness :
  let st := (demo_cache, {["k" := [x00; x01]]} : gmap ObjectPath Bytes) in
  let ops := [OpGet demo_get_io demo_put_io "k"; OpPut (λ _, true) demo_put_io "j" [x02]] in
  let st1 := foldl (exec_op demo_checksum demo_cache_config "s3://b/") st ops in
  ∃ st2 b, cached_get demo_checksum demo_cache_config "s3://b/" demo_get_io demo_put_io st1 "k" = (st2, Ok b) ∧
    ∃ b0, st1.2 !! "k" = Some b0 ∧ demo_checksum b = demo_checksum b0.
Proof.
  cbn zeta. set (st := (demo_cache, _)). set (ops := [_; _]).
  assert (coherent demo_checksum "s3://b/" (λ s, s) st) as Hco.
  { intros p e He. unfold st, demo_cache, entries_of in He. simpl in He. by rewrite lookup_empty in He. }
  destruct (cached_storage_transparent demo_checksum demo_cache_config "s3://b/" (λ s, s) st ops Hco)
    as (_ & Hget & _).
  set (st1 := foldl _ st ops) in *.
  destruct (cached_get demo_checksum demo_cache_config "s3://b/" demo_get_io demo_put_io st1 "k") as [st2 r] eqn:Hr.
  assert (r = Ok [x00; x01]) as -> by (change r with (st2, r).2; rewrite <-Hr; vm_compute; reflexivity).
  exists st2, [x00; x01]. split; [done|]. apply (Hget _ _ _ _ _ Hr).
Defined.

(** ** Shared fetches *)
(** Histories of calls: which key each channel was opened for, and the fetches that ended. *)
Record FlightLog := mkFlightLog {
  fg_flights : Flights; fg_leaders : gmap nat string; fg_done : list (nat * TeoDBResult Bytes) }.

Inductive flight_step : FlightLog → FlightLog → Prop :=
| step_lead g k :
    flight_step g (mkFlightLog (run_lead (fg_flights g) k).1 (<[fl_next (fg_flights g) := k]> (fg_leaders g)) (fg_done g))
| step_finish g k ch r : fg_leaders g !! ch = Some k → (ch ∉ fl_closed (fg_flights g)) →
    flight_step g (mkFlightLog (run_finish (fg_flights g) k ch r) (fg_leaders g) ((ch, r) :: fg_done g))
| step_cancel g k ch : fg_leaders g !! ch = Some k → (ch ∉ fl_closed (fg_flights g)) →
    flight_step g (mkFlightLog (run_cancel (fg_flights g) k ch) (fg_leaders g) (fg_done g)).

Definition flight_start : FlightLog := mkFlightLog flights_new ∅ [].

Record flight_inv (g : FlightLog) : Prop := {
  fi_in_flight k ch : fl_in_flight (fg_flights g) !! k = Some ch → fg_leaders g !! ch = Some k;
  fi_next ch k : fg_leaders g !! ch = Some k → ch < fl_next (fg_flights g);
  fi_sent ch x : fl_sent (fg_flights g) !! ch = Some x → ∃ r, (ch, r) ∈ fg_done g ∧ x = map_err (λ _, "{e}") r;
}.

Lemma flight_step_inv g g' :
  flight_inv g → flight_step g g' → flight_inv g' ∧ fg_leaders g ⊆ fg_leaders g'.
Proof.
  intros [Hmap Hnext Hsent]. destruct 1 as [g k|g k ch r Hk _|g k ch Hk _]; simpl in *.
  - assert (fg_leaders g !! fl_next (fg_flights g) = None) as Hnone.
    { destruct (fg_leaders g !! fl_next (fg_flights g)) eqn:E; [|done]. apply Hnext in E. lia. }
    split; [split; simpl|by apply insert_subseteq].
    + intros k' ch. rewrite lookup_insert_Some. intros [[-> <-]|[_ He]]; [by rewrite lookup_insert_eq|].
      rewrite lookup_insert_ne; [by apply Hmap|]. intros <-. apply Hmap in He. congruence.
    + intros ch k'. rewrite lookup_insert_Some. intros [[<- _]|[_ He]]; [lia|]. apply Hnext in He. lia.
    + done.
  - split; [split; simpl|done].
    + intros k' ch'. rewrite lookup_delete_Some. naive_solver.
    + done.
    + intros ch' x. rewrite lookup_insert_Some. setoid_rewrite elem_of_cons. naive_solver.
  - split; [split; simpl|done]; [|done|done]. intros k' ch'. rewrite lookup_delete_Some. naive_solver.
Qed.

(** A caller that joined a running fetch gets a value only from a fetch of its own key that
    ended with this value. *)
Lemma waiters_share_fetch g1 g2 k ch b :
  rtc flight_step flight_start g1 → run_join (fg_flights g1) k = Some ch → rtc flight_step g1 g2 →
  run_wait (fg_flights g2) ch = Some (Ok b) → fg_leaders g2 !! ch = Some k ∧ (ch, Ok b) ∈ fg_done g2.
Proof.
  intros H1 Hjoin H2 Hwait.
  assert (flight_inv flight_start) as H0 by (split; intros ? ?; simpl; by rewrite lookup_empty).
  assert (∀ a a', rtc flight_step a a' → flight_inv a → flight_inv a' ∧ fg_leaders a ⊆ fg_leaders a') as Hreach.
  { induction 1 as [|a a1 a' Hs _ IH]; intros Ha; [done|]. destruct (flight_step_inv _ _ Ha Hs) as [Ha1 Hsub].
    destruct (IH Ha1) as [? Hsub']. split; [done|]. by etrans. }
  destruct (Hreach _ _ H1 H0) as [Hi1 _]. destruct (Hreach _ _ H2 Hi1) as [Hi2 Hsub].
  split. { eapply lookup_weaken; [|exact Hsub]. by apply (fi_in_flight _ Hi1). }
  unfold run_wait in Hwait. destruct (fl_sent (fg_flights g2) !! ch) as [x|] eqn:Hx; [|by destruct (decide _)].
  destruct (fi_sent _ Hi2 _ _ Hx) as ([b'|e] & Hin & ->); naive_solver.
Qed.

(** Two calls that look for a running fetch before either has registered both fetch. *)
Theorem concurrent_misses_fetch_twice :
  run_join flights_new "k" = None ∧
  ∃ f1 c1 f2 c2, run_lead flights_new "k" = (f1, c1) ∧ run_lead f1 "k" = (f2, c2) ∧ c1 ≠ c2 ∧
    run_wait f2 c1 = None ∧ run_wait f2 c2 = None.
Proof. split; [done|]. do 4 eexists. split_and!; try reflexivity. done. Qed.

(** When the caller that fetches is cancelled, the callers that joined it fail. *)
Theorem cancelled_leader_fails_waiters :
  ∃ f1 ch, run_lead flights_new "k" = (f1, ch) ∧ run_join f1 "k" = Some ch ∧
    run_wait (run_cancel f1 "k" ch) ch = Some (Err (Internal "single-flight channel closed")).
Proof. do 2 eexists. split_and!; reflexivity. Qed.

(** A fetch that overlaps a write of the same path stores what it read after the write has stored
    the new bytes; from then on reads return the old object. *)
Theorem overlapping_fetch_leaves_stale_bytes :
  let fetched := [x00] in
  let st1 := (cached_put demo_checksum demo_cache_config "m://" (λ _, true) demo_put_io
                (demo_cache, {["k" := fetched]} : gmap ObjectPath Bytes) "k" [x01; x02]) in
  let w2 := (put_cached demo_checksum demo_cache_config demo_put_io st1.1.1 (cache_key "m://" "k") fetched None).1 in
  is_ok st1.2 = true ∧
  (cached_get demo_checksum demo_cache_config "m://" demo_get_io demo_put_io (w2, st1.1.2) "k").2 = Ok fetched ∧
  st1.1.2 !! "k" = Some [x01; x02].
Proof. split_and!; vm_compute; reflexivity. Qed.

(** Objects with the same bytes share one file: evicting one of them takes the file away
    from the other, whose entry is still counted until it is read. *)
Theorem shared_file_lost_on_removal :
  let w1 := (put_cached demo_checksum demo_cache_config demo_put_io demo_cache "a" [x00] None).1 in
  let w2 := (put_cached demo_checksum demo_cache_config demo_put_io w1 "b" [x00] None).1 in
  let w3 := remove (λ _, true) w2 "a" in
  ix_total_bytes (state_of w3) = 1%N ∧ (get_cached demo_checksum demo_get_io w3 "b").2 = Ok None.
Proof. split; vm_compute; reflexivity. Qed.

(** A crash before the index is persisted leaves object files behind that the next start
    neither counts nor removes. *)
Theorem crash_leaks_cached_file `{CacheJson} :
  let w1 := (put_cached demo_checksum demo_cache_config demo_put_io demo_cache "a" [x00] None).1 in
  ∃ w2, open_with_config true true (λ _, true) (cw_disk w1) = Ok w2 ∧
    ix_total_bytes (state_of w2) = 0%N ∧ cw_disk w2 !! bin_path_for_checksum 1 = Some [x00].
Proof. eexists. split_and!; [reflexivity|vm_compute; reflexivity..]. Qed.
