(* ===== verification/Deletes.v ===== *)
(** * Position deletes in scans

    Models [teodb-query/src/provider/delete/reader.rs] and [execution.rs], and
    the split of a scan's files in [scan_builder.rs].  Parquet decoding, object
    reads and Arrow's filter kernel are arguments; a record batch of the stream
    is the list of its rows. *)

From S2P Require Import Prelude Core Location DataFiles Sweep.
Open Scope nat_scope.
Open Scope list_scope.

(** ** Loading delete files *)
(** The columns of a decoded batch, by Arrow array type; [None] is a null entry. *)
Inductive DeleteColumn :=
| StringArray (values : list (option string)) | Int64Array (values : list (option Z)) | OtherArray.
Record DeleteBatch := mkDeleteBatch {
  db_file_path : option DeleteColumn; db_pos : option DeleteColumn; db_num_rows : nat }.

(** Data file path to deleted row positions. *)
Abbreviation PositionDeleteSet := (gmap string (gset Z)).

Definition insert_delete (deletes : PositionDeleteSet) (path : string) (pos : Z) : PositionDeleteSet :=
  <[path := {[pos]} ∪ default ∅ (deletes !! path)]> deletes.

(** One row; an index past a column's length does not occur in a batch. *)
Definition parse_delete_row (file_paths : list (option string)) (positions : list (option Z))
    (deletes : PositionDeleteSet) (row : nat) : TeoDBResult PositionDeleteSet :=
  match file_paths !! row, positions !! row with
  | Some (Some path), Some (Some pos) =>
      if str_is_empty path then Err (Parquet "empty position-delete file path at row {row} in {source_path}")
      else if (pos <? 0)%Z then Err (Parquet "negative position-delete row position {pos} at row {row} in {source_path}")
      else Ok (insert_delete deletes path pos)
  | _, _ => Err (Parquet "null position-delete entry at row {row} in {source_path}")
  end.

Definition parse_delete_batch (deletes : PositionDeleteSet) (batch_result : result string DeleteBatch) :
    TeoDBResult PositionDeleteSet :=
  batch ← map_err (λ _, Parquet "read batch {source_path}: {e}") batch_result;
  file_path_col ← ok_or (db_file_path batch) (Parquet "missing 'file_path' column in {source_path}");
  pos_col ← ok_or (db_pos batch) (Parquet "missing 'pos' column in {source_path}");
  match file_path_col with
  | StringArray file_paths =>
      match pos_col with
      | Int64Array positions => foldM (parse_delete_row file_paths positions) deletes (seq 0 (db_num_rows batch))
      | _ => Err (Parquet "'pos' in {source_path} must be Int64, found {}")
      end
  | _ => Err (Parquet "'file_path' in {source_path} must be Utf8, found {}")
  end.

Section reader.
(** Opening a Parquet file: its batches, each of which may fail to decode. *)
Context {Bytes : Type} (open_parquet : Bytes → result string (list (result string DeleteBatch))).

Definition parse_position_delete_bytes (deletes : PositionDeleteSet) (data : Bytes) : TeoDBResult PositionDeleteSet :=
  batches ← map_err (λ _, Parquet "open position-delete {source_path}: {e}") (open_parquet data);
  foldM parse_delete_batch deletes batches.

Definition position_deletes (files : list DataFile) : list DataFile :=
  List.filter (λ f, bool_decide (df_content f = PositionDelete)) files.

(** The object a delete file is read from when loaded below a base path. *)
Definition delete_object_path (base_path : ObjectPath) (file_key : string) : ObjectPath :=
  if str_is_empty base_path then file_key else str_trim_end "/" base_path +:+ "/" +:+ file_key.

Definition load (get : ObjectPath → TeoDBResult Bytes) (delete_files : list DataFile) (base_path : ObjectPath) :
    TeoDBResult PositionDeleteSet :=
  foldM (λ set df, data ← get (delete_object_path base_path (key (df_path df))); parse_position_delete_bytes set data)
    ∅ (position_deletes delete_files).

Definition load_from_object_store (get : ObjectPath → result string Bytes) (delete_files : list DataFile) :
    TeoDBResult PositionDeleteSet :=
  foldM (λ set df, data ← map_err (λ _, ObjectStore "{e}") (get (key (df_path df))); parse_position_delete_bytes set data)
    ∅ (position_deletes delete_files).
End reader.

(** Whether a recorded path names the data file with the key. *)
Definition path_matches (entry_path key : string) : bool :=
  bool_decide (entry_path = key) ||
  match str_strip_suffix key entry_path with Some prefix => str_ends_with "/" prefix | None => false end.

Definition positions_for_file (deletes : PositionDeleteSet) (key : string) : gset Z :=
  foldl (λ merged ep, if path_matches ep.1 key then merged ∪ ep.2 else merged) ∅ (map_to_list deletes).

Definition split_by_deletes (files : list DataFile) (delete_set : option PositionDeleteSet) :
    list DataFile * list (DataFile * gset Z) :=
  match delete_set with
  | None => (files, [])
  | Some set =>
      foldl (λ acc file, let positions := positions_for_file set (key (df_path file)) in
                         if bool_decide (positions = ∅) then (acc.1 ++ [file], acc.2)
                         else (acc.1, acc.2 ++ [(file, positions)])) ([], []) files
  end.

(** ** The filtering stream *)
Section stream.
Context {R : Type} (filter_record_batch : list R → list bool → result string (list R)).

(** The keep mask of a batch that starts at the row offset. *)
Definition keep_mask (positions : gset Z) (start_offset : Z) (num_rows : nat) : list bool :=
  map (λ i, negb (bool_decide ((start_offset + Z.of_nat i)%Z ∈ positions))) (seq 0 num_rows).

(** What one batch of the child becomes: [Ok None] when it is skipped. *)
Definition filter_batch (positions : gset Z) (start_offset : Z) (batch : list R) : result string (option (list R)) :=
  let num_rows := length batch in
  let end_offset := (start_offset + Z.of_nat num_rows)%Z in
  let has_deletes := existsb (λ p, (start_offset <=? p)%Z && (p <? end_offset)%Z) (elements positions) in
  if negb has_deletes then Ok (Some batch)
  else
    let keep := keep_mask positions start_offset num_rows in
    let kept_count := length (List.filter id keep) in
    if kept_count =? 0 then Ok None
    else filtered ← filter_record_batch batch keep; Ok (Some filtered).

(** The items the stream yields for the items of its child; errors pass through. *)
Fixpoint delete_stream (positions : gset Z) (current_row_offset : Z) (inner : list (result string (list R))) :
    list (result string (list R)) :=
  match inner with
  | [] => []
  | Err e :: inner => Err e :: delete_stream positions current_row_offset inner
  | Ok batch :: inner =>
      let rest := delete_stream positions (current_row_offset + Z.of_nat (length batch))%Z inner in
      match filter_batch positions current_row_offset batch with
      | Err e => Err e :: rest
      | Ok None => rest
      | Ok (Some filtered) => Ok filtered :: rest
      end
  end.

(** The rows at positions that are not deleted: what a position delete means. *)
Fixpoint live_rows (positions : gset Z) (offset : Z) (rows : list R) : list R :=
  match rows with
  | [] => []
  | r :: rows => (if bool_decide (offset ∈ positions) then [] else [r]) ++ live_rows positions (offset + 1)%Z rows
  end.

(** Rows kept by a mask. *)
Fixpoint mask_filter (rows : list R) (mask : list bool) : list R :=
  match rows, mask with
  | r :: rows, b :: mask => (if b then [r] else []) ++ mask_filter rows mask
  | _, _ => []
  end.
(** Arrow's documented behaviour: a mask of the batch's length selects the rows it marks. *)
Context (filter_record_batch_spec :
  ∀ rows mask, length rows = length mask → filter_record_batch rows mask = Ok (mask_filter rows mask)).

Lemma live_rows_app positions offset l1 l2 :
  live_rows positions offset (l1 ++ l2)
  = live_rows positions offset l1 ++ live_rows positions (offset + Z.of_nat (length l1))%Z l2.
Proof using Type.
  revert offset. induction l1 as [|r l1 IH]; intros offset; simpl; [by rewrite Z.add_0_r|].
  rewrite IH, app_assoc. do 2 f_equal. lia.
Qed.

Lemma live_rows_none positions offset rows :
  (∀ p, p ∈ positions → ¬ (offset ≤ p < offset + Z.of_nat (length rows))%Z) → live_rows positions offset rows = rows.
Proof using Type.
  revert offset. induction rows as [|r rows IH]; intros offset Hp; [done|]. simpl in *.
  rewrite bool_decide_false by (intros Hin; apply (Hp _ Hin); lia).
  rewrite IH; [done|]. intros p Hin. specialize (Hp p Hin). lia.
Qed.

Lemma keep_mask_live positions offset rows :
  mask_filter rows (keep_mask positions offset (length rows)) = live_rows positions offset rows.
Proof using Type.
  revert offset. induction rows as [|r rows IH]; intros offset; [done|]. unfold keep_mask. cbn [length seq map mask_filter live_rows].
  rewrite Z.add_0_r. f_equal; [by case_bool_decide|]. rewrite <-IH. f_equal. unfold keep_mask.
  rewrite <-seq_shift, map_map. apply map_ext. intros i. by replace (offset + Z.of_nat (S i))%Z with (offset + 1 + Z.of_nat i)%Z by lia.
Qed.

Lemma mask_filter_none rows mask : length (List.filter id mask) = 0 → mask_filter rows mask = [].
Proof using Type.
  revert rows. induction mask as [|b mask IH]; intros [|r rows]; simpl; try done.
  destruct b; simpl; [done|]. apply IH.
Qed.

Lemma filter_batch_spec positions offset batch :
  ∃ o, filter_batch positions offset batch = Ok o ∧ default [] o = live_rows positions offset batch.
Proof.
  unfold filter_batch. destruct (existsb _ _) eqn:He; cbn [negb].
  - destruct (Nat.eqb_spec (length (List.filter id (keep_mask positions offset (length batch)))) 0) as [Hz|Hz].
    + exists None. split; [done|]. simpl. by rewrite <-keep_mask_live, mask_filter_none.
    + rewrite filter_record_batch_spec by (unfold keep_mask; by rewrite length_map, length_seq).
      eexists. split; [done|]. simpl. apply keep_mask_live.
  - eexists. split; [done|]. simpl. symmetry. apply live_rows_none. intros p Hp Hr.
    apply not_true_iff_false in He. apply He, existsb_exists. exists p. split.
    + by apply list_elem_of_In, elem_of_elements.
    + apply andb_true_iff. rewrite Z.leb_le, Z.ltb_lt. lia.
Qed.

Definition stream_rows (items : list (result string (list R))) : list R :=
  concat (omap (λ i, match i with Ok b => Some b | Err _ => None end) items).

Lemma delete_stream_rows positions offset (batches : list (list R)) :
  Forall (λ i, is_ok i = true) (delete_stream positions offset (map Ok batches)) ∧
  stream_rows (delete_stream positions offset (map Ok batches)) = live_rows positions offset (concat batches).
Proof.
  revert offset. induction batches as [|b batches IH]; intros offset; [done|]. simpl.
  destruct (filter_batch_spec positions offset b) as (o & -> & Ho). rewrite live_rows_app, <-Ho.
  destruct (IH (offset + Z.of_nat (length b))%Z) as [Hok Hrows].
  destruct o as [l|]; (split; [first [by constructor|done]|]); cbn [default from_option].
  - change (stream_rows (Ok l :: ?x)) with (l ++ stream_rows x). by rewrite Hrows.
  - by rewrite Hrows.
Qed.

(** The delete filter is exact however the file is batched: for every cut of a file's rows
    into batches, the rows the stream yields are the rows at positions outside the delete
    set, in order, and it yields no error of its own. *)
Theorem delete_stream_exact (positions : gset Z) (batches : list (list R)) :
  Forall (λ i, is_ok i = true) (delete_stream positions 0 (map Ok batches)) ∧
  stream_rows (delete_stream positions 0 (map Ok batches)) = live_rows positions 0 (concat batches).
Proof. apply delete_stream_rows. Qed.
End stream.

(** ** From delete files to data files *)
Definition records (deletes : PositionDeleteSet) (path : string) (pos : Z) : Prop :=
  ∃ s, deletes !! path = Some s ∧ pos ∈ s.

Definition row_entry (file_paths : list (option string)) (positions : list (option Z)) (row : nat)
    (path : string) (pos : Z) : Prop :=
  file_paths !! row = Some (Some path) ∧ positions !! row = Some (Some pos).

(** An entry of a decoded batch. *)
Definition batch_entry (b : result string DeleteBatch) (path : string) (pos : Z) : Prop :=
  ∃ batch fps ps row, b = Ok batch ∧ db_file_path batch = Some (StringArray fps) ∧
    db_pos batch = Some (Int64Array ps) ∧ row < db_num_rows batch ∧ row_entry fps ps row path pos.

Lemma insert_delete_records d p x path pos :
  records (insert_delete d p x) path pos ↔ (path = p ∧ pos = x) ∨ records d path pos.
Proof.
  unfold records, insert_delete. destruct (decide (p = path)) as [->|Hne].
  - rewrite lookup_insert_eq. split.
    + intros (s & [= <-] & Hin). destruct (d !! path); set_solver.
    + intros [[_ ->]|(s & -> & ?)]; eexists; (split; [done|]); set_solver.
  - rewrite lookup_insert_ne by done. naive_solver.
Qed.

(** A fallible fold that adds what each element contributes. *)
Lemma foldM_records {B} (f : PositionDeleteSet → B → TeoDBResult PositionDeleteSet) (entry : B → string → Z → Prop) l d d' :
  (∀ d b d', b ∈ l → f d b = Ok d' → ∀ path pos, records d' path pos ↔ records d path pos ∨ entry b path pos) →
  foldM f d l = Ok d' →
  ∀ path pos, records d' path pos ↔ records d path pos ∨ ∃ b, b ∈ l ∧ entry b path pos.
Proof.
  revert d. induction l as [|b l IH]; intros d Hf; simpl.
  { intros [= <-] path pos. split; [by left|]. intros [?|(? & []%elem_of_nil & _)]. done. }
  intros (d1 & H1 & H2)%bind_Ok path pos.
  rewrite (IH d1 ltac:(intros; eapply Hf; [by right|done]) H2 path pos).
  rewrite (Hf d b d1 ltac:(by left) H1 path pos). setoid_rewrite elem_of_cons. naive_solver.
Qed.

Lemma parse_delete_batch_records d b d' :
  parse_delete_batch d b = Ok d' →
  ∀ path pos, records d' path pos ↔ records d path pos ∨ batch_entry b path pos.
Proof.
  intros (batch & ->%map_err_Ok & (fc & Hfc%ok_or_Ok & (pc & Hpc%ok_or_Ok & Hr)%bind_Ok)%bind_Ok)%bind_Ok path pos.
  destruct fc as [fps| |]; [|done..]. destruct pc as [|ps|]; [done| |done].
  rewrite (foldM_records (parse_delete_row fps ps) (row_entry fps ps) (seq 0 (db_num_rows batch)) d d').
  3: exact Hr.
  - unfold batch_entry. split.
    + intros [?|(row & [_ Hrow]%elem_of_seq & ?)]; [by left|right]. exists batch, fps, ps, row. split_and!; done || lia.
    + intros [?|(batch' & fps' & ps' & row & [= <-] & ? & ? & ? & ?)]; [by left|right]. simplify_eq.
      exists row. split; [apply elem_of_seq; lia|done].
  - intros d0 row d1 _ Hrow path0 pos0. unfold parse_delete_row in Hrow. unfold row_entry.
    destruct (fps !! row) as [[p|]|] eqn:Hp; [|done..]. destruct (ps !! row) as [[x|]|] eqn:Hx; [|done..].
    destruct (str_is_empty p); [done|]. destruct (x <? 0)%Z; [done|]. injection Hrow as <-.
    rewrite insert_delete_records. naive_solver.
Qed.

Lemma positions_for_file_spec d k pos :
  pos ∈ positions_for_file d k ↔ ∃ path, records d path pos ∧ path_matches path k = true.
Proof.
  unfold positions_for_file. assert (∀ l acc,
    pos ∈ foldl (λ merged ep, if path_matches ep.1 k then merged ∪ ep.2 else merged) acc l ↔
    pos ∈ acc ∨ ∃ ep : string * gset Z, ep ∈ l ∧ path_matches ep.1 k = true ∧ pos ∈ ep.2) as Hfold.
  { induction l as [|ep l IH]; intros acc; simpl.
    { split; [by left|]. by intros [?|(? & []%elem_of_nil & _)]. }
    rewrite IH. destruct (path_matches ep.1 k) eqn:Hm; [rewrite elem_of_union|]; split.
    - intros [[?|?]|(ep' & ? & ?)]; [by left|right; exists ep|right; exists ep']; (split; [|done]); [by left|by right].
    - intros [?|(ep' & [->|?]%elem_of_cons & ? & ?)]; [tauto|tauto|right; by exists ep'].
    - intros [?|(ep' & ? & ?)]; [by left|right; exists ep']. split; [by right|done].
    - intros [?|(ep' & [->|?]%elem_of_cons & ? & ?)]; [tauto|congruence|right; by exists ep']. }
  rewrite Hfold. unfold records. split.
  - intros [?|([path s] & Hin%elem_of_map_to_list & ? & ?)]; [set_solver|]. exists path. eauto.
  - intros (path & (s & ? & ?) & ?). right. exists (path, s). split; [by apply elem_of_map_to_list|done].
Qed.

Lemma split_by_deletes_spec files set clean deleted :
  split_by_deletes files (Some set) = (clean, deleted) →
  clean ++ deleted.*1 ≡ₚ files ∧
  (∀ f, f ∈ clean → positions_for_file set (key (df_path f)) = ∅) ∧
  (∀ f ps, (f, ps) ∈ deleted → ps = positions_for_file set (key (df_path f)) ∧ ps ≠ ∅).
Proof.
  unfold split_by_deletes. set (step := λ acc file, _).
  assert (∀ acc,
    (∀ f, f ∈ acc.1 → positions_for_file set (key (df_path f)) = ∅) →
    (∀ f ps, (f, ps) ∈ acc.2 → ps = positions_for_file set (key (df_path f)) ∧ ps ≠ ∅) →
    let r := foldl step acc files in
    r.1 ++ r.2.*1 ≡ₚ files ++ acc.1 ++ acc.2.*1 ∧
    (∀ f, f ∈ r.1 → positions_for_file set (key (df_path f)) = ∅) ∧
    (∀ f ps, (f, ps) ∈ r.2 → ps = positions_for_file set (key (df_path f)) ∧ ps ≠ ∅)) as Hfold.
  { induction files as [|file files IH]; intros acc Hc Hd; [done|]. simpl.
    destruct (IH (step acc file)) as (Hp & Hc' & Hd').
    - intros f. unfold step. case_bool_decide; [simpl|auto]. intros [?|Heq%list_elem_of_singleton]%elem_of_app; [auto|by rewrite Heq].
    - intros f ps. unfold step. case_bool_decide; [auto|simpl].
      intros [?|Heq%list_elem_of_singleton]%elem_of_app; [auto|]. by injection Heq as -> ->.
    - split_and!; [|done|done]. rewrite Hp. unfold step. case_bool_decide; simpl.
      + rewrite <-app_assoc. simpl. by rewrite <-Permutation_middle, <-Permutation_middle.
      + rewrite fmap_app. simpl. rewrite !app_assoc. by rewrite <-Permutation_cons_append. }
  intros Hs. destruct (Hfold ([], [])) as (Hp & Hc & Hd); [intros ? []%elem_of_nil|intros ? ? []%elem_of_nil|].
  rewrite Hs in Hp, Hc, Hd. simpl in *. rewrite !app_nil_r in Hp. done.
Qed.

(** The row of the data file is deleted by an entry of one of the delete files. *)
Definition deleted_at {Bytes} (open_parquet : Bytes → result string (list (result string DeleteBatch)))
    (get : ObjectPath → result string Bytes) (delete_files : list DataFile) (f : DataFile) (pos : Z) : Prop :=
  ∃ df data batches b path, df ∈ delete_files ∧ df_content df = PositionDelete ∧
    get (key (df_path df)) = Ok data ∧ open_parquet data = Ok batches ∧ b ∈ batches ∧
    batch_entry b path pos ∧ path_matches path (key (df_path f)) = true.

Lemma loaded_records {Bytes} (open_parquet : Bytes → result string (list (result string DeleteBatch))) get files set :
  load_from_object_store open_parquet get files = Ok set →
  ∀ path pos, records set path pos ↔ ∃ df, df ∈ position_deletes files ∧ ∃ data batches b,
    get (key (df_path df)) = Ok data ∧ open_parquet data = Ok batches ∧ b ∈ batches ∧ batch_entry b path pos.
Proof.
  intros Hload path pos.
  eapply (foldM_records _ (λ df path pos, ∃ data batches b, get (key (df_path df)) = Ok data ∧
    open_parquet data = Ok batches ∧ b ∈ batches ∧ batch_entry b path pos)) with (path := path) (pos := pos) in Hload.
  - rewrite Hload. split; [|by right]. intros [(s & Hs & _)|?]; [by rewrite lookup_empty in Hs|done].
  - clear. intros d df d' _ (data & Hdata%map_err_Ok & (batches & Hb%map_err_Ok & Hfold)%bind_Ok)%bind_Ok path pos.
    rewrite (foldM_records _ batch_entry _ _ _ (λ d b d' _, parse_delete_batch_records d b d') Hfold).
    split; (intros [?|Hex]; [by left|right]).
    + destruct Hex as (b & ? & ?). exists data, batches, b. done.
    + destruct Hex as (data' & batches' & b & ? & ? & ? & ?). assert (data' = data) as -> by congruence.
      assert (batches' = batches) as -> by congruence. by exists b.
Qed.

Lemma loaded_positions {Bytes} (open_parquet : Bytes → result string (list (result string DeleteBatch))) get delete_files set f pos :
  load_from_object_store open_parquet get delete_files = Ok set →
  pos ∈ positions_for_file set (key (df_path f)) ↔ deleted_at open_parquet get delete_files f pos.
Proof.
  intros Hload. rewrite positions_for_file_spec. unfold deleted_at.
  setoid_rewrite (loaded_records _ _ _ _ Hload). split.
  - intros (path & (df & Hdf & data & batches & b & ?) & Hm). unfold position_deletes in Hdf.
    apply list_elem_of_In, filter_In in Hdf as [Hdf%list_elem_of_In Hc%bool_decide_eq_true].
    exists df, data, batches, b, path. tauto.
  - intros (df & data & batches & b & path & Hdf & Hc & ?). exists path. split; [|tauto]. exists df.
    split; [|exists data, batches, b; tauto].
    apply list_elem_of_In, filter_In. split; [by apply list_elem_of_In|by apply bool_decide_eq_true].
Qed.

(** Every position delete reaches its data file and nothing else: when the delete files of a
    scan have been loaded and the scan's files split, each file is in exactly one of the two
    branches, a file read without a filter has no deleted row, and the filter of any
    other file holds exactly the positions some delete file records for it. *)
Theorem deletes_reach_their_files {Bytes} (open_parquet : Bytes → result string (list (result string DeleteBatch)))
    (get : ObjectPath → result string Bytes) (delete_files files clean : list DataFile)
    (set : PositionDeleteSet) (deleted : list (DataFile * gset Z))
    (Hload : load_from_object_store open_parquet get delete_files = Ok set)
    (Hsplit : split_by_deletes files (Some set) = (clean, deleted)) :
  clean ++ deleted.*1 ≡ₚ files ∧
  (∀ f pos, f ∈ clean → ¬ deleted_at open_parquet get delete_files f pos) ∧
  (∀ f ps pos, (f, ps) ∈ deleted → pos ∈ ps ↔ deleted_at open_parquet get delete_files f pos).
Proof.
  destruct (split_by_deletes_spec _ _ _ _ Hsplit) as (Hperm & Hclean & Hdel). split; [done|].
  pose proof (λ f pos, loaded_positions _ _ _ _ f pos Hload) as Hiff.
  split.
  - intros f pos Hf Hat. apply Hiff in Hat. rewrite (Hclean f Hf) in Hat. set_solver.
  - intros f ps pos Hin. destruct (Hdel f ps Hin) as [-> _]. apply Hiff.
Qed.

(** ** Concrete scans *)
Definition demo_data_file (content : DataContent) (k : string) : DataFile :=
  mkDataFile content (mkObjectLocation S3 (Some "b") k) FmtParquet 0 None 0 ∅ 4 100 ∅ ∅ ∅ ∅ ∅ ∅ [] [] None.
(** A delete file is a list of entries. *)
Definition demo_open (entries : list (string * Z)) : result string (list (result string DeleteBatch)) :=
  Ok [Ok (mkDeleteBatch (Some (StringArray (map (Some ∘ fst) entries))) (Some (Int64Array (map (Some ∘ snd) entries)))
            (length entries))].
Definition demo_entries : list (string * Z) := [("s3://b/wh/t/data/a.parquet", 1%Z); ("wh/t/data/a.parquet", 2%Z)].
Definition demo_get (p : ObjectPath) : result string (list (string * Z)) :=
  if decide (p = "wh/t/data/d.parquet") then Ok demo_entries else Err "not found".
Definition demo_delete_file : DataFile := demo_data_file PositionDelete "wh/t/data/d.parquet".

Definition demo_scan_files : list DataFile :=
  [demo_data_file ContentData "wh/t/data/a.parquet"; demo_data_file ContentData "wh/t/data/b.parquet"].

Lemma deletes_reach_their_files_witness :
  ∃ set clean deleted,
    load_from_object_store demo_open demo_get [demo_delete_file] = Ok set ∧
    split_by_deletes demo_scan_files (Some set) = (clean, deleted) ∧
    length clean = 1 ∧ length deleted = 1 ∧ clean ++ deleted.*1 ≡ₚ demo_scan_files.
Proof.
  assert (match load_from_object_store demo_open demo_get [demo_delete_file] with
          | Ok set => let r := split_by_deletes demo_scan_files (Some set) in (length r.1, length r.2)
          | Err _ => (0, 0) end = (1, 1)) as Hlen by (vm_compute; reflexivity).
  destruct (load_from_object_store demo_open demo_get [demo_delete_file]) as [set|e] eqn:Hl; [|discriminate].
  destruct (split_by_deletes demo_scan_files (Some set)) as [clean deleted] eqn:Hs.
  destruct (deletes_reach_their_files demo_open demo_get [demo_delete_file] _ clean set deleted Hl Hs) as (Hp & _).
  injection Hlen as Hc Hd. exists set, clean, deleted.
  split; [reflexivity|]. split; [exact Hs|]. split; [exact Hc|]. split; [exact Hd|exact Hp].
Defined.

Lemma delete_stream_exact_witness :
  stream_rows (delete_stream (λ rows mask, Ok (mask_filter rows mask)) {[1%Z; 2%Z]} 0 (map Ok [[10; 11]; [12]; [13; 14]]))
  = [10; 13; 14].
Proof.
  rewrite (proj2 (delete_stream_exact (λ rows mask, Ok (mask_filter rows mask)) (λ _ _ _, eq_refl) {[1%Z; 2%Z]}
             [[10; 11]; [12]; [13; 14]])).
  vm_compute. reflexivity.
Defined.

(** The single-node scan loads delete files below the table's own path although their keys
    already start with it: the object it asks for does not exist, while the loader of the
    distributed scan finds it. *)
Theorem single_node_delete_path_doubled :
  ∃ base, resolve S3 "b" (mkObjectLocation S3 (Some "b") "wh/t") = Ok base ∧
    delete_object_path base (key (df_path demo_delete_file)) = "wh/t/wh/t/data/d.parquet" ∧
    is_ok (load demo_open (λ p, map_err ObjectStore (demo_get p)) [demo_delete_file] base) = false ∧
    is_ok (load_from_object_store demo_open demo_get [demo_delete_file]) = true.
Proof. exists "wh/t". split_and!; vm_compute; reflexivity. Qed.
