(* ===== verification/Selection.v ===== *)
(** * Compaction file selection

    Models [teodb-distributed/src/selection.rs].  The comparison of a file's
    delete ratio with the threshold is floating-point and is an argument.
    Partition values are compared by value, so they are taken to hold no NaN.
    The groups are listed in the order their partitions are first met; the hash
    map of the source lists them in an unspecified order, which no statement
    below depends on. *)

From S2P Require Import Prelude Core Location DataFiles Sweep Deletes.
Open Scope nat_scope.
Open Scope list_scope.

Record SelectionConfig := mkSelectionConfig {
  target_file_bytes : N;
  min_files_per_compaction : nat;
  max_files_per_compaction : nat;
  max_bytes_per_compaction : N;
}.

Record PartitionKey := mkPartitionKey { pk_spec_id : Z; pk_values : gmap FieldId TeoScalar }.
#[export] Instance PartitionKey_eq_dec : EqDecision PartitionKey.
Proof. solve_decision. Defined.

Record CompactionGroup := mkCompactionGroup {
  cg_partition_spec_id : Z;
  cg_partition_values : gmap FieldId TeoScalar;
  cg_files : list DataFile;
  cg_delete_files : list DataFile;
  cg_base_snapshot_id : SnapshotId;
}.

Definition partition_key (f : DataFile) : PartitionKey := mkPartitionKey (df_partition_spec_id f) (df_partition_values f).

(** [map.entry(key).or_default().push(f)] over the files of one content kind. *)
Fixpoint push_group (k : PartitionKey) (f : DataFile) (groups : list (PartitionKey * list DataFile)) :
    list (PartitionKey * list DataFile) :=
  match groups with
  | [] => [(k, [f])]
  | (k', fs) :: groups => if decide (k = k') then (k', fs ++ [f]) :: groups else (k', fs) :: push_group k f groups
  end.
Definition group_files (content : DataContent) (files : list DataFile) : list (PartitionKey * list DataFile) :=
  foldl (λ groups f, if decide (df_content f ≠ content) then groups else push_group (partition_key f) f groups) [] files.
Fixpoint group_of (k : PartitionKey) (groups : list (PartitionKey * list DataFile)) : option (list DataFile) :=
  match groups with
  | [] => None
  | (k', fs) :: groups => if decide (k = k') then Some fs else group_of k groups
  end.

Section selection.
(** Whether [count / record_count] exceeds the configured threshold. *)
Context (exceeds_threshold : N → N → bool).
Context (config : SelectionConfig).

(** The counts are keyed by path; [entries] is the map as the loop visits it. *)
Definition delete_count_for_file (file : DataFile) (delete_counts : gmap string N) (entries : list (string * N)) : N :=
  let k := key (df_path file) in
  match delete_counts !! to_uri (df_path file) with
  | Some c => c
  | None =>
      match delete_counts !! k with
      | Some c => c
      | None =>
          default 0%N (snd ∘ snd <$> list_find (λ rc, bool_decide (rc.1 = to_uri (df_path file)) || path_matches rc.1 k = true) entries)
      end
  end.

Definition has_delete_pressure (delete_counts : gmap string N) (file : DataFile) : bool :=
  if (df_record_count file =? 0)%N then false
  else exceeds_threshold (delete_count_for_file file delete_counts (map_to_list delete_counts)) (df_record_count file).

(** [candidates.retain] with the running total. *)
Fixpoint retain_budget (total : N) (files : list DataFile) : list DataFile :=
  match files with
  | [] => []
  | f :: files =>
      let total := u64_saturating_add total (df_file_size_bytes f) in
      if (total <=? max_bytes_per_compaction config)%N then f :: retain_budget total files
      else retain_budget total files
  end.

Definition is_small (f : DataFile) : bool := (df_file_size_bytes f <? target_file_bytes config / 4)%N.
Definition is_mid (f : DataFile) : bool :=
  (target_file_bytes config / 4 <=? df_file_size_bytes f)%N && (df_file_size_bytes f <? target_file_bytes config / 2)%N.
Definition is_pressured (delete_counts : gmap string N) (f : DataFile) : bool :=
  (target_file_bytes config / 2 <=? df_file_size_bytes f)%N && has_delete_pressure delete_counts f.

Definition select_within_partition (files : list DataFile) (delete_counts : gmap string N) : list DataFile :=
  let small_files := List.filter is_small files in
  let mid_files := List.filter is_mid files in
  let pressured_files := List.filter (is_pressured delete_counts) files in
  let candidates := small_files
    ++ (if min_files_per_compaction config <=? length mid_files then mid_files else [])
    ++ pressured_files in
  let sorted := stable_sort (λ a b, (df_file_size_bytes a <=? df_file_size_bytes b)%N) candidates in
  let truncated := take (max_files_per_compaction config) sorted in
  if (0 <? max_bytes_per_compaction config)%N then retain_budget 0 truncated else truncated.

Definition select_compaction_candidates_with_delete_counts (data_files delete_files : list DataFile)
    (base_snapshot_id : SnapshotId) (delete_counts : gmap string N) : list CompactionGroup :=
  let deletes_by_partition := group_files PositionDelete delete_files in
  let partitions := group_files ContentData data_files in
  omap (λ kf,
    match select_within_partition kf.2 delete_counts with
    | [] => None
    | candidates =>
        Some (mkCompactionGroup (pk_spec_id kf.1) (pk_values kf.1) candidates
                (default [] (group_of kf.1 deletes_by_partition)) base_snapshot_id)
    end) partitions.
End selection.

(** ** Grouping *)
(** Each key once, and the files of a key in order. *)
Definition grouped (content : DataContent) (files : list DataFile) (groups : list (PartitionKey * list DataFile)) : Prop :=
  NoDup groups.*1 ∧
  ∀ k, default [] (group_of k groups) = List.filter (λ f, bool_decide (df_content f = content) && bool_decide (partition_key f = k)) files.

Lemma push_group_of k f groups k' :
  group_of k' (push_group k f groups)
  = if decide (k = k') then Some (default [] (group_of k groups) ++ [f]) else group_of k' groups.
Proof.
  induction groups as [|[k0 fs] groups IH]; simpl; [by repeat case_decide; subst|].
  destruct (decide (k = k0)) as [->|Hne]; simpl.
  - by destruct (decide (k' = k0)) as [->|Hne]; [rewrite decide_True by done|rewrite decide_False by done].
  - destruct (decide (k' = k0)) as [->|Hne']; [by rewrite decide_False by done|]. apply IH.
Qed.

Lemma push_group_keys k f groups : (push_group k f groups).*1 = if decide (k ∈ groups.*1) then groups.*1 else groups.*1 ++ [k].
Proof.
  induction groups as [|[k' fs] groups IH]; [done|]. cbn [push_group]. rewrite fmap_cons. cbn [fst].
  destruct (decide (k = k')) as [->|Hne]; rewrite fmap_cons; cbn [fst].
  - by rewrite decide_True by (by left).
  - rewrite IH. destruct (decide (k ∈ groups.*1)) as [Hin|Hin].
    + by rewrite decide_True by (by right).
    + rewrite decide_False by (by apply not_elem_of_cons). done.
Qed.

Lemma group_files_spec content files : grouped content files (group_files content files).
Proof.
  unfold group_files. assert (∀ done groups, grouped content done groups →
    grouped content (done ++ files) (foldl (λ groups f, if decide (df_content f ≠ content) then groups
       else push_group (partition_key f) f groups) groups files)) as Hfold.
  { induction files as [|f files IH]; intros dn groups Hg; simpl; [by rewrite app_nil_r|].
    replace (dn ++ f :: files) with ((dn ++ [f]) ++ files) by (by rewrite <-app_assoc). apply IH.
    destruct Hg as [Hnd Hgr]. case_decide as Hc.
    - split; [done|]. intros k. rewrite Hgr, List.filter_app. simpl. rewrite bool_decide_false by done. by rewrite app_nil_r.
    - split.
      + rewrite push_group_keys. case_decide as Hin; [done|]. apply NoDup_app. split_and!; [done| |apply NoDup_singleton].
        intros x Hx ->%list_elem_of_singleton. done.
      + intros k. rewrite push_group_of, List.filter_app, <-Hgr. simpl. rewrite (bool_decide_true (df_content f = content)) by done.
        destruct (decide (partition_key f = k)) as [->|Hne].
        * rewrite bool_decide_true by done. done.
        * rewrite bool_decide_false by done. by rewrite app_nil_r. }
  apply (Hfold [] []). split; [constructor|done].
Qed.

(** ** Selection *)
Definition total_bytes (files : list DataFile) : N := foldr (λ f n, (df_file_size_bytes f + n)%N) 0%N files.

Section sound.
Context (exceeds_threshold : N → N → bool) (config : SelectionConfig).

Lemma retain_budget_sublist total files : retain_budget config total files `sublist_of` files.
Proof.
  revert total. induction files as [|f files IH]; intros total; simpl; [constructor|].
  case_match; by constructor.
Qed.

Lemma retain_budget_over total files :
  (max_bytes_per_compaction config < u64_max)%N → (max_bytes_per_compaction config < total)%N →
  retain_budget config total files = [].
Proof.
  revert total. induction files as [|f files IH]; intros total Hm Ht; simpl; [done|].
  rewrite (proj2 (N.leb_gt _ _)) by (unfold u64_saturating_add; lia).
  apply IH; [done|]. unfold u64_saturating_add. lia.
Qed.

Lemma retain_budget_total total files :
  (max_bytes_per_compaction config < u64_max)%N → (total ≤ max_bytes_per_compaction config)%N →
  (total + total_bytes (retain_budget config total files) ≤ max_bytes_per_compaction config)%N.
Proof.
  revert total. induction files as [|f files IH]; intros total Hm Ht; simpl; [lia|].
  destruct (N.leb_spec (u64_saturating_add total (df_file_size_bytes f)) (max_bytes_per_compaction config)) as [Hle|Hgt].
  - simpl. specialize (IH _ Hm Hle). unfold u64_saturating_add in *. lia.
  - rewrite retain_budget_over by done. simpl. lia.
Qed.

Lemma NoDup_filter' {A} (f : A → bool) l : NoDup l → NoDup (List.filter f l).
Proof.
  induction 1 as [|x l Hx _ IH]; simpl; [constructor|]. destruct (f x); [|done]. constructor; [|done].
  intros Hin%list_elem_of_In. apply filter_In in Hin as [Hin _]. by apply Hx, list_elem_of_In.
Qed.

Lemma filter_elem {A} (f : A → bool) l x : x ∈ List.filter f l ↔ x ∈ l ∧ f x = true.
Proof. by rewrite !list_elem_of_In, filter_In. Qed.

Lemma StronglySorted_sublist {A} (R : A → A → Prop) l k : l `sublist_of` k → StronglySorted R k → StronglySorted R l.
Proof.
  induction 1 as [|y l k Hs IH|y l k _ IH]; [done|..]; intros [Hk Hy]%StronglySorted_inv; [|auto].
  constructor; [auto|]. rewrite Forall_forall in Hy |- *. intros z Hz. apply Hy. by eapply elem_of_sublist.
Qed.

Lemma quarter_half n : (n / 4 ≤ n / 2)%N.
Proof. apply N.div_le_lower_bound; [done|]. pose proof (N.Div0.mul_div_le n 4). lia. Qed.

(** The three size classes are disjoint. *)
Lemma candidates_NoDup files counts (mids : list DataFile) :
  NoDup files → (mids = List.filter (is_mid config) files ∨ mids = []) →
  NoDup (List.filter (is_small config) files ++ mids
         ++ List.filter (is_pressured exceeds_threshold config counts) files).
Proof.
  intros Hnd Hm. pose proof (quarter_half (target_file_bytes config)) as Hq.
  assert (∀ f, f ∈ mids → is_mid config f = true) as Hmid.
  { intros f Hf. destruct Hm as [->| ->]; [by apply filter_elem in Hf as [_ ?]|by apply elem_of_nil in Hf]. }
  assert (NoDup mids) by (destruct Hm as [->| ->]; [by apply NoDup_filter'|constructor]).
  apply NoDup_app. split_and!; [by apply NoDup_filter'| |].
  - intros f [_ Hs%N.ltb_lt]%filter_elem [Hf|[_ Hp]%filter_elem]%elem_of_app.
    + apply Hmid in Hf. unfold is_mid in Hf. inv_checks. lia.
    + unfold is_pressured in Hp. inv_checks. lia.
  - apply NoDup_app. split_and!; [done| |by apply NoDup_filter'].
    intros f Hf%Hmid [_ Hp]%filter_elem. unfold is_mid, is_pressured in *. inv_checks. lia.
Qed.

Lemma select_within_spec files counts selected :
  selected = select_within_partition exceeds_threshold config files counts →
  (∀ f, f ∈ selected → f ∈ files ∧
     ((df_file_size_bytes f < target_file_bytes config / 2)%N ∨ has_delete_pressure exceeds_threshold counts f = true)) ∧
  length selected ≤ max_files_per_compaction config ∧
  ((0 < max_bytes_per_compaction config < u64_max)%N → (total_bytes selected ≤ max_bytes_per_compaction config)%N) ∧
  (NoDup files → NoDup selected) ∧
  StronglySorted (λ a b, (df_file_size_bytes a <=? df_file_size_bytes b)%N = true) selected.
Proof.
  unfold select_within_partition.
  set (cands := _ ++ _ ++ _). set (srt := stable_sort _ cands). set (tr := take _ srt). intros ->.
  assert (srt ≡ₚ cands) as Hperm by apply stable_sort_perm.
  assert (tr `sublist_of` srt) as Htr by apply sublist_take.
  assert (∀ sel, sel `sublist_of` tr →
    (∀ f, f ∈ sel → f ∈ files ∧ ((df_file_size_bytes f < target_file_bytes config / 2)%N ∨
        has_delete_pressure exceeds_threshold counts f = true)) ∧
    length sel ≤ max_files_per_compaction config ∧ (NoDup files → NoDup sel) ∧
    StronglySorted (λ a b, (df_file_size_bytes a <=? df_file_size_bytes b)%N = true) sel) as Hall.
  { intros sel Hsub. assert (sel `sublist_of` srt) as Hsub' by (by etransitivity). split_and!.
    - intros f Hsel. assert (f ∈ srt) as Hf by (by eapply elem_of_sublist). rewrite Hperm in Hf. unfold cands in Hf. rewrite !elem_of_app in Hf. destruct Hf as [Hf|[Hf|Hf]].
      + apply filter_elem in Hf as [? Hs%N.ltb_lt]. split; [done|left].
        pose proof (quarter_half (target_file_bytes config)). lia.
      + destruct (_ <=? _); [|by apply elem_of_nil in Hf]. apply filter_elem in Hf as [? Hm]. unfold is_mid in Hm. inv_checks. auto.
      + apply filter_elem in Hf as [? Hp]. unfold is_pressured in Hp. inv_checks. auto.
    - etransitivity; [exact (sublist_length _ _ Hsub)|]. unfold tr. rewrite length_take. lia.
    - intros Hnd. apply (sublist_NoDup sel srt); [|done]. rewrite Hperm. apply candidates_NoDup; [done|]. destruct (_ <=? _); auto.
    - apply (StronglySorted_sublist _ sel srt Hsub'). apply stable_sort_sorted; intros; rewrite !N.leb_le in *; lia. }
  destruct (N.ltb_spec 0 (max_bytes_per_compaction config)).
  - destruct (Hall (retain_budget config 0 tr) (retain_budget_sublist _ _)) as (? & ? & ? & ?).
    split_and!; [done..| |done|done]. intros [_ Hlt]. by apply (retain_budget_total 0 tr Hlt), N.lt_le_incl.
  - destruct (Hall tr ltac:(reflexivity)) as (? & ? & ? & ?). split_and!; [done..| |done|done]. lia.
Qed.

Definition group_key (g : CompactionGroup) : PartitionKey := mkPartitionKey (cg_partition_spec_id g) (cg_partition_values g).

Lemma group_of_elem k fs groups : NoDup groups.*1 → (k, fs) ∈ groups → group_of k groups = Some fs.
Proof.
  induction groups as [|[k' fs'] groups IH]; intros Hnd Hin; [by apply elem_of_nil in Hin|].
  rewrite fmap_cons in Hnd. cbn [fst] in Hnd. apply NoDup_cons in Hnd as [Hk Hnd]. simpl.
  apply elem_of_cons in Hin as [Heq|Hin]; [injection Heq as -> ->; by rewrite decide_True|].
  rewrite decide_False; [by apply IH|]. intros ->. apply Hk. apply list_elem_of_fmap. by exists (k', fs).
Qed.

(** Compaction selects within bounds and within one partition: every group is a non-empty list
    of live data files of one partition, each below half the target size or under delete
    pressure, smallest first, no file twice, at most the configured count and bytes; it
    carries exactly the position-delete files of its partition, and no two groups share a
    partition. *)
Theorem selection_sound (data_files delete_files : list DataFile) (base : SnapshotId) (counts : gmap string N) :
  let groups := select_compaction_candidates_with_delete_counts exceeds_threshold config data_files delete_files base counts in
  NoDup (map group_key groups) ∧
  Forall (λ g,
    cg_files g ≠ [] ∧ cg_base_snapshot_id g = base ∧
    Forall (λ f, f ∈ data_files ∧ df_content f = ContentData ∧ partition_key f = group_key g ∧
                 ((df_file_size_bytes f < target_file_bytes config / 2)%N ∨
                  has_delete_pressure exceeds_threshold counts f = true)) (cg_files g) ∧
    StronglySorted (λ a b, (df_file_size_bytes a <=? df_file_size_bytes b)%N = true) (cg_files g) ∧
    (NoDup data_files → NoDup (cg_files g)) ∧
    length (cg_files g) ≤ max_files_per_compaction config ∧
    ((0 < max_bytes_per_compaction config < u64_max)%N → (total_bytes (cg_files g) ≤ max_bytes_per_compaction config)%N) ∧
    cg_delete_files g
      = List.filter (λ d, bool_decide (df_content d = PositionDelete) && bool_decide (partition_key d = group_key g)) delete_files)
    groups.
Proof.
  intros groups. unfold groups, select_compaction_candidates_with_delete_counts.
  destruct (group_files_spec ContentData data_files) as [Hnd Hgr].
  destruct (group_files_spec PositionDelete delete_files) as [_ Hdel].
  set (parts := group_files ContentData data_files) in *.
  assert (∀ k fs, (k, fs) ∈ parts →
    fs = List.filter (λ f, bool_decide (df_content f = ContentData) && bool_decide (partition_key f = k)) data_files) as Hfs.
  { intros k fs Hin. rewrite <-Hgr. by rewrite (group_of_elem k fs parts Hnd Hin). }
  split.
  - clear -Hnd. induction parts as [|[k fs] parts IH]; [constructor|]. rewrite fmap_cons in Hnd. cbn [fst] in Hnd.
    apply NoDup_cons in Hnd as [Hk Hnd]. cbn [omap list_omap fst snd].
    destruct (select_within_partition _ _ fs counts); [auto|]. cbn [map]. constructor; [|auto].
    intros Hin. apply Hk. apply list_elem_of_In, in_map_iff in Hin as (g & Hg & Hin).
    apply list_elem_of_In, list_elem_of_omap in Hin as ([k' fs'] & Hin & Hsel). simpl in *.
    destruct (select_within_partition _ _ fs' counts); [done|]. injection Hsel as <-.
    apply list_elem_of_fmap. exists (k', fs'). split; [|done]. destruct k, k'. symmetry. exact Hg.
  - apply Forall_forall. intros g ([k fs] & Hin & Hg)%list_elem_of_omap. simpl in Hg.
    destruct (select_within_partition exceeds_threshold config fs counts) as [|f0 sel] eqn:Hs; [done|].
    injection Hg as <-. cbn [cg_files cg_base_snapshot_id cg_delete_files].
    destruct (select_within_spec fs counts _ (eq_sym Hs)) as (H1 & H2 & H3 & H4 & H5).
    specialize (Hfs k fs Hin). destruct k as [sid vals]. unfold group_key. cbn [cg_partition_spec_id cg_partition_values pk_spec_id pk_values].
    split_and!; [done|done| |done| |done|done|apply Hdel].
    + apply Forall_forall. intros f Hf. destruct (H1 f Hf) as [Hff Hor]. rewrite Hfs in Hff.
      apply filter_elem in Hff as [? Hc]. inv_checks. done.
    + intros Hnd'. apply H4. rewrite Hfs. by apply NoDup_filter'.
Qed.

(** A single small file is a group of its own, so every cycle rewrites it into another
    single small file. *)
Theorem lone_small_file_selected (f : DataFile) (base : SnapshotId)
    (Hsmall : (df_file_size_bytes f < target_file_bytes config / 4)%N) (Hdata : df_content f = ContentData)
    (Hmax : 0 < max_files_per_compaction config) (Hbytes : max_bytes_per_compaction config = 0%N) :
  map cg_files (select_compaction_candidates_with_delete_counts exceeds_threshold config [f] [] base ∅) = [[f]].
Proof.
  pose proof (quarter_half (target_file_bytes config)).
  unfold select_compaction_candidates_with_delete_counts, group_files. cbn [foldl]. rewrite decide_False by tauto.
  cbn [push_group omap list_omap snd]. unfold select_within_partition, is_small, is_mid, is_pressured. cbn [List.filter].
  rewrite (proj2 (N.ltb_lt _ _) Hsmall), (proj2 (N.leb_gt (_ / 4) _)) by done.
  rewrite (proj2 (N.leb_gt (_ / 2) _)) by lia. cbn [andb app length].
  destruct (min_files_per_compaction config <=? 0); cbn [app stable_sort foldr sort_insert];
    destruct (max_files_per_compaction config) as [|m]; try lia; cbn [take]; rewrite take_nil, Hbytes; done.
Qed.
End sound.
