(* ===== verification/Compaction.v ===== *)
(** * Compaction

    Models [teodb-distributed/src/compactor/runner.rs] and [execution.rs], the
    position-delete reader of [teodb-storage/src/parquet/delete.rs], the metadata
    lookups of [teodb-core/src/file.rs] and the replace commit of
    [teodb-catalog/src/adapter/commit.rs].  The scan, sort and Parquet write of
    a run are one reply of the environment, checked afterwards by the row count. *)

From S2P Require Import Prelude Core Location DataFiles Schema Catalog Manifests Sweep Deletes Selection.
Open Scope nat_scope.
Open Scope list_scope.

Abbreviation Metadata := (TableMetadata SchemaDefinition PartitionSpec SortOrder).

(** ** Lookups *)
Definition find_or {A} (P : A → bool) (l : list A) (message : string) : TeoDBResult A :=
  ok_or (snd <$> list_find (λ x, P x = true) l) (Internal message).
Definition current_schema (m : Metadata) : TeoDBResult SchemaDefinition :=
  find_or (λ s, sd_schema_id s =? tm_current_schema_id m)%Z (tm_schemas m) "current_schema_id {} not found in schemas list".
Definition current_partition_spec (m : Metadata) : TeoDBResult PartitionSpec :=
  find_or (λ s, ps_spec_id s =? tm_current_partition_spec_id m)%Z (tm_partition_specs m)
    "current_partition_spec_id {} not found in partition_specs list".
Definition current_sort_order (m : Metadata) : TeoDBResult SortOrder :=
  find_or (λ s, so_order_id s =? tm_current_sort_order_id m)%Z (tm_sort_orders m)
    "current_sort_order_id {} not found in sort_orders list".

(** ** Position deletes of the inputs *)
(** A data file named by a recorded path: by key, by URI, or by a URI that ends in the key. *)
Definition input_matches (recorded_path : string) (input : DataFile) : bool :=
  let k := key (df_path input) in
  bool_decide (recorded_path = k) || bool_decide (recorded_path = to_uri (df_path input)) ||
  match str_strip_suffix k recorded_path with Some prefix => str_ends_with "/" prefix | None => false end.
Definition find_input_for_path (inputs : list DataFile) (recorded_path : string) : option DataFile :=
  snd <$> list_find (λ i, input_matches recorded_path i = true) inputs.

Abbreviation PositionDeleteMap := (gmap string (gset Z)).
(** The first two columns of a batch and its row count; null entries are skipped. *)
Definition read_delete_row (file_paths : list (option string)) (positions : list (option Z))
    (m : PositionDeleteMap) (i : nat) : PositionDeleteMap :=
  match file_paths !! i, positions !! i with
  | Some (Some path), Some (Some pos) => insert_delete m path pos
  | _, _ => m
  end.
Definition read_delete_batch (m : PositionDeleteMap) (batch : result string (DeleteColumn * DeleteColumn * nat)) :
    TeoDBResult PositionDeleteMap :=
  '(c0, c1, num_rows) ← map_err (λ _, Parquet "delete batch: {e}") batch;
  match c0 with
  | StringArray file_paths =>
      match c1 with
      | Int64Array positions => Ok (foldl (read_delete_row file_paths positions) m (seq 0 num_rows))
      | _ => Err (Parquet "column 1 not Int64Array")
      end
  | _ => Err (Parquet "column 0 not StringArray")
  end.
Definition read_position_deletes (reader : result string (list (result string (DeleteColumn * DeleteColumn * nat)))) :
    TeoDBResult PositionDeleteMap :=
  batches ← map_err (λ _, Parquet "delete file reader: {e}") reader;
  foldM read_delete_batch ∅ batches.

(** Positions within the file's rows. *)
Definition valid_positions (input : DataFile) (deleted : gset Z) : N :=
  N.of_nat (length (List.filter (λ p, (0 <=? p)%Z && (p <? Z.of_N (df_record_count input))%Z) (elements deleted))).

Section runner.
(** Reading a delete file: resolve its location, fetch it, decode it. *)
Context (read_deletes : DataFile → TeoDBResult PositionDeleteMap).

Definition count_entry (data_files : list DataFile) (counts : gmap string N) (entry : string * gset Z) : gmap string N :=
  match find_input_for_path data_files entry.1 with
  | Some input =>
      let valid := valid_positions input entry.2 in
      if (0 <? valid)%N
      then <[to_uri (df_path input) := (default 0 (counts !! to_uri (df_path input)) + valid)%N]> counts
      else counts
  | None => counts
  end.
Definition count_position_deletes (delete_files data_files : list DataFile) : TeoDBResult (gmap string N) :=
  foldM (λ counts d, positions ← read_deletes d; Ok (foldl (count_entry data_files) counts (map_to_list positions)))
    ∅ (position_deletes delete_files).

Record CompactionPlan := mkCompactionPlan {
  cp_table : TableIdent; cp_base_snapshot_id : SnapshotId; cp_partition_spec_id : Z;
  cp_partition_values : gmap FieldId TeoScalar; cp_inputs : list DataFile; cp_deletes : list DataFile;
  cp_output_target_bytes : N }.

Definition from_group (group : CompactionGroup) (table : TableIdent) (target_bytes : N) : CompactionPlan :=
  mkCompactionPlan table (cg_base_snapshot_id group) (cg_partition_spec_id group) (cg_partition_values group)
    (cg_files group) (cg_delete_files group) target_bytes.

Record DeleteResolution := mkDeleteResolution { dr_deleted_rows : N; dr_resolved_deletes : list ObjectLocation }.

(** One recorded path of a delete file: rows counted, and whether it names an input. *)
Definition resolve_entry (inputs : list DataFile) (acc : N * bool) (entry : string * gset Z) : N * bool :=
  match find_input_for_path inputs entry.1 with
  | Some input => ((acc.1 + valid_positions input entry.2)%N, acc.2)
  | None => (acc.1, false)
  end.
Definition resolve_file (inputs : list DataFile) (acc : DeleteResolution) (delete_file : DataFile) :
    TeoDBResult DeleteResolution :=
  positions ← read_deletes delete_file;
  let '(deleted_rows, references_only_inputs) :=
    foldl (resolve_entry inputs) (dr_deleted_rows acc, negb (bool_decide (positions = ∅))) (map_to_list positions) in
  Ok (mkDeleteResolution deleted_rows
        (if references_only_inputs : bool then dr_resolved_deletes acc ++ [df_path delete_file] else dr_resolved_deletes acc)).
Definition resolve_input_deletes (plan : CompactionPlan) : TeoDBResult DeleteResolution :=
  foldM (resolve_file (cp_inputs plan)) (mkDeleteResolution 0 []) (position_deletes (cp_deletes plan)).

Definition sum_rows (files : list DataFile) : N := foldr (λ f n, (df_record_count f + n)%N) 0%N files.

Definition verify_row_conservation (plan : CompactionPlan) (data_files : list DataFile) (deleted_rows : N) : TeoDBResult unit :=
  let output_rows := sum_rows data_files in
  let input_rows := sum_rows (cp_inputs plan) in
  let expected_rows := u64_saturating_sub input_rows deleted_rows in
  if (output_rows =? expected_rows)%N then Ok tt
  else Err (Internal "compaction aborted for {}: output has {output_rows} rows but expected {expected_rows}").

Record CompactionWrite := mkCompactionWrite { cw_data_files : list DataFile; cw_resolved_deletes : list ObjectLocation }.

(** [write]: opening the session and the scan, sorting and writing the output. *)
Definition read_sort_write (plan : CompactionPlan) (metadata : Metadata) (write : TeoDBResult (list DataFile)) :
    TeoDBResult CompactionWrite :=
  _ ← current_sort_order metadata;
  _ ← current_schema metadata;
  res ← resolve_input_deletes plan;
  _ ← find_or (λ s, ps_spec_id s =? cp_partition_spec_id plan)%Z (tm_partition_specs metadata)
        "partition spec {} not found in table metadata for {}";
  data_files ← write;
  _ ← verify_row_conservation plan data_files (dr_deleted_rows res);
  Ok (mkCompactionWrite data_files (dr_resolved_deletes res)).

(** ** The replace request *)
Record CommitReplace := mkCommitReplace {
  cr_table : TableIdent; cr_base_snapshot_id : SnapshotId; cr_removed_data_files : list string;
  cr_added_data_files : list DataFile; cr_properties : gmap string string }.

Inductive CompactionOutcome :=
| Committed (added : list DataFile) (removed : list ObjectLocation)
| ConflictAbandoned (orphan_files : list ObjectLocation)
| NoChange.

(** The outcome, and the request that was sent to the catalog, if any. *)
Definition compact (plan : CompactionPlan) (load_table : TeoDBResult Metadata) (load_live_files : TeoDBResult (list DataFile))
    (write : TeoDBResult (list DataFile)) (commit : CommitReplace → TeoDBResult unit) :
    option CommitReplace * TeoDBResult CompactionOutcome :=
  match (table_metadata ← load_table; live_files ← load_live_files; with_live_files table_metadata live_files) with
  | Err e => (None, Err e)
  | Ok metadata =>
      if negb (bool_decide (tm_current_snapshot_id metadata = Some (cp_base_snapshot_id plan))) then (None, Ok NoChange)
      else if length (cp_inputs plan) =? 0 then (None, Ok NoChange)
      else
        match read_sort_write plan metadata write with
        | Err e => (None, Err e)
        | Ok w =>
            let removed := map df_path (cp_inputs plan) ++ cw_resolved_deletes w in
            let request := mkCommitReplace (cp_table plan) (cp_base_snapshot_id plan) (map to_uri removed)
                             (cw_data_files w) {[ "teodb.op" := "compaction" ]} in
            (Some request,
             match commit request with
             | Ok _ => Ok (Committed (cw_data_files w) removed)
             | Err (Conflict _ _ _) => Ok (ConflictAbandoned (map df_path (cw_data_files w)))
             | Err e => Err e
             end)
        end
  end.
End runner.

(** ** The replace commit *)
Section replace.
Context {IceFile : Type} (teodb_data_file_to_iceberg : DataFile → TeoDBResult IceFile).
Context (paths_to_json : list string → string).

Record ReplaceTx := mkReplaceTx { rt_files : list IceFile; rt_properties : gmap string string }.

(** The transaction built on the loaded table. *)
Definition build_replace (req : CommitReplace) (table : IceMeta) : TeoDBResult ReplaceTx :=
  if bool_decide (im_current table ≠ Some (cr_base_snapshot_id req))
  then Err (Conflict "table {}" "{base_snapshot_id}" "{actual_snap}")
  else
    let props := <[REMOVED_DATA_FILES_PROP := paths_to_json (cr_removed_data_files req)]> (cr_properties req) in
    added ← convert_data_files teodb_data_file_to_iceberg (cr_table req) table (cr_added_data_files req);
    Ok (mkReplaceTx added props).

(** [Transaction::commit] without a guard: reload, update, again on a lost race. *)
Fixpoint run_unguarded (exhausted : IceError) (attempts : list (result IceError IceMeta * UpdateReply)) : result IceError IceMeta :=
  match attempts with
  | [] => Err exhausted
  | (Err e, _) :: _ => Err e
  | (Ok _, UpdateOk m) :: _ => Ok m
  | (Ok _, UpdateErr e) :: _ => Err e
  | (Ok _, UpdateRetry) :: attempts => run_unguarded exhausted attempts
  end.

Definition try_commit_replace (req : CommitReplace) (bootstrap : result IceError IceMeta) (exhausted : IceError)
    (attempts : list (result IceError IceMeta * UpdateReply)) : TeoDBResult IceMeta :=
  table ← map_err map_iceberg_error bootstrap;
  _ ← build_replace req table;
  map_err map_iceberg_error (run_unguarded exhausted attempts).

(** [commit_replace_with_retry]: plain catalog errors are retried while the backoff lasts. *)
Fixpoint commit_replace_with_retry (req : CommitReplace)
    (tries : list (result IceError IceMeta * IceError * list (result IceError IceMeta * UpdateReply))) (last : TeoDBError) : TeoDBResult IceMeta :=
  match tries with
  | [] => Err last
  | (bootstrap, exhausted, attempts) :: tries =>
      match try_commit_replace req bootstrap exhausted attempts with
      | Ok m => Ok m
      | Err e => if is_retryable_replace e then commit_replace_with_retry req tries e else Err e
      end
  end.
End replace.
