(* ===== verification/CompactionSpec.v ===== *)
(** * Compaction keeps the table's rows

    The rows a table shows are the rows of its live data files at positions no
    live delete file records.  A committed compaction leaves them as they were;
    the last section shows which assumptions of the commit path do not hold. *)

From S2P Require Import Prelude Core Location DataFiles Schema Catalog Manifests Sweep Deletes Selection Compaction.
Open Scope nat_scope.
Open Scope list_scope.

(** The compactor and the scan agree on which file a recorded path names. *)
Lemma uri_prefix_slash sch b : str_ends_with "/" (uri_prefix sch b) = true.
Proof.
  unfold str_ends_with. destruct sch; cbn [uri_prefix]; rewrite ?str_app_assoc, ?str_strip_suffix_app; done.
Qed.

Lemma input_matches_path recorded f : input_matches recorded f = path_matches recorded (key (df_path f)).
Proof.
  unfold input_matches, path_matches. destruct (bool_decide (recorded = key (df_path f))); [done|]. simpl.
  case_bool_decide as Hu; [|done]. subst recorded. unfold to_uri. rewrite str_strip_suffix_app. simpl.
  symmetry. apply uri_prefix_slash.
Qed.

Lemma find_input_Some inputs recorded f :
  find_input_for_path inputs recorded = Some f → f ∈ inputs ∧ path_matches recorded (key (df_path f)) = true.
Proof.
  unfold find_input_for_path. intros ([i g] & (Hl & Hm & _)%list_find_Some & ->)%fmap_Some. simpl in *.
  split; [by eapply list_elem_of_lookup_2|]. by rewrite <-input_matches_path.
Qed.

(** ** Resolved delete files *)
Section resolution.
Context (read_deletes : DataFile → TeoDBResult PositionDeleteMap).

Lemma resolve_entries_only inputs entries acc :
  (foldl (resolve_entry inputs) acc entries).2 = true →
  acc.2 = true ∧ ∀ path ps, (path, ps) ∈ entries → is_Some (find_input_for_path inputs path).
Proof.
  revert acc. induction entries as [|[path ps] entries IH]; intros acc; simpl.
  { intros ?. split; [done|]. intros path ps Hin. by apply elem_of_nil in Hin. }
  intros [Hacc Hrest]%IH. unfold resolve_entry in Hacc. simpl in Hacc.
  destruct (find_input_for_path inputs path) as [i|] eqn:Hf; [|done].
  split; [done|]. intros path' ps' [Heq|?]%elem_of_cons; [injection Heq as -> ->; eauto|eauto].
Qed.

(** A resolved delete file was read, and every path it records names an input. *)
Definition resolved_by (inputs : list DataFile) (d : DataFile) : Prop :=
  ∃ m, read_deletes d = Ok m ∧ ∀ path ps, m !! path = Some ps → is_Some (find_input_for_path inputs path).

Lemma resolve_input_deletes_spec plan res :
  resolve_input_deletes read_deletes plan = Ok res →
  ∀ loc, loc ∈ dr_resolved_deletes res →
    ∃ d, d ∈ position_deletes (cp_deletes plan) ∧ df_path d = loc ∧ resolved_by (cp_inputs plan) d.
Proof.
  unfold resolve_input_deletes. set (inputs := cp_inputs plan).
  assert (∀ files acc, foldM (resolve_file read_deletes inputs) acc files = Ok res →
    ∀ loc, loc ∈ dr_resolved_deletes res → loc ∈ dr_resolved_deletes acc ∨
      ∃ d, d ∈ files ∧ df_path d = loc ∧ resolved_by inputs d) as Hfold.
  { induction files as [|d files IH]; intros acc; simpl; [intros [= <-]; tauto|].
    intros (acc1 & H1 & H2)%bind_Ok loc Hloc.
    destruct (IH acc1 H2 loc Hloc) as [Hin|(d' & ? & ?)]; [|right; exists d'; split; [by right|done]].
    apply bind_Ok in H1 as (m & Hm & H1).
    destruct (foldl (resolve_entry inputs) _ _) as [n only] eqn:Hfold. injection H1 as <-. simpl in Hin.
    destruct only; [|by left]. apply elem_of_app in Hin as [?|Hin]; [by left|right].
    apply list_elem_of_singleton in Hin. exists d. split; [by left|]. split; [done|]. exists m. split; [done|].
    intros path ps Hp. pose proof (resolve_entries_only inputs (map_to_list m) _ ltac:(by rewrite Hfold)) as [_ Hall].
    eapply Hall. by apply elem_of_map_to_list. }
  intros Hf loc Hloc. destruct (Hfold _ _ Hf loc Hloc) as [Hin|?]; [by apply elem_of_nil in Hin|done].
Qed.
End resolution.

(** ** Visible rows *)
Section visible.
Context {R : Type} (rows : DataFile → list R) (entries : DataFile → list (string * Z)).

Definition deleted_positions (deletes : list DataFile) (f : DataFile) : gset Z :=
  list_to_set (map snd (List.filter (λ e, path_matches e.1 (key (df_path f))) (flat_map entries deletes))).
Definition visible (data deletes : list DataFile) : list R :=
  flat_map (λ f, live_rows (deleted_positions deletes f) 0 (rows f)) data.

Lemma deleted_positions_elem deletes f pos :
  pos ∈ deleted_positions deletes f ↔
  ∃ d path, d ∈ deletes ∧ (path, pos) ∈ entries d ∧ path_matches path (key (df_path f)) = true.
Proof.
  unfold deleted_positions. rewrite elem_of_list_to_set, list_elem_of_In, in_map_iff. split.
  - intros ([path p] & <- & [Hin Hm]%filter_In). apply in_flat_map in Hin as (d & Hd & Hin).
    exists d, path. rewrite !list_elem_of_In. done.
  - intros (d & path & Hd & Hin & Hm). exists (path, pos). split; [done|]. apply filter_In. split; [|done].
    apply in_flat_map. exists d. by rewrite <-!list_elem_of_In.
Qed.

Lemma visible_app d1 d2 deletes : visible (d1 ++ d2) deletes = visible d1 deletes ++ visible d2 deletes.
Proof. apply flat_map_app. Qed.

Lemma visible_perm d1 d2 deletes : d1 ≡ₚ d2 → visible d1 deletes ≡ₚ visible d2 deletes.
Proof. intros Hp. unfold visible. by rewrite Hp. Qed.

Lemma visible_deletes data deletes deletes' :
  (∀ f d path pos, f ∈ data → path_matches path (key (df_path f)) = true → (path, pos) ∈ entries d →
     d ∈ deletes ↔ d ∈ deletes') → visible data deletes = visible data deletes'.
Proof.
  intros Hsame. unfold visible. induction data as [|f data IH]; simpl; [done|]. f_equal.
  - f_equal. apply set_eq. intros pos. rewrite !deleted_positions_elem.
    split; intros (d & path & Hd & He & Hm); exists d, path; (split; [|done]);
      apply (Hsame f d path pos ltac:(by left) Hm He); done.
  - apply IH. intros; eapply Hsame; [by right|done..].
Qed.

Lemma visible_none data deletes :
  (∀ f d path pos, f ∈ data → d ∈ deletes → (path, pos) ∈ entries d → path_matches path (key (df_path f)) = false) →
  visible data deletes = flat_map rows data.
Proof.
  intros Hnone. unfold visible. induction data as [|f data IH]; simpl; [done|]. f_equal.
  - apply live_rows_none. intros p (d & path & Hd & He & Hm)%deleted_positions_elem. exfalso.
    by rewrite (Hnone f d path p ltac:(by left) Hd He) in Hm.
  - apply IH. intros; eapply Hnone; [by right|done..].
Qed.
End visible.

(** Splitting a list by membership in a part of it. *)
Lemma filter_out_perm (files inputs : list DataFile) :
  NoDup files → NoDup inputs → inputs ⊆ files →
  files ≡ₚ inputs ++ List.filter (λ f, negb (bool_decide (f ∈ inputs))) files.
Proof.
  intros Hf Hi Hsub. apply NoDup_Permutation; [done| |].
  - apply NoDup_app. split_and!; [done| |by apply NoDup_filter'].
    intros f Hin [_ Hn]%filter_elem. inv_checks. done.
  - intros f. rewrite elem_of_app, filter_elem. split.
    + intros Hin. destruct (decide (f ∈ inputs)); [by left|right]. split; [done|]. by rewrite bool_decide_false.
    + intros [?|[? _]]; [by apply Hsub|done].
Qed.

(** ** A committed compaction *)
Section committed.
Context {R : Type} (rows : DataFile → list R) (entries : DataFile → list (string * Z)).
Context (read_deletes : DataFile → TeoDBResult PositionDeleteMap).

Definition data_of (live : list DataFile) : list DataFile := List.filter (λ f, bool_decide (df_content f = ContentData)) live.
(** The files the commit leaves. *)
Definition remaining (removed : list string) (files : list DataFile) : list DataFile :=
  List.filter (λ f, negb (bool_decide (to_uri (df_path f) ∈ removed))) files.

(** What a plan is made of: inputs among the live data files, and all the delete files that
    record one of them; a recorded path names one data file. *)
Record plan_ok (plan : CompactionPlan) (live : list DataFile) : Prop := {
  po_paths : NoDup (map (to_uri ∘ df_path) live);
  po_inputs : cp_inputs plan ⊆ data_of live;
  po_nodup : NoDup (cp_inputs plan);
  po_deletes : cp_deletes plan ⊆ live;
  po_content : Forall (λ d, df_content d = PositionDelete) (cp_deletes plan);
  po_covers d path pos i : d ∈ position_deletes live → (path, pos) ∈ entries d → i ∈ cp_inputs plan →
    path_matches path (key (df_path i)) = true → d ∈ cp_deletes plan;
  po_unique path f g : f ∈ data_of live → g ∈ data_of live → path_matches path (key (df_path f)) = true →
    path_matches path (key (df_path g)) = true → f = g;
  po_entries d m : d ∈ position_deletes live → read_deletes d = Ok m →
    ∀ path pos, (path, pos) ∈ entries d → ∃ ps, m !! path = Some ps;
}.

Lemma live_path_inj live f g :
  NoDup (map (to_uri ∘ df_path) live) → f ∈ live → g ∈ live → to_uri (df_path f) = to_uri (df_path g) → f = g.
Proof.
  intros Hnd. induction live as [|x live IH]; intros Hf Hg Heq; [by apply elem_of_nil in Hf|].
  simpl in Hnd. apply NoDup_cons in Hnd as [Hx Hnd].
  assert (∀ y, y ∈ live → to_uri (df_path y) ≠ to_uri (df_path x)) as Hfr.
  { intros y Hy Hey. apply Hx. apply list_elem_of_In, in_map_iff. exists y. split; [done|by apply list_elem_of_In]. }
  apply elem_of_cons in Hf. apply elem_of_cons in Hg.
  destruct Hf as [->|Hf], Hg as [->|Hg]; [done|by apply Hfr in Hg|by apply Hfr in Hf|by apply IH].
Qed.

Lemma compact_committed plan lt ll write commit req added removed live :
  compact read_deletes plan lt ll write commit = (req, Ok (Committed added removed)) → ll = Ok live →
  ∃ m meta res, lt = Ok m ∧ with_live_files m live = Ok meta ∧ tm_current_snapshot_id meta = Some (cp_base_snapshot_id plan) ∧
    resolve_input_deletes read_deletes plan = Ok res ∧ write = Ok added ∧
    verify_row_conservation plan added (dr_deleted_rows res) = Ok tt ∧
    removed = map df_path (cp_inputs plan) ++ dr_resolved_deletes res ∧
    req = Some (mkCommitReplace (cp_table plan) (cp_base_snapshot_id plan) (map to_uri removed) added
                  {[ "teodb.op" := "compaction" ]}).
Proof.
  intros Hc ->. unfold compact in Hc. destruct (_ ≫= _) as [meta|] eqn:Hm; [|done].
  apply bind_Ok in Hm as (m & -> & Hm). cbn [mbind result_bind] in Hm.
  destruct (negb _) eqn:Hs; [done|]. destruct (length (cp_inputs plan) =? 0); [done|].
  destruct (read_sort_write read_deletes plan meta write) as [w|] eqn:Hw; [|done].
  destruct (commit _) as [|[]]; try done. injection Hc as <- <- <-. inv_checks.
  unfold read_sort_write in Hw. inv_ok Hw. injection Hw as <-.
  destruct x4. by eexists m, meta, _.
Qed.

Lemma data_of_elem live f : f ∈ data_of live → f ∈ live ∧ df_content f = ContentData.
Proof. intros [? Hc]%filter_elem. inv_checks. done. Qed.

(** The removed paths of a run. *)
Definition removed_uris (plan : CompactionPlan) (res : DeleteResolution) : list string :=
  map to_uri (map df_path (cp_inputs plan) ++ dr_resolved_deletes res).

(** A live file is removed when it is an input or a resolved delete file. *)
Lemma removed_iff plan live res f :
  plan_ok plan live → resolve_input_deletes read_deletes plan = Ok res → f ∈ live →
  to_uri (df_path f) ∈ removed_uris plan res ↔
    f ∈ cp_inputs plan ∨ (f ∈ position_deletes (cp_deletes plan) ∧ df_path f ∈ dr_resolved_deletes res).
Proof.
  intros Hp Hres Hf. pose proof (resolve_input_deletes_spec _ _ _ Hres) as Hrd. destruct Hp. unfold removed_uris. rewrite list_elem_of_In, in_map_iff. split.
  - intros (loc & Hu & Hin). apply list_elem_of_In, elem_of_app in Hin as [Hin|Hin].
    + apply list_elem_of_In, in_map_iff in Hin as (i & <- & Hi%list_elem_of_In). left.
      by rewrite <-(live_path_inj live i f po_paths0 (proj1 (data_of_elem _ _ (po_inputs0 _ Hi))) Hf Hu).
    + right. destruct (Hrd loc Hin) as (d & Hd & <- & _). apply filter_elem in Hd as Hd'. destruct Hd' as [Hd' _].
      by rewrite <-(live_path_inj live d f po_paths0 (po_deletes0 _ Hd') Hf Hu).
  - intros Hor. exists (df_path f). split; [done|]. apply list_elem_of_In, elem_of_app.
    destruct Hor as [Hi|[_ Hin]]; [left|by right]. apply list_elem_of_In, in_map. by apply list_elem_of_In.
Qed.

Lemma remaining_data plan live res :
  plan_ok plan live → resolve_input_deletes read_deletes plan = Ok res →
  remaining (removed_uris plan res) (data_of live)
  = List.filter (λ f, negb (bool_decide (f ∈ cp_inputs plan))) (data_of live).
Proof.
  intros Hp Hres. unfold remaining. apply filter_ext_in. intros f Hf%list_elem_of_In. f_equal. apply bool_decide_ext.
  destruct (data_of_elem live f Hf) as [Hl Hc]. rewrite (removed_iff plan live res f) by done. split; [|by left].
  intros [?|[[_ Hd]%filter_elem _]]; [done|]. inv_checks. congruence.
Qed.

(** A delete file with an entry for a file that stays is not removed. *)
Lemma delete_stays plan live res f d path pos :
  plan_ok plan live → resolve_input_deletes read_deletes plan = Ok res →
  f ∈ data_of live → f ∉ cp_inputs plan → path_matches path (key (df_path f)) = true → (path, pos) ∈ entries d →
  d ∈ position_deletes live → d ∈ remaining (removed_uris plan res) (position_deletes live).
Proof.
  intros Hp Hres Hf Hni Hm He Hd. apply filter_elem. split; [done|]. rewrite bool_decide_false; [done|]. intros Hin.
  apply filter_elem in Hd as Hd'. destruct Hd' as [Hlive Hcd]. inv_checks.
  apply (removed_iff plan live res d Hp Hres Hlive) in Hin. pose proof (resolve_input_deletes_spec _ _ _ Hres) as Hrd.
  destruct Hp. destruct Hin as [Hi|[_ Hin]].
  - apply po_inputs0, data_of_elem in Hi as [_ Hc]. congruence.
  - destruct (Hrd _ Hin) as (d' & [Hd' _]%filter_elem & Hpath & m & Hread & Hall).
    assert (d' = d) as -> by (eapply live_path_inj; [done|by apply po_deletes0|done|by rewrite Hpath]).
    destruct (po_entries0 d m Hd Hread path pos He) as (ps & Hps).
    destruct (Hall path ps Hps) as (i & [Hi Hpi]%find_input_Some).
    apply Hni. by rewrite (po_unique0 path f i Hf (po_inputs0 _ Hi) Hm Hpi).
Qed.

(** The rows before and after a committed run. *)
Lemma committed_rows (plan : CompactionPlan) (lt : TeoDBResult Metadata) (live : list DataFile)
    (write : TeoDBResult (list DataFile)) (commit : CommitReplace → TeoDBResult unit)
    (req : option CommitReplace) (added : list DataFile) (removed : list ObjectLocation)
    (Hcommit : compact read_deletes plan lt (Ok live) write commit = (req, Ok (Committed added removed)))
    (Hplan : plan_ok plan live)
    (Hwrite : flat_map rows added ≡ₚ visible rows entries (cp_inputs plan) (cp_deletes plan))
    (Hfresh : ∀ f d path pos, f ∈ added → d ∈ position_deletes live → (path, pos) ∈ entries d →
                path_matches path (key (df_path f)) = false) :
  visible rows entries (remaining (map to_uri removed) (data_of live) ++ added)
    (remaining (map to_uri removed) (position_deletes live))
  ≡ₚ visible rows entries (data_of live) (position_deletes live).
Proof.
  destruct (compact_committed _ _ _ _ _ _ _ _ _ Hcommit eq_refl) as (m & meta & res & _ & _ & _ & Hres & _ & _ & -> & _).
  fold (removed_uris plan res). rewrite visible_app, (remaining_data plan live res Hplan Hres).
  rewrite (visible_none rows entries added) by (intros f d path pos Hf [Hd _]%filter_elem; by apply Hfresh).
  rewrite Hwrite. assert (NoDup (data_of live)) as Hnd.
  { apply NoDup_filter'. pose proof (po_paths _ _ Hplan) as Hpaths.
    change (NoDup ((to_uri ∘ df_path) <$> live)) in Hpaths. by apply NoDup_fmap_1 in Hpaths. }
  rewrite (visible_perm rows entries (data_of live) _ _
             (filter_out_perm _ _ Hnd (po_nodup _ _ Hplan) (po_inputs _ _ Hplan))), visible_app.
  rewrite (visible_deletes rows entries (List.filter _ _) (remaining (removed_uris plan res) (position_deletes live))
             (position_deletes live)).
  - rewrite (visible_deletes rows entries (cp_inputs plan) (cp_deletes plan) (position_deletes live)); [solve_Permutation|].
    intros f d path pos Hf Hm He. split; [|intros Hd; by eapply po_covers].
    intros Hd. apply filter_elem. split; [by apply (po_deletes _ _ Hplan)|].
    pose proof (po_content _ _ Hplan) as Hc. rewrite Forall_forall in Hc. by rewrite bool_decide_true by auto.
  - intros f d path pos [Hf Hni]%filter_elem Hm He. inv_checks. split; [by intros [? _]%filter_elem|].
    by apply (delete_stays plan live res f d path pos).
Qed.

(** A committed compaction leaves the rows of the table as they were: when the output files hold
    the rows the inputs show (under fresh paths), the rows shown by the live files after the
    inputs and the resolved delete files are taken out and the output is added are the rows
    shown before.  No delete is lost for a file that was not compacted, and none hits the output. *)
Theorem compaction_preserves_rows (plan : CompactionPlan) (lt : TeoDBResult Metadata) (live : list DataFile)
    (write : TeoDBResult (list DataFile)) (commit : CommitReplace → TeoDBResult unit)
    (req : option CommitReplace) (added : list DataFile) (removed : list ObjectLocation)
    (Hcommit : compact read_deletes plan lt (Ok live) write commit = (req, Ok (Committed added removed)))
    (Hplan : plan_ok plan live)
    (Hwrite : flat_map rows added ≡ₚ visible rows entries (cp_inputs plan) (cp_deletes plan))
    (Hfresh : ∀ f d path pos, f ∈ added → d ∈ position_deletes live → (path, pos) ∈ entries d →
                path_matches path (key (df_path f)) = false) :
  visible rows entries (remaining (map to_uri removed) (data_of live) ++ added)
    (remaining (map to_uri removed) (position_deletes live))
  ≡ₚ visible rows entries (data_of live) (position_deletes live).
Proof. by eapply committed_rows. Qed.
End committed.

(** ** Live files after a replace *)
Section replaced.
Context {F : Type}.
Context (load_manifest_list : IceSnapshot → result IceError (list string)).
Context (parse_manifest : string → result IceError (Manifest F)).
Context (paths_from_json : string → option (list string)).

(** Documented behaviour of a fast append: one snapshot on top of the current one, with the
    given summary properties, whose manifests are those of its parent and one of the added files. *)
Record fast_appended (h h' : IceHistory) (s cur : IceSnapshot) (props : gmap string string) (mp : string)
    (mf : Manifest F) : Prop := {
  fa_snapshots : ih_snapshots h' = ih_snapshots h ++ [s];
  fa_current : ih_current h' = Some (is_id s);
  fa_parent : is_parent s = ih_current h;
  fa_fresh : is_id s ∉ map is_id (ih_snapshots h);
  fa_summary k v : props !! k = Some v → is_summary s !! k = Some v;
  fa_manifests old : load_manifest_list cur = Ok old →
    ∃ paths, load_manifest_list s = Ok paths ∧ paths ≡ₚ old ++ [mp];
  fa_manifest : parse_manifest mp = Ok mf;
  fa_alive : Forall (λ e, me_alive e = true) (mf_entries mf);
}.

Lemma removed_walk_acc fuel m acc next r X :
  removed_walk paths_from_json fuel m acc next = Returns r →
  removed_walk paths_from_json fuel m (X ∪ acc) next = Returns (X ∪ r).
Proof using Type.
  revert acc next. induction fuel as [|fuel IH]; intros acc [id|]; simpl; try done; try (by intros [= <-]).
  destruct (m !! id) as [s|]; [|done]. destruct (is_summary s !! _) as [raw|]; [|apply IH].
  destruct (paths_from_json raw) as [ps|]; [|done]. rewrite <-(assoc_L (∪)). apply IH.
Qed.

Lemma removed_walk_insert fuel m acc next r id s :
  m !! id = None → removed_walk paths_from_json fuel m acc next = Returns r →
  removed_walk paths_from_json fuel (<[id := s]> m) acc next = Returns r.
Proof using Type.
  intros Hid. revert acc next. induction fuel as [|fuel IH]; intros acc [i|]; simpl; try done.
  destruct (m !! i) as [s0|] eqn:Hi; [|done]. rewrite lookup_insert_ne, Hi by congruence.
  repeat case_match; auto.
Qed.

Lemma by_id_map_lookup snaps id : id ∉ map is_id snaps → by_id_map snaps !! id = None.
Proof using Type.
  unfold by_id_map. assert (∀ m : gmap SnapshotId IceSnapshot, m !! id = None → id ∉ map is_id snaps →
    foldl (λ m s, <[is_id s := s]> m) m snaps !! id = None) as Hf.
  { induction snaps as [|s snaps IH]; intros m Hm Hn; simpl in *; [done|]. apply not_elem_of_cons in Hn as [? ?].
    apply IH; [|done]. by rewrite lookup_insert_ne by congruence. }
  by apply Hf.
Qed.

Lemma live_of_manifests_Ok removed paths live :
  live_of_manifests parse_manifest removed paths = Ok live ↔
  ∃ ms, Forall2 (λ p m, parse_manifest p = Ok m) paths ms ∧ live = flat_map (live_entries removed) ms.
Proof using Type.
  revert live. induction paths as [|p paths IH]; intros live; simpl.
  - split; [intros [= <-]; by exists []|]. intros (ms & Hms & ->). by inversion Hms.
  - rewrite bind_Ok. unfold read_manifest. setoid_rewrite map_err_Ok. split.
    + intros (m & Hm & (rest & (ms & Hms & ->)%IH & [= <-])%bind_Ok). exists (m :: ms). split; [by constructor|done].
    + intros (ms & Hms & ->). inversion Hms as [|? m ? ms' Hm Hms']; subst. exists m. split; [done|].
      apply bind_Ok. eexists. split; [apply IH; eauto|done].
Qed.

Lemma live_entries_union (X Y : gset string) (m : Manifest F) :
  live_entries (X ∪ Y) m = List.filter (λ l, negb (bool_decide (lf_path l ∈ X))) (live_entries Y m).
Proof using Type.
  unfold live_entries. induction (mf_entries m) as [|e es IH]; simpl; [done|].
  destruct (me_alive e); simpl; [|done].
  destruct (decide (me_path e ∈ Y)) as [HY|HY].
  - rewrite (bool_decide_false (me_path e ∉ X ∪ Y)) by set_solver. by rewrite (bool_decide_false (me_path e ∉ Y)) by tauto.
  - rewrite (bool_decide_true (me_path e ∉ Y)) by done. simpl.
    destruct (decide (me_path e ∈ X)) as [HX|HX].
    + rewrite (bool_decide_false (me_path e ∉ X ∪ Y)) by set_solver. by rewrite bool_decide_true.
    + rewrite (bool_decide_true (me_path e ∉ X ∪ Y)) by set_solver. rewrite bool_decide_false by done. simpl. by rewrite IH.
Qed.

(** The files of the new manifest. *)
Definition added_files (mf : Manifest F) : list (LoadedFile F) :=
  map (λ e, mkLoadedFile (me_file e) (mf_schema_id mf) (mf_spec_id mf) (me_path e)) (mf_entries mf).

Lemma live_entries_fresh (X : gset string) (mf : Manifest F) :
  Forall (λ e, me_alive e = true) (mf_entries mf) → Forall (λ e, me_path e ∉ X) (mf_entries mf) →
  live_entries X mf = added_files mf.
Proof using Type.
  unfold live_entries, added_files. induction (mf_entries mf) as [|e es IH]; intros Ha Hn; simpl; [done|].
  apply Forall_cons in Ha as [-> Ha]. apply Forall_cons in Hn as [Hn Hns].
  rewrite bool_decide_true by done. simpl. by rewrite IH.
Qed.

(** A replace takes effect on reads at once and exactly: the files live after it are the files
    live before it whose recorded path is not among the removed ones, and the added files;
    the walk along the lineage needs one more step than before, so it ends. *)
Theorem replace_live_files (h h' : IceHistory) (s cur : IceSnapshot) (props : gmap string string) (mp raw : string)
    (mf : Manifest F) (fuel : nat) (live : list (LoadedFile F)) (removed : list string)
    (Hcur : current_snapshot h = Some cur)
    (Happend : fast_appended h h' s cur props mp mf)
    (Hprops : props !! REMOVED_DATA_FILES_PROP = Some raw) (Hjson : paths_from_json raw = Some removed)
    (Hlive : live_data_files load_manifest_list parse_manifest paths_from_json fuel h = Returns live)
    (Hnew : ∀ before, removed_data_file_paths paths_from_json fuel h = Returns before →
              Forall (λ e, me_path e ∉ before ∪ list_to_set removed) (mf_entries mf)) :
  ∃ live', live_data_files load_manifest_list parse_manifest paths_from_json (S fuel) h' = Returns live' ∧
    live' ≡ₚ List.filter (λ l, negb (bool_decide (lf_path l ∈ removed))) live ++ added_files mf.
Proof.
  destruct Happend. unfold live_data_files in Hlive. rewrite Hcur in Hlive.
  destruct (removed_data_file_paths paths_from_json fuel h) as [before| |] eqn:Hb; [|done..].
  specialize (Hnew before eq_refl). cbn [mbind outcome_bind] in Hlive.
  destruct (load_manifest_list cur) as [old|] eqn:Hold; [|done].
  destruct (fa_manifests0 old eq_refl) as (paths & Hpaths & Hperm).
  cbn [map_err lift mbind outcome_bind] in Hlive.
  destruct (live_of_manifests parse_manifest before old) as [live0|] eqn:Hl0; [|done]. injection Hlive as <-.
  apply live_of_manifests_Ok in Hl0 as (ms & Hms & ->).
  set (X := list_to_set removed : gset string).
  assert (removed_data_file_paths paths_from_json (S fuel) h' = Returns (X ∪ before)) as Hb'.
  { unfold removed_data_file_paths. rewrite fa_current0, fa_snapshots0. unfold by_id_map. rewrite foldl_app.
    cbn [foldl]. fold (by_id_map (ih_snapshots h)). cbn [removed_walk]. rewrite lookup_insert_eq, (fa_summary0 _ _ Hprops), Hjson.
    rewrite fa_parent0, (union_comm_L ∅). fold X.
    apply removed_walk_acc, removed_walk_insert; [by apply by_id_map_lookup|exact Hb]. }
  unfold live_data_files. rewrite Hb'.
  assert (current_snapshot h' = Some s) as ->.
  { unfold current_snapshot. rewrite fa_current0. cbn [mbind option_bind]. unfold snapshot_by_id. rewrite fa_snapshots0.
    rewrite list_find_app_r; [simpl; by rewrite decide_True|]. apply list_find_None, Forall_forall. intros x Hx Heq.
    apply fa_fresh0. rewrite <-Heq. by apply list_elem_of_In, in_map, list_elem_of_In. }
  cbn [mbind outcome_bind]. rewrite Hpaths. cbn [map_err lift mbind outcome_bind].
  assert (Forall2 (λ p m, parse_manifest p = Ok m) (old ++ [mp]) (ms ++ [mf])) as Hall
    by (apply Forall2_app; [done|by repeat constructor]).
  destruct (Permutation_Forall2 (Permutation_sym Hperm) Hall) as (ms' & Hpm & Hms').
  rewrite (proj2 (live_of_manifests_Ok (X ∪ before) paths _) (ex_intro _ ms' (conj Hms' eq_refl))). cbn.
  eexists. split; [done|]. rewrite <-Hpm, flat_map_app. simpl. rewrite app_nil_r.
  rewrite (live_entries_fresh _ mf fa_alive0) by (by rewrite (union_comm_L X)). f_equiv.
  clear -F. induction ms as [|m ms IH]; simpl; [done|]. rewrite List.filter_app, IH, live_entries_union. f_equiv.
  apply reflexive_eq, filter_ext. intros l. f_equal. apply bool_decide_ext. unfold X. by rewrite elem_of_list_to_set.
Qed.
End replaced.

(** ** Concrete runs *)
Definition demo_cfile (content : DataContent) (k : string) (records : N) : DataFile :=
  mkDataFile content (mkObjectLocation S3 (Some "b") k) FmtParquet 0 None 0 ∅ records 100 ∅ ∅ ∅ ∅ ∅ ∅ [] [] None.
Definition demo_a : DataFile := demo_cfile ContentData "t/data/a" 3.
Definition demo_b : DataFile := demo_cfile ContentData "t/data/b" 1.
Definition demo_d : DataFile := demo_cfile PositionDelete "t/data/d" 1.
Definition demo_out : DataFile := demo_cfile ContentData "t/data/o" 2.
Definition demo_live : list DataFile := [demo_a; demo_b; demo_d].
Definition demo_rows (f : DataFile) : list nat :=
  if decide (f = demo_a) then [10; 11; 12] else if decide (f = demo_out) then [10; 12] else [20].
Definition demo_entry (f : DataFile) : list (string * Z) :=
  if decide (f = demo_d) then [("t/data/a", 1%Z)] else [].
Definition demo_read (f : DataFile) : TeoDBResult PositionDeleteMap := Ok {[ "t/data/a" := {[1%Z]} ]}.
Definition demo_plan : CompactionPlan := mkCompactionPlan (mkTableIdent "ns" "t") 5 0 ∅ [demo_a] [demo_d] 1000.
Definition demo_snapshot : Snapshot := mkSnapshot 5 None 1 0 OpAppend [] [] ∅.
Definition demo_meta : Metadata :=
  mkTableMetadata 1 "ns" "t" (mkObjectLocation S3 (Some "b") "t") (Some 5%Z) 0 0 0
    [mkSchemaDefinition 0 [] []] [mkPartitionSpec 0 []] [mkSortOrder 0 []] [demo_snapshot] (Some demo_snapshot) ∅.

Lemma demo_plan_ok : plan_ok demo_entry demo_read demo_plan demo_live.
Proof.
  assert (∀ f, f ∈ data_of demo_live → f = demo_a ∨ f = demo_b) as Hd.
  { intros f Hf. change (data_of demo_live) with [demo_a; demo_b] in Hf. set_solver. }
  assert (∀ d, d ∈ position_deletes demo_live → d = demo_d) as Hpd.
  { intros d Hf. change (position_deletes demo_live) with [demo_d] in Hf. set_solver. }
  constructor.
  - apply (bool_decide_unpack _). vm_compute. exact I.
  - change (data_of demo_live) with [demo_a; demo_b]. set_solver.
  - apply NoDup_singleton.
  - simpl. set_solver.
  - by repeat constructor.
  - intros d path pos i ->%Hpd _ _ _. by left.
  - intros path f g Hf%Hd Hg%Hd. unfold path_matches.
    destruct Hf as [->| ->], Hg as [->| ->]; try done; cbn [df_path demo_a demo_b demo_cfile key]; intros H1 H2; exfalso.
    all: assert (∀ k, bool_decide (path = k) || match str_strip_suffix k path with Some p => str_ends_with "/" p | None => false end = true
             → ∃ p, path = p +:+ k) as Hk by
       (intros k [?%bool_decide_eq_true|Hs]%orb_true_iff; [exists ""; by rewrite str_app_nil|];
        destruct (str_strip_suffix k path) as [p|] eqn:Hp; [|done]; unfold str_strip_suffix in Hp;
        apply fmap_Some in Hp as (r & Hr%str_strip_prefix_Some & ->); exists (str_rev r);
        rewrite <-(str_rev_involutive path), Hr, str_rev_append, str_rev_involutive; done).
    all: destruct (Hk _ H1) as (p1 & ->); destruct (Hk _ H2) as (p2 & Heq); apply (f_equal str_rev) in Heq;
      rewrite !str_rev_append in Heq; discriminate.
  - intros d m ->%Hpd [= <-] path pos Hin. unfold demo_entry in Hin. rewrite decide_True in Hin by done.
    apply list_elem_of_singleton in Hin. injection Hin as -> ->. eexists. apply lookup_singleton_eq.
Qed.

Lemma compaction_preserves_rows_witness :
  visible demo_rows demo_entry
    (remaining (map to_uri [df_path demo_a; df_path demo_d]) (data_of demo_live) ++ [demo_out])
    (remaining (map to_uri [df_path demo_a; df_path demo_d]) (position_deletes demo_live))
  ≡ₚ visible demo_rows demo_entry (data_of demo_live) (position_deletes demo_live).
Proof.
  assert (snd (compact demo_read demo_plan (Ok demo_meta) (Ok demo_live) (Ok [demo_out]) (λ _, Ok tt))
          = Ok (Committed [demo_out] [df_path demo_a; df_path demo_d])) as Hc by (vm_compute; reflexivity).
  destruct (compact demo_read demo_plan (Ok demo_meta) (Ok demo_live) (Ok [demo_out]) (λ _, Ok tt)) as [req out] eqn:He.
  simpl in Hc. subst out.
  apply (compaction_preserves_rows demo_rows demo_entry demo_read demo_plan (Ok demo_meta) demo_live (Ok [demo_out])
           (λ _, Ok tt) req [demo_out] _ He demo_plan_ok).
  - vm_compute. reflexivity.
  - intros f d path pos ->%list_elem_of_singleton Hd Hin.
    change (position_deletes demo_live) with [demo_d] in Hd. apply list_elem_of_singleton in Hd as ->.
    unfold demo_entry in Hin. rewrite decide_True in Hin by done. apply list_elem_of_singleton in Hin. injection Hin as -> ->.
    vm_compute. reflexivity.
Defined.

(** ** Where the commit path falls short *)
Definition demo_hist (n : nat) : IceHistory :=
  let snap id parent raw := mkIceSnapshot id 0 parent (if raw : bool then {[ REMOVED_DATA_FILES_PROP := "a" ]} else ∅) "" in
  mkIceHistory (take (S n) [snap 1%Z None false; snap 2%Z (Some 1%Z) true; snap 3%Z (Some 2%Z) true])
    (Some (Z.of_nat (S n))).
Definition demo_mlist (s : IceSnapshot) : result IceError (list string) := Ok (take (Z.to_nat (is_id s)) ["a"; "x"; "y"]).
Definition demo_mparse (p : string) : result IceError (Manifest nat) := Ok (mkManifest 0 0 [mkManifestEntry true p 0]).
Definition demo_json (raw : string) : option (list string) := Some [raw].

Lemma replace_live_files_witness :
  ∃ live', live_data_files demo_mlist demo_mparse demo_json 2 (demo_hist 1) = Returns live' ∧ map lf_path live' ≡ₚ ["x"].
Proof.
  destruct (live_data_files demo_mlist demo_mparse demo_json 1 (demo_hist 0)) as [live| |] eqn:Hl;
    [|vm_compute in Hl; discriminate..].
  destruct (replace_live_files demo_mlist demo_mparse demo_json (demo_hist 0) (demo_hist 1)
              (mkIceSnapshot 2 0 (Some 1%Z) {[ REMOVED_DATA_FILES_PROP := "a" ]} "") (mkIceSnapshot 1 0 None ∅ "")
              {[ REMOVED_DATA_FILES_PROP := "a" ]} "x" "a" (mkManifest 0 0 [mkManifestEntry true "x" 0]) 1 live ["a"])
    as (live' & Hlive' & Hp).
  - reflexivity.
  - constructor; try reflexivity; [set_solver|done| |by repeat constructor].
    intros old [= <-]. by eexists.
  - reflexivity.
  - reflexivity.
  - exact Hl.
  - intros before Hb. assert (before = ∅) as -> by (vm_compute in Hb |- *; congruence).
    repeat constructor. apply (bool_decide_unpack _). vm_compute. exact I.
  - exists live'. split; [exact Hlive'|]. apply (Permutation_map lf_path) in Hp. rewrite Hp.
    vm_compute in Hl. injection Hl as <-. vm_compute. reflexivity.
Defined.

(** The base snapshot is checked on the first load only: the transaction reloads the table
    and applies the append to whatever it finds, so the commit succeeds on top of any
    snapshot that was committed in between. *)
Theorem replace_base_not_revalidated {IceFile} (convert : DataFile → TeoDBResult IceFile) (to_json : list string → string)
    (req : CommitReplace) (base moved result : IceMeta) (exhausted : IceError) (tx : ReplaceTx)
    (Hcheck : build_replace convert to_json req base = Ok tx)
    (Hmoved : im_current moved ≠ Some (cr_base_snapshot_id req)) :
  try_commit_replace convert to_json req (Ok base) exhausted [(Ok moved, UpdateOk result)] = Ok result ∧
  is_ok (build_replace convert to_json req moved) = false.
Proof.
  unfold try_commit_replace. cbn [map_err mbind result_bind]. rewrite Hcheck. split; [done|].
  unfold build_replace. by rewrite bool_decide_true.
Qed.

(** Two compactions of the same inputs that passed the check on the same base: both outputs
    are live afterwards, so every row of the inputs is shown twice. *)
Theorem replace_race_duplicates_rows :
  ∃ one both,
    live_data_files demo_mlist demo_mparse demo_json 3 (demo_hist 1) = Returns one ∧ map lf_path one = ["x"] ∧
    live_data_files demo_mlist demo_mparse demo_json 3 (demo_hist 2) = Returns both ∧ map lf_path both = ["x"; "y"].
Proof. do 2 eexists. split_and!; vm_compute; reflexivity. Qed.

(** Two delete files that record the same row count it twice, so a rewrite that is right is
    rejected and the partition is never compacted. *)
Theorem overlapping_deletes_abort :
  let plan := mkCompactionPlan (mkTableIdent "ns" "t") 5 0 ∅ [demo_a]
                [demo_d; demo_cfile PositionDelete "t/data/e" 1] 1000 in
  visible demo_rows (λ _, [("t/data/a", 1%Z)]) (cp_inputs plan) (cp_deletes plan) = demo_rows demo_out ∧
  is_ok (snd (compact demo_read plan (Ok demo_meta) (Ok demo_live) (Ok [demo_out]) (λ _, Ok tt))) = false.
Proof. split; vm_compute; reflexivity. Qed.

(** A manifest path that is not in the normal form of a location (an absolute [file] URI)
    is not the path the marker records for it, so the input stays live. *)
Theorem absolute_path_marker_misses :
  ∃ loc, parse "file:///wh/t/data/a.parquet" = Ok loc ∧ to_uri loc = "file://wh/t/data/a.parquet".
Proof. eexists. split; vm_compute; reflexivity. Qed.
