(* ===== verification/CompactionLock.v ===== *)
(** * The compaction lock

    Models [teodb-distributed/src/coordination.rs]: the per-table lock kept in
    two table properties.  Loads, property updates and the clock are arguments;
    an acquisition returns the properties it left, if it wrote any. *)

From S2P Require Import Prelude Core Decimal Catalog Flush Leases.
Open Scope nat_scope.
Open Scope list_scope.

Definition PROP_OWNER : string := "teodb.compaction.owner".
Definition PROP_LOCK_TS : string := "teodb.compaction.lock_ts".

Inductive LockOutcome :=
| Acquired
| HeldBy (owner : string) (locked_since_ms : N)
| Failed (e : TeoDBError).

Section lock.
(** [lock_ttl] is a duration in nanoseconds. *)
Context (node_id : string) (lock_ttl : N).

Definition is_expired (lock_ts now_ms : N) : bool :=
  if (lock_ts =? 0)%N then true
  else let age_ms := u64_saturating_sub now_ms lock_ts in (as_millis lock_ttl mod 18446744073709551616 <? age_ms)%N.

Definition current_owner (props : Properties) : string := default "" (props !! PROP_OWNER).
Definition current_ts (props : Properties) : N := default 0%N (props !! PROP_LOCK_TS ≫= parse_u64).

Definition lock_expectation (owner ts : string) : list (string * string) := [(PROP_OWNER, owner); (PROP_LOCK_TS, ts)].

Definition refresh_lock (owner : string) (ts now_ms : N) (update : PropsEnv) : LockOutcome * option Properties :=
  match update_table_properties update (lock_expectation owner (pretty ts))
          (lock_expectation node_id (pretty now_ms)) [] with
  | Ok props => (Acquired, Some props)
  | Err (Conflict _ _ _) => (HeldBy "unknown" 0, None)
  | Err e => (Failed e, None)
  end.

(** [reload]: the load that names the winner after a lost update. *)
Definition try_acquire (now_ms : N) (load : TeoDBResult Properties) (update : PropsEnv) (reload : TeoDBResult Properties) :
    LockOutcome * option Properties :=
  match load with
  | Err e => (Failed e, None)
  | Ok props =>
      let owner := current_owner props in
      let ts := current_ts props in
      if bool_decide (owner = node_id) then refresh_lock owner ts now_ms update
      else if negb (str_is_empty owner) && negb (is_expired ts now_ms) then (HeldBy owner ts, None)
      else
        let expected := if str_is_empty owner then lock_expectation "" "" else lock_expectation owner (pretty ts) in
        match update_table_properties update expected (lock_expectation node_id (pretty now_ms)) [] with
        | Ok props => (Acquired, Some props)
        | Err (Conflict _ _ _) =>
            match reload with
            | Ok p => (HeldBy (current_owner p) (current_ts p), None)
            | Err e => (Failed e, None)
            end
        | Err e => (Failed e, None)
        end
  end.

(** The properties left by a release that went through. *)
Definition release (load : TeoDBResult Properties) (update : PropsEnv) : option Properties :=
  match load with
  | Err _ => None
  | Ok props =>
      let owner := current_owner props in
      let ts := default "" (props !! PROP_LOCK_TS) in
      if negb (bool_decide (owner = node_id)) then None
      else match update_table_properties update (lock_expectation owner ts) [] [PROP_OWNER; PROP_LOCK_TS] with
           | Ok props => Some props
           | Err _ => None
           end
  end.
End lock.

(** ** One update at a time *)

(** An update nothing interferes with. *)
Definition quiet_update (props : Properties) : PropsEnv := mkPropsEnv (Ok props) (Ok props).

(** The properties hold a lock as a node writes it, or none. *)
Definition lock_well_formed (props : Properties) : Prop :=
  (props !! PROP_OWNER = None ∧ props !! PROP_LOCK_TS = None) ∨
  ∃ owner ts, props !! PROP_OWNER = Some owner ∧ owner ≠ "" ∧
    props !! PROP_LOCK_TS = Some (pretty ts) ∧ (ts ≤ u64_max)%N.

Lemma owner_ts_distinct : PROP_OWNER ≠ PROP_LOCK_TS.
Proof. done. Qed.

Lemma update_quiet props expected updates removals :
  Forall (λ kv, default "" (props !! kv.1) = kv.2) expected →
  update_table_properties (quiet_update props) expected updates removals = Ok (apply_properties updates removals props).
Proof.
  intros Hall. unfold update_table_properties. cbn [quiet_update pe_check pe_commit map_err mbind result_bind].
  assert (check_expected props expected = Ok tt) as ->; [|done].
  unfold check_expected. apply foldM_unit_Ok. intros kv Hkv. rewrite Forall_forall in Hall.
  rewrite bool_decide_false; [done|]. intros Hne. by apply Hne, Hall.
Qed.

Lemma apply_lock props owner ts :
  apply_properties (lock_expectation owner ts) [] props = <[PROP_LOCK_TS := ts]> (<[PROP_OWNER := owner]> props).
Proof. done. Qed.

Lemma lock_read props owner ts :
  (ts ≤ u64_max)%N →
  let props' := <[PROP_LOCK_TS := pretty ts]> (<[PROP_OWNER := owner]> props) in
  current_owner props' = owner ∧ current_ts props' = ts.
Proof.
  intros Hts props'. unfold current_owner, current_ts, props'.
  rewrite lookup_insert_ne, !lookup_insert_eq by done. cbn [mbind option_bind default from_option].
  by rewrite parse_u64_pretty.
Qed.

Lemma str_is_empty_spec s : str_is_empty s = true ↔ s = "".
Proof. by destruct s. Qed.

(** What a well-formed table's lock is expected to be, holds. *)
Lemma lock_expected props :
  lock_well_formed props →
  Forall (λ kv, default "" (props !! kv.1) = kv.2)
    (if str_is_empty (current_owner props) then lock_expectation "" ""
     else lock_expectation (current_owner props) (pretty (current_ts props))).
Proof.
  unfold current_owner, current_ts. intros [[Hn1 Hn2]|(owner & ts & H1 & Hne & H2 & Hts)].
  - rewrite Hn1, Hn2. simpl. repeat constructor; simpl; by rewrite ?Hn1, ?Hn2.
  - rewrite H1, H2. cbn [default from_option mbind option_bind]. rewrite parse_u64_pretty by done.
    destruct (str_is_empty owner) eqn:He; [by apply str_is_empty_spec in He|].
    unfold id. rewrite He. repeat constructor; simpl; by rewrite ?H1, ?H2.
Qed.

Lemma try_acquire_quiet node ttl now props reload :
  node ≠ "" → lock_well_formed props →
  (current_owner props = "" ∨ current_owner props = node ∨ is_expired ttl (current_ts props) now = true) →
  try_acquire node ttl now (Ok props) (quiet_update props) reload
  = (Acquired, Some (<[PROP_LOCK_TS := pretty now]> (<[PROP_OWNER := node]> props))).
Proof.
  intros Hnode Hexp%lock_expected Hfree. unfold try_acquire, refresh_lock. case_bool_decide as Hown.
  - assert (str_is_empty (current_owner props) = false) as He.
    { apply not_true_iff_false. rewrite str_is_empty_spec. congruence. }
    rewrite He in Hexp. by rewrite update_quiet.
  - destruct (str_is_empty (current_owner props)) eqn:He; cbn [negb andb]; [by rewrite update_quiet|].
    destruct Hfree as [Hf|[Hf|Hf]]; [apply str_is_empty_spec in Hf; congruence|done|].
    rewrite Hf. cbn [negb]. by rewrite update_quiet.
Qed.

(** The compaction lock excludes while it is fresh: from a well-formed table a node acquires a
    lock that is free, expired or its own, leaving a well-formed one in its name and no other
    property changed; until the time to live has passed every other node is told who
    holds it and writes nothing, and the owner's release frees it. *)
Theorem compaction_lock_excludes (node other : string) (ttl now : N) (props : Properties)
    (Hnode : node ≠ "") (Hother : other ≠ node) (Hnow : (0 < now ≤ u64_max)%N)
    (Hwf : lock_well_formed props)
    (Hfree : current_owner props = "" ∨ current_owner props = node ∨ is_expired ttl (current_ts props) now = true) :
  ∃ held, try_acquire node ttl now (Ok props) (quiet_update props) (Ok props) = (Acquired, Some held) ∧
    lock_well_formed held ∧
    (∀ k, k ≠ PROP_OWNER → k ≠ PROP_LOCK_TS → held !! k = props !! k) ∧
    (∀ later update reload, is_expired ttl now later = false →
       try_acquire other ttl later (Ok held) update reload = (HeldBy node now, None)) ∧
    (∀ update, release other (Ok held) update = None) ∧
    (∃ freed, release node (Ok held) (quiet_update held) = Some freed ∧
       freed !! PROP_OWNER = None ∧ freed !! PROP_LOCK_TS = None).
Proof.
  set (held := <[PROP_LOCK_TS := pretty now]> (<[PROP_OWNER := node]> props)).
  destruct (lock_read props node now ltac:(lia)) as [Ho Ht]. fold held in Ho, Ht.
  assert (held !! PROP_OWNER = Some node) as Hho.
  { unfold held. by rewrite lookup_insert_ne, lookup_insert_eq by done. }
  assert (held !! PROP_LOCK_TS = Some (pretty now)) as Hht by apply lookup_insert_eq.
  exists held. split_and!.
  - by apply try_acquire_quiet.
  - right. exists node, now. split_and!; [done..|lia].
  - intros k Hk1 Hk2. unfold held. by rewrite !lookup_insert_ne by congruence.
  - intros later update reload Hexp. unfold try_acquire. rewrite Ho, Ht. rewrite bool_decide_false by congruence.
    assert (str_is_empty node = false) as -> by (apply not_true_iff_false; by rewrite str_is_empty_spec).
    by rewrite Hexp.
  - intros update. unfold release. rewrite Ho. by rewrite bool_decide_false by congruence.
  - unfold release. rewrite Ho, bool_decide_true by done. cbn [negb]. rewrite Hht. cbn [default from_option].
    rewrite update_quiet.
    + eexists. split; [done|]. unfold apply_properties. split; rewrite foldl_delete_lookup, decide_True; try done;
        [by left|by right; left].
    + repeat constructor; simpl; by rewrite ?Hho, ?Hht.
Qed.

Lemma compaction_lock_excludes_witness :
  ∃ held, try_acquire "n1" 60000000000 1000 (Ok ∅) (quiet_update ∅) (Ok ∅) = (Acquired, Some held) ∧
    try_acquire "n2" 60000000000 2000 (Ok held) (quiet_update held) (Ok held) = (HeldBy "n1" 1000, None).
Proof.
  destruct (compaction_lock_excludes "n1" "n2" 60000000000 1000 ∅) as (held & Hacq & _ & _ & Hheld & _).
  - discriminate.
  - discriminate.
  - split; vm_compute; [reflexivity|discriminate].
  - left. split; reflexivity.
  - left. reflexivity.
  - exists held. split; [exact Hacq|]. apply Hheld. vm_compute. reflexivity.
Defined.

(** ** Where the lock falls short *)

(** A timestamp that does not parse reads as zero and expired, but the update then expects
    the text 0 in its place and conflicts: no other node ever acquires the lock. *)
Theorem malformed_lock_unacquirable (node owner raw : string) (ttl now : N) (props : Properties) (reload : TeoDBResult Properties)
    (Howner : props !! PROP_OWNER = Some owner) (Hne : owner ≠ node) (Hsome : owner ≠ "")
    (Hraw : props !! PROP_LOCK_TS = Some raw) (Hbad : parse_u64 raw = None) :
  is_expired ttl (current_ts props) now = true ∧
  fst (try_acquire node ttl now (Ok props) (quiet_update props) reload) ≠ Acquired.
Proof.
  assert (current_ts props = 0%N) as Hts by (unfold current_ts; by rewrite Hraw; cbn; rewrite Hbad).
  rewrite Hts. split; [done|]. unfold try_acquire. rewrite Hts.
  assert (current_owner props = owner) as -> by (unfold current_owner; by rewrite Howner).
  rewrite bool_decide_false by done.
  assert (str_is_empty owner = false) as -> by (apply not_true_iff_false; by rewrite str_is_empty_spec).
  change (is_expired ttl 0 now) with true. cbn [negb andb].
  assert (∃ r e a, update_table_properties (quiet_update props) (lock_expectation owner (pretty 0%N))
            (lock_expectation node (pretty now)) [] = Err (Conflict r e a)) as (r & e & a & ->).
  { unfold update_table_properties, check_expected. cbn [quiet_update pe_check map_err mbind result_bind lock_expectation foldM fst snd].
    rewrite Howner, Hraw. cbn [default from_option]. unfold id. rewrite (bool_decide_false (owner ≠ owner)) by (intros Hx; by apply Hx). cbn [reject_if mbind result_bind].
    rewrite bool_decide_true; [by do 3 eexists|]. intros ->. vm_compute in Hbad. done. }
  by destruct reload.
Qed.

(** The expectations are checked on a load that precedes the commit: two nodes that both
    find the lock free both acquire it. *)
Theorem lock_acquired_twice :
  ∃ held1 held2,
    try_acquire "n1" 60000000000 1000 (Ok ∅) (mkPropsEnv (Ok ∅) (Ok ∅)) (Ok ∅) = (Acquired, Some held1) ∧
    try_acquire "n2" 60000000000 1000 (Ok ∅) (mkPropsEnv (Ok ∅) (Ok held1)) (Ok ∅) = (Acquired, Some held2) ∧
    current_owner held1 = "n1" ∧ current_owner held2 = "n2".
Proof. do 2 eexists. split_and!; [reflexivity|reflexivity|vm_compute; reflexivity..]. Qed.
