(* ===== verification/Convert.v ===== *)
(** * Conversion between catalog and engine types

    Models [teodb-catalog/src/convert]: data types, schemas, partition specs,
    sort orders, scalars, data files and table metadata to and from the types
    of the Iceberg library.  The library's value types are inductive types with
    its public constructors; its constructors of datums, its builders and its
    transforms are an interface with their documented behaviour as laws. *)

From S2P Require Import Prelude Core Decimal Location DataFiles Schema Catalog Compaction.
Open Scope nat_scope.
Open Scope list_scope.

(** ** Iceberg's value types *)
Inductive PrimitiveType :=
| PBoolean | PInt | PLong | PFloat | PDouble | PDecimal (precision scale : N)
| PDate | PTime | PTimestamp | PTimestamptz | PTimestampNs | PTimestamptzNs
| PString | PUuid | PFixed (n : N) | PBinary.
Inductive IceType := Primitive (p : PrimitiveType) | NonPrimitive (tag : N).
Inductive PrimitiveLiteral :=
| LBoolean (b : bool) | LInt (z : Z) | LLong (z : Z) | LFloat (bits : N) | LDouble (bits : N)
| LString (s : string) | LBinary (bs : list N) | LInt128 (z : Z) | LUInt128 (n : N)
| LAboveMax | LBelowMin.
Inductive Literal := LitPrimitive (p : PrimitiveLiteral) | LitOther (tag : N).
Inductive Transform :=
| TrIdentity | TrBucket (n : N) | TrTruncate (w : N) | TrYear | TrMonth | TrDay | TrHour | TrVoid | TrUnknown.

Record NestedField := mkNestedField {
  nf_id : Z; nf_name : string; nf_required : bool; nf_type : IceType; nf_doc : option string }.
Record IceSchema := mkIceSchema {
  isc_schema_id : Z; isc_fields : list NestedField; isc_identifier_field_ids : list Z }.
Record IcePartitionField := mkIcePartitionField {
  ipf_source_id : Z; ipf_field_id : Z; ipf_name : string; ipf_transform : Transform }.
Record IcePartitionSpec := mkIcePartitionSpec { ips_spec_id : Z; ips_fields : list IcePartitionField }.
Inductive IceSortDirection := Ascending | Descending.
Inductive IceNullOrder := NullFirst | NullLast.
Record IceSortField := mkIceSortField {
  isf_source_id : Z; isf_transform : Transform; isf_direction : IceSortDirection; isf_null_order : IceNullOrder }.
(** [order_id] is an [i64]. *)
Record IceSortOrder := mkIceSortOrder { iso_order_id : Z; iso_fields : list IceSortField }.

Inductive DataContentType := CtData | CtPositionDeletes | CtEqualityDeletes.
Inductive DataFileFormat := FfParquet | FfOther (tag : N).

(** ** Casts between integer widths ([as]) *)
Definition wrap_signed (bits : Z) (z : Z) : Z :=
  let m := (z mod 2 ^ bits)%Z in if (m <? 2 ^ (bits - 1))%Z then m else (m - 2 ^ bits)%Z.
Definition wrap_unsigned (bits : Z) (z : Z) : N := Z.to_N (z mod 2 ^ bits).
(** [u128::to_be_bytes]. *)
Fixpoint be_bytes (k : nat) (n : N) : list N :=
  match k with O => [] | S k => ((n / 256 ^ N.of_nat k) mod 256)%N :: be_bytes k n end.

(** ** Types and schemas *)
Definition iceberg_primitive_to_teodb (p : PrimitiveType) : TeoDBResult TeoDataType :=
  match p with
  | PBoolean => Ok TBoolean
  | PInt => Ok TInt32
  | PLong => Ok TInt64
  | PFloat => Ok TFloat32
  | PDouble => Ok TFloat64
  | PDate => Ok TDate32
  | PTime => Ok TTime64Micros
  | PTimestamp => Ok (TTimestampMicros None)
  | PTimestamptz => Ok (TTimestampMicros (Some "UTC"))
  | PString => Ok TUtf8
  | PBinary => Ok TBinary
  | PUuid => Ok (TFixedSizeBinary 16)
  | PFixed n => Ok (TFixedSizeBinary (wrap_signed 32 (Z.of_N n)))
  | PDecimal precision scale =>
      Ok (TDecimal128 (wrap_unsigned 8 (Z.of_N precision)) (wrap_signed 8 (Z.of_N scale)))
  | PTimestampNs | PTimestamptzNs => Err (InvalidArgument "type" "unsupported Iceberg primitive type: {other:?}")
  end.

Definition teodb_to_iceberg_primitive (dt : TeoDataType) : TeoDBResult PrimitiveType :=
  Ok (match dt with
      | TBoolean => PBoolean
      | TInt8 | TInt16 | TInt32 | TUInt8 | TUInt16 => PInt
      | TInt64 | TUInt32 | TUInt64 => PLong
      | TFloat32 => PFloat
      | TFloat64 => PDouble
      | TDate32 => PDate
      | TTime64Micros => PTime
      | TTimestampMicros None => PTimestamp
      | TTimestampMicros (Some _) => PTimestamptz
      | TUtf8 => PString
      | TBinary => PBinary
      | TFixedSizeBinary n => if (n =? 16)%Z then PUuid else PFixed (wrap_unsigned 64 n)
      | TDecimal128 precision scale => PDecimal precision (wrap_unsigned 32 scale)
      end).

Definition nested_field_to_column (f : NestedField) : TeoDBResult ColumnMeta :=
  data_type ← match nf_type f with
              | Primitive p => iceberg_primitive_to_teodb p
              | NonPrimitive _ => Err (Catalog "unsupported non-primitive type for field '{}': {other:?}")
              end;
  Ok (mkColumnMeta (nf_id f) (nf_name f) data_type (negb (nf_required f)) (nf_doc f)).

Definition iceberg_schema_to_teodb (schema : IceSchema) : TeoDBResult SchemaDefinition :=
  columns ← mapM_res nested_field_to_column (isc_fields schema);
  Ok (mkSchemaDefinition (isc_schema_id schema) columns (isc_identifier_field_ids schema)).

(** [NestedField::optional] and [required] have no documentation string. *)
Definition column_to_nested_field (col : ColumnMeta) : TeoDBResult NestedField :=
  prim ← teodb_to_iceberg_primitive (cm_data_type col);
  Ok (mkNestedField (cm_id col) (cm_name col) (negb (cm_nullable col)) (Primitive prim) None).

(** ** Partition specs and sort orders *)
Definition iceberg_transform_to_teodb (t : Transform) : TeoDBResult PartitionTransform :=
  match t with
  | TrIdentity => Ok Identity | TrYear => Ok Year | TrMonth => Ok Month | TrDay => Ok Day | TrHour => Ok Hour
  | TrVoid => Ok Void | TrBucket n => Ok (Bucket n) | TrTruncate w => Ok (Truncate w)
  | TrUnknown => Err (InvalidArgument "transform" "unsupported partition transform: {other:?}")
  end.

Definition teodb_partition_transform_to_iceberg (t : PartitionTransform) : Transform :=
  match t with
  | Identity => TrIdentity | Year => TrYear | Month => TrMonth | Day => TrDay | Hour => TrHour
  | Void => TrVoid | Bucket n => TrBucket n | Truncate w => TrTruncate w
  end.

Definition iceberg_partition_spec_to_teodb (spec : IcePartitionSpec) : TeoDBResult PartitionSpec :=
  fields ← mapM_res (λ f,
    transform ← iceberg_transform_to_teodb (ipf_transform f);
    Ok (mkPartitionField (ipf_source_id f) (ipf_field_id f) (ipf_name f) transform)) (ips_fields spec);
  Ok (mkPartitionSpec (ips_spec_id spec) fields).

Definition iceberg_sort_field_to_teodb (f : IceSortField) : TeoDBResult SortField :=
  transform ← iceberg_transform_to_teodb (isf_transform f);
  Ok (mkSortField (isf_source_id f) transform
        (match isf_direction f with Ascending => Asc | Descending => Desc end)
        (match isf_null_order f with NullFirst => NullsFirst | NullLast => NullsLast end)).
Definition iceberg_sort_order_to_teodb (order : IceSortOrder) : TeoDBResult SortOrder :=
  fields ← mapM_res iceberg_sort_field_to_teodb (iso_fields order);
  Ok (mkSortOrder (wrap_signed 32 (iso_order_id order)) fields).

Definition teodb_sort_order_to_iceberg (order : SortOrder) : IceSortOrder :=
  mkIceSortOrder (so_order_id order)
    (map (λ f, mkIceSortField (sf_source_id f) (teodb_partition_transform_to_iceberg (sf_transform f))
                 (match sf_direction f with Asc => Ascending | Desc => Descending end)
                 (match sf_null_order f with NullsFirst => NullFirst | NullsLast => NullLast end))
       (so_fields order)).

(** ** Scalars *)
Definition primitive_literal_to_teo_scalar (literal : PrimitiveLiteral) (dt : TeoDataType) : TeoDBResult TeoScalar :=
  match dt, literal with
  | TBoolean, LBoolean v => Ok (SBoolean v)
  | TInt8, LInt v => Ok (SInt8 (wrap_signed 8 v))
  | TInt16, LInt v => Ok (SInt16 (wrap_signed 16 v))
  | TInt32, LInt v => Ok (SInt32 v)
  | TUInt8, LInt v => Ok (SUInt8 (wrap_unsigned 8 v))
  | TUInt16, LInt v => Ok (SUInt16 (wrap_unsigned 16 v))
  | TUInt32, LInt v => Ok (SUInt32 (wrap_unsigned 32 v))
  | TInt64, LLong v => Ok (SInt64 v)
  | TUInt64, LLong v => Ok (SUInt64 (wrap_unsigned 64 v))
  | TFloat32, LFloat v => Ok (SFloat32 v)
  | TFloat64, LDouble v => Ok (SFloat64 v)
  | TDate32, LInt v => Ok (SDate32 v)
  | TTime64Micros, LLong v => Ok (STime64Micros v)
  | TTimestampMicros tz, LLong v => Ok (STimestampMicros v tz)
  | TUtf8, LString v => Ok (SUtf8 v)
  | TBinary, LBinary v => Ok (SBinary v)
  | TFixedSizeBinary n, LUInt128 v =>
      if (n =? 16)%Z then Ok (SFixedSizeBinary (be_bytes 16 v))
      else Err (Catalog "cannot convert iceberg literal {literal:?} to {dt:?}")
  | TFixedSizeBinary _, LBinary v => Ok (SFixedSizeBinary v)
  | TDecimal128 precision scale, LInt128 v => Ok (SDecimal128 v precision scale)
  | _, (LAboveMax | LBelowMin) => Err (Catalog "cannot convert iceberg sentinel literal {literal:?} to {dt:?}")
  | _, _ => Err (Catalog "cannot convert iceberg literal {literal:?} to {dt:?}")
  end.

(** [{frac:0>width$}]. *)
Definition pad_zeros (width : nat) (s : string) : string :=
  Nat.iter (width - String.length s) (String "0") s.

(** Division and remainder truncate towards zero.  Scales with [10^scale] above [i128]
    do not occur: a decimal has at most 38 digits. *)
Definition format_i128_decimal (value scale : Z) : string :=
  if (scale <=? 0)%Z then pretty value
  else
    let divisor := (10 ^ scale)%Z in
    let whole := Z.quot value divisor in
    let frac := Z.to_N (Z.abs (Z.rem value divisor)) in
    pretty whole +:+ "." +:+ pad_zeros (Z.to_nat scale) (pretty frac).

(** ** The library's operations *)

(** [iceberg::spec::DataFile]: the values the builder is given and the accessors return. *)
Record IceDataFile (Datum : Type) := mkIceDataFile {
  idf_content : DataContentType;
  idf_file_path : string;
  idf_file_format : DataFileFormat;
  idf_record_count : N;
  idf_file_size_in_bytes : N;
  idf_column_sizes : gmap Z N;
  idf_value_counts : gmap Z N;
  idf_null_value_counts : gmap Z N;
  idf_nan_value_counts : gmap Z N;
  idf_lower_bounds : gmap Z Datum;
  idf_upper_bounds : gmap Z Datum;
  idf_partition_spec_id : Z;
  idf_partition : list (option Literal);
  idf_sort_order_id : option Z;
  idf_split_offsets : option (list Z);
  idf_equality_ids : option (list Z);
  idf_key_metadata : option (list N) }.
Arguments mkIceDataFile {_}.
Arguments idf_content {_}.
Arguments idf_file_path {_}.
Arguments idf_file_format {_}.
Arguments idf_record_count {_}.
Arguments idf_file_size_in_bytes {_}.
Arguments idf_column_sizes {_}.
Arguments idf_value_counts {_}.
Arguments idf_null_value_counts {_}.
Arguments idf_nan_value_counts {_}.
Arguments idf_lower_bounds {_}.
Arguments idf_upper_bounds {_}.
Arguments idf_partition_spec_id {_}.
Arguments idf_partition {_}.
Arguments idf_sort_order_id {_}.
Arguments idf_split_offsets {_}.
Arguments idf_equality_ids {_}.
Arguments idf_key_metadata {_}.

Record UnboundPartitionField (T : Type) := mkUnboundPartitionField {
  upf_source_id : FieldId; upf_field_id : option FieldId; upf_name : string; upf_transform : T }.
Arguments mkUnboundPartitionField {_}.
Arguments upf_source_id {_}.
Arguments upf_field_id {_}.
Arguments upf_name {_}.
Arguments upf_transform {_}.
Record UnboundPartitionSpec (T : Type) := mkUnboundPartitionSpec {
  ups_spec_id : option Z; ups_fields : list (UnboundPartitionField T) }.
Arguments mkUnboundPartitionSpec {_}.
Arguments ups_spec_id {_}.
Arguments ups_fields {_}.

Class IcebergSpec := {
  Datum : Type;
  datum_literal : Datum → PrimitiveLiteral;
  datum_bool : bool → Datum;
  datum_int : Z → Datum;
  datum_long : Z → Datum;
  datum_float : N → Datum;
  datum_double : N → Datum;
  datum_date : Z → Datum;
  datum_time_micros : Z → result string Datum;
  datum_timestamp_micros : Z → Datum;
  datum_timestamptz_micros : Z → Datum;
  datum_string : string → Datum;
  datum_binary : list N → Datum;
  datum_fixed : list N → Datum;
  decimal_from_str : string → result string Datum;
  data_file_build : IceDataFile Datum → result string (IceDataFile Datum);
  schema_build : list NestedField → Z → list Z → result string IceSchema;
  unbound_spec_build : option Z → list (UnboundPartitionField Transform) → result string (UnboundPartitionSpec Transform);
  partition_type : IcePartitionSpec → IceSchema → result string (list NestedField);
  result_type : Transform → IceType → result string IceType;
  create_transform_function : Transform → result string (Datum → result string (option Datum));
  to_human_string : Transform → IceType → option Literal → string;
}.

Section convert.
Context `{IcebergSpec}.

Definition teodb_schema_to_iceberg (schema : SchemaDefinition) : TeoDBResult IceSchema :=
  fields ← mapM_res column_to_nested_field (sd_columns schema);
  map_err (λ _, Catalog "failed to build iceberg Schema: {e}")
    (schema_build fields (sd_schema_id schema) (sd_identifier_field_ids schema)).

Definition teodb_unbound_partition_spec_to_iceberg
    (spec : UnboundPartitionSpec PartitionTransform) : TeoDBResult (UnboundPartitionSpec Transform) :=
  map_err (λ error, InvalidArgument "partition_spec" error)
    (unbound_spec_build (ups_spec_id spec)
       (map (λ field, mkUnboundPartitionField (upf_source_id field) (upf_field_id field) (upf_name field)
                        (teodb_partition_transform_to_iceberg (upf_transform field))) (ups_fields spec))).

Definition datum_to_teo_scalar (datum : Datum) (dt : TeoDataType) : TeoDBResult TeoScalar :=
  primitive_literal_to_teo_scalar (datum_literal datum) dt.

Definition teo_scalar_to_datum (scalar : TeoScalar) : TeoDBResult Datum :=
  match scalar with
  | SNull => Err (InvalidArgument "scalar" "cannot convert Null TeoScalar to Datum")
  | SBoolean v => Ok (datum_bool v)
  | SInt8 v | SInt16 v | SInt32 v => Ok (datum_int v)
  | SUInt8 v | SUInt16 v => Ok (datum_int (Z.of_N v))
  | SUInt32 v => Ok (datum_long (Z.of_N v))
  | SInt64 v => Ok (datum_long v)
  | SUInt64 v => Ok (datum_long (wrap_signed 64 (Z.of_N v)))
  | SFloat32 v => Ok (datum_float v)
  | SFloat64 v => Ok (datum_double v)
  | SDate32 v => Ok (datum_date v)
  | STime64Micros v => map_err (λ _, Catalog "invalid time value: {e}") (datum_time_micros v)
  | STimestampMicros value tz =>
      Ok (match tz with Some _ => datum_timestamptz_micros value | None => datum_timestamp_micros value end)
  | SUtf8 v => Ok (datum_string v)
  | SBinary v => Ok (datum_binary v)
  | SFixedSizeBinary v => Ok (datum_fixed v)
  | SDecimal128 value precision scale =>
      map_err (λ _, Catalog "decimal conversion error (p={precision},s={scale}): {e}")
        (decimal_from_str (format_i128_decimal value scale))
  end.

(** A fallible map over the entries; the order of the iteration only picks the error. *)
Definition mapM_entries {A B} (f : Z → A → TeoDBResult B) (m : gmap Z A) : TeoDBResult (gmap Z B) :=
  list_to_map <$> mapM_res (λ '(k, a), b ← f k a; Ok (k, b)) (map_to_list m).

Definition convert_teo_scalar_bounds (bounds : gmap FieldId TeoScalar) : TeoDBResult (gmap Z Datum) :=
  mapM_entries (λ _ scalar, teo_scalar_to_datum scalar) bounds.

(** A field the lookup does not know is skipped. *)
Definition convert_datum_bound (type_lookup : gmap FieldId TeoDataType) (field_id : Z) (datum : Datum)
    : TeoDBResult (option TeoScalar) :=
  match type_lookup !! field_id with
  | Some dt => Some <$> datum_to_teo_scalar datum dt
  | None => Ok None
  end.
Definition convert_datum_bounds (bounds : gmap Z Datum) (type_lookup : gmap FieldId TeoDataType)
    : TeoDBResult (gmap FieldId TeoScalar) :=
  omap (M := gmap Z) id <$> mapM_entries (convert_datum_bound type_lookup) bounds.

Definition is_null (value : TeoScalar) : bool := match value with SNull => true | _ => false end.

Definition teodb_partition_values_to_iceberg (values : gmap FieldId TeoScalar) (partition_spec : IcePartitionSpec)
    : TeoDBResult (list (option Literal)) :=
  mapM_res (λ field,
    match values !! ipf_field_id field with
    | Some value =>
        if is_null value then Ok None
        else datum ← teo_scalar_to_datum value; Ok (Some (LitPrimitive (datum_literal datum)))
    | None => Ok None
    end) (ips_fields partition_spec).

Definition literal_to_teo_scalar (literal : Literal) (field_type : IceType) : TeoDBResult TeoScalar :=
  match field_type with
  | NonPrimitive _ => Err (Catalog "unsupported non-primitive partition field type: {field_type:?}")
  | Primitive primitive_type =>
      primitive ← match literal with
                  | LitPrimitive p => Ok p
                  | LitOther _ => Err (Catalog "unsupported non-primitive partition literal: {literal:?}")
                  end;
      dt ← iceberg_primitive_to_teodb primitive_type;
      primitive_literal_to_teo_scalar primitive dt
  end.

Definition iceberg_partition_values_to_teodb (values : list (option Literal)) (partition_spec : IcePartitionSpec)
    (schema : IceSchema) : TeoDBResult (gmap FieldId TeoScalar) :=
  if bool_decide (ips_fields partition_spec = []) then Ok ∅
  else
    types ← map_err (λ _, Catalog "failed to derive Iceberg partition type: {e}") (partition_type partition_spec schema);
    if negb (length types =? length (ips_fields partition_spec))
       || negb (length values =? length (ips_fields partition_spec))
    then Err (Catalog "partition tuple shape mismatch: spec fields={}, type fields={}, values={}")
    else
      foldM (λ converted '(spec_field, typed_field, literal),
        scalar ← match literal with
                 | None => Ok SNull
                 | Some literal => literal_to_teo_scalar literal (nf_type typed_field)
                 end;
        Ok (<[ipf_field_id spec_field := scalar]> converted)) ∅
        (zip (zip (ips_fields partition_spec) types) values).

Definition content_to_iceberg (c : DataContent) : DataContentType :=
  match c with ContentData => CtData | PositionDelete => CtPositionDeletes | EqualityDelete => CtEqualityDeletes end.
Definition content_to_teodb (c : DataContentType) : DataContent :=
  match c with CtData => ContentData | CtPositionDeletes => PositionDelete | CtEqualityDeletes => EqualityDelete end.

Definition teodb_data_file_to_iceberg (df : DataFile) (partition_spec : IcePartitionSpec)
    : TeoDBResult (IceDataFile Datum) :=
  lower_bounds ← convert_teo_scalar_bounds (df_lower_bounds df);
  upper_bounds ← convert_teo_scalar_bounds (df_upper_bounds df);
  partition ← teodb_partition_values_to_iceberg (df_partition_values df) partition_spec;
  map_err (λ _, Catalog "failed to build iceberg DataFile: {e}")
    (data_file_build {|
       idf_content := content_to_iceberg (df_content df);
       idf_file_path := to_uri (df_path df);
       idf_file_format := FfParquet;
       idf_record_count := df_record_count df;
       idf_file_size_in_bytes := df_file_size_bytes df;
       idf_column_sizes := df_column_sizes df;
       idf_value_counts := df_value_counts df;
       idf_null_value_counts := df_null_value_counts df;
       idf_nan_value_counts := df_nan_value_counts df;
       idf_lower_bounds := lower_bounds;
       idf_upper_bounds := upper_bounds;
       idf_partition_spec_id := df_partition_spec_id df;
       idf_partition := partition;
       idf_sort_order_id := df_sort_order_id df;
       idf_split_offsets := if bool_decide (df_split_offsets df = []) then None else Some (df_split_offsets df);
       idf_equality_ids := if bool_decide (df_equality_ids df = []) then None else Some (df_equality_ids df);
       idf_key_metadata := df_key_metadata df |}).

Definition iceberg_location_to_teodb (location : string) : TeoDBResult ObjectLocation :=
  let canonical := if str_contains "://" location then location else "file://" +:+ location in
  map_err (λ _, Catalog "{error}") (parse canonical).

Definition iceberg_data_file_to_teodb (df : IceDataFile Datum) (schema_id : Z)
    (type_lookup : gmap FieldId TeoDataType) (partition_spec_id : Z) (partition_spec : IcePartitionSpec)
    (schema : IceSchema) : TeoDBResult DataFile :=
  format ← match idf_file_format df with
           | FfParquet => Ok FmtParquet
           | FfOther _ => Err (Catalog "unsupported file format: {other:?}")
           end;
  path ← iceberg_location_to_teodb (idf_file_path df);
  lower_bounds ← convert_datum_bounds (idf_lower_bounds df) type_lookup;
  upper_bounds ← convert_datum_bounds (idf_upper_bounds df) type_lookup;
  partition_values ← iceberg_partition_values_to_teodb (idf_partition df) partition_spec schema;
  Ok {| df_content := content_to_teodb (idf_content df);
        df_path := path;
        df_format := format;
        df_partition_spec_id := partition_spec_id;
        df_sort_order_id := idf_sort_order_id df;
        df_schema_id := schema_id;
        df_partition_values := partition_values;
        df_record_count := idf_record_count df;
        df_file_size_bytes := idf_file_size_in_bytes df;
        df_column_sizes := idf_column_sizes df;
        df_value_counts := idf_value_counts df;
        df_null_value_counts := idf_null_value_counts df;
        df_nan_value_counts := idf_nan_value_counts df;
        df_lower_bounds := lower_bounds;
        df_upper_bounds := upper_bounds;
        df_split_offsets := default [] (idf_split_offsets df);
        df_equality_ids := default [] (idf_equality_ids df);
        df_key_metadata := idf_key_metadata df |}.

Record LoadedIcebergDataFile := mkLoadedIcebergDataFile {
  lf_file : IceDataFile Datum; lf_schema_id : Z; lf_schema : IceSchema;
  lf_partition_spec_id : Z; lf_partition_spec : IcePartitionSpec }.

Definition build_type_lookup_from_iceberg (schema : IceSchema) : TeoDBResult (gmap FieldId TeoDataType) :=
  foldM (λ lookup f,
    dt ← match nf_type f with
         | Primitive p => iceberg_primitive_to_teodb p
         | NonPrimitive _ => Err (Catalog "unsupported type for field '{}': {:?}")
         end;
    Ok (<[nf_id f := dt]> lookup)) ∅ (isc_fields schema).

Definition iceberg_data_files_to_teodb (files : list LoadedIcebergDataFile) : TeoDBResult (list DataFile) :=
  mapM_res (λ loaded,
    type_lookup ← build_type_lookup_from_iceberg (lf_schema loaded);
    iceberg_data_file_to_teodb (lf_file loaded) (lf_schema_id loaded) type_lookup
      (lf_partition_spec_id loaded) (lf_partition_spec loaded) (lf_schema loaded)) files.

(** ** Table metadata *)
Inductive Operation := IceAppend | IceOverwrite | IceReplace | IceDelete.
Record IceSnapshot := mkIceSnapshot {
  isn_snapshot_id : Z; isn_parent_snapshot_id : option Z; isn_sequence_number : Z; isn_timestamp_ms : Z;
  isn_operation : Operation; isn_additional_properties : gmap string string }.
Record IceTableMetadata := mkIceTableMetadata {
  itm_uuid : Uuid; itm_location : string;
  itm_current_snapshot_id : option Z; itm_current_schema_id : Z;
  itm_default_partition_spec_id : Z; itm_default_sort_order_id : Z;
  itm_schemas : list IceSchema; itm_partition_specs : list IcePartitionSpec; itm_sort_orders : list IceSortOrder;
  itm_snapshots : list IceSnapshot; itm_current_snapshot : option IceSnapshot;
  itm_properties : gmap string string }.

Definition iceberg_snapshot_to_teodb (snapshot : IceSnapshot) (data_files delete_files : list DataFile) : Snapshot :=
  mkSnapshot (isn_snapshot_id snapshot) (isn_parent_snapshot_id snapshot) (isn_sequence_number snapshot)
    (isn_timestamp_ms snapshot)
    (match isn_operation snapshot with
     | IceAppend => OpAppend | IceOverwrite => OpOverwrite | IceReplace => OpReplace | IceDelete => OpDelete
     end)
    data_files delete_files (isn_additional_properties snapshot).

Definition iceberg_to_teo_metadata (ident : TableIdent) (meta : IceTableMetadata)
    (data_files delete_files : list DataFile)
    : TeoDBResult (TableMetadata SchemaDefinition PartitionSpec SortOrder) :=
  schemas ← mapM_res iceberg_schema_to_teodb (itm_schemas meta);
  partition_specs ← mapM_res iceberg_partition_spec_to_teodb (itm_partition_specs meta);
  sort_orders ← mapM_res iceberg_sort_order_to_teodb (itm_sort_orders meta);
  location ← iceberg_location_to_teodb (itm_location meta);
  let snapshots := map (λ s, iceberg_snapshot_to_teodb s [] []) (itm_snapshots meta) in
  let current_snapshot := (λ s, iceberg_snapshot_to_teodb s data_files delete_files) <$> itm_current_snapshot meta in
  _ ← reject_if (negb ((i32_min <=? itm_default_sort_order_id meta)%Z && (itm_default_sort_order_id meta <=? i32_max)%Z))
        (Catalog "Iceberg sort order id exceeds i32");
  Ok {| tm_table_uuid := itm_uuid meta; tm_namespace := ti_namespace ident; tm_table_name := ti_name ident;
        tm_table_location := location; tm_current_snapshot_id := itm_current_snapshot_id meta;
        tm_current_schema_id := itm_current_schema_id meta;
        tm_current_partition_spec_id := itm_default_partition_spec_id meta;
        tm_current_sort_order_id := itm_default_sort_order_id meta;
        tm_schemas := schemas; tm_partition_specs := partition_specs; tm_sort_orders := sort_orders;
        tm_snapshots := snapshots; tm_current_snapshot := current_snapshot;
        tm_properties := itm_properties meta |}.

(** ** Partition values and paths *)
Definition apply_partition_transform_to_scalar (value : TeoScalar) (data_type : TeoDataType)
    (transform : PartitionTransform) : TeoDBResult TeoScalar :=
  if is_null value then Ok SNull
  else
    let iceberg_transform := teodb_partition_transform_to_iceberg transform in
    source_type ← teodb_to_iceberg_primitive data_type;
    rtype ← map_err (λ _, Catalog "invalid partition transform: {e}")
              (result_type iceberg_transform (Primitive source_type));
    result_primitive ← match rtype with
                       | Primitive p => Ok p
                       | NonPrimitive _ => Err (Catalog "partition transform returned non-primitive type: {result_type:?}")
                       end;
    result_dt ← iceberg_primitive_to_teodb result_primitive;
    datum ← teo_scalar_to_datum value;
    function ← map_err (λ _, Catalog "failed to create partition transform: {e}")
                 (create_transform_function iceberg_transform);
    transformed ← map_err (λ _, Catalog "failed to apply partition transform: {e}") (function datum);
    match transformed with
    | Some transformed => datum_to_teo_scalar transformed result_dt
    | None => Ok SNull
    end.

Definition hex_digit_upper (n : N) : ascii :=
  ascii_of_N (if (n <? 10)%N then 48 + n else 55 + n).
Definition url_plain (c : ascii) : bool :=
  let n := N_of_ascii c in
  ((65 <=? n) && (n <=? 90) || (97 <=? n) && (n <=? 122) || (48 <=? n) && (n <=? 57))%N
  || Ascii.eqb c "-" || Ascii.eqb c "_" || Ascii.eqb c "." || Ascii.eqb c "*".
Fixpoint iceberg_url_encode (value : string) : string :=
  match value with
  | EmptyString => EmptyString
  | String byte value =>
      if url_plain byte then String byte (iceberg_url_encode value)
      else if bool_decide (byte = " "%char) then String "+" (iceberg_url_encode value)
      else String "%" (String (hex_digit_upper (N_of_ascii byte / 16))
                        (String (hex_digit_upper (N_of_ascii byte mod 16)) (iceberg_url_encode value)))
  end.

(** The human-readable value of one partition field. *)
Definition partition_human (schema : SchemaDefinition) (values : gmap FieldId TeoScalar) (field : PartitionField)
    : TeoDBResult string :=
  source ← ok_or (snd <$> list_find (λ c, cm_id c = pf_source_id field) (sd_columns schema))
             (InvalidArgument "partition_spec" "partition field '{}' references missing source field {}");
  value ← ok_or (values !! pf_field_id field)
            (InvalidArgument "partition_values" "partition value for field '{}' ({}) is missing");
  let transform := teodb_partition_transform_to_iceberg (pf_transform field) in
  source_type ← teodb_to_iceberg_primitive (cm_data_type source);
  rtype ← map_err (λ _, Catalog "invalid partition transform: {error}") (result_type transform (Primitive source_type));
  literal ← match value with
            | SNull => Ok None
            | value => datum ← teo_scalar_to_datum value; Ok (Some (LitPrimitive (datum_literal datum)))
            end;
  Ok (to_human_string transform rtype literal).

Definition iceberg_partition_path (schema : SchemaDefinition) (spec : PartitionSpec) (values : gmap FieldId TeoScalar)
    : TeoDBResult string :=
  components ← mapM_res (λ field,
    human ← partition_human schema values field;
    Ok (iceberg_url_encode (pf_name field) +:+ "=" +:+ iceberg_url_encode human)) (ps_fields spec);
  Ok (str_join "/" components).
End convert.
