(* ===== verification/ConvertSpec.v ===== *)
(** * Correctness of the catalog conversions

    What a column type, a scalar and a data file become when they are written to
    the catalog and read back, that partition directories cannot escape or
    collide, and the concrete cases where a value changes on the way. *)

From S2P Require Import Prelude Core Decimal Location DataFiles Schema Catalog Compaction Convert.
Open Scope nat_scope.
Open Scope list_scope.

(** ** Decimal text *)

(** The digits of an unsigned decimal text, without the point. *)
Definition decimal_digits_of (body : string) : string :=
  match split_once "." body with Some (w, f) => w +:+ f | None => body end.
(** The value of a decimal text without its point: what a decimal parser keeps as mantissa. *)
Definition decimal_mantissa (s : string) : option Z :=
  match str_strip_prefix "-" s with
  | Some body => (λ n, (- Z.of_N n)%Z) <$> parse_magnitude u128_max (decimal_digits_of body)
  | None => Z.of_N <$> parse_magnitude u128_max (decimal_digits_of s)
  end.

Lemma parse_digits_ge max b s f : parse_digits max b s = Some f → (b ≤ f)%N.
Proof.
  revert b. induction s as [|c s IH]; intros b; simpl; [intros [= ->]; lia|].
  destruct (digit_value c) as [d|]; simpl; [|done].
  destruct (_ <=? _)%N; [|done]. intros Hf%IH. lia.
Qed.

Lemma parse_digits_app max a s1 s2 :
  parse_digits max a (s1 +:+ s2) = parse_digits max a s1 ≫= λ b, parse_digits max b s2.
Proof.
  revert a. induction s1 as [|c s1 IH]; intros a; [by rewrite str_app_nil|].
  rewrite str_app_cons. simpl. destruct (digit_value c); simpl; [|done].
  destruct (_ <=? _)%N; simpl; auto.
Qed.

(** Digits read after an accumulated prefix. *)
Lemma parse_digits_shift max max' a b s f :
  parse_digits max' b s = Some f →
  (a * 10 ^ N.of_nat (String.length s) + f ≤ max)%N →
  parse_digits max (a + b) s = Some (a * 10 ^ N.of_nat (String.length s) + f)%N.
Proof.
  revert a b. induction s as [|c s IH]; intros a b; cbn [parse_digits String.length].
  { intros [= ->] _. f_equal. simpl. lia. }
  destruct (digit_value c) as [d|]; simpl; [|done].
  destruct (b * 10 + d <=? max')%N; [|done]. intros Hf Hmax.
  rewrite Nat2N.inj_succ, N.pow_succ_r' in *.
  replace ((a + b) * 10 + d)%N with (a * 10 + (b * 10 + d))%N by lia.
  replace (a * (10 * 10 ^ N.of_nat (String.length s)))%N with (a * 10 * 10 ^ N.of_nat (String.length s))%N in * by lia.
  pose proof (parse_digits_ge _ _ _ _ Hf).
  assert (1 ≤ 10 ^ N.of_nat (String.length s))%N by (pose proof (N.pow_nonzero 10 (N.of_nat (String.length s))); lia).
  rewrite (proj2 (N.leb_le _ _)) by nia. by apply IH.
Qed.

Lemma pad_zeros_parse max w s : parse_digits max 0 (pad_zeros w s) = parse_digits max 0 s.
Proof.
  unfold pad_zeros. induction (w - String.length s) as [|k IH]; [done|]. simpl.
  change (digit_value "0") with (Some 0%N). simpl. by destruct max.
Qed.

Lemma pretty_N_go_length k n s :
  (n < 10 ^ N.of_nat k)%N → String.length (pretty_N_go n s) ≤ k + String.length s.
Proof.
  revert n s. induction k as [|k IH]; intros n s Hn.
  { assert (n = 0%N) as -> by (simpl in Hn; lia). by rewrite pretty_N_go_0. }
  destruct (N.eq_0_gt_0_cases n) as [->|Hpos]; [rewrite pretty_N_go_0; lia|].
  rewrite pretty_N_go_step by lia. etrans; [apply IH|simpl; lia].
  rewrite Nat2N.inj_succ, N.pow_succ_r' in Hn. apply N.Div0.div_lt_upper_bound; lia.
Qed.

Lemma pad_zeros_length k (n : N) :
  0 < k → (n < 10 ^ N.of_nat k)%N → String.length (pad_zeros k (pretty n)) = k.
Proof.
  intros Hk Hn.
  assert (String.length (pretty n) ≤ k) as Hle.
  { unfold pretty, pretty_N. case_decide; [simpl; lia|].
    etrans; [by apply pretty_N_go_length|]. simpl. lia. }
  unfold pad_zeros. assert (∀ j s, String.length (Nat.iter j (String "0") s) = j + String.length s) as Hiter.
  { induction j; simpl; auto. }
  rewrite Hiter. lia.
Qed.

Lemma parse_magnitude_digits max (w f : N) k :
  0 < k → (f < 10 ^ N.of_nat k)%N → (w * 10 ^ N.of_nat k + f ≤ max)%N →
  parse_magnitude max (pretty w +:+ pad_zeros k (pretty f)) = Some (w * 10 ^ N.of_nat k + f)%N.
Proof.
  intros Hk Hf Hmax.
  assert (1 ≤ 10 ^ N.of_nat k)%N as Hp by (pose proof (N.pow_nonzero 10 (N.of_nat k)); lia).
  pose proof (parse_magnitude_pretty max w ltac:(nia)) as Hw.
  pose proof (parse_magnitude_pretty max f ltac:(nia)) as Hfd.
  unfold parse_magnitude in *. destruct (pretty_N_digit w) as (dw & rw & _ & Ew).
  destruct (pretty_N_digit f) as (d' & r' & _ & Ef).
  rewrite Ew in *. rewrite Ef in Hfd. cbn [str_is_empty] in *. rewrite str_app_cons. cbn [str_is_empty].
  rewrite <-str_app_cons, parse_digits_app, Hw. cbn [mbind option_bind].
  rewrite <-Ef, <-(pad_zeros_parse _ k) in Hfd.
  pose proof (parse_digits_shift max max w 0 _ f Hfd) as Hs.
  rewrite pad_zeros_length, N.add_0_r in Hs by done. by apply Hs.
Qed.

Lemma decimal_digits_of_pretty (n : N) : decimal_digits_of (pretty n) = pretty n.
Proof.
  unfold decimal_digits_of. destruct (split_once "." (pretty n)) as [[x y]|] eqn:E; [|done].
  apply split_once_Some in E as [E _].
  assert (str_free "." (pretty n) = true) as Hfree by (apply pretty_N_free; vm_compute; auto).
  rewrite E, str_free_app, andb_true_iff in Hfree. destruct Hfree as [_ [? _]%str_free_cons]. done.
Qed.

Lemma decimal_digits_of_point (w : N) f : decimal_digits_of (pretty w +:+ "." +:+ f) = pretty w +:+ f.
Proof.
  unfold decimal_digits_of. rewrite (proj2 (split_once_Some "." _ (pretty w) f)); [done|].
  split; [done|]. apply pretty_N_free. vm_compute. auto.
Qed.

(** A text that starts with the digits of a number, with and without a minus. *)
Lemma decimal_mantissa_sign (n : N) r m :
  parse_magnitude u128_max (decimal_digits_of (pretty n +:+ r)) = Some m →
  decimal_mantissa (pretty n +:+ r) = Some (Z.of_N m) ∧
  decimal_mantissa ("-" +:+ (pretty n +:+ r)) = Some (- Z.of_N m)%Z.
Proof.
  intros Hm. unfold decimal_mantissa. split.
  - assert (str_strip_prefix "-" (pretty n +:+ r) = None) as ->; [|by rewrite Hm].
    destruct (pretty_N_digit n) as (d & r' & Hd & ->). rewrite str_app_cons. simpl.
    rewrite decide_False; [done|]. intros Heq. apply (digit_char_neq d "-" Hd); [vm_compute; auto|done].
  - by rewrite (proj2 (str_strip_prefix_Some "-" _ (pretty n +:+ r)) eq_refl), Hm.
Qed.

Lemma pretty_Z_nonneg (z : Z) : (0 ≤ z)%Z → pretty z = pretty (Z.to_N z).
Proof. by destruct z. Qed.
Lemma pretty_Z_neg (z : Z) : (z < 0)%Z → pretty z = "-" +:+ pretty (Z.to_N (- z)).
Proof. by destruct z. Qed.

(** The decimal text carries the value, except that a value strictly between -1 and 0 is
    written without its sign. *)
Definition decimal_stored (value scale : Z) : Z :=
  if ((- 10 ^ scale <? value) && (value <? 0))%Z then (- value)%Z else value.
Lemma format_i128_decimal_mantissa value scale :
  (0 ≤ scale)%Z → (Z.abs value < 10 ^ 38)%Z →
  decimal_mantissa (format_i128_decimal value scale) = Some (decimal_stored value scale).
Proof.
  intros Hs Hv. unfold format_i128_decimal, decimal_stored.
  assert (10 ^ 38 ≤ Z.of_N u128_max)%Z as Hu by (vm_compute; discriminate).
  destruct (Z.leb_spec scale 0) as [H0|Hpos].
  - assert (scale = 0%Z) as -> by lia. rewrite Z.pow_0_r.
    assert (∀ n : N, (n ≤ u128_max)%N → parse_magnitude u128_max (decimal_digits_of (pretty n +:+ "")) = Some n) as Hp.
    { intros n Hn. rewrite str_app_nil_r, decimal_digits_of_pretty. by apply parse_magnitude_pretty. }
    destruct (Z.ltb_spec value 0) as [Hn|Hn].
    + rewrite (proj2 (Z.ltb_ge _ _)) by lia. cbn [andb]. rewrite pretty_Z_neg by done.
      rewrite <-(str_app_nil_r (pretty (Z.to_N (- value)))).
      rewrite (proj2 (decimal_mantissa_sign _ _ _ (Hp (Z.to_N (- value)) ltac:(lia)))). f_equal. lia.
    + rewrite andb_false_r, pretty_Z_nonneg by done.
      rewrite <-(str_app_nil_r (pretty (Z.to_N value))).
      rewrite (proj1 (decimal_mantissa_sign _ _ _ (Hp (Z.to_N value) ltac:(lia)))). f_equal. lia.
  - set (D := (10 ^ scale)%Z). assert (0 < D)%Z as HD by (apply Z.pow_pos_nonneg; lia).
    set (w := Z.to_N (Z.abs (Z.quot value D))). set (f := Z.to_N (Z.abs (Z.rem value D))).
    assert (Z.of_N (10 ^ N.of_nat (Z.to_nat scale)) = D) as HDn.
    { unfold D. rewrite N2Z.inj_pow. f_equal. lia. }
    assert (Z.abs value = Z.of_N (w * 10 ^ N.of_nat (Z.to_nat scale) + f)) as Habs.
    { rewrite N2Z.inj_add, N2Z.inj_mul, HDn. unfold w, f. rewrite !Z2N.id by lia.
      rewrite <-Z.quot_abs, <-Z.rem_abs, (Z.abs_eq D) by lia.
      pose proof (Z.quot_rem' (Z.abs value) D). lia. }
    assert (f < 10 ^ N.of_nat (Z.to_nat scale))%N as Hf.
    { pose proof (Z.rem_bound_abs value D ltac:(lia)). unfold f. lia. }
    assert (parse_magnitude u128_max (decimal_digits_of (pretty w +:+ ("." +:+ pad_zeros (Z.to_nat scale) (pretty f))))
            = Some (Z.to_N (Z.abs value))) as Hp.
    { rewrite decimal_digits_of_point, parse_magnitude_digits by lia. f_equal. lia. }
    destruct (decimal_mantissa_sign _ _ _ Hp) as [Hplus Hminus]. rewrite Z2N.id in * by lia.
    destruct (Z.ltb_spec value 0) as [Hneg|Hneg].
    + destruct (Z.ltb_spec (- D) value) as [Hs1|Hs1]; cbn [andb].
      * assert (Z.quot value D = 0)%Z as Hq by (apply Z.quot_small_iff; lia).
        replace (pretty (Z.quot value D)) with (pretty w) by (unfold w; by rewrite Hq).
        rewrite Hplus. f_equal. lia.
      * assert (Z.quot value D < 0)%Z as Hq.
        { pose proof (Z.quot_pos (- value) D ltac:(lia) ltac:(lia)). rewrite Z.quot_opp_l in * by lia.
          assert (Z.quot value D ≠ 0)%Z; [|lia].
          rewrite Z.quot_small_iff by lia. lia. }
        rewrite pretty_Z_neg by done. replace (Z.to_N (- Z.quot value D)) with w by (unfold w; lia).
        rewrite <-str_app_assoc, Hminus. f_equal. lia.
    + rewrite andb_false_r. pose proof (Z.quot_pos value D ltac:(lia) ltac:(lia)).
      rewrite pretty_Z_nonneg by done. replace (Z.to_N (Z.quot value D)) with w by (unfold w; lia).
      rewrite Hplus. f_equal. lia.
Qed.

(** ** The library's laws *)

(** Largest number of digits of a decimal the library parses exactly. *)
Definition DECIMAL_DIGITS : Z := 28.
Definition DAY_MICROS : Z := 86400000000.

Class IcebergLaws `{IcebergSpec} : Prop := {
  bool_literal v : datum_literal (datum_bool v) = LBoolean v;
  int_literal v : datum_literal (datum_int v) = LInt v;
  long_literal v : datum_literal (datum_long v) = LLong v;
  float_literal v : datum_literal (datum_float v) = LFloat v;
  double_literal v : datum_literal (datum_double v) = LDouble v;
  date_literal v : datum_literal (datum_date v) = LInt v;
  time_literal v : (0 ≤ v < DAY_MICROS)%Z → ∃ d, datum_time_micros v = Ok d ∧ datum_literal d = LLong v;
  timestamp_literal v : datum_literal (datum_timestamp_micros v) = LLong v;
  timestamptz_literal v : datum_literal (datum_timestamptz_micros v) = LLong v;
  string_literal v : datum_literal (datum_string v) = LString v;
  binary_literal v : datum_literal (datum_binary v) = LBinary v;
  fixed_literal v : datum_literal (datum_fixed v) = LBinary v;
  (** The unscaled value of a decimal text within the parser's digits. *)
  decimal_literal s m :
    decimal_mantissa s = Some m → (Z.abs m < 10 ^ DECIMAL_DIGITS)%Z →
    ∃ d, decimal_from_str s = Ok d ∧ datum_literal d = LInt128 m;
  (** Every mandatory field is set. *)
  data_file_builds f : data_file_build f = Ok f;
  schema_builds fields id idents s :
    schema_build fields id idents = Ok s →
    isc_fields s = fields ∧ isc_schema_id s = id ∧ ∀ x, x ∈ isc_identifier_field_ids s ↔ x ∈ idents;
}.

(** ** What the catalog stores of types and scalars *)
Definition catalog_type (dt : TeoDataType) : TeoDataType :=
  match dt with
  | TInt8 | TInt16 | TUInt8 | TUInt16 => TInt32
  | TUInt32 | TUInt64 => TInt64
  | TTimestampMicros (Some _) => TTimestampMicros (Some "UTC")
  | dt => dt
  end.
Definition catalog_scalar (v : TeoScalar) : TeoScalar :=
  match v with
  | SInt8 z | SInt16 z => SInt32 z
  | SUInt8 n | SUInt16 n => SInt32 (Z.of_N n)
  | SUInt32 n => SInt64 (Z.of_N n)
  | SUInt64 n => SInt64 (wrap_signed 64 (Z.of_N n))
  | STimestampMicros v (Some _) => STimestampMicros v (Some "UTC")
  | SDecimal128 v p s => SDecimal128 (decimal_stored v s) p s
  | v => v
  end.

(** The column type a scalar belongs to. *)
Definition scalar_type (v : TeoScalar) : TeoDataType :=
  match v with
  | SNull | SBoolean _ => TBoolean
  | SInt8 _ => TInt8 | SInt16 _ => TInt16 | SInt32 _ => TInt32 | SInt64 _ => TInt64
  | SUInt8 _ => TUInt8 | SUInt16 _ => TUInt16 | SUInt32 _ => TUInt32 | SUInt64 _ => TUInt64
  | SFloat32 _ => TFloat32 | SFloat64 _ => TFloat64
  | SDecimal128 _ p s => TDecimal128 p s
  | SDate32 _ => TDate32
  | STimestampMicros _ tz => TTimestampMicros tz
  | STime64Micros _ => TTime64Micros
  | SUtf8 _ => TUtf8
  | SBinary _ => TBinary
  | SFixedSizeBinary bs => TFixedSizeBinary (Z.of_nat (length bs))
  end.

(** Types and scalars in the ranges of their representation. *)
Definition type_ok (dt : TeoDataType) : Prop :=
  match dt with
  | TDecimal128 p s => (p < 256)%N ∧ (-128 ≤ s < 128)%Z
  | TFixedSizeBinary n => (i32_min ≤ n ≤ i32_max)%Z
  | _ => True
  end.
Definition scalar_ok (v : TeoScalar) : Prop :=
  match v with
  | SNull => False
  | STime64Micros z => (0 ≤ z < DAY_MICROS)%Z
  | SDecimal128 z _ s => (0 ≤ s)%Z ∧ (Z.abs z < 10 ^ DECIMAL_DIGITS)%Z
  | _ => True
  end.

Lemma wrap_signed_id bits z :
  (0 < bits)%Z → (- 2 ^ (bits - 1) ≤ z < 2 ^ (bits - 1))%Z → wrap_signed bits z = z.
Proof.
  intros Hb Hz. unfold wrap_signed.
  assert (2 ^ bits = 2 * 2 ^ (bits - 1))%Z as Hp.
  { rewrite <-Z.pow_succ_r by lia. f_equal. lia. }
  destruct (Z.ltb_spec z 0).
  - assert (z mod 2 ^ bits = z + 2 ^ bits)%Z as ->.
    { rewrite <-(Z.mod_add z 1) by lia. rewrite Z.mod_small; lia. }
    rewrite (proj2 (Z.ltb_ge _ _)) by lia. lia.
  - rewrite Z.mod_small by lia. by rewrite (proj2 (Z.ltb_lt _ _)) by lia.
Qed.

(** A signed value survives the detour over a wider unsigned type. *)
Lemma wrap_signed_unsigned bits wide z :
  (0 < bits ≤ wide)%Z → (- 2 ^ (bits - 1) ≤ z < 2 ^ (bits - 1))%Z →
  wrap_signed bits (Z.of_N (wrap_unsigned wide z)) = z.
Proof.
  intros Hb Hz. rewrite <-(wrap_signed_id bits z) at 2 by lia.
  unfold wrap_signed, wrap_unsigned. pose proof (Z.mod_pos_bound z (2 ^ wide) ltac:(apply Z.pow_pos_nonneg; lia)).
  rewrite Z2N.id by lia.
  replace (2 ^ wide)%Z with (2 ^ bits * 2 ^ (wide - bits))%Z by (rewrite <-Z.pow_add_r by lia; f_equal; lia).
  assert (0 < 2 ^ bits)%Z by (apply Z.pow_pos_nonneg; lia).
  assert (0 < 2 ^ (wide - bits))%Z by (apply Z.pow_pos_nonneg; lia).
  assert (((z mod (2 ^ bits * 2 ^ (wide - bits))) mod 2 ^ bits) = z mod 2 ^ bits)%Z as ->; [|done].
  rewrite Z.rem_mul_r by lia. rewrite Z.mul_comm, Z.mod_add by lia. by apply Z.mod_mod; lia.
Qed.

(** A column type that the catalog stored and returned is [catalog_type]. *)
Lemma type_roundtrip dt :
  type_ok dt → teodb_to_iceberg_primitive dt ≫= iceberg_primitive_to_teodb = Ok (catalog_type dt).
Proof.
  destruct dt as [| | | | | | | | | | |p s| |[tz|]| | | |n]; try done; cbn [type_ok]; intros Hok.
  - cbn. f_equal. f_equal.
    + unfold wrap_unsigned. rewrite Z.mod_small by (simpl; lia). lia.
    + apply wrap_signed_unsigned; simpl; lia.
  - cbn [teodb_to_iceberg_primitive mbind result_bind]. destruct (Z.eqb_spec n 16) as [->|]; [done|].
    cbn. f_equal. f_equal. unfold i32_min, i32_max in Hok. apply wrap_signed_unsigned; simpl; lia.
Qed.

(** ** Entry-wise fallible maps *)
Lemma mapM_entries_Ok {A B} (f : Z → A → TeoDBResult B) m m' :
  mapM_entries f m = Ok m' →
  ∀ k, m' !! k = (m !! k ≫= λ a, match f k a with Ok b => Some b | Err _ => None end).
Proof.
  unfold mapM_entries. destruct (mapM_res _ _) as [l|] eqn:Hl; [|done]. intros [= <-] k.
  apply mapM_res_Ok in Hl.
  assert (l.*1 = (map_to_list m).*1) as Hkeys.
  { clear -Hl. induction Hl as [|[k a] [k' b] l1 l2 Hab _ IH]; [done|].
    apply bind_Ok in Hab as (b' & _ & [= <- <-]). simpl. by f_equal. }
  assert (NoDup l.*1) as Hnd by (rewrite Hkeys; apply NoDup_fst_map_to_list).
  destruct (m !! k) as [a|] eqn:Ha; simpl.
  - apply elem_of_map_to_list, list_elem_of_lookup_1 in Ha as [i Hi].
    destruct (Forall2_lookup_l _ _ _ _ _ Hl Hi) as ([k' b] & Hb & Hf).
    apply bind_Ok in Hf as (b' & Hf & [= <- <-]). rewrite Hf.
    apply elem_of_list_to_map_1; [done|]. by eapply list_elem_of_lookup_2.
  - apply not_elem_of_list_to_map_1. rewrite Hkeys. intros ([k' a] & -> & Hin)%list_elem_of_fmap.
    apply elem_of_map_to_list in Hin. simpl in Ha. congruence.
Qed.

Lemma mapM_entries_total {A B} (f : Z → A → TeoDBResult B) m :
  map_Forall (λ k a, is_ok (f k a) = true) m → ∃ m', mapM_entries f m = Ok m'.
Proof.
  intros Hm. unfold mapM_entries.
  assert (∃ l, mapM_res (λ '(k, a), b ← f k a; Ok (k, b)) (map_to_list m) = Ok l) as [l ->]; [|eexists; done].
  assert (∀ k a, (k, a) ∈ map_to_list m → is_ok (f k a) = true) as Hl.
  { intros k a Hin. by apply Hm, elem_of_map_to_list. }
  induction (map_to_list m) as [|[k a] l IH]; [by eexists|].
  destruct IH as [l' Hl']; [intros; apply Hl; by right|]. simpl.
  pose proof (Hl k a ltac:(by left)) as Hk. destruct (f k a) as [b|]; [|done].
  exists ((k, b) :: l'). simpl. by rewrite Hl'.
Qed.

(** ** Scalars, bounds, partition tuples and data files *)
Section roundtrip.
Context `{IcebergLaws}.

(** A scalar written as a datum reads back, under the column type the catalog returns, as
    [catalog_scalar]. *)
Lemma scalar_catalog_roundtrip v :
  scalar_ok v →
  ∃ d, teo_scalar_to_datum v = Ok d ∧
    datum_to_teo_scalar d (catalog_type (scalar_type v)) = Ok (catalog_scalar v).
Proof.
  unfold datum_to_teo_scalar. destruct v as [|b|z|z|z|z|n|n|n|n|b|b|z p s|z|z [tz|]|z|s|bs|bs];
    cbn [scalar_ok scalar_type catalog_type catalog_scalar teo_scalar_to_datum]; try done; intros Hok;
    try (eexists; split; [reflexivity|];
         by rewrite ?bool_literal, ?int_literal, ?long_literal, ?float_literal, ?double_literal, ?date_literal,
           ?timestamp_literal, ?timestamptz_literal, ?string_literal, ?binary_literal, ?fixed_literal).
  - destruct Hok as [Hs Hz].
    assert (10 ^ DECIMAL_DIGITS < 10 ^ 38)%Z by (vm_compute; reflexivity).
    destruct (decimal_literal (format_i128_decimal z s) (decimal_stored z s)) as (d & -> & Hd).
    + apply format_i128_decimal_mantissa; lia.
    + unfold decimal_stored. destruct (_ && _); lia.
    + exists d. split; [done|]. by rewrite Hd.
  - destruct (time_literal z Hok) as (d & -> & Hd). exists d. split; [done|]. by rewrite Hd.
Qed.

(** Bounds of known columns, each of its column's type. *)
Definition bounds_ok (lookup : gmap FieldId TeoDataType) (bounds : gmap FieldId TeoScalar) : Prop :=
  map_Forall (λ id v, scalar_ok v ∧ lookup !! id = Some (catalog_type (scalar_type v))) bounds.

Lemma bounds_roundtrip lookup bounds :
  bounds_ok lookup bounds →
  ∃ ds, convert_teo_scalar_bounds bounds = Ok ds ∧ convert_datum_bounds ds lookup = Ok (catalog_scalar <$> bounds).
Proof.
  intros Hb. destruct (mapM_entries_total (λ _ scalar, teo_scalar_to_datum scalar) bounds) as [ds Hds].
  { intros k v Hv. destruct (Hb k v Hv) as [Hok _].
    destruct (scalar_catalog_roundtrip v Hok) as (d & -> & _). done. }
  exists ds. split; [done|]. pose proof (mapM_entries_Ok _ _ _ Hds) as Hlk.
  assert (∀ k d, ds !! k = Some d → ∃ v, bounds !! k = Some v ∧
            convert_datum_bound lookup k d = Ok (Some (catalog_scalar v))) as Hback.
  { intros k d Hd. rewrite Hlk in Hd. destruct (bounds !! k) as [v|] eqn:Hv; [|done]. simpl in Hd.
    destruct (Hb k v Hv) as [Hok Hty]. destruct (scalar_catalog_roundtrip v Hok) as (d' & Hd' & Hs).
    rewrite Hd' in Hd. injection Hd as ->. exists v. split; [done|].
    unfold convert_datum_bound. by rewrite Hty, Hs. }
  unfold convert_datum_bounds. destruct (mapM_entries_total (convert_datum_bound lookup) ds) as [m Hm].
  { intros k d Hd. destruct (Hback k d Hd) as (v & _ & ->). done. }
  rewrite Hm. simpl. f_equal. apply map_eq. intros k. rewrite lookup_omap, lookup_fmap, (mapM_entries_Ok _ _ _ Hm).
  destruct (ds !! k) as [d|] eqn:Hd; simpl.
  - destruct (Hback k d Hd) as (v & -> & ->). done.
  - rewrite Hlk in Hd. destruct (bounds !! k) as [v|] eqn:Hv; [|done]. simpl in Hd.
    destruct (Hb k v Hv) as [Hok _]. destruct (scalar_catalog_roundtrip v Hok) as (d' & Hd' & _).
    by rewrite Hd' in Hd.
Qed.

(** A partition value of a field of the type the library derives. *)
Definition partition_value_ok (values : gmap FieldId TeoScalar) (field : IcePartitionField) (typed : NestedField)
    : Prop :=
  ∃ v, values !! ipf_field_id field = Some v ∧
    (v = SNull ∨ scalar_ok v ∧ ∃ p, nf_type typed = Primitive p ∧
       iceberg_primitive_to_teodb p = Ok (catalog_type (scalar_type v))).

Definition insert_partition (acc : gmap FieldId TeoScalar) (entry : IcePartitionField * NestedField * option Literal)
    : TeoDBResult (gmap FieldId TeoScalar) :=
  let '(spec_field, typed_field, literal) := entry in
  scalar ← match literal with
           | None => Ok SNull
           | Some literal => literal_to_teo_scalar literal (nf_type typed_field)
           end;
  Ok (<[ipf_field_id spec_field := scalar]> acc).

Lemma partition_fold values fields types acc :
  Forall2 (partition_value_ok values) fields types →
  ∃ lits res, teodb_partition_values_to_iceberg values (mkIcePartitionSpec 0 fields) = Ok lits ∧
    length lits = length fields ∧
    foldM insert_partition acc (zip (zip fields types) lits) = Ok res ∧
    ∀ k, res !! k = if bool_decide (k ∈ map ipf_field_id fields) then catalog_scalar <$> values !! k else acc !! k.
Proof.
  unfold teodb_partition_values_to_iceberg. simpl. intros Hall. revert acc.
  induction Hall as [|field typed fields types (v & Hv & Hty) _ IH]; intros acc.
  { exists [], acc. repeat split. }
  cbn [mapM_res]. rewrite Hv.
  assert (∃ lit, (if is_null v then Ok None
                  else datum ← teo_scalar_to_datum v; Ok (Some (LitPrimitive (datum_literal datum)))) = Ok lit ∧
            ∀ acc, insert_partition acc (field, typed, lit) = Ok (<[ipf_field_id field := catalog_scalar v]> acc))
    as (lit & Hlit & Hins).
  { destruct Hty as [->|(Hok & p & Hp & Hdt)]; [by exists None|].
    destruct (scalar_catalog_roundtrip v Hok) as (d & Hd & Hs).
    exists (Some (LitPrimitive (datum_literal d))). split.
    - destruct v; [done|..]; cbn [is_null]; by rewrite Hd.
    - intros acc'. unfold insert_partition, literal_to_teo_scalar. rewrite Hp. cbn [mbind result_bind].
      rewrite Hdt. cbn [mbind result_bind]. unfold datum_to_teo_scalar in Hs. by rewrite Hs. }
  destruct (IH (<[ipf_field_id field := catalog_scalar v]> acc)) as (lits & res & Hlits & Hlen & Hfold & Hres).
  exists (lit :: lits), res. rewrite Hlit. cbn [mbind result_bind]. rewrite Hlits. split; [done|].
  split; [simpl; by rewrite Hlen|]. split.
  - cbn [zip zip_with foldM]. rewrite Hins. done.
  - intros k. rewrite Hres. simpl. destruct (decide (k = ipf_field_id field)) as [->|Hne].
    + rewrite (bool_decide_eq_true_2 (_ ∈ _ :: _)) by (by left). rewrite Hv, lookup_insert_eq.
      by destruct (bool_decide _).
    + rewrite lookup_insert_ne by done. erewrite bool_decide_ext; [done|]. rewrite elem_of_cons. naive_solver.
Qed.

(** The tuple of a data file: the fields of its spec and no others. *)
Definition partition_ok (spec : IcePartitionSpec) (schema : IceSchema) (values : gmap FieldId TeoScalar) : Prop :=
  (∀ k, is_Some (values !! k) → k ∈ map ipf_field_id (ips_fields spec)) ∧
  (ips_fields spec = [] ∨
   ∃ types, partition_type spec schema = Ok types ∧ Forall2 (partition_value_ok values) (ips_fields spec) types).

Lemma no_fields_empty (values : gmap FieldId TeoScalar) :
  (∀ k, is_Some (values !! k) → k ∈ @nil Z) → values = ∅.
Proof.
  intros Hdom. apply map_empty. intros k. destruct (values !! k) eqn:Hk; [|done].
  exfalso. apply (not_elem_of_nil k), Hdom. by eexists.
Qed.

Lemma partition_roundtrip spec schema values :
  partition_ok spec schema values →
  ∃ lits, teodb_partition_values_to_iceberg values spec = Ok lits ∧
    iceberg_partition_values_to_teodb lits spec schema = Ok (catalog_scalar <$> values).
Proof.
  intros [Hdom Hty]. destruct spec as [id fields]. cbn [ips_fields] in *.
  unfold iceberg_partition_values_to_teodb. cbn [ips_fields].
  destruct Hty as [->|(types & Hpt & Hall)].
  { exists []. split; [done|]. rewrite bool_decide_eq_true_2 by done. by rewrite (no_fields_empty values Hdom), fmap_empty. }
  destruct (partition_fold values fields types ∅ Hall) as (lits & res & Hlits & Hlen & Hfold & Hres).
  exists lits. split; [done|]. case_bool_decide as Hnil.
  - subst fields. by rewrite (no_fields_empty values Hdom), fmap_empty.
  - rewrite Hpt. cbn [map_err mbind result_bind]. rewrite (Forall2_length _ _ _ Hall), Hlen in *.
    rewrite <-(Forall2_length _ _ _ Hall), !Nat.eqb_refl. cbn [negb orb].
    change (foldM insert_partition ∅ (zip (zip fields types) lits) = Ok (catalog_scalar <$> values)).
    rewrite Hfold. f_equal. apply map_eq. intros k. rewrite Hres, lookup_fmap, lookup_empty.
    case_bool_decide as Hk; [done|]. destruct (values !! k) eqn:Hv; [|done].
    destruct Hk. apply Hdom. by eexists.
Qed.
End roundtrip.

(** ** Partition directories *)
Definition hex_digit_value (c : ascii) : option N :=
  let n := N_of_ascii c in
  if ((48 <=? n) && (n <=? 57))%N then Some (n - 48)%N
  else if ((65 <=? n) && (n <=? 70))%N then Some (n - 55)%N else None.

(** The decoder of form-encoded text. *)
Fixpoint url_decode (s : string) : option string :=
  match s with
  | EmptyString => Some EmptyString
  | String "%" (String a (String b s)) =>
      hi ← hex_digit_value a; lo ← hex_digit_value b; r ← url_decode s;
      Some (String (ascii_of_N (16 * hi + lo)) r)
  | String c s => r ← url_decode s; Some (String (if bool_decide (c = "+"%char) then " "%char else c) r)
  end.
(** One path component read back into its field name and value. *)
Definition decode_component (component : string) : option (string * string) :=
  '(name, value) ← split_once "=" component; name ← url_decode name; value ← url_decode value; Some (name, value).

Definition ascii_all (P : ascii → bool) : bool :=
  forallb (λ n, P (ascii_of_nat n)) (seq 0 256).
Lemma ascii_all_spec P : ascii_all P = true → ∀ c, P c = true.
Proof.
  intros Hall c. unfold ascii_all in Hall. rewrite forallb_forall in Hall.
  specialize (Hall (nat_of_ascii c)). rewrite ascii_nat_embedding in Hall. apply Hall.
  apply in_seq. pose proof (nat_ascii_bounded c). lia.
Qed.

Lemma url_plain_decode c s : url_plain c = true → url_decode (String c s) = r ← url_decode s; Some (String c r).
Proof.
  intros Hc.
  assert (c ≠ "%"%char ∧ c ≠ "+"%char) as [H1 H2].
  { pose proof (ascii_all_spec (λ c, implb (url_plain c) (negb (Ascii.eqb c "%") && negb (Ascii.eqb c "+")))
      ltac:(vm_compute; reflexivity) c) as Hp.
    cbn beta in Hp. rewrite Hc in Hp. split; intros ->; done. }
  destruct c as [[] [] [] [] [] [] [] []]; try reflexivity; by destruct H1 || destruct H2.
Qed.

Definition hex_digit_ok (n : N) : bool := bool_decide (hex_digit_value (hex_digit_upper n) = Some n).
Lemma hex_byte c :
  hex_digit_value (hex_digit_upper (N_of_ascii c / 16)) = Some (N_of_ascii c / 16)%N ∧
  hex_digit_value (hex_digit_upper (N_of_ascii c mod 16)) = Some (N_of_ascii c mod 16)%N ∧
  ascii_of_N (16 * (N_of_ascii c / 16) + N_of_ascii c mod 16) = c.
Proof.
  pose proof (ascii_all_spec (λ c, hex_digit_ok (N_of_ascii c / 16) && hex_digit_ok (N_of_ascii c mod 16))
    ltac:(vm_compute; reflexivity) c) as Hh.
  cbn beta in Hh. unfold hex_digit_ok in Hh. inv_checks. split_and!; [done|done|].
  rewrite <-N.div_mod'. apply ascii_N_embedding.
Qed.

Lemma url_decode_encode s : url_decode (iceberg_url_encode s) = Some s.
Proof.
  induction s as [|c s IH]; [done|]. cbn [iceberg_url_encode].
  destruct (url_plain c) eqn:Hc; [by rewrite url_plain_decode, IH|].
  case_bool_decide as Hsp; [subst c; cbn; by rewrite IH|].
  destruct (hex_byte c) as (Hhi & Hlo & Hbyte). cbn [url_decode]. rewrite Hhi, Hlo, IH. cbn [mbind option_bind].
  by rewrite Hbyte.
Qed.

(** Encoded text has neither a separator nor an equals sign. *)
Lemma url_encode_cons b s :
  iceberg_url_encode (String b s) = iceberg_url_encode (String b "") +:+ iceberg_url_encode s.
Proof. cbn [iceberg_url_encode]. destruct (url_plain b); [done|]. by case_bool_decide. Qed.
Lemma url_encode_free c s : c ∈ ["/"; "="]%char → str_free c (iceberg_url_encode s) = true.
Proof.
  intros Hc.
  assert (∀ b, str_free c (iceberg_url_encode (String b "")) = true) as Hb.
  { apply ascii_all_spec. rewrite !elem_of_cons in Hc.
    destruct Hc as [->|[->|Hc]]; [vm_compute; reflexivity..|by apply elem_of_nil in Hc]. }
  induction s as [|b s IH]; [done|]. by rewrite url_encode_cons, str_free_app, Hb, IH.
Qed.

Section paths.
Context `{IcebergSpec}.

Lemma component_decodes name human :
  let component := iceberg_url_encode name +:+ "=" +:+ iceberg_url_encode human in
  decode_component component = Some (name, human) ∧ str_free "/" component = true ∧ component ≠ "" ∧ component ≠ "..".
Proof.
  set (component := _ +:+ _). assert (decode_component component = Some (name, human)) as Hdec.
  { unfold decode_component.
    rewrite (proj2 (split_once_Some "=" _ (iceberg_url_encode name) (iceberg_url_encode human))).
    - cbn [mbind option_bind]. by rewrite !url_decode_encode.
    - split; [done|]. apply url_encode_free. right. by left. }
  simpl. split; [done|]. split.
  - unfold component. rewrite !str_free_app, !url_encode_free by (by left). done.
  - split; intros Heq; by rewrite Heq in Hdec.
Qed.

Lemma partition_path_components schema spec values path :
  iceberg_partition_path schema spec values = Ok path → ps_fields spec ≠ [] →
  ∃ humans, mapM_res (partition_human schema values) (ps_fields spec) = Ok humans ∧
    map decode_component (str_split "/" path) = map Some (zip (map pf_name (ps_fields spec)) humans) ∧
    key_normal path.
Proof.
  unfold iceberg_partition_path. intros (comps & Hcomps & [= <-])%bind_Ok Hne. apply mapM_res_Ok in Hcomps.
  assert (∃ humans, Forall2 (λ f h, partition_human schema values f = Ok h) (ps_fields spec) humans ∧
            map decode_component comps = map Some (zip (map pf_name (ps_fields spec)) humans) ∧
            Forall (λ s, str_free "/" s = true ∧ s ≠ "" ∧ s ≠ "..") comps) as (humans & Hh & Hdec & Hfree).
  { clear Hne. induction Hcomps as [|f c fs cs (h & Hf & [= <-])%bind_Ok _ (hs & IH1 & IH2 & IH3)]; [by exists []|].
    destruct (component_decodes (pf_name f) h) as (Hd & Hfr & Hn1 & Hn2).
    exists (h :: hs). simpl. rewrite Hd, IH2. repeat split; constructor; auto. }
  exists humans. split; [by apply mapM_res_Ok|].
  destruct comps as [|c comps]; [apply Forall2_nil_inv_r in Hcomps; done|].
  rewrite (str_split_join "/"); [|by eapply Forall_impl; [done|]; naive_solver].
  split; [done|]. by exists (c :: comps).
Qed.

(** A partition directory has one component per partition field and decodes, component
    by component, to the field names and the human-readable values, so no name or value can
    add a path segment or a parent traversal; two tuples of one spec share a directory only
    when their human-readable values agree. *)
Theorem partition_path_safe schema spec values path :
  iceberg_partition_path schema spec values = Ok path → ps_fields spec ≠ [] →
  ∃ humans, mapM_res (partition_human schema values) (ps_fields spec) = Ok humans ∧
    map decode_component (str_split "/" path) = map Some (zip (map pf_name (ps_fields spec)) humans) ∧
    key_normal path ∧
    ∀ values', iceberg_partition_path schema spec values' = Ok path →
      mapM_res (partition_human schema values') (ps_fields spec) = Ok humans.
Proof.
  intros Hpath Hne. destruct (partition_path_components _ _ _ _ Hpath Hne) as (humans & Hh & Hdec & Hk).
  exists humans. split_and!; [done..|]. intros values' Hpath'.
  destruct (partition_path_components _ _ _ _ Hpath' Hne) as (humans' & Hh' & Hdec' & _). rewrite Hh'. f_equal.
  apply mapM_res_Ok, Forall2_length in Hh. apply mapM_res_Ok, Forall2_length in Hh'.
  rewrite Hdec in Hdec'. apply (inj (map Some)) in Hdec'.
  rewrite <-(snd_zip (map pf_name (ps_fields spec)) humans), <-(snd_zip (map pf_name (ps_fields spec)) humans')
    by (rewrite length_map; lia). by rewrite Hdec'.
Qed.
End paths.

(** ** Data files through the catalog *)
Lemma str_contains_app p a s : str_contains p (a +:+ (p +:+ s)) = true.
Proof.
  induction a as [|c a IH].
  - rewrite str_app_nil. destruct (p +:+ s) eqn:E; cbn [str_contains]; rewrite <-E, str_starts_with_app; done.
  - rewrite str_app_cons. cbn [str_contains]. rewrite IH. apply orb_true_r.
Qed.

Lemma location_catalog_roundtrip l : location_canonical l → iceberg_location_to_teodb (to_uri l) = Ok l.
Proof.
  intros Hl. unfold iceberg_location_to_teodb.
  assert (str_contains "://" (to_uri l) = true) as ->.
  { unfold to_uri, uri_prefix. destruct (scheme l); rewrite <-?str_app_assoc.
    - apply (str_contains_app "://" "s3").
    - apply (str_contains_app "://" "gs").
    - apply (str_contains_app "://" "abfs").
    - apply (str_contains_app "://" "file"). }
  by rewrite (proj2 (location_roundtrip l) Hl).
Qed.

Section files.
Context `{IcebergLaws}.

(** The file with its bounds and its partition tuple as the catalog stores them. *)
Definition catalog_file (df : DataFile) : DataFile :=
  mkDataFile (df_content df) (df_path df) (df_format df) (df_partition_spec_id df) (df_sort_order_id df)
    (df_schema_id df) (catalog_scalar <$> df_partition_values df) (df_record_count df) (df_file_size_bytes df)
    (df_column_sizes df) (df_value_counts df) (df_null_value_counts df) (df_nan_value_counts df)
    (catalog_scalar <$> df_lower_bounds df) (catalog_scalar <$> df_upper_bounds df)
    (df_split_offsets df) (df_equality_ids df) (df_key_metadata df).

(** Scalars the catalog stores as they are. *)
Definition stable (m : gmap FieldId TeoScalar) : Prop := map_Forall (λ _ v, catalog_scalar v = v) m.

Lemma catalog_scalar_stable m : stable m → catalog_scalar <$> m = m.
Proof.
  intros Hm. apply map_eq. intros k. rewrite lookup_fmap. destruct (m !! k) as [v|] eqn:Hv; [|done].
  simpl. f_equal. by apply (Hm k).
Qed.


(** ** Table layouts through the catalog *)
Definition catalog_column (c : ColumnMeta) : ColumnMeta :=
  mkColumnMeta (cm_id c) (cm_name c) (catalog_type (cm_data_type c)) (cm_nullable c) None.

Lemma column_roundtrip c :
  type_ok (cm_data_type c) → column_to_nested_field c ≫= nested_field_to_column = Ok (catalog_column c).
Proof.
  intros Hok%type_roundtrip. unfold column_to_nested_field, nested_field_to_column.
  destruct (teodb_to_iceberg_primitive _) as [p|]; [|done]. simpl in *. rewrite Hok. simpl.
  unfold catalog_column. by rewrite negb_involutive.
Qed.

(** A created schema comes back with the same columns, ids, names and nullability, column
    types widened to the catalog's, and without the columns' documentation. *)
Lemma schema_roundtrip s ice :
  Forall (λ c, type_ok (cm_data_type c)) (sd_columns s) → teodb_schema_to_iceberg s = Ok ice →
  ∃ s', iceberg_schema_to_teodb ice = Ok s' ∧ sd_schema_id s' = sd_schema_id s ∧
    sd_columns s' = map catalog_column (sd_columns s) ∧
    ∀ x, x ∈ sd_identifier_field_ids s' ↔ x ∈ sd_identifier_field_ids s.
Proof.
  unfold teodb_schema_to_iceberg. intros Hok (fields & Hf & Hice)%bind_Ok.
  apply map_err_Ok, schema_builds in Hice as (Hfields & Hid & Hidents). apply mapM_res_Ok in Hf.
  unfold iceberg_schema_to_teodb. rewrite Hfields.
  assert (mapM_res nested_field_to_column fields = Ok (map catalog_column (sd_columns s))) as ->.
  { clear Hfields. induction Hf as [|c f cs fs Hcf _ IH]; [done|]. apply Forall_cons in Hok as [Hc Hok].
    pose proof (column_roundtrip c Hc) as Hrt. rewrite Hcf in Hrt. simpl in *. by rewrite Hrt, IH. }
  simpl. eexists. split; [reflexivity|]. done.
Qed.
End files.

Lemma transform_roundtrip t : iceberg_transform_to_teodb (teodb_partition_transform_to_iceberg t) = Ok t.
Proof. by destruct t. Qed.

Lemma sort_order_roundtrip o :
  (i32_min ≤ so_order_id o ≤ i32_max)%Z → iceberg_sort_order_to_teodb (teodb_sort_order_to_iceberg o) = Ok o.
Proof.
  destruct o as [id fields]. unfold i32_min, i32_max. cbn [so_order_id]. intros Hid.
  unfold iceberg_sort_order_to_teodb, teodb_sort_order_to_iceberg. cbn [iso_fields iso_order_id so_order_id so_fields].
  assert (mapM_res iceberg_sort_field_to_teodb
    (map (λ f, mkIceSortField (sf_source_id f) (teodb_partition_transform_to_iceberg (sf_transform f))
                 (match sf_direction f with Asc => Ascending | Desc => Descending end)
                 (match sf_null_order f with NullsFirst => NullFirst | NullsLast => NullLast end)) fields) = Ok fields) as ->.
  { apply mapM_res_Ok, Forall2_fmap_l, Forall_Forall2_diag, Forall_forall. intros [src t [] []] _;
      unfold iceberg_sort_field_to_teodb; simpl; by rewrite transform_roundtrip. }
  simpl. by rewrite wrap_signed_id by (simpl; lia).
Qed.

(** ** A concrete library *)
Definition demo_result_type (t : Transform) (ty : IceType) : result string IceType :=
  match t with TrIdentity | TrVoid | TrTruncate _ => Ok ty | TrUnknown => Err "unknown" | _ => Ok (Primitive PInt) end.
Definition demo_human (t : Transform) (ty : IceType) (lit : option Literal) : string :=
  match lit with
  | None => "null"
  | Some (LitPrimitive (LString s)) => s
  | Some (LitPrimitive (LInt z | LLong z)) => pretty z
  | Some _ => "?"
  end.
Definition demo_iceberg : IcebergSpec := {|
  Datum := PrimitiveLiteral;
  datum_literal := id;
  datum_bool := LBoolean; datum_int := LInt; datum_long := LLong; datum_float := LFloat; datum_double := LDouble;
  datum_date := LInt;
  datum_time_micros v := if ((0 <=? v) && (v <? DAY_MICROS))%Z then Ok (LLong v) else Err "time out of range";
  datum_timestamp_micros := LLong; datum_timestamptz_micros := LLong;
  datum_string := LString; datum_binary := LBinary; datum_fixed := LBinary;
  decimal_from_str s := match decimal_mantissa s with Some m => Ok (LInt128 m) | None => Err "not a decimal" end;
  data_file_build f := Ok f;
  schema_build fields id idents := Ok (mkIceSchema id fields idents);
  unbound_spec_build id fields := Ok (mkUnboundPartitionSpec id fields);
  partition_type spec schema :=
    mapM_res (λ f, match list_find (λ c, nf_id c = ipf_source_id f) (isc_fields schema) with
                   | Some (_, c) => Ok (mkNestedField (ipf_field_id f) (ipf_name f) false (nf_type c) None)
                   | None => Err "no source field"
                   end) (ips_fields spec);
  result_type := demo_result_type;
  create_transform_function t :=
    match t with TrIdentity => Ok (λ d, Ok (Some d)) | TrVoid => Ok (λ _, Ok None) | _ => Err "unsupported" end;
  to_human_string := demo_human;
|}.

#[export] Instance demo_iceberg_laws : IcebergLaws (H := demo_iceberg).
Proof.
  split; try done.
  - intros v Hv. simpl. rewrite (proj2 (Z.leb_le _ _)), (proj2 (Z.ltb_lt _ _)) by lia. by eexists.
  - intros s m Hm _. simpl. rewrite Hm. by eexists.
  - intros fields id idents s [= <-]. done.
Qed.

Definition demo_schema : IceSchema :=
  mkIceSchema 7 [mkNestedField 1 "region" true (Primitive PString) None;
                 mkNestedField 2 "amount" false (Primitive (PDecimal 10 2)) None] [].
Definition demo_spec : IcePartitionSpec := mkIcePartitionSpec 3 [mkIcePartitionField 1 1000 "region" TrIdentity].
Definition demo_file (bound : TeoScalar) : DataFile :=
  mkDataFile ContentData (mkObjectLocation S3 (Some "warehouse") "events/data/a.parquet") FmtParquet 3 (Some 0%Z) 7
    {[ 1000%Z := SUtf8 "eu" ]} 10 100 ∅ ∅ ∅ ∅ {[ 2%Z := bound ]} ∅ [4%Z] [] None.

Definition demo_lookup : gmap FieldId TeoDataType := {[ 1%Z := TUtf8; 2%Z := TDecimal128 10 2 ]}.
Lemma demo_lookup_built : build_type_lookup_from_iceberg demo_schema = Ok demo_lookup.
Proof. reflexivity. Qed.

Lemma demo_file_ok bound :
  scalar_ok bound → catalog_type (scalar_type bound) = TDecimal128 10 2 →
  location_canonical (df_path (demo_file bound)) ∧
  bounds_ok demo_lookup (df_lower_bounds (demo_file bound)) ∧ bounds_ok demo_lookup (df_upper_bounds (demo_file bound)) ∧
  partition_ok (H := demo_iceberg) demo_spec demo_schema (df_partition_values (demo_file bound)).
Proof.
  intros Hok Hty. split_and!.
  - split; [|by exists "warehouse"]. exists ["events"; "data"; "a.parquet"]. split; [done|]. repeat constructor; done.
  - apply map_Forall_singleton. split; [done|]. by rewrite Hty.
  - apply map_Forall_empty.
  - split.
    + intros k [v Hv]. cbn [demo_file df_partition_values] in Hv.
      apply lookup_singleton_Some in Hv as [<- _]. simpl. by left.
    + right. eexists. split; [reflexivity|]. repeat constructor. exists (SUtf8 "eu").
      split; [done|]. right. split; [done|]. by exists PString.
Qed.


Definition demo_table : SchemaDefinition :=
  mkSchemaDefinition 0 [mkColumnMeta 1 "source" TUtf8 false None] [].
Definition demo_partitioning : PartitionSpec := mkPartitionSpec 0 [mkPartitionField 1 1000 "region/name" Identity].
Lemma partition_path_safe_witness :
  ∃ humans, mapM_res (partition_human (H := demo_iceberg) demo_table {[ 1000%Z := SUtf8 "../eu west%" ]})
              (ps_fields demo_partitioning) = Ok humans ∧
    map decode_component (str_split "/" "region%2Fname=..%2Feu+west%25") = map Some (zip ["region/name"] humans) ∧
    key_normal "region%2Fname=..%2Feu+west%25".
Proof.
  destruct (partition_path_safe (H := demo_iceberg) demo_table demo_partitioning
    {[ 1000%Z := SUtf8 "../eu west%" ]} "region%2Fname=..%2Feu+west%25") as (humans & H1 & H2 & H3 & _).
  - reflexivity.
  - discriminate.
  - exists humans. split; [exact H1|]. split; [exact H2|exact H3].
Defined.

(** A decimal between -1 and 0 is stored without its sign: the value -0.05 of a bound or a
    partition tuple comes back as 0.05. *)
Theorem decimal_bound_loses_sign `{IcebergLaws} :
  ∃ d, teo_scalar_to_datum (SDecimal128 (-5) 10 2) = Ok d ∧
    datum_to_teo_scalar d (TDecimal128 10 2) = Ok (SDecimal128 5 10 2).
Proof. apply (scalar_catalog_roundtrip (SDecimal128 (-5) 10 2)). split; [done|]. by vm_compute. Qed.
