(* ===== verification/Partitioning.v ===== *)
(** * Splitting a flush into partitions

    Models [teodb-ingest/src/flush/partitioning.rs]: the partition key of a row
    and the grouping of the rows of a flush by it.  Arrow's arrays are typed
    columns of nullable cells; its [take] kernel, the construction of a batch
    and the JSON text of a key are an interface with their documented laws. *)

From Stdlib Require Import Eqdep_dec.
From S2P Require Import Prelude Core Codec DataFiles Schema Compaction Convert ConvertSpec.
Open Scope nat_scope.
Open Scope list_scope.

(** ** Record batches *)
Inductive ArrayClass :=
| ClsBoolean | ClsInt8 | ClsInt16 | ClsInt32 | ClsInt64 | ClsUInt8 | ClsUInt16 | ClsUInt32 | ClsUInt64
| ClsFloat32 | ClsFloat64 | ClsDecimal128 | ClsDate32 | ClsTimestampMicrosecond | ClsTime64Microsecond
| ClsString | ClsBinary | ClsFixedSizeBinary | ClsOther (tag : N).
#[export] Instance ArrayClass_eq_dec : EqDecision ArrayClass.
Proof. solve_decision. Defined.

Definition cell_type (c : ArrayClass) : Type :=
  match c with
  | ClsBoolean => bool
  | ClsInt8 | ClsInt16 | ClsInt32 | ClsInt64 | ClsDecimal128 | ClsDate32 | ClsTimestampMicrosecond
  | ClsTime64Microsecond => Z
  | ClsUInt8 | ClsUInt16 | ClsUInt32 | ClsUInt64 | ClsFloat32 | ClsFloat64 => N
  | ClsString => string
  | ClsBinary | ClsFixedSizeBinary => list N
  | ClsOther _ => N
  end.

(** An array of a class; [None] is a null slot. *)
Record Array := mkArray { arr_class : ArrayClass; arr_cells : list (option (cell_type arr_class)) }.
Definition array_len (a : Array) : nat := length (arr_cells a).
Definition array_is_null (a : Array) (row : nat) : bool :=
  match arr_cells a !! row with Some None => true | _ => false end.
(** The cells at the given positions. *)
Definition array_select (a : Array) (rows : list nat) : Array :=
  mkArray (arr_class a) (omap (λ i, arr_cells a !! i) rows).

Record RecordBatch := mkRecordBatch {
  rb_schema : ArrowSchema; rb_columns : list Array; rb_num_rows : nat }.

(** One row: the cell of every column. *)
Definition Cell : Type := { c : ArrayClass & option (cell_type c) }.
Definition array_cell (a : Array) (row : nat) : option Cell :=
  existT (arr_class a) <$> arr_cells a !! row.
Definition batch_row (b : RecordBatch) (row : nat) : list (option Cell) :=
  map (λ a, array_cell a row) (rb_columns b).
Definition batch_rows (b : RecordBatch) : list (list (option Cell)) :=
  map (batch_row b) (seq 0 (rb_num_rows b)).

(** A batch has columns, all of its length. *)
Definition batch_ok (b : RecordBatch) : Prop :=
  rb_columns b ≠ [] ∧ Forall (λ a, array_len a = rb_num_rows b) (rb_columns b).

Class ArrowKernels := {
  (** [arrow::compute::take]. *)
  take_kernel : Array → list nat → result string Array;
  (** [RecordBatch::try_new]. *)
  batch_try_new : ArrowSchema → list Array → result string RecordBatch;
  (** [serde_json::to_string] of the ordered partition values. *)
  partition_key_json : list (FieldId * TeoScalar) → result string string;
}.

(** ** Rows of a batch by partition key *)
Section partitioning.
Context `{IcebergSpec, ArrowKernels}.

(** [downcast]: the cells of an array of the class. *)
Definition downcast (c : ArrayClass) (a : Array) : TeoDBResult (list (option (cell_type c))) :=
  match decide (arr_class a = c) with
  | left e => Ok (eq_rect _ (λ c, list (option (cell_type c))) (arr_cells a) _ e)
  | right _ => Err (Internal "partition column Arrow array does not match TeoDB type {data_type:?}: actual {:?}")
  end.
(** [downcast(array)?.value(row)]; only reached for slots that are not null. *)
Definition value_at (c : ArrayClass) (a : Array) (row : nat) : TeoDBResult (cell_type c) :=
  cells ← downcast c a; ok_or (mjoin (cells !! row)) (Internal "index out of bounds").

Definition scalar_at (a : Array) (row : nat) (data_type : TeoDataType) : TeoDBResult TeoScalar :=
  if array_is_null a row then Ok SNull
  else match data_type with
       | TBoolean => SBoolean <$> value_at ClsBoolean a row
       | TInt8 => SInt8 <$> value_at ClsInt8 a row
       | TInt16 => SInt16 <$> value_at ClsInt16 a row
       | TInt32 => SInt32 <$> value_at ClsInt32 a row
       | TInt64 => SInt64 <$> value_at ClsInt64 a row
       | TUInt8 => SUInt8 <$> value_at ClsUInt8 a row
       | TUInt16 => SUInt16 <$> value_at ClsUInt16 a row
       | TUInt32 => SUInt32 <$> value_at ClsUInt32 a row
       | TUInt64 => SUInt64 <$> value_at ClsUInt64 a row
       | TFloat32 => SFloat32 <$> value_at ClsFloat32 a row
       | TFloat64 => SFloat64 <$> value_at ClsFloat64 a row
       | TDecimal128 precision scale => (λ v, SDecimal128 v precision scale) <$> value_at ClsDecimal128 a row
       | TDate32 => SDate32 <$> value_at ClsDate32 a row
       | TTimestampMicros tz => (λ v, STimestampMicros v tz) <$> value_at ClsTimestampMicrosecond a row
       | TTime64Micros => STime64Micros <$> value_at ClsTime64Microsecond a row
       | TUtf8 => SUtf8 <$> value_at ClsString a row
       | TBinary => SBinary <$> value_at ClsBinary a row
       | TFixedSizeBinary _ => SFixedSizeBinary <$> value_at ClsFixedSizeBinary a row
       end.

(** The partition value of one field of the spec.  A column index past the batch panics; it
    is an error here. *)
Definition partition_field_value (batch : RecordBatch) (row : nat) (schema : SchemaDefinition)
    (field : PartitionField) : TeoDBResult TeoScalar :=
  '(column_idx, column) ← ok_or (list_find (λ c, cm_id c = pf_source_id field) (sd_columns schema))
                            (Internal "partition source field {} not found");
  array ← ok_or (rb_columns batch !! column_idx) (Internal "index out of bounds");
  source ← scalar_at array row (cm_data_type column);
  apply_partition_transform_to_scalar source (cm_data_type column) (pf_transform field).

Definition partition_key_for_row (batch : RecordBatch) (row : nat) (schema : SchemaDefinition) (spec : PartitionSpec)
    : TeoDBResult (string * gmap FieldId TeoScalar) :=
  '(values, ordered) ← foldM (λ '(values, ordered) field,
      partition_value ← partition_field_value batch row schema field;
      Ok (<[pf_field_id field := partition_value]> values, ordered ++ [(pf_field_id field, partition_value)]))
    (∅, []) (ps_fields spec);
  key ← map_err (λ _, Internal "failed to serialize partition key: {error}") (partition_key_json ordered);
  Ok (key, values).

Definition take_rows (batch : RecordBatch) (rows : list nat) : TeoDBResult RecordBatch :=
  columns ← mapM_res (λ column, map_err (λ _, Internal "failed to slice partition batch: {error}")
                                  (take_kernel column rows)) (rb_columns batch);
  map_err (λ _, Internal "failed to build partition batch: {error}") (batch_try_new (rb_schema batch) columns).

(** [map.entry(key).or_insert_with(|| (value, Vec::new())).1.push(x)]. *)
Definition entry_push {V A} (m : gmap string (V * list A)) (key : string) (value : V) (x : A)
    : gmap string (V * list A) :=
  match m !! key with
  | Some (value, xs) => <[key := (value, xs ++ [x])]> m
  | None => <[key := (value, [x])]> m
  end.

Record PartitionedBatches := mkPartitionedBatches {
  pb_partition_values : gmap FieldId TeoScalar; pb_batches : list RecordBatch }.
Abbreviation Groups := (gmap string (gmap FieldId TeoScalar * list RecordBatch)).

Definition rows_by_key (batch : RecordBatch) (schema : SchemaDefinition) (spec : PartitionSpec)
    : TeoDBResult (gmap string (gmap FieldId TeoScalar * list nat)) :=
  foldM (λ m row,
    '(key, values) ← partition_key_for_row batch row schema spec;
    Ok (entry_push m key values row)) ∅ (seq 0 (rb_num_rows batch)).

(** The rows of one batch, sliced into their groups. *)
Definition partition_batch (schema : SchemaDefinition) (spec : PartitionSpec) (groups : Groups) (batch : RecordBatch)
    : TeoDBResult Groups :=
  by_key ← rows_by_key batch schema spec;
  foldM (λ groups '(key, (values, rows)),
    sliced ← take_rows batch rows;
    Ok (entry_push groups key values sliced)) groups (map_to_list by_key).

Definition partition_batches (batches : list RecordBatch) (schema : SchemaDefinition) (spec : PartitionSpec)
    : TeoDBResult (list PartitionedBatches) :=
  groups ← foldM (partition_batch schema spec) ∅ batches;
  Ok (map (λ '(_, (values, batches)), mkPartitionedBatches values batches) (map_to_list groups)).
End partitioning.

(** ** Grouping by key *)
(** All elements pushed into a map of groups. *)
Definition bag {V A} (m : gmap string (V * list A)) : list A := concat (map (λ e, e.2.2) (map_to_list m)).

Lemma bag_insert {V A} (m : gmap string (V * list A)) k v l :
  m !! k = None → bag (<[k := (v, l)]> m) ≡ₚ l ++ bag m.
Proof.
  intros Hk. unfold bag. change (l ++ concat (map (λ e, e.2.2) (map_to_list m)))
    with (concat (map (λ e : string * (V * list A), e.2.2) ((k, (v, l)) :: map_to_list m))).
  rewrite <-!flat_map_concat_map. by rewrite map_to_list_insert.
Qed.

Lemma bag_push {V A} (m : gmap string (V * list A)) k v x : bag (entry_push m k v x) ≡ₚ bag m ++ [x].
Proof.
  unfold entry_push. destruct (m !! k) as [[v0 l]|] eqn:Hk.
  - rewrite <-(insert_delete_id m k (v0, l)) at 2 by done. rewrite <-insert_delete_eq.
    rewrite !bag_insert by apply lookup_delete_eq. by rewrite <-!app_assoc, (Permutation_app_comm [x]).
  - rewrite bag_insert by done. by rewrite Permutation_app_comm.
Qed.

(** Every element was pushed under its key, and every value with a first element. *)
Definition groups_ok {V A} (P : string → A → Prop) (Q : string → V → Prop) (m : gmap string (V * list A)) : Prop :=
  map_Forall (λ k e, Q k e.1 ∧ Forall (P k) e.2) m.
Lemma groups_ok_push {V A} (P : string → A → Prop) (Q : string → V → Prop) m k v x :
  groups_ok P Q m → P k x → Q k v → groups_ok P Q (entry_push m k v x).
Proof.
  intros Hm HP HQ. unfold entry_push. destruct (m !! k) as [[v0 l]|] eqn:Hk.
  - destruct (Hm _ _ Hk) as [HQ0 HP0]. apply map_Forall_insert_2; [|done]. split; [done|]. simpl.
    apply Forall_app. simpl in HP0. auto.
  - apply map_Forall_insert_2; [|done]. split; [done|]. by constructor.
Qed.

(** ** What Arrow and the key text promise *)

(** Neither an infinity nor a NaN, by the exponent bits. *)
Definition scalar_finite (v : TeoScalar) : bool :=
  match v with
  | SFloat32 bits => negb ((bits / 2 ^ 23) mod 2 ^ 8 =? 255)%N
  | SFloat64 bits => negb ((bits / 2 ^ 52) mod 2 ^ 11 =? 2047)%N
  | _ => true
  end.
Definition batch_select (b : RecordBatch) (rows : list nat) : RecordBatch :=
  mkRecordBatch (rb_schema b) (map (λ a, array_select a rows) (rb_columns b)) (length rows).

Class ArrowLaws `{ArrowKernels} : Prop := {
  take_law a rows : Forall (λ i, i < array_len a) rows → take_kernel a rows = Ok (array_select a rows);
  (** A batch can be rebuilt from a selection of its own rows. *)
  try_new_law b rows : batch_ok b → Forall (λ i, i < rb_num_rows b) rows →
    batch_try_new (rb_schema b) (map (λ a, array_select a rows) (rb_columns b)) = Ok (batch_select b rows);
  (** JSON has no numbers for infinities and NaNs; on all other values the text determines them. *)
  json_law l1 l2 text :
    Forall (λ e, scalar_finite e.2 = true) l1 → Forall (λ e, scalar_finite e.2 = true) l2 →
    partition_key_json l1 = Ok text → partition_key_json l2 = Ok text → l1 = l2;
}.

Lemma omap_lookup_in_range {A} (l : list A) rows j :
  Forall (λ i, i < length l) rows → omap (λ i, l !! i) rows !! j = rows !! j ≫= λ i, l !! i.
Proof.
  intros Hr. revert j. induction Hr as [|i rows Hi _ IH]; intros j; [done|].
  simpl. destruct (lookup_lt_is_Some_2 l i Hi) as [x Hx]. rewrite Hx. destruct j; simpl; [by rewrite Hx|done].
Qed.

Section exact.
Context `{IcebergSpec, ArrowLaws}.

Lemma take_rows_select b rows :
  batch_ok b → Forall (λ i, i < rb_num_rows b) rows → take_rows b rows = Ok (batch_select b rows).
Proof.
  intros Hb Hr. unfold take_rows.
  assert (mapM_res (λ column, map_err (λ _, Internal "failed to slice partition batch: {error}")
            (take_kernel column rows)) (rb_columns b) = Ok (map (λ a, array_select a rows) (rb_columns b))) as ->.
  { apply mapM_res_Ok, Forall2_fmap_r, Forall_Forall2_diag. destruct Hb as [_ Hlen].
    eapply Forall_impl; [exact Hlen|]. intros a Ha. by rewrite take_law by (by rewrite Ha). }
  simpl. by rewrite try_new_law.
Qed.

Lemma select_cells b rows a j i :
  batch_ok b → Forall (λ i, i < rb_num_rows b) rows → a ∈ rb_columns b → rows !! j = Some i →
  arr_cells (array_select a rows) !! j = arr_cells a !! i.
Proof.
  intros [_ Hlen] Hr Ha Hj. simpl. rewrite omap_lookup_in_range; [by rewrite Hj|].
  rewrite Forall_forall in Hlen. specialize (Hlen a Ha). unfold array_len in Hlen. by rewrite Hlen.
Qed.

Lemma batch_select_ok b idx :
  batch_ok b → Forall (λ i, i < rb_num_rows b) idx → batch_ok (batch_select b idx).
Proof.
  intros [Hne Hlen] Hidx. split; simpl.
  - by destruct (rb_columns b).
  - apply Forall_fmap. eapply Forall_impl; [exact Hlen|]. intros a Ha. unfold array_len in *. simpl. rewrite <-Ha in Hidx.
    clear -Hidx. induction Hidx as [|i idx Hi _ IH]; [done|]. simpl. destruct (lookup_lt_is_Some_2 _ _ Hi) as [x ->]. simpl. f_equal. exact IH.
Qed.

Lemma batch_row_select b rows j i :
  batch_ok b → Forall (λ i, i < rb_num_rows b) rows → rows !! j = Some i →
  batch_row (batch_select b rows) j = batch_row b i.
Proof.
  intros Hb Hr Hj. unfold batch_row. simpl. rewrite map_map. apply map_ext_in. intros a Ha%list_elem_of_In.
  unfold array_cell. by rewrite (select_cells b rows a j i).
Qed.

Lemma batch_rows_select b rows :
  batch_ok b → Forall (λ i, i < rb_num_rows b) rows → batch_rows (batch_select b rows) = map (batch_row b) rows.
Proof.
  intros Hb Hr. apply list_eq. intros j. unfold batch_rows. rewrite !list_lookup_fmap.
  destruct (rows !! j) as [i|] eqn:Hj.
  - pose proof (lookup_lt_Some _ _ _ Hj). rewrite lookup_seq_lt by done. simpl. f_equal. by apply batch_row_select.
  - apply lookup_ge_None in Hj. by rewrite lookup_seq_ge.
Qed.

Lemma scalar_at_cell a a' row row' dt :
  arr_class a' = arr_class a → array_cell a' row' = array_cell a row → scalar_at a' row' dt = scalar_at a row dt.
Proof.
  destruct a as [c cells], a' as [c' cells']. simpl. intros -> Hcell. unfold array_cell in Hcell. simpl in Hcell.
  assert (cells' !! row' = cells !! row) as Hc.
  { destruct (cells !! row), (cells' !! row'); simpl in *; try done. injection Hcell as Hc.
    by apply (inj_pair2_eq_dec _ ArrayClass_eq_dec) in Hc as ->. }
  assert (∀ c0, value_at c0 (mkArray c cells') row' = value_at c0 (mkArray c cells) row) as Hv.
  { intros c0. unfold value_at, downcast. simpl. destruct (decide (c = c0)) as [e|]; [|done].
    destruct e. simpl. by rewrite Hc. }
  unfold scalar_at, array_is_null. simpl. rewrite Hc. destruct (cells !! row) as [[]|]; try done;
    destruct dt; by rewrite Hv.
Qed.

(** A row keeps its partition key when it is moved into a slice. *)
Lemma partition_key_select b rows j i schema spec :
  batch_ok b → Forall (λ i, i < rb_num_rows b) rows → rows !! j = Some i →
  partition_key_for_row (batch_select b rows) j schema spec = partition_key_for_row b i schema spec.
Proof.
  intros Hb Hr Hj. unfold partition_key_for_row.
  erewrite foldM_ext; [reflexivity|]. intros [values ordered] field. simpl.
  assert (partition_field_value (batch_select b rows) j schema field = partition_field_value b i schema field) as ->; [|done].
  unfold partition_field_value. destruct (list_find _ _) as [[idx c]|]; [|done]. simpl.
  rewrite list_lookup_fmap. destruct (rb_columns b !! idx) as [a|] eqn:Ha; [|done]. simpl.
  rewrite (scalar_at_cell a (array_select a rows) i j); [done|done|]. unfold array_cell.
  apply list_elem_of_lookup_2 in Ha. by rewrite (select_cells b rows a j i).
Qed.

(** The map of partition values is read off the ordered list. *)
Definition ordered_map (l : list (FieldId * TeoScalar)) : gmap FieldId TeoScalar :=
  foldl (λ m e, <[e.1 := e.2]> m) ∅ l.

Lemma ordered_map_snoc l e : ordered_map (l ++ [e]) = <[e.1 := e.2]> (ordered_map l).
Proof. unfold ordered_map. by rewrite foldl_app. Qed.

Lemma ordered_map_elem l k v : NoDup l.*1 → (k, v) ∈ l → ordered_map l !! k = Some v.
Proof.
  induction l as [|[k' v'] l IH] using rev_ind; [by intros _ ?%elem_of_nil|].
  rewrite fmap_app, ordered_map_snoc. simpl. intros Hnd Hin.
  apply NoDup_app in Hnd as (Hnd & Hdisj & _). apply elem_of_app in Hin as [Hin|Hin].
  - rewrite lookup_insert_ne; [by apply IH|]. intros ->. apply (Hdisj k); [|by left].
    apply list_elem_of_fmap. by exists (k, v).
  - apply list_elem_of_singleton in Hin. simplify_eq. by rewrite lookup_insert_eq.
Qed.

Lemma partition_key_ordered b row schema spec key values :
  partition_key_for_row b row schema spec = Ok (key, values) →
  ∃ ordered, values = ordered_map ordered ∧ ordered.*1 = map pf_field_id (ps_fields spec) ∧
    partition_key_json ordered = Ok key.
Proof.
  unfold partition_key_for_row. intros ([values' ordered] & Hf & (key' & Hk & [= <- <-])%bind_Ok)%bind_Ok.
  apply map_err_Ok in Hk. exists ordered.
  assert (∀ fields acc, foldM (λ '(values, ordered) field,
      partition_value ← partition_field_value b row schema field;
      Ok (<[pf_field_id field := partition_value]> values, ordered ++ [(pf_field_id field, partition_value)]))
    (ordered_map acc, acc) fields = Ok (values', ordered) →
    values' = ordered_map ordered ∧ ordered.*1 = acc.*1 ++ map pf_field_id fields) as Hgen.
  { induction fields as [|f fields IH]; intros acc; simpl.
    - intros [= <- <-]. by rewrite app_nil_r.
    - destruct (partition_field_value b row schema f) as [v|]; [|done]. simpl.
      change (<[pf_field_id f := v]> (ordered_map acc)) with (<[(pf_field_id f, v).1 := (pf_field_id f, v).2]> (ordered_map acc)).
      rewrite <-ordered_map_snoc. intros [? Hids]%IH. split; [done|].
      by rewrite Hids, fmap_app, <-app_assoc. }
  destruct (Hgen _ [] Hf) as [? ?]. done.
Qed.

Definition values_finite (values : gmap FieldId TeoScalar) : Prop := map_Forall (λ _ v, scalar_finite v = true) values.

(** Rows with one key have one tuple, when its values are finite. *)
Lemma partition_key_values b row b' row' schema spec key values values' :
  NoDup (map pf_field_id (ps_fields spec)) →
  partition_key_for_row b row schema spec = Ok (key, values) →
  partition_key_for_row b' row' schema spec = Ok (key, values') →
  values_finite values → values_finite values' → values = values'.
Proof.
  intros Hnd (o & -> & Ho & Hj)%partition_key_ordered (o' & -> & Ho' & Hj')%partition_key_ordered Hf Hf'.
  rewrite <-Ho in Hnd. rewrite <-Ho' in Ho.
  rewrite (json_law o o' key); try done; apply Forall_forall; intros [k v] Hin.
  - apply (Hf k). by apply ordered_map_elem.
  - apply (Hf' k). apply ordered_map_elem; [by rewrite <-Ho|done].
Qed.

(** The slices a batch contributes: rows under their key, every row once. *)
Definition row_keyed (schema : SchemaDefinition) (spec : PartitionSpec) (b : RecordBatch) (key : string) (row : nat)
    : Prop :=
  row < rb_num_rows b ∧ ∃ values, partition_key_for_row b row schema spec = Ok (key, values).
Definition key_of_some_row (schema : SchemaDefinition) (spec : PartitionSpec) (key : string)
    (values : gmap FieldId TeoScalar) : Prop :=
  ∃ b row, partition_key_for_row b row schema spec = Ok (key, values).

Lemma rows_by_key_spec b schema spec m :
  rows_by_key b schema spec = Ok m →
  bag m ≡ₚ seq 0 (rb_num_rows b) ∧ groups_ok (row_keyed schema spec b) (key_of_some_row schema spec) m.
Proof.
  unfold rows_by_key. intros Hm. split.
  - assert (∀ rows m0, foldM (λ m row, '(key, values) ← partition_key_for_row b row schema spec;
              Ok (entry_push m key values row)) m0 rows = Ok m → bag m ≡ₚ bag m0 ++ rows) as Hgen.
    { induction rows as [|row rows IH]; intros m0; simpl; [intros [= <-]; by rewrite app_nil_r|].
      destruct (partition_key_for_row b row schema spec) as [[key values]|]; [|done]. simpl.
      intros ->%IH. by rewrite bag_push, <-app_assoc. }
    apply (Hgen _ ∅) in Hm. rewrite Hm. unfold bag. by rewrite map_to_list_empty.
  - revert Hm. apply foldM_inv; [|apply map_Forall_empty].
    intros m1 row m2 Hrow%elem_of_seq Hok. simpl.
    destruct (partition_key_for_row b row schema spec) as [[key values]|] eqn:Hk; [|done]. simpl. intros [= <-].
    apply groups_ok_push; [done| |by exists b, row]. split; [lia|]. by exists values.
Qed.

(** A well-formed slice whose rows are rows of the sources, under their key. *)
Definition slice_ok (schema : SchemaDefinition) (spec : PartitionSpec) (src : list RecordBatch) (key : string)
    (b : RecordBatch) : Prop :=
  batch_ok b ∧ ∀ row, row < rb_num_rows b → ∃ b0 i values, b0 ∈ src ∧ i < rb_num_rows b0 ∧
    batch_row b row = batch_row b0 i ∧ partition_key_for_row b row schema spec = partition_key_for_row b0 i schema spec ∧
    partition_key_for_row b0 i schema spec = Ok (key, values).

Lemma partition_batch_spec schema spec src groups b groups' :
  b ∈ src → batch_ok b → groups_ok (slice_ok schema spec src) (key_of_some_row schema spec) groups →
  partition_batch schema spec groups b = Ok groups' →
  concat (map batch_rows (bag groups')) ≡ₚ concat (map batch_rows (bag groups)) ++ batch_rows b ∧
  groups_ok (slice_ok schema spec src) (key_of_some_row schema spec) groups'.
Proof.
  intros Hsrc Hb Hg. unfold partition_batch. intros (m & Hm & Hf)%bind_Ok.
  destruct (rows_by_key_spec _ _ _ _ Hm) as [Hbag Hkeyed].
  assert (∀ k v rows, (k, (v, rows)) ∈ map_to_list m →
    take_rows b rows = Ok (batch_select b rows) ∧ slice_ok schema spec src k (batch_select b rows) ∧
    batch_rows (batch_select b rows) = map (batch_row b) rows ∧ key_of_some_row schema spec k v) as Hentry.
  { intros k v rows Hin%elem_of_map_to_list. destruct (Hkeyed _ _ Hin) as [Hv Hrows]. simpl in *.
    assert (Forall (λ i, i < rb_num_rows b) rows) as Hr by (eapply Forall_impl; [exact Hrows|]; by intros ? [? _]).
    split; [by apply take_rows_select|]. split; [|split; [by apply batch_rows_select|done]].
    split; [by apply batch_select_ok|]. intros j Hj. simpl in Hj. destruct (lookup_lt_is_Some_2 rows j Hj) as [i Hi].
    rewrite Forall_lookup in Hrows. destruct (Hrows j i Hi) as [? [values ?]]. exists b, i, values.
    split_and!; [done|done|by apply batch_row_select|by apply partition_key_select|done]. }
  split.
  - assert (∀ es g0, (∀ e, e ∈ es → e ∈ map_to_list m) →
      foldM (λ groups '(key, (values, rows)), sliced ← take_rows b rows;
             Ok (entry_push groups key values sliced)) g0 es = Ok groups' →
      concat (map batch_rows (bag groups')) ≡ₚ
      concat (map batch_rows (bag g0)) ++ map (batch_row b) (concat (map (λ e, e.2.2) es))) as Hgen.
    { induction es as [|[k [v rows]] es IH]; intros g0 Hes; simpl; [intros [= <-]; by rewrite app_nil_r|].
      destruct (Hentry k v rows) as (-> & _ & Hrows & _); [apply Hes; by left|]. simpl.
      intros Hrest. rewrite (IH (entry_push g0 k v (batch_select b rows))) by (try done; intros; apply Hes; by right).
      rewrite <-!flat_map_concat_map. rewrite bag_push, flat_map_app. simpl. rewrite Hrows, app_nil_r.
      by rewrite map_app, <-app_assoc. }
    rewrite (Hgen _ _ (λ e He, He) Hf). apply Permutation_app_head. by rewrite Hbag.
  - revert Hf. apply foldM_inv; [|done]. intros g1 [k [v rows]] g2 Hin Hg1.
    destruct (Hentry k v rows Hin) as (-> & Hs & _ & Hv). simpl. intros [= <-]. by apply groups_ok_push.
Qed.

Lemma partition_batch_Err schema spec groups b e :
  batch_ok b → partition_batch schema spec groups b = Err e →
  ∃ row, row < rb_num_rows b ∧ partition_key_for_row b row schema spec = Err e.
Proof.
  intros Hb. unfold partition_batch. intros [He|(m & Hm & He)]%bind_Err.
  - unfold rows_by_key in He. apply (foldM_inv_Err (λ _, True)) in He as (m & row & Hrow%elem_of_seq & _ & He); [|done..].
    apply bind_Err in He as [He|([key values] & _ & He)]; [|done]. exists row. split; [lia|done].
  - exfalso. apply (foldM_inv_Err (λ _, True)) in He as (g & [k [v rows]] & Hin & _ & He); [|done..].
    destruct (rows_by_key_spec _ _ _ _ Hm) as [_ Hkeyed]. apply elem_of_map_to_list in Hin.
    destruct (Hkeyed _ _ Hin) as [_ Hrows]. rewrite take_rows_select in He; [done|done|].
    eapply Forall_impl; [exact Hrows|]. by intros ? [? _].
Qed.

Lemma partition_batches_groups batches schema spec src groups :
  Forall batch_ok batches → batches ⊆ src → foldM (partition_batch schema spec) ∅ batches = Ok groups →
  concat (map batch_rows (bag groups)) ≡ₚ concat (map batch_rows batches) ∧
  groups_ok (slice_ok schema spec src) (key_of_some_row schema spec) groups.
Proof.
  intros Hbs Hsrc Hf.
  assert (∀ bs g0, bs ⊆ src → Forall batch_ok bs → groups_ok (slice_ok schema spec src) (key_of_some_row schema spec) g0 →
    foldM (partition_batch schema spec) g0 bs = Ok groups →
    concat (map batch_rows (bag groups)) ≡ₚ concat (map batch_rows (bag g0)) ++ concat (map batch_rows bs) ∧
    groups_ok (slice_ok schema spec src) (key_of_some_row schema spec) groups) as Hgen.
  { induction bs as [|b bs IH]; intros g0 Hb Hok Hg0; simpl; [intros [= <-]; by rewrite app_nil_r|].
    apply Forall_cons in Hok as [Hbok Hok].
    intros (g1 & Hg & Hrest)%bind_Ok. apply (partition_batch_spec schema spec src) in Hg as [Hp Hg1]; [|set_solver|done..].
    destruct (IH g1) as [Hp' ?]; [set_solver|done..|]. split; [|done]. by rewrite Hp', Hp, <-app_assoc. }
  destruct (Hgen batches ∅ Hsrc Hbs) as [Hp ?]; [apply map_Forall_empty|done|]. split; [|done].
  rewrite Hp. unfold bag. by rewrite map_to_list_empty.
Qed.

(** The groups of a split, by their rows. *)
Lemma partition_batches_split batches schema spec groups :
  Forall batch_ok batches → NoDup (map pf_field_id (ps_fields spec)) →
  partition_batches batches schema spec = Ok groups →
  concat (map batch_rows (concat (map pb_batches groups))) ≡ₚ concat (map batch_rows batches) ∧
  ∃ keys, NoDup keys ∧ Forall2 (λ key g, ∀ b, b ∈ pb_batches g → slice_ok schema spec batches key b ∧
    ∀ row values, partition_key_for_row b row schema spec = Ok (key, values) →
      values_finite values → values_finite (pb_partition_values g) → values = pb_partition_values g) keys groups.
Proof.
  intros Hbs Hnd. unfold partition_batches. intros (m & Hf & [= <-])%bind_Ok.
  destruct (partition_batches_groups _ _ _ batches _ Hbs (reflexivity _) Hf) as [Hperm Hok]. split.
  - rewrite <-Hperm. unfold bag. rewrite map_map. erewrite (map_ext _ (λ e, e.2.2)); [done|]. by intros [? [? ?]].
  - exists (map_to_list m).*1. split; [apply NoDup_fst_map_to_list|].
    apply Forall2_fmap_l, Forall2_fmap_r, Forall_Forall2_diag, Forall_forall.
    intros [k [v bs]] Hin%elem_of_map_to_list b Hb. simpl in *.
    destruct (Hok _ _ Hin) as [(b0 & row0 & Hk0) Hslices]. simpl in *. rewrite Forall_forall in Hslices.
    split; [by apply Hslices|]. intros. by eapply partition_key_values.
Qed.

(** C22. Splitting a flush loses and duplicates no row: the groups hold the rows of the input
    batches, each once; the groups have distinct keys, every row of a group has the group's
    key, and, unless a partition value is an infinity or a NaN, the group's partition tuple.
    The split fails only with the error of some row's partition key. *)
Theorem partition_batches_exact batches schema spec :
  Forall batch_ok batches → NoDup (map pf_field_id (ps_fields spec)) →
  match partition_batches batches schema spec with
  | Ok groups =>
      concat (map batch_rows (concat (map pb_batches groups))) ≡ₚ concat (map batch_rows batches) ∧
      ∃ keys, NoDup keys ∧ Forall2 (λ key g, ∀ b row, b ∈ pb_batches g → row < rb_num_rows b →
        ∃ values, partition_key_for_row b row schema spec = Ok (key, values) ∧
          (values_finite values → values_finite (pb_partition_values g) → values = pb_partition_values g)) keys groups
  | Err e => ∃ b row, b ∈ batches ∧ row < rb_num_rows b ∧ partition_key_for_row b row schema spec = Err e
  end.
Proof.
  intros Hbs Hnd. destruct (partition_batches batches schema spec) as [groups|e] eqn:Hrun.
  - destruct (partition_batches_split _ _ _ _ Hbs Hnd Hrun) as (Hperm & keys & Hkeys & Hall). split; [done|].
    exists keys. split; [done|]. eapply Forall2_impl; [exact Hall|]. intros key g Hg b row Hb Hrow.
    destruct (Hg b Hb) as [[_ Hrows] Hval]. destruct (Hrows row Hrow) as (b0 & i & values & _ & _ & _ & Heq & Hk).
    exists values. rewrite Heq. split; [done|]. apply (Hval row). by rewrite Heq.
  - rewrite Forall_forall in Hbs. unfold partition_batches in Hrun. apply bind_Err in Hrun as [Hf|(? & _ & ?)]; [|done].
    apply (foldM_inv_Err (λ _, True)) in Hf as (g & b & Hin & _ & He); [|done..].
    apply partition_batch_Err in He as (row & ? & ?); [|by apply Hbs]. by exists b, row.
Qed.
End exact.

(** ** Concrete kernels *)

(** The text of a key: floats without a JSON number are all written as null. *)
Definition json_view (v : TeoScalar) : TeoScalar :=
  if scalar_finite v then v
  else match v with SFloat32 _ => SFloat32 2143289344 | _ => SFloat64 9221120237041090560 end.
Definition demo_kernels : ArrowKernels := {|
  take_kernel a rows := Ok (array_select a rows);
  batch_try_new schema columns :=
    Ok (mkRecordBatch schema columns (match columns with a :: _ => array_len a | [] => 0 end));
  partition_key_json l := Ok (fields_encode (map (λ e, (e.1, json_view e.2)) l));
|}.

#[export] Instance demo_kernels_laws : ArrowLaws (H := demo_kernels).
Proof.
  split; [done| |].
  - intros b rows [Hne Hlen] Hr. simpl. unfold batch_select. do 2 f_equal.
    destruct (rb_columns b) as [|a cols]; [done|]. simpl. apply Forall_cons in Hlen as [Ha _].
    unfold array_len in *. simpl. rewrite <-Ha in Hr. clear -Hr.
    induction Hr as [|i rows Hi _ IH]; [done|]. simpl.
    destruct (lookup_lt_is_Some_2 _ _ Hi) as [x ->]. simpl. f_equal. exact IH.
  - intros l1 l2 text Hf1 Hf2 [= Ht1] [= Ht2].
    assert (∀ l : list (FieldId * TeoScalar), Forall (λ e, scalar_finite e.2 = true) l →
              map (λ e, (e.1, json_view e.2)) l = l) as Hid.
    { induction 1 as [|[k v] l Hv _ IH]; [done|]. simpl. rewrite IH. unfold json_view. simpl in Hv. by rewrite Hv. }
    rewrite Hid in Ht1, Ht2 by done.
    pose proof (fields_decode_encode l1) as Hd1. pose proof (fields_decode_encode l2) as Hd2. congruence.
Qed.

Definition demo_table_of (dt : TeoDataType) : SchemaDefinition := mkSchemaDefinition 0 [mkColumnMeta 1 "v" dt true None] [].
Definition demo_by_value : PartitionSpec := mkPartitionSpec 0 [mkPartitionField 1 1000 "v" Identity].
Definition demo_batch (c : ArrayClass) (cells : list (option (cell_type c))) : RecordBatch :=
  mkRecordBatch [] [mkArray c cells] (length cells).

Lemma partition_batches_exact_witness :
  concat (map batch_rows (concat (map pb_batches
    [mkPartitionedBatches {[ 1000%Z := SUtf8 "us" ]} [demo_batch ClsString [Some "us"]];
     mkPartitionedBatches {[ 1000%Z := SUtf8 "eu" ]} [demo_batch ClsString [Some "eu"; Some "eu"]]])))
  ≡ₚ batch_rows (demo_batch ClsString [Some "eu"; Some "us"; Some "eu"]).
Proof.
  pose proof (partition_batches_exact (H := demo_iceberg) (H0 := demo_kernels)
    [demo_batch ClsString [Some "eu"; Some "us"; Some "eu"]] (demo_table_of TUtf8) demo_by_value) as Hex.
  assert (partition_batches (H := demo_iceberg) (H0 := demo_kernels)
    [demo_batch ClsString [Some "eu"; Some "us"; Some "eu"]] (demo_table_of TUtf8) demo_by_value
    = Ok [mkPartitionedBatches {[ 1000%Z := SUtf8 "us" ]} [demo_batch ClsString [Some "us"]];
          mkPartitionedBatches {[ 1000%Z := SUtf8 "eu" ]} [demo_batch ClsString [Some "eu"; Some "eu"]]]) as Hrun
    by (vm_compute; reflexivity).
  rewrite Hrun in Hex. destruct Hex as [Hp _]; [..|exact Hp].
  - constructor; [|constructor]. split; [discriminate|]. constructor; [reflexivity|constructor].
  - apply NoDup_singleton.
Defined.

(** Rows with plus and minus infinity in a partition column share a group, under the tuple
    of the first of them. *)
Theorem infinities_share_partition :
  partition_batches (H := demo_iceberg) (H0 := demo_kernels)
    [demo_batch ClsFloat64 [Some 9218868437227405312%N; Some 18442240474082181120%N]] (demo_table_of TFloat64) demo_by_value
  = Ok [mkPartitionedBatches {[ 1000%Z := SFloat64 9218868437227405312 ]}
          [demo_batch ClsFloat64 [Some 9218868437227405312%N; Some 18442240474082181120%N]]].
Proof. vm_compute. reflexivity. Qed.

(** Rows with -0.05 and 0.05 in a partition column share the partition of 0.05. *)
Theorem small_negative_decimals_share_partition :
  partition_batches (H := demo_iceberg) (H0 := demo_kernels)
    [demo_batch ClsDecimal128 [Some (-5)%Z; Some 5%Z]] (demo_table_of (TDecimal128 10 2)) demo_by_value
  = Ok [mkPartitionedBatches {[ 1000%Z := SDecimal128 5 10 2 ]} [demo_batch ClsDecimal128 [Some (-5)%Z; Some 5%Z]]].
Proof. vm_compute. reflexivity. Qed.
