(* ===== verification/ParquetStats.v ===== *)
(** * Statistics of written Parquet files

    Models the ordering of scalars of [teodb-core/src/scalar.rs], the codec
    configuration, the write contract and the footer statistics of
    [teodb-storage/src/parquet].  The decoded footer is data of the Parquet
    library; machine floats are their bit patterns. *)

From S2P Require Import Prelude Core Decimal Location DataFiles Schema Convert.
Open Scope nat_scope.
Open Scope list_scope.

(** ** The order of scalars *)
Fixpoint lex_compare (l1 l2 : list N) : comparison :=
  match l1, l2 with
  | [], [] => Eq
  | [], _ :: _ => Lt
  | _ :: _, [] => Gt
  | a :: l1, b :: l2 => match (a ?= b)%N with Eq => lex_compare l1 l2 | c => c end
  end.
Fixpoint str_codes (s : string) : list N :=
  match s with EmptyString => [] | String a s => N_of_ascii a :: str_codes s end.

(** [f32::partial_cmp] and [f64::partial_cmp] on bit patterns of [bits] bits with [mant] bits
    of mantissa: nothing compares with a NaN, and the zeros are equal. *)
Definition float_magnitude (bits x : N) : N := (x mod 2 ^ (bits - 1))%N.
Definition float_is_nan (bits mant x : N) : bool := (2 ^ (bits - 1) - 2 ^ mant <? float_magnitude bits x)%N.
Definition float_key (bits x : N) : Z :=
  if N.testbit x (bits - 1) then (- Z.of_N (float_magnitude bits x))%Z else Z.of_N (float_magnitude bits x).
Definition float_partial_cmp (bits mant a b : N) : option comparison :=
  if float_is_nan bits mant a || float_is_nan bits mant b then None
  else Some (float_key bits a ?= float_key bits b)%Z.

Definition scalar_partial_cmp (x y : TeoScalar) : option comparison :=
  match x, y with
  | SNull, SNull => Some Eq
  | SBoolean a, SBoolean b => Some (Z.compare (Z.b2z a) (Z.b2z b))
  | SInt8 a, SInt8 b | SInt16 a, SInt16 b | SInt32 a, SInt32 b | SInt64 a, SInt64 b => Some (a ?= b)%Z
  | SUInt8 a, SUInt8 b | SUInt16 a, SUInt16 b | SUInt32 a, SUInt32 b | SUInt64 a, SUInt64 b => Some (a ?= b)%N
  | SFloat32 a, SFloat32 b => float_partial_cmp 32 23 a b
  | SFloat64 a, SFloat64 b => float_partial_cmp 64 52 a b
  | SDecimal128 a ap as_, SDecimal128 b bp bs =>
      if (ap =? bp)%N && (as_ =? bs)%Z then Some (a ?= b)%Z else None
  | SDate32 a, SDate32 b => Some (a ?= b)%Z
  | STimestampMicros a atz, STimestampMicros b btz => if bool_decide (atz = btz) then Some (a ?= b)%Z else None
  | STime64Micros a, STime64Micros b => Some (a ?= b)%Z
  | SUtf8 a, SUtf8 b => Some (lex_compare (str_codes a) (str_codes b))
  | SBinary a, SBinary b => Some (lex_compare a b)
  | SFixedSizeBinary a, SFixedSizeBinary b =>
      if length a =? length b then Some (lex_compare a b) else None
  | _, _ => None
  end.
Definition scalar_ltb (x y : TeoScalar) : bool :=
  match scalar_partial_cmp x y with Some Lt => true | _ => false end.
Definition scalar_gtb (x y : TeoScalar) : bool :=
  match scalar_partial_cmp x y with Some Gt => true | _ => false end.

(** ** Compression codecs *)
Inductive CompressionCodec :=
| Uncompressed | Snappy | Gzip (level : N) | Lz4Raw | Zstd (level : Z) | Lzo | Brotli (level : N).
Inductive CompressionParseError :=
| InvalidLevel (codec value : string)
| LevelOutOfRange (codec : string) (min max actual : Z)
| UnknownCodec (s : string).

Definition default_codec : CompressionCodec := Zstd 3.
Definition codec_display (c : CompressionCodec) : string :=
  match c with
  | Uncompressed => "none"
  | Snappy => "snappy"
  | Gzip level => "gzip(" +:+ pretty level +:+ ")"
  | Lz4Raw => "lz4"
  | Zstd level => "zstd(" +:+ pretty level +:+ ")"
  | Lzo => "lzo"
  | Brotli level => "brotli(" +:+ pretty level +:+ ")"
  end.

(** [trim] and [to_lowercase] on ASCII text. *)
Definition is_space (c : ascii) : bool :=
  let n := N_of_ascii c in ((9 <=? n) && (n <=? 13) || (n =? 32))%N.
Fixpoint str_trim_left (s : string) : string :=
  match s with String c s' => if is_space c then str_trim_left s' else s | EmptyString => EmptyString end.
Definition str_trim (s : string) : string := str_rev (str_trim_left (str_rev (str_trim_left s))).
Definition lower_char (c : ascii) : ascii :=
  let n := N_of_ascii c in if ((65 <=? n) && (n <=? 90))%N then ascii_of_N (n + 32) else c.
Fixpoint str_lower (s : string) : string :=
  match s with EmptyString => EmptyString | String c s => String (lower_char c) (str_lower s) end.

(** [s.strip_prefix("name(").and_then(|r| r.strip_suffix(')'))]. *)
Definition codec_argument (name s : string) : option string :=
  str_strip_prefix (name +:+ "(") s ≫= str_strip_suffix ")".
(** [str::parse::<u8>] and [str::parse::<u32>]. *)
Definition parse_unsigned (max : N) (s : string) : option N :=
  parse_magnitude max (default s (str_strip_prefix "+" s)).

Definition from_str_config (text : string) : result CompressionParseError CompressionCodec :=
  let s := str_lower (str_trim text) in
  match codec_argument "zstd" s with
  | Some inner =>
      level ← ok_or (parse_i32 (str_trim inner)) (InvalidLevel "zstd" inner);
      if ((1 <=? level) && (level <=? 22))%Z then Ok (Zstd level) else Err (LevelOutOfRange "zstd" 1 22 level)
  | None =>
  match codec_argument "gzip" s with
  | Some inner =>
      level ← ok_or (parse_unsigned u8_max (str_trim inner)) (InvalidLevel "gzip" inner);
      if (9 <? level)%N then Err (LevelOutOfRange "gzip" 0 9 (Z.of_N level)) else Ok (Gzip level)
  | None =>
  match codec_argument "brotli" s with
  | Some inner =>
      level ← ok_or (parse_unsigned u32_max (str_trim inner)) (InvalidLevel "brotli" inner);
      if (11 <? level)%N then Err (LevelOutOfRange "brotli" 0 11 (wrap_signed 32 (Z.of_N level))) else Ok (Brotli level)
  | None =>
      if bool_decide (s = "zstd") then Ok (Zstd 3)
      else if bool_decide (s = "snappy") then Ok Snappy
      else if bool_decide (s = "gzip") then Ok (Gzip 6)
      else if bool_decide (s = "lz4") || bool_decide (s = "lz4_raw") then Ok Lz4Raw
      else if bool_decide (s = "lzo") then Ok Lzo
      else if bool_decide (s = "brotli") then Ok (Brotli 4)
      else if bool_decide (s = "none") || bool_decide (s = "uncompressed") then Ok Uncompressed
      else Err (UnknownCodec s)
  end end end.

(** ** The write contract *)
Record WriteSpec := mkWriteSpec {
  ws_schema : ArrowSchema;
  ws_schema_id : Z;
  ws_partition_spec_id : Z;
  ws_partition_values : gmap FieldId TeoScalar;
  ws_sort_order : SortOrder;
  ws_compression : CompressionCodec;
  ws_row_group_target_bytes : N;
  ws_row_group_target_rows : N;
  ws_generation_lo : N;
  ws_generation_hi : N }.

(** The builder after its setters; the two ids are mandatory. *)
Definition write_spec_build (schema : ArrowSchema) (schema_id partition_spec_id : option Z)
    (partition_values : gmap FieldId TeoScalar) (sort_order : SortOrder) (compression : CompressionCodec)
    (target_bytes target_rows generation_lo generation_hi : N) : TeoDBResult WriteSpec :=
  schema_id ← ok_or schema_id (Config "write spec schema_id is required");
  partition_spec_id ← ok_or partition_spec_id (Config "write spec partition_spec_id is required");
  Ok (mkWriteSpec schema schema_id partition_spec_id partition_values sort_order compression
        target_bytes target_rows generation_lo generation_hi).
Definition DEFAULT_TARGET_BYTES : N := (128 * 1024 * 1024)%N.
Definition DEFAULT_TARGET_ROWS : N := (8 * 1024 * 1024)%N.

(** ** Footer statistics *)
Inductive StatValues :=
| StBoolean (min max : option bool)
| StInt32 (min max : option Z)
| StInt64 (min max : option Z)
| StInt96
| StFloat (min max : option N)
| StDouble (min max : option N)
| StByteArray (min max : option (list N))
| StFixedLenByteArray (min max : option (list N)).
Record Statistics := mkStatistics { st_values : StatValues; st_null_count : option N }.
Record ColumnChunk := mkColumnChunk {
  cc_compressed_size : Z; cc_data_page_offset : Z; cc_statistics : option Statistics }.
Record RowGroup := mkRowGroup { rg_num_rows : Z; rg_columns : list ColumnChunk }.

(** [String::from_utf8]: well-formed UTF-8. *)
Definition is_cont (b : N) : bool := ((128 <=? b) && (b <=? 191))%N.
Definition in_range (lo hi b : N) : bool := ((lo <=? b) && (b <=? hi))%N.
Fixpoint utf8_valid (l : list N) : bool :=
  match l with
  | [] => true
  | b0 :: l1 =>
      if (b0 <? 128)%N then utf8_valid l1
      else match l1 with
           | [] => false
           | b1 :: l2 =>
               if in_range 194 223 b0 then is_cont b1 && utf8_valid l2
               else match l2 with
                    | [] => false
                    | b2 :: l3 =>
                        if in_range 224 239 b0 then
                          (if (b0 =? 224)%N then in_range 160 191 b1
                           else if (b0 =? 237)%N then in_range 128 159 b1 else is_cont b1)
                          && is_cont b2 && utf8_valid l3
                        else match l3 with
                             | [] => false
                             | b3 :: l4 =>
                                 in_range 240 244 b0
                                 && (if (b0 =? 240)%N then in_range 144 191 b1
                                     else if (b0 =? 244)%N then in_range 128 143 b1 else is_cont b1)
                                 && is_cont b2 && is_cont b3 && utf8_valid l4
                             end
                    end
           end
  end.
Definition string_of_codes (l : list N) : string := foldr (λ n s, String (ascii_of_N n) s) EmptyString l.
Definition string_from_utf8 (l : list N) : option string :=
  if utf8_valid l then Some (string_of_codes l) else None.

Definition stats_min_to_scalar (stats : Statistics) : option TeoScalar :=
  match st_values stats with
  | StBoolean min _ => SBoolean <$> min
  | StInt32 min _ => SInt32 <$> min
  | StInt64 min _ => SInt64 <$> min
  | StFloat min _ => SFloat32 <$> min
  | StDouble min _ => SFloat64 <$> min
  | StByteArray min _ => SUtf8 <$> (min ≫= string_from_utf8)
  | StFixedLenByteArray min _ => SBinary <$> min
  | StInt96 => None
  end.
Definition stats_max_to_scalar (stats : Statistics) : option TeoScalar :=
  match st_values stats with
  | StBoolean _ max => SBoolean <$> max
  | StInt32 _ max => SInt32 <$> max
  | StInt64 _ max => SInt64 <$> max
  | StFloat _ max => SFloat32 <$> max
  | StDouble _ max => SFloat64 <$> max
  | StByteArray _ max => SUtf8 <$> (max ≫= string_from_utf8)
  | StFixedLenByteArray _ max => SBinary <$> max
  | StInt96 => None
  end.

(** What the loop over the row groups has accumulated.  The sums stay below [2^64]. *)
Record FileStats := mkFileStats {
  fs_record_count : N;
  fs_column_sizes : gmap FieldId N;
  fs_value_counts : gmap FieldId N;
  fs_null_value_counts : gmap FieldId N;
  fs_lower_bounds : gmap FieldId TeoScalar;
  fs_upper_bounds : gmap FieldId TeoScalar;
  fs_split_offsets : list Z }.

(** [*map.entry(id).or_default() += n]. *)
Definition add_to (m : gmap FieldId N) (id : FieldId) (n : N) : gmap FieldId N :=
  <[id := (default 0 (m !! id) + n)%N]> m.
(** [entry(id).and_modify(|e| if better(scalar, e) { *e = scalar }).or_insert(scalar)]. *)
Definition keep_bound (better : TeoScalar → TeoScalar → bool) (m : gmap FieldId TeoScalar) (id : FieldId)
    (scalar : option TeoScalar) : gmap FieldId TeoScalar :=
  match scalar, m !! id with
  | None, _ => m
  | Some scalar, Some existing => if better scalar existing then <[id := scalar]> m else m
  | Some scalar, None => <[id := scalar]> m
  end.

Definition add_column (field_ids : list (option FieldId)) (num_rows : N) (acc : FileStats)
    (entry : nat * ColumnChunk) : FileStats :=
  let '(col_idx, col) := entry in
  match mjoin (field_ids !! col_idx) with
  | None => acc
  | Some field_id =>
      let sizes := add_to (fs_column_sizes acc) field_id (wrap_unsigned 64 (cc_compressed_size col)) in
      match cc_statistics col with
      | None =>
          mkFileStats (fs_record_count acc) sizes (fs_value_counts acc) (fs_null_value_counts acc)
            (fs_lower_bounds acc) (fs_upper_bounds acc) (fs_split_offsets acc)
      | Some stats =>
          mkFileStats (fs_record_count acc) sizes (add_to (fs_value_counts acc) field_id num_rows)
            (match st_null_count stats with
             | Some n => if (0 <? n)%N then add_to (fs_null_value_counts acc) field_id n else fs_null_value_counts acc
             | None => fs_null_value_counts acc
             end)
            (keep_bound scalar_ltb (fs_lower_bounds acc) field_id (stats_min_to_scalar stats))
            (keep_bound scalar_gtb (fs_upper_bounds acc) field_id (stats_max_to_scalar stats))
            (fs_split_offsets acc)
      end
  end.

Definition add_row_group (field_ids : list (option FieldId)) (acc : FileStats) (rg : RowGroup) : FileStats :=
  let num_rows := wrap_unsigned 64 (rg_num_rows rg) in
  let acc := mkFileStats (fs_record_count acc + num_rows)%N (fs_column_sizes acc) (fs_value_counts acc)
               (fs_null_value_counts acc) (fs_lower_bounds acc) (fs_upper_bounds acc)
               (match rg_columns rg with
                | col0 :: _ => fs_split_offsets acc ++ [cc_data_page_offset col0]
                | [] => fs_split_offsets acc
                end) in
  foldl (add_column field_ids num_rows) acc (imap pair (rg_columns rg)).

Definition footer_stats (field_ids : list (option FieldId)) (footer : list RowGroup) : FileStats :=
  foldl (add_row_group field_ids) (mkFileStats 0 ∅ ∅ ∅ ∅ ∅ []) footer.

Definition extract_data_file (footer : list RowGroup) (target : ObjectLocation) (spec : WriteSpec) (file_size : N)
    : DataFile :=
  let s := footer_stats (map field_id_from_arrow_field (ws_schema spec)) footer in
  {| df_content := ContentData;
     df_path := target;
     df_format := FmtParquet;
     df_partition_spec_id := ws_partition_spec_id spec;
     df_sort_order_id := Some (so_order_id (ws_sort_order spec));
     df_schema_id := ws_schema_id spec;
     df_partition_values := ws_partition_values spec;
     df_record_count := fs_record_count s;
     df_file_size_bytes := file_size;
     df_column_sizes := fs_column_sizes s;
     df_value_counts := fs_value_counts s;
     df_null_value_counts := fs_null_value_counts s;
     df_nan_value_counts := ∅;
     df_lower_bounds := fs_lower_bounds s;
     df_upper_bounds := fs_upper_bounds s;
     df_split_offsets := fs_split_offsets s;
     df_equality_ids := [];
     df_key_metadata := None |}.

(** [extract_data_file_from_bytes], for what reading the footer returned. *)
Definition extract_data_file_from_bytes (read_footer : result string (list RowGroup)) (target : ObjectLocation)
    (spec : WriteSpec) (file_size : N) : TeoDBResult DataFile :=
  footer ← map_err (λ _, Parquet "open footer: {e}") read_footer;
  Ok (extract_data_file footer target spec file_size).

(** ** Scalars of one kind are totally ordered *)

(** The kind a scalar is comparable within: variant, decimal parameters, timezone, length. *)
Definition ScalarKind : Type := N * (N * Z) * option string * nat.
Definition kind (tag : N) : ScalarKind := (tag, (0%N, 0%Z), None, 0).
#[export] Instance ScalarKind_eq_dec : EqDecision ScalarKind := ltac:(unfold ScalarKind; apply _).

(** Its position among them; a NaN has none. *)
Definition scalar_view (v : TeoScalar) : option (ScalarKind * (Z + list N)) :=
  match v with
  | SNull => Some (kind 0, inl 0%Z)
  | SBoolean b => Some (kind 1, inl (Z.b2z b))
  | SInt8 z => Some (kind 2, inl z) | SInt16 z => Some (kind 3, inl z)
  | SInt32 z => Some (kind 4, inl z) | SInt64 z => Some (kind 5, inl z)
  | SUInt8 n => Some (kind 6, inl (Z.of_N n)) | SUInt16 n => Some (kind 7, inl (Z.of_N n))
  | SUInt32 n => Some (kind 8, inl (Z.of_N n)) | SUInt64 n => Some (kind 9, inl (Z.of_N n))
  | SFloat32 x => if float_is_nan 32 23 x then None else Some (kind 10, inl (float_key 32 x))
  | SFloat64 x => if float_is_nan 64 52 x then None else Some (kind 11, inl (float_key 64 x))
  | SDecimal128 z p s => Some ((12%N, (p, s), None, 0), inl z)
  | SDate32 z => Some (kind 13, inl z)
  | STimestampMicros z tz => Some ((14%N, (0%N, 0%Z), tz, 0), inl z)
  | STime64Micros z => Some (kind 15, inl z)
  | SUtf8 s => Some (kind 16, inr (str_codes s))
  | SBinary l => Some (kind 17, inr l)
  | SFixedSizeBinary l => Some ((18%N, (0%N, 0%Z), None, length l), inr l)
  end.
Definition view_compare (a b : Z + list N) : option comparison :=
  match a, b with
  | inl a, inl b => Some (a ?= b)%Z
  | inr a, inr b => Some (lex_compare a b)
  | _, _ => None
  end.

Lemma scalar_partial_cmp_kind x y k a b :
  scalar_view x = Some (k, a) → scalar_view y = Some (k, b) → scalar_partial_cmp x y = view_compare a b.
Proof.
  destruct x, y; cbn [scalar_view]; repeat case_match; intros [= <- <-]; intros; simplify_eq; try done; simpl;
    rewrite ?N2Z.inj_compare, ?N.eqb_refl, ?Z.eqb_refl, ?bool_decide_eq_true_2 by done; try done;
    unfold float_partial_cmp.
  all: try by (repeat match goal with Hn : float_is_nan _ _ _ = false |- _ => rewrite Hn; clear Hn end).
  by rewrite (proj2 (Nat.eqb_eq _ _)).
Qed.

Lemma lex_compare_refl l : lex_compare l l = Eq.
Proof. induction l; simpl; [done|]. by rewrite N.compare_refl. Qed.
Lemma lex_compare_antisym l1 l2 : lex_compare l2 l1 = CompOpp (lex_compare l1 l2).
Proof.
  revert l2. induction l1 as [|a l1 IH]; intros [|b l2]; simpl; try done.
  rewrite (N.compare_antisym a b). destruct (a ?= b)%N; simpl; auto.
Qed.
Lemma lex_compare_trans l1 l2 l3 : lex_compare l1 l2 ≠ Gt → lex_compare l2 l3 ≠ Gt → lex_compare l1 l3 ≠ Gt.
Proof.
  revert l2 l3. induction l1 as [|a l1 IH]; intros [|b l2] [|c l3]; simpl; try done.
  destruct (N.compare_spec a b), (N.compare_spec b c); intros H1 H2; simplify_eq; try done.
  - rewrite N.compare_refl. by apply (IH l2).
  - by rewrite (proj2 (N.compare_lt_iff _ _)).
  - by rewrite (proj2 (N.compare_lt_iff _ _)).
  - rewrite (proj2 (N.compare_lt_iff _ _)); [done|]. lia.
Qed.

(** The order within a kind. *)
Definition scalar_le (x y : TeoScalar) : Prop :=
  ∃ k a b, scalar_view x = Some (k, a) ∧ scalar_view y = Some (k, b) ∧
    match view_compare a b with Some Gt | None => False | Some _ => True end.
Definition of_kind (k : ScalarKind) (v : TeoScalar) : Prop := fst <$> scalar_view v = Some k.

Lemma scalar_le_trans x y z : scalar_le x y → scalar_le y z → scalar_le x z.
Proof.
  intros (k & a & b & Hx & Hy & Hab) (k' & b' & c & Hy' & Hz & Hbc). rewrite Hy in Hy'. simplify_eq.
  exists k', a, c. split_and!; [done..|].
  destruct a as [a|a], b' as [b|b], c as [c|c]; simpl in *; try done.
  - assert (a ≤ b)%Z by (apply Z.compare_le_iff; intros E; by rewrite E in Hab).
    assert (b ≤ c)%Z by (apply Z.compare_le_iff; intros E; by rewrite E in Hbc).
    assert (a ≤ c)%Z as Hac by lia. apply Z.compare_le_iff in Hac. by destruct (a ?= c)%Z.
  - pose proof (lex_compare_trans a b c). destruct (lex_compare a b), (lex_compare b c), (lex_compare a c); try done; naive_solver.
Qed.

Lemma scalar_view_side v k a : scalar_view v = Some (k, a) →
  match a with inl _ => k.1.1.1 ∉ [16; 17; 18]%N | inr _ => k.1.1.1 ∈ [16; 17; 18]%N end.
Proof.
  destruct v; cbn [scalar_view]; repeat case_match; intros; simplify_eq; simpl; rewrite !elem_of_cons, elem_of_nil; naive_solver lia.
Qed.

Lemma of_kind_compare k x y : of_kind k x → of_kind k y →
  ∃ a b c, scalar_view x = Some (k, a) ∧ scalar_view y = Some (k, b) ∧ view_compare a b = Some c ∧
    scalar_partial_cmp x y = Some c.
Proof.
  unfold of_kind. destruct (scalar_view x) as [[k1 a]|] eqn:Hx; [|done]. destruct (scalar_view y) as [[k2 b]|] eqn:Hy; [|done].
  intros [= ->] [= ->]. pose proof (scalar_view_side _ _ _ Hx). pose proof (scalar_view_side _ _ _ Hy).
  rewrite (scalar_partial_cmp_kind x y k a b) by done. exists a, b.
  destruct a, b; simpl; try done; eexists; split_and!; reflexivity.
Qed.

Lemma view_compare_antisym a b c : view_compare a b = Some c → view_compare b a = Some (CompOpp c).
Proof.
  destruct a, b; simpl; try done; intros [= <-]; f_equal; [apply Z.compare_antisym|apply lex_compare_antisym].
Qed.

(** Of two scalars of a kind the comparison picks a least, and a greatest. *)
Lemma scalar_min k x y : of_kind k x → of_kind k y →
  if scalar_ltb x y then scalar_le x y else scalar_le y x.
Proof.
  intros Hx Hy. destruct (of_kind_compare k x y Hx Hy) as (a & b & c & Va & Vb & Hc & Hp).
  unfold scalar_ltb. rewrite Hp. destruct c; [|by exists k, a, b; rewrite Hc|];
    exists k, b, a; by rewrite (view_compare_antisym _ _ _ Hc).
Qed.
Lemma scalar_max k x y : of_kind k x → of_kind k y →
  if scalar_gtb x y then scalar_le y x else scalar_le x y.
Proof.
  intros Hx Hy. destruct (of_kind_compare k x y Hx Hy) as (a & b & c & Va & Vb & Hc & Hp).
  unfold scalar_gtb. rewrite Hp. destruct c; [by exists k, a, b; rewrite Hc..|].
  exists k, b, a; by rewrite (view_compare_antisym _ _ _ Hc).
Qed.

Lemma scalar_le_refl k x : of_kind k x → scalar_le x x.
Proof. intros Hx. pose proof (scalar_min k x x Hx Hx) as H. by destruct (scalar_ltb x x). Qed.

(** ** Configured codecs *)
Definition codec_valid (c : CompressionCodec) : bool :=
  match c with
  | Gzip level => (level <=? 9)%N
  | Zstd level => ((1 <=? level) && (level <=? 22))%Z
  | Brotli level => (level <=? 11)%N
  | _ => true
  end.

Lemma below_cases (P : N → Prop) max : Forall P (map N.of_nat (seq 0 (S (N.to_nat max)))) → ∀ n, (n ≤ max)%N → P n.
Proof.
  rewrite Forall_forall. intros Hall n Hn. apply Hall, list_elem_of_fmap. exists (N.to_nat n).
  split; [lia|]. apply elem_of_seq. lia.
Qed.

(** Every codec the parser accepts has a level in range, and its display form parses back to it. *)
Lemma codec_roundtrip c :
  (codec_valid c = true → from_str_config (codec_display c) = Ok c) ∧
  (∀ text, from_str_config text = Ok c → codec_valid c = true).
Proof.
  split.
  - destruct c as [| |level| |level| |level]; cbn [codec_valid]; intros Hv; try reflexivity.
    + apply N.leb_le in Hv. revert level Hv. apply below_cases. repeat (constructor; [vm_compute; reflexivity|]). constructor.
    + apply andb_true_iff in Hv as [H1%Z.leb_le H2%Z.leb_le].
      assert (∀ n : N, (n ≤ 21)%N → from_str_config (codec_display (Zstd (Z.of_N n + 1))) = Ok (Zstd (Z.of_N n + 1))) as Hn.
      { apply below_cases. repeat (constructor; [vm_compute; reflexivity|]). constructor. }
      replace level with (Z.of_N (Z.to_N (level - 1)) + 1)%Z by lia. apply Hn. lia.
    + apply N.leb_le in Hv. revert level Hv. apply below_cases. repeat (constructor; [vm_compute; reflexivity|]). constructor.
  - intros text. unfold from_str_config. cbv zeta. set (s := str_lower _).
    destruct (codec_argument "zstd" s) as [inner|].
    { intros (level & _ & Hc)%bind_Ok. destruct (_ && _)%Z eqn:Hl; [|done]. injection Hc as <-. done. }
    destruct (codec_argument "gzip" s) as [inner|].
    { intros (level & _ & Hc)%bind_Ok. destruct (9 <? level)%N eqn:Hl; [done|]. injection Hc as <-.
      apply N.ltb_ge in Hl. by apply N.leb_le. }
    destruct (codec_argument "brotli" s) as [inner|].
    { intros (level & _ & Hc)%bind_Ok. destruct (11 <? level)%N eqn:Hl; [done|]. injection Hc as <-.
      apply N.ltb_ge in Hl. by apply N.leb_le. }
    repeat (case_match; [intros [= <-]; done|]). done.
Qed.

(** ** Bounds of a file hold for its rows *)

(** A fold over the indexed columns that only the column [idx] contributes to. *)
Lemma foldl_imap_only {A B C} (f : B → nat * A → B) (g : B → C) (h : C → A → C) (idx : nat) (l : list A) (s : B) :
  (∀ s j a, j ≠ idx → g (f s (j, a)) = g s) → (∀ s a, g (f s (idx, a)) = h (g s) a) →
  g (foldl f s (imap pair l)) = match l !! idx with Some a => h (g s) a | None => g s end.
Proof.
  intros Hne Heq.
  assert (∀ es s, (∀ j a, (j, a) ∈ es → j ≠ idx) → g (foldl f s es) = g s) as Hother.
  { induction es as [|[j a] es IH]; intros s' Hes; [done|]. cbn [foldl].
    rewrite IH by (intros ? ? ?; eapply Hes; by right). apply Hne, (Hes j a). by left. }
  assert (∀ (l' : list A) n j a, (j, a) ∈ imap (λ i x, (n + i, x)) l' → n ≤ j < n + length l') as Hrange.
  { intros l' n j a (i & x & [= -> ->] & Hi%lookup_lt_Some)%elem_of_lookup_imap_1. lia. }
  destruct (l !! idx) as [a|] eqn:Hl.
  - pose proof (lookup_lt_Some _ _ _ Hl). apply take_drop_middle in Hl. rewrite <-Hl at 1.
    rewrite imap_app, foldl_app. cbn [imap foldl].
    rewrite length_take_le, Nat.add_0_r by lia. rewrite Hother.
    + rewrite Heq, Hother; [done|]. intros j x Hin%(Hrange _ 0). rewrite length_take_le in Hin; lia.
    + intros j x Hin. assert ((j, x) ∈ imap (λ i x, (S idx + i, x)) (drop (S idx) l)) as Hin'%Hrange; [|lia].
      erewrite imap_ext; [exact Hin|]. intros i y _. simpl. f_equal. lia.
  - apply Hother. intros j x Hin%(Hrange _ 0). apply lookup_ge_None in Hl. lia.
Qed.

Section bounds.
Context (field_ids : list (option FieldId)) (idx : nat) (fid : FieldId).
Context (Hidx : mjoin (field_ids !! idx) = Some fid) (Huniq : ∀ j, mjoin (field_ids !! j) = Some fid → j = idx).

Definition keep_opt (better : TeoScalar → TeoScalar → bool) (acc new : option TeoScalar) : option TeoScalar :=
  match new, acc with
  | None, _ => acc
  | Some s, Some e => Some (if better s e then s else e)
  | Some s, None => Some s
  end.
Lemma keep_bound_lookup better m id new k :
  keep_bound better m id new !! k = if decide (k = id) then keep_opt better (m !! id) new else m !! k.
Proof.
  unfold keep_bound, keep_opt. destruct new as [s|]; [|by case_decide; subst].
  destruct (m !! id) as [e|] eqn:He; [destruct (better s e)|]; case_decide; subst;
    rewrite ?lookup_insert_eq, ?lookup_insert_ne by done; done.
Qed.

Definition column_min (rg : RowGroup) : option TeoScalar :=
  col ← rg_columns rg !! idx; stats ← cc_statistics col; stats_min_to_scalar stats.
Definition column_max (rg : RowGroup) : option TeoScalar :=
  col ← rg_columns rg !! idx; stats ← cc_statistics col; stats_max_to_scalar stats.

Lemma add_row_group_bounds acc rg :
  let acc' := add_row_group field_ids acc rg in
  fs_lower_bounds acc' !! fid = keep_opt scalar_ltb (fs_lower_bounds acc !! fid) (column_min rg) ∧
  fs_upper_bounds acc' !! fid = keep_opt scalar_gtb (fs_upper_bounds acc !! fid) (column_max rg).
Proof.
  cbn zeta. unfold add_row_group. set (acc0 := mkFileStats _ _ _ _ _ _ _).
  assert (∀ s j col, j ≠ idx → fs_lower_bounds (add_column field_ids (wrap_unsigned 64 (rg_num_rows rg)) s (j, col)) !! fid
      = fs_lower_bounds s !! fid ∧
    fs_upper_bounds (add_column field_ids (wrap_unsigned 64 (rg_num_rows rg)) s (j, col)) !! fid
      = fs_upper_bounds s !! fid) as Hne.
  { intros s j col Hj. unfold add_column. destruct (mjoin (field_ids !! j)) as [id|] eqn:Hid; [|done].
    assert (fid ≠ id) by (intros <-; by apply Hj, Huniq).
    destruct (cc_statistics col); simpl; [|done]. by rewrite !keep_bound_lookup, !decide_False. }
  split.
  - rewrite (foldl_imap_only _ (λ s, fs_lower_bounds s !! fid)
      (λ o col, keep_opt scalar_ltb o (cc_statistics col ≫= stats_min_to_scalar)) idx).
    + unfold column_min. simpl. by destruct (rg_columns rg !! idx).
    + intros. by apply Hne.
    + intros s col. unfold add_column. rewrite Hidx. destruct (cc_statistics col); simpl; [|done].
      by rewrite keep_bound_lookup, decide_True.
  - rewrite (foldl_imap_only _ (λ s, fs_upper_bounds s !! fid)
      (λ o col, keep_opt scalar_gtb o (cc_statistics col ≫= stats_max_to_scalar)) idx).
    + unfold column_max. simpl. by destruct (rg_columns rg !! idx).
    + intros. by apply Hne.
    + intros s col. unfold add_column. rewrite Hidx. destruct (cc_statistics col); simpl; [|done].
      by rewrite keep_bound_lookup, decide_True.
Qed.

(** A row group whose statistics are true of the non-null values of the column, and usable:
    both ends can be represented. *)
Definition group_truthful (k : ScalarKind) (rg : RowGroup) (values : list TeoScalar) : Prop :=
  (∀ s, column_min rg = Some s ∨ column_max rg = Some s → of_kind k s) ∧
  ∀ v, v ∈ values → ∃ lo hi, column_min rg = Some lo ∧ column_max rg = Some hi ∧ scalar_le lo v ∧ scalar_le v hi.

Definition covers_values (k : ScalarKind) (acc : FileStats) (values : list TeoScalar) : Prop :=
  (∀ s, fs_lower_bounds acc !! fid = Some s ∨ fs_upper_bounds acc !! fid = Some s → of_kind k s) ∧
  ∀ v, v ∈ values → ∃ lo hi, fs_lower_bounds acc !! fid = Some lo ∧ fs_upper_bounds acc !! fid = Some hi ∧
    scalar_le lo v ∧ scalar_le v hi.

Lemma keep_opt_min k acc new s v :
  (∀ s, acc = Some s ∨ new = Some s → of_kind k s) → (acc = Some s ∨ new = Some s) → scalar_le s v →
  ∃ lo, keep_opt scalar_ltb acc new = Some lo ∧ scalar_le lo v.
Proof.
  intros Hk Hs Hv. destruct acc as [e|], new as [n|]; simpl; try (naive_solver; fail).
  pose proof (scalar_min k n e ltac:(auto) ltac:(auto)) as Hm.
  eexists. split; [reflexivity|]. destruct Hs as [[= <-]|[= <-]]; destruct (scalar_ltb n _); eauto using scalar_le_trans.
Qed.
Lemma keep_opt_max k acc new s v :
  (∀ s, acc = Some s ∨ new = Some s → of_kind k s) → (acc = Some s ∨ new = Some s) → scalar_le v s →
  ∃ hi, keep_opt scalar_gtb acc new = Some hi ∧ scalar_le v hi.
Proof.
  intros Hk Hs Hv. destruct acc as [e|], new as [n|]; simpl; try (naive_solver; fail).
  pose proof (scalar_max k n e ltac:(auto) ltac:(auto)) as Hm.
  eexists. split; [reflexivity|]. destruct Hs as [[= <-]|[= <-]]; destruct (scalar_gtb n _); eauto using scalar_le_trans.
Qed.
Lemma keep_opt_kind better k acc new s :
  (∀ s, acc = Some s ∨ new = Some s → of_kind k s) → keep_opt better acc new = Some s → of_kind k s.
Proof.
  intros Hk. destruct acc as [e|], new as [n|]; simpl; intros [= <-]; try (destruct (better n e)); auto.
Qed.

Lemma covers_step k acc rg seen values :
  covers_values k acc seen → group_truthful k rg values → covers_values k (add_row_group field_ids acc rg) (seen ++ values).
Proof.
  intros [Hk Hseen] [Hgk Hg]. destruct (add_row_group_bounds acc rg) as [Hlo Hhi].
  assert (∀ s, fs_lower_bounds acc !! fid = Some s ∨ column_min rg = Some s → of_kind k s) as Hkl by naive_solver.
  assert (∀ s, fs_upper_bounds acc !! fid = Some s ∨ column_max rg = Some s → of_kind k s) as Hkh by naive_solver.
  split.
  - rewrite Hlo, Hhi. intros s [Hs|Hs]; eauto using keep_opt_kind.
  - rewrite Hlo, Hhi. intros v Hv.
    assert (∃ lo hi, (fs_lower_bounds acc !! fid = Some lo ∨ column_min rg = Some lo) ∧
              (fs_upper_bounds acc !! fid = Some hi ∨ column_max rg = Some hi) ∧ scalar_le lo v ∧ scalar_le v hi)
      as (lo & hi & H1 & H2 & Hle & Hge).
    { apply elem_of_app in Hv as [Hv|Hv]; [destruct (Hseen v Hv) as (lo & hi & ?)|destruct (Hg v Hv) as (lo & hi & ?)];
        exists lo, hi; naive_solver. }
    destruct (keep_opt_min k _ _ lo v Hkl H1 Hle) as (lo' & ? & ?).
    destruct (keep_opt_max k _ _ hi v Hkh H2 Hge) as (hi' & ? & ?). eauto 10.
Qed.
End bounds.

Lemma footer_record_count ids footer :
  fs_record_count (footer_stats ids footer) = sumN (map (λ rg, wrap_unsigned 64 (rg_num_rows rg)) footer).
Proof.
  assert (∀ n l acc, fs_record_count (foldl (add_column ids n) acc l) = fs_record_count acc) as Hcol.
  { intros n. induction l as [|[j col] l IH]; intros acc; [done|]. cbn [foldl]. rewrite IH. unfold add_column.
    destruct (mjoin (ids !! j)); [|done]. by destruct (cc_statistics col). }
  assert (∀ acc, fs_record_count (foldl (add_row_group ids) acc footer)
            = (fs_record_count acc + sumN (map (λ rg, wrap_unsigned 64 (rg_num_rows rg)) footer))%N) as Hsum.
  { induction footer as [|rg footer IH]; intros acc; [simpl; lia|]. cbn [foldl map].
    rewrite IH, sumN_cons. unfold add_row_group. rewrite Hcol. cbn [fs_record_count]. lia. }
  unfold footer_stats. rewrite Hsum. cbn [fs_record_count]. lia.
Qed.

(** C23. The bounds recorded for a column of a written file enclose every non-null value of
    the column, whatever row groups the file has, when each row group's statistics are true
    of its rows and can be represented; the record count is that of the footer. *)
Theorem file_bounds_sound footer target spec size idx fid k groups :
  let ids := map field_id_from_arrow_field (ws_schema spec) in
  let df := extract_data_file footer target spec size in
  mjoin (ids !! idx) = Some fid → (∀ j, mjoin (ids !! j) = Some fid → j = idx) →
  Forall2 (group_truthful idx k) footer groups →
  df_record_count df = sumN (map (λ rg, wrap_unsigned 64 (rg_num_rows rg)) footer) ∧
  ∀ v, v ∈ concat groups → ∃ lo hi, df_lower_bounds df !! fid = Some lo ∧ df_upper_bounds df !! fid = Some hi ∧
    scalar_le lo v ∧ scalar_le v hi.
Proof.
  cbn zeta. intros Hidx Huniq Htrue. cbn [extract_data_file df_record_count df_lower_bounds df_upper_bounds].
  set (ids := map _ _) in *. split.
  - apply footer_record_count.
  - assert (∀ acc seen, covers_values fid k acc seen →
      covers_values fid k (foldl (add_row_group ids) acc footer) (seen ++ concat groups)) as Hfold.
    { clear -Htrue Hidx Huniq. induction Htrue as [|rg vals footer groups Hrg _ IH]; intros acc seen Hc; simpl.
      - by rewrite app_nil_r.
      - rewrite app_assoc. apply IH. by eapply covers_step. }
    destruct (Hfold (mkFileStats 0 ∅ ∅ ∅ ∅ ∅ []) []) as [_ Hall]; [|exact Hall].
    split; [intros s [Hs|Hs]; cbn in Hs; by rewrite lookup_empty in Hs|by intros v ?%elem_of_nil].
Qed.

Definition demo_stats_schema : ArrowSchema := [column_meta_to_arrow_field (mkColumnMeta 5 "v" TInt64 false None)].
Definition demo_write_spec : WriteSpec :=
  mkWriteSpec demo_stats_schema 0 0 ∅ (mkSortOrder 0 []) default_codec DEFAULT_TARGET_BYTES DEFAULT_TARGET_ROWS 0 0.
Definition demo_group (values : StatValues) : RowGroup :=
  mkRowGroup 2 [mkColumnChunk 10 4 (Some (mkStatistics values (Some 0%N)))].
Definition demo_target : ObjectLocation := mkObjectLocation S3 (Some "warehouse") "t/data/w/c-f0000.parquet".

Lemma demo_group_truthful lo hi values :
  Forall (λ v, lo ≤ v ≤ hi)%Z values →
  group_truthful 0 (kind 5) (demo_group (StInt64 (Some lo) (Some hi))) (map SInt64 values).
Proof.
  rewrite Forall_forall. intros Hv. split.
  - by intros s [[= <-]|[= <-]].
  - intros v (z & -> & Hz)%list_elem_of_fmap. exists (SInt64 lo), (SInt64 hi). specialize (Hv z Hz).
    split_and!; [done..| |]; eexists _, _, _; (split_and!; [reflexivity..|]); simpl.
    + destruct (Z.compare_spec lo z); [done|done|lia].
    + destruct (Z.compare_spec z hi); [done|done|lia].
Qed.

Lemma file_bounds_sound_witness :
  ∃ lo hi, df_lower_bounds (extract_data_file [demo_group (StInt64 (Some 3%Z) (Some 9%Z)); demo_group (StInt64 (Some (-1)%Z) (Some 4%Z))]
      demo_target demo_write_spec 100) !! 5%Z = Some lo ∧
    df_upper_bounds (extract_data_file [demo_group (StInt64 (Some 3%Z) (Some 9%Z)); demo_group (StInt64 (Some (-1)%Z) (Some 4%Z))]
      demo_target demo_write_spec 100) !! 5%Z = Some hi ∧ scalar_le lo (SInt64 0) ∧ scalar_le (SInt64 0) hi.
Proof.
  apply (file_bounds_sound
    [demo_group (StInt64 (Some 3%Z) (Some 9%Z)); demo_group (StInt64 (Some (-1)%Z) (Some 4%Z))] demo_target demo_write_spec 100
    0 5 (kind 5) [map SInt64 [3%Z; 9%Z]; map SInt64 [0%Z; 4%Z]]).
  - reflexivity.
  - intros [|j]; [done|]. destruct j; discriminate.
  - constructor; [|constructor; [|constructor]]; apply demo_group_truthful; repeat constructor; lia.
  - simpl. right. right. left.
Defined.

(** A row group of a binary column whose smallest value is not UTF-8 contributes no lower
    bound, so the bound of the file is that of the other row group, above the value. *)
Theorem non_utf8_minimum_ignored :
  df_lower_bounds (extract_data_file
    [demo_group (StByteArray (Some [0; 255]%N) (Some [65]%N)); demo_group (StByteArray (Some [66]%N) (Some [67]%N))]
    demo_target demo_write_spec 100) !! 5%Z = Some (SUtf8 "B") ∧
  scalar_partial_cmp (SUtf8 "B") (SUtf8 (string_of_codes [0; 255]%N)) = Some Gt.
Proof. split; vm_compute; reflexivity. Qed.

(** The unscaled values -1 and 1 of a wide decimal column, as two's-complement bytes, are
    compared as unsigned bytes: the lower bound of the file is 1. *)
Theorem negative_decimal_minimum_lost :
  df_lower_bounds (extract_data_file
    [demo_group (StFixedLenByteArray (Some [255; 255]%N) (Some [255; 255]%N));
     demo_group (StFixedLenByteArray (Some [0; 1]%N) (Some [0; 1]%N))]
    demo_target demo_write_spec 100) !! 5%Z = Some (SBinary [0; 1]%N).
Proof. vm_compute. reflexivity. Qed.

(** The bounds of a narrow decimal column are recorded as integers, which do not convert to
    the type of the column. *)
Theorem decimal_bounds_recorded_as_integers p s :
  df_lower_bounds (extract_data_file [demo_group (StInt32 (Some 125%Z) (Some 250%Z))] demo_target demo_write_spec 100) !! 5%Z
  = Some (SInt32 125) ∧
  is_ok (primitive_literal_to_teo_scalar (LInt 125) (TDecimal128 p s)) = false.
Proof. split; [vm_compute; reflexivity|done]. Qed.
