(* ===== verification/ParquetWriter.v ===== *)
(** * Writing sorted Parquet files

    Models [teodb-storage/src/parquet/sort.rs] and [writer.rs]: the sort of a
    set of batches, their slicing, and the streaming writer that rolls to a new
    file when the encoded size passes the target.  Arrow's and Parquet's
    encoders are an interface; the object store is the [Storage] interface. *)

From S2P Require Import Prelude Core Decimal Location Codec DataFiles Schema WalFrame Sweep Cache CacheSpec Convert ConvertSpec Partitioning ParquetStats.
Open Scope nat_scope.
Open Scope list_scope.

(** ** Sorting *)
Record SortColumn := mkSortColumn { sc_values : Array; sc_descending : bool; sc_nulls_first : bool }.

Inductive Compression :=
| UNCOMPRESSED | SNAPPY | GZIP (level : N) | LZ4_RAW | ZSTD (level : Z) | LZO | BROTLI (level : N).
Record WriterProperties := mkWriterProperties {
  wp_compression : Compression; wp_max_row_group_row_count : N; wp_key_value_metadata : list (string * string) }.

Class ParquetLib := {
  (** [GzipLevel::try_new], [ZstdLevel::try_new], [BrotliLevel::try_new]. *)
  gzip_level : N → bool;
  zstd_level : Z → bool;
  brotli_level : N → bool;
  (** [serde_json::to_string] of a sort order. *)
  sort_order_json : SortOrder → option string;
  (** [arrow::compute::concat_batches]. *)
  concat_batches : ArrowSchema → list RecordBatch → result string RecordBatch;
  (** [arrow::compute::lexsort_to_indices]. *)
  lexsort_to_indices : list SortColumn → result string (list nat);
  (** [RecordBatch::slice]. *)
  batch_slice : RecordBatch → nat → nat → RecordBatch;
  (** [ArrowWriter]. *)
  Writer : Type;
  writer_try_new : ArrowSchema → WriterProperties → result string Writer;
  writer_write : Writer → RecordBatch → result string Writer;
  writer_size : Writer → N;
  writer_into_inner : Writer → result string Bytes;
  (** [SerializedFileReader::new] and the decoded footer. *)
  read_footer : Bytes → result string (list RowGroup);
}.

Section writer.
Context `{ArrowKernels, ParquetLib}.

Definition to_parquet (c : CompressionCodec) : TeoDBResult Compression :=
  match c with
  | Uncompressed => Ok UNCOMPRESSED
  | Snappy => Ok SNAPPY
  | Gzip level => if gzip_level level then Ok (GZIP level) else Err (Parquet "bad gzip level: {e}")
  | Lz4Raw => Ok LZ4_RAW
  | Zstd level => if zstd_level level then Ok (ZSTD level) else Err (Parquet "bad zstd level: {e}")
  | Lzo => Ok LZO
  | Brotli level => if brotli_level level then Ok (BROTLI level) else Err (Parquet "bad brotli level: {e}")
  end.

(** The properties that depend on the write contract; the others are constants. *)
Definition writer_properties (spec : WriteSpec) : TeoDBResult WriterProperties :=
  compression ← to_parquet (ws_compression spec);
  Ok (mkWriterProperties compression (ws_row_group_target_rows spec)
        ([("teodb.schema_id", pretty (ws_schema_id spec)); ("teodb.partition_spec_id", pretty (ws_partition_spec_id spec));
          ("teodb.generation_lo", pretty (ws_generation_lo spec)); ("teodb.generation_hi", pretty (ws_generation_hi spec))]
         ++ match sort_order_json (ws_sort_order spec) with Some json => [("teodb.sort_order", json)] | None => [] end)).

Definition sort_column (schema : ArrowSchema) (combined : RecordBatch) (sf : SortField) : option SortColumn :=
  '(col_idx, _) ← list_find (λ f, field_id_from_arrow_field f = Some (sf_source_id sf)) schema;
  values ← rb_columns combined !! col_idx;
  Some (mkSortColumn values (match sf_direction sf with Desc => true | Asc => false end)
          (match sf_null_order sf with NullsFirst => true | NullsLast => false end)).

Definition sort_batches (batches : list RecordBatch) (sort_order : SortOrder) (schema : ArrowSchema)
    : TeoDBResult (list RecordBatch) :=
  if bool_decide (batches = []) || bool_decide (so_fields sort_order = []) then Ok batches
  else
    combined ← map_err (λ _, Parquet "concat: {e}") (concat_batches schema batches);
    let sort_columns := omap (sort_column schema combined) (so_fields sort_order) in
    if bool_decide (sort_columns = []) then Ok batches
    else
      indices ← map_err (λ _, Parquet "sort: {e}") (lexsort_to_indices sort_columns);
      sorted_columns ← mapM_res (λ col, map_err (λ _, Parquet "take: {e}") (take_kernel col indices))
                         (rb_columns combined);
      sorted ← map_err (λ _, Parquet "rebuild batch: {e}") (batch_try_new schema sorted_columns);
      Ok [sorted].

(** ** Slicing *)

(** The [while] loop; [fuel] is the number of rows, each round consumes at least one. *)
Fixpoint slice_loop (fuel : nat) (batch : RecordBatch) (chunk_rows offset : nat) : list RecordBatch :=
  match fuel with
  | O => []
  | S fuel =>
      if offset <? rb_num_rows batch then
        let len := Nat.min chunk_rows (rb_num_rows batch - offset) in
        batch_slice batch offset len :: slice_loop fuel batch chunk_rows (offset + len)
      else []
  end.
Definition slice_batch (batch : RecordBatch) (chunk_rows : nat) : list RecordBatch :=
  if rb_num_rows batch <=? chunk_rows then [batch]
  else slice_loop (rb_num_rows batch) batch chunk_rows 0.

(** ** Files *)

(** [{index:04}]. *)
Definition index4 (index : N) : string := pad_zeros 4 (pretty index).
Definition file_location (base : ObjectLocation) (index : N) : ObjectLocation :=
  let k :=
    match str_strip_suffix "-f0000.parquet" (key base) with
    | Some prefix => prefix +:+ "-f" +:+ index4 index +:+ ".parquet"
    | None =>
        match str_strip_suffix ".parquet" (key base) with
        | Some stripped => stripped +:+ "-" +:+ index4 index +:+ ".parquet"
        | None => key base +:+ "-" +:+ index4 index
        end
    end in
  mkObjectLocation (scheme base) (bucket base) k.

Context {St : Type} `{!Storage St}.

Definition finish_file (st : St) (target : ObjectLocation) (writer : Writer) (spec : WriteSpec)
    : St * TeoDBResult DataFile :=
  match writer_into_inner writer with
  | Err _ => (st, Err (Parquet "writer close: {e}"))
  | Ok buf =>
      match s_put st (key target) buf with
      | (st, Err e) => (st, Err e)
      | (st, Ok _) => (st, extract_data_file_from_bytes (read_footer buf) target spec (lenN buf))
      end
  end.

(** [spec.row_group_target_bytes * 8] on 64 bits. *)
Definition target_file_bytes (spec : WriteSpec) : N := ((ws_row_group_target_bytes spec * 8) mod 2 ^ 64)%N.

(** The open writer of a batch: the current one or a new one. *)
Definition open_writer (writer : option Writer) (spec : WriteSpec) (props : WriterProperties) : TeoDBResult Writer :=
  match writer with
  | Some w => Ok w
  | None => map_err (λ _, Parquet "writer init: {e}") (writer_try_new (ws_schema spec) props)
  end.

Definition last_location (base : ObjectLocation) (file_index : N) : ObjectLocation :=
  if (file_index =? 0)%N then base else file_location base file_index.

(** One round per item of the stream; [file_index] stays below [2^32]. *)
Fixpoint write_loop (items : list (TeoDBResult RecordBatch)) (st : St) (base : ObjectLocation) (spec : WriteSpec)
    (props : WriterProperties) (data_files : list DataFile) (file_index : N) (writer : option Writer) : St * TeoDBResult (list DataFile) :=
  match items with
  | [] =>
      match writer with
      | None => (st, Ok data_files)
      | Some open =>
          match finish_file st (last_location base file_index) open spec with
          | (st, Err e) => (st, Err e)
          | (st, Ok f) => (st, Ok (data_files ++ [f]))
          end
      end
  | Err e :: _ => (st, Err e)
  | Ok batch :: items =>
      if rb_num_rows batch =? 0 then write_loop items st base spec props data_files file_index writer
      else
        match open_writer writer spec props with
        | Err e => (st, Err e)
        | Ok w =>
            match writer_write w batch with
            | Err _ => (st, Err (Parquet "write batch: {e}"))
            | Ok w =>
                if (target_file_bytes spec <=? writer_size w)%N then
                  match finish_file st (file_location base file_index) w spec with
                  | (st, Err e) => (st, Err e)
                  | (st, Ok f) => write_loop items st base spec props (data_files ++ [f]) (file_index + 1) None
                  end
                else write_loop items st base spec props data_files file_index (Some w)
            end
        end
  end.

Definition write_sorted_stream (st : St) (base : ObjectLocation) (items : list (TeoDBResult RecordBatch))
    (spec : WriteSpec) : St * TeoDBResult (list DataFile) :=
  match writer_properties spec with
  | Err e => (st, Err e)
  | Ok props => write_loop items st base spec props [] 0 None
  end.

Definition write_sorted_streaming (st : St) (base : ObjectLocation) (batches : list RecordBatch) (spec : WriteSpec)
    : St * TeoDBResult (list DataFile) :=
  write_sorted_stream st base (map Ok batches) spec.

Definition write_sorted_rolled (st : St) (base : ObjectLocation) (batches : list RecordBatch) (spec : WriteSpec)
    : St * TeoDBResult (list DataFile) :=
  if bool_decide (batches = []) then (st, Ok [])
  else match sort_batches batches (ws_sort_order spec) (ws_schema spec) with
       | Err e => (st, Err e)
       | Ok sorted =>
           let chunk_rows := Nat.max (N.to_nat (ws_row_group_target_rows spec)) 1 in
           write_sorted_stream st base (map Ok (flat_map (λ b, slice_batch b chunk_rows) sorted)) spec
       end.

(** [write_sorted_parquet]: the whole input as one file. *)
Fixpoint write_all (w : Writer) (batches : list RecordBatch) : TeoDBResult Writer :=
  match batches with
  | [] => Ok w
  | b :: batches => w ← map_err (λ _, Parquet "write batch: {e}") (writer_write w b); write_all w batches
  end.
Definition write_sorted_parquet (st : St) (target : ObjectLocation) (batches : list RecordBatch) (spec : WriteSpec)
    : St * TeoDBResult DataFile :=
  if bool_decide (batches = []) then (st, Err (InvalidArgument "batches" "cannot write empty Parquet file"))
  else match (props ← writer_properties spec;
              sorted ← sort_batches batches (ws_sort_order spec) (ws_schema spec);
              w ← map_err (λ _, Parquet "writer init: {e}") (writer_try_new (ws_schema spec) props);
              write_all w sorted) with
       | Err e => (st, Err e)
       | Ok w => finish_file st target w spec
       end.
End writer.

(** ** What the encoders promise *)
Abbreviation Row := (list (option Cell)).

Class ParquetLaws `{ArrowKernels, ParquetLib} (writer_rows : Writer → list Row) (file_rows : Bytes → list Row) : Prop := {
  concat_law schema bs b : concat_batches schema bs = Ok b →
    batch_ok b ∧ rb_schema b = schema ∧ batch_rows b = concat (map batch_rows bs);
  (** The indices are a permutation of the rows of the sorted columns. *)
  lexsort_law cols idx c : lexsort_to_indices cols = Ok idx → c ∈ cols → idx ≡ₚ seq 0 (array_len (sc_values c));
  slice_law b offset len : batch_ok b → offset + len ≤ rb_num_rows b →
    batch_rows (batch_slice b offset len) = take len (drop offset (batch_rows b));
  new_law schema props w : writer_try_new schema props = Ok w → writer_rows w = [];
  write_law w b w' : writer_write w b = Ok w' → writer_rows w' = writer_rows w ++ batch_rows b;
  inner_law w buf : writer_into_inner w = Ok buf → file_rows buf = writer_rows w;
  footer_law buf footer : read_footer buf = Ok footer →
    sumN (map (λ rg, wrap_unsigned 64 (rg_num_rows rg)) footer) = lenN (file_rows buf);
}.

(** ** File names *)
Lemma str_app_inj_r a b c : a +:+ c = b +:+ c → a = b.
Proof.
  intros Heq. apply (f_equal str_rev) in Heq. rewrite !str_rev_append in Heq. apply str_app_inj_l in Heq.
  by rewrite <-(str_rev_involutive a), Heq, str_rev_involutive.
Qed.

Lemma index4_inj i j : index4 i = index4 j → i = j.
Proof.
  intros Heq. assert (∀ n max, (n ≤ max)%N → parse_digits max 0 (index4 n) = Some n) as Hp.
  { intros n max Hn. unfold index4. rewrite pad_zeros_parse. pose proof (parse_magnitude_pretty max n Hn) as Hm.
    unfold parse_magnitude in Hm. by destruct (str_is_empty (pretty n)). }
  pose proof (Hp i (N.max i j) ltac:(lia)) as Hi. rewrite Heq, Hp in Hi by lia. congruence.
Qed.

Lemma file_location_inj base i j : key (file_location base i) = key (file_location base j) → i = j.
Proof.
  unfold file_location. simpl. intros Heq. apply index4_inj.
  destruct (str_strip_suffix "-f0000.parquet" (key base)); [|destruct (str_strip_suffix ".parquet" (key base))].
  - apply str_app_inj_l, str_app_inj_l in Heq. by apply str_app_inj_r in Heq.
  - apply str_app_inj_l, str_app_inj_l in Heq. by apply str_app_inj_r in Heq.
  - by apply str_app_inj_l, str_app_inj_l in Heq.
Qed.

(** ** Nothing is lost between batches and files *)
Section exact.
Context {HA : ArrowKernels} {HL : ArrowLaws} {HP : ParquetLib}.
Context {writer_rows : Writer → list Row} {file_rows : Bytes → list Row} {HPL : ParquetLaws writer_rows file_rows}.
Context {St : Type} {HS : Storage St} {objects : St → gmap ObjectPath Bytes} {HSL : StorageLaws St objects}.

(** The file is in the store under its key, holds the rows, and its metadata counts them. *)
Definition holds_rows (st : St) (spec : WriteSpec) (f : DataFile) (rows : list Row) : Prop :=
  ∃ buf, objects st !! key (df_path f) = Some buf ∧ file_rows buf = rows ∧ rows ≠ [] ∧
    df_record_count f = lenN rows ∧ df_file_size_bytes f = lenN buf ∧ df_content f = ContentData ∧
    df_schema_id f = ws_schema_id spec ∧ df_partition_spec_id f = ws_partition_spec_id spec ∧
    df_partition_values f = ws_partition_values spec ∧ df_sort_order_id f = Some (so_order_id (ws_sort_order spec)).

(** Objects under other keys are as they were. *)
Definition same_outside (keys : list string) (st st' : St) : Prop :=
  ∀ k, k ∉ keys → objects st' !! k = objects st !! k.

Lemma finish_file_spec st target w spec st' r :
  finish_file st target w spec = (st', r) → same_outside [key target] st st' ∧
  ∀ f, r = Ok f → writer_rows w ≠ [] → df_path f = target ∧ holds_rows st' spec f (writer_rows w).
Proof.
  unfold finish_file. destruct (writer_into_inner w) as [buf|] eqn:Hw; [|by intros [= <- <-]].
  destruct (s_put st (key target) buf) as [st1 [meta|e]] eqn:Hput; intros [= <- <-].
  - destruct (put_law _ _ _ _ _ Hput) as [Hobj|[? _]]; [|done]. split.
    { intros k Hk%not_elem_of_cons. rewrite Hobj. by rewrite lookup_insert_ne by (symmetry; apply Hk). }
    intros f Hf Hne. unfold extract_data_file_from_bytes in Hf.
    apply bind_Ok in Hf as (footer & Hfoot & [= <-]). apply map_err_Ok in Hfoot. split; [done|].
    exists buf. rewrite Hobj. simpl. rewrite lookup_insert_eq. rewrite (inner_law _ _ Hw).
    split_and!; try done. rewrite <-(inner_law _ _ Hw), <-(footer_law _ _ Hfoot).
    apply footer_record_count.
  - split; [|done]. destruct (put_law _ _ _ _ _ Hput) as [Hobj|[_ Hobj]]; intros k Hk%not_elem_of_cons; rewrite Hobj; [|done].
    by rewrite lookup_insert_ne by (symmetry; apply Hk).
Qed.

Lemma holds_rows_frame k st st' spec f rows :
  same_outside [k] st st' → key (df_path f) ≠ k → holds_rows st spec f rows → holds_rows st' spec f rows.
Proof.
  intros Hout Hk (buf & Hbuf & Hrest). exists buf. split; [|done].
  rewrite Hout; [done|]. by apply not_elem_of_cons; split; [|apply not_elem_of_nil].
Qed.

(** The keys a writer uses: the base and its numbered variants. *)
Definition in_family (base : ObjectLocation) (l : ObjectLocation) : Prop :=
  l = base ∨ ∃ i, l = file_location base i.
Definition same_outside_family (base : ObjectLocation) (st st' : St) : Prop :=
  ∀ k, (∀ l, in_family base l → k ≠ key l) → objects st' !! k = objects st !! k.

Lemma same_outside_family_trans base st1 st2 st3 :
  same_outside_family base st1 st2 → same_outside_family base st2 st3 → same_outside_family base st1 st3.
Proof. intros H12 H23 k Hk. by rewrite H23, H12. Qed.
Lemma same_outside_to_family base l st st' :
  in_family base l → same_outside [key l] st st' → same_outside_family base st st'.
Proof.
  intros Hl Hout k Hk. apply Hout. apply not_elem_of_cons. split; [by apply Hk|apply not_elem_of_nil].
Qed.

(** The files written so far are numbered from 0. *)
Definition numbered (base : ObjectLocation) (files : list DataFile) : Prop :=
  ∀ i f, files !! i = Some f → df_path f = file_location base (N.of_nat i).

Lemma numbered_fresh base files f :
  numbered base files → f ∈ files → key (df_path f) ≠ key (file_location base (N.of_nat (length files))).
Proof.
  intros Hn [i Hi]%list_elem_of_lookup_1 Heq. rewrite (Hn i f Hi) in Heq. apply file_location_inj in Heq.
  apply lookup_lt_Some in Hi. lia.
Qed.

Lemma numbered_snoc base files f :
  numbered base files → df_path f = file_location base (N.of_nat (length files)) → numbered base (files ++ [f]).
Proof.
  intros Hn Hf i f' Hi. apply lookup_app_Some in Hi as [Hi|[Hlen Hi]]; [by apply Hn|].
  apply list_lookup_singleton_Some in Hi as [Hi <-]. rewrite Hf. do 2 f_equal. lia.
Qed.

Lemma numbered_NoDup base files : numbered base files → NoDup (map (λ f, key (df_path f)) files).
Proof.
  intros Hn. apply NoDup_alt. intros i j k Hi Hj. rewrite list_lookup_fmap in Hi, Hj.
  destruct (files !! i) as [f|] eqn:Hfi; [|done]. destruct (files !! j) as [g|] eqn:Hfj; [|done].
  simpl in *. injection Hi as <-. injection Hj as Hk. rewrite (Hn _ _ Hfi), (Hn _ _ Hfj) in Hk.
  apply file_location_inj in Hk. lia.
Qed.

(** What a finished write has produced from the rows. *)
Definition written (base : ObjectLocation) (spec : WriteSpec) (st : St) (files : list DataFile) (rows : list Row) : Prop :=
  ∃ chunks, Forall2 (holds_rows st spec) files chunks ∧ concat chunks = rows ∧
    NoDup (map (λ f, key (df_path f)) files) ∧ Forall (λ f, in_family base (df_path f)) files.

Definition ok_rows (items : list (TeoDBResult RecordBatch)) : list Row :=
  concat (map (λ i, match i with Ok b => batch_rows b | Err _ => [] end) items).

Lemma batch_rows_empty b : rb_num_rows b = 0 → batch_rows b = [].
Proof. unfold batch_rows. by intros ->. Qed.
Lemma batch_rows_nonempty b : rb_num_rows b ≠ 0 → batch_rows b ≠ [].
Proof. unfold batch_rows. by destruct (rb_num_rows b). Qed.

Lemma finish_last base spec st st' files chunks w f :
  finish_file st (last_location base (N.of_nat (length files))) w spec = (st', Ok f) →
  numbered base files → Forall2 (holds_rows st spec) files chunks → writer_rows w ≠ [] →
  written base spec st' (files ++ [f]) (concat chunks ++ writer_rows w).
Proof.
  intros Hfin Hn Hheld Hne. destruct (finish_file_spec _ _ _ _ _ _ Hfin) as [Hout Hf].
  destruct (Hf f eq_refl Hne) as [Hpath Hrows]. exists (chunks ++ [writer_rows w]).
  destruct files as [|f0 files].
  - apply Forall2_nil_inv_l in Hheld as ->. simpl in *. split_and!.
    + constructor; [done|constructor].
    + by rewrite app_nil_r.
    + apply NoDup_singleton.
    + constructor; [by left|constructor].
  - unfold last_location in *. destruct (N.eqb_spec (N.of_nat (length (f0 :: files))) 0) as [Hz|_]; [simpl in Hz; lia|].
    pose proof (numbered_snoc _ _ _ Hn Hpath) as Hn'. split_and!.
    + apply Forall2_app; [|by constructor]. eapply Forall2_impl_elem; [exact Hheld|].
      intros g rows Hg. apply (holds_rows_frame (key (file_location base (N.of_nat (length (f0 :: files)))))); [done|].
      by apply numbered_fresh.
    + rewrite concat_app. simpl. by rewrite app_nil_r.
    + by eapply numbered_NoDup.
    + apply Forall_forall. intros g [i Hi]%list_elem_of_lookup_1. right. exists (N.of_nat i). by apply Hn'.
Qed.

Lemma open_writer_rows writer spec props w :
  open_writer writer spec props = Ok w →
  writer_rows w = match writer with Some w => writer_rows w | None => [] end.
Proof.
  destruct writer; simpl; [by intros [= ->]|]. intros Hw%map_err_Ok. by eapply new_law.
Qed.

(** The rows of the open file, as the loop carries them. *)
Definition open_rows (writer : option Writer) : list Row :=
  match writer with Some w => writer_rows w | None => [] end.
Definition open_nonempty (writer : option Writer) : Prop :=
  match writer with Some w => writer_rows w ≠ [] | None => True end.

Lemma write_loop_spec items : ∀ st base spec props files writer st' r chunks,
  write_loop items st base spec props files (N.of_nat (length files)) writer = (st', r) →
  numbered base files → Forall2 (holds_rows st spec) files chunks → open_nonempty writer →
  same_outside_family base st st' ∧
  ∀ out, r = Ok out → Forall (λ i, is_ok i = true) items ∧
    written base spec st' out (concat chunks ++ open_rows writer ++ ok_rows items).
Proof.
  induction items as [|item items IH]; intros st base spec props files writer st' r chunks; cbn [write_loop].
  - intros Hrun Hn Hheld Hne. destruct writer as [w|].
    + destruct (finish_file st _ w spec) as [st1 [f|e]] eqn:Hfin; injection Hrun as <- <-.
      * split.
        { destruct (finish_file_spec _ _ _ _ _ _ Hfin) as [Hout _]. eapply same_outside_to_family; [|done].
          unfold last_location. destruct (_ =? _)%N; [by left|right; by eexists]. }
        intros out [= <-]. split; [constructor|]. cbn. rewrite app_nil_r. by eapply finish_last.
      * destruct (finish_file_spec _ _ _ _ _ _ Hfin) as [Hout _]. split; [|done].
        eapply same_outside_to_family; [|done]. unfold last_location. destruct (_ =? _)%N; [by left|right; by eexists].
    + injection Hrun as <- <-. split; [done|]. intros out [= <-]. split; [constructor|]. exists chunks. split_and!; [done| | |].
      * cbn. by rewrite !app_nil_r.
      * by eapply numbered_NoDup.
      * apply Forall_forall. intros g [i Hi]%list_elem_of_lookup_1. right. exists (N.of_nat i). by apply Hn.
  - destruct item as [batch|e]; [|by intros [= <- <-]]. intros Hrun Hn Hheld Hne.
    assert (ok_rows (Ok batch :: items) = batch_rows batch ++ ok_rows items) as Hrows by done.
    destruct (Nat.eqb_spec (rb_num_rows batch) 0) as [Hz|Hz].
    { destruct (IH _ _ _ _ _ _ _ _ _ Hrun Hn Hheld Hne) as [Hframe Hok]. split; [done|].
      intros out Hout. destruct (Hok out Hout) as [? Hw]. split; [by constructor|].
      rewrite Hrows, batch_rows_empty by done. done. }
    destruct (open_writer writer spec props) as [w|] eqn:Hopen; [|by injection Hrun as <- <-].
    destruct (writer_write w batch) as [w1|] eqn:Hwrite; [|by injection Hrun as <- <-].
    pose proof (write_law _ _ _ Hwrite) as Hw1. rewrite (open_writer_rows _ _ _ _ Hopen) in Hw1.
    fold (open_rows writer) in Hw1.
    assert (writer_rows w1 ≠ []) as Hw1ne.
    { rewrite Hw1. intros [_ Hnil]%app_eq_nil. by apply (batch_rows_nonempty batch). }
    destruct (target_file_bytes spec <=? writer_size w1)%N.
    + assert (in_family base (file_location base (N.of_nat (length files)))) as Hfam by (right; by eexists).
      destruct (finish_file st (file_location base (N.of_nat (length files))) w1 spec) as [st1 [f|e]] eqn:Hfin;
        destruct (finish_file_spec _ _ _ _ _ _ Hfin) as [Hout Hf];
        pose proof (same_outside_to_family _ _ _ _ Hfam Hout) as Hframe1; [|by injection Hrun as <- <-].
      destruct (Hf f eq_refl Hw1ne) as [Hpath Hfrows].
      replace (N.of_nat (length files) + 1)%N with (N.of_nat (length (files ++ [f]))) in Hrun by (rewrite length_app; simpl; lia).
      destruct (IH _ _ _ _ _ _ _ _ (chunks ++ [writer_rows w1]) Hrun) as [Hframe Hok].
      * by apply numbered_snoc.
      * apply Forall2_app; [|by constructor]. eapply Forall2_impl_elem; [exact Hheld|].
        intros g rows Hg. eapply holds_rows_frame; [exact Hout|]. by apply numbered_fresh.
      * done.
      * split; [by eapply same_outside_family_trans|]. intros out Hr. destruct (Hok out Hr) as [? Hw]. split; [by constructor|].
        rewrite concat_app in Hw. cbn [concat open_rows] in Hw. rewrite app_nil_r, Hw1, <-!app_assoc in Hw.
        by rewrite Hrows.
    + destruct (IH _ _ _ _ _ (Some w1) _ _ _ Hrun Hn Hheld Hw1ne) as [Hframe Hok]. split; [done|].
      intros out Hr. destruct (Hok out Hr) as [? Hw]. split; [by constructor|].
      cbn [open_rows] in Hw. rewrite Hw1, <-!app_assoc in Hw. by rewrite Hrows.
Qed.

Lemma write_sorted_stream_spec st base items spec st' r :
  write_sorted_stream st base items spec = (st', r) →
  same_outside_family base st st' ∧
  ∀ out, r = Ok out → Forall (λ i, is_ok i = true) items ∧ written base spec st' out (ok_rows items).
Proof.
  unfold write_sorted_stream. destruct (writer_properties spec) as [props|]; [|by intros [= <- <-]].
  intros Hrun. by apply (write_loop_spec items st base spec props [] None st' r []) in Hrun.
Qed.

(** Slices are the rows of the batch, in order. *)
Lemma slice_batch_rows b chunk :
  batch_ok b → 0 < chunk → concat (map batch_rows (slice_batch b chunk)) = batch_rows b.
Proof.
  intros Hb Hc. unfold slice_batch. destruct (Nat.leb_spec (rb_num_rows b) chunk); [simpl; by rewrite app_nil_r|].
  assert (∀ fuel off, off ≤ rb_num_rows b → rb_num_rows b - off ≤ fuel →
    concat (map batch_rows (slice_loop fuel b chunk off)) = drop off (batch_rows b)) as Hloop.
  { assert (length (batch_rows b) = rb_num_rows b) as Hlen by (unfold batch_rows; by rewrite length_map, length_seq).
    induction fuel as [|fuel IH]; intros off Hoff Hfuel; cbn [slice_loop].
    { rewrite drop_ge by lia. done. }
    destruct (Nat.ltb_spec off (rb_num_rows b)); [|by rewrite drop_ge by lia]. cbn [map concat].
    rewrite slice_law, IH by (done || lia). rewrite <-drop_drop. by rewrite take_drop. }
  by rewrite Hloop by lia.
Qed.

Lemma sort_batches_rows batches order schema sorted :
  Forall batch_ok batches → sort_batches batches order schema = Ok sorted →
  Forall batch_ok sorted ∧ concat (map batch_rows sorted) ≡ₚ concat (map batch_rows batches) ∧
  (so_fields order = [] → sorted = batches).
Proof.
  intros Hbs. unfold sort_batches. destruct (bool_decide (batches = []) || _) eqn:Hskip; [by intros [= <-]|].
  apply orb_false_iff in Hskip as [_ Hfields%bool_decide_eq_false].
  intros (b & Hb%map_err_Ok & Hrest)%bind_Ok. case_bool_decide as Hcols; [injection Hrest as <-; done|].
  apply bind_Ok in Hrest as (idx & Hidx%map_err_Ok & (cols & Hmap & (sb & Hsb%map_err_Ok & [= <-])%bind_Ok)%bind_Ok).
  apply Logic.and_assoc. split; [|done]. destruct (concat_law _ _ _ Hb) as (Hok & <- & Hrows).
  destruct (omap (sort_column (rb_schema b) b) (so_fields order)) as [|c cs] eqn:Hsc; [done|].
  assert (array_len (sc_values c) = rb_num_rows b) as Hlen.
  { assert (c ∈ omap (sort_column (rb_schema b) b) (so_fields order)) as Hin by (rewrite Hsc; left).
    apply list_elem_of_omap in Hin as (sf & _ & Hin). unfold sort_column in Hin.
    apply bind_Some in Hin as ([i fd] & _ & (a & Ha%list_elem_of_lookup_2 & [= <-])%bind_Some). simpl.
    destruct Hok as [_ Hall]. rewrite Forall_forall in Hall. by apply Hall. }
  pose proof (lexsort_law _ _ c Hidx ltac:(left)) as Hperm. rewrite Hlen in Hperm.
  assert (Forall (λ i, i < rb_num_rows b) idx) as Hrange.
  { apply Forall_forall. intros i Hi. rewrite Hperm in Hi. apply elem_of_seq in Hi. lia. }
  assert (cols = map (λ a, array_select a idx) (rb_columns b)) as ->.
  { apply mapM_res_Ok in Hmap. destruct Hok as [_ Hall]. clear -Hmap Hall Hrange HL.
    induction Hmap as [|a a' l l' Ha _ IH]; [done|]. apply Forall_cons in Hall as [Hla Hall]. simpl. f_equal; [|by apply IH].
    apply map_err_Ok in Ha. rewrite take_law in Ha by (by rewrite Hla). by injection Ha. }
  rewrite (try_new_law b idx) in Hsb by done. injection Hsb as <-. split.
  { constructor; [by apply batch_select_ok|constructor]. }
  cbn [map concat]. rewrite app_nil_r. rewrite (batch_rows_select b idx) by done. rewrite Hperm. by rewrite <-Hrows.
Qed.

(** Writing a set of batches to rolled files loses, invents and duplicates no row: when
    the write succeeds, the returned files have distinct keys in the family of the target,
    each is in the store with a non-empty chunk of rows that its metadata counts, and the
    chunks together are the input rows (in the input order for an unsorted table).  Whether
    it succeeds or fails, no object outside that family changes. *)
Lemma write_sorted_rolled_exact st base batches spec st' r :
  Forall batch_ok batches →
  write_sorted_rolled st base batches spec = (st', r) →
  same_outside_family base st st' ∧
  ∀ out, r = Ok out → ∃ rows, written base spec st' out rows ∧ rows ≡ₚ concat (map batch_rows batches) ∧
    (so_fields (ws_sort_order spec) = [] → rows = concat (map batch_rows batches)).
Proof.
  intros Hbs. unfold write_sorted_rolled. case_bool_decide as Hnil.
  { intros [= <- <-]. split; [done|]. intros out [= <-]. exists []. subst batches. split; [|done].
    exists []. split_and!; [constructor|done|constructor|constructor]. }
  destruct (sort_batches batches _ _) as [sorted|e] eqn:Hsort; [|by intros [= <- <-]].
  set (chunk := Nat.max _ 1). intros [Hframe Hok]%write_sorted_stream_spec. split; [done|].
  intros out Hr. destruct (Hok out Hr) as [_ Hw].
  destruct (sort_batches_rows _ _ _ _ Hbs Hsort) as (Hsok & Hperm & Hsame).
  assert (ok_rows (map Ok (flat_map (λ b, slice_batch b chunk) sorted)) = concat (map batch_rows sorted)) as Hrows.
  { unfold ok_rows. rewrite map_map. clear Hw Hok Hsort Hperm Hsame.
    induction Hsok as [|b sorted Hb _ IH]; [done|]. cbn [flat_map map concat].
    rewrite map_app, concat_app, IH. f_equal. apply slice_batch_rows; [done|]. unfold chunk. lia. }
  rewrite Hrows in Hw.
  exists (concat (map batch_rows sorted)). split_and!; [done|done|]. intros Hu. by rewrite Hsame.
Qed.
End exact.

(** ** A concrete encoder: one column of 64-bit integers *)
Definition int_row (z : Z) : Row := [Some (existT ClsInt64 (Some z))].
Definition cell_int (c : ArrayClass) : option (cell_type c) → option Z :=
  match c return option (cell_type c) → option Z with ClsInt64 => λ v, v | _ => λ _, None end.
Definition row_int (r : Row) : option Z :=
  match r with [Some (existT c v)] => cell_int c v | _ => None end.
Fixpoint rows_ints (rows : list Row) : option (list Z) :=
  match rows with
  | [] => Some []
  | r :: rows => z ← row_int r; zs ← rows_ints rows; Some (z :: zs)
  end.
Definition int_batch (schema : ArrowSchema) (zs : list Z) : RecordBatch :=
  mkRecordBatch schema [mkArray ClsInt64 (map Some zs)] (length zs).

Lemma row_int_row r z : row_int r = Some z → r = int_row z.
Proof.
  unfold row_int. destruct r as [|[[c v]|] [|]]; try done. destruct c; try done. simpl. intros ->. done.
Qed.
Lemma rows_ints_rows rows zs : rows_ints rows = Some zs → rows = map int_row zs.
Proof.
  revert zs. induction rows as [|r rows IH]; intros zs; simpl; [by intros [= <-]|].
  intros (z & Hz%row_int_row & (zs' & Hzs & [= <-])%bind_Some)%bind_Some. simpl. by rewrite Hz, (IH zs').
Qed.
Lemma int_batch_rows schema zs : batch_rows (int_batch schema zs) = map int_row zs.
Proof.
  apply list_eq. intros i. unfold batch_rows. rewrite !list_lookup_fmap. simpl.
  destruct (zs !! i) as [z|] eqn:Hz.
  - pose proof (lookup_lt_Some _ _ _ Hz). rewrite lookup_seq_lt by done. simpl. unfold batch_row, int_row, array_cell. simpl.
    rewrite list_lookup_fmap, Hz. done.
  - apply lookup_ge_None in Hz. by rewrite lookup_seq_ge.
Qed.

Definition int_file (zs : list Z) : Bytes := demo_text_bytes (fields_encode zs).
Definition int_file_read (buf : Bytes) : option (list Z) := fields_decode (demo_bytes_text buf).
Lemma int_file_read_file zs : int_file_read (int_file zs) = Some zs.
Proof. unfold int_file_read, int_file. by rewrite demo_bytes_text_bytes, fields_decode_encode. Qed.

(** Encodes one integer column; a writer is the integers written so far. *)
Definition demo_parquet : ParquetLib := {|
  gzip_level l := (l <=? 9)%N; zstd_level l := ((1 <=? l) && (l <=? 22))%Z; brotli_level l := (l <=? 11)%N;
  sort_order_json _ := None;
  concat_batches schema bs :=
    match rows_ints (concat (map batch_rows bs)) with Some zs => Ok (int_batch schema zs) | None => Err "unsupported" end;
  lexsort_to_indices cols :=
    match cols with
    | [c] => Ok (seq 0 (array_len (sc_values c)))
    | _ => Err "unsupported"
    end;
  batch_slice b offset len := batch_select b (seq offset len);
  Writer := list Z;
  writer_try_new _ _ := Ok [];
  writer_write w b := match rows_ints (batch_rows b) with Some zs => Ok (w ++ zs) | None => Err "unsupported" end;
  writer_size w := (8 * lenN w)%N;
  writer_into_inner w := Ok (int_file w);
  read_footer buf :=
    match int_file_read buf with
    | Some zs => if (lenN zs <? 2 ^ 64)%N then Ok [mkRowGroup (Z.of_N (lenN zs)) []] else Err "too many rows"
    | None => Err "bad footer"
    end;
|}.
Definition demo_file_rows (buf : Bytes) : list Row := map int_row (default [] (int_file_read buf)).
#[export] Instance demo_parquet_laws :
  ParquetLaws (H := demo_kernels) (H0 := demo_parquet) (map int_row) demo_file_rows.
Proof.
  split; cbn [demo_parquet concat_batches lexsort_to_indices batch_slice writer_try_new writer_write writer_into_inner read_footer].
  - intros schema bs b Hb. destruct (rows_ints _) as [zs|] eqn:Hzs; [|done]. injection Hb as <-.
    split; [split; [done|]|split; [done|]].
    + constructor; [|constructor]. unfold array_len. simpl. by rewrite length_map.
    + rewrite int_batch_rows. symmetry. by apply rows_ints_rows.
  - intros [|c [|c' cols]] idx c0; try done. intros [= <-] ->%list_elem_of_singleton. done.
  - intros b offset len Hb Hlen. rewrite batch_rows_select by (done || (apply Forall_forall; intros i Hi%elem_of_seq; lia)).
    unfold batch_rows. rewrite <-fmap_drop, <-fmap_take. f_equal. rewrite drop_seq, take_seq. f_equal; lia.
  - by intros _ _ w [= <-].
  - intros w b w' Hw. destruct (rows_ints _) as [zs|] eqn:Hzs; [|done]. injection Hw as <-.
    by rewrite map_app, (rows_ints_rows _ _ Hzs).
  - intros w buf [= <-]. unfold demo_file_rows. by rewrite int_file_read_file.
  - intros buf footer Hf. unfold demo_file_rows. destruct (int_file_read buf) as [zs|]; [|done].
    destruct (N.ltb_spec (lenN zs) (2 ^ 64)); [|done]. injection Hf as <-. cbn [map]. rewrite sumN_cons. simpl.
    unfold wrap_unsigned, lenN in *. rewrite Z.mod_small by lia. rewrite length_map. cbn. lia.
Qed.

Definition demo_small_spec : WriteSpec :=
  mkWriteSpec [] 0 0 ∅ (mkSortOrder 0 []) default_codec 2 2 0 0.
Definition demo_base : ObjectLocation := mkObjectLocation S3 (Some "warehouse") "t/data/w/c-f0000.parquet".

Lemma write_sorted_rolled_demo :
  ∃ st' out, write_sorted_rolled (H := demo_kernels) (H0 := demo_parquet) (∅ : gmap ObjectPath Bytes) demo_base
      [int_batch [] [1; 2; 3]%Z; int_batch [] []; int_batch [] [4]%Z] demo_small_spec = (st', Ok out) ∧ length out = 2 ∧
    ∃ rows, written (file_rows := demo_file_rows) (objects := λ s, s) demo_base demo_small_spec st' out rows ∧
      rows ≡ₚ map int_row [1; 2; 3; 4]%Z.
Proof.
  destruct (write_sorted_rolled (H := demo_kernels) (H0 := demo_parquet) (∅ : gmap ObjectPath Bytes) demo_base
      [int_batch [] [1; 2; 3]%Z; int_batch [] []; int_batch [] [4]%Z] demo_small_spec) as [st' r] eqn:Hrun.
  assert (Forall batch_ok [int_batch [] [1; 2; 3]%Z; int_batch [] []; int_batch [] [4]%Z]) as Hbs
    by (repeat (constructor; [split; [discriminate|repeat constructor]|]); constructor).
  destruct (write_sorted_rolled_exact (HA := demo_kernels) (HP := demo_parquet) (writer_rows := map int_row)
    (file_rows := demo_file_rows) (objects := λ s, s) _ _ _ _ _ _ Hbs Hrun)
    as [_ Hok].
  assert (∃ out, r = Ok out ∧ length out = 2) as (out & -> & Hlen).
  { apply (f_equal snd) in Hrun. simpl in Hrun. rewrite <-Hrun. vm_compute. eexists. split; reflexivity. }
  destruct (Hok out eq_refl) as (rows & Hw & Hp & _).
  exists st', out. split; [reflexivity|]. split; [exact Hlen|]. exists rows. split; [exact Hw|]. rewrite Hp. reflexivity.
Defined.
