(* ===== verification/FlushWrite.v ===== *)
(** * Writing the data files of a flush

    Models [teodb-ingest/src/flush/write.rs]: the target locations of a flush
    and the write of its batches, per partition, through the Parquet writer.
    The catalog conversions discharge the layout interface of the flusher, so
    the files written here are the ones the flusher validates. *)

From S2P Require Import Prelude Core Decimal Location WriteProtocol Leases DataFiles Schema WalFrame Prepared Flush Sweep Cache CacheSpec Compaction Convert ConvertSpec Partitioning ParquetStats ParquetWriter.
Open Scope nat_scope.
Open Scope list_scope.

(** The layout the flusher reads, by the catalog conversions. *)
#[export] Instance catalog_layout `{IcebergSpec} : TableLayout SchemaDefinition PartitionSpec := {|
  schema_id := sd_schema_id;
  spec_id := ps_spec_id;
  spec_unpartitioned spec := bool_decide (ps_fields spec = []);
  Flush.iceberg_partition_path := Convert.iceberg_partition_path;
|}.

Record FlushWriteContext := mkFlushWriteContext {
  fw_writer_id : Uuid; fw_commit_id : Uuid; fw_generation_lo : N; fw_generation_hi : N }.

Section write.
Context `{IcebergSpec} `{ArrowKernels} `{ParquetLib} `{UuidText}.
Context {St : Type} `{!Storage St}.
(** The iteration order of the map of groups. *)
Context (group_order : list PartitionedBatches → list PartitionedBatches).

Definition flush_sort_order (metadata : Metadata) : SortOrder :=
  default (mkSortOrder 0 []) (snd <$> list_find (λ s, so_order_id s = tm_current_sort_order_id metadata) (tm_sort_orders metadata)).

Definition flush_file_location (metadata : Metadata) (writer_id commit_id : Uuid) (partition : option (string * N))
    : ObjectLocation :=
  let file_name :=
    match partition with
    | Some (_, idx) => uuid_to_string commit_id +:+ "-p" +:+ index4 idx +:+ "-f0000.parquet"
    | None => uuid_to_string commit_id +:+ "-f0000.parquet"
    end in
  let data_dir :=
    match partition with
    | Some (path, _) => "data/" +:+ path +:+ "/" +:+ uuid_to_string writer_id
    | None => "data/" +:+ uuid_to_string writer_id
    end in
  mkObjectLocation (scheme (tm_table_location metadata)) (bucket (tm_table_location metadata))
    (trim_end_slashes (key (tm_table_location metadata)) +:+ "/" +:+ data_dir +:+ "/" +:+ file_name).

(** The write contract of a flush, with the builder's defaults. *)
Definition flush_write_spec (metadata : Metadata) (schema_def : SchemaDefinition) (partition_spec : PartitionSpec)
    (partition_values : gmap FieldId TeoScalar) (context : FlushWriteContext) : TeoDBResult WriteSpec :=
  write_spec_build (schema_to_arrow schema_def) (Some (tm_current_schema_id metadata)) (Some (ps_spec_id partition_spec))
    partition_values (flush_sort_order metadata) default_codec DEFAULT_TARGET_BYTES DEFAULT_TARGET_ROWS
    (fw_generation_lo context) (fw_generation_hi context).

(** The loop over the groups, from the given index. *)
Fixpoint write_groups (st : St) (metadata : Metadata) (schema_def : SchemaDefinition) (partition_spec : PartitionSpec)
    (context : FlushWriteContext) (idx : N) (groups : list PartitionedBatches) (data_files : list DataFile)
    : St * TeoDBResult (list DataFile) :=
  match groups with
  | [] => (st, Ok data_files)
  | group :: groups =>
      match (path ← Convert.iceberg_partition_path schema_def partition_spec (pb_partition_values group);
             spec ← flush_write_spec metadata schema_def partition_spec (pb_partition_values group) context;
             Ok (path, spec)) with
      | Err e => (st, Err e)
      | Ok (path, spec) =>
          let target := flush_file_location metadata (fw_writer_id context) (fw_commit_id context) (Some (path, idx)) in
          match write_sorted_rolled st target (pb_batches group) spec with
          | (st, Err e) => (st, Err e)
          | (st, Ok files) => write_groups st metadata schema_def partition_spec context (idx + 1) groups (data_files ++ files)
          end
      end
  end.

(** [resolved]: what resolving the storage of the table's location returned. *)
Definition write_flush_data_files (resolved : TeoDBResult unit) (st : St) (metadata : Metadata)
    (batches : list RecordBatch) (context : FlushWriteContext) : St * TeoDBResult (list DataFile) :=
  match (schema_def ← current_schema metadata;
         partition_spec ← current_partition_spec metadata;
         _ ← resolved;
         Ok (schema_def, partition_spec)) with
  | Err e => (st, Err e)
  | Ok (schema_def, partition_spec) =>
      if bool_decide (ps_fields partition_spec = []) then
        let target := flush_file_location metadata (fw_writer_id context) (fw_commit_id context) None in
        match flush_write_spec metadata schema_def partition_spec ∅ context with
        | Err e => (st, Err e)
        | Ok spec => write_sorted_rolled st target batches spec
        end
      else
        match partition_batches batches schema_def partition_spec with
        | Err e => (st, Err e)
        | Ok partitioned => write_groups st metadata schema_def partition_spec context 0 (group_order partitioned) []
        end
  end.
End write.

(** ** Keys of flushed files *)
Lemma key_normal_segment s : str_free "/" s = true → s ≠ "" → s ≠ ".." → key_normal s.
Proof. intros Hf Hne Hdd. exists [s]. split; [done|]. by repeat constructor. Qed.

Lemma str_join_app sep l1 l2 : l1 ≠ [] → l2 ≠ [] → str_join sep (l1 ++ l2) = str_join sep l1 +:+ sep +:+ str_join sep l2.
Proof.
  intros H1 H2. induction l1 as [|a l1 IH]; [done|]. destruct l1 as [|b l1].
  - simpl. by destruct l2.
  - change (str_join sep ((a :: b :: l1) ++ l2)) with (a +:+ sep +:+ str_join sep ((b :: l1) ++ l2)).
    rewrite IH by done. change (str_join sep (a :: b :: l1)) with (a +:+ sep +:+ str_join sep (b :: l1)).
    by rewrite !str_app_assoc.
Qed.

Lemma key_normal_join a b : key_normal a → a ≠ "" → key_normal b → b ≠ "" → key_normal (a +:+ "/" +:+ b).
Proof.
  intros (s1 & -> & H1) Ha (s2 & -> & H2) Hb. exists (s1 ++ s2).
  split; [|by apply Forall_app]. rewrite str_join_app; [done|by intros ->..].
Qed.

Lemma key_normal_parts k :
  key_normal k → k ≠ "" →
  str_starts_with "/" k = false ∧ existsb (λ c, bool_decide (c = "..")) (str_split "/" k) = false.
Proof.
  intros (segs & -> & Hsegs) Hne. destruct segs as [|s0 segs]; [done|].
  destruct (join_head segs s0 Hsegs) as (a & rest & Heq & Ha). split.
  - unfold str_starts_with. rewrite Heq. simpl. by rewrite decide_False by congruence.
  - rewrite str_split_join by (eapply Forall_impl; [exact Hsegs|]; naive_solver).
    apply existsb_dotdot. eapply Forall_impl; [exact Hsegs|]; naive_solver.
Qed.

Lemma key_normal_trim k : key_normal k → k ≠ "" → trim_end_slashes k = k.
Proof.
  intros (segs & -> & Hsegs) Hne. destruct segs as [|s0 segs] using rev_ind; [done|]. clear IHsegs.
  apply Forall_app in Hsegs as [_ [(Hf & Hs & _) _]%Forall_cons].
  assert (∃ pre, str_join "/" (segs ++ [s0]) = pre +:+ s0) as [pre ->].
  { destruct segs as [|s segs]; [by exists ""|]. exists (str_join "/" (s :: segs) +:+ "/").
    rewrite str_join_app by done. by rewrite str_app_assoc. }
  unfold trim_end_slashes. rewrite str_rev_append.
  assert (∃ c r, str_rev s0 = String c r ∧ c ≠ "/"%char) as (c & r & Hr & Hc).
  { destruct (str_rev s0) as [|c r] eqn:Hr.
    - apply (f_equal str_rev) in Hr. rewrite str_rev_involutive in Hr. by subst.
    - exists c, r. split; [done|]. intros ->. apply (f_equal str_rev) in Hr. rewrite str_rev_involutive in Hr.
      change (String "/" r) with ("/" +:+ r) in Hr. rewrite str_rev_append in Hr. subst s0.
      rewrite str_free_app in Hf. apply andb_true_iff in Hf as [_ Hf]. done. }
  assert (∀ s, (fix drop (r : string) : string := match r with String "/" r => drop r | _ => r end) (String c s)
             = String c s) as Hdrop.
  { intros s. destruct c as [[] [] [] [] [] [] [] []]; try reflexivity. by destruct Hc. }
  rewrite Hr, str_app_cons, Hdrop, <-str_app_cons, <-Hr, <-str_rev_append. apply str_rev_involutive.
Qed.

Lemma index4_free c n : (N_of_ascii c < 48 ∨ 57 < N_of_ascii c)%N → str_free c (index4 n) = true.
Proof.
  intros Hc. unfold index4, pad_zeros. induction (4 - _) as [|k IH]; simpl; [by apply pretty_N_free|].
  apply str_free_cons. split; [|done]. intros <-. vm_compute in Hc. destruct Hc; done.
Qed.

Lemma family_key base pre l :
  key base = pre +:+ "-f0000.parquet" → in_family base l →
  ∃ j, l = mkObjectLocation (scheme base) (bucket base) (pre +:+ "-f" +:+ index4 j +:+ ".parquet").
Proof.
  intros Hb [->|[j ->]].
  - exists 0%N. destruct base as [sc b k]. simpl in *. by subst k.
  - exists j. unfold file_location. by rewrite Hb, str_strip_suffix_app.
Qed.

Lemma head_filter_find {A} (P Q : A → Prop) `{!∀ x, Decision (P x), !∀ x, Decision (Q x)} l x :
  (∀ y, P y ↔ Q y) → snd <$> list_find P l = Some x → head (filter Q l) = Some x.
Proof.
  intros HPQ. induction l as [|y l IH]; [done|]. simpl. destruct (decide (P y)) as [HP|HP].
  - intros [= <-]. rewrite filter_cons_True by (by apply HPQ). done.
  - rewrite filter_cons_False by (by rewrite <-HPQ). intros Hf. apply IH. by destruct (list_find P l) as [[]|].
Qed.

Section valid.
Context {HI : IcebergSpec} {HU : UuidText} {HUL : UuidTextLaws}.
Context (metadata : Metadata) (schema_def : SchemaDefinition) (spec : PartitionSpec) (writer_id commit_id : Uuid).
Context (Hschema : current_schema metadata = Ok schema_def) (Hspec : current_partition_spec metadata = Ok spec).
Context (Hkey : key_normal (key (tm_table_location metadata))) (Hkey0 : key (tm_table_location metadata) ≠ "").

(** The directory of the files of a partition and the stem of their names. *)
Definition flush_dir (path : option string) : string :=
  trim_end_slashes (key (tm_table_location metadata)) +:+ "/data/"
  +:+ match path with Some path => path +:+ "/" | None => "" end +:+ uuid_to_string writer_id +:+ "/".
Definition flush_stem (idx : option N) : string :=
  uuid_to_string commit_id +:+ match idx with Some idx => "-p" +:+ index4 idx | None => "" end.
Definition flush_name (idx : option N) (j : N) : string := flush_stem idx +:+ "-f" +:+ index4 j +:+ ".parquet".

Lemma flush_file_location_key partition :
  key (flush_file_location metadata writer_id commit_id partition)
  = (flush_dir (fst <$> partition) +:+ flush_stem (snd <$> partition)) +:+ "-f0000.parquet".
Proof.
  unfold flush_file_location, flush_dir, flush_stem. cbn [key].
  destruct partition as [[path idx]|]; cbn [fmap option_fmap option_map fst snd]; by rewrite <-!str_app_assoc.
Qed.

Lemma flush_family partition l :
  in_family (flush_file_location metadata writer_id commit_id partition) l →
  ∃ j, l = mkObjectLocation (scheme (tm_table_location metadata)) (bucket (tm_table_location metadata))
             (flush_dir (fst <$> partition) +:+ flush_name (snd <$> partition) j).
Proof.
  intros Hl. destruct (family_key _ _ _ (flush_file_location_key partition) Hl) as [j ->]. exists j.
  unfold flush_name. by rewrite <-!str_app_assoc.
Qed.

Lemma flush_name_free idx j : str_free "/" (flush_name idx j) = true.
Proof.
  unfold flush_name, flush_stem. rewrite !str_free_app, uuid_to_string_free, index4_free by (vm_compute; auto).
  destruct idx; [|done]. by rewrite str_free_app, index4_free by (vm_compute; auto).
Qed.
Lemma flush_name_prefix idx j : ∃ r, flush_name idx j = (uuid_to_string commit_id +:+ "-") +:+ r.
Proof.
  unfold flush_name, flush_stem. destruct idx as [idx|]; eexists; rewrite <-!str_app_assoc; reflexivity.
Qed.
Lemma flush_name_segment idx j : flush_name idx j ≠ "" ∧ flush_name idx j ≠ "..".
Proof.
  assert (str_free "-" (flush_name idx j) = false) as Hdash.
  { destruct (flush_name_prefix idx j) as [r ->]. rewrite !str_free_app, andb_false_r. done. }
  split; intros Heq; by rewrite Heq in Hdash.
Qed.

Lemma app_nonempty_l a b : a ≠ "" → a +:+ b ≠ "".
Proof. destruct a; [done|]. by rewrite str_app_cons. Qed.

(** The name of a file is the last segment of its key, and its stem is read off the name. *)
Lemma str_split_snoc c d n :
  str_free c n = true → str_split c (d +:+ String c n) = str_split c d ++ [n].
Proof.
  intros Hn. induction d as [|a d IH].
  - rewrite str_app_nil. simpl. rewrite decide_True by done. by rewrite str_split_free.
  - rewrite str_app_cons. simpl. rewrite IH. case_decide; [done|].
    destruct (str_split c d) eqn:Hd; [|done]. pose proof (str_split_count c d) as Hlen. by rewrite Hd in Hlen.
Qed.
Lemma flush_key_name path idx j path' idx' j' :
  flush_dir path +:+ flush_name idx j = flush_dir path' +:+ flush_name idx' j' → flush_name idx j = flush_name idx' j'.
Proof.
  intros Heq%(f_equal (str_split "/")).
  assert (∀ p i k, ∃ d, str_split "/" (flush_dir p +:+ flush_name i k) = d ++ [flush_name i k]) as Hsplit.
  { intros p i k. unfold flush_dir. eexists. rewrite !str_app_assoc.
    rewrite <-(str_app_assoc _ "/" (flush_name i k)), str_app_cons, str_app_nil.
    apply str_split_snoc, flush_name_free. }
  destruct (Hsplit path idx j) as [d Hd], (Hsplit path' idx' j') as [d' Hd']. rewrite Hd, Hd' in Heq.
  by apply app_inj_tail in Heq as [_ ?].
Qed.
Lemma flush_families_disjoint path i l path' i' l' :
  in_family (flush_file_location metadata writer_id commit_id (Some (path, i))) l →
  in_family (flush_file_location metadata writer_id commit_id (Some (path', i'))) l' →
  key l = key l' → i = i'.
Proof.
  intros (j & ->)%flush_family (j' & ->)%flush_family. cbn [key fmap option_fmap option_map fst snd].
  intros Heq%flush_key_name. unfold flush_name, flush_stem in Heq. rewrite <-!str_app_assoc in Heq.
  apply str_app_inj_l, str_app_inj_l in Heq. apply index4_inj.
  assert (∀ a r, split_once "-" (index4 a +:+ "-f" +:+ r) = Some (index4 a, String "f" r)) as Hsplit.
  { intros a r. apply split_once_Some. split; [reflexivity|]. apply index4_free. vm_compute. auto. }
  apply (f_equal (split_once "-")) in Heq. rewrite !Hsplit in Heq. congruence.
Qed.

(** A flushed key is normal. *)
Lemma flush_key_normal path idx j :
  match path with Some path => key_normal path ∧ path ≠ "" | None => True end →
  key_normal (flush_dir path +:+ flush_name idx j) ∧ flush_dir path +:+ flush_name idx j ≠ "".
Proof.
  intros Hpath. unfold flush_dir. rewrite (key_normal_trim _ Hkey Hkey0).
  set (K := key (tm_table_location metadata)) in *. set (W := uuid_to_string writer_id).
  set (name := flush_name idx j).
  assert (key_normal name ∧ name ≠ "") as [Hn Hn0].
  { destruct (flush_name_segment idx j). split; [|done]. apply key_normal_segment; [apply flush_name_free|done..]. }
  assert (key_normal W ∧ W ≠ "") as [HW HW0].
  { split; [|apply uuid_to_string_nonempty]. apply key_normal_segment; [apply uuid_to_string_free|apply uuid_to_string_nonempty|].
    intros Heq. pose proof (uuid_to_string_dotless writer_id) as Hd. fold W in Hd. by rewrite Heq in Hd. }
  assert (key_normal (W +:+ "/" +:+ name) ∧ W +:+ "/" +:+ name ≠ "") as [HWn HWn0].
  { split; [by apply key_normal_join|by apply app_nonempty_l]. }
  assert (∀ x, key_normal x → x ≠ "" → key_normal (K +:+ "/" +:+ "data" +:+ "/" +:+ x) ∧ K +:+ "/" +:+ "data" +:+ "/" +:+ x ≠ "") as Hwrap.
  { intros x Hx Hx0. split; [|by apply app_nonempty_l]. apply key_normal_join; [done|done|..].
    - apply key_normal_join; [|done|done|done]. by apply key_normal_segment.
    - by apply app_nonempty_l. }
  destruct path as [path|].
  - destruct Hpath as [Hp Hp0]. destruct (Hwrap (path +:+ "/" +:+ (W +:+ "/" +:+ name))) as [H1 H2].
    { by apply key_normal_join. } { by apply app_nonempty_l. }
    rewrite <-!str_app_assoc in *. split; [exact H1|exact H2].
  - destruct (Hwrap (W +:+ "/" +:+ name) HWn HWn0) as [H1 H2]. rewrite <-!str_app_assoc in *. split; [exact H1|exact H2].
Qed.

(** What the flusher finds for the ids of a flushed file. *)
Lemma find_or_head {A} (P : A → bool) (Q : A → Prop) `{!∀ x, Decision (Q x)} l msg x :
  (∀ y, P y = true ↔ Q y) → find_or P l msg = Ok x → head (filter Q l) = Some x.
Proof. intros HPQ Hx%ok_or_Ok. by apply (head_filter_find (λ y, P y = true) Q). Qed.

(** A file in the family of a flush target, with the ids and the tuple of the flush, is one
    the flusher accepts as a member of the commit. *)
Lemma flushed_file_validates p f path idx :
  pf_writer_id p = writer_id → pf_commit_id p = commit_id →
  df_content f = ContentData → df_schema_id f = tm_current_schema_id metadata → df_partition_spec_id f = ps_spec_id spec →
  match path with
  | None => ps_fields spec = []
  | Some path => ps_fields spec ≠ [] ∧ Convert.iceberg_partition_path schema_def spec (df_partition_values f) = Ok path
  end →
  in_family (flush_file_location metadata writer_id commit_id ((λ path, (path, idx)) <$> path)) (df_path f) →
  validate_data_file_path metadata p f = Ok tt.
Proof.
  intros Hw Hc Hdata Hsid Hspid Hpath Hfam. apply flush_family in Hfam as [j Hl].
  assert (fst <$> ((λ path, (path, idx)) <$> path) = path) as Hfst by (by destruct path). rewrite Hfst in Hl.
  set (nidx := snd <$> _) in Hl.
  destruct (flush_key_normal path nidx j) as [Hkn Hkn0].
  { destruct path as [path|]; [|done]. destruct Hpath as [Hne Hip].
    destruct (partition_path_components _ _ _ _ Hip Hne) as (humans & Hh & Hdec & Hnorm). split; [done|].
    intros ->. simpl in Hdec. apply mapM_res_Ok in Hh.
    destruct (ps_fields spec) as [|fd fds]; [done|]. by destruct humans; [inversion Hh|]. }
  destruct (key_normal_parts _ Hkn Hkn0) as [Hstart Hdots].
  unfold validate_data_file_path. cbn [schema_id spec_id spec_unpartitioned catalog_layout Flush.iceberg_partition_path].
  assert (ps_spec_id spec = tm_current_partition_spec_id metadata) as Hcur.
  { pose proof Hspec as Hs. unfold current_partition_spec, find_or in Hs.
    destruct (list_find _ (tm_partition_specs metadata)) as [[i s]|] eqn:Hfind; [|done].
    injection Hs as ->. apply list_find_Some in Hfind as (_ & Heq & _). by apply Z.eqb_eq. }
  rewrite (find_or_head _ (λ s, sd_schema_id s = df_schema_id f) _ _ _
             (λ y, eq_ind_r (λ i, _ ↔ _ = i) (Z.eqb_eq _ _) Hsid) Hschema).
  rewrite (find_or_head _ (λ s, ps_spec_id s = df_partition_spec_id f) _ _ _
             (λ y, eq_ind_r (λ i, _ ↔ _ = i) (Z.eqb_eq _ _) (eq_trans Hspid Hcur)) Hspec).
  cbn [ok_or mbind result_bind].
  match goal with |- (prefix ← ?a; _) = _ => assert (a = Ok (flush_dir path)) as -> end.
  { rewrite Hw. unfold flush_dir. destruct path as [path|].
    - destruct Hpath as [Hne Hip]. rewrite bool_decide_eq_false_2 by done. rewrite Hip. simpl. by rewrite <-!str_app_assoc.
    - rewrite bool_decide_eq_true_2 by done. by rewrite <-!str_app_assoc. }
  cbn [mbind result_bind]. rewrite Hl. cbn [key scheme bucket]. rewrite (proj2 (str_strip_prefix_Some _ _ _) eq_refl), Hstart, Hdots, Hdata, Hc.
  destruct (flush_name_segment nidx j) as [Hn0 _]. pose proof (flush_name_free nidx j) as Hfree.
  destruct (flush_name_prefix nidx j) as [r Hr]. unfold str_has_char. rewrite Hfree, !bool_decide_eq_true_2 by done.
  rewrite Hr at 2. rewrite str_starts_with_app. destruct (flush_name nidx j); done.
Qed.
End valid.

(** ** What a flush writes *)
Section exact.
Context {HI : IcebergSpec} {HU : UuidText} {HUL : UuidTextLaws}.
Context {HA : ArrowKernels} {HL : ArrowLaws} {HP : ParquetLib}.
Context {writer_rows : Writer → list Row} {file_rows : Bytes → list Row} {HPL : ParquetLaws writer_rows file_rows}.
Context {St : Type} {HS : Storage St} {objects : St → gmap ObjectPath Bytes} {HSL : StorageLaws St objects}.
Context (metadata : Metadata) (schema_def : SchemaDefinition) (spec : PartitionSpec) (context : FlushWriteContext).
Abbreviation target := (λ partition, flush_file_location metadata (fw_writer_id context) (fw_commit_id context) partition).
Abbreviation holds := (holds_rows (file_rows := file_rows) (objects := objects)).
Abbreviation wrote := (written (file_rows := file_rows) (objects := objects)).

(** A group and the files written for it. *)
Definition group_written (st : St) (lo : N) (g : PartitionedBatches) (files : list DataFile) : Prop :=
  ∃ i path wspec rows, (lo ≤ i)%N ∧ Convert.iceberg_partition_path schema_def spec (pb_partition_values g) = Ok path ∧
    flush_write_spec metadata schema_def spec (pb_partition_values g) context = Ok wspec ∧
    wrote (target (Some (path, i))) wspec st files rows ∧ rows ≡ₚ concat (map batch_rows (pb_batches g)).

(** Only the keys of groups from the given index on change. *)
Definition same_below (lo : N) (st st' : St) : Prop :=
  ∀ k, (∀ path i l, (lo ≤ i)%N → in_family (target (Some (path, i))) l → k ≠ key l) → objects st' !! k = objects st !! k.

Lemma write_groups_spec groups : ∀ st idx acc st' r,
  Forall (λ g, Forall batch_ok (pb_batches g)) groups →
  write_groups st metadata schema_def spec context idx groups acc = (st', r) →
  same_below idx st st' ∧
  ∀ out, r = Ok out → ∃ parts, out = acc ++ concat parts ∧ Forall2 (group_written st' idx) groups parts ∧
    NoDup (map (λ f, key (df_path f)) (concat parts)).
Proof.
  induction groups as [|g groups IH]; intros st idx acc st' r Hok; cbn [write_groups].
  { intros [= <- <-]. split; [done|]. intros out [= <-]. exists []. rewrite app_nil_r. by split_and!; constructor. }
  apply Forall_cons in Hok as [Hg Hok].
  destruct (Convert.iceberg_partition_path _ _ _) as [path|e] eqn:Hpath; [|by intros [= <- <-]].
  destruct (flush_write_spec _ _ _ _ _) as [wspec|e] eqn:Hspec; [|by intros [= <- <-]]. simpl.
  destruct (write_sorted_rolled st _ _ _) as [st1 r1] eqn:Hw.
  destruct (write_sorted_rolled_exact (writer_rows := writer_rows) (file_rows := file_rows) (objects := objects)
              _ _ _ _ _ _ Hg Hw) as [Hframe1 Hok1].
  assert (same_below idx st st1) as Hbelow1 by (intros k Hk; apply Hframe1; intros l; by apply Hk).
  destruct r1 as [files|e]; [|by intros [= <- <-]]. intros [Hframe2 Hok2]%IH; [|done].
  assert (same_below idx st st') as Hbelow.
  { intros k Hk. rewrite Hframe2; [by apply Hbelow1|]. intros p i l Hi. apply Hk. lia. }
  split; [done|]. intros out Hr. destruct (Hok2 out Hr) as (parts & -> & Hparts & Hnd).
  destruct (Hok1 files eq_refl) as (rows & Hwritten & Hrows & _). exists (files :: parts).
  split; [by rewrite <-app_assoc|].
  assert (∀ f, f ∈ files → in_family (target (Some (path, idx))) (df_path f)) as Hfam.
  { destruct Hwritten as (chunks & _ & _ & _ & Hf). by apply Forall_forall. }
  assert (wrote (target (Some (path, idx))) wspec st' files rows) as Hwritten'.
  { destruct Hwritten as (chunks & Hheld & Hrest). exists chunks. split; [|done].
    eapply Forall2_impl_elem; [exact Hheld|]. intros f ch Hf (buf & Hbuf & Hb). exists buf. split; [|done].
    rewrite Hframe2; [done|]. intros p i l Hi Hl Heq. pose proof (flush_families_disjoint _ _ _ _ _ _ _ _ _ (Hfam f Hf) Hl Heq). lia. }
  split; [constructor|].
  - exists idx, path, wspec, rows. by split_and!.
  - eapply Forall2_impl; [exact Hparts|]. intros g' fs (i & p & ws & rs & Hi & ?). exists i, p, ws, rs. split; [lia|done].
  - cbn [concat]. rewrite map_app, NoDup_app. split; [by destruct Hwritten as (? & _ & _ & ? & _)|]. split; [|done].
    intros k (f & -> & Hf)%list_elem_of_fmap (f' & Heq & Hf')%list_elem_of_fmap.
    apply list_elem_of_In, in_concat in Hf' as (fs & Hfs%list_elem_of_In & Hf'%list_elem_of_In).
    apply list_elem_of_lookup in Hfs as [n Hn]. destruct (Forall2_lookup_r _ _ _ _ _ Hparts Hn) as (g' & _ & Hgw).
    destruct Hgw as (i & p & ws & rs & Hi & _ & _ & (ch & _ & _ & _ & Hf2) & _). rewrite Forall_forall in Hf2.
    pose proof (flush_families_disjoint _ _ _ _ _ _ _ _ _ (Hfam f Hf) (Hf2 f' Hf') Heq). lia.
Qed.

(** The row comes from one of the batches, and its partition tuple is the given one. *)
Definition row_of (batches : list RecordBatch) (values : gmap FieldId TeoScalar) (row : Row) : Prop :=
  ∃ b i key values', b ∈ batches ∧ i < rb_num_rows b ∧ row = batch_row b i ∧
    partition_key_for_row b i schema_def spec = Ok (key, values') ∧
    (values_finite values' → values_finite values → values' = values).

(** A non-empty object under the file's key, with as many rows as the metadata counts, all of
    them of the file's partition. *)
Definition flushed_file (st : St) (batches : list RecordBatch) (f : DataFile) (rows : list Row) : Prop :=
  (∃ buf, objects st !! key (df_path f) = Some buf ∧ file_rows buf = rows) ∧ rows ≠ [] ∧ df_record_count f = lenN rows ∧
  (ps_fields spec ≠ [] → Forall (row_of batches (df_partition_values f)) rows).

Context (Hschema : current_schema metadata = Ok schema_def) (Hspec : current_partition_spec metadata = Ok spec).
Context (Hkey : key_normal (key (tm_table_location metadata))) (Hkey0 : key (tm_table_location metadata) ≠ "").
Context (p : PreparedFlush) (Hpw : pf_writer_id p = fw_writer_id context) (Hpc : pf_commit_id p = fw_commit_id context).

Lemma written_flushed st batches values wspec path idx files rows :
  flush_write_spec metadata schema_def spec values context = Ok wspec →
  wrote (target ((λ path, (path, idx)) <$> path)) wspec st files rows →
  match path with
  | None => ps_fields spec = []
  | Some path => ps_fields spec ≠ [] ∧ Convert.iceberg_partition_path schema_def spec values = Ok path
  end →
  (ps_fields spec ≠ [] → Forall (row_of batches values) rows) →
  Forall (λ f, validate_data_file_path metadata p f = Ok tt) files ∧
  ∃ chunks, Forall2 (flushed_file st batches) files chunks ∧ concat chunks = rows.
Proof.
  intros Hws (chunks & Hheld & Hrows & _ & Hfam) Hpath Hof. injection Hws as <-.
  rewrite Forall_forall in Hfam. split.
  - apply Forall_forall. intros f Hf. apply list_elem_of_lookup in Hf as Hlook. destruct Hlook as [n Hn].
    destruct (Forall2_lookup_l _ _ _ _ _ Hheld Hn) as (rs & _ & buf & _ & _ & _ & _ & _ & Hc & Hsid & Hspid & Hv & _).
    simpl in *. eapply flushed_file_validates; try done; [by rewrite Hv|by apply Hfam].
  - exists chunks. split; [|done].
    assert (ps_fields spec ≠ [] → Forall (Forall (row_of batches values)) chunks) as Hof'.
    { intros Hne. specialize (Hof Hne). by rewrite <-Hrows, Forall_concat in Hof. }
    clear Hrows Hfam Hof. induction Hheld as [|f rs files chunks Hf _ IH]; constructor.
    + destruct Hf as (buf & Hbuf & Hr & Hne & Hcount & _ & _ & _ & _ & Hv & _). simpl in Hv.
      split_and!; [by exists buf|done|done|]. intros Hps. rewrite Hv. by apply Hof' in Hps as [? _]%Forall_cons.
    + apply IH. intros Hps. by apply Hof' in Hps as [_ ?]%Forall_cons.
Qed.

(** A group whose rows come from the batches, with the group's tuple. *)
Definition group_split (batches : list RecordBatch) (g : PartitionedBatches) : Prop :=
  ∃ key, ∀ b, b ∈ pb_batches g → slice_ok schema_def spec batches key b ∧
    ∀ row values, partition_key_for_row b row schema_def spec = Ok (key, values) →
      values_finite values → values_finite (pb_partition_values g) → values = pb_partition_values g.

Lemma group_flushed st lo batches g files :
  ps_fields spec ≠ [] → group_split batches g → group_written st lo g files →
  Forall (λ f, validate_data_file_path metadata p f = Ok tt) files ∧
  ∃ chunks, Forall2 (flushed_file st batches) files chunks ∧
    concat chunks ≡ₚ concat (map batch_rows (pb_batches g)).
Proof.
  intros Hne [key Hslices] (i & path & wspec & rows & _ & Hpath & Hws & Hw & Hperm).
  destruct (written_flushed st batches _ _ (Some path) i _ _ Hws Hw (conj Hne Hpath)) as [Hval (chunks & Hc & <-)].
  - intros _. rewrite Hperm. apply Forall_concat, Forall_fmap, Forall_forall. intros b Hb.
    destruct (Hslices b Hb) as [[_ Hrows] Hv]. apply Forall_fmap, Forall_forall. intros row Hrow%elem_of_seq.
    destruct (Hrows row) as (b0 & i0 & values & ? & ? & Heq & Hk & Hk'); [lia|].
    exists b0, i0, key, values. split_and!; [done..|]. intros. apply (Hv row); [congruence|done..].
  - split; [done|]. exists chunks. by split.
Qed.

Lemma groups_flushed st lo batches groups parts :
  ps_fields spec ≠ [] → Forall (group_split batches) groups →
  Forall2 (group_written st lo) groups parts →
  Forall (λ f, validate_data_file_path metadata p f = Ok tt) (concat parts) ∧
  ∃ chunks, Forall2 (flushed_file st batches) (concat parts) chunks ∧
    concat chunks ≡ₚ concat (map batch_rows (concat (map pb_batches groups))).
Proof.
  intros Hne Hkeys. revert parts. induction Hkeys as [|g groups Hg _ IH]; intros parts Hparts.
  { apply Forall2_nil_inv_l in Hparts as ->. split; [constructor|]. exists []. split; constructor. }
  apply Forall2_cons_inv_l in Hparts as (files & parts' & Hgw & Hparts & ->).
  destruct (group_flushed _ _ _ _ _ Hne Hg Hgw) as [Hv (ch & Hch & Hp)]. destruct (IH _ Hparts) as [Hv' (ch' & Hch' & Hp')].
  simpl. split; [by apply Forall_app|]. exists (ch ++ ch'). split; [by apply Forall2_app|].
  by rewrite concat_app, map_app, concat_app, Hp, Hp'.
Qed.

(** The split of the batches, in the order in which the groups are visited. *)
Lemma ordered_groups_split group_order batches groups :
  (∀ l : list PartitionedBatches, group_order l ≡ₚ l) → Forall batch_ok batches → NoDup (map pf_field_id (ps_fields spec)) →
  partition_batches batches schema_def spec = Ok groups →
  Forall (group_split batches) (group_order groups) ∧
  Forall (λ g, Forall batch_ok (pb_batches g)) (group_order groups) ∧
  concat (map batch_rows (concat (map pb_batches (group_order groups)))) ≡ₚ concat (map batch_rows batches).
Proof.
  intros Hord Hbs Hnd Hrun. destruct (partition_batches_split _ _ _ _ Hbs Hnd Hrun) as (Hperm & keys & _ & Hall).
  assert (Forall (group_split batches) groups) as Hsplit.
  { apply Forall_forall. intros g Hg. apply list_elem_of_lookup in Hg as [n Hn].
    destruct (Forall2_lookup_r _ _ _ _ _ Hall Hn) as (k & _ & Hk). by exists k. }
  split_and!.
  - by rewrite Hord.
  - rewrite Hord. eapply Forall_impl; [exact Hsplit|]. intros g [k Hk]. apply Forall_forall. intros b Hb.
    by destruct (Hk b Hb) as [[? _] _].
  - rewrite <-Hperm. by rewrite (Hord groups).
Qed.

Lemma validate_all files : Forall (λ f, validate_data_file_path metadata p f = Ok tt) files →
  foldM (λ _ f, validate_data_file_path metadata p f) tt files = Ok tt.
Proof. induction 1 as [|f files Hf _ IH]; [done|]. simpl. by rewrite Hf. Qed.
End exact.

Section flush.
Context {HI : IcebergSpec} {HU : UuidText} {HUL : UuidTextLaws}.
Context {HA : ArrowKernels} {HL : ArrowLaws} {HP : ParquetLib}.
Context {writer_rows : Writer → list Row} {file_rows : Bytes → list Row} {HPL : ParquetLaws writer_rows file_rows}.
Context {St : Type} {HS : Storage St} {objects : St → gmap ObjectPath Bytes} {HSL : StorageLaws St objects}.

(** A flush that writes its files, by the parts of the proof. *)
Lemma write_flush_files group_order resolved st metadata schema_def spec batches context st' files p :
  (∀ l, group_order l ≡ₚ l) → Forall batch_ok batches → NoDup (map pf_field_id (ps_fields spec)) →
  current_schema metadata = Ok schema_def → current_partition_spec metadata = Ok spec →
  key_normal (key (tm_table_location metadata)) → key (tm_table_location metadata) ≠ "" →
  pf_writer_id p = fw_writer_id context → pf_commit_id p = fw_commit_id context →
  write_flush_data_files group_order resolved st metadata batches context = (st', Ok files) →
  Forall (λ f, validate_data_file_path metadata p f = Ok tt) files ∧ NoDup (map (λ f, key (df_path f)) files) ∧
  ∃ chunks, Forall2 (flushed_file (file_rows := file_rows) (objects := objects) schema_def spec st' batches) files chunks ∧
    concat chunks ≡ₚ concat (map batch_rows batches).
Proof.
  intros Hord Hbs Hnd Hschema Hspec Hkey Hkey0 Hw Hc. unfold write_flush_data_files. rewrite Hschema, Hspec. cbn [mbind result_bind].
  destruct resolved as [[]|]; [|done]. cbn [mbind result_bind]. case_bool_decide as Hun.
  - destruct (flush_write_spec _ _ _ _ _) as [wspec|] eqn:Hws; [|done]. intros Hrun.
    destruct (write_sorted_rolled_exact (writer_rows := writer_rows) (file_rows := file_rows) (objects := objects)
                _ _ _ _ _ _ Hbs Hrun) as [_ Hok].
    destruct (Hok files eq_refl) as (rows & Hwr & Hperm & _).
    destruct (written_flushed (file_rows := file_rows) (objects := objects) metadata schema_def spec context Hschema Hspec Hkey Hkey0 p Hw Hc st' batches ∅ wspec None 0 files rows)
      as [Hval (chunks & Hch & <-)]; [done..|].
    split; [done|]. split; [by destruct Hwr as (? & _ & _ & ? & _)|]. by exists chunks.
  - destruct (partition_batches batches schema_def spec) as [groups|] eqn:Hpart; [|done]. intros Hrun.
    destruct (ordered_groups_split schema_def spec group_order batches groups Hord Hbs Hnd Hpart) as (Hsplit & Hok & Hperm).
    destruct (write_groups_spec (writer_rows := writer_rows) (file_rows := file_rows) (objects := objects)
                _ _ _ _ _ _ _ _ _ _ Hok Hrun) as [_ Hfiles].
    destruct (Hfiles files eq_refl) as (parts & -> & Hparts & Hkeys). simpl in *.
    destruct (groups_flushed (file_rows := file_rows) (objects := objects) metadata schema_def spec context Hschema Hspec Hkey Hkey0 p Hw Hc st' 0 batches _ _ Hun Hsplit Hparts)
      as [Hval (chunks & Hch & Hp)].
    split_and!; [done|done|]. exists chunks. split; [done|]. by rewrite Hp, Hperm.
Qed.

(** C21. A flush that writes its data files writes exactly its rows, and the flusher accepts
    the files: the files have distinct keys; each is in the store, non-empty, with as many rows
    as its metadata counts, all of them rows of the flushed batches and of the file's partition
    (unless a partition value is an infinity or a NaN); together they hold the rows of the
    batches, each once; and the prepared flush over them passes the validation that precedes
    the catalog commit. *)
Theorem write_flush_exact group_order resolved st metadata schema_def spec batches context st' files p :
  (∀ l, group_order l ≡ₚ l) → Forall batch_ok batches → concat (map batch_rows batches) ≠ [] →
  NoDup (map pf_field_id (ps_fields spec)) →
  current_schema metadata = Ok schema_def → current_partition_spec metadata = Ok spec →
  key_normal (key (tm_table_location metadata)) → key (tm_table_location metadata) ≠ "" →
  pf_writer_id p = fw_writer_id context → pf_commit_id p = fw_commit_id context →
  pf_table_uuid p = tm_table_uuid metadata → pf_table p = mkTableIdent (tm_namespace metadata) (tm_table_name metadata) →
  pf_data_files p = files →
  write_flush_data_files group_order resolved st metadata batches context = (st', Ok files) →
  validate_prepared_data_files metadata p = Ok tt ∧ NoDup (map (λ f, key (df_path f)) files) ∧
  ∃ chunks, Forall2 (flushed_file (file_rows := file_rows) (objects := objects) schema_def spec st' batches) files chunks ∧
    concat chunks ≡ₚ concat (map batch_rows batches).
Proof.
  intros Hord Hbs Hne Hnd Hschema Hspec Hkey Hkey0 Hw Hc Huuid Htable Hfiles Hrun.
  destruct (write_flush_files group_order resolved st metadata schema_def spec batches context st' files p)
    as (Hval & Hkeys & chunks & Hch & Hperm); [done..|].
  split; [|split; [done|by exists chunks]].
  unfold validate_prepared_data_files. rewrite Huuid, N.eqb_refl, Htable, Hfiles.
  rewrite (bool_decide_eq_true_2 (mkTableIdent _ _ = _)) by done. simpl.
  rewrite bool_decide_eq_false_2; [by apply validate_all|]. intros ->. apply Forall2_nil_inv_l in Hch as ->.
  simpl in Hperm. by apply Permutation_nil_l in Hperm.
Qed.
End flush.

(** ** A concrete flush of two partitions *)
Definition demo_flush_metadata : Metadata :=
  mkTableMetadata 1 "ns" "t" (mkObjectLocation S3 (Some "b") "wh/t") None 0 0 0
    [demo_table_of TInt64] [demo_by_value] [mkSortOrder 0 []] [] None ∅.
Definition demo_flush_context : FlushWriteContext := mkFlushWriteContext 7 9 1 3.
Definition demo_flush_batches : list RecordBatch := [int_batch [] [1; 2; 1]%Z; int_batch [] [2]%Z].
Definition demo_flush_run : gmap ObjectPath Bytes * TeoDBResult (list DataFile) :=
  @write_flush_data_files demo_iceberg demo_kernels demo_parquet demo_uuid_text _ _ (λ l, l) (Ok tt) ∅
    demo_flush_metadata demo_flush_batches demo_flush_context.
Definition demo_flush_files : list DataFile := match demo_flush_run.2 with Ok files => files | Err _ => [] end.

Lemma demo_flush_ok :
  demo_flush_run = (demo_flush_run.1, Ok demo_flush_files) ∧ map df_record_count demo_flush_files = [2; 2]%N.
Proof. split; vm_compute; reflexivity. Qed.

Lemma write_flush_exact_witness :
  ∃ chunks, length demo_flush_files = 2 ∧
    Forall2 (flushed_file (HI := demo_iceberg) (HA := demo_kernels) (file_rows := demo_file_rows) (objects := λ s, s) (demo_table_of TInt64) demo_by_value
      demo_flush_run.1 demo_flush_batches) demo_flush_files chunks ∧
    concat chunks ≡ₚ map int_row [1; 2; 1; 2]%Z.
Proof.
  destruct demo_flush_ok as [Hrun Hcounts].
  assert (Forall batch_ok demo_flush_batches) as Hbs
    by (repeat (constructor; [split; [discriminate|repeat constructor]|]); constructor).
  assert (key_normal "wh/t") as Hkey by (exists ["wh"; "t"]; split; [reflexivity|repeat constructor; discriminate]).
  destruct (write_flush_exact (HI := demo_iceberg) (HU := demo_uuid_text) (HUL := demo_uuid_text_laws)
    (HA := demo_kernels) (HP := demo_parquet) (writer_rows := map int_row) (file_rows := demo_file_rows) (objects := λ s, s)
    (λ l, l) (Ok tt) ∅ demo_flush_metadata (demo_table_of TInt64) demo_by_value demo_flush_batches demo_flush_context
    demo_flush_run.1 demo_flush_files
    (mkPreparedFlush 1 (mkTableIdent "ns" "t") 1 7 1 9 (mkGenerationRange 1 3) 4 0 demo_flush_files None)
    (λ l, reflexivity l) Hbs ltac:(discriminate) (NoDup_singleton _) eq_refl eq_refl Hkey ltac:(discriminate)
    eq_refl eq_refl eq_refl eq_refl eq_refl Hrun) as (_ & _ & chunks & Hch & Hp).
  exists chunks. split; [|split; [exact Hch|exact Hp]].
  rewrite <-(length_map df_record_count), Hcounts. reflexivity.
Defined.
