(* ===== verification/ClientIp.v ===== *)
(** * The address of a client

    Models [teodb-api/src/security/client_identity.rs]: the networks of trusted
    proxies and the choice of the client's address from the socket peer and the
    forwarding headers, and [proxy_headers] of [teodb-api/src/flight/auth.rs].
    Addresses are parsed as the standard library does.  The text of a header
    value is an option: [to_str] fails on bytes that are not visible ASCII. *)

From S2P Require Import Prelude Core Decimal Location ParquetStats.
Open Scope nat_scope.
Open Scope list_scope.

(** ** Addresses and their text *)
Inductive IpAddr := V4 (a : N) | V6 (a : N).
#[export] Instance IpAddr_eq_dec : EqDecision IpAddr.
Proof. solve_decision. Defined.

Definition digit_of (radix : N) (c : ascii) : option N :=
  let n := N_of_ascii c in
  d ← (if ((48 <=? n) && (n <=? 57))%N then Some (n - 48)%N
       else if ((97 <=? n) && (n <=? 122))%N then Some (n - 87)%N
       else if ((65 <=? n) && (n <=? 90))%N then Some (n - 55)%N else None);
  if (d <? radix)%N then Some d else None.

(** The parser of [core::net]: a reader takes the rest of the input and, when it succeeds,
    returns a value and what it left. *)
Definition Reader (A : Type) : Type := string → option (A * string).

Fixpoint read_digits (radix : N) (max_digits : nat) (result : N) (count : nat) (s : string) : option (N * nat * string) :=
  match s with
  | String c s' =>
      match digit_of radix c with
      | Some d => if max_digits <=? count then None else read_digits radix max_digits (result * radix + d) (S count) s'
      | None => Some (result, count, s)
      end
  | EmptyString => Some (result, count, EmptyString)
  end.
Definition read_number (radix : N) (max_digits : nat) (max : N) (allow_zero_prefix : bool) : Reader N := λ s,
  '(result, count, rest) ← read_digits radix max_digits 0 0 s;
  if (count =? 0)%nat then None
  else if negb allow_zero_prefix && str_starts_with "0" s && (1 <? count)%nat then None
  else if (result <=? max)%N then Some (result, rest) else None.
Definition read_given_char (c : ascii) : Reader unit := λ s,
  match s with String a s => if decide (a = c) then Some (tt, s) else None | EmptyString => None end.
Definition read_separator {A} (sep : ascii) (index : nat) (inner : Reader A) : Reader A := λ s,
  match index with
  | O => inner s
  | S _ => '(_, s) ← read_given_char sep s; inner s
  end.

Definition read_octet (i : nat) : Reader N := read_separator "." i (read_number 10 3 255 false).
Definition read_ipv4_addr : Reader N := λ s,
  '(a, s) ← read_octet 0 s;
  '(b, s) ← read_octet 1 s;
  '(c, s) ← read_octet 2 s;
  '(d, s) ← read_octet 3 s;
  Some (((a * 256 + b) * 256 + c) * 256 + d, s)%N.

(** [todo] groups are left of [i + todo]; the groups read, whether they end in an embedded
    IPv4 address, and the rest. *)
Fixpoint read_groups (todo i : nat) (s : string) : list N * bool * string :=
  match todo with
  | O => ([], false, s)
  | S todo =>
      match (if (0 <? todo)%nat then read_separator ":" i read_ipv4_addr s else None) with
      | Some (v4, s) => ([v4 / 65536; v4 mod 65536]%N, true, s)
      | None =>
          match read_separator ":" i (read_number 16 4 65535 true) s with
          | Some (g, s) => let '(gs, ipv4, s) := read_groups todo (S i) s in (g :: gs, ipv4, s)
          | None => ([], false, s)
          end
      end
  end.
Definition groups_value (groups : list N) : N := foldl (λ acc g, acc * 65536 + g)%N 0%N groups.
Definition read_ipv6_addr : Reader N := λ s,
  let '(head, head_ipv4, s) := read_groups 8 0 s in
  if (length head =? 8)%nat then Some (groups_value head, s)
  else if (head_ipv4 : bool) then None
  else
    '(_, s) ← read_given_char ":" s;
    '(_, s) ← read_given_char ":" s;
    let '(tail, _, s) := read_groups (8 - S (length head)) 0 s in
    Some (groups_value (head ++ replicate (8 - length head - length tail) 0%N ++ tail), s).

(** [str::parse::<IpAddr>]: the whole input is consumed. *)
Definition parse_ip (s : string) : option IpAddr :=
  match read_ipv4_addr s with
  | Some (a, rest) => if str_is_empty rest then Some (V4 a) else None
  | None => match read_ipv6_addr s with
            | Some (a, rest) => if str_is_empty rest then Some (V6 a) else None
            | None => None
            end
  end.

(** ** Trusted networks *)
Record TrustedProxyCidr := mkCidr { network : IpAddr; prefix : N }.

Definition mask (width prefix : N) : N :=
  if (prefix =? 0)%N then 0%N else (N.shiftl (2 ^ width - 1) (width - prefix) mod 2 ^ width)%N.
Definition contains (self : TrustedProxyCidr) (address : IpAddr) : bool :=
  match network self, address with
  | V4 network, V4 address => (N.land network (mask 32 (prefix self)) =? N.land address (mask 32 (prefix self)))%N
  | V6 network, V6 address => (N.land network (mask 128 (prefix self)) =? N.land address (mask 128 (prefix self)))%N
  | _, _ => false
  end.

Definition cidr_from_str (value : string) : result string TrustedProxyCidr :=
  '(address, prefix) ← ok_or (split_once "/" value) "trusted proxy CIDR '{value}' must include a prefix";
  network ← ok_or (parse_ip address) "invalid trusted proxy address '{address}': {error}";
  prefix ← ok_or (parse_unsigned u8_max prefix) "invalid trusted proxy prefix '{prefix}': {error}";
  let max := match network with V4 _ => 32 | V6 _ => 128 end%N in
  _ ← reject_if (max <? prefix)%N "trusted proxy prefix {prefix} exceeds {max} for '{value}'";
  Ok (mkCidr network prefix).

(** ** Forwarding headers *)
Record HeaderMap := mkHeaderMap { h_forwarded : list (option string); h_x_forwarded_for : list (option string) }.

(** The double quote. *)
Definition QUOTE : ascii := ascii_of_N 34.
(** [str::rsplit_once]. *)
Definition rsplit_once (c : ascii) (s : string) : option (string * string) :=
  (λ '(x, y), (str_rev y, str_rev x)) <$> split_once c (str_rev s).

Definition parse_forwarded_address (raw : string) : result unit IpAddr :=
  let raw := trim_matches QUOTE raw in
  match str_strip_prefix "[" raw ≫= λ value, head (str_split "]" value) with
  | Some ipv6 => ok_or (parse_ip ipv6) tt
  | None =>
      match parse_ip raw with
      | Some address => Ok address
      | None => '(address, _) ← ok_or (rsplit_once ":" raw) tt; ok_or (parse_ip address) tt
      end
  end.

Definition find_map {A B} (f : A → option B) (l : list A) : option B := head (omap f l).
Definition forwarded_element (element : string) : result unit IpAddr :=
  raw ← ok_or (find_map (λ part, str_strip_prefix "for=" (str_trim part)) (str_split ";" element)) tt;
  parse_forwarded_address raw.
Definition x_forwarded_element (address : string) : result unit IpAddr := ok_or (parse_ip (str_trim address)) tt.

(** The elements of all values of a header, in order. *)
Definition header_chain (element : string → result unit IpAddr) (values : list (option string))
    : result unit (option (list IpAddr)) :=
  chains ← mapM_res (λ value, value ← ok_or value tt; mapM_res element (str_split "," value)) values;
  let chain := concat chains in
  if bool_decide (chain = []) then Err tt else Ok (Some chain).
Definition forwarded_chain (headers : HeaderMap) : result unit (option (list IpAddr)) :=
  match h_forwarded headers with
  | _ :: _ => header_chain forwarded_element (h_forwarded headers)
  | [] => match h_x_forwarded_for headers with
          | [] => Ok None
          | _ :: _ => header_chain x_forwarded_element (h_x_forwarded_for headers)
          end
  end.

(** ** The resolver *)
Definition is_trusted (trusted_proxies : list TrustedProxyCidr) (address : IpAddr) : bool :=
  existsb (λ network, contains network address) trusted_proxies.
Definition resolve (trusted_proxies : list TrustedProxyCidr) (peer : IpAddr) (headers : HeaderMap) : IpAddr :=
  if negb (is_trusted trusted_proxies peer) then peer
  else match forwarded_chain headers with
       | Ok (Some chain) =>
           default peer (snd <$> list_find (λ address, is_trusted trusted_proxies address = false) (rev chain))
       | Ok None => peer
       | Err _ => peer
       end.

(** The headers a Flight request is resolved with: the first value of each. *)
Definition proxy_headers (metadata : HeaderMap) : HeaderMap :=
  let first values := match mjoin (head values) with Some value => [Some value] | None => [] end in
  mkHeaderMap (first (h_forwarded metadata)) (first (h_x_forwarded_for metadata)).

(** ** Networks by their leading bits *)
Lemma mask_testbit w p i : (p ≤ w)%N → N.testbit (mask w p) i = ((w - p <=? i) && (i <? w))%N.
Proof.
  intros Hp. unfold mask. destruct (N.eqb_spec p 0) as [->|Hp0].
  { rewrite N.bits_0. symmetry. apply andb_false_iff. destruct (N.leb_spec (w - 0) i); [right|by left].
    apply N.ltb_ge. lia. }
  destruct (N.ltb_spec i w) as [Hi|Hi].
  - rewrite N.mod_pow2_bits_low by done. rewrite andb_true_r. destruct (N.leb_spec (w - p) i) as [Hs|Hs].
    + rewrite N.shiftl_spec_high' by done. rewrite N.sub_1_r, <-N.ones_equiv. apply N.ones_spec_low. lia.
    + by rewrite N.shiftl_spec_low.
  - rewrite N.mod_pow2_bits_high by done. by rewrite andb_false_r.
Qed.

Lemma masked_eq w p a b : (p ≤ w)%N → (a < 2 ^ w)%N → (b < 2 ^ w)%N →
  (N.land a (mask w p) =? N.land b (mask w p))%N = (N.shiftr a (w - p) =? N.shiftr b (w - p))%N.
Proof.
  intros Hp Ha Hb. apply eq_bool_prop_intro. rewrite !Is_true_true, !N.eqb_eq. split; intros Heq; apply N.bits_inj; intros i.
  - rewrite !N.shiftr_spec'. apply (f_equal (λ n, N.testbit n (i + (w - p)))) in Heq.
    rewrite !N.land_spec, mask_testbit in Heq by done.
    destruct (N.ltb_spec (i + (w - p)) w) as [Hi|Hi].
    + rewrite (proj2 (N.leb_le _ _)), !andb_true_r in Heq by lia. done.
    + assert (∀ x, (x < 2 ^ w)%N → N.testbit x (i + (w - p)) = false) as Hhigh.
      { intros x Hx. destruct (N.eq_dec x 0%N) as [->|]; [apply N.bits_0|]. apply N.bits_above_log2.
        apply N.log2_lt_pow2 in Hx; lia. }
      by rewrite !Hhigh.
  - rewrite !N.land_spec, mask_testbit by done. destruct (N.leb_spec (w - p) i) as [Hi|Hi]; [|by rewrite !andb_false_r].
    apply (f_equal (λ n, N.testbit n (i - (w - p)))) in Heq. rewrite !N.shiftr_spec' in Heq.
    replace (i - (w - p) + (w - p))%N with i in Heq by lia. by rewrite Heq.
Qed.

(** An address belongs to a network iff they have the prefix's leading bits in common. *)
Lemma contains_v4 n p a : (p ≤ 32)%N → (n < 2 ^ 32)%N → (a < 2 ^ 32)%N →
  contains (mkCidr (V4 n) p) (V4 a) = (N.shiftr n (32 - p) =? N.shiftr a (32 - p))%N.
Proof. apply masked_eq. Qed.
Lemma contains_v6 n p a : (p ≤ 128)%N → (n < 2 ^ 128)%N → (a < 2 ^ 128)%N →
  contains (mkCidr (V6 n) p) (V6 a) = (N.shiftr n (128 - p) =? N.shiftr a (128 - p))%N.
Proof. apply masked_eq. Qed.

(** ** What a client can influence *)

(** The elements of the values of a header. *)
Definition elements (values : list string) : list string := concat (map (str_split ",") values).

Lemma mapM_res_nested {A B E} (f : A → result E B) (ls : list (list A)) :
  (λ bs, concat bs) <$> mapM_res (mapM_res f) ls = mapM_res f (concat ls).
Proof.
  induction ls as [|l ls IH]; [done|]. cbn [concat mapM_res].
  assert (∀ l2, mapM_res f (l ++ l2) = (bs ← mapM_res f l; bs2 ← mapM_res f l2; Ok (bs ++ bs2))) as Happ.
  { intros l2. induction l as [|a l IHl]; simpl.
    - by destruct (mapM_res f l2).
    - destruct (f a); [|done]. simpl. rewrite IHl. destruct (mapM_res f l); [|done]. simpl. by destruct (mapM_res f l2). }
  rewrite Happ, <-IH. destruct (mapM_res f l); [|done]. simpl. by destruct (mapM_res (mapM_res f) ls).
Qed.

Lemma elements_nonempty values : values ≠ [] → elements values ≠ [].
Proof.
  destruct values as [|v values]; [done|]. intros _. unfold elements. simpl. intros [Hv _]%app_eq_nil.
  destruct v as [|a v]; [done|]. simpl in Hv. case_decide; [done|]. by destruct (str_split "," v).
Qed.

Lemma header_chain_elements element values : values ≠ [] →
  header_chain element (map Some values) = Some <$> mapM_res element (elements values).
Proof.
  intros Hne. unfold header_chain, elements.
  assert (mapM_res (λ value, value ← ok_or value tt; mapM_res element (str_split "," value)) (map Some values)
          = mapM_res (mapM_res element) (map (str_split ",") values)) as ->.
  { clear Hne. induction values as [|v values IH]; [done|]. simpl. by rewrite IH. }
  rewrite <-mapM_res_nested. destruct (mapM_res (mapM_res element) (map (str_split ",") values)) as [chains|] eqn:Hc; [|done].
  simpl. rewrite bool_decide_eq_false_2; [done|]. intros Hnil. apply (elements_nonempty values Hne). unfold elements.
  apply mapM_res_Ok in Hc. revert Hc Hnil. generalize (map (str_split ",") values). intros ls Hc.
  induction Hc as [|l bs ls chains Hl _ IH]; [done|]. simpl. intros [-> Hnil]%app_eq_nil. rewrite (IH Hnil), app_nil_r.
  apply mapM_res_Ok in Hl. by apply Forall2_nil_inv_r in Hl.
Qed.

(** The last untrusted address is found whatever stands before it. *)
Lemma find_last_untrusted trusted pre client mids peer :
  is_trusted trusted client = false → Forall (λ a, is_trusted trusted a = true) mids →
  default peer (snd <$> list_find (λ address, is_trusted trusted address = false) (rev (pre ++ client :: mids))) = client.
Proof.
  intros Hc Hm. rewrite rev_app_distr. simpl. rewrite <-!app_assoc. simpl. apply Forall_rev in Hm.
  induction Hm as [|a l Ha _ IH]; simpl.
  - by rewrite decide_True.
  - rewrite decide_False by congruence. destruct (list_find _ _) as [[]|]; done.
Qed.

Lemma resolve_untrusted_peer trusted peer headers : is_trusted trusted peer = false → resolve trusted peer headers = peer.
Proof. unfold resolve. by intros ->. Qed.

(** A client cannot choose its address: headers of a peer that is not a trusted proxy have
    no effect; and when the elements of the X-Forwarded-For values end with the client's address,
    as its first trusted proxy saw it, and the addresses of further trusted proxies, then
    whatever the client wrote before them the result is that address, or the peer when an
    element is malformed. *)
Theorem client_ip_not_spoofable trusted peer values pre client_text client mid_texts mids :
  elements values = pre ++ client_text :: mid_texts →
  x_forwarded_element client_text = Ok client → is_trusted trusted client = false →
  mapM_res x_forwarded_element mid_texts = Ok mids → Forall (λ a, is_trusted trusted a = true) mids →
  let address := resolve trusted peer (mkHeaderMap [] (map Some values)) in
  (is_trusted trusted peer = false → ∀ headers, resolve trusted peer headers = peer) ∧
  (address = client ∨ address = peer) ∧
  (is_trusted trusted peer = true → is_ok (mapM_res x_forwarded_element pre) = true → address = client).
Proof.
  intros Hel Hclient Huntrusted Hmids Htrusted. cbn zeta. split; [intros ? headers; by apply resolve_untrusted_peer|].
  destruct (is_trusted trusted peer) eqn:Hpeer; last first.
  { rewrite resolve_untrusted_peer by done. by split; [right|]. }
  assert (values ≠ []) as Hne by (intros ->; by destruct pre).
  unfold resolve. rewrite Hpeer. cbn [negb]. unfold forwarded_chain. cbn [h_forwarded h_x_forwarded_for].
  destruct values as [|v values]; [done|]. cbn [map]. rewrite <-map_cons, header_chain_elements, Hel by done.
  destruct (mapM_res x_forwarded_element pre) as [pre_chain|e] eqn:Hpre.
  - assert (mapM_res x_forwarded_element (pre ++ client_text :: mid_texts) = Ok (pre_chain ++ client :: mids)) as ->.
    { apply mapM_res_Ok. apply mapM_res_Ok in Hpre, Hmids. apply Forall2_app; [done|]. by constructor. }
    simpl. rewrite find_last_untrusted by done. auto.
  - destruct (mapM_res x_forwarded_element (pre ++ client_text :: mid_texts)) as [l|] eqn:Hall; [|simpl; split; [by right|done]].
    apply mapM_res_Ok, Forall2_app_inv_l in Hall as (l1 & l2 & H1%mapM_res_Ok & _). by rewrite H1 in Hpre.
Qed.

(** ** Concrete requests *)
Definition demo_trusted : list TrustedProxyCidr := [mkCidr (V4 167772160) 8; mkCidr (V4 3232235520) 16].

(** Texts of networks and addresses. *)
Lemma demo_trusted_text :
  mapM_res cidr_from_str ["10.0.0.0/8"; "192.168.0.0/16"] = Ok demo_trusted ∧
  parse_ip "2001:db8::1:10.0.0.1" = Some (V6 42540766411282592856903984956116566017) ∧
  parse_ip "1.2.3.04" = None ∧ parse_ip "1:2:3:4:5:6:7:8:9" = None.
Proof. vm_compute. done. Qed.

Lemma client_ip_not_spoofable_witness :
  resolve demo_trusted (V4 167837955) (mkHeaderMap [] [Some "6.6.6.6"; Some "203.0.113.8, 192.168.1.4"]) = V4 3405803784.
Proof.
  refine (proj2 (proj2 (client_ip_not_spoofable demo_trusted (V4 167837955) ["6.6.6.6"; "203.0.113.8, 192.168.1.4"]
    ["6.6.6.6"] "203.0.113.8" (V4 3405803784) [" 192.168.1.4"] [V4 3232235780] _ _ _ _ _)) _ _);
    first [reflexivity|vm_compute; reflexivity|constructor; [reflexivity|constructor]].
Defined.

(** Behind a proxy that appends to X-Forwarded-For only, a client that sends a Forwarded
    header of its own chooses its address. *)
Theorem forwarded_header_spoofs :
  resolve demo_trusted (V4 167837955) (mkHeaderMap [Some "for=6.6.6.6"] [Some "203.0.113.8"]) = V4 101058054.
Proof. vm_compute. reflexivity. Qed.

(** A Flight request is resolved with the first value only, which the client wrote, where a
    proxy added its own as a further value. *)
Theorem flight_first_value_spoofs :
  resolve demo_trusted (V4 167837955) (mkHeaderMap [] [Some "6.6.6.6"; Some "203.0.113.8"]) = V4 3405803784 ∧
  resolve demo_trusted (V4 167837955) (proxy_headers (mkHeaderMap [] [Some "6.6.6.6"; Some "203.0.113.8"])) = V4 101058054.
Proof. vm_compute. done. Qed.
