(* ===== verification/Access.v ===== *)
(** * Authentication and authorization

    Models [teodb-core/src/validation.rs], [teodb-core/src/traits/authz.rs], the
    rule-based authorizer of [teodb-server/src/security/allow_list.rs], the
    authenticator and the JWT validator of [teodb-api/src/security], the request
    context and the admin guard of [teodb-api/src/http/common/security.rs] and
    the bearer extraction of [teodb-api/src/flight/trace.rs].  Decoding of a JWT
    and hashing are third-party functions; audit lines and counters are left
    out. *)

From S2P Require Import Prelude Core Decimal Location Json.
Open Scope nat_scope.
Open Scope list_scope.

(** ** Identifiers and page sizes *)
Definition MAX_IDENTIFIER_LEN : nat := 128.
Definition MAX_QUERY_LIMIT : N := 100000.
Definition DEFAULT_PAGE_SIZE : N := 100.
Definition MAX_PAGE_SIZE : N := 1000.

Definition is_ascii_alphabetic (c : ascii) : bool :=
  let n := N_of_ascii c in (((65 <=? n) && (n <=? 90)) || ((97 <=? n) && (n <=? 122)))%N.
Definition is_ascii_digit (c : ascii) : bool := let n := N_of_ascii c in ((48 <=? n) && (n <=? 57))%N.
Definition is_underscore (c : ascii) : bool := Ascii.eqb c "_".

Definition validate_identifier (kind value : string) : TeoDBResult unit :=
  match value with
  | EmptyString => Err (InvalidArgument kind "{kind} must not be empty")
  | String first _ =>
      _ ← reject_if (MAX_IDENTIFIER_LEN <? String.length value)
            (InvalidArgument kind "{kind} exceeds maximum length of {MAX_IDENTIFIER_LEN} characters");
      _ ← reject_if (negb (is_ascii_alphabetic first) && negb (is_underscore first))
            (InvalidArgument kind "{kind} must start with a letter or underscore, got '{}'");
      reject_if (negb (str_bytes_all (λ c, is_ascii_alphabetic c || is_ascii_digit c || is_underscore c) value))
        (InvalidArgument kind "{kind} contains invalid character '{bad}'")
  end.

Definition clamp (lo hi n : N) : N := if (n <? lo)%N then lo else if (hi <? n)%N then hi else n.
Definition clamp_page_size (requested : option N) : N := clamp 1 MAX_PAGE_SIZE (default DEFAULT_PAGE_SIZE requested).
Definition clamp_query_limit (requested : N) : N := clamp 1 MAX_QUERY_LIMIT requested.

(** ** Principals, actions, resources *)
Inductive Action := CreateTable | DropTable | AlterTable | Ingest | Query | Compact | Admin.
#[export] Instance Action_eq_dec : EqDecision Action.
Proof. solve_decision. Defined.
Inductive Resource := Cluster | Namespace (ns : string) | Table (ident : TableIdent).
#[export] Instance Resource_eq_dec : EqDecision Resource.
Proof. solve_decision. Defined.
Record Principal := mkPrincipal { subject : string; roles : list string; claims : gmap string string }.

(** The name of an action, as [Debug] prints it. *)
Definition action_debug (action : Action) : string :=
  match action with
  | CreateTable => "CreateTable" | DropTable => "DropTable" | AlterTable => "AlterTable" | Ingest => "Ingest"
  | Query => "Query" | Compact => "Compact" | Admin => "Admin"
  end.

(** ** The allow list *)
Record Rule := mkRule { r_role : string; r_action : string; r_resource : string; r_allow : bool }.

Definition matches_role (pattern : string) (principal : Principal) : bool :=
  if bool_decide (pattern = "*") then true
  else match str_strip_suffix "*" pattern with
       | Some prefix => existsb (str_starts_with prefix) (roles principal)
       | None => bool_decide (pattern ∈ roles principal)
       end.
Definition matches_action (pattern : string) (action : Action) : bool :=
  bool_decide (pattern = "*") || bool_decide (pattern = action_debug action).

(** [p == "*" || p == s || p.strip_suffix('*').is_some_and(|p| s.starts_with(p))]. *)
Definition name_matches (pattern name : string) : bool :=
  bool_decide (pattern = "*") || bool_decide (pattern = name)
  || match str_strip_suffix "*" pattern with Some prefix => str_starts_with prefix name | None => false end.
Definition pattern_argument (kind pattern : string) : option string :=
  str_strip_prefix (kind +:+ "(") pattern ≫= str_strip_suffix ")".

Definition matches_resource (pattern : string) (resource : Resource) : bool :=
  if bool_decide (pattern = "*") then true
  else
    match resource with
    | Cluster => bool_decide (pattern = "Cluster")
    | Namespace ns =>
        match pattern_argument "Namespace" pattern with
        | Some pat =>
            if bool_decide (pat = "*") then true
            else match str_strip_suffix "*" pat with
                 | Some prefix => str_starts_with prefix ns
                 | None => bool_decide (pat = ns)
                 end
        | None => false
        end
    | Table ident =>
        match pattern_argument "Table" pattern with
        | Some pat =>
            if bool_decide (pat = "*") then true
            else match split_once "." pat with
                 | Some (ns_pat, tbl_pat) => name_matches ns_pat (ti_namespace ident) && name_matches tbl_pat (ti_name ident)
                 | None => bool_decide (pat = fully_qualified ident)
                 end
        | None => false
        end
    end.

Definition rule_matches (principal : Principal) (action : Action) (resource : Resource) (rule : Rule) : bool :=
  matches_role (r_role rule) principal && matches_action (r_action rule) action && matches_resource (r_resource rule) resource.
Fixpoint authorize_rules (rules : list Rule) (principal : Principal) (action : Action) (resource : Resource)
    : TeoDBResult unit :=
  match rules with
  | [] => Err (Forbidden "{} is not authorized to {action:?} on {resource:?} (no matching rule)")
  | rule :: rules =>
      if rule_matches principal action resource rule then
        if r_allow rule then Ok tt else Err (Forbidden "{} is not authorized to {action:?} on {resource:?}")
      else authorize_rules rules principal action resource
  end.

(** [ApiAuthorization::authorize]: without an authorizer every action is allowed. *)
Definition Authorizer : Type := Principal → Action → Resource → TeoDBResult unit.
Definition api_authorize (authorizer : option Authorizer) (principal : Principal) (action : Action) (resource : Resource)
    : TeoDBResult unit :=
  match authorizer with Some authorize => authorize principal action resource | None => Ok tt end.

(** ** Tokens *)
Record TeoClaims := mkClaims { c_sub : string; c_exp : option N; c_roles : list string; c_extra : list (string * Json) }.
Record JwtValidatorConfig := mkJwtConfig {
  jc_issuer : option string; jc_audience : option string; jc_algorithms : list string; jc_require_exp : bool }.
Definition default_jwt_config : JwtValidatorConfig := mkJwtConfig None None ["RS256"; "ES256"] true.
(** What the code sets of [jsonwebtoken::Validation]. *)
Record Validation := mkValidation {
  v_algorithms : list string; v_issuer : option (list string); v_audience : option (list string);
  v_required_spec_claims : list string; v_validate_exp : bool }.
Inductive JwtError := ExpiredSignature | OtherJwtError.
Inductive JwtValidationFailure := JwtExpired | JwtInvalid | ValidatorUnavailable.

Class JwtLibrary := {
  DecodingKey : Type;
  (** [jsonwebtoken::decode]. *)
  jwt_decode : string → DecodingKey → Validation → result JwtError TeoClaims;
  (** [hex::encode(Sha256::digest(..))]. *)
  sha256_hex : string → string;
}.

Section auth.
Context `{JwtLibrary}.

Record JwtValidator := mkJwtValidator { jv_config : JwtValidatorConfig; jv_decoding_key : option DecodingKey }.

Definition validation_of (config : JwtValidatorConfig) : Validation :=
  mkValidation (jc_algorithms config) ((λ i, [i]) <$> jc_issuer config) ((λ a, [a]) <$> jc_audience config)
    ["sub"] (jc_require_exp config).
Definition extra_claims (extra : list (string * Json)) : gmap string string :=
  foldl (λ m '(k, v), match v with JString s => <[k := s]> m | _ => m end) ∅ extra.
Definition validate_classified (self : JwtValidator) (token : string) : result JwtValidationFailure Principal :=
  key ← ok_or (jv_decoding_key self) ValidatorUnavailable;
  claims ← map_err (λ error, match error with ExpiredSignature => JwtExpired | OtherJwtError => JwtInvalid end)
             (jwt_decode token key (validation_of (jv_config self)));
  Ok (mkPrincipal (c_sub claims) (c_roles claims) (extra_claims (c_extra claims))).
Definition into_error (failure : JwtValidationFailure) : TeoDBError :=
  match failure with
  | ValidatorUnavailable => Unavailable "JWT decoding key not configured"
  | JwtExpired | JwtInvalid => Unauthorized
  end.
Definition validate (self : JwtValidator) (token : string) : TeoDBResult Principal :=
  map_err into_error (validate_classified self token).

(** ** The authenticator *)
Record AuthenticatedRequest := mkAuthenticated { ar_principal : Principal; ar_bearer : option string }.
Definition anonymous_principal : Principal := mkPrincipal "anonymous" [] ∅.
Definition opaque_principal (token : string) : Principal := mkPrincipal ("bearer:" +:+ sha256_hex token) [] ∅.

Definition authenticate_bearer (validator : option JwtValidator) (bearer : option string) : TeoDBResult AuthenticatedRequest :=
  principal ← match bearer, validator with
              | None, Some _ => Err Unauthorized
              | None, None => Ok anonymous_principal
              | Some token, Some validator => validate validator token
              | Some token, None => Ok (opaque_principal token)
              end;
  Ok (mkAuthenticated principal bearer).
(** The authorization header: absent, or the text of its value, if it has one. *)
Definition authenticate_headers (validator : option JwtValidator) (authorization : option (option string))
    : TeoDBResult AuthenticatedRequest :=
  match authorization with
  | Some value =>
      match value ≫= str_strip_prefix "Bearer " with
      | Some token => if str_is_empty token then Err Unauthorized else authenticate_bearer validator (Some token)
      | None => Err Unauthorized
      end
  | None => authenticate_bearer validator None
  end.
(** The bearer token of a Flight request. *)
Definition extract_bearer_token (authorization : option (option string)) : option string :=
  mjoin authorization ≫= str_strip_prefix "Bearer ".

(** ** Requests to the admin surface *)
Definition constant_time_eq (a b : list N) : bool :=
  if (length a =? length b)%nat
  then (foldl (λ acc '(x, y), N.lor acc (N.lxor x y)) 0 (zip a b) =? 0)%N
  else false.
Definition as_bytes (s : string) : list N := map N_of_ascii (String.list_ascii_of_string s).

Record SecurityState := mkSecurity {
  ss_validator : option JwtValidator; ss_authorizer : option Authorizer; ss_admin_token : option string }.

Definition require_admin_token (state : SecurityState) (request : AuthenticatedRequest) : TeoDBResult unit :=
  match ss_admin_token state with
  | None => Ok tt
  | Some expected =>
      match ar_bearer request with
      | Some token => if constant_time_eq (as_bytes token) (as_bytes expected) then Ok tt else Err Unauthorized
      | None => Err Unauthorized
      end
  end.
(** [extension]: the request the rate limiter authenticated before. *)
Definition extract_context (state : SecurityState) (extension : option AuthenticatedRequest)
    (authorization : option (option string)) : TeoDBResult AuthenticatedRequest :=
  match extension with
  | Some authenticated => Ok authenticated
  | None => authenticate_headers (ss_validator state) authorization
  end.
(** [Ok] when the inner service runs. *)
Definition admin_guard (state : SecurityState) (extension : option AuthenticatedRequest)
    (authorization : option (option string)) : TeoDBResult AuthenticatedRequest :=
  ctx ← extract_context state extension authorization;
  _ ← require_admin_token state ctx;
  _ ← api_authorize (ss_authorizer state) (ar_principal ctx) Admin Cluster;
  Ok ctx.
End auth.

(** ** The policy a rule list stands for *)

(** Names, exactly, by a prefix, or all of them. *)
Inductive Glob := GAny | GPrefix (p : string) | GExact (s : string).
Definition glob_text (g : Glob) : string :=
  match g with GAny => "*" | GPrefix p => p +:+ "*" | GExact s => s end.
Definition glob_ok (g : Glob) : bool :=
  match g with GAny => true | GPrefix p => negb (str_is_empty p) | GExact s => negb (str_ends_with "*" s) end.
Definition glob_matches (g : Glob) (name : string) : bool :=
  match g with GAny => true | GPrefix p => str_starts_with p name | GExact s => bool_decide (s = name) end.

Inductive Scope := EveryResource | TheCluster | Namespaces (g : Glob) | AllTables | Tables (ns t : Glob).
Definition scope_text (s : Scope) : string :=
  match s with
  | EveryResource => "*"
  | TheCluster => "Cluster"
  | Namespaces g => "Namespace(" +:+ glob_text g +:+ ")"
  | AllTables => "Table(*)"
  | Tables ns t => "Table(" +:+ (glob_text ns +:+ "." +:+ glob_text t) +:+ ")"
  end.
Definition scope_ok (s : Scope) : bool :=
  match s with
  | Namespaces g => glob_ok g
  | Tables ns t => glob_ok ns && glob_ok t && str_free "." (glob_text ns)
  | _ => true
  end.
Definition scope_matches (s : Scope) (resource : Resource) : bool :=
  match s, resource with
  | EveryResource, _ => true
  | TheCluster, Cluster => true
  | Namespaces g, Namespace ns => glob_matches g ns
  | AllTables, Table _ => true
  | Tables ns t, Table ident => glob_matches ns (ti_namespace ident) && glob_matches t (ti_name ident)
  | _, _ => false
  end.

Record PolicyRule := mkPolicyRule { p_role : Glob; p_action : option Action; p_scope : Scope; p_allow : bool }.
Definition rule_text (r : PolicyRule) : Rule :=
  mkRule (glob_text (p_role r)) (match p_action r with Some a => action_debug a | None => "*" end)
    (scope_text (p_scope r)) (p_allow r).
Definition policy_rule_ok (r : PolicyRule) : bool := glob_ok (p_role r) && scope_ok (p_scope r).
Definition role_matches (g : Glob) (principal : Principal) : bool :=
  match g with GAny => true | _ => existsb (glob_matches g) (roles principal) end.
Definition policy_applies (principal : Principal) (action : Action) (resource : Resource) (r : PolicyRule) : bool :=
  role_matches (p_role r) principal
  && match p_action r with Some a => bool_decide (a = action) | None => true end
  && scope_matches (p_scope r) resource.
(** The first rule that applies decides; without one access is denied. *)
Definition policy_allows (rules : list PolicyRule) (principal : Principal) (action : Action) (resource : Resource) : bool :=
  default false (p_allow <$> head (filter (λ r, policy_applies principal action resource r = true) rules)).

Lemma strip_suffix_glob p : str_strip_suffix "*" (p +:+ "*") = Some p.
Proof. apply str_strip_suffix_app. Qed.
Lemma exact_no_star s : str_ends_with "*" s = false → str_strip_suffix "*" s = None ∧ s ≠ "*".
Proof.
  unfold str_ends_with, str_strip_suffix. intros Hs. split; [by destruct (str_strip_prefix _ (str_rev s))|].
  by intros ->.
Qed.
Lemma glob_star g : glob_ok g = true → glob_text g = "*" → g = GAny.
Proof.
  destruct g as [|p|s]; simpl; intros Hok Heq; [done| |].
  - destruct p as [|a p]; [done|]. rewrite str_app_cons in Heq. injection Heq as _ Heq. by destruct p.
  - apply negb_true_iff, exact_no_star in Hok as [_ ?]. done.
Qed.

Lemma name_matches_glob g name : glob_ok g = true → name_matches (glob_text g) name = glob_matches g name.
Proof.
  intros Hok. unfold name_matches. destruct g as [|p|s]; simpl in *; [done| |].
  - rewrite strip_suffix_glob. rewrite bool_decide_eq_false_2 by (intros Heq; by apply (glob_star (GPrefix p) Hok) in Heq).
    simpl. case_bool_decide as Heq; [|done]. subst. simpl. symmetry. apply str_starts_with_app.
  - apply negb_true_iff, exact_no_star in Hok as [-> Hne]. by rewrite bool_decide_eq_false_2, orb_false_r.
Qed.

Lemma pattern_argument_text kind body : pattern_argument kind ((kind +:+ "(") +:+ body +:+ ")") = Some body.
Proof.
  unfold pattern_argument. rewrite (proj2 (str_strip_prefix_Some _ _ _) eq_refl). simpl. apply str_strip_suffix_app.
Qed.

Lemma star_eq_glob g {A} (x y : A) : glob_ok g = true →
  (if bool_decide (glob_text g = "*") then x else y) = match g with GAny => x | _ => y end.
Proof.
  intros Hok. case_bool_decide as Heq; [by rewrite (glob_star g Hok Heq)|]. by destruct g.
Qed.
Lemma matches_role_glob g principal : glob_ok g = true → matches_role (glob_text g) principal = role_matches g principal.
Proof.
  intros Hok. unfold matches_role. rewrite star_eq_glob by done. destruct g as [|p|s]; simpl in *; [done| |].
  - by rewrite strip_suffix_glob.
  - apply negb_true_iff, exact_no_star in Hok as [-> _]. apply eq_bool_prop_intro. rewrite !Is_true_true.
    rewrite bool_decide_eq_true, existsb_exists. split.
    + intros Hin. exists s. split; [by apply list_elem_of_In|by apply bool_decide_eq_true].
    + intros (r & Hin%list_elem_of_In & ->%bool_decide_eq_true). done.
Qed.

Lemma matches_resource_scope s resource : scope_ok s = true →
  matches_resource (scope_text s) resource = scope_matches s resource.
Proof.
  intros Hok. destruct s as [| |g| |gn gt]; destruct resource as [|ns|ident]; simpl scope_text; try reflexivity; simpl in Hok.
  - change ("Namespace(" +:+ glob_text g +:+ ")") with (("Namespace" +:+ "(") +:+ glob_text g +:+ ")").
    unfold matches_resource. rewrite pattern_argument_text. simpl. rewrite star_eq_glob by done.
    destruct g as [|p|s]; simpl in *; [done|by rewrite strip_suffix_glob|].
    by apply negb_true_iff, exact_no_star in Hok as [-> _].
  - apply andb_true_iff in Hok as [[Hn Ht]%andb_true_iff Hfree].
    change ("Table(" +:+ (glob_text gn +:+ "." +:+ glob_text gt) +:+ ")")
      with (("Table" +:+ "(") +:+ (glob_text gn +:+ "." +:+ glob_text gt) +:+ ")").
    unfold matches_resource. rewrite pattern_argument_text. rewrite bool_decide_eq_false_2 by done.
    assert (split_once "." (glob_text gn +:+ "." +:+ glob_text gt) = Some (glob_text gn, glob_text gt)) as ->.
    { by apply split_once_Some. }
    rewrite bool_decide_eq_false_2; [by rewrite !name_matches_glob|].
    intros Heq%(f_equal (split_once ".")). assert (split_once "." (glob_text gn +:+ "." +:+ glob_text gt) = Some (glob_text gn, glob_text gt)) as Hs.
    { by apply split_once_Some. } by rewrite Hs in Heq.
Qed.

Lemma rule_matches_policy principal action resource r : policy_rule_ok r = true →
  rule_matches principal action resource (rule_text r) = policy_applies principal action resource r.
Proof.
  intros [Hr Hs]%andb_true_iff. unfold rule_matches, policy_applies, rule_text. simpl.
  rewrite matches_role_glob, matches_resource_scope by done. f_equal. f_equal.
  unfold matches_action. destruct (p_action r) as [a|]; [|done].
  destruct a, action; vm_compute; reflexivity.
Qed.


Definition demo_policy : list PolicyRule :=
  [mkPolicyRule (GExact "auditor") (Some Ingest) EveryResource false;
   mkPolicyRule (GPrefix "ops_") None EveryResource true;
   mkPolicyRule GAny (Some Query) (Tables GAny (GExact "events")) true].


(** A broad rule listed first decides also where a more specific rule follows. *)
Theorem broad_rule_shadows_specific :
  authorize_rules [mkRule "*" "*" "*" true; mkRule "*" "Admin" "Cluster" false] (mkPrincipal "u" [] ∅) Admin Cluster = Ok tt.
Proof. vm_compute. reflexivity. Qed.

(** ** Names that pass validation are plain pattern names *)
Definition ident_char (c : ascii) : bool := is_ascii_alphabetic c || is_ascii_digit c || is_underscore c.
Lemma validate_identifier_Ok kind value : validate_identifier kind value = Ok tt ↔
  (∃ c rest, value = String c rest ∧ is_ascii_digit c = false) ∧ String.length value ≤ 128 ∧ str_bytes_all ident_char value = true.
Proof.
  unfold validate_identifier. destruct value as [|c rest]; [split; [done|intros [(?&?&?&_) _]; done]|].
  assert (is_ascii_digit c = true → is_ascii_alphabetic c = false ∧ is_underscore c = false) as Hdigit.
  { unfold is_ascii_digit, is_ascii_alphabetic, is_underscore. rewrite andb_true_iff, !N.leb_le. intros [Hlo Hhi]. split.
    - apply orb_false_iff; split; apply andb_false_iff; rewrite !N.leb_gt; lia.
    - destruct (Ascii.eqb_spec c "_") as [->|]; [|done]. vm_compute in Hhi. by destruct Hhi. }
  unfold reject_if, MAX_IDENTIFIER_LEN.
  destruct (Nat.ltb_spec 128 (String.length (String c rest))); [split; [done|lia]|]. cbn [mbind result_bind].
  change (str_bytes_all (λ c, is_ascii_alphabetic c || is_ascii_digit c || is_underscore c) (String c rest))
    with (str_bytes_all ident_char (String c rest)).
  destruct (str_bytes_all ident_char (String c rest)) eqn:Hall; last first.
  { split; [|by intros (_ & _ & ?)]. by destruct (_ && _). }
  assert (ident_char c = true) as Hc by (simpl in Hall; by apply andb_true_iff in Hall as [? _]).
  unfold ident_char in Hc. destruct (is_ascii_digit c) eqn:Hd.
  - destruct (Hdigit eq_refl) as [-> ->]. simpl. split; [done|]. intros ((c' & r' & [= <- <-] & Hd') & _). congruence.
  - rewrite orb_false_r in Hc. split; [|by destruct (is_ascii_alphabetic c), (is_underscore c)].
    intros _. split_and!; [by exists c, rest|lia|done].
Qed.

Lemma ident_free c s : ident_char c = false → str_bytes_all ident_char s = true → str_free c s = true.
Proof.
  intros Hc. induction s as [|a s IH]; [done|]. simpl. intros [Ha Hs]%andb_true_iff. apply str_free_cons.
  split; [congruence|by apply IH].
Qed.
Lemma valid_name_exact kind s : validate_identifier kind s = Ok tt → glob_ok (GExact s) = true ∧ str_free "." s = true.
Proof.
  intros (_ & _ & Hall)%validate_identifier_Ok. split; [|by apply ident_free].
  simpl. apply negb_true_iff. unfold str_ends_with. destruct (str_strip_suffix "*" s) as [r|] eqn:Hs; [|done].
  exfalso. assert (str_free "*" s = true) as Hf by (by apply ident_free). unfold str_strip_suffix in Hs.
  destruct (str_strip_prefix (str_rev "*") (str_rev s)) as [q|] eqn:Hq; [|done].
  apply str_strip_prefix_Some in Hq. apply (f_equal str_rev) in Hq. rewrite str_rev_involutive, str_rev_append in Hq.
  rewrite Hq, str_free_app in Hf. by rewrite andb_false_r in Hf.
Qed.

(** ** The admin surface *)
Lemma constant_time_eq_true a b : constant_time_eq a b = true ↔ a = b.
Proof.
  unfold constant_time_eq. assert (∀ a b acc, length a = length b →
    foldl (λ acc '(x, y), N.lor acc (N.lxor x y)) acc (zip a b) = 0%N ↔ acc = 0%N ∧ a = b) as Hfold.
  { clear. induction a as [|x a IH]; intros [|y b] acc Hlen; try done; [by simpl; split; [|intros [? _]]|].
    simpl in *. injection Hlen as Hlen. rewrite IH by done. rewrite N.lor_eq_0_iff, N.lxor_eq_0_iff. naive_solver. }
  destruct (Nat.eqb_spec (length a) (length b)) as [Hlen|Hlen]; [|by split; [|intros ->]].
  rewrite N.eqb_eq, Hfold by done. naive_solver.
Qed.
Lemma as_bytes_inj s t : as_bytes s = as_bytes t → s = t.
Proof.
  unfold as_bytes. intros Heq. assert (Inj (=) (=) N_of_ascii).
  { intros x y Hxy%(f_equal ascii_of_N). by rewrite !ascii_N_embedding in Hxy. }
  apply (inj (map N_of_ascii)) in Heq. apply (f_equal String.string_of_list_ascii) in Heq.
  by rewrite !String.string_of_list_ascii_of_string in Heq.
Qed.

Section guard.
Context `{JwtLibrary}.

Lemma require_admin_token_Ok state request : require_admin_token state request = Ok tt ↔
  ∀ token, ss_admin_token state = Some token → ar_bearer request = Some token.
Proof.
  unfold require_admin_token. destruct (ss_admin_token state) as [expected|]; [|split; [done|by intros _]].
  destruct (ar_bearer request) as [token|]; [|split; [done|intros Hall; by specialize (Hall _ eq_refl)]].
  destruct (constant_time_eq (as_bytes token) (as_bytes expected)) eqn:Heq.
  - apply constant_time_eq_true, as_bytes_inj in Heq as ->. split; [intros _ t [= ->]; done|done].
  - split; [done|]. intros Hall. specialize (Hall _ eq_refl). injection Hall as ->.
    by rewrite (proj2 (constant_time_eq_true _ _) eq_refl) in Heq.
Qed.

(** A request reaches the admin surface iff it authenticates (with a valid token when a
    validator is configured), presents exactly the admin token when one is configured, and the
    authorizer, when one is configured, grants it administration of the cluster. *)
Theorem admin_guard_exact state extension authorization ctx :
  admin_guard state extension authorization = Ok ctx ↔
  extract_context state extension authorization = Ok ctx ∧
  (∀ token, ss_admin_token state = Some token → ar_bearer ctx = Some token) ∧
  (∀ authorize, ss_authorizer state = Some authorize → authorize (ar_principal ctx) Admin Cluster = Ok tt).
Proof.
  unfold admin_guard. rewrite <-require_admin_token_Ok. destruct (extract_context state extension authorization) as [c|e]; [|by split; [|intros []]].
  cbn [mbind result_bind]. destruct (require_admin_token state c) as [[]|e] eqn:Ht; cbn [mbind result_bind]; last first.
  { split; [done|]. intros ([= <-] & Hr & _). congruence. }
  unfold api_authorize. destruct (ss_authorizer state) as [authorize|]; cbn [mbind result_bind].
  - destruct (authorize (ar_principal c) Admin Cluster) as [[]|e] eqn:Ha; cbn [mbind result_bind].
    + split; [intros [= <-]; split_and!; [done|done|by intros ? [= <-]]|by intros ([= <-] & _)].
    + split; [done|]. intros ([= <-] & _ & Hall). specialize (Hall _ eq_refl). congruence.
  - split; [intros [= <-]; by split_and!|by intros ([= <-] & _)].
Qed.

(** The bearer of an authenticated request is the token of its header, accepted by the
    validator if there is one. *)
Lemma authenticate_headers_bearer validator authorization ctx :
  authenticate_headers validator authorization = Ok ctx →
  match ar_bearer ctx, validator with
  | Some token, Some v => validate v token = Ok (ar_principal ctx) ∧ authorization = Some (Some ("Bearer " +:+ token))
  | Some token, None => ar_principal ctx = opaque_principal token
  | None, v => v = None ∧ ar_principal ctx = anonymous_principal
  end.
Proof.
  unfold authenticate_headers, authenticate_bearer. destruct authorization as [value|].
  - destruct (value ≫= str_strip_prefix "Bearer ") as [token|] eqn:Hv; [|done]. destruct (str_is_empty token); [done|].
    destruct validator as [v|]; [|by intros [= <-]]. intros (p & Hp & [= <-])%bind_Ok. simpl. split; [done|].
    destruct value as [value|]; [|done]. cbn [mbind option_bind] in Hv. by apply str_strip_prefix_Some in Hv as ->.
  - destruct validator; [done|]. by intros [= <-].
Qed.

(** With a validator, an admin token that is no valid token itself locks the admin surface. *)
Theorem admin_token_locks_out state v token e authorization ctx :
  ss_validator state = Some v → ss_admin_token state = Some token → validate v token = Err e →
  admin_guard state None authorization ≠ Ok ctx.
Proof.
  intros Hv Ht Hinv (c & Hctx & ([] & Htok & ([] & _ & [= ->])%bind_Ok)%bind_Ok)%bind_Ok.
  pose proof (proj1 (require_admin_token_Ok _ _) Htok _ Ht) as Hb. clear Htok. rename Hb into Htok.
  simpl in Hctx. rewrite Hv in Hctx. apply authenticate_headers_bearer in Hctx. rewrite Htok in Hctx.
  destruct Hctx as [Hok _]. congruence.
Qed.

(** No configuration lists the expiry among the claims a token must have. *)
Theorem expiry_not_required config : v_required_spec_claims (validation_of config) = ["sub"].
Proof. reflexivity. Qed.

(** REST refuses an authorization header that is not a bearer token; Flight ignores it. *)
Theorem malformed_authorization_differs value : str_strip_prefix "Bearer " value = None →
  authenticate_headers None (Some (Some value)) = Err Unauthorized ∧
  authenticate_bearer None (extract_bearer_token (Some (Some value))) = Ok (mkAuthenticated anonymous_principal None).
Proof. intros Hv. unfold authenticate_headers, extract_bearer_token. cbn [mjoin mbind option_join option_bind]. by rewrite Hv. Qed.
End guard.
