(* ===== verification/Admission.v ===== *)
(** * Admission of requests

    Models [teodb-api/src/admission.rs] (the fixed-window rate registry and the
    registry of per-principal semaphores), the rate-limit middleware of
    [teodb-api/src/http/middleware/rate_limit.rs] and the Flight counterpart in
    [flight/auth.rs] and [flight/server.rs].  Instants and durations are
    nanoseconds.  The hash that picks an overflow stripe is unspecified by the
    standard library and is an argument. *)

From S2P Require Import Prelude Core Decimal Location Json ClientIp Access.
Open Scope nat_scope.
Open Scope list_scope.

Definition OVERFLOW_STRIPES : nat := 64.
Inductive RateScope := Public | Read | Write.
#[export] Instance RateScope_eq_dec : EqDecision RateScope.
Proof. solve_decision. Defined.

(** ** The rate registry *)
Record WindowState := mkWindow { started : N; count : N }.
Record RateRegistry := mkRates {
  windows : gmap string WindowState; overflow : list WindowState; max_keys : N; window : N }.

Definition rates_new (max_keys window now : N) : RateRegistry :=
  mkRates ∅ (replicate OVERFLOW_STRIPES (mkWindow now 0)) max_keys window.

(** [Instant::duration_since] is zero for a later argument. *)
Definition duration_since (now earlier : N) : N := (now - earlier)%N.

Definition check_window (state : WindowState) (limit window now : N) : WindowState * result N unit :=
  let state := if (window <=? duration_since now (started state))%N then mkWindow now 0 else state in
  if (limit <=? count state)%N then (state, Err (window - duration_since now (started state))%N)
  else (mkWindow (started state) (N.min (count state + 1) u32_max), Ok tt).

Section rates.
Context (hash : string → N).

Definition stable_index (key : string) (len : nat) : nat := N.to_nat (hash key mod N.of_nat len).

Definition live_window (window now : N) (e : string * WindowState) : Prop :=
  (duration_since now (started e.2) < window)%N.
#[export] Instance live_window_dec window now e : Decision (live_window window now e).
Proof. unfold live_window. apply _. Defined.

(** The stripe is below the length of [overflow], so indexing does not panic. *)
Definition check (r : RateRegistry) (key : string) (limit now : N) : RateRegistry * result N unit :=
  let ws := filter (live_window (window r) now) (windows r) in
  match ws !! key with
  | Some state =>
      let '(state, res) := check_window state limit (window r) now in
      (mkRates (<[key := state]> ws) (overflow r) (max_keys r) (window r), res)
  | None =>
      if (N.of_nat (size ws) <? max_keys r)%N
      then (mkRates (<[key := mkWindow now 1]> ws) (overflow r) (max_keys r) (window r), Ok tt)
      else
        let stripe := stable_index key (length (overflow r)) in
        let '(state, res) := check_window (nth stripe (overflow r) (mkWindow 0 0)) limit (window r) now in
        (mkRates ws (<[stripe := state]> (overflow r)) (max_keys r) (window r), res)
  end.
End rates.

(** ** Semaphores of principals

    A semaphore is tracked under a key, by a number of its own, or is one of the overflow
    stripes.  [pr_handles] are the references an acquisition holds between picking its
    semaphore and taking the permit, [pr_permits] the permits taken, each with the key of its
    principal; a tracked semaphore is alive while one of them refers to it. *)
Inductive SemRef := Tracked (id : N) | OverflowStripe (stripe : nat).
#[export] Instance SemRef_eq_dec : EqDecision SemRef.
Proof. solve_decision. Defined.
Record PrincipalRegistry := mkPrincipals {
  pr_entries : gmap string N; pr_handles : list (string * SemRef); pr_permits : list (string * SemRef);
  pr_next : N; pr_max_entries : N; pr_max_permits : nat }.

Definition principals_new (max_entries : N) (permits : nat) : PrincipalRegistry :=
  mkPrincipals ∅ [] [] 0 max_entries permits.

Definition refers (sem : SemRef) (e : string * SemRef) : bool := bool_decide (e.2 = sem).
Definition count_of (sem : SemRef) (l : list (string * SemRef)) : nat := length (List.filter (refers sem) l).
Definition strong_count (s : PrincipalRegistry) (id : N) : nat := count_of (Tracked id) (pr_handles s ++ pr_permits s).
Definition alive (s : PrincipalRegistry) (e : string * N) : Prop := 0 < strong_count s e.2.
#[export] Instance alive_dec s e : Decision (alive s e).
Proof. unfold alive. apply _. Defined.

Section principals.
Context (hash : string → N).

(** [acquire] under the lock: the semaphore the key is admitted by. *)
Definition acquire_select (s : PrincipalRegistry) (key : string) : PrincipalRegistry :=
  let existing := match pr_entries s !! key with
                  | Some id => if (0 <? strong_count s id)%nat then Some id else None
                  | None => None
                  end in
  match existing with
  | Some id =>
      mkPrincipals (pr_entries s) ((key, Tracked id) :: pr_handles s) (pr_permits s) (pr_next s) (pr_max_entries s) (pr_max_permits s)
  | None =>
      let entries := filter (alive s) (delete key (pr_entries s)) in
      if (N.of_nat (size entries) <? pr_max_entries s)%N
      then mkPrincipals (<[key := pr_next s]> entries) ((key, Tracked (pr_next s)) :: pr_handles s) (pr_permits s)
             (pr_next s + 1) (pr_max_entries s) (pr_max_permits s)
      else mkPrincipals entries ((key, OverflowStripe (stable_index hash key OVERFLOW_STRIPES)) :: pr_handles s) (pr_permits s)
             (pr_next s) (pr_max_entries s) (pr_max_permits s)
  end.

(** [try_acquire_owned] of the [n]-th reference, which is given up in any case. *)
Definition acquire_try (s : PrincipalRegistry) (n : nat) : PrincipalRegistry * option (string * SemRef) :=
  match pr_handles s !! n with
  | None => (s, None)
  | Some (key, sem) =>
      let handles := delete n (pr_handles s) in
      if (count_of sem (pr_permits s) <? pr_max_permits s)%nat
      then (mkPrincipals (pr_entries s) handles ((key, sem) :: pr_permits s) (pr_next s) (pr_max_entries s) (pr_max_permits s),
            Some (key, sem))
      else (mkPrincipals (pr_entries s) handles (pr_permits s) (pr_next s) (pr_max_entries s) (pr_max_permits s), None)
  end.
Definition acquire (s : PrincipalRegistry) (key : string) : PrincipalRegistry * option (string * SemRef) :=
  acquire_try (acquire_select s key) 0.
(** The [n]-th permit is dropped. *)
Definition release_permit (s : PrincipalRegistry) (n : nat) : PrincipalRegistry :=
  mkPrincipals (pr_entries s) (pr_handles s) (delete n (pr_permits s)) (pr_next s) (pr_max_entries s) (pr_max_permits s).
End principals.

(** ** Texts of addresses *)
Definition hex_lower (d : N) : ascii := if (d <? 10)%N then ascii_of_N (48 + d) else ascii_of_N (87 + d).
Fixpoint hex_digits (fuel : nat) (n : N) (acc : string) : string :=
  match fuel with
  | O => acc
  | S fuel => let acc := String (hex_lower (n mod 16)) acc in if (n <? 16)%N then acc else hex_digits fuel (n / 16) acc
  end.
(** [{:x}] of a 16-bit number. *)
Definition hex_text (n : N) : string := hex_digits 4 n "".
Definition v4_text (a : N) : string :=
  str_join "." (map (λ i, pretty (N.shiftr a i mod 256)%N) [24; 16; 8; 0]%N).
Definition v6_segments (a : N) : list N := map (λ i, (N.shiftr a i mod 65536)%N) [112; 96; 80; 64; 48; 32; 16; 0]%N.
(** The longest run of zero segments, the first of them: its start and length. *)
Fixpoint zero_span (segments : list N) (i : nat) (current longest : nat * nat) : nat * nat :=
  match segments with
  | [] => longest
  | s :: segments =>
      if (s =? 0)%N then
        let current := ((if (snd current =? 0)%nat then i else fst current), S (snd current)) in
        zero_span segments (S i) current (if (snd longest <? snd current)%nat then current else longest)
      else zero_span segments (S i) (0, 0) longest
  end.
Definition v6_text (a : N) : string :=
  let segments := v6_segments a in
  if (N.shiftr a 32 =? 65535)%N then "::ffff:" +:+ v4_text (a mod 4294967296)
  else
    let '(start, len) := zero_span segments 0 (0, 0) (0, 0) in
    if (1 <? len)%nat
    then str_join ":" (map hex_text (take start segments)) +:+ "::" +:+ str_join ":" (map hex_text (drop (start + len) segments))
    else str_join ":" (map hex_text segments).
Definition ip_text (a : IpAddr) : string := match a with V4 a => v4_text a | V6 a => v6_text a end.

(** ** The middleware *)
Record ApiAdmission := mkAdmission {
  ad_rates : RateRegistry; ad_principals : PrincipalRegistry; ad_resolver : list TrustedProxyCidr;
  ad_read_limit : N; ad_write_limit : N; ad_public_limit : N }.
Definition with_rates (a : ApiAdmission) (rates : RateRegistry) : ApiAdmission :=
  mkAdmission rates (ad_principals a) (ad_resolver a) (ad_read_limit a) (ad_write_limit a) (ad_public_limit a).
Definition with_principals (a : ApiAdmission) (principals : PrincipalRegistry) : ApiAdmission :=
  mkAdmission (ad_rates a) principals (ad_resolver a) (ad_read_limit a) (ad_write_limit a) (ad_public_limit a).

Section layer.
Context `{JwtLibrary} (hash : string → N).

Definition client_ip (self : ApiAdmission) (peer : IpAddr) (headers : HeaderMap) : IpAddr := resolve (ad_resolver self) peer headers.
Definition scope_limit (self : ApiAdmission) (scope : RateScope) : N :=
  match scope with Public => ad_public_limit self | Read => ad_read_limit self | Write => ad_write_limit self end.
Definition check_rate (self : ApiAdmission) (scope : RateScope) (key : string) (now : N) : ApiAdmission * result N unit :=
  let '(rates, res) := check hash (ad_rates self) key (scope_limit self scope) now in (with_rates self rates, res).
Definition principal_key (subject : string) : string := sha256_hex subject.
Definition acquire_principal (self : ApiAdmission) (subject : string) : ApiAdmission * option (string * SemRef) :=
  let '(principals, permit) := acquire hash (ad_principals self) (principal_key subject) in (with_principals self principals, permit).

Inductive Method := GET | HEAD | OPTIONS | OtherMethod.
Definition classify_scope (path : string) (method : Method) : RateScope :=
  if bool_decide (path = "/live") || bool_decide (path = "/ready") || bool_decide (path = "/metrics") then Public
  else match method with GET | HEAD | OPTIONS => Read | OtherMethod => Write end.

Record RestRequest := mkRestRequest {
  rq_path : string; rq_method : Method; rq_peer : option IpAddr; rq_headers : HeaderMap; rq_authorization : option (option string) }.
Inductive RestOutcome :=
| Forwarded (authenticated : option AuthenticatedRequest) (permit : option (string * SemRef))
| RateLimitedResponse (retry_after_secs : N)
| ProblemResponse (error : TeoDBError)
| AdmissionRejected.

Definition LOCALHOST : IpAddr := V4 2130706433.
Definition NANOS : N := 1000000000.
Definition rate_limited (retry_after : N) : RestOutcome := RateLimitedResponse (N.max (retry_after / NANOS) 1).

(** [now]: the clock at the check of the rate. *)
Definition handle (self : ApiAdmission) (validator : option JwtValidator) (req : RestRequest) (now : N)
    : ApiAdmission * RestOutcome :=
  let scope := classify_scope (rq_path req) (rq_method req) in
  let peer := default LOCALHOST (rq_peer req) in
  let client := client_ip self peer (rq_headers req) in
  if bool_decide (scope = Public) then
    match check_rate self scope ("public:" +:+ ip_text client) now with
    | (self, Err retry_after) => (self, rate_limited retry_after)
    | (self, Ok _) => (self, Forwarded None None)
    end
  else
    match authenticate_headers validator (rq_authorization req) with
    | Err error =>
        match check_rate self scope ("invalid:" +:+ ip_text client) now with
        | (self, Err retry_after) => (self, rate_limited retry_after)
        | (self, Ok _) => (self, ProblemResponse error)
        end
    | Ok authenticated =>
        match check_rate self scope ("principal:" +:+ principal_key (subject (ar_principal authenticated))) now with
        | (self, Err retry_after) => (self, rate_limited retry_after)
        | (self, Ok _) =>
            match acquire_principal self (subject (ar_principal authenticated)) with
            | (self, None) => (self, AdmissionRejected)
            | (self, Some permit) => (self, Forwarded (Some authenticated) (Some permit))
            end
        end
    end.

(** ** Flight requests *)
Inductive FlightStatus := RateStatus (retry_after_ms : N) | AuthStatus (code : GrpcCode) | ConcurrencyStatus.
Definition authentication_status (error : TeoDBError) : FlightStatus :=
  match error with Unauthorized => AuthStatus GUnauthenticated | Unavailable _ => AuthStatus GUnavailable | _ => AuthStatus GInternal end.
Definition rate_status (retry_after : N) : FlightStatus := RateStatus (N.min (retry_after / 1000000) u64_max).

Definition principal_from_request (self : ApiAdmission) (validator : option JwtValidator) (peer : option IpAddr)
    (metadata : HeaderMap) (authorization : option (option string)) (scope : RateScope) (now : N)
    : ApiAdmission * result FlightStatus Principal :=
  let client := client_ip self (default LOCALHOST peer) (proxy_headers metadata) in
  match authenticate_bearer validator (extract_bearer_token authorization) with
  | Err error =>
      match check_rate self scope ("invalid:" +:+ ip_text client) now with
      | (self, Ok _) => (self, Err (authentication_status error))
      | (self, Err retry_after) => (self, Err (rate_status retry_after))
      end
  | Ok authenticated =>
      match check_rate self scope ("principal:" +:+ principal_key (subject (ar_principal authenticated))) now with
      | (self, Err retry_after) => (self, Err (rate_status retry_after))
      | (self, Ok _) => (self, Ok (ar_principal authenticated))
      end
  end.
Definition flight_admit (self : ApiAdmission) (principal : Principal) : ApiAdmission * result FlightStatus (string * SemRef) :=
  match acquire_principal self (subject principal) with
  | (self, Some permit) => (self, Ok permit)
  | (self, None) => (self, Err ConcurrencyStatus)
  end.
End layer.

(** ** Bodies that hold a permit

    The inner body's replies to [poll_frame]: pending, a frame (or an error), the end. *)
Inductive PollFrame := PollPending | PollItem | PollEnd.
#[export] Instance PollFrame_eq_dec : EqDecision PollFrame.
Proof. solve_decision. Defined.
Record PrincipalPermitBody := mkPermitBody { pb_permit : option (string * SemRef); pb_finished : bool }.
Definition hold_principal_permit (permit : string * SemRef) : PrincipalPermitBody := mkPermitBody (Some permit) false.
(** [inner]: what the inner body replies, when it is polled. *)
Definition poll_frame (body : PrincipalPermitBody) (inner : PollFrame) : PrincipalPermitBody * PollFrame :=
  if pb_finished body then (body, PollEnd)
  else if bool_decide (inner = PollEnd) then (mkPermitBody None true, PollEnd) else (body, inner).
