(* ===== verification/AdmissionSpec.v ===== *)
(** * Properties of admission

    How many requests a key can be granted in any stretch of time, that waiting
    for the announced delay is enough, and how many permits a principal holds at
    once, over all histories of the two registries. *)

From S2P Require Import Prelude Core Decimal Location Json ClientIp Access Admission.
Open Scope nat_scope.
Open Scope list_scope.

Definition countb {A} (p : A → bool) (l : list A) : nat := length (List.filter p l).
Lemma countb_app {A} (p : A → bool) l1 l2 : countb p (l1 ++ l2) = countb p l1 + countb p l2.
Proof. unfold countb. by rewrite List.filter_app, length_app. Qed.
Lemma countb_single {A} (p : A → bool) x : countb p [x] = if p x then 1 else 0.
Proof. unfold countb. simpl. by destruct (p x). Qed.
Lemma countb_cover {A} (p q r : A → bool) l :
  (∀ x, x ∈ l → p x = true → q x = true ∨ r x = true) → countb p l ≤ countb q l + countb r l.
Proof.
  induction l as [|x l IH]; intros Hall; [done|]. unfold countb in *. simpl.
  assert (length (List.filter p l) ≤ length (List.filter q l) + length (List.filter r l)) as Hl.
  { apply IH. intros y Hy. apply Hall. by right. }
  destruct (p x) eqn:Hp; [|destruct (q x), (r x); simpl; lia].
  destruct (Hall x (list_elem_of_here _ _) Hp) as [-> | ->]; simpl; destruct (q x), (r x); simpl; lia.
Qed.
Lemma countb_zero {A} (p : A → bool) l : (∀ x, x ∈ l → p x = false) → countb p l = 0.
Proof.
  unfold countb. induction l as [|x l IH]; intros Hall; [done|]. simpl. rewrite (Hall x) by (by left).
  apply IH. intros y Hy. apply Hall. by right.
Qed.
Lemma countb_pos {A} (p : A → bool) l x : x ∈ l → p x = true → 0 < countb p l.
Proof.
  unfold countb. induction 1 as [x l|x y l _ IH]; intros Hp; simpl; [rewrite Hp; simpl; lia|].
  destruct (p y); simpl; [lia|by apply IH].
Qed.

(** ** One fixed-window counter

    An event is the start of its window and its time. *)
Section counter.
Context (W L : N) (HW : (0 < W)%N) (HL : (L ≤ u32_max)%N).

Definition starts_at (s : N) (e : N * N) : bool := (fst e =? s)%N.
Definition within (T : N) (e : N * N) : bool := ((T <=? snd e) && (snd e <? T + W))%N.

Record log_ok (evs : list (N * N)) : Prop := mkLogOk {
  lo_window e : e ∈ evs → (fst e ≤ snd e < fst e + W)%N;
  lo_apart e e' : e ∈ evs → e' ∈ evs → fst e = fst e' ∨ (fst e + W ≤ fst e' ∨ fst e' + W ≤ fst e)%N;
  lo_limit s : countb (starts_at s) evs ≤ N.to_nat L;
}.
(** The counter's window is the last one, and counts its events. *)
Definition counter_ok (evs : list (N * N)) (w : WindowState) (now : N) : Prop :=
  (started w ≤ now)%N ∧ count w = N.of_nat (countb (starts_at (started w)) evs) ∧
  ∀ e, e ∈ evs → (fst e = started w ∨ fst e + W ≤ started w)%N.

(** At most two windows meet an interval of a window's length. *)
Lemma log_ok_bound evs T : log_ok evs → countb (within T) evs ≤ 2 * N.to_nat L.
Proof.
  intros Hlog. destruct (List.filter (within T) evs) as [|e1 rest] eqn:Hsel.
  { unfold countb. rewrite Hsel. simpl. lia. }
  assert (∀ e, e ∈ e1 :: rest → e ∈ evs ∧ (T ≤ snd e < T + W)%N) as Hin.
  { intros e He. rewrite <-Hsel in He. apply list_elem_of_In, List.filter_In in He as [He Hw].
    apply list_elem_of_In in He. unfold within in Hw. apply andb_true_iff in Hw as [?%N.leb_le ?%N.ltb_lt]. done. }
  destruct (List.filter (λ e, negb (starts_at (fst e1) e)) (e1 :: rest)) as [|e2 others] eqn:Hother.
  - assert (countb (within T) evs ≤ countb (starts_at (fst e1)) evs + countb (λ _, false) evs) as Hc.
    { apply countb_cover. intros e He Hw. left. destruct (starts_at (fst e1) e) eqn:Hs; [done|].
      assert (e ∈ List.filter (λ e, negb (starts_at (fst e1) e)) (e1 :: rest)) as Hbad.
      { apply list_elem_of_In, List.filter_In. split; [|by rewrite Hs]. rewrite <-Hsel.
        apply List.filter_In. by split; [apply list_elem_of_In|]. }
      rewrite Hother in Hbad. by apply elem_of_nil in Hbad. }
    rewrite (countb_zero (λ _, false)) in Hc by done. pose proof (lo_limit _ Hlog (fst e1)). lia.
  - assert (e2 ∈ e1 :: rest ∧ fst e2 ≠ fst e1) as [He2 Hne].
    { assert (e2 ∈ List.filter (λ e, negb (starts_at (fst e1) e)) (e1 :: rest)) as He2 by (rewrite Hother; by left).
      apply list_elem_of_In, List.filter_In in He2 as [? Hs]. split; [by apply list_elem_of_In|].
      unfold starts_at in Hs. apply negb_true_iff, N.eqb_neq in Hs. done. }
    assert (countb (within T) evs ≤ countb (starts_at (fst e1)) evs + countb (starts_at (fst e2)) evs) as Hc.
    { apply countb_cover. intros e He Hw. unfold starts_at. rewrite !N.eqb_eq.
      unfold within in Hw. apply andb_true_iff in Hw as [?%N.leb_le ?%N.ltb_lt].
      destruct (Hin e1 ltac:(by left)) as [He1 ?], (Hin e2 He2) as [He2' ?].
      pose proof (lo_window _ Hlog e He). pose proof (lo_window _ Hlog e1 He1). pose proof (lo_window _ Hlog e2 He2').
      pose proof (lo_apart _ Hlog e e1 He He1). pose proof (lo_apart _ Hlog e e2 He He2'). pose proof (lo_apart _ Hlog e1 e2 He1 He2').
      destruct (N.eq_dec (fst e) (fst e1)); [by left|]. destruct (N.eq_dec (fst e) (fst e2)); [by right|]. lia. }
    pose proof (lo_limit _ Hlog (fst e1)). pose proof (lo_limit _ Hlog (fst e2)). lia.
Qed.

Lemma log_ok_snoc evs s now :
  log_ok evs → (s ≤ now < s + W)%N → (∀ e, e ∈ evs → fst e = s ∨ (fst e + W ≤ s)%N) →
  S (countb (starts_at s) evs) ≤ N.to_nat L → log_ok (evs ++ [(s, now)]).
Proof.
  intros Hlog Hs Hlast Hcount. split.
  - intros e [He| ->%list_elem_of_singleton]%elem_of_app; [by apply (lo_window _ Hlog)|done].
  - intros e e' [He| ->%list_elem_of_singleton]%elem_of_app [He'| ->%list_elem_of_singleton]%elem_of_app; simpl.
    + by apply (lo_apart _ Hlog).
    + destruct (Hlast e He); auto.
    + destruct (Hlast e' He'); auto.
    + auto.
  - intros s'. rewrite countb_app. unfold countb at 2, starts_at at 2. simpl.
    destruct (N.eqb_spec s s') as [->|]; simpl; [lia|]. pose proof (lo_limit _ Hlog s'). lia.
Qed.

Lemma check_window_ok evs w limit now0 now w' res :
  log_ok evs → counter_ok evs w now0 → (now0 ≤ now)%N → (limit ≤ L)%N →
  check_window w limit W now = (w', res) →
  let evs' := evs ++ (if is_ok res then [(started w', now)] else []) in
  log_ok evs' ∧ counter_ok evs' w' now ∧ (now < started w' + W)%N.
Proof.
  intros Hlog (Hstart & Hcount & Hlast) Hnow Hlimit. unfold check_window, duration_since.
  set (w1 := if (W <=? now - started w)%N then mkWindow now 0 else w).
  assert (counter_ok evs w1 now ∧ (now < started w1 + W)%N) as [(Hs1 & Hc1 & Hl1) Hlt].
  { unfold w1. destruct (N.leb_spec W (now - started w)) as [Hexp|Hlive].
    - split; [split; [|split]|]; simpl; [lia| |intros e He; destruct (Hlast e He); lia|lia].
      symmetry. change 0%N with (N.of_nat 0). f_equal. apply countb_zero. intros e He. unfold starts_at. apply N.eqb_neq.
      destruct (Hlast e He); lia.
    - split; [split; [lia|done]|lia]. }
  clearbody w1. destruct (N.leb_spec limit (count w1)) as [Hfull|Hroom]; intros [= <- <-]; cbn zeta; simpl.
  - rewrite app_nil_r. split_and!; [done|split; [done|done]|done].
  - assert (N.min (count w1 + 1) u32_max = count w1 + 1)%N as Hmin by lia. split_and!; [|split; [done|split]|done].
    + apply log_ok_snoc; [done|lia|done|]. lia.
    + simpl. rewrite Hmin, Hc1, countb_app. unfold countb at 3, starts_at at 3. simpl. rewrite N.eqb_refl. simpl. lia.
    + intros e [He| ->%list_elem_of_singleton]%elem_of_app; simpl; [by apply Hl1|by left].
Qed.
End counter.

(** ** The rate registry *)
Record RateReq := mkReq { q_key : string; q_limit : N; q_now : N }.
(** An admission: its key, the stripe that counted it if the key was not tracked, the start of
    the window and the time. *)
Record Event := mkEvent { ev_key : string; ev_stripe : option nat; ev_start : N; ev_time : N }.
Definition tracked_event (k : string) (e : Event) : option (N * N) :=
  if decide (ev_key e = k ∧ ev_stripe e = None) then Some (ev_start e, ev_time e) else None.
Definition striped_event (i : nat) (e : Event) : option (N * N) :=
  if decide (ev_stripe e = Some i) then Some (ev_start e, ev_time e) else None.
Definition tracked (k : string) (evs : list Event) : list (N * N) := omap (tracked_event k) evs.
Definition striped (i : nat) (evs : list Event) : list (N * N) := omap (striped_event i) evs.

Lemma stable_index_lt hash key : stable_index hash key OVERFLOW_STRIPES < OVERFLOW_STRIPES.
Proof.
  unfold stable_index. pose proof (N.mod_lt (hash key) (N.of_nat OVERFLOW_STRIPES)). unfold OVERFLOW_STRIPES in *. lia.
Qed.

Section registry.
Context (hash : string → N) (W L : N) (HW : (0 < W)%N) (HL1 : (1 ≤ L)%N) (HL : (L ≤ u32_max)%N).
Abbreviation no_window := (mkWindow 0 0).

Definition event_of (r' : RateRegistry) (key : string) (now : N) : Event :=
  match windows r' !! key with
  | Some w => mkEvent key None (started w) now
  | None => let i := stable_index hash key OVERFLOW_STRIPES in mkEvent key (Some i) (started (nth i (overflow r') no_window)) now
  end.
Definition events_of (r' : RateRegistry) (key : string) (now : N) (res : result N unit) : list Event :=
  if is_ok res then [event_of r' key now] else [].

Definition key_ok (r : RateRegistry) (evs : list Event) (now : N) (k : string) : Prop :=
  log_ok W L (tracked k evs) ∧
  match windows r !! k with
  | Some w => counter_ok W (tracked k evs) w now
  | None => ∀ e, e ∈ tracked k evs → (fst e + W ≤ now)%N
  end.
Definition stripe_ok (r : RateRegistry) (evs : list Event) (now : N) (i : nat) : Prop :=
  log_ok W L (striped i evs) ∧ (i < OVERFLOW_STRIPES → counter_ok W (striped i evs) (nth i (overflow r) no_window) now).
Definition reg_inv (r : RateRegistry) (evs : list Event) (now : N) : Prop :=
  window r = W ∧ length (overflow r) = OVERFLOW_STRIPES ∧ (N.of_nat (size (windows r)) ≤ max_keys r)%N ∧
  (∀ k, key_ok r evs now k) ∧ (∀ i, stripe_ok r evs now i).

Lemma counter_ok_later evs w now now' : (now ≤ now')%N → counter_ok W evs w now → counter_ok W evs w now'.
Proof. intros Hle (Hs & Hrest). split; [lia|done]. Qed.

Lemma tracked_app k evs evs' : tracked k (evs ++ evs') = tracked k evs ++ tracked k evs'.
Proof. apply omap_app. Qed.
Lemma striped_app i evs evs' : striped i (evs ++ evs') = striped i evs ++ striped i evs'.
Proof. apply omap_app. Qed.

(** Dropping the expired windows keeps what is known of the keys. *)
Lemma retain_key_ok r evs now0 now k : window r = W → (now0 ≤ now)%N → key_ok r evs now0 k →
  log_ok W L (tracked k evs) ∧
  match filter (live_window W now) (windows r) !! k with
  | Some w => counter_ok W (tracked k evs) w now
  | None => ∀ e, e ∈ tracked k evs → (fst e + W ≤ now)%N
  end.
Proof.
  intros HrW Hnow [Hlog Hcur]. split; [done|].
  destruct (filter (live_window W now) (windows r) !! k) as [w|] eqn:Hw.
  - apply map_lookup_filter_Some in Hw as [Hw _]. rewrite Hw in Hcur. by eapply counter_ok_later.
  - intros e He. apply map_lookup_filter_None in Hw as [Hw|Hw].
    + rewrite Hw in Hcur. specialize (Hcur e He). lia.
    + destruct (windows r !! k) as [w|] eqn:Hk; [|specialize (Hcur e He); lia].
      specialize (Hw w eq_refl). unfold live_window, duration_since in Hw. simpl in Hw.
      destruct Hcur as (Hs & _ & Hlast). destruct (Hlast e He); lia.
Qed.
Lemma filter_size_le {A} (P : string * A → Prop) `{!∀ x, Decision (P x)} (m : gmap string A) : size (filter P m) ≤ size m.
Proof. apply map_subseteq_size, map_filter_subseteq. Qed.

Lemma retain_inv r evs now0 now : reg_inv r evs now0 → (now0 ≤ now)%N →
  reg_inv (mkRates (filter (live_window W now) (windows r)) (overflow r) (max_keys r) W) evs now.
Proof.
  intros (HrW & Hlen & Hsize & Hkeys & Hstripes) Hnow. split_and!; [done|done| | |].
  - pose proof (filter_size_le (live_window W now) (windows r)). simpl. lia.
  - intros k. by eapply retain_key_ok.
  - intros i. destruct (Hstripes i) as [? Hc]. split; [done|]. intros Hi. by eapply counter_ok_later, Hc.
Qed.

Lemma tracked_single k e : tracked k [e] = match tracked_event k e with Some p => [p] | None => [] end.
Proof. unfold tracked. simpl. by destruct (tracked_event k e). Qed.
Lemma striped_single i e : striped i [e] = match striped_event i e with Some p => [p] | None => [] end.
Proof. unfold striped. simpl. by destruct (striped_event i e). Qed.

(** A tracked key, counted by its window. *)
Lemma hit_inv ws ov mk evs now key state limit state' res :
  reg_inv (mkRates ws ov mk W) evs now → ws !! key = Some state → (limit ≤ L)%N →
  check_window state limit W now = (state', res) →
  reg_inv (mkRates (<[key:=state']> ws) ov mk W) (evs ++ events_of (mkRates (<[key:=state']> ws) ov mk W) key now res) now.
Proof.
  intros (_ & Hlen & Hsize & Hkeys & Hstripes) Hstate Hlimit Hcw.
  assert (events_of (mkRates (<[key:=state']> ws) ov mk W) key now res
          = if is_ok res then [mkEvent key None (started state') now] else []) as ->.
  { unfold events_of, event_of. cbn [windows]. by rewrite lookup_insert_eq. }
  destruct (Hkeys key) as [Hlog Hc]. cbn [windows] in Hc. rewrite Hstate in Hc.
  destruct (check_window_ok W L HW HL _ _ _ _ _ _ _ Hlog Hc (N.le_refl _) Hlimit Hcw) as (Hlog' & Hc' & _).
  split_and!; [done|done| | |].
  - cbn [windows max_keys] in *. by rewrite map_size_insert_Some by (rewrite Hstate; eauto).
  - intros k. unfold key_ok. rewrite tracked_app. cbn [windows]. destruct (decide (k = key)) as [->|Hk].
    + rewrite lookup_insert_eq. destruct res; simpl is_ok in *; cbn [is_ok] in *;
        rewrite ?tracked_single; unfold tracked_event; rewrite ?decide_True by done; by split.
    + rewrite lookup_insert_ne by done.
      assert (tracked k (if is_ok res then [mkEvent key None (started state') now] else []) = []) as ->; [|rewrite app_nil_r; apply Hkeys].
      destruct (is_ok res); [|done]. rewrite tracked_single. unfold tracked_event. by rewrite decide_False by naive_solver.
  - intros i. unfold stripe_ok. rewrite striped_app.
    assert (striped i (if is_ok res then [mkEvent key None (started state') now] else []) = []) as ->; [|rewrite app_nil_r; apply Hstripes].
    by destruct (is_ok res).
Qed.

(** A key that gets a window of its own. *)
Lemma insert_inv ws ov mk evs now key :
  reg_inv (mkRates ws ov mk W) evs now → ws !! key = None → (N.of_nat (size ws) < mk)%N →
  let r' := mkRates (<[key:=mkWindow now 1]> ws) ov mk W in reg_inv r' (evs ++ events_of r' key now (Ok tt)) now.
Proof.
  intros (_ & Hlen & Hsize & Hkeys & Hstripes) Hnone Hroom r'.
  assert (events_of r' key now (Ok tt) = [mkEvent key None now now]) as ->.
  { unfold events_of, event_of, r'. cbn [windows is_ok]. by rewrite lookup_insert_eq. }
  destruct (Hkeys key) as [Hlog Hexp]. cbn [windows] in Hexp. rewrite Hnone in Hexp.
  assert (countb (starts_at now) (tracked key evs) = 0) as Hzero.
  { apply countb_zero. intros e He. unfold starts_at. apply N.eqb_neq. specialize (Hexp e He). lia. }
  split_and!; [done|done| | |].
  - unfold r'. cbn [windows max_keys]. rewrite map_size_insert_None by done. lia.
  - intros k. unfold key_ok. rewrite tracked_app, tracked_single. unfold tracked_event, r'. cbn [windows ev_key ev_stripe ev_start ev_time].
    destruct (decide (k = key)) as [->|Hk].
    + rewrite decide_True, lookup_insert_eq by done. split.
      * apply log_ok_snoc; try done; [lia|intros e He; right; by apply Hexp|lia].
      * split; [simpl; lia|]. cbn [started count]. split.
        -- rewrite countb_app, Hzero. unfold countb, starts_at. simpl. by rewrite N.eqb_refl.
        -- intros e [He| ->%list_elem_of_singleton]%elem_of_app; [right; by apply Hexp|by left].
    + rewrite decide_False by naive_solver. rewrite app_nil_r, lookup_insert_ne by done. apply Hkeys.
  - intros i. unfold stripe_ok. rewrite striped_app, app_nil_r. apply Hstripes.
Qed.

(** A key that shares a stripe. *)
Lemma overflow_inv ws ov mk evs now key limit state' res :
  let i := stable_index hash key OVERFLOW_STRIPES in
  reg_inv (mkRates ws ov mk W) evs now → ws !! key = None → (limit ≤ L)%N →
  check_window (nth i ov no_window) limit W now = (state', res) →
  let r' := mkRates ws (<[i:=state']> ov) mk W in reg_inv r' (evs ++ events_of r' key now res) now.
Proof.
  intros i (_ & Hlen & Hsize & Hkeys & Hstripes) Hnone Hlimit Hcw r'. pose proof (stable_index_lt hash key) as Hi. fold i in Hi.
  cbn [overflow] in Hlen.
  assert (∀ j, nth j (<[i:=state']> ov) no_window = if decide (j = i) then state' else nth j ov no_window) as Hnth.
  { intros j. rewrite !nth_lookup. case_decide as Hj; [subst j; by rewrite list_lookup_insert_eq by lia|].
    by rewrite list_lookup_insert_ne. }
  assert (events_of r' key now res = if is_ok res then [mkEvent key (Some i) (started state') now] else []) as ->.
  { unfold events_of, event_of, r'. cbn [windows overflow]. rewrite Hnone. fold i. by rewrite Hnth, decide_True. }
  destruct (Hstripes i) as [Hlog Hc]. specialize (Hc Hi).
  destruct (check_window_ok W L HW HL _ _ _ _ _ _ _ Hlog Hc (N.le_refl _) Hlimit Hcw) as (Hlog' & Hc' & _).
  split_and!; [done|unfold r'; cbn [overflow]; by rewrite length_insert|done| |].
  - intros k. unfold key_ok. rewrite tracked_app.
    assert (tracked k (if is_ok res then [mkEvent key (Some i) (started state') now] else []) = []) as ->; [|rewrite app_nil_r; apply Hkeys].
    destruct (is_ok res); [|done]. rewrite tracked_single. unfold tracked_event. by rewrite decide_False by naive_solver.
  - intros j. unfold stripe_ok, r'. rewrite striped_app. cbn [overflow]. rewrite Hnth. case_decide as Hj.
    + subst j. destruct res; cbn [is_ok] in *; rewrite ?striped_single; unfold striped_event; rewrite ?decide_True by done; by split.
    + assert (striped j (if is_ok res then [mkEvent key (Some i) (started state') now] else []) = []) as ->; [|rewrite app_nil_r; apply Hstripes].
      destruct (is_ok res); [|done]. rewrite striped_single. unfold striped_event. by rewrite decide_False by naive_solver.
Qed.

Lemma check_inv r evs now0 key limit now r' res :
  reg_inv r evs now0 → (now0 ≤ now)%N → (limit ≤ L)%N → check hash r key limit now = (r', res) →
  reg_inv r' (evs ++ events_of r' key now res) now.
Proof.
  intros Hinv Hnow Hlimit. pose proof (retain_inv _ _ _ _ Hinv Hnow) as Hret.
  destruct Hinv as (HrW & Hlen & _). unfold check. rewrite HrW.
  set (ws := filter (live_window W now) (windows r)) in *. clearbody ws. destruct (ws !! key) as [state|] eqn:Hstate.
  - destruct (check_window state limit W now) as [state' res'] eqn:Hcw. intros [= <- <-]. by eapply hit_inv.
  - destruct (N.ltb_spec (N.of_nat (size ws)) (max_keys r)) as [Hroom|Hfull].
    + intros [= <- <-]. by apply insert_inv.
    + rewrite Hlen. destruct (check_window (nth _ (overflow r) no_window) limit W now) as [state' res'] eqn:Hcw.
      intros [= <- <-]. by eapply overflow_inv.
Qed.
End registry.

(** ** Histories of checks *)
Section histories.
Context (hash : string → N).

Fixpoint rate_run (r : RateRegistry) (reqs : list RateReq) : RateRegistry * list (RateReq * result N unit) :=
  match reqs with
  | [] => (r, [])
  | q :: reqs =>
      let '(r, res) := check hash r (q_key q) (q_limit q) (q_now q) in
      let '(r, outs) := rate_run r reqs in (r, (q, res) :: outs)
  end.
(** The clock does not go back. *)
Fixpoint times_from (now : N) (reqs : list RateReq) : Prop :=
  match reqs with [] => True | q :: reqs => (now ≤ q_now q)%N ∧ times_from (q_now q) reqs end.
Definition granted (W : N) (key : string) (T : N) (o : RateReq * result N unit) : bool :=
  is_ok (snd o) && bool_decide (q_key (fst o) = key) && ((T <=? q_now (fst o)) && (q_now (fst o) <? T + W))%N.
Definition event_in (W : N) (key : string) (T : N) (e : Event) : bool :=
  bool_decide (ev_key e = key) && ((T <=? ev_time e) && (ev_time e <? T + W))%N.
Definition event_placed (e : Event) : Prop :=
  ev_stripe e = None ∨ ev_stripe e = Some (stable_index hash (ev_key e) OVERFLOW_STRIPES).

Lemma rates_new_inv W L mk t0 : reg_inv W L (rates_new mk W t0) [] t0.
Proof.
  assert (log_ok W L []) as Hnil.
  { split; [by intros e ?%elem_of_nil|by intros e e' ?%elem_of_nil|intros; unfold countb; simpl; lia]. }
  unfold rates_new. split_and!; [done|done|cbn [windows max_keys]; rewrite map_size_empty; lia| |].
  - intros k. split; [done|]. cbn [windows]. rewrite lookup_empty. by intros e ?%elem_of_nil.
  - intros i. split; [done|]. intros Hi. cbn [overflow]. rewrite nth_lookup, lookup_replicate_2 by done. simpl.
    split; [simpl; lia|]. split; [done|]. by intros e ?%elem_of_nil.
Qed.

Lemma events_in_cover W key T evs : Forall event_placed evs →
  countb (event_in W key T) evs ≤
  countb (within W T) (tracked key evs) + countb (within W T) (striped (stable_index hash key OVERFLOW_STRIPES) evs).
Proof.
  set (i := stable_index hash key OVERFLOW_STRIPES). induction 1 as [|e evs He _ IH]; [done|].
  change (e :: evs) with ([e] ++ evs). rewrite tracked_app, striped_app, tracked_single, striped_single, !countb_app, countb_single.
  unfold event_in at 1, tracked_event, striped_event. case_bool_decide as Hkey; simpl; [|lia].
  subst key. destruct He as [Hs|Hs].
  - rewrite decide_True by done. rewrite countb_single.
    change (within W T (ev_start e, ev_time e)) with ((T <=? ev_time e) && (ev_time e <? T + W))%N. lia.
  - rewrite decide_False by (intros [_ ?]; congruence). rewrite decide_True by done.
    rewrite (countb_single _ (ev_start e, ev_time e)).
    change (within W T (ev_start e, ev_time e)) with ((T <=? ev_time e) && (ev_time e <? T + W))%N. simpl. lia.
Qed.

Lemma rate_run_inv W L key T reqs : (0 < W)%N → (1 ≤ L)%N → (L ≤ u32_max)%N → ∀ r evs now r' outs,
  reg_inv W L r evs now → times_from now reqs → Forall (λ q, q_limit q ≤ L)%N reqs → rate_run r reqs = (r', outs) →
  ∃ evs' now', reg_inv W L r' (evs ++ evs') now' ∧ Forall event_placed evs' ∧
    countb (granted W key T) outs = countb (event_in W key T) evs'.
Proof.
  intros HW HL1 HL. induction reqs as [|q reqs IH]; intros r evs now r' outs Hinv Htimes Hlim; simpl.
  { intros [= <- <-]. exists [], now. rewrite app_nil_r. by split_and!. }
  destruct Htimes as [Hnow Htimes]. apply Forall_cons in Hlim as [Hq Hlim].
  destruct (check hash r (q_key q) (q_limit q) (q_now q)) as [r1 res] eqn:Hc.
  destruct (rate_run r1 reqs) as [r2 outs'] eqn:Hrun. intros [= <- <-].
  pose proof (check_inv hash W L HW HL1 HL _ _ _ _ _ _ _ _ Hinv Hnow Hq Hc) as Hinv1.
  destruct (IH _ _ _ _ _ Hinv1 Htimes Hlim Hrun) as (evs' & now' & Hinv2 & Hpl & Hcount).
  exists (events_of hash r1 (q_key q) (q_now q) res ++ evs'), now'. rewrite app_assoc. split_and!; [done| |].
  - apply Forall_app. split; [|done]. unfold events_of. destruct (is_ok res); [|constructor].
    constructor; [|constructor]. unfold event_of, event_placed. destruct (windows r1 !! q_key q); [by left|by right].
  - rewrite countb_app, <-Hcount. unfold countb, granted at 1. simpl. unfold events_of.
    destruct res as [u|d]; simpl; [|done]. unfold event_in, event_of.
    destruct (windows r1 !! q_key q); simpl; by destruct (_ && _).
Qed.

Lemma rate_run_max_keys reqs : ∀ r, max_keys (fst (rate_run r reqs)) = max_keys r.
Proof.
  induction reqs as [|q reqs IH]; intros r; [done|]. simpl.
  assert (max_keys (fst (check hash r (q_key q) (q_limit q) (q_now q))) = max_keys r) as Hc.
  { unfold check. repeat case_match; done. }
  destruct (check hash r (q_key q) (q_limit q) (q_now q)) as [r1 res]. specialize (IH r1).
  destruct (rate_run r1 reqs). simpl in *. congruence.
Qed.

(** C36. Over any history of checks, in any stretch of time of the length of the window a key is
    granted at most four times the largest limit (two windows of its own and two of the stripe
    it shares when the registry is full), and the registry never tracks more keys than it is
    configured for. *)
Theorem rate_limit_bounded mk W t0 L reqs key T :
  (0 < W)%N → (1 ≤ L ≤ u32_max)%N → times_from t0 reqs → Forall (λ q, q_limit q ≤ L)%N reqs →
  (N.of_nat (countb (granted W key T) (snd (rate_run (rates_new mk W t0) reqs))) ≤ 4 * L)%N ∧
  (N.of_nat (size (windows (fst (rate_run (rates_new mk W t0) reqs)))) ≤ mk)%N.
Proof.
  intros HW [HL1 HL] Htimes Hlim. destruct (rate_run (rates_new mk W t0) reqs) as [r outs] eqn:Hrun. simpl.
  destruct (rate_run_inv W L key T reqs HW HL1 HL _ _ _ _ _ (rates_new_inv W L mk t0) Htimes Hlim Hrun)
    as (evs & now & (_ & _ & Hsize & Hkeys & Hstripes) & Hpl & Hcount). simpl in *. split.
  - rewrite Hcount. pose proof (events_in_cover W key T evs Hpl) as Hcover.
    destruct (Hkeys key) as [Hlog _], (Hstripes (stable_index hash key OVERFLOW_STRIPES)) as [Hlog' _].
    pose proof (log_ok_bound W L HW HL _ T Hlog). pose proof (log_ok_bound W L HW HL _ T Hlog'). lia.
  - assert (max_keys r = mk) as <-; [|done]. apply (f_equal fst) in Hrun. simpl in Hrun. by rewrite <-Hrun, rate_run_max_keys.
Qed.

(** ** Waiting as told *)

(** The shape of a registry: its configuration is fixed, its sizes are bounded. *)
Definition shape (r : RateRegistry) (mk W : N) : Prop :=
  window r = W ∧ max_keys r = mk ∧ length (overflow r) = OVERFLOW_STRIPES ∧ (N.of_nat (size (windows r)) ≤ mk)%N.
Lemma check_shape r mk W key limit now r' res : shape r mk W → check hash r key limit now = (r', res) → shape r' mk W.
Proof.
  intros (HW & Hmk & Hlen & Hsize). unfold check. rewrite HW, Hmk.
  pose proof (filter_size_le (live_window W now) (windows r)) as Hf.
  destruct (filter (live_window W now) (windows r) !! key) as [state|] eqn:Hs.
  - destruct (check_window state _ _ _). intros [= <- <-]. split_and!; [done..|]. cbn [windows].
    rewrite map_size_insert_Some by (rewrite Hs; eauto). lia.
  - destruct (N.ltb_spec (N.of_nat (size (filter (live_window W now) (windows r)))) mk) as [Hroom|].
    + intros [= <- <-]. split_and!; [done..|]. cbn [windows]. rewrite map_size_insert_None by done. lia.
    + destruct (check_window _ _ _ _). intros [= <- <-]. split_and!; [done|done|cbn [overflow]; by rewrite length_insert|].
      cbn [windows]. lia.
Qed.

(** A key's window, or its absence and the window of its stripe, outlast checks of other keys
    before the window ends. *)
Definition held (r : RateRegistry) (key : string) (until : N) : Prop :=
  match windows r !! key with
  | Some w => (started w + window r)%N = until
  | None => (started (nth (stable_index hash key OVERFLOW_STRIPES) (overflow r) (mkWindow 0 0)) + window r)%N = until
  end.
Lemma check_window_started w limit W now : (0 < W)%N → (now < started w + W)%N → started (fst (check_window w limit W now)) = started w.
Proof.
  intros HW Hnow. unfold check_window, duration_since. destruct (N.leb_spec W (now - started w)); [lia|]. by destruct (_ <=? _)%N.
Qed.
Lemma check_held r mk W key until q r' res :
  (0 < W)%N → shape r mk W → held r key until → q_key q ≠ key → (q_now q < until)%N →
  check hash r (q_key q) (q_limit q) (q_now q) = (r', res) → held r' key until.
Proof.
  intros HW (Hrw & Hmk & Hlen & _) Hheld Hk Hnow. unfold check, held in *. rewrite Hrw in Hheld. rewrite Hrw, Hlen.
  set (ws := filter (live_window W (q_now q)) (windows r)).
  assert (ws !! key = windows r !! key) as Hkey.
  { unfold ws. destruct (windows r !! key) as [w|] eqn:Hw.
    - apply map_lookup_filter_Some. split; [done|]. unfold live_window, duration_since. simpl. lia.
    - apply map_lookup_filter_None. by left. }
  rewrite <-Hkey in Hheld. clearbody ws. destruct (ws !! q_key q) as [state|].
  { destruct (check_window state _ _ _). intros [= <- <-]. cbn [windows overflow window]. by rewrite lookup_insert_ne. }
  destruct (_ <? _)%N; [intros [= <- <-]; cbn [windows overflow window]; by rewrite lookup_insert_ne|].
  set (i := stable_index hash (q_key q) OVERFLOW_STRIPES). set (j := stable_index hash key OVERFLOW_STRIPES) in *.
  pose proof (check_window_started (nth i (overflow r) (mkWindow 0 0)) (q_limit q) W (q_now q)) as Hstart.
  destruct (check_window (nth i (overflow r) (mkWindow 0 0)) (q_limit q) W (q_now q)) as [state' res'].
  intros [= <- <-]. cbn [windows overflow window]. destruct (ws !! key); [done|].
  destruct (decide (j = i)) as [Hj|Hj].
  - rewrite Hj in *. simpl in Hstart. rewrite nth_lookup, list_lookup_insert_eq by (rewrite Hlen; apply (stable_index_lt hash)).
    simpl. rewrite Hstart by lia. done.
  - rewrite nth_lookup, list_lookup_insert_ne, <-nth_lookup by done. done.
Qed.

Lemma rate_run_held mk W key until others : (0 < W)%N → ∀ r,
  shape r mk W → held r key until → Forall (λ q, q_key q ≠ key ∧ (q_now q < until)%N) others →
  shape (fst (rate_run r others)) mk W ∧ held (fst (rate_run r others)) key until.
Proof.
  intros HW. induction others as [|q others IH]; intros r Hshape Hheld Hall; [done|].
  apply Forall_cons in Hall as [[Hk Hnow] Hall]. simpl.
  destruct (check hash r (q_key q) (q_limit q) (q_now q)) as [r1 res] eqn:Hc.
  destruct (IH r1) as [? ?]; [by eapply check_shape|by eapply check_held|done|]. by destruct (rate_run r1 others).
Qed.

(** A refusal leaves the key waiting for the end of a window. *)
Lemma refused_held W L r evs now0 key limit now r1 d :
  (0 < W)%N → (1 ≤ L)%N → (L ≤ u32_max)%N → reg_inv W L r evs now0 → (now0 ≤ now)%N → (0 < limit)%N →
  check hash r key limit now = (r1, Err d) → held r1 key (now + d).
Proof.
  intros HW HL1 HL Hinv Hnow Hlim. pose proof (retain_inv W L HW HL1 HL _ _ _ _ Hinv Hnow) as (_ & _ & _ & Hkeys & Hstripes).
  destruct Hinv as (HrW & Hlen & _). unfold check, held. rewrite HrW. set (ws := filter (live_window W now) (windows r)) in *.
  assert (∀ w w' d, (started w ≤ now)%N → check_window w limit W now = (w', Err d) → (started w' + W = now + d)%N) as Hend.
  { intros w w' d' Hs. unfold check_window, duration_since. destruct (N.leb_spec W (now - started w)); simpl.
    - destruct (N.leb_spec limit 0); [lia|done].
    - destruct (N.leb_spec limit (count w)); intros [= <- <-]. lia. }
  destruct (ws !! key) as [state|] eqn:Hstate.
  - destruct (check_window state limit W now) as [state' res'] eqn:Hcw. intros [= <- ->]. cbn [windows window].
    rewrite lookup_insert_eq. destruct (Hkeys key) as [_ Hc]. cbn [windows] in Hc. rewrite Hstate in Hc. eapply Hend; [apply Hc|done].
  - destruct (_ <? _)%N; [done|]. rewrite Hlen. set (i := stable_index hash key OVERFLOW_STRIPES).
    destruct (check_window (nth i (overflow r) (mkWindow 0 0)) limit W now) as [state' res'] eqn:Hcw. intros [= <- ->].
    cbn [windows window overflow]. rewrite Hstate. fold i. rewrite nth_lookup, list_lookup_insert_eq by (rewrite Hlen; apply (stable_index_lt hash)).
    simpl. destruct (Hstripes i) as [_ Hc]. specialize (Hc (stable_index_lt hash key)). eapply Hend; [apply Hc|done].
Qed.

(** At the end of the window the key is granted. *)
Lemma held_granted r mk W key limit until :
  (0 < W)%N → shape r mk W → held r key until → (0 < limit)%N → snd (check hash r key limit until) = Ok tt.
Proof.
  intros HW (Hrw & Hmk & Hlen & Hsize) Hheld Hlim. unfold check. rewrite Hrw, Hmk, Hlen. unfold held in Hheld. rewrite Hrw in Hheld.
  set (ws := filter (live_window W until) (windows r)).
  assert (ws !! key = None) as ->.
  { apply map_lookup_filter_None. destruct (windows r !! key) as [w|]; [right|by left]. intros w' [= <-].
    unfold live_window, duration_since. simpl. lia. }
  destruct (N.ltb_spec (N.of_nat (size ws)) mk) as [|Hfull]; [done|].
  destruct (windows r !! key) as [w|] eqn:Hw.
  - exfalso. assert (size ws ≤ size (delete key (windows r))) as Hle.
    { apply map_subseteq_size, map_subseteq_spec. intros k v Hk. apply map_lookup_filter_Some in Hk as [Hk Hl].
      rewrite lookup_delete_ne; [done|]. intros <-. rewrite Hw in Hk. injection Hk as <-.
      unfold live_window, duration_since in Hl. simpl in Hl. lia. }
    rewrite map_size_delete_Some in Hle by eauto. assert (0 < size (windows r)) by (destruct (size (windows r)) eqn:Hz; [|lia]; apply map_size_empty_inv in Hz; by rewrite Hz in Hw).
    lia.
  - unfold check_window, duration_since. set (w := nth _ _ _) in *. destruct (N.leb_spec W (until - started w)); [|lia].
    cbn [count]. destruct (N.leb_spec limit 0); [lia|done].
Qed.

Lemma rate_run_reaches W key limit now : (0 < W)%N → ∀ reqs r0 evs t,
  reg_inv W u32_max r0 evs t → times_from t (reqs ++ [mkReq key limit now]) → Forall (λ q, q_limit q ≤ u32_max)%N reqs →
  ∃ evs' now0, reg_inv W u32_max (fst (rate_run r0 reqs)) evs' now0 ∧ (now0 ≤ now)%N.
Proof.
  intros HW. induction reqs as [|q reqs IH]; intros r0 evs t Hinv Htimes Hlims; simpl in *; [exists evs, t; by destruct Htimes|].
  destruct Htimes as [Ht Htimes]. apply Forall_cons in Hlims as [Hq Hlims].
  destruct (check hash r0 (q_key q) (q_limit q) (q_now q)) as [r1 res] eqn:Hc.
  pose proof (check_inv hash W u32_max HW ltac:(done) (N.le_refl _) _ _ _ _ _ _ _ _ Hinv Ht Hq Hc) as Hinv1.
  destruct (IH r1 _ _ Hinv1 Htimes Hlims) as (evs' & now0 & ? & ?).
  exists evs', now0. by destruct (rate_run r1 reqs).
Qed.

(** C37. Waiting as long as a refusal says is enough: after any history of checks, when a check
    of a key is refused with a delay, and until the delay has passed only other keys are
    checked, the check of the key at that time is granted. *)
Theorem retry_after_granted mk W t0 reqs key limit now d others :
  (0 < W)%N → (0 < limit ≤ u32_max)%N → Forall (λ q, q_limit q ≤ u32_max)%N reqs →
  times_from t0 (reqs ++ [mkReq key limit now]) →
  let r := fst (rate_run (rates_new mk W t0) reqs) in
  snd (check hash r key limit now) = Err d →
  Forall (λ q, q_key q ≠ key ∧ (q_now q < now + d)%N) others →
  let r' := fst (rate_run (fst (check hash r key limit now)) others) in
  snd (check hash r' key limit (now + d)) = Ok tt.
Proof.
  intros HW [Hlim Hlim'] Hlimits Htimes r Href Hothers r'.
  assert (∃ evs now0, reg_inv W u32_max r evs now0 ∧ (now0 ≤ now)%N) as (evs & now0 & Hinv & Hnow).
  { apply (rate_run_reaches W key limit now HW reqs _ [] t0); [apply rates_new_inv|done|done]. }
  assert (shape r mk W) as Hshape.
  { assert (max_keys r = mk) as Hmk by (unfold r; by rewrite rate_run_max_keys). destruct Hinv as (? & ? & ? & _).
    rewrite Hmk in *. by split_and!. }
  destruct (check hash r key limit now) as [r1 res] eqn:Hc. simpl in Href. subst res.
  destruct (rate_run_held mk W key (now + d) others HW r1) as [Hshape' Hheld]; [by eapply check_shape|by eapply (refused_held W u32_max)|done|].
  unfold r'. exact (held_granted _ _ _ _ _ _ HW Hshape' Hheld Hlim).
Qed.
End histories.

(** ** Concrete histories *)
Definition demo_hash (key : string) : N := N.of_nat (String.length key).
Definition demo_checks : list RateReq := [mkReq "a" 2 10; mkReq "a" 2 11; mkReq "a" 2 12; mkReq "b" 2 13; mkReq "c" 2 14; mkReq "a" 2 70; mkReq "a" 2 71].

Lemma rate_limit_bounded_witness :
  map (λ o, is_ok (snd o)) (snd (rate_run demo_hash (rates_new 2 60 0) demo_checks)) = [true; true; false; true; true; true; true] ∧
  (N.of_nat (countb (granted 60 "a" 11) (snd (rate_run demo_hash (rates_new 2 60 0) demo_checks))) ≤ 4 * 2)%N.
Proof.
  split; [vm_compute; reflexivity|].
  refine (proj1 (rate_limit_bounded demo_hash 2 60 0 2 demo_checks "a" 11 _ _ _ _)); [done|done| |]; simpl.
  - repeat split; done.
  - repeat constructor; done.
Defined.

Lemma retry_after_granted_witness :
  let r := fst (rate_run demo_hash (rates_new 2 60 0) [mkReq "a" 2 10; mkReq "a" 2 11]) in
  snd (check demo_hash r "a" 2 12) = Err 58%N ∧
  snd (check demo_hash (fst (rate_run demo_hash (fst (check demo_hash r "a" 2 12)) [mkReq "b" 2 20; mkReq "c" 2 30])) "a" 2 70) = Ok tt.
Proof.
  split; [vm_compute; reflexivity|].
  refine (retry_after_granted demo_hash 2 60 0 [mkReq "a" 2 10; mkReq "a" 2 11] "a" 2 12 58 [mkReq "b" 2 20; mkReq "c" 2 30] _ _ _ _ _ _);
    [done|done|repeat constructor; done|repeat split; done|vm_compute; reflexivity|].
  repeat constructor; done.
Defined.

(** The seconds announced to a REST client are rounded down: a client that waits them is
    refused again. *)
Theorem retry_after_header_too_short :
  let r := fst (rate_run demo_hash (rates_new 2 60000000000 0) [mkReq "a" 1 0]) in
  ∃ d, snd (check demo_hash r "a" 1 500000000) = Err d ∧ rate_limited d = RateLimitedResponse 59 ∧
    is_ok (snd (check demo_hash (fst (check demo_hash r "a" 1 500000000)) "a" 1 (500000000 + 59 * NANOS))) = false.
Proof. exists 59500000000%N. vm_compute. done. Qed.

(** Reads and writes of a principal share one counter: reads within the read limit use up
    the write limit. *)
Theorem reads_exhaust_write_budget :
  map (λ o, is_ok (snd o)) (snd (rate_run demo_hash (rates_new 2 60 0) [mkReq "principal:p" 4 1; mkReq "principal:p" 4 2; mkReq "principal:p" 2 3]))
  = [true; true; false].
Proof. vm_compute. reflexivity. Qed.

(** ** Permits of principals *)
Inductive PermitOp := PSelect (key : string) | PTry (n : nat) | PRelease (n : nat).
Section permits.
Context (hash : string → N).

Definition permit_step (s : PrincipalRegistry) (op : PermitOp) : PrincipalRegistry :=
  match op with
  | PSelect key => acquire_select hash s key
  | PTry n => fst (acquire_try s n)
  | PRelease n => release_permit s n
  end.
Definition permit_run (s : PrincipalRegistry) (ops : list PermitOp) : PrincipalRegistry := foldl permit_step s ops.

(** References to tracked semaphores go through the entry of their key, entries do not share a
    semaphore, and no semaphore has given out more permits than it has. *)
Record permits_inv (s : PrincipalRegistry) : Prop := mkPermitsInv {
  pi_ref k id : (k, Tracked id) ∈ pr_handles s ++ pr_permits s → pr_entries s !! k = Some id;
  pi_stripe k i : (k, OverflowStripe i) ∈ pr_handles s ++ pr_permits s → i = stable_index hash k OVERFLOW_STRIPES;
  pi_inj k k' id : pr_entries s !! k = Some id → pr_entries s !! k' = Some id → k = k';
  pi_fresh k id : pr_entries s !! k = Some id → (id < pr_next s)%N;
  pi_permits sem : count_of sem (pr_permits s) ≤ pr_max_permits s;
  pi_size : (N.of_nat (size (pr_entries s)) ≤ pr_max_entries s)%N;
}.

Lemma principals_new_inv max_entries permits : permits_inv (principals_new max_entries permits).
Proof.
  split; simpl; [by intros k id ?%elem_of_nil|by intros k i ?%elem_of_nil|done|done|intros; unfold count_of; simpl; lia|rewrite map_size_empty; lia].
Qed.

Lemma strong_count_pos s k id : (k, Tracked id) ∈ pr_handles s ++ pr_permits s → 0 < strong_count s id.
Proof.
  intros Hin. unfold strong_count, count_of. apply (countb_pos (refers (Tracked id)) _ (k, Tracked id)); [done|].
  unfold refers. by apply bool_decide_eq_true.
Qed.

(** The entries that are kept: another key, or a live semaphore. *)
Lemma kept_entry s key k id : permits_inv s →
  match pr_entries s !! key with Some id => (0 <? strong_count s id)%nat = false | None => True end →
  (k, Tracked id) ∈ pr_handles s ++ pr_permits s →
  k ≠ key ∧ filter (alive s) (delete key (pr_entries s)) !! k = Some id.
Proof.
  intros Hinv Hdead Hin. pose proof (pi_ref _ Hinv _ _ Hin) as Hk. pose proof (strong_count_pos _ _ _ Hin) as Hpos.
  assert (k ≠ key) as Hne.
  { intros ->. rewrite Hk in Hdead. apply Nat.ltb_ge in Hdead. lia. }
  split; [done|]. apply map_lookup_filter_Some. split; [by rewrite lookup_delete_ne|]. done.
Qed.

Lemma kept_size s key : size (filter (alive s) (delete key (pr_entries s))) ≤ size (pr_entries s).
Proof.
  etrans; [apply map_subseteq_size, map_filter_subseteq|]. apply map_subseteq_size, delete_subseteq.
Qed.
Lemma kept_lookup s key k id : filter (alive s) (delete key (pr_entries s)) !! k = Some id → pr_entries s !! k = Some id.
Proof. intros [Hk _]%map_lookup_filter_Some. by apply lookup_delete_Some in Hk as [_ ?]. Qed.

Lemma select_inv s key : permits_inv s → permits_inv (acquire_select hash s key).
Proof.
  intros Hinv. unfold acquire_select. destruct (match pr_entries s !! key with Some id => _ | None => None end) as [id|] eqn:Hex.
  - assert (pr_entries s !! key = Some id) as Hid.
    { destruct (pr_entries s !! key) as [id'|]; [|done]. destruct (0 <? strong_count s id'); [|done]. congruence. }
    split; simpl; [|intros k i [Heq|Hin]%elem_of_cons; [done|by apply (pi_stripe _ Hinv)]|apply (pi_inj _ Hinv)|apply (pi_fresh _ Hinv)|apply (pi_permits _ Hinv)|apply (pi_size _ Hinv)].
    intros k i [Heq|Hin]%elem_of_cons; [by injection Heq as -> ->|by apply (pi_ref _ Hinv)].
  - assert (match pr_entries s !! key with Some id => (0 <? strong_count s id)%nat = false | None => True end) as Hdead.
    { destruct (pr_entries s !! key) as [id'|]; [|done]. by destruct (0 <? strong_count s id'). }
    pose proof (kept_size s key) as Hsize. pose proof (pi_size _ Hinv) as Hmax.
    assert (filter (alive s) (delete key (pr_entries s)) !! key = None) as Hnone.
    { apply map_lookup_filter_None. left. apply lookup_delete_eq. }
    destruct (N.ltb_spec (N.of_nat (size (filter (alive s) (delete key (pr_entries s))))) (pr_max_entries s)) as [Hroom|Hfull].
    + split; simpl.
      * intros k i [Heq|Hin]%elem_of_cons; [injection Heq as -> ->; by rewrite lookup_insert_eq|].
        destruct (kept_entry s key k i Hinv Hdead Hin) as [Hne ?]. by rewrite lookup_insert_ne.
      * intros k i [Heq|Hin]%elem_of_cons; [done|by apply (pi_stripe _ Hinv)].
      * intros k k' i Hk Hk'. apply lookup_insert_Some in Hk as [[<- <-]|[Hk1 Hk]], Hk' as [[<- Heq]|[Hk1' Hk']]; [done| | |].
        -- apply kept_lookup, (pi_fresh _ Hinv) in Hk'. lia.
        -- subst i. apply kept_lookup, (pi_fresh _ Hinv) in Hk. lia.
        -- eapply (pi_inj _ Hinv); by eapply kept_lookup.
      * intros k i [[_ <-]|[_ Hk]]%lookup_insert_Some; [lia|]. apply kept_lookup, (pi_fresh _ Hinv) in Hk. lia.
      * apply (pi_permits _ Hinv).
      * rewrite map_size_insert_None by done. lia.
    + split; simpl.
      * intros k i [Heq|Hin]%elem_of_cons; [done|]. by destruct (kept_entry s key k i Hinv Hdead Hin) as [_ ?].
      * intros k i [Heq|Hin]%elem_of_cons; [by injection Heq as -> ->|by apply (pi_stripe _ Hinv)].
      * intros k k' i Hk Hk'. eapply (pi_inj _ Hinv); by eapply kept_lookup.
      * intros k i Hk. by apply kept_lookup, (pi_fresh _ Hinv) in Hk.
      * apply (pi_permits _ Hinv).
      * lia.
Qed.

Lemma count_of_sublist sem l1 l2 : l1 `sublist_of` l2 → count_of sem l1 ≤ count_of sem l2.
Proof.
  unfold count_of. induction 1 as [|e l1 l2 _ IH|e l1 l2 _ IH]; simpl; [done| |]; destruct (refers sem e); simpl; lia.
Qed.

Lemma try_inv s n : permits_inv s → permits_inv (fst (acquire_try s n)).
Proof.
  intros Hinv. unfold acquire_try. destruct (pr_handles s !! n) as [[key sem]|] eqn:Hn; [|done].
  assert ((key, sem) ∈ pr_handles s) as Hh by (by eapply list_elem_of_lookup_2).
  assert (∀ e, e ∈ delete n (pr_handles s) → e ∈ pr_handles s) as Hdel.
  { intros e He. eapply elem_of_sublist; [exact He|apply sublist_delete]. }
  destruct (Nat.ltb_spec (count_of sem (pr_permits s)) (pr_max_permits s)) as [Hroom|Hfull]; simpl.
  - assert (∀ e, e ∈ delete n (pr_handles s) ++ (key, sem) :: pr_permits s → e ∈ pr_handles s ++ pr_permits s) as Hsub.
    { intros e [He|[->|He]%elem_of_cons]%elem_of_app; apply elem_of_app; auto. }
    split; simpl; [intros k i ?%Hsub; by apply (pi_ref _ Hinv)|intros k i ?%Hsub; by apply (pi_stripe _ Hinv)
      |apply (pi_inj _ Hinv)|apply (pi_fresh _ Hinv)| |apply (pi_size _ Hinv)].
    intros sem'. unfold count_of in *. simpl. unfold refers at 1. simpl. case_bool_decide as Heq; simpl.
    + subst sem'. lia.
    + apply (pi_permits _ Hinv).
  - assert (∀ e, e ∈ delete n (pr_handles s) ++ pr_permits s → e ∈ pr_handles s ++ pr_permits s) as Hsub.
    { intros e [He|He]%elem_of_app; apply elem_of_app; auto. }
    split; simpl; [intros k i ?%Hsub; by apply (pi_ref _ Hinv)|intros k i ?%Hsub; by apply (pi_stripe _ Hinv)
      |apply (pi_inj _ Hinv)|apply (pi_fresh _ Hinv)|apply (pi_permits _ Hinv)|apply (pi_size _ Hinv)].
Qed.

Lemma release_inv s n : permits_inv s → permits_inv (release_permit s n).
Proof.
  intros Hinv. assert (∀ e, e ∈ pr_handles s ++ delete n (pr_permits s) → e ∈ pr_handles s ++ pr_permits s) as Hsub.
  { intros e [He|He]%elem_of_app; apply elem_of_app; [by left|right]. eapply elem_of_sublist; [exact He|apply sublist_delete]. }
  split; simpl; [intros k i ?%Hsub; by apply (pi_ref _ Hinv)|intros k i ?%Hsub; by apply (pi_stripe _ Hinv)
    |apply (pi_inj _ Hinv)|apply (pi_fresh _ Hinv)| |apply (pi_size _ Hinv)].
  intros sem. pose proof (pi_permits _ Hinv sem). pose proof (count_of_sublist sem _ _ (sublist_delete (pr_permits s) n)). lia.
Qed.

Lemma permit_run_inv ops s : permits_inv s →
  permits_inv (permit_run s ops) ∧ pr_max_permits (permit_run s ops) = pr_max_permits s ∧ pr_max_entries (permit_run s ops) = pr_max_entries s.
Proof.
  revert s. induction ops as [|op ops IH]; intros s Hinv; [done|]. simpl.
  destruct (IH (permit_step s op)) as (? & -> & ->).
  - destruct op; [by apply select_inv|by apply try_inv|by apply release_inv].
  - split; [done|]. destruct op; simpl; [|by unfold acquire_try; repeat case_match|done].
    unfold acquire_select. by repeat case_match.
Qed.

(** The permits a principal holds. *)
Definition holds (key : string) (s : PrincipalRegistry) : nat := countb (λ e, bool_decide (fst e = key)) (pr_permits s).

Lemma holds_bound s key : permits_inv s → holds key s ≤ 2 * pr_max_permits s.
Proof.
  intros Hinv. unfold holds. set (i := stable_index hash key OVERFLOW_STRIPES).
  set (id := default 0%N (pr_entries s !! key)).
  assert (countb (λ e, bool_decide (fst e = key)) (pr_permits s)
          ≤ countb (refers (Tracked id)) (pr_permits s) + countb (refers (OverflowStripe i)) (pr_permits s)) as Hc.
  { apply countb_cover. intros [k sem] Hin Hk%bool_decide_eq_true. simpl in Hk. subst k. unfold refers. rewrite !bool_decide_eq_true. simpl.
    assert ((key, sem) ∈ pr_handles s ++ pr_permits s) as Hin' by (apply elem_of_app; by right).
    destruct sem as [id'|i']; [left|right; f_equal; by apply (pi_stripe _ Hinv)].
    apply (pi_ref _ Hinv) in Hin'. unfold id. by rewrite Hin'. }
  pose proof (pi_permits _ Hinv (Tracked id)). pose proof (pi_permits _ Hinv (OverflowStripe i)). unfold count_of, countb in *. lia.
Qed.

(** A principal without a running operation is admitted while the registry has room. *)
Lemma acquire_free s key : permits_inv s → 0 < pr_max_permits s →
  Forall (λ e, fst e ≠ key) (pr_handles s ++ pr_permits s) → (N.of_nat (size (pr_entries s)) < pr_max_entries s)%N →
  is_Some (snd (acquire hash s key)).
Proof.
  intros Hinv Hp Hfree Hroom. rewrite Forall_forall in Hfree. unfold acquire, acquire_select.
  assert (match pr_entries s !! key with Some id => if 0 <? strong_count s id then Some id else None | None => None end = None) as ->.
  { destruct (pr_entries s !! key) as [id|] eqn:Hid; [|done]. destruct (Nat.ltb_spec 0 (strong_count s id)) as [Hpos|]; [|done].
    exfalso. unfold strong_count, count_of in Hpos.
    destruct (List.filter (refers (Tracked id)) (pr_handles s ++ pr_permits s)) as [|[k sem] l] eqn:Hf; simpl in Hpos; [lia|].
    assert ((k, sem) ∈ pr_handles s ++ pr_permits s ∧ sem = Tracked id) as [Hin ->].
    { assert (List.In (k, sem) ((k, sem) :: l)) as Hin by (by left). rewrite <-Hf in Hin. apply List.filter_In in Hin as [Hin Hr].
      split; [by apply list_elem_of_In|]. by apply bool_decide_eq_true in Hr. }
    apply (Hfree _ Hin). simpl. pose proof (pi_ref _ Hinv _ _ Hin) as Hk. by eapply (pi_inj _ Hinv). }
  pose proof (kept_size s key) as Hsize.
  destruct (N.ltb_spec (N.of_nat (size (filter (alive s) (delete key (pr_entries s))))) (pr_max_entries s)) as [_|]; [|lia].
  unfold acquire_try. simpl. assert (count_of (Tracked (pr_next s)) (pr_permits s) = 0) as ->.
  { apply countb_zero. intros [k sem] Hin. unfold refers. apply bool_decide_eq_false. simpl. intros ->.
    assert ((k, Tracked (pr_next s)) ∈ pr_handles s ++ pr_permits s) as Hin' by (apply elem_of_app; by right).
    apply (pi_ref _ Hinv), (pi_fresh _ Hinv) in Hin'. lia. }
  destruct (Nat.ltb_spec 0 (pr_max_permits s)); [simpl; eauto|lia].
Qed.

(** In every interleaving of acquisitions and releases a principal holds at most twice the
    configured permits (those of its own semaphore and of its overflow stripe), two principals
    never share a tracked semaphore, no more principals are tracked than configured, and while
    there is room a principal without a running operation is admitted, whatever others hold. *)
Theorem principal_concurrency_bounded max_entries permits ops key :
  0 < permits →
  let s := permit_run (principals_new max_entries permits) ops in
  holds key s ≤ 2 * permits ∧ (N.of_nat (size (pr_entries s)) ≤ max_entries)%N ∧
  (∀ k k' id, (k, Tracked id) ∈ pr_permits s → (k', Tracked id) ∈ pr_permits s → k = k') ∧
  (Forall (λ e, fst e ≠ key) (pr_handles s ++ pr_permits s) → (N.of_nat (size (pr_entries s)) < max_entries)%N →
   is_Some (snd (acquire hash s key))).
Proof.
  intros Hp s. destruct (permit_run_inv ops _ (principals_new_inv max_entries permits)) as (Hinv & Hmp & Hme).
  fold s in Hinv, Hmp, Hme. simpl in Hmp, Hme. split_and!.
  - rewrite <-Hmp. by apply holds_bound.
  - rewrite <-Hme. apply (pi_size _ Hinv).
  - intros k k' id Hk Hk'. eapply (pi_inj _ Hinv); apply (pi_ref _ Hinv), elem_of_app; by right.
  - intros Hfree Hroom. apply acquire_free; [done|by rewrite Hmp|done|by rewrite Hme].
Qed.
End permits.

Lemma principal_concurrency_bounded_witness :
  holds "p" (permit_run demo_hash (principals_new 1 2) [PSelect "p"; PTry 0; PSelect "p"; PTry 0; PSelect "p"; PTry 0]) = 2 ∧
  is_Some (snd (acquire demo_hash (permit_run demo_hash (principals_new 2 2) [PSelect "p"; PTry 0; PSelect "p"; PTry 0]) "q")).
Proof.
  split; [vm_compute; reflexivity|].
  refine (proj2 (proj2 (proj2 (principal_concurrency_bounded demo_hash 2 2 [PSelect "p"; PTry 0; PSelect "p"; PTry 0] "q" _))) _ _);
    [lia|repeat constructor; discriminate|vm_compute; reflexivity].
Defined.

(** ** The body of a response holds its permit until it ends *)
Lemma poll_frame_holds body inner body' out : poll_frame body inner = (body', out) →
  (pb_finished body = true → out = PollEnd ∧ body' = body) ∧
  (pb_finished body = false → out = inner ∧
    (if bool_decide (inner = PollEnd) then pb_permit body' = None ∧ pb_finished body' = true else body' = body)).
Proof.
  unfold poll_frame. destruct (pb_finished body); [by intros [= <- <-]|].
  case_bool_decide; intros [= <- <-]; split; try done; by subst.
Qed.
