(* ===== verification/FlightQuery.v ===== *)
(** * Queries over Arrow Flight SQL

    Models [teodb-api/src/flight/query/service.rs] and [query/metadata.rs] (the commands of
    [get_flight_info], [get_schema] and [do_get] and the SQL of the metadata commands),
    [flight/prepared.rs] (prepared statements) and the dispatch of [flight/server.rs] over
    the admission of Admission.v.  The protobuf messages are a class with the law that a
    message decodes to what was encoded; what the query engine replies to each call is an
    argument.  Arrow's encoding of schemas and batches is left out: a stream is the sequence
    of the messages it carries. *)

From S2P Require Import Prelude Core Location Schema Json ClientIp ParquetStats Access Admission.
Open Scope nat_scope.
Open Scope list_scope.

(** ** Commands *)
Record CommandGetDbSchemas := mkGetDbSchemas { ds_catalog : option string; ds_filter : option string }.
Record CommandGetTables := mkGetTables {
  gt_catalog : option string; gt_schema_filter : option string; gt_table_filter : option string;
  gt_types : list string; gt_include_schema : bool }.
(** A decoded [Any], by the type it unpacks to; [AMalformed] has the type's URL and a value
    that does not decode. *)
Inductive Any :=
| AStatementQuery (query : string)
| AGetCatalogs
| AGetDbSchemas (command : CommandGetDbSchemas)
| AGetTables (command : CommandGetTables)
| AGetTableTypes
| AGetSqlInfo (info : list N)
| AGetPrimaryKeys
| ATicketStatementQuery (handle : list N)
| ACreatePrepared (query : string)
| AClosePrepared (handle : list N)
| ACreatePreparedResult (handle : list N) (dataset_schema : list N)
| AMalformed (type_url : string)
| AUnknown (type_url : string).
Class FlightSqlWire := {
  any_decode : list N → result string Any;
  any_encode : Any → list N;
}.
Class FlightSqlWireLaws `{FlightSqlWire} : Prop := {
  any_decode_encode a : any_decode (any_encode a) = Ok a;
}.

Inductive QStatus :=
| SInvalidArgument (message : string) | SUnimplemented (message : string) | SNotFound (message : string)
| SInternal (message : string) | SDeadlineExceeded (message : string)
| SOf (error : TeoDBError) | SAdmission (status : FlightStatus).

(** ** The SQL of metadata commands *)
Definition where_clause (conditions : list string) : string :=
  match conditions with [] => "" | _ => " WHERE " +:+ str_join " AND " conditions end.
Definition condition (before : string) (value : option string) : list string :=
  match value with Some v => [before +:+ "'" +:+ v +:+ "'"] | None => [] end.
Definition build_db_schemas_sql (cmd : CommandGetDbSchemas) : string :=
  "SELECT DISTINCT table_catalog AS catalog_name, table_schema AS db_schema_name FROM information_schema.tables" +:+
  where_clause (condition "table_catalog = " (ds_catalog cmd) ++ condition "table_schema LIKE " (ds_filter cmd)) +:+
  " ORDER BY catalog_name, db_schema_name".
Definition types_condition (types : list string) : list string :=
  match types with
  | [] => []
  | _ => ["table_type IN (" +:+ str_join ", " (map (λ t, "'" +:+ t +:+ "'") types) +:+ ")"]
  end.
Definition build_get_tables_sql (cmd : CommandGetTables) : string :=
  "SELECT table_catalog AS catalog_name, table_schema AS db_schema_name, table_name, table_type FROM information_schema.tables" +:+
  where_clause (condition "table_catalog = " (gt_catalog cmd) ++ condition "table_schema LIKE " (gt_schema_filter cmd) ++
                condition "table_name LIKE " (gt_table_filter cmd) ++ types_condition (gt_types cmd)) +:+
  " ORDER BY catalog_name, db_schema_name, table_name".
Definition get_catalogs_sql : string :=
  "SELECT DISTINCT table_catalog AS catalog_name FROM information_schema.tables ORDER BY catalog_name".

Definition field (name : string) (t : ArrowType) (nullable : bool) : ArrowField := mkArrowField name t nullable ∅.
Definition catalogs_schema : ArrowSchema := [field "catalog_name" AUtf8 false].
Definition db_schemas_schema : ArrowSchema := [field "catalog_name" AUtf8 false; field "db_schema_name" AUtf8 false].
Definition tables_schema : ArrowSchema :=
  [field "catalog_name" AUtf8 false; field "db_schema_name" AUtf8 false; field "table_name" AUtf8 false;
   field "table_type" AUtf8 false].
Definition table_types_schema : ArrowSchema := [field "table_type" AUtf8 false].
Definition primary_keys_schema : ArrowSchema :=
  [field "catalog_name" AUtf8 true; field "db_schema_name" AUtf8 true; field "table_name" AUtf8 false;
   field "column_name" AUtf8 false; field "key_name" AUtf8 true; field "key_sequence" AInt32 false].

Inductive FlightInfoRequest :=
| Statement (sql : string)
| MetadataQuery (sql : string) (schema : ArrowSchema)
| Static (ticket : string) (schema : ArrowSchema)
| SqlInfo (info : list N).

Definition decode_flight_info_request (cmd : Any) : result QStatus FlightInfoRequest :=
  match cmd with
  | AStatementQuery query =>
      if str_is_empty (str_trim query) then Err (SInvalidArgument "query must not be empty") else Ok (Statement query)
  | AGetCatalogs => Ok (MetadataQuery get_catalogs_sql catalogs_schema)
  | AGetDbSchemas command => Ok (MetadataQuery (build_db_schemas_sql command) db_schemas_schema)
  | AGetTables command => Ok (MetadataQuery (build_get_tables_sql command) tables_schema)
  | AGetTableTypes => Ok (Static "__table_types__" table_types_schema)
  | AGetSqlInfo info => Ok (SqlInfo info)
  | AGetPrimaryKeys => Ok (Static "__primary_keys__" primary_keys_schema)
  | _ => Err (SUnimplemented "FlightSQL command not supported: {}")
  end.

(** ** The query engine

    What the engine replies, [None] when the deadline passes first; a stream's items, with
    the moment its deadline passes.  A handler also yields the calls it made. *)
Inductive StreamEvent (Batch : Type) := SBatch (b : Batch) | SError (error : TeoDBError) | SLate.
Arguments SBatch {Batch} b.
Arguments SError {Batch} error.
Arguments SLate {Batch}.
Record QueryEnv (Batch : Type) := mkEnv {
  qe_authorizer : option Authorizer;
  qe_prepare : string → Principal → option (TeoDBResult ArrowSchema);
  qe_execute : string → Principal → option (TeoDBResult (list (StreamEvent Batch))) }.
Arguments mkEnv {Batch}.
Arguments qe_authorizer {Batch}.
Arguments qe_prepare {Batch}.
Arguments qe_execute {Batch}.
Inductive EngineCall := Prepare (sql : string) (principal : Principal) | ExecuteStream (sql : string) | Cancel (sql : string).

(** Descriptors and tickets are the bytes of their command. *)
Record FlightInfo := mkFlightInfo { fi_schema : ArrowSchema; fi_ticket : list N }.
(** What a stream of [do_get] carries: the schema, a batch of a query, and the batches made
    for the metadata commands. *)
Inductive Message (Batch : Type) :=
| MSchema (schema : ArrowSchema) | MBatch (b : Batch) | MText (column : list string) | MSqlInfo (info : list N).
Arguments MSchema {Batch} schema.
Arguments MBatch {Batch} b.
Arguments MText {Batch} column.
Arguments MSqlInfo {Batch} info.

(** ** Prepared statements

    The cache; an entry can also leave it at any time, evicted or idle for an hour. *)
Abbreviation PreparedStatementStore := (gmap string string).

Section handlers.
Context `{FlightSqlWire} {Batch : Type} (env : QueryEnv Batch).
(** The schema [SqlInfoData] gives its batches. *)
Context (sql_info_schema : ArrowSchema).
Abbreviation Msg := (Message Batch).

Definition authorize_query (principal : Principal) : result QStatus unit :=
  map_err SOf (api_authorize (qe_authorizer env) principal Query Cluster).

Definition plan_sql_schema (principal : Principal) (sql : string) : list EngineCall * result QStatus ArrowSchema :=
  match authorize_query principal with
  | Err s => ([], Err s)
  | Ok _ =>
      ([Prepare sql principal],
       match qe_prepare env sql principal with
       | Some (Ok schema) => Ok schema
       | Some (Err error) => Err (SOf error)
       | None => Err (SDeadlineExceeded "{timeout_operation} timed out after {}s")
       end)
  end.

Definition flight_info_for_sql (principal : Principal) (sql : string) : list EngineCall * result QStatus FlightInfo :=
  let '(calls, planned) := plan_sql_schema principal sql in
  (calls, schema ← planned; Ok (mkFlightInfo schema (any_encode (AStatementQuery sql)))).
Definition flight_info_for_schema (sql : string) (schema : ArrowSchema) : result QStatus FlightInfo :=
  Ok (mkFlightInfo schema (any_encode (AStatementQuery sql))).
Definition flight_info_for_sql_info (info : list N) : result QStatus FlightInfo :=
  Ok (mkFlightInfo sql_info_schema (any_encode (AGetSqlInfo info))).

Definition decode_request (message : string) (cmd : list N) : result QStatus FlightInfoRequest :=
  any ← map_err (λ _, SInvalidArgument message) (any_decode cmd);
  decode_flight_info_request any.
Definition get_flight_info (principal : Principal) (descriptor : list N) : list EngineCall * result QStatus FlightInfo :=
  match decode_request "cannot decode FlightSQL command: {e}" descriptor with
  | Err s => ([], Err s)
  | Ok (Statement sql) => flight_info_for_sql principal sql
  | Ok (MetadataQuery sql _) => flight_info_for_sql principal sql
  | Ok (Static ticket schema) => ([], flight_info_for_schema ticket schema)
  | Ok (SqlInfo info) => ([], flight_info_for_sql_info info)
  end.
(** The information and the progress, always complete. *)
Definition poll_flight_info (principal : Principal) (descriptor : list N)
    : list EngineCall * result QStatus (FlightInfo * N) :=
  let '(calls, info) := get_flight_info principal descriptor in (calls, info ← info; Ok (info, 1%N)).
Definition get_schema (principal : Principal) (descriptor : list N) : list EngineCall * result QStatus ArrowSchema :=
  match decode_request "cannot decode command: {e}" descriptor with
  | Err s => ([], Err s)
  | Ok (Statement sql) => plan_sql_schema principal sql
  | Ok (MetadataQuery _ schema) => ([], Ok schema)
  | Ok (Static _ schema) => ([], Ok schema)
  | Ok (SqlInfo _) => ([], Ok sql_info_schema)
  end.

Definition extract_sql_from_ticket (statements : PreparedStatementStore) (ticket : list N) : result QStatus string :=
  any ← map_err (λ _, SInvalidArgument "ticket must contain a FlightSQL command: {error}") (any_decode ticket);
  match any with
  | ATicketStatementQuery handle =>
      handle ← ok_or (string_from_utf8 handle) (SInvalidArgument "statement handle must be valid UTF-8");
      ok_or (statements !! handle) (SNotFound "prepared statement handle not found or expired")
  | AStatementQuery query => Ok query
  | _ => Err (SInvalidArgument "ticket is not a supported FlightSQL statement command")
  end.

(** The batches of a query under its deadline, and whether the query was cancelled. *)
Fixpoint batch_stream (events : list (StreamEvent Batch)) : list (result string Batch) * bool :=
  match events with
  | [] => ([], false)
  | SBatch b :: events => let '(items, late) := batch_stream events in (Ok b :: items, late)
  | SError _ :: _ => ([Err "query streaming: {e}"], false)
  | SLate :: _ => ([Err "query streaming timed out after {deadline_secs}s"], true)
  end.
Definition encode_item (item : result string Batch) : result QStatus Msg :=
  match item with Ok b => Ok (MBatch b) | Err _ => Err (SInternal "flight encoding: {e}") end.

Definition do_get (statements : PreparedStatementStore) (principal : Principal) (ticket : list N)
    : list EngineCall * result QStatus (list (result QStatus Msg)) :=
  match any_decode ticket with
  | Ok (AGetSqlInfo info) => ([], Ok [Ok (MSchema sql_info_schema); Ok (MSqlInfo info)])
  | _ =>
      match extract_sql_from_ticket statements ticket with
      | Err s => ([], Err s)
      | Ok sql =>
          if bool_decide (sql = "__table_types__") then ([], Ok [Ok (MSchema table_types_schema); Ok (MText ["TABLE"; "VIEW"])])
          else if bool_decide (sql = "__primary_keys__") then ([], Ok [Ok (MSchema primary_keys_schema); Ok (MText [])])
          else if str_is_empty (str_trim sql) then ([], Err (SInvalidArgument "ticket must contain a non-empty SQL query"))
          else
            match authorize_query principal with
            | Err s => ([], Err s)
            | Ok _ =>
                match qe_prepare env sql principal with
                | Some (Err error) => ([Prepare sql principal], Err (SOf error))
                | None => ([Prepare sql principal; Cancel sql], Err (SDeadlineExceeded "query planning timed out after {}s"))
                | Some (Ok result_schema) =>
                    match qe_execute env sql principal with
                    | Some (Err error) => ([Prepare sql principal; ExecuteStream sql], Err (SOf error))
                    | None =>
                        ([Prepare sql principal; ExecuteStream sql; Cancel sql],
                         Err (SDeadlineExceeded "query execution timed out after {}s"))
                    | Some (Ok events) =>
                        let '(items, late) := batch_stream events in
                        ([Prepare sql principal; ExecuteStream sql] ++ (if late then [Cancel sql] else []),
                         Ok (Ok (MSchema result_schema) :: map encode_item items))
                    end
                end
            end
      end
  end.

Definition CREATE_URL : string := "type.googleapis.com/arrow.flight.protocol.sql.ActionCreatePreparedStatementRequest".
Definition CLOSE_URL : string := "type.googleapis.com/arrow.flight.protocol.sql.ActionClosePreparedStatementRequest".

(** [handle_id]: the text of a new UUID; [encode_schema]: the schema in Arrow's IPC format. *)
Definition handle_create (encode_schema : ArrowSchema → list N) (statements : PreparedStatementStore) (principal : Principal) (body : list N) (handle_id : string)
    : PreparedStatementStore * list EngineCall * result QStatus (list (list N)) :=
  match any_decode body with
  | Err _ => (statements, [], Err (SInvalidArgument "cannot decode action body: {e}"))
  | Ok (ACreatePrepared sql) =>
      if str_is_empty (str_trim sql) then (statements, [], Err (SInvalidArgument "prepared statement query must not be empty"))
      else
        match authorize_query principal with
        | Err s => (statements, [], Err s)
        | Ok _ =>
            match qe_prepare env sql principal with
            | Some (Ok schema) =>
                (<[handle_id := sql]> statements, [Prepare sql principal],
                 Ok [any_encode (ACreatePreparedResult (as_bytes handle_id) (encode_schema schema))])
            | Some (Err error) => (statements, [Prepare sql principal], Err (SOf error))
            | None =>
                (statements, [Prepare sql principal],
                 Err (SDeadlineExceeded "prepared statement validation timed out after {}s"))
            end
        end
  | Ok (AMalformed url) =>
      (statements, [],
       Err (if bool_decide (url = CREATE_URL) then SInternal "failed to unpack CreatePreparedStatement: {e}"
            else SInvalidArgument "action body is not a CreatePreparedStatementRequest"))
  | Ok _ => (statements, [], Err (SInvalidArgument "action body is not a CreatePreparedStatementRequest"))
  end.
Definition handle_close (statements : PreparedStatementStore) (body : list N)
    : PreparedStatementStore * result QStatus (list (list N)) :=
  match any_decode body with
  | Err _ => (statements, Err (SInvalidArgument "cannot decode action body: {e}"))
  | Ok (AClosePrepared handle) =>
      match string_from_utf8 handle with
      | Some handle => (delete handle statements, Ok [])
      | None => (statements, Err (SInvalidArgument "prepared statement handle must be valid UTF-8"))
      end
  | Ok (AMalformed url) =>
      (statements,
       Err (if bool_decide (url = CLOSE_URL) then SInternal "failed to unpack ClosePreparedStatement: {e}"
            else SInvalidArgument "action body is not a ClosePreparedStatementRequest"))
  | Ok _ => (statements, Err (SInvalidArgument "action body is not a ClosePreparedStatementRequest"))
  end.
End handlers.

(** ** The service *)
Inductive FlightRpc :=
| RpcGetFlightInfo (descriptor : list N)
| RpcPollFlightInfo (descriptor : list N)
| RpcGetSchema (descriptor : list N)
| RpcDoGet (ticket : list N)
| RpcDoAction (type : string) (body : list N)
| RpcDoExchange
| RpcHandshake
| RpcListFlights
| RpcListActions.
Inductive RpcResponse (Batch : Type) :=
| RInfo (info : FlightInfo) | RPoll (info : FlightInfo) (progress : N) | RSchema (schema : ArrowSchema)
| RStream (items : list (result QStatus (Message Batch))) | RResults (bodies : list (list N))
| RHandshake | RFlights | RActions (types : list string).
Arguments RInfo {Batch} info.
Arguments RPoll {Batch} info progress.
Arguments RSchema {Batch} schema.
Arguments RStream {Batch} items.
Arguments RResults {Batch} bodies.
Arguments RHandshake {Batch}.
Arguments RFlights {Batch}.
Arguments RActions {Batch} types.
Record TeoFlightService := mkService { fs_admission : ApiAdmission; fs_prepared : PreparedStatementStore }.
Record RpcMeta := mkMeta { rm_peer : option IpAddr; rm_headers : HeaderMap; rm_authorization : option (option string) }.

Section service.
Context `{FlightSqlWire} `{JwtLibrary} (hash : string → N) {Batch : Type} (env : QueryEnv Batch) (sql_info_schema : ArrowSchema).
Context (encode_schema : ArrowSchema → list N).

(** The budget a request counts against; requests without one are not authenticated. *)
Definition rpc_scope (rpc : FlightRpc) : option RateScope :=
  match rpc with
  | RpcGetFlightInfo _ | RpcPollFlightInfo _ | RpcGetSchema _ | RpcDoGet _ => Some Read
  | RpcDoAction _ _ => Some Write
  | RpcDoExchange | RpcHandshake | RpcListFlights | RpcListActions => None
  end.
(** The body of a request of an admitted principal. *)
Definition rpc_body (statements : PreparedStatementStore) (principal : Principal) (rpc : FlightRpc) (handle_id : string)
    : PreparedStatementStore * list EngineCall * result QStatus (RpcResponse Batch) :=
  match rpc with
  | RpcGetFlightInfo d => let '(calls, r) := get_flight_info env sql_info_schema principal d in (statements, calls, RInfo <$> r)
  | RpcPollFlightInfo d =>
      let '(calls, r) := poll_flight_info env sql_info_schema principal d in
      (statements, calls, '(info, progress) ← r; Ok (RPoll info progress))
  | RpcGetSchema d => let '(calls, r) := get_schema env sql_info_schema principal d in (statements, calls, RSchema <$> r)
  | RpcDoGet t => let '(calls, r) := do_get env sql_info_schema statements principal t in (statements, calls, RStream <$> r)
  | RpcDoAction type body =>
      if bool_decide (type = "CreatePreparedStatement") then
        let '(statements, calls, r) := handle_create env encode_schema statements principal body handle_id in (statements, calls, RResults <$> r)
      else if bool_decide (type = "ClosePreparedStatement") then
        let '(statements, r) := handle_close statements body in (statements, [], RResults <$> r)
      else (statements, [], Err (SUnimplemented "action not supported: {other}"))
  | RpcDoExchange =>
      (statements, [], Err (SUnimplemented "do_exchange is not supported; use do_put for ingest and do_get for queries"))
  | RpcHandshake => (statements, [], Ok RHandshake)
  | RpcListFlights => (statements, [], Ok RFlights)
  | RpcListActions => (statements, [], Ok (RActions ["CreatePreparedStatement"; "ClosePreparedStatement"]))
  end.

(** A request: the principal, its permit, and the body; a failed body drops the permit, the
    one taken last. *)
Definition flight_rpc (self : TeoFlightService) (validator : option JwtValidator) (meta : RpcMeta) (rpc : FlightRpc)
    (handle_id : string) (now : N) : TeoFlightService * list EngineCall * result QStatus (RpcResponse Batch) :=
  match rpc_scope rpc with
  | None => let '(statements, calls, r) := rpc_body (fs_prepared self) anonymous_principal rpc handle_id in
            (mkService (fs_admission self) statements, calls, r)
  | Some scope =>
      match principal_from_request hash (fs_admission self) validator (rm_peer meta) (rm_headers meta)
              (rm_authorization meta) scope now with
      | (admission, Err s) => (mkService admission (fs_prepared self), [], Err (SAdmission s))
      | (admission, Ok principal) =>
          match flight_admit hash admission principal with
          | (admission, Err s) => (mkService admission (fs_prepared self), [], Err (SAdmission s))
          | (admission, Ok _) =>
              let '(statements, calls, r) := rpc_body (fs_prepared self) principal rpc handle_id in
              let admission := match r with
                               | Ok _ => admission
                               | Err _ => with_principals admission (release_permit (ad_principals admission) 0)
                               end in
              (mkService admission statements, calls, r)
          end
      end
  end.
End service.

(** ** Who may use the engine

    The calls of a principal, and what a body that called the engine went through. *)
Definition call_by (principal : Principal) (calls : list EngineCall) : Prop :=
  ∀ sql p, Prepare sql p ∈ calls → p = principal.
Definition engine_use_ok {Batch} (env : QueryEnv Batch) (principal : Principal) (calls : list EngineCall) : Prop :=
  calls = [] ∨ api_authorize (qe_authorizer env) principal Query Cluster = Ok tt ∧ call_by principal calls.

Lemma no_calls_ok {Batch} (env : QueryEnv Batch) principal : engine_use_ok env principal [].
Proof. by left. Qed.
#[local] Hint Resolve no_calls_ok : core.

Ltac calls_by := intros ? ? Hin; set_unfold in Hin; naive_solver.
Section authorization.
Context `{FlightSqlWire} {Batch : Type} (env : QueryEnv Batch) (info_schema : ArrowSchema) (statements : PreparedStatementStore).
Context (encode_schema : ArrowSchema → list N).

Lemma authorize_query_Ok p u : authorize_query env p = Ok u → api_authorize (qe_authorizer env) p Query Cluster = Ok tt.
Proof. unfold authorize_query. rewrite map_err_Ok. by destruct u. Qed.
Lemma plan_calls_ok p sql : engine_use_ok env p (plan_sql_schema env p sql).1.
Proof.
  unfold plan_sql_schema. destruct (authorize_query env p) eqn:Ha; [|done].
  right. split; [by eapply authorize_query_Ok|]. simpl. calls_by.
Qed.
Lemma info_calls_ok p d : engine_use_ok env p (get_flight_info env info_schema p d).1.
Proof.
  unfold get_flight_info, flight_info_for_sql. repeat case_match; simpl; try done; simplify_eq.
  all: match goal with H : plan_sql_schema _ ?p ?sql = (?calls, _) |- _ =>
         pose proof (plan_calls_ok p sql) as Hok; rewrite H in Hok; exact Hok end.
Qed.
Lemma schema_calls_ok p d : engine_use_ok env p (get_schema env info_schema p d).1.
Proof. unfold get_schema. repeat case_match; simpl; try done. apply plan_calls_ok. Qed.
Lemma get_calls_ok p t : engine_use_ok env p (do_get env info_schema statements p t).1.
Proof.
  unfold do_get. destruct (authorize_query env p) eqn:Ha; [|by repeat case_match].
  apply authorize_query_Ok in Ha. repeat case_match; simpl; try done; right; (split; [done|]); calls_by.
Qed.
Lemma create_calls_ok p body id : engine_use_ok env p (handle_create env encode_schema statements p body id).1.2.
Proof.
  unfold handle_create. destruct (authorize_query env p) eqn:Ha; [|by repeat case_match].
  apply authorize_query_Ok in Ha. repeat case_match; simpl; try done; right; (split; [done|]); calls_by.
Qed.
Lemma body_calls_ok p rpc id : engine_use_ok env p (rpc_body env info_schema encode_schema statements p rpc id).1.2.
Proof.
  destruct rpc as [d|d|d|t|type body| | | |]; simpl; try done.
  - pose proof (info_calls_ok p d). by destruct (get_flight_info _ _ _ _).
  - unfold poll_flight_info. pose proof (info_calls_ok p d). by destruct (get_flight_info _ _ _ _).
  - pose proof (schema_calls_ok p d). by destruct (get_schema _ _ _ _).
  - pose proof (get_calls_ok p t). by destruct (do_get _ _ _ _ _).
  - repeat case_match; simpl; try done.
    match goal with H : handle_create _ _ _ ?p ?b ?i = _ |- _ =>
      pose proof (create_calls_ok p b i) as Hok; rewrite H in Hok; exact Hok end.
Qed.
End authorization.

Section service_spec.
Context `{FlightSqlWire} `{JwtLibrary} (hash : string → N) {Batch : Type} (env : QueryEnv Batch) (info_schema : ArrowSchema).
Context (encode_schema : ArrowSchema → list N).

Lemma from_request_authenticated a v peer headers auth scope now p :
  (principal_from_request hash a v peer headers auth scope now).2 = Ok p →
  ∃ r, authenticate_bearer v (extract_bearer_token auth) = Ok r ∧ ar_principal r = p.
Proof. unfold principal_from_request. repeat case_match; simpl; intros ?; simplify_eq; eauto. Qed.

End service_spec.

(** ** Tickets and prepared statements *)
Definition MARKERS : list string := ["__table_types__"; "__primary_keys__"].

Lemma trim_left_last s c : is_space c = false → str_trim_left (s +:+ String c "") ≠ "".
Proof.
  intros Hc. induction s as [|a s IH]; [simpl; by rewrite Hc|].
  rewrite str_app_cons. simpl. by case_match.
Qed.
Lemma trim_nonempty c s : is_space c = false → str_is_empty (str_trim (String c s)) = false.
Proof.
  intros Hc. unfold str_trim. simpl str_trim_left. rewrite Hc.
  change (String c s) with (String c "" +:+ s). rewrite str_rev_append.
  change (str_rev (String c "")) with (String c "").
  pose proof (trim_left_last (str_rev s) c Hc) as Hne.
  destruct (str_trim_left (str_rev s +:+ String c "")) as [|a t] eqn:Ht; [done|].
  change (String a t) with (String a "" +:+ t). rewrite str_rev_append. by destruct (str_rev t).
Qed.

(** A stream is the batches up to the first failure, which ends it; the query is cancelled
    when the failure is the deadline. *)
Lemma batch_stream_spec {Batch} (bs : list Batch) (rest : list (StreamEvent Batch)) :
  batch_stream (map SBatch bs ++ rest) =
    (map Ok bs ++ (batch_stream rest).1, (batch_stream rest).2).
Proof.
  induction bs as [|b bs IH]; simpl; [by destruct (batch_stream rest)|]. by rewrite IH.
Qed.

Section tickets.
Context `{FlightSqlWireLaws} {Batch : Type} (env : QueryEnv Batch) (info_schema : ArrowSchema).

Lemma get_inline sts p sql :
  sql ∉ MARKERS → str_is_empty (str_trim sql) = false →
  do_get env info_schema sts p (any_encode (AStatementQuery sql)) =
  match authorize_query env p with
  | Err s => ([], Err s)
  | Ok _ =>
      match qe_prepare env sql p with
      | Some (Err error) => ([Prepare sql p], Err (SOf error))
      | None => ([Prepare sql p; Cancel sql], Err (SDeadlineExceeded "query planning timed out after {}s"))
      | Some (Ok schema) =>
          match qe_execute env sql p with
          | Some (Err error) => ([Prepare sql p; ExecuteStream sql], Err (SOf error))
          | None => ([Prepare sql p; ExecuteStream sql; Cancel sql], Err (SDeadlineExceeded "query execution timed out after {}s"))
          | Some (Ok events) =>
              ([Prepare sql p; ExecuteStream sql] ++ (if (batch_stream events).2 then [Cancel sql] else []),
               Ok (Ok (MSchema schema) :: map encode_item (batch_stream events).1))
          end
      end
  end.
Proof.
  intros Hm Ht. unfold MARKERS in Hm. apply not_elem_of_cons in Hm as [H1 Hm]. apply not_elem_of_cons in Hm as [H2 _].
  unfold do_get, extract_sql_from_ticket. rewrite any_decode_encode. cbn [map_err mbind result_bind].
  rewrite (bool_decide_eq_false_2 _ H1), (bool_decide_eq_false_2 _ H2), Ht.
  repeat case_match; simplify_eq/=; done.
Qed.
Lemma get_static sts p sql schema text :
  (sql, schema, text) ∈ [("__table_types__", table_types_schema, ["TABLE"; "VIEW"]); ("__primary_keys__", primary_keys_schema, [])] →
  do_get env info_schema sts p (any_encode (AStatementQuery sql)) = ([], Ok [Ok (MSchema schema); Ok (MText text)]).
Proof.
  intros Hin. unfold do_get, extract_sql_from_ticket. rewrite any_decode_encode. cbn [map_err mbind result_bind].
  apply elem_of_cons in Hin as [Hin|Hin]; [by simplify_eq/=|]. apply list_elem_of_singleton in Hin. by simplify_eq/=.
Qed.
Lemma get_sql_info sts p info :
  do_get env info_schema sts p (any_encode (AGetSqlInfo info)) = ([], Ok [Ok (MSchema info_schema); Ok (MSqlInfo info)]).
Proof. unfold do_get. by rewrite any_decode_encode. Qed.

Lemma decoded_sql_nonempty cmd sql schema :
  decode_flight_info_request cmd = Ok (Statement sql) ∨ decode_flight_info_request cmd = Ok (MetadataQuery sql schema) →
  str_is_empty (str_trim sql) = false.
Proof.
  destruct cmd; simpl; intros [Hd|Hd]; simplify_eq; try (by apply trim_nonempty).
  - by case_match; simplify_eq.
  - by case_match; simplify_eq.
Qed.

Definition prepares (calls : list EngineCall) : list EngineCall :=
  List.filter (λ c, match c with Prepare _ _ => true | _ => false end) calls.

(** [do_get] with the ticket of a reply plans what was planned for the reply, and its stream
    opens with the schema announced, unless the statement fails to execute. *)
Definition served_as (sts : PreparedStatementStore) (p : Principal) (calls : list EngineCall) (info : FlightInfo) : Prop :=
  let '(calls', r) := do_get env info_schema sts p (fi_ticket info) in
  prepares calls' = calls
  ∧ match r with
    | Ok stream => head stream = Some (Ok (MSchema (fi_schema info)))
    | Err _ => ∃ sql, Prepare sql p ∈ calls ∧ ∀ events, qe_execute env sql p ≠ Some (Ok events)
    end.
Context (planner_refuses : ∀ m q schema, m ∈ MARKERS → qe_prepare env m q ≠ Some (Ok schema)).

Lemma info_then_get sts p sql calls info :
  str_is_empty (str_trim sql) = false → flight_info_for_sql env p sql = (calls, Ok info) → served_as sts p calls info.
Proof using All.
  intros Ht. unfold flight_info_for_sql, plan_sql_schema.
  destruct (authorize_query env p) eqn:Ha; [|intros; by simplify_eq/=].
  destruct (qe_prepare env sql p) as [[schema|e]|] eqn:Hp; simpl; intros ?; simplify_eq. unfold served_as. simpl.
  rewrite get_inline, Ha, Hp; [|intros Hin; by eapply planner_refuses|done].
  destruct (qe_execute env sql p) as [[events|e]|] eqn:He; simpl.
  - by destruct (batch_stream events) as [items [|]].
  - split; [done|]. exists sql. split; [constructor|]. by rewrite He.
  - split; [done|]. exists sql. split; [constructor|]. by rewrite He.
Qed.
(** The ticket of a [get_flight_info] reply, whatever command was sent and whatever
    statements are prepared, makes [do_get] plan exactly the statement that was planned for
    the reply (none, for commands answered without SQL) and open its stream with the schema
    the reply announced; it fails only when the engine fails to execute the statement.  The
    planner is assumed to refuse the two marker words, which are not SQL. *)
Theorem announced_schema_served sts p d calls info :
  get_flight_info env info_schema p d = (calls, Ok info) → served_as sts p calls info.
Proof using All.
  intros Hget. unfold get_flight_info, decode_request in Hget.
  destruct (any_decode d) as [cmd|]; simpl in Hget; [|done].
  destruct (decode_flight_info_request cmd) as [[sql|sql schema|t schema|i]|] eqn:Hd; [| | | |done].
  - eapply info_then_get; [eapply (decoded_sql_nonempty cmd sql []); by left|done].
  - eapply info_then_get; [eapply (decoded_sql_nonempty cmd sql schema); by right|done].
  - injection Hget as <- <-. unfold served_as. cbn [fi_ticket fi_schema].
    assert (∃ text, (t, schema, text) ∈ [("__table_types__", table_types_schema, ["TABLE"; "VIEW"]);
                                          ("__primary_keys__", primary_keys_schema, [])]) as [text Hin].
    { destruct cmd; simpl in Hd; try done; repeat case_match; simplify_eq; eexists; repeat constructor. }
    by rewrite (get_static _ _ _ _ _ Hin).
  - injection Hget as <- <-. unfold served_as. cbn [fi_ticket fi_schema]. by rewrite get_sql_info.
Qed.

Lemma ascii_from_utf8 s : str_bytes_all (λ a, (N_of_ascii a <? 128)%N) s = true → string_from_utf8 (as_bytes s) = Some s.
Proof.
  unfold string_from_utf8, as_bytes. intros Hs.
  assert (utf8_valid (map N_of_ascii (String.list_ascii_of_string s)) = true ∧
          string_of_codes (map N_of_ascii (String.list_ascii_of_string s)) = s) as [-> ->]; [|done].
  induction s as [|a s IH]; [done|]. simpl in Hs. apply andb_true_iff in Hs as [Ha Hs].
  destruct (IH Hs) as [Hv Hc]. cbn [String.list_ascii_of_string map utf8_valid string_of_codes foldr].
  rewrite Ha. split; [done|]. unfold string_of_codes in Hc. by rewrite Hc, ascii_N_embedding.
Qed.
(** While the statement stays in the cache, the ticket of a prepared handle is the ticket of
    its SQL, for every principal. *)
Theorem prepared_ticket_runs_statement encode_schema sts sts' p q body id calls results :
  str_bytes_all (λ a, (N_of_ascii a <? 128)%N) id = true →
  handle_create env encode_schema sts p body id = (sts', calls, Ok results) →
  ∃ sql, any_decode body = Ok (ACreatePrepared sql) ∧ calls = [Prepare sql p]
    ∧ ∀ later, later !! id = sts' !! id →
      do_get env info_schema later q (any_encode (ATicketStatementQuery (as_bytes id))) =
      do_get env info_schema later q (any_encode (AStatementQuery sql)).
Proof.
  intros Hid. unfold handle_create.
  destruct (any_decode body) as [[]|] eqn:Hb; try (intros; repeat case_match; by simplify_eq).
  destruct (str_is_empty (str_trim query)); [done|].
  destruct (authorize_query env p); [|done]. destruct (qe_prepare env query p) as [[]|]; intros ?; simplify_eq.
  exists query. do 2 (split; [done|]). intros later Hl. rewrite lookup_insert in Hl. case_decide; [|done].
  unfold do_get, extract_sql_from_ticket. rewrite !any_decode_encode. cbn [map_err mbind result_bind].
  rewrite (ascii_from_utf8 id Hid). cbn [ok_or mbind result_bind]. by rewrite Hl.
Qed.
End tickets.

(** *** A concrete wire *)
Definition AnyCode : Type := N * list string * list (option string) * list N * list N * bool.
Definition any_code (a : Any) : AnyCode :=
  match a with
  | AStatementQuery q => (0%N, [q], [], [], [], false)
  | AGetCatalogs => (1%N, [], [], [], [], false)
  | AGetDbSchemas c => (2%N, [], [ds_catalog c; ds_filter c], [], [], false)
  | AGetTables c => (3%N, gt_types c, [gt_catalog c; gt_schema_filter c; gt_table_filter c], [], [], gt_include_schema c)
  | AGetTableTypes => (4%N, [], [], [], [], false)
  | AGetSqlInfo info => (5%N, [], [], info, [], false)
  | AGetPrimaryKeys => (6%N, [], [], [], [], false)
  | ATicketStatementQuery h => (7%N, [], [], h, [], false)
  | ACreatePrepared q => (8%N, [q], [], [], [], false)
  | AClosePrepared h => (9%N, [], [], h, [], false)
  | ACreatePreparedResult h s => (10%N, [], [], h, s, false)
  | AMalformed u => (11%N, [u], [], [], [], false)
  | AUnknown u => (12%N, [u], [], [], [], false)
  end.
Definition any_of_code (c : AnyCode) : option Any :=
  match c with
  | (0, [q], _, _, _, _)%N => Some (AStatementQuery q)
  | (1, _, _, _, _, _)%N => Some AGetCatalogs
  | (2, _, [c; f], _, _, _)%N => Some (AGetDbSchemas (mkGetDbSchemas c f))
  | (3, ts, [c; f; t], _, _, i)%N => Some (AGetTables (mkGetTables c f t ts i))
  | (4, _, _, _, _, _)%N => Some AGetTableTypes
  | (5, _, _, info, _, _)%N => Some (AGetSqlInfo info)
  | (6, _, _, _, _, _)%N => Some AGetPrimaryKeys
  | (7, _, _, h, _, _)%N => Some (ATicketStatementQuery h)
  | (8, [q], _, _, _, _)%N => Some (ACreatePrepared q)
  | (9, _, _, h, _, _)%N => Some (AClosePrepared h)
  | (10, _, _, h, s, _)%N => Some (ACreatePreparedResult h s)
  | (11, [u], _, _, _, _)%N => Some (AMalformed u)
  | (12, [u], _, _, _, _)%N => Some (AUnknown u)
  | _ => None
  end.
#[local] Instance demo_wire : FlightSqlWire :=
  {| any_decode l := match l with [Npos p] => ok_or (decode p ≫= any_of_code) "invalid message" | _ => Err "invalid message" end;
     any_encode a := [Npos (encode (any_code a))] |}.
#[local] Instance demo_wire_laws : FlightSqlWireLaws.
Proof. constructor. intros a. cbn -[encode decode]. rewrite decode_encode. by destruct a as [| |[]|[]| | | | | | | | |]. Qed.

(** An engine that plans statements beginning with SELECT, for everybody but mallory. *)
Definition demo_authorizer : Authorizer :=
  λ p _ _, if bool_decide (subject p = "bearer:mallory") then Err (Forbidden "denied") else Ok tt.
Definition demo_env : QueryEnv N :=
  mkEnv (Some demo_authorizer)
    (λ sql _, Some (if str_starts_with "SELECT" sql then Ok catalogs_schema else Err (QueryExecution "syntax error")))
    (λ _ _, Some (Ok [SBatch 7%N; SLate])).
#[local] Instance demo_jwt : JwtLibrary :=
  {| DecodingKey := unit; jwt_decode _ _ _ := Err OtherJwtError; sha256_hex t := t |}.
Definition demo_service : TeoFlightService :=
  mkService (mkAdmission (rates_new 10 60 0) (principals_new 10 2) [] 100 100 100) ∅.
Definition demo_meta (token : string) : RpcMeta := mkMeta None (mkHeaderMap [] []) (Some (Some ("Bearer " +:+ token))).
Definition demo_alice : Principal := mkPrincipal "bearer:alice" [] ∅.

Lemma demo_refuses m (q : Principal) schema : m ∈ MARKERS → qe_prepare demo_env m q ≠ Some (Ok schema).
Proof. unfold MARKERS. rewrite !elem_of_cons. intros [->|[->|Hin]]; [done|done|by apply not_elem_of_nil in Hin]. Qed.
Definition demo_select : Any := AStatementQuery "SELECT 1".
Definition demo_prepare : EngineCall := Prepare "SELECT 1" demo_alice.


Lemma announced_schema_served_witness :
  ∃ info, get_flight_info demo_env [] demo_alice (any_encode demo_select) = ([demo_prepare], Ok info)
    ∧ served_as demo_env [] ∅ demo_alice [demo_prepare] info.
Proof.
  exists (mkFlightInfo catalogs_schema (any_encode demo_select)).
  assert (Hget : get_flight_info demo_env [] demo_alice (any_encode demo_select) =
    ([demo_prepare], Ok (mkFlightInfo catalogs_schema (any_encode demo_select)))) by (vm_compute; reflexivity).
  split; [exact Hget|]. exact (announced_schema_served demo_env [] demo_refuses ∅ demo_alice _ _ _ Hget).
Defined.

(** ** What the metadata commands ask

    SQL's single-quoted literals: a statement with each literal replaced by a question mark,
    and the values of the literals, a doubled quote standing for a quote; [None] when the
    last literal is not closed. *)
Fixpoint sql_lex (literal : option string) (s : string) : option (string * list string) :=
  match s with
  | EmptyString => match literal with None => Some ("", []) | Some _ => None end
  | String c s1 =>
      match literal with
      | None =>
          if bool_decide (c = "'"%char) then '(t, ls) ← sql_lex (Some "") s1; Some (String "?" t, ls)
          else '(t, ls) ← sql_lex None s1; Some (String c t, ls)
      | Some acc =>
          if bool_decide (c = "'"%char) then
            match s1 with
            | String c2 s2 =>
                if bool_decide (c2 = "'"%char) then sql_lex (Some (acc +:+ "'")) s2
                else '(t, ls) ← sql_lex None s1; Some (t, acc :: ls)
            | EmptyString => Some ("", [acc])
            end
          else sql_lex (Some (acc +:+ String c "")) s1
      end
  end.

(** The statements with parameters in place of the values. *)
Definition placeholder (before : string) (value : option string) : list string :=
  match value with Some _ => [before +:+ "?"] | None => [] end.
Definition db_schemas_template (cmd : CommandGetDbSchemas) : string :=
  "SELECT DISTINCT table_catalog AS catalog_name, table_schema AS db_schema_name FROM information_schema.tables" +:+
  where_clause (placeholder "table_catalog = " (ds_catalog cmd) ++ placeholder "table_schema LIKE " (ds_filter cmd)) +:+
  " ORDER BY catalog_name, db_schema_name".
Definition types_placeholder (types : list string) : list string :=
  match types with [] => [] | _ => ["table_type IN (" +:+ str_join ", " (map (λ _, "?") types) +:+ ")"] end.
Definition get_tables_template (cmd : CommandGetTables) : string :=
  "SELECT table_catalog AS catalog_name, table_schema AS db_schema_name, table_name, table_type FROM information_schema.tables" +:+
  where_clause (placeholder "table_catalog = " (gt_catalog cmd) ++ placeholder "table_schema LIKE " (gt_schema_filter cmd) ++
                placeholder "table_name LIKE " (gt_table_filter cmd) ++ types_placeholder (gt_types cmd)) +:+
  " ORDER BY catalog_name, db_schema_name, table_name".
Definition db_schemas_values (cmd : CommandGetDbSchemas) : list string := option_list (ds_catalog cmd) ++ option_list (ds_filter cmd).
Definition get_tables_values (cmd : CommandGetTables) : list string :=
  option_list (gt_catalog cmd) ++ option_list (gt_schema_filter cmd) ++ option_list (gt_table_filter cmd) ++ gt_types cmd.
Definition quote_free (v : string) : Prop := str_free "'" v = true.

(** [s] reads as the template [t] with the values [ls], before any text that does not start
    with a quote. *)
Definition no_quote_first (s : string) : Prop := match s with String c _ => c ≠ "'"%char | EmptyString => True end.
Definition lexes (s t : string) (ls : list string) : Prop :=
  ∀ rest t' ls', no_quote_first rest → sql_lex None rest = Some (t', ls') →
    sql_lex None (s +:+ rest) = Some (t +:+ t', ls ++ ls').

Lemma lex_text s rest t ls :
  quote_free s → sql_lex None rest = Some (t, ls) → sql_lex None (s +:+ rest) = Some (s +:+ t, ls).
Proof.
  unfold quote_free. intros Hs Hr. induction s as [|c s IH]; [done|]. apply str_free_cons in Hs as [Hc Hs].
  rewrite !str_app_cons. cbn [sql_lex]. rewrite bool_decide_eq_false_2 by done. by rewrite (IH Hs).
Qed.
Lemma lex_literal acc v rest t ls :
  quote_free v → no_quote_first rest → sql_lex None rest = Some (t, ls) →
  sql_lex (Some acc) (v +:+ "'" +:+ rest) = Some (t, (acc +:+ v) :: ls).
Proof.
  unfold quote_free. revert acc. induction v as [|c v IH]; intros acc Hv Hn Hr.
  - rewrite str_app_nil, str_app_nil_r. change ("'" +:+ rest) with (String "'" rest). cbn [sql_lex].
    rewrite bool_decide_eq_true_2 by done. destruct rest as [|c r]; [simpl in Hr; by simplify_eq|].
    simpl in Hn. rewrite bool_decide_eq_false_2 by done. by rewrite Hr.
  - apply str_free_cons in Hv as [Hc Hv]. rewrite str_app_cons. cbn [sql_lex]. rewrite bool_decide_eq_false_2 by done.
    rewrite (IH _ Hv Hn Hr). by rewrite <- str_app_assoc.
Qed.
Lemma lexes_condition before v :
  quote_free before → quote_free v → lexes (before +:+ "'" +:+ v +:+ "'") (before +:+ "?") [v].
Proof.
  intros Hb Hv rest t ls Hn Hr. rewrite <- !str_app_assoc. simpl app. apply lex_text; [done|].
  change ("'" +:+ ?x) with (String "'" x). change ("?" +:+ t) with (String "?" t). cbn [sql_lex].
  rewrite bool_decide_eq_true_2 by done. by rewrite (lex_literal "" v rest t ls).
Qed.
Lemma lexes_text_app s1 s t ls : quote_free s1 → lexes s t ls → lexes (s1 +:+ s) (s1 +:+ t) ls.
Proof. intros H1 Hs rest t' ls' Hn Hr. rewrite <- !str_app_assoc. apply lex_text; [done|]. by apply Hs. Qed.
Lemma lexes_app_text s t ls s2 :
  lexes s t ls → quote_free s2 → no_quote_first s2 → s2 ≠ "" → lexes (s +:+ s2) (t +:+ s2) ls.
Proof.
  intros Hs H2 Hf Hne rest t' ls' Hn Hr. rewrite <- !str_app_assoc.
  apply Hs; [by destruct s2|]. by apply lex_text.
Qed.
Lemma lexes_join sep (ws : list (string * string * list string)) :
  quote_free sep → no_quote_first sep → sep ≠ "" →
  Forall (λ '(s, t, ls), lexes s t ls) ws →
  lexes (str_join sep (map (λ w, w.1.1) ws)) (str_join sep (map (λ w, w.1.2) ws)) (concat (map snd ws)).
Proof.
  intros Hq Hf Hne Hws. induction Hws as [|[[s t] ls] ws Hs Hws IH]; [by intros rest t' ls' _ Hr|].
  destruct ws as [|w ws]; [simpl; by rewrite app_nil_r|].
  change (lexes (s +:+ sep +:+ str_join sep (map (λ w, w.1.1) (w :: ws)))
                (t +:+ sep +:+ str_join sep (map (λ w, w.1.2) (w :: ws))) (ls ++ concat (map snd (w :: ws)))).
  intros rest t' ls' Hn Hr. rewrite <- !str_app_assoc, <- app_assoc. apply Hs; [by destruct sep|].
  apply lex_text; [done|]. by apply IH.
Qed.

(** A condition, its template and its values. *)
Definition read_condition (before : string) (value : option string) : list (string * string * list string) :=
  match value with Some v => [(before +:+ "'" +:+ v +:+ "'", before +:+ "?", [v])] | None => [] end.
Definition read_types (types : list string) : list (string * string * list string) :=
  match types with
  | [] => []
  | _ => [("table_type IN (" +:+ str_join ", " (map (λ t, "'" +:+ t +:+ "'") types) +:+ ")",
           "table_type IN (" +:+ str_join ", " (map (λ _, "?") types) +:+ ")", types)]
  end.
Lemma read_texts b v : map (λ w, w.1.1) (read_condition b v) = condition b v.
Proof. by destruct v. Qed.
Lemma read_templates b v : map (λ w, w.1.2) (read_condition b v) = placeholder b v.
Proof. by destruct v. Qed.
Lemma read_values b v : concat (map snd (read_condition b v)) = option_list v.
Proof. by destruct v. Qed.
Lemma types_texts ts : map (λ w, w.1.1) (read_types ts) = types_condition ts.
Proof. by destruct ts. Qed.
Lemma types_templates ts : map (λ w, w.1.2) (read_types ts) = types_placeholder ts.
Proof. by destruct ts. Qed.
Lemma types_values ts : concat (map snd (read_types ts)) = ts.
Proof. destruct ts; [done|]. simpl. by rewrite app_nil_r. Qed.
Definition reads (ws : list (string * string * list string)) : Prop := Forall (λ '(s, t, ls), lexes s t ls) ws.
Lemma reads_condition before value :
  quote_free before → Forall quote_free (option_list value) → reads (read_condition before value).
Proof.
  intros Hb Hv. destruct value as [v|]; [|by apply Forall_nil]. apply Forall_singleton.
  apply lexes_condition; [done|]. by inversion Hv.
Qed.
Lemma reads_types types : Forall quote_free types → reads (read_types types).
Proof.
  intros Hts. destruct types as [|t ts]; [by apply Forall_nil|]. apply Forall_singleton.
  apply lexes_text_app; [done|]. apply lexes_app_text; [|done..].
  pose proof (lexes_join ", " (map (λ v, ("'" +:+ v +:+ "'", "?", [v])) (t :: ts))) as Hj.
  rewrite !map_map in Hj. cbn [fst snd] in Hj.
  replace (concat (map (λ x, [x]) (t :: ts))) with (t :: ts) in Hj; [apply Hj; try done|].
  - apply Forall_map. eapply Forall_impl; [exact Hts|]. intros v Hv. by apply (lexes_condition "").
  - clear. generalize (t :: ts). intros l. induction l as [|x l IH]; [done|]. simpl. by rewrite <- IH.
Qed.
Lemma lex_statement select ws order :
  quote_free select → quote_free order → no_quote_first order → reads ws →
  sql_lex None (select +:+ where_clause (map (λ w, w.1.1) ws) +:+ order) =
    Some (select +:+ where_clause (map (λ w, w.1.2) ws) +:+ order, concat (map snd ws)).
Proof.
  intros Hs Ho Hf Hws. apply lex_text; [done|].
  assert (sql_lex None order = Some (order, [])) as Hord.
  { rewrite <- (str_app_nil_r order) at 1. rewrite (lex_text order "" "" []) by done. by rewrite str_app_nil_r. }
  destruct ws as [|w ws]; [done|]. unfold where_clause. cbn [map]. rewrite <- !str_app_assoc. apply lex_text; [done|].
  rewrite <- (app_nil_r (concat _)). by apply (lexes_join " AND " (w :: ws)).
Qed.


Definition demo_filters : CommandGetTables := mkGetTables (Some "teodb") None (Some "ev%") ["TABLE"] false.

(** A quote in a filter ends the literal: the rest of the filter is read as SQL.  This schema
    pattern adds a disjunction that lists every table. *)
Lemma filter_quote_becomes_sql :
  let cmd := mkGetTables None (Some "x' OR table_schema <> 'x") None [] false in
  sql_lex None (build_get_tables_sql cmd) =
    Some ("SELECT table_catalog AS catalog_name, table_schema AS db_schema_name, table_name, table_type FROM information_schema.tables WHERE table_schema LIKE ? OR table_schema <> ? ORDER BY catalog_name, db_schema_name, table_name",
          ["x"; "x"]).
Proof. vm_compute. reflexivity. Qed.
(** A name with an apostrophe makes a statement whose literal is not closed. *)
Lemma filter_apostrophe_breaks_sql :
  sql_lex None (build_db_schemas_sql (mkGetDbSchemas (Some "o'brien") None)) = None.
Proof. vm_compute. reflexivity. Qed.
