(* ===== verification/Config.v ===== *)
(** Configuration of a process: [teodb-server/src/config/] with its sections, the
    validation of bounds, and [server/validate.rs] and
    [server/bootstrap/app_state.rs] for the security settings.

    Numbers are unsigned integers of the width of the source, durations are in
    nanoseconds, paths are text.  The layers below the command line (compiled defaults,
    TOML file, environment) are read by a third-party crate: [load] takes what it
    deserializes. *)
From stdpp Require Import base list strings numbers.
From S2P Require Import Prelude Core Location WriteProtocol WalReplay WalIdentity Flush ParquetStats ClientIp Access.
Open Scope nat_scope.
Open Scope list_scope.

(** ** Sections *)
Inductive ProcessRole := DataNode | ControlPlane | Standalone.
Inductive LogFormat := Pretty | JsonFormat | Compact.
Inductive LogLevel := Trace | DebugLevel | Info | Warn | ErrorLevel.
Inductive SecurityMode := Plaintext | Tls | OAuth2.
#[export] Instance ProcessRole_eq_dec : EqDecision ProcessRole.
Proof. solve_decision. Defined.
#[export] Instance SecurityMode_eq_dec : EqDecision SecurityMode.
Proof. solve_decision. Defined.

Definition allows_anonymous (mode : SecurityMode) : bool := bool_decide (mode = Plaintext).
Definition requires_tls (mode : SecurityMode) : bool := bool_decide (mode = Tls ∨ mode = OAuth2).

Record ServerConfig := mkServerConfig {
  rest_bind : string; flight_bind : string;
  max_http_connections : N; max_http_in_flight_requests : N;
  max_flight_connections : N; max_flight_in_flight_requests : N;
  max_flight_streams_per_connection : N;
  flight_max_decoding_message_bytes : N; flight_max_encoding_message_bytes : N;
  idle_timeout_secs : N; max_result_bytes : N; max_concurrent_operations_per_principal : N;
  read_requests_per_window : N; write_requests_per_window : N; public_requests_per_window : N;
  rate_limit_window_secs : N; max_rate_limit_keys : N;
  trusted_proxy_cidrs : list string; cors_allowed_origins : list string }.

Record CatalogConfig := mkCatalogConfig {
  catalog_uri : string; warehouse : option string; oauth2_credential : option string;
  oauth2_scope : option string; oauth2_server_uri : option string; catalog_token : option string }.

Record StorageConfig := mkStorageConfig {
  cache_dir : string; spill_dir : string; cache_max_bytes : N; cache_max_per_object_bytes : N;
  s3_endpoint : option string; s3_access_key : option string; s3_secret_key : option string;
  s3_region : option string; s3_allow_http : bool }.

Record WalSection := mkWalSection {
  max_segment_bytes : N; fsync_on_append : bool; soft_watermark_bytes : N; hard_cap_bytes : N;
  recovery_mode : WalRecoveryMode; max_prepared_files : N; max_prepared_bytes : N }.

Record QueryConfig := mkQueryConfig {
  memory_pool_bytes : N; batch_size : N; target_partitions : N; query_timeout_secs : N;
  slow_query_threshold_ms : N; metadata_refresh_secs : N; query_status_max_entries : N;
  query_status_ttl_secs : N }.

Record IngestSection := mkIngestSection {
  is_buffer_max_bytes : N; is_flush_interval_secs : N; is_max_body_bytes : N;
  is_default_warehouse_uri : string; is_idempotency_ttl_secs : N;
  is_idempotency_max_keys_per_table : N; is_commit_status_check : CommitStatusCheckConfig }.

Record SecurityConfig := mkSecurityConfig {
  mode : SecurityMode; tls_cert : option string; tls_key : option string;
  allow_list_path : option string; client_ca_cert : option string; jwt_issuer : option string;
  jwt_audience : option string; jwt_signing_key : option string; jwt_algorithm : string;
  admin_token : option string }.

Record ObservabilityConfig := mkObservability {
  log_format : LogFormat; log_level : LogLevel; otlp_endpoint : option string; service_name : string }.
Record RuntimeConfig := mkRuntime {
  worker_threads : N; max_blocking_threads : N; thread_stack_size : N }.
Record ShutdownConfig := mkShutdown { sd_drain_timeout_secs : N; flush_on_shutdown : bool }.

Record ClusterConfig := mkClusterConfig {
  cluster_id : option Uuid; node_id : option string; writer_slot : option string;
  max_writer_checkpoints_per_table : N; scheduler_enabled : bool; scheduler_bind : string;
  scheduler_addr : string; executor_bind : string; executor_advertise_host : option string;
  executor_grpc_bind_port : N; executor_task_slots : N; heartbeat_interval_secs : N;
  heartbeat_miss_threshold : N; min_executors : N; local_query_fallback : bool;
  cl_drain_timeout_secs : N }.

Record MaintenanceConfig := mkMaintenanceConfig {
  maintenance_enabled : bool; compaction_enabled : bool; compaction_interval_secs : N;
  mc_target_file_bytes : N; min_files_per_compaction : N; max_files_per_compaction : N;
  max_bytes_per_compaction : N; compaction_memory_bytes : N; compression : string;
  orphan_sweep_interval_secs : N; orphan_retention_secs : N; snapshot_retention_secs : N;
  snapshot_keep_last : N; lock_ttl_secs : N }.

Record TeoDBConfig := mkTeoDBConfig {
  role : ProcessRole; data_dir : string; server : ServerConfig; catalog : CatalogConfig;
  storage : StorageConfig; wal_section : WalSection; query : QueryConfig; ingest : IngestSection;
  security : SecurityConfig; observability : ObservabilityConfig; runtime : RuntimeConfig;
  shutdown : ShutdownConfig; cluster : ClusterConfig; maintenance : MaintenanceConfig }.

(** ** Compiled defaults *)
Definition KIB : N := 1024.
Definition MIB : N := 1024 * KIB.
Definition GIB : N := 1024 * MIB.
Definition from_secs (secs : N) : N := (secs * 1000000000)%N.

Definition default_server : ServerConfig :=
  mkServerConfig "0.0.0.0:8080" "0.0.0.0:8815" 256 256 512 512 64 (64 * MIB) (64 * MIB) 300 (64 * MIB) 32
    20000 10000 40000 60 8192 [] [].
Definition default_catalog : CatalogConfig :=
  mkCatalogConfig "http://localhost:8181" None None None None None.
Definition default_storage : StorageConfig :=
  mkStorageConfig "./data/cache" "./data/spill" (10 * GIB) (512 * MIB) None None None None false.
Definition default_wal : WalSection :=
  mkWalSection (256 * MIB) true (4 * GIB) (8 * GIB) ModeFail 10000 (16 * MIB).
Definition default_query : QueryConfig := mkQueryConfig (4 * GIB) 8192 0 300 5000 10 100000 3600.
Definition default_status_check : CommitStatusCheckConfig :=
  mkStatusCheck 5 100000000 (from_secs 5) (from_secs 30) (from_secs 60) 15 4.
Definition default_ingest : IngestSection :=
  mkIngestSection (512 * MIB) 10 (64 * MIB) "s3://teodb" 86400 100000 default_status_check.
Definition default_security : SecurityConfig :=
  mkSecurityConfig Plaintext None None None None None None None "RS256" None.
Definition default_observability : ObservabilityConfig := mkObservability Pretty Info None "teodb".
Definition default_runtime : RuntimeConfig := mkRuntime 0 512 (8 * MIB).
Definition default_shutdown : ShutdownConfig := mkShutdown 60 true.
Definition default_cluster : ClusterConfig :=
  mkClusterConfig None None None 32 false "0.0.0.0:50050" "localhost:50050" "0.0.0.0:50051" None 50052 0 5 3 1
    false 20.
Definition default_maintenance : MaintenanceConfig :=
  mkMaintenanceConfig true false 3600 (128 * MIB) 8 64 GIB (512 * MIB) "zstd(3)" 21600 86400 0 1 7200.
Definition default_config : TeoDBConfig :=
  mkTeoDBConfig Standalone "./data" default_server default_catalog default_storage default_wal default_query
    default_ingest default_security default_observability default_runtime default_shutdown default_cluster
    default_maintenance.

(** ** Layers above the file and the environment *)
Record CliArgs := mkCliArgs {
  cli_config : option string; cli_role : option ProcessRole; cli_security_mode : option SecurityMode;
  cli_rest_bind : option string; cli_flight_bind : option string;
  cli_executor_advertise_host : option string; cli_log_level : option LogLevel;
  cli_log_format : option LogFormat }.

Definition with_sections (c : TeoDBConfig) (r : ProcessRole) (srv : ServerConfig) (st : StorageConfig)
    (sec : SecurityConfig) (obs : ObservabilityConfig) (cl : ClusterConfig) : TeoDBConfig :=
  mkTeoDBConfig r (data_dir c) srv (catalog c) st (wal_section c) (query c) (ingest c) sec obs (runtime c)
    (shutdown c) cl (maintenance c).
Definition with_security (c : TeoDBConfig) (sec : SecurityConfig) : TeoDBConfig :=
  with_sections c (role c) (server c) (storage c) sec (observability c) (cluster c).
Definition with_storage (c : TeoDBConfig) (st : StorageConfig) : TeoDBConfig :=
  with_sections c (role c) (server c) st (security c) (observability c) (cluster c).
Definition server_binds (s : ServerConfig) (rest flight : string) : ServerConfig :=
  mkServerConfig rest flight (max_http_connections s) (max_http_in_flight_requests s) (max_flight_connections s)
    (max_flight_in_flight_requests s) (max_flight_streams_per_connection s)
    (flight_max_decoding_message_bytes s) (flight_max_encoding_message_bytes s) (idle_timeout_secs s)
    (max_result_bytes s) (max_concurrent_operations_per_principal s) (read_requests_per_window s)
    (write_requests_per_window s) (public_requests_per_window s) (rate_limit_window_secs s)
    (max_rate_limit_keys s) (trusted_proxy_cidrs s) (cors_allowed_origins s).
Definition security_with (s : SecurityConfig) (m : SecurityMode) (token : option string) : SecurityConfig :=
  mkSecurityConfig m (tls_cert s) (tls_key s) (allow_list_path s) (client_ca_cert s) (jwt_issuer s)
    (jwt_audience s) (jwt_signing_key s) (jwt_algorithm s) token.
Definition cluster_advertise (c : ClusterConfig) (host : option string) : ClusterConfig :=
  mkClusterConfig (cluster_id c) (node_id c) (writer_slot c) (max_writer_checkpoints_per_table c)
    (scheduler_enabled c) (scheduler_bind c) (scheduler_addr c) (executor_bind c) host
    (executor_grpc_bind_port c) (executor_task_slots c) (heartbeat_interval_secs c)
    (heartbeat_miss_threshold c) (min_executors c) (local_query_fallback c) (cl_drain_timeout_secs c).
Definition storage_dirs (s : StorageConfig) (cache spill : string) : StorageConfig :=
  mkStorageConfig cache spill (cache_max_bytes s) (cache_max_per_object_bytes s) (s3_endpoint s)
    (s3_access_key s) (s3_secret_key s) (s3_region s) (s3_allow_http s).

Definition apply_cli_overrides (c : TeoDBConfig) (cli : CliArgs) : TeoDBConfig :=
  with_sections c (default (role c) (cli_role cli))
    (server_binds (server c) (default (rest_bind (server c)) (cli_rest_bind cli))
       (default (flight_bind (server c)) (cli_flight_bind cli)))
    (storage c)
    (security_with (security c) (default (mode (security c)) (cli_security_mode cli)) (admin_token (security c)))
    (mkObservability (default (log_format (observability c)) (cli_log_format cli))
       (default (log_level (observability c)) (cli_log_level cli)) (otlp_endpoint (observability c))
       (service_name (observability c)))
    (cluster_advertise (cluster c)
       (match cli_executor_advertise_host cli with
        | Some v => Some v
        | None => executor_advertise_host (cluster c)
        end)).

Definition normalize (c : TeoDBConfig) : TeoDBConfig :=
  match admin_token (security c) with
  | Some t => if str_is_empty (str_trim t)
              then with_security c (security_with (security c) (mode (security c)) None) else c
  | None => c
  end.

(** [Path] equality compares components: the root, a leading [.], and the names. *)
Definition path_names (p : string) : list string :=
  filter (λ s, s ≠ "" ∧ s ≠ ".") (str_split "/" p).
Definition path_head (p : string) : bool * bool :=
  (str_starts_with "/" p, bool_decide (head (str_split "/" p) = Some ".")).
Definition path_eqb (p q : string) : bool :=
  bool_decide (path_head p = path_head q) && bool_decide (path_names p = path_names q).
(** [Path::join] of a relative name. *)
Definition path_join (base name : string) : string :=
  if str_is_empty base || str_ends_with "/" base then base +:+ name else base +:+ "/" +:+ name.

Definition resolve_paths (c : TeoDBConfig) : TeoDBConfig :=
  let st := storage c in
  with_storage c (storage_dirs st
    (if path_eqb (cache_dir st) "./data/cache" then path_join (data_dir c) "cache" else cache_dir st)
    (if path_eqb (spill_dir st) "./data/spill" then path_join (data_dir c) "spill" else spill_dir st)).

(** ** Validation

    Every check pushes its issue; none stops the others. *)
Definition push_if (cond : bool) (issue : string) (errors : list string) : list string :=
  if cond then errors ++ [issue] else errors.
(** The release profile multiplies without overflow checks. *)
Definition u64_wrapping_mul (a b : N) : N := (a * b) `mod` 2 ^ 64.
(** [to_string] of the errors the identity constructors return. *)
Definition error_text (e : TeoDBError) : string :=
  match e with Config m => "config: " +:+ m | _ => "{error}" end.
Definition codec_error_text (e : CompressionParseError) : string :=
  match e with
  | InvalidLevel codec value => "invalid " +:+ codec +:+ " level: '" +:+ value +:+ "'"
  | LevelOutOfRange codec min max actual =>
      codec +:+ " level must be " +:+ pretty min +:+ "-" +:+ pretty max +:+ ", got " +:+ pretty actual
  | UnknownCodec s => "unknown compression codec: '" +:+ s +:+ "'. Supported: zstd, zstd(N), snappy, gzip, gzip(N), lz4, lzo, brotli, brotli(N), none"
  end.

Definition validate_wal (config : WalSection) (errors : list string) : list string :=
  let errors := push_if (hard_cap_bytes config =? 0)%N
    "wal.hard_cap_bytes must be > 0 (it is the durability backpressure ceiling)" errors in
  let errors := push_if (hard_cap_bytes config <? soft_watermark_bytes config)%N
    ("wal.soft_watermark_bytes (" +:+ pretty (soft_watermark_bytes config)
       +:+ ") must be <= wal.hard_cap_bytes (" +:+ pretty (hard_cap_bytes config) +:+ ")") errors in
  let errors := push_if (max_prepared_files config =? 0)%N "wal.max_prepared_files must be > 0" errors in
  push_if (max_prepared_bytes config =? 0)%N "wal.max_prepared_bytes must be > 0" errors.

Definition validate_ingest (config : IngestSection) (errors : list string) : list string :=
  let errors := push_if (is_flush_interval_secs config =? 0)%N "ingest.flush_interval_secs must be > 0" errors in
  let errors := push_if (is_buffer_max_bytes config =? 0)%N "ingest.buffer_max_bytes must be > 0" errors in
  let errors := push_if (is_max_body_bytes config =? 0)%N "ingest.max_body_bytes must be > 0" errors in
  let status_check := is_commit_status_check config in
  let errors := push_if (max_wait status_check <? min_wait status_check)%N
    "ingest.commit_status_check.min_wait_ms must be <= ingest.commit_status_check.max_wait_ms" errors in
  let errors := push_if (total_timeout status_check =? 0)%N
    "ingest.commit_status_check.total_timeout_ms must be > 0" errors in
  let errors := push_if (blocked_recheck_interval status_check =? 0)%N
    "ingest.commit_status_check.blocked_recheck_interval_ms must be > 0" errors in
  let errors := push_if (100 <? blocked_recheck_jitter_percent status_check)%N
    "ingest.commit_status_check.blocked_recheck_jitter_percent must be <= 100" errors in
  push_if (max_concurrent_blocked_rechecks status_check =? 0)%N
    "ingest.commit_status_check.max_concurrent_blocked_rechecks must be > 0" errors.

Definition server_limits (server : ServerConfig) : list (string * N) :=
  [("max_http_connections", max_http_connections server);
   ("max_http_in_flight_requests", max_http_in_flight_requests server);
   ("max_flight_connections", max_flight_connections server);
   ("max_flight_in_flight_requests", max_flight_in_flight_requests server);
   ("max_flight_streams_per_connection", max_flight_streams_per_connection server);
   ("flight_max_decoding_message_bytes", flight_max_decoding_message_bytes server);
   ("flight_max_encoding_message_bytes", flight_max_encoding_message_bytes server);
   ("max_concurrent_operations_per_principal", max_concurrent_operations_per_principal server)].

Definition validate_query_and_server (query : QueryConfig) (server : ServerConfig) (errors : list string)
    : list string :=
  let errors := push_if (batch_size query =? 0)%N "query.batch_size must be > 0" errors in
  let errors := push_if (query_timeout_secs query =? 0)%N
    "query.query_timeout_secs must be > 0 (0 would time out every query immediately)" errors in
  let errors := push_if (memory_pool_bytes query =? 0)%N
    "query.memory_pool_bytes must be > 0 (0 disables the query memory ceiling)" errors in
  let errors := push_if (metadata_refresh_secs query =? 0)%N
    "query.metadata_refresh_secs must be > 0 (0 would reload catalog metadata on every query)" errors in
  let errors := push_if (query_status_max_entries query =? 0)%N
    "query.query_status_max_entries must be > 0" errors in
  let errors := push_if (query_status_ttl_secs query =? 0)%N "query.query_status_ttl_secs must be > 0" errors in
  let errors := push_if (idle_timeout_secs server =? 0)%N "server.idle_timeout_secs must be > 0" errors in
  let errors := foldl (λ errors '(name, value),
    push_if (value =? 0)%N ("server." +:+ name +:+ " must be > 0") errors) errors (server_limits server) in
  let errors := push_if (max_result_bytes server =? 0)%N "server.max_result_bytes must be > 0" errors in
  let errors := push_if ((read_requests_per_window server =? 0)%N || (write_requests_per_window server =? 0)%N
                         || (public_requests_per_window server =? 0)%N)
    "server request rate budgets must be > 0" errors in
  let errors := push_if (rate_limit_window_secs server =? 0)%N "server.rate_limit_window_secs must be > 0" errors in
  let errors := push_if (max_rate_limit_keys server =? 0)%N "server.max_rate_limit_keys must be > 0" errors in
  foldl (λ errors cidr, match cidr_from_str cidr with
                        | Err error => errors ++ ["server.trusted_proxy_cidrs: " +:+ error]
                        | Ok _ => errors
                        end) errors (trusted_proxy_cidrs server).

Definition is_none_or_empty (s : option string) : bool :=
  match s with Some s => str_is_empty s | None => true end.
Definition push_err (r : option (TeoDBResult string)) (errors : list string) : list string :=
  match r with Some (Err error) => errors ++ [error_text error] | _ => errors end.

(** The checks of the data-node role. *)
Definition validate_data_node (cluster : ClusterConfig) (errors : list string) : list string :=
  let errors := match cluster_id cluster with
    | None => errors ++ ["cluster.cluster_id is required for role=data-node"]
    | Some id => push_if (uuid_is_nil id) "cluster.cluster_id must not be the nil UUID" errors
    end in
  let errors := push_if (is_none_or_empty (node_id cluster))
    "cluster.node_id is required for role=data-node" errors in
  push_if (is_none_or_empty (writer_slot cluster)) "cluster.writer_slot is required for role=data-node" errors.
Definition validate_cluster (role : ProcessRole) (cluster : ClusterConfig) (shutdown : ShutdownConfig)
    (errors : list string) : list string :=
  let errors := if decide (role = DataNode) then validate_data_node cluster errors else errors in
  let errors := push_if (max_writer_checkpoints_per_table cluster =? 0)%N
    "cluster.max_writer_checkpoints_per_table must be > 0" errors in
  let errors := push_err (NodeId_new <$> node_id cluster) errors in
  let errors := push_err (WriterSlot_new <$> writer_slot cluster) errors in
  let errors := push_if (heartbeat_interval_secs cluster =? 0)%N
    "cluster.heartbeat_interval_secs must be > 0" errors in
  let errors := push_if (heartbeat_miss_threshold cluster =? 0)%N
    "cluster.heartbeat_miss_threshold must be > 0" errors in
  let errors := push_if (executor_grpc_bind_port cluster =? 0)%N
    "cluster.executor_grpc_bind_port must be > 0" errors in
  push_if (sd_drain_timeout_secs shutdown =? 0)%N "shutdown.drain_timeout_secs must be > 0" errors.

Definition validate_maintenance (config : MaintenanceConfig) (errors : list string) : list string :=
  let errors := push_if (orphan_sweep_interval_secs config =? 0)%N
    "maintenance.orphan_sweep_interval_secs must be > 0" errors in
  if compaction_enabled config then
    let errors := push_if (max_files_per_compaction config <? min_files_per_compaction config)%N
      ("maintenance.min_files_per_compaction (" +:+ pretty (min_files_per_compaction config)
         +:+ ") must be <= max_files_per_compaction (" +:+ pretty (max_files_per_compaction config) +:+ ")") errors in
    let errors := push_if (compaction_interval_secs config =? 0)%N
      "maintenance.compaction_interval_secs must be > 0 when compaction is enabled" errors in
    let errors := push_if (max_bytes_per_compaction config =? 0)%N
      "maintenance.max_bytes_per_compaction must be > 0 when compaction is enabled" errors in
    let errors := push_if (compaction_memory_bytes config =? 0)%N
      "maintenance.compaction_memory_bytes must be > 0 when compaction is enabled (it bounds the compaction sort)"
      errors in
    let twice := u64_wrapping_mul (compaction_interval_secs config) 2 in
    let errors := push_if (lock_ttl_secs config <? twice)%N
      ("maintenance.lock_ttl_secs (" +:+ pretty (lock_ttl_secs config)
         +:+ ") should be >= 2 * compaction_interval_secs (" +:+ pretty twice +:+ ")") errors in
    match from_str_config (compression config) with
    | Err error => errors ++ ["maintenance.compression: " +:+ codec_error_text error]
    | Ok _ => errors
    end
  else errors.

Definition validate_config (c : TeoDBConfig) : result (list string) unit :=
  let errors := [] in
  let errors := validate_wal (wal_section c) errors in
  let errors := validate_ingest (ingest c) errors in
  let errors := validate_query_and_server (query c) (server c) errors in
  let errors := validate_cluster (role c) (cluster c) (shutdown c) errors in
  let errors := validate_maintenance (maintenance c) errors in
  match errors with [] => Ok tt | _ => Err errors end.

(** ** Loading *)
Inductive ConfigError :=
| SerializeDefaults | FileNotFound (path : string) | Build | Deserialize | Validation (issues : list string).

(** [serialized]: whether the defaults print; [layers]: what the configuration crate
    reads of the defaults, the file and the environment; [exists_]: which paths exist. *)
Definition load (serialized : bool) (layers : option string → result ConfigError TeoDBConfig) (exists_ : string → bool) (cli : CliArgs)
    : result ConfigError TeoDBConfig :=
  _ ← reject_if (negb serialized) SerializeDefaults;
  _ ← match cli_config cli with
      | Some path => reject_if (negb (exists_ path)) (FileNotFound path)
      | None => Ok tt
      end;
  config ← layers (cli_config cli);
  let config := resolve_paths (normalize (apply_cli_overrides config cli)) in
  _ ← map_err Validation (validate_config config);
  Ok config.

(** ** What the components are given *)
Definition wal_dir (c : TeoDBConfig) : string := path_join (data_dir c) "wal".
Definition effective_worker_threads (c : TeoDBConfig) : option N :=
  if (worker_threads (runtime c) =? 0)%N then None else Some (worker_threads (runtime c)).
Definition transpose {E A} (r : option (result E A)) : result E (option A) :=
  match r with None => Ok None | Some (Ok a) => Ok (Some a) | Some (Err e) => Err e end.
Definition wal_identity_config (c : TeoDBConfig) : TeoDBResult WalIdentityConfig :=
  node_id ← transpose (NodeId_new <$> node_id (cluster c));
  writer_slot ← transpose (WriterSlot_new <$> writer_slot (cluster c));
  Ok (mkWalIdentityConfig (cluster_id (cluster c)) node_id writer_slot).

(** [teodb_ingest::config::IngestConfig]. *)
Record IngestConfig := mkIngestConfig {
  buffer_max_bytes : N; buffer_soft_watermark_bytes : N; flush_interval : N; default_warehouse_uri : string;
  idempotency_ttl : N; idempotency_max_keys_per_table : N; commit_status_check : CommitStatusCheckConfig }.
Definition to_ingest_config (c : TeoDBConfig) : IngestConfig :=
  let i := ingest c in
  mkIngestConfig (is_buffer_max_bytes i) (u64_wrapping_mul (is_buffer_max_bytes i) 3 / 4)
    (from_secs (is_flush_interval_secs i)) (default (is_default_warehouse_uri i) (warehouse (catalog c)))
    (from_secs (is_idempotency_ttl_secs i)) (is_idempotency_max_keys_per_table i) (is_commit_status_check i).

(** [teodb_api::ApiConfig]. *)
Record ApiConfig := mkApiConfig {
  ac_max_body_bytes : N; ac_max_result_bytes : N; ac_cors_allowed_origins : list string;
  ac_read_requests_per_window : N; ac_write_requests_per_window : N; ac_public_requests_per_window : N;
  ac_rate_limit_window : N; ac_max_rate_limit_keys : N; ac_max_concurrent_operations_per_principal : N;
  ac_trusted_proxy_cidrs : list TrustedProxyCidr }.
(** [None] is the panic of [expect]. *)
Definition to_api_config (c : TeoDBConfig) : option ApiConfig :=
  let s := server c in
  match mapM_res cidr_from_str (trusted_proxy_cidrs s) with
  | Ok cidrs =>
      Some (mkApiConfig (is_max_body_bytes (ingest c)) (max_result_bytes s) (cors_allowed_origins s)
        (read_requests_per_window s) (write_requests_per_window s) (public_requests_per_window s)
        (from_secs (rate_limit_window_secs s)) (max_rate_limit_keys s)
        (max_concurrent_operations_per_principal s) cidrs)
  | Err _ => None
  end.

(** ** Security settings *)
Definition validate_production_mode (c : TeoDBConfig) : result (list string) unit :=
  let s := security c in
  match mode s with
  | Plaintext => Ok tt
  | Tls | OAuth2 =>
      let issues := push_if (bool_decide (tls_cert s = None ∨ tls_key s = None))
        "TLS not configured: set security.tls_cert and security.tls_key" [] in
      let issues := push_if (negb (fsync_on_append (wal_section c)))
        "WAL fsync disabled: set wal.fsync_on_append = true for durability (I1)" issues in
      let issues := push_if (bool_decide (mode s = OAuth2) && bool_decide (allow_list_path s = None))
        "oauth2 mode requires authorization rules: set security.allow_list_path" issues in
      match issues with [] => Ok tt | _ => Err issues end
  end.

Section security.
Context `{JwtLibrary}.
(** The files named in the settings: the rules of an allow-list, the bytes of a key; and
    the key material loaded for an algorithm, [None] for an algorithm that is not
    supported or a key that does not parse. *)
Context (read_allow_list : string → option (list Rule)) (read_key : string → option string)
  (load_key : string → string → option DecodingKey).

Definition AllowAllAuthorizer : Authorizer := λ _ _ _, Ok tt.
Definition build_authorizer (c : TeoDBConfig) : option Authorizer :=
  match allow_list_path (security c) with
  | Some path => authorize_rules <$> read_allow_list path
  | None => Some AllowAllAuthorizer
  end.
Definition build_jwt_validator (c : TeoDBConfig) : option (option JwtValidator) :=
  match jwt_signing_key (security c) with
  | None => Some None
  | Some key_path =>
      key ← read_key key_path;
      material ← load_key (jwt_algorithm (security c)) key;
      Some (Some (mkJwtValidator (mkJwtConfig (jwt_issuer (security c)) (jwt_audience (security c))
                                    [jwt_algorithm (security c)] true) (Some material)))
  end.
Definition build_security_context (c : TeoDBConfig) : option SecurityState :=
  authorizer ← (if allows_anonymous (mode (security c)) then Some None else Some <$> build_authorizer c);
  validator ← build_jwt_validator c;
  Some (mkSecurity validator authorizer (admin_token (security c))).
End security.

(** ** The bounds *)

(** A bound with the issue that reports its violation. *)
Record Bound := mkBound { b_holds : Prop; b_dec : Decision b_holds; b_issue : string }.
#[local] Existing Instance b_dec.
Definition bound (P : Prop) `{!Decision P} (issue : string) : Bound := mkBound P _ issue.
(** The issues of the violated bounds, in order. *)
Definition reports (bounds : list Bound) : list string :=
  b_issue <$> filter (λ b, ¬ b_holds b) bounds.

Definition wal_bounds (w : WalSection) : list Bound :=
  [bound (0 < hard_cap_bytes w)%N "wal.hard_cap_bytes must be > 0 (it is the durability backpressure ceiling)";
   bound (soft_watermark_bytes w ≤ hard_cap_bytes w)%N
     ("wal.soft_watermark_bytes (" +:+ pretty (soft_watermark_bytes w)
        +:+ ") must be <= wal.hard_cap_bytes (" +:+ pretty (hard_cap_bytes w) +:+ ")");
   bound (0 < max_prepared_files w)%N "wal.max_prepared_files must be > 0";
   bound (0 < max_prepared_bytes w)%N "wal.max_prepared_bytes must be > 0"].

Definition ingest_bounds (i : IngestSection) : list Bound :=
  let s := is_commit_status_check i in
  [bound (0 < is_flush_interval_secs i)%N "ingest.flush_interval_secs must be > 0";
   bound (0 < is_buffer_max_bytes i)%N "ingest.buffer_max_bytes must be > 0";
   bound (0 < is_max_body_bytes i)%N "ingest.max_body_bytes must be > 0";
   bound (min_wait s ≤ max_wait s)%N
     "ingest.commit_status_check.min_wait_ms must be <= ingest.commit_status_check.max_wait_ms";
   bound (0 < total_timeout s)%N "ingest.commit_status_check.total_timeout_ms must be > 0";
   bound (0 < blocked_recheck_interval s)%N "ingest.commit_status_check.blocked_recheck_interval_ms must be > 0";
   bound (blocked_recheck_jitter_percent s ≤ 100)%N
     "ingest.commit_status_check.blocked_recheck_jitter_percent must be <= 100";
   bound (0 < max_concurrent_blocked_rechecks s)%N
     "ingest.commit_status_check.max_concurrent_blocked_rechecks must be > 0"].

Definition cidr_bound (cidr : string) : Bound :=
  bound (is_ok (cidr_from_str cidr) = true)
    ("server.trusted_proxy_cidrs: " +:+ match cidr_from_str cidr with Err error => error | Ok _ => "" end).
Definition query_bounds (q : QueryConfig) : list Bound :=
  [bound (0 < batch_size q)%N "query.batch_size must be > 0";
   bound (0 < query_timeout_secs q)%N
     "query.query_timeout_secs must be > 0 (0 would time out every query immediately)";
   bound (0 < memory_pool_bytes q)%N "query.memory_pool_bytes must be > 0 (0 disables the query memory ceiling)";
   bound (0 < metadata_refresh_secs q)%N
     "query.metadata_refresh_secs must be > 0 (0 would reload catalog metadata on every query)";
   bound (0 < query_status_max_entries q)%N "query.query_status_max_entries must be > 0";
   bound (0 < query_status_ttl_secs q)%N "query.query_status_ttl_secs must be > 0"].
Definition server_bounds (s : ServerConfig) : list Bound :=
  [bound (0 < idle_timeout_secs s)%N "server.idle_timeout_secs must be > 0"]
  ++ map (λ '(name, value), bound (0 < value)%N ("server." +:+ name +:+ " must be > 0")) (server_limits s)
  ++ [bound (0 < max_result_bytes s)%N "server.max_result_bytes must be > 0";
      bound (0 < read_requests_per_window s ∧ 0 < write_requests_per_window s ∧ 0 < public_requests_per_window s)%N
        "server request rate budgets must be > 0";
      bound (0 < rate_limit_window_secs s)%N "server.rate_limit_window_secs must be > 0";
      bound (0 < max_rate_limit_keys s)%N "server.max_rate_limit_keys must be > 0"]
  ++ map cidr_bound (trusted_proxy_cidrs s).

(** A name the identity constructors accept. *)
Definition identity_name (s : string) : Prop :=
  s ≠ "" ∧ String.length s ≤ MAX_IDENTITY_COMPONENT_BYTES ∧ str_bytes_all identity_byte s = true.
Definition name_ok (name : option string) : Prop := match name with Some s => identity_name s | None => True end.
#[local] Instance name_ok_dec name : Decision (name_ok name).
Proof. destruct name; simpl; unfold identity_name; apply _. Defined.
Definition name_bound (field : string) (name : option string) : Bound :=
  bound (name_ok name)
    (match name with
     | Some s => match validate_identity_component field s with Err e => error_text e | Ok _ => "" end
     | None => ""
     end).
Definition data_node_bounds (c : ClusterConfig) : list Bound :=
  [bound (cluster_id c ≠ None) "cluster.cluster_id is required for role=data-node";
   bound (cluster_id c ≠ Some 0%N) "cluster.cluster_id must not be the nil UUID";
   bound (default "" (node_id c) ≠ "") "cluster.node_id is required for role=data-node";
   bound (default "" (writer_slot c) ≠ "") "cluster.writer_slot is required for role=data-node"].
Definition cluster_bounds (r : ProcessRole) (c : ClusterConfig) (s : ShutdownConfig) : list Bound :=
  (if decide (r = DataNode) then data_node_bounds c else [])
  ++ [bound (0 < max_writer_checkpoints_per_table c)%N "cluster.max_writer_checkpoints_per_table must be > 0";
      name_bound "cluster.node_id" (node_id c); name_bound "cluster.writer_slot" (writer_slot c);
      bound (0 < heartbeat_interval_secs c)%N "cluster.heartbeat_interval_secs must be > 0";
      bound (0 < heartbeat_miss_threshold c)%N "cluster.heartbeat_miss_threshold must be > 0";
      bound (0 < executor_grpc_bind_port c)%N "cluster.executor_grpc_bind_port must be > 0";
      bound (0 < sd_drain_timeout_secs s)%N "shutdown.drain_timeout_secs must be > 0"].

Definition maintenance_bounds (m : MaintenanceConfig) : list Bound :=
  [bound (0 < orphan_sweep_interval_secs m)%N "maintenance.orphan_sweep_interval_secs must be > 0"]
  ++ (if compaction_enabled m then
        let twice := u64_wrapping_mul (compaction_interval_secs m) 2 in
        [bound (min_files_per_compaction m ≤ max_files_per_compaction m)%N
           ("maintenance.min_files_per_compaction (" +:+ pretty (min_files_per_compaction m)
              +:+ ") must be <= max_files_per_compaction (" +:+ pretty (max_files_per_compaction m) +:+ ")");
         bound (0 < compaction_interval_secs m)%N
           "maintenance.compaction_interval_secs must be > 0 when compaction is enabled";
         bound (0 < max_bytes_per_compaction m)%N
           "maintenance.max_bytes_per_compaction must be > 0 when compaction is enabled";
         bound (0 < compaction_memory_bytes m)%N
           "maintenance.compaction_memory_bytes must be > 0 when compaction is enabled (it bounds the compaction sort)";
         bound (twice ≤ lock_ttl_secs m)%N
           ("maintenance.lock_ttl_secs (" +:+ pretty (lock_ttl_secs m)
              +:+ ") should be >= 2 * compaction_interval_secs (" +:+ pretty twice +:+ ")");
         bound (is_ok (from_str_config (compression m)) = true)
           ("maintenance.compression: "
              +:+ match from_str_config (compression m) with Err e => codec_error_text e | Ok _ => "" end)]
      else []).

Definition config_bounds (c : TeoDBConfig) : list Bound :=
  wal_bounds (wal_section c) ++ ingest_bounds (ingest c) ++ query_bounds (query c) ++ server_bounds (server c)
  ++ cluster_bounds (role c) (cluster c) (shutdown c) ++ maintenance_bounds (maintenance c).

(** ** Validation reports the violated bounds *)
Lemma reports_app l k : reports (l ++ k) = reports l ++ reports k.
Proof. unfold reports. by rewrite filter_app, fmap_app. Qed.
Lemma reports_nil l : reports l = [] ↔ Forall b_holds l.
Proof.
  unfold reports. induction l as [|b l IH]; [done|]. rewrite filter_cons, Forall_cons.
  destruct (decide (b_holds b)) as [Hb|Hb]; [rewrite decide_False by tauto; naive_solver|].
  rewrite decide_True by done. naive_solver.
Qed.

(** A check that pushes its issue exactly when the bound fails. *)
Lemma push_bound (cond : bool) (P : Prop) `{!Decision P} issue errors :
  (cond = true ↔ ¬ P) → push_if cond issue errors = errors ++ reports [bound P issue].
Proof.
  intros Hc. unfold reports, push_if. rewrite filter_cons. simpl. destruct cond.
  - rewrite decide_True by (simpl; tauto). done.
  - rewrite decide_False, app_nil_r; [done|]. simpl. intros Hn. apply Hc in Hn. done.
Qed.
Lemma reports_cons b bs : reports (b :: bs) = reports [b] ++ reports bs.
Proof. apply (reports_app [b]). Qed.
Lemma reports_holds P `{!Decision P} issue : P → reports [bound P issue] = [].
Proof. intros HP. apply reports_nil. by apply Forall_singleton. Qed.
Lemma reports_fails P `{!Decision P} issue : ¬ P → reports [bound P issue] = [issue].
Proof. intros HP. unfold reports. rewrite filter_cons, decide_True by done. done. Qed.

Lemma reports_end (errors : list string) : errors ++ reports [] = errors.
Proof. apply app_nil_r. Qed.

(** Matches the next check with the next bound. *)
Ltac cond_bound := first [rewrite N.eqb_eq; lia | rewrite N.ltb_lt; lia | rewrite !orb_true_iff, !N.eqb_eq; lia].
Ltac push_step tac :=
  match goal with
  | |- context [reports (@bound ?P ?d ?m :: ?bs)] =>
      match goal with
      | |- context [push_if ?c m ?e] =>
          rewrite (@push_bound c P d m e) by tac; rewrite (reports_cons (@bound P d m) bs), app_assoc;
          generalize (e ++ reports [@bound P d m]); intros ?
      end
  end.

Lemma validate_wal_spec w errors : validate_wal w errors = errors ++ reports (wal_bounds w).
Proof.
  unfold validate_wal, wal_bounds. cbv zeta. repeat push_step cond_bound. by rewrite reports_end.
Qed.

Lemma validate_ingest_spec i errors : validate_ingest i errors = errors ++ reports (ingest_bounds i).
Proof.
  unfold validate_ingest, ingest_bounds. cbv zeta. repeat push_step cond_bound. by rewrite reports_end.
Qed.

Lemma limits_spec limits errors :
  foldl (λ errors '(name, value), push_if (value =? 0)%N ("server." +:+ name +:+ " must be > 0") errors) errors limits
  = errors ++ reports (map (λ '(name, value), bound (0 < value)%N ("server." +:+ name +:+ " must be > 0")) limits).
Proof.
  revert errors. induction limits as [|[name value] limits IH]; intros errors; [by rewrite reports_end|].
  cbn [foldl map]. rewrite IH. clear IH. push_step cond_bound. done.
Qed.
Lemma cidrs_spec cidrs errors :
  foldl (λ errors cidr, match cidr_from_str cidr with
                        | Err error => errors ++ ["server.trusted_proxy_cidrs: " +:+ error]
                        | Ok _ => errors
                        end) errors cidrs
  = errors ++ reports (map cidr_bound cidrs).
Proof.
  revert errors. induction cidrs as [|cidr cidrs IH]; intros errors; [by rewrite reports_end|].
  cbn [foldl map]. rewrite IH, reports_cons, app_assoc. f_equal. unfold cidr_bound.
  destruct (cidr_from_str cidr); [by rewrite reports_holds, app_nil_r|by rewrite reports_fails].
Qed.
Lemma validate_query_and_server_spec q s errors :
  validate_query_and_server q s errors = errors ++ reports (query_bounds q ++ server_bounds s).
Proof.
  unfold validate_query_and_server, query_bounds, server_bounds. cbv zeta. rewrite cidrs_spec, limits_spec.
  generalize (map (λ '(name, value), bound (0 < value)%N ("server." +:+ name +:+ " must be > 0")) (server_limits s)).
  generalize (map cidr_bound (trusted_proxy_cidrs s)). intros cidrs limits. cbn [app].
  repeat push_step cond_bound. rewrite (reports_app limits), app_assoc.
  match goal with |- context [?e ++ reports limits] => generalize (e ++ reports limits); intros ? end.
  repeat push_step cond_bound. done.
Qed.

Lemma name_bound_spec field name errors :
  push_err ((λ s, _ ← validate_identity_component field s; Ok s) <$> name) errors
  = errors ++ reports [name_bound field name].
Proof.
  unfold name_bound. destruct name as [s|]; [|by rewrite reports_holds, app_nil_r].
  cbn [fmap option_fmap option_map push_err].
  assert (identity_name s ↔ validate_identity_component field s = Ok tt) as Hs.
  { unfold identity_name, validate_identity_component.
    destruct s as [|a s]; [naive_solver|]. cbn [str_is_empty].
    destruct (Nat.ltb_spec MAX_IDENTITY_COMPONENT_BYTES (String.length (String a s))); [naive_solver lia|].
    destruct (str_bytes_all identity_byte (String a s)); naive_solver. }
  destruct (validate_identity_component field s) as [[]|e] eqn:Hv.
  - rewrite reports_holds, app_nil_r by (by apply Hs). done.
  - rewrite reports_fails; [done|]. intros Hn. apply Hs in Hn. done.
Qed.

Lemma none_or_empty_bound s : is_none_or_empty s = true ↔ ¬ default "" s ≠ "".
Proof. destruct s as [[|]|]; naive_solver. Qed.

Lemma cluster_id_bound (id : option Uuid) errors :
  match id with
  | None => errors ++ ["cluster.cluster_id is required for role=data-node"]
  | Some id => push_if (uuid_is_nil id) "cluster.cluster_id must not be the nil UUID" errors
  end = (errors ++ reports [bound (id ≠ None) "cluster.cluster_id is required for role=data-node"])
        ++ reports [bound (id ≠ Some 0%N) "cluster.cluster_id must not be the nil UUID"].
Proof.
  destruct id as [id|].
  - rewrite (reports_holds (Some id ≠ None)), app_nil_r by done. apply push_bound. unfold uuid_is_nil.
    rewrite N.eqb_eq. split; [intros ->; naive_solver|]. intros Hn. destruct (decide (id = 0%N)); naive_solver.
  - rewrite reports_fails, (reports_holds (None ≠ Some 0%N)), app_nil_r by naive_solver. done.
Qed.
Lemma validate_data_node_spec c errors :
  validate_data_node c errors = errors ++ reports (data_node_bounds c).
Proof.
  unfold validate_data_node, data_node_bounds. cbv zeta.
  rewrite cluster_id_bound, (reports_cons (bound (cluster_id c ≠ None) _) (_ :: _)),
    (reports_cons (bound (cluster_id c ≠ Some 0%N) _) (_ :: _)), !app_assoc.
  match goal with |- context [push_if _ _ ?e ] => match e with _ ++ _ => generalize e; intros ? end end.
  repeat push_step ltac:(apply none_or_empty_bound). by rewrite reports_end.
Qed.
Lemma validate_cluster_spec r c s errors :
  validate_cluster r c s errors = errors ++ reports (cluster_bounds r c s).
Proof.
  unfold validate_cluster, cluster_bounds. cbv zeta. rewrite reports_app, app_assoc.
  replace (if decide (r = DataNode) then validate_data_node c errors else errors)
    with (errors ++ reports (if decide (r = DataNode) then data_node_bounds c else []))
    by (case_decide; [by rewrite validate_data_node_spec|by rewrite reports_end]).
  generalize (errors ++ reports (if decide (r = DataNode) then data_node_bounds c else [])). clear errors.
  intros errors. push_step cond_bound. unfold NodeId_new, WriterSlot_new. rewrite !name_bound_spec.
  rewrite (reports_cons (name_bound "cluster.node_id" _) (_ :: _)),
    (reports_cons (name_bound "cluster.writer_slot" _) (_ :: _)), !app_assoc.
  match goal with |- context [?e ++ reports [name_bound "cluster.writer_slot" ?s]] =>
    generalize (e ++ reports [name_bound "cluster.writer_slot" s]); intros ? end.
  repeat push_step cond_bound. by rewrite reports_end.
Qed.

Lemma validate_maintenance_spec m errors :
  validate_maintenance m errors = errors ++ reports (maintenance_bounds m).
Proof.
  unfold validate_maintenance, maintenance_bounds. cbv zeta. cbn [app]. push_step cond_bound.
  destruct (compaction_enabled m); [|by rewrite reports_end]. repeat push_step cond_bound.
  destruct (from_str_config (compression m)); [by rewrite reports_holds, app_nil_r|by rewrite reports_fails].
Qed.

Lemma validate_config_reports c :
  validate_config c = match reports (config_bounds c) with [] => Ok tt | issues => Err issues end.
Proof.
  unfold validate_config, config_bounds. cbv zeta.
  rewrite validate_wal_spec, validate_ingest_spec, validate_query_and_server_spec, validate_cluster_spec,
    validate_maintenance_spec, !reports_app, <-!app_assoc, app_nil_l. by case_match.
Qed.


(** ** A validated configuration is usable *)
Lemma bound_holds c b : validate_config c = Ok tt → b ∈ config_bounds c → b_holds b.
Proof.
  rewrite validate_config_reports. intros Hv Hb. destruct (reports _) eqn:Hr; [|done].
  apply reports_nil in Hr. rewrite Forall_forall in Hr. by apply Hr.
Qed.

Lemma transpose_name field (name : option string) :
  name_ok name →
  transpose ((λ s, _ ← validate_identity_component field s; Ok s) <$> name) = @Ok TeoDBError _ name.
Proof.
  destruct name as [s|]; [|done]. intros (Hne & Hlen & Hall). cbn [fmap option_fmap option_map transpose].
  unfold validate_identity_component. destruct s as [|a s]; [done|]. cbn [str_is_empty].
  destruct (Nat.ltb_spec MAX_IDENTITY_COMPONENT_BYTES (String.length (String a s))); [lia|]. by rewrite Hall.
Qed.

Lemma validated_names c :
  validate_config c = Ok tt → name_ok (node_id (cluster c)) ∧ name_ok (writer_slot (cluster c)).
Proof.
  intros Hv. split.
  - apply (bound_holds c (name_bound "cluster.node_id" (node_id (cluster c))) Hv).
    unfold config_bounds, cluster_bounds. rewrite !elem_of_app. do 4 right. left. right. set_solver.
  - apply (bound_holds c (name_bound "cluster.writer_slot" (writer_slot (cluster c))) Hv).
    unfold config_bounds, cluster_bounds. rewrite !elem_of_app. do 4 right. left. right. set_solver.
Qed.

Lemma cidrs_parse c :
  validate_config c = Ok tt →
  ∃ cidrs, mapM_res cidr_from_str (trusted_proxy_cidrs (server c)) = Ok cidrs.
Proof.
  intros Hv.
  assert (∀ cidr, cidr ∈ trusted_proxy_cidrs (server c) → is_ok (cidr_from_str cidr) = true) as Hall.
  { intros cidr Hin. apply (bound_holds c (cidr_bound cidr) Hv). unfold config_bounds, server_bounds.
    rewrite !elem_of_app. do 3 right. left. do 3 right. apply list_elem_of_fmap. eauto. }
  clear Hv. induction (trusted_proxy_cidrs (server c)) as [|cidr cidrs IH]; [by eexists|].
  destruct IH as [parsed Hp]; [intros x Hx; apply Hall; by right|].
  pose proof (Hall cidr ltac:(by left)) as Hc. simpl. rewrite Hp.
  destruct (cidr_from_str cidr); [by eexists|done].
Qed.

Lemma compaction_bounds c :
  validate_config c = Ok tt → compaction_enabled (maintenance c) = true →
  is_ok (from_str_config (compression (maintenance c))) = true ∧
  (min_files_per_compaction (maintenance c) ≤ max_files_per_compaction (maintenance c))%N ∧
  (0 < compaction_memory_bytes (maintenance c))%N.
Proof.
  intros Hv He. assert (∀ b, b ∈ maintenance_bounds (maintenance c) → b_holds b) as Hb.
  { intros b Hb. apply (bound_holds c b Hv). unfold config_bounds. rewrite !elem_of_app. tauto. }
  unfold maintenance_bounds in Hb. rewrite He in Hb. apply Forall_forall in Hb. cbv zeta in Hb. cbn [app] in Hb.
  repeat match goal with H : Forall _ (_ :: _) |- _ => apply Forall_cons in H as [? H] end. done.
Qed.

Lemma data_node_identity c :
  validate_config c = Ok tt → role c = DataNode →
  ∃ id node slot, cluster_id (cluster c) = Some id ∧ id ≠ 0%N ∧
    node_id (cluster c) = Some node ∧ writer_slot (cluster c) = Some slot.
Proof.
  intros Hv Hr. assert (∀ b, b ∈ data_node_bounds (cluster c) → b_holds b) as Hb.
  { intros b Hb. apply (bound_holds c b Hv). unfold config_bounds, cluster_bounds.
    rewrite decide_True by done. rewrite !elem_of_app. tauto. }
  apply Forall_forall in Hb. unfold data_node_bounds in Hb.
  repeat match goal with H : Forall _ (_ :: _) |- _ => apply Forall_cons in H as [? H] end. simpl in *.
  destruct (cluster_id (cluster c)) as [id|], (node_id (cluster c)) as [node|],
    (writer_slot (cluster c)) as [slot|]; naive_solver.
Qed.

Lemma validated_identity c :
  validate_config c = Ok tt →
  wal_identity_config c
    = Ok (mkWalIdentityConfig (cluster_id (cluster c)) (node_id (cluster c)) (writer_slot (cluster c))).
Proof.
  intros Hv. destruct (validated_names c Hv) as [Hn Hs]. unfold wal_identity_config, NodeId_new, WriterSlot_new.
  by rewrite (transpose_name "cluster.node_id" _ Hn), (transpose_name "cluster.writer_slot" _ Hs).
Qed.

Lemma configured_identity_ok (id : option Uuid) (node slot : option string) :
  id ≠ Some 0%N → name_ok node → name_ok slot →
  validate_configured_identity (mkWalIdentityConfig id node slot) = Ok tt.
Proof.
  intros Hid Hn Hs. unfold validate_configured_identity, NodeId_new, WriterSlot_new. simpl.
  replace (match id with Some c => uuid_is_nil c | None => false end) with false.
  2: { destruct id as [id|]; [|done]. symmetry. apply N.eqb_neq. congruence. }
  pose proof (transpose_name "cluster.node_id" node Hn) as H1.
  pose proof (transpose_name "cluster.writer_slot" slot Hs) as H2.
  destruct node as [node|], slot as [slot|]; simpl in *;
    repeat match goal with |- context [validate_identity_component ?f ?x] =>
      destruct (validate_identity_component f x); try done end; done.
Qed.

Lemma blank_token_unset c :
  match admin_token (security (normalize c)) with Some t => str_trim t ≠ "" | None => True end.
Proof.
  unfold normalize. destruct (admin_token (security c)) as [t|] eqn:Ht; [|by rewrite Ht].
  destruct (str_trim t) eqn:Htrim; simpl; [done|]. rewrite Ht. by rewrite Htrim.
Qed.

(** A configuration that loads can be used: the command line overrides the lower
    layers; the identity settings convert, and on a data node are complete and accepted
    when the log is opened; the trusted networks parse, so building the API settings does
    not panic; an enabled compaction has a codec and consistent limits; a blank admin
    token is unset; and the soft watermark of the ingest buffers is within their cap. *)
Theorem loaded_config_usable (serialized : bool) (layers : option string → result ConfigError TeoDBConfig)
    (exists_ : string → bool) (cli : CliArgs) (c : TeoDBConfig)
    (Hload : load serialized layers exists_ cli = Ok c) :
  (∃ base, layers (cli_config cli) = Ok base ∧ role c = default (role base) (cli_role cli) ∧
     mode (security c) = default (mode (security base)) (cli_security_mode cli)) ∧
  (∃ identity, wal_identity_config c = Ok identity ∧
     (role c = DataNode → validate_configured_identity identity = Ok tt ∧
        is_Some (cfg_cluster_id identity) ∧ is_Some (cfg_node_id identity) ∧ is_Some (cfg_writer_slot identity))) ∧
  (∃ api, to_api_config c = Some api ∧
     Forall2 (λ text cidr, cidr_from_str text = Ok cidr) (trusted_proxy_cidrs (server c)) (ac_trusted_proxy_cidrs api)) ∧
  (compaction_enabled (maintenance c) = true →
     is_ok (from_str_config (compression (maintenance c))) = true ∧
     (min_files_per_compaction (maintenance c) ≤ max_files_per_compaction (maintenance c))%N ∧
     (0 < compaction_memory_bytes (maintenance c))%N) ∧
  match admin_token (security c) with Some t => str_trim t ≠ "" | None => True end ∧
  (buffer_soft_watermark_bytes (to_ingest_config c) ≤ buffer_max_bytes (to_ingest_config c))%N.
Proof.
  unfold load in Hload. apply bind_Ok in Hload as ([] & _ & Hload). apply bind_Ok in Hload as ([] & _ & Hload).
  apply bind_Ok in Hload as (base & Hbase & Hload). apply bind_Ok in Hload as ([] & Hv & Hc).
  apply map_err_Ok in Hv. injection Hc as Hc. rewrite Hc in Hv. split_and!.
  - exists base. split; [done|]. rewrite <-Hc. unfold resolve_paths, normalize. simpl.
    destruct (admin_token (security base)) as [t|]; [destruct (str_is_empty (str_trim t))|]; done.
  - eexists. split; [by apply validated_identity|]. intros Hr.
    destruct (data_node_identity c Hv Hr) as (id & node & slot & Hid & Hnil & Hnode & Hslot).
    destruct (validated_names c Hv) as [Hn Hs]. split; [apply configured_identity_ok; congruence|].
    simpl. rewrite Hid, Hnode, Hslot. eauto.
  - destruct (cidrs_parse c Hv) as [cidrs Hcidrs]. unfold to_api_config. rewrite Hcidrs. eexists. split; [done|].
    by apply mapM_res_Ok in Hcidrs.
  - intros He. by apply compaction_bounds.
  - rewrite <-Hc. exact (blank_token_unset (apply_cli_overrides base cli)).
  - simpl. unfold u64_wrapping_mul. pose proof (N.Div0.mod_le (is_buffer_max_bytes (ingest c) * 3) (2 ^ 64)).
    apply N.Div0.div_le_upper_bound. lia.
Qed.

(** The defaults with the identity of a data node and a trusted network. *)
Definition demo_data_node : TeoDBConfig :=
  with_sections default_config Standalone
    (mkServerConfig "0.0.0.0:8080" "0.0.0.0:8815" 256 256 512 512 64 (64 * MIB) (64 * MIB) 300 (64 * MIB) 32
       20000 10000 40000 60 8192 ["10.0.0.0/8"] [])
    default_storage (security_with default_security Plaintext (Some "  ")) default_observability
    (mkClusterConfig (Some 7%N) (Some "data-node-0") (Some "slot-0") 32 false "0.0.0.0:50050" "localhost:50050"
       "0.0.0.0:50051" None 50052 0 5 3 1 false 20).
Definition demo_cli : CliArgs := mkCliArgs None (Some DataNode) None None None None None None.
Definition demo_loaded_config : TeoDBConfig :=
  resolve_paths (normalize (apply_cli_overrides demo_data_node demo_cli)).

Lemma loaded_config_usable_witness :
  role demo_loaded_config = DataNode ∧ admin_token (security demo_loaded_config) = None ∧
  ∃ api, to_api_config demo_loaded_config = Some api ∧
     Forall2 (λ text cidr, cidr_from_str text = Ok cidr) ["10.0.0.0/8"] (ac_trusted_proxy_cidrs api).
Proof.
  split; [reflexivity|]. split; [reflexivity|].
  exact (proj1 (proj2 (proj2 (loaded_config_usable true (λ _, Ok demo_data_node) (λ _, true) demo_cli
    demo_loaded_config ltac:(vm_compute; reflexivity))))).
Defined.

(** The compiled defaults are valid; started as a data node they miss the three
    settings of its identity, and all three are reported. *)
Lemma defaults_valid :
  validate_config default_config = Ok tt ∧
  validate_config (apply_cli_overrides default_config demo_cli)
  = Err ["cluster.cluster_id is required for role=data-node"; "cluster.node_id is required for role=data-node";
         "cluster.writer_slot is required for role=data-node"].
Proof. split; vm_compute; reflexivity. Qed.

(** ** Where validation and use disagree *)

Definition with_maintenance (c : TeoDBConfig) (m : MaintenanceConfig) : TeoDBConfig :=
  mkTeoDBConfig (role c) (data_dir c) (server c) (catalog c) (storage c) (wal_section c) (query c) (ingest c)
    (security c) (observability c) (runtime c) (shutdown c) (cluster c) m.
Definition with_ingest (c : TeoDBConfig) (i : IngestSection) : TeoDBConfig :=
  mkTeoDBConfig (role c) (data_dir c) (server c) (catalog c) (storage c) (wal_section c) (query c) i
    (security c) (observability c) (runtime c) (shutdown c) (cluster c) (maintenance c).
Definition with_query (c : TeoDBConfig) (q : QueryConfig) : TeoDBConfig :=
  mkTeoDBConfig (role c) (data_dir c) (server c) (catalog c) (storage c) (wal_section c) q (ingest c)
    (security c) (observability c) (runtime c) (shutdown c) (cluster c) (maintenance c).
Definition with_cluster (c : TeoDBConfig) (cl : ClusterConfig) : TeoDBConfig :=
  with_sections c (role c) (server c) (storage c) (security c) (observability c) cl.

(** The products of the settings wrap at 64 bits: an interval of 2^63 seconds passes
    with a lock that expires at once, and a buffer of 2^63 bytes gets a third of the
    watermark of three quarters. *)
Lemma config_products_wrap :
  validate_config (with_maintenance default_config
    (mkMaintenanceConfig true true (2 ^ 63) (128 * MIB) 8 64 GIB (512 * MIB) "zstd(3)" 21600 86400 0 1 0)) = Ok tt ∧
  (let c := with_ingest default_config
     (mkIngestSection (2 ^ 63) 10 (64 * MIB) "s3://teodb" 86400 100000 default_status_check) in
   validate_config c = Ok tt ∧ (buffer_soft_watermark_bytes (to_ingest_config c) * 3 = 2 ^ 63 * 3 / 4)%N).
Proof. cbv zeta. split_and!; vm_compute; reflexivity. Qed.

(** The zeros that the documentation of the settings gives a meaning are refused. *)
Lemma documented_zeros_refused q m :
  (metadata_refresh_secs q = 0%N → is_ok (validate_config (with_query default_config q)) = false) ∧
  (compaction_enabled m = true → max_bytes_per_compaction m = 0%N ∨ compaction_memory_bytes m = 0%N →
   is_ok (validate_config (with_maintenance default_config m)) = false).
Proof.
  assert (∀ c b, b ∈ config_bounds c → ¬ b_holds b → is_ok (validate_config c) = false) as Hfail.
  { intros c b Hb Hn. destruct (validate_config c) as [[]|] eqn:Hv; [|done]. by destruct Hn; eapply bound_holds. }
  split.
  - intros Hq. eapply (Hfail _ (bound (0 < metadata_refresh_secs q)%N _)); [|simpl; lia].
    unfold config_bounds. rewrite !elem_of_app. do 2 right. left. unfold query_bounds. simpl. do 3 right. left.
  - intros He [Hm|Hm].
    + eapply (Hfail _ (bound (0 < max_bytes_per_compaction m)%N _)); [|simpl; lia].
      unfold config_bounds. rewrite !elem_of_app. do 5 right. unfold maintenance_bounds. simpl. rewrite He. do 3 right. left.
    + eapply (Hfail _ (bound (0 < compaction_memory_bytes m)%N _)); [|simpl; lia].
      unfold config_bounds. rewrite !elem_of_app. do 5 right. unfold maintenance_bounds. simpl. rewrite He. do 4 right. left.
Qed.

(** Off the data-node role a nil cluster UUID is validated and then refused when the log
    is opened. *)
Lemma standalone_nil_cluster_refused_late :
  let c := with_cluster default_config
    (mkClusterConfig (Some 0%N) None None 32 false "0.0.0.0:50050" "localhost:50050" "0.0.0.0:50051" None 50052 0 5 3
       1 false 20) in
  validate_config c = Ok tt ∧
  (identity ← wal_identity_config c; validate_configured_identity identity)
  = Err (Config "configured cluster UUID must not be nil").
Proof. cbv zeta. split; vm_compute; reflexivity. Qed.

(** ** Security modes *)

Section security_spec.
Context `{JwtLibrary} (read_allow_list : string → option (list Rule)) (read_key : string → option string)
  (load_key : string → string → option DecodingKey).
#[local] Abbreviation build := (build_security_context read_allow_list read_key load_key).


(** Without a signing key nothing is authenticated, in OAuth2 mode as well, and the
    checks of the mode do not ask for one: a request without a token is the anonymous
    principal. *)
Lemma oauth2_without_key_is_anonymous (c : TeoDBConfig) (s : SecurityState) :
  jwt_signing_key (security c) = None → build c = Some s →
  extract_context s None None = Ok (mkAuthenticated anonymous_principal None) ∧
  (∀ key, validate_production_mode
      (with_security c (mkSecurityConfig (mode (security c)) (tls_cert (security c)) (tls_key (security c))
         (allow_list_path (security c)) (client_ca_cert (security c)) (jwt_issuer (security c))
         (jwt_audience (security c)) key (jwt_algorithm (security c)) (admin_token (security c))))
    = validate_production_mode c).
Proof.
  intros Hk Hb. unfold build_security_context in Hb. apply bind_Some in Hb as (a & _ & Hb).
  apply bind_Some in Hb as (v & Hv & Hs). unfold build_jwt_validator in Hv. rewrite Hk in Hv.
  injection Hv as <-. injection Hs as <-. split; [reflexivity|]. intros key. reflexivity.
Qed.

(** TLS mode without an allow-list allows every action. *)
Lemma tls_without_rules_allows_all (c : TeoDBConfig) (s : SecurityState) :
  mode (security c) = Tls → allow_list_path (security c) = None → build c = Some s →
  ∀ p a r, api_authorize (ss_authorizer s) p a r = Ok tt.
Proof.
  intros Hm Hp Hb. unfold build_security_context, build_authorizer in Hb. rewrite Hm, Hp in Hb. simpl in Hb.
  apply bind_Some in Hb as (v & _ & Hs). by injection Hs as <-.
Qed.
End security_spec.

Definition demo_secure : TeoDBConfig :=
  with_security default_config
    (mkSecurityConfig OAuth2 (Some "cert.pem") (Some "key.pem") (Some "rules.toml") None None None None "RS256" None).
#[local] Instance demo_jwt_library : JwtLibrary :=
  {| DecodingKey := unit; jwt_decode _ _ _ := Err OtherJwtError; sha256_hex t := t |}.
Definition demo_rules : list Rule := [].
Definition demo_security : SecurityState := mkSecurity None (Some (authorize_rules demo_rules)) None.

