(* ===== verification/Connections.v ===== *)
(** * Incoming connections

    Models [teodb-server/src/server/incoming.rs]: the limit on open connections of the REST
    acceptor and of the Flight listener, the gauges that count them, and the idle timeout of
    a connection.  Sockets are what they answer; a connection that is dropped gives its
    permit and its gauge back. *)

From stdpp Require Import base list gmap strings.
From S2P Require Import Prelude Core.
Open Scope nat_scope.
Open Scope list_scope.

(** ** Permits and gauges *)
Record Incoming := mkIncoming { max_connections : nat; open_connections : list N; next_connection : N; active_gauge : Z; rejected_total : N }.
Definition incoming_new (max : nat) : Incoming := mkIncoming max [] 0 0 0.
(** [try_acquire_owned] and [wrap]: a permit and a count on the gauge for the connection. *)
Definition has_permit (s : Incoming) : bool := length (open_connections s) <? max_connections s.
Definition wrap (s : Incoming) : Incoming * N :=
  (mkIncoming (max_connections s) (next_connection s :: open_connections s) (next_connection s + 1) (active_gauge s + 1)
     (rejected_total s), next_connection s).
Definition reject (s : Incoming) : Incoming :=
  mkIncoming (max_connections s) (open_connections s) (next_connection s) (active_gauge s) (rejected_total s + 1).
(** The drop of a connection: its permit, and [ConnectionGuard]. *)
Definition drop_connection (s : Incoming) (id : N) : Incoming :=
  mkIncoming (max_connections s) (List.filter (λ i, negb (i =? id)%N) (open_connections s)) (next_connection s)
    (if bool_decide (id ∈ open_connections s) then active_gauge s - 1 else active_gauge s) (rejected_total s).

Inductive AcceptError := SocketError | ConnectionRefused.
(** [LimitedAcceptor::accept]; [peer]: whether the socket has a peer address. *)
Definition accept (s : Incoming) (peer : bool) : Incoming * result AcceptError N :=
  if negb peer then (s, Err SocketError)
  else if has_permit s then let '(s, id) := wrap s in (s, Ok id)
  else (reject s, Err ConnectionRefused).
(** [flight_incoming]: the loop over what the listener accepts, up to the first item of the
    stream; [None] when the listener has no more for now. *)
Fixpoint flight_incoming (s : Incoming) (accepted : list bool) : Incoming * option (result AcceptError N) * list bool :=
  match accepted with
  | [] => (s, None, [])
  | false :: accepted => (s, Some (Err SocketError), accepted)
  | true :: accepted =>
      if has_permit s then let '(s, id) := wrap s in (s, Some (Ok id), accepted)
      else flight_incoming (reject s) accepted
  end.

Inductive ConnEvent := EvAccept (peer : bool) | EvFlight (accepted : list bool) | EvClose (id : N).
Definition conn_step (s : Incoming) (e : ConnEvent) : Incoming :=
  match e with
  | EvAccept peer => (accept s peer).1
  | EvFlight accepted => (flight_incoming s accepted).1.1
  | EvClose id => drop_connection s id
  end.

(** ** The idle timeout *)
Record LimitedIo := mkLimitedIo { idle_timeout : N; read_deadline : N; write_deadline : N }.
Definition io_new (timeout now : N) : LimitedIo := mkLimitedIo timeout (now + timeout) (now + timeout).
(** What the socket answers when it is polled: pending, an error, or some bytes. *)
Inductive SocketReply := SPending | SFailed | SBytes (n : N).
Inductive PollReply := PPending | PFailed | PTimedOut | PBytes (n : N).
Definition reset (io : LimitedIo) (now : N) : LimitedIo := mkLimitedIo (idle_timeout io) (now + idle_timeout io) (now + idle_timeout io).
Definition poll_inner (io : LimitedIo) (reply : SocketReply) (now : N) : LimitedIo * PollReply :=
  match reply with
  | SPending => (io, PPending)
  | SFailed => (io, PFailed)
  | SBytes n => (if (0 <? n)%N then reset io now else io, PBytes n)
  end.
Definition poll_read (io : LimitedIo) (reply : SocketReply) (now : N) : LimitedIo * PollReply :=
  if (read_deadline io <=? now)%N then (io, PTimedOut) else poll_inner io reply now.
Definition poll_write (io : LimitedIo) (reply : SocketReply) (now : N) : LimitedIo * PollReply :=
  if (write_deadline io <=? now)%N then (io, PTimedOut) else poll_inner io reply now.

Inductive IoPoll := PollRead (reply : SocketReply) (now : N) | PollWrite (reply : SocketReply) (now : N).
Definition io_step (io : LimitedIo) (p : IoPoll) : LimitedIo * PollReply :=
  match p with PollRead reply now => poll_read io reply now | PollWrite reply now => poll_write io reply now end.
Definition poll_time (p : IoPoll) : N := match p with PollRead _ now | PollWrite _ now => now end.
Definition io_run (io : LimitedIo) (ps : list IoPoll) : LimitedIo := foldl (λ io p, (io_step io p).1) io ps.

(** ** The limit *)
Record conn_inv (s : Incoming) : Prop := {
  cn_limit : length (open_connections s) ≤ max_connections s;
  cn_gauge : active_gauge s = Z.of_nat (length (open_connections s));
  cn_below id : id ∈ open_connections s → (id < next_connection s)%N;
  cn_distinct : NoDup (open_connections s) }.

Lemma wrap_inv s : conn_inv s → has_permit s = true → conn_inv (wrap s).1.
Proof.
  intros [Hl Hg Hb Hd] Hp. apply Nat.ltb_lt in Hp. split; simpl; [lia|lia| |].
  - intros id [->|Hid]%elem_of_cons; [lia|]. specialize (Hb id Hid). lia.
  - apply NoDup_cons. split; [|done]. intros Hin. specialize (Hb _ Hin). lia.
Qed.
Lemma reject_inv s : conn_inv s → conn_inv (reject s).
Proof. intros [Hl Hg Hb Hd]. by split. Qed.
Lemma drop_filter id l : id ∉ l → List.filter (λ i, negb (i =? id)%N) l = l.
Proof.
  induction l as [|x l IH]; [done|]. intros [Hx Hl]%not_elem_of_cons. simpl.
  destruct (x =? id)%N eqn:He; [apply N.eqb_eq in He; congruence|]. simpl. by rewrite IH.
Qed.
Lemma drop_length id l : NoDup l → id ∈ l → S (length (List.filter (λ i, negb (i =? id)%N) l)) = length l.
Proof.
  induction 1 as [|x l Hx Hnd IH]; [by intros ?%elem_of_nil|]. intros [->|Hin]%elem_of_cons; simpl.
  - rewrite N.eqb_refl. simpl. by rewrite drop_filter.
  - destruct (x =? id)%N eqn:He; [apply N.eqb_eq in He; congruence|]. simpl. by rewrite IH.
Qed.
Lemma drop_inv s id : conn_inv s → conn_inv (drop_connection s id).
Proof.
  intros [Hl Hg Hb Hd].
  assert (Hlen : length (List.filter (λ i, negb (i =? id)%N) (open_connections s)) ≤ length (open_connections s))
    by (apply filter_length_le).
  split; simpl; [lia| | |].
  - case_bool_decide as Hin; [pose proof (drop_length id _ Hd Hin); lia|]. by rewrite drop_filter.
  - intros i Hi. apply Hb. apply list_elem_of_In in Hi. apply filter_In in Hi as [Hi _]. by apply list_elem_of_In.
  - by apply NoDup_ListNoDup, List.NoDup_filter, NoDup_ListNoDup.
Qed.
Lemma flight_inv accepted s : conn_inv s → conn_inv (flight_incoming s accepted).1.1.
Proof.
  revert s. induction accepted as [|[] accepted IH]; intros s Hi; simpl; [done| |done].
  destruct (has_permit s) eqn:Hp; [by apply wrap_inv|]. by apply IH, reject_inv.
Qed.
Lemma conn_step_inv s e : conn_inv s → conn_inv (conn_step s e).
Proof.
  intros Hi. destruct e as [[]|accepted|id]; simpl; [| |by apply flight_inv|by apply drop_inv].
  - unfold accept. simpl. destruct (has_permit s) eqn:Hp; [by apply wrap_inv|by apply reject_inv].
  - done.
Qed.
Lemma conn_new_inv max : conn_inv (incoming_new max).
Proof. split; simpl; [lia|done| |constructor]. intros id Hid. by apply elem_of_nil in Hid. Qed.
Lemma flight_max accepted s : max_connections (flight_incoming s accepted).1.1 = max_connections s.
Proof.
  revert s. induction accepted as [|[] accepted IH]; intros s; simpl; [done| |done]. destruct (has_permit s); [done|]. by rewrite IH.
Qed.
Lemma conn_step_max s e : max_connections (conn_step s e) = max_connections s.
Proof.
  destruct e as [[]|accepted|id]; simpl; [|done|apply flight_max|done]. unfold accept. simpl. by destruct (has_permit s).
Qed.
(** After any sequence of accepts, refusals and drops at most the configured number of
    connections is open, and the gauge shows how many. *)
Theorem connections_bounded max es :
  let s := foldl conn_step (incoming_new max) es in
  length (open_connections s) ≤ max ∧ active_gauge s = Z.of_nat (length (open_connections s)).
Proof.
  assert (conn_inv (foldl conn_step (incoming_new max) es) ∧ max_connections (foldl conn_step (incoming_new max) es) = max)
    as [[Hl Hg _ _] Hm].
  { induction es as [|e es [Hi Hm]] using rev_ind; [split; [apply conn_new_inv|done]|].
    rewrite foldl_snoc, conn_step_max. split; [by apply conn_step_inv|done]. }
  rewrite Hm in Hl. done.
Qed.
(** A connection is refused only when the limit is reached. *)
Theorem refused_only_when_full s peer s' :
  accept s peer = (s', Err ConnectionRefused) → max_connections s ≤ length (open_connections s).
Proof.
  unfold accept. destruct peer; simpl; [|done]. destruct (has_permit s) eqn:Hp; [done|]. intros _. by apply Nat.ltb_ge in Hp.
Qed.

(** ** Idle connections

    When bytes last moved, in either direction. *)
Fixpoint last_moved (timeout since : N) (ps : list IoPoll) : N :=
  match ps with
  | [] => since
  | PollRead (SBytes n) now :: ps | PollWrite (SBytes n) now :: ps =>
      last_moved timeout (if ((0 <? n) && (now <? since + timeout))%N then now else since) ps
  | _ :: ps => last_moved timeout since ps
  end.
Lemma io_deadlines timeout since ps :
  io_run (io_new timeout since) ps = io_new timeout (last_moved timeout since ps).
Proof.
  revert since. induction ps as [|p ps IH]; intros since; [done|]. unfold io_run in *. simpl.
  destruct p as [[| |n] now|[| |n] now]; simpl; unfold poll_read, poll_write, poll_inner; simpl;
    destruct (since + timeout <=? now)%N eqn:Hd; simpl; try apply IH.
  all: first [apply N.leb_le in Hd; rewrite (proj2 (N.ltb_ge now (since + timeout)) Hd), andb_false_r; apply IH
             |apply N.leb_gt in Hd; rewrite (proj2 (N.ltb_lt now (since + timeout)) Hd), andb_true_r; destruct (0 <? n)%N; apply IH].
Qed.
(** After any polls, reading and writing time out exactly when no byte moved in either
    direction for the whole timeout. *)
Theorem idle_timeout_exact timeout since ps p :
  (io_step (io_run (io_new timeout since) ps) p).2 = PTimedOut ↔ (last_moved timeout since ps + timeout ≤ poll_time p)%N.
Proof.
  rewrite io_deadlines. destruct p as [reply now|reply now]; simpl; unfold poll_read, poll_write; simpl;
    destruct (_ + timeout <=? now)%N eqn:Hd; simpl;
    [apply N.leb_le in Hd|apply N.leb_gt in Hd|apply N.leb_le in Hd|apply N.leb_gt in Hd]; destruct reply; simpl; split; intros; try done; lia.
Qed.

(** A request that is being answered does not count as activity: a connection waiting for a
    response that takes the timeout to begin is closed. *)
Lemma slow_response_times_out (timeout request_read : N) :
  let io := io_run (io_new timeout request_read) [PollRead (SBytes 100) request_read; PollRead SPending request_read] in
  (io_step io (PollRead SPending (request_read + timeout))).2 = PTimedOut.
Proof.
  cbn zeta. apply idle_timeout_exact. simpl. destruct (_ <? _)%N; simpl; lia.
Qed.
