(* ===== verification/MetadataCache.v ===== *)
(** * The metadata cache of the query engine

    Models [teodb-query/src/provider/metadata_cache.rs]: the cached table providers, the
    registry of load locks that keeps concurrent queries from loading a table twice, and the
    cached list of table names.  A call of [table] is a task that stops where the code awaits
    (its lock, the catalog); the steps of all tasks interleave freely, a task can be dropped
    where it waits, and the cache can evict an entry at any time.  Providers are an abstract
    type; what the catalog replies and the clock are arguments of the steps. *)

From stdpp Require Import base list strings gmap sets.
From S2P Require Import Prelude Core.
Open Scope nat_scope.
Open Scope list_scope.

(** A load lock: one of the registry's own, or a shared overflow lock. *)
Inductive LoadLock := TrackedLock (id : N) | OverflowLock (index : nat).
#[export] Instance LoadLock_eq_dec : EqDecision LoadLock.
Proof. solve_decision. Defined.

(** Where a call of [table] is: loading without a lock, refreshing an expired provider,
    waiting for the lock, loading, returned. *)
Inductive TableCall (P E : Type) :=
| Direct (name : string)
| Refreshing (name : string) (lock : LoadLock) (stale : P)
| Waiting (name : string) (lock : LoadLock)
| Loading (name : string) (lock : LoadLock)
| Returned (name : string) (r : result E (option P)).
Arguments Direct {P E} name.
Arguments Refreshing {P E} name lock stale.
Arguments Waiting {P E} name lock.
Arguments Loading {P E} name lock.
Arguments Returned {P E} name r.
Record MetadataMetrics := mkMetrics { refresh_success : N; refresh_failure : N; stale_serves : N }.
Record MetadataCache (P E : Type) := mkCache {
  table_providers : gmap string (P * N);
  lock_entries : gmap string N;
  next_lock : N;
  calls : gmap N (TableCall P E);
  metrics : MetadataMetrics }.
Arguments mkCache {P E}.
Arguments table_providers {P E}.
Arguments lock_entries {P E}.
Arguments next_lock {P E}.
Arguments calls {P E}.
Arguments metrics {P E}.

Section cache.
Context {P E : Type} (metadata_ttl : N) (max_entries : nat) (overflow_stripes : nat) (hash : string → N).
Abbreviation Cache := (MetadataCache P E).
Abbreviation Call := (TableCall P E).

Definition cache_new : Cache := mkCache ∅ ∅ 0 ∅ (mkMetrics 0 0 0).
Definition set_call (s : Cache) (t : N) (c : Call) : Cache :=
  mkCache (table_providers s) (lock_entries s) (next_lock s) (<[t := c]> (calls s)) (metrics s).
Definition set_providers (s : Cache) (providers : gmap string (P * N)) : Cache :=
  mkCache providers (lock_entries s) (next_lock s) (calls s) (metrics s).
Definition record_refresh_success (s : Cache) : Cache :=
  mkCache (table_providers s) (lock_entries s) (next_lock s) (calls s)
    (mkMetrics (refresh_success (metrics s) + 1) (refresh_failure (metrics s)) (stale_serves (metrics s))).
Definition record_refresh_failure (s : Cache) : Cache :=
  mkCache (table_providers s) (lock_entries s) (next_lock s) (calls s)
    (mkMetrics (refresh_success (metrics s)) (refresh_failure (metrics s) + 1) (stale_serves (metrics s))).
Definition record_stale_serve (s : Cache) : Cache :=
  mkCache (table_providers s) (lock_entries s) (next_lock s) (calls s)
    (mkMetrics (refresh_success (metrics s)) (refresh_failure (metrics s)) (stale_serves (metrics s) + 1)).

(** The lock a call has a reference to, and the one it holds. *)
Definition lock_of (c : Call) : option LoadLock :=
  match c with Refreshing _ l _ | Waiting _ l | Loading _ l => Some l | Direct _ | Returned _ _ => None end.
Definition held_by (c : Call) : option LoadLock :=
  match c with Refreshing _ l _ | Loading _ l => Some l | _ => None end.
Definition name_of (c : Call) : string :=
  match c with Direct n | Refreshing n _ _ | Waiting n _ | Loading n _ | Returned n _ => n end.
Definition some_call (f : Call → bool) (s : Cache) : bool := existsb (λ c, f c.2) (map_to_list (calls s)).
Definition lock_alive (s : Cache) (id : N) : bool := some_call (λ c, bool_decide (lock_of c = Some (TrackedLock id))) s.
Definition is_locked (s : Cache) (l : LoadLock) : bool := some_call (λ c, bool_decide (held_by c = Some l)) s.

(** [LoadLockRegistry::lock]. *)
Definition live_entry (s : Cache) (key : string) : option N :=
  id ← lock_entries s !! key; if lock_alive s id then Some id else None.
Definition load_lock (s : Cache) (key : string) : Cache * LoadLock :=
  match live_entry s key with
  | Some id => (s, TrackedLock id)
  | None =>
      let entries := filter (λ e, lock_alive s e.2 = true) (delete key (lock_entries s)) in
      if (size entries <? max_entries)%nat
      then (mkCache (table_providers s) (<[key := next_lock s]> entries) (next_lock s + 1) (calls s) (metrics s),
            TrackedLock (next_lock s))
      else (mkCache (table_providers s) entries (next_lock s) (calls s) (metrics s),
            OverflowLock (N.to_nat (hash key mod N.of_nat overflow_stripes)))
  end.

Definition is_fresh (now loaded_at : N) : bool := (now - loaded_at <? metadata_ttl)%N.
Inductive CacheEvent :=
| CallTable (t : N) (name : string) (now : N)
| LockAcquired (t : N) (now : N)
| CatalogReply (t : N) (reply : result E (option P)) (now : N)
| DropCall (t : N)
| EvictProvider (name : string).

(** [table] up to its first await. *)
Definition call_table (s : Cache) (t : N) (name : string) (now : N) : Cache :=
  if (metadata_ttl =? 0)%N then set_call s t (Direct name)
  else
    match table_providers s !! name with
    | Some (provider, loaded_at) =>
        if is_fresh now loaded_at then set_call s t (Returned name (Ok (Some provider)))
        else
          let '(s, lock) := load_lock s name in
          if is_locked s lock then set_call (record_stale_serve s) t (Returned name (Ok (Some provider)))
          else set_call s t (Refreshing name lock provider)
    | None => let '(s, lock) := load_lock s name in set_call s t (Waiting name lock)
    end.
Definition lock_acquired (s : Cache) (t : N) (name : string) (lock : LoadLock) (now : N) : Cache :=
  match table_providers s !! name with
  | Some (provider, loaded_at) =>
      if is_fresh now loaded_at then set_call s t (Returned name (Ok (Some provider))) else set_call s t (Loading name lock)
  | None => set_call s t (Loading name lock)
  end.
(** The catalog's reply to a refresh, and to a first load. *)
Definition refreshed (s : Cache) (t : N) (name : string) (stale : P) (reply : result E (option P)) (now : N) : Cache :=
  match reply with
  | Ok (Some fresh) =>
      set_call (set_providers (record_refresh_success s) (<[name := (fresh, now)]> (table_providers s))) t
        (Returned name (Ok (Some fresh)))
  | Ok None =>
      set_call (set_providers (record_refresh_success s) (delete name (table_providers s))) t (Returned name (Ok None))
  | Err _ => set_call (record_stale_serve (record_refresh_failure s)) t (Returned name (Ok (Some stale)))
  end.
Definition loaded (s : Cache) (t : N) (name : string) (reply : result E (option P)) (now : N) : Cache :=
  let s := match reply with
           | Ok (Some provider) => set_providers s (<[name := (provider, now)]> (table_providers s))
           | _ => s
           end in
  set_call s t (Returned name reply).

Definition cache_step (s : Cache) (e : CacheEvent) : option Cache :=
  match e with
  | CallTable t name now => match calls s !! t with None => Some (call_table s t name now) | Some _ => None end
  | LockAcquired t now =>
      match calls s !! t with
      | Some (Waiting name lock) => if is_locked s lock then None else Some (lock_acquired s t name lock now)
      | _ => None
      end
  | CatalogReply t reply now =>
      match calls s !! t with
      | Some (Direct name) => Some (set_call s t (Returned name reply))
      | Some (Refreshing name _ stale) => Some (refreshed s t name stale reply now)
      | Some (Loading name _) => Some (loaded s t name reply now)
      | _ => None
      end
  | DropCall t => Some (mkCache (table_providers s) (lock_entries s) (next_lock s) (delete t (calls s)) (metrics s))
  | EvictProvider name => Some (set_providers s (delete name (table_providers s)))
  end.
Inductive cache_reach : list CacheEvent → Cache → Prop :=
| cache_reach_new : cache_reach [] cache_new
| cache_reach_step tr s e s' : cache_reach tr s → cache_step s e = Some s' → cache_reach (tr ++ [e]) s'.

(** ** The list of table names

    The cached names, whether a refresh is running, and the refreshes spawned. *)
Record NamesCache := mkNames { table_names : gmap string (list string * N); refreshing : bool; refreshes : list string }.
Inductive NamesEvent :=
| NamesSnapshot (namespace : string) (reply : result E (list string)) (now now' : N)
| NamesRefreshed (n : nat) (reply : result E (list string)) (now : N)
| EvictNames (namespace : string).
Definition cached_table_names (s : NamesCache) (namespace : string) (now : N) : option (list string) * bool :=
  match table_names s !! namespace with
  | Some (names, loaded_at) => (Some names, negb (metadata_ttl =? 0)%N && is_fresh now loaded_at)
  | None => (None, false)
  end.
Definition spawn_table_names_refresh (s : NamesCache) (namespace : string) : NamesCache :=
  if refreshing s then s else mkNames (table_names s) true (namespace :: refreshes s).
Definition blocking_load_table_names (reply : result E (list string)) : list string :=
  match reply with Ok names => names | Err _ => [] end.
(** [reply]: the catalog's, when nothing is cached; [now']: the clock after it. *)
Definition table_names_snapshot (s : NamesCache) (namespace : string) (reply : result E (list string)) (now now' : N)
    : NamesCache * list string :=
  match cached_table_names s namespace now with
  | (Some names, true) => (s, names)
  | (Some stale, false) => (spawn_table_names_refresh s namespace, stale)
  | (None, _) =>
      let names := blocking_load_table_names reply in
      (if (metadata_ttl =? 0)%N then s
       else mkNames (<[namespace := (names, now')]> (table_names s)) (refreshing s) (refreshes s), names)
  end.
(** The [n]-th spawned refresh gets its reply. *)
Definition names_refreshed (s : NamesCache) (n : nat) (reply : result E (list string)) (now : N) : option NamesCache :=
  namespace ← refreshes s !! n;
  Some (mkNames (match reply with Ok names => <[namespace := (names, now)]> (table_names s) | Err _ => table_names s end)
          false (delete n (refreshes s))).
Definition table_exist (s : NamesCache) (namespace name : string) (reply : result E (list string)) (now now' : N) : NamesCache * bool :=
  let '(s, names) := table_names_snapshot s namespace reply now now' in (s, existsb (λ table, bool_decide (table = name)) names).
Definition names_step (s : NamesCache) (e : NamesEvent) : option NamesCache :=
  match e with
  | NamesSnapshot ns reply now now' => Some (table_names_snapshot s ns reply now now').1
  | NamesRefreshed n reply now => names_refreshed s n reply now
  | EvictNames ns => Some (mkNames (delete ns (table_names s)) (refreshing s) (refreshes s))
  end.

(** ** Invariants *)
Lemma some_call_true f (s : Cache) : some_call f s = true ↔ ∃ t c, calls s !! t = Some c ∧ f c = true.
Proof.
  unfold some_call. rewrite existsb_exists. split.
  - intros ([t c] & Hin & Hf). exists t, c. split; [|done]. by apply elem_of_map_to_list, list_elem_of_In.
  - intros (t & c & Hc & Hf). exists (t, c). split; [|done]. by apply list_elem_of_In, elem_of_map_to_list.
Qed.
Lemma lock_alive_true s id : lock_alive s id = true ↔ ∃ t c, calls s !! t = Some c ∧ lock_of c = Some (TrackedLock id).
Proof. unfold lock_alive. rewrite some_call_true. by setoid_rewrite bool_decide_eq_true. Qed.
Lemma is_locked_true s l : is_locked s l = true ↔ ∃ t c, calls s !! t = Some c ∧ held_by c = Some l.
Proof. unfold is_locked. rewrite some_call_true. by setoid_rewrite bool_decide_eq_true. Qed.
Lemma held_lock_of c l : held_by c = Some l → lock_of c = Some l.
Proof. by destruct c. Qed.

Definition overflow_of (name : string) : LoadLock := OverflowLock (N.to_nat (hash name mod N.of_nat overflow_stripes)).
(** A tracked lock is the registered one of its name, an overflow lock the name's stripe;
    registered locks are distinct; no two calls hold a lock. *)
Definition lock_ok (s : Cache) (c : Call) : Prop :=
  match lock_of c with
  | Some (TrackedLock id) => lock_entries s !! name_of c = Some id
  | Some (OverflowLock i) => OverflowLock i = overflow_of (name_of c)
  | None => True
  end.
Record cache_inv (s : Cache) : Prop := {
  ci_locks t c : calls s !! t = Some c → lock_ok s c;
  ci_below n id : lock_entries s !! n = Some id → (id < next_lock s)%N;
  ci_distinct n n' id : lock_entries s !! n = Some id → lock_entries s !! n' = Some id → n = n';
  ci_exclusive t t' c c' l : calls s !! t = Some c → calls s !! t' = Some c' →
    held_by c = Some l → held_by c' = Some l → t = t' }.

Lemma new_inv : cache_inv cache_new.
Proof. split; simpl; intros *; rewrite ?lookup_empty; done. Qed.

(** A call that takes no lock it did not have, or an unlocked one, keeps the invariant. *)
Lemma set_call_inv s t c :
  cache_inv s → lock_ok s c →
  (∀ l t' c', held_by c = Some l → calls s !! t' = Some c' → held_by c' = Some l → t' = t) →
  cache_inv (set_call s t c).
Proof.
  intros [Hl Hb Hd He] Hc Hx. split; [|done|done|].
  - intros t' c'. simpl. rewrite lookup_insert. case_decide; [by intros [= <-]|]. apply Hl.
  - intros t1 t2 c1 c2 l. simpl. rewrite !lookup_insert.
    repeat case_decide; subst; intros; simplify_eq; eauto. symmetry. eauto.
Qed.
Lemma same_calls_inv s s' :
  calls s' = calls s → lock_entries s' = lock_entries s → next_lock s' = next_lock s → cache_inv s → cache_inv s'.
Proof.
  intros Hc He Hn [H1 H2 H3 H4]. split; rewrite ?Hc, ?He, ?Hn; try done.
  intros t c Ht. specialize (H1 t c Ht). unfold lock_ok in *. by rewrite He.
Qed.
Lemma returned_inv s t n r : cache_inv s → cache_inv (set_call s t (Returned n r)).
Proof. intros Hi. by apply set_call_inv. Qed.

Lemma load_lock_spec s name s' l :
  cache_inv s → load_lock s name = (s', l) →
  cache_inv s' ∧ calls s' = calls s ∧ table_providers s' = table_providers s
  ∧ match l with TrackedLock id => lock_entries s' !! name = Some id | OverflowLock i => OverflowLock i = overflow_of name end.
Proof.
  intros Hi. unfold load_lock, live_entry.
  destruct (lock_entries s !! name ≫= _) as [id|] eqn:Hlive.
  { apply bind_Some in Hlive as (id' & He & Hid). case_match; simplify_eq. intros. by simplify_eq. }
  set (entries := filter _ _).
  assert (Hsub : ∀ n id, entries !! n = Some id → lock_entries s !! n = Some id ∧ n ≠ name).
  { intros n id Hn. apply map_lookup_filter_Some in Hn as [Hn _]. by apply lookup_delete_Some in Hn as [??]. }
  assert (Hkeep : ∀ t c, calls s !! t = Some c → ∀ id, lock_of c = Some (TrackedLock id) → entries !! name_of c = Some id).
  { intros t c Hc id Hid. pose proof (ci_locks s Hi t c Hc) as Hok. unfold lock_ok in Hok. rewrite Hid in Hok.
    assert (lock_alive s id = true) as Ha by (apply lock_alive_true; eauto).
    apply map_lookup_filter_Some. split; [|done]. apply lookup_delete_Some. split; [|done].
    intros ->. rewrite Hok in Hlive. simpl in Hlive. by rewrite Ha in Hlive. }
  case_match; intros; simplify_eq; (split; [|split; [done|split; [done|]]]); simpl; [|by rewrite lookup_insert_eq| |done].
  - split; simpl.
    + intros t c Hc. pose proof (ci_locks s Hi t c Hc) as Hok. unfold lock_ok in *.
      destruct (lock_of c) as [[id|i]|] eqn:Hl; [|done..]. simpl. specialize (Hkeep t c Hc id Hl).
      rewrite lookup_insert_ne; [done|]. intros Hn. symmetry in Hn. by apply Hsub in Hkeep as [_ ?].
    + intros n id. rewrite lookup_insert. case_decide; intros; simplify_eq; [lia|].
      pose proof (ci_below s Hi n id). naive_solver lia.
    + assert (Hfresh : ∀ n, entries !! n ≠ Some (next_lock s)).
      { intros n Hn. apply Hsub in Hn as [Hn _]. apply (ci_below s Hi) in Hn. lia. }
      intros n n' id. rewrite !lookup_insert. repeat case_decide; intros; simplify_eq; try done; try (by exfalso; eapply Hfresh).
      eapply (ci_distinct s Hi); by apply Hsub.
    + apply (ci_exclusive s Hi).
  - split; simpl.
    + intros t c Hc. pose proof (ci_locks s Hi t c Hc) as Hok. unfold lock_ok in *.
      destruct (lock_of c) as [[id|i]|] eqn:Hl; [|done..]. simpl. by eapply Hkeep.
    + intros n id Hn. by eapply (ci_below s Hi), Hsub.
    + intros n n' id Hn Hn'. eapply (ci_distinct s Hi); by apply Hsub.
    + apply (ci_exclusive s Hi).
Qed.

Lemma not_locked s l t c : is_locked s l = false → calls s !! t = Some c → held_by c ≠ Some l.
Proof. intros Hf Hc Hh. assert (is_locked s l = true) as Ht by (apply is_locked_true; eauto). by rewrite Ht in Hf. Qed.
Lemma lock_ok_calls s s' c : lock_entries s' = lock_entries s → lock_ok s c → lock_ok s' c.
Proof. unfold lock_ok. by intros ->. Qed.
Lemma call_table_inv s t name now : cache_inv s → calls s !! t = None → cache_inv (call_table s t name now).
Proof.
  intros Hi Ht. unfold call_table. case_match; [by apply set_call_inv|].
  destruct (table_providers s !! name) as [[p at_]|].
  - case_match; [by apply returned_inv|]. destruct (load_lock s name) as [s' l] eqn:Hl.
    destruct (load_lock_spec s name s' l Hi Hl) as (Hi' & Hc & _ & Hent). destruct (is_locked s' l) eqn:Hk.
    + apply returned_inv. by apply (same_calls_inv s').
    + apply set_call_inv; [done| |].
      * unfold lock_ok. simpl. by destruct l.
      * intros l' t' c' [= <-] Ht' Hh. by destruct (not_locked s' l t' c' Hk Ht').
  - destruct (load_lock s name) as [s' l] eqn:Hl. destruct (load_lock_spec s name s' l Hi Hl) as (Hi' & Hc & _ & Hent).
    apply set_call_inv; [done| |done]. unfold lock_ok. simpl. by destruct l.
Qed.
Lemma step_inv s e s' : cache_inv s → cache_step s e = Some s' → cache_inv s'.
Proof.
  intros Hi. destruct e as [t name now|t now|t reply now|t|name]; simpl.
  - case_match; intros; simplify_eq. by apply call_table_inv.
  - destruct (calls s !! t) as [[| |name l| |]|] eqn:Ht; try done. destruct (is_locked s l) eqn:Hk; [done|]. intros [= <-].
    pose proof (ci_locks s Hi t _ Ht) as Hok. unfold lock_acquired.
    assert (cache_inv (set_call s t (Loading name l))).
    { apply set_call_inv; [done|done|]. intros l' t' c' [= <-] Ht' Hh. by destruct (not_locked s l t' c' Hk Ht'). }
    destruct (table_providers s !! name) as [[p at_]|]; [case_match; [by apply returned_inv|done]|done].
  - destruct (calls s !! t) as [[| | | |]|] eqn:Ht; intros; simplify_eq; [by apply returned_inv| |].
    + unfold refreshed. repeat case_match; apply returned_inv; by apply (same_calls_inv s).
    + unfold loaded. apply returned_inv. repeat case_match; by apply (same_calls_inv s).
  - intros [= <-]. destruct Hi as [H1 H2 H3 H4]. split; simpl; [|done|done|].
    + intros t' c. rewrite lookup_delete_Some. intros [_ Hc]. by apply (H1 t').
    + intros t1 t2 c1 c2 l. rewrite !lookup_delete_Some. intros [_ ?] [_ ?]. by eapply H4.
  - intros [= <-]. by apply (same_calls_inv s).
Qed.
Lemma reach_inv tr s : cache_reach tr s → cache_inv s.
Proof. induction 1; [apply new_inv|by eapply step_inv]. Qed.

(** ** One load at a time *)
Definition is_tracked (l : LoadLock) : bool := match l with TrackedLock _ => true | OverflowLock _ => false end.
Lemma lock_determined s t t' c c' l l' :
  cache_inv s → calls s !! t = Some c → calls s !! t' = Some c' → name_of c = name_of c' →
  lock_of c = Some l → lock_of c' = Some l' → is_tracked l = is_tracked l' → l = l'.
Proof.
  intros Hi Hc Hc' Hn Hl Hl' Hk. pose proof (ci_locks s Hi _ _ Hc) as H1. pose proof (ci_locks s Hi _ _ Hc') as H2.
  unfold lock_ok in *. rewrite Hl in H1. rewrite Hl' in H2. rewrite Hn in H1. destruct l, l'; try done; congruence.
Qed.
(** The names with a call that has a lock. *)
Definition in_flight (s : Cache) : gset string :=
  list_to_set (omap (λ c, (λ _, name_of c.2) <$> lock_of c.2) (map_to_list (calls s))).
Lemma elem_of_in_flight s n : n ∈ in_flight s ↔ ∃ t c, calls s !! t = Some c ∧ name_of c = n ∧ is_Some (lock_of c).
Proof.
  unfold in_flight. rewrite elem_of_list_to_set, list_elem_of_omap. split.
  - intros ([t c] & Hin & Heq). apply elem_of_map_to_list in Hin. simpl in Heq.
    destruct (lock_of c) as [l|] eqn:Hl; [|done]. simplify_eq/=. exists t, c. rewrite Hl. eauto.
  - intros (t & c & Hc & <- & [l Hl]). exists (t, c). split; [by apply elem_of_map_to_list|]. simpl. by rewrite Hl.
Qed.
Lemma overflow_needs_full s name s' i :
  cache_inv s → load_lock s name = (s', OverflowLock i) → max_entries ≤ size (in_flight s).
Proof.
  intros Hi. unfold load_lock. destruct (live_entry s name) as [id|]; [done|].
  set (entries := filter _ _). destruct (size entries <? max_entries)%nat eqn:Hs; [done|]. intros _.
  apply Nat.ltb_ge in Hs. rewrite <- size_dom in Hs. etrans; [exact Hs|]. apply subseteq_size.
  intros n Hn. apply elem_of_dom in Hn as [id Hid]. apply map_lookup_filter_Some in Hid as [Hid Ha].
  apply lookup_delete_Some in Hid as [_ Hid]. apply lock_alive_true in Ha as (t & c & Hc & Hl). simpl in Hl.
  apply elem_of_in_flight. exists t, c. split; [done|]. rewrite Hl. split; [|done].
  pose proof (ci_locks s Hi t c Hc) as Hok. unfold lock_ok in Hok. rewrite Hl in Hok. by eapply (ci_distinct s Hi).
Qed.

(** In every interleaving of the calls that look up tables, dropped ones and evictions
    included, two calls load the same table at the same time only when one of them has an
    overflow lock and the other a lock of its own, and an overflow lock is given out only
    while at least as many tables are being looked up as the registry has entries: below
    that a table is loaded by one call at a time. *)
Theorem one_load_per_table tr s :
  cache_reach tr s →
  (∀ t t' c c' l l', calls s !! t = Some c → calls s !! t' = Some c' → name_of c = name_of c' →
    held_by c = Some l → held_by c' = Some l' → t = t' ∨ is_tracked l ≠ is_tracked l')
  ∧ (∀ name s' i, load_lock s name = (s', OverflowLock i) → max_entries ≤ size (in_flight s)).
Proof.
  intros Hr%reach_inv. split; [|intros; by eapply overflow_needs_full].
  intros t t' c c' l l' Hc Hc' Hn Hl Hl'. destruct (decide (is_tracked l = is_tracked l')) as [Hk|Hk]; [left|by right].
  assert (l = l') as <- by exact (lock_determined s t t' c c' l l' Hr Hc Hc' Hn (held_lock_of _ _ Hl) (held_lock_of _ _ Hl') Hk).
  by eapply (ci_exclusive s).
Qed.

(** ** Where providers come from

    The catalog answered a lookup of the name with the provider, at that time. *)
Definition loaded_in (tr : list CacheEvent) (name : string) (p : P) (at_ : N) : Prop :=
  ∃ tr1 tr2 s1 t c, tr = tr1 ++ CatalogReply t (Ok (Some p)) at_ :: tr2 ∧ cache_reach tr1 s1
    ∧ calls s1 !! t = Some c ∧ name_of c = name.
Lemma loaded_in_app tr e name p at_ : loaded_in tr name p at_ → loaded_in (tr ++ [e]) name p at_.
Proof.
  intros (tr1 & tr2 & s1 & t & c & -> & Hr). exists tr1, (tr2 ++ [e]), s1, t, c. by rewrite <- app_assoc.
Qed.
Lemma loaded_in_now tr s t c name p at_ :
  cache_reach tr s → calls s !! t = Some c → name_of c = name → loaded_in (tr ++ [CatalogReply t (Ok (Some p)) at_]) name p at_.
Proof. intros Hr Hc Hn. by exists tr, [], s, t, c. Qed.

Record sourced (tr : list CacheEvent) (s : Cache) : Prop := {
  so_cached name p at_ : table_providers s !! name = Some (p, at_) → loaded_in tr name p at_;
  so_stale t name l p : calls s !! t = Some (Refreshing name l p) → ∃ at_, loaded_in tr name p at_ }.
Lemma sourced_more tr e s : sourced tr s → sourced (tr ++ [e]) s.
Proof.
  intros [H1 H2]. split; [eauto using loaded_in_app|]. intros t name l p Hc.
  destruct (H2 t name l p Hc) as [a Ha]. eauto using loaded_in_app.
Qed.
Lemma sourced_call tr s t c :
  sourced tr s → (∀ name l p, c = Refreshing name l p → ∃ at_, loaded_in tr name p at_) → sourced tr (set_call s t c).
Proof.
  intros [H1 H2] Hc. split; [done|]. intros t' name l p. simpl. rewrite lookup_insert. case_decide; [|by eauto].
  intros. simplify_eq. eauto.
Qed.
Lemma sourced_same tr s s' : table_providers s' = table_providers s → calls s' = calls s → sourced tr s → sourced tr s'.
Proof. intros Hp Hc [H1 H2]. split; [by rewrite Hp|by rewrite Hc]. Qed.
Lemma sourced_providers tr s m :
  sourced tr s → (∀ name p at_, m !! name = Some (p, at_) → loaded_in tr name p at_) → sourced tr (set_providers s m).
Proof. intros [H1 H2] Hm. by split. Qed.

Lemma call_table_sourced tr s t name now : cache_inv s → sourced tr s → sourced tr (call_table s t name now).
Proof.
  intros Hi Hs. unfold call_table. case_match; [by apply sourced_call|].
  destruct (table_providers s !! name) as [[p at_]|] eqn:Hp.
  - case_match; [by apply sourced_call|]. destruct (load_lock s name) as [s' l] eqn:Hl.
    destruct (load_lock_spec s name s' l Hi Hl) as (_ & Hc & Hpr & _).
    assert (sourced tr s') by (by apply (sourced_same tr s)).
    case_match; apply sourced_call; try done; [by apply (sourced_same tr s')|].
    intros name' l' p' [= <- <- <-]. exists at_. by apply (so_cached tr s Hs).
  - destruct (load_lock s name) as [s' l] eqn:Hl. destruct (load_lock_spec s name s' l Hi Hl) as (_ & Hc & Hpr & _).
    apply sourced_call; [|done]. by apply (sourced_same tr s).
Qed.
Lemma reply_sourced tr s t reply now s' :
  cache_reach tr s → sourced tr s → cache_step s (CatalogReply t reply now) = Some s' →
  sourced (tr ++ [CatalogReply t reply now]) s'.
Proof.
  intros Hr Hs. simpl. apply (sourced_more _ (CatalogReply t reply now)) in Hs.
  assert (Hins : ∀ c p, calls s !! t = Some c → reply = Ok (Some p) →
    ∀ name' p' at', <[name_of c := (p, now)]> (table_providers s) !! name' = Some (p', at') →
      loaded_in (tr ++ [CatalogReply t reply now]) name' p' at').
  { intros c p Hc -> name' p' at'. rewrite lookup_insert. case_decide; intros; simplify_eq; [|by eapply so_cached].
    by eapply loaded_in_now. }
  destruct (calls s !! t) as [[name|name l stale| |name l|]|] eqn:Ht; intros; simplify_eq.
  - by apply sourced_call.
  - unfold refreshed. destruct reply as [[p|]|]; apply sourced_call; try done.
    + apply sourced_providers; [by apply (sourced_same _ s)|]. by apply (Hins _ p eq_refl).
    + apply sourced_providers; [by apply (sourced_same _ s)|]. intros n p a. rewrite lookup_delete_Some. intros [_ ?]. by eapply so_cached.
    + by apply (sourced_same _ s).
  - unfold loaded. apply sourced_call; [|done]. destruct reply as [[p|]|]; [|done..].
    apply sourced_providers; [done|]. by apply (Hins _ p eq_refl).
Qed.
Lemma reach_sourced tr s : cache_reach tr s → sourced tr s.
Proof.
  induction 1 as [|tr s e s' Hr IH Hstep]; [by split|].
  destruct e as [t name now|t now|t reply now|t|name].
  - simpl in Hstep. case_match; simplify_eq. apply call_table_sourced; [by eapply reach_inv|]. by apply sourced_more.
  - simpl in Hstep. repeat case_match; simplify_eq. unfold lock_acquired.
    repeat case_match; (apply sourced_call; [by apply sourced_more|done]).
  - by eapply reply_sourced.
  - simplify_eq/=. destruct (sourced_more tr (DropCall t) s IH) as [H1 H2]. split; [done|].
    intros t' name l p. simpl. rewrite lookup_delete_Some. intros [_ ?]. by eapply H2.
  - simplify_eq/=. apply sourced_providers; [by apply sourced_more|]. intros n p a. rewrite lookup_delete_Some.
    intros [_ ?]. apply loaded_in_app. by eapply (so_cached tr s).
Qed.

(** Why a call returns a provider loaded at [at_]: it is fresh, another call is loading the
    table or a table of its stripe, the catalog just sent it, or the catalog failed. *)
Definition served_because (s : Cache) (e : CacheEvent) (name : string) (at_ : N) : Prop :=
  match e with
  | CallTable _ _ now =>
      is_fresh now at_ = true
      ∨ ∃ t c l, calls s !! t = Some c ∧ held_by c = Some l ∧ (name_of c = name ∨ l = overflow_of name)
  | LockAcquired _ now => is_fresh now at_ = true
  | CatalogReply _ (Ok _) now => at_ = now
  | CatalogReply _ (Err _) now => True
  | _ => False
  end.
Lemma call_table_others s u n now t : cache_inv s → u ≠ t → calls (call_table s u n now) !! t = calls s !! t.
Proof.
  intros Hi Hd. unfold call_table. destruct (load_lock s n) as [s' l] eqn:Hl.
  destruct (load_lock_spec s n s' l Hi Hl) as (_ & Hc & _).
  repeat case_match; simpl; rewrite lookup_insert_ne by done; by rewrite ?Hc.
Qed.
Lemma call_served tr s t name now n p :
  cache_inv s → sourced tr s → calls (call_table s t name now) !! t = Some (Returned n (Ok (Some p))) →
  ∃ at_, loaded_in tr n p at_ ∧ served_because s (CallTable t name now) n at_.
Proof.
  intros Hi Hs. unfold call_table. case_match; [simpl; by rewrite lookup_insert_eq|].
  destruct (table_providers s !! name) as [[q at_]|] eqn:Hp.
  - case_match; [simpl; rewrite lookup_insert_eq; intros; simplify_eq; exists at_; split; [by apply (so_cached tr s Hs)|by left]|].
    destruct (load_lock s name) as [s' l] eqn:Hl. destruct (load_lock_spec s name s' l Hi Hl) as (Hi' & Hc & _ & Hent).
    destruct (is_locked s' l) eqn:Hk; simpl; rewrite lookup_insert_eq; intros; simplify_eq. exists at_.
    split; [by apply (so_cached tr s Hs)|]. right. apply is_locked_true in Hk as (t' & c & Ht' & Hh).
    exists t', c, l. rewrite <- Hc. split; [done|]. split; [done|].
    pose proof (ci_locks s' Hi' t' c Ht') as Hok. unfold lock_ok in Hok. rewrite (held_lock_of c l Hh) in Hok.
    destruct l as [id|i]; [left; by eapply (ci_distinct s' Hi')|by right].
  - destruct (load_lock s name). simpl. by rewrite lookup_insert_eq.
Qed.
Lemma reply_others s u reply now s' t :
  cache_step s (CatalogReply u reply now) = Some s' → u ≠ t → calls s' !! t = calls s !! t.
Proof.
  simpl. intros Hs Hd. repeat case_match; simplify_eq; unfold refreshed, loaded; repeat case_match; simpl; by rewrite lookup_insert_ne.
Qed.
Lemma reply_served tr s t reply now s' name p :
  cache_reach tr s → sourced tr s → cache_step s (CatalogReply t reply now) = Some s' →
  calls s' !! t = Some (Returned name (Ok (Some p))) → calls s !! t ≠ calls s' !! t →
  ∃ at_, loaded_in (tr ++ [CatalogReply t reply now]) name p at_ ∧ served_because s (CatalogReply t reply now) name at_.
Proof.
  simpl. intros Hr Hs Hstep Ht' Hne. destruct (calls s !! t) as [c|] eqn:Hu; [|done].
  assert (Hnow : reply = Ok (Some p) → name_of c = name →
    ∃ at_, loaded_in (tr ++ [CatalogReply t reply now]) name p at_ ∧ served_because s (CatalogReply t reply now) name at_).
  { intros -> Hn. exists now. split; [by eapply loaded_in_now|done]. }
  destruct c as [n|n l stale| |n l|]; simplify_eq; unfold refreshed, loaded in Ht'.
  - simpl in Ht'. rewrite lookup_insert_eq in Ht'. simplify_eq. auto.
  - destruct reply as [[q|]|]; simpl in Ht'; rewrite lookup_insert_eq in Ht'; simplify_eq; [by auto|].
    destruct (so_stale tr s Hs t name l p Hu) as [a Ha]. exists a. split; [by apply loaded_in_app|done].
  - simpl in Ht'. rewrite lookup_insert_eq in Ht'. simplify_eq. auto.
Qed.
(** C27. A provider that a lookup returns is one the catalog sent for that very table, and it
    is older than the configured lifetime only in two cases: another lookup was loading the
    table (or a table sharing its overflow lock) at that moment, or the catalog failed to
    answer this lookup's own refresh. *)
Theorem served_provider_fresh tr s e s' t name p :
  cache_reach tr s → cache_step s e = Some s' →
  calls s' !! t = Some (Returned name (Ok (Some p))) → calls s !! t ≠ calls s' !! t →
  ∃ at_, loaded_in (tr ++ [e]) name p at_ ∧ served_because s e name at_.
Proof.
  intros Hr Hstep Ht' Hne. pose proof (reach_inv tr s Hr) as Hi. pose proof (reach_sourced tr s Hr) as Hs.
  destruct e as [u n now|u now|u reply now|u|n]; simpl in Hstep.
  - destruct (calls s !! u) eqn:Hu; simplify_eq.
    destruct (decide (u = t)) as [->|Hd].
    + destruct (call_served tr s t n now name p Hi Hs Ht') as (a & Ha & Hb). eauto using loaded_in_app.
    + exfalso. apply Hne. by rewrite call_table_others.
  - destruct (calls s !! u) as [[| |n l| |]|] eqn:Hu; try done. destruct (is_locked s l); [done|]. simplify_eq.
    unfold lock_acquired in *. destruct (decide (u = t)) as [->|Hd].
    + destruct (table_providers s !! n) as [[q a]|] eqn:Hp; [|simpl in Ht'; rewrite lookup_insert_eq in Ht'; by simplify_eq].
      destruct (is_fresh now a) eqn:Hf; simpl in Ht'; rewrite lookup_insert_eq in Ht'; simplify_eq.
      exists a. split; [|done]. apply loaded_in_app. by apply (so_cached tr s Hs).
    + exfalso. apply Hne. repeat case_match; simpl; by rewrite lookup_insert_ne.
  - destruct (decide (u = t)) as [->|Hd]; [by eapply reply_served|].
    exfalso. apply Hne. by rewrite (reply_others s u reply now s' t).
  - exfalso. simplify_eq/=. rewrite lookup_delete_Some in Ht'. destruct Ht' as [Hd Ht']. apply Hne. by rewrite lookup_delete_ne.
  - simplify_eq/=.
Qed.

(** While the catalog fails, an expired provider is served and kept, at any age. *)
Lemma failed_refresh_serves_stale s t name now now' p at_ error s1 l :
  cache_inv s → metadata_ttl ≠ 0%N → table_providers s !! name = Some (p, at_) → is_fresh now at_ = false →
  load_lock s name = (s1, l) → is_locked s1 l = false →
  ∃ s2, cache_step (call_table s t name now) (CatalogReply t (Err error) now') = Some s2
    ∧ calls s2 !! t = Some (Returned name (Ok (Some p))) ∧ table_providers s2 !! name = Some (p, at_).
Proof.
  intros Hi Hz Hp Hf Hl Hk. destruct (load_lock_spec s name s1 l Hi Hl) as (_ & _ & Hpr & _).
  unfold call_table. apply N.eqb_neq in Hz. rewrite Hz, Hp, Hf, Hl, Hk. simpl. rewrite lookup_insert_eq. eexists.
  split; [done|]. simpl. by rewrite lookup_insert_eq, Hpr.
Qed.

(** The refresh flag is set while one refresh runs. *)
Definition names_inv (s : NamesCache) : Prop := length (refreshes s) = if refreshing s then 1 else 0.
Theorem one_names_refresh es s :
  foldl (λ s e, s ≫= λ s, names_step s e) (Some (mkNames ∅ false [])) es = Some s → names_inv s.
Proof.
  assert (Hstep : ∀ s e s', names_inv s → names_step s e = Some s' → names_inv s').
  { unfold names_inv. intros u [ns reply now now'|n reply now|ns] u' Hi; simpl.
    - unfold table_names_snapshot, spawn_table_names_refresh. intros [= <-].
      repeat case_match; simpl; try done; simpl in *; congruence.
    - unfold names_refreshed. intros (ns & Hn & [= <-])%bind_Some. simpl.
      pose proof (lookup_lt_Some _ _ _ Hn). rewrite length_delete by done. destruct (refreshing u); lia.
    - by intros [= <-]. }
  revert s. induction es as [|e es IH] using rev_ind; intros s; [by intros [= <-]|].
  rewrite foldl_snoc. intros (u & Hu & Hs)%bind_Some. eauto.
Qed.
End cache.

(** ** Examples

    Providers are numbers, a lifetime of 10, a registry of two entries, one overflow lock. *)
Abbreviation DemoCache := (MetadataCache N string).
Definition demo_run (es : list (@CacheEvent N string)) : option DemoCache :=
  foldl (λ s e, s ≫= λ s, cache_step 10 2 1 (λ _, 0%N) s e) (Some cache_new) es.
Lemma demo_run_reach es s : demo_run es = Some s → cache_reach 10 2 1 (λ _, 0%N) es s.
Proof.
  revert s. induction es as [|e es IH] using rev_ind; intros s; unfold demo_run; [intros [= <-]; constructor|].
  rewrite foldl_snoc. intros (u & Hu & Hs)%bind_Some. econstructor; [by apply IH|done].
Qed.
(** A first load at 1; at 20 the provider has expired and a second call refreshes it. *)
Definition demo_load : list (@CacheEvent N string) :=
  [CallTable 0 "events" 0; LockAcquired 0 0; CatalogReply 0 (Ok (Some 7%N)) 1; CallTable 1 "events" 20].
Definition demo_state : DemoCache := default cache_new (demo_run demo_load).

Lemma one_load_per_table_witness :
  cache_reach 10 2 1 (λ _, 0%N) demo_load demo_state
  ∧ ∀ t l s, calls demo_state !! t = Some (Refreshing "events" l s) → t = 1%N ∨ is_tracked l = false.
Proof.
  assert (Hr : cache_reach 10 2 1 (λ _, 0%N) demo_load demo_state) by (apply demo_run_reach; vm_compute; reflexivity).
  split; [exact Hr|]. intros t l s Ht.
  destruct (proj1 (one_load_per_table 10 2 1 (λ _, 0%N) demo_load demo_state Hr) t 1%N _
    (Refreshing "events" (TrackedLock 1) 7%N) l (TrackedLock 1) Ht ltac:(vm_compute; reflexivity) eq_refl eq_refl eq_refl)
    as [->|Hk]; [by left|right]. by destruct l.
Defined.

(** The refresh fails: the expired provider is served. *)
Definition demo_failed : @CacheEvent N string := CatalogReply 1 (Err "catalog unavailable") 30.
Definition demo_after : DemoCache := default cache_new (cache_step 10 2 1 (λ _, 0%N) demo_state demo_failed).
Lemma served_provider_fresh_witness :
  calls demo_after !! 1%N = Some (Returned "events" (Ok (Some 7%N)))
  ∧ ∃ at_, loaded_in 10 2 1 (λ _, 0%N) (demo_load ++ [demo_failed]) "events" 7%N at_.
Proof.
  assert (Hr : cache_reach 10 2 1 (λ _, 0%N) demo_load demo_state) by (apply demo_run_reach; vm_compute; reflexivity).
  assert (Hc : calls demo_after !! 1%N = Some (Returned "events" (Ok (Some 7%N)))) by (vm_compute; reflexivity).
  split; [exact Hc|].
  destruct (served_provider_fresh 10 2 1 (λ _, 0%N) demo_load demo_state demo_failed demo_after 1%N "events" 7%N Hr
    ltac:(vm_compute; reflexivity) Hc ltac:(vm_compute; discriminate)) as (a & Ha & _).
  exists a. exact Ha.
Defined.

(** A failed listing is cached as an empty one: until the lifetime passes no table of the
    namespace exists, although the catalog answers again. *)
Lemma failed_listing_hides_tables :
  ∃ s, names_step 10 (mkNames ∅ false []) (NamesSnapshot "ns" (Err "catalog unavailable") 0 1) = Some s
    ∧ (table_exist 10 s "ns" "events" (Ok ["events"] : result string _) 9 9).2 = false
    ∧ (table_exist 10 (mkNames ∅ false []) "ns" "events" (Ok ["events"] : result string _) 9 9).2 = true.
Proof. exists (mkNames {[ "ns" := ([], 1%N) ]} false []). vm_compute. auto. Qed.
