(* ===== verification/QueryEngine.v ===== *)
(** The query engine: [teodb-distributed/src/engine/query_engine.rs] and
    [engine/execution.rs], with the in-memory pin registry of
    [teodb-core/src/snapshot_pin.rs].

    Planning, sessions and batch streams belong to DataFusion and Ballista: their
    outcomes are arguments of the steps.  A query is a task that its caller drives and
    may drop at any await; steps of different queries, cancellations and the deferred
    destruction of map values interleave freely. *)
From stdpp Require Import base list strings gmap sets.
From S2P Require Import Prelude Core Location Catalog Pins Manifests Sweep.
Open Scope nat_scope.
Open Scope list_scope.

(** ** Statuses and plans *)
Inductive QueryStatus := QPlanning | QRunning | QCompleted | QCancelled | QFailed (message : string).
Definition is_terminal (s : QueryStatus) : bool :=
  match s with QCompleted | QCancelled | QFailed _ => true | _ => false end.

Definition ScanTarget : Type := TableIdent * SnapshotId.
(** A node of a logical plan in the order of the traversal: a scan of a TeoDB table with
    its current snapshot, or anything else. *)
Inductive PlanNode := TeoScan (table : TableIdent) (snapshot_id : option SnapshotId) | OtherNode.

Fixpoint collect_targets (seen : list ScanTarget) (nodes : list PlanNode) : list ScanTarget :=
  match nodes with
  | [] => []
  | TeoScan table (Some snapshot_id) :: nodes =>
      let target := (table, snapshot_id) in
      if decide (target ∈ seen) then collect_targets seen nodes
      else target :: collect_targets (target :: seen) nodes
  | _ :: nodes => collect_targets seen nodes
  end.
Definition collect_scan_targets (plan : list PlanNode) : list ScanTarget := collect_targets [] plan.

(** ** Errors of the engine below *)
Definition lower_ascii (c : ascii) : ascii :=
  let n := N_of_ascii c in if ((65 <=? n) && (n <=? 90))%N then ascii_of_N (n + 32) else c.
Fixpoint to_ascii_lowercase (s : string) : string :=
  match s with EmptyString => EmptyString | String c s => String (lower_ascii c) (to_ascii_lowercase s) end.
Definition is_scheduler_unreachable (message : string) : bool :=
  existsb (λ needle, str_contains needle (to_ascii_lowercase message))
    ["connection refused"; "connecterror"; "transport error"; "tcp connect error"; "dns error"].

(** [str::replace], scanning from the left; [fuel] bounds the length of the text. *)
Fixpoint str_replace (fuel : nat) (from to s : string) : string :=
  match fuel, s with
  | S fuel, String c s' =>
      match str_strip_prefix from s with
      | Some rest => to +:+ str_replace fuel from to rest
      | None => String c (str_replace fuel from to s')
      end
  | _, _ => s
  end.
Definition DF_CATALOG_PREFIX : string := "datafusion.".
Definition clean_message (msg : string) : string :=
  let cleaned := str_replace (String.length msg) ("'" +:+ DF_CATALOG_PREFIX) "'" msg in
  default cleaned (str_strip_prefix "Error during planning: " cleaned).
Definition classify_planning_error (msg : string) : TeoDBError :=
  if str_contains "not found" msg && str_contains "table '" msg then NotFound (clean_message msg)
  else if str_contains "not found" msg && str_contains "schema '" msg then NotFound (clean_message msg)
  else QueryExecution msg.

(** ** Streams *)
Section streams.
Context {Batch : Type}.

(** What DataFusion yields, with the text of its errors. *)
Definition ExecStream : Type := list (result string Batch).
Definition BatchStream : Type := list (result TeoDBError Batch).
Definition map_stream (s : ExecStream) : BatchStream := map (map_err QueryExecution) s.

(** [local]: what the node-local session makes of the prepared plan.  The second
    component says whether the fallback ran. *)
Definition execute_with_fallback (fallback_applies : bool) (remote : result string ExecStream)
    (local : TeoDBResult ExecStream) : TeoDBResult BatchStream * bool :=
  let local_fallback_stream := (s ← local; Ok (map_stream s), true) in
  match remote with
  | Ok remote =>
      if fallback_applies then
        match remote with
        | Err error :: rest =>
            if is_scheduler_unreachable error then local_fallback_stream else (Ok (map_stream (Err error :: rest)), false)
        | remote => (Ok (map_stream remote), false)
        end
      else (Ok (map_stream remote), false)
  | Err error =>
      if fallback_applies && is_scheduler_unreachable error then local_fallback_stream
      else (Err (QueryExecution error), false)
  end.

(** The closure of [scan]: new flag, what it yields, the status it records. *)
Definition track_item (error_text : TeoDBError → string) (failed : bool) (item : option (result TeoDBError Batch))
    : bool * option (result TeoDBError Batch) * option QueryStatus :=
  if failed then (failed, None, None)
  else match item with
       | None => (failed, None, Some QCompleted)
       | Some (Ok batch) => (failed, Some (Ok batch), None)
       | Some (Err error) => (true, Some (Err error), Some (QFailed (error_text error)))
       end.
(** A stream polled to its end: what the caller sees and the last status recorded. *)
Fixpoint track_loop (error_text : TeoDBError → string) (failed : bool) (items : list (option (result TeoDBError Batch)))
    (status : option QueryStatus) : BatchStream * option QueryStatus :=
  match items with
  | [] => ([], status)
  | item :: items =>
      match track_item error_text failed item with
      | (failed, output, update) =>
          let status := match update with Some s => Some s | None => status end in
          match output with
          | None => ([], status)
          | Some out => let '(outs, final) := track_loop error_text failed items status in (out :: outs, final)
          end
      end
  end.
Definition track_stream (error_text : TeoDBError → string) (stream : BatchStream) : BatchStream * option QueryStatus :=
  track_loop error_text false (map Some stream ++ [None]) (Some QRunning).
End streams.
Arguments ExecStream : clear implicits.
Arguments BatchStream : clear implicits.

(** ** The engine *)

(** The caller's side of a query: where its call is.  A releaser is shown with the pins
    it stands for. *)
Inductive Task :=
| TPreparing (retries : nat)
| TPinning (todo pinned : list ScanTarget) (targets : list ScanTarget)
| TPrepared (targets : list ScanTarget) (pin_releaser : option (list ScanTarget))
| TExecuting (targets : list ScanTarget) (pin_releaser : option (list ScanTarget))
| TStreaming (targets : list ScanTarget) (pin_releaser : option (list ScanTarget)) (failed ended : bool)
| TDone.
Definition releaser (t : Task) : option (list ScanTarget) :=
  match t with TPrepared _ r | TExecuting _ r | TStreaming _ r _ _ => r | _ => None end.

(** [garbage]: removed entries of [query_pins] whose destruction is still deferred. *)
Record Engine := mkEngine {
  queries : gmap QueryId QueryStatus; query_pins : gmap QueryId (list ScanTarget);
  snapshot_registry : PinState; tasks : gmap QueryId Task; garbage : list QueryId }.
Definition engine_new : Engine := mkEngine ∅ ∅ pin_new ∅ [].

Definition set_status (e : Engine) (q : QueryId) (s : QueryStatus) : Engine :=
  mkEngine (<[q := s]> (queries e)) (query_pins e) (snapshot_registry e) (tasks e) (garbage e).
Definition set_task (e : Engine) (q : QueryId) (t : Task) : Engine :=
  mkEngine (queries e) (query_pins e) (snapshot_registry e) (<[q := t]> (tasks e)) (garbage e).
Definition set_registry (e : Engine) (r : PinState) : Engine :=
  mkEngine (queries e) (query_pins e) r (tasks e) (garbage e).

(** [release_pins], and the drop of a [PinReleaser]. *)
Definition release_pins (e : Engine) (q : QueryId) : Engine :=
  match query_pins e !! q with
  | Some _ => mkEngine (queries e) (delete q (query_pins e)) (release (snapshot_registry e) q) (tasks e) (q :: garbage e)
  | None => e
  end.
Definition drop_releaser (e : Engine) (q : QueryId) (r : option (list ScanTarget)) : Engine :=
  match r with Some _ => release_pins e q | None => e end.
(** [SnapshotPin::drop] of each element of a vector. *)
Definition drop_pins (e : Engine) (q : QueryId) (pins : list ScanTarget) : Engine :=
  set_registry e (foldl (λ r _, release r q) (snapshot_registry e) pins).
Definition insert_pins (e : Engine) (q : QueryId) (pins : list ScanTarget) : Engine :=
  mkEngine (queries e) (<[q := pins]> (query_pins e)) (snapshot_registry e) (tasks e)
    (match query_pins e !! q with Some _ => q :: garbage e | None => garbage e end).

Definition PREPARE_MAX_RETRIES : nat := 3.

Inductive Event :=
| EvPrepare (q : QueryId)
| EvAttempt (q : QueryId) (r : TeoDBResult (list PlanNode))
| EvPin (q : QueryId) (ok : bool)
| EvPinned (q : QueryId)
| EvExecute (q : QueryId) (limited : result string unit)
| EvStarted (q : QueryId) (r : TeoDBResult unit)
| EvNext (q : QueryId) (item : option (result TeoDBError unit))
| EvDrop (q : QueryId)
| EvCancel (q : QueryId)
| EvEvict (q : QueryId)
| EvReclaim (q : QueryId).

Section engine.
(** Whether the engine has a registry, and the text of an error. *)
Context (pinning : bool) (error_text : TeoDBError → string).

(** One attempt at preparing: retried when the error allows it. *)
Definition prepare_attempt (e : Engine) (q : QueryId) (retries : nat) (r : TeoDBResult (list PlanNode)) : Engine :=
  match r with
  | Ok plan =>
      let targets := collect_scan_targets plan in
      set_task e q (if pinning then TPinning targets [] targets else TPrepared targets None)
  | Err error =>
      if is_retryable error && (retries <? PREPARE_MAX_RETRIES)
      then set_task e q (TPreparing (S retries))
      else set_task (set_status e q (QFailed (error_text error))) q TDone
  end.
(** [pin_scanned_snapshots]: a round of its loop, and its end. *)
Definition pin_snapshot (e : Engine) (q : QueryId) (table : TableIdent) (snapshot_id : SnapshotId)
    (todo pinned targets : list ScanTarget) (ok : bool) : Engine :=
  if ok
  then set_task (set_registry e (pin (snapshot_registry e) q table snapshot_id)) q
         (TPinning todo (pinned ++ [(table, snapshot_id)]) targets)
  else set_task e q (TPinning todo pinned targets).
Definition pins_taken (e : Engine) (q : QueryId) (pinned targets : list ScanTarget) : Engine :=
  match pinned with
  | [] => set_task e q (TPrepared targets None)
  | _ => set_task (insert_pins e q pinned) q (TPrepared targets (Some pinned))
  end.
Definition take_execution_input (e : Engine) (q : QueryId) (targets : list ScanTarget) (r : option (list ScanTarget))
    (limited : result string unit) : Engine :=
  match limited with
  | Ok _ => set_task e q (TExecuting targets r)
  | Err error => set_task (drop_releaser (set_status e q (QFailed (error_text (QueryExecution error)))) q r) q TDone
  end.
(** [execute_stream] once execution has started, or failed to. *)
Definition stream_started (e : Engine) (q : QueryId) (targets : list ScanTarget) (r : option (list ScanTarget))
    (started : TeoDBResult unit) : Engine :=
  match started with
  | Ok _ => set_task (set_status e q QRunning) q (TStreaming targets r false false)
  | Err error => set_task (drop_releaser (set_status e q (QFailed (error_text error))) q r) q TDone
  end.

Definition engine_step (e : Engine) (ev : Event) : option Engine :=
  match ev with
  | EvPrepare q =>
      match tasks e !! q with
      | None => Some (set_task (set_status e q QPlanning) q (TPreparing 0))
      | Some _ => None
      end
  | EvAttempt q r =>
      match tasks e !! q with
      | Some (TPreparing retries) =>
          Some (prepare_attempt e q retries r)
      | _ => None
      end
  | EvPin q ok =>
      match tasks e !! q with
      | Some (TPinning ((table, snapshot_id) :: todo) pinned targets) =>
          Some (pin_snapshot e q table snapshot_id todo pinned targets ok)
      | _ => None
      end
  | EvPinned q =>
      match tasks e !! q with
      | Some (TPinning [] pinned targets) =>
          Some (pins_taken e q pinned targets)
      | _ => None
      end
  | EvExecute q limited =>
      match tasks e !! q with
      | Some (TPrepared targets r) =>
          Some (take_execution_input e q targets r limited)
      | _ => None
      end
  | EvStarted q started =>
      match tasks e !! q with
      | Some (TExecuting targets r) =>
          Some (stream_started e q targets r started)
      | _ => None
      end
  | EvNext q item =>
      match tasks e !! q with
      | Some (TStreaming targets r failed false) =>
          match track_item error_text failed item with
          | (failed, output, update) =>
              let e := match update with Some s => set_status e q s | None => e end in
              Some (set_task e q (TStreaming targets r failed (bool_decide (output = None))))
          end
      | _ => None
      end
  | EvDrop q =>
      match tasks e !! q with
      | Some (TPreparing _) => Some (set_task e q TDone)
      | Some (TPinning _ pinned _) => Some (set_task (drop_pins e q pinned) q TDone)
      | Some (TPrepared _ r | TExecuting _ r | TStreaming _ r _ _) => Some (set_task (drop_releaser e q r) q TDone)
      | _ => None
      end
  | EvCancel q => Some (release_pins (set_status e q QCancelled) q)
  | EvEvict q =>
      Some (mkEngine (delete q (queries e)) (query_pins e) (snapshot_registry e) (tasks e) (garbage e))
  | EvReclaim q =>
      if decide (q ∈ garbage e)
      then Some (set_registry (mkEngine (queries e) (query_pins e) (snapshot_registry e) (tasks e)
                                 (filter (λ q', q' ≠ q) (garbage e))) (release (snapshot_registry e) q))
      else None
  end.

Inductive engine_reach : list Event → Engine → Prop :=
| reach_new : engine_reach [] engine_new
| reach_step evs e ev e' : engine_reach evs e → engine_step e ev = Some e' → engine_reach (evs ++ [ev]) e'.
End engine.
Ltac unfold_calls := unfold prepare_attempt, pin_snapshot, pins_taken, take_execution_input, stream_started in *.


(** [status]. *)
Definition query_status (e : Engine) (q : QueryId) : TeoDBResult QueryStatus :=
  ok_or (queries e !! q) (NotFound "query {query_id}").

(** ** Scan targets *)
Lemma collect_targets_spec seen nodes :
  NoDup (collect_targets seen nodes) ∧
  ∀ t sn, (t, sn) ∈ collect_targets seen nodes ↔ TeoScan t (Some sn) ∈ nodes ∧ (t, sn) ∉ seen.
Proof.
  revert seen. induction nodes as [|[table [snapshot_id|]|] nodes IH]; intros seen; simpl;
    [split; [constructor|set_solver]| |set_solver..].
  case_decide as Hseen; [set_solver|]. destruct (IH ((table, snapshot_id) :: seen)) as [Hnd Hin]. split.
  - apply NoDup_cons. split; [|done]. intros [_ Hn]%Hin. set_solver.
  - intros t sn. rewrite (elem_of_cons (collect_targets _ _)), Hin, !elem_of_cons.
    destruct (decide ((t, sn) = (table, snapshot_id))) as [[= -> ->]|Hne]; [tauto|]. naive_solver.
Qed.

(** ** The pins of a query *)
Definition held_of (held : list HeldPin) (q : QueryId) : list ScanTarget :=
  map (λ h, (hp_table h, hp_snapshot h)) (List.filter (λ h, hp_query h =? q)%N held).

Lemma held_of_pin held q t sn q' :
  held_of (held ++ [mkHeldPin q t sn]) q' = if decide (q' = q) then held_of held q' ++ [(t, sn)] else held_of held q'.
Proof.
  unfold held_of. rewrite List.filter_app, map_app. simpl. destruct (N.eqb_spec q q'); case_decide; try congruence; [done|].
  by rewrite app_nil_r.
Qed.
Lemma held_of_release held q q' :
  held_of (List.filter (λ h, negb (hp_query h =? q)%N) held) q' = if decide (q' = q) then [] else held_of held q'.
Proof.
  unfold held_of. induction held as [|h held IH]; simpl; [by case_decide|].
  destruct (N.eqb_spec (hp_query h) q) as [Hh|Hh]; simpl.
  - rewrite IH. case_decide; [done|]. destruct (N.eqb_spec (hp_query h) q'); [congruence|done].
  - destruct (N.eqb_spec (hp_query h) q'); simpl; rewrite IH; case_decide; congruence.
Qed.

(** The query is past the pinning of its snapshots. *)
Definition past_pinning (t : Task) : Prop :=
  match t with TPreparing _ | TPinning _ _ _ => False | _ => True end.

Record engine_inv (e : Engine) (held : list HeldPin) : Prop := {
  inv_refine : pins_refine (snapshot_registry e) held;
  inv_held q : held_of held q = match tasks e !! q with
                                | Some (TPinning _ pinned _) => pinned
                                | _ => default [] (query_pins e !! q)
                                end;
  inv_pins q ps : query_pins e !! q = Some ps → ∃ t, tasks e !! q = Some t ∧ releaser t = Some ps;
  inv_garbage q : q ∈ garbage e → query_pins e !! q = None ∧ ∃ t, tasks e !! q = Some t ∧ past_pinning t }.

Lemma engine_inv_new : engine_inv engine_new [].
Proof. split; simpl; [split; done|done|done|set_solver]. Qed.

Lemma inv_status e held q s : engine_inv e held → engine_inv (set_status e q s) held.
Proof. intros [H1 H2 H3 H4]. by split. Qed.

(** A step of a task that leaves its pins alone. *)
Lemma inv_task e held q t :
  engine_inv e held →
  (match tasks e !! q with Some (TPinning _ pinned _) => pinned | _ => default [] (query_pins e !! q) end
   = match t with TPinning _ pinned _ => pinned | _ => default [] (query_pins e !! q) end) →
  (∀ ps, query_pins e !! q = Some ps → releaser t = Some ps) →
  (q ∈ garbage e → past_pinning t) →
  engine_inv (set_task e q t) held.
Proof.
  intros [H1 H2 H3 H4] Hh Hr Hg. split; simpl; [done|..].
  - intros q'. rewrite lookup_insert. case_decide as Hq; [subst q'; by rewrite H2|done].
  - intros q' ps Hps. rewrite lookup_insert. case_decide as Hq; [subst q'; eauto|by apply H3].
  - intros q' Hin. rewrite lookup_insert. case_decide as Hq; [subst q'|by apply H4].
    split; [by apply H4|eauto].
Qed.

(** Releasing a query whose call is past pinning. *)
Lemma inv_release_pins e held q :
  engine_inv e held → ∃ held', engine_inv (release_pins e q) held'.
Proof.
  intros [H1 H2 H3 H4]. unfold release_pins. destruct (query_pins e !! q) as [ps|] eqn:Hps; [|by exists held].
  destruct (H3 _ _ Hps) as (t & Ht & Hr).
  exists (List.filter (λ h, negb (hp_query h =? q)%N) held). split; simpl.
  - by apply pins_refine_release.
  - intros q'. rewrite held_of_release, lookup_delete. case_decide as Hq; [subst q'|].
    + rewrite decide_True, Ht by done. by destruct t.
    + rewrite decide_False by done. apply H2.
  - intros q' ps'. rewrite lookup_delete. case_decide; [done|]. apply H3.
  - intros q' [->|Hin]%elem_of_cons.
    + rewrite lookup_delete_eq. split; [done|]. exists t. split; [done|]. by destruct t.
    + destruct (H4 _ Hin) as [Hn Ht']. rewrite lookup_delete. by case_decide.
Qed.
Lemma release_pins_tasks e q : tasks (release_pins e q) = tasks e.
Proof. unfold release_pins. by case_match. Qed.
Lemma release_pins_gone e q : query_pins (release_pins e q) !! q = None.
Proof. unfold release_pins. destruct (query_pins e !! q) eqn:Hq; simpl; [by rewrite lookup_delete_eq|done]. Qed.

(** The end of a call that may hold a releaser. *)
Lemma inv_done e held q t :
  engine_inv e held → tasks e !! q = Some t → past_pinning t →
  ∃ held', engine_inv (set_task (drop_releaser e q (releaser t)) q TDone) held'.
Proof.
  intros Hinv Ht Hp. assert (∃ held', engine_inv (release_pins e q) held') as [held' Hinv'] by by eapply inv_release_pins.
  destruct (releaser t) as [ps|] eqn:Hr; simpl.
  - exists held'. apply inv_task; [done|..].
    + rewrite release_pins_tasks, Ht. by destruct t.
    + intros ps'. by rewrite release_pins_gone.
    + done.
  - exists held. apply inv_task; [done| | |done].
    + rewrite Ht. by destruct t.
    + intros ps Hps. destruct (inv_pins _ _ Hinv _ _ Hps) as (t' & Ht' & Hr'). congruence.
Qed.

(** Taking a pin, and dropping a call while it pins. *)
Lemma inv_pin e held q t sn todo pinned targets :
  engine_inv e held → tasks e !! q = Some (TPinning ((t, sn) :: todo) pinned targets) →
  engine_inv (set_task (set_registry e (pin (snapshot_registry e) q t sn)) q
                (TPinning todo (pinned ++ [(t, sn)]) targets)) (held ++ [mkHeldPin q t sn]).
Proof.
  intros [H1 H2 H3 H4] Ht. split; simpl.
  - by apply pins_refine_pin.
  - intros q'. rewrite held_of_pin, lookup_insert, H2. case_decide as Hq; [subst q'|].
    + by rewrite decide_True, Ht.
    + by rewrite decide_False.
  - intros q' ps Hps. destruct (H3 _ _ Hps) as (t' & Ht' & Hr). rewrite lookup_insert.
    case_decide; [subst q'; rewrite Ht in Ht'; by injection Ht' as <-|eauto].
  - intros q' Hin. destruct (H4 _ Hin) as (Hn & t' & Ht' & Hp). split; [done|]. rewrite lookup_insert.
    case_decide; [subst q'; rewrite Ht in Ht'; by injection Ht' as <-|eauto].
Qed.

Lemma drop_pins_refine s held q (pins : list ScanTarget) :
  pins_refine s held → held_of held q = pins →
  ∃ held', pins_refine (foldl (λ r _, release r q) s pins) held' ∧
    ∀ q', held_of held' q' = if decide (q' = q) then [] else held_of held q'.
Proof.
  intros Hr Hh. destruct pins as [|p pins].
  { exists held. split; [done|]. intros q'. case_decide; [by subst|done]. }
  simpl. exists (List.filter (λ h, negb (hp_query h =? q)%N) held).
  split; [|intros q'; apply held_of_release].
  assert (List.filter (λ h, negb (hp_query h =? q)%N) (List.filter (λ h, negb (hp_query h =? q)%N) held)
          = List.filter (λ h, negb (hp_query h =? q)%N) held) as Hidem by apply filter_idem.
  assert (pins_refine (release s q) (List.filter (λ h, negb (hp_query h =? q)%N) held)) as Hr' by by apply pins_refine_release.
  clear Hr Hh. revert Hr'. generalize (release s q). clear s. induction pins as [|p' pins IH]; intros s Hr'; simpl; [done|].
  apply IH. rewrite <-Hidem. by apply pins_refine_release.
Qed.

Lemma inv_drop_pinning e held q todo pinned targets :
  engine_inv e held → tasks e !! q = Some (TPinning todo pinned targets) →
  ∃ held', engine_inv (set_task (drop_pins e q pinned) q TDone) held'.
Proof.
  intros [H1 H2 H3 H4] Ht. destruct (drop_pins_refine _ held q pinned H1) as (held' & Hr & Hh).
  { by rewrite H2, Ht. }
  assert (query_pins e !! q = None) as Hnone.
  { destruct (query_pins e !! q) eqn:Hps; [|done]. destruct (H3 _ _ Hps) as (t & Ht' & Hrel).
    rewrite Ht in Ht'. by injection Ht' as <-. }
  exists held'. split; simpl; [done|..].
  - intros q'. rewrite Hh, lookup_insert. case_decide as Hq; [subst q'|].
    + rewrite decide_True by done. by rewrite Hnone.
    + rewrite decide_False by done. apply H2.
  - intros q' ps Hps. rewrite lookup_insert. case_decide; [subst q'; congruence|by apply H3].
  - intros q' Hin. rewrite lookup_insert. case_decide; [subst q'; split; [done|by exists TDone]|by apply H4].
Qed.

(** Pins handed over to the map. *)
Lemma inv_insert_pins e held q pinned targets :
  engine_inv e held → tasks e !! q = Some (TPinning [] pinned targets) → pinned ≠ [] →
  engine_inv (set_task (insert_pins e q pinned) q (TPrepared targets (Some pinned))) held.
Proof.
  intros [H1 H2 H3 H4] Ht Hne.
  assert (query_pins e !! q = None) as Hnone.
  { destruct (query_pins e !! q) eqn:Hps; [|done]. destruct (H3 _ _ Hps) as (t & Ht' & Hrel).
    rewrite Ht in Ht'. by injection Ht' as <-. }
  unfold insert_pins. rewrite Hnone. split; simpl; [done|..].
  - intros q'. rewrite !lookup_insert. case_decide as Hq; [subst q'; by rewrite H2, Ht|apply H2].
  - intros q' ps. rewrite !lookup_insert. case_decide; [intros [= <-]; eauto|apply H3].
  - intros q' Hin. destruct (H4 _ Hin) as (Hn & t & Ht' & Hp).
    rewrite !lookup_insert. case_decide; [subst q'; rewrite Ht in Ht'; by injection Ht' as <-|eauto].
Qed.

Lemma inv_reclaim e held q g :
  engine_inv e held → q ∈ garbage e → g ⊆ garbage e →
  ∃ held', engine_inv (mkEngine (queries e) (query_pins e) (release (snapshot_registry e) q) (tasks e) g) held'.
Proof.
  intros [H1 H2 H3 H4] Hq Hg. exists (List.filter (λ h, negb (hp_query h =? q)%N) held). split; simpl.
  - by apply pins_refine_release.
  - intros q'. rewrite held_of_release. case_decide; [subst q'|apply H2].
    destruct (H4 _ Hq) as (Hn & t & Ht & Hp). rewrite Ht, Hn. by destruct t.
  - done.
  - intros q' Hin. apply H4. by apply Hg.
Qed.

(** A step of a call that keeps its releaser and its pins. *)
Definition pinned_so_far (t : Task) : list ScanTarget := match t with TPinning _ pinned _ => pinned | _ => [] end.
Lemma inv_next e held q t t' :
  engine_inv e held → tasks e !! q = Some t → releaser t' = releaser t → pinned_so_far t' = pinned_so_far t →
  (past_pinning t → past_pinning t') → engine_inv (set_task e q t') held.
Proof.
  intros Hinv Ht Hr Hpin Hp. apply inv_task; [done|..].
  - rewrite Ht. assert (∀ u, releaser u = None → query_pins e !! q ≠ None → tasks e !! q ≠ Some u) as Hno.
    { intros u Hu Hne Htu. destruct (query_pins e !! q) as [ps|] eqn:Hps; [|done].
      destruct (inv_pins _ _ Hinv _ _ Hps) as (t0 & Ht0 & Hr0). congruence. }
    destruct (query_pins e !! q) as [ps|] eqn:Hps; [|by destruct t, t'; simpl in *; simplify_eq].
    destruct t, t'; simpl in *; simplify_eq; try done; exfalso; (eapply Hno; [|done|exact Ht]); done.
  - intros ps Hps. destruct (inv_pins _ _ Hinv _ _ Hps) as (t0 & Ht0 & Hr0). congruence.
  - intros Hg. destruct (inv_garbage _ _ Hinv _ Hg) as (_ & t0 & Ht0 & Hp0). apply Hp. congruence.
Qed.

Section engine_spec.
Context (pinning : bool) (error_text : TeoDBError → string).
#[local] Abbreviation step := (engine_step pinning error_text).

Lemma inv_step e ev e' held :
  engine_inv e held → step e ev = Some e' → ∃ held', engine_inv e' held'.
Proof.
  intros Hinv Hstep. destruct ev as [q|q r|q ok|q|q lim|q r|q item|q|q|q|q]; simpl in Hstep; unfold_calls.
  - destruct (tasks e !! q) eqn:Ht; [done|]. injection Hstep as <-. exists held.
    apply inv_task; [by apply inv_status|..]; simpl.
    + by rewrite Ht.
    + intros ps Hps. destruct (inv_pins _ _ Hinv _ _ Hps) as (t & Ht' & _). congruence.
    + intros Hg. destruct (inv_garbage _ _ Hinv _ Hg) as (_ & t & Ht' & _). congruence.
  - destruct (tasks e !! q) as [[retries| | | | |]|] eqn:Ht; try done.
    exists held. destruct r as [plan|error]; [|destruct (is_retryable error && _)]; injection Hstep as <-.
    + by destruct pinning; eapply inv_next.
    + by eapply inv_next.
    + eapply inv_next; [by apply inv_status|done..].
  - destruct (tasks e !! q) as [[|[|[t sn] todo] pinned targets| | | |]|] eqn:Ht; try done.
    destruct ok; injection Hstep as <-; eexists; [by eapply inv_pin|by eapply inv_next].
  - destruct (tasks e !! q) as [[|[|] pinned targets| | | |]|] eqn:Ht; try done.
    exists held. destruct pinned; injection Hstep as <-; [by eapply inv_next|by eapply inv_insert_pins].
  - destruct (tasks e !! q) as [[| |targets r| | |]|] eqn:Ht; try done. destruct lim; injection Hstep as <-.
    + exists held. by eapply inv_next.
    + eapply (inv_done _ held q (TPrepared targets r)); [by apply inv_status|done|done].
  - destruct (tasks e !! q) as [[| | |targets rel| |]|] eqn:Ht; try done. destruct r; injection Hstep as <-.
    + exists held. eapply inv_next; [by apply inv_status|done..].
    + eapply (inv_done _ held q (TExecuting targets rel)); [by apply inv_status|done|done].
  - destruct (tasks e !! q) as [[| | | |targets rel failed []|]|] eqn:Ht; try done.
    destruct (track_item error_text failed item) as [[failed' output] update]. injection Hstep as <-. exists held.
    destruct update; eapply inv_next; [by apply inv_status|done..|done|done|done|done|done].
  - destruct (tasks e !! q) as [t|] eqn:Ht; [|done]. destruct t as [| | | | |]; try done; injection Hstep as <-.
    + exists held. by eapply inv_next.
    + by eapply inv_drop_pinning.
    + by eapply (inv_done _ _ _ (TPrepared _ _)).
    + by eapply (inv_done _ _ _ (TExecuting _ _)).
    + by eapply (inv_done _ _ _ (TStreaming _ _ _ _)).
  - injection Hstep as <-. eapply inv_release_pins. by apply inv_status.
  - injection Hstep as <-. exists held. by destruct Hinv; split.
  - case_decide as Hg; [|done]. injection Hstep as <-. unfold set_registry. simpl.
    apply (inv_reclaim e held q); [done|done|]. intros q' [_ Hin]%list_elem_of_filter. done.
Qed.

Lemma inv_reach evs e : engine_reach pinning error_text evs e → ∃ held, engine_inv e held.
Proof. induction 1 as [|evs e ev e' _ [held IH] Hs]; [eexists; apply engine_inv_new|by eapply inv_step]. Qed.

(** ** Steps of other queries *)
Definition event_query (ev : Event) : QueryId :=
  match ev with
  | EvPrepare q | EvAttempt q _ | EvPin q _ | EvPinned q | EvExecute q _ | EvStarted q _ | EvNext q _
  | EvDrop q | EvCancel q | EvEvict q | EvReclaim q => q
  end.
Definition same_query (e e' : Engine) (q : QueryId) : Prop :=
  tasks e' !! q = tasks e !! q ∧ query_pins e' !! q = query_pins e !! q ∧ queries e' !! q = queries e !! q.

Lemma same_set_task e e' q q' t : q' ≠ q → same_query e e' q' → same_query e (set_task e' q t) q'.
Proof. intros Hne (H1 & H2 & H3). split_and!; simpl; [by rewrite lookup_insert_ne|done|done]. Qed.
Lemma same_set_status e e' q q' s : q' ≠ q → same_query e e' q' → same_query e (set_status e' q s) q'.
Proof. intros Hne (H1 & H2 & H3). split_and!; simpl; [done|done|by rewrite lookup_insert_ne]. Qed.
Lemma same_release e e' q q' : q' ≠ q → same_query e e' q' → same_query e (release_pins e' q) q'.
Proof.
  intros Hne (H1 & H2 & H3). unfold release_pins. case_match; [|done].
  split_and!; simpl; [done|by rewrite lookup_delete_ne|done].
Qed.
Lemma same_drop_releaser e e' q q' r : q' ≠ q → same_query e e' q' → same_query e (drop_releaser e' q r) q'.
Proof. intros Hne H. destruct r; [by apply same_release|done]. Qed.
Lemma same_refl e q : same_query e e q.
Proof. done. Qed.

Create HintDb same_query.
#[local] Hint Resolve same_set_task same_set_status same_release same_drop_releaser same_refl : same_query.

Lemma step_other e ev e' q : event_query ev ≠ q → step e ev = Some e' → same_query e e' q.
Proof.
  intros Hne Hstep. destruct ev; simpl in *; unfold_calls; repeat case_match; simplify_eq; eauto 6 with same_query;
    try (split_and!; simpl; rewrite ?lookup_insert_ne, ?lookup_delete_ne by congruence; done).
Qed.

(** ** A query that is not cancelled keeps its pins *)
Definition targets_of (t : Task) : list ScanTarget :=
  match t with
  | TPinning _ _ targets | TPrepared targets _ | TExecuting targets _ | TStreaming targets _ _ _ => targets
  | _ => []
  end.

Lemma uncancelled evs e q t ps :
  engine_reach pinning error_text evs e → EvCancel q ∉ evs →
  tasks e !! q = Some t → releaser t = Some ps → query_pins e !! q = Some ps.
Proof.
  intros Hreach. revert t ps. induction Hreach as [|evs e ev e' Hreach IH Hstep]; intros t ps Hc Ht Hr; [done|].
  apply not_elem_of_app in Hc as [Hc Hev]. specialize (λ t ps, IH t ps Hc).
  destruct (decide (event_query ev = q)) as [Hq|Hne].
  2: { destruct (step_other _ _ _ _ Hne Hstep) as (Ht' & -> & _). rewrite Ht' in Ht. eauto. }
  destruct ev; simpl in Hq; subst; simpl in Hstep; unfold_calls; [..|set_solver| |]; repeat case_match; simplify_eq;
    try (simpl in Ht; rewrite lookup_insert_eq in Ht; simplify_eq/=; try done; eauto; fail);
    try (simpl in *; eauto; fail).
  - simpl in Ht. rewrite lookup_insert_eq in Ht. injection Ht as <-. simpl in Hr. injection Hr as <-.
    simpl. by rewrite lookup_insert_eq.
Qed.

Lemma all_pinned evs e q t :
  pinning = true → engine_reach pinning error_text evs e → EvPin q false ∉ evs → tasks e !! q = Some t →
  match t with
  | TPinning todo pinned targets => pinned ++ todo = targets
  | TPrepared targets r | TExecuting targets r | TStreaming targets r _ _ => default [] r = targets
  | _ => True
  end.
Proof.
  intros Hpin Hreach. revert t. induction Hreach as [|evs e ev e' Hreach IH Hstep]; intros t Hc Ht; [done|].
  apply not_elem_of_app in Hc as [Hc Hev]. specialize (λ t, IH t Hc).
  destruct (decide (event_query ev = q)) as [Hq|Hne].
  2: { destruct (step_other _ _ _ _ Hne Hstep) as (Ht' & _). rewrite Ht' in Ht. exact (IH _ Ht). }
  destruct ev as [q0|q0 r|q0 ok|q0|q0 lim|q0 r|q0 item|q0|q0|q0|q0]; simpl in Hq; subst q0; simpl in Hstep; unfold_calls.
  all: repeat case_match; simplify_eq; simpl in Ht; rewrite ?release_pins_tasks in Ht; simpl in Ht;
    rewrite ?lookup_insert_eq in Ht; simplify_eq/=; try done.
  all: first [pose proof (IH _ eq_refl) as Hold | pose proof (IH _ Ht) as Hold]; simpl in Hold; rewrite ?app_nil_r, <-?app_assoc in *; try done.
  set_solver.
Qed.

Lemma held_active e held q t sn :
  engine_inv e held → (t, sn) ∈ held_of held q → sn ∈ active_snapshots (snapshot_registry e) t.
Proof.
  intros [[Ht _] _ _ _] Hin. unfold active_snapshots. rewrite Ht, default_nonempty. unfold pins_of_table. rewrite map_map.
  apply list_elem_of_fmap in Hin as (h & [= -> ->] & Hin). apply list_elem_of_fmap. exists h. split; [done|].
  apply list_elem_of_In, filter_In. apply list_elem_of_In, filter_In in Hin as [Hin _]. split; [done|].
  by apply bool_decide_eq_true.
Qed.

Lemma unheld_absent e held q t :
  engine_inv e held → held_of held q = [] →
  Forall (λ p, qp_query_id p ≠ q) (default [] (by_table (snapshot_registry e) !! t)).
Proof.
  intros [[Ht _] _ _ _] Hnil. rewrite Ht, default_nonempty. unfold pins_of_table. apply Forall_map, Forall_forall.
  intros h Hin%list_elem_of_In Hq. apply filter_In in Hin as [Hin _].
  assert ((hp_table h, hp_snapshot h) ∈ held_of held q) as Hheld; [|rewrite Hnil in Hheld; by apply elem_of_nil in Hheld].
  apply list_elem_of_fmap. exists h. split; [done|]. apply list_elem_of_In, filter_In. split; [done|]. by apply N.eqb_eq.
Qed.
End engine_spec.

(** Snapshot pins live exactly as long as their query.  After any interleaving of
    queries, failures, drops, cancellations and deferred destructions: a query that was
    never started or whose call, handle or stream is gone holds no pin; a query that has
    a handle or a stream and was not cancelled holds every pin taken for it; and when no
    pin was refused those are all the table snapshots its plan scans. *)
Theorem pins_live_with_query (pinning : bool) (error_text : TeoDBError → string) (evs : list Event) (e : Engine)
    (Hreach : engine_reach pinning error_text evs e) :
  (∀ q table, tasks e !! q = None ∨ tasks e !! q = Some TDone →
     Forall (λ p, qp_query_id p ≠ q) (default [] (by_table (snapshot_registry e) !! table))) ∧
  (∀ q t ps, tasks e !! q = Some t → releaser t = Some ps → EvCancel q ∉ evs →
     ∀ table sn, (table, sn) ∈ ps → sn ∈ active_snapshots (snapshot_registry e) table) ∧
  (∀ q t, tasks e !! q = Some t → past_pinning t → pinning = true → EvCancel q ∉ evs → EvPin q false ∉ evs →
     ∀ table sn, (table, sn) ∈ targets_of t → sn ∈ active_snapshots (snapshot_registry e) table).
Proof.
  destruct (inv_reach pinning error_text evs e Hreach) as [held Hinv].
  assert (∀ q t ps, tasks e !! q = Some t → releaser t = Some ps → EvCancel q ∉ evs →
     ∀ table sn, (table, sn) ∈ ps → sn ∈ active_snapshots (snapshot_registry e) table) as Hlive.
  { intros q t ps Ht Hr Hc table sn Hin. eapply held_active; [done|]. rewrite (inv_held _ _ Hinv q), Ht.
    rewrite (uncancelled _ _ _ _ _ _ _ Hreach Hc Ht Hr). by destruct t. }
  split_and!; [|exact Hlive|].
  - intros q table Hq. eapply unheld_absent; [done|]. rewrite (inv_held _ _ Hinv q).
    destruct (query_pins e !! q) as [ps|] eqn:Hps; [|by destruct Hq as [-> | ->]].
    destruct (inv_pins _ _ Hinv _ _ Hps) as (t & Ht & Hr). destruct Hq as [Hq|Hq]; rewrite Hq in Ht; by simplify_eq.
  - intros q t Ht Hp Hpin Hc Hf table sn Hin. pose proof (all_pinned _ _ _ _ _ _ Hpin Hreach Hf Ht) as Hall.
    destruct t as [| |targets r|targets r|targets r ? ?|]; simpl in *; try done; try (by apply elem_of_nil in Hin).
    all: subst targets; destruct r as [ps|]; [|by apply elem_of_nil in Hin]; by eapply Hlive.
Qed.

Section runs.
Context (pinning : bool) (error_text : TeoDBError → string).
Definition run_engine (e : Engine) (evs : list Event) : option Engine :=
  foldl (λ o ev, e ← o; engine_step pinning error_text e ev) (Some e) evs.
Lemma run_reach evs e : run_engine engine_new evs = Some e → engine_reach pinning error_text evs e.
Proof.
  revert e. induction evs as [|ev evs IH] using rev_ind; intros e; unfold run_engine.
  { intros [= <-]. constructor. }
  rewrite foldl_app. simpl. intros Hr. apply bind_Some in Hr as (e0 & He0 & Hs). econstructor; [by apply IH|done].
Qed.
End runs.

(** A query over snapshot 1 of a table, streaming; another that was cancelled while it
    was planned. *)
Definition demo_scan_table : TableIdent := mkTableIdent "ns" "events".
Definition demo_queries : list Event :=
  [EvPrepare 1; EvPrepare 2; EvAttempt 1 (Err (Unavailable "scheduler")); EvAttempt 2 (Ok [TeoScan demo_scan_table (Some 2%Z)]);
   EvPin 2 true; EvAttempt 1 (Ok [OtherNode; TeoScan demo_scan_table (Some 1%Z); TeoScan demo_scan_table (Some 1%Z)]);
   EvPin 1 true; EvDrop 2; EvCancel 2; EvPinned 1; EvExecute 1 (Ok tt); EvStarted 1 (Ok tt); EvNext 1 (Some (Ok tt))].
Definition demo_engine : Engine := default engine_new (run_engine true (λ _, "{error}") engine_new demo_queries).

Lemma demo_query_1 : (EvCancel 1 ∉ demo_queries) ∧ EvPin 1 false ∉ demo_queries.
Proof.
  unfold demo_queries.
  split; intros Hin; repeat (apply elem_of_cons in Hin as [Hin|Hin]; [discriminate|]); by apply elem_of_nil in Hin.
Qed.
Lemma demo_engine_reach : engine_reach true (λ _, "{error}") demo_queries demo_engine.
Proof. apply run_reach. vm_compute. reflexivity. Qed.

Lemma pins_live_with_query_witness :
  1%Z ∈ active_snapshots (snapshot_registry demo_engine) demo_scan_table ∧
  Forall (λ p, qp_query_id p ≠ 2%N) (default [] (by_table (snapshot_registry demo_engine) !! demo_scan_table)).
Proof.
  destruct (pins_live_with_query true (λ _, "{error}") demo_queries demo_engine demo_engine_reach) as (Hgone & _ & Hall).
  split; [|apply Hgone; right; vm_compute; reflexivity].
  apply (Hall 1%N (TStreaming [(demo_scan_table, 1%Z)] (Some [(demo_scan_table, 1%Z)]) false false)).
  - vm_compute. reflexivity.
  - exact I.
  - reflexivity.
  - exact (proj1 demo_query_1).
  - exact (proj2 demo_query_1).
  - by left.
Defined.

(** ** Running queries and the sweeper *)


(** The sweep of [demo_sweep_env] while the query above reads snapshot 1. *)
Definition demo_pinned_env : SweepEnv := {|
  se_expire_stale := Ok 0; se_pins := Ok []; se_table_location := se_table_location demo_sweep_env;
  se_history := Ok demo_history; se_now_ms := 5000; se_list := se_list demo_sweep_env;
  se_pins_now := Ok (active_snapshots (snapshot_registry demo_engine) demo_scan_table);
  se_now := 9000000000; se_delete _ := Ok tt |}.
Lemma demo_history_ids : NoDup (map is_id (ih_snapshots demo_history)).
Proof. repeat constructor; set_solver. Qed.

(** ** Fallback and delivery *)
Section delivery.
Context {Batch : Type}.

(** The items up to and including the first error. *)
Fixpoint until_error (s : BatchStream Batch) : BatchStream Batch :=
  match s with [] => [] | Ok b :: s => Ok b :: until_error s | Err e :: _ => [Err e] end.
Fixpoint first_error (s : BatchStream Batch) : option TeoDBError :=
  match s with [] => None | Ok _ :: s => first_error s | Err e :: _ => Some e end.

Lemma track_loop_spec error_text (s : BatchStream Batch) status :
  track_loop error_text false (map Some s ++ [None]) status
  = (until_error s, Some (match first_error s with Some e => QFailed (error_text e) | None => QCompleted end)).
Proof.
  revert status. induction s as [|[b|e] s IH]; intros status; simpl; [done| |].
  - by rewrite IH.
  - destruct s; done.
Qed.

(** What a caller of a query receives when it reads its stream to the end: the batches
    of one execution of the prepared plan, the scheduler's or, when fallback is on and the
    scheduler was unreachable before it returned any item, the local one, in order, up to
    and including its first error; the two are never mixed.  The status recorded at the
    end is completed exactly when there was no error. *)
Theorem query_stream_delivers (error_text : TeoDBError → string) (fallback : bool)
    (remote : result string (ExecStream Batch)) (local : TeoDBResult (ExecStream Batch)) :
  (∀ stream fell, execute_with_fallback fallback remote local = (Ok stream, fell) →
     track_stream error_text stream
       = (until_error stream, Some (match first_error stream with Some e => QFailed (error_text e) | None => QCompleted end)) ∧
     (fell = false → ∃ r, remote = Ok r ∧ stream = map_stream r) ∧
     (fell = true → fallback = true ∧ (∃ l, local = Ok l ∧ stream = map_stream l) ∧
        ∃ msg, is_scheduler_unreachable msg = true ∧ (remote = Err msg ∨ ∃ rest, remote = Ok (Err msg :: rest)))) ∧
  (∀ e fell, execute_with_fallback fallback remote local = (Err e, fell) →
     (fell = true → local = Err e) ∧ (fell = false → ∃ msg, remote = Err msg ∧ e = QueryExecution msg)).
Proof.
  assert (∀ stream, track_stream error_text stream
       = (until_error stream, Some (match first_error stream with Some e => QFailed (error_text e) | None => QCompleted end)))
    as Htrack by (intros; apply track_loop_spec).
  split.
  - intros stream fell Hexec. split; [apply Htrack|]. clear Htrack. unfold execute_with_fallback in Hexec. cbv zeta in Hexec.
    destruct remote as [[|[b|msg] rest]|msg].
    1, 2: destruct fallback; injection Hexec as <- <-; (split; [eauto|done]).
    + destruct fallback; [destruct (is_scheduler_unreachable msg) eqn:Hu|].
      * destruct local as [l|]; simplify_eq/=. split; [done|]. intros _. split_and!; [done|by eexists|]. exists msg. eauto.
      * injection Hexec as <- <-. split; [eauto|done].
      * injection Hexec as <- <-. split; [eauto|done].
    + destruct fallback; simpl in Hexec; [destruct (is_scheduler_unreachable msg) eqn:Hu|]; [|done..].
      destruct local as [l|]; simplify_eq/=. split; [done|]. intros _. split_and!; [done|by eexists|]. exists msg. eauto.
  - intros e fell Hexec. clear Htrack. unfold execute_with_fallback in Hexec. cbv zeta in Hexec.
    destruct remote as [[|[b|msg] rest]|msg], fallback; simplify_eq/=; try (split; [done|eauto]; fail).
    all: destruct (is_scheduler_unreachable msg); simplify_eq/=; try (split; [done|by eauto]; fail).
    all: destruct local; simplify_eq/=; split; done.
Qed.
End delivery.

(** ** Statuses *)

(** While its call is driven by one caller and nobody cancels it, the status of a query
    says where the call is. *)
Definition status_agrees (error_text : TeoDBError → string) (s : option QueryStatus) (t : Task) : Prop :=
  match t with
  | TPreparing _ | TPinning _ _ _ | TPrepared _ _ | TExecuting _ _ => s = Some QPlanning
  | TStreaming _ _ failed ended =>
      if failed then ∃ e, s = Some (QFailed (error_text e)) else if ended : bool then s = Some QCompleted else s = Some QRunning
  | TDone => True
  end.
Lemma status_tracks_call pinning error_text evs e q t :
  engine_reach pinning error_text evs e → EvCancel q ∉ evs → EvEvict q ∉ evs → tasks e !! q = Some t →
  status_agrees error_text (queries e !! q) t.
Proof.
  intros Hreach. revert t. induction Hreach as [|evs e ev e' Hreach IH Hstep]; intros t Hc He Ht; [done|].
  apply not_elem_of_app in Hc as [Hc Hcev]. apply not_elem_of_app in He as [He Heev]. specialize (λ t, IH t Hc He).
  destruct (decide (event_query ev = q)) as [Hq|Hne].
  2: { destruct (step_other _ _ _ _ _ _ Hne Hstep) as (Ht' & _ & Hs). rewrite Ht' in Ht. rewrite Hs. by apply IH. }
  destruct ev as [q0|q0 r|q0 ok|q0|q0 lim|q0 r|q0 item|q0|q0|q0|q0]; simpl in Hq; subst q0; simpl in Hstep; unfold_calls.
  1, 2, 3, 4, 5, 6, 8: repeat case_match; simplify_eq; simpl in Ht; rewrite ?lookup_insert_eq in Ht; simplify_eq/=;
    try done; try (by rewrite lookup_insert_eq); by apply (IH _ eq_refl).
  - destruct (tasks e !! q) as [[| | | |targets r failed []|]|] eqn:Hold; try done.
    pose proof (IH _ eq_refl) as Hst. simpl in Hst.
    destruct failed; [|destruct item as [[|]|]]; simplify_eq/=; rewrite lookup_insert_eq in Ht; simplify_eq/=; try done;
      rewrite ?lookup_insert_eq; eauto.
  - set_solver.
  - set_solver.
  - case_decide; simplify_eq/=. by apply IH.
Qed.

(** A stream that its caller drops early leaves the query running until the status expires;
    a cancelled query whose stream is still read is recorded as completed; and cancelling
    releases the pins of a stream that is still there. *)
Lemma dropped_query_stays_running :
  ∃ e, run_engine true (λ _, "{error}") demo_engine [EvDrop 1] = Some e ∧
    tasks e !! 1%N = Some TDone ∧ query_status e 1 = Ok QRunning.
Proof. eexists. split; [vm_compute; reflexivity|]. split; vm_compute; reflexivity. Qed.
Lemma cancelled_query_completes :
  ∃ e e', run_engine true (λ _, "{error}") demo_engine [EvCancel 1] = Some e ∧
    run_engine true (λ _, "{error}") e [EvNext 1 None] = Some e' ∧
    query_status e 1 = Ok QCancelled ∧ active_snapshots (snapshot_registry e) demo_scan_table = [] ∧
    query_status e' 1 = Ok QCompleted.
Proof. do 2 eexists. split; [vm_compute; reflexivity|]. split; [vm_compute; reflexivity|]. split_and!; vm_compute; reflexivity. Qed.

(** A failure of the query itself whose text quotes one of the phrases counts as an
    unreachable scheduler, and the query runs again locally. *)
Lemma query_text_triggers_fallback (local : TeoDBResult (ExecStream unit)) stream :
  local = Ok stream →
  execute_with_fallback true
    (Ok [Err "Execution error: Fail to execute query due to Cannot cast string 'transport error' to value of Int64 type"])
    local = (Ok (map_stream stream), true).
Proof. intros ->. reflexivity. Qed.

(** Missing tables and schemas are reported as not found, without the internal prefix. *)
Lemma missing_table_not_found :
  classify_planning_error "Error during planning: table 'datafusion.perf.events' not found"
    = NotFound "table 'perf.events' not found" ∧
  classify_planning_error "Error during planning: schema 'datafusion.perf' not found"
    = NotFound "schema 'perf' not found".
Proof. split; vm_compute; reflexivity. Qed.
