(* ===== verification/Maintenance.v ===== *)
(** Background maintenance: [teodb-server/src/maintenance/] with the compaction cycle over
    all tables, the orphan sweep over all tables, and the loop that schedules them.

    The catalog, the lock and the compactor are operations on a world that other actors
    may change at any call; a cycle records what it did.  The components themselves are
    modelled in the files on the lock, the selection, the compactor and the sweeper. *)
From stdpp Require Import base list strings gmap.
From S2P Require Import Prelude Core Location DataFiles Schema Catalog Leases Manifests Sweep Deletes Selection Compaction CompactionSpec CompactionLock ParquetStats Config.
Open Scope nat_scope.
Open Scope list_scope.

(** ** What a cycle calls *)
Record MaintenanceOps (W : Type) := mkMaintenanceOps {
  mo_list_namespaces : W → W * TeoDBResult (list string);
  mo_list_tables : W → string → W * TeoDBResult (list TableIdent);
  mo_try_acquire : W → TableIdent → W * LockOutcome;
  mo_release : W → TableIdent → W;
  mo_load_table : W → TableIdent → W * TeoDBResult Metadata;
  mo_load_live_files : W → TableIdent → W * TeoDBResult (list DataFile);
  mo_count_position_deletes : W → list DataFile → list DataFile → W * TeoDBResult (gmap string N);
  mo_compact : W → CompactionPlan → W * TeoDBResult CompactionOutcome;
  mo_sweep : W → TableIdent → W * TeoDBResult SweepReport }.
Arguments mkMaintenanceOps {W}.
Arguments mo_list_namespaces {W}.
Arguments mo_list_tables {W}.
Arguments mo_try_acquire {W}.
Arguments mo_release {W}.
Arguments mo_load_table {W}.
Arguments mo_load_live_files {W}.
Arguments mo_count_position_deletes {W}.
Arguments mo_compact {W}.
Arguments mo_sweep {W}.

(** What a cycle did; [APanic] is the [expect] on the current snapshot. *)
Inductive Action :=
| ALock (t : TableIdent) (o : LockOutcome)
| ACompact (plan : CompactionPlan) (r : TeoDBResult CompactionOutcome)
| ARelease (t : TableIdent)
| APanic (t : TableIdent).

(** ** The compaction cycle *)
Section cycle.
Context {W : Type} (ops : MaintenanceOps W).
Context (exceeds_threshold : N → N → bool) (selection_cfg : SelectionConfig).

Fixpoint compact_plans (w : W) (plans : list CompactionPlan) : W * list Action :=
  match plans with
  | [] => (w, [])
  | plan :: plans =>
      let '(w, r) := mo_compact ops w plan in
      let '(w, acts) := compact_plans w plans in
      (w, ACompact plan r :: acts)
  end.

(** [tokio::try_join!]: both loads run; the error of either ends the table. *)
Definition load_both (w : W) (t : TableIdent) : W * TeoDBResult (Metadata * list DataFile) :=
  let '(w, files) := mo_load_live_files ops w t in
  let '(w, meta) := mo_load_table ops w t in
  (w, m ← meta; f ← files; Ok (m, f)).

Definition unlock (w : W) (t : TableIdent) (acts : list Action) : W * list Action :=
  (mo_release ops w t, acts ++ [ARelease t]).

(** The body for one table whose lock is held. *)
Definition compact_locked (w : W) (t : TableIdent) : W * list Action :=
  let '(w, loaded) := load_both w t in
  match loaded with
  | Err _ => unlock w t []
  | Ok (table_metadata, live_files) =>
      match with_live_files table_metadata live_files with
      | Err _ => unlock w t []
      | Ok metadata =>
          match tm_current_snapshot_id metadata with
          | None => unlock w t []
          | Some snapshot_id =>
              match tm_current_snapshot metadata with
              | None => (w, [APanic t])
              | Some snapshot =>
                  let '(w, counts) := mo_count_position_deletes ops w (sn_delete_files snapshot) (sn_data_files snapshot) in
                  match counts with
                  | Err _ => unlock w t []
                  | Ok delete_counts =>
                      let groups := select_compaction_candidates_with_delete_counts exceeds_threshold selection_cfg
                        (sn_data_files snapshot) (sn_delete_files snapshot) snapshot_id delete_counts in
                      let '(w, acts) := compact_plans w
                        (map (λ g, from_group g t (target_file_bytes selection_cfg)) groups) in
                      unlock w t acts
                  end
              end
          end
      end
  end.

Definition compact_table (w : W) (t : TableIdent) : W * list Action :=
  let '(w, outcome) := mo_try_acquire ops w t in
  match outcome with
  | Acquired => let '(w, acts) := compact_locked w t in (w, ALock t Acquired :: acts)
  | o => (w, [ALock t o])
  end.

Fixpoint each_table (body : W → TableIdent → W * list Action) (w : W) (tables : list TableIdent) : W * list Action :=
  match tables with
  | [] => (w, [])
  | t :: tables =>
      let '(w, acts) := body w t in
      let '(w, rest) := each_table body w tables in
      (w, acts ++ rest)
  end.
Fixpoint each_namespace (body : W → TableIdent → W * list Action) (w : W) (namespaces : list string) : W * list Action :=
  match namespaces with
  | [] => (w, [])
  | ns :: namespaces =>
      let '(w, tables) := mo_list_tables ops w ns in
      let '(w, acts) := match tables with Ok tables => each_table body w tables | Err _ => (w, []) end in
      let '(w, rest) := each_namespace body w namespaces in
      (w, acts ++ rest)
  end.
Definition compaction_cycle (w : W) : W * list Action :=
  let '(w, namespaces) := mo_list_namespaces ops w in
  match namespaces with Ok namespaces => each_namespace compact_table w namespaces | Err _ => (w, []) end.

(** The counters of the log line. *)
Definition is_run (a : Action) : bool := match a with ACompact _ _ => true | _ => false end.
Definition is_committed_plan (a : Action) : bool :=
  match a with ACompact _ (Ok (Committed _ _)) => true | _ => false end.
Definition cycle_stats (acts : list Action) : nat * nat :=
  (length (List.filter is_run acts), length (List.filter is_committed_plan acts)).

(** ** The orphan sweep *)
Definition sweep_table (acc : W * nat) (t : TableIdent) : W * nat :=
  let '(w, total_deleted) := acc in
  let '(w, r) := mo_sweep ops w t in
  match r with Ok report => (w, total_deleted + sw_deleted report) | Err _ => (w, total_deleted) end.
Definition sweep_namespace (acc : W * nat) (ns : string) : W * nat :=
  let '(w, total_deleted) := acc in
  let '(w, tables) := mo_list_tables ops w ns in
  match tables with Ok tables => foldl sweep_table (w, total_deleted) tables | Err _ => (w, total_deleted) end.
Definition run_orphan_sweep (w : W) : W * nat :=
  let '(w, namespaces) := mo_list_namespaces ops w in
  match namespaces with Ok namespaces => foldl sweep_namespace (w, 0) namespaces | Err _ => (w, 0) end.
End cycle.

(** ** Settings *)
Definition selection_config (cfg : MaintenanceConfig) : SelectionConfig :=
  mkSelectionConfig (mc_target_file_bytes cfg) (N.to_nat (Config.min_files_per_compaction cfg))
    (N.to_nat (Config.max_files_per_compaction cfg)) (Config.max_bytes_per_compaction cfg).
Definition compaction_codec (cfg : MaintenanceConfig) : CompressionCodec :=
  match from_str_config (compression cfg) with Ok c => c | Err _ => default_codec end.
Definition sweep_retention (cfg : MaintenanceConfig) : option SnapshotRetention :=
  if (0 <? snapshot_retention_secs cfg)%N
  then Some (mkSnapshotRetention (from_secs (snapshot_retention_secs cfg)) (N.max (snapshot_keep_last cfg) 1))
  else None.
Definition lock_ttl_of (cfg : MaintenanceConfig) : N := from_secs (lock_ttl_secs cfg).
(** The leases of the snapshot pins, in [server/application.rs]. *)
Definition pin_lease_config (cfg : MaintenanceConfig) : SnapshotRegistryConfig :=
  mkSnapshotRegistryConfig (from_secs (lock_ttl_secs cfg)) 8.

(** ** The loop

    Times are nanoseconds of a monotonic clock.  A wake-up takes a branch whose deadline
    has passed; the next deadline is drawn before the work starts. *)
Inductive Branch := BShutdown | BCompaction | BSweep | BCachePersist.
Record LoopState := mkLoopState {
  next_compaction : N; next_sweep : N; next_cache_persist : N; stopped : bool }.
Record Wakeup := mkWakeup { wk_branch : Branch; wk_now : N; wk_jittered : N }.
Definition CACHE_PERSIST_INTERVAL : N := 60000000000.

Definition maintenance_step (cfg : MaintenanceConfig) (s : LoopState) (k : Wakeup) : option LoopState :=
  if stopped s then None
  else match wk_branch k with
       | BShutdown => Some (mkLoopState (next_compaction s) (next_sweep s) (next_cache_persist s) true)
       | BCompaction =>
           if compaction_enabled cfg && (next_compaction s <=? wk_now k)%N
           then Some (mkLoopState (wk_now k + wk_jittered k) (next_sweep s) (next_cache_persist s) false) else None
       | BSweep =>
           if (next_sweep s <=? wk_now k)%N
           then Some (mkLoopState (next_compaction s) (wk_now k + wk_jittered k) (next_cache_persist s) false) else None
       | BCachePersist =>
           if (next_cache_persist s <=? wk_now k)%N
           then Some (mkLoopState (next_compaction s) (next_sweep s) (wk_now k + CACHE_PERSIST_INTERVAL) false) else None
       end.
Definition loop_start (now compaction_jittered sweep_jittered : N) : LoopState :=
  mkLoopState (now + compaction_jittered) (now + sweep_jittered) (now + CACHE_PERSIST_INTERVAL) false.
Fixpoint maintenance_run (cfg : MaintenanceConfig) (s : LoopState) (ks : list Wakeup) : option LoopState :=
  match ks with [] => Some s | k :: ks => s ← maintenance_step cfg s k; maintenance_run cfg s ks end.
(** [Maintenance::run] of a loop that the settings enable. *)
Definition maintenance_loop (cfg : MaintenanceConfig) (now cj sj : N) (ks : list Wakeup) : option (list Wakeup) :=
  if maintenance_enabled cfg then (λ _, ks) <$> maintenance_run cfg (loop_start now cj sj) ks else Some [].

(** ** The lock is held around every compaction *)

(** What a cycle does with one table: the lock is not acquired and nothing follows, or it
    is, some plans of the table are compacted, and it is released. *)
Inductive table_trace (t : TableIdent) : list Action → Prop :=
| trace_skipped o : o ≠ Acquired → table_trace t [ALock t o]
| trace_compacted acts :
    Forall (λ a, ∃ plan r, a = ACompact plan r ∧ cp_table plan = t) acts →
    table_trace t (ALock t Acquired :: acts ++ [ARelease t])
| trace_panicked : table_trace t [ALock t Acquired; APanic t].

Section discipline.
Context {W : Type} (ops : MaintenanceOps W) (exceeds_threshold : N → N → bool) (selection_cfg : SelectionConfig).

Lemma compact_plans_trace w plans :
  Forall (λ a, ∃ plan r, a = ACompact plan r ∧ plan ∈ plans) (compact_plans ops w plans).2.
Proof.
  revert w. induction plans as [|plan plans IH]; intros w; simpl; [by apply Forall_nil|].
  destruct (mo_compact ops w plan) as [w1 r]. specialize (IH w1).
  destruct (compact_plans ops w1 plans) as [w2 acts]. simpl in *. apply Forall_cons. split.
  - exists plan, r. split; [done|by left].
  - eapply Forall_impl; [exact IH|]. intros a (p & r' & -> & Hp). exists p, r'. split; [done|by right].
Qed.

Lemma compact_locked_trace w t :
  table_trace t (ALock t Acquired :: (compact_locked ops exceeds_threshold selection_cfg w t).2).
Proof.
  unfold compact_locked, unlock. destruct (load_both ops w t) as [w1 [[m files]|]].
  2: { simpl. apply (trace_compacted t []). by apply Forall_nil. }
  destruct (with_live_files m files) as [meta|]; [|simpl; apply (trace_compacted t []); by apply Forall_nil].
  destruct (tm_current_snapshot_id meta) as [id|]; [|simpl; apply (trace_compacted t []); by apply Forall_nil].
  destruct (tm_current_snapshot meta) as [snap|]; [|apply trace_panicked].
  destruct (mo_count_position_deletes ops w1 _ _) as [w2 [counts|]];
    [|simpl; apply (trace_compacted t []); by apply Forall_nil].
  set (plans := map _ _). pose proof (compact_plans_trace w2 plans) as Hp.
  destruct (compact_plans ops w2 plans) as [w3 acts]. simpl in *. apply trace_compacted.
  eapply Forall_impl; [exact Hp|]. intros a (plan & r & -> & Hin). exists plan, r. split; [done|].
  apply list_elem_of_fmap in Hin as (g & -> & _). done.
Qed.

Lemma compact_table_trace w t : table_trace t (compact_table ops exceeds_threshold selection_cfg w t).2.
Proof.
  unfold compact_table. destruct (mo_try_acquire ops w t) as [w1 []]; [|by apply trace_skipped..].
  pose proof (compact_locked_trace w1 t) as Ht. by destruct (compact_locked ops _ _ w1 t).
Qed.

Lemma each_table_trace w tables :
  ∃ parts, (each_table (compact_table ops exceeds_threshold selection_cfg) w tables).2 = concat parts ∧
    Forall (λ p, ∃ t, table_trace t p) parts.
Proof.
  revert w. induction tables as [|t tables IH]; intros w; simpl; [exists []; by split; [|apply Forall_nil]|].
  pose proof (compact_table_trace w t) as Ht. destruct (compact_table ops _ _ w t) as [w1 acts].
  destruct (IH w1) as (parts & Hp & Hall). destruct (each_table _ w1 tables) as [w2 rest]. simpl in *. subst rest.
  exists (acts :: parts). split; [done|]. apply Forall_cons. eauto.
Qed.

(** C15. Compaction happens under the table's lock: whatever the catalog, the lock and the
    compactor answer and other actors do in between, a cycle is a sequence of table
    traces; in each the lock is tried first, a plan is compacted only after it was
    acquired, for that table, and the lock is released last on every path, the failed
    ones included.  The only path without a release is the panic on metadata that names a
    current snapshot and does not carry it. *)
Theorem compaction_under_lock (w : W) :
  ∃ parts, (compaction_cycle ops exceeds_threshold selection_cfg w).2 = concat parts ∧
    Forall (λ p, ∃ t, table_trace t p) parts.
Proof.
  unfold compaction_cycle. destruct (mo_list_namespaces ops w) as [w1 [namespaces|]];
    [|exists []; by split; [|apply Forall_nil]].
  revert w1. induction namespaces as [|ns namespaces IH]; intros w1; simpl; [exists []; by split; [|apply Forall_nil]|].
  destruct (mo_list_tables ops w1 ns) as [w2 tables].
  assert (∃ parts, (match tables with
                    | Ok tables => each_table (compact_table ops exceeds_threshold selection_cfg) w2 tables
                    | Err _ => (w2, []) end).2 = concat parts ∧ Forall (λ p, ∃ t, table_trace t p) parts)
    as (parts & Hp & Hall).
  { destruct tables; [apply each_table_trace|exists []; by split; [|apply Forall_nil]]. }
  destruct (match tables with Ok _ => _ | Err _ => _ end) as [w3 acts]. simpl in Hp. subst acts.
  destruct (IH w3) as (parts' & Hp' & Hall'). destruct (each_namespace ops _ w3 namespaces) as [w4 rest]. simpl in *.
  subst rest. exists (parts ++ parts'). by rewrite concat_app, Forall_app.
Qed.
End discipline.

(** ** A table nobody else changes *)
Record LakeTable := mkLakeTable { lt_meta : Metadata; lt_live : list DataFile; lt_props : Properties }.
Definition with_lock_props (w : LakeTable) (props : Properties) : LakeTable := mkLakeTable (lt_meta w) (lt_live w) props.
(** The metadata after a commit: a new current snapshot. *)
Definition committed_meta (m : Metadata) (id : SnapshotId) : Metadata :=
  {| tm_table_uuid := tm_table_uuid m; tm_namespace := tm_namespace m;
     tm_table_name := tm_table_name m; tm_table_location := tm_table_location m;
     tm_current_snapshot_id := Some id;
     tm_current_schema_id := tm_current_schema_id m;
     tm_current_partition_spec_id := tm_current_partition_spec_id m;
     tm_current_sort_order_id := tm_current_sort_order_id m;
     tm_schemas := tm_schemas m; tm_partition_specs := tm_partition_specs m;
     tm_sort_orders := tm_sort_orders m; tm_snapshots := tm_snapshots m;
     tm_current_snapshot := Some (mkSnapshot id (tm_current_snapshot_id m) 0 0 OpReplace [] [] ∅);
     tm_properties := tm_properties m |}.
Definition apply_replace (w : LakeTable) (id : SnapshotId) (added : list DataFile) (removed : list ObjectLocation) : LakeTable :=
  mkLakeTable (committed_meta (lt_meta w) id)
    (remaining (map to_uri removed) (lt_live w) ++ added) (lt_props w).

Section alone.
Context {R : Type} (rows : DataFile → list R) (entries : DataFile → list (string * Z)).
Context (read_deletes : DataFile → TeoDBResult PositionDeleteMap) (write : CompactionPlan → TeoDBResult (list DataFile)).
Context (exceeds_threshold : N → N → bool) (selection_cfg : SelectionConfig).
Context (node_id : string) (lock_ttl now : N).
(** The id of the snapshot a commit on top of a snapshot creates. *)
Context (next_id : SnapshotId → SnapshotId).

Definition alone_compact (w : LakeTable) (plan : CompactionPlan) : LakeTable * TeoDBResult CompactionOutcome :=
  match (compact read_deletes plan (Ok (lt_meta w)) (Ok (lt_live w)) (write plan) (λ _, Ok tt)).2 with
  | Ok (Committed added removed) =>
      (apply_replace w (next_id (cp_base_snapshot_id plan)) added removed, Ok (Committed added removed))
  | r => (w, r)
  end.
Definition alone_ops : MaintenanceOps LakeTable :=
  mkMaintenanceOps (λ w, (w, Ok [])) (λ w _, (w, Ok []))
    (λ w _, match try_acquire node_id lock_ttl now (Ok (lt_props w)) (quiet_update (lt_props w)) (Ok (lt_props w)) with
            | (o, Some props) => (with_lock_props w props, o)
            | (o, None) => (w, o)
            end)
    (λ w _, match CompactionLock.release node_id (Ok (lt_props w)) (quiet_update (lt_props w)) with
            | Some props => with_lock_props w props
            | None => w
            end)
    (λ w _, (w, Ok (lt_meta w))) (λ w _, (w, Ok (lt_live w)))
    (λ w deletes data, (w, count_position_deletes read_deletes deletes data))
    alone_compact (λ w _, (w, Ok (mkSweepReport 0 0 0))).

(** A table as the writers of the lake leave it: distinct files, a recorded path names at
    most one data file, a delete file records rows of its own partition. *)
Record lake_ok (w : LakeTable) : Prop := {
  lk_meta : tm_current_snapshot_id (lt_meta w) ≠ None → tm_current_snapshot (lt_meta w) ≠ None;
  lk_paths : NoDup (map (to_uri ∘ df_path) (lt_live w));
  lk_unique path f g : f ∈ data_of (lt_live w) → g ∈ data_of (lt_live w) →
    path_matches path (key (df_path f)) = true → path_matches path (key (df_path g)) = true → f = g;
  lk_entries d m : d ∈ position_deletes (lt_live w) → read_deletes d = Ok m →
    ∀ path pos, (path, pos) ∈ entries d → ∃ ps, m !! path = Some ps;
  lk_partition d path pos f : d ∈ position_deletes (lt_live w) → (path, pos) ∈ entries d → f ∈ data_of (lt_live w) →
    path_matches path (key (df_path f)) = true → partition_key d = partition_key f }.
(** What a run writes: the rows its plan shows, under paths no delete file records. *)
Definition write_ok (w : LakeTable) : Prop := ∀ plan added, write plan = Ok added →
  Forall (λ f, df_content f = ContentData) added ∧
  flat_map rows added ≡ₚ visible rows entries (cp_inputs plan) (cp_deletes plan) ∧
  ∀ f d path pos, f ∈ added → d ∈ position_deletes (lt_live w) → (path, pos) ∈ entries d →
    path_matches path (key (df_path f)) = false.
Definition shown (w : LakeTable) : list R :=
  visible rows entries (data_of (lt_live w)) (position_deletes (lt_live w)).

Lemma with_live_files_Ok (w : LakeTable) (meta : Metadata) :
  with_live_files (lt_meta w) (lt_live w) = Ok meta →
  tm_current_snapshot_id meta = tm_current_snapshot_id (lt_meta w) ∧
  (∀ s, tm_current_snapshot meta = Some s →
     sn_data_files s = filter (λ f, df_content f = ContentData) (lt_live w) ∧
     sn_delete_files s = filter (λ f, df_content f ≠ ContentData) (lt_live w)) ∧
  (tm_current_snapshot (lt_meta w) ≠ None → tm_current_snapshot meta ≠ None).
Proof.
  unfold with_live_files. destruct (tm_current_snapshot (lt_meta w)) as [s|] eqn:Hs.
  - intros [= <-]. simpl. split; [done|]. split; [|done]. by intros s' [= <-].
  - destruct (_ && _); [|done]. intros [= <-]. split; [done|]. rewrite Hs. done.
Qed.

Lemma data_files_elem w f : f ∈ filter (λ f, df_content f = ContentData) (lt_live w) ↔ f ∈ data_of (lt_live w).
Proof. unfold data_of. rewrite list_elem_of_filter, filter_elem, bool_decide_eq_true. tauto. Qed.

(** The plans of a cycle are what the compactor's theorem asks for. *)
Lemma selected_plan_ok w t id counts g :
  lake_ok w →
  g ∈ select_compaction_candidates_with_delete_counts exceeds_threshold selection_cfg
        (filter (λ f, df_content f = ContentData) (lt_live w))
        (filter (λ f, df_content f ≠ ContentData) (lt_live w)) id counts →
  plan_ok entries read_deletes (from_group g t (target_file_bytes selection_cfg)) (lt_live w) ∧
  cp_base_snapshot_id (from_group g t (target_file_bytes selection_cfg)) = id ∧ cg_files g ≠ [].
Proof.
  intros [Hm Hpaths Huniq Hent Hpart] Hg.
  destruct (selection_sound exceeds_threshold selection_cfg
    (filter (λ f, df_content f = ContentData) (lt_live w)) (filter (λ f, df_content f ≠ ContentData) (lt_live w)) id counts)
    as [_ Hall].
  rewrite Forall_forall in Hall. destruct (Hall g Hg) as (Hne & Hbase & Hfiles & _ & Hnd & _ & _ & Hdel).
  rewrite Forall_forall in Hfiles. split; [|done].
  assert (NoDup (filter (λ f, df_content f = ContentData) (lt_live w))) as Hnd'.
  { apply NoDup_filter. change (NoDup ((to_uri ∘ df_path) <$> lt_live w)) in Hpaths. by apply NoDup_fmap_1 in Hpaths. }
  split; cbn [from_group cp_inputs cp_deletes].
  - done.
  - intros f Hf. apply data_files_elem. by apply Hfiles.
  - by apply Hnd.
  - rewrite Hdel. intros d [Hd _]%filter_elem. by apply list_elem_of_filter in Hd as [_ Hd].
  - rewrite Hdel. apply Forall_forall. intros d [_ Hc]%filter_elem. inv_checks. done.
  - intros d path pos i Hd Hin Hi Hmatch. destruct (Hfiles i Hi) as (Hidata & _ & Hik & _).
    rewrite Hdel. apply filter_elem. apply filter_elem in Hd as Hd'. destruct Hd' as [Hlive Hdc]. inv_checks.
    assert (partition_key d = group_key g) as Hkey.
    { rewrite <-Hik. apply (Hpart d path pos i Hd Hin); [by apply data_files_elem|done]. }
    split; [apply list_elem_of_filter; split; [congruence|done]|].
    rewrite !bool_decide_true by done. done.
  - done.
  - done.
Qed.

Lemma filter_swap {A} (f g : A → bool) l : List.filter f (List.filter g l) = List.filter g (List.filter f l).
Proof.
  induction l as [|x l IH]; [done|]. simpl.
  destruct (f x) eqn:Hf, (g x) eqn:Hg; simpl; rewrite ?Hf, ?Hg, IH; done.
Qed.

Lemma shown_replace w id added removed :
  Forall (λ f, df_content f = ContentData) added →
  shown (apply_replace w id added removed)
  = visible rows entries (remaining (map to_uri removed) (data_of (lt_live w)) ++ added)
      (remaining (map to_uri removed) (position_deletes (lt_live w))).
Proof.
  intros Hc. unfold shown, apply_replace, data_of, position_deletes, remaining. cbn [lt_live].
  rewrite !List.filter_app, (filter_swap (λ f, bool_decide (df_content f = ContentData))),
    (filter_swap (λ f, bool_decide (df_content f = PositionDelete))).
  assert (List.filter (λ f, bool_decide (df_content f = ContentData)) added = added) as ->.
  { clear -Hc. induction Hc as [|f added Hf _ IH]; [done|]. simpl. by rewrite bool_decide_true, IH. }
  assert (List.filter (λ f, bool_decide (df_content f = PositionDelete)) added = []) as ->.
  { clear -Hc. induction Hc as [|f added Hf _ IH]; [done|]. simpl. rewrite bool_decide_false by congruence. done. }
  by rewrite app_nil_r.
Qed.

(** Plans whose base is not the current snapshot do nothing. *)
Lemma plans_moved w plans :
  is_ok (with_live_files (lt_meta w) (lt_live w)) = true →
  Forall (λ plan, tm_current_snapshot_id (lt_meta w) ≠ Some (cp_base_snapshot_id plan)) plans →
  compact_plans alone_ops w plans = (w, map (λ plan, ACompact plan (Ok NoChange)) plans).
Proof.
  intros Hok Hall. induction Hall as [|plan plans Hne _ IH]; [done|]. simpl.
  assert (alone_compact w plan = (w, Ok NoChange)) as ->; [|by rewrite IH].
  unfold alone_compact, compact. cbn [mbind result_bind].
  destruct (with_live_files (lt_meta w) (lt_live w)) as [meta|] eqn:Hm; [|done].
  destruct (with_live_files_Ok w meta Hm) as [Hid _]. rewrite Hid. by rewrite bool_decide_false.
Qed.

(** What the plans of one table do: nothing is committed and the table stays as it is, or
    one plan commits and the ones after it find another snapshot. *)
Lemma plans_once w id plans :
  lake_ok w → write_ok w → next_id id ≠ id →
  Forall (λ plan, plan_ok entries read_deletes plan (lt_live w) ∧ cp_base_snapshot_id plan = id) plans →
  let '(w', acts) := compact_plans alone_ops w plans in
  shown w' ≡ₚ shown w ∧ lt_props w' = lt_props w ∧
  length (List.filter is_committed_plan acts) ≤ 1 ∧
  (length (List.filter is_committed_plan acts) = 0 → w' = w) ∧
  ∀ pre plan added removed post, acts = pre ++ ACompact plan (Ok (Committed added removed)) :: post →
    Forall (λ a, ∃ p, a = ACompact p (Ok NoChange)) post.
Proof.
  intros Hlake Hwrite Hnext Hall. induction Hall as [|plan plans [Hp Hbase] Hall IH].
  { simpl. split_and!; [done|done|lia|done|]. intros [] ? ? ? ? ?; done. }
  simpl. unfold alone_compact.
  destruct (compact read_deletes plan (Ok (lt_meta w)) (Ok (lt_live w)) (write plan) (λ _, Ok tt)) as [req r] eqn:Hc.
  cbn [snd]. destruct r as [[added removed| |]|e].
  2, 3, 4: destruct (compact_plans alone_ops w plans) as [w' acts]; destruct IH as (H1 & H2 & H3 & H4 & H5);
    (split_and!; [done..|]); intros [|a pre] p ad rm post Heq; simplify_eq/=; by eapply H5.
  destruct (compact_committed _ _ _ _ _ _ _ _ _ _ Hc eq_refl) as (m & meta & res & _ & _ & _ & _ & Hw & _).
  destruct (Hwrite plan added Hw) as (Hcont & Hrows & Hfresh).
  assert (Forall (λ p, tm_current_snapshot_id (lt_meta (apply_replace w (next_id (cp_base_snapshot_id plan)) added removed))
                       ≠ Some (cp_base_snapshot_id p)) plans) as Hmoved.
  { eapply Forall_impl; [exact Hall|]. intros p [_ ->]. simpl. rewrite Hbase. congruence. }
  rewrite plans_moved by done. split_and!.
  - rewrite shown_replace by done. by apply (committed_rows rows entries read_deletes plan (Ok (lt_meta w)) (lt_live w) (write plan) (λ _, Ok tt) req).
  - done.
  - simpl. assert (List.filter is_committed_plan (map (λ p, ACompact p (Ok NoChange)) plans) = []) as ->; [|simpl; lia].
    clear. by induction plans.
  - simpl. discriminate.
  - assert (Forall (λ a, ∃ p, a = ACompact p (Ok NoChange)) (map (λ p, ACompact p (Ok NoChange)) plans)) as Hno.
    { apply Forall_map, Forall_forall. eauto. }
    intros [|a pre] p ad rm post [= Ha Heq]; [by subst post|].
    rewrite Heq in Hno. apply Forall_app in Hno as [_ Hno]. apply Forall_cons in Hno as [(p' & Hp') _]. done.
Qed.

(** The body of a table under the lock. *)
Lemma locked_once w t :
  lake_ok w → write_ok w → (∀ id, next_id id ≠ id) →
  ∃ w' acts, compact_locked alone_ops exceeds_threshold selection_cfg w t = unlock alone_ops w' t acts ∧
    shown w' ≡ₚ shown w ∧ lt_props w' = lt_props w ∧
    length (List.filter is_committed_plan acts) ≤ 1 ∧
    Forall (λ a, ∃ plan r, a = ACompact plan r) acts ∧
    ∀ pre plan added removed post, acts = pre ++ ACompact plan (Ok (Committed added removed)) :: post →
      Forall (λ a, ∃ p, a = ACompact p (Ok NoChange)) post.
Proof.
  intros Hlake Hwrite Hnext.
  assert (∀ w', w' = w → ∃ w'' acts, unlock alone_ops w' t [] = unlock alone_ops w'' t acts ∧
    shown w'' ≡ₚ shown w ∧ lt_props w'' = lt_props w ∧ length (List.filter is_committed_plan acts) ≤ 1 ∧
    Forall (λ a, ∃ plan r, a = ACompact plan r) acts ∧
    ∀ pre plan added removed post, acts = pre ++ ACompact plan (Ok (Committed added removed)) :: post →
      Forall (λ a, ∃ p, a = ACompact p (Ok NoChange)) post) as Hskip.
  { intros w' ->. exists w, []. split_and!; [done|done|done|simpl; lia|by apply Forall_nil|]. intros [] ? ? ? ? ?; done. }
  unfold compact_locked, load_both. cbn [alone_ops mo_load_live_files mo_load_table mo_count_position_deletes mbind result_bind].
  destruct (with_live_files (lt_meta w) (lt_live w)) as [meta|] eqn:Hm; [|by apply Hskip].
  destruct (with_live_files_Ok w meta Hm) as (Hid & Hfiles & Hsome).
  destruct (tm_current_snapshot_id meta) as [id|] eqn:Hcur; [|by apply Hskip].
  destruct (tm_current_snapshot meta) as [snap|] eqn:Hsnap.
  2: { exfalso. apply Hsome; [|done]. apply (lk_meta _ Hlake). by rewrite <-Hid. }
  destruct (Hfiles snap eq_refl) as [-> ->].
  destruct (count_position_deletes read_deletes _ _) as [counts|]; [|by apply Hskip].
  set (plans := map _ _).
  assert (Forall (λ plan, plan_ok entries read_deletes plan (lt_live w) ∧ cp_base_snapshot_id plan = id) plans) as Hplans.
  { apply Forall_map, Forall_forall. intros g Hg. destruct (selected_plan_ok w t id counts g Hlake Hg) as (? & ? & _). done. }
  pose proof (plans_once w id plans Hlake Hwrite (Hnext id) Hplans) as Hone.
  pose proof (compact_plans_trace alone_ops w plans) as Htrace.
  destruct (compact_plans alone_ops w plans) as [w' acts]. simpl in Htrace. destruct Hone as (H1 & H2 & H3 & _ & H5).
  exists w', acts. split_and!; [done..| |done].
  eapply Forall_impl; [exact Htrace|]. intros x (plan & r & -> & _). eauto.
Qed.
End alone.


(** ** A concrete cycle: two data files and a delete file become one file *)
Definition demo_merged : DataFile := demo_cfile ContentData "t/data/m" 3.
Definition demo_merged_rows (f : DataFile) : list nat := if decide (f = demo_merged) then [10; 12; 20] else demo_rows f.
Definition demo_write (plan : CompactionPlan) : TeoDBResult (list DataFile) :=
  if decide (cp_inputs plan = [demo_a; demo_b] ∧ cp_deletes plan = [demo_d]) then Ok [demo_merged] else Err (Internal "write").
Definition demo_lake : LakeTable := mkLakeTable demo_meta demo_live ∅.
Definition demo_selection : SelectionConfig := mkSelectionConfig 1000 1 10 0.

Lemma demo_lake_ok : lake_ok demo_entry demo_read demo_lake.
Proof.
  destruct demo_plan_ok. split; [done|done|exact po_unique|exact po_entries|]. intros d path pos f Hd Hin Hf _.
  change (position_deletes (lt_live demo_lake)) with [demo_d] in Hd. apply list_elem_of_singleton in Hd as ->.
  change (data_of (lt_live demo_lake)) with [demo_a; demo_b] in Hf.
  apply elem_of_cons in Hf as [->|Hf]; [done|]. by apply list_elem_of_singleton in Hf as ->.
Qed.
Lemma demo_write_ok : write_ok demo_merged_rows demo_entry demo_write demo_lake.
Proof.
  intros plan added. unfold demo_write. case_decide as Hp; [|done]. intros [= <-]. destruct Hp as [-> ->].
  split; [by apply Forall_singleton|]. split; [vm_compute; reflexivity|].
  intros f d path pos ->%list_elem_of_singleton Hd Hin.
  change (position_deletes (lt_live demo_lake)) with [demo_d] in Hd. apply list_elem_of_singleton in Hd as ->.
  unfold demo_entry in Hin. rewrite decide_True in Hin by done. apply list_elem_of_singleton in Hin.
  injection Hin as -> ->. vm_compute. reflexivity.
Qed.

Definition demo_cycle : LakeTable * list Action :=
  compact_table (alone_ops demo_read demo_write "n1" 60000000000 1000 Z.succ) (λ _ _, false) demo_selection demo_lake
    (mkTableIdent "ns" "t").

(** ** Where the cycle falls short *)

(** The two loads of a table are not of one snapshot.  When a delete file is committed
    between them, the plan has the new base snapshot and no delete files; it passes every
    check and commits, and the deleted row is shown again. *)
Lemma torn_load_resurrects_row :
  let files := [demo_a] in
  let groups := select_compaction_candidates_with_delete_counts (λ _ _, false) demo_selection files [] 5 ∅ in
  let before := mkLakeTable demo_meta [demo_a; demo_d] ∅ in
  let copy := demo_cfile ContentData "t/data/copy" 3 in
  let rows f := if decide (f = copy) then [10; 11; 12] else demo_rows f in
  ∃ plan added removed,
    map (λ g, from_group g (mkTableIdent "ns" "t") 1000) groups = [plan] ∧
    tm_current_snapshot_id demo_meta = Some (cp_base_snapshot_id plan) ∧
    flat_map rows [copy] = visible rows demo_entry (cp_inputs plan) (cp_deletes plan) ∧
    alone_compact demo_read (λ _, Ok [copy]) Z.succ before plan
      = (apply_replace before 6 added removed, Ok (Committed added removed)) ∧
    shown rows demo_entry before = [10; 12] ∧
    shown rows demo_entry (apply_replace before 6 added removed) = [10; 11; 12].
Proof.
  cbv zeta. exists (from_group (mkCompactionGroup 0 ∅ [demo_a] [] 5) (mkTableIdent "ns" "t") 1000),
    [demo_cfile ContentData "t/data/copy" 3], [df_path demo_a].
  split_and!; vm_compute; reflexivity.
Qed.

(** The lock is taken once per table and not refreshed: when compacting the groups takes
    longer than its time to live, another node acquires it. *)
Lemma lock_expires_under_compaction (node other : string) (ttl now later : N) (props : Properties) :
  node ≠ "" → other ≠ "" → (0 < now ≤ u64_max)%N → is_expired ttl now later = true →
  let held := <[PROP_LOCK_TS := pretty now]> (<[PROP_OWNER := node]> props) in
  ∃ taken, try_acquire other ttl later (Ok held) (quiet_update held) (Ok held) = (Acquired, Some taken).
Proof.
  intros Hn Ho Hnow Hexp held. eexists. apply try_acquire_quiet; [done| |].
  - right. exists node, now. unfold held. rewrite lookup_insert_ne, !lookup_insert_eq by done.
    split_and!; [done..|lia].
  - right. right. destruct (lock_read props node now ltac:(lia)) as [_ Ht]. fold held in Ht. by rewrite Ht.
Qed.

(** The leases of snapshot pins last as long as the compaction lock, a setting that is
    not checked while compaction is off: with zero the configuration is valid and a pin is
    no longer honoured one millisecond after it was taken.  No caller renews a pin. *)
Lemma pin_lease_unchecked :
  let cfg := mkMaintenanceConfig true false 3600 (128 * MIB) 8 64 GIB (512 * MIB) "zstd(3)" 21600 86400 0 1 0 in
  validate_config (with_maintenance default_config cfg) = Ok tt ∧
  ∀ snapshot owner now, (now < u64_max)%N →
    let pin := mkLeasedPin snapshot owner now (lease_deadline (pin_lease_config cfg) now) in
    (lp_deadline_ms pin <? now + 1)%N = true.
Proof.
  intros cfg. split; [vm_compute; reflexivity|]. intros snapshot owner now Hnow pin. apply N.ltb_lt. unfold pin, lease_deadline.
  cbn [lp_deadline_ms]. change (Flush.as_millis (lease_ttl (pin_lease_config cfg)) mod 18446744073709551616)%N with 0%N.
  unfold u64_saturating_add. lia.
Qed.

(** ** The schedule *)
Section schedule.
Context (cfg : MaintenanceConfig).

(** A jittered interval is between 85 and 115 percent of it. *)
Definition jitter_ok (k : Wakeup) : Prop :=
  match wk_branch k with
  | BCompaction => 85 * from_secs (compaction_interval_secs cfg) ≤ 100 * wk_jittered k ≤ 115 * from_secs (compaction_interval_secs cfg)
  | BSweep => 85 * from_secs (orphan_sweep_interval_secs cfg) ≤ 100 * wk_jittered k ≤ 115 * from_secs (orphan_sweep_interval_secs cfg)
  | _ => True
  end%N.

(** A run of a branch leaves a deadline that only a later run of it moves. *)
Lemma deadline_kept s ks s' :
  maintenance_run cfg s ks = Some s' →
  (Forall (λ k, wk_branch k ≠ BCompaction) ks → next_compaction s' = next_compaction s) ∧
  (Forall (λ k, wk_branch k ≠ BSweep) ks → next_sweep s' = next_sweep s).
Proof.
  revert s. induction ks as [|k ks IH]; intros s; cbn [maintenance_run]; [intros [= <-]; done|].
  intros Hr. apply bind_Some in Hr as (s1 & Hs & Hr). destruct (IH _ Hr) as [IHc IHs].
  unfold maintenance_step in Hs. destruct (stopped s); [done|].
  split; intros Hall; apply Forall_cons in Hall as [Hk Hall]; [rewrite (IHc Hall)|rewrite (IHs Hall)];
    destruct (wk_branch k); repeat case_match; simplify_eq/=; done.
Qed.
Lemma run_app s ks1 ks2 : maintenance_run cfg s (ks1 ++ ks2) = (s1 ← maintenance_run cfg s ks1; maintenance_run cfg s1 ks2).
Proof.
  revert s. induction ks1 as [|k ks1 IH]; intros s; [done|]. cbn [app maintenance_run].
  destruct (maintenance_step cfg s k) as [s1|]; [apply IH|done].
Qed.

(** Between two compaction cycles, and between two sweeps, at least 85 percent of the
    configured interval passes; no compaction runs when it is disabled; and nothing runs
    after the shutdown branch. *)
Theorem maintenance_spaced (now cj sj : N) (ks1 ks2 ks3 : list Wakeup) (a b : Wakeup)
    (Hrun : is_Some (maintenance_run cfg (loop_start now cj sj) (ks1 ++ a :: ks2 ++ b :: ks3)))
    (Hjitter : Forall jitter_ok (ks1 ++ a :: ks2 ++ b :: ks3)) :
  wk_branch a ≠ BShutdown ∧
  (wk_branch a = BCompaction → compaction_enabled cfg = true) ∧
  (wk_branch a = BCompaction → wk_branch b = BCompaction → Forall (λ k, wk_branch k ≠ BCompaction) ks2 →
     100 * wk_now a + 85 * from_secs (compaction_interval_secs cfg) ≤ 100 * wk_now b)%N ∧
  (wk_branch a = BSweep → wk_branch b = BSweep → Forall (λ k, wk_branch k ≠ BSweep) ks2 →
     100 * wk_now a + 85 * from_secs (orphan_sweep_interval_secs cfg) ≤ 100 * wk_now b)%N.
Proof.
  destruct Hrun as [send Hrun]. rewrite run_app in Hrun. apply bind_Some in Hrun as (s1 & _ & Hrun).
  cbn [maintenance_run] in Hrun. apply bind_Some in Hrun as (s2 & Ha & Hrun).
  rewrite run_app in Hrun. apply bind_Some in Hrun as (s3 & Hmid & Hrun).
  cbn [maintenance_run] in Hrun. apply bind_Some in Hrun as (s4 & Hb & _).
  apply Forall_app in Hjitter as [_ Hj]. apply Forall_cons in Hj as [Hja _].
  destruct (deadline_kept _ _ _ Hmid) as [Hkc Hks]. unfold jitter_ok in Hja. unfold maintenance_step in Ha, Hb.
  destruct (stopped s1) eqn:Hs1; [done|]. split_and!.
  - intros Hk. rewrite Hk in Ha. injection Ha as <-. destruct ks2 as [|k ks2]; cbn [maintenance_run] in Hmid.
    + injection Hmid as <-. done.
    + done.
  - intros Hk. rewrite Hk in Ha. by destruct (compaction_enabled cfg).
  - intros Hk Hk' Hno. rewrite Hk in Ha, Hja. rewrite Hk' in Hb. specialize (Hkc Hno).
    destruct (compaction_enabled cfg && _); [|done]. injection Ha as <-. cbn [next_compaction] in Hkc.
    destruct (stopped s3); [done|]. destruct (N.leb_spec (next_compaction s3) (wk_now b)); [lia|].
    rewrite andb_false_r in Hb. done.
  - intros Hk Hk' Hno. rewrite Hk in Ha, Hja. rewrite Hk' in Hb. specialize (Hks Hno).
    destruct (next_sweep s1 <=? wk_now a)%N; [|done]. injection Ha as <-. cbn [next_sweep] in Hks.
    destruct (stopped s3); [done|]. destruct (N.leb_spec (next_sweep s3) (wk_now b)); [lia|done].
Qed.
End schedule.
