(* ===== verification/Ddl.v ===== *)
(** * Data definition statements

    Models [teodb-query/src/ddl]: the classification of a parsed statement, the
    plans of CREATE, DROP, SHOW and DESCRIBE, partition expressions, the mapping
    of SQL types, and the partition-spec builder of [teodb-core/src/table.rs];
    and the keyword vocabulary of [teodb-api/src/service/table.rs].  The SQL
    grammar is that of the parser library: a statement is its syntax tree, with
    the constructors the code names.  Names are ASCII where they are compared
    without case. *)

From S2P Require Import Prelude Core Decimal Location DataFiles Schema Convert ParquetStats.
Open Scope nat_scope.
Open Scope list_scope.

(** ** Syntax trees *)
Inductive ObjectNamePart := PIdent (value : string) | POtherPart.
Abbreviation ObjectName := (list ObjectNamePart).

Inductive ExactNumberInfo := PrecisionAndScale (p : N) (s : Z) | Precision (p : N) | NoNumberInfo.
Inductive SqlType :=
| SBooleanT | SBool
| STinyInt | SSmallInt | SInt2 | SIntT | SIntegerT | SInt4 | SMediumInt | SBigInt | SInt8T
| SUInt8 | SUTinyInt | STinyIntUnsigned | SUInt16 | SUSmallInt | SSmallIntUnsigned | SInt2Unsigned
| SUInt32 | SIntUnsigned | SInt4Unsigned | SIntegerUnsigned | SMediumIntUnsigned
| SUInt64 | SUBigInt | SBigIntUnsigned | SUnsigned | SUnsignedInteger
| SInt16T | SInt32T | SInt64T | SInt128 | SInt256 | SUInt128 | SUInt256 | SUHugeInt | SSigned | SSignedInteger | SHugeInt
| SFloat | SReal | SFloat4 | SFloat32T | SRealUnsigned
| SDouble | SDoublePrecision | SDoublePrecisionUnsigned | SDoubleUnsigned | SFloat8 | SFloat64T
| SDecimal (info : ExactNumberInfo) | SNumeric (info : ExactNumberInfo) | SDec (info : ExactNumberInfo) | SDecUnsigned (info : ExactNumberInfo)
| SDate | SDate32T | STimestamp | SDatetime | SDatetime64 | STime
| SVarchar | SCharVarying | SCharacterVarying | SChar | SCharacter | SText | STinyText | SMediumText | SLongText | SStringT
| SFixedString | SNvarchar | SCharacterLargeObject | SCharLargeObject | SClob
| SBinaryT | SVarbinary | SBlob | SBytea | SBytes | STinyBlob | SMediumBlob | SLongBlob
| SOtherType.

(** [EFunction] and [EValue] carry the displayed name and the displayed literal. *)
#[warnings="-register-all"]
Inductive Expr :=
| EIdentifier (value : string)
| ECompoundIdentifier (parts : list string)
| EFunction (name : string) (args : FunctionArguments)
| ETuple (exprs : list Expr)
| ENested (inner : Expr)
| EValue (text : string)
| EOtherExpr
with FunctionArguments := FList (args : list FunctionArg) | FNone | FOther
with FunctionArg := Unnamed (arg : FunctionArgExpr) | Named (arg : FunctionArgExpr)
with FunctionArgExpr := AExpr (e : Expr) | AOther.

Inductive ColumnOption := NotNull | OtherOption.
Record ColumnDef := mkColumnDef { cd_name : string; cd_data_type : SqlType; cd_options : list ColumnOption }.
Inductive HiveDistributionStyle := PARTITIONED (columns : list ColumnDef) | OtherDistribution.
Record CreateTableStmt := mkCreateTable {
  ct_name : ObjectName; ct_columns : list ColumnDef; ct_partition_by : option Expr;
  ct_hive_distribution : HiveDistributionStyle; ct_if_not_exists : bool }.
Inductive SchemaName := SimpleName (name : ObjectName) | UnnamedAuthorization (ident : string) | NamedAuthorization (name : ObjectName).
Inductive ObjectType := TableObject | SchemaObject | DatabaseObject | OtherObject.
Inductive Statement :=
| StCreateTable (ct : CreateTableStmt)
| StCreateSchema (name : SchemaName) (if_not_exists : bool)
| StCreateDatabase (name : ObjectName) (if_not_exists : bool)
| StDrop (object_type : ObjectType) (names : list ObjectName) (if_exists purge : bool)
| StShowTables (parent : option ObjectName)
| StShowColumns (parent : option ObjectName)
| StExplainTable (name : ObjectName)
| StOther.

(** ** Plans *)
Inductive PartitionTransformDef := DIdentity | DYear | DMonth | DDay | DHour | DBucket (n : N) | DTruncate (w : N).
Record PartitionFieldDef := mkFieldDef { fd_column_name : string; fd_transform : PartitionTransformDef }.
Record CreateTablePlan := mkCreateTablePlan {
  ctp_namespace : string; ctp_table_name : string; ctp_columns : list ColumnMeta; ctp_partition_by : list PartitionFieldDef;
  ctp_if_not_exists : bool }.
Record DropTablePlan := mkDropTablePlan { dtp_ident : TableIdent; dtp_if_exists : bool; dtp_purge : bool }.
Inductive DdlPlan :=
| PlanCreateTable (p : CreateTablePlan)
| PlanCreateSchema (namespace : string) (if_not_exists : bool)
| PlanDropTable (p : DropTablePlan)
| PlanDropSchema (namespace : string) (if_exists : bool)
| PlanShowTables (namespace : option string)
| PlanShowColumns (namespace table_name : string)
| PlanDescribeTable (namespace table_name : string).

(** ** Names *)
Definition part_ident (part : ObjectNamePart) : option string := match part with PIdent value => Some value | POtherPart => None end.
Definition object_name_to_string (name : ObjectName) : string := default "" (last name ≫= part_ident).
Definition resolve_table_name (name : ObjectName) : TeoDBResult (string * string) :=
  match omap part_ident name with
  | [ns; tbl] => Ok (ns, tbl)
  | [tbl] => Ok ("default", tbl)
  | [_; ns; tbl] => Ok (ns, tbl)
  | _ => Err (InvalidArgument "table_name" "invalid table name: {name}")
  end.

(** ** Types *)

(** [as u8] and [as i8]. *)
Definition exact_number_info_to_ps (info : ExactNumberInfo) : N * Z :=
  match info with
  | PrecisionAndScale p s => (p mod 256, wrap_signed 8 s)%N
  | Precision p => (p mod 256, 0%Z)%N
  | NoNumberInfo => (38%N, 10%Z)
  end.
Definition sql_type_to_teo (dt : SqlType) : TeoDBResult TeoDataType :=
  match dt with
  | SBooleanT | SBool => Ok TBoolean
  | STinyInt => Ok TInt8
  | SSmallInt | SInt2 => Ok TInt16
  | SIntT | SIntegerT | SInt4 | SMediumInt => Ok TInt32
  | SBigInt | SInt8T => Ok TInt64
  | SUInt8 | SUTinyInt | STinyIntUnsigned => Ok TUInt8
  | SUInt16 | SUSmallInt | SSmallIntUnsigned | SInt2Unsigned => Ok TUInt16
  | SUInt32 | SIntUnsigned | SInt4Unsigned | SIntegerUnsigned | SMediumIntUnsigned => Ok TUInt32
  | SUInt64 | SUBigInt | SBigIntUnsigned | SUnsigned | SUnsignedInteger => Ok TUInt64
  | SInt16T => Ok TInt16
  | SInt32T => Ok TInt32
  | SInt64T | SInt128 | SInt256 => Ok TInt64
  | SUInt128 | SUInt256 | SUHugeInt => Ok TUInt64
  | SSigned | SSignedInteger | SHugeInt => Ok TInt64
  | SFloat | SReal | SFloat4 | SFloat32T | SRealUnsigned => Ok TFloat32
  | SDouble | SDoublePrecision | SDoublePrecisionUnsigned | SDoubleUnsigned | SFloat8 | SFloat64T => Ok TFloat64
  | SDecimal info | SNumeric info | SDec info | SDecUnsigned info =>
      let '(precision, scale) := exact_number_info_to_ps info in Ok (TDecimal128 precision scale)
  | SDate | SDate32T => Ok TDate32
  | STimestamp | SDatetime | SDatetime64 => Ok (TTimestampMicros (Some "UTC"))
  | STime => Ok TTime64Micros
  | SVarchar | SCharVarying | SCharacterVarying | SChar | SCharacter | SText | STinyText | SMediumText | SLongText | SStringT
  | SFixedString | SNvarchar | SCharacterLargeObject | SCharLargeObject | SClob => Ok TUtf8
  | SBinaryT | SVarbinary | SBlob | SBytea | SBytes | STinyBlob | SMediumBlob | SLongBlob => Ok TBinary
  | SOtherType => Err (InvalidArgument "data_type" "unsupported SQL data type: {other}")
  end.

Definition is_not_null (o : ColumnOption) : bool := match o with NotNull => true | OtherOption => false end.
Definition convert_column (i : nat) (col : ColumnDef) : TeoDBResult ColumnMeta :=
  data_type ← sql_type_to_teo (cd_data_type col);
  Ok (mkColumnMeta (wrap_signed 32 (Z.of_nat i + 1)) (cd_name col) data_type (negb (existsb is_not_null (cd_options col))) None).
Definition convert_columns (columns : list ColumnDef) : TeoDBResult (list ColumnMeta) :=
  mapM_res (λ '(i, col), convert_column i col) (zip (seq 0 (length columns)) columns).

(** ** Partition expressions *)
Definition partition_error (message : string) : TeoDBError := InvalidArgument "partition_by" message.
Definition function_arg (arg : FunctionArg) : TeoDBResult Expr :=
  match arg with
  | Unnamed (AExpr e) | Named (AExpr e) => Ok e
  | _ => Err (partition_error "unsupported function argument: {other}")
  end.
Definition extract_function_args (args : FunctionArguments) : TeoDBResult (list Expr) :=
  match args with
  | FList args => mapM_res function_arg args
  | FNone => Ok []
  | FOther => Err (partition_error "unsupported function arguments syntax: {other}")
  end.
Definition expr_to_column_name (expr : Expr) : TeoDBResult string :=
  match expr with
  | EIdentifier value => Ok value
  | ECompoundIdentifier parts => Ok (default "" (last parts))
  | _ => Err (partition_error "expected column name, got: {other}")
  end.
Definition expr_to_u32 (expr : Expr) : TeoDBResult N :=
  match expr with
  | EValue s => ok_or (parse_unsigned u32_max s) (partition_error "{context}() expects a positive integer, got: {s}")
  | _ => Err (partition_error "{context}() expects a numeric literal, got: {other}")
  end.
Definition simple_transform (func_name : string) : option PartitionTransformDef :=
  if bool_decide (func_name = "year") then Some DYear
  else if bool_decide (func_name = "month") then Some DMonth
  else if bool_decide (func_name = "day") then Some DDay
  else if bool_decide (func_name = "hour") then Some DHour
  else if bool_decide (func_name = "identity") then Some DIdentity
  else None.
Definition parse_partition_function (name : string) (args : FunctionArguments) : TeoDBResult PartitionFieldDef :=
  let func_name := str_lower name in
  args ← extract_function_args args;
  match simple_transform func_name with
  | Some transform =>
      match args with
      | [arg] => col ← expr_to_column_name arg; Ok (mkFieldDef col transform)
      | _ => Err (partition_error "{func_name}() expects exactly 1 argument, got {}")
      end
  | None =>
      if bool_decide (func_name = "bucket") then
        match args with
        | [n; col] => n ← expr_to_u32 n; col ← expr_to_column_name col; Ok (mkFieldDef col (DBucket n))
        | _ => Err (partition_error "bucket() expects 2 arguments (n, col), got {}")
        end
      else if bool_decide (func_name = "truncate") then
        match args with
        | [w; col] => w ← expr_to_u32 w; col ← expr_to_column_name col; Ok (mkFieldDef col (DTruncate w))
        | _ => Err (partition_error "truncate() expects 2 arguments (width, col), got {}")
        end
      else Err (partition_error "unsupported partition transform: {func_name}")
  end.
Definition parse_partition_expr (expr : Expr) : TeoDBResult PartitionFieldDef :=
  match expr with
  | EIdentifier value => Ok (mkFieldDef value DIdentity)
  | ECompoundIdentifier parts => Ok (mkFieldDef (default "" (last parts)) DIdentity)
  | EFunction name args => parse_partition_function name args
  | _ => Err (partition_error "unsupported partition expression: {other}")
  end.
Definition parse_partition_by (expr : option Expr) : TeoDBResult (list PartitionFieldDef) :=
  match expr with
  | None => Ok []
  | Some (EFunction _ _ as expr) | Some (EIdentifier _ as expr) | Some (ECompoundIdentifier _ as expr) =>
      field ← parse_partition_expr expr; Ok [field]
  | Some (ETuple exprs) => mapM_res parse_partition_expr exprs
  | Some (ENested inner) => field ← parse_partition_expr inner; Ok [field]
  | Some _ => Err (partition_error "unsupported partition expression: {other}")
  end.
Definition parse_hive_partition (dist : HiveDistributionStyle) : TeoDBResult (list PartitionFieldDef) :=
  match dist with
  | PARTITIONED columns => Ok (map (λ col, mkFieldDef (cd_name col) DIdentity) columns)
  | OtherDistribution => Ok []
  end.

(** ** Statements to plans *)
Definition parse_create_table (ct : CreateTableStmt) : TeoDBResult DdlPlan :=
  '(ns, table_name) ← resolve_table_name (ct_name ct);
  columns ← convert_columns (ct_columns ct);
  partition_by ← match ct_partition_by ct with
                 | Some expr => parse_partition_by (Some expr)
                 | None => parse_hive_partition (ct_hive_distribution ct)
                 end;
  Ok (PlanCreateTable (mkCreateTablePlan ns table_name columns partition_by (ct_if_not_exists ct))).
Definition parse_create_schema (stmt : Statement) : TeoDBResult DdlPlan :=
  match stmt with
  | StCreateSchema name if_not_exists =>
      let ns := match name with
                | SimpleName name => object_name_to_string name
                | UnnamedAuthorization ident => ident
                | NamedAuthorization name => object_name_to_string name
                end in
      Ok (PlanCreateSchema ns if_not_exists)
  | StCreateDatabase name if_not_exists => Ok (PlanCreateSchema (object_name_to_string name) if_not_exists)
  | _ => Err (Internal "expected CREATE SCHEMA/DATABASE")
  end.
Definition parse_drop (object_type : ObjectType) (names : list ObjectName) (if_exists purge : bool) : TeoDBResult DdlPlan :=
  match object_type with
  | TableObject =>
      match names with
      | [name] => '(ns, tbl) ← resolve_table_name name; Ok (PlanDropTable (mkDropTablePlan (mkTableIdent ns tbl) if_exists purge))
      | _ => Err (InvalidArgument "sql" "DROP TABLE supports exactly one table per statement")
      end
  | SchemaObject | DatabaseObject =>
      match names with
      | [name] => Ok (PlanDropSchema (object_name_to_string name) if_exists)
      | _ => Err (InvalidArgument "sql" "DROP SCHEMA supports exactly one schema per statement")
      end
  | OtherObject => Err (InvalidArgument "object_type" "DROP {other:?} is not supported")
  end.
Definition parse_show_tables (parent : option ObjectName) : TeoDBResult DdlPlan :=
  Ok (PlanShowTables (object_name_to_string <$> parent)).
Definition parse_show_columns (parent : option ObjectName) : TeoDBResult DdlPlan :=
  table_name ← ok_or parent (InvalidArgument "sql" "SHOW COLUMNS requires FROM <table>");
  '(ns, tbl) ← resolve_table_name table_name; Ok (PlanShowColumns ns tbl).
Definition parse_explain_table (name : ObjectName) : TeoDBResult DdlPlan :=
  '(ns, tbl) ← resolve_table_name name; Ok (PlanDescribeTable ns tbl).

Inductive SqlStatement := SqlDdl (plan : DdlPlan) | SqlQuery (sql : string).
(** [parsed]: what the parser returned for [sql]. *)
Definition classify_sql (parsed : result string (list Statement)) (sql : string) : TeoDBResult SqlStatement :=
  match parsed with
  | Err _ => Err (InvalidArgument "sql" "SQL parse error: {e}")
  | Ok [] => Err (InvalidArgument "sql" "empty SQL statement")
  | Ok [stmt] =>
      match stmt with
      | StCreateTable ct => SqlDdl <$> parse_create_table ct
      | StCreateSchema _ _ | StCreateDatabase _ _ => SqlDdl <$> parse_create_schema stmt
      | StDrop object_type names if_exists purge => SqlDdl <$> parse_drop object_type names if_exists purge
      | StShowTables parent => SqlDdl <$> parse_show_tables parent
      | StShowColumns parent => SqlDdl <$> parse_show_columns parent
      | StExplainTable name => SqlDdl <$> parse_explain_table name
      | StOther => Ok (SqlQuery sql)
      end
  | Ok (_ :: _ :: _) => Err (InvalidArgument "sql" "only single statements are supported")
  end.

(** ** Partition specs *)
Definition to_domain (t : PartitionTransformDef) : PartitionTransform :=
  match t with
  | DIdentity => Identity | DYear => Year | DMonth => Month | DDay => Day | DHour => Hour
  | DBucket n => Bucket n | DTruncate w => Truncate w
  end.
Definition default_field_name (t : PartitionTransformDef) (column_name : string) : string :=
  match t with
  | DIdentity => column_name
  | DYear => column_name +:+ "_year"
  | DMonth => column_name +:+ "_month"
  | DDay => column_name +:+ "_day"
  | DHour => column_name +:+ "_hour"
  | DBucket n => column_name +:+ "_bucket_" +:+ pretty n
  | DTruncate w => column_name +:+ "_trunc_" +:+ pretty w
  end.
Definition build_partition_field (schema : SchemaDefinition) (field : PartitionFieldDef) : TeoDBResult (UnboundPartitionField PartitionTransform) :=
  column ← ok_or (by_name schema (fd_column_name field)) (partition_error "partition column '{}' not found in table schema");
  Ok (mkUnboundPartitionField (cm_id column) None (default_field_name (fd_transform field) (fd_column_name field)) (to_domain (fd_transform field))).
Definition build_partition_spec (schema : SchemaDefinition) (fields : list PartitionFieldDef) : TeoDBResult (UnboundPartitionSpec PartitionTransform) :=
  fields ← mapM_res (build_partition_field schema) fields;
  Ok (mkUnboundPartitionSpec (Some 0%Z) fields).

(** ** The REST vocabulary *)
Definition data_type_keywords : list (list string * TeoDataType) :=
  [(["boolean"; "bool"], TBoolean); (["int8"; "tinyint"], TInt8); (["int16"; "smallint"], TInt16);
   (["int32"; "int"; "integer"], TInt32); (["int64"; "bigint"; "long"], TInt64); (["uint8"], TUInt8); (["uint16"], TUInt16);
   (["uint32"], TUInt32); (["uint64"], TUInt64); (["float32"; "float"], TFloat32); (["float64"; "double"], TFloat64);
   (["date"; "date32"], TDate32); (["timestamp"], TTimestampMicros (Some "UTC")); (["time"], TTime64Micros);
   (["string"; "utf8"; "text"; "varchar"], TUtf8); (["binary"; "bytes"], TBinary)].
Definition data_type_from_keyword (s : string) : TeoDBResult TeoDataType :=
  ok_or (snd ∘ snd <$> list_find (λ e, str_lower s ∈ fst e) data_type_keywords)
    (InvalidArgument "data_type" "unsupported data type: '{other}'").
Definition parse_transform (s : string) : TeoDBResult PartitionTransformDef :=
  let s := str_lower (str_trim s) in
  match codec_argument "bucket" s with
  | Some inner => n ← ok_or (parse_unsigned u32_max (str_trim inner)) (InvalidArgument "transform" "invalid bucket count: '{inner}'"); Ok (DBucket n)
  | None =>
      match codec_argument "truncate" s with
      | Some inner => w ← ok_or (parse_unsigned u32_max (str_trim inner)) (InvalidArgument "transform" "invalid truncate width: '{inner}'"); Ok (DTruncate w)
      | None => ok_or (simple_transform s) (InvalidArgument "transform" "unsupported partition transform: '{other}'")
      end
  end.
Definition partition_field_specs (fields : list (string * string)) : TeoDBResult (list PartitionFieldDef) :=
  mapM_res (λ '(column, transform), parsed ← parse_transform transform; Ok (mkFieldDef column parsed)) fields.
