(* ===== verification/Pruning.v ===== *)
(** * File pruning by partition values and by statistics

    Models [teodb-query/src/pruning/partition.rs] and [statistics.rs].
    DataFusion and Arrow are interfaces: expressions, their compilation and
    evaluation, scalars' types and order, and the pruning predicate.  The laws
    state what DataFusion documents of them.  A row is a valuation of column
    names; a filter has a three-valued truth value on a row. *)

From S2P Require Import Prelude Core Decimal DataFiles Schema WalReplay.
Open Scope nat_scope.
Open Scope list_scope.

(** ** DataFusion *)
Abbreviation Row := (string → ScalarValue).
Abbreviation DFError := string.

(** What [PhysicalExpr::evaluate] returns. *)
Inductive ColumnarValue :=
| CvBooleanArray (values : list (option bool))
| CvOtherArray
| CvScalar (v : ScalarValue).

(** [PruningStatistics]: one entry per container; [None] when a column has none. *)
Record PruningStatistics := mkPruningStatistics {
  min_values : string → option (list ScalarValue);
  max_values : string → option (list ScalarValue);
  num_containers : nat;
  null_counts : string → option (list (option N));
  row_counts : option (list (option N));
  contained : string → list ScalarValue → option (list (option bool));
}.

Class DataFusion := {
  Expr : Type;
  PhysicalExpr : Type;
  RecordBatch : Type;
  PruningPredicate : Type;
  sv_data_type : ScalarValue → ArrowType;
  sv_is_null : ScalarValue → bool;
  (** [ScalarValue::try_from(&DataType)]. *)
  sv_try_from : ArrowType → option ScalarValue;
  (** [a <= b] of [PartialOrd]. *)
  sv_le : ScalarValue → ScalarValue → bool;
  iter_to_array : list ScalarValue → option (list ScalarValue);
  (** The columns met by [TreeNode::apply]. *)
  expr_columns : Expr → list string;
  expr_and : Expr → Expr → Expr;
  (** [ScalarValue::to_array_of_size(1)]. *)
  to_array : ScalarValue → result DFError unit;
  dfschema_try_from : ArrowSchema → result DFError unit;
  create_physical_expr : Expr → ArrowSchema → option PhysicalExpr;
  record_batch_try_new : ArrowSchema → list ScalarValue → result DFError RecordBatch;
  evaluate : PhysicalExpr → RecordBatch → result DFError ColumnarValue;
  pruning_predicate_try_new : PhysicalExpr → ArrowSchema → option PruningPredicate;
  prune : PruningPredicate → PruningStatistics → result DFError (list bool);
}.

Section pruning.
Context `{DataFusion}.

(** ** Partition pruning *)
Definition extract_filter_columns (f : Expr) : list string :=
  let names := stable_sort str_leb (expr_columns f) in remove_dups names.

Definition is_identity (f : PartitionField) : bool := bool_decide (pf_transform f = Identity).

(** A filter all of whose columns are identity partition columns. *)
Definition usable_filter (identity_field_ids : list FieldId) (table_schema : ArrowSchema) (f : Expr) : bool :=
  let cols := extract_filter_columns f in
  negb (bool_decide (cols = [])) &&
  forallb (λ name, match field_with_name table_schema name ≫= field_id_from_arrow_field with
                   | Some id => bool_decide (id ∈ identity_field_ids)
                   | None => false end) cols.

Definition with_nullable (f : ArrowField) (b : bool) : ArrowField :=
  mkArrowField (af_name f) (af_data_type f) b (af_metadata f).

(** The evaluated columns, each with the partition field its value is stored under. *)
Definition partition_columns (spec : PartitionSpec) (table_schema : ArrowSchema) : list (ArrowField * FieldId) :=
  omap (λ sf,
    if is_identity sf then
      (λ x, (with_nullable x.2 true, pf_field_id sf))
        <$> list_find (λ f, field_id_from_arrow_field f = Some (pf_source_id sf)) table_schema
    else None) (ps_fields spec).

(** The value the evaluation sees for one column; [None] when the type has no null. *)
Definition partition_scalar (file : DataFile) (field : ArrowField) (value_field_id : FieldId) : option ScalarValue :=
  let value := match df_partition_values file !! value_field_id with
               | Some s => match teo_scalar_to_scalar_value s with
                           | Ok v => if bool_decide (sv_data_type v = af_data_type field) then Some v else None
                           | Err _ => None end
               | None => None end in
  match value with
  | Some v => Some v
  | None => sv_try_from (af_data_type field)
  end.

Definition definite_false (r : ColumnarValue) : bool :=
  match r with
  | CvBooleanArray (Some false :: _) => true
  | _ => false
  end.

(** The loop over the compiled filters: [false] when one of them is false for sure. *)
Fixpoint none_false (filters : list PhysicalExpr) (batch : RecordBatch) : result DFError bool :=
  match filters with
  | [] => Ok true
  | e :: filters =>
      r ← evaluate e batch;
      if definite_false r then Ok false else none_false filters batch
  end.

(** The one-row batch's columns; [Ok None] when a type has no null and the file is kept. *)
Fixpoint batch_columns (file : DataFile) (columns : list (ArrowField * FieldId)) :
    result DFError (option (list ScalarValue)) :=
  match columns with
  | [] => Ok (Some [])
  | (field, value_field_id) :: columns =>
      match partition_scalar file field value_field_id with
      | None => Ok None
      | Some v =>
          _ ← to_array v;
          rest ← batch_columns file columns;
          Ok (option_map (cons v) rest)
      end
  end.

Definition should_keep_file (file : DataFile) (compiled_filters : list PhysicalExpr)
    (columns : list (ArrowField * FieldId)) : result DFError bool :=
  scalars ← batch_columns file columns;
  match scalars with
  | None => Ok true
  | Some scalars =>
      batch ← record_batch_try_new columns.*1 scalars;
      none_false compiled_filters batch
  end.

(** The loop over the files. *)
Fixpoint keep_files (files : list DataFile) (spec : PartitionSpec) (compiled : list PhysicalExpr)
    (columns : list (ArrowField * FieldId)) : result DFError (list DataFile) :=
  match files with
  | [] => Ok []
  | file :: files =>
      keep ← (if bool_decide (df_partition_spec_id file = ps_spec_id spec)
              then should_keep_file file compiled columns else Ok true);
      kept ← keep_files files spec compiled columns;
      Ok (if keep : bool then file :: kept else kept)
  end.

Definition partition_prune (files : list DataFile) (filters : list Expr) (spec : PartitionSpec)
    (table_schema : ArrowSchema) : result DFError (list DataFile) :=
  if bool_decide (ps_fields spec = []) || (length filters =? 0) then Ok files else
  let identity_field_ids := map pf_source_id (List.filter is_identity (ps_fields spec)) in
  if bool_decide (identity_field_ids = []) then Ok files else
  let usable_filters := List.filter (usable_filter identity_field_ids table_schema) filters in
  if length usable_filters =? 0 then Ok files else
  let columns := partition_columns spec table_schema in
  if length columns =? 0 then Ok files else
  _ ← dfschema_try_from columns.*1;
  let compiled := omap (λ f, create_physical_expr f columns.*1) usable_filters in
  if length compiled =? 0 then Ok files else
  keep_files files spec compiled columns.

(** ** Statistics pruning *)
Definition resolve_field_id (schema : ArrowSchema) (column : string) : option FieldId :=
  field_with_name schema column ≫= field_id_from_arrow_field.

(** A bound of a file as a DataFusion scalar. *)
Definition scalar_bound (bounds : gmap FieldId TeoScalar) (id : FieldId) : option ScalarValue :=
  match bounds !! id with
  | Some s => match teo_scalar_to_scalar_value s with Ok v => Some v | Err _ => None end
  | None => None
  end.

Definition bound_values (bounds : DataFile → gmap FieldId TeoScalar) (files : list DataFile)
    (schema : ArrowSchema) (column : string) : option (list ScalarValue) :=
  field_id ← resolve_field_id schema column;
  field ← field_with_name schema column;
  iter_to_array (map (λ f, match scalar_bound (bounds f) field_id with
                           | Some v => v
                           | None => default VNull (sv_try_from (af_data_type field)) end) files).

Definition file_null_counts (files : list DataFile) (schema : ArrowSchema) (column : string) :
    option (list (option N)) :=
  field_id ← resolve_field_id schema column;
  Some (map (λ f, Some (default 0%N (df_null_value_counts f !! field_id))) files).

Definition file_row_counts (files : list DataFile) : option (list (option N)) :=
  Some (map (λ f, Some (df_record_count f)) files).

(** Whether some of the values lies between the file's bounds; true without bounds. *)
Definition might_contain (f : DataFile) (field_id : FieldId) (values : list ScalarValue) : bool :=
  match scalar_bound (df_lower_bounds f) field_id, scalar_bound (df_upper_bounds f) field_id with
  | Some lo, Some hi => existsb (λ v, sv_le lo v && sv_le v hi) values
  | _, _ => true
  end.

Definition file_contained (files : list DataFile) (schema : ArrowSchema) (column : string)
    (values : list ScalarValue) : option (list (option bool)) :=
  field_id ← resolve_field_id schema column;
  Some (map (λ f, Some (might_contain f field_id values)) files).

Definition FileSetStatistics (files : list DataFile) (schema : ArrowSchema) : PruningStatistics :=
  {| min_values := bound_values df_lower_bounds files schema;
     max_values := bound_values df_upper_bounds files schema;
     num_containers := length files;
     null_counts := file_null_counts files schema;
     row_counts := file_row_counts files;
     contained := file_contained files schema |}.

(** [filters.reduce(and)]. *)
Definition combine_filters (filters : list Expr) : option Expr :=
  match filters with
  | [] => None
  | f :: filters => Some (foldl expr_and f filters)
  end.

Definition statistics_prune (files : list DataFile) (filters : list Expr) (schema : ArrowSchema) :
    result DFError (list DataFile) :=
  if (length files =? 0) || (length filters =? 0) then Ok files else
  match combine_filters filters with
  | None => Ok files
  | Some combined =>
      _ ← dfschema_try_from schema;
      match create_physical_expr combined schema with
      | None => Ok files
      | Some physical =>
          match pruning_predicate_try_new physical schema with
          | None => Ok files
          | Some predicate =>
              keep_mask ← prune predicate (FileSetStatistics files schema);
              Ok (map fst (List.filter snd (zip files keep_mask)))
          end
      end
  end.

(** [TeoTableProvider::prune_files]: partitions first, then statistics. *)
Definition prune_files (files : list DataFile) (filters : list Expr) (spec : PartitionSpec)
    (schema : ArrowSchema) : result DFError (list DataFile) :=
  partitioned ← partition_prune files filters spec schema;
  statistics_prune partitioned filters schema.
End pruning.
