(* ===== verification/PruningSpec.v ===== *)
(** * Pruning never loses a matching row

    What DataFusion promises, when a file's metadata is truthful about its rows,
    and the soundness of the two pruning passes under it.  The last section
    evaluates the passes on an expression language of comparisons and shows
    where the adapters do not honour what DataFusion asks of them. *)

From S2P Require Import Prelude Core Decimal DataFiles Schema WalReplay Location Pruning.
Open Scope nat_scope.
Open Scope list_scope.

(** What the documentation of [PruningStatistics] asks of an implementation, for containers
    with the given rows.  [exact] asks for the clause on [contained] being true as well,
    which only predicates with a not-in guarantee rely on. *)
Record stats_contract `{DataFusion} (exact : bool) (st : PruningStatistics) (containers : list (list Row)) : Prop := {
  sc_len : length containers = num_containers st;
  sc_min c arr i v rows ρ : min_values st c = Some arr → arr !! i = Some v → sv_is_null v = false →
    containers !! i = Some rows → ρ ∈ rows → sv_is_null (ρ c) = false → sv_le v (ρ c) = true;
  sc_max c arr i v rows ρ : max_values st c = Some arr → arr !! i = Some v → sv_is_null v = false →
    containers !! i = Some rows → ρ ∈ rows → sv_is_null (ρ c) = false → sv_le (ρ c) v = true;
  sc_nulls c arr i n rows : null_counts st c = Some arr → arr !! i = Some (Some n) →
    containers !! i = Some rows → n = N.of_nat (length (List.filter (λ ρ, sv_is_null (ρ c)) rows));
  sc_rows arr i n rows : row_counts st = Some arr → arr !! i = Some (Some n) →
    containers !! i = Some rows → n = N.of_nat (length rows);
  sc_contained_false c vs arr i rows ρ : contained st c vs = Some arr → arr !! i = Some (Some false) →
    containers !! i = Some rows → ρ ∈ rows → sv_is_null (ρ c) = false → ρ c ∉ vs;
  sc_contained_true c vs arr i rows ρ : exact = true → contained st c vs = Some arr →
    arr !! i = Some (Some true) →
    containers !! i = Some rows → ρ ∈ rows → sv_is_null (ρ c) = false → ρ c ∈ vs;
}.

(** Documented behaviour of DataFusion.  [holds f ρ] is the value of the filter on a row;
    [not_in f] whether the predicate built from [f] has a not-in guarantee. *)
Class DataFusionLaws `{DataFusion} (holds : Expr → Row → option bool) (not_in : Expr → bool) : Prop := {
  law_null_type : sv_data_type VNull = ANull;
  law_null_of_null : sv_try_from ANull = Some VNull;
  law_null_null : sv_is_null VNull = true;
  law_typed_null dt v : sv_try_from dt = Some v → sv_is_null v = true;
  law_iter_to_array l arr : iter_to_array l = Some arr → arr = l;
  law_and a b ρ : holds (expr_and a b) ρ = Some true ↔ holds a ρ = Some true ∧ holds b ρ = Some true;
  law_evaluate f fields e scalars b v rest ρ :
    create_physical_expr f fields = Some e → record_batch_try_new fields scalars = Ok b →
    evaluate e b = Ok (CvBooleanArray (v :: rest)) →
    (∀ i fd s, fields !! i = Some fd → scalars !! i = Some s → ρ (af_name fd) = s) → holds f ρ = v;
  law_prune f schema e p st mask :
    create_physical_expr f schema = Some e → pruning_predicate_try_new e schema = Some p →
    prune p st = Ok mask →
    length mask = num_containers st ∧
    ∀ containers i rows ρ, stats_contract (not_in f) st containers → mask !! i = Some false →
      containers !! i = Some rows → ρ ∈ rows → holds f ρ ≠ Some true;
}.

(** ** Truthful files *)
Section truth.
Context `{DataFusion}.

(** The file's partition values are those of the row: for an identity field over a column,
    the stored value is the row's value in the column's type, or nothing (or null) when the
    row's value is null. *)
Definition identity_partitioned (spec : PartitionSpec) (schema : ArrowSchema) (f : DataFile) (ρ : Row) : Prop :=
  ∀ sf i fd, sf ∈ ps_fields spec → pf_transform sf = Identity →
    list_find (λ g, field_id_from_arrow_field g = Some (pf_source_id sf)) schema = Some (i, fd) →
    match df_partition_values f !! pf_field_id sf with
    | None | Some SNull => sv_try_from (af_data_type fd) = Some (ρ (af_name fd))
    | Some s => teo_scalar_to_scalar_value s = Ok (ρ (af_name fd)) ∧
                sv_data_type (ρ (af_name fd)) = af_data_type fd
    end.

(** The file's statistics are those of its rows: bounds that bound, counts that count, a
    null count for every column. *)
Record stats_truthful (schema : ArrowSchema) (f : DataFile) (rows : list Row) : Prop := {
  st_lower c id lo ρ : resolve_field_id schema c = Some id → scalar_bound (df_lower_bounds f) id = Some lo →
    ρ ∈ rows → sv_is_null lo = false → sv_is_null (ρ c) = false → sv_le lo (ρ c) = true;
  st_upper c id hi ρ : resolve_field_id schema c = Some id → scalar_bound (df_upper_bounds f) id = Some hi →
    ρ ∈ rows → sv_is_null hi = false → sv_is_null (ρ c) = false → sv_le (ρ c) hi = true;
  st_bounds_values c id : resolve_field_id schema c = Some id →
    (∀ lo, scalar_bound (df_lower_bounds f) id = Some lo → sv_is_null lo = false) ∧
    (∀ hi, scalar_bound (df_upper_bounds f) id = Some hi → sv_is_null hi = false);
  st_nulls c id : resolve_field_id schema c = Some id →
    df_null_value_counts f !! id = Some (N.of_nat (length (List.filter (λ ρ, sv_is_null (ρ c)) rows)));
  st_rows : df_record_count f = N.of_nat (length rows);
}.
End truth.

Section sound.
Context `{DataFusionLaws}.

(** ** Partition pruning *)
Lemma partition_scalar_row spec schema f ρ fd id v :
  identity_partitioned spec schema f ρ → (fd, id) ∈ partition_columns spec schema →
  partition_scalar f fd id = Some v → ρ (af_name fd) = v.
Proof.
  intros Hip (sf & Hsf & Hc)%list_elem_of_omap Hv. unfold is_identity in Hc.
  case_bool_decide as Hid; [|done]. apply fmap_Some in Hc as ([i fd0] & Hfind & [= -> ->]).
  specialize (Hip sf i fd0 Hsf Hid Hfind). unfold partition_scalar in Hv.
  cbn [with_nullable af_data_type af_name snd] in Hv |- *.
  destruct (df_partition_values f !! pf_field_id sf) as [s|]; [|naive_solver].
  destruct (decide (s = SNull)) as [->|Hs].
  - simpl in Hv. rewrite law_null_type in Hv. case_bool_decide as Ht; [|congruence].
    rewrite <-Ht, law_null_of_null in Hip. congruence.
  - assert (teo_scalar_to_scalar_value s = Ok (ρ (af_name fd0)) ∧
            sv_data_type (ρ (af_name fd0)) = af_data_type fd0) as [Hs1 Hs2] by (by destruct s).
    rewrite Hs1, bool_decide_true in Hv by done. congruence.
Qed.

Lemma batch_columns_rows f columns scalars :
  batch_columns f columns = Ok (Some scalars) →
  ∀ i fd id, columns !! i = Some (fd, id) → ∃ v, scalars !! i = Some v ∧ partition_scalar f fd id = Some v.
Proof.
  revert scalars. induction columns as [|[fd0 id0] columns IH]; intros scalars; simpl; [done|].
  destruct (partition_scalar f fd0 id0) as [v|] eqn:Hv; [|done].
  intros (_ & _ & (rest & Hrest & [= Heq])%bind_Ok)%bind_Ok.
  destruct rest as [vs|]; [|done]. injection Heq as <-.
  intros [|i] fd id; simpl; [intros [= <- <-]; eauto|].
  by apply IH.
Qed.

Lemma none_false_false filters batch :
  none_false filters batch = Ok false →
  ∃ e rest, e ∈ filters ∧ evaluate e batch = Ok (CvBooleanArray (Some false :: rest)).
Proof.
  induction filters as [|e filters IH]; simpl; [done|].
  intros (r & Hr & Hn)%bind_Ok. destruct (definite_false r) eqn:Hd.
  - destruct r as [[|[[]|] rest]| |]; try done. exists e, rest. split; [by left|done].
  - destruct (IH Hn) as (e' & rest & ? & ?). exists e', rest. split; [by right|done].
Qed.

Lemma should_keep_file_sound spec schema f ρ filters :
  identity_partitioned spec schema f ρ → (∀ e, e ∈ filters → holds e ρ = Some true) →
  should_keep_file f (omap (λ e, create_physical_expr e (partition_columns spec schema).*1) filters)
    (partition_columns spec schema) ≠ Ok false.
Proof.
  intros Hip Hall (scalars & Hsc & Hk)%bind_Ok. destruct scalars as [scalars|]; [|done].
  apply bind_Ok in Hk as (b & Hb & Hk). destruct (none_false_false _ _ Hk) as (e & rest & He & Hev).
  apply list_elem_of_omap in He as (flt & Hin & Hcomp).
  assert (holds flt ρ = Some false) as Hf; [|by rewrite Hall in Hf].
  eapply law_evaluate; [done..|]. intros i fd s Hfd Hs.
  rewrite list_lookup_fmap in Hfd. apply fmap_Some in Hfd as ([fd' id] & Hcol & ->).
  destruct (batch_columns_rows _ _ _ Hsc i fd' id Hcol) as (v & Hv & Hps).
  pose proof (partition_scalar_row spec schema f ρ fd' id v Hip ltac:(by eapply list_elem_of_lookup_2) Hps).
  simpl in *. congruence.
Qed.

Lemma keep_files_elem files spec compiled columns kept f :
  keep_files files spec compiled columns = Ok kept → f ∈ files →
  (df_partition_spec_id f = ps_spec_id spec → should_keep_file f compiled columns ≠ Ok false) → f ∈ kept.
Proof.
  intros Hk Hin Hok. revert kept Hk. induction files as [|g files IH]; intros kept; [by apply elem_of_nil in Hin|].
  simpl. intros (keep & Hkeep & (kept' & Hk & [= <-])%bind_Ok)%bind_Ok.
  apply elem_of_cons in Hin as [->|Hin].
  - destruct keep; [by left|]. case_bool_decide as Hs; [|done]. by destruct (Hok Hs).
  - specialize (IH Hin kept' Hk). destruct keep; [by right|done].
Qed.

Lemma partition_prune_keeps files filters spec schema kept f ρ :
  partition_prune files filters spec schema = Ok kept → f ∈ files →
  (df_partition_spec_id f = ps_spec_id spec → identity_partitioned spec schema f ρ) →
  (∀ e, e ∈ filters → holds e ρ = Some true) → f ∈ kept.
Proof.
  intros Hp Hin Hip Hall. unfold partition_prune in Hp.
  repeat match goal with H : (if ?b then Ok _ else _) = Ok _ |- _ => destruct b; [congruence|] end.
  apply bind_Ok in Hp as (_ & _ & Hp). destruct (_ =? 0); [congruence|].
  eapply keep_files_elem; [exact Hp|done|]. intros Hs. apply should_keep_file_sound with ρ; [by apply Hip|].
  intros e He. apply Hall. apply list_elem_of_In, filter_In in He as [He _]. by apply list_elem_of_In.
Qed.

Lemma partition_prune_sublist files filters spec schema kept :
  partition_prune files filters spec schema = Ok kept → sublist kept files.
Proof.
  intros Hp. unfold partition_prune in Hp.
  repeat match goal with H : (if ?b then Ok _ else _) = Ok _ |- _ => destruct b; [by simplify_eq|] end.
  apply bind_Ok in Hp as (_ & _ & Hp). destruct (_ =? 0); [by simplify_eq|]. clear -Hp.
  revert kept Hp. induction files as [|g files IH]; intros kept; simpl; [by intros [= <-]|].
  intros (keep & _ & (kept' & Hk & [= <-])%bind_Ok)%bind_Ok. specialize (IH kept' Hk).
  destruct keep; by constructor.
Qed.

(** ** Statistics pruning *)
Lemma lookup_map_files {A} (g : DataFile → A) files i y :
  map g files !! i = Some y → ∃ f, files !! i = Some f ∧ y = g f.
Proof. intros Hi. change (map g files) with (g <$> files) in Hi. 
  apply list_lookup_fmap_Some_1 in Hi. naive_solver. Qed.

Lemma file_set_contract schema (rows : DataFile → list Row) files :
  Forall (λ f, stats_truthful schema f (rows f)) files →
  stats_contract false (FileSetStatistics files schema) (map rows files).
Proof.
  rewrite Forall_forall. intros Ht.
  assert (∀ i f rs, files !! i = Some f → map rows files !! i = Some rs →
            stats_truthful schema f (rows f) ∧ rs = rows f) as Hrow.
  { intros i f rs Hf (f' & ? & ->)%lookup_map_files. simplify_eq. split; [|done].
    apply Ht. by eapply list_elem_of_lookup_2. }
  constructor; cbn [FileSetStatistics min_values max_values null_counts row_counts contained num_containers].
  - by rewrite length_map.
  - intros c arr i v rs ρ (id & Hid & (fd & Hfd & Harr%law_iter_to_array)%bind_Some)%bind_Some.
    subst arr. intros (f & Hf & ->)%lookup_map_files Hv Hrs Hρ Hn.
    destruct (Hrow i f rs Hf Hrs) as [Htf ->].
    destruct (scalar_bound _ _) as [lo|] eqn:Hb; [by eapply st_lower|].
    destruct (sv_try_from _) as [v|] eqn:Hd; simpl in Hv; [apply law_typed_null in Hd|rewrite law_null_null in Hv]; congruence.
  - intros c arr i v rs ρ (id & Hid & (fd & Hfd & Harr%law_iter_to_array)%bind_Some)%bind_Some.
    subst arr. intros (f & Hf & ->)%lookup_map_files Hv Hrs Hρ Hn.
    destruct (Hrow i f rs Hf Hrs) as [Htf ->].
    destruct (scalar_bound _ _) as [lo|] eqn:Hb; [by eapply st_upper|].
    destruct (sv_try_from _) as [v|] eqn:Hd; simpl in Hv; [apply law_typed_null in Hd|rewrite law_null_null in Hv]; congruence.
  - intros c arr i n rs (id & Hid & [= <-])%bind_Some (f & Hf & [= ->])%lookup_map_files Hrs.
    destruct (Hrow i f rs Hf Hrs) as [Htf ->]. by rewrite (st_nulls _ _ _ Htf c id Hid).
  - intros arr i n rs [= <-] (f & Hf & [= ->])%lookup_map_files Hrs.
    destruct (Hrow i f rs Hf Hrs) as [Htf ->]. by apply (st_rows _ _ _ Htf).
  - intros c vs arr i rs ρ (id & Hid & [= <-])%bind_Some (f & Hf & [= Hm])%lookup_map_files Hrs Hρ Hn Hin.
    destruct (Hrow i f rs Hf Hrs) as [Htf ->]. unfold might_contain in Hm.
    destruct (st_bounds_values _ _ _ Htf c id Hid) as [Hlo Hhi].
    destruct (scalar_bound (df_lower_bounds f) id) as [lo|] eqn:Hl; [|done].
    destruct (scalar_bound (df_upper_bounds f) id) as [hi|] eqn:Hh; [|done].
    assert (existsb (λ v, sv_le lo v && sv_le v hi) vs = true) as He; [|congruence].
    apply existsb_exists. exists (ρ c). split; [by apply list_elem_of_In|].
    rewrite (st_lower _ _ _ Htf c id lo ρ), (st_upper _ _ _ Htf c id hi ρ) by auto. done.
  - done.
Qed.

Lemma combine_filters_holds filters combined ρ :
  combine_filters filters = Some combined → (∀ e, e ∈ filters → holds e ρ = Some true) →
  holds combined ρ = Some true.
Proof.
  destruct filters as [|f filters]; [done|]. intros [= <-] Hall.
  assert (holds f ρ = Some true) as Hf by (apply Hall; by left).
  assert (∀ e, e ∈ filters → holds e ρ = Some true) as Hrest by (intros; apply Hall; by right).
  clear Hall. revert f Hf. induction filters as [|g filters IH]; intros f Hf; simpl; [done|].
  apply IH; [intros; apply Hrest; by right|]. apply law_and. split; [done|]. apply Hrest. by left.
Qed.

Lemma statistics_prune_keeps files filters schema kept rows f ρ :
  statistics_prune files filters schema = Ok kept → f ∈ files →
  Forall (λ f, stats_truthful schema f (rows f)) files →
  (∀ e, combine_filters filters = Some e → not_in e = false) →
  ρ ∈ rows f → (∀ e, e ∈ filters → holds e ρ = Some true) → f ∈ kept.
Proof.
  intros Hp Hin Ht Hni Hρ Hall. unfold statistics_prune in Hp. destruct (_ || _); [congruence|].
  destruct (combine_filters filters) as [combined|] eqn:Hc; [|congruence].
  apply bind_Ok in Hp as (_ & _ & Hp).
  destruct (create_physical_expr combined schema) as [e|] eqn:He; [|congruence].
  destruct (pruning_predicate_try_new e schema) as [p|] eqn:Hpp; [|congruence].
  apply bind_Ok in Hp as (mask & Hm & [= <-]).
  destruct (law_prune _ _ _ _ _ _ He Hpp Hm) as [Hlen Hsound]. rewrite Hni in Hsound by done.
  apply list_elem_of_lookup in Hin as (i & Hi).
  destruct (lookup_lt_is_Some_2 mask i) as [b Hb].
  { rewrite Hlen. by eapply lookup_lt_Some. }
  destruct b.
  - apply list_elem_of_In, in_map_iff. exists (f, true). split; [done|]. apply filter_In. split; [|done].
    apply list_elem_of_In. apply list_elem_of_lookup. exists i. by rewrite lookup_zip_with, Hi, Hb.
  - destruct (Hsound (map rows files) i (rows f) ρ); [by apply file_set_contract|done| |done|by eapply combine_filters_holds].
    change (map rows files) with (rows <$> files). by rewrite list_lookup_fmap, Hi.
Qed.

Lemma statistics_prune_sublist files filters schema kept :
  statistics_prune files filters schema = Ok kept → sublist kept files.
Proof.
  unfold statistics_prune. destruct (_ || _); [by intros [= <-]|].
  destruct (combine_filters filters) as [e|]; [|by intros [= <-]].
  intros (_ & _ & Hs)%bind_Ok. destruct (create_physical_expr e schema) as [pe|]; [|by simplify_eq].
  destruct (pruning_predicate_try_new pe schema) as [p|]; [|by simplify_eq].
  apply bind_Ok in Hs as (mask & _ & [= <-]). clear. revert mask.
  induction files as [|f files IH]; intros [|[] mask]; simpl; try apply sublist_nil_l; by constructor.
Qed.

(** Both passes: the files kept are a sublist of the snapshot's, with every file that has a
    matching row. *)
Lemma prune_files_spec files filters spec schema kept rows :
  prune_files files filters spec schema = Ok kept →
  Forall (λ f, stats_truthful schema f (rows f)) files →
  (∀ f ρ, f ∈ files → ρ ∈ rows f → df_partition_spec_id f = ps_spec_id spec → identity_partitioned spec schema f ρ) →
  (∀ e, combine_filters filters = Some e → not_in e = false) →
  sublist kept files ∧
  ∀ f ρ, f ∈ files → ρ ∈ rows f → (∀ e, e ∈ filters → holds e ρ = Some true) → f ∈ kept.
Proof.
  intros (part & Hp & Hs)%bind_Ok Hstats Hpart Hnot_in. pose proof (partition_prune_sublist _ _ _ _ _ Hp) as Hsub.
  split; [etransitivity; [by eapply statistics_prune_sublist|done]|].
  intros f ρ Hf Hρ Hall. eapply statistics_prune_keeps; [exact Hs| | |done..].
  - eapply partition_prune_keeps; [exact Hp|done| |done]. auto.
  - rewrite Forall_forall in Hstats |- *. intros g Hg. apply Hstats.
    eapply elem_of_submseteq; [exact Hg|]. by apply sublist_submseteq.
Qed.
End sound.

(** ** The scan's pruning *)
Section claims.
Context `{DataFusionLaws}.

(** C18. A scan never loses a matching row to pruning: when the file's partition values and
    statistics are truthful about its rows (values and bounds in the column's type, a null
    count for every column) and the filters carry no not-in guarantee, a file with a row on which every
    filter is true survives both passes; and only files of the snapshot survive. *)
Theorem prune_files_sound (files : list DataFile) (filters : list Expr) (spec : PartitionSpec)
    (schema : ArrowSchema) (kept : list DataFile) (rows : DataFile → list Row)
    (Hprune : prune_files files filters spec schema = Ok kept)
    (Hstats : Forall (λ f, stats_truthful schema f (rows f)) files)
    (Hpart : ∀ f ρ, f ∈ files → ρ ∈ rows f → df_partition_spec_id f = ps_spec_id spec →
               identity_partitioned spec schema f ρ)
    (Hnot_in : ∀ e, combine_filters filters = Some e → not_in e = false) :
  kept ⊆ files ∧
  ∀ f ρ, f ∈ files → ρ ∈ rows f → (∀ e, e ∈ filters → holds e ρ = Some true) → f ∈ kept.
Proof.
  destruct (prune_files_spec _ _ _ _ _ rows Hprune Hstats Hpart Hnot_in) as [Hsub Hkeep]. split; [|done].
  intros f Hf. eapply elem_of_submseteq; [exact Hf|]. by apply sublist_submseteq.
Qed.
End claims.

(** ** A concrete expression language

    Comparisons with literals over the scalar types, evaluated and pruned the way
    DataFusion documents: an equality is pruned where [contained] is false, an
    inequality where it is true, a null test where there is no null. *)
Inductive DemoExpr :=
| DIsNotNull (c : string) | DIsNull (c : string)
| DEq (c : string) (v : ScalarValue) | DNe (c : string) (v : ScalarValue)
| DAnd (a b : DemoExpr).

Definition demo_data_type (v : ScalarValue) : ArrowType :=
  match v with
  | VInt32 _ => AInt32 | VInt64 _ => AInt64 | VUtf8 _ => AUtf8 | VNull => ANull | _ => AOther 0
  end.
Definition demo_is_null (v : ScalarValue) : bool :=
  match v with VNull | VInt32 None | VInt64 None | VUtf8 None => true | _ => false end.
Definition demo_try_from (t : ArrowType) : option ScalarValue :=
  match t with
  | ANull => Some VNull | AInt32 => Some (VInt32 None) | AInt64 => Some (VInt64 None)
  | AUtf8 => Some (VUtf8 None) | _ => None
  end.
(** Scalars of different types are not comparable. *)
Definition demo_le (a b : ScalarValue) : bool :=
  match a, b with
  | VInt32 (Some x), VInt32 (Some y) | VInt64 (Some x), VInt64 (Some y) => (x <=? y)%Z
  | _, _ => false
  end.

Definition and3 (a b : option bool) : option bool :=
  match a, b with
  | Some false, _ | _, Some false => Some false
  | Some true, Some true => Some true
  | _, _ => None
  end.
Fixpoint demo_holds (e : DemoExpr) (ρ : Row) : option bool :=
  match e with
  | DIsNotNull c => Some (negb (demo_is_null (ρ c)))
  | DIsNull c => Some (demo_is_null (ρ c))
  | DEq c v => if demo_is_null (ρ c) then None else Some (bool_decide (ρ c = v))
  | DNe c v => if demo_is_null (ρ c) then None else Some (bool_decide (ρ c ≠ v))
  | DAnd a b => and3 (demo_holds a ρ) (demo_holds b ρ)
  end.
Fixpoint demo_columns (e : DemoExpr) : list string :=
  match e with
  | DIsNotNull c | DIsNull c | DEq c _ | DNe c _ => [c]
  | DAnd a b => demo_columns a ++ demo_columns b
  end.
Fixpoint demo_not_in (e : DemoExpr) : bool :=
  match e with DNe _ _ => true | DAnd a b => demo_not_in a || demo_not_in b | _ => false end.

Definition demo_row (b : list (string * ScalarValue)) : Row :=
  λ c, default VNull (snd ∘ snd <$> list_find (λ x, x.1 = c) b).
Fixpoint demo_keep (e : DemoExpr) (st : PruningStatistics) (i : nat) : bool :=
  match e with
  | DIsNotNull _ => true
  | DIsNull c => bool_decide ((null_counts st c ≫= lookup i) ≠ Some (Some 0%N))
  | DEq c v => bool_decide ((contained st c [v] ≫= lookup i) ≠ Some (Some false))
  | DNe c v => bool_decide ((contained st c [v] ≫= lookup i) ≠ Some (Some true))
  | DAnd a b => demo_keep a st i && demo_keep b st i
  end.

Definition demo_compile (e : DemoExpr) (s : ArrowSchema) : option DemoExpr :=
  if bool_decide (Forall (λ c, c ∈ map af_name s) (demo_columns e)) then Some e else None.

#[export] Instance demo_datafusion : DataFusion := {|
  Expr := DemoExpr; PhysicalExpr := DemoExpr; RecordBatch := list (string * ScalarValue);
  PruningPredicate := DemoExpr;
  sv_data_type := demo_data_type; sv_is_null := demo_is_null; sv_try_from := demo_try_from;
  sv_le := demo_le; iter_to_array l := Some l; expr_columns := demo_columns; expr_and := DAnd;
  to_array _ := Ok tt; dfschema_try_from _ := Ok tt;
  create_physical_expr := demo_compile;
  record_batch_try_new s vs := if length s =? length vs then Ok (zip (map af_name s) vs) else Err "columns";
  evaluate e b := Ok (CvBooleanArray [demo_holds e (demo_row b)]);
  pruning_predicate_try_new e _ := Some e;
  prune p st := Ok (map (demo_keep p st) (seq 0 (num_containers st)));
|}.

Lemma demo_holds_ext e ρ ρ' : (∀ c, c ∈ demo_columns e → ρ c = ρ' c) → demo_holds e ρ = demo_holds e ρ'.
Proof.
  induction e as [c|c|c v|c v|a IHa b IHb]; simpl; intros Heq; try (rewrite Heq by (by left); done).
  rewrite IHa, IHb; [done|..]; intros c Hc; apply Heq; set_solver.
Qed.

Lemma demo_row_spec (s : ArrowSchema) vs ρ c :
  length s = length vs →
  (∀ i fd v, s !! i = Some fd → vs !! i = Some v → ρ (af_name fd) = v) → c ∈ map af_name s →
  ρ c = demo_row (zip (map af_name s) vs) c.
Proof.
  revert vs. induction s as [|fd s IH]; intros [|v vs] Hlen Hag Hc; simpl in *; try done; [by apply elem_of_nil in Hc|].
  unfold demo_row. simpl. case_decide as Hn.
  - subst c. simpl. by apply (Hag 0 fd v).
  - apply elem_of_cons in Hc as [->|Hc]; [done|].
    rewrite (IH vs) by (try lia; try done; intros i; apply (Hag (S i))). unfold demo_row.
    by destruct (list_find _ (zip _ _)) as [[]|].
Qed.

Lemma contract_weaken st cs b : stats_contract b st cs → stats_contract false st cs.
Proof. intros []. by constructor. Qed.

Lemma and3_true a b : and3 a b = Some true ↔ a = Some true ∧ b = Some true.
Proof. destruct a as [[]|], b as [[]|]; naive_solver. Qed.

Lemma demo_keep_sound e st cs i rows ρ :
  stats_contract (demo_not_in e) st cs → demo_keep e st i = false → cs !! i = Some rows → ρ ∈ rows →
  demo_holds e ρ ≠ Some true.
Proof.
  induction e as [c|c|c v|c v|a IHa b IHb]; simpl; intros Hc Hk Hi Hρ Hh; [done|..].
  - apply bool_decide_eq_false, dec_stable, bind_Some in Hk as (arr & Ha & Hn).
    pose proof (sc_nulls _ _ _ Hc c arr i 0%N rows Ha Hn Hi) as Hlen.
    assert (ρ ∈ List.filter (λ ρ, demo_is_null (ρ c)) rows) as Hin.
    { apply list_elem_of_In, filter_In. split; [by apply list_elem_of_In|congruence]. }
    change (λ ρ, sv_is_null (ρ c)) with (λ ρ : Row, demo_is_null (ρ c)) in Hlen.
    destruct (List.filter _ rows); [by apply elem_of_nil in Hin|done].
  - apply bool_decide_eq_false, dec_stable, bind_Some in Hk as (arr & Ha & Hn).
    destruct (demo_is_null (ρ c)) eqn:Hnull; [done|]. injection Hh as Hv%bool_decide_eq_true. subst v.
    apply (sc_contained_false _ _ _ Hc c [ρ c] arr i rows ρ Ha Hn Hi Hρ Hnull). by left.
  - apply bool_decide_eq_false, dec_stable, bind_Some in Hk as (arr & Ha & Hn).
    destruct (demo_is_null (ρ c)) eqn:Hnull; [done|]. injection Hh as Hne%bool_decide_eq_true.
    pose proof (sc_contained_true _ _ _ Hc c [v] arr i rows ρ eq_refl Ha Hn Hi Hρ Hnull). set_solver.
  - apply and3_true in Hh as [Hha Hhb]. apply andb_false_iff in Hk as [Hk|Hk]; [apply IHa|apply IHb]; try done.
    all: destruct (demo_not_in _), (demo_not_in _); try done; by eapply contract_weaken.
Qed.

#[export] Instance demo_datafusion_laws : DataFusionLaws demo_holds demo_not_in.
Proof.
  constructor; try done.
  - intros [] v; simpl; intros; simplify_eq; done.
  - by intros l arr [= <-].
  - intros a b ρ. apply and3_true.
  - intros f fields e scalars b v rest ρ. simpl. unfold demo_compile. case_bool_decide as Hcols; [|done].
    intros [= <-]. destruct (Nat.eqb_spec (length fields) (length scalars)) as [Hlen|]; [|done].
    intros [= <-] [= <- <-] Hag. apply demo_holds_ext. intros c Hc. apply demo_row_spec; [done..|].
    rewrite Forall_forall in Hcols. auto.
  - intros f schema e p st mask. simpl. unfold demo_compile. case_bool_decide; [|done].
    intros [= <-] [= <-] [= <-]. split; [by rewrite length_map, length_seq|].
    intros cs i rows ρ Hc Hi. apply (demo_keep_sound f st cs i); [done|].
    change (map (demo_keep f st) ?l) with (demo_keep f st <$> l) in Hi. rewrite list_lookup_fmap in Hi.
    apply fmap_Some in Hi as (j & [-> _]%lookup_seq & ->). done.
Qed.

(** A table partitioned by the identity of [region], and a file of it. *)
Definition demo_column (id : FieldId) (name : string) (t : TeoDataType) : ColumnMeta :=
  mkColumnMeta id name t true None.
Definition demo_schema_def : SchemaDefinition :=
  mkSchemaDefinition 0 [demo_column 1 "id" TInt64; demo_column 2 "region" TInt64] [].
Definition demo_schema : ArrowSchema :=
  schema_to_arrow demo_schema_def.
Definition demo_spec : PartitionSpec := mkPartitionSpec 0 [mkPartitionField 2 1000 "region" Identity].
Definition demo_file (region : TeoScalar) (nulls : gmap FieldId N) (lo hi : gmap FieldId TeoScalar) : DataFile :=
  mkDataFile ContentData (mkObjectLocation S3 (Some "b") "t/data/f.parquet") FmtParquet 0 None 0
    {[ 1000%Z := region ]} 2 100 ∅ ∅ nulls ∅ lo hi [] [] None.
(** Two rows, with ids 5 and 7 of region 3. *)
Definition demo_row_of (id : Z) : Row :=
  λ c, if decide (c = "id") then VInt64 (Some id) else VInt64 (Some 3%Z).
Definition demo_rows : list Row := [demo_row_of 5; demo_row_of 7].

Definition no_nulls : gmap FieldId N := {[ 1%Z := 0%N; 2%Z := 0%N ]}.
Definition bounds (f : Z → TeoScalar) (x : Z) : gmap FieldId TeoScalar := {[ 1%Z := f x ]}.
Definition good_file : DataFile := demo_file (SInt64 3) no_nulls (bounds SInt64 5) (bounds SInt64 7).

Lemma demo_resolve c id :
  resolve_field_id demo_schema c = Some id → c = "id" ∧ id = 1%Z ∨ c = "region" ∧ id = 2%Z.
Proof.
  assert (Forall (λ c, (i32_min ≤ cm_id c ≤ i32_max)%Z) (sd_columns demo_schema_def)) as Hids.
  { repeat constructor; vm_compute; done. }
  unfold resolve_field_id, demo_schema. rewrite (proj1 (proj2 (schema_to_arrow_resolves _ Hids))).
  unfold by_name. simpl. repeat case_decide; simpl; intros [= <-]; auto.
Qed.

Lemma demo_truthful : stats_truthful demo_schema good_file demo_rows.
Proof.
  constructor.
  - intros c id lo ρ [[-> ->]|[-> ->]]%demo_resolve; vm_compute scalar_bound; intros [= <-] Hρ _ _.
    unfold demo_rows in Hρ. set_unfold in Hρ. by destruct_or! Hρ; subst ρ.
  - intros c id hi ρ [[-> ->]|[-> ->]]%demo_resolve; vm_compute scalar_bound; intros [= <-] Hρ _ _.
    unfold demo_rows in Hρ. set_unfold in Hρ. by destruct_or! Hρ; subst ρ.
  - intros c id [[-> ->]|[-> ->]]%demo_resolve; split; intros v; vm_compute scalar_bound; by intros [= <-].
  - by intros c id [[-> ->]|[-> ->]]%demo_resolve.
  - done.
Qed.

Lemma demo_partitioned region nulls lo hi ρ :
  region = SInt64 3 → ρ ∈ demo_rows → identity_partitioned demo_spec demo_schema (demo_file region nulls lo hi) ρ.
Proof.
  intros -> Hρ sf i fd ->%list_elem_of_singleton _ Hfind. vm_compute in Hfind. injection Hfind as <- <-.
  unfold demo_rows in Hρ. set_unfold in Hρ. by destruct_or! Hρ; subst ρ.
Qed.

(** The claim at a file that survives a filter on each column. *)
Lemma prune_files_sound_witness :
  prune_files [good_file] [DEq "region" (VInt64 (Some 3%Z)); DEq "id" (VInt64 (Some 7%Z))] demo_spec demo_schema
    = Ok [good_file] ∧ good_file ∈ [good_file].
Proof.
  assert (prune_files [good_file] [DEq "region" (VInt64 (Some 3%Z)); DEq "id" (VInt64 (Some 7%Z))] demo_spec
            demo_schema = Ok [good_file]) as Hp by (vm_compute; reflexivity).
  split; [exact Hp|].
  eapply (prune_files_sound _ _ _ _ _ (λ _, demo_rows) Hp) with (ρ := demo_row_of 7).
  - constructor; [exact demo_truthful|constructor].
  - intros f ρ ->%list_elem_of_singleton Hρ _. by apply demo_partitioned.
  - by intros e [= <-].
  - by left.
  - by right; left.
  - intros e He. set_unfold in He. by destruct_or! He; subst e.
Defined.

(** ** Where the adapters fall short *)

(** [contained] answers true for a file that may hold one of the values, where DataFusion
    asks whether it holds nothing else: [id <> 5] prunes a file with truthful statistics and
    a row of id 7. *)
Theorem not_equal_prunes_matching_file :
  stats_truthful demo_schema good_file demo_rows ∧ demo_row_of 7 ∈ demo_rows ∧
  demo_holds (DNe "id" (VInt64 (Some 5%Z))) (demo_row_of 7) = Some true ∧
  statistics_prune [good_file] [DNe "id" (VInt64 (Some 5%Z))] demo_schema = Ok [].
Proof.
  split; [exact demo_truthful|]. split; [by right; left|]. split; [done|]. vm_compute. reflexivity.
Qed.

(** A column without a recorded null count is reported as having no null: [id IS NULL]
    prunes a file whose null count is unknown and whose row is null. *)
Theorem unknown_null_count_prunes_matching_file :
  let file := demo_file (SInt64 3) ∅ ∅ ∅ in
  let ρ : Row := λ _, VInt64 None in
  df_null_value_counts file !! 1%Z = None ∧ demo_holds (DIsNull "id") ρ = Some true ∧
  statistics_prune [file] [DIsNull "id"] demo_schema = Ok [].
Proof. split_and!; [done|done|]. vm_compute. reflexivity. Qed.

(** A partition value or a bound of a narrower type than the column (as after a promotion of
    the column's type) is unreadable: the partition value is evaluated as null, which
    [region IS NOT NULL] answers with false, and the bounds compare with nothing, so
    [id = 5] prunes the file.  Both files hold a matching row. *)
Theorem promoted_values_prune_matching_file :
  partition_prune [demo_file (SInt32 3) no_nulls ∅ ∅] [DIsNotNull "region"] demo_spec demo_schema = Ok [] ∧
  demo_holds (DIsNotNull "region") (demo_row_of 5) = Some true ∧
  statistics_prune [demo_file (SInt64 3) no_nulls (bounds SInt32 5) (bounds SInt32 7)]
    [DEq "id" (VInt64 (Some 5%Z))] demo_schema = Ok [] ∧
  demo_holds (DEq "id" (VInt64 (Some 5%Z))) (demo_row_of 5) = Some true.
Proof. split_and!; vm_compute; reflexivity. Qed.
