(* ===== verification/QueryScan.v ===== *)
(** * Scans of a snapshot

    Models the table providers of [teodb-query/src/provider]: the scan of the
    catalog's current snapshot ([scan.rs]), the scan of a pinned descriptor
    ([pinned.rs], [teodb-core/src/scan_descriptor.rs]) and the plan they build
    ([scan_builder.rs]).  A plan is executed with a reader that yields the
    batches of a file; projections, which only drop columns, are left out.  The
    main theorem composes pruning and position deletes: a scan returns every
    live row of the snapshot that matches the filters. *)

From S2P Require Import Prelude Core Location DataFiles Schema WalReplay Pruning PruningSpec Sweep Deletes Selection Compaction.
Open Scope nat_scope.
Open Scope list_scope.

(** ** Plans *)
Inductive Branch :=
| ParquetScan (files : list DataFile) (limit : option nat)
| PositionDeleteFilterExec (file : DataFile) (positions : gset Z).
Inductive ScanPlan := EmptyExec | BranchExec (b : Branch) | UnionExec (branches : list Branch).

(** [SnapshotScanBuilder::build]. *)
Definition build (files : list DataFile) (delete_set : option PositionDeleteSet) (limit : option nat) : ScanPlan :=
  let '(clean_files, deleted_files) := split_by_deletes files delete_set in
  let branches :=
    (if bool_decide (clean_files = []) then [] else [ParquetScan clean_files limit])
    ++ map (λ fp, PositionDeleteFilterExec fp.1 fp.2) deleted_files in
  match branches with
  | [] => EmptyExec
  | [b] => BranchExec b
  | _ => UnionExec branches
  end.

(** ** The files of a snapshot *)
Definition EQUALITY_DELETES : DFError := "equality-delete files are not yet supported in TeoDB scans".
Definition has_equality_delete (delete_files : list DataFile) : bool :=
  existsb (λ f, bool_decide (df_content f = EqualityDelete)) delete_files.
Definition is_data (f : DataFile) : bool := bool_decide (df_content f = ContentData).

Record SnapshotFiles := mkSnapshotFiles { sf_data : list DataFile; sf_position_deletes : list DataFile }.
Definition snapshot_files (metadata : Metadata) : result DFError SnapshotFiles :=
  match tm_current_snapshot metadata with
  | None => Ok (mkSnapshotFiles [] [])
  | Some snapshot =>
      if has_equality_delete (sn_delete_files snapshot) then Err EQUALITY_DELETES
      else Ok (mkSnapshotFiles (List.filter is_data (sn_data_files snapshot)) (position_deletes (sn_delete_files snapshot)))
  end.

Record SnapshotScanDescriptor := mkSnapshotScanDescriptor {
  sd_table_uuid : Uuid; sd_namespace : string; sd_table_name : string; sd_table_location : ObjectLocation;
  sd_snapshot_id : SnapshotId; sd_schema : SchemaDefinition; sd_partition_spec : PartitionSpec;
  sd_sort_order : SortOrder; sd_data_files : list DataFile; sd_delete_files : list DataFile }.

Definition from_metadata (metadata : Metadata) (snapshot : Snapshot) : TeoDBResult SnapshotScanDescriptor :=
  schema ← current_schema metadata;
  partition_spec ← current_partition_spec metadata;
  sort_order ← current_sort_order metadata;
  Ok (mkSnapshotScanDescriptor (tm_table_uuid metadata) (tm_namespace metadata) (tm_table_name metadata)
        (tm_table_location metadata) (sn_snapshot_id snapshot) schema partition_spec sort_order
        (List.filter is_data (sn_data_files snapshot)) (sn_delete_files snapshot)).

(** The text of a TeoDB error as a DataFusion error. *)
Definition teodb_to_df (e : TeoDBError) : DFError := "{error}".

Section scan.
Context `{DataFusion} {Bytes : Type} (open_parquet : Bytes → result string (list (result string DeleteBatch))).

(** ** The scan of the current snapshot *)
Definition load_position_deletes (resolved : TeoDBResult ObjectPath) (get : ObjectPath → TeoDBResult Bytes)
    (files : list DataFile) : result DFError (option PositionDeleteSet) :=
  if bool_decide (files = []) then Ok None
  else
    base_path ← map_err teodb_to_df resolved;
    set ← map_err teodb_to_df (load open_parquet get files base_path);
    Ok (Some set).

Definition plan_scan (metadata : Metadata) (arrow_schema : ArrowSchema) (resolved : TeoDBResult ObjectPath)
    (get : ObjectPath → TeoDBResult Bytes) (filters : list Expr) (limit : option nat) : result DFError ScanPlan :=
  files ← snapshot_files metadata;
  spec ← map_err teodb_to_df (current_partition_spec metadata);
  pruned ← prune_files (sf_data files) filters spec arrow_schema;
  delete_set ← load_position_deletes resolved get (sf_position_deletes files);
  Ok (build pruned delete_set limit).

(** ** The scan of a pinned descriptor *)
Definition load_pinned_deletes (store : result DFError (ObjectPath → result string Bytes))
    (desc : SnapshotScanDescriptor) : result DFError (option PositionDeleteSet) :=
  let deletes := position_deletes (sd_delete_files desc) in
  if bool_decide (deletes = []) then Ok None
  else
    get ← store;
    set ← map_err teodb_to_df (load_from_object_store open_parquet get deletes);
    Ok (Some set).

Definition pinned_scan (store : result DFError (ObjectPath → result string Bytes)) (desc : SnapshotScanDescriptor)
    (filters : list Expr) (limit : option nat) : result DFError ScanPlan :=
  if has_equality_delete (sd_delete_files desc) then Err EQUALITY_DELETES
  else
    let arrow_schema := schema_to_arrow (sd_schema desc) in
    after_pp ← partition_prune (sd_data_files desc) filters (sd_partition_spec desc) arrow_schema;
    after_sp ← statistics_prune after_pp filters arrow_schema;
    if bool_decide (after_sp = []) then Ok (build [] None None)
    else
      delete_set ← load_pinned_deletes store desc;
      Ok (build after_sp delete_set limit).
End scan.

(** ** Execution *)
Section exec.
Context {R : Type} (filter_record_batch : list R → list bool → result string (list R)).
(** The batches the Parquet reader yields for a file. *)
Context (read : DataFile → list (list R)).

Definition file_rows (f : DataFile) : list R := concat (read f).

Definition exec_branch (b : Branch) : list R :=
  match b with
  | ParquetScan files None => flat_map file_rows files
  | ParquetScan files (Some limit) => take limit (flat_map file_rows files)
  | PositionDeleteFilterExec file positions =>
      stream_rows (delete_stream filter_record_batch positions 0 (map Ok (read file)))
  end.
Definition exec_plan (p : ScanPlan) : list R :=
  match p with
  | EmptyExec => []
  | BranchExec b => exec_branch b
  | UnionExec bs => flat_map exec_branch bs
  end.

(** The rows of a file that no position of the delete set names. *)
Definition visible_rows (positions : DataFile → gset Z) (f : DataFile) : list R :=
  live_rows (positions f) 0 (file_rows f).
Definition positions_of (delete_set : option PositionDeleteSet) (f : DataFile) : gset Z :=
  match delete_set with Some set => positions_for_file set (key (df_path f)) | None => ∅ end.

Context (filter_record_batch_spec :
  ∀ rows mask, length rows = length mask → filter_record_batch rows mask = Ok (mask_filter rows mask)).

Lemma live_rows_empty offset (l : list R) : live_rows ∅ offset l = l.
Proof using Type. revert offset. induction l as [|r l IH]; intros offset; simpl; [done|]. by rewrite IH. Qed.

Lemma exec_build files delete_set limit :
  ∃ clean deleted, files ≡ₚ clean ++ deleted ∧
    (∀ f, f ∈ clean → visible_rows (positions_of delete_set) f = file_rows f) ∧
    exec_plan (build files delete_set limit)
    = (match limit with None => λ l, l | Some n => take n end) (flat_map file_rows clean)
      ++ flat_map (visible_rows (positions_of delete_set)) deleted.
Proof.
  unfold build. destruct (split_by_deletes files delete_set) as [clean deleted] eqn:Hs.
  exists clean, deleted.*1.
  assert (files ≡ₚ clean ++ deleted.*1 ∧
    (∀ f, f ∈ clean → positions_of delete_set f = ∅) ∧
    (∀ f ps, (f, ps) ∈ deleted → ps = positions_of delete_set f)) as (Hperm & Hclean & Hdel).
  { destruct delete_set as [set|]; simpl in *.
    - destruct (split_by_deletes_spec _ _ _ _ Hs) as (Hp & Hc & Hd). split_and!; [done|done|].
      intros f ps Hin. by destruct (Hd f ps Hin).
    - simplify_eq. split_and!; [by rewrite app_nil_r|done|]. intros f ps []%elem_of_nil. }
  split; [done|]. split.
  { intros f Hf. unfold visible_rows. by rewrite (Hclean f Hf), live_rows_empty. }
  assert (flat_map exec_branch (map (λ fp, PositionDeleteFilterExec fp.1 fp.2) deleted)
          = flat_map (visible_rows (positions_of delete_set)) deleted.*1) as Hd.
  { clear -Hdel filter_record_batch_spec. induction deleted as [|[f ps] deleted IH]; simpl; [done|].
    rewrite IH by (intros; apply Hdel; by right). f_equal.
    rewrite (proj2 (delete_stream_rows filter_record_batch filter_record_batch_spec ps 0 (read f))).
    unfold visible_rows, file_rows. by rewrite (Hdel f ps) by (by left). }
  set (filtered := map _ deleted) in *.
  assert (∀ bs, exec_plan (match bs with [] => EmptyExec | [b] => BranchExec b | _ => UnionExec bs end)
                = flat_map exec_branch bs) as Hexec.
  { intros [|b [|b' bs]]; simpl; [done|by rewrite app_nil_r|done]. }
  rewrite Hexec, flat_map_app, Hd. f_equal. case_bool_decide as Hc; [subst clean|].
  - by destruct limit as [[]|].
  - simpl. rewrite app_nil_r. by destruct limit.
Qed.

(** Without a limit the plan yields the visible rows of its files. *)
Lemma exec_build_rows files delete_set :
  exec_plan (build files delete_set None) ≡ₚ flat_map (visible_rows (positions_of delete_set)) files.
Proof.
  destruct (exec_build files delete_set None) as (clean & deleted & Hp & Hclean & ->).
  rewrite Hp, flat_map_app. apply Permutation_app; [|done]. clear -Hclean.
  induction clean as [|f clean IH]; simpl; [done|].
  rewrite <-Hclean by (by left). apply Permutation_app; [done|]. apply IH. intros. apply Hclean. by right.
Qed.

(** With a limit it yields visible rows only, and enough of them. *)
Lemma exec_build_limit files delete_set limit :
  let visible := flat_map (visible_rows (positions_of delete_set)) files in
  exec_plan (build files delete_set (Some limit)) ⊆+ visible ∧
  Nat.min limit (length visible) ≤ length (exec_plan (build files delete_set (Some limit))).
Proof.
  cbn zeta. destruct (exec_build files delete_set (Some limit)) as (clean & deleted & Hp & Hclean & ->).
  assert (flat_map (visible_rows (positions_of delete_set)) files ≡ₚ
          flat_map file_rows clean ++ flat_map (visible_rows (positions_of delete_set)) deleted) as Hv.
  { rewrite Hp, flat_map_app. apply Permutation_app; [|done]. clear -Hclean.
    induction clean as [|f clean IH]; simpl; [done|].
    rewrite Hclean by (by left). apply Permutation_app; [done|]. apply IH. intros. apply Hclean. by right. }
  split.
  - rewrite Hv. apply submseteq_app; [|done]. apply sublist_submseteq, sublist_take.
  - rewrite Hv, !length_app, length_take. lia.
Qed.
End exec.

(** ** What a scan returns *)
Section claims.
Context `{DataFusionLaws} {Bytes : Type} (open_parquet : Bytes → result string (list (result string DeleteBatch))).
Context (read : DataFile → list (list Row)).

(** The filter DataFusion applies above the scan: rows on which every conjunct is true. *)
Definition matching (filters : list Expr) (ρ : Row) : bool :=
  forallb (λ e, bool_decide (holds e ρ = Some true)) filters.

Lemma matching_true filters ρ : matching filters ρ = true ↔ ∀ e, e ∈ filters → holds e ρ = Some true.
Proof.
  unfold matching. rewrite forallb_forall. setoid_rewrite <-list_elem_of_In.
  by setoid_rewrite bool_decide_eq_true.
Qed.

Lemma list_filter_perm {A} (P : A → bool) l k : l ≡ₚ k → List.filter P l ≡ₚ List.filter P k.
Proof.
  induction 1 as [|x l k _ IH|x y l|l1 l2 l3 _ IH1 _ IH2]; simpl; [done| |by repeat case_match; first [apply perm_swap|apply Permutation_refl]|by rewrite IH1].
  destruct (P x); by rewrite ?IH.
Qed.

Lemma filter_flat_map_sublist {A B} (P : B → bool) (g : A → list B) kept files :
  sublist kept files → NoDup files → (∀ f, f ∈ files → f ∉ kept → List.filter P (g f) = []) →
  List.filter P (flat_map g kept) = List.filter P (flat_map g files).
Proof.
  induction 1 as [|f kept files Hs IH|f kept files Hs IH]; intros Hnd Hnone; [done|..];
    inversion Hnd as [|? ? Hf Hnd']; subst; simpl; rewrite ?List.filter_app.
  - f_equal. apply IH; [done|]. intros x Hx Hk. apply Hnone; [by right|].
    intros [->|?]%elem_of_cons; done.
  - assert (f ∉ kept) as Hk by (intros Hk; apply Hf; eapply elem_of_submseteq; [exact Hk|by apply sublist_submseteq]).
    rewrite (Hnone f) by (done || by left). apply IH; [done|]. intros x Hx. apply Hnone. by right.
Qed.

Lemma live_rows_subseteq {R} (positions : gset Z) offset (l : list R) : live_rows positions offset l ⊆ l.
Proof.
  revert offset. induction l as [|r l IH]; intros offset; simpl; [done|].
  specialize (IH (offset + 1)%Z). case_bool_decide; set_solver.
Qed.

(** A pruned file has no visible row that matches. *)
Lemma pruned_no_match files filters spec schema kept D f :
  prune_files files filters spec schema = Ok kept →
  Forall (λ f, stats_truthful schema f (file_rows read f)) files →
  (∀ f ρ, f ∈ files → ρ ∈ file_rows read f → df_partition_spec_id f = ps_spec_id spec →
     identity_partitioned spec schema f ρ) →
  (∀ e, combine_filters filters = Some e → not_in e = false) →
  f ∈ files → f ∉ kept → List.filter (matching filters) (visible_rows read D f) = [].
Proof.
  intros Hp Hst Hpart Hni Hf Hk.
  destruct (prune_files_spec _ _ _ _ _ (file_rows read) Hp Hst Hpart Hni) as [_ Hkeep].
  destruct (List.filter (matching filters) (visible_rows read D f)) as [|ρ l] eqn:E; [done|].
  assert (ρ ∈ List.filter (matching filters) (visible_rows read D f)) as [Hin Hm]%list_elem_of_In%filter_In
    by (rewrite E; by left).
  destruct Hk. apply (Hkeep f ρ); [done| |by apply matching_true].
  apply list_elem_of_In in Hin. by apply live_rows_subseteq in Hin.
Qed.

Lemma visible_rows_ext (D D' : DataFile → gset Z) files :
  (∀ f pos, f ∈ files → pos ∈ D f ↔ pos ∈ D' f) →
  flat_map (visible_rows read D) files = flat_map (visible_rows read D') files.
Proof.
  induction files as [|f files IH]; intros HD; simpl; [done|].
  rewrite IH by (intros; apply HD; by right). f_equal. unfold visible_rows.
  by replace (D f) with (D' f) by (apply set_eq; intros pos; symmetry; apply HD; by left).
Qed.

(** The positions an executor loads for a file are those the delete files record. *)
Lemma pinned_positions get desc set f pos :
  load_pinned_deletes open_parquet (Ok get) desc = Ok set →
  pos ∈ positions_of set f ↔ deleted_at open_parquet get (sd_delete_files desc) f pos.
Proof.
  unfold load_pinned_deletes. case_bool_decide as Hn.
  - intros [= <-]. simpl. split; [set_solver|].
    intros (df & data & batches & b & path & Hdf & Hc & _).
    assert (df ∈ position_deletes (sd_delete_files desc)) as Hin.
    { apply list_elem_of_In, filter_In. split; [by apply list_elem_of_In|by apply bool_decide_eq_true]. }
    rewrite Hn in Hin. by apply elem_of_nil in Hin.
  - intros (get' & [= <-] & (s & Hl%map_err_Ok & [= <-])%bind_Ok)%bind_Ok. simpl.
    rewrite (loaded_positions _ _ _ _ f pos Hl). unfold deleted_at.
    assert (∀ df, df ∈ position_deletes (sd_delete_files desc) ↔
                  df ∈ sd_delete_files desc ∧ df_content df = PositionDelete) as Hpd.
    { intros df. unfold position_deletes. rewrite list_elem_of_In, filter_In, <-list_elem_of_In, bool_decide_eq_true. done. }
    setoid_rewrite Hpd. naive_solver.
Qed.

Context (filter_record_batch : list Row → list bool → result string (list Row)).
Context (filter_record_batch_spec :
  ∀ rows mask, length rows = length mask → filter_record_batch rows mask = Ok (mask_filter rows mask)).

Abbreviation run := (exec_plan filter_record_batch read).

(** Pruning before the scan does not change what is left above DataFusion's filter. *)
Lemma pruned_scan_rows files filters spec schema kept set :
  prune_files files filters spec schema = Ok kept → NoDup files →
  Forall (λ f, stats_truthful schema f (file_rows read f)) files →
  (∀ f ρ, f ∈ files → ρ ∈ file_rows read f → df_partition_spec_id f = ps_spec_id spec →
     identity_partitioned spec schema f ρ) →
  (∀ e, combine_filters filters = Some e → not_in e = false) →
  List.filter (matching filters) (run (build kept set None)) ≡ₚ
  List.filter (matching filters) (flat_map (visible_rows read (positions_of set)) files).
Proof.
  intros Hprune Hnd Hst Hpart Hni.
  destruct (prune_files_spec _ _ _ _ _ _ Hprune Hst Hpart Hni) as [Hkept _].
  rewrite <-(filter_flat_map_sublist (matching filters) _ kept files Hkept Hnd).
  - apply list_filter_perm. by apply exec_build_rows.
  - intros f Hf Hk. by eapply pruned_no_match.
Qed.

(** The scan of the current snapshot, relative to the delete set it loaded. *)
Lemma plan_scan_exact metadata snapshot schema resolved get filters plan spec :
  plan_scan open_parquet metadata schema resolved get filters None = Ok plan →
  tm_current_snapshot metadata = Some snapshot → current_partition_spec metadata = Ok spec →
  NoDup (sn_data_files snapshot) →
  Forall (λ f, stats_truthful schema f (file_rows read f)) (sn_data_files snapshot) →
  (∀ f ρ, f ∈ sn_data_files snapshot → ρ ∈ file_rows read f → df_partition_spec_id f = ps_spec_id spec →
     identity_partitioned spec schema f ρ) →
  (∀ e, combine_filters filters = Some e → not_in e = false) →
  ∃ set, load_position_deletes open_parquet resolved get (position_deletes (sn_delete_files snapshot)) = Ok set ∧
    List.filter (matching filters) (run plan) ≡ₚ
    List.filter (matching filters)
      (flat_map (visible_rows read (positions_of set)) (List.filter is_data (sn_data_files snapshot))).
Proof.
  intros (files & Hfiles & (spec' & Hspec%map_err_Ok & (kept & Hk & (set & Hset & [= <-])%bind_Ok)%bind_Ok)%bind_Ok)%bind_Ok
    Hcur Hspec' Hnd Hst Hpart Hni.
  assert (spec' = spec) as -> by congruence.
  unfold snapshot_files in Hfiles. rewrite Hcur in Hfiles. destruct (has_equality_delete _); [done|].
  injection Hfiles as <-. simpl in *. exists set. split; [done|].
  assert (∀ f, f ∈ List.filter is_data (sn_data_files snapshot) → f ∈ sn_data_files snapshot) as Hsub
    by (intros f [? _]%filter_elem; done).
  eapply pruned_scan_rows; [exact Hk|by apply NoDup_filter'| | |done]; [|by auto].
  rewrite Forall_forall in Hst |- *. auto.
Qed.

End claims.

(** ** A scan with a filter and a position delete *)
Definition scan_entries : list (string * Z) := [("s3://b/t/data/f.parquet", 0%Z)].
Definition scan_get (p : ObjectPath) : result string (list (string * Z)) :=
  if decide (p = "wh/t/data/d.parquet") then Ok scan_entries else Err "not found".
Definition scan_snapshot : Snapshot := mkSnapshot 5 None 1 0 OpAppend [good_file] [demo_delete_file] ∅.
Definition scan_metadata : Metadata :=
  mkTableMetadata 1 "ns" "t" (mkObjectLocation S3 (Some "b") "t") (Some 5%Z) 0 0 0
    [demo_schema_def] [demo_spec] [mkSortOrder 0 []] [scan_snapshot] (Some scan_snapshot) ∅.
Definition scan_read (f : DataFile) : list (list Row) := [[demo_row_of 5]; [demo_row_of 7]].
Definition scan_filters : list (@Expr demo_datafusion) := [DEq "region" (VInt64 (Some 3%Z))].

Lemma scan_deleted pos :
  pos ∈ ({[0%Z]} : gset Z) ↔ deleted_at demo_open scan_get (sn_delete_files scan_snapshot) good_file pos.
Proof.
  rewrite elem_of_singleton. split.
  - intros ->. exists demo_delete_file, scan_entries. eexists. eexists. exists "s3://b/t/data/f.parquet".
    split_and!; [by left|done|done|reflexivity|by left| |vm_compute; reflexivity].
    eexists _, _, _, 0. split_and!; [reflexivity|reflexivity|reflexivity|simpl; lia|split; reflexivity].
  - intros (df & data & batches & b & path & ->%list_elem_of_singleton & _ & Hget & Hopen & Hb & Hent & _).
    injection Hget as <-. injection Hopen as <-. apply list_elem_of_singleton in Hb as ->.
    destruct Hent as (batch & fps & ps & row & [= <-] & [= <-] & [= <-] & Hrow & _ & Hpos).
    simpl in Hrow. assert (row = 0) as -> by lia. simpl in Hpos. congruence.
Qed.

