(* ===== verification/Cluster.v ===== *)
(** * Distributed execution

    Models the parts of [teodb-distributed] around Ballista: the addresses of
    [ballista/address.rs], the table codec of [codec.rs], the scheduler's REST client and the
    topology ([scheduler_api.rs], [cluster_topology.rs]), the drain of [ballista/scheduler.rs]
    and the restart loop of [ballista/executor.rs], and the configurations of
    [teodb-server/src/server/roles.rs].  URL parsing, JSON and what the scheduler's API and
    the executor process answer are arguments; Ballista itself is not modelled. *)

From S2P Require Import Prelude Core Decimal Location DataFiles Schema WalReplay Catalog ClientIp ParquetStats Flush Config Sweep Deletes Selection Compaction QueryScan.
Open Scope nat_scope.
Open Scope list_scope.

(** ** Addresses *)
Record HostPort := mkHostPort { host : string; port : N }.
#[export] Instance HostPort_eq_dec : EqDecision HostPort.
Proof. solve_decision. Defined.
Record Url := mkUrl {
  url_scheme : string; url_username : string; url_password : option string; url_query : option string;
  url_fragment : option string; url_path : string; url_host : option string; url_port : option N }.
(** [url::Url::parse]; the port is absent when it is the scheme's default. *)
Class UrlLibrary := { url_parse : string → result string Url }.
Definition u16_max : N := 65535.

Definition parse_host_and_port (h p : string) : TeoDBResult HostPort :=
  _ ← reject_if (str_is_empty (str_trim h)) (Core.Config "{field} endpoint '{original}' is missing a host");
  port ← ok_or (parse_unsigned u16_max p) (Core.Config "{field} endpoint '{original}' has invalid port '{port}': {e}");
  _ ← reject_if (port =? 0)%N (Core.Config "{field} endpoint '{original}' must use a non-zero port");
  Ok (mkHostPort h port).
(** [inner]: the text after the opening bracket. *)
Definition parse_bracketed_host_port (inner : string) : TeoDBResult HostPort :=
  '(h, rest) ← ok_or (split_once "]" inner) (Core.Config "{field} endpoint '{input}' has an unterminated IPv6 host");
  p ← ok_or (str_strip_prefix ":" rest) (Core.Config "{field} endpoint '{input}' must be in [host]:port form");
  parse_host_and_port h p.

Section addresses.
Context `{UrlLibrary}.
Definition parse_url (trimmed : string) : TeoDBResult HostPort :=
  url ← map_err (λ _, Core.Config "invalid {field} endpoint '{trimmed}': {error}") (url_parse trimmed);
  _ ← reject_if (negb (bool_decide (url_scheme url = "http") || bool_decide (url_scheme url = "https")))
        (Core.Config "{field} endpoint '{trimmed}' must use http or https when a URL scheme is provided");
  _ ← reject_if (negb (str_is_empty (url_username url)) || bool_decide (is_Some (url_password url)) ||
                 bool_decide (is_Some (url_query url)) || bool_decide (is_Some (url_fragment url)))
        (Core.Config "{field} endpoint '{trimmed}' must not include credentials, query, or fragment");
  _ ← reject_if (negb (bool_decide (url_path url = "/"))) (Core.Config "{field} endpoint '{trimmed}' must not include a path");
  h ← ok_or (h ← url_host url; if str_is_empty h then None else Some h) (Core.Config "{field} endpoint '{trimmed}' is missing a host");
  p ← ok_or (url_port url) (Core.Config "{field} endpoint '{trimmed}' must include an explicit port");
  Ok (mkHostPort h p).
Definition HostPort_parse (input : string) : TeoDBResult HostPort :=
  let trimmed := str_trim input in
  if str_is_empty trimmed then Err (Core.Config "{field} must not be empty")
  else if str_contains "://" trimmed then parse_url trimmed
  else
    match str_strip_prefix "[" trimmed with
    | Some inner => parse_bracketed_host_port inner
    | None =>
        '(h, p) ← ok_or (rsplit_once ":" trimmed) (Core.Config "{field} endpoint '{trimmed}' must be in host:port form");
        _ ← reject_if (str_is_empty h || str_contains ":" h)
              (Core.Config "{field} endpoint '{trimmed}' has an invalid host; bracket IPv6 addresses as [::1]:50050");
        parse_host_and_port h p
    end.
End addresses.
Definition authority (self : HostPort) : string :=
  if str_contains ":" (host self) && negb (str_starts_with "[" (host self))
  then "[" +:+ host self +:+ "]:" +:+ pretty (port self)
  else host self +:+ ":" +:+ pretty (port self).
Definition http_url (self : HostPort) : string := "http://" +:+ authority self.

(** ** Configurations of the roles *)
Record SchedulerConfig := mkSchedulerConfig {
  sc_bind_addr : string; sc_bind_port : N; sc_external_host : string; sc_executor_timeout_seconds : N;
  sc_expire_dead_executor_interval_seconds : N; sc_drain_timeout : N }.
Record ExecutorConfig := mkExecutorConfig {
  ec_scheduler_url : string; ec_bind_addr : string; ec_bind_port : N; ec_grpc_bind_port : N; ec_external_host : option string;
  ec_concurrent_tasks : N; ec_spill_dir : string; ec_heartbeat_interval_secs : N; ec_memory_pool_bytes : option N;
  ec_drain_timeout : N }.
Section roles.
Context `{UrlLibrary}.
Definition scheduler_config_from (cfg : TeoDBConfig) : TeoDBResult SchedulerConfig :=
  bind ← HostPort_parse (scheduler_bind (cluster cfg));
  advertised ← HostPort_parse (scheduler_addr (cluster cfg));
  Ok (mkSchedulerConfig (host bind) (port bind) (host advertised)
        (u64_wrapping_mul (heartbeat_interval_secs (cluster cfg)) (heartbeat_miss_threshold (cluster cfg)))
        (heartbeat_interval_secs (cluster cfg)) (from_secs (cl_drain_timeout_secs (cluster cfg)))).
(** [hostname]: the system's, [None] when it is not UTF-8. *)
Definition resolve_advertise_host (cfg : TeoDBConfig) (hostname : option string) : TeoDBResult string :=
  match executor_advertise_host (cluster cfg) with
  | Some h =>
      let trimmed := str_trim h in
      if str_is_empty trimmed then Err (Core.Config "cluster.executor_advertise_host must not be empty") else Ok trimmed
  | None => ok_or hostname (Core.Config "system hostname is not valid UTF-8")
  end.
(** [cores]: the parallelism the system reports. *)
Definition executor_config_from (cfg : TeoDBConfig) (hostname : option string) (cores : option N) : TeoDBResult ExecutorConfig :=
  bind ← HostPort_parse (executor_bind (cluster cfg));
  let tasks := if (executor_task_slots (cluster cfg) =? 0)%N then default 4%N cores else executor_task_slots (cluster cfg) in
  _ ← reject_if (u32_max <? tasks)%N (Core.Config "cluster.executor_task_slots is too large: {e}");
  external ← resolve_advertise_host cfg hostname;
  Ok (mkExecutorConfig (scheduler_addr (cluster cfg)) (host bind) (port bind) (executor_grpc_bind_port (cluster cfg))
        (Some external) tasks (spill_dir (storage cfg)) (heartbeat_interval_secs (cluster cfg))
        (Some (memory_pool_bytes (query cfg))) (from_secs (cl_drain_timeout_secs (cluster cfg)))).
End roles.

(** ** The table codec *)
Definition DESCRIPTOR_CODEC_VERSION : N := 1.
(** [serde_json] of the envelope: [dj_peek] reads the version alone. *)
Class DescriptorJson (Bytes : Type) := {
  dj_encode : N → SnapshotScanDescriptor → result string Bytes;
  dj_peek : Bytes → result string N;
  dj_decode : Bytes → result string (N * SnapshotScanDescriptor);
}.
Class DescriptorJsonLaws (Bytes : Type) `{DescriptorJson Bytes} : Prop := {
  dj_peek_encode v d b : dj_encode v d = Ok b → dj_peek b = Ok v;
  dj_decode_encode v d b : dj_encode v d = Ok b → dj_decode b = Ok (v, d);
}.
Inductive DFCodecError := DFInternal (message : string) | DFPlan (message : string) | DFInner.
(** A table provider: of a table, of a pinned descriptor, or not TeoDB's. *)
Inductive Provider := TeoTableProvider (metadata : Metadata) | PinnedScanTableProvider (descriptor : SnapshotScanDescriptor) | OtherProvider.

Section codec.
Context {Bytes : Type} `{DescriptorJson Bytes}.
Definition encode_descriptor (descriptor : SnapshotScanDescriptor) : result DFCodecError Bytes :=
  map_err (λ _, DFInternal "failed to serialize SnapshotScanDescriptor: {e}") (dj_encode DESCRIPTOR_CODEC_VERSION descriptor).
Definition decode_descriptor (buf : Bytes) : result DFCodecError SnapshotScanDescriptor :=
  version ← map_err (λ _, DFInternal "failed to decode SnapshotScanDescriptor envelope: {e}") (dj_peek buf);
  _ ← reject_if (negb (version =? DESCRIPTOR_CODEC_VERSION)%N) (DFInternal "unsupported SnapshotScanDescriptor codec version {}");
  '(_, descriptor) ← map_err (λ _, DFInternal "failed to decode SnapshotScanDescriptor (version {}): {e}") (dj_decode buf);
  Ok descriptor.
Definition snapshot_scan_descriptor (metadata : Metadata) : TeoDBResult (option SnapshotScanDescriptor) :=
  match tm_current_snapshot metadata with
  | Some snapshot => desc ← from_metadata metadata snapshot; Ok (Some desc)
  | None => Ok None
  end.
Definition try_decode_table_provider (buf : Bytes) : result DFCodecError Provider :=
  descriptor ← decode_descriptor buf; Ok (PinnedScanTableProvider descriptor).
(** [inner]: Ballista's own codec. *)
Definition try_encode_table_provider (inner : result DFCodecError Bytes) (node : Provider) : result DFCodecError Bytes :=
  match node with
  | TeoTableProvider metadata =>
      descriptor ← map_err (λ _, DFInternal "failed to build scan descriptor: {e}") (snapshot_scan_descriptor metadata);
      descriptor ← ok_or descriptor (DFPlan "cannot serialize table with no current snapshot");
      encode_descriptor descriptor
  | PinnedScanTableProvider descriptor => encode_descriptor descriptor
  | OtherProvider => inner
  end.
End codec.

(** ** The scheduler's REST interface *)
Record ExecutorState := mkExecutorState { ex_id : string; ex_host : string; ex_port : N; last_seen : option N }.
Record JobState := mkJobState { job_id : string; job_status : string }.
Definition is_active (self : JobState) : bool := bool_decide (job_status self = "Queued") || bool_decide (job_status self = "Running").
(** A reply: none, a failure status, or a body that decodes to [Ok]. *)
Inductive HttpReply (A : Type) := Unreachable | FailureStatus | Body (decoded : result string A).
Arguments Unreachable {A}.
Arguments FailureStatus {A}.
Arguments Body {A} decoded.
Definition read_reply {A} (reply : HttpReply A) : TeoDBResult A :=
  match reply with
  | Unreachable => Err (Unavailable "scheduler API unreachable at {url}: {e}")
  | FailureStatus => Err (Unavailable "scheduler API at {url} returned {}")
  | Body decoded => map_err (λ _, Internal "invalid scheduler API response from {url}: {e}") decoded
  end.
Definition list_executors (reply : HttpReply (list ExecutorState)) : TeoDBResult (list ExecutorState) := read_reply reply.
Definition list_jobs (reply : HttpReply (list JobState)) : TeoDBResult (list JobState) := read_reply reply.
Definition active_job_count (reply : HttpReply (list JobState)) : TeoDBResult nat :=
  jobs ← list_jobs reply; Ok (length (List.filter is_active jobs)).
(** [window] in nanoseconds, [now_ms] in milliseconds. *)
Definition window_ms (window : N) : N := N.min (as_millis window) u64_max.
Definition is_alive (now_ms window : N) (e : ExecutorState) : bool :=
  match last_seen e with Some ts => (u64_saturating_sub now_ms ts <=? window_ms window)%N | None => false end.
Definition count_alive (executors : list ExecutorState) (now_ms window : N) : nat :=
  length (List.filter (is_alive now_ms window) executors).
Definition alive_executor_count (reply : HttpReply (list ExecutorState)) (now_ms window : N) : TeoDBResult nat :=
  executors ← list_executors reply; Ok (count_alive executors now_ms window).

Record ClusterWorker := mkWorker { w_id : string; w_host : string; w_port : N; w_alive : bool; w_last_heartbeat_ms : option N }.
Record ClusterTopologySnapshot := mkTopology {
  workers : list ClusterWorker; active_jobs : nat; scheduler_address : string; scheduler_reachable : bool }.
Definition snapshot (address : string) (window : N) (executors : HttpReply (list ExecutorState)) (now_ms : N)
    (jobs : HttpReply (list JobState)) : ClusterTopologySnapshot :=
  match list_executors executors with
  | Err _ => mkTopology [] 0 address false
  | Ok executors =>
      mkTopology (map (λ e, mkWorker (ex_id e) (ex_host e) (ex_port e) (is_alive now_ms window e) (last_seen e)) executors)
        (match active_job_count jobs with Ok n => n | Err _ => 0 end) address true
  end.

(** ** Draining the scheduler

    Each round of the loop: the reply of the scheduler's API and the clock after it. *)
Inductive DrainEnd := DrainComplete | DrainUnreachable | DrainElapsed.
Fixpoint drain_loop (deadline poll_interval : N) (consecutive_errors : N) (rounds : list (HttpReply (list JobState) * N))
    : option DrainEnd :=
  match rounds with
  | [] => None
  | (reply, now) :: rounds =>
      let again errors :=
        if (deadline <? now + poll_interval)%N then Some DrainElapsed else drain_loop deadline poll_interval errors rounds in
      match active_job_count reply with
      | Ok O => Some DrainComplete
      | Ok (S _) => again 0%N
      | Err _ => if (3 <=? consecutive_errors + 1)%N then Some DrainUnreachable else again (consecutive_errors + 1)%N
      end
  end.
Section drain.
Context `{UrlLibrary}.
(** [None]: the loop goes on after the rounds given. *)
Definition drain_scheduler_jobs (endpoint : string) (drain_timeout poll_interval start : N)
    (rounds : list (HttpReply (list JobState) * N)) : option DrainEnd :=
  if (drain_timeout =? 0)%N then Some DrainElapsed
  else match HostPort_parse endpoint with
       | Err _ => Some DrainUnreachable
       | Ok _ => drain_loop (start + drain_timeout) poll_interval 0 rounds
       end.
(** The address the drain asks. *)
Definition drain_endpoint (config : SchedulerConfig) : string := authority (mkHostPort (sc_external_host config) (sc_bind_port config)).
End drain.

(** ** Restarting the executor

    How an attempt ends: stopped, failed after the time given, or shut down. *)
Inductive Attempt := Stopped | FailedAfter (elapsed : N) | ShutDown.
Definition SECOND : N := 1000000000.
Definition MAX_BACKOFF : N := 30 * SECOND.
(** The waits between the attempts, in nanoseconds, and the backoff after them. *)
Fixpoint executor_loop (backoff : N) (attempts : list Attempt) : list N :=
  match attempts with
  | FailedAfter elapsed :: attempts =>
      let backoff := if (60 * SECOND <? elapsed)%N then SECOND else backoff in
      backoff :: executor_loop (N.min (backoff * 2) MAX_BACKOFF) attempts
  | _ => []
  end.
Definition executor_waits (attempts : list Attempt) : list N := executor_loop SECOND attempts.

(** ** Addresses round-trip *)
Definition host_char (c : ascii) : bool :=
  negb (is_space c) && bool_decide (c ≠ "["%char) && bool_decide (c ≠ "]"%char) && bool_decide (c ≠ "/"%char).
Definition endpoint_ok (hp : HostPort) : Prop :=
  host hp ≠ "" ∧ str_bytes_all host_char (host hp) = true ∧ (0 < port hp ≤ u16_max)%N.

Lemma bytes_all_app f s1 s2 : str_bytes_all f (s1 +:+ s2) = str_bytes_all f s1 && str_bytes_all f s2.
Proof. induction s1 as [|a s IH]; [done|]. rewrite str_app_cons. simpl. by rewrite IH, andb_assoc. Qed.
Lemma bytes_all_free (f : ascii → bool) s : (∀ c, f c = false → str_free c s = true) → str_bytes_all f s = true.
Proof.
  induction s as [|a s IH]; [done|]. intros Hf. simpl. destruct (f a) eqn:Ha; simpl.
  - apply IH. intros c Hc. specialize (Hf c Hc). by apply str_free_cons in Hf as [_ ?].
  - specialize (Hf a Ha). by apply str_free_cons in Hf as [? _].
Qed.
Lemma free_of_bytes (f : ascii → bool) c s : f c = false → str_bytes_all f s = true → str_free c s = true.
Proof.
  intros Hc. induction s as [|a s IH]; [done|]. simpl. intros [Ha Hs]%andb_true_iff.
  apply str_free_cons. split; [|by apply IH]. intros ->. by rewrite Hc in Ha.
Qed.
Lemma bytes_all_rev f s : str_bytes_all f (str_rev s) = str_bytes_all f s.
Proof.
  induction s as [|a s IH]; [done|]. change (String a s) with (String a "" +:+ s) at 1.
  rewrite str_rev_append, bytes_all_app, IH. change (str_rev (String a "")) with (String a ""). simpl.
  rewrite andb_true_r. apply andb_comm.
Qed.
Definition not_space (c : ascii) : bool := negb (is_space c).
Lemma trim_left_id s : str_bytes_all not_space s = true → str_trim_left s = s.
Proof. unfold not_space. destruct s as [|a s]; [done|]. simpl. by destruct (is_space a). Qed.
Lemma trim_id s : str_bytes_all not_space s = true → str_trim s = s.
Proof.
  intros Hs. unfold str_trim. rewrite (trim_left_id s Hs), trim_left_id by (by rewrite bytes_all_rev). apply str_rev_involutive.
Qed.
Lemma contains_free c p s : str_free c s = true → str_contains (String c p) s = false.
Proof.
  induction s as [|a s IH]; [done|]. intros [Ha Hs]%str_free_cons. simpl.
  rewrite (IH Hs), orb_false_r. unfold str_starts_with. simpl. by case_decide.
Qed.
Lemma contains_split p s : str_contains p s = true → ∃ x y, s = x +:+ p +:+ y.
Proof.
  induction s as [|a s IH]; simpl; rewrite orb_true_iff; intros [Hs|Hs].
  - apply str_starts_with_true in Hs as [r Hr]. by exists "", r.
  - done.
  - apply str_starts_with_true in Hs as [r Hr]. by exists "", r.
  - destruct (IH Hs) as (x & y & ->). exists (String a x), y. by rewrite str_app_cons.
Qed.
Lemma no_slash_no_scheme s : str_free "/" s = true → str_contains "://" s = false.
Proof.
  intros Hf. apply not_true_iff_false. intros (x & y & ->)%contains_split.
  rewrite !str_free_app in Hf. apply andb_true_iff in Hf as [_ [Hf _]%andb_true_iff]. done.
Qed.
Lemma rsplit_once_last c h p : str_free c p = true → rsplit_once c (h +:+ String c p) = Some (h, p).
Proof.
  intros Hp. unfold rsplit_once. change (String c p) with (String c "" +:+ p).
  rewrite !str_rev_append, <- str_app_assoc. change (str_rev (String c "") +:+ str_rev h) with (String c (str_rev h)).
  rewrite (proj2 (split_once_Some c _ (str_rev p) (str_rev h))) by (by rewrite str_free_rev).
  simpl. by rewrite !str_rev_involutive.
Qed.
Lemma parse_port (n : N) : (n ≤ u16_max)%N → parse_unsigned u16_max (pretty n) = Some n.
Proof.
  intros Hn. unfold parse_unsigned. rewrite pretty_N_strip by (left; vm_compute; reflexivity). by apply parse_magnitude_pretty.
Qed.
Lemma host_and_port hp : endpoint_ok hp → parse_host_and_port (host hp) (pretty (port hp)) = Ok hp.
Proof.
  destruct hp as [h p]. intros (Hne & Hh & Hp). simpl in *. unfold parse_host_and_port.
  assert (Hns : str_bytes_all not_space h = true).
  { apply bytes_all_free. intros c Hc. eapply free_of_bytes; [|exact Hh]. unfold host_char, not_space in *. by rewrite Hc. }
  rewrite (trim_id h Hns). destruct h; [done|]. cbn [str_is_empty reject_if mbind result_bind].
  rewrite parse_port by lia. cbn [ok_or mbind result_bind].
  destruct (p =? 0)%N eqn:H0; [apply N.eqb_eq in H0; lia|]. done.
Qed.
Lemma digits_host_char (n : N) : str_bytes_all host_char (pretty n) = true.
Proof.
  apply bytes_all_free. intros c Hc. apply pretty_N_free. unfold host_char, is_space in Hc.
  destruct (decide (N_of_ascii c < 48 ∨ 57 < N_of_ascii c)%N) as [|Hd]; [done|]. exfalso.
  assert (Hn : ∀ a, (48 ≤ N_of_ascii c ≤ 57)%N → (N_of_ascii a < 48 ∨ 57 < N_of_ascii a)%N → c ≠ a) by (intros a ? ? ->; lia).
  rewrite !bool_decide_eq_true_2 in Hc by (apply Hn; [lia|vm_compute; auto]).
  rewrite (proj2 (N.leb_gt (N_of_ascii c) 13)), (proj2 (N.eqb_neq (N_of_ascii c) 32)), andb_false_r in Hc by lia. done.
Qed.
Definition plain_char (c : ascii) : bool := not_space c && bool_decide (c ≠ "/"%char).
Lemma plain_host s : str_bytes_all host_char s = true → str_bytes_all plain_char s = true.
Proof.
  intros Hs. apply bytes_all_free. intros c Hc. eapply free_of_bytes; [|exact Hs].
  unfold plain_char, not_space, host_char in *. destruct (is_space c); [done|]. simpl in *. rewrite Hc. by rewrite andb_false_r.
Qed.
Lemma plain_text s : str_bytes_all plain_char s = true → str_trim s = s ∧ str_contains "://" s = false.
Proof.
  intros Hs. split; [apply trim_id|apply no_slash_no_scheme].
  - apply bytes_all_free. intros c Hc. eapply free_of_bytes; [|exact Hs]. unfold plain_char. by rewrite Hc.
  - by eapply free_of_bytes; [|exact Hs].
Qed.

Section address_spec.
Context `{UrlLibrary}.
(** The text of an address parses back to the address, with IPv6 hosts in brackets. *)
Theorem authority_roundtrip hp : endpoint_ok hp → HostPort_parse (authority hp) = Ok hp.
Proof.
  intros Hok. pose proof Hok as (Hne & Hh & Hp). pose proof (plain_host _ Hh) as Hph.
  pose proof (plain_host _ (digits_host_char (port hp))) as Hpp.
  assert (Hst : str_strip_prefix "[" (host hp +:+ ":" +:+ pretty (port hp)) = None ∧ str_starts_with "[" (host hp) = false).
  { unfold str_starts_with. destruct (host hp) as [|a h]; [done|]. rewrite str_app_cons. simpl in Hh |- *.
    case_decide as Ha; [|done]. subst a. done. }
  destruct Hst as [Hst Hsw]. unfold authority, HostPort_parse. rewrite Hsw, andb_true_r.
  destruct (str_contains ":" (host hp)) eqn:Hc.
  - assert (str_bytes_all plain_char ("[" +:+ host hp +:+ "]:" +:+ pretty (port hp)) = true) as Hall.
    { rewrite !bytes_all_app, Hph, Hpp. done. }
    destruct (plain_text _ Hall) as [-> ->]. change ("[" +:+ ?x) with (String "[" x). cbn [str_is_empty str_strip_prefix].
    rewrite decide_True by done. unfold parse_bracketed_host_port.
    rewrite (proj2 (split_once_Some "]" _ (host hp) (":" +:+ pretty (port hp)))).
    + cbn [ok_or mbind result_bind]. change (":" +:+ ?x) with (String ":" x). cbn [str_strip_prefix].
      rewrite decide_True by done. cbn [ok_or mbind result_bind]. by apply host_and_port.
    + split; [done|]. by eapply free_of_bytes; [|exact Hh].
  - assert (str_bytes_all plain_char (host hp +:+ ":" +:+ pretty (port hp)) = true) as Hall.
    { rewrite !bytes_all_app, Hph, Hpp. done. }
    destruct (plain_text _ Hall) as [-> ->].
    assert (str_is_empty (host hp +:+ ":" +:+ pretty (port hp)) = false) as ->.
    { destruct (host hp); [done|]. by rewrite str_app_cons. }
    rewrite Hst. change (":" +:+ ?x) with (String ":" x).
    rewrite rsplit_once_last by (apply pretty_N_free; right; vm_compute; reflexivity).
    cbn [ok_or mbind result_bind]. rewrite Hc. destruct (host hp) eqn:Eh; [done|]. cbn [str_is_empty orb reject_if mbind result_bind].
    rewrite <- Eh. by apply host_and_port.
Qed.
End address_spec.

(** ** What the executors scan *)
Section codec_spec.
Context {Bytes : Type} `{DescriptorJsonLaws Bytes}.
Definition descriptor_of (node : Provider) : option SnapshotScanDescriptor :=
  match node with
  | TeoTableProvider metadata => match snapshot_scan_descriptor metadata with Ok d => d | Err _ => None end
  | PinnedScanTableProvider descriptor => Some descriptor
  | OtherProvider => None
  end.
Lemma descriptor_roundtrip d buf : encode_descriptor d = Ok buf → decode_descriptor buf = Ok d.
Proof.
  unfold encode_descriptor, decode_descriptor. rewrite map_err_Ok. intros He.
  rewrite (dj_peek_encode _ _ _ He), (dj_decode_encode _ _ _ He). done.
Qed.
(** What the coordinator writes for a table's scan, every node of the same codec version
    reads back as a pinned scan of exactly the descriptor of the table's current snapshot,
    and passing the scan on to another node writes the same bytes again; bytes of another
    version are refused. *)
Theorem scan_survives_transport inner node buf :
  try_encode_table_provider inner node = Ok buf → node ≠ OtherProvider →
  ∃ d, descriptor_of node = Some d
    ∧ try_decode_table_provider buf = Ok (PinnedScanTableProvider d)
    ∧ try_encode_table_provider inner (PinnedScanTableProvider d) = Ok buf
    ∧ ∀ v other, dj_encode v d = Ok other → v ≠ DESCRIPTOR_CODEC_VERSION →
        try_decode_table_provider other = Err (DFInternal "unsupported SnapshotScanDescriptor codec version {}").
Proof.
  intros Henc Hother. assert (∃ d, descriptor_of node = Some d ∧ encode_descriptor d = Ok buf) as (d & Hd & Hbuf).
  { destruct node as [m|d|]; simpl in *; [|by eauto|done].
    apply bind_Ok in Henc as (o & Ho & (d & Hd & Hbuf)%bind_Ok). apply map_err_Ok in Ho. apply ok_or_Ok in Hd. subst o. rewrite Ho. eauto. }
  exists d. split; [done|]. split; [|split; [done|]].
  - unfold try_decode_table_provider. by rewrite (descriptor_roundtrip d buf Hbuf).
  - intros v other Hv Hne. unfold try_decode_table_provider, decode_descriptor. rewrite (dj_peek_encode _ _ _ Hv). simpl.
    by apply N.eqb_neq in Hne as ->.
Qed.
(** A table without a snapshot cannot be sent to an executor. *)
Lemma empty_table_not_encoded inner (metadata : Metadata) :
  tm_current_snapshot metadata = None →
  try_encode_table_provider inner (TeoTableProvider metadata) = Err (DFPlan "cannot serialize table with no current snapshot").
Proof. intros Hn. simpl. unfold snapshot_scan_descriptor. by rewrite Hn. Qed.
End codec_spec.

(** Bytes as the version and the descriptor. *)
#[local] Instance demo_descriptor_json : DescriptorJson (N * SnapshotScanDescriptor) :=
  {| dj_encode v d := Ok (v, d); dj_peek b := Ok b.1; dj_decode b := Ok b |}.
#[local] Instance demo_descriptor_laws : DescriptorJsonLaws (N * SnapshotScanDescriptor).
Proof. split; simpl; intros; by simplify_eq. Qed.
Definition demo_scan_bytes : result DFCodecError (N * SnapshotScanDescriptor) :=
  try_encode_table_provider (Err DFInner) (TeoTableProvider scan_metadata).
Lemma scan_survives_transport_witness :
  ∃ buf d, demo_scan_bytes = Ok buf ∧ try_decode_table_provider buf = Ok (PinnedScanTableProvider d).
Proof.
  destruct demo_scan_bytes as [buf|e] eqn:Hb; [|vm_compute in Hb; discriminate].
  destruct (scan_survives_transport (Err DFInner) (TeoTableProvider scan_metadata) buf Hb ltac:(discriminate))
    as (d & _ & Hd & _).
  exists buf, d. split; [reflexivity|exact Hd].
Defined.

(** ** The scheduler and the executors *)
Lemma alive_workers now window l :
  count_alive l now window =
  length (List.filter w_alive (map (λ e, mkWorker (ex_id e) (ex_host e) (ex_port e) (is_alive now window e) (last_seen e)) l)).
Proof.
  unfold count_alive. induction l as [|x l IH]; [done|]. cbn [List.filter map w_alive].
  destruct (is_alive now window x); [cbn [length]; by f_equal|done].
Qed.
(** The topology's flags agree with the readiness check's count, at the same moment. *)
Theorem topology_counts_alive address window executors now jobs :
  alive_executor_count executors now window =
    (let topology := snapshot address window executors now jobs in
     if scheduler_reachable topology then Ok (length (List.filter w_alive (workers topology)))
     else alive_executor_count executors now window).
Proof.
  unfold alive_executor_count, snapshot. destruct (list_executors executors) as [l|e]; [|done]. cbn [mbind result_bind scheduler_reachable workers].
  f_equal. unfold count_alive. induction l as [|x l IH]; [done|]. simpl. destruct (is_alive now window x); simpl; by rewrite IH.
Qed.

(** Rounds at least the interval apart. *)
Fixpoint spaced (interval from : N) (rounds : list (HttpReply (list JobState) * N)) : Prop :=
  match rounds with [] => True | (_, now) :: rounds => (from ≤ now)%N ∧ spaced interval (now + interval) rounds end.
Lemma drain_loop_ends deadline interval errors from rounds :
  spaced interval from rounds → rounds ≠ [] → (deadline < from + interval * N.of_nat (length rounds))%N →
  ∃ how, drain_loop deadline interval errors rounds = Some how.
Proof.
  revert errors from. induction rounds as [|[reply now] rounds IH]; intros errors from Hs Hne Hd; [done|].
  destruct Hs as [Hf Hs]. cbn [length] in Hd. rewrite Nat2N.inj_succ in Hd. simpl.
  assert (Hagain : ∀ e, ∃ how, (if (deadline <? now + interval)%N then Some DrainElapsed
    else drain_loop deadline interval e rounds) = Some how).
  { intros e. destruct (deadline <? now + interval)%N eqn:Hl; [by eauto|]. apply N.ltb_ge in Hl.
    eapply (IH e (now + interval)%N Hs); [|lia]. intros ->. simpl in Hd. lia. }
  destruct (active_job_count reply) as [[|n]|e]; [by eauto|apply Hagain|]. destruct (3 <=? errors + 1)%N; [by eauto|apply Hagain].
Qed.
(** The drain ends within its window: it goes through at most one round more than the
    window has intervals. *)
Theorem drain_bounded `{UrlLibrary} endpoint timeout interval start rounds :
  spaced interval start rounds → (timeout < interval * N.of_nat (length rounds))%N →
  ∃ how, drain_scheduler_jobs endpoint timeout interval start rounds = Some how.
Proof.
  intros Hs Hl. unfold drain_scheduler_jobs. case_match; [by eauto|]. case_match; [|by eauto].
  eapply drain_loop_ends; [exact Hs| |lia]. intros ->. simpl in Hl. lia.
Qed.

(** The waits between failed attempts. *)
Definition quick (a : Attempt) : Prop := match a with FailedAfter e => (e ≤ 60 * SECOND)%N | _ => False end.
Lemma waits_bounded backoff attempts :
  (SECOND ≤ backoff ≤ MAX_BACKOFF)%N → Forall (λ w, SECOND ≤ w ≤ MAX_BACKOFF)%N (executor_loop backoff attempts).
Proof.
  revert backoff. induction attempts as [|a attempts IH]; intros backoff Hb; [by apply Forall_nil|].
  destruct a; simpl; try by apply Forall_nil. unfold MAX_BACKOFF, SECOND in *.
  destruct (_ <? elapsed)%N; (apply Forall_cons; split; [lia|apply IH; lia]).
Qed.
Lemma quick_waits attempts k i :
  Forall quick attempts → i < length attempts →
  executor_loop (N.min (2 ^ k * SECOND) MAX_BACKOFF) attempts !! i = Some (N.min (2 ^ (k + N.of_nat i) * SECOND) MAX_BACKOFF).
Proof.
  intros Hq. revert k i. induction Hq as [|a attempts Ha Hq IH]; intros k i Hi; [simpl in Hi; lia|].
  destruct a as [|e|]; try done. simpl in Ha. cbn [executor_loop]. rewrite (proj2 (N.ltb_ge _ _) Ha).
  assert (N.min (N.min (2 ^ k * SECOND) MAX_BACKOFF * 2) MAX_BACKOFF = N.min (2 ^ (k + 1) * SECOND) MAX_BACKOFF) as ->.
  { rewrite N.pow_add_r. unfold MAX_BACKOFF. lia. }
  destruct i as [|i]; simpl; [by rewrite N.add_0_r|]. simpl in Hi. rewrite IH by lia. by replace (k + N.of_nat (S i))%N with (k + 1 + N.of_nat i)%N by lia.
Qed.
(** An executor that keeps failing is restarted after 1, 2, 4, ... seconds, at most 30. *)
Theorem executor_backoff attempts i :
  Forall quick attempts → i < length attempts →
  executor_waits attempts !! i = Some (N.min (2 ^ N.of_nat i * SECOND) MAX_BACKOFF).
Proof. intros Hq Hi. exact (quick_waits attempts 0 i Hq Hi). Qed.

(** ** Differences from the documentation

    [host_str] of the URL library writes an IPv6 host with its brackets, and [port] is
    absent for the scheme's default. *)
#[local] Instance demo_urls : UrlLibrary := {| url_parse s :=
  if bool_decide (s = "http://[::1]:50050") then Ok (mkUrl "http" "" None None None "/" (Some "[::1]") (Some 50050%N))
  else if bool_decide (s = "http://scheduler:80") then Ok (mkUrl "http" "" None None None "/" (Some "scheduler") None)
  else Err "relative URL without a base" |}.
Lemma ipv6_forms_differ :
  HostPort_parse "http://[::1]:50050" = Ok (mkHostPort "[::1]" 50050) ∧ HostPort_parse "[::1]:50050" = Ok (mkHostPort "::1" 50050).
Proof. split; vm_compute; reflexivity. Qed.
Lemma default_port_refused :
  HostPort_parse "http://scheduler:80" = Err (Core.Config "{field} endpoint '{trimmed}' must include an explicit port")
  ∧ HostPort_parse "scheduler:80" = Ok (mkHostPort "scheduler" 80).
Proof. split; vm_compute; reflexivity. Qed.
(** The drain asks the advertised host at the port the scheduler is bound to. *)
Definition demo_advertised (cfg : ClusterConfig) : ClusterConfig :=
  mkClusterConfig (cluster_id cfg) (node_id cfg) (writer_slot cfg) (max_writer_checkpoints_per_table cfg) true "0.0.0.0:50050"
    "scheduler:30050" (executor_bind cfg) (executor_advertise_host cfg) (executor_grpc_bind_port cfg) (executor_task_slots cfg)
    (heartbeat_interval_secs cfg) (heartbeat_miss_threshold cfg) (min_executors cfg) (local_query_fallback cfg)
    (cl_drain_timeout_secs cfg).
Lemma drain_asks_wrong_port :
  drain_endpoint <$> scheduler_config_from (with_cluster default_config (demo_advertised default_cluster)) = Ok "scheduler:50050".
Proof. vm_compute. reflexivity. Qed.
