(* ===== verification/Recovery.v ===== *)
(** * Startup recovery

    Models [teodb-ingest/src/replay.rs] over a node: the two-pass replay of the log into
    the buffers, the resolution of the prepared intents found on disk and the tombstones
    for dropped tables.  Catalog replies, I/O faults, clocks and the iteration order of
    hash tables are arguments; counters and metrics are left out. *)

From S2P Require Import Prelude Core Location DataFiles WriteProtocol WalFrame WalReplay WalState WalGc WalWriter.
From S2P Require Import Durable WalIdentity Prepared Buffer BufferSpec Catalog Flush Json Idempotency Node.
Open Scope nat_scope.
Open Scope list_scope.

(** [hash_order] is the order in which a hash table is iterated. *)
Definition add_intent_key (hash_order : ∀ A : Type, list A → list A) (keys : list WalTableKey)
    (intent : PreparedFlush) : TeoDBResult (list WalTableKey) :=
  let inserted := Ok (remove_dups (keys ++ [mkWalTableKey (pf_table_uuid intent) (pf_table intent)])) in
  match head (filter (λ k, wk_ident k = pf_table intent) (hash_order _ keys)) with
  | Some existing =>
      if (wk_table_uuid existing =? pf_table_uuid intent)%N then inserted
      else Err (TableIncarnationMismatch (pf_table intent) (pf_table_uuid intent) (wk_table_uuid existing))
  | None => inserted
  end.
Definition recovery_keys (hash_order : ∀ A : Type, list A → list A) (records : list WalTableKey)
    (prepared : list PreparedFlush) : TeoDBResult (list WalTableKey) :=
  foldM (add_intent_key hash_order) (remove_dups records) prepared.

Section recovery.
Context {Schema Spec Order : Type} `{WalCodec} `{!BatchOps RecordBatch} `{!TableLayout Schema Spec}.
Context `{UuidText} `{CheckpointJson} `{IdentityJson} `{PreparedJson} `{CommittedJson}.
Context (max_prepared_files max_prepared_bytes : N) (status_check : CommitStatusCheckConfig).
Context (max_bytes soft_watermark_bytes committed_grace : N).
Context (hash_order : ∀ A : Type, list A → list A).
Abbreviation Metadata := (TableMetadata Schema Spec Order).
Abbreviation Buf := (@TableBuffer RecordBatch Schema Spec Order).
Abbreviation Nd := (@Node Schema Spec Order _).
Abbreviation Wd := (@World RecordBatch Schema Spec Order).

(** What a flush of the buffer [b] works on, and the node after it. *)
Definition node_world (n : Nd) (b : Buf) : Wd :=
  mkWorld b (n_prepared n) (n_root n) (n_committed n) (n_identity n).
Definition put_world (n : Nd) (ref : nat) (w : Wd) : Nd :=
  mkNode (<[ref := w_buf w]> (n_heap n)) (n_buffers n) (n_evicted_rows n) (n_writer n) (w_root w) (w_prepared w)
    (w_committed w) (w_identity w) (n_idem n).

(** ** Loading the tables named by the log and the intents *)
Abbreviation TargetMetadata := (gmap WalTableKey (Metadata * option WriterCheckpoint)).

Definition load_target (load : TableIdent → TeoDBResult Metadata) (writer_id : Uuid) (loaded : TargetMetadata)
    (key : WalTableKey) : TeoDBResult TargetMetadata :=
  match load (wk_ident key) with
  | Err (NotFound _) => Ok loaded
  | Err error => Err error
  | Ok metadata =>
      _ ← reject_if (negb (tm_table_uuid metadata =? wk_table_uuid key)%N)
            (TableIncarnationMismatch (wk_ident key) (wk_table_uuid key) (tm_table_uuid metadata));
      _ ← validate_writer_checkpoints (wk_ident key) (tm_properties metadata);
      checkpoint ← parse_writer_checkpoint (wk_ident key) (tm_properties metadata) writer_id;
      Ok (<[key := (metadata, checkpoint)]> loaded)
  end.
Definition load_target_metadata (load : TableIdent → TeoDBResult Metadata) (keys : list WalTableKey)
    (writer_id : Uuid) : TeoDBResult TargetMetadata :=
  foldM (load_target load writer_id) ∅ keys.

(** ** Prepared intents *)
Record ResolveEnv := mkResolveEnv {
  re_status : TeoDBResult (CommitStatus Metadata);
  re_commit : TeoDBResult Metadata;
  re_now : N;
  re_now_ms : Z;
  re_checkpoint_fails : PersistStep → bool;
  re_torn : list byte;
  re_remove : RemoveFault;
}.

Definition complete_prepared (env : ResolveEnv) (w : Wd) (p : PreparedFlush) (metadata : Metadata) :
    Wd * TeoDBResult unit :=
  match mark_committed (re_now env) (w_buf w) (gr_hi (pf_generations p)) metadata with
  | (b, Err e) => (with_buf w b, Err e)
  | (b, Ok _) =>
      let w := wal_mark_committed (re_checkpoint_fails env) (re_torn env) (with_buf w b)
                 (mkWalTableKey (pf_table_uuid p) (pf_table p)) (gr_hi (pf_generations p)) in
      wal_remove_prepared (re_remove env) w (pf_table_uuid p)
  end.

Definition contain_prepared_error (env : ResolveEnv) (w : Wd) (p : PreparedFlush) (error : TeoDBError)
    (attempts : N) : Wd * TeoDBResult unit :=
  let '(b, r) := mark_flush_blocked_with_class (w_buf w) (re_now_ms env) p "{error}" (code error) attempts in
  (with_buf w b, r).

Definition block_prepared (env : ResolveEnv) (w : Wd) (p : PreparedFlush) (message : string) : Wd * TeoDBResult unit :=
  let '(b, r) := mark_flush_blocked (w_buf w) (re_now_ms env) p message 1 in (with_buf w b, r).

Definition resolve_prepared (env : ResolveEnv) (w : Wd) (p : PreparedFlush) : Wd * TeoDBResult unit :=
  match validate_prepared_data_files (tb_metadata (w_buf w)) p with
  | Err e => (w, Err e)
  | Ok _ =>
      match restore_prepared (w_buf w) p with
      | (b, Err e) => (with_buf w b, Err e)
      | (b, Ok _) =>
          let w := with_buf w b in
          match re_status env with
          | Ok (StCommitted metadata) => complete_prepared env w p metadata
          | Ok StNotCommitted =>
              match re_commit env with
              | Ok metadata => complete_prepared env w p metadata
              | Err (CommitStateUnknown _ _ message) => block_prepared env w p message
              | Err error => contain_prepared_error env w p error 1
              end
          | Ok (StUnknown message) => block_prepared env w p message
          | Err error => contain_prepared_error env w p error 1
          end
      end
  end.

Definition dangling : TeoDBError := Internal "dangling buffer reference".

(** The same on the buffer behind a reference (which the registry keeps valid). *)
Definition node_resolve (env : ResolveEnv) (n : Nd) (ref : nat) (p : PreparedFlush) : Nd * TeoDBResult unit :=
  match n_heap n !! ref with
  | None => (n, Err dangling)
  | Some b => let '(w, r) := resolve_prepared env (node_world n b) p in (put_world n ref w, r)
  end.

(** ** Replaying one record *)

(** [rc_flusher]: the recovery flusher, if one is configured, with the fuel of its status
    checks and what it meets. *)
Record RecordEnv := mkRecordEnv {
  rc_load : @LoadEnv Schema Spec Order;
  rc_now : N;
  rc_flusher : option (nat * @FlushEnv RecordBatch Schema Spec Order);
  rc_flush_load : TeoDBResult Metadata;
}.

Definition flush_table (fuel : nat) (env : @FlushEnv RecordBatch Schema Spec Order) (load : TeoDBResult Metadata)
    (n : Nd) (ident : TableIdent) : option (Nd * TeoDBResult FlushOutcome) :=
  match (ref ← n_buffers n !! ident; b ← n_heap n !! ref; Some (ref, b)) with
  | None => Some (n, match load with Ok _ => Ok FlushEmpty | Err e => Err e end)
  | Some (ref, b) =>
      '(w, r) ← flush_once_inner max_prepared_files max_prepared_bytes status_check fuel env (node_world n b);
      Some (put_world n ref w, r)
  end.

(** The [insert] closure. *)
Definition replay_entry (n : Nd) (ref : nat) (record : WalRecord) : Nd * TeoDBResult unit :=
  match n_heap n !! ref with
  | None => (n, Err dangling)
  | Some b =>
      let '(b, r) := insert_with_generation_at b (batch_id (header record)) (generation (header record))
                       (created_at_ms (header record)) (batch record) in
      (write_buffer n ref b, match r with Ok _ => Ok tt | Err e => Err e end)
  end.

(** Whether the record is past the start of the intent of its table. *)
Definition inside_prepared (pm : gmap Uuid PreparedFlush) (key : WalTableKey) (g : Generation) : bool :=
  match pm !! wk_table_uuid key with
  | Some p => (gr_lo (pf_generations p) <? g)%N
  | None => false
  end.

Definition replay_insert (env : RecordEnv) (pm : gmap Uuid PreparedFlush) (n : Nd) (ref : nat) (key : WalTableKey)
    (record : WalRecord) : option (Nd * TeoDBResult unit) :=
  match replay_entry n ref record with
  | (n, Err (Backpressure m)) =>
      match rc_flusher env with
      | None => Some (n, Err (Backpressure m))
      | Some (fuel, fenv) =>
          if inside_prepared pm key (generation (header record)) then Some (n, Err (Backpressure m))
          else
            '(n, flushed) ← flush_table fuel fenv (rc_flush_load env) n (h_table (header record));
            match flushed with
            | Ok FlushEmpty => Some (n, Err (Backpressure m))
            | Ok _ => Some (replay_entry n ref record)
            | Err e => Some (n, Err e)
            end
      end
  | r => Some r
  end.

Definition claim_record (now : N) (n : Nd) (h : WalHeader) : Nd * Claim :=
  match idempotency_key h with
  | None => (n, Acquired)
  | Some k => let '(i, c) := claim now (n_idem n) (h_table h) k in (set_idem n i, c)
  end.

Definition record_receipt (n : Nd) (h : WalHeader) : Nd :=
  match idempotency_key h with
  | None => n
  | Some k => set_idem n (complete (n_idem n) (h_table h) k
                (mkIngestReceipt (batch_id h) (ri_writer_id (n_identity n)) (generation h) (row_count h)))
  end.

(** The intent of the table, once the record that ends its range is in the buffer. *)
Definition reached_intent (pm : gmap Uuid PreparedFlush) (key : WalTableKey) (g : Generation) :
    option PreparedFlush :=
  match pm !! wk_table_uuid key with
  | Some p => if (gr_hi (pf_generations p) <=? g)%N then Some p else None
  | None => None
  end.

Definition checkpoint_covers (checkpoint : option WriterCheckpoint) (g : Generation) : bool :=
  match checkpoint with Some c => (g <=? ck_generation c)%N | None => false end.

Definition replay_record (env : RecordEnv) (resolve : Uuid → ResolveEnv) (metadata : TargetMetadata)
    (n : Nd) (pm : gmap Uuid PreparedFlush) (record : WalRecord) :
    option (Nd * gmap Uuid PreparedFlush * TeoDBResult unit) :=
  let h := header record in
  match table_key h with
  | Err e => Some (n, pm, Err e)
  | Ok key =>
      match metadata !! key with
      | None => Some (n, pm, Ok tt)
      | Some (_, checkpoint) =>
          if checkpoint_covers checkpoint (generation h) then Some (n, pm, Ok tt)
          else
            match get_or_load max_bytes soft_watermark_bytes committed_grace (rc_load env) n (h_table h) with
            | (n, Err e) => Some (n, pm, Err e)
            | (n, Ok ref) =>
                match claim_record (rc_now env) n h with
                | (n, Duplicate _) | (n, InProgress) => Some (n, pm, Ok tt)
                | (n, Acquired) =>
                    '(n, inserted) ← replay_insert env pm n ref key record;
                    match inserted with
                    | Err e => Some (release_key n (h_table h) (idempotency_key h), pm, Err e)
                    | Ok _ =>
                        let n := record_receipt n h in
                        match reached_intent pm key (generation h) with
                        | None => Some (n, pm, Ok tt)
                        | Some p =>
                            match node_resolve (resolve (wk_table_uuid key)) n ref p with
                            | (n, Err e) => Some (n, pm, Err e)
                            | (n, Ok _) => Some (n, delete (wk_table_uuid key) pm, Ok tt)
                            end
                        end
                    end
                end
            end
      end
  end.

(** ** The whole recovery *)
Record TombstoneEnv := mkTombstoneEnv {
  te_io : GroupIo; te_behind : list WriterCommand; te_now_v7 : Uuid; te_now_ms : Z;
  te_fails : PersistStep → bool; te_torn : list byte }.

Record RecoveryEnv := mkRecoveryEnv {
  rv_rename_ok : string → bool;
  rv_load : TableIdent → TeoDBResult Metadata;
  rv_epoch_io : IoFaults;
  rv_epoch_suffix : Uuid;
  rv_record : nat → RecordEnv;
  rv_resolve : Uuid → ResolveEnv;
  rv_leftover : Uuid → @LoadEnv Schema Spec Order;
  rv_tombstone : TableIdent → TombstoneEnv;
  rv_read_ok : string → bool;
  rv_remove_ok : string → bool;
  rv_current_seq : N;
}.

(** The records of the plan in order; the plan reads the log directory as it is then. *)
Fixpoint replay_loop (fuel : nat) (env : RecoveryEnv) (metadata : TargetMetadata) (i : nat) (n : Nd)
    (plan : ReplayPlan) (pm : gmap Uuid PreparedFlush) : option (Nd * gmap Uuid PreparedFlush * TeoDBResult unit) :=
  match fuel with
  | O => None
  | S fuel =>
      match next_record (n_root n) plan with
      | OutOfFuel => None
      | Raises e => Some (n, pm, Err e)
      | Returns (None, _) => Some (n, pm, Ok tt)
      | Returns (Some record, plan) =>
          '(n, pm, r) ← replay_record (rv_record env i) (rv_resolve env) metadata n pm record;
          match r with
          | Err e => Some (n, pm, Err e)
          | Ok _ => replay_loop fuel env metadata (S i) n plan pm
          end
      end
  end.

Fixpoint resolve_leftover (env : RecoveryEnv) (n : Nd) (intents : list PreparedFlush) : Nd * TeoDBResult unit :=
  match intents with
  | [] => (n, Ok tt)
  | p :: intents =>
      match get_or_load max_bytes soft_watermark_bytes committed_grace (rv_leftover env (pf_table_uuid p)) n
              (pf_table p) with
      | (n, Err e) => (n, Err e)
      | (n, Ok ref) =>
          match node_resolve (rv_resolve env (pf_table_uuid p)) n ref p with
          | (n, Err e) => (n, Err e)
          | (n, Ok _) => resolve_leftover env n intents
          end
      end
  end.

Fixpoint tombstone_dropped (env : RecoveryEnv) (n : Nd) (tables : list TableIdent) : Nd * TeoDBResult unit :=
  match tables with
  | [] => (n, Ok tt)
  | table :: tables =>
      let te := rv_tombstone env table in
      match append_drop_tombstone (te_io te) (te_behind te) (te_now_v7 te) (te_now_ms te) (te_fails te) (te_torn te)
              n table with
      | (n, Err e) => (n, Err e)
      | (n, Ok _) => tombstone_dropped env n tables
      end
  end.

Definition plan_table_keys (plan : ReplayPlan) : list WalTableKey :=
  remove_dups (omap (λ e, rp_tables plan !! e_table_index e) (rp_entries plan)).

Definition max_observed_epoch (metadata : TargetMetadata) : option WriterEpoch :=
  maxN (omap (λ kv, ck_epoch <$> kv.2.2) (map_to_list metadata)).

Definition checkpoint_generation (checkpoint : option WriterCheckpoint) : Generation :=
  match checkpoint with Some c => ck_generation c | None => 0%N end.

Definition seed_all (n : Nd) (metadata : TargetMetadata) : Nd :=
  foldl (λ n kv, seed_committed n kv.1 (checkpoint_generation kv.2.2)) n (hash_order _ (map_to_list metadata)).

Definition dropped_tables (keys : list WalTableKey) (metadata : TargetMetadata) : list TableIdent :=
  remove_dups (wk_ident <$> filter (λ k, metadata !! k = None) keys).

Definition prepared_by_uuid (prepared : list PreparedFlush) : gmap Uuid PreparedFlush :=
  foldl (λ m p, <[pf_table_uuid p := p]> m) ∅ prepared.

(** From the seeding of the checkpoints to the end. *)
Definition replay_targets (env : RecoveryEnv) (n : Nd) (plan : ReplayPlan) (prepared : list PreparedFlush)
    (keys : list WalTableKey) (metadata : TargetMetadata) : option (Nd * TeoDBResult unit) :=
  let n := seed_all n metadata in
  '(n, pm, r) ← replay_loop (S (length (rp_entries plan))) env metadata 0 n plan (prepared_by_uuid prepared);
  match r with
  | Err e => Some (n, Err e)
  | Ok _ =>
      match resolve_leftover env n (hash_order _ (map_to_list pm).*2) with
      | (n, Err e) => Some (n, Err e)
      | (n, Ok _) =>
          match tombstone_dropped env n (hash_order _ (dropped_tables keys metadata)) with
          | (n, Err e) => Some (n, Err e)
          | (n, Ok _) =>
              let root := (collect_garbage (rv_read_ok env) (rv_remove_ok env) (rv_current_seq env) (n_committed n)
                             (n_root n)).1 in
              Some (set_log n (n_writer n) root, Ok tt)
          end
      end
  end.

Definition replay_wal_inner (env : RecoveryEnv) (mode : WalRecoveryMode) (n : Nd) : option (Nd * TeoDBResult unit) :=
  match prepare (rv_rename_ok env) ∅ mode (n_root n) with
  | OutOfFuel => None
  | Raises e => Some (n, Err e)
  | Returns (root, plan) =>
      let n := set_log n (n_writer n) root in
      match (prepared ← list_prepared (n_prepared n) (ri_writer_id (n_identity n)) max_prepared_files
                          max_prepared_bytes;
             keys ← recovery_keys hash_order (plan_table_keys plan) prepared;
             metadata ← load_target_metadata (rv_load env) (hash_order _ keys) (ri_writer_id (n_identity n));
             Ok (prepared, keys, metadata)) with
      | Err e => Some (n, Err e)
      | Ok (prepared, keys, metadata) =>
          match max_observed_epoch metadata with
          | Some epoch =>
              match node_observe_epoch (rv_epoch_io env) (rv_epoch_suffix env) n epoch with
              | (n, Err e) => Some (n, Err e)
              | (n, Ok _) => replay_targets env n plan prepared keys metadata
              end
          | None => replay_targets env n plan prepared keys metadata
          end
      end
  end.
End recovery.
