(* ===== verification/DdlExec.v ===== *)
(** * Execution of data definition statements

    Models [teodb-query/src/ddl/executor.rs], the effects of a statement on the node in
    [teodb-api/src/ddl_effects.rs], the routing of SQL in
    [teodb-api/src/service/query.rs] with its endpoint
    [teodb-api/src/http/query/execute.rs], and table and namespace creation and
    removal over REST in [teodb-api/src/service/table.rs] and the handlers of
    [teodb-api/src/http].  The catalog is the trait of
    [teodb-core/src/traits/catalog.rs]; storage replies are arguments.  A definition
    returns the paths it deleted next to its result.  Response bodies are left out. *)

From S2P Require Import Prelude Core Decimal Location DataFiles WriteProtocol WalFrame WalReplay WalState WalGc WalWriter.
From S2P Require Import Durable WalIdentity Prepared Buffer BufferSpec Catalog Flush Json Idempotency Node Recovery.
From S2P Require Import Schema Convert Sweep Compaction ParquetStats Access Ddl.
Open Scope nat_scope.
Open Scope list_scope.

(** ** The catalog *)
Record CreateTableRequest := mkCreateTableRequest {
  cr_ident : TableIdent; cr_schema : SchemaDefinition; cr_partition_spec : UnboundPartitionSpec PartitionTransform;
  cr_sort_order : SortOrder; cr_location : ObjectLocation; cr_properties : gmap string string }.
Abbreviation TableMeta := (TableMetadata SchemaDefinition PartitionSpec SortOrder).

(** The methods that data definition uses; every call may change the catalog's state. *)
Class CatalogApi (C : Type) := {
  cat_list_namespaces : C → C * TeoDBResult (list string);
  cat_create_namespace : C → string → gmap string string → C * TeoDBResult unit;
  cat_drop_namespace : C → string → C * TeoDBResult unit;
  cat_list_tables : C → string → C * TeoDBResult (list TableIdent);
  cat_load_table : C → TableIdent → C * TeoDBResult TableMeta;
  cat_create_table : C → CreateTableRequest → C * TeoDBResult TableMeta;
  cat_drop_table : C → TableIdent → C * TeoDBResult unit;
}.

(** The storage factory with the backend it resolves to: what the calls return. *)
Record Storage := mkStorage {
  st_resolve : ObjectLocation → TeoDBResult ObjectPath;
  st_list : ObjectPath → TeoDBResult (list ObjectMeta);
  st_delete : ObjectPath → TeoDBResult unit }.

(** ** Results *)
Abbreviation DdlRow := (gmap string Json).
Record DdlResult := mkDdlResult { dr_status : string; dr_rows : list DdlRow; dr_changed : bool }.
Definition ddl_changed (status : string) : DdlResult := mkDdlResult status [] true.
Definition ddl_unchanged (status : string) : DdlResult := mkDdlResult status [] false.
Definition with_rows (status : string) (rows : list DdlRow) : DdlResult := mkDdlResult status rows false.

Definition data_type_text (t : TeoDataType) : string :=
  match t with
  | TBoolean => "boolean" | TInt8 => "int8" | TInt16 => "int16" | TInt32 => "int32" | TInt64 => "int64"
  | TUInt8 => "uint8" | TUInt16 => "uint16" | TUInt32 => "uint32" | TUInt64 => "uint64"
  | TFloat32 => "float32" | TFloat64 => "float64"
  | TDecimal128 precision scale => "decimal128(" +:+ pretty precision +:+ "," +:+ pretty scale +:+ ")"
  | TDate32 => "date32"
  | TTimestampMicros None => "timestamp_micros"
  | TTimestampMicros (Some tz) => "timestamp_micros(" +:+ tz +:+ ")"
  | TTime64Micros => "time64_micros" | TUtf8 => "utf8" | TBinary => "binary"
  | TFixedSizeBinary size => "fixed_size_binary(" +:+ pretty size +:+ ")"
  end.

(** ** Locations *)
Definition table_location (default_warehouse_uri ns tbl : string) : ObjectLocation :=
  match parse (default_warehouse_uri +:+ "/" +:+ ns +:+ "/" +:+ tbl) with
  | Ok location => location
  | Err _ => mkObjectLocation S3 (Some "warehouse") (ns +:+ "/" +:+ tbl)
  end.

Definition create_request (ident : TableIdent) (schema : SchemaDefinition) (location : ObjectLocation)
    (partition_spec : UnboundPartitionSpec PartitionTransform) (properties : gmap string string) : CreateTableRequest :=
  mkCreateTableRequest ident schema partition_spec (mkSortOrder 0 []) location properties.

(** ** Purging *)
Definition table_prefix_path (root_path : ObjectPath) : TeoDBResult ObjectPath :=
  let key := trim_matches "/" root_path in
  if str_is_empty key then Err (Config "table location must include a non-empty object prefix before purge")
  else Ok (key +:+ "/").
(** The deleted paths; the loop ends at the first failure. *)
Fixpoint delete_all (delete : ObjectPath → TeoDBResult unit) (objects : list ObjectMeta) : list ObjectPath * TeoDBResult unit :=
  match objects with
  | [] => ([], Ok tt)
  | object :: objects =>
      match delete (om_path object) with
      | Err e => ([], Err e)
      | Ok _ => let '(deleted, r) := delete_all delete objects in (om_path object :: deleted, r)
      end
  end.
Definition list_table_objects (storage : Storage) (table_location : string) : TeoDBResult (list ObjectMeta) :=
  location ← map_err (λ _, Catalog "{error}") (parse table_location);
  root_path ← st_resolve storage location;
  prefix ← table_prefix_path root_path;
  st_list storage prefix.
(** The REST handler's function; the executor's asks for the storage first. *)
Definition purge_resolved (storage : Storage) (table_location : string) : list ObjectPath * TeoDBResult unit :=
  match list_table_objects storage table_location with
  | Err e => ([], Err e)
  | Ok objects => delete_all (st_delete storage) objects
  end.
Definition purge_table_storage (storage : option Storage) (table_location : string) : list ObjectPath * TeoDBResult unit :=
  match storage with
  | None => ([], Err (InvalidArgument "sql" "DROP TABLE PURGE requires storage access; use a DDL service wired with StorageFactory"))
  | Some storage => purge_resolved storage table_location
  end.

(** ** The executor *)
Section executor.
Context {C : Type} `{CatalogApi C} (default_warehouse_uri : string) (storage : option Storage).

Definition ensure_namespace (c : C) (ns : string) : C * TeoDBResult unit :=
  match cat_create_namespace c ns ∅ with
  | (c, Ok _) | (c, Err (AlreadyExists _)) => (c, Ok tt)
  | (c, Err e) => (c, Err e)
  end.

Definition exec_create_table (c : C) (plan : CreateTablePlan) : C * TeoDBResult DdlResult :=
  let ns := ctp_namespace plan in
  let tbl := ctp_table_name plan in
  match ensure_namespace c ns with
  | (c, Err e) => (c, Err e)
  | (c, Ok _) =>
      let schema_def := mkSchemaDefinition 0 (ctp_columns plan) [] in
      match build_partition_spec schema_def (ctp_partition_by plan) with
      | Err e => (c, Err e)
      | Ok partition_spec =>
          let req := create_request (mkTableIdent ns tbl) schema_def (table_location default_warehouse_uri ns tbl) partition_spec ∅ in
          match cat_create_table c req with
          | (c, Ok _) => (c, Ok (ddl_changed "Table {ns}.{tbl} created"))
          | (c, Err e) =>
              match ctp_if_not_exists plan, e with
              | true, AlreadyExists _ => (c, Ok (ddl_unchanged "Table {ns}.{tbl} already exists"))
              | _, _ => (c, Err e)
              end
          end
      end
  end.

Definition exec_create_schema (c : C) (ns : string) (if_not_exists : bool) : C * TeoDBResult DdlResult :=
  match cat_create_namespace c ns ∅ with
  | (c, Ok _) => (c, Ok (ddl_changed "Schema {ns} created"))
  | (c, Err e) =>
      match if_not_exists, e with
      | true, AlreadyExists _ => (c, Ok (ddl_unchanged "Schema {ns} already exists"))
      | _, _ => (c, Err e)
      end
  end.

Definition not_there : DdlResult := ddl_unchanged "Table {}.{} does not exist (IF EXISTS)".
Definition drop_loaded (c : C) (plan : DropTablePlan) (location : option string) : C * list ObjectPath * TeoDBResult DdlResult :=
  match cat_drop_table c (dtp_ident plan) with
  | (c, Ok _) =>
      match location with
      | Some location =>
          let '(deleted, r) := purge_table_storage storage location in
          (c, deleted, _ ← r; Ok (ddl_changed "Table {}.{} dropped"))
      | None => (c, [], Ok (ddl_changed "Table {}.{} dropped"))
      end
  | (c, Err e) =>
      match dtp_if_exists plan, e with
      | true, NotFound _ => (c, [], Ok not_there)
      | _, _ => (c, [], Err e)
      end
  end.
Definition exec_drop_table (c : C) (plan : DropTablePlan) : C * list ObjectPath * TeoDBResult DdlResult :=
  if dtp_purge plan then
    match cat_load_table c (dtp_ident plan) with
    | (c, Ok metadata) => drop_loaded c plan (Some (to_uri (tm_table_location metadata)))
    | (c, Err e) =>
        match dtp_if_exists plan, e with
        | true, NotFound _ => (c, [], Ok not_there)
        | _, _ => (c, [], Err e)
        end
    end
  else drop_loaded c plan None.

Definition exec_drop_schema (c : C) (ns : string) (if_exists : bool) : C * TeoDBResult DdlResult :=
  match cat_drop_namespace c ns with
  | (c, Ok _) => (c, Ok (ddl_changed "Schema {ns} dropped"))
  | (c, Err e) =>
      match if_exists, e with
      | true, NotFound _ => (c, Ok (ddl_unchanged "Schema {ns} does not exist (IF EXISTS)"))
      | _, _ => (c, Err e)
      end
  end.

Definition table_row (t : TableIdent) : DdlRow :=
  <["namespace" := JString (ti_namespace t)]> {["table_name" := JString (ti_name t)]}.
Fixpoint list_rows (c : C) (namespaces : list string) : C * TeoDBResult (list DdlRow) :=
  match namespaces with
  | [] => (c, Ok [])
  | ns :: namespaces =>
      match cat_list_tables c ns with
      | (c, Err e) => (c, Err e)
      | (c, Ok tables) =>
          let '(c, r) := list_rows c namespaces in (c, rows ← r; Ok (map table_row tables ++ rows))
      end
  end.
Definition exec_show_tables (c : C) (namespace : option string) : C * TeoDBResult DdlResult :=
  let '(c, namespaces) := match namespace with Some ns => (c, Ok [ns]) | None => cat_list_namespaces c end in
  match namespaces with
  | Err e => (c, Err e)
  | Ok namespaces => let '(c, r) := list_rows c namespaces in (c, rows ← r; Ok (with_rows "OK" rows))
  end.

Definition column_row (field : ColumnMeta) : DdlRow :=
  list_to_map [("field_id", JNumber (pretty (cm_id field))); ("name", JString (cm_name field));
               ("type", JString (data_type_text (cm_data_type field))); ("nullable", JBool (cm_nullable field))].
Definition exec_describe_table (c : C) (ns table_name : string) : C * TeoDBResult DdlResult :=
  let '(c, r) := cat_load_table c (mkTableIdent ns table_name) in
  (c, meta ← r; schema ← current_schema meta; Ok (with_rows "OK" (map column_row (sd_columns schema)))).

Definition keeps_objects {A} (x : C * A) : C * list ObjectPath * A := (x.1, [], x.2).
Definition execute (c : C) (plan : DdlPlan) : C * list ObjectPath * TeoDBResult DdlResult :=
  match plan with
  | PlanCreateTable p => keeps_objects (exec_create_table c p)
  | PlanCreateSchema ns if_not_exists => keeps_objects (exec_create_schema c ns if_not_exists)
  | PlanDropTable p => exec_drop_table c p
  | PlanDropSchema ns if_exists => keeps_objects (exec_drop_schema c ns if_exists)
  | PlanShowTables ns => keeps_objects (exec_show_tables c ns)
  | PlanShowColumns ns t | PlanDescribeTable ns t => keeps_objects (exec_describe_table c ns t)
  end.
End executor.

(** ** The node *)
Section service.
Context {Schema Spec Order : Type} `{WalCodec} `{!BatchOps RecordBatch} `{!TableLayout Schema Spec}.
Context `{UuidText} `{CheckpointJson} `{IdentityJson} `{CommittedJson}.
Context {C : Type} `{CatalogApi C} (default_warehouse_uri : string) (storage : Storage).
Abbreviation Nd := (@Node Schema Spec Order _).

(** A failed append is only logged. *)
Definition append_tombstone (te : TombstoneEnv) (n : Nd) (ident : TableIdent) : Nd :=
  (append_drop_tombstone (te_io te) (te_behind te) (te_now_v7 te) (te_now_ms te) (te_fails te) (te_torn te) n ident).1.

Definition discard_table (n : Nd) (ident : TableIdent) : Nd :=
  let n := (registry_remove n ident).1 in set_idem n (evict_table (n_idem n) ident).
Definition discard_dropped (te : TableIdent → TombstoneEnv) (n : Nd) (ident : TableIdent) : Nd :=
  append_tombstone (te ident) (discard_table n ident) ident.
(** [buffers]: the tables of the registry, in the order it iterates them. *)
Definition discard_namespace (te : TableIdent → TombstoneEnv) (buffers : list TableIdent) (n : Nd) (ns : string) : Nd :=
  foldl (λ n ident, if bool_decide (ti_namespace ident = ns) then discard_dropped te n ident else n) n buffers.

Definition apply_post_ddl (te : TableIdent → TombstoneEnv) (order : list TableIdent → list TableIdent) (n : Nd) (plan : DdlPlan)
    (result : DdlResult) : Nd :=
  if dr_changed result then
    match plan with
    | PlanDropTable p => discard_dropped te n (dtp_ident p)
    | PlanCreateTable p => discard_table n (mkTableIdent (ctp_namespace p) (ctp_table_name p))
    | PlanDropSchema ns _ => discard_namespace te (order (elements (dom (n_buffers n)))) n ns
    | PlanCreateSchema _ _ | PlanShowTables _ | PlanShowColumns _ _ | PlanDescribeTable _ _ => n
    end
  else n.

(** ** SQL *)
Inductive SqlRouting := RouteDdl (result : DdlResult) | RouteEngine.
Record DdlEnv := mkDdlEnv {
  de_parse : string → result string (list Statement);
  de_tombstone : TableIdent → TombstoneEnv;
  de_order : list TableIdent → list TableIdent }.

Definition route_sql (env : DdlEnv) (c : C) (n : Nd) (sql : string) : C * Nd * list ObjectPath * TeoDBResult SqlRouting :=
  match classify_sql (de_parse env sql) sql with
  | Ok (SqlDdl plan) =>
      match execute default_warehouse_uri (Some storage) c plan with
      | (c, deleted, Err e) => (c, n, deleted, Err e)
      | (c, deleted, Ok result) =>
          (c, apply_post_ddl (de_tombstone env) (de_order env) n plan result, deleted, Ok (RouteDdl result))
      end
  | Ok (SqlQuery _) | Err _ => (c, n, [], Ok RouteEngine)
  end.

(** The endpoint up to the query engine. *)
Definition query_sql (authorizer : option Authorizer) (principal : Principal) (env : DdlEnv) (c : C) (n : Nd) (sql : string) :
    C * Nd * list ObjectPath * TeoDBResult SqlRouting :=
  match api_authorize authorizer principal Query Cluster with
  | Err e => (c, n, [], Err e)
  | Ok _ =>
      if str_is_empty (str_trim sql) then (c, n, [], Err (InvalidArgument "sql" "sql must not be empty"))
      else route_sql env c n sql
  end.

(** ** REST *)
Definition service_create_table (c : C) (n : Nd) (ident : TableIdent) (schema : SchemaDefinition)
    (partition_spec : UnboundPartitionSpec PartitionTransform) (properties : gmap string string) : C * Nd * TeoDBResult unit :=
  let location := table_location default_warehouse_uri (ti_namespace ident) (ti_name ident) in
  match cat_create_table c (create_request ident schema location partition_spec properties) with
  | (c, Err e) => (c, n, Err e)
  | (c, Ok _) => (c, discard_table n ident, Ok tt)
  end.

Record RestColumn := mkRestColumn { rc_name : string; rc_data_type : string; rc_nullable : bool }.
Record CreateTableBody := mkCreateTableBody {
  cb_name : string; cb_columns : list RestColumn; cb_partition_by : list (string * string); cb_properties : gmap string string }.

Definition rest_column (i : nat) (col : RestColumn) : TeoDBResult ColumnMeta :=
  data_type ← data_type_from_keyword (rc_data_type col);
  Ok (mkColumnMeta (wrap_signed 32 (Z.of_nat i + 1)) (rc_name col) data_type (rc_nullable col) None).
Definition rest_schema (columns : list RestColumn) : TeoDBResult SchemaDefinition :=
  columns ← mapM_res (λ '(i, col), rest_column i col) (zip (seq 0 (length columns)) columns);
  Ok (mkSchemaDefinition 0 columns []).
Definition rest_create_table (authorizer : option Authorizer) (principal : Principal) (c : C) (n : Nd) (ns : string)
    (body : CreateTableBody) : C * Nd * TeoDBResult unit :=
  match (_ ← validate_identifier "namespace" ns;
         _ ← validate_identifier "table" (cb_name body);
         _ ← mapM_res (λ col, validate_identifier "column" (rc_name col)) (cb_columns body);
         _ ← api_authorize authorizer principal CreateTable (Namespace ns);
         schema_def ← rest_schema (cb_columns body);
         fields ← partition_field_specs (cb_partition_by body);
         partition_spec ← build_partition_spec schema_def fields;
         Ok (schema_def, partition_spec)) with
  | Err e => (c, n, Err e)
  | Ok (schema_def, partition_spec) =>
      service_create_table c n (mkTableIdent ns (cb_name body)) schema_def partition_spec (cb_properties body)
  end.

Definition rest_drop_loaded (te : TableIdent → TombstoneEnv) (c : C) (n : Nd) (ident : TableIdent) (location : option string) :
    C * Nd * list ObjectPath * TeoDBResult unit :=
  match cat_drop_table c ident with
  | (c, Err e) => (c, n, [], Err e)
  | (c, Ok _) =>
      let n := discard_dropped te n ident in
      match location with
      | Some location => let '(deleted, r) := purge_resolved storage location in (c, n, deleted, r)
      | None => (c, n, [], Ok tt)
      end
  end.
Definition rest_drop_table (authorizer : option Authorizer) (principal : Principal) (te : TableIdent → TombstoneEnv) (c : C) (n : Nd)
    (ident : TableIdent) (purge : bool) : C * Nd * list ObjectPath * TeoDBResult unit :=
  match api_authorize authorizer principal DropTable (Table ident) with
  | Err e => (c, n, [], Err e)
  | Ok _ =>
      if purge then
        match cat_load_table c ident with
        | (c, Err e) => (c, n, [], Err e)
        | (c, Ok metadata) => rest_drop_loaded te c n ident (Some (to_uri (tm_table_location metadata)))
        end
      else rest_drop_loaded te c n ident None
  end.

Definition rest_create_namespace (authorizer : option Authorizer) (principal : Principal) (c : C) (namespace : string)
    (properties : option (gmap string string)) : C * TeoDBResult unit :=
  match (_ ← validate_identifier "namespace" namespace; api_authorize authorizer principal CreateTable (Namespace namespace)) with
  | Err e => (c, Err e)
  | Ok _ => cat_create_namespace c namespace (default ∅ properties)
  end.
Definition rest_drop_namespace (authorizer : option Authorizer) (principal : Principal) (te : TableIdent → TombstoneEnv)
    (order : list TableIdent → list TableIdent) (c : C) (n : Nd) (ns : string) : C * Nd * TeoDBResult unit :=
  match api_authorize authorizer principal DropTable (Namespace ns) with
  | Err e => (c, n, Err e)
  | Ok _ =>
      match cat_drop_namespace c ns with
      | (c, Err e) => (c, n, Err e)
      | (c, Ok _) => (c, discard_namespace te (order (elements (dom (n_buffers n)))) n ns, Ok tt)
      end
  end.

(** A page of a listing. *)
Definition page {A} (limit offset : option N) (l : list A) : list A :=
  take (N.to_nat (clamp_page_size limit)) (drop (N.to_nat (default 0%N offset)) l).
Definition rest_list_namespaces (c : C) (limit offset : option N) : C * TeoDBResult (list string * nat) :=
  let '(c, r) := cat_list_namespaces c in (c, namespaces ← r; Ok (page limit offset namespaces, length namespaces)).
Definition rest_list_tables (c : C) (ns : string) (limit offset : option N) : C * TeoDBResult (list TableIdent * nat) :=
  let '(c, r) := cat_list_tables c ns in (c, tables ← r; Ok (page limit offset tables, length tables)).
End service.
