(* ===== verification/DdlSpec.v ===== *)
(** * Correctness of data definition

    The columns of a created table, the objects a purge deletes, the change flag of a
    result and what a statement does to the buffers, the receipts and the log of a
    node. *)

From S2P Require Import Prelude Core Decimal Location DataFiles WriteProtocol WalFrame WalReplay WalReplaySpec WalState WalGc.
From S2P Require Import WalWriter Durable WalIdentity Prepared Buffer BufferSpec Catalog Flush FlushSpec FlushFrame Json.
From S2P Require Import Idempotency Node NodeSpec Recovery Schema Convert ConvertSpec Sweep Compaction ParquetStats Access.
From S2P Require Import Ddl DdlExec.
Open Scope nat_scope.
Open Scope list_scope.

(** ** Column types *)

(** The values of the SQL integer types. *)
Definition signed_range (bits : Z) : Z * Z := (- 2 ^ (bits - 1), 2 ^ (bits - 1) - 1)%Z.
Definition unsigned_range (bits : Z) : Z * Z := (0, 2 ^ bits - 1)%Z.
Definition sql_range (dt : SqlType) : option (Z * Z) :=
  match dt with
  | STinyInt => Some (signed_range 8)
  | SSmallInt | SInt2 | SInt16T => Some (signed_range 16)
  | SMediumInt => Some (signed_range 24)
  | SIntT | SIntegerT | SInt4 | SInt32T => Some (signed_range 32)
  | SBigInt | SInt8T | SInt64T | SSigned | SSignedInteger => Some (signed_range 64)
  | SInt128 | SHugeInt => Some (signed_range 128)
  | SInt256 => Some (signed_range 256)
  | SUInt8 | SUTinyInt | STinyIntUnsigned => Some (unsigned_range 8)
  | SUInt16 | SUSmallInt | SSmallIntUnsigned | SInt2Unsigned => Some (unsigned_range 16)
  | SMediumIntUnsigned => Some (unsigned_range 24)
  | SUInt32 | SIntUnsigned | SInt4Unsigned | SIntegerUnsigned => Some (unsigned_range 32)
  | SUInt64 | SUBigInt | SBigIntUnsigned | SUnsigned | SUnsignedInteger => Some (unsigned_range 64)
  | SUInt128 | SUHugeInt => Some (unsigned_range 128)
  | SUInt256 => Some (unsigned_range 256)
  | _ => None
  end.
Definition type_range (t : TeoDataType) : option (Z * Z) :=
  match t with
  | TInt8 => Some (signed_range 8) | TInt16 => Some (signed_range 16)
  | TInt32 => Some (signed_range 32) | TInt64 => Some (signed_range 64)
  | TUInt8 => Some (unsigned_range 8) | TUInt16 => Some (unsigned_range 16)
  | TUInt32 => Some (unsigned_range 32) | TUInt64 => Some (unsigned_range 64)
  | _ => None
  end.
Definition value_in_range (v : Z) (r : Z * Z) : Prop := (r.1 ≤ v ≤ r.2)%Z.
Definition decimal_info (dt : SqlType) : option ExactNumberInfo :=
  match dt with SDecimal info | SNumeric info | SDec info | SDecUnsigned info => Some info | _ => None end.

(** What the type of a stored column has to provide for the declared type: the 64-bit values of an integer type, the
    precision and scale of a decimal. *)
Definition type_provides (dt : SqlType) (stored : TeoDataType) : Prop :=
  (∀ r, sql_range dt = Some r → ∃ s, type_range stored = Some s ∧
     ∀ v, value_in_range v r → value_in_range v (signed_range 64) → value_in_range v s) ∧
  (∀ info, decimal_info dt = Some info →
     match info with
     | PrecisionAndScale p s => (p ≤ 38)%N → (-38 ≤ s ≤ 38)%Z → stored = TDecimal128 p s
     | Precision p => (p ≤ 38)%N → stored = TDecimal128 p 0
     | NoNumberInfo => stored = TDecimal128 38 10
     end).

Lemma wrap_signed_8_bounds z : (-128 ≤ wrap_signed 8 z < 128)%Z.
Proof.
  unfold wrap_signed. pose proof (Z.mod_pos_bound z (2 ^ 8) ltac:(lia)). change (2 ^ (8 - 1))%Z with 128%Z in *.
  change (2 ^ 8)%Z with 256%Z in *. destruct (Z.ltb_spec (z mod 256) 128); lia.
Qed.
Lemma sql_type_ok dt t : sql_type_to_teo dt = Ok t → type_ok t.
Proof.
  assert (∀ info, type_ok (TDecimal128 (exact_number_info_to_ps info).1 (exact_number_info_to_ps info).2)) as Hdec.
  { intros [p s|p|]; cbn [exact_number_info_to_ps fst snd type_ok]; (split; [|try apply wrap_signed_8_bounds; lia]);
      try lia; by apply N.mod_lt. }
  destruct dt; cbn [sql_type_to_teo]; try (by intros [= <-]); specialize (Hdec info);
    destruct (exact_number_info_to_ps info); by intros [= <-].
Qed.
Lemma sql_type_provides dt t : sql_type_to_teo dt = Ok t → type_provides dt (catalog_type t).
Proof.
  intros Ht. split.
  - intros r Hr. destruct dt; simplify_eq/=; eexists; (split; [reflexivity|]); unfold value_in_range; simpl; lia.
  - intros info Hi. assert (t = TDecimal128 (exact_number_info_to_ps info).1 (exact_number_info_to_ps info).2) as ->.
    { destruct dt; simplify_eq/=; destruct (exact_number_info_to_ps _); by simplify_eq/=. }
    destruct info as [p s|p|]; cbn [exact_number_info_to_ps fst snd catalog_type]; [intros Hp Hs|intros Hp|done].
    + by rewrite N.mod_small, wrap_signed_id by (simpl; lia).
    + by rewrite N.mod_small by lia.
Qed.

(** ** The columns of a created table *)
Definition column_declared (i : nat) (col : ColumnDef) (stored : ColumnMeta) : Prop :=
  cm_id stored = (Z.of_nat i + 1)%Z ∧ cm_name stored = cd_name col ∧
  (cm_nullable stored = true ↔ NotNull ∉ cd_options col) ∧ type_provides (cd_data_type col) (cm_data_type stored).

Lemma not_null_spec options : negb (existsb is_not_null options) = true ↔ NotNull ∉ options.
Proof.
  rewrite negb_true_iff. induction options as [|o options IH]; simpl; [by split; [intros _ ?%elem_of_nil|]|].
  rewrite orb_false_iff, IH, not_elem_of_cons. destruct o; naive_solver.
Qed.
Lemma convert_column_spec i col m :
  (Z.of_nat i + 1 ≤ i32_max)%Z → convert_column i col = Ok m →
  type_ok (cm_data_type m) ∧ column_declared i col (catalog_column m).
Proof.
  intros Hi (t & Ht & [= <-])%bind_Ok. cbn [cm_data_type]. split; [by eapply sql_type_ok|].
  split; [|split; [done|split; [apply not_null_spec|by apply sql_type_provides]]].
  cbn [catalog_column cm_id]. rewrite wrap_signed_id by (unfold i32_max in Hi; simpl; lia). done.
Qed.
Lemma convert_columns_spec cols metas :
  (Z.of_nat (length cols) ≤ i32_max)%Z → convert_columns cols = Ok metas →
  Forall (λ m, type_ok (cm_data_type m)) metas ∧ length metas = length cols ∧
  ∀ i col m, cols !! i = Some col → metas !! i = Some m → column_declared i col (catalog_column m).
Proof.
  intros Hlen Hm%mapM_res_Ok.
  assert (length metas = length cols) as Hl.
  { rewrite <-(Forall2_length _ _ _ Hm), length_zip_with, length_seq. lia. }
  assert (∀ i col m, cols !! i = Some col → metas !! i = Some m →
    type_ok (cm_data_type m) ∧ column_declared i col (catalog_column m)) as Hall.
  { intros i col m Hcol Hmeta. apply convert_column_spec; [apply lookup_lt_Some in Hcol; lia|].
    apply (Forall2_lookup_lr _ _ _ i (i, col) m) in Hm; [done| |done]. by apply zip_seq_lookup. }
  split_and!; [|done|intros; by eapply Hall].
  apply Forall_lookup. intros i m Hmeta. destruct (lookup_lt_is_Some_2 cols i) as [col Hcol].
  { rewrite <-Hl. by eapply lookup_lt_Some. }
  by apply (Hall i col m).
Qed.

Lemma by_id_columns (cols : list ColumnMeta) i m schema_id idents :
  (∀ j c, cols !! j = Some c → cm_id c = (Z.of_nat j + 1)%Z) → cols !! i = Some m →
  by_id (mkSchemaDefinition schema_id cols idents) (cm_id m) = Some m.
Proof.
  intros Hids Hm. unfold by_id. cbn [sd_columns].
  assert (list_find (λ c, cm_id c = cm_id m) cols = Some (i, m)) as ->; [|done].
  apply list_find_Some. split_and!; [done..|]. intros j c Hc Hlt Heq. rewrite (Hids _ _ Hc), (Hids _ _ Hm) in Heq. lia.
Qed.


Definition demo_create : CreateTableStmt :=
  mkCreateTable [PIdent "tpch"; PIdent "orders"]
    [mkColumnDef "id" SIntegerUnsigned [NotNull]; mkColumnDef "price" (SDecimal (PrecisionAndScale 12 2)) []]
    (Some (EFunction "bucket" (FList [Unnamed (AExpr (EValue "16")); Unnamed (AExpr (EIdentifier "id"))]))) OtherDistribution false.


(** ** Locations of tables in one warehouse *)
Definition plain_segment (s : string) : Prop := str_free "/" s = true ∧ s ≠ "" ∧ s ≠ "..".

Lemma validated_segment kind s : validate_identifier kind s = Ok tt → plain_segment s.
Proof.
  intros ((c & rest & -> & _) & _ & Hall)%validate_identifier_Ok. split_and!; [by apply ident_free|done|].
  intros [= -> ->]. by vm_compute in Hall.
Qed.

Lemma split_scheme_ext s sch r x : split_scheme s = Ok (sch, r) → split_scheme (s +:+ x) = Ok (sch, r +:+ x).
Proof.
  unfold split_scheme at 1.
  destruct (str_strip_prefix "s3://" s) eqn:H1; [|destruct (str_strip_prefix "gs://" s) eqn:H2;
    [|destruct (str_strip_prefix "abfs://" s) eqn:H3; [|destruct (str_strip_prefix "file://" s) eqn:H4; [|done]]]]; intros [= <- <-];
    [apply str_strip_prefix_Some in H1 as ->|apply str_strip_prefix_Some in H2 as ->
    |apply str_strip_prefix_Some in H3 as ->|apply str_strip_prefix_Some in H4 as ->]; by rewrite <-str_app_assoc.
Qed.
Lemma split_once_ext c s a b x : split_once c s = Some (a, b) → split_once c (s +:+ x) = Some (a, b +:+ x).
Proof. rewrite !split_once_Some. intros [-> Ha]. by rewrite <-str_app_assoc, str_app_cons. Qed.

(** A key that ends where a segment begins. *)
Definition closed_key (raw : string) : Prop := raw = "" ∨ ∃ u, raw = u +:+ "/".

Lemma strip_slash_ext raw :
  closed_key raw → ∃ st, closed_key st ∧ default raw (str_strip_prefix "/" raw) = st ∧
    ∀ a x, a ≠ "/"%char → default (raw +:+ String a x) (str_strip_prefix "/" (raw +:+ String a x)) = st +:+ String a x.
Proof.
  intros [->|(u & ->)].
  { exists "". split_and!; [by left|done|]. intros a x Ha. rewrite str_app_nil. simpl. by rewrite decide_False by congruence. }
  destruct u as [|c u]; [exists ""; split_and!; [by left|done|]; intros a x _; by rewrite str_app_nil|].
  rewrite !str_app_cons. simpl. destruct (decide ("/"%char = c)) as [<-|Hc].
  - exists (u +:+ "/"). split_and!; [right; by eexists|done|]. intros a x _. by rewrite str_app_cons.
  - exists (String c (u +:+ "/")). split_and!; [right; exists (String c u); by rewrite str_app_cons|done|].
    intros a x _. by rewrite str_app_cons.
Qed.
Lemma closed_split st a b :
  closed_key st → str_free "/" a = true → str_free "/" b = true →
  ∃ l, str_split "/" st = l ++ [""] ∧ str_split "/" (st +:+ a +:+ "/" +:+ b) = l ++ [a; b].
Proof.
  intros Hst Ha Hb. assert (str_split "/" (a +:+ "/" +:+ b) = [a; b]) as Hab.
  { rewrite str_app_cons, str_app_nil, str_split_app, str_split_free by done. done. }
  destruct Hst as [->|(u & ->)]; [exists []; by rewrite str_app_nil|].
  exists (str_split "/" u). rewrite str_split_ext. split; [done|].
  rewrite <-str_app_assoc, str_app_cons, str_app_nil, str_split_ext, Hab. done.
Qed.

Lemma normalize_key_ext raw base :
  closed_key raw → normalize_key raw = Ok base →
  ∃ segs, Forall plain_segment segs ∧ ∀ a b, plain_segment a → plain_segment b →
    normalize_key (raw +:+ a +:+ "/" +:+ b) = Ok (str_join "/" (segs ++ [a; b])).
Proof.
  intros Hraw Hbase. destruct (strip_slash_ext raw Hraw) as (st & Hst & Hst1 & Hst2).
  unfold normalize_key in Hbase. rewrite Hst1 in Hbase. destruct (existsb _ _) eqn:Hdd; [done|]. clear Hbase.
  apply existsb_dotdot in Hdd. pose proof (str_split_all_free "/" st) as Hfree.
  exists (filter (λ s, str_is_empty s = false) (str_split "/" st)). split.
  { apply Forall_forall. intros s [Hne Hin]%list_elem_of_filter. rewrite Forall_forall in Hdd, Hfree.
    split_and!; [by apply Hfree|by destruct s|by apply Hdd]. }
  intros a b (Ha & Hane & Hadd) (Hb & Hbne & Hbdd). unfold normalize_key.
  destruct (closed_split st a b Hst Ha Hb) as (l & Hl & Hlab).
  assert (default (raw +:+ a +:+ "/" +:+ b) (str_strip_prefix "/" (raw +:+ a +:+ "/" +:+ b)) = st +:+ a +:+ "/" +:+ b) as ->.
  { destruct a as [|c a]; [done|]. apply str_free_cons in Ha as [Hc _]. rewrite !(str_app_cons c). by apply Hst2. }
  rewrite Hlab. rewrite Hl in *. apply Forall_app in Hdd as [Hdd _].
  rewrite (proj2 (existsb_dotdot _)) by (rewrite Forall_app, !Forall_cons; done).
  f_equal. f_equal. rewrite !filter_app, !filter_cons. simpl. rewrite app_nil_r.
  destruct a; [done|]. destruct b; [done|]. done.
Qed.

Lemma closed_rest s p r : s +:+ "/" = p +:+ r → closed_key r.
Proof.
  revert s. induction p as [|c p IH]; intros s; [rewrite str_app_nil; intros <-; right; by eexists|].
  destruct s as [|c' s]; rewrite ?str_app_nil, !str_app_cons; [|intros [= _ Heq]; by eapply IH].
  intros [= _ Heq]. left. destruct p; [by rewrite str_app_nil in Heq|by rewrite str_app_cons in Heq].
Qed.
Lemma split_scheme_rest s sch r : split_scheme s = Ok (sch, r) → ∃ p, s = p +:+ r.
Proof.
  unfold split_scheme. repeat (case_match; simplify_eq); intros [= <- <-]; eexists; by apply str_strip_prefix_Some.
Qed.

(** The tables of a warehouse have one scheme and bucket, and keys of one base followed by namespace and name. *)
Lemma table_location_spec warehouse wl :
  parse (warehouse +:+ "/") = Ok wl →
  ∃ sch b base, Forall plain_segment base ∧ ∀ ns t, plain_segment ns → plain_segment t →
    parse (warehouse +:+ "/" +:+ ns +:+ "/" +:+ t) = Ok (mkObjectLocation sch b (str_join "/" (base ++ [ns; t]))).
Proof.
  unfold parse at 1. intros ([sch rest] & Hs & Hl)%bind_Ok.
  assert (∀ x, split_scheme (warehouse +:+ "/" +:+ x) = Ok (sch, rest +:+ x)) as Hx.
  { intros x. rewrite str_app_assoc. by apply split_scheme_ext. }
  assert (closed_key rest) as Hrest by (destruct (split_scheme_rest _ _ _ Hs) as [p Hp]; by eapply closed_rest).
  assert ((∃ b kp k, sch ≠ Local ∧ split_once "/" rest = Some (b, kp) ∧ str_is_empty b = false ∧ normalize_key kp = Ok k) ∨
          ∃ k, sch = Local ∧ normalize_key rest = Ok k) as Hcase.
  { destruct sch; try (left; apply bind_Ok in Hl as ([b kp] & Ho%ok_or_Ok & Hl); destruct (str_is_empty b) eqn:Hb; [done|];
      apply bind_Ok in Hl as (k & Hk & _); by exists b, kp, k).
    apply bind_Ok in Hl as (k & Hk & _). right. by exists k. }
  destruct Hcase as [(b & kp & k & Hsch & Ho & Hb & Hk)|(k & -> & Hk)].
  - assert (closed_key kp) as Hkp.
    { apply split_once_Some in Ho as [-> _]. destruct Hrest as [Hr|(u & Hr)].
      - destruct b; [done|]. by rewrite str_app_cons in Hr.
      - symmetry in Hr. change (String "/" kp) with ("/" +:+ kp) in Hr. rewrite str_app_assoc in Hr. by eapply closed_rest. }
    destruct (normalize_key_ext kp k Hkp Hk) as (base & Hbase & Hext). exists sch, (Some b), base. split; [done|].
    intros ns t Hns Ht. unfold parse. rewrite Hx. cbn [mbind result_bind].
    rewrite (split_once_ext _ _ _ _ _ Ho). destruct sch; try done; cbn [ok_or mbind result_bind]; rewrite Hb; by rewrite Hext.
  - destruct (normalize_key_ext rest k Hrest Hk) as (base & Hbase & Hext). exists Local, None, base. split; [done|].
    intros ns t Hns Ht. unfold parse. rewrite Hx. cbn [mbind result_bind]. by rewrite Hext.
Qed.

Lemma plain_normal segs : Forall plain_segment segs → key_normal (str_join "/" segs).
Proof. intros Hs. by exists segs. Qed.
Lemma table_location_parsed warehouse ns t l :
  parse (warehouse +:+ "/" +:+ ns +:+ "/" +:+ t) = Ok l → table_location warehouse ns t = l ∧ parse (to_uri l) = Ok l.
Proof.
  intros Hl. unfold table_location. rewrite Hl. split; [done|].
  destruct (location_roundtrip l) as [Hcanon Hround]. eauto.
Qed.

(** [path] lies in the directory [k]. *)
Definition under (k path : string) : Prop := str_starts_with (k +:+ "/") path = true.
Lemma under_split segs path :
  segs ≠ [] → Forall plain_segment segs → under (str_join "/" segs) path → ∃ rest, str_split "/" path = segs ++ rest.
Proof.
  intros Hne Hs (r & ->)%str_starts_with_true. exists (str_split "/" r).
  rewrite <-str_app_assoc, str_app_cons, str_app_nil, str_split_ext.
  destruct segs as [|w ws]; [done|]. rewrite str_split_join; [done|]. eapply Forall_impl; [exact Hs|]. by intros s [? _].
Qed.
Lemma under_distinct base ns t ns' t' path :
  Forall plain_segment (base ++ [ns; t]) → Forall plain_segment (base ++ [ns'; t']) →
  under (str_join "/" (base ++ [ns; t])) path → under (str_join "/" (base ++ [ns'; t'])) path → ns = ns' ∧ t = t'.
Proof.
  intros H1 H2 U1 U2.
  assert (∃ r1 r2, base ++ [ns; t] ++ r1 = base ++ [ns'; t'] ++ r2) as (r1 & r2 & Heq).
  { apply under_split in U1 as [r1 E1]; [|by destruct base|done]. apply under_split in U2 as [r2 E2]; [|by destruct base|done].
    exists r1, r2. rewrite E1 in E2. by rewrite <-!app_assoc in E2. }
  apply app_inv_head in Heq. by simplify_eq/=.
Qed.

Lemma trim_plain base ns t :
  Forall plain_segment (base ++ [ns; t]) → trim_matches "/" (str_join "/" (base ++ [ns; t])) = str_join "/" (base ++ [ns; t]) ∧
    str_is_empty (str_join "/" (base ++ [ns; t])) = false.
Proof.
  intros Hs. assert (∃ a rest, str_join "/" (base ++ [ns; t]) = String a rest ∧ a ≠ "/"%char) as (a & rest & Hj & Ha).
  { destruct base; by apply join_head. }
  unfold trim_matches. rewrite str_trim_start_id; [|rewrite Hj; congruence]. split; [|by rewrite Hj].
  unfold str_trim_end. destruct (str_join_app_last "/" (base ++ [ns]) t) as [p Hp]. rewrite <-app_assoc in Hp. simpl in Hp.
  rewrite Hp. assert (plain_segment t) as (Hfree & Hne & _) by (rewrite Forall_app, !Forall_cons in Hs; apply Hs).
  rewrite str_rev_append, str_trim_start_id; [by rewrite <-str_rev_append, str_rev_involutive|].
  rewrite <-str_free_rev in Hfree. intros b s' Hb.
  destruct (str_rev t) as [|b' t'] eqn:Ht; [by rewrite <-(str_rev_involutive t), Ht in Hne|].
  rewrite str_app_cons in Hb. injection Hb as -> _. by apply str_free_cons in Hfree as [? _].
Qed.

Lemma delete_all_spec delete objects deleted r :
  delete_all delete objects = (deleted, r) →
  (∀ p, p ∈ deleted → p ∈ map om_path objects) ∧ (r = Ok tt → deleted = map om_path objects).
Proof.
  revert deleted r. induction objects as [|o objects IH]; intros deleted r; simpl; [by intros [= <- <-]|].
  destruct (delete (om_path o)); [|intros [= <- <-]; split; [by intros ? ?%elem_of_nil|done]].
  destruct (delete_all delete objects) as [d r'] eqn:Hd. intros [= <- <-]. destruct (IH _ _ eq_refl) as [Hin Hall]. split.
  - intros p [->|Hp]%elem_of_cons; [left|right; by apply Hin].
  - intros Hr. by rewrite Hall.
Qed.

(** What the storage promises: a location resolves to its key, and a listing has the objects of the prefix. *)
Record storage_ok (storage : Storage) : Prop := {
  so_resolve loc p : st_resolve storage loc = Ok p → p = key loc;
  so_list p objs o : st_list storage p = Ok objs → o ∈ objs → str_starts_with p (om_path o) = true;
}.
Definition valid_ident (t : TableIdent) : Prop :=
  validate_identifier "namespace" (ti_namespace t) = Ok tt ∧ validate_identifier "table" (ti_name t) = Ok tt.
Definition location_of (warehouse : string) (t : TableIdent) : ObjectLocation :=
  table_location warehouse (ti_namespace t) (ti_name t).


Section purge.
Context (storage : Storage) (warehouse : string) (wl : ObjectLocation).
Context (Hst : storage_ok storage) (Hw : parse (warehouse +:+ "/") = Ok wl).

Lemma location_segments : ∃ base, ∀ t, valid_ident t →
  Forall plain_segment (base ++ [ti_namespace t; ti_name t]) ∧
  key (location_of warehouse t) = str_join "/" (base ++ [ti_namespace t; ti_name t]) ∧
  parse (to_uri (location_of warehouse t)) = Ok (location_of warehouse t).
Proof.
  destruct (table_location_spec _ _ Hw) as (sch & b0 & base & Hbase & Hloc). exists base.
  intros t [Hns%validated_segment Ht%validated_segment].
  destruct (table_location_parsed _ _ _ _ (Hloc _ _ Hns Ht)) as [Heq Hp]. unfold location_of. rewrite Heq.
  split_and!; [by rewrite Forall_app, !Forall_cons|done..].
Qed.

Lemma list_table_objects_spec a :
  valid_ident a → list_table_objects storage (to_uri (location_of warehouse a)) =
    match st_resolve storage (location_of warehouse a) with
    | Err e => Err e
    | Ok _ => st_list storage (key (location_of warehouse a) +:+ "/")
    end.
Proof.
  intros Ha. destruct location_segments as (base & Hl). destruct (Hl a Ha) as (Hseg & Hkey & Hp).
  unfold list_table_objects. rewrite Hp. cbn [map_err mbind result_bind].
  destruct (st_resolve _ _) as [root|] eqn:Hr; [|done]. apply (so_resolve _ Hst) in Hr as ->. cbn [mbind result_bind].
  unfold table_prefix_path. destruct (trim_plain _ _ _ Hseg) as [Htrim Hne]. rewrite Hkey, Htrim, Hne. done.
Qed.

Lemma purge_within a deleted r :
  valid_ident a → purge_resolved storage (to_uri (location_of warehouse a)) = (deleted, r) →
  (∀ p, p ∈ deleted → under (key (location_of warehouse a)) p ∧
     ∀ b, valid_ident b → b ≠ a → ¬ under (key (location_of warehouse b)) p) ∧
  (r = Ok tt → ∃ objs, st_list storage (key (location_of warehouse a) +:+ "/") = Ok objs ∧ deleted = map om_path objs).
Proof.
  intros Ha. unfold purge_resolved. rewrite list_table_objects_spec by done.
  destruct (st_resolve _ _); [|intros [= <- <-]; split; [by intros ? ?%elem_of_nil|done]].
  destruct (st_list _ _) as [objs|] eqn:Hobjs; [|intros [= <- <-]; split; [by intros ? ?%elem_of_nil|done]].
  intros [Hin Hall]%delete_all_spec. split; [|intros Hr; exists objs; auto].
  intros p (o & -> & Ho)%Hin%list_elem_of_fmap. pose proof (so_list _ Hst _ _ _ Hobjs Ho) as Hunder. split; [done|].
  intros b Hb Hne Hub. destruct location_segments as (base & Hl).
  destruct (Hl a Ha) as (Hsa & Hka & _), (Hl b Hb) as (Hsb & Hkb & _). rewrite Hka in Hunder. rewrite Hkb in Hub.
  destruct (under_distinct _ _ _ _ _ _ Hsa Hsb Hunder Hub). destruct a, b; simplify_eq/=.
Qed.
End purge.

(** The deleted paths lie in the directory of [t] and in that of no other table. *)
Definition purge_safe (warehouse : string) (t : TableIdent) (deleted : list ObjectPath) : Prop :=
  ∀ path, path ∈ deleted → under (key (location_of warehouse t)) path ∧
    ∀ b, valid_ident b → b ≠ t → ¬ under (key (location_of warehouse b)) path.

(** C17. In a warehouse whose tables were created under its location with valid names, DROP TABLE ... PURGE deletes only
    objects in the directory of the dropped table and none in the directory of another table; every other statement
    deletes nothing; and when the purge reports success it deleted every object the table's directory listed. *)
Theorem purge_spares_other_tables {C} `{CatalogApi C} storage warehouse wl c c' plan deleted res
    (Hst : storage_ok storage) (Hw : parse (warehouse +:+ "/") = Ok wl)
    (Hloc : ∀ t c1 m, cat_load_table c t = (c1, Ok m) → tm_table_location m = location_of warehouse t ∧ valid_ident t)
    (Hrun : execute warehouse (Some storage) c plan = (c', deleted, res)) :
  match plan with
  | PlanDropTable p =>
      purge_safe warehouse (dtp_ident p) deleted ∧ (dtp_purge p = false → deleted = []) ∧
      (dtp_purge p = true → (∃ r, res = Ok r ∧ dr_changed r = true) →
         ∃ objs, st_list storage (key (location_of warehouse (dtp_ident p)) +:+ "/") = Ok objs ∧ deleted = map om_path objs)
  | _ => deleted = []
  end.
Proof.
  destruct plan as [| |p| | | |]; cbn [execute keeps_objects] in Hrun; try (injection Hrun as _ <- _; done).
  assert (purge_safe warehouse (dtp_ident p) []) as Hnil by by intros ? ?%elem_of_nil.
  unfold exec_drop_table, drop_loaded in Hrun. destruct (dtp_purge p) eqn:Hp; last first.
  { destruct (cat_drop_table _ _) as [c1 [|e]]; [by simplify_eq|]. repeat case_match; by simplify_eq. }
  destruct (cat_load_table _ _) as [c1 [m|e]] eqn:Hload; [apply Hloc in Hload as [Hm Hvalid]|];
    [|repeat case_match; simplify_eq; (split_and!; [done..|]); by intros _ (? & [= <-] & ?)].
  destruct (cat_drop_table _ _) as [c2 [[]|e]];
    [|repeat case_match; simplify_eq; (split_and!; [done..|]); by intros _ (? & [= <-] & ?)].
  cbn [purge_table_storage] in Hrun. rewrite Hm in Hrun. destruct (purge_resolved _ _) as [d r] eqn:Hpurge.
  injection Hrun as _ <- <-. destruct (purge_within _ _ _ Hst Hw _ _ _ Hvalid Hpurge) as [Hin Hall].
  split_and!; [done..|]. intros _ (? & Hr & _). apply Hall. by destruct r as [[]|].
Qed.

(** ** A catalog and a store, for evaluation *)
Record DemoCatalog := mkDemoCatalog { dc_namespaces : gset string; dc_tables : gmap TableIdent TableMeta }.
Definition demo_created (req : CreateTableRequest) : TableMeta :=
  mkTableMetadata 1%N (ti_namespace (cr_ident req)) (ti_name (cr_ident req)) (cr_location req) None 0 0 0 [cr_schema req] [] []
    [] None (cr_properties req).
(** The namespaces that were created or hold a table. *)
Definition dc_known (c : DemoCatalog) : gset string := dc_namespaces c ∪ set_map ti_namespace (dom (dc_tables c)).
#[export] Instance demo_catalog : CatalogApi DemoCatalog := {|
  cat_list_namespaces c := (c, Ok (elements (dc_known c)));
  cat_create_namespace c ns _ :=
    if bool_decide (ns ∈ dc_known c) then (c, Err (AlreadyExists ns))
    else (mkDemoCatalog ({[ns]} ∪ dc_namespaces c) (dc_tables c), Ok tt);
  cat_drop_namespace c ns :=
    if bool_decide (ns ∈ dc_known c) then
      if bool_decide (ns ∈ (set_map ti_namespace (dom (dc_tables c)) : gset string)) then (c, Err (Conflict ns "" ""))
      else (mkDemoCatalog (dc_namespaces c ∖ {[ns]}) (dc_tables c), Ok tt)
    else (c, Err (NotFound ns));
  cat_list_tables c ns := (c, Ok (filter (λ t, ti_namespace t = ns) (elements (dom (dc_tables c)))));
  cat_load_table c t := (c, ok_or (dc_tables c !! t) (NotFound (ti_name t)));
  cat_create_table c req :=
    if bool_decide (ti_namespace (cr_ident req) ∈ dc_known c) then
      match dc_tables c !! cr_ident req with
      | Some _ => (c, Err (AlreadyExists (ti_name (cr_ident req))))
      | None => (mkDemoCatalog (dc_namespaces c) (<[cr_ident req := demo_created req]> (dc_tables c)), Ok (demo_created req))
      end
    else (c, Err (NotFound (ti_namespace (cr_ident req))));
  cat_drop_table c t :=
    match dc_tables c !! t with
    | Some _ => (mkDemoCatalog (dc_known c) (delete t (dc_tables c)), Ok tt)
    | None => (c, Err (NotFound (ti_name t)))
    end;
|}.
Definition demo_objects : list ObjectMeta :=
  [demo_object "lake/tpch/orders/data/1.parquet"; demo_object "lake/tpch/orders2/data/1.parquet";
   demo_object "lake/tpch/orders/old/data/1.parquet"].
Definition demo_store : Storage := mkStorage (λ loc, Ok (key loc))
  (λ p, Ok (filter (λ o, str_starts_with p (om_path o) = true) demo_objects)) (λ _, Ok tt).

Definition demo_warehouse : string := "s3://bucket/lake".
Definition demo_tables (names : list string) : DemoCatalog :=
  mkDemoCatalog {["tpch"]} (list_to_map ((λ t, (mkTableIdent "tpch" t,
    demo_created (create_request (mkTableIdent "tpch" t) (mkSchemaDefinition 0 [] []) (table_location demo_warehouse "tpch" t)
      (mkUnboundPartitionSpec None []) ∅))) <$> names)).
Definition demo_purge (t : string) : DdlPlan := PlanDropTable (mkDropTablePlan (mkTableIdent "tpch" t) false true).

Lemma demo_store_ok : storage_ok demo_store.
Proof. split; [by intros ? ? [= <-]|]. by intros ? ? ? [= <-] [? _]%list_elem_of_filter. Qed.
Lemma demo_tables_located names t c1 m :
  Forall (λ n, validate_identifier "table" n = Ok tt) names →
  cat_load_table (demo_tables names) t = (c1, Ok m) → tm_table_location m = location_of demo_warehouse t ∧ valid_ident t.
Proof.
  intros Hv [= _ Hm]. apply ok_or_Ok, elem_of_list_to_map_2, list_elem_of_fmap in Hm as (n & [= -> ->] & Hn).
  rewrite Forall_forall in Hv. split; [done|]. split; [by vm_compute|by apply Hv].
Qed.
Lemma purge_spares_other_tables_witness :
  let '(_, deleted, res) := execute demo_warehouse (Some demo_store) (demo_tables ["orders"; "orders2"]) (demo_purge "orders") in
  purge_safe demo_warehouse (mkTableIdent "tpch" "orders") deleted ∧
  deleted = ["lake/tpch/orders/data/1.parquet"; "lake/tpch/orders/old/data/1.parquet"] ∧ res = Ok (ddl_changed "Table {}.{} dropped").
Proof.
  destruct (execute _ _ _ _) as [[c' deleted] res] eqn:Hrun.
  eassert (parse (demo_warehouse +:+ "/") = Ok _) as Hw by (vm_compute; reflexivity).
  pose proof (purge_spares_other_tables demo_store demo_warehouse _ (demo_tables ["orders"; "orders2"]) c' (demo_purge "orders") deleted res demo_store_ok Hw) as Hp.
  destruct Hp as (Hsafe & _); [|exact Hrun|split; [exact Hsafe|]].
  - intros t c1 m. apply demo_tables_located. repeat constructor.
  - vm_compute in Hrun. injection Hrun as _ <- <-. done.
Defined.

(** A statement does not check names, and a table whose name has a slash lives in the directory of another table: purging
    that one deletes its objects. *)
Theorem sql_name_nests_tables :
  let nested := mkColumnDef "id" SIntT [] in
  let create := mkCreateTable [PIdent "tpch"; PIdent "orders/old"] [nested] None OtherDistribution false in
  let c := (execute demo_warehouse (Some demo_store) (demo_tables ["orders"])
              (PlanCreateTable (mkCreateTablePlan "tpch" "orders/old" [mkColumnMeta 1 "id" TInt32 true None] [] false))).1.1 in
  parse_create_table create = Ok (PlanCreateTable (mkCreateTablePlan "tpch" "orders/old" [mkColumnMeta 1 "id" TInt32 true None] [] false)) ∧
  is_Some (dc_tables c !! mkTableIdent "tpch" "orders/old") ∧
  validate_identifier "table" "orders/old" ≠ Ok tt ∧
  "lake/tpch/orders/old/data/1.parquet" ∈ (execute demo_warehouse (Some demo_store) c (demo_purge "orders")).1.2 ∧
  under (key (location_of demo_warehouse (mkTableIdent "tpch" "orders/old"))) "lake/tpch/orders/old/data/1.parquet".
Proof.
  cbv zeta. split_and!; [vm_compute; reflexivity|apply (bool_decide_unpack _); vm_compute; done|by vm_compute
    |apply (bool_decide_unpack _); vm_compute; done|by vm_compute].
Qed.

(** The executor drops the table before it looks for the storage, and a failed purge returns an error although the table
    is gone; [route_sql] then leaves the buffer and the log as they were. *)
Theorem failed_purge_hides_drop :
  let '(c, _, res) := execute demo_warehouse None (demo_tables ["orders"]) (demo_purge "orders") in
  dc_tables c = ∅ ∧ ∃ e, res = Err e.
Proof.
  destruct (execute _ _ _ _) as [[c d] res] eqn:Hrun. vm_compute in Hrun. injection Hrun as <- _ <-. split; [done|by eexists].
Qed.

(** A partition column that does not exist is refused after the namespace was created. *)
Theorem refused_create_leaves_namespace :
  let plan := mkCreateTablePlan "new" "t" [mkColumnMeta 1 "id" TInt32 true None] [mkFieldDef "missing" DIdentity] false in
  let '(c, _, res) := execute demo_warehouse (Some demo_store) (demo_tables []) (PlanCreateTable plan) in
  "new" ∈ dc_namespaces c ∧ ∃ e, res = Err e.
Proof.
  cbv zeta. destruct (execute _ _ _ _) as [[c d] res] eqn:Hrun. vm_compute in Hrun. injection Hrun as <- _ <-.
  split; [apply (bool_decide_unpack _); vm_compute; done|by eexists].
Qed.
