(* ===== verification/DdlEffects.v ===== *)
(** * What data definition does to the catalog and to the node

    The promises of the catalog as a class, with which the change flag of a result is
    exact, live tables keep their rows through every statement, and a dropped table is
    not replayed. *)

From S2P Require Import Prelude Core Decimal Location DataFiles WriteProtocol WalFrame WalReplay WalReplaySpec WalState WalGc.
From S2P Require Import WalWriter Durable WalIdentity Prepared Buffer BufferSpec Catalog Flush FlushSpec FlushFrame Json.
From S2P Require Import Idempotency Node NodeSpec Recovery Schema Convert ConvertSpec Sweep Compaction ParquetStats Access.
From S2P Require Import Ddl DdlExec DdlSpec.
Open Scope nat_scope.
Open Scope list_scope.

(** ** The promises of a catalog *)

(** An error other than those named leaves open whether the call took effect. *)
Class CatalogLaws (C : Type) `{CatalogApi C} := {
  cat_namespaces : C → gset string;
  cat_tables : C → gmap TableIdent TableMeta;
  table_in_namespace c t m : cat_tables c !! t = Some m → ti_namespace t ∈ cat_namespaces c;
  list_namespaces_law c c' r : cat_list_namespaces c = (c', r) →
    cat_namespaces c' = cat_namespaces c ∧ cat_tables c' = cat_tables c;
  list_tables_law c ns c' r : cat_list_tables c ns = (c', r) →
    cat_namespaces c' = cat_namespaces c ∧ cat_tables c' = cat_tables c;
  load_table_law c t c' r : cat_load_table c t = (c', r) →
    cat_namespaces c' = cat_namespaces c ∧ cat_tables c' = cat_tables c;
  create_namespace_law c ns props c' r : cat_create_namespace c ns props = (c', r) →
    cat_tables c' = cat_tables c ∧
    match r with
    | Ok _ => (ns ∉ cat_namespaces c) ∧ cat_namespaces c' = {[ns]} ∪ cat_namespaces c
    | Err (AlreadyExists _) => cat_namespaces c' = cat_namespaces c
    | Err _ => True
    end;
  drop_namespace_law c ns c' r : cat_drop_namespace c ns = (c', r) →
    cat_tables c' = cat_tables c ∧
    match r with
    | Ok _ => ns ∈ cat_namespaces c ∧ cat_namespaces c' = cat_namespaces c ∖ {[ns]}
    | Err (NotFound _) => cat_namespaces c' = cat_namespaces c
    | Err _ => True
    end;
  create_table_law c req c' r : cat_create_table c req = (c', r) →
    cat_namespaces c' = cat_namespaces c ∧
    match r with
    | Ok m => cat_tables c !! cr_ident req = None ∧ cat_tables c' = <[cr_ident req := m]> (cat_tables c)
    | Err (AlreadyExists _) => is_Some (cat_tables c !! cr_ident req) ∧ cat_tables c' = cat_tables c
    | Err _ => delete (cr_ident req) (cat_tables c') = delete (cr_ident req) (cat_tables c)
    end;
  drop_table_law c t c' r : cat_drop_table c t = (c', r) →
    cat_namespaces c' = cat_namespaces c ∧
    match r with
    | Ok _ => is_Some (cat_tables c !! t) ∧ cat_tables c' = delete t (cat_tables c)
    | Err (NotFound _) => cat_tables c' = cat_tables c
    | Err _ => delete t (cat_tables c') = delete t (cat_tables c)
    end;
}.

Section changed.
Context {C : Type} `{CatalogLaws C} (warehouse : string) (storage : option Storage).
Definition same_catalog (c c' : C) : Prop := cat_namespaces c' = cat_namespaces c ∧ cat_tables c' = cat_tables c.

Lemma same_catalog_trans c1 c2 c3 : same_catalog c1 c2 → same_catalog c2 c3 → same_catalog c1 c3.
Proof. intros [? ?] [? ?]. split; congruence. Qed.

Lemma ensure_namespace_spec c ns c' r :
  ensure_namespace c ns = (c', r) → cat_tables c' = cat_tables c ∧
    (r = Ok tt → cat_namespaces c' = cat_namespaces c ∨ ns ∉ cat_namespaces c).
Proof.
  unfold ensure_namespace. destruct (cat_create_namespace c ns ∅) as [c1 r1] eqn:Hc.
  apply create_namespace_law in Hc as [Ht Hns].
  destruct r1 as [u|e]; [|destruct e]; intros [= <- <-]; (split; [done|]); naive_solver.
Qed.

Lemma list_rows_same namespaces : ∀ c c' r, list_rows c namespaces = (c', r) → same_catalog c c'.
Proof.
  induction namespaces as [|ns l IH]; intros c c' r; simpl; [by intros [= <- _]|].
  destruct (cat_list_tables c ns) as [c1 [ts|e]] eqn:Hl; apply list_tables_law in Hl; [|by intros [= <- _]].
  destruct (list_rows c1 l) as [c2 r2] eqn:Hr. intros [= <- _]. apply IH in Hr. by eapply same_catalog_trans.
Qed.
Lemma show_tables_same c ns c' r : exec_show_tables c ns = (c', r) → same_catalog c c'.
Proof.
  unfold exec_show_tables. destruct ns as [ns|].
  - destruct (list_rows c [ns]) as [c2 r2] eqn:Hr. intros [= <- _]. by eapply list_rows_same.
  - destruct (cat_list_namespaces c) as [c1 [l|e]] eqn:Hl; apply list_namespaces_law in Hl; [|by intros [= <- _]].
    destruct (list_rows c1 l) as [c2 r2] eqn:Hr. intros [= <- _]. apply list_rows_same in Hr. by eapply same_catalog_trans.
Qed.
Lemma describe_same c ns t c' r : exec_describe_table c ns t = (c', r) → same_catalog c c' ∧ ∀ x, r = Ok x → dr_changed x = false.
Proof.
  unfold exec_describe_table. destruct (cat_load_table _ _) as [c1 r1] eqn:Hl. apply load_table_law in Hl.
  intros [= <- <-]. split; [done|]. intros x (m & _ & (s & _ & [= <-])%bind_Ok)%bind_Ok. done.
Qed.

(** What a statement that reports a change did. *)
Definition plan_effect (plan : DdlPlan) (c c' : C) : Prop :=
  match plan with
  | PlanCreateTable p =>
      let t := mkTableIdent (ctp_namespace p) (ctp_table_name p) in
      cat_tables c !! t = None ∧ ∃ m, cat_tables c' = <[t := m]> (cat_tables c)
  | PlanDropTable p => is_Some (cat_tables c !! dtp_ident p) ∧ cat_tables c' = delete (dtp_ident p) (cat_tables c)
  | PlanCreateSchema ns _ => (ns ∉ cat_namespaces c) ∧ ns ∈ cat_namespaces c' ∧ cat_tables c' = cat_tables c
  | PlanDropSchema ns _ => ns ∈ cat_namespaces c ∧ (ns ∉ cat_namespaces c') ∧ cat_tables c' = cat_tables c
  | _ => False
  end.
Lemma plan_effect_changes plan c c' : plan_effect plan c c' → ¬ same_catalog c c'.
Proof.
  destruct plan as [p| |p| | | |]; simpl; intros Heff [Hn Ht]; try done; [|set_solver| |set_solver].
  - destruct Heff as [Hnone [m Heq]]. rewrite Ht in Heq. by rewrite Heq, lookup_insert_eq in Hnone.
  - destruct Heff as [[m Hm] Heq]. rewrite Ht in Heq. by rewrite Heq, lookup_delete_eq in Hm.
Qed.

Definition result_exact (plan : DdlPlan) (c c' : C) (r : DdlResult) : Prop :=
  if dr_changed r then plan_effect plan c c' else same_catalog c c'.

Lemma create_table_exact c p c' r :
  exec_create_table warehouse c p = (c', Ok r) → result_exact (PlanCreateTable p) c c' r.
Proof.
  unfold exec_create_table. destruct (ensure_namespace _ _) as [c1 [[]|e]] eqn:He; [|done].
  apply ensure_namespace_spec in He as [Ht Hns]. specialize (Hns eq_refl).
  destruct (build_partition_spec _ _) as [spec|]; [|done].
  destruct (cat_create_table _ _) as [c2 r2] eqn:Hc. apply create_table_law in Hc as [Hns2 Hc]. cbn [cr_ident create_request] in Hc.
  destruct r2 as [m|e].
  - intros [= <- <-]. unfold result_exact. simpl. destruct Hc as [Hnone Heq]. rewrite Ht in Hnone, Heq. eauto.
  - destruct (ctp_if_not_exists p), e; try done. intros [= <- <-]. unfold result_exact. simpl.
    destruct Hc as [[m Hm] Heq]. rewrite Ht in Hm, Heq. split; [|done]. rewrite Hns2.
    destruct Hns as [Hns|Hns]; [done|]. by apply table_in_namespace in Hm.
Qed.
Lemma drop_table_exact c p c' deleted r :
  exec_drop_table storage c p = (c', deleted, Ok r) → result_exact (PlanDropTable p) c c' r.
Proof.
  assert (∀ c1 loc, same_catalog c c1 → drop_loaded storage c1 p loc = (c', deleted, Ok r) → result_exact (PlanDropTable p) c c' r) as Hdrop.
  { intros c1 loc [Hn Ht]. unfold drop_loaded. destruct (cat_drop_table _ _) as [c2 r2] eqn:Hd.
    apply drop_table_law in Hd as [Hn2 Hd]. unfold result_exact. destruct r2 as [u|e].
    - destruct Hd as [Hsome Heq]. assert (plan_effect (PlanDropTable p) c c2) by (simpl; rewrite <-Ht; done).
      destruct loc as [loc|]; [|by intros [= <- <- <-]].
      destruct (purge_table_storage _ _) as [d [[]|e]]; [by intros [= <- <- <-]|done].
    - destruct (dtp_if_exists p), e; try done. intros [= <- <- <-]. split; congruence. }
  unfold exec_drop_table. destruct (dtp_purge p); [|by apply Hdrop].
  destruct (cat_load_table _ _) as [c1 [m|e]] eqn:Hl; apply load_table_law in Hl; [by apply Hdrop|].
  destruct (dtp_if_exists p), e; try done. by intros [= <- <- <-].
Qed.

(** A result says whether the catalog changed, and how. *)
Lemma execute_exact c plan c' deleted r :
  execute warehouse storage c plan = (c', deleted, Ok r) → result_exact plan c c' r.
Proof.
  destruct plan as [p|ns ine|p|ns ie|ns|ns t|ns t]; cbn [execute].
  - unfold keeps_objects. destruct (exec_create_table _ _ _) as [c1 r1] eqn:He. intros [= <- <- ->]. by eapply create_table_exact.
  - unfold exec_create_schema. destruct (cat_create_namespace _ _ _) as [c1 r1] eqn:He. apply create_namespace_law in He as [Ht Hn].
    destruct r1 as [u|e]; [|destruct ine, e; try done]; intros [= <- <- <-]; unfold result_exact; simpl; [|by split].
    destruct Hn as [Hn ->]. split_and!; [done|set_solver|done].
  - by apply drop_table_exact.
  - unfold exec_drop_schema. destruct (cat_drop_namespace _ _) as [c1 r1] eqn:He. apply drop_namespace_law in He as [Ht Hn].
    destruct r1 as [u|e]; [|destruct ie, e; try done]; intros [= <- <- <-]; unfold result_exact; simpl; [|by split].
    destruct Hn as [Hn ->]. split_and!; [done|set_solver|done].
  - unfold keeps_objects. destruct (exec_show_tables _ _) as [c1 r1] eqn:He. intros [= <- <- ->].
    assert (dr_changed r = false) as Hr; [|unfold result_exact; rewrite Hr; by eapply show_tables_same].
    revert He. unfold exec_show_tables. repeat (case_match; try done); intros; simplify_eq;
      match goal with Hb : _ ≫= _ = Ok _ |- _ => by apply bind_Ok in Hb as (? & _ & [= <-]) end.
  - unfold keeps_objects. destruct (exec_describe_table _ _ _) as [c1 r1] eqn:He. intros [= <- <- ->].
    apply describe_same in He as [Hs Hr]. unfold result_exact. by rewrite (Hr r).
  - unfold keeps_objects. destruct (exec_describe_table _ _ _) as [c1 r1] eqn:He. intros [= <- <- ->].
    apply describe_same in He as [Hs Hr]. unfold result_exact. by rewrite (Hr r).
Qed.
End changed.

(** ** The node *)
Section effects.
Context {Schema Spec Order : Type} `{WalCodecLaws} `{!BatchOps RecordBatch} `{!TableLayout Schema Spec}.
Context `{UuidText} `{CheckpointJson} `{IdentityJson} `{CommittedJson}.
Abbreviation Nd := (@Node Schema Spec Order _).

(** The table keeps its buffer, its receipts and its committed marks. *)
Definition keeps_table (n n' : Nd) (u : TableIdent) : Prop :=
  n_buffers n' !! u = n_buffers n !! u ∧ ii_tables (n_idem n') !! u = ii_tables (n_idem n) !! u ∧
  ∀ k, wk_ident k = u → n_committed n' !! k = n_committed n !! k.
(** No row of the table is buffered or known as received. *)
Definition forgets_table (n' : Nd) (t : TableIdent) : Prop := n_buffers n' !! t = None ∧ ii_tables (n_idem n') !! t = None.

Definition refs_ok (n : Nd) : Prop := ∀ t ref, n_buffers n !! t = Some ref → is_Some (n_heap n !! ref).
Lemma node_refs n : node_inv n → refs_ok n.
Proof. intros Hn t ref (b & Hb & _)%(ni_refs _ Hn). by eexists. Qed.

Record discards (ts : list TableIdent) (n n' : Nd) : Prop := {
  di_heap : n_heap n' = n_heap n;
  di_refs : refs_ok n';
  di_keeps u : u ∉ ts → keeps_table n n' u;
  di_forgets t : t ∈ ts → forgets_table n' t;
}.
Lemma discards_nil n : refs_ok n → discards [] n n.
Proof. split; [done..|by intros t ?%elem_of_nil]. Qed.
Lemma discards_app ts us n1 n2 n3 : discards ts n1 n2 → discards us n2 n3 → discards (ts ++ us) n1 n3.
Proof.
  intros [Hh1 _ K1 F1] [Hh2 R2 K2 F2]. split; [congruence|done| |].
  - intros u [Hu1 Hu2]%not_elem_of_app. destruct (K1 u Hu1) as (A1 & B1 & C1), (K2 u Hu2) as (A2 & B2 & C2).
    split_and!; [congruence..|]. intros k Hk. by rewrite C2, C1.
  - intros t Ht. destruct (decide (t ∈ us)) as [Hus|Hus]; [by apply F2|].
    apply elem_of_app in Ht as [Ht|]; [|done]. destruct (F1 t Ht) as [A1 B1], (K2 t Hus) as (A2 & B2 & _). split; congruence.
Qed.

Lemma discard_table_discards (n : Nd) t : refs_ok n → discards [t] n (discard_table n t).
Proof.
  intros Hr. unfold discard_table, registry_remove.
  assert ((∃ ref b, n_buffers n !! t = Some ref ∧ n_heap n !! ref = Some b) ∨ n_buffers n !! t = None) as [(ref & b & Hb & Hh)|Hb].
  { destruct (n_buffers n !! t) as [ref|] eqn:Ht; [left|by right]. destruct (Hr _ _ Ht) as [b Hb]. by exists ref, b. }
  - rewrite Hb. cbn [mbind option_bind]. rewrite Hh. split; [done| | |].
    + intros u r Hu. cbn in Hu. apply lookup_delete_Some in Hu as [_ Hu]. by apply (Hr u).
    + intros u Hu%not_elem_of_cons. split_and!; simpl; rewrite ?lookup_delete_ne by naive_solver; done.
    + intros u ->%list_elem_of_singleton. split; simpl; by rewrite lookup_delete_eq.
  - rewrite Hb. cbn [mbind option_bind fst]. split; [done|done| |].
    + intros u Hu%not_elem_of_cons. split_and!; simpl; rewrite ?lookup_delete_ne by naive_solver; done.
    + intros u ->%list_elem_of_singleton. split; simpl; [done|by rewrite lookup_delete_eq].
Qed.

Lemma append_same io behind (n : Nd) record :
  let n' := (append io behind n record).1 in
  n_heap n' = n_heap n ∧ n_buffers n' = n_buffers n ∧ n_idem n' = n_idem n ∧ n_committed n' = n_committed n.
Proof. unfold append. destruct (encode_frame record); [|done]. by destruct (run_round _ _ _ _) as [[[w root] replies] rest]. Qed.
Lemma tombstone_same te (n : Nd) t :
  let n' := append_tombstone te n t in
  n_heap n' = n_heap n ∧ n_buffers n' = n_buffers n ∧ n_idem n' = n_idem n ∧
  ∀ k, wk_ident k ≠ t → n_committed n' !! k = n_committed n !! k.
Proof.
  unfold append_tombstone, append_drop_tombstone.
  destruct (append_same (te_io te) (te_behind te) n (drop_tombstone (te_now_v7 te) (te_now_ms te) t)) as (A & B & C' & D).
  destruct (append _ _ _ _) as [n1 [u|e]]; simpl in *; [|split_and!; [done..|]; by rewrite D].
  split_and!; [done..|]. intros k Hk. rewrite D. destruct (n_committed n !! k) as [g|] eqn:Hg.
  - by apply map_lookup_filter_Some.
  - apply map_lookup_filter_None. by left.
Qed.
Lemma discard_dropped_discards te (n : Nd) t : refs_ok n → discards [t] n (discard_dropped te n t).
Proof.
  intros Hr. destruct (discard_table_discards n t Hr) as [Hh Hr' K F]. unfold discard_dropped.
  destruct (tombstone_same (te t) (discard_table n t) t) as (A & B & C' & D). split.
  - congruence.
  - intros u ref. rewrite A, B. apply Hr'.
  - intros u Hu. destruct (K u Hu) as (K1 & K2 & K3). split_and!; [congruence..|].
    intros k Hk. rewrite D; [by apply K3|]. intros Heq. apply Hu, list_elem_of_singleton. congruence.
  - intros u Hu. destruct (F u Hu). split; congruence.
Qed.
Lemma discard_namespace_discards te ns l : ∀ n : Nd, refs_ok n →
  discards (filter (λ t, ti_namespace t = ns) l) n (discard_namespace te l n ns).
Proof.
  induction l as [|t l IH]; intros n Hr; [by apply discards_nil|]. unfold discard_namespace. simpl.
  rewrite filter_cons. case_decide as Ht; last by rewrite bool_decide_eq_false_2 by done; apply IH.
  rewrite bool_decide_eq_true_2 by done. pose proof (discard_dropped_discards te n t Hr) as Hd.
  change (t :: filter (λ t, ti_namespace t = ns) l) with ([t] ++ filter (λ t, ti_namespace t = ns) l).
  eapply discards_app; [exact Hd|]. apply IH. apply Hd.
Qed.

(** The tables a statement forgets. *)
Definition forgotten (n : Nd) (order : list TableIdent → list TableIdent) (plan : DdlPlan) : list TableIdent :=
  match plan with
  | PlanCreateTable p => [mkTableIdent (ctp_namespace p) (ctp_table_name p)]
  | PlanDropTable p => [dtp_ident p]
  | PlanDropSchema ns _ => filter (λ t, ti_namespace t = ns) (order (elements (dom (n_buffers n))))
  | _ => []
  end.
Create HintDb discards.
#[local] Hint Resolve discards_nil discard_table_discards discard_dropped_discards discard_namespace_discards : discards.
Lemma apply_post_ddl_discards te order (n : Nd) plan r :
  refs_ok n → dr_changed r = true → discards (forgotten n order plan) n (apply_post_ddl te order n plan r).
Proof.
  intros Hr Hc. unfold apply_post_ddl. rewrite Hc. destruct plan; simpl; auto with discards.
Qed.

Context {C : Type} `{CatalogLaws C} (warehouse : string) (storage : Storage).

Lemma forgotten_not_live (n : Nd) order plan c c' u :
  plan_effect plan c c' → u ∈ forgotten n order plan → is_Some (cat_tables c !! u) → is_Some (cat_tables c' !! u) → False.
Proof.
  destruct plan as [p| |p|ns ie| | |]; simpl; intros Heff Hu [m Hm] [m' Hm']; try by apply elem_of_nil in Hu.
  - apply list_elem_of_singleton in Hu as ->. destruct Heff as [Hnone _]. congruence.
  - apply list_elem_of_singleton in Hu as ->. destruct Heff as [_ Heq]. by rewrite Heq, lookup_delete_eq in Hm'.
  - apply list_elem_of_filter in Hu as [Hns _]. apply table_in_namespace in Hm'. destruct Heff as (_ & Hout & _).
    by rewrite Hns in Hm'.
Qed.
Lemma changed_forgotten (n : Nd) order plan c c' u :
  plan_effect plan c c' → ¬ (is_Some (cat_tables c !! u) ↔ is_Some (cat_tables c' !! u)) → u ∈ forgotten n order plan.
Proof.
  destruct plan as [p| |p|ns ie| | |]; simpl; intros Heff Hu; try done.
  - destruct Heff as [_ [m Heq]]. apply list_elem_of_singleton. destruct (decide (u = mkTableIdent (ctp_namespace p) (ctp_table_name p))); [done|].
    by rewrite Heq, lookup_insert_ne in Hu by done.
  - destruct Heff as (_ & _ & Heq). by rewrite Heq in Hu.
  - destruct Heff as [_ Heq]. apply list_elem_of_singleton. destruct (decide (u = dtp_ident p)); [done|].
    by rewrite Heq, lookup_delete_ne in Hu by done.
  - destruct Heff as (_ & _ & Heq). by rewrite Heq in Hu.
Qed.

(** C7. A statement never touches the buffered rows, the receipts or the committed marks of a table that is in the catalog
    before and after it, nor the rows of any buffer handed out; one that fails or leaves the catalog as it was (IF EXISTS,
    IF NOT EXISTS, SHOW, DESCRIBE) leaves the node as it was; and a table that it created or dropped has no buffer and no
    receipts afterwards. *)
Theorem ddl_keeps_live_tables env c (n : Nd) sql c' n' deleted res (Hn : node_inv n)
    (Hrun : route_sql warehouse storage env c n sql = (c', n', deleted, res)) :
  n_heap n' = n_heap n ∧ (∀ e, res = Err e → n' = n) ∧ ((∃ x, res = Ok x) → same_catalog c c' → n' = n) ∧
  (∀ u, is_Some (cat_tables c !! u) → is_Some (cat_tables c' !! u) → keeps_table n n' u) ∧
  ((∃ x, res = Ok x) → ∀ u, ¬ (is_Some (cat_tables c !! u) ↔ is_Some (cat_tables c' !! u)) → forgets_table n' u).
Proof.
  unfold route_sql in Hrun. destruct (classify_sql _ _) as [[plan|]|]; [|by simplify_eq..].
  destruct (execute _ _ _ _) as [[c1 d] [r|e]] eqn:Hex; simplify_eq; [|split_and!; try done; by intros [? ?]].
  apply execute_exact in Hex. unfold result_exact in Hex. destruct (dr_changed r) eqn:Hc; last first.
  { unfold apply_post_ddl. rewrite Hc. split_and!; try done. intros _ u Hu. destruct Hex as [_ Heq]. by rewrite Heq in Hu. }
  pose proof (apply_post_ddl_discards (de_tombstone env) (de_order env) n plan r (node_refs n Hn) Hc) as [Hh _ K F].
  split_and!; [done..| | |].
  - intros _ Hsame. by apply plan_effect_changes in Hex.
  - intros u Hu Hu'. apply K. intros Hin. by eapply forgotten_not_live.
  - intros _ u Hu. apply F. by eapply changed_forgotten.
Qed.

(** ** Replay *)
Lemma live_before_filter committed l after :
  live_before committed l after = filter (λ r, dropped_in (h_table (header r)) after = false) (live_before committed l []).
Proof.
  induction l as [|r l IH]; [done|]. cbn [live_before]. rewrite dropped_in_app, app_nil_r.
  destruct (candidate committed r); cbn [andb]; [|done]. destruct (dropped_in (h_table (header r)) l); cbn [orb negb]; [done|].
  rewrite filter_cons. destruct (dropped_in (h_table (header r)) after) eqn:Hd; cbn [negb].
  - by rewrite decide_False.
  - rewrite decide_True by done. by rewrite IH.
Qed.
Lemma replay_elem committed root r : r ∈ replay_spec committed root ↔ r ∈ live_before committed (log_records root) [].
Proof. rewrite replay_spec_records. by rewrite stable_sort_perm. Qed.

(** A log that ends in a tombstone of [t] and [more]. *)
Lemma replay_after_tombstone committed root root' t tomb more r :
  drops t tomb = true → log_records root' = log_records root ++ tomb :: more →
  r ∈ replay_spec committed root' ↔
    (r ∈ replay_spec committed root ∧ h_table (header r) ≠ t ∧ dropped_in (h_table (header r)) more = false) ∨
    r ∈ live_before committed more [].
Proof.
  intros Hd Hlog. rewrite !replay_elem, Hlog, live_before_app, elem_of_app, app_nil_r.
  apply bool_decide_eq_true in Hd as [Hop Ht]. rewrite live_before_filter, list_elem_of_filter.
  assert (live_before committed (tomb :: more) [] = live_before committed more []) as ->.
  { cbn [live_before]. assert (candidate committed tomb = false) as ->; [|done].
    destruct (candidate committed tomb) eqn:Hc; [|done]. apply candidate_append in Hc. congruence. }
  assert (dropped_in (h_table (header r)) (tomb :: more) = false ↔
    h_table (header r) ≠ t ∧ dropped_in (h_table (header r)) more = false) as ->; [|tauto].
  unfold dropped_in. cbn [existsb]. rewrite orb_false_iff. unfold drops at 1. rewrite bool_decide_eq_false. naive_solver.
Qed.

(** What the appending of a tombstone relies on. *)
Record tombstone_ok (te : TombstoneEnv) (n : Nd) (t : TableIdent) : Prop := {
  to_behind : Forall command_ok (te_behind te);
  to_set_len : io_set_len_ok (te_io te) = true;
  to_seq : (sw_next_seq (n_writer n) ≤ u64_max)%N;
  to_fits : payload_fits (drop_tombstone (te_now_v7 te) (te_now_ms te) t);
}.
Lemma tombstone_log te (n : Nd) t n' res :
  writer_inv (n_writer n) (n_root n) → tombstone_ok te n t →
  append_drop_tombstone (te_io te) (te_behind te) (te_now_v7 te) (te_now_ms te) (te_fails te) (te_torn te) n t = (n', res) →
  match res with
  | Ok _ => ∃ tomb more, drops t tomb = true ∧ log_records (n_root n') = log_records (n_root n) ++ tomb :: more
  | Err _ => log_records (n_root n') = log_records (n_root n)
  end.
Proof.
  intros Hw [Hb Hl Hs Hf]. unfold append_drop_tombstone.
  destruct (append _ _ _ _) as [n1 r1] eqn:Ha. apply append_spec in Ha as (_ & _ & Hlog); [|done..].
  destruct r1 as [u|e]; intros [= <- <-]; [|done]. destruct Hlog as [more Hlog].
  eexists _, more. split; [|rewrite <-Hlog; cbn [n_root set_log]; apply same_segments_log].
  - unfold drops. apply bool_decide_eq_true. done.
  - intros name Hname. apply checkpoint_log. by left.
Qed.

(** What the log answered to the tombstone of [t]. *)
Definition tombstone_reply (te : TombstoneEnv) (n : Nd) (t : TableIdent) : TeoDBResult unit :=
  (append_drop_tombstone (te_io te) (te_behind te) (te_now_v7 te) (te_now_ms te) (te_fails te) (te_torn te) (discard_table n t) t).2.

(** C8. A DROP TABLE that dropped the table, and whose tombstone the log acknowledged, changes a later replay exactly so:
    no record of the table from before the drop is returned any more; of the other tables every record is returned that
    was returned before, unless a tombstone appended behind this one drops it; and the rest are live records appended
    behind the tombstone.  A tombstone that was refused leaves the log as it was. *)
Theorem dropped_table_not_replayed env c (n : Nd) sql p c' n' deleted res (Hn : node_inv n)
    (Hte : tombstone_ok (de_tombstone env (dtp_ident p)) n (dtp_ident p))
    (Hplan : classify_sql (de_parse env sql) sql = Ok (SqlDdl (PlanDropTable p)))
    (Hrun : route_sql warehouse storage env c n sql = (c', n', deleted, Ok (RouteDdl res)))
    (Hchanged : dr_changed res = true) :
  cat_tables c' !! dtp_ident p = None ∧
  match tombstone_reply (de_tombstone env (dtp_ident p)) n (dtp_ident p) with
  | Err _ => log_records (n_root n') = log_records (n_root n)
  | Ok _ => ∃ tomb more, drops (dtp_ident p) tomb = true ∧ log_records (n_root n') = log_records (n_root n) ++ tomb :: more ∧
     ∀ committed r, r ∈ replay_spec committed (n_root n') ↔
       (r ∈ replay_spec committed (n_root n) ∧ h_table (header r) ≠ dtp_ident p ∧ dropped_in (h_table (header r)) more = false) ∨
       r ∈ live_before committed more []
  end.
Proof.
  unfold route_sql in Hrun. rewrite Hplan in Hrun. destruct (execute _ _ _ _) as [[c1 d] [r|e]] eqn:Hex; simplify_eq.
  apply execute_exact in Hex. unfold result_exact in Hex. rewrite Hchanged in Hex. destruct Hex as [_ Heq].
  split; [by rewrite Heq, lookup_delete_eq|].
  unfold apply_post_ddl. rewrite Hchanged. unfold discard_dropped, append_tombstone, tombstone_reply.
  destruct (append_drop_tombstone _ _ _ _ _ _ _ _) as [n2 r2] eqn:Ha.
  assert (n_writer (discard_table n (dtp_ident p)) = n_writer n ∧ n_root (discard_table n (dtp_ident p)) = n_root n) as [Ew Er].
  { unfold discard_table, registry_remove. by destruct (n_buffers n !! _ ≫= _). }
  apply tombstone_log in Ha; [|rewrite Ew, Er; apply Hn|destruct Hte; split; rewrite ?Ew; done].
  rewrite Er in Ha. cbn [fst snd]. destruct r2 as [u|e]; [|done].
  destruct Ha as (tomb & more & Hd & Hlog). exists tomb, more. split_and!; [done..|].
  intros committed r. by eapply replay_after_tombstone.
Qed.
End effects.

(** ** A statement on a concrete node *)
#[export] Program Instance demo_catalog_laws : CatalogLaws DemoCatalog := {| cat_namespaces := dc_known; cat_tables := dc_tables |}.
Next Obligation. intros c t m Hm. apply elem_of_union_r, elem_of_map. exists t. split; [done|]. by eapply elem_of_dom_2. Qed.
Next Obligation. by intros c c' r [= <- <-]. Qed.
Next Obligation. by intros c ns c' r [= <- <-]. Qed.
Next Obligation. by intros c t c' r [= <- <-]. Qed.
Next Obligation.
  intros c ns props c' r. cbn. case_bool_decide as Hns; intros [= <- <-]; [done|]. split; [done|]. split; [done|].
  unfold dc_known. cbn. set_solver.
Qed.
Next Obligation.
  intros c ns c' r. cbn. case_bool_decide as Hns; [|by intros [= <- <-]]. case_bool_decide as Ht; intros [= <- <-]; [done|].
  split; [done|]. split; [done|]. unfold dc_known. cbn. set_solver.
Qed.
Next Obligation.
  intros c req c' r. cbn. case_bool_decide as Hns; [|by intros [= <- <-]].
  destruct (dc_tables c !! cr_ident req) eqn:Ht; intros [= <- <-]; [by split_and!|]. split; [|done].
  unfold dc_known in *. cbn. rewrite dom_insert_L, set_map_union_L, set_map_singleton_L. set_solver.
Qed.
Next Obligation.
  intros c t c' r. cbn. destruct (dc_tables c !! t) eqn:Ht; intros [= <- <-]; [|done]. split; [|by split].
  unfold dc_known. cbn. rewrite dom_delete_L. set_solver.
Qed.

Section demo.
#[local] Existing Instances demo_uuid_text demo_checkpoint_json demo_identity_json demo_committed_json demo_wal_codec
  demo_wal_codec_laws demo_json_text demo_record_ops demo_arrow.
Abbreviation events := WriteProtocol.demo_table.
Definition demo_events_buffer : @TableBuffer (@RecordBatch demo_wal_codec) unit unit unit :=
  with_committed_grace (TableBuffer_new events demo_lake_metadata 3 1000 800) 50.
Definition demo_loaded : @Node unit unit unit demo_wal_codec :=
  set_heap demo_node [demo_events_buffer] {[ events := 0 ]}.
(** A node with a buffer of [events] and a record of it in the log. *)
Definition demo_ddl_node : @Node unit unit unit demo_wal_codec := (append io_fine [] demo_loaded (demo_append 4)).1.

Lemma demo_ddl_node_inv : node_inv demo_ddl_node.
Proof.
  unfold demo_ddl_node. destruct (append io_fine [] demo_loaded (demo_append 4)) as [n r] eqn:Ha.
  apply append_spec in Ha as (Hn & Hw & _); [|exact (ni_writer _ demo_node_inv)|done|done|done|].
  - cbn [fst]. rewrite Hn. split; cbn [n_heap n_buffers set_log n_writer n_root set_heap demo_loaded]; [| |done].
    + constructor; [|constructor]. by apply inv_new.
    + intros i ref [<- <-]%lookup_singleton_Some. by eexists.
  - apply (demo_append_fits 4 (demo_frame (demo_append 4))); vm_compute; reflexivity.
Qed.

Definition demo_drop_stmt (if_exists : bool) : Statement := StDrop TableObject [[PIdent "analytics"; PIdent "events"]] if_exists false.
Definition demo_ddl_env (stmt : Statement) : DdlEnv :=
  mkDdlEnv (λ _, Ok [stmt]) (λ _, mkTombstoneEnv io_fine [] 901 0 (λ _, false) []) (λ l, l).
Definition demo_events_catalog : DemoCatalog :=
  mkDemoCatalog ∅ {[ events := demo_created (create_request events (mkSchemaDefinition 0 [] []) (table_location demo_warehouse "analytics" "events")
    (mkUnboundPartitionSpec None []) ∅) ]}.

Lemma demo_tombstone_fits : payload_fits (drop_tombstone 901 0 events).
Proof. intros p Hp. vm_compute in Hp. injection Hp as <-. by vm_compute. Qed.

(** The table is dropped and nothing of it is replayed. *)
Lemma dropped_table_not_replayed_witness :
  replay_spec ∅ (n_root demo_ddl_node) = [demo_append 4] ∧
  let '(_, n', _, res) := route_sql demo_warehouse demo_store (demo_ddl_env (demo_drop_stmt false)) demo_events_catalog demo_ddl_node "DROP TABLE analytics.events" in
  ∃ tomb more, drops events tomb = true ∧ log_records (n_root n') = log_records (n_root demo_ddl_node) ++ tomb :: more.
Proof.
  split; [vm_compute; reflexivity|]. destruct (route_sql _ _ _ _ _ _) as [[[c' n'] deleted] res] eqn:Hrun.
  assert (res = Ok (RouteDdl (ddl_changed "Table {}.{} dropped"))) as ->.
  { apply (f_equal snd) in Hrun. cbn [snd] in Hrun. rewrite <-Hrun. vm_compute. reflexivity. }
  destruct (dropped_table_not_replayed demo_warehouse demo_store (demo_ddl_env (demo_drop_stmt false)) demo_events_catalog demo_ddl_node
    "DROP TABLE analytics.events" (mkDropTablePlan events false false) c' n' deleted (ddl_changed "Table {}.{} dropped") demo_ddl_node_inv) as [_ Hreplay]; [| |exact Hrun|done|].
  - split; [constructor|done|by vm_compute|apply demo_tombstone_fits].
  - vm_compute. reflexivity.
  - match type of Hreplay with context [tombstone_reply ?te ?n ?t] =>
      assert (tombstone_reply te n t = Ok tt) as Hok by (vm_compute; reflexivity) end.
    rewrite Hok in Hreplay. destruct Hreplay as (tomb & more & Hd & Hlog & _). exists tomb, more. exact (conj Hd Hlog).
Defined.

(** DROP TABLE IF EXISTS of a table that is not there leaves the buffer of that name alone. *)
Lemma ddl_keeps_live_tables_witness :
  let '(c', n', _, res) := route_sql demo_warehouse demo_store (demo_ddl_env (demo_drop_stmt true)) (mkDemoCatalog {["analytics"]} ∅) demo_ddl_node "DROP TABLE IF EXISTS analytics.events" in
  res = Ok (RouteDdl not_there) ∧ n' = demo_ddl_node.
Proof.
  destruct (route_sql _ _ _ _ _ _) as [[[c' n'] deleted] res] eqn:Hrun.
  assert (res = Ok (RouteDdl not_there) ∧ c' = mkDemoCatalog {["analytics"]} ∅) as [-> ->].
  { split; [apply (f_equal snd) in Hrun|apply (f_equal (fst ∘ fst ∘ fst)) in Hrun]; cbn [compose fst snd] in Hrun; rewrite <-Hrun; vm_compute; reflexivity. }
  split; [done|].
  destruct (ddl_keeps_live_tables demo_warehouse demo_store _ _ _ _ _ _ _ _ demo_ddl_node_inv Hrun) as (_ & _ & Hsame & _).
  apply Hsame; [by eexists|done].
Defined.

(** A principal with nothing but the right to query the cluster drops a table with a statement, although the endpoint for
    dropping refuses the principal. *)
Theorem sql_drop_needs_only_query :
  let reader := mkPrincipal "reader" ["reader"] ∅ in
  let rules := [mkRule "reader" "Query" "Cluster" true] in
  let authorizer := Some (authorize_rules rules) in
  let env := demo_ddl_env (demo_drop_stmt false) in
  (rest_drop_table demo_store authorizer reader (de_tombstone env) demo_events_catalog demo_ddl_node events false).2 ≠ Ok tt ∧
  let '(c', _, _, res) := query_sql demo_warehouse demo_store authorizer reader env demo_events_catalog demo_ddl_node "DROP TABLE analytics.events" in
  dc_tables c' = ∅ ∧ res = Ok (RouteDdl (ddl_changed "Table {}.{} dropped")).
Proof.
  cbv zeta. split; [by vm_compute|]. destruct (query_sql _ _ _ _ _ _ _ _) as [[[c' n'] deleted] res] eqn:Hrun.
  split; [apply (f_equal (fst ∘ fst ∘ fst)) in Hrun|apply (f_equal snd) in Hrun]; cbn [compose fst snd] in Hrun; rewrite <-Hrun; vm_compute; reflexivity.
Qed.
End demo.

(** The keyword [int8] is an 8-bit type over REST and a 64-bit type in SQL. *)
Theorem int8_keyword_differs :
  data_type_from_keyword "int8" = Ok TInt8 ∧ sql_type_to_teo SInt8T = Ok TInt64.
Proof. split; [vm_compute|]; reflexivity. Qed.

(** A declared precision is cut to eight bits: DECIMAL(260,2) makes a column of precision 4, and DECIMAL(256) one of
    precision 0. *)
Theorem decimal_precision_wraps :
  sql_type_to_teo (SDecimal (PrecisionAndScale 260 2)) = Ok (TDecimal128 4 2) ∧
  sql_type_to_teo (SDecimal (Precision 256)) = Ok (TDecimal128 0 0).
Proof. split; vm_compute; reflexivity. Qed.

(** A number of buckets or a width of zero is accepted, although a refusal says that a positive integer is expected. *)
Theorem zero_buckets_accepted col :
  parse_partition_expr (EFunction "bucket" (FList [Unnamed (AExpr (EValue "0")); Unnamed (AExpr (EIdentifier col))])) =
    Ok (mkFieldDef col (DBucket 0)) ∧
  parse_transform "truncate(0)" = Ok (DTruncate 0).
Proof. split; vm_compute; reflexivity. Qed.
