(* ===== verification/QueryRows.v ===== *)
(** * The rows of a query response

    Models [teodb-api/src/http/query/json_rows.rs] and the loop over the result stream
    in [teodb-api/src/http/query/execute.rs].  The JSON writer of Arrow is given by the
    chunks it writes to its sink; a [usize] has 64 bits.  Metrics are left out. *)

From Stdlib Require Import Strings.Byte.
From S2P Require Import Prelude Core WalFrame.
Open Scope nat_scope.
Open Scope list_scope.

(** Arrow's batches and its array writer: the chunks of writing a batch and of finishing. *)
Class JsonArrayWriter (Batch : Type) := {
  jw_num_rows : Batch → N;
  jw_slice : Batch → N → Batch;
  jw_memory_size : Batch → N;
  jw_write : Batch → list (list byte) * option string;
  jw_finish : Batch → list (list byte) * option string;
  (** [String::from_utf8] and [RawValue::from_string]. *)
  jw_valid_json : list byte → bool;
}.

Definition MIN_JSON_CONVERSION_INPUT_BYTES : N := 65536.

(** ** The bounded sink *)
Record BoundedJsonBuffer := mkSink { sk_bytes : list byte; sk_limit : N; sk_exceeded : bool }.
Definition sink_write (self : BoundedJsonBuffer) (buffer : list byte) : BoundedJsonBuffer * bool :=
  let exceeded := (mkSink (sk_bytes self) (sk_limit self) true, false) in
  match u64_checked_add (lenN (sk_bytes self)) (lenN buffer) with
  | None => exceeded
  | Some projected =>
      if (sk_limit self <? projected)%N then exceeded
      else (mkSink (sk_bytes self ++ buffer) (sk_limit self) (sk_exceeded self), true)
  end.
(** The writer gives up at the first failing write, and with its own error after its chunks. *)
Fixpoint sink_chunks (self : BoundedJsonBuffer) (chunks : list (list byte)) : BoundedJsonBuffer * bool :=
  match chunks with
  | [] => (self, true)
  | chunk :: chunks => match sink_write self chunk with (self, true) => sink_chunks self chunks | r => r end
  end.
Definition run_writer (self : BoundedJsonBuffer) (output : list (list byte) * option string) : BoundedJsonBuffer * result string unit :=
  match sink_chunks self output.1 with
  | (self, false) => (self, Err "JSON result byte limit exceeded")
  | (self, true) => (self, match output.2 with Some e => Err e | None => Ok tt end)
  end.

(** ** The rows writer *)
Record JsonRowsWriter := mkRowsWriter { rw_rows : list byte; rw_remaining : N; rw_written : N; rw_max_bytes : N }.
Definition rows_writer_new (limit max_bytes : N) : JsonRowsWriter := mkRowsWriter [x5b] limit 0 max_bytes.

Definition result_too_large (self : JsonRowsWriter) : TeoDBError := ResultTooLarge (rw_max_bytes self).
Definition json_error (self : JsonRowsWriter) (context : string) (exceeded : bool) : TeoDBError :=
  if exceeded then result_too_large self else Internal context.

Definition strip_brackets (encoded : list byte) : option (list byte) :=
  match encoded with
  | x5b :: rest => match last rest with Some x5d => Some (removelast rest) | _ => None end
  | _ => None
  end.

Section rows.
Context {Batch : Type} `{JsonArrayWriter Batch}.

Definition encode_batch (self : JsonRowsWriter) (inner_budget : N) (to_write : Batch) : TeoDBResult (list byte) :=
  let sink := mkSink [] (u64_saturating_add inner_budget 2) false in
  match run_writer sink (jw_write to_write) with
  | (sink, Err _) => Err (json_error self "JSON serialization failed: {error}" (sk_exceeded sink))
  | (sink, Ok _) =>
      match run_writer sink (jw_finish to_write) with
      | (sink, Err _) => Err (json_error self "JSON writer finish failed: {error}" (sk_exceeded sink))
      | (sink, Ok _) => ok_or (strip_brackets (sk_bytes sink)) (Internal "JSON writer produced a non-array result")
      end
  end.

Definition write_batch (self : JsonRowsWriter) (batch : Batch) : JsonRowsWriter * TeoDBResult bool :=
  if (rw_remaining self =? 0)%N then (self, Ok false)
  else
    let take := N.min (jw_num_rows batch) (rw_remaining self) in
    let to_write := if (take <? jw_num_rows batch)%N then jw_slice batch take else batch in
    let separator := if (0 <? rw_written self)%N && (0 <? take)%N then 1%N else 0%N in
    let fixed_bytes := u64_saturating_add (u64_saturating_add (lenN (rw_rows self)) separator) 1 in
    if (rw_max_bytes self <? fixed_bytes)%N then (self, Err (result_too_large self))
    else
      let inner_budget := (rw_max_bytes self - fixed_bytes)%N in
      if (N.max (rw_max_bytes self) MIN_JSON_CONVERSION_INPUT_BYTES <? jw_memory_size to_write)%N then (self, Err (result_too_large self))
      else
        match encode_batch self inner_budget to_write with
        | Err e => (self, Err e)
        | Ok inner =>
            let projected := u64_saturating_add (u64_saturating_add (u64_saturating_add (lenN (rw_rows self)) separator) (lenN inner)) 1 in
            if (rw_max_bytes self <? projected)%N then (self, Err (result_too_large self))
            else
              let rows := rw_rows self ++ (if (separator =? 1)%N then [x2c] else []) ++ inner in
              let remaining := (rw_remaining self - take)%N in
              (mkRowsWriter rows remaining (rw_written self + take) (rw_max_bytes self), Ok (0 <? remaining)%N)
        end.

Definition finish_rows (self : JsonRowsWriter) : TeoDBResult (list byte * N) :=
  if (rw_max_bytes self <? u64_saturating_add (lenN (rw_rows self)) 1)%N then Err (result_too_large self)
  else
    let json := rw_rows self ++ [x5d] in
    if jw_valid_json json then Ok (json, rw_written self) else Err (Internal "JSON writer produced invalid JSON: {e}").

(** ** The loop over the stream *)

(** What a poll of the stream within the deadline gave. *)
Inductive Polled := PolledTimeout | PolledEnd | PolledError (e : string) | PolledBatch (b : Batch).
Fixpoint write_stream (self : JsonRowsWriter) (polls : list Polled) : TeoDBResult JsonRowsWriter :=
  match polls with
  | [] | PolledEnd :: _ => Ok self
  | PolledTimeout :: _ => Err (QueryExecution "query timed out after {} seconds")
  | PolledError _ :: _ => Err (QueryExecution "streaming error: {e}")
  | PolledBatch batch :: polls =>
      match write_batch self batch with
      | (self, Ok true) => write_stream self polls
      | (self, Ok false) => Ok self
      | (_, Err e) => Err e
      end
  end.
Definition query_rows (limit max_bytes : N) (polls : list Polled) : TeoDBResult (list byte * N) :=
  writer ← write_stream (rows_writer_new limit max_bytes) polls; finish_rows writer.
End rows.

(** ** The reference: one JSON array of the rows *)
Fixpoint join_bytes (l : list (list byte)) : list byte :=
  match l with
  | [] => []
  | [x] => x
  | x :: l => x ++ x2c :: join_bytes l
  end.
Definition array_text (rows : list (list byte)) : list byte := x5b :: join_bytes rows ++ [x5d].

(** What Arrow's writer writes: an array of one text per row. *)
Class JsonArrayLaws (Batch : Type) `{JsonArrayWriter Batch} := {
  row_texts : Batch → list (list byte);
  row_texts_length b : lenN (row_texts b) = jw_num_rows b;
  row_texts_slice b k : (k ≤ jw_num_rows b)%N → row_texts (jw_slice b k) = take (N.to_nat k) (row_texts b);
  array_written b : (jw_write b).2 = None → (jw_finish b).2 = None →
    concat (jw_write b).1 ++ concat (jw_finish b).1 = array_text (row_texts b);
  array_valid rows : Forall (λ t, ∃ b, t ∈ row_texts b) rows → jw_valid_json (array_text rows) = true;
}.

Definition list_comma (r t : list (list byte)) : list byte :=
  match r, t with [], _ | _, [] => [] | _, _ => [x2c] end.
Lemma join_bytes_app r t : join_bytes (r ++ t) = join_bytes r ++ list_comma r t ++ join_bytes t.
Proof.
  induction r as [|x r IH]; [done|]. destruct r as [|y r].
  - destruct t; simpl; [by rewrite !app_nil_r|done].
  - change (join_bytes ((x :: y :: r) ++ t)) with (x ++ x2c :: join_bytes ((y :: r) ++ t)). rewrite IH.
    change (join_bytes (x :: y :: r)) with (x ++ x2c :: join_bytes (y :: r)). rewrite <-app_assoc. simpl. by destruct t.
Qed.
Lemma strip_array rows : strip_brackets (array_text rows) = Some (join_bytes rows).
Proof. unfold strip_brackets, array_text. by rewrite last_snoc, removelast_last. Qed.
Lemma lenN_list_app {A} (l k : list A) : lenN (l ++ k) = (lenN l + lenN k)%N.
Proof. unfold lenN. rewrite length_app. lia. Qed.

(** A sink takes what fits and flags what does not. *)
Lemma sink_chunks_spec bytes limit chunks :
  (limit ≤ u64_max)%N → (lenN bytes ≤ limit)%N →
  if (lenN bytes + lenN (concat chunks) <=? limit)%N
  then sink_chunks (mkSink bytes limit false) chunks = (mkSink (bytes ++ concat chunks) limit false, true)
  else ∃ s, sink_chunks (mkSink bytes limit false) chunks = (s, false) ∧ sk_exceeded s = true.
Proof.
  intros Hl. revert bytes. induction chunks as [|c chunks IH]; intros bytes Hb.
  { change (lenN (concat [])) with 0%N. rewrite N.add_0_r, (proj2 (N.leb_le _ _)) by done. cbn [concat]. by rewrite app_nil_r. }
  cbn [concat sink_chunks]. unfold sink_write. cbn [sk_bytes sk_limit sk_exceeded]. rewrite lenN_list_app.
  destruct (u64_checked_add _ _) as [p|] eqn:Hp.
  - apply u64_checked_add_Some in Hp as [-> _]. destruct (N.ltb_spec limit (lenN bytes + lenN c)).
    + rewrite (proj2 (N.leb_gt _ _)) by lia. by eexists.
    + specialize (IH (bytes ++ c)). rewrite lenN_list_app, <-app_assoc, <-N.add_assoc in IH. apply IH. lia.
  - rewrite (proj2 (N.leb_gt _ _)); [by eexists|].
    unfold u64_checked_add in Hp. destruct (N.leb_spec (lenN bytes + lenN c) u64_max); [done|lia].
Qed.
Lemma run_writer_spec bytes limit output :
  (limit ≤ u64_max)%N → (lenN bytes ≤ limit)%N → output.2 = None →
  if (lenN bytes + lenN (concat output.1) <=? limit)%N
  then run_writer (mkSink bytes limit false) output = (mkSink (bytes ++ concat output.1) limit false, Ok tt)
  else ∃ s e, run_writer (mkSink bytes limit false) output = (s, Err e) ∧ sk_exceeded s = true.
Proof.
  intros Hl Hb He. pose proof (sink_chunks_spec bytes limit output.1 Hl Hb) as Hs. unfold run_writer. rewrite He.
  destruct (_ <=? _)%N; [by rewrite Hs|]. destruct Hs as (s & -> & Hx). by do 2 eexists.
Qed.

Section laws.
Context {Batch : Type} `{JsonArrayLaws Batch}.
Definition encodable (b : Batch) : Prop := (jw_write b).2 = None ∧ (jw_finish b).2 = None.

Lemma encode_batch_spec self budget b :
  (budget + 2 ≤ u64_max)%N → encodable b →
  encode_batch self budget b =
    if (lenN (join_bytes (row_texts b)) <=? budget)%N then Ok (join_bytes (row_texts b)) else Err (result_too_large self).
Proof.
  intros Hb [Hw Hf]. unfold encode_batch. assert (u64_saturating_add budget 2 = budget + 2)%N as -> by (unfold u64_saturating_add; lia).
  pose proof (array_written b Hw Hf) as Ht.
  assert (lenN (concat (jw_write b).1) + lenN (concat (jw_finish b).1) = lenN (join_bytes (row_texts b)) + 2)%N as Hlen.
  { rewrite <-lenN_list_app, Ht. unfold array_text, lenN. simpl. rewrite length_app. simpl. lia. }
  pose proof (run_writer_spec [] (budget + 2) (jw_write b) ltac:(lia) (N.le_0_l _) Hw) as H1.
  change (lenN [] + lenN (concat (jw_write b).1))%N with (lenN (concat (jw_write b).1)) in H1.
  destruct (N.leb_spec (lenN (concat (jw_write b).1)) (budget + 2)) as [Hle|Hgt].
  - rewrite H1. cbn [app]. pose proof (run_writer_spec (concat (jw_write b).1) (budget + 2) (jw_finish b) ltac:(lia) Hle Hf) as H2.
    rewrite Hlen in H2. replace (lenN (join_bytes (row_texts b)) + 2 <=? budget + 2)%N with (lenN (join_bytes (row_texts b)) <=? budget)%N in H2.
    2: { apply eq_iff_eq_true. rewrite !N.leb_le. lia. }
    destruct (_ <=? budget)%N; [rewrite H2; cbn [sk_bytes]; by rewrite Ht, strip_array|].
    destruct H2 as (s & e & -> & Hx). by rewrite Hx.
  - destruct H1 as (s & e & -> & Hx). rewrite Hx. rewrite (proj2 (N.leb_gt _ _)) by lia. done.
Qed.

(** The writer after [rows]. *)
Definition writer_at (limit max_bytes : N) (rows : list (list byte)) : JsonRowsWriter :=
  mkRowsWriter (x5b :: join_bytes rows) (limit - lenN rows) (lenN rows) max_bytes.
(** Slices up to [max_bytes] are converted. *)
Definition convertible (max_bytes : N) (b : Batch) : Prop :=
  ∀ b', b' = b ∨ (∃ k, b' = jw_slice b k) → encodable b' ∧ (jw_memory_size b' ≤ N.max max_bytes MIN_JSON_CONVERSION_INPUT_BYTES)%N.

Lemma lenN_array_text rows : lenN (array_text rows) = (lenN (join_bytes rows) + 2)%N.
Proof. unfold array_text, lenN. simpl. rewrite length_app. simpl. lia. Qed.
Lemma list_comma_sep r t :
  (if (0 <? lenN r)%N && (0 <? lenN t)%N then 1%N else 0%N) = lenN (list_comma r t) ∧
  (if ((if (0 <? lenN r)%N && (0 <? lenN t)%N then 1%N else 0%N) =? 1)%N then [x2c] else []) = list_comma r t.
Proof. by destruct r, t. Qed.

Lemma write_batch_spec limit max_bytes rows b :
  (max_bytes < u64_max)%N → (lenN rows < limit)%N → convertible max_bytes b →
  let rows' := rows ++ take (N.to_nat (limit - lenN rows)) (row_texts b) in
  write_batch (writer_at limit max_bytes rows) b =
    if (lenN (array_text rows') <=? max_bytes)%N
    then (writer_at limit max_bytes rows', Ok (0 <? limit - lenN rows')%N)
    else (writer_at limit max_bytes rows, Err (ResultTooLarge max_bytes)).
Proof.
  intros Hmax Hlim Hconv rows'. unfold write_batch. cbn [writer_at rw_remaining rw_rows rw_written rw_max_bytes].
  rewrite (proj2 (N.eqb_neq _ _)) by lia. set (todo := (limit - lenN rows)%N). set (k := N.min (jw_num_rows b) todo).
  set (t := take (N.to_nat todo) (row_texts b)). pose proof (row_texts_length b) as Hrows.
  assert (lenN t = k) as Hk by (unfold t, k, lenN in *; rewrite length_take; lia).
  set (w := if (k <? jw_num_rows b)%N then jw_slice b k else b).
  assert (row_texts w = t) as Hw.
  { unfold w, t. destruct (N.ltb_spec k (jw_num_rows b)) as [Hlt|Hge].
    - rewrite row_texts_slice by lia. f_equal. unfold k in *. lia.
    - symmetry. apply take_ge. unfold k, lenN in *. lia. }
  destruct (Hconv w) as [Henc Hmem]; [unfold w; destruct (_ <? _)%N; [right; by eexists|by left]|].
  rewrite <-Hk. destruct (list_comma_sep rows t) as [Hsep Hcomma]. rewrite Hcomma, Hsep.
  rewrite (proj2 (N.ltb_ge _ _) Hmem).
  assert (lenN (array_text rows') = lenN (x5b :: join_bytes rows) + lenN (list_comma rows t) + lenN (join_bytes t) + 1)%N as Htotal.
  { rewrite lenN_array_text. unfold rows'. fold todo t. rewrite join_bytes_app, !lenN_list_app. unfold lenN at 4. simpl. unfold lenN. lia. }
  rewrite Htotal. set (a := lenN (x5b :: join_bytes rows)) in *. set (c := lenN (list_comma rows t)) in *.
  unfold u64_saturating_add.
  assert (lenN rows' = lenN rows + lenN t)%N as Hlen' by (unfold rows'; fold todo t; apply lenN_list_app).
  destruct (N.ltb_spec max_bytes (N.min (N.min (a + c) u64_max + 1) u64_max)) as [Hover|Hfits].
  { rewrite (proj2 (N.leb_gt _ _)) by lia. done. }
  rewrite encode_batch_spec, Hw by (done || lia).
  destruct (N.leb_spec (lenN (join_bytes t)) (max_bytes - N.min (N.min (a + c) u64_max + 1) u64_max)) as [Hin|Hout]; last first.
  { rewrite (proj2 (N.leb_gt _ _)) by lia. done. }
  rewrite (proj2 (N.ltb_ge _ _)) by lia. rewrite (proj2 (N.leb_le _ _)) by lia.
  unfold writer_at. rewrite Hlen', N.sub_add_distr. fold todo. f_equal. f_equal.
  unfold rows'. fold todo t. by rewrite join_bytes_app.
Qed.

Lemma array_text_mono r t : (lenN (array_text r) ≤ lenN (array_text (r ++ t)))%N.
Proof. rewrite !lenN_array_text, join_bytes_app, !lenN_list_app. lia. Qed.

Lemma write_stream_spec limit max_bytes bs : (max_bytes < u64_max)%N → Forall (convertible max_bytes) bs →
  ∀ rows, (lenN rows < limit)%N → (lenN (array_text rows) ≤ max_bytes)%N ∨ bs ≠ [] →
  let all := rows ++ take (N.to_nat (limit - lenN rows)) (concat (map row_texts bs)) in
  write_stream (writer_at limit max_bytes rows) (map PolledBatch bs ++ [PolledEnd]) =
    if (lenN (array_text all) <=? max_bytes)%N then Ok (writer_at limit max_bytes all) else Err (ResultTooLarge max_bytes).
Proof.
  intros Hmax. induction 1 as [|b bs Hb Hbs IH]; intros rows Hlim Hfit; cbn [map concat app write_stream].
  { rewrite take_nil, app_nil_r. destruct Hfit as [Hfit|]; [|done]. by rewrite (proj2 (N.leb_le _ _)). }
  rewrite write_batch_spec by done. set (rows' := rows ++ take (N.to_nat (limit - lenN rows)) (row_texts b)).
  assert (rows ++ take (N.to_nat (limit - lenN rows)) (row_texts b ++ concat (map row_texts bs)) =
          rows' ++ take (N.to_nat (limit - lenN rows')) (concat (map row_texts bs))) as ->.
  { unfold rows'. rewrite <-app_assoc, take_app. f_equal. f_equal. f_equal. unfold lenN. rewrite length_app, length_take. lia. }
  destruct (N.leb_spec (lenN (array_text rows')) max_bytes) as [Hle|Hgt]; last first.
  { rewrite (proj2 (N.leb_gt _ _)); [done|]. eapply N.lt_le_trans; [exact Hgt|apply array_text_mono]. }
  destruct (N.ltb_spec 0 (limit - lenN rows')) as [Hmore|Hdone]; [apply IH; [lia|by left]|].
  replace (limit - lenN rows')%N with 0%N by lia. cbn [N.to_nat take]. rewrite app_nil_r.
  by rewrite (proj2 (N.leb_le _ _)).
Qed.

Lemma finish_rows_spec limit max_bytes rows :
  (max_bytes < u64_max)%N → Forall (λ t, ∃ b, t ∈ row_texts b) rows →
  finish_rows (writer_at limit max_bytes rows) =
    if (lenN (array_text rows) <=? max_bytes)%N then Ok (array_text rows, lenN rows) else Err (ResultTooLarge max_bytes).
Proof.
  intros Hmax Hrows. unfold finish_rows. cbn [writer_at rw_rows rw_max_bytes rw_written].
  assert (lenN (x5b :: join_bytes rows) + 1 = lenN (array_text rows))%N as Hlen by (rewrite lenN_array_text; unfold lenN; simpl; lia).
  unfold u64_saturating_add. rewrite Hlen. change ((x5b :: join_bytes rows) ++ [x5d]) with (array_text rows). rewrite array_valid by done.
  destruct (N.ltb_spec max_bytes (N.min (lenN (array_text rows)) u64_max)).
  - by rewrite (proj2 (N.leb_gt _ _)) by lia.
  - by rewrite (proj2 (N.leb_le _ _)) by lia.
Qed.

(** C20. When the stream ends in time, the response holds exactly the JSON array of the first [limit] rows and their number
    if that array fits the byte budget, and the query fails as too large otherwise; the budget is never exceeded and never
    refuses an array that fits. *)
Theorem query_rows_exact limit max_bytes bs (Hmax : (max_bytes < u64_max)%N) (Hbs : Forall (convertible max_bytes) bs) :
  let rows := take (N.to_nat limit) (concat (map row_texts bs)) in
  query_rows limit max_bytes (map PolledBatch bs ++ [PolledEnd]) =
    if (lenN (array_text rows) <=? max_bytes)%N then Ok (array_text rows, lenN rows) else Err (ResultTooLarge max_bytes).
Proof.
  intros rows. unfold query_rows.
  assert (Forall (λ t, ∃ b, t ∈ row_texts b) rows) as Hrows.
  { apply Forall_take, Forall_concat, Forall_fmap, Forall_forall. intros b _. apply Forall_forall. by exists b. }
  assert (rows_writer_new limit max_bytes = writer_at limit max_bytes []) as ->.
  { unfold rows_writer_new, writer_at. f_equal. unfold lenN. simpl. lia. }
  destruct (decide (limit = 0%N)) as [->|Hlim].
  { assert (write_stream (writer_at 0 max_bytes []) (map PolledBatch bs ++ [PolledEnd]) = Ok (writer_at 0 max_bytes [])) as ->
      by (by destruct bs). cbn [mbind result_bind]. by apply finish_rows_spec. }
  destruct (decide (bs = [])) as [->|Hne].
  { cbn [map app write_stream mbind result_bind]. unfold rows. cbn [map concat]. rewrite take_nil. by apply finish_rows_spec. }
  rewrite write_stream_spec by (done || (by right) || (unfold lenN; simpl; lia)).
  change (lenN []) with 0%N. rewrite N.sub_0_r. change ([] ++ ?l) with l. fold rows.
  destruct (lenN (array_text rows) <=? max_bytes)%N eqn:Hle; [|done]. cbn [mbind result_bind].
  by rewrite finish_rows_spec, Hle.
Qed.
End laws.

(** ** A writer over row texts, for evaluation *)
Definition demo_array_writer : JsonArrayWriter (list (list byte)) := {|
  jw_num_rows b := lenN b; jw_slice b k := take (N.to_nat k) b; jw_memory_size b := (8 * lenN b)%N;
  jw_write b := ([[x5b]; join_bytes b], None); jw_finish b := ([[x5d]], None); jw_valid_json _ := true |}.
#[export] Instance demo_array_laws : JsonArrayLaws (list (list byte)) (H := demo_array_writer).
Proof.
  refine (@Build_JsonArrayLaws _ demo_array_writer (λ b, b) _ _ _ _); [done|done| |done].
  intros b _ _. cbn. by rewrite !app_nil_r.
Defined.

(** Three rows in two batches, two of them asked for. *)
Lemma query_rows_exact_witness :
  query_rows (H := demo_array_writer) 2 5 (map PolledBatch [[[x31]]; [[x32]; [x33]]] ++ [PolledEnd]) =
    Ok ([x5b; x31; x2c; x32; x5d], 2%N) ∧
  query_rows (H := demo_array_writer) 2 4 (map PolledBatch [[[x31]]; [[x32]; [x33]]] ++ [PolledEnd]) = Err (ResultTooLarge 4).
Proof.
  assert (∀ m, (4 ≤ m)%N → Forall (convertible (H := demo_array_writer) m) [[[x31]]; [[x32]; [x33]]]) as Hconv.
  { intros m Hm. apply Forall_forall. intros b Hb b' Hb'. assert (length b ≤ 2) by (repeat (apply elem_of_cons in Hb as [->|Hb]; [simpl; lia|]); by apply elem_of_nil in Hb).
    split; [done|]. destruct Hb' as [->|[k ->]]; cbn; unfold lenN, MIN_JSON_CONVERSION_INPUT_BYTES; rewrite ?length_take; cbn [length]; lia. }
  split.
  - rewrite (query_rows_exact (H := demo_array_writer) 2 5 [[[x31]]; [[x32]; [x33]]] eq_refl (Hconv 5%N ltac:(lia))). reflexivity.
  - rewrite (query_rows_exact (H := demo_array_writer) 2 4 [[[x31]]; [[x32]; [x33]]] eq_refl (Hconv 4%N ltac:(lia))). reflexivity.
Defined.
