(* ===== verification/Lifecycle.v ===== *)
(** * Role lifecycle and shutdown

    Models [teodb-core/src/lifecycle.rs] with every atomic access a step of its own,
    [request_drain] of [teodb-server/src/server/shutdown.rs], the flush loop of
    [teodb-ingest/src/flush/loop.rs] and the order in which
    [teodb-server/src/server/application.rs] drains a data node.  Threads interleave at
    atomic accesses; memory is sequentially consistent. *)

From S2P Require Import Prelude Core.
Open Scope nat_scope.
Open Scope list_scope.

(** ** States *)
Inductive RoleState := Starting | Ready | Draining | Stopped | Failed.
#[export] Instance RoleState_eq_dec : EqDecision RoleState.
Proof. solve_decision. Defined.
Definition state_u8 (s : RoleState) : N := match s with Starting => 0 | Ready => 1 | Draining => 2 | Stopped => 3 | Failed => 4 end.
Definition from_u8 (v : N) : RoleState :=
  if (v =? 0)%N then Starting else if (v =? 1)%N then Ready else if (v =? 2)%N then Draining else if (v =? 3)%N then Stopped else Failed.
Definition is_serving (s : RoleState) : bool := match s with Ready => true | _ => false end.
Definition is_terminal (s : RoleState) : bool := match s with Stopped | Failed => true | _ => false end.

(** ** The tracker: an atomic byte and the reason of a failure *)
Record RoleLifecycle := mkLifecycle { rl_state : N; rl_failure_reason : option string }.
Definition lifecycle_new : RoleLifecycle := mkLifecycle (state_u8 Starting) None.
Definition lifecycle_state (l : RoleLifecycle) : RoleState := from_u8 (rl_state l).
Definition compare_exchange (l : RoleLifecycle) (current new : N) : RoleLifecycle * bool :=
  if (rl_state l =? current)%N then (mkLifecycle new (rl_failure_reason l), true) else (l, false).

(** Where a thread is in a call: before it, between the load and the exchange, before the reason is written, and done. *)
Inductive Call := MarkReady | MarkDraining | MarkStopped | MarkFailed.
Inductive Pc :=
| Entry (call : Call) (reason : string)
| DrainLoaded (current : N)
| FailLoaded (current : N) (reason : string)
| FailReason (reason : string)
| Returned (call : Call) (ok : bool).

Definition mark_ready (l : RoleLifecycle) : RoleLifecycle * bool := compare_exchange l (state_u8 Starting) (state_u8 Ready).
Definition mark_stopped (l : RoleLifecycle) : RoleLifecycle * bool := compare_exchange l (state_u8 Draining) (state_u8 Stopped).
(** [mark_draining]: the load, then the exchange. *)
Definition draining_load (l : RoleLifecycle) : Pc :=
  let current := rl_state l in
  if (current =? state_u8 Starting)%N || (current =? state_u8 Ready)%N then DrainLoaded current else Returned MarkDraining false.
Definition draining_exchange (l : RoleLifecycle) (current : N) : RoleLifecycle * bool :=
  compare_exchange l current (state_u8 Draining).
(** [mark_failed]: the load, the exchange, the reason. *)
Definition failed_load (l : RoleLifecycle) (reason : string) : Pc :=
  let current := rl_state l in
  if is_terminal (from_u8 current) then Returned MarkFailed false else FailLoaded current reason.
Definition failed_exchange (l : RoleLifecycle) (current : N) (reason : string) : RoleLifecycle * Pc :=
  match compare_exchange l current (state_u8 Failed) with
  | (l, true) => (l, FailReason reason)
  | (l, false) => (l, Returned MarkFailed false)
  end.
Definition failed_reason (l : RoleLifecycle) (reason : string) : RoleLifecycle := mkLifecycle (rl_state l) (Some reason).

(** One atomic access of a thread. *)
Definition returned (call : Call) (r : RoleLifecycle * bool) : RoleLifecycle * Pc := (r.1, Returned call r.2).
Definition thread_step (l : RoleLifecycle) (pc : Pc) : option (RoleLifecycle * Pc) :=
  match pc with
  | Entry MarkReady _ => Some (returned MarkReady (mark_ready l))
  | Entry MarkStopped _ => Some (returned MarkStopped (mark_stopped l))
  | Entry MarkDraining _ => Some (l, draining_load l)
  | DrainLoaded current => Some (returned MarkDraining (draining_exchange l current))
  | Entry MarkFailed reason => Some (l, failed_load l reason)
  | FailLoaded current reason => Some (failed_exchange l current reason)
  | FailReason reason => Some (failed_reason l reason, Returned MarkFailed true)
  | Returned _ _ => None
  end.

(** Some thread makes its next access; new calls start at any time. *)
Inductive lifecycle_step : RoleLifecycle * list Pc → RoleLifecycle * list Pc → Prop :=
| step_call l pcs call reason : lifecycle_step (l, pcs) (l, pcs ++ [Entry call reason])
| step_thread l pcs i pc l' pc' :
    pcs !! i = Some pc → thread_step l pc = Some (l', pc') → lifecycle_step (l, pcs) (l', <[i := pc']> pcs).

(** Runs a schedule: the [n]th entry names the thread that makes the [n]th access. *)
Fixpoint run_threads (sched : list nat) (s : RoleLifecycle * list Pc) : RoleLifecycle * list Pc :=
  match sched with
  | [] => s
  | i :: sched =>
      run_threads sched match s.2 !! i with
                        | Some pc => match thread_step s.1 pc with Some (l, pc) => (l, <[i := pc]> s.2) | None => s end
                        | None => s
                        end
  end.

(** ** What the tracker promises *)
(** The transitions of the diagram, with the two the operations' own comments add: draining while still starting, and failing while draining. *)
Definition allowed (a b : RoleState) : Prop :=
  match a, b with
  | Starting, (Ready | Draining | Failed) | Ready, (Draining | Failed) | Draining, (Stopped | Failed) => True
  | _, _ => False
  end.
(** The states a call's own transition leads to or past. *)
Definition past (call : Call) (s : RoleState) : bool :=
  match call, s with
  | MarkReady, Starting | MarkDraining, (Starting | Ready) => false
  | MarkReady, _ | MarkDraining, _ => true
  | MarkStopped, Stopped | MarkFailed, Failed => true
  | _, _ => false
  end.
(** The thread made the transition of [call]. *)
Definition won (call : Call) (pc : Pc) : bool :=
  match call, pc with
  | MarkReady, Returned MarkReady true | MarkDraining, Returned MarkDraining true | MarkStopped, Returned MarkStopped true
  | MarkFailed, (Returned MarkFailed true | FailReason _) => true
  | _, _ => false
  end.
Definition winners (call : Call) (pcs : list Pc) : nat := length (filter (λ pc, won call pc = true) pcs).
#[global] Arguments winners : simpl never.
(** What a loaded byte can be. *)
Definition pc_ok (pc : Pc) : Prop :=
  match pc with
  | DrainLoaded current => current = state_u8 Starting ∨ current = state_u8 Ready
  | FailLoaded current _ => is_terminal (from_u8 current) = false
  | _ => True
  end.
Record lifecycle_inv (s : RoleLifecycle * list Pc) : Prop := {
  li_byte : ∃ r, rl_state s.1 = state_u8 r;
  li_pcs : Forall pc_ok s.2;
  li_reason : is_Some (rl_failure_reason s.1) → lifecycle_state s.1 = Failed;
  li_winners call : winners call s.2 ≤ if past call (lifecycle_state s.1) then 1 else 0;
}.

Lemma from_state_u8 r : from_u8 (state_u8 r) = r.
Proof. by destruct r. Qed.
Lemma compare_exchange_spec l current new l' ok :
  compare_exchange l current new = (l', ok) →
  (ok = true ∧ rl_state l = current ∧ l' = mkLifecycle new (rl_failure_reason l)) ∨ (ok = false ∧ l' = l).
Proof. unfold compare_exchange. destruct (N.eqb_spec (rl_state l) current); intros [= <- <-]; auto. Qed.

(** An access leaves the state and nobody wins, or it makes an allowed transition that its own call wins. *)
Definition quiet (l l' : RoleLifecycle) (pc pc' : Pc) : Prop :=
  l' = l ∧ ∀ call, won call pc' = false.
Definition wins (l l' : RoleLifecycle) (pc pc' : Pc) : Prop :=
  rl_failure_reason l' = rl_failure_reason l ∧ (∃ r, rl_state l' = state_u8 r) ∧
  allowed (lifecycle_state l) (lifecycle_state l') ∧
  ∀ call, won call pc' = true → past call (lifecycle_state l) = false ∧ past call (lifecycle_state l') = true.
Lemma exchange_wins l r new current call l' ok pc' :
  rl_state l = state_u8 r → compare_exchange l current (state_u8 new) = (l', ok) →
  (∀ c, won c pc' = true → c = call) → (ok = false → ∀ c, won c pc' = false) →
  (state_u8 r = current → allowed r new ∧ past call r = false ∧ past call new = true) →
  ∀ pc, quiet l l' pc pc' ∨ wins l l' pc pc'.
Proof.
  intros Hr Hc Hwon Hlost Hok pc.
  apply compare_exchange_spec in Hc as [(-> & Hs & ->)|(-> & ->)]; [right|left; split; auto].
  destruct Hok as (Ha & Hp & Hq); [congruence|].
  unfold wins, lifecycle_state. cbn. rewrite Hr, !from_state_u8.
  split_and!; [done|by exists new|done|]. by intros c ->%Hwon.
Qed.

Lemma thread_step_cases l r pc l' pc' :
  rl_state l = state_u8 r → pc_ok pc → thread_step l pc = Some (l', pc') →
  pc_ok pc' ∧ (quiet l l' pc pc' ∨ wins l l' pc pc' ∨
    (∃ reason, pc = FailReason reason ∧ rl_state l' = rl_state l ∧ ∀ call, won call pc' = won call pc)).
Proof.
  intros Hr Hpc. destruct pc as [[] reason|cur|cur reason|reason|call ok]; simpl; intros [= <- <-] || intros [= Hf] || done.
  - split; [done|]. destruct (mark_ready l) as [l1 ok] eqn:Hc. cbn.
    destruct (exchange_wins l r Ready _ MarkReady l1 ok (Returned MarkReady ok) Hr Hc) with (pc := Entry MarkReady reason); auto;
      [by intros []|intros -> []; done|by destruct r].
  - unfold draining_load. rewrite Hr. destruct r; cbn; split; auto; left; split; auto; by intros [].
  - split; [done|]. destruct (mark_stopped l) as [l1 ok] eqn:Hc. cbn.
    destruct (exchange_wins l r Stopped _ MarkStopped l1 ok (Returned MarkStopped ok) Hr Hc) with (pc := Entry MarkStopped reason); auto;
      [by intros []|intros -> []; done|by destruct r].
  - unfold failed_load. rewrite Hr, from_state_u8. destruct r; cbn; split; auto; left; split; auto; by intros [].
  - split; [done|]. destruct (draining_exchange l cur) as [l1 ok] eqn:Hc. cbn.
    destruct (exchange_wins l r Draining _ MarkDraining l1 ok (Returned MarkDraining ok) Hr Hc) with (pc := DrainLoaded cur); auto;
      [by intros []|intros -> []; done|]. destruct Hpc as [-> | ->]; by destruct r.
  - unfold failed_exchange in Hf. destruct (compare_exchange l cur (state_u8 Failed)) as [l1 ok] eqn:Hc.
    assert (Hcur : state_u8 r = cur → allowed r Failed ∧ past MarkFailed r = false ∧ past MarkFailed Failed = true).
    { intros <-. simpl in Hpc. rewrite from_state_u8 in Hpc. by destruct r. }
    destruct ok; injection Hf as <- <-; (split; [done|]).
    + destruct (exchange_wins l r Failed _ MarkFailed l1 true (FailReason reason) Hr Hc) with (pc := FailLoaded cur reason); auto; [by intros []|done].
    + destruct (exchange_wins l r Failed _ MarkFailed l1 false (Returned MarkFailed false) Hr Hc) with (pc := FailLoaded cur reason); auto; [by intros []|].
      intros _ []; done.
  - split; [done|]. right; right. exists reason. split_and!; [done|done|by intros []].
Qed.

Lemma winners_middle call l1 pc l2 : winners call (l1 ++ pc :: l2) = winners call l1 + (if won call pc then 1 else 0) + winners call l2.
Proof. unfold winners. rewrite filter_app, filter_cons, length_app. destruct (won call pc); case_decide; simplify_eq; cbn [length]; lia. Qed.
Lemma winners_insert call pcs i pc pc' :
  pcs !! i = Some pc →
  winners call (<[i := pc']> pcs) + (if won call pc then 1 else 0) = winners call pcs + (if won call pc' then 1 else 0).
Proof.
  intros Hi. pose proof (take_drop_middle pcs i pc Hi) as Hs. pose proof (winners_middle call (take i pcs) pc (drop (S i) pcs)) as Hw.
  rewrite Hs in Hw. rewrite insert_take_drop, winners_middle by eauto using lookup_lt_Some. lia.
Qed.
Lemma past_monotone a b call : allowed a b → past call a = true → past call b = true.
Proof. by destruct a, b, call. Qed.

Lemma lifecycle_inv_init : lifecycle_inv (lifecycle_new, []).
Proof. split; cbn; [by exists Starting|done|by intros []|]. intros call. change (winners call []) with 0. lia. Qed.

Lemma won_past s pc call i : lifecycle_inv s → s.2 !! i = Some pc → won call pc = true → past call (lifecycle_state s.1) = true.
Proof.
  intros Hs Hi Hw. pose proof (li_winners _ Hs call) as Hn. destruct (past call _); [done|].
  pose proof (winners_insert call s.2 i pc (Entry MarkReady EmptyString) Hi) as Hx. rewrite Hw in Hx.
  assert (won call (Entry MarkReady EmptyString) = false) as He by (by destruct call). rewrite He in Hx. lia.
Qed.

Lemma lifecycle_step_inv s s' :
  lifecycle_inv s → lifecycle_step s s' →
  lifecycle_inv s' ∧ (lifecycle_state s'.1 = lifecycle_state s.1 ∨ allowed (lifecycle_state s.1) (lifecycle_state s'.1)).
Proof.
  intros Hs Hstep. destruct Hstep as [l pcs call reason|l pcs i pc l' pc' Hi Hp]; cbn in *.
  - destruct Hs as [Hb Hpcs Hr Hw]. split; [|by left]. split; cbn in *; auto.
    + apply Forall_app; split; auto. by constructor.
    + intros c. specialize (Hw c). rewrite winners_middle. by destruct c; cbn; rewrite !Nat.add_0_r.
  - pose proof (won_past _ pc MarkFailed i Hs Hi) as Hpast. cbn in Hpast.
    destruct Hs as [[r Hb] Hpcs Hr Hw]. cbn in *.
    pose proof (Forall_lookup_1 _ _ _ _ Hpcs Hi) as Hok.
    destruct (thread_step_cases _ _ _ _ _ Hb Hok Hp) as [Hok' Hcases].
    assert (Hpcs' : Forall pc_ok (<[i:=pc']> pcs)) by (by apply Forall_insert).
    destruct Hcases as [[-> Hq]|[(Hf & Hb' & Ha & Hwin)|(reason & -> & Hl & Hq)]].
    + split; [|by left]. split; cbn; eauto. intros c. specialize (Hw c). pose proof (winners_insert c _ _ _ pc' Hi). rewrite Hq in *. lia.
    + split; [|by right]. split; cbn; auto.
      * rewrite Hf. intros Hx%Hr. by rewrite Hx in Ha; destruct (lifecycle_state l').
      * intros c. specialize (Hw c). pose proof (winners_insert c _ _ _ pc' Hi) as Hn. pose proof (past_monotone _ _ c Ha) as Hm.
        destruct (won c pc') eqn:Hwc; [destruct (Hwin c Hwc) as [Hx Hy]; rewrite Hx, Hy in *; lia|].
        destruct (past c (lifecycle_state l)); [rewrite Hm by done; lia|]. destruct (past c _); lia.
    + split; [|left; unfold lifecycle_state; by rewrite Hl].
      assert (Hst : lifecycle_state l' = lifecycle_state l) by (unfold lifecycle_state; by rewrite Hl).
      split; cbn; rewrite ?Hst, ?Hl; eauto.
      * intros _. specialize (Hpast eq_refl). by destruct (lifecycle_state l).
      * intros c. specialize (Hw c). pose proof (winners_insert c _ _ _ pc' Hi). rewrite Hq in *. destruct (won c _); lia.
Qed.

Lemma lifecycle_steps_inv s s' :
  lifecycle_inv s → rtc lifecycle_step s s' →
  lifecycle_inv s' ∧ rtc allowed (lifecycle_state s.1) (lifecycle_state s'.1).
Proof.
  intros Hs Hrtc. induction Hrtc as [s|s1 s2 s3 Hstep _ IH]; [by split|].
  destruct (lifecycle_step_inv _ _ Hs Hstep) as [Hs2 Ha]. destruct (IH Hs2) as [H3 Hr]. split; [done|].
  destruct Ha as [<-|Ha]; [done|]. by eapply rtc_l.
Qed.

Lemma terminal_stays a b : is_terminal a = true → rtc allowed a b → b = a.
Proof. intros Ht Hr. inversion Hr as [|? y ? Ha _]; subst; [done|]. by destruct a, y. Qed.

(** However the threads that mark a role interleave, and however many there are: the state moves along the diagram from
    [Starting]; each transition is made by at most one caller, the one told [true]; a failure reason is recorded only for a role
    that failed; and a stopped or failed role stays so. *)
Theorem lifecycle_follows_diagram l pcs :
  rtc lifecycle_step (lifecycle_new, []) (l, pcs) →
  rtc allowed Starting (lifecycle_state l) ∧
  (∀ call, winners call pcs ≤ 1 ∧ (winners call pcs = 1 → past call (lifecycle_state l) = true)) ∧
  (is_Some (rl_failure_reason l) → lifecycle_state l = Failed) ∧
  (is_terminal (lifecycle_state l) = true → ∀ l' pcs', rtc lifecycle_step (l, pcs) (l', pcs') → lifecycle_state l' = lifecycle_state l).
Proof.
  intros Hr. destruct (lifecycle_steps_inv _ _ lifecycle_inv_init Hr) as [Hs Ha]. split_and!; [done| |apply (li_reason _ Hs)|].
  - intros call. pose proof (li_winners _ Hs call) as Hw. cbn in Hw. destruct (past call _); split; try done; lia.
  - intros Ht l' pcs' Hr'. destruct (lifecycle_steps_inv _ _ Hs Hr') as [_ Ha']. by apply (terminal_stays _ _ Ht).
Qed.

(** ** The readiness probe

    The handler of [GET /ready]: the environment answers for the catalog, the log and the registered probes. *)
Inductive CheckReply := CheckOk (detail : string) | CheckFailed (detail : string) | CheckTimeout.
Definition check_entry (name : string) (timeout_text : string) (r : CheckReply) : string * bool * string :=
  match r with
  | CheckOk d => (name, true, d)
  | CheckFailed d => (name, false, d)
  | CheckTimeout => (name, false, timeout_text)
  end.
Definition check_passed (r : CheckReply) : bool := match r with CheckOk _ => true | _ => false end.
Record ReadyResponse := mkReady { ready_code : N; ready_status : string; ready_checks : list (string * bool * string) }.
Definition state_display (s : RoleState) : string :=
  match s with
  | Starting => "starting" | Ready => "ready" | Draining => "draining" | Stopped => "stopped" | Failed => "failed"
  end.
Definition wal_entry (r : result string N) : string * bool * string :=
  match r with
  | Ok count => ("wal", true, ("healthy (" +:+ pretty count +:+ " segments)")%string)
  | Err e => ("wal", false, ("error: " +:+ e)%string)
  end.
Definition readiness (state : RoleState) (draining : bool) (catalog : CheckReply) (wal : result string N)
    (probes : list (string * CheckReply)) (table_count : N) : ReadyResponse :=
  if negb (is_serving state) || draining then mkReady 503 (state_display state) []
  else
    let catalog_ok := check_passed catalog in
    let wal_ok := match wal with Ok _ => true | Err _ => false end in
    let extra_ok := forallb (λ p, check_passed p.2) probes in
    let all_ok := catalog_ok && wal_ok && extra_ok in
    mkReady (if all_ok then 200 else 503) (if all_ok then "ready" else "not_ready")
      ([check_entry "catalog" "timeout after 5s" catalog; wal_entry wal;
        ("query_engine", true, "available"); ("storage", true, "available")]
       ++ map (λ p, check_entry p.1 "timeout after 2s" p.2) probes
       ++ [("buffers", true, (pretty table_count +:+ " tables tracked")%string)]).

Lemma probes_passed text (probes : list (string * CheckReply)) :
  forallb (λ c : string * bool * string, c.1.2) (map (λ p, check_entry p.1 text p.2) probes) = forallb (λ p, check_passed p.2) probes.
Proof. induction probes as [|[name []] probes IH]; cbn; by rewrite ?IH. Qed.
(** [200] is answered exactly when the role serves, no drain was requested, and every listed check passed; any other answer is [503]. *)
Theorem readiness_exact state draining catalog wal probes n :
  let r := readiness state draining catalog wal probes n in
  (ready_code r = 200%N ↔ state = Ready ∧ draining = false ∧ forallb (λ c, c.1.2) (ready_checks r) = true) ∧
  (ready_code r = 200%N ∨ ready_code r = 503%N).
Proof.
  unfold readiness. destruct (negb (is_serving state) || draining) eqn:Hd.
  - cbn. split; [|by right]. split; [done|]. intros (-> & -> & _). done.
  - apply orb_false_iff in Hd as [Hs ->]. assert (state = Ready) as -> by (by destruct state). cbn [ready_code ready_checks].
    rewrite !forallb_app, probes_passed. destruct (forallb (λ p, check_passed p.2) probes), catalog, wal; cbn; naive_solver.
Qed.

(** ** Draining a data node

    The tasks of a data node after [run_data_node] has started them, and the main task that drains them.  A server task binds its
    listener, answers requests, and ends when its graceful shutdown has waited for the requests in flight; it ends at once when the
    listener cannot be bound.  A request is the rows it appends; which rows a flush moves is up to the environment. *)
Inductive Server := Rest | FlightServer.
Inductive Task := Serve (server : Server) | Flush | MaintenanceTask | Executor | Scheduler.
#[export] Instance Server_eq_dec : EqDecision Server.
Proof. solve_decision. Defined.
#[export] Instance Task_eq_dec : EqDecision Task.
Proof. solve_decision. Defined.
Inductive ServerState := Binding | Listening (in_flight : list (list nat)) | Ended.
(** Where the main task is: the signal, the two halves of [request_drain], [mark_draining], the tasks still to await, [mark_stopped], the lease. *)
Inductive MainPc := AwaitSignal | Swapped | Signalled | AwaitTasks (pending : list Task) | MarkedStopped | Exited (code : N).
Record DataNode := mkDataNode {
  dn_lifecycle : RoleLifecycle;
  dn_drain_requested : bool;
  dn_shutdown : bool;
  dn_main : MainPc;
  dn_servers : Server → ServerState;
  dn_tasks : list Task; (* the tasks still running, servers apart *)
  dn_buffered : list nat;
  dn_flushed : list nat;
  dn_acked : list nat;
  dn_lease : bool;
}.
Definition opt_task (b : bool) (t : Task) : list Task := if b then [t] else [].
(** [run_data_node] once its tasks are spawned: the role is marked ready before a listener is bound. *)
Definition data_node_start (executor scheduler : bool) : DataNode :=
  mkDataNode (mark_ready lifecycle_new).1 false false AwaitSignal (λ _, Binding)
    ([Flush; MaintenanceTask] ++ opt_task executor Executor ++ opt_task scheduler Scheduler) [] [] [] true.
(** The order of [drain_data_node]. *)
Definition drain_order (executor scheduler : bool) : list Task :=
  [Serve Rest; Serve FlightServer; Flush; MaintenanceTask] ++ opt_task executor Executor ++ opt_task scheduler Scheduler.

Definition with_main (pc : MainPc) (n : DataNode) : DataNode :=
  mkDataNode (dn_lifecycle n) (dn_drain_requested n) (dn_shutdown n) pc (dn_servers n) (dn_tasks n) (dn_buffered n) (dn_flushed n) (dn_acked n) (dn_lease n).
Definition with_lifecycle (l : RoleLifecycle) (n : DataNode) : DataNode :=
  mkDataNode l (dn_drain_requested n) (dn_shutdown n) (dn_main n) (dn_servers n) (dn_tasks n) (dn_buffered n) (dn_flushed n) (dn_acked n) (dn_lease n).
Definition with_server (srv : Server) (st : ServerState) (n : DataNode) : DataNode :=
  mkDataNode (dn_lifecycle n) (dn_drain_requested n) (dn_shutdown n) (dn_main n)
    (λ x, if decide (x = srv) then st else dn_servers n x) (dn_tasks n) (dn_buffered n) (dn_flushed n) (dn_acked n) (dn_lease n).
Definition task_ended (n : DataNode) (t : Task) : bool :=
  match t with
  | Serve srv => match dn_servers n srv with Ended => true | _ => false end
  | t => negb (bool_decide (t ∈ dn_tasks n))
  end.
Definition end_task (t : Task) (n : DataNode) : DataNode :=
  mkDataNode (dn_lifecycle n) (dn_drain_requested n) (dn_shutdown n) (dn_main n) (dn_servers n)
    (filter (λ x, x ≠ t) (dn_tasks n)) (dn_buffered n) (dn_flushed n) (dn_acked n) (dn_lease n).

(** A whole call of the tracker by a thread no other call interleaves with. *)
Definition mark_alone (call : Call) (reason : string) (l : RoleLifecycle) : RoleLifecycle := (run_threads [0; 0; 0] (l, [Entry call reason])).1.

(** [request_drain]: the swap of the flag, which returns its old value, and the send on the watch channel. *)
Definition drain_swap (n : DataNode) : DataNode * bool :=
  (mkDataNode (dn_lifecycle n) true (dn_shutdown n) (dn_main n) (dn_servers n) (dn_tasks n) (dn_buffered n) (dn_flushed n) (dn_acked n) (dn_lease n),
   dn_drain_requested n).
Definition drain_send (n : DataNode) : DataNode :=
  mkDataNode (dn_lifecycle n) (dn_drain_requested n) true (dn_main n) (dn_servers n) (dn_tasks n) (dn_buffered n) (dn_flushed n) (dn_acked n) (dn_lease n).
(** The next action of the main task. *)
Definition main_step (executor scheduler : bool) (n : DataNode) : option DataNode :=
  match dn_main n with
  | AwaitSignal => let '(n, requested) := drain_swap n in Some (with_main (if requested then Signalled else Swapped) n)
  | Swapped => Some (with_main Signalled (drain_send n))
  | Signalled =>
      Some (with_main (AwaitTasks (drain_order executor scheduler)) (with_lifecycle (mark_alone MarkDraining EmptyString (dn_lifecycle n)) n))
  | AwaitTasks (t :: pending) => if task_ended n t then Some (with_main (AwaitTasks pending) n) else None
  | AwaitTasks [] => Some (with_main MarkedStopped (with_lifecycle (mark_alone MarkStopped EmptyString (dn_lifecycle n)) n))
  | MarkedStopped =>
      Some (with_main (Exited 0)
        (mkDataNode (dn_lifecycle n) (dn_drain_requested n) (dn_shutdown n) (dn_main n) (dn_servers n) (dn_tasks n) (dn_buffered n) (dn_flushed n) (dn_acked n) false))
  | Exited _ => None
  end.
(** The timer of [drain_with_timeout] fires: the process exits from inside [run_data_node]. *)
Definition drain_timeout (n : DataNode) : option DataNode :=
  match dn_main n with
  | AwaitTasks _ => Some (with_main (Exited 137) (with_lifecycle (mark_alone MarkFailed "drain timeout exceeded" (dn_lifecycle n)) n))
  | _ => None
  end.

(** A flush moves the buffered rows at the positions where [moved] holds. *)
Fixpoint rows_at (moved : list bool) (want : bool) (rows : list nat) : list nat :=
  match rows with
  | [] => []
  | r :: rows => let m := match moved with b :: _ => b | [] => false end in
      if Bool.eqb m want then r :: rows_at (tail moved) want rows else rows_at (tail moved) want rows
  end.
Definition flush_rows (moved : list bool) (n : DataNode) : DataNode :=
  mkDataNode (dn_lifecycle n) (dn_drain_requested n) (dn_shutdown n) (dn_main n) (dn_servers n) (dn_tasks n)
    (rows_at moved false (dn_buffered n)) (dn_flushed n ++ rows_at moved true (dn_buffered n)) (dn_acked n) (dn_lease n).
(** The two arms of [flush_loop]. *)
Definition flush_tick (moved : list bool) (n : DataNode) : option DataNode :=
  if decide (Flush ∈ dn_tasks n) then Some (flush_rows moved n) else None.
Definition flush_shutdown (moved : list bool) (n : DataNode) : option DataNode :=
  if decide (Flush ∈ dn_tasks n) then (if dn_shutdown n then Some (end_task Flush (flush_rows moved n)) else None) else None.

(** The server tasks of [transport.rs]. *)
Definition server_bind (srv : Server) (bound : bool) (n : DataNode) : option DataNode :=
  match dn_servers n srv with
  | Binding => Some (with_server srv (if bound then Listening [] else Ended) n)
  | _ => None
  end.
Definition server_accept (srv : Server) (rows : list nat) (n : DataNode) : option DataNode :=
  match dn_servers n srv with
  | Listening reqs => Some (with_server srv (Listening (reqs ++ [rows])) n)
  | _ => None
  end.
Definition server_answer (srv : Server) (i : nat) (n : DataNode) : option DataNode :=
  match dn_servers n srv with
  | Listening reqs =>
      rows ← reqs !! i;
      let n := with_server srv (Listening (delete i reqs)) n in
      Some (mkDataNode (dn_lifecycle n) (dn_drain_requested n) (dn_shutdown n) (dn_main n) (dn_servers n) (dn_tasks n)
              (dn_buffered n ++ rows) (dn_flushed n) (dn_acked n ++ rows) (dn_lease n))
  | _ => None
  end.
Definition server_stop (srv : Server) (n : DataNode) : option DataNode :=
  match dn_servers n srv with
  | Listening [] => if dn_shutdown n then Some (with_server srv Ended n) else None
  | _ => None
  end.

Inductive Event :=
| MainRuns | DrainTimeout
| Bind (srv : Server) (bound : bool) | Accept (srv : Server) (rows : list nat) | Answer (srv : Server) (i : nat) | StopServer (srv : Server)
| FlushTick (moved : list bool) | FinalFlush (moved : list bool)
| TaskEnds (t : Task) | TaskPanics (t : Task).
(** Any task may panic; a server task that does is taken with its requests, so it is left out. *)
Definition node_event (executor scheduler : bool) (n : DataNode) (e : Event) : option DataNode :=
  match dn_main n with
  | Exited _ => None
  | _ =>
      match e with
      | MainRuns => main_step executor scheduler n
      | DrainTimeout => drain_timeout n
      | Bind srv bound => server_bind srv bound n
      | Accept srv rows => server_accept srv rows n
      | Answer srv i => server_answer srv i n
      | StopServer srv => server_stop srv n
      | FlushTick moved => flush_tick moved n
      | FinalFlush moved => flush_shutdown moved n
      | TaskEnds t => if bool_decide (t ≠ Flush) && dn_shutdown n then Some (end_task t n) else None
      | TaskPanics t => Some (end_task t n)
      end
  end.
Definition run_node (executor scheduler : bool) (es : list Event) : option DataNode :=
  foldl (λ n e, n ← n; node_event executor scheduler n e) (Some (data_node_start executor scheduler)) es.

(** ** What a drain promises *)
Definition in_flight (n : DataNode) (srv : Server) : list (list nat) := match dn_servers n srv with Listening reqs => reqs | _ => [] end.
Definition main_ok (executor scheduler : bool) (n : DataNode) : Prop :=
  let order := drain_order executor scheduler in
  match dn_main n with
  | AwaitSignal => dn_lifecycle n = mkLifecycle (state_u8 Ready) None ∧ dn_drain_requested n = false ∧ dn_lease n = true
  | Swapped | Signalled => dn_lifecycle n = mkLifecycle (state_u8 Ready) None ∧ dn_drain_requested n = true ∧ dn_lease n = true
  | AwaitTasks pending =>
      dn_lifecycle n = mkLifecycle (state_u8 Draining) None ∧ dn_drain_requested n = true ∧ dn_lease n = true ∧
      ∃ awaited, order = awaited ++ pending ∧ Forall (λ t, task_ended n t = true) awaited
  | MarkedStopped =>
      dn_lifecycle n = mkLifecycle (state_u8 Stopped) None ∧ dn_drain_requested n = true ∧ dn_lease n = true ∧
      Forall (λ t, task_ended n t = true) order
  | Exited code =>
      dn_drain_requested n = true ∧
      ((code = 0%N ∧ lifecycle_state (dn_lifecycle n) = Stopped ∧ dn_lease n = false ∧ Forall (λ t, task_ended n t = true) order) ∨
       (code = 137%N ∧ lifecycle_state (dn_lifecycle n) = Failed ∧ dn_lease n = true))
  end.
Record node_ok (executor scheduler : bool) (n : DataNode) : Prop := {
  no_rows : dn_acked n ≡ₚ dn_buffered n ++ dn_flushed n;
  no_main : main_ok executor scheduler n;
}.

Lemma rows_at_split moved rows : rows ≡ₚ rows_at moved false rows ++ rows_at moved true rows.
Proof.
  revert moved. induction rows as [|r rows IH]; intros moved; [done|]. cbn.
  destruct moved as [|[] moved]; cbn; rewrite <- ?Permutation_middle; by rewrite <- IH.
Qed.

(** Everything but the main task leaves its state alone and only ends tasks. *)
Definition tasks_only_end (n n' : DataNode) : Prop :=
  dn_lifecycle n' = dn_lifecycle n ∧ dn_drain_requested n' = dn_drain_requested n ∧ dn_main n' = dn_main n ∧ dn_lease n' = dn_lease n ∧
  ∀ t, task_ended n t = true → task_ended n' t = true.
Lemma tasks_only_end_main executor scheduler n n' :
  tasks_only_end n n' → main_ok executor scheduler n → main_ok executor scheduler n'.
Proof.
  intros (Hl & Hd & Hm & He & Ht). unfold main_ok. rewrite Hl, Hd, Hm, He. 
  destruct (dn_main n); try done; naive_solver eauto using Forall_impl.
Qed.

Lemma server_moves srv st n :
  dn_servers n srv ≠ Ended → tasks_only_end n (with_server srv st n).
Proof.
  intros Hs. unfold tasks_only_end. cbn. split_and!; try done. intros [x| | | |]; cbn; try done.
  destruct (decide (x = srv)) as [->|]; [|done]. by destruct (dn_servers n srv).
Qed.
Lemma end_task_moves t n : tasks_only_end n (end_task t n).
Proof.
  unfold tasks_only_end. cbn. split_and!; try done. intros []; cbn; try done;
    rewrite !negb_true_iff, !bool_decide_eq_false; rewrite list_elem_of_filter; naive_solver.
Qed.

Lemma other_tasks_move executor scheduler n n' e :
  e ≠ MainRuns → e ≠ DrainTimeout → node_event executor scheduler n e = Some n' →
  tasks_only_end n n' ∧ (dn_acked n ≡ₚ dn_buffered n ++ dn_flushed n → dn_acked n' ≡ₚ dn_buffered n' ++ dn_flushed n').
Proof.
  intros H1 H2 He. assert (Hrun : match e with
    | MainRuns | DrainTimeout => False
    | Bind srv bound => server_bind srv bound n = Some n'
    | Accept srv rows => server_accept srv rows n = Some n'
    | Answer srv i => server_answer srv i n = Some n'
    | StopServer srv => server_stop srv n = Some n'
    | FlushTick moved => n' = flush_rows moved n
    | FinalFlush moved => n' = end_task Flush (flush_rows moved n)
    | TaskEnds t | TaskPanics t => n' = end_task t n end).
  { unfold node_event in He. destruct (dn_main n); [..|done]; destruct e; try done;
      unfold flush_tick, flush_shutdown in He; repeat case_match; by simplify_eq. }
  clear He. destruct e as [| |srv bound|srv rows|srv i|srv|moved|moved|t|t]; try done.
  - unfold server_bind in Hrun. destruct (dn_servers n srv) eqn:Hs; simplify_eq. split; [apply server_moves; by rewrite Hs|done].
  - unfold server_accept in Hrun. destruct (dn_servers n srv) eqn:Hs; simplify_eq. split; [apply server_moves; by rewrite Hs|done].
  - unfold server_answer in Hrun. destruct (dn_servers n srv) as [|reqs|] eqn:Hs; [done| |done].
    destruct (reqs !! i) as [rows|]; [|done]. cbn in Hrun. simplify_eq.
    split; [apply (server_moves srv (Listening (delete i reqs))); by rewrite Hs|]. cbn. intros ->. solve_Permutation.
  - unfold server_stop in Hrun. destruct (dn_servers n srv) as [|[]|] eqn:Hs; try done. case_match; simplify_eq.
    split; [apply server_moves; by rewrite Hs|done].
  - subst. split; [done|]. cbn. intros ->. rewrite (rows_at_split moved (dn_buffered n)) at 1. solve_Permutation.
  - subst. split; [apply (end_task_moves Flush (flush_rows moved n))|]. cbn. intros ->.
    rewrite (rows_at_split moved (dn_buffered n)) at 1. solve_Permutation.
  - subst. split; [apply end_task_moves|done].
  - subst. split; [apply end_task_moves|done].
Qed.

Lemma main_step_ok executor scheduler n n' :
  node_ok executor scheduler n → main_step executor scheduler n = Some n' → node_ok executor scheduler n'.
Proof.
  intros [Hr Hm] Hs. unfold main_step in Hs. unfold main_ok in Hm. destruct (dn_main n) as [| | |[|t pending]| |code] eqn:Hpc.
  - destruct Hm as (Hl & Hd & He). unfold drain_swap in Hs. rewrite Hd in Hs. simplify_eq. by split.
  - destruct Hm as (Hl & Hd & He). simplify_eq. by split.
  - destruct Hm as (Hl & Hd & He). simplify_eq. split; [done|]. unfold main_ok. cbn. rewrite Hl. split_and!; try done. by exists [].
  - destruct Hm as (Hl & Hd & He & aw & Ho & Ha). simplify_eq. split; [done|]. unfold main_ok. cbn. rewrite Hl.
    rewrite app_nil_r in Ho. subst aw. by split_and!.
  - destruct Hm as (Hl & Hd & He & aw & Ho & Ha). destruct (task_ended n t) eqn:Ht; simplify_eq. split; [done|]. unfold main_ok. cbn.
    split_and!; try done. exists (aw ++ [t]). rewrite <- app_assoc. split; [done|]. apply Forall_app; split; [done|]. by constructor.
  - destruct Hm as (Hl & Hd & He & Ha). simplify_eq. split; [done|]. unfold main_ok. cbn. rewrite Hl. split; [done|]. by left.
  - done.
Qed.

Lemma drain_timeout_ok executor scheduler n n' :
  node_ok executor scheduler n → drain_timeout n = Some n' → node_ok executor scheduler n'.
Proof.
  intros [Hr Hm] Hs. unfold drain_timeout in Hs. unfold main_ok in Hm. destruct (dn_main n) eqn:Hpc; simplify_eq.
  destruct Hm as (Hl & Hd & He & _). split; [done|]. unfold main_ok. cbn. rewrite Hl. split; [done|]. by right.
Qed.
Lemma node_event_ok executor scheduler n n' e :
  node_ok executor scheduler n → node_event executor scheduler n e = Some n' → node_ok executor scheduler n'.
Proof.
  intros Hn He. assert (Hcase : main_step executor scheduler n = Some n' ∨ drain_timeout n = Some n' ∨ (e ≠ MainRuns ∧ e ≠ DrainTimeout)).
  { unfold node_event in He. destruct (dn_main n), e; auto; done. }
  destruct Hcase as [Hs|[Hs|[H1 H2]]]; [by eapply main_step_ok|by eapply drain_timeout_ok|].
  destruct (other_tasks_move _ _ _ _ _ H1 H2 He) as [Ht Hrows]. destruct Hn as [Hr Hm]. split; [auto|]. by eapply tasks_only_end_main.
Qed.
Lemma run_node_snoc executor scheduler es e n' :
  run_node executor scheduler (es ++ [e]) = Some n' →
  ∃ n, run_node executor scheduler es = Some n ∧ node_event executor scheduler n e = Some n'.
Proof. unfold run_node. rewrite foldl_app. cbn. by intros (n & ? & ?)%bind_Some; exists n. Qed.
Lemma run_node_ok executor scheduler es n : run_node executor scheduler es = Some n → node_ok executor scheduler n.
Proof.
  revert n. induction es as [|e es IH] using rev_ind; intros n Hr; [|].
  - unfold run_node in Hr. cbn in Hr. simplify_eq. split; [done|]. by unfold main_ok.
  - apply run_node_snoc in Hr as (n0 & Hr & He). eauto using node_event_ok.
Qed.

Lemma main_ok_drained executor scheduler n :
  main_ok executor scheduler n → dn_drain_requested n = true ∨ dn_main n = AwaitSignal ∧ dn_drain_requested n = false.
Proof. unfold main_ok. destruct (dn_main n); naive_solver. Qed.
Lemma lease_released executor scheduler n :
  main_ok executor scheduler n → dn_lease n = false →
  dn_main n = Exited 0 ∧ lifecycle_state (dn_lifecycle n) = Stopped ∧ Forall (λ t, task_ended n t = true) (drain_order executor scheduler).
Proof. unfold main_ok. intros Hm Hl. destruct (dn_main n); naive_solver congruence. Qed.
Lemma ended_no_requests n srv : task_ended n (Serve srv) = true → in_flight n srv = [].
Proof. unfold in_flight. cbn. by destruct (dn_servers n srv). Qed.

Definition demo_drain : list Event :=
  [Bind Rest true; Bind FlightServer true; Accept Rest [1; 2]; Accept FlightServer [3]; Answer FlightServer 0; FlushTick [true];
   MainRuns; MainRuns; MainRuns; Answer Rest 0; StopServer Rest; StopServer FlightServer; FinalFlush [true; true]; TaskEnds MaintenanceTask;
   MainRuns; MainRuns; MainRuns; MainRuns; MainRuns; MainRuns].

(** The final flush answers the same signal as the servers: a request that was in flight may be acknowledged after it, and the node then
    stops cleanly with the row still in the buffer, although every flush moved all it found. *)
Theorem final_flush_can_miss_rows :
  ∃ n, run_node false false
    [Bind Rest true; Bind FlightServer true; Accept Rest [1]; MainRuns; MainRuns; FinalFlush []; TaskEnds MaintenanceTask; Answer Rest 0;
     StopServer Rest; StopServer FlightServer; MainRuns; MainRuns; MainRuns; MainRuns; MainRuns; MainRuns; MainRuns] = Some n ∧
  dn_main n = Exited 0 ∧ lifecycle_state (dn_lifecycle n) = Stopped ∧ dn_buffered n = [1].
Proof. eexists. split; [vm_compute; reflexivity|done]. Qed.

(** A listener that cannot be bound only ends its task: the role is ready, and the probe answers [200], with no Flight server. *)
Theorem ready_without_flight catalog_detail count k :
  ∃ n, run_node false false [Bind Rest true; Bind FlightServer false] = Some n ∧
  dn_servers n FlightServer = Ended ∧
  ready_code (readiness (lifecycle_state (dn_lifecycle n)) (dn_drain_requested n) (CheckOk catalog_detail) (Ok count) [] k) = 200%N.
Proof. eexists. by split_and!. Qed.

(** [mark_failed] may lose the race between its load and its exchange: it reports [false], and the role, in no terminal state at any time,
    goes on as ready. *)
Theorem mark_failed_can_lose :
  let s := run_threads [1; 0; 1] (lifecycle_new, [Entry MarkReady EmptyString; Entry MarkFailed "disk full"]) in
  s.2 = [Returned MarkReady true; Returned MarkFailed false] ∧ lifecycle_state s.1 = Ready ∧ rl_failure_reason s.1 = None.
Proof. done. Qed.
