(* ===== verification/FlightPut.v ===== *)
(** * Arrow Flight ingestion

    Models [do_put] of [teodb-api/src/flight/ingest.rs] for record batches, with
    [flight/validate.rs], [parse_descriptor] of [flight/codec.rs] and [flight/error.rs],
    over the node of Node.v.  The wire formats are functions of a class; metrics and the
    execution of SQL statements sent the same way are left out. *)

From S2P Require Import Prelude Core Location DataFiles Schema WriteProtocol WalFrame WalReplay WalReplaySpec WalState WalGc WalWriter.
From S2P Require Import Durable WalIdentity Prepared Buffer BufferSpec Catalog Flush FlushSpec Json Idempotency Node NodeSpec Access ParquetStats.
Open Scope nat_scope.
Open Scope list_scope.

(** ** Status values *)
Inductive Status := StatusInvalid (message : string) | StatusInternal (message : string) | StatusOf (error : TeoDBError).
Definition status_code (s : Status) : GrpcCode :=
  match s with StatusInvalid _ => GInvalidArgument | StatusInternal _ => GInternal | StatusOf e => grpc_code e end.
Definition status_retry_after (s : Status) : option N := match s with StatusOf e => retry_after_ms e | _ => None end.

(** ** Messages *)
Record FlightDescriptor := mkFlightDescriptor { fd_cmd : list Byte.byte; fd_path : list string }.
Record FlightData := mkFlightData {
  fd_descriptor : option FlightDescriptor; fd_header : list Byte.byte; fd_body : list Byte.byte }.

(** The SQL of a [CommandStatementUpdate], and Arrow's decoding of a message against a schema. *)
Class FlightWire (Batch : Type) := {
  fw_statement_update : list Byte.byte → option string;
  fw_decode_batch : FlightData → ArrowSchema → result string Batch;
  fw_fields : Batch → ArrowSchema;
  fw_null_count : Batch → nat → N;
}.
(** A decoded batch has the schema it was decoded against. *)
Class FlightWireLaws (Batch : Type) `{FlightWire Batch} : Prop := {
  fw_decode_fields d s b : fw_decode_batch d s = Ok b → fw_fields b = s;
}.

Definition parse_descriptor (desc : FlightDescriptor) : result Status TableIdent :=
  match fd_path desc with
  | ns :: table :: _ => Ok (mkTableIdent ns table)
  | [full] =>
      match split_once "." full with
      | Some (ns, tbl) => Ok (mkTableIdent ns tbl)
      | None => Err (StatusInvalid "invalid table path: {full}")
      end
  | [] => Err (StatusInvalid "descriptor path must have at least 2 elements: [namespace, table]")
  end.

(** ** Validation of a batch *)
Definition validate_data_type (expected actual : ArrowType) : TeoDBResult unit :=
  match expected, actual with
  | ADecimal128 p s, ADecimal128 p' s' =>
      if bool_decide (p ≠ p' ∨ s ≠ s')
      then Err (InvalidArgument "column[{col_name}].type" "decimal mismatch for '{col_name}': expected Decimal128({},{}), got Decimal128({},{})")
      else Ok tt
  | ATimestampMicrosecond tz, ATimestampMicrosecond tz' =>
      if bool_decide (tz ≠ tz')
      then Err (InvalidArgument "column[{col_name}].type" "timestamp timezone mismatch for '{col_name}': expected {}, got {}") else Ok tt
  | e, a => if bool_decide (e ≠ a) then Err (InvalidArgument "column[{col_name}].type" "expected {expected}, got {actual}") else Ok tt
  end.
Section validate.
Context {Batch : Type} `{FlightWire Batch}.
Definition validate_column (batch : Batch) (i : nat) (exp act : ArrowField) : TeoDBResult unit :=
  _ ← reject_if (bool_decide (af_name exp ≠ af_name act)) (InvalidArgument "column[{i}].name" "expected '{}', got '{}'");
  _ ← validate_data_type (af_data_type exp) (af_data_type act);
  _ ← reject_if (negb (af_nullable exp) && (0 <? fw_null_count batch i)%N)
        (InvalidArgument "column[{}]" "non-nullable column '{}' contains {} null value(s)");
  match af_metadata exp !! FIELD_ID_KEY, af_metadata act !! FIELD_ID_KEY with
  | Some exp_id, Some act_id =>
      reject_if (bool_decide (exp_id ≠ act_id)) (InvalidArgument "column[{}].field_id" "field ID mismatch for '{}': expected {exp_id}, got {act_id}")
  | _, _ => Ok tt
  end.
Fixpoint validate_columns (batch : Batch) (i : nat) (expected actual : ArrowSchema) : TeoDBResult unit :=
  match expected, actual with
  | exp :: expected, act :: actual => _ ← validate_column batch i exp act; validate_columns batch (S i) expected actual
  | _, _ => Ok tt
  end.
Definition validate_batch (batch : Batch) (expected : ArrowSchema) : TeoDBResult unit :=
  let actual := fw_fields batch in
  _ ← reject_if (negb (length actual =? length expected)) (InvalidArgument "columns" "expected {} columns, got {}");
  validate_columns batch 0 expected actual.
End validate.

(** ** Putting batches *)
Section put.
Context {Schema Spec Order : Type} `{WalCodec} `{!BatchOps RecordBatch} `{!TableLayout Schema Spec}.
Context `{UuidText} `{CheckpointJson} `{IdentityJson} `{CommittedJson} `{!ArrowJson Schema RecordBatch} `{!FlightWire RecordBatch}.
(** [schema_to_arrow] of the table's schema type. *)
Context (to_arrow : Schema → ArrowSchema) (max_bytes soft grace : N).
Abbreviation Buf := (@TableBuffer RecordBatch Schema Spec Order).
Abbreviation Nd := (@Node Schema Spec Order _).

(** [pe_others]: what other tasks do while the append awaits; [pe_between]: and until the next message. *)
Record PutEnv := mkPutEnv {
  pe_batch_id : Uuid; pe_now_ms : Z; pe_io : GroupIo; pe_behind : list WriterCommand; pe_others : Nd → Nd; pe_between : Nd → Nd }.
Record PutReceipt := mkPutReceipt { pr_receipt : IngestReceipt; pr_backpressure : bool }.

Definition put_header (env : PutEnv) (b : Buf) (ident : TableIdent) (r : Reservation) (batch : RecordBatch) : WalHeader :=
  mkWalHeader WRITE_PROTOCOL_VERSION (Some (tm_table_uuid (tb_metadata b))) (pe_batch_id env) ident
    (tm_current_schema_id (tb_metadata b)) (rs_generation r) (pe_now_ms env) None (num_rows batch) (array_memory_size batch) Append.

(** Reserving, appending, admitting one decoded batch. *)
Definition put_batch (env : PutEnv) (n : Nd) (ident : TableIdent) (ref : nat) (b : Buf) (batch : RecordBatch) : Nd * result Status PutReceipt :=
  match reserve b batch with
  | (b, Err e) => (write_buffer n ref b, Err (StatusOf e))
  | (b, Ok reservation) =>
      let n := write_buffer n ref b in
      let record := mkWalRecord (put_header env b ident reservation batch) batch in
      let '(n, appended) := append (pe_io env) (pe_behind env) n record in
      let n := pe_others env n in
      let b := default b (n_heap n !! ref) in
      match appended with
      | Err e => (write_buffer n ref (release_reservation b reservation), Err (StatusOf e))
      | Ok _ =>
          let '(b, ok) := insert_reserved_at b (pe_batch_id env) reservation (pe_now_ms env) batch in
          let n := write_buffer n ref b in
          (n, Ok (mkPutReceipt (mkIngestReceipt (pe_batch_id env) (ri_writer_id (n_identity n)) (io_generation ok) (num_rows batch))
                    (io_backpressure_signal ok)))
      end
  end.
(** [ref] is the buffer the stream holds since it started, registered or not. *)
Definition ingest_flight_batch (env : PutEnv) (n : Nd) (ident : TableIdent) (ref : nat) (arrow_schema : ArrowSchema) (data : FlightData) :
    Nd * result Status PutReceipt :=
  match fw_decode_batch data arrow_schema with
  | Err _ => (n, Err (StatusInvalid "batch decode error: {e}"))
  | Ok batch =>
      match validate_batch batch arrow_schema with
      | Err e => (n, Err (StatusOf e))
      | Ok _ => match n_heap n !! ref with Some b => put_batch env n ident ref b batch | None => (n, Err (StatusInternal "dangling buffer reference")) end
      end
  end.

(** The response stream: the state before and after each answer, and the answer. *)
Abbreviation Answer := (Nd * Nd * result Status PutReceipt)%type.
Fixpoint put_stream (envs : nat → PutEnv) (i : nat) (n : Nd) (ident : TableIdent) (ref : nat) (arrow_schema : ArrowSchema)
    (messages : list (result string FlightData)) : list Answer :=
  match messages with
  | [] => []
  | Err _ :: _ => [(n, n, Err (StatusInternal "stream error: {e}"))]
  | Ok data :: messages =>
      match fd_body data with
      | [] => put_stream envs (S i) (pe_between (envs i) n) ident ref arrow_schema messages
      | _ :: _ =>
          let '(n', r) := ingest_flight_batch (envs i) n ident ref arrow_schema data in
          (n, n', r) :: match r with
                        | Err _ => []
                        | Ok _ => put_stream envs (S i) (pe_between (envs i) n') ident ref arrow_schema messages
                        end
      end
  end.

Inductive PutOutcome := PutStatement (sql : string) | PutAnswers (ident : TableIdent) (ref : nat) (arrow_schema : ArrowSchema) (answers : list Answer).
Definition do_put (authorizer : option Authorizer) (principal : Principal) (load : LoadEnv) (envs : nat → PutEnv) (n : Nd)
    (messages : list (result string FlightData)) : Nd * result Status PutOutcome :=
  match messages with
  | [] => (n, Err (StatusInvalid "empty stream"))
  | Err _ :: _ => (n, Err (StatusInternal "stream error: {e}"))
  | Ok first :: _ =>
      match fd_descriptor first with
      | None => (n, Err (StatusInvalid "missing flight descriptor"))
      | Some descriptor =>
          match fw_statement_update (fd_cmd descriptor) with
          | Some sql =>
              (n, if str_is_empty (str_trim sql) then Err (StatusInvalid "SQL statement must not be empty") else Ok (PutStatement sql))
          | None =>
              match (ident ← parse_descriptor descriptor;
                     _ ← map_err StatusOf (api_authorize authorizer principal Ingest (Table ident)); Ok ident) with
              | Err e => (n, Err e)
              | Ok ident =>
                  match get_or_load max_bytes soft grace load n ident with
                  | (n, Err e) => (n, Err (StatusOf e))
                  | (n, Ok ref) =>
                      match n_heap n !! ref ≫= λ b, Some (current_schema (tb_metadata b)) with
                      | None => (n, Err (StatusInternal "dangling buffer reference"))
                      | Some (Err e) => (n, Err (StatusOf e))
                      | Some (Ok schema) =>
                          (n, Ok (PutAnswers ident ref (to_arrow schema) (put_stream envs 0 n ident ref (to_arrow schema) messages)))
                      end
                  end
              end
          end
      end
  end.
End put.

(** ** What a put promises *)
Section put_spec.
Context {Schema Spec Order : Type} `{WalCodecLaws} `{!BatchOps RecordBatch} `{!TableLayout Schema Spec}.
Context `{UuidText} `{CheckpointJson} `{IdentityJson} `{CommittedJson} `{JsonText} `{!ArrowJson Schema RecordBatch} `{!FlightWire RecordBatch}.
Context (max_bytes : N).
Abbreviation Buf := (@TableBuffer RecordBatch Schema Spec Order).
Abbreviation Nd := (@Node Schema Spec Order _).
Abbreviation Env := (@PutEnv Schema Spec Order _).

(** A put is an ingest of a ready batch without an idempotency key. *)
Definition ingest_env_of (env : Env) : @IngestEnv Schema Spec Order _ :=
  let no_load := mkLoadEnv (Err Unauthorized) no_faults 0%N in
  mkIngestEnv no_load (Ok tt) no_load 0 (pe_batch_id env) (pe_now_ms env) (pe_others env) (pe_io env) (pe_behind env).
Lemma put_batch_ingests (env : Env) (n : Nd) ident ref (b : Buf) rows_batch n' r :
  put_batch env n ident ref b rows_batch = (n', r) →
  ∃ r', ingest_batch (ingest_env_of env) n ident ref b rows_batch None = (n', r') ∧
    match r with Ok receipt => r' = Ok (Accepted (pr_receipt receipt)) | Err _ => ∃ e, r' = Err e end.
Proof.
  unfold put_batch, ingest_batch, ingest_header, put_header. cbn [release_key ingest_env_of ie_batch_id ie_now_ms ie_io ie_behind ie_others].
  destruct (reserve b rows_batch) as [b1 [rs|e]]; [|intros [= <- <-]; eauto].
  destruct (append _ _ _ _) as [n2 [u|e]]; [|intros [= <- <-]; eauto].
  destruct (insert_reserved_at _ _ _ _ _) as [b3 ok]. intros [= <- <-]. eauto.
Qed.

(** Other tasks leave the buffer the stream holds in place and drop no table; the log writer is as in the rest of the node. *)
Record message_ok (env : Env) (n : Nd) (ident : TableIdent) (ref : nat) (arrow_schema : ArrowSchema) (data : FlightData) : Prop := {
  mo_others r : ingest_others_ok (pe_others env) ident r None 0;
  mo_io : io_set_len_ok (pe_io env) = true;
  mo_behind : Forall command_ok (pe_behind env);
  mo_seq : (sw_next_seq (n_writer n) ≤ u64_max)%N;
  mo_fits b rows_batch : n_heap n !! ref = Some b → fw_decode_batch data arrow_schema = Ok rows_batch →
    payload_fits (ingest_record (ingest_env_of env) b ident None rows_batch);
}.
Definition between_ok (f : Nd → Nd) (ident : TableIdent) (ref : nat) : Prop :=
  ∀ n b, node_inv n → n_heap n !! ref = Some b → tb_ident b = ident →
    node_inv (f n) ∧ ∃ b', n_heap (f n) !! ref = Some b' ∧ tb_ident b' = ident.
(** Along the run of a stream. *)
Fixpoint stream_ok (envs : nat → Env) (i : nat) (n : Nd) (ident : TableIdent) (ref : nat) (arrow_schema : ArrowSchema)
    (messages : list (result string FlightData)) : Prop :=
  match messages with
  | [] | Err _ :: _ => True
  | Ok data :: messages =>
      between_ok (pe_between (envs i)) ident ref ∧
      match fd_body data with
      | [] => stream_ok envs (S i) (pe_between (envs i) n) ident ref arrow_schema messages
      | _ :: _ =>
          message_ok (envs i) n ident ref arrow_schema data ∧
          match ingest_flight_batch (envs i) n ident ref arrow_schema data with
          | (_, Err _) => True
          | (n', Ok _) => stream_ok envs (S i) (pe_between (envs i) n') ident ref arrow_schema messages
          end
      end
  end.

(** What an answer says about the states around it. *)
Definition answer_exact (ident : TableIdent) (ref : nat) (a : Nd * Nd * result Status PutReceipt) : Prop :=
  let '(n, n', r) := a in
  node_inv n' ∧
  match r with
  | Ok receipt => admitted_record n' ident None (pr_receipt receipt)
  | Err _ => ∀ b, n_heap n !! ref = Some b → unused n' ref (next_gen (tb_state b))
  end.

Lemma ingest_env_of_ok (env : Env) n ident ref arrow_schema data :
  (max_bytes ≤ u64_max)%N → message_ok env n ident ref arrow_schema data → ingest_env_ok max_bytes (ingest_env_of env) n ident None.
Proof. intros Hmax [Ho Hio Hb Hs _]. split; try done. all: by intros m c [=]. Qed.

Lemma write_buffer_lookup (n : Nd) ref (b b' : Buf) : n_heap n !! ref = Some b → n_heap (write_buffer n ref b') !! ref = Some b'.
Proof. intros Hb. apply list_lookup_insert_eq. by eapply lookup_lt_Some. Qed.
(** The buffer stays where the stream holds it. *)
Lemma put_batch_keeps (env : Env) n ident ref arrow_schema data (b : Buf) rows_batch n' r :
  node_inv n → n_heap n !! ref = Some b → tb_ident b = ident → message_ok env n ident ref arrow_schema data →
  fw_decode_batch data arrow_schema = Ok rows_batch →
  put_batch env n ident ref b rows_batch = (n', r) → ∃ b', n_heap n' !! ref = Some b' ∧ tb_ident b' = ident.
Proof.
  intros Hn Hb Hid Hm Hd. pose proof (proj1 (Forall_lookup _ _) (ni_heap n Hn) _ _ Hb) as Hbi. unfold put_batch.
  destruct (reserve b rows_batch) as [b1 [rs|e]] eqn:Hr; pose proof (reserve_spec _ _ _ _ Hbi Hr) as Hrs.
  2: { simpl in Hrs. subst b1. intros [= <- <-]. exists b. split; [by eapply write_buffer_lookup|done]. }
  destruct Hrs as (-> & Hb1 & Hid1 & Hm1 & Hres1). set (n1 := write_buffer n ref b1).
  assert (node_inv n1) as Hn1 by (by eapply node_inv_write).
  assert (n_heap n1 !! ref = Some b1) as Hh1 by (by eapply write_buffer_lookup).
  pose proof (mo_fits _ _ _ _ _ _ Hm _ _ Hb Hd) as Hfit. unfold ingest_record, ingest_header in Hfit.
  cbn [ingest_env_of ie_batch_id ie_now_ms] in Hfit. rewrite <- Hm1 in Hfit. fold (put_header env b1 ident
    (mkReservation (next_gen (tb_state b)) (batch_byte_size rows_batch)) rows_batch) in Hfit.
  destruct (append _ _ n1 _) as [n2 ap] eqn:Hap.
  destruct (append_spec _ _ n1 _ n2 ap (ni_writer _ Hn1) (mo_behind _ _ _ _ _ _ Hm) (mo_io _ _ _ _ _ _ Hm)
    (mo_seq _ _ _ _ _ _ Hm) Hfit Hap) as (Hset & Hw2 & _).
  assert (node_inv n2) as Hn2 by (apply (node_inv_same n1); [done|by rewrite Hset..|done]).
  assert (n_heap n2 !! ref = Some b1) as Hh2 by (by rewrite Hset).
  destruct (mo_others _ _ _ _ _ _ Hm ref n2 b1 0%N Hn2 Hh2) as (_ & (b3 & Hh3 & Hst) & _).
  rewrite Hh3. simpl default. apply steps_avoiding_ident in Hst.
  destruct ap as [u|e].
  - destruct (insert_reserved_at _ _ _ _ _) as [b4 ok] eqn:Hins. intros [= <- <-]. exists b4.
    split; [by eapply write_buffer_lookup|]. injection Hins as <- _. simpl. congruence.
  - intros [= <- <-]. eexists. split; [by eapply write_buffer_lookup|]. unfold release_reservation. simpl. congruence.
Qed.

Lemma ingest_flight_batch_exact (env : Env) n ident ref arrow_schema data b n' r :
  (max_bytes ≤ u64_max)%N → node_inv n → n_heap n !! ref = Some b → tb_ident b = ident →
  message_ok env n ident ref arrow_schema data →
  ingest_flight_batch env n ident ref arrow_schema data = (n', r) →
  answer_exact ident ref (n, n', r) ∧ ∃ b', n_heap n' !! ref = Some b' ∧ tb_ident b' = ident.
Proof.
  intros Hmax Hn Hb Hid Hm. unfold ingest_flight_batch.
  assert (∀ e, answer_exact ident ref (n, n, Err e)) as Hsame.
  { intros e. split; [done|]. intros b0 Hb0. apply unused_next; [|done]. by eapply Forall_lookup; [apply Hn|]. }
  destruct (fw_decode_batch data arrow_schema) as [rows_batch|e] eqn:Hd; [|intros [= <- <-]; eauto].
  destruct (validate_batch rows_batch arrow_schema); [|intros [= <- <-]; eauto].
  rewrite Hb. intros Hp. pose proof Hp as (r' & Hr & Hrel)%put_batch_ingests.
  pose proof (ingest_env_of_ok env n ident ref arrow_schema data Hmax Hm) as Henv.
  destruct (ingest_batch_spec max_bytes _ n ident ref b rows_batch None n' r' Hn Hb Hid Henv (mo_fits _ _ _ _ _ _ Hm _ _ Hb Hd)
    ltac:(done) Hr) as [Hn' Hres].
  split; [|exact (put_batch_keeps env n ident ref arrow_schema data b rows_batch n' r Hn Hb Hid Hm Hd Hp)]. split; [done|]. destruct r as [receipt|e].
  - subst r'. by destruct Hres.
  - destruct Hrel as [e' ->]. destruct Hres as [Hu _]. intros b0 Hb0. by simplify_eq.
Qed.

(** The messages that carry a batch, up to a broken one. *)
Fixpoint data_messages (messages : list (result string FlightData)) : nat :=
  match messages with
  | [] => 0
  | Err _ :: _ => 1
  | Ok data :: messages => (match fd_body data with [] => 0 | _ :: _ => 1 end) + data_messages messages
  end.
Definition answered (a : Nd * Nd * result Status PutReceipt) : bool := match a.2 with Ok _ => true | Err _ => false end.

Lemma put_stream_exact envs i n ident ref arrow_schema messages b :
  (max_bytes ≤ u64_max)%N → node_inv n → n_heap n !! ref = Some b → tb_ident b = ident →
  stream_ok envs i n ident ref arrow_schema messages →
  let answers := put_stream envs i n ident ref arrow_schema messages in
  Forall (answer_exact ident ref) answers ∧
  (length answers = data_messages messages ∨ ∃ pre a, answers = pre ++ [a] ∧ answered a = false) ∧
  ∀ k a, answers !! k = Some a → answered a = false → S k = length answers.
Proof.
  intros Hmax. revert i n b. induction messages as [|[data|e] messages IH]; intros i n b Hn Hb Hid; cbn [put_stream stream_ok data_messages].
  - intros _. split_and!; [by apply Forall_nil|by left|]. intros k a Hk. by rewrite lookup_nil in Hk.
  - intros [Hbt Hok]. destruct (fd_body data) as [|x body].
    + destruct (Hbt n b Hn Hb Hid) as (Hn' & b' & Hb' & Hid'). by eapply IH.
    + destruct Hok as [Hm Hrest]. destruct (ingest_flight_batch _ _ _ _ _ _) as [n' r] eqn:Hi.
      destruct (ingest_flight_batch_exact _ _ _ _ _ _ _ _ _ Hmax Hn Hb Hid Hm Hi) as [Hx (b' & Hb' & Hid')].
      destruct r as [receipt|e].
      * destruct (Hbt n' b' (proj1 Hx) Hb' Hid') as (Hn2 & b2 & Hb2 & Hid2).
        destruct (IH _ _ _ Hn2 Hb2 Hid2 Hrest) as (Hall & Hlen & Hlast). split_and!; [by constructor| |].
        -- destruct Hlen as [Hlen|(pre & a & Heq & Ha)]; [left; simpl; by rewrite Hlen|right]. exists ((n, n', Ok receipt) :: pre), a. by rewrite Heq.
        -- intros [|k] a; simpl; [by intros [= <-]|]. intros Hk Ha. by rewrite (Hlast _ _ Hk Ha).
      * split_and!; [by apply Forall_singleton|right; by exists [], (n, n', Err e)|]. by intros [|k] a.
  - intros _. split_and!; [|by left|by intros [|k] a].
    apply Forall_singleton. split; [done|]. intros b0 Hb0. apply unused_next; [|done]. by eapply Forall_lookup; [apply Hn|].
Qed.
End put_spec.


(** ** A stream on a concrete node *)
#[local] Instance ArrowField_eq_dec : EqDecision ArrowField.
Proof. solve_decision. Defined.
Section demo.
#[local] Existing Instances demo_uuid_text demo_checkpoint_json demo_identity_json demo_committed_json demo_wal_codec
  demo_wal_codec_laws demo_json_text demo_record_ops demo_arrow.
Definition demo_flight_schema : ArrowSchema := [mkArrowField "v" AInt64 true ∅].
Definition demo_flight_wire : FlightWire (@RecordBatch demo_wal_codec) := {|
  fw_statement_update _ := None;
  fw_decode_batch d s := if bool_decide (s = demo_flight_schema) then Ok [10%N] else Err "schema";
  fw_fields _ := demo_flight_schema; fw_null_count _ _ := 0%N |}.
#[local] Existing Instance demo_flight_wire.
#[local] Instance demo_flight_laws : FlightWireLaws (@RecordBatch demo_wal_codec).
Proof. split. intros d s b. cbn. case_bool_decide; [by subst|done]. Qed.

Definition demo_put_env (between : @Node unit unit unit demo_wal_codec → @Node unit unit unit demo_wal_codec) (i : nat) : @PutEnv unit unit unit demo_wal_codec :=
  mkPutEnv (77 + N.of_nat i) 1700 io_fine [] (λ n, n) (if i =? 1 then between else λ n, n).
Definition demo_descriptor : FlightDescriptor := mkFlightDescriptor [] ["analytics"; "events"].
Definition demo_messages (k : nat) : list (result string FlightData) :=
  Ok (mkFlightData (Some demo_descriptor) [] []) :: replicate k (Ok (mkFlightData None [] [Byte.x01])).
Definition demo_put between k := do_put (λ _ : unit, demo_flight_schema) 1000 800 50 None (mkPrincipal "p" [] ∅) demo_load (demo_put_env between) demo_node (demo_messages k).

Definition put_shape (r : result Status (@PutOutcome unit unit unit demo_wal_codec)) : option (TableIdent * nat * ArrowSchema * nat) :=
  match r with Ok (PutAnswers ident ref schema answers) => Some (ident, ref, schema, length answers) | _ => None end.
Lemma put_shape_Some r ident ref schema k :
  put_shape r = Some (ident, ref, schema, k) → ∃ answers, r = Ok (PutAnswers ident ref schema answers) ∧ length answers = k.
Proof. destruct r as [[|i f s l]|]; cbn; [done| |done]. intros [= <- <- <- <-]. by exists l. Qed.
Lemma demo_between_ok : between_ok (Schema := unit) (Spec := unit) (Order := unit) (λ n, n) demo_table 0.
Proof. intros n b Hn Hb Hid. split; [exact Hn|]. exists b. split; [exact Hb|exact Hid]. Qed.
(** The limits of the log, by evaluation. *)
Definition put_fits (n : @Node unit unit unit demo_wal_codec) (i : nat) : bool :=
  (sw_next_seq (n_writer n) <=? u64_max)%N &&
  match n_heap n !! 0 with
  | Some b => match encode_payload (ingest_record (ingest_env_of (demo_put_env (λ n, n) i)) b demo_table None [10%N]) with
              | Ok p => (lenN p <=? MAX_PAYLOAD_BYTES)%N | Err _ => true end
  | None => true
  end.
Lemma demo_message_ok n i data : put_fits n i = true → message_ok (demo_put_env (λ n, n) i) n demo_table 0 demo_flight_schema data.
Proof.
  intros [Hseq Hfit]%andb_true_iff. split; [|reflexivity|by apply Forall_nil|by apply N.leb_le|].
  - intros ref n1 b g Hn Hb. split; [exact Hn|]. split; [exists b; split; [exact Hb|apply avoiding_refl]|].
    split; [intros r _ _ Hr; exact Hr|]. split; [reflexivity|]. by intros k [=].
  - intros b rows_batch Hb Hd. rewrite Hb in Hfit. unfold fw_decode_batch, demo_flight_wire in Hd.
    rewrite bool_decide_true in Hd by done. injection Hd as <-. intros p Hp. rewrite Hp in Hfit. by apply N.leb_le.
Qed.

Lemma demo_stream_ok n0 :
  n0 = (demo_put (λ n, n) 2).1 → stream_ok (demo_put_env (λ n, n)) 0 n0 demo_table 0 demo_flight_schema (demo_messages 2).
Proof.
  intros ->. cbn [demo_messages replicate stream_ok fd_body demo_put_env pe_between Nat.eqb].
  split; [exact demo_between_ok|]. split; [exact demo_between_ok|]. split; [apply demo_message_ok; vm_compute; reflexivity|].
  destruct (ingest_flight_batch _ _ _ _ _ _) as [n1 [r|e]] eqn:H1; [|exact I].
  assert (n1 = (ingest_flight_batch (demo_put_env (λ n, n) 1) (demo_put (λ n, n) 2).1 demo_table 0 demo_flight_schema (mkFlightData None [] [Byte.x01])).1)
    as -> by exact (eq_sym (f_equal fst H1)).
  split; [exact demo_between_ok|]. split; [apply demo_message_ok; vm_compute; reflexivity|].
  destruct (ingest_flight_batch (demo_put_env _ 2) _ _ _ _ _) as [n2 [r2|e]]; exact I.
Qed.


(** A stream whose table is dropped between two batches goes on: the second batch is acknowledged into a buffer that no flush and no query
    reaches any more. *)
Theorem stream_outlives_drop :
  let answers := match (demo_put (λ n, (registry_remove n demo_table).1) 2).2 with Ok (PutAnswers _ _ _ answers) => answers | _ => [] end in
  map (λ '(_, n, r), (n_buffers n !! demo_table, match r with Ok receipt => Some (ir_accepted_rows (pr_receipt receipt)) | Err _ => None end)) answers =
    [(Some 0, Some 1%N); (None, Some 1%N)].
Proof. vm_compute. reflexivity. Qed.
End demo.

(** ** The schema check *)
Lemma validate_data_type_refl t : validate_data_type t t = Ok tt.
Proof. destruct t; cbn; case_bool_decide; naive_solver. Qed.
Lemma validate_column_self {Batch : Type} `{FlightWire Batch} (b : Batch) i f :
  validate_column b i f f = Ok tt ↔ (af_nullable f = false → fw_null_count b i = 0%N).
Proof.
  unfold validate_column. rewrite bool_decide_false by naive_solver. cbn [reject_if mbind result_bind]. rewrite validate_data_type_refl. cbn [mbind result_bind].
  assert (match af_metadata f !! FIELD_ID_KEY with
          | Some x => match af_metadata f !! FIELD_ID_KEY with Some y => reject_if (bool_decide (x ≠ y)) (InvalidArgument "column[{}].field_id" "field ID mismatch for '{}': expected {exp_id}, got {act_id}") | None => Ok tt end
          | None => Ok tt end = Ok tt) as Hm by (destruct (af_metadata f !! FIELD_ID_KEY); [rewrite bool_decide_false by naive_solver|]; done).
  rewrite Hm. destruct (af_nullable f); cbn [negb andb reject_if mbind result_bind]; [done|].
  destruct (N.ltb_spec 0 (fw_null_count b i)); cbn [reject_if mbind result_bind]; split; try done; try lia.
Qed.
Lemma validate_columns_self {Batch : Type} `{FlightWire Batch} (b : Batch) i s :
  validate_columns b i s s = Ok tt ↔ ∀ k f, s !! k = Some f → af_nullable f = false → fw_null_count b (i + k) = 0%N.
Proof.
  revert i. induction s as [|f s IH]; intros i; cbn [validate_columns]; [split; [by intros _ k f|done]|].
  rewrite bind_Ok. setoid_rewrite IH. split.
  - intros ([] & Hf & Hs) [|k] g; pose proof (proj1 (validate_column_self b i f) Hf); simpl; [intros [= <-]; by rewrite Nat.add_0_r|]. rewrite <- Nat.add_succ_comm. apply Hs.
  - intros Hs. exists tt. split; [apply validate_column_self; specialize (Hs 0 f eq_refl); by rewrite Nat.add_0_r in Hs|].
    intros k g Hg. rewrite Nat.add_succ_comm. by apply (Hs (S k)).
Qed.

(** A batch is decoded with the table's own schema, so the checks of names, types and field ids compare the table with itself: whatever
    columns the client sent, only nulls in required columns are refused. *)
Theorem flight_schema_check_vacuous {Batch : Type} `{FlightWireLaws Batch} (data : FlightData) (s : ArrowSchema) (b : Batch) :
  fw_decode_batch data s = Ok b →
  validate_batch b s = Ok tt ↔ ∀ i f, s !! i = Some f → af_nullable f = false → fw_null_count b i = 0%N.
Proof.
  intros Hd. unfold validate_batch. rewrite (fw_decode_fields _ _ _ Hd), Nat.eqb_refl. cbn [negb reject_if mbind result_bind].
  by rewrite validate_columns_self.
Qed.
