(* ===== verification/RecoverySpec.v ===== *)
(** * Correctness of startup recovery

    A recovery that succeeds leaves every record of the log that is newer than its
    table's checkpoint in the table's buffer, unless the catalog has acknowledged it, and
    restores the agreement between buffers and durable intents that flushes rely on. *)

From S2P Require Import Prelude Core Location DataFiles WriteProtocol WalFrame WalReplay WalReplaySpec WalState WalGc.
From S2P Require Import WalWriter Durable WalIdentity Prepared Buffer BufferSpec Catalog Flush FlushSpec FlushFrame.
From S2P Require Import Json Idempotency Node Recovery.
Open Scope nat_scope.
Open Scope list_scope.

(** ** Reading the plan while the log shrinks *)
Section reading.
Context `{WalCodec}.

Definition plan_paths_ok (plan : ReplayPlan) : Prop :=
  Forall (λ s, log_file (si_path (ss_identity s))) (rp_segments plan).

Lemma open_shrunk R root (s : SegmentSnapshot) h :
  log_shrinks R root → log_file (si_path (ss_identity s)) →
  (_ ← verify_identity R (ss_identity s); open_segment R (si_path (ss_identity s))) = Ok h →
  (_ ← verify_identity root (ss_identity s); open_segment root (si_path (ss_identity s))) = Ok h ∨
  ∃ e, (_ ← verify_identity root (ss_identity s); open_segment root (si_path (ss_identity s))) = Err e.
Proof.
  intros Hs Hlog. unfold verify_identity, segment_identity, open_segment.
  destruct (Hs _ Hlog) as [->| ->]; [by left|]. intros _. right. simpl. by eexists.
Qed.

(** A log with fewer files yields the same record, or an error. *)
Lemma next_record_shrunk R root plan x :
  plan_paths_ok plan → log_shrinks R root → next_record R plan = Returns x →
  next_record root plan = Returns x ∨ ∃ e, next_record root plan = Raises e.
Proof.
  intros Hpaths Hs. unfold next_record.
  assert (∀ c : bool, (if c then Ok tt else verify_live_snapshot root (rp_segments plan)) = Ok tt ∨
    ∃ e, (if c then Ok tt else verify_live_snapshot root (rp_segments plan)) = Err e) as Hlive.
  { intros c. destruct (if c then _ else _) as [[]|e]; eauto. }
  destruct (Hlive (rp_snapshot_checked plan)) as [->|[e ->]]; [|intros _; right; by eexists].
  destruct (if rp_snapshot_checked plan then _ else verify_live_snapshot R _) as [[]|e]; [|done].
  cbn [lift mbind outcome_bind]. destruct (rp_entries plan !! rp_entry_index plan) as [entry|]; [|by left].
  destruct (rp_segments plan !! pos_segment (e_position entry)) as [s|] eqn:Hseg; [|done].
  cbn [ok_or lift mbind outcome_bind].
  assert (log_file (si_path (ss_identity s))) as Hlog by (by eapply Forall_lookup in Hpaths).
  pose proof (open_shrunk R root s) as Hopen.
  destruct (rp_file plan) as [[i h]|]; [case_decide; [by left|]|].
  all: destruct (_ ← verify_identity R _; open_segment R _) as [h'|e]; [|done].
  all: destruct (Hopen h' Hs Hlog eq_refl) as [->|[e ->]]; [by left|right; by eexists].
Qed.

Lemma snapshot_paths_ok root segs :
  Forall2 (snapshot_for root) (segment_paths root) segs →
  Forall (λ s, log_file (si_path (ss_identity s))) segs.
Proof.
  intros Hsegs. apply Forall_lookup. intros i s Hi.
  destruct (Forall2_lookup_r _ _ _ _ _ Hsegs Hi) as (p & Hp & f & _ & -> & _). simpl.
  apply list_elem_of_lookup_2, segment_paths_elem in Hp as [Hw _].
  destruct (seg_corrupt root p); [right|by left].
  unfold quarantine_path, str_ends_with, str_strip_suffix. rewrite str_rev_append.
  rewrite (proj2 (str_strip_prefix_Some _ _ (str_rev p)) eq_refl). done.
Qed.
End reading.

(** ** Loading the tables *)
Section loading.
Context {Schema Spec Order : Type} `{UuidText} `{CheckpointJson}.
Abbreviation Metadata := (TableMetadata Schema Spec Order).
Context (load : TableIdent → TeoDBResult Metadata) (wid : Uuid).

(** What the loaded tables are, when [keys] were looked up. *)
Definition targets (keys : list WalTableKey) (md : gmap WalTableKey (Metadata * option WriterCheckpoint)) : Prop :=
  (∀ k m ck, md !! k = Some (m, ck) → k ∈ keys ∧ load (wk_ident k) = Ok m ∧ tm_table_uuid m = wk_table_uuid k ∧
     parse_writer_checkpoint (wk_ident k) (tm_properties m) wid = Ok ck) ∧
  (∀ k m, k ∈ keys → load (wk_ident k) = Ok m → ∃ ck, md !! k = Some (m, ck)).

Lemma load_target_step keys md k md' :
  targets keys md → load_target load wid md k = Ok md' → targets (keys ++ [k]) md'.
Proof.
  intros [Hin Hall]. unfold load_target. destruct (load (wk_ident k)) as [m|e] eqn:Hl; simpl.
  - destruct (N.eqb_spec (tm_table_uuid m) (wk_table_uuid k)) as [Hu|]; simpl; [|done].
    destruct (validate_writer_checkpoints _ _); simpl; [|done].
    destruct (parse_writer_checkpoint _ _ _) as [ck|] eqn:Hck; simpl; [|done]. intros [= <-]. split.
    + intros k' m' ck' [[<- [= <- <-]]|[_ Hk]]%lookup_insert_Some; rewrite elem_of_app.
      * split_and!; try done. right. by apply list_elem_of_singleton.
      * destruct (Hin _ _ _ Hk) as (? & ? & ? & ?). auto.
    + intros k' m' Hk Hm. destruct (decide (k' = k)) as [->|Hne]; [exists ck; rewrite lookup_insert_eq; congruence|].
      rewrite lookup_insert_ne by done. apply Hall; [|done].
      by apply elem_of_app in Hk as [?| ->%list_elem_of_singleton].
  - intros He. assert (md' = md) as -> by (destruct e; by simplify_eq). split.
    + intros k' m' ck' Hk. rewrite elem_of_app. destruct (Hin _ _ _ Hk) as (? & ? & ? & ?). auto.
    + intros k' m' [Hk| ->%list_elem_of_singleton]%elem_of_app Hm; [by apply Hall|congruence].
Qed.

Lemma load_target_spec keys md : load_target_metadata load keys wid = Ok md → targets keys md.
Proof.
  unfold load_target_metadata.
  assert (∀ done todo md0, targets done md0 → foldM (load_target load wid) md0 todo = Ok md → targets (done ++ todo) md)
    as Hgen; [|apply (Hgen [] keys ∅); split; [done|by intros ? ? ?%elem_of_nil]].
  intros done todo. revert done. induction todo as [|k todo IH]; intros done md0 Ht Hf.
  { injection Hf as <-. by rewrite app_nil_r. }
  simpl in Hf. destruct (load_target load wid md0 k) as [md1|e] eqn:Hk; [|done].
  rewrite (cons_middle k), app_assoc. eapply IH, Hf. by eapply load_target_step.
Qed.
End loading.

(** ** Resolving an intent *)
Section resolving.
Context {Schema Spec Order : Type} `{WalCodec} `{!BatchOps RecordBatch} `{!TableLayout Schema Spec}.
Context `{UuidTextLaws} `{IdentityJson} `{PreparedJsonLaws} `{CommittedJson}.
Context (max_files max_prepared_bytes : N) (table_uuid : Uuid) (acked : Prop).
Abbreviation Metadata := (TableMetadata Schema Spec Order).
Abbreviation Wd := (@World RecordBatch Schema Spec Order).
Abbreviation world_ok := (world_inv max_files max_prepared_bytes table_uuid).

Definition resolve_env_ok (env : @ResolveEnv Schema Spec Order) : Prop :=
  (∀ m, re_status env = Ok (StCommitted m) → tm_table_uuid m = table_uuid ∧ acked) ∧
  (∀ m, re_commit env = Ok m → tm_table_uuid m = table_uuid ∧ acked).

(** The state before an intent found on disk is taken over. *)
Record unclaimed (w : Wd) (p : PreparedFlush) : Prop := {
  uc_buf : buf_inv (w_buf w);
  uc_uuid : tm_table_uuid (tb_metadata (w_buf w)) = table_uuid;
  uc_free : prepared_flush (w_buf w) = None;
  uc_reserved : reserved_generations (tb_state (w_buf w)) = ∅;
  uc_above : ∀ g, g ∈ generations (pending (tb_state (w_buf w))) → (gr_lo (pf_generations p) ≤ g)%N;
  uc_store : ∃ m, store_rep (ri_writer_id (w_identity w)) max_files max_prepared_bytes (w_prepared w) m ∧
    m !! table_uuid = Some p;
  uc_json : prepared_representable p;
}.

Lemma restore_owner w p t :
  unclaimed w p → restore_prepared (w_buf w) p = (t, Ok tt) →
  world_ok (with_buf w t) ∧ prepared_flush t = Some p ∧ rows t ≡ₚ rows (w_buf w).
Proof.
  intros [Hb Hu Hf Hr Ha (m & Hst & Hp) Hj] Hre.
  pose proof (inv_restore (w_buf w) p Hb (conj Hr Ha)) as Hb'. rewrite Hre in Hb'. simpl in Hb'.
  destruct (exec_unchanged 0 (w_buf w) (DoRestore p) ltac:(done)) as (Hrows & _ & Hhw & _).
  simpl in Hrows, Hhw. rewrite Hre in Hrows, Hhw. simpl in Hrows, Hhw. rewrite app_nil_r in Hrows.
  assert (prepared_flush t = Some p ∧ tb_metadata t = tb_metadata (w_buf w)) as [Hpf Hm].
  { revert Hre. unfold restore_prepared. repeat case_match; intros; by simplify_eq. }
  destruct Hst as [Hd Hin]. destruct (Hin _ _ Hp) as [Hpu _].
  split_and!; [|done|exact Hrows]. split; simpl; [done|by rewrite Hm| |].
  - intros q Hq. rewrite Hpf in Hq. injection Hq as <-. by split.
  - exists m. split; [done|]. intros q Hq. left. congruence.
Qed.

Lemma complete_prepared_effect env (w : Wd) p m (w' : Wd) :
  world_ok w → prepared_flush (w_buf w) = Some p → tm_table_uuid m = table_uuid → acked →
  complete_prepared env w p m = (w', Ok tt) →
  world_ok w' ∧ rows (w_buf w') = pending (tb_state (w_buf w)) ∧
  (gr_hi (pf_generations p) ≤ committed_high_water (tb_state (w_buf w')))%N ∧ quiet table_uuid acked w w'.
Proof.
  intros Hw Hp Hm Hack. destruct (owned_commit_ok _ _ _ (re_now env) w p m Hw Hp)
    as (t' & Hc & Hb' & Hf & Hif & Hpd & Hmd & Hid & Hhw).
  unfold complete_prepared. rewrite Hc. destruct (wi_owner _ _ _ _ Hw p Hp) as [Hpu _]. rewrite Hpu.
  intros Hrm. assert (quiet table_uuid acked w w') as Hq.
  { apply remove_quiet with (acked := acked) in Hrm. etrans; [|exact Hrm]. etrans; [|apply mark_committed_quiet].
    apply (quiet_buf _ _ w t' (re_now env) (DoCommitted (gr_hi (pf_generations p)) m)); [done|]. simpl. by rewrite Hc. }
  unfold wal_remove_prepared in Hrm.
  destruct (remove_prepared _ _ _) as [d' r] eqn:Hrem. injection Hrm as <- ->.
  destruct Hw as [_ _ Ho (ms & Hst & Hown)].
  destruct (remove_prepared_store _ _ _ _ _ _ _ _ _ Hst Hrem) as [Hst' _]. specialize (Hst' eq_refl).
  split_and!; [| | |done].
  - split; cbn -[persist_committed_checkpoint].
    + done.
    + by rewrite Hmd.
    + unfold prepared_flush. by rewrite Hf.
    + exists (delete table_uuid ms). split; [done|]. intros q [Hq' _]%lookup_delete_Some. done.
  - change (rows t' = pending (tb_state (w_buf w))). unfold rows. by rewrite Hif, Hpd, app_nil_r.
  - change (gr_hi (pf_generations p) ≤ committed_high_water (tb_state t'))%N. rewrite Hhw. lia.
Qed.

Lemma resolve_effect env (w : Wd) p (w' : Wd) :
  unclaimed w p → resolve_env_ok env → resolve_prepared env w p = (w', Ok tt) →
  world_ok w' ∧ quiet table_uuid acked w w' ∧
  ∃ com, rows (w_buf w') ++ com ≡ₚ rows (w_buf w) ∧
    Forall (λ e, (be_generation e ≤ committed_high_water (tb_state (w_buf w')))%N) com.
Proof.
  intros Huc [Hstat Hcom]. unfold resolve_prepared. destruct (validate_prepared_data_files _ _); [|done].
  destruct (restore_prepared (w_buf w) p) as [t [[]|e]] eqn:Hre; [|done].
  destruct (restore_owner w p t Huc Hre) as (Hw & Hp & Hrows).
  assert (quiet table_uuid acked w (with_buf w t)) as Hq1
    by (apply (quiet_buf _ _ w t 0 (DoRestore p)); [done|simpl; by rewrite Hre]).
  set (w1 := with_buf w t) in *. change t with (w_buf w1) in Hp, Hrows. clearbody w1.
  assert (∀ m, tm_table_uuid m = table_uuid ∧ acked → complete_prepared env w1 p m = (w', Ok tt) →
    world_ok w' ∧ quiet table_uuid acked w w' ∧
    ∃ com, rows (w_buf w') ++ com ≡ₚ rows (w_buf w) ∧
      Forall (λ e, (be_generation e ≤ committed_high_water (tb_state (w_buf w')))%N) com) as Hcomp.
  { intros m [Hm Hack] Hc. destruct (complete_prepared_effect _ _ _ _ _ Hw Hp Hm Hack Hc) as (Hw' & Hr & Hhi & Hq).
    split_and!; [done|by etrans|]. exists (in_flight (tb_state (w_buf w1))). split; [by rewrite Hr, <-Hrows|].
    eapply Forall_impl; [by apply (rows_in_range _ p); [apply Hw|]|]. simpl. lia. }
  assert (∀ now e c, (let '(b, r) := mark_flush_blocked_with_class (w_buf w1) now p e c 1 in (with_buf w1 b, r)) =
      (w', Ok tt) →
    world_ok w' ∧ quiet table_uuid acked w w' ∧
    ∃ com, rows (w_buf w') ++ com ≡ₚ rows (w_buf w) ∧
      Forall (λ e, (be_generation e ≤ committed_high_water (tb_state (w_buf w')))%N) com) as Hblock.
  { intros now e c. destruct (mark_flush_blocked_with_class _ _ _ _ _ _) as [b r] eqn:Hb. intros [= <- ->].
    pose proof (block_quiet table_uuid acked _ _ _ _ _ _ _ _ Hb).
    destruct (block_world _ _ _ _ _ _ _ _ _ _ _ Hw Hp Hb) as (_ & Hw' & Hr & _).
    split_and!; [done|by etrans|]. exists []. split; [simpl; by rewrite app_nil_r, Hr, Hrows|by apply Forall_nil]. }
  unfold block_prepared, contain_prepared_error, mark_flush_blocked.
  destruct (re_status env) as [[m| |msg]|error]; [by apply Hcomp, Hstat| |by apply Hblock|by apply Hblock].
  destruct (re_commit env) as [m|error]; [by apply Hcomp, Hcom|]. destruct error; by apply Hblock.
Qed.
End resolving.
