(* ===== verification/RecoveryMain.v ===== *)
(** * Recovery restores the unflushed records

    The invariant of the replay loop and the theorems about a whole recovery. *)

From S2P Require Import Prelude Core Location DataFiles WriteProtocol WalFrame WalReplay WalReplaySpec WalState WalGc.
From S2P Require Import WalWriter Durable WalIdentity Prepared Buffer BufferSpec Catalog Flush FlushSpec FlushFrame.
From S2P Require Import Json Idempotency Node NodeSpec Recovery RecoverySpec.
Open Scope nat_scope.
Open Scope list_scope.

Section main.
Context {Schema Spec Order : Type} `{WalCodec} `{!BatchOps RecordBatch} `{!TableLayout Schema Spec}.
Context `{UuidTextLaws} `{CheckpointJson} `{IdentityJson} `{PreparedJsonLaws} `{CommittedJson}.
Context (max_files max_prepared_bytes : N) (status_check : CommitStatusCheckConfig).
Context (max_bytes soft grace : N) (hash_order : ∀ A : Type, list A → list A).
Abbreviation Metadata := (TableMetadata Schema Spec Order).
Abbreviation Buf := (@TableBuffer RecordBatch Schema Spec Order).
Abbreviation Nd := (@Node Schema Spec Order _).

(** The buffer entry of a replayed record. *)
Definition entry_of (r : WalRecord) : BufferEntry RecordBatch :=
  mkBufferEntry (batch_id (header r)) (generation (header r)) (created_at_ms (header r)) (batch r)
    (batch_byte_size (batch r)).

Section invariant.
(** The catalog's answers, the tables loaded from it, the log of the first pass. *)
Context (load : TableIdent → TeoDBResult Metadata) (wid : Uuid) (keys : list WalTableKey).
Context (md : gmap WalTableKey (Metadata * option WriterCheckpoint)) (R : WalDir) (recs : list WalRecord).
(** [pm0]: the intents found on disk; [acked]: the catalog has acknowledged a commit. *)
Context (pm0 : gmap Uuid PreparedFlush) (acked : Prop).

Definition wanted (r : WalRecord) : Prop :=
  ∃ m ck, md !! record_key r = Some (m, ck) ∧ (checkpoint_generation ck < generation (header r))%N.

Hypothesis Htargets : targets load wid keys md.
Hypothesis Hroom : ∀ k m ck, md !! k = Some (m, ck) → (checkpoint_generation ck < u64_max)%N.
Hypothesis Huuids : ∀ a b ma mb, load a = Ok ma → load b = Ok mb → tm_table_uuid ma = tm_table_uuid mb → a = b.
Hypothesis Hmax : (max_bytes ≤ u64_max)%N.
Hypothesis Hu64 : ∀ r, r ∈ recs → (generation (header r) ≤ u64_max)%N.
Hypothesis Hincreasing : ∀ done r todo r', recs = done ++ r :: todo → r' ∈ todo → record_key r' = record_key r →
  (generation (header r) < generation (header r'))%N.
Hypothesis Hpos : ∀ r, r ∈ recs → generation (header r) ≠ 0%N.
Hypothesis Hkeys : ∀ done r todo r' s, recs = done ++ r :: todo → r' ∈ done → wanted r' → wanted r →
  h_table (header r') = h_table (header r) → idempotency_key (header r') = Some s →
  idempotency_key (header r) = Some s → False.
Hypothesis Hintents : ∀ u p, pm0 !! u = Some p →
  pf_table_uuid p = u ∧ mkWalTableKey u (pf_table p) ∈ keys ∧ prepared_representable p ∧
  ∀ r, r ∈ recs → wanted r → wk_table_uuid (record_key r) = u →
    (gr_lo (pf_generations p) ≤ generation (header r))%N.

(** ** The invariant of the loop *)

(** [done] have been replayed and [todo] follow; [pm] are the unresolved intents and [m]
    those on disk; [c] is the checkpoint of the table [k] with buffer [b]. *)
Record table_ok (pm m : gmap Uuid PreparedFlush) (done todo : list WalRecord) (k : WalTableKey) (c : N)
    (b : Buf) : Prop := {
  to_ident : tb_ident b = wk_ident k;
  to_buf : buf_inv b;
  to_uuid : tm_table_uuid (tb_metadata b) = wk_table_uuid k;
  to_reserved : reserved_generations (tb_state b) = ∅;
  to_high : (c ≤ committed_high_water (tb_state b))%N;
  to_acked : committed_high_water (tb_state b) = c ∨ acked;
  to_next r : r ∈ todo → record_key r = k → (c < generation (header r))%N →
    (next_gen (tb_state b) ≤ generation (header r))%N;
  to_from e : e ∈ rows b → ∃ r, r ∈ done ∧ record_key r = k ∧ (c < generation (header r))%N ∧ e = entry_of r;
  to_all r : r ∈ done → record_key r = k → (c < generation (header r))%N →
    entry_of r ∈ rows b ∨ (generation (header r) ≤ committed_high_water (tb_state b))%N;
  to_intent :
    match pm !! wk_table_uuid k with
    | Some p => prepared_flush b = None
    | None =>
        (∀ p, prepared_flush b = Some p → pf_table_uuid p = wk_table_uuid k ∧ prepared_representable p) ∧
        (∀ p, m !! wk_table_uuid k = Some p → prepared_flush b = Some p ∨
           (gr_hi (pf_generations p) ≤ committed_high_water (tb_state b))%N)
    end;
}.

Record rec_inv (n : Nd) (pm m : gmap Uuid PreparedFlush) (done todo : list WalRecord) : Prop := {
  ri_split : recs = done ++ todo;
  ri_root : log_shrinks R (n_root n);
  ri_wid : ri_writer_id (n_identity n) = wid;
  ri_store : store_rep wid max_files max_prepared_bytes (n_prepared n) m;
  ri_pm u p : pm !! u = Some p → m !! u = Some p ∧ pm0 !! u = Some p;
  ri_sidecars u p : m !! u = Some p → pm !! u = Some p ∨
    ∃ k v, md !! k = Some v ∧ wk_table_uuid k = u ∧ is_Some (n_buffers n !! wk_ident k);
  ri_tables ident ref : n_buffers n !! ident = Some ref → ∃ k m0 ck b,
    md !! k = Some (m0, ck) ∧ wk_ident k = ident ∧ n_heap n !! ref = Some b ∧
    table_ok pm m done todo k (checkpoint_generation ck) b;
  ri_known r : r ∈ done → wanted r → is_Some (n_buffers n !! wk_ident (record_key r));
}.

Lemma md_ident k k' v v' : md !! k = Some v → md !! k' = Some v' → wk_ident k = wk_ident k' → k = k'.
Proof.
  destruct v as [m ck], v' as [m' ck']. intros Hk Hk' Hid. destruct Htargets as [Hin _].
  destruct (Hin _ _ _ Hk) as (_ & Hl & Hu & _), (Hin _ _ _ Hk') as (_ & Hl' & Hu' & _).
  destruct k as [u i], k' as [u' i']; simpl in *. congruence.
Qed.
Lemma md_uuid k k' v v' : md !! k = Some v → md !! k' = Some v' → wk_table_uuid k = wk_table_uuid k' → k = k'.
Proof.
  destruct v as [m ck], v' as [m' ck']. intros Hk Hk' Hid. destruct Htargets as [Hin _].
  destruct (Hin _ _ _ Hk) as (_ & Hl & Hu & _), (Hin _ _ _ Hk') as (_ & Hl' & Hu' & _).
  apply (md_ident k k' _ _ Hk Hk'). eapply Huuids; [exact Hl|exact Hl'|congruence].
Qed.

Lemma table_of n pm m done todo k m0 ck ref :
  rec_inv n pm m done todo → md !! k = Some (m0, ck) → n_buffers n !! wk_ident k = Some ref →
  ∃ b, n_heap n !! ref = Some b ∧ table_ok pm m done todo k (checkpoint_generation ck) b.
Proof.
  intros Hi Hk Href. destruct (ri_tables _ _ _ _ _ Hi _ _ Href) as (k' & m0' & ck' & b & Hk' & Hid & Hb & Ht).
  assert (k' = k) as -> by (by eapply md_ident). exists b. split; [done|]. congruence.
Qed.

(** Tables other than the one worked on. *)
Lemma table_ok_frame pm m done todo pm' m' done' todo' k c b :
  table_ok pm m done todo k c b →
  pm' !! wk_table_uuid k = pm !! wk_table_uuid k → m' !! wk_table_uuid k = m !! wk_table_uuid k →
  (∀ r, r ∈ todo' → r ∈ todo) →
  (∀ r, record_key r = k → (c < generation (header r))%N → r ∈ done' ↔ r ∈ done) →
  table_ok pm' m' done' todo' k c b.
Proof.
  intros Ht Hpm Hm Htodo Hdone. destruct Ht. split; try done.
  - intros r ? ? ?. eauto.
  - intros e He. destruct (to_from0 e He) as (r & ? & ? & ? & ->). exists r. split_and!; try done. by apply Hdone.
  - intros r ? ? ?. apply to_all0; [|done|done]. by apply Hdone.
  - by rewrite Hpm, Hm.
Qed.

Lemma rec_inv_update n n' pm pm' m m' done todo done' todo' k m0 ck ref b' :
  rec_inv n pm m done todo → md !! k = Some (m0, ck) → n_buffers n !! wk_ident k = Some ref →
  n_heap n' = <[ref := b']> (n_heap n) → n_buffers n' = n_buffers n → log_shrinks R (n_root n') →
  ri_writer_id (n_identity n') = wid → store_rep wid max_files max_prepared_bytes (n_prepared n') m' →
  (∀ u, u ≠ wk_table_uuid k → pm' !! u = pm !! u ∧ m' !! u = m !! u) →
  (∀ p, pm' !! wk_table_uuid k = Some p →
     pm !! wk_table_uuid k = Some p ∧ m' !! wk_table_uuid k = Some p) →
  recs = done' ++ todo' → (∀ r, r ∈ todo' → r ∈ todo) →
  (∀ r, wanted r → record_key r ≠ k → r ∈ done' ↔ r ∈ done) →
  table_ok pm' m' done' todo' k (checkpoint_generation ck) b' → rec_inv n' pm' m' done' todo'.
Proof.
  intros Hi Hk Href Hheap Hbufs Hroot Hwid Hst Hother Hthis Hrecs Htodo Hdone Ht. split; try done.
  - intros u p Hp. destruct (decide (u = wk_table_uuid k)) as [->|Hne].
    + destruct (Hthis p Hp) as [Hp' ?]. destruct (ri_pm _ _ _ _ _ Hi _ _ Hp') as (_ & ?). done.
    + destruct (Hother u Hne) as [E1 E2]. rewrite E1 in Hp. rewrite E2. by apply (ri_pm _ _ _ _ _ Hi).
  - intros u p Hp. rewrite Hbufs. destruct (decide (u = wk_table_uuid k)) as [->|Hne]; [right; by eauto 6|].
    destruct (Hother u Hne) as [E1 E2]. rewrite E1. rewrite E2 in Hp. by apply (ri_sidecars _ _ _ _ _ Hi).
  - intros ident ref' Hid. rewrite Hbufs in Hid. rewrite Hheap.
    destruct (ri_tables _ _ _ _ _ Hi _ _ Hid) as (k2 & m2 & ck2 & b2 & Hk2 & Hid2 & Hb2 & Ht2).
    destruct (decide (k2 = k)) as [->|Hne].
    + exists k, m0, ck, b'. assert (ref' = ref) as -> by congruence. split_and!; try done.
      apply list_lookup_insert_eq. by eapply lookup_lt_Some.
    + assert (ref' ≠ ref) as Hrefs.
      { intros ->. destruct (table_of _ _ _ _ _ _ _ _ _ Hi Hk Href) as (b & Hb & Htb).
        apply Hne. apply (md_ident _ _ _ _ Hk2 Hk). rewrite <-(to_ident _ _ _ _ _ _ _ Ht2), <-(to_ident _ _ _ _ _ _ _ Htb).
        congruence. }
      exists k2, m2, ck2, b2. split_and!; try done; [by rewrite list_lookup_insert_ne|].
      assert (wk_table_uuid k2 ≠ wk_table_uuid k) as Hu by (intros Heq; by apply Hne; eapply md_uuid).
      eapply table_ok_frame; [exact Ht2|apply Hother, Hu|apply Hother, Hu|done|].
      intros r Hr Hc. apply Hdone; [|congruence]. exists m2, ck2. by rewrite Hr.
  - intros r Hr Hw. rewrite Hbufs. destruct (decide (record_key r = k)) as [->|Hne]; [by eexists|].
    apply (ri_known _ _ _ _ _ Hi); [|done]. by apply Hdone.
Qed.

(** A record that is not wanted passes. *)
Lemma rec_inv_skip n pm m done r todo :
  rec_inv n pm m done (r :: todo) → ¬ wanted r → rec_inv n pm m (done ++ [r]) todo.
Proof.
  intros Hi Hr. split; try apply Hi.
  - rewrite (ri_split _ _ _ _ _ Hi), <-app_assoc. done.
  - intros ident ref Hid. destruct (ri_tables _ _ _ _ _ Hi _ _ Hid) as (k & m0 & ck & b & Hk & Hid' & Hb & Ht).
    exists k, m0, ck, b. split_and!; try done. eapply table_ok_frame; [exact Ht|done|done|by right|].
    intros r' Hr' Hc. rewrite elem_of_app, list_elem_of_singleton. split; [|by left].
    intros [?| ->]; [done|]. destruct Hr. exists m0, ck. by rewrite Hr'.
  - intros r' [Hr'| ->%list_elem_of_singleton]%elem_of_app Hw; [|done]. by apply (ri_known _ _ _ _ _ Hi).
Qed.

(** ** Loading a buffer *)

(** A later load finds the same incarnation with the same checkpoint of this writer. *)
Definition load_agrees (le : @LoadEnv Schema Spec Order) (ident : TableIdent) : Prop :=
  ∀ m, le_load le = Ok m → ∃ m0, load ident = Ok m0 ∧ tm_table_uuid m = tm_table_uuid m0 ∧
    parse_writer_checkpoint ident (tm_properties m) wid = parse_writer_checkpoint ident (tm_properties m0) wid.

(** A new buffer enters the registry. *)
Lemma rec_inv_new (n n' : Nd) pm m done todo k m0 ck mb :
  rec_inv n pm m done todo → md !! k = Some (m0, ck) → n_buffers n !! wk_ident k = None →
  tm_table_uuid mb = wk_table_uuid k →
  n_heap n' = n_heap n ++
    [with_committed_grace (TableBuffer_new (wk_ident k) mb (checkpoint_generation ck) max_bytes soft) grace] →
  n_buffers n' = <[wk_ident k := length (n_heap n)]> (n_buffers n) → log_shrinks R (n_root n') →
  ri_writer_id (n_identity n') = wid → n_prepared n' = n_prepared n →
  rec_inv n' pm m done todo.
Proof.
  intros Hi Hk Hnone Hu Hheap Hbufs Hroot Hwid Hprep. pose proof (Hroom _ _ _ Hk) as Hc.
  split; try apply Hi; try done.
  - rewrite Hprep. apply Hi.
  - intros u p Hp. destruct (ri_sidecars _ _ _ _ _ Hi u p Hp) as [?|(k' & v & Hk' & Hu' & Hs)]; [by left|].
    right. exists k', v. split_and!; try done. rewrite Hbufs. by apply lookup_insert_is_Some'; right.
  - intros ident ref. rewrite Hbufs, Hheap. intros [[<- <-]|[Hne Hid]]%lookup_insert_Some.
    + exists k, m0, ck. eexists. split_and!; [done|done|by rewrite lookup_app_r, Nat.sub_diag by lia|].
      split; simpl; try done.
      * exact (hi_buf _ _ _ _ (buf_reach_inv _ [] [] 0 (reach_new (wk_ident k) mb _ max_bytes soft grace 0 Hc Hmax))).
      * by left.
      * intros r _ _ Hr. unfold u64_saturating_add. lia.
      * by intros e ?%elem_of_nil.
      * intros r Hr Hrk Hrc. destruct (ri_known _ _ _ _ _ Hi r Hr) as [x Hx]; [exists m0, ck; by rewrite Hrk|].
        rewrite Hrk in Hx. congruence.
      * destruct (pm !! wk_table_uuid k) as [p|] eqn:Hpm; [done|]. split; [done|]. intros p Hp.
        destruct (ri_sidecars _ _ _ _ _ Hi _ p Hp) as [?|(k' & v & Hk' & Hu' & Hs)]; [congruence|].
        assert (k' = k) as -> by (by eapply md_uuid). rewrite Hnone in Hs. by destruct Hs.
    + destruct (ri_tables _ _ _ _ _ Hi _ _ Hid) as (k2 & m2 & ck2 & b2 & Hk2 & Hid2 & Hb2 & Ht2).
      exists k2, m2, ck2, b2. split_and!; try done. by apply lookup_app_l_Some.
  - intros r Hr Hw. rewrite Hbufs. apply lookup_insert_is_Some'. right. by apply (ri_known _ _ _ _ _ Hi).
Qed.

Lemma get_or_load_inv le n pm m done todo k m0 ck n' ref :
  rec_inv n pm m done todo → md !! k = Some (m0, ck) → load_agrees le (wk_ident k) →
  get_or_load max_bytes soft grace le n (wk_ident k) = (n', Ok ref) →
  rec_inv n' pm m done todo ∧ n_buffers n' !! wk_ident k = Some ref ∧ n_idem n' = n_idem n.
Proof.
  intros Hi Hk Hag. unfold get_or_load. destruct (n_buffers n !! wk_ident k) as [ref0|] eqn:Href.
  { intros [= <- <-]. done. }
  destruct (le_load le) as [mb|e] eqn:Hl; [|done].
  destruct (Hag mb Hl) as (m1 & Hl1 & Hu1 & Hck1).
  destruct Htargets as [Hin _]. destruct (Hin _ _ _ Hk) as (_ & Hl0 & Hu0 & Hck0).
  rewrite Hl0 in Hl1. injection Hl1 as <-.
  destruct (validate_writer_checkpoints _ _); [|done]. simpl. rewrite (ri_wid _ _ _ _ _ Hi), Hck1, Hck0.
  destruct ck as [ck|].
  - unfold node_observe_epoch. destruct (observe_epoch_and_bump _ _ _ _ _) as [[root id] [x|e]] eqn:Ho; [|done].
    apply observe_log in Ho as [Hlog Hid]. simpl. rewrite Href. intros [= <- <-].
    split_and!; [|simpl; apply lookup_insert_eq|done].
    eapply (rec_inv_new n _ pm m done todo k m0 (Some ck) mb); try done; [congruence| |].
    + simpl. etrans; [apply Hi|]. by apply log_shrinks_same.
    + simpl. rewrite Hid. apply Hi.
  - simpl. rewrite Href. intros [= <- <-]. split_and!; [|simpl; apply lookup_insert_eq|done].
    eapply (rec_inv_new n _ pm m done todo k m0 None mb); try done; [congruence| |].
    + apply Hi.
    + apply Hi.
Qed.

(** ** Inserting a record *)
Lemma replay_entry_inv n pm m done todo k m0 ck ref r n' :
  rec_inv n pm m done (r :: todo) → md !! k = Some (m0, ck) → record_key r = k →
  (checkpoint_generation ck < generation (header r))%N → n_buffers n !! wk_ident k = Some ref →
  replay_entry n ref r = (n', Ok tt) →
  rec_inv n' pm m (done ++ [r]) todo ∧ n_buffers n' = n_buffers n ∧ n_idem n' = n_idem n.
Proof.
  intros Hi Hk Hrk Hc Href. destruct (table_of _ _ _ _ _ _ _ _ _ Hi Hk Href) as (b & Hb & Ht).
  unfold replay_entry. rewrite Hb.
  pose proof (ri_split _ _ _ _ _ Hi) as Hsplit.
  assert (r ∈ recs) as Hr by (rewrite Hsplit, elem_of_app, elem_of_cons; auto).
  pose proof (to_next _ _ _ _ _ _ _ Ht r ltac:(by left) Hrk Hc) as Hng.
  pose proof (to_buf _ _ _ _ _ _ _ Ht) as Hinv.
  assert (∀ g, g ∈ live_generations (tb_state b) → (g < generation (header r))%N) as Hbelow.
  { intros g Hg. pose proof (bi_bounds b Hinv g Hg). lia. }
  assert (op_allowed b (DoInsertWithGeneration (batch_id (header r)) (generation (header r))
            (created_at_ms (header r)) (batch r))) as Hall.
  { pose proof (bi_next b Hinv). split_and!.
    - lia.
    - by apply Hu64.
    - intros Hg. specialize (Hbelow (generation (header r))). rewrite live_elem in Hbelow.
      specialize (Hbelow (or_introl Hg)). lia.
    - rewrite (to_reserved _ _ _ _ _ _ _ Ht). done.
    - intros g' Hg'. apply Hbelow, live_elem. auto. }
  pose proof (exec_inv 0 b _ Hinv Hall) as Hinv'.
  destruct (exec_unchanged 0 b _ (ltac:(done) : ∀ hi m, DoInsertWithGeneration (batch_id (header r))
    (generation (header r)) (created_at_ms (header r)) (batch r) ≠ DoCommitted hi m)) as (Hperm & _ & Hhw & _).
  simpl in Hperm, Hhw, Hinv'.
  destruct (insert_with_generation_at b _ _ _ _) as [b' [ok|e]] eqn:Hins; [|done].
  intros [= <-]. simpl in Hperm, Hhw, Hinv'.
  assert (tb_ident b' = tb_ident b ∧ tb_metadata b' = tb_metadata b ∧
    reserved_generations (tb_state b') = reserved_generations (tb_state b) ∧ prepared_flush b' = prepared_flush b ∧
    next_gen (tb_state b') = N.max (next_gen (tb_state b)) (generation (header r) + 1)) as (E1 & E2 & E3 & E4 & E5).
  { revert Hins. unfold insert_with_generation_at. destruct (_ ← ensure_capacity _ _ _ _; _); [|done].
    by intros [= <- <-]. }
  assert (∀ e, e ∈ rows b' ↔ e ∈ rows b ∨ e = entry_of r) as Hrows.
  { intros e. unfold rows. rewrite Hperm, elem_of_app, list_elem_of_singleton. done. }
  split_and!; [|done|done].
  eapply (rec_inv_update n _ pm pm m m done (r :: todo) (done ++ [r]) todo k m0 ck ref b'); try done; try apply Hi.
  - intros p Hp. split; [done|]. by apply (ri_pm _ _ _ _ _ Hi).
  - rewrite Hsplit, <-app_assoc. done.
  - by right.
  - intros r' _ Hne. rewrite elem_of_app, list_elem_of_singleton. split; [|auto]. intros [?| ->]; done.
  - destruct Ht. split; try done; rewrite ?E1, ?E2, ?E3, ?E4, ?Hhw; try done.
    + intros r' Hr' Hrk' Hc'. rewrite E5.
      pose proof (Hincreasing done r todo r' Hsplit Hr' ltac:(congruence)).
      pose proof (to_next0 r' ltac:(by right) Hrk' Hc'). lia.
    + intros e [He| ->]%Hrows.
      * destruct (to_from0 e He) as (r' & ? & ? & ? & ->). exists r'. split_and!; try done. apply elem_of_app. auto.
      * exists r. split_and!; try done. apply elem_of_app. right. by apply list_elem_of_singleton.
    + intros r' Hr' Hrk' Hc'. rewrite Hrows. apply elem_of_app in Hr' as [Hr'| ->%list_elem_of_singleton]; [|auto].
      destruct (to_all0 r' Hr' Hrk' Hc'); auto.
Qed.

(** ** Flushing and resolving *)
Lemma store_agree (d d' : option WalDir) m m' u :
  store_rep wid max_files max_prepared_bytes d m → store_rep wid max_files max_prepared_bytes d' m' →
  default ∅ d' !! path_for u = (default ∅ d : WalDir) !! path_for u → m' !! u = m !! u.
Proof.
  intros Hd Hd' Hf.
  assert (∀ d1 d2 m1 m2 p, store_rep wid max_files max_prepared_bytes d1 m1 →
    store_rep wid max_files max_prepared_bytes d2 m2 →
    default ∅ d2 !! path_for u = (default ∅ d1 : WalDir) !! path_for u → m1 !! u = Some p → m2 !! u = Some p) as Himp.
  { intros d1 d2 m1 m2 p Hs1 Hs2 He Hp. eapply store_rep_read; [exact Hs2|].
    rewrite (read_one_ext _ _ _ (default ∅ d1)) by done. by apply Hs1. }
  destruct (m !! u) as [p|] eqn:Hm; [by eapply (Himp d d')|].
  destruct (m' !! u) as [p|] eqn:Hm'; [|done]. rewrite (Himp d' d m' m p) in Hm; done.
Qed.

(** After a step of the flush machinery on the buffer of [k] that leaves it owning what is
    on disk. *)
Lemma rec_inv_world n pm m done todo k m0 ck ref b w' com :
  rec_inv n pm m done todo → md !! k = Some (m0, ck) → n_buffers n !! wk_ident k = Some ref →
  n_heap n !! ref = Some b → table_ok pm m done todo k (checkpoint_generation ck) b →
  world_inv max_files max_prepared_bytes (wk_table_uuid k) w' → quiet (wk_table_uuid k) acked (node_world n b) w' →
  rows (w_buf w') ++ com ≡ₚ rows b →
  Forall (λ e, (be_generation e ≤ committed_high_water (tb_state (w_buf w')))%N) com →
  ∃ m', rec_inv (put_world n ref w') (delete (wk_table_uuid k) pm) m' done todo.
Proof.
  intros Hi Hk Href Hb Ht Hw (Hmv & Hlog & Hid & Hside) Hrows Hcom.
  destruct Hw as [Hb' Hu' Hown (m' & Hst' & Hm')].
  destruct (moves_keep _ _ _ Hmv) as (E1 & E2 & Hle & Hack & E3). simpl in *.
  rewrite Hid, (ri_wid _ _ _ _ _ Hi) in Hst'. exists m'.
  assert (∀ e, e ∈ rows b ↔ e ∈ rows (w_buf w') ∨ e ∈ com) as Hin by (intros e; by rewrite <-Hrows, elem_of_app).
  eapply (rec_inv_update n _ pm _ m m' done todo done todo k m0 ck ref (w_buf w')); try done.
  - etrans; [apply Hi|done].
  - simpl. rewrite Hid. apply Hi.
  - intros u Hu. rewrite lookup_delete_ne by done. split; [done|].
    eapply store_agree; [apply Hi|exact Hst'|]. by apply Hside.
  - intros p. rewrite lookup_delete_eq. done.
  - apply Hi.
  - destruct Ht. split; try done; try congruence.
    + lia.
    + destruct Hack as [->|?]; [done|by right].
    + intros r ? ? ?. rewrite E1. eauto.
    + intros e He. apply to_from0, Hin. auto.
    + intros r Hr Hrk Hrc. destruct (to_all0 r Hr Hrk Hrc) as [[?|He]%Hin|?]; [by left| |right; lia].
      right. rewrite Forall_forall in Hcom. by apply (Hcom (entry_of r)).
    + rewrite lookup_delete_eq. split; [done|]. exact Hm'.
Qed.

Lemma flush_table_inv fuel fenv fl n pm m done todo k m0 ck ref n' lo hi c0 :
  rec_inv n pm m done todo → md !! k = Some (m0, ck) → n_buffers n !! wk_ident k = Some ref →
  pm !! wk_table_uuid k = None → flush_alone acked fenv →
  flush_env_ok (wk_table_uuid k) (λ _, False) fenv →
  flush_table max_files max_prepared_bytes status_check fuel fenv fl n (wk_ident k) =
    Some (n', Ok (FlushCommitted lo hi c0)) →
  ∃ m', rec_inv n' pm m' done todo ∧ n_buffers n' = n_buffers n ∧ n_idem n' = n_idem n.
Proof.
  intros Hi Hk Href Hpm Hal Hen. destruct (table_of _ _ _ _ _ _ _ _ _ Hi Hk Href) as (b & Hb & Ht).
  unfold flush_table. rewrite Href. cbn [mbind option_bind]. rewrite Hb. cbn [mbind option_bind].
  destruct (flush_once_inner _ _ _ _ _ _) as [[w' r]|] eqn:Hfl; [|done]. intros [= <- ->].
  pose proof (to_intent _ _ _ _ _ _ _ Ht) as Hint. rewrite Hpm in Hint. destruct Hint as [Hown Hside].
  assert (world_inv max_files max_prepared_bytes (wk_table_uuid k) (node_world n b)) as Hw.
  { split; simpl; [apply Ht|apply Ht|done|]. exists m. split; [|done]. rewrite (ri_wid _ _ _ _ _ Hi). apply Hi. }
  destruct (flush_once_effect _ _ _ _ _ _ _ _ _ _ Hw Hen Hfl) as (Hw' & adm & Hadm & Hhi & com & Hcom & Hall).
  assert (adm = []) as ->.
  { destruct adm as [|e adm]; [done|]. apply Forall_cons in Hadm as [(op & [] & _) _]. }
  rewrite app_nil_r in Hcom.
  assert (quiet (wk_table_uuid k) acked (node_world n b) w') as Hq.
  { eapply flush_quiet; [done|apply Ht|intros p Hp; by apply Hown|exact Hfl]. }
  destruct (rec_inv_world n pm m done todo k m0 ck ref b w' com) as [m' Hi']; try done.
  { eapply Forall_impl; [exact Hall|]. simpl. lia. }
  rewrite delete_id in Hi' by done. exists m'. done.
Qed.

(** With nothing buffered a flush is empty. *)
Lemma flush_table_empty fuel fenv fl n pm m done todo k m0 ck ref p :
  rec_inv n pm m done todo → md !! k = Some (m0, ck) → n_buffers n !! wk_ident k = Some ref →
  pm !! wk_table_uuid k = Some p → (∀ b, n_heap n !! ref = Some b → rows b = []) →
  ∃ n', flush_table max_files max_prepared_bytes status_check fuel fenv fl n (wk_ident k) = Some (n', Ok FlushEmpty).
Proof.
  intros Hi Hk Href Hpm Hnil. destruct (table_of _ _ _ _ _ _ _ _ _ Hi Hk Href) as (b & Hb & Ht).
  unfold flush_table. rewrite Href. cbn [mbind option_bind]. rewrite Hb. cbn [mbind option_bind].
  pose proof (to_intent _ _ _ _ _ _ _ Ht) as Hint. rewrite Hpm in Hint.
  specialize (Hnil b Hb). unfold rows in Hnil. apply app_eq_nil in Hnil as [Hp Hf].
  unfold flush_once_inner, drain_pending_to_in_flight, blocked_flush. simpl. rewrite Hint, Hf, Hp.
  unfold prepared_flush in Hint. destruct (flush_state (tb_state b)); try done. by eexists.
Qed.

Lemma node_resolve_inv renv n pm m done todo k m0 ck ref p n' :
  rec_inv n pm m done todo → md !! k = Some (m0, ck) → n_buffers n !! wk_ident k = Some ref →
  pm !! wk_table_uuid k = Some p → resolve_env_ok (wk_table_uuid k) acked renv →
  node_resolve renv n ref p = (n', Ok tt) →
  ∃ m', rec_inv n' (delete (wk_table_uuid k) pm) m' done todo ∧ n_buffers n' = n_buffers n ∧ n_idem n' = n_idem n.
Proof.
  intros Hi Hk Href Hpm Hen. destruct (table_of _ _ _ _ _ _ _ _ _ Hi Hk Href) as (b & Hb & Ht).
  unfold node_resolve. rewrite Hb. destruct (resolve_prepared renv _ p) as [w' r] eqn:Hr. intros [= <- ->].
  pose proof (to_intent _ _ _ _ _ _ _ Ht) as Hint. rewrite Hpm in Hint.
  destruct (ri_pm _ _ _ _ _ Hi _ _ Hpm) as (Hmp & (_ & _ & Hj & Habove)%Hintents).
  assert (unclaimed max_files max_prepared_bytes (wk_table_uuid k) (node_world n b) p) as Huc.
  { split; simpl; try apply Ht; try done.
    - intros g (e & He & <-)%elem_of_generations.
      destruct (to_from _ _ _ _ _ _ _ Ht e) as (r & Hr' & Hrk & Hc & ->); [by apply elem_of_app; left|].
      apply Habove; [|exists m0, ck; by rewrite Hrk|by rewrite Hrk].
      rewrite (ri_split _ _ _ _ _ Hi). apply elem_of_app. auto.
    - exists m. rewrite (ri_wid _ _ _ _ _ Hi). split; [apply Hi|done]. }
  destruct (resolve_effect _ _ _ _ _ _ _ _ Huc Hen Hr) as (Hw' & Hq & com & Hcom & Hall).
  destruct (rec_inv_world n pm m done todo k m0 ck ref b w' com) as [m' Hi']; try done. by exists m'.
Qed.

Lemma replay_insert_inv rc n pm m done todo k m0 ck ref r n' :
  rec_inv n pm m done (r :: todo) → md !! k = Some (m0, ck) → record_key r = k →
  (checkpoint_generation ck < generation (header r))%N → n_buffers n !! wk_ident k = Some ref →
  (∀ fuel fenv, rc_flusher rc = Some (fuel, fenv) →
     flush_alone acked fenv ∧ flush_env_ok (wk_table_uuid k) (λ _, False) fenv) →
  replay_insert max_files max_prepared_bytes status_check rc pm n ref k r = Some (n', Ok tt) →
  ∃ m', rec_inv n' pm m' (done ++ [r]) todo ∧ n_buffers n' = n_buffers n ∧ n_idem n' = n_idem n.
Proof.
  intros Hi Hk Hrk Hc Href Hfenv. unfold replay_insert.
  destruct (replay_entry n ref r) as [n1 r1] eqn:Hent.
  destruct r1 as [[]|e].
  { intros [= <-]. exists m. by eapply replay_entry_inv. }
  assert (n1 = n) as ->.
  { revert Hent. unfold replay_entry. destruct (n_heap n !! ref) as [b|] eqn:Hb; [|by intros [= <- _]].
    unfold insert_with_generation_at. destruct (_ ← ensure_capacity _ _ _ _; _); simpl; [done|].
    intros [= <- _]. unfold write_buffer, set_heap. rewrite list_insert_id by done. by destruct n. }
  destruct e; try done. destruct (rc_flusher rc) as [[fuel fenv]|]; [|done].
  destruct (Hfenv _ _ eq_refl) as [Hal Hen].
  assert (h_table (header r) = wk_ident k) as -> by (by rewrite <-Hrk).
  destruct (inside_prepared pm k _) eqn:Hins; [done|].
  destruct (pm !! wk_table_uuid k) as [p|] eqn:Hpm.
  - assert (∃ n2, flush_table max_files max_prepared_bytes status_check fuel fenv (rc_flush_load rc) n (wk_ident k) =
              Some (n2, Ok FlushEmpty)) as (n2 & ->); [|done].
    apply (flush_table_empty fuel fenv _ n pm m done (r :: todo) k m0 ck ref p); try done.
    intros b Hb. destruct (table_of _ _ _ _ _ _ _ _ _ Hi Hk Href) as (b2 & Hb2 & Ht).
    rewrite Hb in Hb2. injection Hb2 as <-.
    destruct (rows b) as [|e l] eqn:Hrows; [done|]. exfalso.
    assert (e ∈ rows b) as He by (rewrite Hrows; by left).
    destruct (to_from _ _ _ _ _ _ _ Ht e He) as (r' & Hr' & Hrk' & Hc' & ->).
    pose proof (to_next _ _ _ _ _ _ _ Ht r ltac:(by left) Hrk Hc) as Hng.
    assert (generation (header r') ∈ live_generations (tb_state b)) as Hlive.
    { apply live_elem. unfold rows in He. apply elem_of_app in He as [He|He]; [left|right; left];
        apply elem_of_generations; by exists (entry_of r'). }
    pose proof (bi_bounds b (to_buf _ _ _ _ _ _ _ Ht) _ Hlive).
    destruct (ri_pm _ _ _ _ _ Hi _ _ Hpm) as (_ & (_ & _ & _ & Habove)%Hintents).
    assert (gr_lo (pf_generations p) ≤ generation (header r'))%N.
    { apply Habove; [|exists m0, ck; by rewrite Hrk'|by rewrite Hrk'].
      rewrite (ri_split _ _ _ _ _ Hi). apply elem_of_app. auto. }
    unfold inside_prepared in Hins. rewrite Hpm in Hins. apply N.ltb_ge in Hins. lia.
  - destruct (flush_table _ _ _ _ _ _ _ _) as [[n2 [[|lo hi c0]|e]]|] eqn:Hfl; try done.
    destruct (flush_table_inv _ _ _ _ _ _ _ _ _ _ _ _ _ _ _ _ Hi Hk Href Hpm Hal Hen Hfl) as (m' & Hi' & Hb' & Hid').
    simpl. intros [= Hent2]. rewrite <-Hb' in Href.
    destruct (replay_entry_inv _ _ _ _ _ _ _ _ _ _ _ Hi' Hk Hrk Hc Href Hent2) as (Hi2 & E1 & E2).
    exists m'. split_and!; [done|congruence..].
Qed.

(** ** Receipts *)
Definition receipt_of (r : WalRecord) : IngestReceipt :=
  mkIngestReceipt (batch_id (header r)) wid (generation (header r)) (row_count (header r)).

(** The index holds exactly the receipts of the replayed records. *)
Record idem_inv (done : list WalRecord) (i : IdempotencyIndex) : Prop := {
  im_idle t : in_progress (table_index i t) = ∅;
  im_from t s c : completed (table_index i t) !! s = Some c →
    ∃ r, r ∈ done ∧ wanted r ∧ h_table (header r) = t ∧ idempotency_key (header r) = Some s;
  im_all r s : r ∈ done → wanted r → idempotency_key (header r) = Some s →
    ce_receipt <$> completed (table_index i (h_table (header r))) !! s = Some (receipt_of r);
}.

Lemma table_index_with i t x t' : table_index (with_table i t x) t' = if decide (t' = t) then x else table_index i t'.
Proof.
  unfold table_index, with_table. simpl. case_decide as Ht; [subst; by rewrite lookup_insert_eq|].
  by rewrite lookup_insert_ne.
Qed.

(** A key nobody has used is acquired, and completing it records the receipt. *)
Lemma claim_fresh now i t s rec :
  in_progress (table_index i t) = ∅ → completed (table_index i t) !! s = None →
  ∃ i', claim now i t s = (i', Acquired) ∧
    ∀ t', table_index (complete i' t s rec) t' =
      if decide (t' = t) then mkTableIndex ∅ (<[s := mkCompletedEntry rec now]> (completed (table_index i t)))
      else table_index i t'.
Proof.
  intros Hp Hc. unfold claim, claim_check, completed_duplicate. rewrite Hc.
  unfold claim_locked, completed_duplicate. rewrite table_index_with, decide_True by done. rewrite Hc, Hp.
  rewrite lookup_empty. eexists. split; [done|]. intros t'. unfold complete.
  cbn [with_table ii_tables]. rewrite lookup_insert_eq. cbn [in_progress completed]. rewrite lookup_insert_eq.
  rewrite !table_index_with. case_decide as Ht; [|done]. by rewrite delete_insert_id.
Qed.

Lemma idem_inv_skip done r i : idem_inv done i → ¬ wanted r ∨ idempotency_key (header r) = None →
  idem_inv (done ++ [r]) i.
Proof.
  intros [Hid Hfrom Hall] Hr. split; [done| |].
  - intros t s c Hc. destruct (Hfrom t s c Hc) as (r' & ? & ?). exists r'. rewrite elem_of_app. auto.
  - intros r' s [?| ->%list_elem_of_singleton]%elem_of_app Hw Hs; [by apply Hall|]. destruct Hr; [done|congruence].
Qed.

Lemma idem_inv_complete done r i i' s now :
  idem_inv done i → wanted r → idempotency_key (header r) = Some s →
  completed (table_index i (h_table (header r))) !! s = None →
  (∀ t', table_index i' t' =
     if decide (t' = h_table (header r))
     then mkTableIndex ∅ (<[s := mkCompletedEntry (receipt_of r) now]> (completed (table_index i (h_table (header r)))))
     else table_index i t') →
  idem_inv (done ++ [r]) i'.
Proof.
  intros [Hid Hfrom Hall] Hw Hs Hnone Hi. split.
  - intros t. rewrite Hi. by case_decide.
  - intros t s' c. rewrite Hi. setoid_rewrite elem_of_app. case_decide as Ht; simpl.
    + intros [[<- <-]|[_ Hc]]%lookup_insert_Some; [|subst t; destruct (Hfrom _ _ _ Hc) as (r' & ? & ?); eauto].
      exists r. split_and!; try done. right. by apply list_elem_of_singleton.
    + intros Hc. destruct (Hfrom _ _ _ Hc) as (r' & ? & ?); eauto.
  - intros r' s' [Hr'| ->%list_elem_of_singleton]%elem_of_app Hw' Hs'; rewrite Hi.
    + pose proof (Hall r' s' Hr' Hw' Hs') as Hc. case_decide as Ht; [|done]. rewrite Ht in Hc. simpl.
      rewrite lookup_insert_ne; [done|]. intros ->. by rewrite Hnone in Hc.
    + rewrite decide_True by done. simpl. assert (s' = s) as -> by congruence. by rewrite lookup_insert_eq.
Qed.

(** ** One record *)
Lemma rec_inv_idem n i pm m done todo : rec_inv n pm m done todo → rec_inv (set_idem n i) pm m done todo.
Proof. intros []. by split. Qed.

(** What a record meets. *)
Definition record_env_ok (rc : RecordEnv) (r : WalRecord) : Prop :=
  load_agrees (rc_load rc) (h_table (header r)) ∧
  ∀ fuel fenv, rc_flusher rc = Some (fuel, fenv) →
    flush_alone acked fenv ∧ flush_env_ok (wk_table_uuid (record_key r)) (λ _, False) fenv.

Lemma replay_record_inv rc resolve n pm m done r todo n' pm' :
  rec_inv n pm m done (r :: todo) → idem_inv done (n_idem n) → table_key (header r) = Ok (record_key r) →
  record_env_ok rc r → (∀ u, resolve_env_ok u acked (resolve u)) →
  replay_record max_files max_prepared_bytes status_check max_bytes soft grace rc resolve md n pm r =
    Some (n', pm', Ok tt) →
  ∃ m', rec_inv n' pm' m' (done ++ [r]) todo ∧ idem_inv (done ++ [r]) (n_idem n').
Proof.
  intros Hi Him Hkey [Hload Hflush] Hres. unfold replay_record. rewrite Hkey.
  destruct (md !! record_key r) as [[m0 ck]|] eqn:Hk.
  2: { intros [= <- <-]. assert (¬ wanted r) by (intros (? & ? & ? & _); congruence).
       exists m. split; [by apply rec_inv_skip|apply idem_inv_skip; auto]. }
  destruct (checkpoint_covers ck (generation (header r))) eqn:Hcov.
  { intros [= <- <-]. assert (¬ wanted r) as Hnw.
    { intros (m1 & ck1 & Hk1 & Hc). rewrite Hk in Hk1. injection Hk1 as <- <-.
      unfold checkpoint_covers, checkpoint_generation in *. destruct ck; [|done]. apply N.leb_le in Hcov. lia. }
    exists m. split; [by apply rec_inv_skip|apply idem_inv_skip; auto]. }
  destruct (decide (generation (header r) = 0%N)) as [Hz|Hnz].
  { exfalso. by apply (Hpos r); [rewrite (ri_split _ _ _ _ _ Hi), elem_of_app, elem_of_cons; auto|]. }
  assert (checkpoint_generation ck < generation (header r))%N as Hc.
  { unfold checkpoint_covers, checkpoint_generation in *. destruct ck; [by apply N.leb_gt in Hcov|lia]. }
  assert (wanted r) as Hw by (by exists m0, ck).
  destruct (get_or_load _ _ _ _ _ _) as [n1 [ref|e]] eqn:Hg; [|done].
  destruct (get_or_load_inv _ _ _ _ _ _ _ _ _ _ _ Hi Hk Hload Hg) as (Hi1 & Href1 & Hid1).
  (* the key is fresh *)
  assert (∃ n2, claim_record (rc_now rc) n1 (header r) = (n2, Acquired) ∧ rec_inv n2 pm m done (r :: todo) ∧
    n_buffers n2 = n_buffers n1 ∧
    ∀ n3 : Nd, n_idem n3 = n_idem n2 → ri_writer_id (n_identity n3) = wid →
      idem_inv (done ++ [r]) (n_idem (record_receipt n3 (header r)))) as (n2 & -> & Hi2 & Hb2 & Hrec).
  { unfold claim_record, record_receipt. destruct (idempotency_key (header r)) as [s|] eqn:Hs.
    - assert (completed (table_index (n_idem n1) (h_table (header r))) !! s = None) as Hnone.
      { rewrite Hid1. destruct (completed _ !! s) as [c|] eqn:Hcs; [|done]. exfalso.
        destruct (im_from _ _ Him _ _ _ Hcs) as (r' & Hr' & Hw' & Ht' & Hs').
        by eapply (Hkeys done r todo r' s (ri_split _ _ _ _ _ Hi)). }
      destruct (claim_fresh (rc_now rc) (n_idem n1) (h_table (header r)) s (receipt_of r)) as (i' & Hcl & Hti);
        [rewrite Hid1; apply Him|done|].
      rewrite Hcl. eexists. split_and!; [done|by apply rec_inv_idem|done|].
      intros n3 Hn3 Hwid. simpl. rewrite Hn3, Hwid. simpl. rewrite Hid1 in *.
      eapply idem_inv_complete; [exact Him|done|done|done|]. exact Hti.
    - eexists. split_and!; [done|done|done|]. intros n3 Hn3 _. rewrite Hn3, Hid1. apply idem_inv_skip; auto. }
  rewrite <-Hb2 in Href1.
  destruct (replay_insert _ _ _ _ _ _ _ _ _) as [[n3 [[]|e]]|] eqn:Hins; [|done..].
  destruct (replay_insert_inv _ _ _ _ _ _ _ _ _ _ _ _ Hi2 Hk eq_refl Hc Href1 Hflush Hins) as (m3 & Hi3 & Hb3 & Hid3).
  cbn [mbind option_bind].
  specialize (Hrec n3 Hid3 (ri_wid _ _ _ _ _ Hi3)).
  assert (rec_inv (record_receipt n3 (header r)) pm m3 (done ++ [r]) todo) as Hi4
    by (unfold record_receipt; destruct (idempotency_key (header r)); [by apply rec_inv_idem|done]).
  assert (n_buffers (record_receipt n3 (header r)) = n_buffers n3) as Hb4
    by (unfold record_receipt; by destruct (idempotency_key (header r))).
  set (n4 := record_receipt n3 (header r)) in *. clearbody n4.
  unfold reached_intent. destruct (pm !! wk_table_uuid (record_key r)) as [p|] eqn:Hpm.
  2: { intros [= <- <-]. by exists m3. }
  destruct (gr_hi (pf_generations p) <=? generation (header r))%N; [|intros [= <- <-]; by exists m3].
  rewrite <-Hb3, <-Hb4 in Href1.
  destruct (node_resolve _ _ _ _) as [n5 [[]|e]] eqn:Hnr; [|done].
  destruct (node_resolve_inv _ _ _ _ _ _ _ _ _ _ _ _ Hi4 Hk Href1 Hpm (Hres _) Hnr) as (m5 & Hi5 & _ & Hid5).
  intros [= <- <-]. exists m5. split; [done|]. by rewrite Hid5.
Qed.

(** ** The loop over the plan *)
Section loop.
Context (env : @RecoveryEnv Schema Spec Order _).
Context (root0 : WalDir) (segs : list SegmentSnapshot) (entries : list ReplayEntry) (tables : list WalTableKey).
Context (prs : list (FramePosition * WalRecord)).
Hypothesis Hsegs : Forall2 (snapshot_for root0) (segment_paths root0) segs.
Hypothesis Hentries : Forall2 (entry_for tables) prs entries.
Hypothesis Hprs : Forall (λ pr, pr ∈ wal_log root0 ∧ op (header pr.2) = Append) prs.
Hypothesis Hrecs : prs.*2 = recs.
Hypothesis HR : R = quarantine_all root0.
Hypothesis Hrecord_env : ∀ i r, recs !! i = Some r → record_env_ok (rv_record env i) r.
Hypothesis Hresolve_env : ∀ u, resolve_env_ok u acked (rv_resolve env u).

Lemma plan_key pr : pr ∈ prs → table_key (header pr.2) = Ok (record_key pr.2).
Proof.
  rewrite Forall_forall in Hprs. intros [Hin Hop]%Hprs. apply wal_log_valid in Hin.
  destruct (table_key_valid _ Hin Hop) as (u & Hu & _ & ->). unfold record_key. by rewrite Hu.
Qed.

Lemma replay_loop_inv fuel : ∀ file checked n pm m done todo n' pm',
  file_ok root0 file → rec_inv n pm m done todo → idem_inv done (n_idem n) →
  replay_loop max_files max_prepared_bytes status_check max_bytes soft grace fuel env md (length done) n
    (mkReplayPlan segs entries tables (length done) file checked) pm = Some (n', pm', Ok tt) →
  ∃ m', rec_inv n' pm' m' recs [] ∧ idem_inv recs (n_idem n').
Proof.
  induction fuel as [|fuel IH]; intros file checked n pm m dn todo n' pm' Hfile Hi Him; [done|].
  cbn [replay_loop]. pose proof (ri_split _ _ _ _ _ Hi) as Hsplit.
  set (plan := mkReplayPlan _ _ _ _ _ _).
  assert (plan_paths_ok plan) as Hpaths by (by eapply snapshot_paths_ok).
  pose proof (ri_root _ _ _ _ _ Hi) as Hroot. rewrite HR in Hroot.
  destruct todo as [|r todo].
  - assert (entries !! length dn = None) as He.
    { apply lookup_ge_None. rewrite <-(Forall2_length _ _ _ Hentries), <-(length_fmap snd), Hrecs, Hsplit, app_nil_r. done. }
    rewrite app_nil_r in Hsplit. subst dn. unfold next_record. simpl.
    destruct (lift _) as [[]| |]; [|done|done]. simpl. rewrite He. intros [= <- <-]. by exists m.
  - assert (∃ pr, prs !! length dn = Some pr ∧ pr.2 = r) as (pr & Hpr & Hr).
    { assert (recs !! length dn = Some r) as Hl by (rewrite Hsplit; by rewrite lookup_app_r, Nat.sub_diag by lia).
      rewrite <-Hrecs in Hl. apply list_lookup_fmap_Some_1 in Hl as (pr & -> & ?). by exists pr. }
    destruct (Forall2_lookup_l _ _ _ _ _ Hentries Hpr) as (e & He & Hpe).
    pose proof (list_elem_of_lookup_2 _ _ _ Hpr) as Hin.
    destruct (proj1 (Forall_forall _ _) Hprs _ Hin) as [Hlog Hop].
    destruct (next_record_step root0 segs Hsegs tables entries (length dn) file checked pr e Hfile He Hpe Hlog Hop)
      as (file' & Hfile' & Hnext).
    destruct (next_record_shrunk _ _ _ _ Hpaths Hroot Hnext) as [->|[err ->]]; [|done].
    rewrite Hr. assert (recs !! length dn = Some r) as Hlook
      by (rewrite Hsplit; by rewrite lookup_app_r, Nat.sub_diag by lia).
    destruct (replay_record _ _ _ _ _ _ _ _ _ _ _ _) as [[[n1 pm1] [[]|e1]]|] eqn:Hrr; [|done..].
    pose proof (plan_key pr Hin) as Hkey. rewrite Hr in Hkey.
    destruct (replay_record_inv _ _ _ _ _ _ _ _ _ _ Hi Him Hkey (Hrecord_env _ _ Hlook) Hresolve_env Hrr)
      as (m1 & Hi1 & Him1).
    cbn [mbind option_bind]. intros Hloop. eapply IH; [exact Hfile'|exact Hi1|exact Him1|].
    rewrite length_app. simpl. rewrite Nat.add_1_r. exact Hloop.
Qed.

(** ** The intents the loop did not reach *)
Hypothesis Hleftover_env : ∀ u p, pm0 !! u = Some p → load_agrees (rv_leftover env u) (pf_table p).

Lemma leftover_target le n pm m done todo u p n' ref :
  rec_inv n pm m done todo → pm0 !! u = Some p → load_agrees le (pf_table p) →
  get_or_load max_bytes soft grace le n (pf_table p) = (n', Ok ref) →
  is_Some (md !! mkWalTableKey u (pf_table p)).
Proof.
  intros Hi Hp Hag. destruct (Hintents _ _ Hp) as (_ & Hkey & _). destruct Htargets as [Hin Hall].
  unfold get_or_load. destruct (n_buffers n !! pf_table p) as [ref0|] eqn:Href.
  - intros _. destruct (ri_tables _ _ _ _ _ Hi _ _ Href) as (k & m0 & ck & b & Hk & Hid & _).
    destruct (Hin _ _ _ Hk) as (_ & Hl & _). rewrite Hid in Hl.
    destruct (Hall (mkWalTableKey u (pf_table p)) m0 Hkey Hl) as [ck' ->]. by eexists.
  - destruct (le_load le) as [mb|] eqn:Hl; [|done]. intros _. destruct (Hag mb Hl) as (m0 & Hl0 & _).
    destruct (Hall (mkWalTableKey u (pf_table p)) m0 Hkey Hl0) as [ck' ->]. by eexists.
Qed.

Lemma resolve_leftover_inv l : ∀ n pm m done todo n',
  rec_inv n pm m done todo → l ≡ₚ (map_to_list pm).*2 →
  resolve_leftover max_bytes soft grace env n l = (n', Ok tt) →
  ∃ m', rec_inv n' ∅ m' done todo ∧ n_idem n' = n_idem n.
Proof.
  induction l as [|p l IH]; intros n pm m dn todo n' Hi Hl; simpl.
  { intros [= <-]. exists m. split; [|done].
    assert (pm = ∅) as ->; [|done]. apply map_to_list_empty_iff, (fmap_nil_inv snd). symmetry. by apply Permutation_nil_l. }
  assert (pm !! pf_table_uuid p = Some p) as Hp.
  { assert (p ∈ (map_to_list pm).*2) as Hin by (rewrite <-Hl; by left).
    apply list_elem_of_fmap in Hin as ([u q] & -> & Hq%elem_of_map_to_list). simpl.
    destruct (ri_pm _ _ _ _ _ Hi _ _ Hq) as [_ Hq0]. by destruct (Hintents _ _ Hq0) as [-> _]. }
  destruct (ri_pm _ _ _ _ _ Hi _ _ Hp) as [_ Hp0].
  destruct (get_or_load _ _ _ _ _ _) as [n1 [ref|e]] eqn:Hg; [|done].
  pose proof (Hleftover_env _ _ Hp0) as Hag.
  destruct (leftover_target _ _ _ _ _ _ _ _ _ _ Hi Hp0 Hag Hg) as [[m0 ck] Hk].
  destruct (get_or_load_inv _ _ _ _ _ _ _ _ _ _ _ Hi Hk Hag Hg) as (Hi1 & Href1 & Hid1).
  destruct (node_resolve _ _ _ _) as [n2 [[]|e]] eqn:Hnr; [|done].
  destruct (node_resolve_inv _ _ _ _ _ _ _ _ _ _ _ _ Hi1 Hk Href1 Hp (Hresolve_env _) Hnr) as (m2 & Hi2 & _ & Hid2).
  simpl in Hi2. intros Hrest.
  assert (l ≡ₚ (map_to_list (delete (pf_table_uuid p) pm)).*2) as Hl'.
  { rewrite <-(insert_delete_id pm _ p Hp), map_to_list_insert in Hl by apply lookup_delete_eq.
    by apply Permutation_cons_inv in Hl. }
  destruct (IH _ _ _ _ _ _ Hi2 Hl' Hrest) as (m' & Hi' & Hid'). exists m'. split; [done|congruence].
Qed.

(** ** From the seeding to the end *)
Hypothesis Hhash : ∀ A (l : list A), hash_order A l ≡ₚ l.

(** The parts of a node the outcome speaks of. *)
Definition same_tables (n n' : Nd) : Prop :=
  n_heap n' = n_heap n ∧ n_buffers n' = n_buffers n ∧ n_prepared n' = n_prepared n ∧
  n_identity n' = n_identity n ∧ n_idem n' = n_idem n.

Lemma seed_all_same (n : Nd) : same_tables n (seed_all hash_order n md) ∧ n_root (seed_all hash_order n md) = n_root n.
Proof.
  unfold seed_all. generalize (hash_order _ (map_to_list md)). intros l. revert n.
  induction l as [|kv l IH]; intros n; simpl; [done|].
  destruct (IH (seed_committed n kv.1 (checkpoint_generation kv.2.2))) as ((? & ? & ? & ? & ?) & ?). done.
Qed.

Lemma tombstone_dropped_same ts : ∀ (n : Nd) n' r, tombstone_dropped env n ts = (n', r) → same_tables n n'.
Proof.
  induction ts as [|t ts IH]; intros n n' r; simpl; [by intros [= <- <-]|].
  destruct (append_drop_tombstone _ _ _ _ _ _ _ _) as [n1 r1] eqn:Ha.
  assert (same_tables n n1) as (E1 & E2 & E3 & E4 & E5).
  { revert Ha. unfold append_drop_tombstone, append. destruct (encode_frame _); [|by intros [= <- <-]].
    destruct (run_round _ _ _ _) as [[[w root] replies] rest].
    destruct replies as [|[? []|?] ?]; by intros [= <- <-]. }
  destruct r1; [|by intros [= <- <-]]. intros Ht. destruct (IH _ _ _ Ht) as (? & ? & ? & ? & ?).
  unfold same_tables. split_and!; congruence.
Qed.

Lemma replay_targets_inv (n : Nd) prepared all_keys n' :
  n_buffers n = ∅ → (∀ t, table_index (n_idem n) t = mkTableIndex ∅ ∅) → log_shrinks R (n_root n) →
  ri_writer_id (n_identity n) = wid → store_rep wid max_files max_prepared_bytes (n_prepared n) pm0 →
  prepared_by_uuid prepared = pm0 →
  replay_targets max_files max_prepared_bytes status_check max_bytes soft grace hash_order env n
    (mkReplayPlan segs entries tables 0 None false) prepared all_keys md = Some (n', Ok tt) →
  ∃ m n2, rec_inv n2 ∅ m recs [] ∧ idem_inv recs (n_idem n2) ∧ same_tables n2 n'.
Proof.
  intros Hb Hidem Hroot Hwid Hst Hpm. unfold replay_targets. rewrite Hpm. cbn [rp_entries].
  destruct (seed_all_same n) as ((E1 & E2 & E3 & E4 & E5) & E6).
  set (n1 := seed_all hash_order n md) in *. clearbody n1.
  assert (rec_inv n1 pm0 pm0 [] recs) as Hi.
  { split; try done; try (by rewrite ?E6, ?E3, ?E4).
    - intros u p Hp. by left.
    - intros ident ref. by rewrite E2, Hb.
    - by intros r ?%elem_of_nil. }
  assert (idem_inv [] (n_idem n1)) as Him.
  { rewrite E5. split.
    - intros t. by rewrite Hidem.
    - intros t s c. by rewrite Hidem.
    - by intros r s ?%elem_of_nil. }
  destruct (replay_loop _ _ _ _ _ _ _ _ _ _ _ _ _) as [[[n2 pm2] [[]|e]]|] eqn:Hl; [|done..].
  destruct (replay_loop_inv _ None false n1 pm0 pm0 [] recs n2 pm2 I Hi Him Hl) as (m2 & Hi2 & Him2).
  cbn [mbind option_bind].
  destruct (resolve_leftover _ _ _ _ _ _) as [n3 [[]|e]] eqn:Hr; [|done].
  destruct (resolve_leftover_inv _ _ _ _ _ _ _ Hi2 (Hhash _ _) Hr) as (m3 & Hi3 & Hid3).
  destruct (tombstone_dropped env n3 _) as [n4 [[]|e]] eqn:Ht; [|done].
  apply tombstone_dropped_same in Ht. intros [= <-]. exists m3, n3. split_and!; [done|by rewrite Hid3|exact Ht].
Qed.

Lemma rec_inv_world_inv n m ident ref :
  rec_inv n ∅ m recs [] → n_buffers n !! ident = Some ref →
  ∃ k m0 ck b, md !! k = Some (m0, ck) ∧ wk_ident k = ident ∧ n_heap n !! ref = Some b ∧
    table_ok ∅ m recs [] k (checkpoint_generation ck) b ∧
    world_inv max_files max_prepared_bytes (wk_table_uuid k) (node_world n b).
Proof.
  intros Hi Href. destruct (ri_tables _ _ _ _ _ Hi _ _ Href) as (k & m0 & ck & b & Hk & Hid & Hb & Ht).
  exists k, m0, ck, b. split_and!; try done. destruct (to_intent _ _ _ _ _ _ _ Ht) as [Hown Hside].
  split; simpl; [apply Ht|apply Ht|done|]. exists m. split; [|done]. rewrite (ri_wid _ _ _ _ _ Hi). apply Hi.
Qed.
End loop.
End invariant.

(** ** A whole recovery *)
Lemma recovery_keys_spec records prepared ks :
  recovery_keys hash_order records prepared = Ok ks →
  (∀ k, k ∈ records → k ∈ ks) ∧ ∀ p, p ∈ prepared → mkWalTableKey (pf_table_uuid p) (pf_table p) ∈ ks.
Proof.
  unfold recovery_keys.
  enough (∀ prepared acc, foldM (add_intent_key hash_order) acc prepared = Ok ks →
    (∀ k, k ∈ acc → k ∈ ks) ∧ ∀ p, p ∈ prepared → mkWalTableKey (pf_table_uuid p) (pf_table p) ∈ ks) as Hgen.
  { intros [H1' H2']%Hgen. split; [|done]. intros k Hk. apply H1'. by rewrite elem_of_remove_dups. }
  clear prepared. induction prepared as [|p prepared IH]; intros acc; simpl.
  { intros [= <-]. split; [done|]. by intros p ?%elem_of_nil. }
  destruct (add_intent_key hash_order acc p) as [acc'|e] eqn:Hs; [|done]. simpl. intros Hf.
  destruct (IH _ Hf) as [Hacc Hprep].
  assert (acc' = remove_dups (acc ++ [mkWalTableKey (pf_table_uuid p) (pf_table p)])) as ->
    by (revert Hs; unfold add_intent_key; repeat case_match; intros; by simplify_eq).
  split.
  - intros k Hk. apply Hacc. rewrite elem_of_remove_dups, elem_of_app. auto.
  - intros q [->|Hq]%elem_of_cons; [|by apply Hprep]. apply Hacc.
    rewrite elem_of_remove_dups, elem_of_app, list_elem_of_singleton. auto.
Qed.

Lemma prepared_by_uuid_lookup l : ∀ acc u,
  NoDup (pf_table_uuid <$> l) →
  foldl (λ m p, <[pf_table_uuid p := p]> m) acc l !! u =
    match head (filter (λ p, pf_table_uuid p = u) l) with Some p => Some p | None => (acc : gmap Uuid PreparedFlush) !! u end.
Proof.
  induction l as [|p l IH]; intros acc u; simpl; [done|]. intros [Hn Hnd]%NoDup_cons.
  rewrite IH by done. rewrite filter_cons. case_decide as Hp.
  - simpl. subst u. rewrite lookup_insert_eq. destruct (filter _ l) as [|q l'] eqn:Hf; [done|]. exfalso. apply Hn.
    assert (q ∈ filter (λ p0, pf_table_uuid p0 = pf_table_uuid p) l) as [Hq Hin]%list_elem_of_filter
      by (rewrite Hf; by left).
    apply list_elem_of_fmap. by exists q.
  - by rewrite lookup_insert_ne.
Qed.

Lemma prepared_by_uuid_store m l :
  (∀ u p, m !! u = Some p → pf_table_uuid p = u) → l ≡ₚ (map_to_list m).*2 → prepared_by_uuid l = m.
Proof.
  intros Hm Hl. apply map_eq. intros u. unfold prepared_by_uuid.
  assert (pf_table_uuid <$> (map_to_list m).*2 = (map_to_list m).*1) as Hfst.
  { rewrite <-list_fmap_compose. apply list_fmap_ext. intros i [v p] Hp. simpl.
    by apply Hm, elem_of_map_to_list, (list_elem_of_lookup_2 _ i). }
  rewrite prepared_by_uuid_lookup by (rewrite Hl, Hfst; apply NoDup_fst_map_to_list). rewrite lookup_empty.
  assert (∀ p, p ∈ l ↔ m !! pf_table_uuid p = Some p) as Hin.
  { intros p. rewrite Hl, list_elem_of_fmap. split.
    - intros ([v q] & -> & Hq%elem_of_map_to_list). simpl. by rewrite (Hm v q Hq).
    - intros Hp. exists (pf_table_uuid p, p). by rewrite elem_of_map_to_list. }
  destruct (filter _ l) as [|q l'] eqn:Hf; simpl.
  - destruct (m !! u) as [p|] eqn:Hp; [|done]. exfalso.
    assert (p ∈ filter (λ p0, pf_table_uuid p0 = u) l) as He.
    { apply list_elem_of_filter. rewrite (Hm _ _ Hp), Hin, (Hm _ _ Hp). done. }
    rewrite Hf in He. by apply elem_of_nil in He.
  - assert (q ∈ filter (λ p0, pf_table_uuid p0 = u) l) as [<- Hq%Hin]%list_elem_of_filter by (rewrite Hf; by left). done.
Qed.

(** A record of the incarnation the catalog knows, newer than the writer's checkpoint. *)
Definition replayable (load : TableIdent → TeoDBResult Metadata) (wid : Uuid) (r : WalRecord) : Prop :=
  ∃ m ck, load (h_table (header r)) = Ok m ∧ tm_table_uuid m = wk_table_uuid (record_key r) ∧
    parse_writer_checkpoint (h_table (header r)) (tm_properties m) wid = Ok ck ∧
    (checkpoint_generation ck < generation (header r))%N.

(** Some reply of the catalog acknowledged a commit. *)
Definition flush_acks (fe : @FlushEnv RecordBatch Schema Spec Order) : Prop :=
  (∃ m, ce_reply (fe_commit fe) = Ok m) ∨
  ∃ a m, se_status (fe_status fe a) = Ok (StCommitted m) ∨ ce_reply (se_commit (fe_status fe a)) = Ok m.
Definition acknowledged (env : @RecoveryEnv Schema Spec Order _) : Prop :=
  (∃ u m, re_status (rv_resolve env u) = Ok (StCommitted m) ∨ re_commit (rv_resolve env u) = Ok m) ∨
  ∃ i fuel fe, rc_flusher (rv_record env i) = Some (fuel, fe) ∧ flush_acks fe.

(** No other task works on the buffers during recovery. *)
Definition undisturbed (fe : @FlushEnv RecordBatch Schema Spec Order) : Prop :=
  alone (fe_others fe) ∧ alone (ce_others (fe_commit fe)) ∧
  ∀ a, alone (se_others (fe_status fe a)) ∧ alone (ce_others (se_commit (fe_status fe a))).

(** The catalog during recovery: table UUIDs identify tables, later answers speak of the
    same incarnation and checkpoint, replies carry the metadata of the table asked for. *)
Record recovery_env_ok (env : @RecoveryEnv Schema Spec Order _) (wid : Uuid) (recs : list WalRecord)
    (intents : gmap Uuid PreparedFlush) : Prop := {
  ro_uuids a b ma mb : rv_load env a = Ok ma → rv_load env b = Ok mb → tm_table_uuid ma = tm_table_uuid mb → a = b;
  ro_room ident m ck : rv_load env ident = Ok m → parse_writer_checkpoint ident (tm_properties m) wid = Ok ck →
    (checkpoint_generation ck < u64_max)%N;
  ro_loads i r : recs !! i = Some r → load_agrees (rv_load env) wid (rc_load (rv_record env i)) (h_table (header r));
  ro_leftover u p : intents !! u = Some p → load_agrees (rv_load env) wid (rv_leftover env u) (pf_table p);
  ro_flush i r fuel fe : recs !! i = Some r → rc_flusher (rv_record env i) = Some (fuel, fe) →
    undisturbed fe ∧ flush_env_ok (wk_table_uuid (record_key r)) (λ _, False) fe;
  ro_status u m : re_status (rv_resolve env u) = Ok (StCommitted m) → tm_table_uuid m = u;
  ro_commit u m : re_commit (rv_resolve env u) = Ok m → tm_table_uuid m = u;
}.

(** What the writer leaves in its log: a generation is used once per table, an idempotency
    key at most once among the records to replay, and nothing to replay is older than the
    range of an intent. *)
Record log_written (load : TableIdent → TeoDBResult Metadata) (wid : Uuid) (recs : list WalRecord)
    (intents : gmap Uuid PreparedFlush) : Prop := {
  lw_generations r : r ∈ recs → (0 < generation (header r) ≤ u64_max)%N;
  lw_distinct i j r r' : recs !! i = Some r → recs !! j = Some r' → record_key r = record_key r' →
    generation (header r) = generation (header r') → i = j;
  lw_keys i j r r' s : recs !! i = Some r → recs !! j = Some r' → replayable load wid r → replayable load wid r' →
    h_table (header r) = h_table (header r') → idempotency_key (header r) = Some s →
    idempotency_key (header r') = Some s → i = j;
  lw_intents u p r : intents !! u = Some p → r ∈ recs → replayable load wid r → wk_table_uuid (record_key r) = u →
    (gr_lo (pf_generations p) ≤ generation (header r))%N;
}.

Lemma undisturbed_alone env i fuel fe :
  rc_flusher (rv_record env i) = Some (fuel, fe) → undisturbed fe → flush_alone (acknowledged env) fe.
Proof.
  intros Hf (H1' & H2' & H3').
  assert (flush_acks fe → acknowledged env) as Hack by (intros; right; by exists i, fuel, fe).
  split_and!; [done| |intros a; split_and!]; try (by apply H3'); try split; try done.
  - intros m Hm. apply Hack. left. by exists m.
  - intros m Hm. apply Hack. right. exists a, m. by left.
  - by apply H3'.
  - intros m Hm. apply Hack. right. exists a, m. by right.
Qed.

Lemma replay_spec_increasing root load wid intents dn r todo r' :
  log_written load wid (replay_spec ∅ root) intents →
  replay_spec ∅ root = dn ++ r :: todo → r' ∈ todo → record_key r' = record_key r →
  (generation (header r) < generation (header r'))%N.
Proof.
  intros Hlw Hsplit Hr' Hk. pose proof (log_sorted_generation (live_log ∅ (wal_log root))) as Hs.
  fold (replay_spec ∅ root) in Hs. rewrite Hsplit in Hs.
  apply StronglySorted_app in Hs as (_ & _ & Hs). inversion Hs as [|? ? _ Hall]; subst.
  rewrite Forall_forall in Hall. pose proof (Hall r' Hr') as Hle.
  apply list_elem_of_lookup in Hr' as [i Hi].
  enough (generation (header r) ≠ generation (header r')) by lia. intros Heq.
  assert (length dn = length dn + S i); [|lia].
  eapply (lw_distinct _ _ _ _ Hlw); [rewrite Hsplit; by rewrite lookup_app_r, Nat.sub_diag by lia| |done|done].
  rewrite Hsplit, lookup_app_r by lia. by replace (length dn + S i - length dn) with (S i) by lia.
Qed.

(** The outcome for the records [recs] of the log. *)
Record recovered (env : @RecoveryEnv Schema Spec Order _) (wid : Uuid) (recs : list WalRecord) (n : Nd) : Prop := {
  rd_all r : r ∈ recs → replayable (rv_load env) wid r →
    ∃ ref b, n_buffers n !! h_table (header r) = Some ref ∧ n_heap n !! ref = Some b ∧
      (entry_of r ∈ rows b ∨
       (generation (header r) ≤ committed_high_water (tb_state b))%N ∧ acknowledged env);
  rd_receipts r s : r ∈ recs → replayable (rv_load env) wid r → idempotency_key (header r) = Some s →
    ce_receipt <$> completed (table_index (n_idem n) (h_table (header r))) !! s =
      Some (mkIngestReceipt (batch_id (header r)) wid (generation (header r)) (row_count (header r)));
  rd_tables ident ref : n_buffers n !! ident = Some ref →
    ∃ b, n_heap n !! ref = Some b ∧ tb_ident b = ident ∧
      world_inv max_files max_prepared_bytes (tm_table_uuid (tb_metadata b)) (node_world n b) ∧
      ∀ e, e ∈ rows b → ∃ r, r ∈ recs ∧ replayable (rv_load env) wid r ∧ h_table (header r) = ident ∧ e = entry_of r;
}.

Lemma wanted_replayable load wid ks md r :
  targets load wid ks md → record_key r ∈ ks → wanted md r ↔ replayable load wid r.
Proof.
  intros [Hin Hall] Hk. split.
  - intros (m & ck & Hmd & Hc). destruct (Hin _ _ _ Hmd) as (_ & Hl & Hu & Hck). by exists m, ck.
  - intros (m & ck & Hl & Hu & Hck & Hc). destruct (Hall _ _ Hk Hl) as [ck' Hmd].
    destruct (Hin _ _ _ Hmd) as (_ & _ & _ & Hck'). exists m, ck. simpl in Hck'. rewrite Hck in Hck'.
    injection Hck' as <-. done.
Qed.

Lemma lookup_split {A} (l : list A) dn r todo : l = dn ++ r :: todo → l !! length dn = Some r.
Proof. intros ->. by rewrite lookup_app_r, Nat.sub_diag by lia. Qed.

(** What a successful recovery has loaded before it replays. *)
Lemma recovery_loaded (env : @RecoveryEnv Schema Spec Order _) mode (n n' : Nd) :
  dir_ok (n_root n) →
  (Forall (λ p, seg_corrupt (n_root n) p = false) (segment_paths (n_root n)) ∨
   mode = ModeSalvage ∧ ∀ p, rv_rename_ok env p = true) →
  (∀ A (l : list A), hash_order A l ≡ₚ l) →
  replay_wal_inner max_files max_prepared_bytes status_check max_bytes soft grace hash_order env mode n
    = Some (n', Ok tt) →
  ∃ segs entries tables prs prepared ks md n1,
    Forall2 (snapshot_for (n_root n)) (segment_paths (n_root n)) segs ∧ Forall2 (entry_for tables) prs entries ∧
    Forall (λ pr, pr ∈ wal_log (n_root n) ∧ op (header pr.2) = Append) prs ∧ prs.*2 = replay_spec ∅ (n_root n) ∧
    list_prepared (n_prepared n) (ri_writer_id (n_identity n)) max_files max_prepared_bytes = Ok prepared ∧
    targets (rv_load env) (ri_writer_id (n_identity n)) (hash_order _ ks) md ∧
    (∀ r, r ∈ replay_spec ∅ (n_root n) → record_key r ∈ hash_order _ ks) ∧
    (∀ p, p ∈ prepared → mkWalTableKey (pf_table_uuid p) (pf_table p) ∈ hash_order _ ks) ∧
    (n_buffers n1 = n_buffers n ∧ n_idem n1 = n_idem n ∧
     log_shrinks (quarantine_all (n_root n)) (n_root n1) ∧
     ri_writer_id (n_identity n1) = ri_writer_id (n_identity n) ∧ n_prepared n1 = n_prepared n) ∧
    replay_targets max_files max_prepared_bytes status_check max_bytes soft grace hash_order env n1
      (mkReplayPlan segs entries tables 0 None false) prepared ks md = Some (n', Ok tt).
Proof.
  intros Hdir Hmode Hhash. unfold replay_wal_inner.
  destruct (prepare_plan (rv_rename_ok env) ∅ mode (n_root n) Hdir Hmode)
    as (segs & entries & tables & prs & -> & Hsegs & Hent & Hprs & Hrecs).
  cbn [set_log n_prepared n_identity].
  destruct (list_prepared _ _ _ _) as [prepared|] eqn:Hlp; [|done]. cbn [mbind result_bind].
  destruct (recovery_keys hash_order _ prepared) as [ks|] eqn:Hks; [|done].
  destruct (recovery_keys_spec _ _ _ Hks) as [Hrk Hpk]. cbn [mbind result_bind].
  destruct (load_target_metadata _ _ _) as [md|] eqn:Hmd; [|done]. cbn [mbind result_bind].
  apply load_target_spec in Hmd. intros Hrun. exists segs, entries, tables, prs, prepared, ks, md.
  assert (∀ r, r ∈ replay_spec ∅ (n_root n) → record_key r ∈ hash_order _ ks) as Hkin.
  { intros r Hr. rewrite Hhash. apply Hrk. unfold plan_table_keys. rewrite elem_of_remove_dups.
    rewrite <-Hrecs in Hr. apply list_elem_of_fmap in Hr as (pr & -> & [i Hi]%list_elem_of_lookup).
    destruct (Forall2_lookup_l _ _ _ _ _ Hent Hi) as (e & He & (_ & _ & _ & Hkey)).
    apply list_elem_of_omap. exists e. split; [by eapply list_elem_of_lookup_2|done]. }
  assert (∀ p, p ∈ prepared → mkWalTableKey (pf_table_uuid p) (pf_table p) ∈ hash_order _ ks) as Hpin
    by (intros p Hp; rewrite Hhash; by apply Hpk).
  destruct (max_observed_epoch md) as [epoch|].
  - unfold node_observe_epoch in Hrun. cbn [set_log n_root n_identity] in Hrun.
    destruct (observe_epoch_and_bump _ _ _ _ _) as [[root1 id1] [x|e]] eqn:Ho; [|done].
    apply observe_log in Ho as [Hl Hid]. eexists. do 8 (split; [done|]). split; [|exact Hrun].
    split_and!; simpl; try done. by apply log_shrinks_same.
  - eexists. do 8 (split; [done|]). split; [|exact Hrun]. done.
Qed.

(** The loop's invariant at its end is the outcome. *)
Lemma recovered_at_end (env : @RecoveryEnv Schema Spec Order _) wid ks md R recs pm0 m n2 n' :
  targets (rv_load env) wid ks md → (∀ r, r ∈ recs → wanted md r ↔ replayable (rv_load env) wid r) →
  rec_inv wid md R recs pm0 (acknowledged env) n2 ∅ m recs [] → idem_inv wid md recs (n_idem n2) →
  same_tables n2 n' → recovered env wid recs n'.
Proof.
  intros Hmd Hwr Hi Him (E1 & E2 & E3 & E4 & E5). split.
  - intros r Hr Hrep. apply Hwr in Hrep; [|done]. destruct (ri_known _ _ _ _ _ _ _ _ _ _ _ Hi r Hr Hrep) as [ref Href].
    destruct Hrep as (m0 & ck & Hk & Hc).
    destruct (table_of _ _ _ _ _ _ _ _ Hmd _ _ _ _ _ _ _ _ _ Hi Hk Href) as (b & Hb & Ht).
    exists ref, b. rewrite E1, E2. split_and!; [exact Href|done|].
    destruct (to_all _ _ _ _ _ _ _ _ Ht r Hr eq_refl Hc) as [?|Hle]; [by left|].
    destruct (to_acked _ _ _ _ _ _ _ _ Ht) as [Heq|?]; [lia|]. by right.
  - intros r s Hr Hrep Hs. rewrite E5. apply (im_all _ _ _ _ Him r s Hr); [by apply Hwr|done].
  - intros ident ref. rewrite E1, E2. intros Href.
    destruct (rec_inv_world_inv _ _ _ _ _ _ _ _ _ _ Hi Href) as (k & m0 & ck & b & Hk & Hid & Hb & Ht & Hw).
    exists b. rewrite (to_uuid _ _ _ _ _ _ _ _ Ht). split_and!; [done|by rewrite (to_ident _ _ _ _ _ _ _ _ Ht)| |].
    + unfold node_world in *. by rewrite E3, E4; destruct Hw; split.
    + intros e He. destruct (to_from _ _ _ _ _ _ _ _ Ht e He) as (r & Hr & Hrk' & Hc & ->).
      exists r. split_and!; try done; [|by rewrite <-Hid, <-Hrk'].
      apply Hwr; [done|]. exists m0, ck. by rewrite Hrk'.
Qed.


(** ** Termination *)
Lemma read_zero_tail_fuel fuel : ∀ h k z, k ≤ fuel → read_zero_tail fuel h k z ≠ OutOfFuel.
Proof.
  induction fuel as [|fuel IH]; intros h k z Hk; simpl; destruct k as [|k]; try done; [lia|].
  destruct (read_exact _ _ _) as [[chunk h']|e]; [|done]. cbn [lift mbind outcome_bind]. apply IH. lia.
Qed.

Lemma read_frame_fuel h offset limit : read_frame h offset limit ≠ OutOfFuel.
Proof.
  unfold read_frame. destruct (_ <? _)%N; [done|]. destruct (read_exact _ _ _) as [[hdr h']|e]; [|done].
  cbn [lift mbind outcome_bind]. set (len := match hdr with _ :: _ :: _ :: _ :: _ => _ | _ => _ end). clearbody len.
  destruct (len =? 0)%N.
  - destruct (read_zero_tail _ _ _ _) as [[z h2]|e|] eqn:Hz; [done|done|]. by apply read_zero_tail_fuel in Hz.
  - destruct (_ <? len)%N; [done|]. destruct (_ <? _)%N; [done|]. destruct (read_exact _ _ _) as [[body h2]|e]; done.
Qed.

Lemma next_record_fuel root plan : next_record root plan ≠ OutOfFuel.
Proof.
  unfold next_record. destruct (if rp_snapshot_checked plan then _ else _) as [[]|e]; [|done].
  cbn [lift mbind outcome_bind]. destruct (rp_entries plan !! _) as [entry|]; [|done].
  destruct (ok_or (rp_segments plan !! _) _) as [s|e]; [|done]. cbn [lift mbind outcome_bind].
  destruct (match rp_file plan with Some _ => _ | None => _ end) as [h|e]; [|done]. cbn [lift mbind outcome_bind].
  destruct (read_frame _ _ _) as [[d h']|e|] eqn:Hf; [|done|by apply read_frame_fuel in Hf].
  cbn [mbind outcome_bind]. destruct d as [r c| |e]; try done.
  destruct (ok_or _ _) as [k|e]; [|done]. cbn [lift mbind outcome_bind].
  destruct (if bool_decide _ then _ else _) as [k'|e]; [|done]. cbn [lift mbind outcome_bind]. by case_decide.
Qed.

Lemma next_record_index root plan r plan' :
  next_record root plan = Returns (Some r, plan') →
  rp_entries plan' = rp_entries plan ∧ rp_entry_index plan' = S (rp_entry_index plan) ∧
  rp_entry_index plan < length (rp_entries plan).
Proof.
  unfold next_record. destruct (if rp_snapshot_checked plan then _ else _) as [[]|e]; [|done].
  cbn [lift mbind outcome_bind]. destruct (rp_entries plan !! _) as [entry|] eqn:He; [|done].
  apply lookup_lt_Some in He.
  destruct (ok_or (rp_segments plan !! _) _) as [s|e]; [|done]. cbn [lift mbind outcome_bind].
  destruct (match rp_file plan with Some _ => _ | None => _ end) as [h|e]; [|done]. cbn [lift mbind outcome_bind].
  destruct (read_frame _ _ _) as [[d h']|e|]; [|done|done].
  cbn [mbind outcome_bind]. destruct d as [r' c| |e]; try done.
  destruct (ok_or _ _) as [k|e]; [|done]. cbn [lift mbind outcome_bind].
  destruct (if bool_decide _ then _ else _) as [k'|e]; [|done]. cbn [lift mbind outcome_bind].
  case_decide; [|done]. by intros [= <- <-].
Qed.

Lemma prepare_segment_fuel rename_ok committed mode i p root st segs :
  dir_ok root → prepare_segment rename_ok committed mode i p (root, st, segs) ≠ OutOfFuel ∧
  ∀ root' st' segs', prepare_segment rename_ok committed mode i p (root, st, segs) = Returns (root', st', segs') →
    dir_ok root'.
Proof.
  intros Hs. destruct (root !! p) as [f|] eqn:Hf; [|unfold prepare_segment, segment_identity; rewrite Hf; by split].
  destruct (prepare_segment_spec rename_ok committed mode root i p f root st segs Hs Hf Hf) as (snap & _ & ->).
  simpl. destruct (seg_corrupt root p); [|split; [done|by intros ? ? ? [= <- _ _]]].
  destruct mode; [by split|]. destruct (rename_ok p); [|by split]. split; [done|]. intros ? ? ? [= <- _ _] q g.
  unfold rename_file. rewrite Hf. intros [[_ <-]|[_ [_ ?]%lookup_delete_Some]]%lookup_insert_Some; by eapply Hs.
Qed.

Lemma prepare_fuel rename_ok committed mode root : dir_ok root → prepare rename_ok committed mode root ≠ OutOfFuel.
Proof.
  intros Hs. unfold prepare.
  assert (∀ paths i r st segs, dir_ok r → prepare_segments rename_ok committed mode i paths (r, st, segs) ≠ OutOfFuel)
    as Hp.
  { induction paths as [|p paths IH]; intros i r st segs Hr; cbn [prepare_segments]; [done|].
    destruct (prepare_segment_fuel rename_ok committed mode i p r st segs Hr) as [Hne Hok].
    destruct (prepare_segment _ _ _ _ _ _) as [[[r' st'] segs']|e|] in *; [|done|by destruct Hne].
    apply IH. by eapply Hok. }
  specialize (Hp (segment_paths root) 0 root (mkPrepState [] [] ∅ ∅) [] Hs).
  destruct (prepare_segments _ _ _ _ _ _) as [[[r' st'] segs']|e|]; done.
Qed.

Lemma flush_table_total fuel fe fl (n : Nd) ident :
  (num_retries status_check < u32_max)%N → (num_retries status_check < N.of_nat fuel)%N →
  ∃ n' r, flush_table max_files max_prepared_bytes status_check fuel fe fl n ident = Some (n', r).
Proof.
  intros Hret Hfuel. unfold flush_table.
  destruct (n_buffers n !! ident) as [ref|]; cbn [mbind option_bind]; [|by do 2 eexists].
  destruct (n_heap n !! ref) as [b|]; cbn [mbind option_bind]; [|by do 2 eexists].
  destruct (flush_once_total max_files max_prepared_bytes status_check fuel fe (node_world n b) Hret Hfuel)
    as (w' & r' & ->). by do 2 eexists.
Qed.

Lemma replay_record_total rc resolve md (n : Nd) pm r :
  (num_retries status_check < u32_max)%N →
  (∀ fuel fe, rc_flusher rc = Some (fuel, fe) → (num_retries status_check < N.of_nat fuel)%N) →
  ∃ x, replay_record max_files max_prepared_bytes status_check max_bytes soft grace rc resolve md n pm r = Some x.
Proof.
  intros Hret Hfuel.
  assert (∀ (n1 : Nd) ref key, ∃ x, replay_insert max_files max_prepared_bytes status_check rc pm n1 ref key r = Some x) as Hins.
  { intros n1 ref key. unfold replay_insert.
    destruct (replay_entry n1 ref r) as [n2 [u|[]]]; try (by eexists).
    destruct (rc_flusher rc) as [[fuel fe]|]; [|by eexists]. destruct (inside_prepared _ _ _); [by eexists|].
    destruct (flush_table_total fuel fe (rc_flush_load rc) n2 (h_table (header r)) Hret (Hfuel _ _ eq_refl))
      as (n3 & r3 & ->). simpl. destruct r3 as [[]|]; by eexists. }
  unfold replay_record. destruct (table_key _) as [key|]; [|by eexists].
  destruct (md !! key) as [[m ck]|]; [|by eexists]. destruct (checkpoint_covers _ _); [by eexists|].
  destruct (get_or_load _ _ _ _ _ _) as [n1 [ref|e]]; [|by eexists].
  destruct (claim_record _ _ _) as [n2 []]; try (by eexists).
  destruct (Hins n2 ref key) as [[n3 [u|e]] ->]; simpl; [|by eexists].
  destruct (reached_intent _ _ _); [|by eexists]. destruct (node_resolve _ _ _ _) as [n4 []]; by eexists.
Qed.

(** C40.  Recovery ends: whatever the log, the catalog and the disk answer, the loop over the
    plan stops after as many records as the plan has entries, and every flush within its
    configured number of status checks, so recovery returns a result. *)
Theorem recovery_terminates (env : @RecoveryEnv Schema Spec Order _) mode (n : Nd)
    (Hsizes : dir_ok (n_root n)) (Hretries : (num_retries status_check < u32_max)%N)
    (Hfuel : ∀ i fuel fe, rc_flusher (rv_record env i) = Some (fuel, fe) →
       (num_retries status_check < N.of_nat fuel)%N) :
  ∃ n' r, replay_wal_inner max_files max_prepared_bytes status_check max_bytes soft grace hash_order env mode n
          = Some (n', r).
Proof.
  assert (∀ fuel md i (n1 : Nd) plan pm,
    rp_entry_index plan ≤ length (rp_entries plan) < fuel + rp_entry_index plan →
    ∃ x, replay_loop max_files max_prepared_bytes status_check max_bytes soft grace fuel env md i n1 plan pm = Some x)
    as Hloop.
  { induction fuel as [|fuel IH]; intros md i n1 plan pm Hlt; simpl; [lia|].
    destruct (next_record (n_root n1) plan) as [[[r|] plan']|e|] eqn:Hn; try (by eexists).
    2: by apply next_record_fuel in Hn.
    apply next_record_index in Hn as (He & Hi & Hlt').
    destruct (replay_record_total (rv_record env i) (rv_resolve env) md n1 pm r Hretries (Hfuel i)) as [[[n2 pm2] r2] ->].
    simpl. destruct r2; [|by eexists]. apply IH. rewrite He, Hi. lia. }
  unfold replay_wal_inner.
  destruct (prepare _ _ _ _) as [[root plan]|e|] eqn:Hp; [|by do 2 eexists|by apply prepare_fuel in Hp].
  assert (rp_entry_index plan = 0) as Hzero.
  { revert Hp. unfold prepare. destruct (prepare_segments _ _ _ _ _ _) as [[[r st] segs]|e|]; [|done|done].
    by intros [= _ <-]. }
  assert (∀ (n1 : Nd) prepared ks md, ∃ n' r,
    replay_targets max_files max_prepared_bytes status_check max_bytes soft grace hash_order env n1 plan prepared ks md
      = Some (n', r)) as Htargets.
  { intros n1 prepared ks md. unfold replay_targets.
    destruct (Hloop (S (length (rp_entries plan))) md 0 (seed_all hash_order n1 md) plan (prepared_by_uuid prepared))
      as [[[n2 pm2] r2] ->]; [lia|]. simpl. destruct r2; [|by do 2 eexists].
    destruct (resolve_leftover _ _ _ _ _ _) as [n3 []]; [|by do 2 eexists].
    destruct (tombstone_dropped _ _ _) as [n4 []]; by do 2 eexists. }
  destruct (_ ≫= _) as [[[prepared ks] md]|e]; [|by do 2 eexists].
  destruct (max_observed_epoch md); [|apply Htargets].
  destruct (node_observe_epoch _ _ _ _) as [n1 []]; [apply Htargets|by do 2 eexists].
Qed.

(** ** Recoveries that fail *)

(**  A record of another incarnation than the catalog's stops recovery: if the log holds
    a live record of a table that was dropped and created again, without a tombstone after
    it, recovery never succeeds, whatever else happens. *)
Theorem stale_incarnation_blocks_recovery (env : @RecoveryEnv Schema Spec Order _) mode (n n' : Nd) r m
    (Hdir : dir_ok (n_root n))
    (Hmode : Forall (λ p, seg_corrupt (n_root n) p = false) (segment_paths (n_root n)) ∨
             mode = ModeSalvage ∧ ∀ p, rv_rename_ok env p = true)
    (Hhash : ∀ A (l : list A), hash_order A l ≡ₚ l)
    (Hrec : r ∈ replay_spec ∅ (n_root n)) (Hload : rv_load env (h_table (header r)) = Ok m)
    (Hstale : tm_table_uuid m ≠ wk_table_uuid (record_key r)) :
  replay_wal_inner max_files max_prepared_bytes status_check max_bytes soft grace hash_order env mode n
    ≠ Some (n', Ok tt).
Proof.
  intros Hrun. destruct (recovery_loaded env mode n n' Hdir Hmode Hhash Hrun)
    as (segs & entries & tables & prs & prepared & ks & md & n1 & _ & _ & _ & _ & _ & [Hin Hall] & Hkin & _).
  destruct (Hall _ _ (Hkin r Hrec) Hload) as [ck Hk]. by destruct (Hin _ _ _ Hk) as (_ & _ & ? & _).
Qed.

Lemma get_or_load_other le (n n' : Nd) ident r t :
  get_or_load max_bytes soft grace le n ident = (n', r) → t ≠ ident → n_buffers n' !! t = n_buffers n !! t.
Proof.
  unfold get_or_load, node_observe_epoch. intros Hg Ht. revert Hg.
  repeat (case_match; simplify_eq/=; try (by intros [= <- <-])); intros; simplify_eq/=; by rewrite ?lookup_insert_ne.
Qed.

Lemma replay_insert_buffers rc pm (n : Nd) ref key r n' res :
  replay_insert max_files max_prepared_bytes status_check rc pm n ref key r = Some (n', res) →
  n_buffers n' = n_buffers n.
Proof.
  assert (∀ (n1 : Nd), n_buffers (replay_entry n1 ref r).1 = n_buffers n1) as Hent.
  { intros n1. unfold replay_entry. destruct (n_heap n1 !! ref); [|done]. by destruct (insert_with_generation_at _ _ _ _ _). }
  assert (∀ fuel fe fl (n1 n2 : Nd) ident o,
    flush_table max_files max_prepared_bytes status_check fuel fe fl n1 ident = Some (n2, o) →
    n_buffers n2 = n_buffers n1) as Hfl.
  { intros fuel fe fl n1 n2 ident o. unfold flush_table.
    destruct (n_buffers n1 !! ident) as [ref'|]; cbn [mbind option_bind]; [|by intros [= <- <-]].
    destruct (n_heap n1 !! ref') as [b|]; cbn [mbind option_bind]; [|by intros [= <- <-]].
    destruct (flush_once_inner _ _ _ _ _ _) as [[w r']|]; [|done]. by intros [= <- <-]. }
  unfold replay_insert. pose proof (Hent n) as He. destruct (replay_entry n ref r) as [n1 r1]. simpl in He.
  destruct r1 as [u|e]; [by intros [= <- <-]|]. destruct e; try (by intros [= <- <-]).
  destruct (rc_flusher rc) as [[fuel fe]|]; [|by intros [= <- <-]].
  destruct (inside_prepared _ _ _); [by intros [= <- <-]|].
  destruct (flush_table _ _ _ _ _ _ _ _) as [[n2 o]|] eqn:Hf; [|done]. apply Hfl in Hf. cbn [mbind option_bind].
  destruct o as [[|lo hi c]|e]; intros Heq; simplify_eq; try congruence.
  pose proof (Hent n2) as He2. rewrite Heq in He2. simpl in He2. congruence.
Qed.

Lemma node_resolve_buffers renv (n : Nd) ref p n' r : node_resolve renv n ref p = (n', r) → n_buffers n' = n_buffers n.
Proof.
  unfold node_resolve. destruct (n_heap n !! ref); [|by intros [= <- <-]].
  destruct (resolve_prepared _ _ _). by intros [= <- <-].
Qed.

Lemma replay_record_untouched rc resolve md (n : Nd) pm r n' pm' t u p :
  n_buffers n !! t = None → pm !! u = Some p →
  (∀ k v, md !! k = Some v → wk_ident k ≠ t ∧ wk_table_uuid k ≠ u) →
  replay_record max_files max_prepared_bytes status_check max_bytes soft grace rc resolve md n pm r =
    Some (n', pm', Ok tt) →
  n_buffers n' !! t = None ∧ pm' !! u = Some p ∧ pm' ⊆ pm.
Proof.
  intros Hb Hp Hmd. unfold replay_record.
  destruct (table_key (header r)) as [key|e] eqn:Hkey; [|done].
  assert (wk_ident key = h_table (header r)) as Hid.
  { unfold table_key in Hkey. destruct (header_validate _); [|done]. simpl in Hkey.
    destruct (h_table_uuid (header r)); simplify_eq/=. done. }
  destruct (md !! key) as [[m0 ck]|] eqn:Hk; [|by intros [= <- <-]]. destruct (Hmd _ _ Hk) as [Ht Hu].
  destruct (checkpoint_covers _ _); [by intros [= <- <-]|].
  destruct (get_or_load _ _ _ _ _ _) as [n1 [ref|e]] eqn:Hg; [|done].
  apply (get_or_load_other _ _ _ _ _ t) in Hg; [|congruence]. rewrite Hb in Hg.
  assert (n_buffers (claim_record (rc_now rc) n1 (header r)).1 = n_buffers n1) as Hc.
  { unfold claim_record. destruct (idempotency_key (header r)); [|done]. by destruct (claim _ _ _ _). }
  destruct (claim_record _ _ _) as [n2 c]. simpl in Hc. rewrite <-Hc in Hg.
  destruct c; [|by intros [= <- <-]..].
  destruct (replay_insert _ _ _ _ _ _ _ _ _) as [[n3 [[]|e]]|] eqn:Hi; [|done..].
  apply replay_insert_buffers in Hi. rewrite <-Hi in Hg. cbn [mbind option_bind].
  assert (n_buffers (record_receipt n3 (header r)) = n_buffers n3) as Hr
    by (unfold record_receipt; by destruct (idempotency_key (header r))).
  rewrite <-Hr in Hg. destruct (reached_intent _ _ _) as [q|]; [|by intros [= <- <-]].
  destruct (node_resolve _ _ _ _) as [n5 [[]|e]] eqn:Hn; [|done]. apply node_resolve_buffers in Hn.
  intros [= <- <-]. rewrite Hn. split_and!; [done|by rewrite lookup_delete_ne|apply delete_subseteq].
Qed.

Lemma replay_loop_untouched fuel env md t u p : (∀ k v, md !! k = Some v → wk_ident k ≠ t ∧ wk_table_uuid k ≠ u) →
  ∀ i (n : Nd) plan pm n' pm', n_buffers n !! t = None → pm !! u = Some p →
  replay_loop max_files max_prepared_bytes status_check max_bytes soft grace fuel env md i n plan pm =
    Some (n', pm', Ok tt) →
  n_buffers n' !! t = None ∧ pm' !! u = Some p ∧ pm' ⊆ pm.
Proof.
  intros Hmd. induction fuel as [|fuel IH]; intros i n plan pm n' pm' Hb Hp; [done|]. cbn [replay_loop].
  destruct (next_record _ _) as [[[r|] plan']|e|]; try done; [|by intros [= <- <-]].
  destruct (replay_record _ _ _ _ _ _ _ _ _ _ _ _) as [[[n1 pm1] [[]|e1]]|] eqn:Hr; [|done..].
  destruct (replay_record_untouched _ _ _ _ _ _ _ _ _ _ _ Hb Hp Hmd Hr) as (Hb1 & Hp1 & Hsub).
  cbn [mbind option_bind]. intros Hl. destruct (IH _ _ _ _ _ _ Hb1 Hp1 Hl) as (? & ? & ?). split_and!; try done. by etrans.
Qed.

Lemma leftover_blocked env p l : ∀ (n n' : Nd), p ∈ l → n_buffers n !! pf_table p = None →
  (∀ q, q ∈ l → pf_table q = pf_table p → ∃ s, le_load (rv_leftover env (pf_table_uuid q)) = Err (NotFound s)) →
  resolve_leftover max_bytes soft grace env n l ≠ (n', Ok tt).
Proof.
  induction l as [|q l IH]; intros n n' Hin Hb Hload; [by apply elem_of_nil in Hin|]. simpl.
  destruct (decide (pf_table q = pf_table p)) as [Heq|Hne].
  - unfold get_or_load. rewrite Heq, Hb. destruct (Hload q) as [s ->]; [by left|done|]. done.
  - destruct (get_or_load _ _ _ _ _ _) as [n1 [ref|e]] eqn:Hg; [|done].
    apply (get_or_load_other _ _ _ _ _ (pf_table p)) in Hg; [|done]. rewrite Hb in Hg.
    destruct (node_resolve _ _ _ _) as [n2 [[]|e]] eqn:Hn; [|done]. apply node_resolve_buffers in Hn.
    apply IH; [by apply elem_of_cons in Hin as [->|?]|by rewrite Hn|]. intros q' Hq'. apply Hload. by right.
Qed.

(**  A durable intent of a table that has been dropped blocks startup: recovery skips the
    records of a table the catalog does not know, but still loads the table to resolve its
    intent, and so never succeeds; nothing but recovery removes the intent. *)
Theorem dropped_intent_blocks_recovery (env : @RecoveryEnv Schema Spec Order _) mode (n n' : Nd) intents u p s
    (Hdir : dir_ok (n_root n))
    (Hmode : Forall (λ p, seg_corrupt (n_root n) p = false) (segment_paths (n_root n)) ∨
             mode = ModeSalvage ∧ ∀ p, rv_rename_ok env p = true)
    (Hhash : ∀ A (l : list A), hash_order A l ≡ₚ l) (Hfresh : n_buffers n = ∅)
    (Hstore : store_rep (ri_writer_id (n_identity n)) max_files max_prepared_bytes (n_prepared n) intents)
    (Hintent : intents !! u = Some p)
    (Hdropped : rv_load env (pf_table p) = Err (NotFound s))
    (Hunused : ∀ ident m, rv_load env ident = Ok m → tm_table_uuid m ≠ u)
    (Hstill : ∀ v q, intents !! v = Some q → pf_table q = pf_table p →
       ∃ s, le_load (rv_leftover env v) = Err (NotFound s)) :
  replay_wal_inner max_files max_prepared_bytes status_check max_bytes soft grace hash_order env mode n
    ≠ Some (n', Ok tt).
Proof.
  intros Hrun. destruct (recovery_loaded env mode n n' Hdir Hmode Hhash Hrun)
    as (segs & entries & tables & prs & prepared & ks & md & n1 & _ & _ & _ & _ & Hlp & [Hin Hall] & _ & _
      & (Hb1 & _ & _ & _ & _) & Hrt).
  destruct (list_prepared_store _ max_files max_prepared_bytes _ _ Hstore) as (prepared' & Hlp' & Hperm).
  assert (prepared' = prepared) as -> by congruence.
  assert (prepared_by_uuid prepared = intents) as Hpm.
  { apply prepared_by_uuid_store; [|done]. intros v q Hq. by apply Hstore. }
  unfold replay_targets in Hrt. rewrite Hpm in Hrt.
  destruct (seed_all_same md n1) as ((_ & E2 & _) & _).
  set (n2 := seed_all hash_order n1 md) in *. clearbody n2. rewrite Hb1, Hfresh in E2.
  assert (∀ k v, md !! k = Some v → wk_ident k ≠ pf_table p ∧ wk_table_uuid k ≠ u) as Hmd.
  { intros k [m ck] Hk. destruct (Hin _ _ _ Hk) as (_ & Hl & Hu & _). split; [congruence|].
    rewrite <-Hu. by eapply Hunused. }
  destruct (replay_loop _ _ _ _ _ _ _ _ _ _ _ _ _) as [[[n3 pm3] [[]|e]]|] eqn:Hl; [|done..].
  assert (n_buffers n2 !! pf_table p = None) as Hnone by (by rewrite E2).
  destruct (replay_loop_untouched _ _ _ _ _ _ Hmd _ _ _ _ _ _ Hnone Hintent Hl) as (Hb3 & Hp3 & Hsub).
  cbn [mbind option_bind] in Hrt.
  destruct (resolve_leftover _ _ _ _ _ _) as [n4 [[]|e]] eqn:Hr; [|done].
  eapply (leftover_blocked _ p), Hr; [|done|].
  - rewrite Hhash. apply list_elem_of_fmap. exists (u, p). by rewrite elem_of_map_to_list.
  - intros q. rewrite Hhash. intros ([v q'] & -> & Hq%elem_of_map_to_list)%list_elem_of_fmap Heq. simpl in *.
    assert (intents !! v = Some q') as Hq' by (by eapply lookup_weaken). destruct Hstore as [_ Hst].
    destruct (Hst _ _ Hq') as [-> _]. by eapply Hstill.
Qed.
End main.

(** ** A concrete recovery, for evaluation *)
Section demo.
#[local] Existing Instances demo_uuid_text demo_uuid_text_laws demo_checkpoint_json demo_identity_json
  demo_prepared_json demo_prepared_json_laws demo_committed_json demo_wal_codec demo_record_ops.
Abbreviation demo_meta := (TableMetadata unit unit unit).

(** The first of two logged records is covered by an intent whose outcome is unknown. *)
Definition demo_open_intent : PreparedFlush :=
  PreparedFlush_new demo_table 5 7 3 99 (mkGenerationRange 1 1) 2 7 (demo_files 99) None.
Definition demo_sidecars : option WalDir :=
  (persist_prepared false no_faults 1 None demo_open_intent 7 10000 DEFAULT_MAX_PREPARED_BYTES).1.
Definition demo_crashed : @Node unit unit unit demo_wal_codec :=
  mkNode [] ∅ 0 (spawn 1000 true (scan_next_seq demo_root)) demo_root demo_sidecars ∅
    (mkResolvedIdentity 1 "node" "slot" 7 3) (IdempotencyIndex_new 60).
Definition demo_lookup (loaded : TeoDBResult demo_meta) (ident : TableIdent) : TeoDBResult demo_meta :=
  if decide (ident = demo_table) then loaded else Err (NotFound "t").
Definition demo_recovery_env (loaded : TeoDBResult demo_meta) : @RecoveryEnv unit unit unit demo_wal_codec :=
  mkRecoveryEnv (λ _, true) (demo_lookup loaded) no_faults 8
    (λ _, mkRecordEnv (mkLoadEnv loaded no_faults 9) 5 None loaded)
    (λ _, mkResolveEnv (Ok (StUnknown "timeout")) (Err (ExternalRetryable "busy")) 4 9 (λ _, false) [] RemoveOk)
    (λ _, mkLoadEnv loaded no_faults 9) (λ _, mkTombstoneEnv io_fine [] 901 0 (λ _, false) []) (λ _, true) (λ _, true) 0.
Definition demo_recover (loaded : TeoDBResult demo_meta) :=
  replay_wal_inner 10000 DEFAULT_MAX_PREPARED_BYTES demo_status_check 1000 800 50 (λ _ l, l)
    (demo_recovery_env loaded) ModeSalvage demo_crashed.

Lemma demo_sidecars_rep :
  store_rep 7 10000 DEFAULT_MAX_PREPARED_BYTES demo_sidecars {[ 5%N := demo_open_intent ]}.
Proof.
  assert (store_rep 7 10000 DEFAULT_MAX_PREPARED_BYTES None ∅) as Hempty.
  { split; [intros name _ [f Hf]; discriminate (eq_trans (eq_sym (lookup_empty name)) Hf)|].
    intros u p Hp. by rewrite lookup_empty in Hp. }
  pose proof (persist_prepared_store 7 10000 DEFAULT_MAX_PREPARED_BYTES false no_faults 1 None ∅ demo_open_intent _ _
    Hempty I (surjective_pairing _)) as Hs. simpl in Hs. destruct Hs as [[_ Hs]|Hs]; [|exact Hs].
  exfalso. apply Hs. vm_compute. reflexivity.
Qed.

Lemma demo_log : replay_spec ∅ demo_root = [demo_append 1; demo_append 2].
Proof. vm_compute. reflexivity. Qed.

Lemma demo_recovery_env_ok loaded :
  (∀ m, loaded = Ok m → m = demo_lake_metadata) →
  recovery_env_ok (demo_recovery_env loaded) 7 (replay_spec ∅ demo_root) {[ 5%N := demo_open_intent ]}.
Proof.
  intros Hm. rewrite demo_log.
  assert (∀ ident m, demo_lookup loaded ident = Ok m → ident = demo_table ∧ m = demo_lake_metadata) as Hl.
  { intros ident m. unfold demo_lookup. case_decide; [auto|done]. }
  assert (∀ le, le_load le = loaded → load_agrees (demo_lookup loaded) 7 le demo_table) as Hag.
  { intros le Hle m Hlm. exists m. split; [|done]. unfold demo_lookup. rewrite decide_True by done. congruence. }
  split; simpl; try done.
  - intros a b ma mb [-> _]%Hl [-> _]%Hl. done.
  - intros ident m ck [-> ->]%Hl Hck. vm_compute in Hck. injection Hck as <-. vm_compute. reflexivity.
  - intros [|[|i]] r [= <-]; apply Hag; reflexivity.
  - intros u p [<- <-]%lookup_singleton_Some. apply Hag. reflexivity.
Qed.

Lemma demo_log_written (load : TableIdent → TeoDBResult demo_meta) : log_written load 7 (replay_spec ∅ demo_root) {[ 5%N := demo_open_intent ]}.
Proof.
  rewrite demo_log. split.
  - intros r [->|[->|?%elem_of_nil]%elem_of_cons]%elem_of_cons; [..|done]; vm_compute; split; done.
  - intros [|[|i]] [|[|j]] r r' [= <-] [= <-] _; done.
  - intros [|[|i]] [|[|j]] r r' s [= <-] [= <-] _ _ _; done.
  - intros u p r [<- <-]%lookup_singleton_Some [->|[->|?%elem_of_nil]%elem_of_cons]%elem_of_cons; done.
Qed.


Lemma recovery_terminates_witness : ∃ n' r, demo_recover (Err (NotFound "gone")) = Some (n', r).
Proof.
  apply (recovery_terminates 10000 DEFAULT_MAX_PREPARED_BYTES demo_status_check 1000 800 50 (λ _ l, l)
    (demo_recovery_env (Err (NotFound "gone"))) ModeSalvage demo_crashed demo_root_ok).
  - reflexivity.
  - intros i fuel fe Hf. discriminate.
Defined.

(** The table was dropped and created again with another UUID. *)
Definition demo_recreated : demo_meta :=
  mkTableMetadata 6 "analytics" "events" (mkObjectLocation S3 (Some "lake") "wh/events") None 0 0 0
    [tt] [tt] [] [] None ∅.
Lemma stale_incarnation_blocks_recovery_witness : snd <$> demo_recover (Ok demo_recreated) ≠ Some (Ok tt).
Proof.
  intros Hr. destruct (demo_recover (Ok demo_recreated)) as [[n' r]|] eqn:He; [|discriminate]. injection Hr as ->.
  revert He.
  apply (stale_incarnation_blocks_recovery 10000 DEFAULT_MAX_PREPARED_BYTES demo_status_check 1000 800 50 (λ _ l, l)
    (demo_recovery_env (Ok demo_recreated)) ModeSalvage demo_crashed n' (demo_append 1) demo_recreated demo_root_ok).
  - right. split; reflexivity.
  - intros. reflexivity.
  - simpl. rewrite demo_log. left.
  - reflexivity.
  - vm_compute. discriminate.
Defined.

Lemma dropped_intent_blocks_recovery_witness : snd <$> demo_recover (Err (NotFound "gone")) ≠ Some (Ok tt).
Proof.
  intros Hr. destruct (demo_recover (Err (NotFound "gone"))) as [[n' r]|] eqn:He; [|discriminate]. injection Hr as ->.
  revert He.
  apply (dropped_intent_blocks_recovery 10000 DEFAULT_MAX_PREPARED_BYTES demo_status_check 1000 800 50 (λ _ l, l)
    (demo_recovery_env (Err (NotFound "gone"))) ModeSalvage demo_crashed n' {[ 5%N := demo_open_intent ]} 5
    demo_open_intent "gone" demo_root_ok).
  - right. split; reflexivity.
  - intros. reflexivity.
  - reflexivity.
  - exact demo_sidecars_rep.
  - reflexivity.
  - reflexivity.
  - intros ident m. simpl. unfold demo_lookup. case_decide; discriminate.
  - intros. exists "gone". reflexivity.
Defined.
End demo.
